(* ===== verification/_CoqProject ===== *)
-Q . S2P
Prelude.v
StreamTable.v
Http1Detail.v
Http1RequestLine.v
Http1HeaderLine.v
Http1Chunked.v
IoBuf.v
HttpHeaders.v
HeaderMap.v
Http2Protocol.v
IoError.v
HeaderStore.v
HttpExchange.v
Http1Response.v
Http1Input.v
Http1Connection.v
Http1Body.v
Http1BodyChunked.v
Http1BodyPaths.v
Http1Run.v
Http2StreamState.v
Http2Sending.v
Http2SendQueue.v
Http2State.v
Http2Stream.v
Http2Reader.v
Http2Connection.v
Http2Padding.v
Http2Lifecycle.v
Http2Integrity.v
ScriptAst.v
ScriptCompiler.v
ScriptWords.v
ScriptVm.v
ScriptTree.v
ScriptSemantics.v
ScriptCompile.v
ScriptMachine.v
ScriptCorrect.v
ScriptNames.v
ScriptProgram.v
ScriptHandlers.v
ScriptExamples.v
ScriptTokens.v
ScriptLiteral.v
ScriptParser.v
ScriptShape.v
ScriptGrammar.v
ScriptText.v
JsText.v
JsHeap.v
JsObject.v
JsObjectMap.v
JsCollect.v
JsIterator.v
JsonLex.v
JsonStream.v
JsonParse.v
JsonEncode.v
JsonTree.v
JsonPrinted.v
JsonRoundTrip.v
JsonTotal.v
