(* ===== verification/Prelude.v ===== *)
(** * Verification of the fiber gateway

    The gateway is an HTTP server in C++ coroutines with a scripting language.
    This development models its protocol engines and its script engine as
    executable functions, one definition per function or branch of the source,
    and proves what makes them correct.  All paths are relative to [src/].

    ** The program and its parts

    A connection runs on one event loop.  An HTTP/1 connection parses a request
    with the incremental parsers, hands an exchange to a handler and writes the
    response the handler asks for.  An HTTP/2 connection has a parse loop that
    dispatches frames to handlers, a table of streams, and a send loop that
    drains a queue of frames the streams enqueue within the flow-control
    windows.  Scripts are compiled to 32-bit codes which the interpreter runs;
    an asynchronous function suspends it until the host answers.  The values of
    a script live in a heap with a tracing collector; JSON texts are read into it.

    ** Files

    Shared
    - [Prelude]: machine words ([wrap w], written [u8], [u32], [u64]), big-endian
      bytes, list lemmas, hints.
    - [IoError]: [common/IoError.cpp], the error codes and their conversions.
    - [IoBuf]: [common/mem/IoBuf.cpp], handles on reference-counted blocks in an
      explicit heap, chains of handles, the operations that slice and consume.

    HTTP/1
    - [Http1Detail]: namespace [detail] of [http/Http1Parser.cpp], [HttpCommon.h].
    - [Http1RequestLine], [Http1HeaderLine], [Http1Chunked]: the state machines of
      [http/Http1Parser.cpp], one [step_...] per [case]; [execute] is the loop over
      the bytes of the buffer with the state saved between calls, and
      [replace_buf_ptr] moves the recorded pointers to a new buffer.
    - [HttpHeaders]: [http/HttpHeaders.cpp], the header table as a store of nodes
      linked in one list and in bucket chains.
    - [HeaderStore]: the interface (class and laws) by which the exchange uses it.
    - [HttpExchange]: [http/HttpExchange.cpp], request and response state.
    - [Http1Response]: the writing half of [http/Http1ExchangeIo.cpp].
    - [HeaderMap]: [http/HeaderMap.h], the table from names to header handlers.
    - [Http1Input]: what the reading side works on: the bytes received ahead, the
      transport, the growing parse buffer.
    - [Http1Connection]: [parse_request] of [http/Http1Connection.cpp] and the
      handlers of Content-Length, Transfer-Encoding and Connection.
    - [Http1Body]: the reading half of [http/Http1ExchangeIo.cpp]: [read_body],
      [read_request_trailers], and [discard_body].
    - [Http1BodyChunked]: what they make of a printed chunked body.
    - [Http1BodyPaths]: what a call of the body reader leaves, failing or not.
    - [Http1Run]: [run] and [finish] of [http/Http1Connection.cpp]: the loop over
      requests, the calls a handler makes on its exchange ([http/HttpExchange.cpp]),
      the fate of unread bodies and unfinished responses, and the close.

    HTTP/2
    - [Http2Protocol]: [http/Http2Protocol.h], frame headers and control payloads.
    - [StreamTable]: [http/Http2StreamTable.cpp], the open-addressing table.
    - [Http2StreamState]: the transition table of [http/Http2Stream.cpp].
    - [Http2Sending], [Http2SendQueue]: [Http2SendPayload.cpp], [Http2Pending.h],
      [Http2PendingPool.cpp], [Http2SendingEntryQueue.cpp].
    - [Http2State]: the members of [Http2Connection.h] and [Http2Stream.h]; streams
      and pending entries are heap objects with addresses, and class
      [StreamIndex] is what the connection asks of its stream table.
    - [Http2Stream]: the methods of [http/Http2Stream.cpp].
    - [Http2Reader]: the read loop of [Http2Connection::run].
    - [Http2Connection]: the frame handlers, settings, shutdown and the send loop
      of [http/Http2Connection.cpp].
    - [Http2Padding]: what a stream is handed of a padded frame in pieces.
    - [Http2Lifecycle]: all entry points of a connection as one step relation.
    - [Http2Integrity]: invariants along its runs.

    Script text
    - [ScriptTokens]: [script/parse/Tokenizer.cpp], bytes to tokens.
    - [ScriptLiteral], [ScriptParser]: [script/parse/Parser.cpp], tokens to the
      tree, as a monad over the tokens left; the library a script is parsed for
      is class [Library].
    - [ScriptShape]: a program logic for the parser and the shape of its trees.
    - [ScriptGrammar]: the grammar of expressions as a relation, read exactly.
    - [ScriptText]: the grammar of statements, and [script/ScriptCompiler.cpp].

    Scripts
    - [ScriptAst]: the tree of [script/ast/] and the codes of [script/ir/Code.h].
    - [ScriptCompiler]: [script/ir/Compiler.cpp] as a state monad.
    - [ScriptWords], [ScriptVm]: [script/run/InterpreterVm.cpp], the decoding of
      codes and the interpreter, over class [Values] (values, heap, library).
    - [ScriptTree], [ScriptSemantics]: the tree with resolved names, the code it
      stands for, and its evaluation: the specification of the two above.
    - [ScriptCompile], [ScriptMachine], [ScriptCorrect], [ScriptNames],
      [ScriptProgram]: the compiler emits the code of the resolved tree, the
      interpreter runs that code as the tree evaluates, and their composition.
    - [ScriptHandlers], [ScriptExamples]: the exception index; scripts run by
      evaluation.

    Values and JSON
    - [JsText]: [common/json/Utf.cpp] and every other reader and writer of UTF-8
      and UTF-16 of [common/json/].
    - [JsHeap]: [common/json/JsNode.h] and [JsGc.h]: values and heap cells, the monad
      of the heap, strings and arrays of [JsGc.cpp].
    - [JsObject]: the hash table of an object, in [JsGc.cpp], with its order links.
    - [JsObjectMap]: an object is a map that keeps the order of insertion.
    - [JsCollect]: marking, sweeping, root sets, handles, and [script/Runtime.cpp].
    - [JsIterator]: the iterators of [JsGc.cpp]; an array is a list.
    - [JsonLex], [JsonStream]: the lexer and the incremental parser of
      [common/json/JsonDecode.cpp].
    - [JsonParse]: [ParserImpl] of the same file, a recursive parser of a whole text.
    - [JsonEncode]: [common/json/JsonEncode.cpp] and [JsValueEncode.cpp]: the generator
      and the encoding of values.
    - [JsonTree]: values as trees, their text; encoding writes it, and always ends.
    - [JsonPrinted], [JsonRoundTrip]: the parser reads printed texts back.
    - [JsonTotal]: the parser ends on every text.

    ** How state and operations correspond to the code

    A class is a [Record] with the names of its members; a method that changes
    it is a function of the record, or an action of the state and error monad
    of its file.  Pointers are addresses in a store, and a null or dangling
    access is a failure of its own ([None] or [Fault]) which no operation
    catches; a failed [FIBER_ASSERT] is one too.  Integers are [Z], reduced to
    their width where the code computes with them.  A coroutine is cut at its
    suspensions: what runs between two of them is one step, and the theorems
    about whole runs quantify over sequences of steps.  The transport, the
    allocators and the host of a script are oracles: lists of the answers of
    the next calls, over which the theorems quantify.

    ** What the theorems show

    - Refinement: the stream table is a finite map, the header table an ordered
      case-insensitive multimap, the transitions of a stream those of RFC 9113,
      and a compiled script does what its tree evaluates to, from its text on, if
      it fits the codes, its handlers are found and no collection runs.
    - Script text: every text is tokenized and parsed without running out of
      fuel; tokens lie in the text in order, and printed words and literals are
      read back; phrases of the grammar give exactly their trees, with their
      levels and ranges; every tree the parser builds is well formed.
    - Incremental parsing: splitting the input between calls never changes the
      result; what is printed parses back; recorded pointers stay in the
      buffer and may be moved with it; numbers stay in their bounds.
    - Requests: a printed head, however it arrives, is read back and what follows
      it is left for the body; the framing of an accepted request is decided by
      its fields without ambiguity; a sized body is read exactly however it
      arrives, a chunked one when it has been received; reading always ends.
      Pipelined requests reach the handler in order and unmixed, and every
      connection comes to an end and is closed, whatever its handlers do.
    - Responses: whatever pieces the handler writes, the wire holds one header and
      the accepted body pieces, framed as announced, and no buffer is overrun.
    - HTTP/2: frames are reassembled from any portions; padding and priority never
      reach a stream, however a frame arrives; data is sent within both windows,
      cut into frames and written completely, and scheduling runs to its end; the
      queue is first in, first out and loses no wake-up; along any run the windows
      never overflow, if the configured one is not negative, and the table never
      points to a deleted stream; shutdown only moves forward.
    - Buffers: every sequence of operations on handles keeps the reference
      counts equal to the handles; slicing and consuming act on the bytes.
    - Values: a script object answers every sequence of operations as an ordered map
      does, through growth, collisions and reuse, an array as a list; iteration
      delivers the members in order.  A collection frees exactly what it has not
      marked and keeps what the roots reach through cells it has gone through.
      The readers of UTF-8 agree and what they decode is written back.
    - JSON: however a document is cut into pieces, the incremental parser ends in
      the same state, with the same errors, value and heap.  What the generator writes
      for a value without real numbers, with valid text and at most 127 levels deep,
      with any options, the recursive parser reads back into a value that shows the
      same tree.  Encoding ends on cyclic values too, and parsing ends on every
      text whose nesting the stack of the thread holds.
    - Defects: theorems named for what goes wrong (a reset that leaves a dangling
      stream, a nested [try] that picks the wrong handler, and others listed in
      the manifest) show the behaviour of the code as it is.

    ** Widths

    Sizes of buffers are [size_t] and wrap modulo 2^64 where the code multiplies
    or adds ([JsHeap.alloc_array], [JsHeap.size_add]); the links of an object's
    entries are [int32_t] ([JsHeap.index32]).  The theorems on objects hold up to
    2^30 entries, those on arrays up to 2^58, and lemmas show what wraps beyond.
    Windows are [int32_t], stream ids and settings 32 bits; the delta of a changed
    initial window is cast as in the code.

    ** Fuel

    Loops that are not structural take fuel computed from the state: the number
    of nodes of a header table, of buckets of the stream table, of bytes to
    write, of codes, of tokens left (each turn of a loop of the parser, and each
    level of nesting, takes a token); the theorems state that the loop ends within it ([Fault] or
    [None] would be the result otherwise).  Marking takes as many turns as there are
    objects and one more, a search of a hash chain as many as there are entries, a
    rounding up to a power of two at most 65, doubling a capacity as many as the
    capacity asked for, a loop over a text as many as it has characters and one more.
    Encoding recurses at most as deep as the stack of the generator, 128 levels.
    The recursive JSON parser has two numbers: the turns of its loops, of which a text
    never needs more than it has bytes, and the levels the thread's stack
    holds; the code does not bound its depth, and a text that is deeper overflows it.  Where the code itself need not end
    (a script with an endless loop, a stream of frames), the theorem quantifies
    over the number of turns and over runs of the specification that end.

    ** Not modelled

    Sockets, the event loop, coroutine frames, TLS, threads and signals are
    system calls and library objects; they enter as oracles and as the order of
    steps.  The block allocators hand out raw memory.  Of the JSON code, the arithmetic
    of values is not modelled, nor are the copies of native strings; neither is the
    script library.  [strtod] is a parameter of the JSON parsers.
    The interpreter takes values and their operations as class [Values], with a
    collector that may free what it is not told of; [ValuesLaws] counts the
    collections, and the script theorems speak of runs in which none happens.
    The servers are accept loops without state of their own.  Texts are shorter
    than 2^31 bytes where the theorems speak of ranges in the tree, which the
    code keeps in 32 bits.  [strtoll] and [strtod] are the functions of C, the
    latter correctly rounded and with glibc's range error. *)
From Stdlib Require Export ZArith Lia.
From Stdlib Require Export Ascii.
From stdpp Require Export base list gmap strings.

#[global] Open Scope Z_scope.

(** ** Machine integers

    A C++ unsigned integer of width [w] is a [Z] in [0, 2^w); arithmetic is
    performed in [Z] and reduced by [wrap].  [std::size_t] is 64 bits wide. *)

Definition wrap (w x : Z) : Z := x mod 2 ^ w.

Declare Scope word_scope.
Delimit Scope word_scope with word.
Notation "'u8' x" := (wrap 8 x) (at level 10, x at level 9) : word_scope.
Notation "'u16' x" := (wrap 16 x) (at level 10, x at level 9) : word_scope.
Notation "'u32' x" := (wrap 32 x) (at level 10, x at level 9) : word_scope.
Notation "'u64' x" := (wrap 64 x) (at level 10, x at level 9) : word_scope.
#[global] Open Scope word_scope.

(** Conversion to a signed integer of width [w] (two's complement, as C++20
    defines [static_cast] to a signed type). *)
Definition to_signed (w x : Z) : Z :=
  let y := wrap w x in if y <? 2 ^ (w - 1) then y else y - 2 ^ w.

Definition in_width (w x : Z) : Prop := 0 <= x < 2 ^ w.

Definition size_max : Z := 2 ^ 64 - 1.

Lemma wrap_small (w x : Z) : in_width w x -> wrap w x = x.
Proof. unfold in_width, wrap. intros. by apply Z.mod_small. Qed.

Lemma wrap_range (w x : Z) : 0 <= w -> in_width w (wrap w x).
Proof. intros. unfold in_width, wrap. apply Z.mod_pos_bound. lia. Qed.

Lemma wrap_wrap (w x : Z) : wrap w (wrap w x) = wrap w x.
Proof. unfold wrap. apply Zmod_mod. Qed.

Create HintDb word.
#[export] Hint Resolve wrap_range : word.

(** ** Lists indexed by [Z]

    An array access [a[i]] of the source with an index that the code computes
    as a [std::size_t]. *)
Notation "l '!z' i" := (l !!! Z.to_nat i) (at level 20).

Lemma lookup_total_insert_Z {A} `{Inhabited A} (l : list A) (i j : Z) (x : A) :
  0 <= i < Z.of_nat (length l) -> 0 <= j ->
  <[Z.to_nat i := x]> l !z j = if decide (i = j) then x else l !z j.
Proof.
  intros Hi Hj. case_decide; subst.
  - rewrite list_lookup_total_insert_eq; [done|lia].
  - rewrite list_lookup_total_insert_ne; [done|lia].
Qed.

Lemma omap_cons_app {A B} (f : A -> option B) (x : A) (l : list A) :
  omap f (x :: l) = option_list (f x) ++ omap f l.
Proof. simpl. by destruct (f x). Qed.

(** ** Characters

    A byte is a [Z]; [chr "A"] is the code of an ASCII character, computed when
    the term is parsed. *)
Notation "'chr' c" :=
  ltac:(let v := eval vm_compute in (Z.of_N (Ascii.N_of_ascii c%char)) in exact v)
  (at level 10, c at level 9, only parsing).

Definition bytes_of_string (s : string) : list Z :=
  map (fun a => Z.of_N (Ascii.N_of_ascii a)) (String.list_ascii_of_string s).

Definition CR : Z := 13.
Definition LF : Z := 10.
Definition SP : Z := 32.
Definition HTAB : Z := 9.

(** ** Bits *)

Lemma lor_disjoint x y k : 0 <= k -> (2 ^ k | x) -> 0 <= y < 2 ^ k -> Z.lor x y = x + y.
Proof.
  intros Hk [q ->] Hy. rewrite <-Z.add_nocarry_lor; [done|].
  apply Z.bits_inj'. intros n Hn. rewrite Z.land_spec, Z.bits_0.
  destruct (Z.lt_ge_cases n k).
  - by rewrite Z.mul_pow2_bits_low by lia.
  - rewrite <-(Z.mod_small y (2 ^ k)) by done. rewrite Z.mod_pow2_bits_high by lia.
    by rewrite andb_false_r.
Qed.

(** A property of all bytes, by evaluation. *)
Lemma forall_byte (P : Z -> bool) : forallb P (seqZ 0 256) = true -> forall b, 0 <= b < 256 -> P b = true.
Proof. intros H b Hb. rewrite forallb_forall in H. apply H, list_elem_of_In, elem_of_seqZ. lia. Qed.

(** ** Proof automation *)

(** Split every [if] on an integer or boolean test of the goal. *)
Ltac split_ifs :=
  repeat match goal with
  | |- context [if ?b then _ else _] => destruct b eqn:?
  end.

Ltac bool_to_prop :=
  repeat match goal with
  | H : (_ =? _) = true |- _ => apply Z.eqb_eq in H
  | H : (_ =? _) = false |- _ => apply Z.eqb_neq in H
  | H : (_ <? _) = true |- _ => apply Z.ltb_lt in H
  | H : (_ <? _) = false |- _ => apply Z.ltb_ge in H
  | H : (_ <=? _) = true |- _ => apply Z.leb_le in H
  | H : (_ <=? _) = false |- _ => apply Z.leb_gt in H
  | H : (_ && _) = true |- _ => apply andb_true_iff in H as [? ?]
  | H : (_ || _) = false |- _ => apply orb_false_iff in H as [? ?]
  | H : negb _ = true |- _ => apply negb_true_iff in H
  | H : negb _ = false |- _ => apply negb_false_iff in H
  end.
