(* ===== verification/StreamTable.v ===== *)
(** * The HTTP/2 stream table ([src/http/Http2StreamTable.cpp])

    An open-addressing hash table from 31-bit stream identifiers to stream
    objects: linear probing, multiplicative hash, deletion by backward shift.
    Stream objects are handles ([nat]); [b_stream = None] is the null pointer.
    The operations below follow the C++ member functions one to one; the
    second half proves that the table refines a finite map. *)
From S2P Require Import Prelude.

Module StreamTable.

(** ** State *)

Record Bucket := mkBucket { b_stream_id : Z; b_stream : option nat }.

Definition empty_bucket : Bucket := mkBucket 0 None.

#[export] Instance Bucket_inhabited : Inhabited Bucket := populate empty_bucket.

Record Http2StreamTable := mkTable {
  buckets_ : option (list Bucket);
  bucket_count_ : Z;
  size_ : Z;
  max_active_streams_ : Z }.

Definition empty_table : Http2StreamTable := mkTable None 0 0 0.

(** ** Hashing and probing *)

(** [next_pow2]: [while (out < value) out <<= 1;] run for at most [fuel]
    iterations; [None] is a loop that has not finished. *)
Fixpoint next_pow2_loop (fuel : nat) (value out : Z) : option Z :=
  match fuel with
  | O => None
  | S fuel' => if out <? value then next_pow2_loop fuel' value (u64 (Z.shiftl out 1)) else Some out
  end.

Definition next_pow2 (fuel : nat) (value : Z) : option Z :=
  if value <=? 1 then Some 1 else next_pow2_loop fuel value 1.

Definition hash_stream_id (stream_id : Z) : Z :=
  let value := u32 (stream_id * 2654435761) in
  Z.lxor value (Z.shiftr value 16).

Definition mask (count : Z) : Z := u64 (count - 1).

Definition home (count stream_id : Z) : Z := Z.land (hash_stream_id stream_id) (mask count).

Definition advance (count idx : Z) : Z := Z.land (u64 (idx + 1)) (mask count).

Definition probe_distance (count from to : Z) : Z :=
  if from <=? to then to - from else count - from + to.

Definition should_shift_bucket (count hole current home : Z) : bool :=
  probe_distance count home hole <? probe_distance count home current.

(** ** Operations *)

Definition clear (t : Http2StreamTable) : Http2StreamTable := empty_table.

(** [init]; [alloc_ok] is the outcome of [new (std::nothrow) Bucket[]].  The
    65 iterations of [next_pow2] are enough for every argument for which the
    loop ends at all ([next_pow2_spec], [next_pow2_diverges]). *)
Definition init (t : Http2StreamTable) (max_active_streams : Z) (alloc_ok : bool)
  : option (bool * Http2StreamTable) :=
  if max_active_streams =? 0 then Some (true, mkTable None 0 0 max_active_streams)
  else if size_max / 2 <? max_active_streams then
    Some (false, mkTable None 0 0 max_active_streams)
  else match next_pow2 65 (u64 (max_active_streams * 2)) with
       | None => None
       | Some n =>
           if alloc_ok then
             Some (true, mkTable (Some (replicate (Z.to_nat n) empty_bucket)) n 0 max_active_streams)
           else Some (false, mkTable None 0 0 0)
       end.

(** The probing loop of [find_slot], [n] buckets still to be probed. *)
Fixpoint find_slot_loop (bs : list Bucket) (count stream_id : Z) (n : nat) (idx : Z) : Z :=
  match n with
  | O => count
  | S n' =>
      let bucket := bs !z idx in
      match b_stream bucket with
      | None => count
      | Some _ =>
          if b_stream_id bucket =? stream_id then idx
          else find_slot_loop bs count stream_id n' (advance count idx)
      end
  end.

Definition find_slot (t : Http2StreamTable) (stream_id : Z) : Z :=
  match buckets_ t with
  | None => bucket_count_ t
  | Some bs =>
      if bucket_count_ t =? 0 then bucket_count_ t
      else find_slot_loop bs (bucket_count_ t) stream_id (Z.to_nat (bucket_count_ t))
             (home (bucket_count_ t) stream_id)
  end.

Definition find (t : Http2StreamTable) (stream_id : Z) : option nat :=
  let slot := find_slot t stream_id in
  if slot =? bucket_count_ t then None
  else match buckets_ t with
       | None => None
       | Some bs => b_stream (bs !z slot)
       end.

(** The probing loop of [insert]: the slot the new bucket goes to, or [None]
    when the identifier is already present or no slot is free. *)
Fixpoint insert_loop (bs : list Bucket) (count stream_id : Z) (n : nat) (idx : Z) : option Z :=
  match n with
  | O => None
  | S n' =>
      let bucket := bs !z idx in
      match b_stream bucket with
      | None => Some idx
      | Some _ =>
          if b_stream_id bucket =? stream_id then None
          else insert_loop bs count stream_id n' (advance count idx)
      end
  end.

(** [insert]: [stream] is the handle of the object whose [stream_id()] is
    [stream_id]. *)
Definition insert (t : Http2StreamTable) (stream_id : Z) (stream : nat) : bool * Http2StreamTable :=
  match buckets_ t with
  | None => (false, t)
  | Some bs =>
      if (bucket_count_ t =? 0) || (max_active_streams_ t <=? size_ t) then (false, t)
      else match insert_loop bs (bucket_count_ t) stream_id (Z.to_nat (bucket_count_ t))
                   (home (bucket_count_ t) stream_id) with
           | None => (false, t)
           | Some idx =>
               (true, mkTable (Some (<[Z.to_nat idx := mkBucket stream_id (Some stream)]> bs))
                        (bucket_count_ t) (u64 (size_ t + 1)) (max_active_streams_ t))
           end
  end.

(** The backward-shift loop of [erase_at], run for at most [fuel] iterations:
    the buckets and the final hole. *)
Fixpoint erase_at_loop (fuel : nat) (bs : list Bucket) (count hole current : Z)
  : option (list Bucket * Z) :=
  match fuel with
  | O => None
  | S fuel' =>
      let bucket := bs !z current in
      match b_stream bucket with
      | None => Some (bs, hole)
      | Some _ =>
          if should_shift_bucket count hole current (home count (b_stream_id bucket)) then
            erase_at_loop fuel' (<[Z.to_nat hole := bucket]> bs) count current (advance count current)
          else erase_at_loop fuel' bs count hole (advance count current)
      end
  end.

Definition erase_at (t : Http2StreamTable) (bs : list Bucket) (index : Z) : option Http2StreamTable :=
  match erase_at_loop (Z.to_nat (bucket_count_ t)) bs (bucket_count_ t) index
          (advance (bucket_count_ t) index) with
  | None => None
  | Some (bs', hole) =>
      Some (mkTable (Some (<[Z.to_nat hole := empty_bucket]> bs'))
              (bucket_count_ t) (u64 (size_ t - 1)) (max_active_streams_ t))
  end.

(** [erase]: the removed stream; [None] on the outside is a deletion loop that
    does not end within [bucket_count_] iterations. *)
Definition erase (t : Http2StreamTable) (stream_id : Z) : option (option nat * Http2StreamTable) :=
  let slot := find_slot t stream_id in
  if slot =? bucket_count_ t then Some (None, t)
  else match buckets_ t with
       | None => Some (None, t)
       | Some bs =>
           match erase_at t bs slot with
           | None => None
           | Some t' => Some (b_stream (bs !z slot), t')
           end
       end.

(** [for_each]: the streams in the order the callback sees them. *)
Definition streams_in_order (t : Http2StreamTable) : list nat :=
  match buckets_ t with None => [] | Some bs => omap b_stream bs end.

Example find_after_two_inserts :
  let t0 := match init empty_table 4 true with Some (_, t) => t | None => empty_table end in
  let t1 := snd (insert t0 1 10) in
  let t2 := snd (insert t1 3 30) in
  (bucket_count_ t0, find t2 1, find t2 3, find t2 5,
   match erase t2 1 with Some (r, t3) => Some (r, find t3 1, find t3 3) | None => None end)
  = (8, Some 10%nat, Some 30%nat, None, Some (Some 10%nat, None, Some 30%nat)).
Proof. vm_compute. reflexivity. Qed.


(** ** Geometry of the probe sequence

    A table has [count = 2^k] buckets; positions are the integers of
    [0, count) arranged on a circle. *)

Definition pow2_count (count : Z) : Prop := exists k, 0 <= k <= 63 /\ count = 2 ^ k.

Lemma pow2_count_bounds count : pow2_count count -> 1 <= count <= 2 ^ 63.
Proof.
  intros (k & Hk & ->). split.
  - pose proof (Z.pow_pos_nonneg 2 k). lia.
  - apply Z.pow_le_mono_r; lia.
Qed.

Lemma land_mask count x : pow2_count count -> Z.land x (mask count) = x mod count.
Proof.
  intros Hc. pose proof (pow2_count_bounds _ Hc) as Hb. destruct Hc as (k & Hk & ->).
  unfold mask. rewrite wrap_small by (unfold in_width; lia).
  replace (2 ^ k - 1) with (Z.ones k) by (rewrite Z.ones_equiv; lia).
  apply Z.land_ones. lia.
Qed.

Lemma home_range count sid : pow2_count count -> 0 <= home count sid < count.
Proof.
  intros Hc. unfold home. rewrite land_mask by done.
  apply Z.mod_pos_bound. pose proof (pow2_count_bounds _ Hc). lia.
Qed.

Lemma advance_spec count idx :
  pow2_count count -> 0 <= idx < count ->
  advance count idx = if idx + 1 =? count then 0 else idx + 1.
Proof.
  intros Hc Hi. pose proof (pow2_count_bounds _ Hc). unfold advance.
  rewrite land_mask by done. rewrite wrap_small by (unfold in_width; lia).
  destruct (Z.eqb_spec (idx + 1) count) as [->|].
  - apply Z_mod_same_full.
  - apply Z.mod_small. lia.
Qed.

(** Decide a statement about positions on the circle: unfold the distances,
    split their tests, and leave linear arithmetic. *)
Ltac circle :=
  unfold probe_distance in *;
  repeat match goal with
  | |- context [if ?a <=? ?b then _ else _] => destruct (Z.leb_spec a b)
  | H : context [if ?a <=? ?b then _ else _] |- _ => destruct (Z.leb_spec a b)
  | |- context [if ?a =? ?b then _ else _] => destruct (Z.eqb_spec a b)
  | H : context [if ?a =? ?b then _ else _] |- _ => destruct (Z.eqb_spec a b)
  end; lia.

(** ** Contents of a bucket array *)

Definition occupied (bs : list Bucket) (i : Z) : Prop := is_Some (b_stream (bs !z i)).

Definition bucket_entry (b : Bucket) : option (Z * nat) :=
  s ← b_stream b; Some (b_stream_id b, s).

Definition entries (bs : list Bucket) : list (Z * nat) := omap bucket_entry bs.

Lemma lookup_bucket (bs : list Bucket) i :
  0 <= i < Z.of_nat (length bs) -> bs !! Z.to_nat i = Some (bs !z i).
Proof. intros. apply list_lookup_lookup_total_lt. lia. Qed.

(** Storing a bucket exchanges its entry for the one it overwrites. *)
Lemma entries_update (bs : list Bucket) i b :
  0 <= i < Z.of_nat (length bs) ->
  entries (<[Z.to_nat i := b]> bs) ++ option_list (bucket_entry (bs !z i))
  ≡ₚ option_list (bucket_entry b) ++ entries bs.
Proof.
  intros Hi. pose proof (lookup_bucket bs i Hi) as Hl.
  rewrite (insert_take_drop bs (Z.to_nat i) b) by lia.
  rewrite <-(take_drop_middle bs (Z.to_nat i) (bs !z i) Hl) at 4.
  unfold entries. rewrite !omap_app, !omap_cons_app.
  rewrite <-!app_assoc, (Permutation_app_comm (omap _ (drop _ _))).
  apply Permutation_app_swap_app.
Qed.

Lemma entries_elem (bs : list Bucket) sid s :
  (sid, s) ∈ entries bs <->
  exists i, 0 <= i < Z.of_nat (length bs) /\ bs !z i = mkBucket sid (Some s).
Proof.
  unfold entries. rewrite list_elem_of_omap. split.
  - intros ([sid' s'] & Hin & He). apply list_elem_of_lookup in Hin as [j Hj].
    destruct s' as [s'|]; cbn in He; simplify_eq.
    exists (Z.of_nat j). pose proof (lookup_lt_Some _ _ _ Hj).
    split; [lia|]. rewrite Nat2Z.id. apply list_lookup_total_correct. exact Hj.
  - intros (i & Hi & He). exists (bs !z i). split; [|by rewrite He].
    apply list_elem_of_lookup. exists (Z.to_nat i). by apply lookup_bucket.
Qed.

(** An array with fewer entries than buckets has a free bucket. *)
Lemma free_bucket (bs : list Bucket) :
  (length (entries bs) < length bs)%nat ->
  exists i, 0 <= i < Z.of_nat (length bs) /\ ~ occupied bs i.
Proof.
  unfold occupied. induction bs as [|b bs IH]; simpl; [lia|]. intros Hlt.
  destruct b as [sid [s|]].
  - destruct IH as (i & Hi & Hf); [unfold entries in *; simpl in *; lia|].
    exists (i + 1). split; [lia|]. by replace (Z.to_nat (i + 1)) with (S (Z.to_nat i)) by lia.
  - exists 0. split; [lia|]. simpl. intros [??]; done.
Qed.


(** ** Invariant *)

(** No free bucket lies on the probe path of the entry at [i]. *)
Definition reachable (count : Z) (bs : list Bucket) (i : Z) : Prop :=
  let h := home count (b_stream_id (bs !z i)) in
  forall j, 0 <= j < count -> probe_distance count h j < probe_distance count h i -> occupied bs j.

Record wf_buckets (count : Z) (bs : list Bucket) : Prop := {
  wf_count : pow2_count count;
  wf_length : Z.of_nat (length bs) = count;
  wf_keys : NoDup (entries bs).*1;
  wf_free : (length (entries bs) < length bs)%nat;
  wf_reach : forall i, 0 <= i < count -> occupied bs i -> reachable count bs i }.

Definition wf (t : Http2StreamTable) : Prop :=
  match buckets_ t with
  | None => bucket_count_ t = 0 /\ size_ t = 0
  | Some bs =>
      wf_buckets (bucket_count_ t) bs /\
      size_ t = Z.of_nat (length (entries bs)) /\
      size_ t <= max_active_streams_ t /\
      2 * max_active_streams_ t <= bucket_count_ t
  end.

(** The finite map a table stands for. *)
Definition to_map (t : Http2StreamTable) : gmap Z nat :=
  match buckets_ t with None => ∅ | Some bs => list_to_map (entries bs) end.

Lemma occupied_bucket bs i : occupied bs i -> exists sid s, bs !z i = mkBucket sid (Some s).
Proof. intros [s Hs]. destruct (bs !z i) as [sid o]. simpl in Hs. subst o. eauto. Qed.

Lemma occupied_entry bs i sid s :
  0 <= i < Z.of_nat (length bs) -> bs !z i = mkBucket sid (Some s) -> (sid, s) ∈ entries bs.
Proof. intros Hi Hb. apply entries_elem. eauto. Qed.

(** Equal identifiers occupy the same bucket. *)
Lemma same_key_same_slot count bs i j :
  wf_buckets count bs -> 0 <= i < count -> 0 <= j < count ->
  occupied bs i -> occupied bs j ->
  b_stream_id (bs !z i) = b_stream_id (bs !z j) -> i = j.
Proof.
  intros Hwf Hi Hj Hoi Hoj Heq.
  pose proof (wf_length _ _ Hwf) as Hlen. pose proof (wf_keys _ _ Hwf) as Hnd.
  apply occupied_bucket in Hoi as (a & s & Hbi).
  apply occupied_bucket in Hoj as (a' & s' & Hbj).
  rewrite Hbi, Hbj in Heq. simpl in Heq. subst a'.
  destruct (decide (i = j)) as [|Hne]; [done|exfalso].
  pose proof (entries_update bs i empty_bucket ltac:(lia)) as Hp.
  rewrite Hbi in Hp. simpl in Hp.
  rewrite <-Hp, fmap_app in Hnd. simpl in Hnd. apply NoDup_app in Hnd as (_ & Hdis & _).
  apply (Hdis a); [|by left].
  apply list_elem_of_fmap. exists (a, s'). split; [done|].
  apply (occupied_entry _ j); rewrite ?length_insert; [lia|].
  rewrite lookup_total_insert_Z by lia. by rewrite decide_False.
Qed.

(** ** Probing *)

Section probe.
Context (count : Z) (bs : list Bucket) (Hc : pow2_count count).
Context (Hlen : Z.of_nat (length bs) = count).

(** Starting [m] steps before a bucket holding [sid], with occupied buckets of
    other identifiers in between, the loop returns that bucket. *)
Lemma find_slot_loop_hit sid p (n : nat) idx :
  0 <= p < count -> 0 <= idx < count ->
  occupied bs p -> b_stream_id (bs !z p) = sid ->
  (forall j, 0 <= j < count -> probe_distance count idx j < probe_distance count idx p ->
     occupied bs j /\ b_stream_id (bs !z j) <> sid) ->
  probe_distance count idx p < Z.of_nat n ->
  find_slot_loop bs count sid n idx = p.
Proof.
  intros Hp Hi Hop Hsid. revert idx Hi.
  induction n as [|n IH]; intros idx Hi Hpath Hn; simpl; [circle|].
  destruct (decide (idx = p)) as [->|Hne].
  - destruct Hop as [s Hs]. rewrite Hs, Hsid. by rewrite Z.eqb_refl.
  - destruct (Hpath idx Hi) as [[s Hs] Hdiff]; [circle|]. rewrite Hs.
    apply Z.eqb_neq in Hdiff. rewrite Hdiff.
    assert (advance count idx = if idx + 1 =? count then 0 else idx + 1) as Hadv
      by (by apply advance_spec).
    apply IH; rewrite ?Hadv; [circle| |circle].
    intros j Hj Hlt. apply Hpath; [done|circle].
Qed.

(** The loop returns [count] when no occupied bucket holds [sid]. *)
Lemma find_slot_loop_miss sid (n : nat) idx :
  0 <= idx < count ->
  (forall j, 0 <= j < count -> occupied bs j -> b_stream_id (bs !z j) <> sid) ->
  find_slot_loop bs count sid n idx = count.
Proof.
  intros Hi Habs. revert idx Hi. induction n as [|n IH]; intros idx Hi; simpl; [done|].
  destruct (b_stream (bs !z idx)) as [s|] eqn:Hs; [|done].
  assert (b_stream_id (bs !z idx) <> sid) as Hne by (apply Habs; [done|by exists s]).
  apply Z.eqb_neq in Hne. rewrite Hne. apply IH.
  rewrite advance_spec by done. circle.
Qed.

(** The insertion loop stops at the first free bucket after [idx]. *)
Lemma insert_loop_free sid p (n : nat) idx :
  0 <= p < count -> 0 <= idx < count -> ~ occupied bs p ->
  (forall j, 0 <= j < count -> occupied bs j -> b_stream_id (bs !z j) <> sid) ->
  probe_distance count idx p < Z.of_nat n ->
  exists q, insert_loop bs count sid n idx = Some q /\ 0 <= q < count /\ ~ occupied bs q /\
    forall j, 0 <= j < count -> probe_distance count idx j < probe_distance count idx q -> occupied bs j.
Proof.
  intros Hp Hi Hfree Habs. revert idx Hi. induction n as [|n IH]; intros idx Hi Hn; simpl; [circle|].
  destruct (b_stream (bs !z idx)) as [s|] eqn:Hs.
  - assert (occupied bs idx) as Ho by (by exists s).
    assert (idx <> p) as Hne by (intros ->; done).
    pose proof (Habs idx Hi Ho) as Hk. apply Z.eqb_neq in Hk. rewrite Hk.
    assert (advance count idx = if idx + 1 =? count then 0 else idx + 1) as Hadv
      by (by apply advance_spec).
    destruct (IH (advance count idx)) as (q & -> & Hq & Hfq & Hpath);
      [rewrite Hadv; circle|rewrite Hadv; circle|].
    exists q. repeat split; [lia|lia|done|]. intros j Hj Hlt.
    destruct (decide (j = idx)) as [->|]; [done|]. apply Hpath; [done|]. rewrite Hadv. circle.
  - exists idx. repeat split; [lia|lia| |].
    + intros [s' Hs']. congruence.
    + intros j Hj Hlt. circle.
Qed.

(** The insertion loop fails when [sid] is on the probe path. *)
Lemma insert_loop_dup sid p (n : nat) idx :
  0 <= p < count -> 0 <= idx < count ->
  occupied bs p -> b_stream_id (bs !z p) = sid ->
  (forall j, 0 <= j < count -> probe_distance count idx j < probe_distance count idx p -> occupied bs j) ->
  insert_loop bs count sid n idx = None.
Proof.
  intros Hp Hi [sp Hop] Hsid. revert idx Hi. induction n as [|n IH]; intros idx Hi Hpath; simpl; [done|].
  destruct (decide (idx = p)) as [->|Hne].
  - rewrite Hop, Hsid. by rewrite Z.eqb_refl.
  - destruct (Hpath idx Hi) as [s Hs]; [circle|]. rewrite Hs.
    destruct (_ =? sid); [done|].
    assert (advance count idx = if idx + 1 =? count then 0 else idx + 1) as Hadv
      by (by apply advance_spec).
    apply IH; rewrite ?Hadv; [circle|].
    intros j Hj Hlt. apply Hpath; [done|circle].
Qed.

End probe.


(** ** Lookup *)

Lemma lookup_entries (count : Z) bs sid s :
  wf_buckets count bs ->
  (list_to_map (entries bs) : gmap Z nat) !! sid = Some s <-> (sid, s) ∈ entries bs.
Proof. intros Hwf. symmetry. apply elem_of_list_to_map. apply (wf_keys _ _ Hwf). Qed.

Lemma lookup_entries_None (count : Z) bs sid :
  wf_buckets count bs ->
  (list_to_map (entries bs) : gmap Z nat) !! sid = None <->
  forall i, 0 <= i < count -> occupied bs i -> b_stream_id (bs !z i) <> sid.
Proof.
  intros Hwf. pose proof (wf_length _ _ Hwf) as Hlen. split.
  - intros Hn i Hi Ho. apply occupied_bucket in Ho as (a & s & Hb). rewrite Hb. simpl. intros ->.
    apply (occupied_entry bs i) in Hb; [|lia].
    apply (lookup_entries _ _ _ _ Hwf) in Hb. congruence.
  - intros Hall. apply eq_None_not_Some. intros [s Hs].
    apply (lookup_entries _ _ _ _ Hwf), entries_elem in Hs as (i & Hi & Hb).
    apply (Hall i); [lia| |by rewrite Hb]. by exists s; rewrite Hb.
Qed.

(** [find_slot] locates the bucket of a present identifier. *)
Lemma find_slot_hit count bs sid p :
  wf_buckets count bs -> 0 <= p < count -> occupied bs p -> b_stream_id (bs !z p) = sid ->
  find_slot_loop bs count sid (Z.to_nat count) (home count sid) = p.
Proof.
  intros Hwf Hp Ho Hsid. pose proof (wf_count _ _ Hwf) as Hc. pose proof (wf_length _ _ Hwf) as Hlen.
  pose proof (home_range count sid Hc).
  apply (find_slot_loop_hit count bs Hc); auto; [|circle].
  intros j Hj Hlt. assert (occupied bs j) as Hoj.
  { pose proof (wf_reach _ _ Hwf p Hp Ho) as Hr. unfold reachable in Hr. rewrite Hsid in Hr. auto. }
  split; [done|]. intros Heq.
  assert (j = p) as -> by (apply (same_key_same_slot count bs); congruence). circle.
Qed.

Lemma find_slot_cases (t : Http2StreamTable) bs sid :
  buckets_ t = Some bs -> wf_buckets (bucket_count_ t) bs ->
  match to_map t !! sid with
  | Some s => 0 <= find_slot t sid < bucket_count_ t /\
              bs !z (find_slot t sid) = mkBucket sid (Some s)
  | None => find_slot t sid = bucket_count_ t
  end.
Proof.
  intros Hb Hwf. pose proof (wf_count _ _ Hwf) as Hc. pose proof (wf_length _ _ Hwf) as Hlen.
  pose proof (pow2_count_bounds _ Hc). unfold to_map, find_slot. rewrite Hb.
  rewrite (proj2 (Z.eqb_neq _ _)) by lia.
  destruct (_ !! sid) as [s|] eqn:Hm.
  - apply (lookup_entries _ _ _ _ Hwf), entries_elem in Hm as (p & Hp & Hbp).
    rewrite (find_slot_hit _ _ _ p Hwf); [split; [lia|done]|lia| |by rewrite Hbp].
    by exists s; rewrite Hbp.
  - apply find_slot_loop_miss; [done|by apply home_range|].
    by apply (lookup_entries_None _ _ _ Hwf).
Qed.

(** ** Deletion *)

(** The slots strictly between [hole] and [current] on the circle. *)
Definition scanned (count hole current i : Z) : Prop :=
  0 < probe_distance count hole i < probe_distance count hole current.

(** The backward-shift loop keeps: [e] is the entry of the hole and [rest] all
    the others; every scanned slot is occupied and its probe path avoids the
    hole; every probe path is free of holes if the hole counts as occupied. *)
Record shifting (count : Z) (bs : list Bucket) (hole current : Z)
    (e : Z * nat) (rest : list (Z * nat)) : Prop := {
  sh_length : Z.of_nat (length bs) = count;
  sh_hole : 0 <= hole < count;
  sh_current : 0 <= current < count;
  sh_ne : hole <> current;
  sh_e : bs !z hole = mkBucket e.1 (Some e.2);
  sh_rest : entries bs ≡ₚ e :: rest;
  sh_scanned : forall i, 0 <= i < count -> scanned count hole current i ->
    occupied bs i /\
    ~ (probe_distance count (home count (b_stream_id (bs !z i))) hole <
       probe_distance count (home count (b_stream_id (bs !z i))) i);
  sh_reach : forall i, 0 <= i < count -> i <> hole -> occupied bs i -> reachable count bs i }.

Lemma shifting_skip count bs hole current e rest b s :
  pow2_count count -> shifting count bs hole current e rest ->
  bs !z current = mkBucket b (Some s) ->
  should_shift_bucket count hole current (home count b) = false ->
  (exists q, 0 <= q < count /\ ~ occupied bs q) ->
  shifting count bs hole (advance count current) e rest.
Proof.
  intros Hc [Hlen Hh Hcur Hne He Hrest Hsc Hre] Hb Hno (q & Hq & Hfq).
  pose proof (advance_spec count current Hc Hcur) as Hadv.
  pose proof (home_range count b Hc).
  assert (occupied bs current) as Hoc by (by exists s; rewrite Hb).
  assert (hole <> advance count current) as Hwrap.
  { intros Heq. apply Hfq.
    destruct (decide (q = hole)) as [->|]; [exists e.2; by rewrite He|].
    destruct (decide (q = current)) as [->|]; [done|].
    apply Hsc; [done|]. unfold scanned. rewrite Hadv in Heq. circle. }
  split; [done|done|rewrite Hadv; circle|done|done|done| |done].
  intros i Hi Hscan. destruct (decide (i = current)) as [->|Hic].
  - split; [done|]. rewrite Hb. cbn [b_stream_id]. unfold should_shift_bucket in Hno.
    apply Z.ltb_ge in Hno. lia.
  - apply Hsc; [done|]. unfold scanned in *. rewrite Hadv in Hscan, Hwrap. circle.
Qed.

Lemma shifting_move count bs hole current e rest b s :
  pow2_count count -> shifting count bs hole current e rest ->
  bs !z current = mkBucket b (Some s) ->
  should_shift_bucket count hole current (home count b) = true ->
  (2 <= count) ->
  shifting count (<[Z.to_nat hole := bs !z current]> bs) current (advance count current) (b, s) rest.
Proof.
  intros Hc [Hlen Hh Hcur Hne He Hrest Hsc Hre] Hb Hyes H2.
  pose proof (advance_spec count current Hc Hcur) as Hadv.
  pose proof (home_range count b Hc).
  unfold should_shift_bucket in Hyes. apply Z.ltb_lt in Hyes.
  set (bs' := <[Z.to_nat hole := bs !z current]> bs).
  assert (forall j, 0 <= j -> bs' !z j = if decide (hole = j) then bs !z current else bs !z j) as Hlook
    by (intros; apply lookup_total_insert_Z; lia).
  assert (forall j, 0 <= j < count -> occupied bs j -> occupied bs' j) as Hocc.
  { intros j Hj Ho. unfold occupied. rewrite Hlook by lia. case_decide; [|done]. by exists s; rewrite Hb. }
  split; [unfold bs'; rewrite length_insert; lia|done|rewrite Hadv; circle|rewrite Hadv; circle| | | |].
  - rewrite Hlook by lia. by rewrite decide_False.
  - pose proof (entries_update bs hole (bs !z current) ltac:(lia)) as Hp.
    rewrite He, Hb in Hp. cbn in Hp. rewrite Hrest in Hp. unfold bs'. rewrite Hb.
    rewrite <-Permutation_cons_append in Hp. destruct e as [e1 e2]; cbn in Hp.
    rewrite (perm_swap (e1, e2)) in Hp. by apply Permutation_cons_inv in Hp.
  - intros i Hi Hscan. unfold scanned in Hscan. rewrite Hadv in Hscan. exfalso. circle.
  - intros i Hi Hic Ho. unfold reachable. rewrite Hlook by lia. case_decide as Hd; subst.
    + rewrite Hb. cbn [b_stream_id]. intros j Hj Hlt.
      destruct (decide (j = i)) as [->|]; [exists s; rewrite Hlook by lia; by rewrite decide_True, Hb|].
      apply Hocc; [done|].
      assert (occupied bs current) as Hoc by (by exists s; rewrite Hb).
      pose proof (Hre current Hcur ltac:(done) Hoc) as Hr. unfold reachable in Hr. rewrite Hb in Hr.
      apply Hr; [done|]. cbn [b_stream_id]. lia.
    + intros j Hj Hlt. apply Hocc; [done|].
      assert (occupied bs i) as Hoi.
      { unfold occupied in Ho. rewrite Hlook in Ho by lia. by rewrite decide_False in Ho. }
      apply (Hre i Hi ltac:(congruence) Hoi); done.
Qed.


Lemma free_ne_hole count bs hole current e rest q :
  shifting count bs hole current e rest -> ~ occupied bs q -> q <> hole.
Proof. intros Hsh Hf ->. apply Hf. exists e.2. by rewrite (sh_e _ _ _ _ _ _ Hsh). Qed.

(** The loop ends at the first free slot, within [count] iterations. *)
Lemma erase_at_loop_spec count (fuel : nat) bs hole current e rest q :
  pow2_count count -> 2 <= count ->
  shifting count bs hole current e rest ->
  0 <= q < count -> ~ occupied bs q ->
  probe_distance count current q < Z.of_nat fuel ->
  exists bs' hole' current' e',
    erase_at_loop fuel bs count hole current = Some (bs', hole') /\
    shifting count bs' hole' current' e' rest /\ ~ occupied bs' current'.
Proof.
  intros Hc H2. revert bs hole current e.
  induction fuel as [|fuel IH]; intros bs hole current e Hsh Hq Hfq Hfuel.
  { pose proof (sh_current _ _ _ _ _ _ Hsh). circle. }
  simpl. destruct (b_stream (bs !z current)) as [s|] eqn:Hs.
  2:{ exists bs, hole, current, e. split; [done|]. split; [done|].
      intros [s' ?]. congruence. }
  destruct (bs !z current) as [b o] eqn:Hb. cbn in Hs. subst o. cbn [b_stream_id].
  pose proof (sh_current _ _ _ _ _ _ Hsh) as Hcur.
  assert (current <> q) as Hcq by (intros ->; apply Hfq; exists s; by rewrite Hb).
  pose proof (free_ne_hole _ _ _ _ _ _ _ Hsh Hfq) as Hqh.
  pose proof (advance_spec count current Hc Hcur) as Hadv.
  destruct (should_shift_bucket _ _ _ _) eqn:Hshift.
  - rewrite <-Hb. apply IH with (e := (b, s)); [by eapply shifting_move|done| |rewrite Hadv; circle].
    unfold occupied. destruct Hsh.
    rewrite lookup_total_insert_Z by lia. by rewrite decide_False.
  - apply IH with (e := e); [|done|done|rewrite Hadv; circle].
    eapply shifting_skip; eauto.
Qed.

(** Emptying the final hole leaves a well-formed table without the entry. *)
Lemma shifting_finish count bs hole current e rest :
  pow2_count count -> shifting count bs hole current e rest -> ~ occupied bs current ->
  (length rest < length bs)%nat -> NoDup rest.*1 ->
  wf_buckets count (<[Z.to_nat hole := empty_bucket]> bs) /\
  entries (<[Z.to_nat hole := empty_bucket]> bs) ≡ₚ rest.
Proof.
  intros Hc [Hlen Hh Hcur Hne He Hrest Hsc Hre] Hfree Hroom Hnd.
  set (bs' := <[Z.to_nat hole := empty_bucket]> bs).
  assert (entries bs' ≡ₚ rest) as Hent.
  { pose proof (entries_update bs hole empty_bucket ltac:(lia)) as Hp.
    rewrite He in Hp. cbn in Hp. fold bs' in Hp. rewrite Hrest, <-Permutation_cons_append in Hp.
    destruct e. by apply Permutation_cons_inv in Hp. }
  split; [|done]. split; [done|unfold bs'; rewrite length_insert; lia| | |].
  - by rewrite Hent.
  - unfold bs'. rewrite length_insert. fold bs'. by rewrite Hent.
  - assert (forall j, 0 <= j -> bs' !z j = if decide (hole = j) then empty_bucket else bs !z j) as Hlook
      by (intros; apply lookup_total_insert_Z; lia).
    intros i Hi Ho. unfold occupied in Ho. rewrite Hlook in Ho by lia.
    case_decide as Hd; [by destruct Ho|]. unfold reachable. rewrite Hlook by lia. rewrite decide_False by done.
    intros j Hj Hlt. pose proof (Hre i Hi ltac:(done) Ho) as Hr. unfold reachable in Hr.
    unfold occupied. rewrite Hlook by lia. case_decide as Hd'; [|by apply Hr].
    exfalso. subst j. pose proof (home_range count (b_stream_id (bs !z i)) Hc) as Hhome.
    destruct (decide (scanned count hole current i)) as [Hs|Hns].
    + destruct (Hsc i Hi Hs) as [_ Hno]. lia.
    + apply Hfree. apply Hr; [done|]. unfold scanned in Hns.
      assert (i <> current) by (intros ->; done). circle.
Qed.

(** ** The operations refine the finite map *)

Lemma to_map_perm (l l' : list (Z * nat)) :
  NoDup l.*1 -> l ≡ₚ l' -> (list_to_map l : gmap Z nat) = list_to_map l'.
Proof. intros. by apply list_to_map_proper. Qed.

Lemma size_to_map t : wf t -> Z.of_nat (size (to_map t)) = size_ t.
Proof.
  unfold wf, to_map. destruct (buckets_ t) as [bs|]; [|by intros [_ ->]].
  intros (Hwf & -> & _). rewrite map_size_list_to_map; [done|apply Hwf].
Qed.


(** The number of streams a table accepts. *)
Definition capacity (t : Http2StreamTable) : Z :=
  match buckets_ t with None => 0 | Some _ => max_active_streams_ t end.

Lemma wf_insert_bucket count bs sid s q :
  wf_buckets count bs -> 0 <= q < count -> ~ occupied bs q ->
  (length (entries bs) + 1 < length bs)%nat ->
  (forall i, 0 <= i < count -> occupied bs i -> b_stream_id (bs !z i) <> sid) ->
  (forall j, 0 <= j < count ->
     probe_distance count (home count sid) j < probe_distance count (home count sid) q -> occupied bs j) ->
  let bs' := <[Z.to_nat q := mkBucket sid (Some s)]> bs in
  wf_buckets count bs' /\ entries bs' ≡ₚ (sid, s) :: entries bs.
Proof.
  intros [Hc Hlen Hnd Hroom Hreach] Hq Hfq Hroom' Habs Hpath bs'.
  assert (entries bs' ≡ₚ (sid, s) :: entries bs) as Hent.
  { pose proof (entries_update bs q (mkBucket sid (Some s)) ltac:(lia)) as Hp.
    assert (bucket_entry (bs !z q) = None) as Hn.
    { unfold bucket_entry. destruct (b_stream (bs !z q)) eqn:E; [|done]. exfalso. apply Hfq. by eexists. }
    rewrite Hn, app_nil_r in Hp. exact Hp. }
  assert (forall j, 0 <= j -> bs' !z j = if decide (q = j) then mkBucket sid (Some s) else bs !z j) as Hlook
    by (intros; apply lookup_total_insert_Z; lia).
  assert (forall j, 0 <= j -> occupied bs j -> occupied bs' j) as Hocc.
  { intros j Hj Ho. unfold occupied. rewrite Hlook by lia. case_decide; [by eexists|done]. }
  split; [|done]. split; [done|unfold bs'; rewrite length_insert; lia| | |].
  - rewrite Hent. cbn. apply NoDup_cons. split; [|done].
    intros Hin. apply list_elem_of_fmap in Hin as ([a s'] & Ha & Hin). cbn in Ha. subst a.
    apply entries_elem in Hin as (i & Hi & Hb). apply (Habs i); [lia| |by rewrite Hb].
    by exists s'; rewrite Hb.
  - rewrite Hent. unfold bs'. rewrite length_insert. cbn. lia.
  - intros i Hi Ho j Hj Hlt. rewrite Hlook in Hlt by lia. case_decide as Hd.
    + subst i. apply Hocc; [lia|]. by apply Hpath.
    + unfold occupied in Ho. rewrite Hlook in Ho by lia. rewrite decide_False in Ho by done.
      apply Hocc; [lia|]. by apply (Hreach i Hi Ho).
Qed.

Lemma insert_ok t sid s :
  wf t ->
  let ok := bool_decide (size_ t < capacity t /\ to_map t !! sid = None) in
  exists t', insert t sid s = (ok, t') /\ wf t' /\ capacity t' = capacity t /\
    to_map t' = if ok then <[sid := s]> (to_map t) else to_map t.
Proof.
  intros Hwf ok. unfold insert. unfold wf in Hwf.
  destruct (buckets_ t) as [bs|] eqn:Hbs.
  2:{ destruct Hwf as [H1 H2]. exists t. unfold ok, capacity. rewrite Hbs, bool_decide_false by lia.
      repeat split; try done. unfold wf. by rewrite Hbs. }
  destruct Hwf as (Hwb & Hsize & Hmax & Hcap).
  assert (wf t) as Hwt by (unfold wf; rewrite Hbs; auto).
  pose proof (wf_count _ _ Hwb) as Hc. pose proof (pow2_count_bounds _ Hc) as Hcb.
  pose proof (wf_length _ _ Hwb) as Hlen.
  assert (capacity t = max_active_streams_ t) as Hcapt by (unfold capacity; by rewrite Hbs).
  rewrite (proj2 (Z.eqb_neq _ _)) by lia. cbn [orb].
  assert (to_map t = list_to_map (entries bs)) as Hmap by (unfold to_map; by rewrite Hbs).
  destruct (Z.leb_spec (max_active_streams_ t) (size_ t)) as [Hfull|Hroom].
  { exists t. unfold ok. rewrite bool_decide_false by lia. done. }
  pose proof (home_range (bucket_count_ t) sid Hc) as Hhome.
  destruct (to_map t !! sid) as [s0|] eqn:Hlk; rewrite Hmap in Hlk.
  - unfold ok. rewrite bool_decide_false by (intros [??]; done).
    apply (lookup_entries _ _ _ _ Hwb), entries_elem in Hlk as (p & Hp & Hbp).
    assert (occupied bs p) as Hop by (exists s0; by rewrite Hbp).
    rewrite (insert_loop_dup _ _ Hc sid p); [by exists t|lia|lia|done|by rewrite Hbp|].
    pose proof (wf_reach _ _ Hwb p ltac:(lia) Hop) as Hr. unfold reachable in Hr. by rewrite Hbp in Hr.
  - pose proof (proj1 (lookup_entries_None _ _ _ Hwb) Hlk) as Habs.
    destruct (free_bucket bs) as (p & Hp & Hfp); [apply Hwb|].
    destruct (insert_loop_free _ bs Hc sid p (Z.to_nat (bucket_count_ t)) (home (bucket_count_ t) sid))
      as (q & -> & Hq & Hfq & Hpath); [lia|done|done|done|circle|].
    unfold ok. rewrite bool_decide_true by (rewrite Hcapt; auto).
    destruct (wf_insert_bucket _ _ sid s q Hwb Hq Hfq ltac:(lia) Habs Hpath) as [Hwb' Hent].
    eexists. split; [done|]. split; [|split; [by unfold capacity; cbn; rewrite Hbs|]].
    + unfold wf. cbn. rewrite Hent. cbn. rewrite wrap_small by (unfold in_width; lia).
      split; [done|]. lia.
    + unfold to_map at 1. cbn. rewrite Hmap, (to_map_perm _ _ (wf_keys _ _ Hwb') Hent). done.
Qed.

Lemma find_ok t sid : wf t -> find t sid = to_map t !! sid.
Proof.
  intros Hwf. unfold find. destruct (buckets_ t) as [bs|] eqn:Hbs.
  - pose proof Hwf as Hwf'. unfold wf in Hwf'. rewrite Hbs in Hwf'. destruct Hwf' as (Hwb & _).
    pose proof (find_slot_cases t bs sid Hbs Hwb) as Hcase.
    destruct (to_map t !! sid) as [s|].
    + destruct Hcase as [Hr Hb]. rewrite (proj2 (Z.eqb_neq _ _)) by lia. by rewrite Hb.
    + by rewrite Hcase, Z.eqb_refl.
  - unfold find_slot, to_map. rewrite Hbs, Z.eqb_refl. by rewrite lookup_empty.
Qed.

Lemma erase_ok t sid :
  wf t -> exists t', erase t sid = Some (to_map t !! sid, t') /\ wf t' /\ capacity t' = capacity t /\
    to_map t' = delete sid (to_map t).
Proof.
  intros Hwf. unfold erase. destruct (buckets_ t) as [bs|] eqn:Hbs.
  2:{ exists t. unfold find_slot, to_map. rewrite Hbs, Z.eqb_refl, lookup_empty, delete_empty. done. }
  pose proof Hwf as Hwf'. unfold wf in Hwf'. rewrite Hbs in Hwf'. destruct Hwf' as (Hwb & Hsize & Hmax & Hcap).
  pose proof (wf_count _ _ Hwb) as Hc. pose proof (pow2_count_bounds _ Hc) as Hcb.
  pose proof (wf_length _ _ Hwb) as Hlen.
  assert (to_map t = list_to_map (entries bs)) as Hmap by (unfold to_map; by rewrite Hbs).
  pose proof (find_slot_cases t bs sid Hbs Hwb) as Hcase.
  destruct (to_map t !! sid) as [s|] eqn:Hlk.
  2:{ exists t. rewrite Hcase, Z.eqb_refl, delete_id by done. done. }
  destruct Hcase as [Hr Hb]. set (slot := find_slot t sid) in *.
  rewrite (proj2 (Z.eqb_neq _ _)) by lia. rewrite Hb. cbn [b_stream].
  set (count := bucket_count_ t) in *.
  destruct (free_bucket bs) as (q & Hq & Hfq); [apply Hwb|].
  assert (slot <> q) as Hsq by (intros ->; apply Hfq; exists s; by rewrite Hb).
  pose proof (advance_spec count slot Hc Hr) as Hadv.
  assert ((sid, s) ∈ entries bs) as Hin by (apply (occupied_entry _ slot); [lia|done]).
  apply list_elem_of_split in Hin as (l1 & l2 & Hsplit).
  assert (shifting count bs slot (advance count slot) (sid, s) (l1 ++ l2)) as Hsh.
  { split; [done|done|rewrite Hadv; circle|rewrite Hadv; circle|done| | |].
    - rewrite Hsplit. symmetry. apply Permutation_middle.
    - intros i Hi Hscan. exfalso. unfold scanned in Hscan. rewrite Hadv in Hscan. circle.
    - intros i Hi _ Ho. by apply Hwb. }
  destruct (erase_at_loop_spec count (Z.to_nat count) bs slot (advance count slot) (sid, s) (l1 ++ l2) q)
    as (bs' & hole' & cur' & e' & Hloop & Hsh' & Hfree); [done|lia|done|lia|done|rewrite Hadv; circle|].
  unfold erase_at. fold count. rewrite Hloop.
  assert (entries bs' ≡ₚ e' :: l1 ++ l2) as Hent' by apply Hsh'.
  assert (length bs' = length bs) as Hlen' by (pose proof (sh_length _ _ _ _ _ _ Hsh'); lia).
  assert (entries bs ≡ₚ (sid, s) :: l1 ++ l2) as Hperm by apply Hsh.
  assert (NoDup ((sid, s) :: l1 ++ l2).*1) as Hnd by (rewrite <-Hperm; apply Hwb).
  assert (length (entries bs) = S (length (l1 ++ l2))) as Hcount by (by rewrite Hperm).
  pose proof (wf_free _ _ Hwb).
  destruct (shifting_finish count bs' hole' cur' e' (l1 ++ l2)) as [Hwb' Hent]; auto.
  { lia. }
  { cbn in Hnd. by apply NoDup_cons in Hnd as [_ ?]. }
  eexists. split; [done|]. split; [|split; [by unfold capacity; cbn; rewrite Hbs|]].
  - unfold wf. cbn. rewrite Hent. rewrite wrap_small by (unfold in_width; lia).
    split; [done|]. lia.
  - unfold to_map at 1. cbn. rewrite (to_map_perm _ _ (wf_keys _ _ Hwb') Hent).
    rewrite Hmap, (to_map_perm _ _ (wf_keys _ _ Hwb) Hperm). cbn. rewrite delete_insert_id; [done|].
    apply not_elem_of_list_to_map. cbn in Hnd. by apply NoDup_cons in Hnd as [? _].
Qed.

(** ** Construction *)

Lemma next_pow2_loop_spec (fuel : nat) value j :
  0 <= j <= 63 -> 1 < value <= 2 ^ 63 -> 2 ^ (j - 1) < value -> 63 - j < Z.of_nat fuel ->
  exists k, 0 <= k <= 63 /\ next_pow2_loop fuel value (2 ^ j) = Some (2 ^ k) /\
    value <= 2 ^ k /\ 2 ^ (k - 1) < value.
Proof.
  intros Hj Hv. revert j Hj. induction fuel as [|fuel IH]; intros j Hj Hlow Hf; [lia|]. cbn [next_pow2_loop].
  destruct (Z.ltb_spec (2 ^ j) value) as [Hlt|Hge]; [|by exists j].
  assert (j < 63) by (apply (Z.pow_lt_mono_r_iff 2); lia).
  rewrite Z.shiftl_mul_pow2, <-Z.pow_add_r by lia. rewrite wrap_small.
  - apply IH; [lia| |lia]. by replace (j + 1 - 1) with j by lia.
  - unfold in_width. split; [lia|]. apply Z.pow_lt_mono_r; lia.
Qed.

Lemma next_pow2_spec value :
  1 <= value <= 2 ^ 63 ->
  exists k, 0 <= k <= 63 /\ next_pow2 65 value = Some (2 ^ k) /\ value <= 2 ^ k < 2 * value.
Proof.
  intros Hv. unfold next_pow2. destruct (Z.leb_spec value 1) as [H1|H1].
  - exists 0. assert (value = 1) as -> by lia. repeat split; lia.
  - assert (2 ^ (0 - 1) < value) as Hlow by (change (2 ^ (0 - 1)) with 0; lia).
    destruct (next_pow2_loop_spec 65 value 0 ltac:(lia) ltac:(lia) Hlow ltac:(lia))
      as (k & Hk & Heq & Hle & Hlt).
    exists k. split; [done|]. split; [exact Heq|]. split; [done|].
    destruct (decide (k = 0)) as [->|]; [cbn in *; lia|].
    replace k with (1 + (k - 1)) at 1 by lia. rewrite Z.pow_add_r by lia. lia.
Qed.

Lemma next_pow2_loop_zero (fuel : nat) value : 0 < value -> next_pow2_loop fuel value 0 = None.
Proof.
  intros Hv. induction fuel as [|fuel IH]; [done|]. cbn [next_pow2_loop].
  rewrite (proj2 (Z.ltb_lt _ _)) by done. exact IH.
Qed.

Lemma next_pow2_loop_diverges (fuel : nat) value j :
  0 <= j <= 63 -> 2 ^ 63 < value -> next_pow2_loop fuel value (2 ^ j) = None.
Proof.
  intros Hj Hv. revert j Hj. induction fuel as [|fuel IH]; intros j Hj; [done|]. cbn [next_pow2_loop].
  assert (2 ^ j <= 2 ^ 63) by (apply Z.pow_le_mono_r; lia).
  rewrite (proj2 (Z.ltb_lt _ _)) by lia. rewrite Z.shiftl_mul_pow2, <-Z.pow_add_r by lia.
  destruct (decide (j = 63)) as [->|].
  - change (u64 (2 ^ (63 + 1))) with 0. apply next_pow2_loop_zero. lia.
  - rewrite wrap_small; [apply IH; lia|]. unfold in_width.
    split; [lia|]. apply Z.pow_lt_mono_r; lia.
Qed.

Lemma replicate_free (n : nat) i : 0 <= i -> ~ occupied (replicate n empty_bucket) i.
Proof.
  intros Hi [s Hs]. rewrite list_lookup_total_alt in Hs.
  destruct (replicate n empty_bucket !! Z.to_nat i) as [b|] eqn:Hb; [|done].
  by apply lookup_replicate in Hb as [-> _].
Qed.

Lemma entries_replicate (n : nat) : entries (replicate n empty_bucket) = [].
Proof. by induction n. Qed.

Lemma init_ok t m :
  0 < m <= 2 ^ 62 ->
  exists t', init t m true = Some (true, t') /\ wf t' /\ capacity t' = m /\ to_map t' = ∅.
Proof.
  intros Hm. unfold init. rewrite (proj2 (Z.eqb_neq _ _)) by lia.
  assert (size_max / 2 = 2 ^ 63 - 1) as -> by reflexivity.
  rewrite (proj2 (Z.ltb_ge _ _)) by lia. rewrite wrap_small by (unfold in_width; lia).
  destruct (next_pow2_spec (m * 2)) as (k & Hk & -> & Hle); [lia|].
  eexists. split; [done|]. split; [|split; [done|]].
  - unfold wf. cbn -[Z.pow]. rewrite entries_replicate. cbn -[Z.pow]. split; [|lia].
    split; [by exists k|rewrite length_replicate; lia| |rewrite length_replicate|].
    + rewrite entries_replicate. constructor.
    + rewrite entries_replicate. cbn. lia.
    + intros i Hi Ho. exfalso. apply (replicate_free (Z.to_nat (2 ^ k)) i); [lia|done].
  - unfold to_map. cbn -[Z.pow]. by rewrite entries_replicate.
Qed.

Lemma streams_in_order_perm t :
  wf t -> streams_in_order t ≡ₚ (map_to_list (to_map t)).*2.
Proof.
  unfold wf, streams_in_order, to_map. destruct (buckets_ t) as [bs|].
  - intros (Hwb & _). rewrite map_to_list_to_map by apply Hwb.
    assert (omap b_stream bs = (entries bs).*2) as ->; [|done].
    unfold entries. clear. induction bs as [|[sid [s|]] bs IH]; cbn; [done| |exact IH].
    by rewrite IH.
  - intros _. by rewrite map_to_list_empty.
Qed.

(** ** Histories

    A client runs any sequence of operations; [out] is what the call returns. *)

Inductive op := OpInsert (stream_id : Z) (stream : nat) | OpErase (stream_id : Z) | OpFind (stream_id : Z).

Inductive out := OutBool (b : bool) | OutStream (s : option nat).

#[export] Instance out_eq_dec : EqDecision out.
Proof. solve_decision. Defined.

Definition run_op (t : Http2StreamTable) (o : op) : option (out * Http2StreamTable) :=
  match o with
  | OpInsert sid s => let '(b, t') := insert t sid s in Some (OutBool b, t')
  | OpErase sid => '(r, t') ← erase t sid; Some (OutStream r, t')
  | OpFind sid => Some (OutStream (find t sid), t)
  end.

Fixpoint run_ops (t : Http2StreamTable) (os : list op) : option (list out * Http2StreamTable) :=
  match os with
  | [] => Some ([], t)
  | o :: os' =>
      '(r, t') ← run_op t o;
      '(rs, t'') ← run_ops t' os';
      Some (r :: rs, t'')
  end.

(** The abstract table: a finite map of at most [cap] streams. *)
Definition spec_op (cap : Z) (m : gmap Z nat) (o : op) : out * gmap Z nat :=
  match o with
  | OpInsert sid s =>
      if bool_decide (Z.of_nat (size m) < cap /\ m !! sid = None)
      then (OutBool true, <[sid := s]> m) else (OutBool false, m)
  | OpErase sid => (OutStream (m !! sid), delete sid m)
  | OpFind sid => (OutStream (m !! sid), m)
  end.

Fixpoint spec_ops (cap : Z) (m : gmap Z nat) (os : list op) : list out * gmap Z nat :=
  match os with
  | [] => ([], m)
  | o :: os' =>
      let '(r, m') := spec_op cap m o in
      let '(rs, m'') := spec_ops cap m' os' in (r :: rs, m'')
  end.

Lemma run_op_refines t o :
  wf t ->
  let '(r, m') := spec_op (capacity t) (to_map t) o in
  exists t', run_op t o = Some (r, t') /\ wf t' /\ capacity t' = capacity t /\ to_map t' = m'.
Proof.
  intros Hwf. destruct o as [sid s|sid|sid]; cbn.
  - destruct (insert_ok t sid s Hwf) as (t' & Hi & Hwf' & Hcap & Hmap).
    rewrite (size_to_map t Hwf). rewrite Hi. case_bool_decide; eauto 6.
  - destruct (erase_ok t sid Hwf) as (t' & He & Hrest). rewrite He. cbn. eauto.
  - rewrite (find_ok t sid Hwf). eauto 6.
Qed.

Lemma run_ops_refines os t :
  wf t ->
  exists t', run_ops t os = Some ((spec_ops (capacity t) (to_map t) os).1, t') /\ wf t' /\
    to_map t' = (spec_ops (capacity t) (to_map t) os).2.
Proof.
  revert t. induction os as [|o os IH]; intros t Hwf; cbn; [eauto|].
  pose proof (run_op_refines t o Hwf) as Hop.
  destruct (spec_op _ _ o) as [r m'] eqn:Hs. destruct Hop as (t' & -> & Hwf' & Hcap & <-). cbn.
  destruct (IH t' Hwf') as (t'' & -> & Hwf'' & Hmap). rewrite Hcap in *.
  destruct (spec_ops _ _ os) as [rs m'']. cbn in *. eauto.
Qed.

(** ** Properties *)

(** C15. Every history of [insert], [erase] and [find] calls on a table
    initialised for [m] streams terminates and returns exactly what a finite
    map bounded by [m] entries returns: no identifier is lost or resurrected by
    the backward-shift deletion, whatever the hash collisions. *)
Theorem table_refines_finite_map (t0 : Http2StreamTable) (m : Z) (os : list op) :
  0 < m <= 2 ^ 62 ->
  exists t t', init t0 m true = Some (true, t) /\
    run_ops t os = Some ((spec_ops m ∅ os).1, t') /\
    to_map t' = (spec_ops m ∅ os).2 /\ size_ t' <= m.
Proof.
  intros Hm. destruct (init_ok t0 m Hm) as (t & Hinit & Hwf & Hcap & Hmap).
  destruct (run_ops_refines os t Hwf) as (t' & Hrun & Hwf' & Hmap').
  rewrite Hcap, Hmap in *. exists t, t'. repeat split; [done|done|done|].
  rewrite <-(size_to_map t' Hwf'), Hmap'. clear Hrun Hmap' Hwf' t'.
  assert (Z.of_nat (size (∅ : gmap Z nat)) <= m) as Hsz by (rewrite map_size_empty; lia).
  revert Hsz. generalize (∅ : gmap Z nat). clear -Hm.
  induction os as [|o os IH]; intros mm Hsz; cbn; [done|].
  assert (Z.of_nat (size (spec_op m mm o).2) <= m) as Hstep.
  { destruct o as [sid s|sid|sid]; cbn; [|rewrite map_size_delete; destruct (mm !! sid); cbn; lia|done].
    case_bool_decide as Hb; cbn; [|done]. rewrite map_size_insert_None by apply Hb. lia. }
  destruct (spec_op m mm o) as [r m']. cbn in Hstep. specialize (IH m' Hstep).
  by destruct (spec_ops m m' os).
Qed.

Lemma table_refines_finite_map_witness :
  exists t t', init empty_table 2 true = Some (true, t) /\
    run_ops t [OpInsert 1 10; OpInsert 3 30; OpInsert 5 50; OpErase 1; OpFind 3; OpInsert 5 50]%nat
    = Some ([OutBool true; OutBool true; OutBool false; OutStream (Some 10); OutStream (Some 30);
             OutBool true]%nat, t') /\
    to_map t' = {[ 3 := 30%nat; 5 := 50%nat ]} /\ size_ t' <= 2.
Proof.
  destruct (table_refines_finite_map empty_table 2
    [OpInsert 1 10; OpInsert 3 30; OpInsert 5 50; OpErase 1; OpFind 3; OpInsert 5 50]%nat)
    as (t & t' & H1 & H2 & H3 & H4); [lia|].
  exists t, t'. split; [exact H1|]. split; [exact H2|]. split; [|exact H4].
  rewrite H3. vm_compute. reflexivity.
Defined.

(** [next_pow2] terminates with the smallest power of two that is at least
    its argument exactly when that power fits in [std::size_t]; above [2^63] the
    shifted value overflows to zero and the loop never ends, so [init] hangs for
    every capacity in (2^62, SIZE_MAX / 2], which its overflow guard admits. *)
Theorem next_pow2_terminates_iff_representable (value : Z) :
  0 < value < 2 ^ 64 ->
  (value <= 2 ^ 63 ->
     exists k, next_pow2 65 value = Some (2 ^ k) /\ value <= 2 ^ k < 2 * value) /\
  (2 ^ 63 < value -> forall fuel, next_pow2 fuel value = None) /\
  (forall t m, 2 ^ 62 < m <= size_max / 2 -> init t m true = None).
Proof.
  intros Hv. split; [|split].
  - intros Hle. destruct (next_pow2_spec value) as (k & _ & H); [lia|]. eauto.
  - intros Hgt fuel. unfold next_pow2. rewrite (proj2 (Z.leb_gt _ _)) by lia.
    apply (next_pow2_loop_diverges fuel value 0); lia.
  - intros t m Hm. unfold init, next_pow2. rewrite (proj2 (Z.eqb_neq _ _)) by lia.
    rewrite (proj2 (Z.ltb_ge _ _)) by lia. change (size_max / 2) with (2 ^ 63 - 1) in Hm.
    rewrite wrap_small by (unfold in_width; lia). rewrite (proj2 (Z.leb_gt _ _)) by lia.
    pose proof (next_pow2_loop_diverges 65 (m * 2) 0 ltac:(lia) ltac:(lia)) as Hdiv.
    change (2 ^ 0) with 1 in Hdiv. by rewrite Hdiv.
Qed.

Lemma next_pow2_terminates_iff_representable_witness :
  next_pow2 65 1000 = Some 1024 /\ init empty_table (2 ^ 62 + 1) true = None.
Proof.
  destruct (next_pow2_terminates_iff_representable 1000) as (_ & _ & H); [lia|].
  split; [reflexivity|]. apply H. split; [lia|]. vm_compute. discriminate.
Defined.

End StreamTable.
