(* ===== verification/Http1Detail.v ===== *)
(** * Character tables and small parsers of the HTTP/1 code
    (namespace [detail] of [src/http/Http1Parser.cpp], [src/http/HttpCommon.h])

    Bytes are [Z]; a [std::string_view] is the list of its bytes. *)
From S2P Require Import Prelude.

(** ** Result codes and enumerations *)

Inductive ParseCode :=
  | Ok | Error | Again | Done
  | InvalidMethod | InvalidRequest | InvalidVersion | Invalid09Method
  | InvalidHeader | HeaderDone | HeaderTooLarge | BodyDone.

#[export] Instance ParseCode_eq_dec : EqDecision ParseCode.
Proof. solve_decision. Defined.

Inductive HttpMethod :=
  | MUnknown | MGet | MHead | MPost | MPut | MDelete | MMKCOL | MCopy | MMove
  | MOptions | MPropFind | MPropPatch | MLock | MUnlock | MPatch | MTrace | MConnect.

#[export] Instance HttpMethod_eq_dec : EqDecision HttpMethod.
Proof. solve_decision. Defined.

(** The cast [static_cast<HttpVersion>(version)] of an unlisted number keeps the
    number. *)
Inductive HttpVersion := HTTP_0_9 | HTTP_1_0 | HTTP_1_1 | HTTP_3_0 | HttpVersionOther (n : Z).

(** ** Tables *)

Definition kUsual : list Z :=
  [0x00000000; 0x7fff37d6; 0xffffffff; 0x7fffffff;
   0xffffffff; 0xffffffff; 0xffffffff; 0xffffffff].

(** [detail::kUsual[ch >> 5] & (1U << (ch & 0x1f))] as a condition. *)
Definition is_usual (ch : Z) : bool :=
  negb (Z.land (kUsual !z (Z.shiftr ch 5)) (Z.shiftl 1 (Z.land ch 0x1f)) =? 0).

(** The table has 256 bytes (with the terminating NUL of the literal): 32 + 16 control and punctuation bytes of which
    only ['-'] is kept, digits, letters folded to lower case, then zeros. *)
Definition kLowcase : list Z :=
  replicate 32 0 ++ replicate 13 0 ++ [chr "-"] ++ [0; 0] ++
  bytes_of_string "0123456789" ++ replicate 6 0 ++
  [0] ++ bytes_of_string "abcdefghijklmnopqrstuvwxyz" ++ replicate 5 0 ++
  [0] ++ bytes_of_string "abcdefghijklmnopqrstuvwxyz" ++ replicate 5 0 ++
  replicate 32 0 ++ replicate 32 0 ++ replicate 32 0 ++ replicate 31 0 ++ [0].

Definition lowcase (ch : Z) : Z := kLowcase !z ch.

Example kLowcase_size : length kLowcase = 256%nat.
Proof. reflexivity. Qed.

(** ** Functions *)

Definition ascii_lower (ch : Z) : Z :=
  if (chr "A" <=? ch) && (ch <=? chr "Z") then u8 (ch + (chr "a" - chr "A")) else ch.

Fixpoint equals_ascii_ci_loop (a b : list Z) : bool :=
  match a, b with
  | x :: a', y :: b' => if ascii_lower x =? ascii_lower y then equals_ascii_ci_loop a' b' else false
  | _, _ => true
  end.

Definition equals_ascii_ci (a b : list Z) : bool :=
  if (length a =? length b)%nat then equals_ascii_ci_loop a b else false.

(** [has_token]: the outer loop skips separators, takes the bytes up to the
    next comma, drops trailing blanks and compares.  [rest] are the bytes from
    position [i] on. *)
Definition is_sep (c : Z) : bool := (c =? SP) || (c =? HTAB) || (c =? chr ",").
Definition is_blank (c : Z) : bool := (c =? SP) || (c =? HTAB).

Fixpoint skip_while (f : Z -> bool) (l : list Z) : list Z :=
  match l with
  | c :: l' => if f c then skip_while f l' else l
  | [] => []
  end.

Fixpoint span (f : Z -> bool) (l : list Z) : list Z * list Z :=
  match l with
  | c :: l' => if f c then let '(a, b) := span f l' in (c :: a, b) else ([], l)
  | [] => ([], [])
  end.

(** [while (end > start && blank(value[end - 1])) --end;] *)
Definition trim_end (l : list Z) : list Z := rev (skip_while is_blank (rev l)).

Fixpoint has_token_loop (fuel : nat) (rest token : list Z) : option bool :=
  match rest with
  | [] => Some false
  | _ =>
      match fuel with
      | O => None
      | S fuel' =>
          let rest1 := skip_while is_sep rest in
          let '(item, rest2) := span (fun c => negb (c =? chr ",")) rest1 in
          let word := trim_end item in
          if negb (length word =? 0)%nat && equals_ascii_ci word token then Some true
          else match rest2 with
               | [] => has_token_loop fuel' [] token
               | c :: rest3 => has_token_loop fuel' (if c =? chr "," then rest3 else rest2) token
               end
      end
  end.

(** Each round consumes at least one byte, so [length value] rounds suffice. *)
Definition has_token (value token : list Z) : option bool :=
  has_token_loop (length value) value token.

(** The bytes of a method name, compared in the order of the [switch]. *)
Definition bytes_eqb (a b : list Z) : bool := bool_decide (a = b).

Definition parse_method (m : list Z) : HttpMethod :=
  match length m with
  | 3%nat =>
      if bytes_eqb m (bytes_of_string "GET") then MGet
      else if bytes_eqb m (bytes_of_string "PUT") then MPut else MUnknown
  | 4%nat =>
      if bytes_eqb m (bytes_of_string "POST") then MPost
      else if bytes_eqb m (bytes_of_string "HEAD") then MHead
      else if bytes_eqb m (bytes_of_string "COPY") then MCopy
      else if bytes_eqb m (bytes_of_string "MOVE") then MMove
      else if bytes_eqb m (bytes_of_string "LOCK") then MLock else MUnknown
  | 5%nat =>
      if bytes_eqb m (bytes_of_string "MKCOL") then MMKCOL
      else if bytes_eqb m (bytes_of_string "PATCH") then MPatch
      else if bytes_eqb m (bytes_of_string "TRACE") then MTrace else MUnknown
  | 6%nat =>
      if bytes_eqb m (bytes_of_string "DELETE") then MDelete
      else if bytes_eqb m (bytes_of_string "UNLOCK") then MUnlock else MUnknown
  | 7%nat =>
      if bytes_eqb m (bytes_of_string "OPTIONS") then MOptions
      else if bytes_eqb m (bytes_of_string "CONNECT") then MConnect else MUnknown
  | 8%nat => if bytes_eqb m (bytes_of_string "PROPFIND") then MPropFind else MUnknown
  | 9%nat => if bytes_eqb m (bytes_of_string "PROPPATCH") then MPropPatch else MUnknown
  | _ => MUnknown
  end.

Definition to_http_version (version : Z) : HttpVersion :=
  if version =? 9 then HTTP_0_9
  else if version =? 1000 then HTTP_1_0
  else if version =? 1001 then HTTP_1_1
  else if version =? 3000 then HTTP_3_0
  else HttpVersionOther version.

(** ** The part of a [mem::IoBuf] the parsers use

    The storage the control block owns, the read position, the write position
    and the end of the view, as offsets from [data()]. *)
Record Buffer := mkBuffer { storage : list Z; pos : Z; last : Z; view_end : Z }.

Definition readable (b : Buffer) : Z := last b - pos b.
Definition writable (b : Buffer) : Z := view_end b - last b.

Definition bytes_between (b : Buffer) (from to : Z) : list Z :=
  take (Z.to_nat (to - from)) (drop (Z.to_nat from) (storage b)).

Definition readable_bytes (b : Buffer) : list Z := bytes_between b (pos b) (last b).

Definition consume (n : Z) (b : Buffer) : Buffer :=
  mkBuffer (storage b) (pos b + n) (last b) (view_end b).

Definition commit (n : Z) (b : Buffer) : Buffer :=
  mkBuffer (storage b) (pos b) (last b + n) (view_end b).

(** [memcpy(writable_data(), bs, bs.size())] *)
Definition write_at_last (bs : list Z) (b : Buffer) : Buffer :=
  mkBuffer (take (Z.to_nat (last b)) (storage b) ++ bs ++
            drop (Z.to_nat (last b) + length bs) (storage b)) (pos b) (last b) (view_end b).

(** The pointers of a buffer delimit its storage. *)
Definition buffer_ok (b : Buffer) : Prop :=
  0 <= pos b <= last b /\ last b <= view_end b /\ view_end b <= Z.of_nat (length (storage b)).

(** The buffer as it was when only the bytes before [n] had been received. *)
Definition with_last (n : Z) (b : Buffer) : Buffer :=
  mkBuffer (storage b) (pos b) n (view_end b).

Lemma with_last_id b : with_last (last b) b = b.
Proof. by destruct b. Qed.

Lemma bytes_between_app b x y z :
  0 <= x <= y -> y <= z -> bytes_between b x z = bytes_between b x y ++ bytes_between b y z.
Proof.
  intros Hxy Hyz. unfold bytes_between.
  replace (Z.to_nat (z - x)) with (Z.to_nat (y - x) + Z.to_nat (z - y))%nat by lia.
  rewrite <-take_take_drop, drop_drop. do 3 f_equal. lia.
Qed.

Lemma bytes_between_nil b x y : y <= x -> bytes_between b x y = [].
Proof. intros. unfold bytes_between. by replace (Z.to_nat (y - x)) with 0%nat by lia. Qed.

Lemma length_bytes_between b x y :
  0 <= x <= y -> y <= Z.of_nat (length (storage b)) ->
  Z.of_nat (length (bytes_between b x y)) = y - x.
Proof. intros. unfold bytes_between. rewrite length_take, length_drop. lia. Qed.

Lemma readable_bytes_split b mid :
  0 <= pos b <= mid -> mid <= last b ->
  readable_bytes b = readable_bytes (with_last mid b) ++ bytes_between b mid (last b).
Proof. intros. by apply (bytes_between_app b). Qed.

Lemma readable_prefix b x y :
  0 <= pos b -> readable_bytes b = x ++ y ->
  bytes_between b (pos b) (pos b + Z.of_nat (length x)) = x.
Proof.
  intros Hp Hr. unfold readable_bytes, bytes_between in *.
  replace (Z.to_nat (pos b + Z.of_nat (length x) - pos b)) with (length x) by lia.
  assert (length (x ++ y) <= Z.to_nat (last b - pos b))%nat as Hl
    by (rewrite <-Hr, length_take; lia).
  rewrite length_app in Hl. apply (f_equal (take (length x))) in Hr.
  rewrite take_take, take_app_length in Hr. by rewrite Nat.min_l in Hr by lia.
Qed.

Lemma readable_middle b x v y :
  0 <= pos b -> readable_bytes b = x ++ v ++ y ->
  bytes_between b (pos b + Z.of_nat (length x)) (pos b + Z.of_nat (length x) + Z.of_nat (length v)) = v.
Proof.
  intros Hp Hr. unfold readable_bytes, bytes_between in *.
  replace (Z.to_nat (pos b + Z.of_nat (length x) + Z.of_nat (length v) - (pos b + Z.of_nat (length x))))
    with (length v) by lia.
  assert (length (x ++ v ++ y) <= Z.to_nat (last b - pos b))%nat as Hl by (rewrite <-Hr, length_take; lia).
  rewrite !length_app in Hl.
  apply (f_equal (fun l => take (length v) (drop (length x) l))) in Hr.
  rewrite drop_app_length, take_app_length, skipn_firstn_comm, drop_drop, take_take, Nat.min_l in Hr by lia.
  replace (Z.to_nat (pos b + Z.of_nat (length x))) with (Z.to_nat (pos b) + length x)%nat by lia. done.
Qed.

Lemma readable_suffix b x y n :
  0 <= pos b -> readable_bytes b = x ++ y -> n = Z.of_nat (length x) ->
  readable_bytes (consume n b) = y.
Proof.
  intros Hp Hr ->. unfold readable_bytes, bytes_between, consume in *. cbn [pos last storage].
  apply (f_equal (drop (length x))) in Hr.
  rewrite drop_app_length, skipn_firstn_comm, drop_drop in Hr. rewrite <-Hr. f_equal; [lia|f_equal; lia].
Qed.

(** Copying the bytes from [a] to [a + n] to the write position of another
    buffer: every interval of them is found again, shifted. *)
Lemma bytes_between_copied (old new : Buffer) (a n x y : Z) :
  0 <= a -> 0 <= n -> a + n <= Z.of_nat (length (storage old)) ->
  0 <= last new -> last new + n <= Z.of_nat (length (storage new)) ->
  a <= x <= y -> y <= a + n ->
  bytes_between (write_at_last (bytes_between old a (a + n)) new)
    (x + (last new - a)) (y + (last new - a)) = bytes_between old x y.
Proof.
  intros Ha Hn Hold Hl Hnew Hxy Hy.
  assert (Z.of_nat (length (bytes_between old a (a + n))) = n) as Hlen
    by (rewrite length_bytes_between; lia).
  unfold bytes_between at 1, write_at_last. cbn [storage].
  replace (Z.to_nat (y + (last new - a) - (x + (last new - a)))) with (Z.to_nat (y - x)) by lia.
  rewrite drop_app_ge by (rewrite length_take; lia).
  rewrite length_take, Nat.min_l by lia.
  replace (Z.to_nat (x + (last new - a)) - Z.to_nat (last new))%nat with (Z.to_nat (x - a)) by lia.
  rewrite drop_app_le, take_app_le by (rewrite ?length_drop; lia).
  unfold bytes_between.
  rewrite skipn_firstn_comm, drop_drop, take_take.
  f_equal; [lia|f_equal; lia].
Qed.

(** [e], then the elements of [more], are successive write positions from [lo]
    up to [hi]: the history of a connection that receives bytes in pieces. *)
Fixpoint arrivals (lo e : Z) (more : list Z) (hi : Z) : Prop :=
  lo <= e /\ match more with [] => e = hi | e' :: more' => arrivals e e' more' hi end.

Lemma arrivals_le lo e more hi : arrivals lo e more hi -> lo <= e <= hi.
Proof.
  revert lo e. induction more as [|e' more IH]; intros lo e [Hle Hrest]; [lia|].
  apply IH in Hrest. lia.
Qed.

(** ** Case-insensitive comparison *)

Lemma equals_ascii_ci_spec a b :
  equals_ascii_ci a b = bool_decide (map ascii_lower a = map ascii_lower b).
Proof.
  unfold equals_ascii_ci. destruct (Nat.eqb_spec (length a) (length b)) as [Hl|Hl].
  - revert b Hl. induction a as [|x a IH]; intros [|y b] Hl; try done; cbn [equals_ascii_ci_loop map].
    destruct (Z.eqb_spec (ascii_lower x) (ascii_lower y)) as [He|Hne].
    + rewrite IH by (cbn in Hl; lia). apply bool_decide_ext. rewrite He. split; congruence.
    + symmetry. apply bool_decide_eq_false. congruence.
  - symmetry. apply bool_decide_eq_false. intros He. apply Hl.
    apply (f_equal length) in He. by rewrite !length_map in He.
Qed.

(** ** Method names *)

Definition method_name (m : HttpMethod) : list Z :=
  bytes_of_string match m with
  | MUnknown => "" | MGet => "GET" | MHead => "HEAD" | MPost => "POST" | MPut => "PUT"
  | MDelete => "DELETE" | MMKCOL => "MKCOL" | MCopy => "COPY" | MMove => "MOVE"
  | MOptions => "OPTIONS" | MPropFind => "PROPFIND" | MPropPatch => "PROPPATCH"
  | MLock => "LOCK" | MUnlock => "UNLOCK" | MPatch => "PATCH" | MTrace => "TRACE"
  | MConnect => "CONNECT"
  end.

Lemma bytes_eqb_true a b : bytes_eqb a b = true <-> a = b.
Proof. apply bool_decide_eq_true. Qed.

Lemma parse_method_sound m k : parse_method m = k -> k <> MUnknown -> m = method_name k.
Proof.
  intros <-. unfold parse_method.
  repeat (case_match; try done; try (match goal with
    | H : bytes_eqb _ _ = true |- _ => apply bytes_eqb_true in H; subst m end; done)).
Qed.

(** ** Tokens of a comma-separated header value *)

Fixpoint split_commas (l : list Z) : list (list Z) :=
  match l with
  | [] => [[]]
  | c :: l' =>
      if c =? chr "," then [] :: split_commas l'
      else match split_commas l' with
           | item :: items => (c :: item) :: items
           | [] => [[c]]
           end
  end.

Definition trim (l : list Z) : list Z := trim_end (skip_while is_blank l).

(** An element of the list, blanks removed, equals [token] up to ASCII case. *)
Definition token_matches (token item : list Z) : bool :=
  negb (length (trim item) =? 0)%nat &&
  bool_decide (map ascii_lower (trim item) = map ascii_lower token).

Lemma split_commas_cons c l :
  exists item items, split_commas l = item :: items /\
    split_commas (c :: l) =
      if c =? chr "," then [] :: item :: items else (c :: item) :: items.
Proof.
  assert (exists item items, split_commas l = item :: items) as (item & items & He).
  { destruct l as [|d l]; cbn [split_commas]; [eauto|].
    destruct (d =? chr ","); [eauto|]. destruct (split_commas l); eauto. }
  exists item, items. split; [done|]. cbn [split_commas]. by rewrite He.
Qed.

Lemma skip_sep_tokens token l :
  existsb (token_matches token) (split_commas (skip_while is_sep l)) =
  existsb (token_matches token) (split_commas l).
Proof.
  induction l as [|c l IH]; [done|]. cbn [skip_while]. destruct (is_sep c) eqn:Hc; [|done].
  destruct (split_commas_cons c l) as (item & items & He & ->). rewrite IH, He.
  unfold is_sep in Hc. destruct (c =? chr ",") eqn:Hcomma; [done|].
  rewrite orb_false_r in Hc. cbn [existsb]. f_equal.
  assert (trim (c :: item) = trim item) as Htrim.
  { unfold trim. cbn [skip_while]. unfold is_blank at 1. by rewrite Hc. }
  unfold token_matches. by rewrite Htrim.
Qed.

Lemma span_split_commas l :
  let '(item, rest) := span (fun c => negb (c =? chr ",")) l in
  split_commas l = item :: match rest with [] => [] | _ :: rest' => split_commas rest' end /\
  match rest with [] => True | c :: _ => c = chr "," end /\
  (length item + length rest = length l)%nat.
Proof.
  induction l as [|c l IH]; [done|]. cbn [span]. destruct (c =? chr ",") eqn:Hc; cbn [negb].
  - cbn [split_commas]. rewrite Hc. apply Z.eqb_eq in Hc. done.
  - destruct (span _ l) as [item rest]. destruct IH as (Hs & Hr & Hlen).
    cbn [split_commas]. rewrite Hc, Hs. split; [done|]. split; [done|]. cbn [length]. lia.
Qed.

Lemma skip_while_head f l c l' : skip_while f l = c :: l' -> f c = false.
Proof. induction l as [|d l IH]; cbn; [done|]. destruct (f d) eqn:E; [done|]. congruence. Qed.

Lemma skip_while_length f l : (length (skip_while f l) <= length l)%nat.
Proof. induction l as [|d l IH]; cbn; [done|]. destruct (f d); cbn; lia. Qed.

(** Blanks cannot start the item that follows a run of separators. *)
Lemma span_item_no_blank l :
  (forall c l', l = c :: l' -> is_sep c = false) ->
  let item := (span (fun c => negb (c =? chr ",")) l).1 in skip_while is_blank item = item.
Proof.
  intros Hhead. destruct l as [|c l]; [done|]. cbn. specialize (Hhead c l eq_refl).
  unfold is_sep in Hhead. apply orb_false_iff in Hhead as [Hb Hc]. rewrite Hc. cbn.
  destruct (span _ l). cbn [fst skip_while]. unfold is_blank at 1. by rewrite Hb.
Qed.

Lemma has_token_loop_spec (fuel : nat) rest token :
  (length rest <= fuel)%nat ->
  has_token_loop fuel rest token = Some (existsb (token_matches token) (split_commas rest)).
Proof.
  revert rest. induction fuel as [|fuel IH]; intros rest Hf.
  { destruct rest; [done|cbn in Hf; lia]. }
  rewrite <-skip_sep_tokens. destruct rest as [|c0 rest0]; [done|].
  set (rest := c0 :: rest0) in *. cbn [has_token_loop]. fold rest.
  set (rest1 := skip_while is_sep rest).
  assert (length rest1 <= length rest)%nat as Hlen1 by apply skip_while_length.
  pose proof (span_split_commas rest1) as Hspan.
  pose proof (span_item_no_blank rest1 (fun c l' H => skip_while_head is_sep rest c l' H)) as Hblank.
  destruct (span _ rest1) as [item rest2]. destruct Hspan as (Hs & Hcomma & Hlen). cbn in Hblank.
  rewrite Hs. cbn [existsb].
  assert (token_matches token item =
          negb (length (trim_end item) =? 0)%nat && equals_ascii_ci (trim_end item) token) as Hm.
  { unfold token_matches, trim. by rewrite Hblank, equals_ascii_ci_spec. }
  rewrite Hm. unfold rest at 1. destruct (_ && _); [done|]. cbn [orb].
  destruct rest2 as [|c rest3].
  - by destruct fuel.
  - subst c. cbn [length] in Hlen. rewrite Z.eqb_refl. apply IH. lia.
Qed.

(** ** Properties *)

(** The method recogniser is exact: a byte string is classified as a known
    method exactly when it is that method's name, byte for byte; every other
    string, whatever its length, is [Unknown]. *)
Theorem parse_method_exact (m : list Z) (k : HttpMethod) :
  k <> MUnknown -> (parse_method m = k <-> m = method_name k).
Proof.
  intros Hk. split; [intros H; by apply parse_method_sound|].
  intros ->. by destruct k.
Qed.

Lemma parse_method_exact_witness :
  parse_method (bytes_of_string "PROPPATCH") = MPropPatch /\ parse_method (bytes_of_string "get") = MUnknown.
Proof.
  split; [|reflexivity].
  apply (parse_method_exact (bytes_of_string "PROPPATCH") MPropPatch); [discriminate|reflexivity].
Defined.

(** [has_token] terminates on every header value and answers whether some
    element of the comma-separated list, with surrounding blanks removed, is
    non-empty and equals the token up to ASCII case (the test behind
    [Connection: close] and [Transfer-Encoding: chunked]). *)
Theorem has_token_spec (value token : list Z) :
  has_token value token = Some (existsb (token_matches token) (split_commas value)).
Proof. apply has_token_loop_spec. done. Qed.

Example has_token_close :
  has_token (bytes_of_string "keep-alive ,	 Close ,x") (bytes_of_string "close") = Some true.
Proof. reflexivity. Qed.
