(* ===== verification/Http1RequestLine.v ===== *)
(** * The incremental request-line parser
    ([RequestLineParser] of [src/http/Http1Parser.cpp])

    One definition per [case] of the state machine, each mapping the byte [ch]
    at address [p] to the next state and line, to the [done] label, or to an
    error return.  Addresses are offsets from [buffer->data()]; a null pointer
    is [None].  The [_WIN32] branches are not part of the model. *)
From S2P Require Import Prelude Http1Detail.

Module RequestLine.

(** ** Data *)

Record RequestLineState := mkLine {
  uri_start : option Z;
  uri_end : option Z;
  uri_ext : option Z;
  args_start : option Z;
  request_start : option Z;
  request_end : option Z;
  method_end : option Z;
  schema_start : option Z;
  schema_end : option Z;
  host_start : option Z;
  host_end : option Z;
  http_protocol_start : option Z;
  http_major : Z;
  http_minor : Z;
  http_version : Z;
  method : HttpMethod;
  complex_uri : bool;
  quoted_uri : bool;
  plus_in_uri : bool;
  empty_path_in_uri : bool }.

Definition initial_line : RequestLineState :=
  mkLine None None None None None None None None None None None None 0 0 0 MUnknown false false false false.

Definition set_uri_start (v : option Z) (l : RequestLineState) : RequestLineState :=
  let '(mkLine _ ue ux as_ rs re me ss se hs he ps ma mi ve mt cu qu pu ep) := l in
  mkLine v ue ux as_ rs re me ss se hs he ps ma mi ve mt cu qu pu ep.
Definition set_uri_end (v : option Z) (l : RequestLineState) : RequestLineState :=
  let '(mkLine us _ ux as_ rs re me ss se hs he ps ma mi ve mt cu qu pu ep) := l in
  mkLine us v ux as_ rs re me ss se hs he ps ma mi ve mt cu qu pu ep.
Definition set_uri_ext (v : option Z) (l : RequestLineState) : RequestLineState :=
  let '(mkLine us ue _ as_ rs re me ss se hs he ps ma mi ve mt cu qu pu ep) := l in
  mkLine us ue v as_ rs re me ss se hs he ps ma mi ve mt cu qu pu ep.
Definition set_args_start (v : option Z) (l : RequestLineState) : RequestLineState :=
  let '(mkLine us ue ux _ rs re me ss se hs he ps ma mi ve mt cu qu pu ep) := l in
  mkLine us ue ux v rs re me ss se hs he ps ma mi ve mt cu qu pu ep.
Definition set_request_start (v : option Z) (l : RequestLineState) : RequestLineState :=
  let '(mkLine us ue ux as_ _ re me ss se hs he ps ma mi ve mt cu qu pu ep) := l in
  mkLine us ue ux as_ v re me ss se hs he ps ma mi ve mt cu qu pu ep.
Definition set_request_end (v : option Z) (l : RequestLineState) : RequestLineState :=
  let '(mkLine us ue ux as_ rs _ me ss se hs he ps ma mi ve mt cu qu pu ep) := l in
  mkLine us ue ux as_ rs v me ss se hs he ps ma mi ve mt cu qu pu ep.
Definition set_method_end (v : option Z) (l : RequestLineState) : RequestLineState :=
  let '(mkLine us ue ux as_ rs re _ ss se hs he ps ma mi ve mt cu qu pu ep) := l in
  mkLine us ue ux as_ rs re v ss se hs he ps ma mi ve mt cu qu pu ep.
Definition set_schema_start (v : option Z) (l : RequestLineState) : RequestLineState :=
  let '(mkLine us ue ux as_ rs re me _ se hs he ps ma mi ve mt cu qu pu ep) := l in
  mkLine us ue ux as_ rs re me v se hs he ps ma mi ve mt cu qu pu ep.
Definition set_schema_end (v : option Z) (l : RequestLineState) : RequestLineState :=
  let '(mkLine us ue ux as_ rs re me ss _ hs he ps ma mi ve mt cu qu pu ep) := l in
  mkLine us ue ux as_ rs re me ss v hs he ps ma mi ve mt cu qu pu ep.
Definition set_host_start (v : option Z) (l : RequestLineState) : RequestLineState :=
  let '(mkLine us ue ux as_ rs re me ss se _ he ps ma mi ve mt cu qu pu ep) := l in
  mkLine us ue ux as_ rs re me ss se v he ps ma mi ve mt cu qu pu ep.
Definition set_host_end (v : option Z) (l : RequestLineState) : RequestLineState :=
  let '(mkLine us ue ux as_ rs re me ss se hs _ ps ma mi ve mt cu qu pu ep) := l in
  mkLine us ue ux as_ rs re me ss se hs v ps ma mi ve mt cu qu pu ep.
Definition set_http_protocol_start (v : option Z) (l : RequestLineState) : RequestLineState :=
  let '(mkLine us ue ux as_ rs re me ss se hs he _ ma mi ve mt cu qu pu ep) := l in
  mkLine us ue ux as_ rs re me ss se hs he v ma mi ve mt cu qu pu ep.
Definition set_http_major (v : Z) (l : RequestLineState) : RequestLineState :=
  let '(mkLine us ue ux as_ rs re me ss se hs he ps _ mi ve mt cu qu pu ep) := l in
  mkLine us ue ux as_ rs re me ss se hs he ps v mi ve mt cu qu pu ep.
Definition set_http_minor (v : Z) (l : RequestLineState) : RequestLineState :=
  let '(mkLine us ue ux as_ rs re me ss se hs he ps ma _ ve mt cu qu pu ep) := l in
  mkLine us ue ux as_ rs re me ss se hs he ps ma v ve mt cu qu pu ep.
Definition set_http_version (v : Z) (l : RequestLineState) : RequestLineState :=
  let '(mkLine us ue ux as_ rs re me ss se hs he ps ma mi _ mt cu qu pu ep) := l in
  mkLine us ue ux as_ rs re me ss se hs he ps ma mi v mt cu qu pu ep.
Definition set_method (v : HttpMethod) (l : RequestLineState) : RequestLineState :=
  let '(mkLine us ue ux as_ rs re me ss se hs he ps ma mi ve _ cu qu pu ep) := l in
  mkLine us ue ux as_ rs re me ss se hs he ps ma mi ve v cu qu pu ep.
Definition set_complex_uri (v : bool) (l : RequestLineState) : RequestLineState :=
  let '(mkLine us ue ux as_ rs re me ss se hs he ps ma mi ve mt _ qu pu ep) := l in
  mkLine us ue ux as_ rs re me ss se hs he ps ma mi ve mt v qu pu ep.
Definition set_quoted_uri (v : bool) (l : RequestLineState) : RequestLineState :=
  let '(mkLine us ue ux as_ rs re me ss se hs he ps ma mi ve mt cu _ pu ep) := l in
  mkLine us ue ux as_ rs re me ss se hs he ps ma mi ve mt cu v pu ep.
Definition set_plus_in_uri (v : bool) (l : RequestLineState) : RequestLineState :=
  let '(mkLine us ue ux as_ rs re me ss se hs he ps ma mi ve mt cu qu _ ep) := l in
  mkLine us ue ux as_ rs re me ss se hs he ps ma mi ve mt cu qu v ep.
Definition set_empty_path_in_uri (v : bool) (l : RequestLineState) : RequestLineState :=
  let '(mkLine us ue ux as_ rs re me ss se hs he ps ma mi ve mt cu qu pu _) := l in
  mkLine us ue ux as_ rs re me ss se hs he ps ma mi ve mt cu qu pu v.

Inductive State :=
  | Start | Method | SpacesBeforeUri | Schema | SchemaSlash | SchemaSlashSlash
  | HostStart | Host | HostEnd | HostIpLiteral | Port | AfterSlashInUri | CheckUri | Uri
  | Http09 | HttpH | HttpHT | HttpHTT | HttpHTTP | FirstMajorDigit | MajorDigit
  | FirstMinorDigit | MinorDigit | SpacesAfterDigit | AlmostDone.

#[export] Instance State_eq_dec : EqDecision State.
Proof. solve_decision. Defined.

Record RequestLineParser := mkParser { state_ : State; line_ : RequestLineState }.

Definition reset (ps : RequestLineParser) : RequestLineParser := mkParser Start initial_line.

(** What one byte does: go on in a state, jump to [done], or return a code. *)
Inductive Outcome :=
  | Next (state : State) (l : RequestLineState)
  | JumpDone (l : RequestLineState)
  | Return (code : ParseCode) (l : RequestLineState).

(** ** The cases of the state machine *)

(** [(ch < 'A' || ch > 'Z') && ch != '_' && ch != '-'] *)
Definition not_method_char (ch : Z) : bool :=
  ((ch <? chr "A") || (chr "Z" <? ch)) && negb (ch =? chr "_") && negb (ch =? chr "-").

(** [c = ch | 0x20; c >= 'a' && c <= 'z'] *)
Definition is_alpha (ch : Z) : bool :=
  let c := u8 (Z.lor ch 0x20) in (chr "a" <=? c) && (c <=? chr "z").

Definition is_digit (ch : Z) : bool := (chr "0" <=? ch) && (ch <=? chr "9").

Definition is_ctl (ch : Z) : bool := (ch <? 0x20) || (ch =? 0x7f).

Section step.
(** The bytes between two addresses of the buffer, for [detail::parse_method]. *)
Context (bytes_between : Z -> Z -> list Z).

Definition step_Start (ch p : Z) (l : RequestLineState) : Outcome :=
  let l := set_request_start (Some p) l in
  if (ch =? CR) || (ch =? LF) then Next Start l
  else if not_method_char ch then Return InvalidMethod l
  else Next Method l.

Definition step_Method (ch p : Z) (l : RequestLineState) : Outcome :=
  if ch =? SP then
    let l := set_method_end (Some (p - 1)) l in
    let m := match request_start l with
             | Some s => parse_method (bytes_between s p)
             | None => MUnknown
             end in
    Next SpacesBeforeUri (set_method m l)
  else if not_method_char ch then Return InvalidMethod l
  else Next Method l.

Definition step_SpacesBeforeUri (ch p : Z) (l : RequestLineState) : Outcome :=
  if ch =? chr "/" then Next AfterSlashInUri (set_uri_start (Some p) l)
  else if is_alpha ch then Next Schema (set_schema_start (Some p) l)
  else if ch =? SP then Next SpacesBeforeUri l
  else Return InvalidRequest l.

Definition step_Schema (ch p : Z) (l : RequestLineState) : Outcome :=
  if is_alpha ch then Next Schema l
  else if is_digit ch || (ch =? chr "+") || (ch =? chr "-") || (ch =? chr ".") then Next Schema l
  else if ch =? chr ":" then Next SchemaSlash (set_schema_end (Some p) l)
  else Return InvalidRequest l.

Definition step_SchemaSlash (ch : Z) (l : RequestLineState) : Outcome :=
  if ch =? chr "/" then Next SchemaSlashSlash l else Return InvalidRequest l.

Definition step_SchemaSlashSlash (ch : Z) (l : RequestLineState) : Outcome :=
  if ch =? chr "/" then Next HostStart l else Return InvalidRequest l.

(** The [switch] that ends the authority, common to [HostEnd] and [Port]. *)
Definition end_of_authority (ch p : Z) (l : RequestLineState) : Outcome :=
  if ch =? chr "/" then Next AfterSlashInUri (set_uri_start (Some p) l)
  else if ch =? chr "?" then
    Next Uri (set_empty_path_in_uri true (set_args_start (Some (p + 1)) (set_uri_start (Some p) l)))
  else if ch =? SP then
    match schema_end l with
    | Some e => Next Http09 (set_uri_end (Some (e + 2)) (set_uri_start (Some (e + 1)) l))
    | None => Next Http09 (set_uri_end (Some p) (set_uri_start (Some p) l))
    end
  else Return InvalidRequest l.

Definition step_HostEnd (ch p : Z) (l : RequestLineState) : Outcome :=
  let l := set_host_end (Some p) l in
  if ch =? chr ":" then Next Port l else end_of_authority ch p l.

Definition step_Host (ch p : Z) (l : RequestLineState) : Outcome :=
  if is_alpha ch then Next Host l
  else if is_digit ch || (ch =? chr ".") || (ch =? chr "-") then Next Host l
  else step_HostEnd ch p l.

Definition step_HostStart (ch p : Z) (l : RequestLineState) : Outcome :=
  let l := set_host_start (Some p) l in
  if ch =? chr "[" then Next HostIpLiteral l else step_Host ch p l.

Definition ip_literal_chars : list Z := bytes_of_string ":-._~!$&'()*+,;=".

Definition step_HostIpLiteral (ch : Z) (l : RequestLineState) : Outcome :=
  if is_digit ch then Next HostIpLiteral l
  else if is_alpha ch then Next HostIpLiteral l
  else if ch =? chr "]" then Next HostEnd l
  else if bool_decide (ch ∈ ip_literal_chars) then Next HostIpLiteral l
  else Return InvalidRequest l.

Definition step_Port (ch p : Z) (l : RequestLineState) : Outcome :=
  if is_digit ch then Next Port l else end_of_authority ch p l.

Definition step_AfterSlashInUri (ch p : Z) (l : RequestLineState) : Outcome :=
  if is_usual ch then Next CheckUri l
  else if ch =? SP then Next Http09 (set_uri_end (Some p) l)
  else if ch =? CR then Next AlmostDone (set_http_minor 9 (set_uri_end (Some p) l))
  else if ch =? LF then JumpDone (set_http_minor 9 (set_uri_end (Some p) l))
  else if ch =? chr "." then Next Uri (set_complex_uri true l)
  else if ch =? chr "%" then Next Uri (set_quoted_uri true l)
  else if ch =? chr "/" then Next Uri (set_complex_uri true l)
  else if ch =? chr "?" then Next Uri (set_args_start (Some (p + 1)) l)
  else if ch =? chr "#" then Next Uri (set_complex_uri true l)
  else if ch =? chr "+" then Next AfterSlashInUri (set_plus_in_uri true l)
  else if is_ctl ch then Return InvalidRequest l
  else Next CheckUri l.

Definition step_CheckUri (ch p : Z) (l : RequestLineState) : Outcome :=
  if is_usual ch then Next CheckUri l
  else if ch =? chr "/" then Next AfterSlashInUri (set_uri_ext None l)
  else if ch =? chr "." then Next CheckUri (set_uri_ext (Some (p + 1)) l)
  else if ch =? SP then Next Http09 (set_uri_end (Some p) l)
  else if ch =? CR then Next AlmostDone (set_http_minor 9 (set_uri_end (Some p) l))
  else if ch =? LF then JumpDone (set_http_minor 9 (set_uri_end (Some p) l))
  else if ch =? chr "%" then Next Uri (set_quoted_uri true l)
  else if ch =? chr "?" then Next Uri (set_args_start (Some (p + 1)) l)
  else if ch =? chr "#" then Next Uri (set_complex_uri true l)
  else if ch =? chr "+" then Next CheckUri (set_plus_in_uri true l)
  else if is_ctl ch then Return InvalidRequest l
  else Next CheckUri l.

Definition step_Uri (ch p : Z) (l : RequestLineState) : Outcome :=
  if is_usual ch then Next Uri l
  else if ch =? SP then Next Http09 (set_uri_end (Some p) l)
  else if ch =? CR then Next AlmostDone (set_http_minor 9 (set_uri_end (Some p) l))
  else if ch =? LF then JumpDone (set_http_minor 9 (set_uri_end (Some p) l))
  else if ch =? chr "#" then Next Uri (set_complex_uri true l)
  else if is_ctl ch then Return InvalidRequest l
  else Next Uri l.

Definition step_Http09 (ch p : Z) (l : RequestLineState) : Outcome :=
  if ch =? SP then Next Http09 l
  else if ch =? CR then Next AlmostDone (set_http_minor 9 l)
  else if ch =? LF then JumpDone (set_http_minor 9 l)
  else if ch =? chr "H" then Next HttpH (set_http_protocol_start (Some p) l)
  else Return InvalidRequest l.

(** The states that expect one fixed byte of ["HTTP/"]. *)
Definition expect (c : Z) (next : State) (ch : Z) (l : RequestLineState) : Outcome :=
  if ch =? c then Next next l else Return InvalidRequest l.

Definition step_HttpH : Z -> RequestLineState -> Outcome := expect (chr "T") HttpHT.
Definition step_HttpHT : Z -> RequestLineState -> Outcome := expect (chr "T") HttpHTT.
Definition step_HttpHTT : Z -> RequestLineState -> Outcome := expect (chr "P") HttpHTTP.
Definition step_HttpHTTP : Z -> RequestLineState -> Outcome := expect (chr "/") FirstMajorDigit.

Definition step_FirstMajorDigit (ch : Z) (l : RequestLineState) : Outcome :=
  if (ch <? chr "1") || (chr "9" <? ch) then Return InvalidRequest l
  else
    let l := set_http_major (ch - chr "0") l in
    if 1 <? http_major l then Return InvalidVersion l else Next MajorDigit l.

Definition step_MajorDigit (ch : Z) (l : RequestLineState) : Outcome :=
  if ch =? chr "." then Next FirstMinorDigit l
  else if (ch <? chr "0") || (chr "9" <? ch) then Return InvalidRequest l
  else
    let l := set_http_major (http_major l * 10 + (ch - chr "0")) l in
    if 1 <? http_major l then Return InvalidVersion l else Next MajorDigit l.

Definition step_FirstMinorDigit (ch : Z) (l : RequestLineState) : Outcome :=
  if (ch <? chr "0") || (chr "9" <? ch) then Return InvalidRequest l
  else Next MinorDigit (set_http_minor (ch - chr "0") l).

Definition step_MinorDigit (ch : Z) (l : RequestLineState) : Outcome :=
  if ch =? CR then Next AlmostDone l
  else if ch =? LF then JumpDone l
  else if ch =? SP then Next SpacesAfterDigit l
  else if (ch <? chr "0") || (chr "9" <? ch) then Return InvalidRequest l
  else if 99 <? http_minor l then Return InvalidRequest l
  else Next MinorDigit (set_http_minor (http_minor l * 10 + (ch - chr "0")) l).

Definition step_SpacesAfterDigit (ch : Z) (l : RequestLineState) : Outcome :=
  if ch =? SP then Next SpacesAfterDigit l
  else if ch =? CR then Next AlmostDone l
  else if ch =? LF then JumpDone l
  else Return InvalidRequest l.

Definition step_AlmostDone (ch p : Z) (l : RequestLineState) : Outcome :=
  let l := set_request_end (Some (p - 1)) l in
  if ch =? LF then JumpDone l else Return InvalidRequest l.

(** The [switch (state)] of [execute]. *)
Definition step (s : State) (ch p : Z) (l : RequestLineState) : Outcome :=
  match s with
  | Start => step_Start ch p l
  | Method => step_Method ch p l
  | SpacesBeforeUri => step_SpacesBeforeUri ch p l
  | Schema => step_Schema ch p l
  | SchemaSlash => step_SchemaSlash ch l
  | SchemaSlashSlash => step_SchemaSlashSlash ch l
  | HostStart => step_HostStart ch p l
  | Host => step_Host ch p l
  | HostEnd => step_HostEnd ch p l
  | HostIpLiteral => step_HostIpLiteral ch l
  | Port => step_Port ch p l
  | AfterSlashInUri => step_AfterSlashInUri ch p l
  | CheckUri => step_CheckUri ch p l
  | Uri => step_Uri ch p l
  | Http09 => step_Http09 ch p l
  | HttpH => step_HttpH ch l
  | HttpHT => step_HttpHT ch l
  | HttpHTT => step_HttpHTT ch l
  | HttpHTTP => step_HttpHTTP ch l
  | FirstMajorDigit => step_FirstMajorDigit ch l
  | MajorDigit => step_MajorDigit ch l
  | FirstMinorDigit => step_FirstMinorDigit ch l
  | MinorDigit => step_MinorDigit ch l
  | SpacesAfterDigit => step_SpacesAfterDigit ch l
  | AlmostDone => step_AlmostDone ch p l
  end.

(** ** The loop of [execute] *)

Inductive LoopResult :=
  | LoopEnd (s : State) (p : Z) (l : RequestLineState)
  | LoopDone (p : Z) (l : RequestLineState)
  | LoopReturn (code : ParseCode) (l : RequestLineState).

(** [for (; p < end; ++p)] over the bytes [bs] that start at [p]. *)
Fixpoint exec_loop (bs : list Z) (p : Z) (s : State) (l : RequestLineState) : LoopResult :=
  match bs with
  | [] => LoopEnd s p l
  | ch :: bs' =>
      match step s ch p l with
      | Next s' l' => exec_loop bs' (p + 1) s' l'
      | JumpDone l' => LoopDone p l'
      | Return code l' => LoopReturn code l'
      end
  end.
End step.

(** The label [done], reached with the line feed at [p]; the storage of the
    buffer is consulted for the byte before it. *)
Definition default_request_end (b : Buffer) (p : Z) : Z :=
  if (0 <? p) && (storage b !z (p - 1) =? CR) then (if 1 <? p then p - 2 else 0)
  else (if 0 <? p then p - 1 else 0).

Definition is_null (o : option Z) : bool := match o with None => true | Some _ => false end.

Definition finish (b : Buffer) (p : Z) (l : RequestLineState)
  : ParseCode * RequestLineParser * Buffer :=
  let l := match request_end l with
           | None => set_request_end (Some (default_request_end b p)) l
           | Some _ => l
           end in
  let b' := consume (p + 1 - pos b) b in
  let l := match request_end l with None => set_request_end (Some 0) l | Some _ => l end in
  let l := set_http_version (http_major l * 1000 + http_minor l) l in
  let ps := mkParser Start l in
  if (http_version l =? 9) && negb (bool_decide (method l = MGet)) then (Invalid09Method, ps, b')
  else if is_null (request_start l) || is_null (method_end l) || is_null (uri_start l) ||
          is_null (uri_end l) then (InvalidRequest, ps, b')
  else (Ok, ps, b').

Definition execute (ps : RequestLineParser) (buffer : option Buffer)
  : ParseCode * RequestLineParser * option Buffer :=
  match buffer with
  | None => (Again, ps, None)
  | Some b =>
      if readable b =? 0 then (Again, ps, Some b)
      else match exec_loop (bytes_between b) (readable_bytes b) (pos b) (state_ ps) (line_ ps) with
           | LoopEnd s p l => (Again, mkParser s l, Some (consume (p - pos b) b))
           | LoopDone p l => let '(code, ps', b') := finish b p l in (code, ps', Some b')
           | LoopReturn code l => (code, mkParser (state_ ps) l, Some b)
           end
  end.

(** ** [replace_buf_ptr]

    Moves the bytes parsed so far to a larger buffer and shifts every pointer.
    [None] is a failed [FIBER_ASSERT]. *)
Definition shift_ptr (delta : Z) (o : option Z) : option Z := (fun x => x + delta) <$> o.

Definition shift_line (delta : Z) (l : RequestLineState) : RequestLineState :=
  mkLine (shift_ptr delta (uri_start l)) (shift_ptr delta (uri_end l)) (shift_ptr delta (uri_ext l))
    (shift_ptr delta (args_start l)) (shift_ptr delta (request_start l))
    (shift_ptr delta (request_end l)) (shift_ptr delta (method_end l))
    (shift_ptr delta (schema_start l)) (shift_ptr delta (schema_end l))
    (shift_ptr delta (host_start l)) (shift_ptr delta (host_end l))
    (shift_ptr delta (http_protocol_start l))
    (http_major l) (http_minor l) (http_version l) (method l)
    (complex_uri l) (quoted_uri l) (plus_in_uri l) (empty_path_in_uri l).

Definition replace_buf_ptr (ps : RequestLineParser) (old_chain new_chain : Buffer)
  : option (ParseCode * RequestLineParser * Buffer) :=
  if bool_decide (state_ ps = Start) then None
  else match request_start (line_ ps) with
       | None => None
       | Some old =>
           if negb ((old <? pos old_chain) && (0 <=? old)) then None
           else
             let length := pos old_chain - old in
             if writable new_chain <? length then Some (HeaderTooLarge, ps, new_chain)
             else
               let delta := last new_chain - old in
               let new_chain := write_at_last (bytes_between old_chain old (pos old_chain)) new_chain in
               let new_chain := consume length (commit length new_chain) in
               Some (Ok, mkParser (state_ ps) (shift_line delta (line_ ps)), new_chain)
       end.

Definition demo (s : string) : ParseCode * RequestLineState :=
  let m := bytes_of_string s ++ [CR; LF] in
  let '(c, ps, _) := execute (mkParser Start initial_line)
    (Some (mkBuffer m 0 (Z.of_nat (length m)) (Z.of_nat (length m)))) in (c, line_ ps).

Example demo_get :
  let '(c, l) := demo "GET /a.b?c HTTP/1.1" in
  (c, method l, uri_start l, uri_end l, args_start l, http_version l, request_end l)
  = (Ok, MGet, Some 4, Some 10, Some 9, 1001, Some 19).
Proof. vm_compute. reflexivity. Qed.

Example demo_absolute :
  let '(c, l) := demo "GET http://h:80 HTTP/1.0" in
  (c, host_start l, host_end l, uri_start l, uri_end l) = (Ok, Some 11, Some 12, Some 9, Some 10).
Proof. vm_compute. reflexivity. Qed.


(** ** The loop, piecewise *)

Lemma exec_loop_app bb bs1 bs2 p s l :
  exec_loop bb (bs1 ++ bs2) p s l =
  match exec_loop bb bs1 p s l with
  | LoopEnd s' p' l' => exec_loop bb bs2 p' s' l'
  | r => r
  end.
Proof.
  revert p s l. induction bs1 as [|ch bs1 IH]; intros p s l; cbn [app exec_loop]; [done|].
  by destruct (step bb s ch p l).
Qed.

Lemma exec_loop_end_pos bb bs p s l s' p' l' :
  exec_loop bb bs p s l = LoopEnd s' p' l' -> p' = p + Z.of_nat (length bs).
Proof.
  revert p s l. induction bs as [|ch bs IH]; intros p s l; cbn [exec_loop length].
  - intros [= _ -> _]. lia.
  - destruct (step bb s ch p l) as [s1 l1|l1|c l1]; [|done..].
    intros Hl. apply IH in Hl. lia.
Qed.

(** Expose the cases of one step: unfold it and split its tests. *)
Ltac step_cases :=
  unfold step, step_Start, step_Method, step_SpacesBeforeUri, step_Schema, step_SchemaSlash,
    step_SchemaSlashSlash, step_HostStart, step_Host, step_HostEnd, step_HostIpLiteral, step_Port,
    end_of_authority, step_AfterSlashInUri, step_CheckUri, step_Uri, step_Http09, step_HttpH,
    step_HttpHT, step_HttpHTT, step_HttpHTTP, expect, step_FirstMajorDigit, step_MajorDigit,
    step_FirstMinorDigit, step_MinorDigit, step_SpacesAfterDigit, step_AlmostDone in *;
  repeat case_match.

(** An error return is neither [Ok] nor [Again]. *)
Definition is_error (c : ParseCode) : Prop := c <> Again /\ c <> Ok.

Lemma step_error bb s ch p l c l' : step bb s ch p l = Return c l' -> is_error c.
Proof. unfold is_error. destruct s; step_cases; split; congruence. Qed.

Lemma exec_loop_error bb bs p s l c l' : exec_loop bb bs p s l = LoopReturn c l' -> is_error c.
Proof.
  revert p s l. induction bs as [|ch bs IH]; intros p s l; cbn [exec_loop]; [done|].
  destruct (step bb s ch p l) as [s1 l1|l1|c1 l1] eqn:Hs; [apply IH|done|].
  intros [= <- <-]. by eapply step_error.
Qed.

(** A run of bytes that all keep the parser in [s] with the line unchanged. *)
Lemma exec_loop_run bb bs p s l :
  (forall ch q, ch ∈ bs -> step bb s ch q l = Next s l) ->
  exec_loop bb bs p s l = LoopEnd s (p + Z.of_nat (length bs)) l.
Proof.
  revert p. induction bs as [|ch bs IH]; intros p Hstay; cbn [exec_loop length].
  - do 2 f_equal; lia.
  - rewrite Hstay by (by left). rewrite IH by (intros; apply Hstay; by right). f_equal. lia.
Qed.

(** ** Incremental parsing *)

(** What a caller sees of a result: on an error return the parser is abandoned,
    so only the code and the pointers remain meaningful; otherwise the state of the
    machine and the read position count as well. *)
Definition observe (r : ParseCode * RequestLineParser * option Buffer)
  : ParseCode * RequestLineState * option (State * option Z) :=
  let '(c, ps, b) := r in
  match c with
  | Ok | Again => (c, line_ ps, Some (state_ ps, pos <$> b))
  | _ => (c, line_ ps, None)
  end.

(** The connection calls [execute] each time more bytes were read, the write
    position being [e1], then [e2], ..., until the result is not [Again]. *)
Fixpoint feed (ps : RequestLineParser) (b : Buffer) (e : Z) (more : list Z)
  : ParseCode * RequestLineParser * option Buffer :=
  match execute ps (Some (with_last e b)), more with
  | (Again, ps', Some b'), e' :: more' => feed ps' b' e' more'
  | r, _ => r
  end.

Lemma execute_empty ps b : readable b = 0 -> execute ps (Some b) = (Again, ps, Some b).
Proof. intros H. unfold execute. by rewrite H. Qed.

Lemma execute_nonempty ps b :
  readable b <> 0 ->
  execute ps (Some b) =
    match exec_loop (bytes_between b) (readable_bytes b) (pos b) (state_ ps) (line_ ps) with
    | LoopEnd s p l => (Again, mkParser s l, Some (consume (p - pos b) b))
    | LoopDone p l => let '(code, ps', b') := finish b p l in (code, ps', Some b')
    | LoopReturn code l => (code, mkParser (state_ ps) l, Some b)
    end.
Proof. intros H. unfold execute. by rewrite (proj2 (Z.eqb_neq _ _) H). Qed.

(** [finish] sees the storage and the absolute positions only. *)
Lemma finish_shift b b' p l :
  storage b = storage b' -> last b = last b' -> view_end b = view_end b' ->
  finish b p l = finish b' p l.
Proof.
  intros Hs Hl Hv. destruct b as [st ps la ve], b' as [st' ps' la' ve']; cbn in Hs, Hl, Hv. subst.
  unfold finish, default_request_end, consume. cbn.
  replace (ps + (p + 1 - ps)) with (p + 1) by lia.
  by replace (ps' + (p + 1 - ps')) with (p + 1) by lia.
Qed.

Lemma finish_result b p l :
  exists c ps, finish b p l = (c, ps, consume (p + 1 - pos b) b) /\ c <> Again.
Proof.
  unfold finish. cbv zeta. destruct (_ && _); [by eauto|]. destruct (_ || _); by eauto.
Qed.

Lemma finish_with_last n b p l :
  finish (with_last n b) p l = let '(c, ps, b') := finish b p l in (c, ps, with_last n b').
Proof.
  unfold finish. cbv zeta. change (default_request_end (with_last n b) p) with (default_request_end b p).
  destruct (_ && _); [done|]. by destruct (_ || _).
Qed.

(** Results reached inside the first piece do not depend on later bytes. *)
Definition relast (n : Z) (r : ParseCode * RequestLineParser * option Buffer) :=
  let '(c, ps, b) := r in (c, ps, with_last n <$> b).

Lemma execute_two ps b mid :
  buffer_ok b -> pos b <= mid <= last b ->
  match execute ps (Some (with_last mid b)) with
  | (Again, ps1, Some b1) =>
      (exists p, b1 = with_last mid (consume p b) /\ buffer_ok (with_last (last b) b1) /\ pos b1 = mid) /\
      observe (execute ps (Some b)) = observe (execute ps1 (Some (with_last (last b) b1)))
  | r => execute ps (Some b) = relast (last b) r
  end.
Proof.
  intros (Hpos & Hview & Hstore) Hmid.
  destruct (decide (mid = pos b)) as [->|Hne].
  { rewrite execute_empty by (unfold readable; cbn; lia). split; [|by rewrite <-(with_last_id b) at 1].
    exists 0. destruct b; cbn in *. unfold consume, with_last, buffer_ok; cbn.
    split; [f_equal; lia|]. lia. }
  rewrite execute_nonempty by (unfold readable; cbn; lia).
  rewrite (execute_nonempty ps b) by (unfold readable; lia).
  rewrite (readable_bytes_split b mid) by lia. rewrite exec_loop_app.
  change (bytes_between (with_last mid b)) with (bytes_between b).
  change (pos (with_last mid b)) with (pos b).
  destruct (exec_loop _ (readable_bytes (with_last mid b)) _ _ _) as [s1 p1 l1|p1 l1|c l1] eqn:Hloop.
  - apply exec_loop_end_pos in Hloop. unfold readable_bytes in Hloop.
    rewrite length_bytes_between in Hloop by (cbn; lia). cbn in Hloop. assert (p1 = mid) as -> by lia.
    set (b1 := with_last (last b) (consume (mid - pos b) (with_last mid b))).
    assert (pos b1 = mid) as Hp1 by (unfold b1; cbn; lia).
    split.
    { exists (mid - pos b). split; [done|]. split; [|cbn; lia].
      fold b1. unfold b1, buffer_ok. cbn. lia. }
    destruct (decide (mid = last b)) as [Heq|Hlt].
    { rewrite (bytes_between_nil b mid) by lia. cbn [exec_loop].
      rewrite execute_empty by (unfold readable; rewrite Hp1; unfold b1; cbn; lia).
      unfold b1, consume, with_last. cbn. done. }
    rewrite (execute_nonempty _ b1) by (unfold readable; rewrite Hp1; unfold b1; cbn; lia).
    unfold readable_bytes. rewrite Hp1. change (bytes_between b1) with (bytes_between b).
    change (last b1) with (last b). cbn [state_ line_].
    destruct (exec_loop _ _ mid s1 l1) as [s2 p2 l2|p2 l2|c2 l2] eqn:Hl2.
    + cbn. unfold b1, consume, with_last. cbn. do 4 f_equal; lia.
    + by rewrite (finish_shift b b1).
    + apply exec_loop_error in Hl2 as [? ?]. by destruct c2.
  - rewrite finish_with_last. destruct (finish_result b p1 l1) as (c & ps' & -> & Hc).
    by destruct c, b.
  - apply exec_loop_error in Hloop as [? ?]. by destruct c, b.
Qed.

Lemma observe_relast n r : observe (relast n r) = observe r.
Proof. by destruct r as [[[] ?] [?|]]. Qed.

Lemma feed_with_last n ps b e more : feed ps (with_last n b) e more = feed ps b e more.
Proof. by destruct more. Qed.

(** The request-line parser is insensitive to how the bytes arrive: feeding
    it any number of pieces, each call continuing after an [Again], yields the
    same code, the same pointers and, unless the line is rejected, the same
    machine state and consumed position as one call on the whole buffer. *)
Theorem execute_any_split (ps : RequestLineParser) (b : Buffer) (e : Z) (more : list Z) :
  buffer_ok b -> arrivals (pos b) e more (last b) ->
  observe (feed ps b e more) = observe (execute ps (Some b)).
Proof.
  revert ps b e. induction more as [|e' more IH]; intros ps b e Hok Harr; cbn [feed].
  - destruct Harr as [_ ->]. rewrite with_last_id. by destruct (execute ps (Some b)) as [[[] ?] [?|]].
  - pose proof (arrivals_le _ _ _ _ Harr) as Hle.
    pose proof (execute_two ps b e Hok Hle) as Htwo. destruct Harr as [_ Hrest].
    destruct (execute ps (Some (with_last e b))) as [[c ps'] [b'|]].
    + destruct c; try (by rewrite Htwo, observe_relast).
      destruct Htwo as ((p & -> & Hok' & Hpos) & ->).
      set (b1 := with_last (last b) (with_last e (consume p b))) in *.
      rewrite <-(IH ps' b1 e'); [|done|unfold b1; cbn in Hpos |- *; by rewrite Hpos].
      unfold b1. by rewrite !feed_with_last.
    + by destruct c; rewrite Htwo, observe_relast.
Qed.

Lemma execute_any_split_witness :
  let m := bytes_of_string "GET / HTTP/1.1" ++ [CR; LF] in
  let b := mkBuffer m 0 16 16 in
  observe (feed (mkParser Start initial_line) b 2 [2; 9; 16]) =
  observe (execute (mkParser Start initial_line) (Some b)) /\
  (observe (execute (mkParser Start initial_line) (Some b))).1.1 = Ok.
Proof.
  intros m b. split; [|vm_compute; reflexivity].
  apply execute_any_split.
  - unfold buffer_ok, b, m. cbn. lia.
  - cbn. lia.
Defined.


(** ** Parsing a printed request line *)

Section print.
Context (m path : list Z) (query : option (list Z)) (d : Z).

Definition query_part : list Z :=
  match query with None => [] | Some q => chr "?" :: q end.

Definition request_line : list Z :=
  m ++ [SP] ++ [chr "/"] ++ path ++ query_part ++ [SP] ++ bytes_of_string "HTTP/1." ++ [chr "0" + d] ++ [CR; LF].

Definition method_char (c : Z) : Prop := not_method_char c = false.
Definition usual_char (c : Z) : Prop := is_usual c = true.
Definition query_char (c : Z) : Prop := SP < c /\ c <> 0x7f /\ c <> chr "#".

(** The pointers the parser must produce for a request line at address [p]. *)
Definition expected_line (p : Z) : RequestLineState :=
  let u := p + Z.of_nat (length m) + 1 in
  let q := u + 1 + Z.of_nat (length path) in
  let e := q + Z.of_nat (length query_part) in
  mkLine (Some u) (Some e) None (match query with None => None | Some _ => Some (q + 1) end)
    (Some p) (Some (e + 9)) (Some (p + Z.of_nat (length m) - 1)) None None None None (Some (e + 1))
    1 d (1000 + d) (parse_method m) false false false false.

End print.

Lemma method_char_facts c : method_char c -> c <> SP /\ c <> CR /\ c <> LF.
Proof. unfold method_char, not_method_char, SP, CR, LF. lia. Qed.

Lemma exec_method bb (m rest : list Z) p :
  m <> [] -> Forall method_char m -> bb p (p + Z.of_nat (length m)) = m ->
  exec_loop bb (m ++ SP :: rest) p Start initial_line =
  exec_loop bb rest (p + Z.of_nat (length m) + 1) SpacesBeforeUri
    (set_method (parse_method m) (set_method_end (Some (p + Z.of_nat (length m) - 1))
       (set_request_start (Some p) initial_line))).
Proof.
  intros Hne Hall Hbb. destruct m as [|c m]; [done|]. apply Forall_cons in Hall as [Hc Hall].
  pose proof (method_char_facts c Hc) as (_ & Hcr & Hlf). cbn [app exec_loop step].
  unfold step_Start. rewrite (proj2 (Z.eqb_neq _ _) Hcr), (proj2 (Z.eqb_neq _ _) Hlf), Hc. cbn [orb].
  rewrite exec_loop_app, exec_loop_run.
  - cbn [exec_loop step]. unfold step_Method. cbn [length] in Hbb |- *.
    replace (p + 1 + Z.of_nat (length m)) with (p + Z.of_nat (S (length m))) by lia.
    rewrite Z.eqb_refl. cbn [request_start set_method_end set_request_start initial_line]. by rewrite Hbb.
  - intros ch q Hin. rewrite Forall_forall in Hall. specialize (Hall ch Hin).
    cbn [step]. unfold step_Method. rewrite Hall.
    apply method_char_facts in Hall as (Hsp & _). by rewrite (proj2 (Z.eqb_neq _ _) Hsp).
Qed.

(** After the first ['/'] and the usual bytes of the path the parser is in one
    of the two states that treat ['?'] and the blank alike. *)
Lemma exec_path bb (path rest : list Z) p l :
  Forall usual_char path ->
  exists s, (s = AfterSlashInUri \/ s = CheckUri) /\
    exec_loop bb (path ++ rest) p AfterSlashInUri l =
    exec_loop bb rest (p + Z.of_nat (length path)) s l.
Proof.
  intros Hall. destruct path as [|c path].
  - exists AfterSlashInUri. split; [by left|]. cbn. f_equal. lia.
  - exists CheckUri. split; [by right|]. apply Forall_cons in Hall as [Hc Hall]. cbn [app exec_loop step].
    unfold step_AfterSlashInUri. rewrite Hc, exec_loop_app, exec_loop_run; [f_equal; cbn [length]; lia|].
    intros ch q Hin. rewrite Forall_forall in Hall. cbn [step]. unfold step_CheckUri.
    by rewrite (Hall ch Hin).
Qed.

Lemma exec_query bb (q : list Z) p l :
  Forall query_char q -> exec_loop bb q p Uri l = LoopEnd Uri (p + Z.of_nat (length q)) l.
Proof.
  intros Hall. apply exec_loop_run. intros ch z Hin. rewrite Forall_forall in Hall.
  destruct (Hall ch Hin) as (H1 & H2 & H3). cbn [step]. unfold step_Uri, is_ctl.
  destruct (is_usual ch); [done|]. unfold SP, CR, LF in *.
  by rewrite !(proj2 (Z.eqb_neq ch _)), (proj2 (Z.ltb_ge _ _)) by lia.
Qed.

(** The line once the target has been read, and the rest of the line. *)
Lemma exec_target bb (query : option (list Z)) (rest : list Z) s p l :
  (s = AfterSlashInUri \/ s = CheckUri) ->
  (forall q, query = Some q -> Forall query_char q) ->
  exec_loop bb (query_part query ++ SP :: rest) p s l =
  exec_loop bb rest (p + Z.of_nat (length (query_part query)) + 1) Http09
    (set_uri_end (Some (p + Z.of_nat (length (query_part query))))
       match query with None => l | Some _ => set_args_start (Some (p + 1)) l end).
Proof.
  intros Hs Hq. destruct query as [q|]; cbn [query_part app].
  - specialize (Hq q eq_refl).
    transitivity (exec_loop bb (q ++ SP :: rest) (p + 1) Uri (set_args_start (Some (p + 1)) l)).
    { by destruct Hs as [->| ->]. }
    rewrite exec_loop_app, exec_query by done. cbn [length].
    replace (p + 1 + Z.of_nat (length q)) with (p + Z.of_nat (S (length q))) by lia. reflexivity.
  - cbn [length]. replace (p + Z.of_nat 0) with p by lia. by destruct Hs as [->| ->].
Qed.

Lemma exec_version bb d (rest : list Z) p l :
  0 <= d <= 9 ->
  exec_loop bb (bytes_of_string "HTTP/1." ++ [chr "0" + d] ++ [CR; LF] ++ rest) p Http09 l =
  LoopDone (p + 9) (set_request_end (Some (p + 8)) (set_http_minor d (set_http_major 1
    (set_http_protocol_start (Some p) l)))).
Proof.
  intros Hd. destruct l.
  match goal with |- exec_loop _ _ _ _ ?l = _ =>
    transitivity (exec_loop bb ([chr "0" + d] ++ [CR; LF] ++ rest) (p + 1 + 1 + 1 + 1 + 1 + 1 + 1)
                    FirstMinorDigit (set_http_major 1 (set_http_protocol_start (Some p) l)))
  end; [reflexivity|].
  cbn [app exec_loop step]. unfold step_FirstMinorDigit.
  assert ((chr "0" + d <? chr "0") || (chr "9" <? chr "0" + d) = false) as -> by lia.
  cbv beta match. set (q := p + 1 + 1 + 1 + 1 + 1 + 1 + 1 + 1).
  match goal with |- context [step _ MinorDigit _ _ (set_http_minor _ ?l)] =>
    transitivity (LoopDone (q + 1) (set_request_end (Some (q + 1 - 1))
                    (set_http_minor (chr "0" + d - chr "0") l)))
  end; [reflexivity|].
  replace (chr "0" + d - chr "0") with d by lia. unfold q.
  f_equal; [lia|]. do 2 f_equal. lia.
Qed.

Lemma length_request_line m path query d :
  Z.of_nat (length (request_line m path query d)) =
  Z.of_nat (length m) + Z.of_nat (length path) + Z.of_nat (length (query_part query)) + 13.
Proof.
  unfold request_line. rewrite !length_app.
  change (length (bytes_of_string "HTTP/1.")) with 7%nat. cbn [length]. lia.
Qed.

(** The loop over a printed line; [finish] then adds the version number. *)
Lemma exec_request_line bb m path query d rest p :
  bb p (p + Z.of_nat (length m)) = m ->
  m <> [] -> Forall method_char m -> Forall usual_char path ->
  (forall q, query = Some q -> Forall query_char q) -> 0 <= d <= 9 ->
  exec_loop bb (request_line m path query d ++ rest) p Start initial_line =
  LoopDone (p + Z.of_nat (length (request_line m path query d)) - 1)
    (set_http_version 0 (expected_line m path query d p)).
Proof.
  intros Hbb Hm Hmc Hpath Hquery Hd. rewrite length_request_line. unfold request_line.
  rewrite <-!app_assoc. cbn [app]. rewrite exec_method by done. cbn [exec_loop step].
  unfold step_SpacesBeforeUri at 1. rewrite Z.eqb_refl.
  match goal with |- context [exec_loop ?bb (path ++ ?r) ?p AfterSlashInUri ?l] =>
    destruct (exec_path bb path r p l Hpath) as (s & Hs & ->) end.
  rewrite exec_target by done.
  change (chr "0" + d :: CR :: LF :: rest) with ([chr "0" + d] ++ [CR; LF] ++ rest).
  rewrite exec_version by done.
  unfold expected_line, initial_line. destruct query as [q|].
  all: cbn -[Z.add Z.mul Z.eqb Z.sub Z.of_nat parse_method query_part].
  all: f_equal; [lia|f_equal; first [lia|f_equal; lia]].
Qed.

Lemma finish_request_line b m path query d p q :
  0 <= d <= 9 ->
  finish b q (set_http_version 0 (expected_line m path query d p)) =
  (Ok, mkParser Start (expected_line m path query d p), consume (q + 1 - pos b) b).
Proof.
  intros Hd. unfold finish, expected_line.
  cbn -[Z.add Z.mul Z.eqb Z.sub Z.of_nat parse_method query_part].
  rewrite (proj2 (Z.eqb_neq _ 9)) by lia.
  cbn -[Z.add Z.mul Z.eqb Z.sub Z.of_nat parse_method query_part]. done.
Qed.

(** ** Any path

    What the machine notes on the way through a path.  A segment is what stands between
    two slashes. *)

(** Behind a slash, inside a segment, or behind the first thing after which nothing more
    is noted. *)
Inductive Place := AfterSlash | InSegment | Anywhere.

Record PathMarks := mkMarks { ext_start : option Z; is_complex : bool; is_quoted : bool; has_plus : bool }.

Definition no_marks : PathMarks := mkMarks None false false false.

Definition marked_complex (k : PathMarks) : PathMarks := mkMarks (ext_start k) true (is_quoted k) (has_plus k).
Definition marked_quoted (k : PathMarks) : PathMarks := mkMarks (ext_start k) (is_complex k) true (has_plus k).
Definition marked_plus (k : PathMarks) : PathMarks := mkMarks (ext_start k) (is_complex k) (is_quoted k) true.
Definition marked_ext (e : option Z) (k : PathMarks) : PathMarks := mkMarks e (is_complex k) (is_quoted k) (has_plus k).

(** The marks of a path that starts at [p]: a percent sign, an empty segment or a segment
    that starts with a dot is noted once, and ends the notes; until then the extension is
    what follows the last dot of the last segment, and a plus sign is noted. *)
Fixpoint path_marks (place : Place) (p : Z) (path : list Z) (k : PathMarks) : Place * PathMarks :=
  match path with
  | [] => (place, k)
  | c :: path' =>
      let go place k := path_marks place (p + 1) path' k in
      match place with
      | Anywhere => go Anywhere k
      | _ =>
          if c =? chr "%" then go Anywhere (marked_quoted k)
          else if c =? chr "+" then go place (marked_plus k)
          else match place with
               | AfterSlash => if (c =? chr ".") || (c =? chr "/") then go Anywhere (marked_complex k) else go InSegment k
               | _ =>
                   if c =? chr "/" then go AfterSlash (marked_ext None k)
                   else if c =? chr "." then go InSegment (marked_ext (Some (p + 1)) k)
                   else go InSegment k
               end
      end
  end.

Definition with_marks (k : PathMarks) (l : RequestLineState) : RequestLineState :=
  mkLine (uri_start l) (uri_end l) (ext_start k) (args_start l) (request_start l) (request_end l) (method_end l) (schema_start l)
    (schema_end l) (host_start l) (host_end l) (http_protocol_start l) (http_major l) (http_minor l) (http_version l) (method l)
    (is_complex k) (is_quoted k) (has_plus k) (empty_path_in_uri l).

(** The pointers for a line with any path: a query is looked for unless the notes have
    ended before it. *)
Definition line_of_path (m path : list Z) (query : option (list Z)) (d p : Z) : RequestLineState :=
  let '(place, k) := path_marks AfterSlash (p + Z.of_nat (length m) + 2) path no_marks in
  let l := expected_line m path query d p in
  with_marks k (match place with Anywhere => set_args_start None l | _ => l end).

(** A byte of a path: no control character, no blank, and no start of a query or a
    fragment. *)
Definition path_char (c : Z) : Prop := SP < c /\ c <> 0x7f /\ c <> chr "?" /\ c <> chr "#".

Definition state_of (place : Place) : State :=
  match place with AfterSlash => AfterSlashInUri | InSegment => CheckUri | Anywhere => Uri end.

Lemma usual_not c x : is_usual c = true -> is_usual x = false -> (c =? x) = false.
Proof. intros Hc Hx. apply Z.eqb_neq. intros ->. congruence. Qed.

Lemma path_step bb place c p k l : path_char c -> exists place' k',
  step bb (state_of place) c p (with_marks k l) = Next (state_of place') (with_marks k' l) /\
  forall path, path_marks place p (c :: path) k = path_marks place' (p + 1) path k'.
Proof.
  unfold path_char. intros (H1 & H2 & H3 & H4). assert ((c =? SP) = false /\ (c =? CR) = false /\ (c =? LF) = false /\ is_ctl c = false) as (E1 & E2 & E3 & E4)
    by (unfold is_ctl, SP, CR, LF in *; lia).
  apply Z.eqb_neq in H3, H4. destruct (is_usual c) eqn:Eu.
  - pose proof (usual_not c (chr "%") Eu eq_refl) as U1. pose proof (usual_not c (chr "+") Eu eq_refl) as U2.
    pose proof (usual_not c (chr ".") Eu eq_refl) as U3. pose proof (usual_not c (chr "/") Eu eq_refl) as U4.
    destruct place; cbn [state_of step path_marks]; unfold step_AfterSlashInUri, step_CheckUri, step_Uri; rewrite Eu, ?U1, ?U2, ?U3, ?U4; cbn [orb].
    + by exists InSegment, k.
    + by exists InSegment, k.
    + by exists Anywhere, k.
  - destruct place; cbn [state_of step path_marks]; unfold step_AfterSlashInUri, step_CheckUri, step_Uri; rewrite Eu, E1, E2, E3, ?H3, H4, E4.
    + destruct (c =? chr ".") eqn:U3; [apply Z.eqb_eq in U3 as ->; by exists Anywhere, (marked_complex k)|].
      destruct (c =? chr "%"); [by exists Anywhere, (marked_quoted k)|]. destruct (c =? chr "/") eqn:U4.
      { apply Z.eqb_eq in U4 as ->. by exists Anywhere, (marked_complex k). }
      destruct (c =? chr "+"); [by exists AfterSlash, (marked_plus k)|]. by exists InSegment, k.
    + destruct (c =? chr "/") eqn:U4; [apply Z.eqb_eq in U4 as ->; by exists AfterSlash, (marked_ext None k)|].
      destruct (c =? chr ".") eqn:U3; [apply Z.eqb_eq in U3 as ->; by exists InSegment, (marked_ext (Some (p + 1)) k)|].
      destruct (c =? chr "%"); [by exists Anywhere, (marked_quoted k)|].
      destruct (c =? chr "+"); [by exists InSegment, (marked_plus k)|]. by exists InSegment, k.
    + by exists Anywhere, k.
Qed.

Lemma exec_path_marks bb (path rest : list Z) : forall place p k l, Forall path_char path ->
  exec_loop bb (path ++ rest) p (state_of place) (with_marks k l) =
  let r := path_marks place p path k in exec_loop bb rest (p + Z.of_nat (length path)) (state_of r.1) (with_marks r.2 l).
Proof.
  induction path as [|c path IH]; intros place p k l Hall.
  - cbn [app length path_marks fst snd]. cbv zeta. cbn [fst snd]. by replace (p + Z.of_nat 0) with p by lia.
  - apply Forall_cons in Hall as [Hc Hall]. destruct (path_step bb place c p k l Hc) as (place' & k' & Hs & Hm). rewrite Hm. cbn [app exec_loop].
    rewrite Hs, IH by done. cbn [length]. by replace (p + 1 + Z.of_nat (length path)) with (p + Z.of_nat (S (length path))) by lia.
Qed.

(** The end of the target, after any path. *)
Lemma exec_target_any bb (query : option (list Z)) (rest : list Z) place p l :
  (forall q, query = Some q -> Forall query_char q) ->
  exec_loop bb (query_part query ++ SP :: rest) p (state_of place) l =
  exec_loop bb rest (p + Z.of_nat (length (query_part query)) + 1) Http09
    (set_uri_end (Some (p + Z.of_nat (length (query_part query))))
       match query, place with None, _ | _, Anywhere => l | Some _, _ => set_args_start (Some (p + 1)) l end).
Proof.
  intros Hq. destruct place; [rewrite exec_target by (done || by left); by destruct query|rewrite exec_target by (done || by right); by destruct query|].
  destruct query as [q|]; cbn [query_part app state_of].
  - specialize (Hq q eq_refl). transitivity (exec_loop bb (q ++ SP :: rest) (p + 1) Uri l); [done|].
    rewrite exec_loop_app, exec_query by done. cbn [length].
    replace (p + 1 + Z.of_nat (length q)) with (p + Z.of_nat (S (length q))) by lia. reflexivity.
  - cbn [length]. by replace (p + Z.of_nat 0) with p by lia.
Qed.

Lemma exec_line_of_path bb m path query d rest p :
  bb p (p + Z.of_nat (length m)) = m ->
  m <> [] -> Forall method_char m -> Forall path_char path ->
  (forall q, query = Some q -> Forall query_char q) -> 0 <= d <= 9 ->
  exec_loop bb (request_line m path query d ++ rest) p Start initial_line =
  LoopDone (p + Z.of_nat (length (request_line m path query d)) - 1)
    (set_http_version 0 (line_of_path m path query d p)).
Proof.
  intros Hbb Hm Hmc Hpath Hquery Hd. rewrite length_request_line. unfold request_line.
  rewrite <-!app_assoc. cbn [app]. rewrite exec_method by done. cbn [exec_loop step].
  unfold step_SpacesBeforeUri at 1. rewrite Z.eqb_refl.
  match goal with |- context [exec_loop ?bb (path ++ ?r) ?p AfterSlashInUri ?l] =>
    change (exec_loop bb (path ++ r) p AfterSlashInUri l) with (exec_loop bb (path ++ r) p (state_of AfterSlash) (with_marks no_marks l)) end.
  rewrite exec_path_marks by done. unfold line_of_path.
  replace (p + Z.of_nat (length m) + 2) with (p + Z.of_nat (length m) + 1 + 1) by lia.
  destruct (path_marks AfterSlash _ path no_marks) as [place k]. cbv zeta. cbn [fst snd]. rewrite exec_target_any by done.
  change (chr "0" + d :: CR :: LF :: rest) with ([chr "0" + d] ++ [CR; LF] ++ rest).
  rewrite exec_version by done.
  unfold expected_line, initial_line, with_marks. destruct query as [q|], place.
  all: cbn -[Z.add Z.mul Z.eqb Z.sub Z.of_nat parse_method query_part].
  all: f_equal; [lia|f_equal; first [lia|f_equal; lia]].
Qed.

Lemma finish_line_of_path b m path query d p q :
  0 <= d <= 9 ->
  finish b q (set_http_version 0 (line_of_path m path query d p)) =
  (Ok, mkParser Start (line_of_path m path query d p), consume (q + 1 - pos b) b).
Proof.
  intros Hd. unfold finish, line_of_path. destruct (path_marks _ _ _ _) as [place k]. unfold expected_line, with_marks. destruct place.
  all: cbn -[Z.add Z.mul Z.eqb Z.sub Z.of_nat parse_method query_part].
  all: rewrite (proj2 (Z.eqb_neq _ 9)) by lia.
  all: cbn -[Z.add Z.mul Z.eqb Z.sub Z.of_nat parse_method query_part]; done.
Qed.


(** [GET /a/b.html?a=1&b HTTP/1.1]: the extension starts at byte 9, the query at 14. *)
Definition sample_path : list Z := bytes_of_string "a/b.html".
Definition sample_query : option (list Z) := Some (bytes_of_string "a=1&b").


(** Behind a percent sign the query is not looked for: the whole target is the path. *)
Lemma query_after_percent_missed :
  args_start (line_of_path (bytes_of_string "GET") (bytes_of_string "a%20b") sample_query 1 0) = None.
Proof. vm_compute. reflexivity. Qed.

(** ** Every pointer stays inside the bytes parsed *)

(** How far the parser has come; [HostStart] precedes the other host states. *)
Definition stage (s : State) : Z :=
  match s with
  | Start => 0 | Method => 1 | SpacesBeforeUri => 2 | Schema => 3 | SchemaSlash => 4
  | SchemaSlashSlash => 5 | HostStart => 6 | Host | HostIpLiteral => 7 | HostEnd => 8 | Port => 9
  | AfterSlashInUri | CheckUri | Uri => 10
  | Http09 | HttpH | HttpHT | HttpHTT | HttpHTTP | FirstMajorDigit | MajorDigit
  | FirstMinorDigit | MinorDigit | SpacesAfterDigit | AlmostDone => 11
  end.

(** [Some x] with [lo <= x <= hi]. *)
Definition within (lo hi : Z) (o : option Z) : Prop :=
  match o with Some x => lo <= x <= hi | None => False end.

Definition null_or_within (lo hi : Z) (o : option Z) : Prop :=
  match o with Some x => lo <= x <= hi | None => True end.

Definition at_ (o : option Z) : Z := match o with Some x => x | None => 0 end.

(** The pointers that are set in state [s] before the byte at [p] is read. *)
Record line_inv (lo : Z) (s : State) (p : Z) (l : RequestLineState) : Prop := {
  inv_lo : 0 <= lo <= p;
  inv_request_end : request_end l = None;
  inv_start : 1 <= stage s -> within lo (p - 1) (request_start l);
  inv_method : 2 <= stage s -> within (at_ (request_start l)) (p - 2) (method_end l);
  inv_schema : 4 <= stage s <= 9 ->
    within (at_ (method_end l) + 1) (p - 1 - (if 5 <=? stage s then 1 else 0) - (if 6 <=? stage s then 1 else 0))
      (schema_end l);
  inv_uri_start : 10 <= stage s -> within (at_ (method_end l) + 1) (p - 1) (uri_start l);
  inv_uri_end : 11 <= stage s -> within (at_ (uri_start l) + 1) (p - 1) (uri_end l);
  inv_args : match args_start l with
             | None => True
             | Some a => 10 <= stage s /\ at_ (uri_start l) < a <= (if stage s =? 11 then at_ (uri_end l) else p)
             end;
  inv_ext : match uri_ext l with
            | None => True
            | Some a => 10 <= stage s /\ at_ (uri_start l) < a <= (if stage s =? 11 then at_ (uri_end l) else p)
            end;
  inv_host : 7 <= stage s <= 9 -> within (at_ (method_end l) + 1) (p - 1) (host_start l);
  inv_host_end : match host_end l with
                 | None => True
                 | Some h => 9 <= stage s /\ within (at_ (method_end l) + 1) h (host_start l) /\ h < p
                 end;
  inv_minor : 0 <= http_minor l <= 999;
  inv_version : match s with
                | MajorDigit | FirstMinorDigit | MinorDigit | SpacesAfterDigit => http_major l = 1
                | AlmostDone => http_major l = 1 \/ (http_major l = 0 /\ http_minor l = 9)
                | _ => http_major l = 0
                end }.

Lemma line_inv_initial lo : 0 <= lo -> line_inv lo Start lo initial_line.
Proof. intros. unfold initial_line. split; cbn; try lia; done. Qed.

(** Use the facts that hold at the current stage, drop the others. *)
Ltac use_stage :=
  repeat match goal with
  | H : ?a <= ?b -> _ |- _ => first [specialize (H ltac:(lia)) | clear H]
  | H : ?a <= ?b <= ?c -> _ |- _ => first [specialize (H ltac:(lia)) | clear H]
  | H : within _ _ ?o |- _ => is_var o; destruct o; [|done]; cbn [within at_] in *
  | H : match ?o with Some _ => _ | None => _ end |- _ => is_var o; destruct o; [first [exfalso; lia|idtac]|]
  end.

(** Walk through the tests of one step without touching its result. *)
Ltac walk :=
  repeat match goal with
  | |- match (if ?b then _ else _) with _ => _ end => destruct b eqn:?
  | |- match match ?o with Some _ => _ | None => _ end with _ => _ end => is_var o; destruct o
  end.

Ltac inv_field := cbn; intros; destruct_and?; repeat split; first [done | lia | idtac].

Ltac inv_leaf :=
  cbn;
  match goal with
  | |- True => exact I
  | |- line_inv _ _ _ _ => split; inv_field
  | |- line_inv _ _ _ _ /\ _ => split; [split; inv_field|inv_field]
  end.

Section step_inv.
Context (bb : Z -> Z -> list Z) (lo ch p : Z).

Definition step_ok (o : Outcome) : Prop :=
  match o with
  | Next s' l' => line_inv lo s' (p + 1) l'
  | JumpDone l' => line_inv lo AlmostDone (p + 1) (set_request_end None l') /\
                   null_or_within lo p (request_end l')
  | Return _ _ => True
  end.

Ltac open_inv :=
  intros [H1 H2 H3 H4 H5 H6 H7 H8 H9 H10 H11 H12 H13];
  match goal with l : RequestLineState |- _ =>
    destruct l as [us ue ux ar rs re me ss se hs he ps ma mi ve mt cu qu pu ep] end;
  cbn in H1, H2, H3, H4, H5, H6, H7, H8, H9, H10, H11, H12, H13; subst; use_stage.

Ltac open_step :=
  unfold step_ok; unfold step_Host; unfold step_HostEnd; unfold end_of_authority;
  cbn [set_request_start set_host_end set_host_start set_request_end set_http_major http_major
       set_http_minor http_minor schema_end request_start set_method_end].

Lemma inv_Start l : line_inv lo Start p l -> step_ok (step_Start ch p l).
Proof. open_inv. all: unfold step_Start; open_step; walk; inv_leaf. Qed.

Lemma inv_Method l : line_inv lo Method p l -> step_ok (step_Method bb ch p l).
Proof. open_inv. all: unfold step_Method; open_step; walk; inv_leaf. Qed.

Lemma inv_SpacesBeforeUri l : line_inv lo SpacesBeforeUri p l -> step_ok (step_SpacesBeforeUri ch p l).
Proof. open_inv. all: unfold step_SpacesBeforeUri; open_step; walk; inv_leaf. Qed.

Lemma inv_Schema l : line_inv lo Schema p l -> step_ok (step_Schema ch p l).
Proof. open_inv. all: unfold step_Schema; open_step; walk; inv_leaf. Qed.

Lemma inv_SchemaSlash l : line_inv lo SchemaSlash p l -> step_ok (step_SchemaSlash ch l).
Proof. open_inv. all: unfold step_SchemaSlash; open_step; walk; inv_leaf. Qed.

Lemma inv_SchemaSlashSlash l : line_inv lo SchemaSlashSlash p l -> step_ok (step_SchemaSlashSlash ch l).
Proof. open_inv. all: unfold step_SchemaSlashSlash; open_step; walk; inv_leaf. Qed.

Lemma inv_HostEnd l : line_inv lo HostEnd p l -> step_ok (step_HostEnd ch p l).
Proof. open_inv. all: unfold step_HostEnd; open_step; walk; inv_leaf. Qed.

Lemma inv_Host l : line_inv lo Host p l -> step_ok (step_Host ch p l).
Proof. open_inv. all: unfold step_Host; open_step; walk; inv_leaf. Qed.

Lemma inv_HostStart l : line_inv lo HostStart p l -> step_ok (step_HostStart ch p l).
Proof. open_inv. all: unfold step_HostStart; open_step; walk; inv_leaf. Qed.

Lemma inv_HostIpLiteral l : line_inv lo HostIpLiteral p l -> step_ok (step_HostIpLiteral ch l).
Proof. open_inv. all: unfold step_HostIpLiteral; open_step; walk; inv_leaf. Qed.

Lemma inv_Port l : line_inv lo Port p l -> step_ok (step_Port ch p l).
Proof. open_inv. all: unfold step_Port; open_step; walk; inv_leaf. Qed.

Lemma inv_AfterSlashInUri l : line_inv lo AfterSlashInUri p l -> step_ok (step_AfterSlashInUri ch p l).
Proof. open_inv. all: unfold step_AfterSlashInUri; open_step; walk; inv_leaf. Qed.

Lemma inv_CheckUri l : line_inv lo CheckUri p l -> step_ok (step_CheckUri ch p l).
Proof. open_inv. all: unfold step_CheckUri; open_step; walk; inv_leaf. Qed.

Lemma inv_Uri l : line_inv lo Uri p l -> step_ok (step_Uri ch p l).
Proof. open_inv. all: unfold step_Uri; open_step; walk; inv_leaf. Qed.

Lemma inv_Http09 l : line_inv lo Http09 p l -> step_ok (step_Http09 ch p l).
Proof. open_inv. all: unfold step_Http09; open_step; walk; inv_leaf. Qed.

Lemma inv_FirstMajorDigit l : line_inv lo FirstMajorDigit p l -> step_ok (step_FirstMajorDigit ch l).
Proof. open_inv. all: unfold step_FirstMajorDigit; open_step; walk; inv_leaf. Qed.

Lemma inv_MajorDigit l : line_inv lo MajorDigit p l -> step_ok (step_MajorDigit ch l).
Proof. open_inv. all: unfold step_MajorDigit; open_step; walk; inv_leaf. Qed.

Lemma inv_FirstMinorDigit l : line_inv lo FirstMinorDigit p l -> step_ok (step_FirstMinorDigit ch l).
Proof. open_inv. all: unfold step_FirstMinorDigit; open_step; walk; inv_leaf. Qed.

Lemma inv_MinorDigit l : line_inv lo MinorDigit p l -> step_ok (step_MinorDigit ch l).
Proof. open_inv. all: unfold step_MinorDigit; open_step; walk; inv_leaf. Qed.

Lemma inv_SpacesAfterDigit l : line_inv lo SpacesAfterDigit p l -> step_ok (step_SpacesAfterDigit ch l).
Proof. open_inv. all: unfold step_SpacesAfterDigit; open_step; walk; inv_leaf. Qed.

Lemma inv_AlmostDone l : line_inv lo AlmostDone p l -> step_ok (step_AlmostDone ch p l).
Proof. open_inv. all: unfold step_AlmostDone; open_step; walk; inv_leaf. Qed.

Lemma inv_expect c s' s l :
  line_inv lo s p l -> stage s = 11 -> stage s' = 11 -> http_major l = 0 ->
  match s' with HttpHT | HttpHTT | HttpHTTP | FirstMajorDigit => True | _ => False end ->
  step_ok (expect c s' ch l).
Proof.
  intros [H1 H2 H3 H4 H5 H6 H7 H8 H9 H10 H11 H12 H13] Hs Hs' Hm Hc. unfold expect, step_ok.
  rewrite Hs in *. destruct (ch =? c); [|done]. split; rewrite ?Hs'; try done; try lia.
  - intros _. specialize (H3 ltac:(lia)). destruct (request_start l); [cbn in *; lia|done].
  - intros _. specialize (H4 ltac:(lia)). destruct (method_end l); [cbn in *; lia|done].
  - intros _. specialize (H6 ltac:(lia)). destruct (uri_start l); [cbn in *; lia|done].
  - intros _. specialize (H7 ltac:(lia)). destruct (uri_end l); [cbn in *; lia|done].
  - destruct (host_end l); [|done]. destruct H11 as (_ & ? & ?). repeat split; [lia|done|lia].
  - by destruct s'.
Qed.

Lemma step_inv s l : line_inv lo s p l -> step_ok (step bb s ch p l).
Proof.
  intros Hinv. pose proof (inv_version _ _ _ _ Hinv) as Hv.
  destruct s; cbn [step]; auto using inv_Start, inv_Method, inv_SpacesBeforeUri, inv_Schema,
    inv_SchemaSlash, inv_SchemaSlashSlash, inv_HostEnd, inv_Host, inv_HostStart, inv_HostIpLiteral,
    inv_Port, inv_AfterSlashInUri, inv_CheckUri, inv_Uri, inv_Http09, inv_FirstMajorDigit,
    inv_MajorDigit, inv_FirstMinorDigit, inv_MinorDigit, inv_SpacesAfterDigit, inv_AlmostDone.
  all: by eapply inv_expect.
Qed.

End step_inv.

Lemma exec_loop_inv bb lo bs p s l :
  line_inv lo s p l ->
  match exec_loop bb bs p s l with
  | LoopEnd s' p' l' => p' = p + Z.of_nat (length bs) /\ line_inv lo s' p' l'
  | LoopDone p' l' => p <= p' < p + Z.of_nat (length bs) /\
      line_inv lo AlmostDone (p' + 1) (set_request_end None l') /\ null_or_within lo p' (request_end l')
  | LoopReturn _ _ => True
  end.
Proof.
  revert p s l. induction bs as [|ch bs IH]; intros p s l Hinv; cbn [exec_loop length].
  - split; [lia|done].
  - pose proof (step_inv bb lo ch p s l Hinv) as Hstep. unfold step_ok in Hstep.
    destruct (step bb s ch p l) as [s' l'|l'|c l']; [|by split; [lia|]|done].
    specialize (IH (p + 1) s' l' Hstep). destruct (exec_loop bb bs (p + 1) s' l'); [| |done].
    + destruct IH as [-> ?]. split; [lia|done].
    + destruct IH as (? & ? & ?). split; [lia|done].
Qed.

(** The buffer is only consulted between the start of the line and the byte being
    read. *)
Lemma exec_loop_ext bb bb' lo bs p s l :
  line_inv lo s p l ->
  (forall x y, lo <= x <= y -> y <= p + Z.of_nat (length bs) -> bb x y = bb' x y) ->
  exec_loop bb bs p s l = exec_loop bb' bs p s l.
Proof.
  intros Hinv Hbb. revert p s l Hinv Hbb. induction bs as [|ch bs IH]; intros p s l Hinv Hbb; [done|].
  cbn [length] in Hbb. cbn [exec_loop].
  assert (step bb s ch p l = step bb' s ch p l) as <-.
  { destruct s; try done. cbn [step]. unfold step_Method. pose proof (inv_start _ _ _ _ Hinv ltac:(done)) as Hst.
    assert (request_start (set_method_end (Some (p - 1)) l) = request_start l) as -> by (by destruct l).
    destruct (request_start l) as [a|]; [|done]. cbn in Hst. by rewrite Hbb by lia. }
  pose proof (step_inv bb lo ch p s l Hinv) as Hstep. unfold step_ok in Hstep.
  destruct (step bb s ch p l); [|done..]. apply IH; [done|]. intros. apply Hbb; lia.
Qed.

(** What the pointers of an accepted line delimit. *)
Definition spans_ok (lo hi : Z) (l : RequestLineState) : Prop :=
  exists r m u e x,
    request_start l = Some r /\ method_end l = Some m /\ uri_start l = Some u /\ uri_end l = Some e /\
    request_end l = Some x /\
    lo <= r <= m /\ m < u < e /\ e < hi /\ lo <= x < hi /\
    null_or_within (u + 1) e (args_start l) /\ null_or_within (u + 1) e (uri_ext l) /\
    match host_end l with None => True | Some h => within (m + 1) h (host_start l) /\ h < hi end /\
    ((http_version l = 9 /\ method l = MGet) \/ 1000 <= http_version l <= 1999).

Lemma finish_spans b lo p l :
  line_inv lo AlmostDone (p + 1) (set_request_end None l) -> null_or_within lo p (request_end l) ->
  let '(c, ps, _) := finish b p l in c = Ok -> spans_ok lo (p + 1) (line_ ps).
Proof.
  destruct l as [us ue ux ar rs re me ss se hs he ps ma mi ve mt cu qu pu ep].
  intros [H1 H2 H3 H4 H5 H6 H7 H8 H9 H10 H11 H12 H13] Hre.
  cbn in H1, H2, H3, H4, H5, H6, H7, H8, H9, H10, H11, H12, H13, Hre. use_stage; try done.
  all: assert (exists x, (match re with Some _ => re | None => Some (default_request_end b p) end) = Some x /\
                    lo <= x <= p) as (x & Hx & Hxb)
    by (destruct re as [x|]; [exists x; done|]; eexists; split; [done|];
        unfold default_request_end; split_ifs; lia).
  all: unfold finish; destruct re; injection Hx as ->; cbn -[Z.mul Z.eqb Z.add].
  all: destruct (Z.eqb_spec (ma * 1000 + mi) 9) as [Hv|Hv]; cbn -[Z.mul Z.add].
  all: try (destruct (decide (mt = MGet)) as [->|Hm]; [|rewrite bool_decide_false by done; done]).
  all: cbn -[Z.mul Z.add]; intros _; unfold spans_ok.
  all: destruct_and?; do 5 eexists; repeat split; cbn -[Z.mul Z.add]; try done; try lia.
  all: first [left; split; [lia|done]|right; lia].
Qed.

(** Memory safety of the request line: from a freshly reset parser, over any
    number of calls, the position only advances within the received bytes, and
    when the line is accepted every pointer lies in the bytes consumed, in the
    order method, target, with the query, the extension and the host inside
    their bounds, so every [string_view] built from them has a non-negative
    length; the version is 0.9 (for [GET] only) or in 1.0 .. 1.999. *)
Theorem execute_pointers_in_bounds (ps ps' : RequestLineParser) (b b' : Buffer) (lo : Z) (c : ParseCode) :
  buffer_ok b -> line_inv lo (state_ ps) (pos b) (line_ ps) ->
  execute ps (Some b) = (c, ps', Some b') ->
  pos b <= pos b' <= last b /\
  (c = Again -> line_inv lo (state_ ps') (pos b') (line_ ps')) /\
  (c = Ok -> spans_ok lo (pos b') (line_ ps')).
Proof.
  intros (Hpos & Hview & Hstore) Hinv Hex.
  destruct (decide (readable b = 0)) as [Hz|Hnz].
  { rewrite execute_empty in Hex by done. injection Hex as <- <- <-. split; [lia|]. done. }
  rewrite execute_nonempty in Hex by done.
  pose proof (exec_loop_inv (bytes_between b) lo (readable_bytes b) (pos b) _ _ Hinv) as Hl.
  assert (Z.of_nat (length (readable_bytes b)) = last b - pos b) as Hlen
    by (apply length_bytes_between; lia).
  rewrite Hlen in Hl.
  destruct (exec_loop _ _ _ _ _) as [s1 p1 l1|p1 l1|c1 l1] eqn:E.
  - injection Hex as <- <- <-. destruct Hl as [-> Hl]. cbn. split; [lia|]. split; [|done].
    intros _. by replace (pos b + _) with (pos b + (last b - pos b)) by lia.
  - destruct Hl as (Hp & Hl & Hre). pose proof (finish_spans b lo p1 l1 Hl Hre) as Hspans.
    destruct (finish_result b p1 l1) as (c' & ps1 & Hf & Hc). rewrite Hf in Hex, Hspans.
    injection Hex as <- <- <-. cbn. split; [lia|]. split; [done|].
    by replace (pos b + (p1 + 1 - pos b)) with (p1 + 1) by lia.
  - injection Hex as <- <- <-. apply exec_loop_error in E as [? ?]. split; [lia|done].
Qed.

Lemma execute_pointers_in_bounds_witness :
  let m := bytes_of_string "GET /a HTTP/1.1" ++ [CR; LF] in
  let b := mkBuffer m 0 17 17 in
  exists ps' b', execute (mkParser Start initial_line) (Some b) = (Ok, ps', Some b') /\
    pos b' = 17 /\ spans_ok 0 17 (line_ ps').
Proof.
  intros m b.
  destruct (execute (mkParser Start initial_line) (Some b)) as [[c ps'] o] eqn:Hex.
  pose proof Hex as Hrun. vm_compute in Hrun. injection Hrun as Hc Hps Ho. subst c o.
  eexists ps', _. split; [reflexivity|]. split; [reflexivity|].
  eapply (execute_pointers_in_bounds (mkParser Start initial_line) ps' b _ 0 Ok) in Hex.
  - by apply Hex.
  - unfold buffer_ok, b, m. cbn. lia.
  - apply (line_inv_initial 0). done.
Defined.


(** ** Moving to a larger buffer *)

Lemma within_shift lo hi o d :
  within lo hi o -> within (lo + d) (hi + d) (shift_ptr d o) /\ at_ (shift_ptr d o) = at_ o + d.
Proof. destruct o; cbn; [lia|done]. Qed.

Lemma line_inv_shift lo s p l d :
  1 <= stage s -> line_inv lo s p l -> 0 <= at_ (request_start l) + d ->
  line_inv (at_ (request_start l) + d) s (p + d) (shift_line d l).
Proof.
  intros Hs [H1 H2 H3 H4 H5 H6 H7 H8 H9 H10 H11 H12 H13] Hd.
  destruct l as [us ue ux ar rs re me ss se hs he ps ma mi ve mt cu qu pu ep].
  cbn -[stage] in H1, H2, H3, H4, H5, H6, H7, H8, H9, H10, H11, H12, H13, Hd |- *. subst re.
  specialize (H3 Hs). destruct rs as [rs|]; [|done]. cbn [within at_] in *.
  split; cbn -[stage]; try done; try lia.
  - intros H. specialize (H4 H). destruct me; cbn in *; [lia|done].
  - intros H. specialize (H5 H). specialize (H4 ltac:(lia)). destruct me, se; cbn in *; [lia|done..].
  - intros H. specialize (H6 H). specialize (H4 ltac:(lia)). destruct me, us; cbn in *; [lia|done..].
  - intros H. specialize (H7 H). specialize (H6 ltac:(lia)). destruct us, ue; cbn in *; [lia|done..].
  - destruct ar; cbn; [|done]. destruct H8 as [Hst H8]. split; [done|]. specialize (H6 Hst).
    destruct (Z.eqb_spec (stage s) 11) as [He|]; [specialize (H7 ltac:(lia))|].
    + destruct us, ue; cbn in *; [lia|done..].
    + destruct us; cbn in *; [lia|done].
  - destruct ux; cbn; [|done]. destruct H9 as [Hst H9]. split; [done|]. specialize (H6 Hst).
    destruct (Z.eqb_spec (stage s) 11) as [He|]; [specialize (H7 ltac:(lia))|].
    + destruct us, ue; cbn in *; [lia|done..].
    + destruct us; cbn in *; [lia|done].
  - intros H. specialize (H10 H). specialize (H4 ltac:(lia)). destruct me, hs; cbn in *; [lia|done..].
  - destruct he; cbn; [|done]. destruct H11 as (Hst & H11 & Hlt). specialize (H4 ltac:(lia)).
    destruct me, hs; cbn in *; [lia|done..].
Qed.

(** Growing the request buffer in mid-line is transparent: unless the new
    buffer is too small (then nothing changes), every byte parsed so far is at
    its shifted address in the new buffer, every pointer is shifted by the same
    amount, the new buffer has nothing left to read, and the parser may go on
    there with all its bounds intact. *)
Theorem replace_buf_ptr_transparent (ps ps' : RequestLineParser) (old new new' : Buffer) (lo : Z)
    (c : ParseCode) :
  buffer_ok old -> buffer_ok new -> line_inv lo (state_ ps) (pos old) (line_ ps) ->
  pos new = last new ->
  replace_buf_ptr ps old new = Some (c, ps', new') ->
  let start := at_ (request_start (line_ ps)) in
  (c = HeaderTooLarge /\ writable new < pos old - start /\ ps' = ps /\ new' = new) \/
  (c = Ok /\ buffer_ok new' /\ readable new' = 0 /\
   let d := last new - start in
   line_ ps' = shift_line d (line_ ps) /\ pos new' = pos old + d /\
   (forall x y, start <= x <= y -> y <= pos old ->
      bytes_between new' (x + d) (y + d) = bytes_between old x y) /\
   line_inv (start + d) (state_ ps') (pos new') (line_ ps')).
Proof.
  intros (Ho1 & Ho2 & Ho3) (Hn1 & Hn2 & Hn3) Hinv Hempty. unfold replace_buf_ptr.
  destruct (bool_decide_reflect (state_ ps = Start)) as [|Hst]; [done|].
  assert (1 <= stage (state_ ps)) as Hstage by (by destruct (state_ ps)).
  pose proof (inv_start _ _ _ _ Hinv Hstage) as Hin. pose proof (inv_lo _ _ _ _ Hinv) as Hlo.
  destruct (request_start (line_ ps)) as [a|] eqn:Hrs; [|done]. cbn [within at_] in *.
  destruct (negb _); [done|].
  destruct (Z.ltb_spec (writable new) (pos old - a)) as [Hsmall|Hroom]; unfold writable in *.
  { intros [= <- <- <-]. by left. }
  intros [= <- <- <-]. right. split; [done|].
  set (moved := bytes_between old a (pos old)).
  assert (Z.of_nat (length moved) = pos old - a) as Hlen by (apply length_bytes_between; lia).
  split.
  { unfold buffer_ok, consume, commit, write_at_last. cbn.
    rewrite !length_app, length_take, length_drop. lia. }
  split; [unfold readable; cbn; lia|]. cbn zeta.
  split; [done|]. split; [cbn; lia|]. split.
  - intros x y Hx Hy.
    pose proof (bytes_between_copied old new a (pos old - a) x y) as Hcopy.
    replace (a + (pos old - a)) with (pos old) in Hcopy by lia. apply Hcopy; lia.
  - cbn [pos consume commit write_at_last state_ line_].
    replace (pos new + (pos old - a)) with (pos old + (last new - a)) by lia.
    pose proof (line_inv_shift lo (state_ ps) (pos old) (line_ ps) (last new - a) Hstage Hinv) as Hsh.
    rewrite Hrs in Hsh. apply Hsh. cbn. lia.
Qed.

Lemma replace_buf_ptr_transparent_witness :
  let old := mkBuffer (bytes_of_string "GET /ab") 7 7 7 in
  let new := mkBuffer (replicate 16 0) 0 0 16 in
  let ps := mkParser CheckUri (set_uri_start (Some 4) (set_method MGet (set_method_end (Some 2)
              (set_request_start (Some 0) initial_line)))) in
  exists ps' new', replace_buf_ptr ps old new = Some (Ok, ps', new') /\
    bytes_between new' 4 7 = bytes_of_string "/ab" /\ pos new' = 7.
Proof.
  intros old new ps.
  destruct (replace_buf_ptr ps old new) as [[[c ps'] new']|] eqn:H; [|vm_compute in H; discriminate].
  pose proof H as Hrun. vm_compute in Hrun. injection Hrun as Hc _ _.
  destruct (replace_buf_ptr_transparent ps ps' old new new' 0 c) as [Hbad|Hok];
    [unfold buffer_ok, old; cbn; lia|unfold buffer_ok, new; cbn; lia| |reflexivity|exact H| |].
  - unfold ps, old, initial_line. split; cbn; try lia; done.
  - destruct Hbad as [Hbad _]. congruence.
  - destruct Hok as (_ & _ & _ & _ & Hpos & Hb & _). subst c. exists ps', new'. split; [reflexivity|].
    split; [|exact Hpos]. apply (Hb 4 7); cbn; lia.
Defined.

End RequestLine.
