(* ===== verification/Http1HeaderLine.v ===== *)
(** * The incremental header-line parser
    ([HeaderLineParser] of [src/http/Http1Parser.cpp])

    Same conventions as the request line.  [header_hash] and [lowcase_index],
    fields of [HeaderLineState] in the source, are kept beside the other fields:
    the loop works on local copies [hash] and [i] of them and stores them back
    only on some exits. *)
From S2P Require Import Prelude Http1Detail.

Module HeaderLine.

(** ** Data *)

Definition kLowcaseHeaderLen : Z := 32.

Record HeaderLineState := mkLine {
  lowcase_header : list Z;
  header_name_start : option Z;
  header_name_end : option Z;
  header_start : option Z;
  header_end : option Z;
  invalid_header : bool }.

Definition initial_line : HeaderLineState := mkLine (replicate 32 0) None None None None false.

Definition set_lowcase_header (v : list Z) (l : HeaderLineState) : HeaderLineState :=
  let '(mkLine _ ns ne hs he iv) := l in mkLine v ns ne hs he iv.
Definition set_header_name_start (v : option Z) (l : HeaderLineState) : HeaderLineState :=
  let '(mkLine lh _ ne hs he iv) := l in mkLine lh v ne hs he iv.
Definition set_header_name_end (v : option Z) (l : HeaderLineState) : HeaderLineState :=
  let '(mkLine lh ns _ hs he iv) := l in mkLine lh ns v hs he iv.
Definition set_header_start (v : option Z) (l : HeaderLineState) : HeaderLineState :=
  let '(mkLine lh ns ne _ he iv) := l in mkLine lh ns ne v he iv.
Definition set_header_end (v : option Z) (l : HeaderLineState) : HeaderLineState :=
  let '(mkLine lh ns ne hs _ iv) := l in mkLine lh ns ne hs v iv.
Definition set_invalid_header (v : bool) (l : HeaderLineState) : HeaderLineState :=
  let '(mkLine lh ns ne hs he _) := l in mkLine lh ns ne hs he v.

Inductive State :=
  | Start | Name | SpaceBeforeValue | Value | SpaceAfterValue | IgnoreLine | AlmostDone
  | HeaderAlmostDone.

#[export] Instance State_eq_dec : EqDecision State.
Proof. solve_decision. Defined.

Record HeaderLineParser := mkParser {
  state_ : State; line_ : HeaderLineState; header_hash : Z; lowcase_index : Z }.

Definition reset (ps : HeaderLineParser) : HeaderLineParser := mkParser Start initial_line 0 0.

(** What one byte does, with the local [hash] and [i]. *)
Inductive Outcome :=
  | Next (state : State) (hash i : Z) (l : HeaderLineState)
  | JumpDone (hash i : Z) (l : HeaderLineState)
  | JumpHeaderDone (l : HeaderLineState)
  | Return (code : ParseCode) (l : HeaderLineState).

(** ** The cases of the state machine *)

Definition hash_step (hash c : Z) : Z := u32 (hash * 31 + c).

(** [line_.lowcase_header[i] = c] *)
Definition store_lowcase (i c : Z) (l : HeaderLineState) : HeaderLineState :=
  set_lowcase_header (<[Z.to_nat i := c]> (lowcase_header l)) l.

Definition step_Start (ch p : Z) (l : HeaderLineState) : Outcome :=
  let l := set_invalid_header false (set_header_end None (set_header_start None
             (set_header_name_end None (set_header_name_start (Some p) l)))) in
  if ch =? CR then Next HeaderAlmostDone 0 0 (set_header_end (Some p) l)
  else if ch =? LF then JumpHeaderDone (set_header_end (Some p) l)
  else
    let c := lowcase ch in
    if negb (c =? 0) then Next Name (hash_step 0 c) 1 (store_lowcase 0 c l)
    else if ch =? chr "_" then Next Name (hash_step 0 ch) 1 (store_lowcase 0 ch l)
    else if (ch <=? 0x20) || (ch =? 0x7f) || (ch =? chr ":") then
      Return InvalidHeader (set_header_end (Some p) l)
    else Next Name 0 0 (set_invalid_header true l).

Definition step_Name (ch p hash i : Z) (l : HeaderLineState) : Outcome :=
  let c := lowcase ch in
  if negb (c =? 0) then
    Next Name (hash_step hash c) (Z.land (u32 (i + 1)) (kLowcaseHeaderLen - 1)) (store_lowcase i c l)
  else if ch =? chr "_" then
    Next Name (hash_step hash ch) (Z.land (u32 (i + 1)) (kLowcaseHeaderLen - 1)) (store_lowcase i ch l)
  else if ch =? chr ":" then Next SpaceBeforeValue hash i (set_header_name_end (Some p) l)
  else if ch =? CR then
    Next AlmostDone hash i (set_header_end (Some p) (set_header_start (Some p) (set_header_name_end (Some p) l)))
  else if ch =? LF then
    JumpDone hash i (set_header_end (Some p) (set_header_start (Some p) (set_header_name_end (Some p) l)))
  else if (ch <=? 0x20) || (ch =? 0x7f) then Return InvalidHeader (set_header_end (Some p) l)
  else Next Name hash i (set_invalid_header true l).

Definition step_SpaceBeforeValue (ch p hash i : Z) (l : HeaderLineState) : Outcome :=
  if ch =? SP then Next SpaceBeforeValue hash i l
  else if ch =? CR then Next AlmostDone hash i (set_header_end (Some p) (set_header_start (Some p) l))
  else if ch =? LF then JumpDone hash i (set_header_end (Some p) (set_header_start (Some p) l))
  else if ch =? 0 then Return InvalidHeader (set_header_end (Some p) l)
  else Next Value hash i (set_header_start (Some p) l).

Definition step_Value (ch p hash i : Z) (l : HeaderLineState) : Outcome :=
  if ch =? SP then Next SpaceAfterValue hash i (set_header_end (Some p) l)
  else if ch =? CR then Next AlmostDone hash i (set_header_end (Some p) l)
  else if ch =? LF then JumpDone hash i (set_header_end (Some p) l)
  else if ch =? 0 then Return InvalidHeader (set_header_end (Some p) l)
  else Next Value hash i l.

Definition step_SpaceAfterValue (ch p hash i : Z) (l : HeaderLineState) : Outcome :=
  if ch =? SP then Next SpaceAfterValue hash i l
  else if ch =? CR then Next AlmostDone hash i l
  else if ch =? LF then JumpDone hash i l
  else if ch =? 0 then Return InvalidHeader (set_header_end (Some p) l)
  else Next Value hash i l.

Definition step_IgnoreLine (ch hash i : Z) (l : HeaderLineState) : Outcome :=
  if ch =? LF then Next Start hash i l else Next IgnoreLine hash i l.

Definition step_AlmostDone (ch hash i : Z) (l : HeaderLineState) : Outcome :=
  if ch =? LF then JumpDone hash i l else Return InvalidHeader l.

Definition step_HeaderAlmostDone (ch : Z) (l : HeaderLineState) : Outcome :=
  if ch =? LF then JumpHeaderDone l else Return InvalidHeader l.

Definition step (s : State) (ch p hash i : Z) (l : HeaderLineState) : Outcome :=
  match s with
  | Start => step_Start ch p l
  | Name => step_Name ch p hash i l
  | SpaceBeforeValue => step_SpaceBeforeValue ch p hash i l
  | Value => step_Value ch p hash i l
  | SpaceAfterValue => step_SpaceAfterValue ch p hash i l
  | IgnoreLine => step_IgnoreLine ch hash i l
  | AlmostDone => step_AlmostDone ch hash i l
  | HeaderAlmostDone => step_HeaderAlmostDone ch l
  end.

(** ** [execute] *)

Inductive LoopResult :=
  | LoopEnd (s : State) (p hash i : Z) (l : HeaderLineState)
  | LoopDone (p hash i : Z) (l : HeaderLineState)
  | LoopHeaderDone (p : Z) (l : HeaderLineState)
  | LoopReturn (code : ParseCode) (l : HeaderLineState).

Fixpoint exec_loop (bs : list Z) (p : Z) (s : State) (hash i : Z) (l : HeaderLineState) : LoopResult :=
  match bs with
  | [] => LoopEnd s p hash i l
  | ch :: bs' =>
      match step s ch p hash i l with
      | Next s' hash' i' l' => exec_loop bs' (p + 1) s' hash' i' l'
      | JumpDone hash' i' l' => LoopDone p hash' i' l'
      | JumpHeaderDone l' => LoopHeaderDone p l'
      | Return code l' => LoopReturn code l'
      end
  end.

Definition execute (ps : HeaderLineParser) (buffer : option Buffer)
  : ParseCode * HeaderLineParser * option Buffer :=
  match buffer with
  | None => (Again, ps, None)
  | Some b =>
      if readable b =? 0 then (Again, ps, Some b)
      else match exec_loop (readable_bytes b) (pos b) (state_ ps) (header_hash ps) (lowcase_index ps)
                   (line_ ps) with
           | LoopEnd s p hash i l => (Again, mkParser s l hash i, Some (consume (p - pos b) b))
           | LoopDone p hash i l => (Ok, mkParser Start l hash i, Some (consume (p + 1 - pos b) b))
           | LoopHeaderDone p l =>
               (HeaderDone, mkParser Start l (header_hash ps) (lowcase_index ps),
                Some (consume (p + 1 - pos b) b))
           | LoopReturn code l =>
               (code, mkParser (state_ ps) l (header_hash ps) (lowcase_index ps), Some b)
           end
  end.

(** ** [replace_buf_ptr]; [None] is a failed [FIBER_ASSERT]. *)

Definition shift_ptr (delta : Z) (o : option Z) : option Z := (fun x => x + delta) <$> o.

Definition shift_line (delta : Z) (l : HeaderLineState) : HeaderLineState :=
  mkLine (lowcase_header l) (shift_ptr delta (header_name_start l)) (shift_ptr delta (header_name_end l))
    (shift_ptr delta (header_start l)) (shift_ptr delta (header_end l)) (invalid_header l).

Definition replace_buf_ptr (ps : HeaderLineParser) (old_chain new_chain : Buffer)
  : option (ParseCode * HeaderLineParser * Buffer) :=
  if bool_decide (state_ ps = Start) then None
  else match header_name_start (line_ ps) with
       | None => None
       | Some old =>
           if negb ((old <? pos old_chain) && (0 <=? old)) then None
           else
             let length := pos old_chain - old in
             if writable new_chain <? length then Some (HeaderTooLarge, ps, new_chain)
             else
               let delta := last new_chain - old in
               let new_chain := write_at_last (bytes_between old_chain old (pos old_chain)) new_chain in
               let new_chain := consume length (commit length new_chain) in
               Some (Ok, mkParser (state_ ps) (shift_line delta (line_ ps)) (header_hash ps)
                           (lowcase_index ps), new_chain)
       end.

Example demo_header :
  let m := bytes_of_string "Content-Type:  a b  " ++ [CR; LF] in
  let '(c, ps, _) := execute (mkParser Start initial_line 0 0)
    (Some (mkBuffer m 0 (Z.of_nat (length m)) (Z.of_nat (length m)))) in
  (c, header_name_start (line_ ps), header_name_end (line_ ps), header_start (line_ ps),
   header_end (line_ ps), take 12 (lowcase_header (line_ ps)))
  = (Ok, Some 0, Some 12, Some 15, Some 18, bytes_of_string "content-type").
Proof. vm_compute. reflexivity. Qed.


(** ** The loop, piecewise *)

Lemma exec_loop_app_header bs1 bs2 p s h i l :
  exec_loop (bs1 ++ bs2) p s h i l =
  match exec_loop bs1 p s h i l with
  | LoopEnd s' p' h' i' l' => exec_loop bs2 p' s' h' i' l'
  | r => r
  end.
Proof.
  revert p s h i l. induction bs1 as [|ch bs1 IH]; intros p s h i l; cbn [app exec_loop]; [done|].
  by destruct (step s ch p h i l).
Qed.

Lemma exec_loop_end_pos_header bs p s h i l s' p' h' i' l' :
  exec_loop bs p s h i l = LoopEnd s' p' h' i' l' -> p' = p + Z.of_nat (length bs).
Proof.
  revert p s h i l. induction bs as [|ch bs IH]; intros p s h i l; cbn [exec_loop length].
  - intros [= _ -> _ _ _]. lia.
  - destruct (step s ch p h i l); [|done..]. intros Hl. apply IH in Hl. lia.
Qed.

Lemma step_error_header s ch p h i l c l' : step s ch p h i l = Return c l' -> c = InvalidHeader.
Proof.
  destruct s; unfold step, step_Start, step_Name, step_SpaceBeforeValue, step_Value, step_SpaceAfterValue,
    step_IgnoreLine, step_AlmostDone, step_HeaderAlmostDone; cbv zeta; repeat case_match; congruence.
Qed.

Lemma exec_loop_error_header bs p s h i l c l' : exec_loop bs p s h i l = LoopReturn c l' -> c = InvalidHeader.
Proof.
  revert p s h i l. induction bs as [|ch bs IH]; intros p s h i l; cbn [exec_loop]; [done|].
  destruct (step s ch p h i l) as [s1 h1 i1 l1|h1 i1 l1|l1|c1 l1] eqn:Hs; [apply IH|done|done|].
  intros [= <- <-]. by eapply step_error_header.
Qed.

(** ** Incremental parsing *)

(** What a caller sees: the code and the pointers; the machine state, hash,
    index and position when a header was read or more bytes are needed; the
    position alone at the end of the header block. *)
Definition observe (r : ParseCode * HeaderLineParser * option Buffer)
  : ParseCode * HeaderLineState * option (State * Z * Z) * option Z :=
  let '(c, ps, b) := r in
  match c with
  | Ok | Again => (c, line_ ps, Some (state_ ps, header_hash ps, lowcase_index ps), pos <$> b)
  | HeaderDone => (c, line_ ps, None, pos <$> b)
  | _ => (c, line_ ps, None, None)
  end.

Fixpoint feed (ps : HeaderLineParser) (b : Buffer) (e : Z) (more : list Z)
  : ParseCode * HeaderLineParser * option Buffer :=
  match execute ps (Some (with_last e b)), more with
  | (Again, ps', Some b'), e' :: more' => feed ps' b' e' more'
  | r, _ => r
  end.

Definition loop_result (ps : HeaderLineParser) (b : Buffer) (r : LoopResult)
  : ParseCode * HeaderLineParser * option Buffer :=
  match r with
  | LoopEnd s p hash i l => (Again, mkParser s l hash i, Some (consume (p - pos b) b))
  | LoopDone p hash i l => (Ok, mkParser Start l hash i, Some (consume (p + 1 - pos b) b))
  | LoopHeaderDone p l =>
      (HeaderDone, mkParser Start l (header_hash ps) (lowcase_index ps), Some (consume (p + 1 - pos b) b))
  | LoopReturn code l => (code, mkParser (state_ ps) l (header_hash ps) (lowcase_index ps), Some b)
  end.

Lemma execute_empty_header ps b : readable b = 0 -> execute ps (Some b) = (Again, ps, Some b).
Proof. intros H. unfold execute. by rewrite H. Qed.

Lemma execute_nonempty_header ps b :
  readable b <> 0 ->
  execute ps (Some b) = loop_result ps b
    (exec_loop (readable_bytes b) (pos b) (state_ ps) (header_hash ps) (lowcase_index ps) (line_ ps)).
Proof. intros H. unfold execute. by rewrite (proj2 (Z.eqb_neq _ _) H). Qed.

(** Continuing in the middle of a loop is seen as if it had started there. *)
Lemma observe_resume_header ps b b1 r s h i l :
  storage b = storage b1 -> last b = last b1 -> view_end b = view_end b1 ->
  (forall c l', r = LoopReturn c l' -> c = InvalidHeader) ->
  observe (loop_result ps b r) = observe (loop_result (mkParser s l h i) b1 r).
Proof.
  destruct b as [st ps0 la ve], b1 as [st1 ps1 la1 ve1]. cbn. intros -> -> -> Hret.
  destruct r as [s1 p1 h1 i1 l1|p1 h1 i1 l1|p1 l1|c l1]; cbn.
  - do 2 f_equal; lia.
  - do 2 f_equal; lia.
  - do 2 f_equal; lia.
  - by rewrite (Hret c l1 eq_refl).
Qed.

Definition relast (n : Z) (r : ParseCode * HeaderLineParser * option Buffer) :=
  let '(c, ps, b) := r in (c, ps, with_last n <$> b).

Lemma observe_relast_header n r : observe (relast n r) = observe r.
Proof. by destruct r as [[[] ?] [?|]]. Qed.

Lemma execute_two_header ps b mid :
  buffer_ok b -> pos b <= mid <= last b ->
  match execute ps (Some (with_last mid b)) with
  | (Again, ps1, Some b1) =>
      buffer_ok (with_last (last b) b1) /\ pos b1 = mid /\
      observe (execute ps (Some b)) = observe (execute ps1 (Some (with_last (last b) b1)))
  | r => execute ps (Some b) = relast (last b) r
  end.
Proof.
  intros (Hpos & Hview & Hstore) Hmid.
  destruct (decide (mid = pos b)) as [->|Hne].
  { rewrite execute_empty_header by (unfold readable; cbn; lia).
    split; [unfold buffer_ok; cbn; lia|]. split; [done|]. by destruct b. }
  rewrite execute_nonempty_header by (unfold readable; cbn; lia).
  rewrite (execute_nonempty_header ps b) by (unfold readable; lia).
  rewrite (readable_bytes_split b mid) by lia. rewrite exec_loop_app_header.
  change (pos (with_last mid b)) with (pos b).
  destruct (exec_loop (readable_bytes (with_last mid b)) _ _ _ _ _)
    as [s1 p1 h1 i1 l1|p1 h1 i1 l1|p1 l1|c l1] eqn:Hloop; cbn [loop_result].
  - apply exec_loop_end_pos_header in Hloop. unfold readable_bytes in Hloop.
    rewrite length_bytes_between in Hloop by (cbn; lia). cbn in Hloop. assert (p1 = mid) as -> by lia.
    set (b1 := consume (mid - pos (with_last mid b)) (with_last mid b)).
    assert (pos b1 = mid) as Hp1 by (unfold b1; cbn; lia).
    split; [unfold buffer_ok, b1; cbn; lia|]. split; [done|].
    set (b2 := with_last (last b) b1).
    destruct (decide (mid = last b)) as [Heq|Hlt].
    { rewrite (bytes_between_nil b mid) by lia. cbn [exec_loop].
      rewrite execute_empty_header by (unfold readable, b2; cbn [last pos with_last]; lia).
      cbn [loop_result observe fmap option_fmap option_map]. unfold b2. cbn [pos with_last consume].
      reflexivity. }
    rewrite (execute_nonempty_header _ b2) by (unfold readable, b2; cbn [last pos with_last]; lia).
    cbn [state_ header_hash lowcase_index line_].
    replace (pos b2) with mid by (unfold b2; cbn; lia).
    replace (readable_bytes b2) with (bytes_between b mid (last b))
      by (unfold readable_bytes, b2; cbn [pos with_last last]; by rewrite Hp1).
    apply observe_resume_header; [done..|]. intros c l'. apply exec_loop_error_header.
  - by destruct b.
  - by destruct b.
  - apply exec_loop_error_header in Hloop as ->. by destruct b.
Qed.

Lemma feed_with_last_header n ps b e more : feed ps (with_last n b) e more = feed ps b e more.
Proof. by destruct more. Qed.

(** The header-line parser is insensitive to how the bytes arrive: any
    number of pieces yields the same code, pointers, lower-cased name, hash and
    consumed position as one call on the whole buffer. *)
Theorem execute_any_split_header (ps : HeaderLineParser) (b : Buffer) (e : Z) (more : list Z) :
  buffer_ok b -> arrivals (pos b) e more (last b) ->
  observe (feed ps b e more) = observe (execute ps (Some b)).
Proof.
  revert ps b e. induction more as [|e' more IH]; intros ps b e Hok Harr; cbn [feed].
  - destruct Harr as [_ ->]. rewrite with_last_id. by destruct (execute ps (Some b)) as [[[] ?] [?|]].
  - pose proof (arrivals_le _ _ _ _ Harr) as Hle.
    pose proof (execute_two_header ps b e Hok Hle) as Htwo. destruct Harr as [_ Hrest].
    destruct (execute ps (Some (with_last e b))) as [[c ps'] [b'|]].
    + destruct c; try (by rewrite Htwo, observe_relast_header).
      destruct Htwo as (Hok' & Hpos & ->).
      rewrite <-(IH ps' (with_last (last b) b') e'); [|done|cbn; by rewrite Hpos].
      by rewrite feed_with_last_header.
    + by destruct c; rewrite Htwo, observe_relast_header.
Qed.

Lemma execute_any_split_header_witness :
  let m := bytes_of_string "Host: a" ++ [CR; LF] in
  let b := mkBuffer m 0 9 9 in
  observe (feed (mkParser Start initial_line 0 0) b 3 [6; 8; 9]) =
  observe (execute (mkParser Start initial_line 0 0) (Some b)) /\
  (execute (mkParser Start initial_line 0 0) (Some b)).1.1 = Ok.
Proof.
  intros m b. split; [|vm_compute; reflexivity].
  apply execute_any_split_header.
  - unfold buffer_ok, b, m. cbn. lia.
  - cbn. lia.
Defined.

(** ** Printing a header line and parsing it back *)

(** The bytes a header name may have, and what the parser keeps of them. *)
Definition name_byte (ch : Z) : Z := if lowcase ch =? 0 then ch else lowcase ch.
Definition name_char (ch : Z) : bool := negb (lowcase ch =? 0) || (ch =? chr "_").
Definition value_char (ch : Z) : bool := negb ((ch =? CR) || (ch =? LF) || (ch =? 0)).

Fixpoint store_name (i : Z) (name : list Z) (l : HeaderLineState) : HeaderLineState :=
  match name with
  | [] => l
  | ch :: name' => store_name ((i + 1) mod 32) name' (store_lowcase i (name_byte ch) l)
  end.

Definition name_hash (h : Z) (name : list Z) : Z :=
  foldl (fun h ch => hash_step h (name_byte ch)) h name.

Lemma land_31 i : 0 <= i < 32 -> Z.land (u32 (i + 1)) (kLowcaseHeaderLen - 1) = (i + 1) mod 32.
Proof.
  intros Hi. rewrite wrap_small by (unfold in_width; lia).
  change (kLowcaseHeaderLen - 1) with (Z.ones 5). rewrite Z.land_ones by lia. done.
Qed.

Lemma step_Name_char ch p h i l :
  name_char ch = true -> 0 <= i < 32 ->
  step Name ch p h i l =
  Next Name (hash_step h (name_byte ch)) ((i + 1) mod 32) (store_lowcase i (name_byte ch) l).
Proof.
  intros Hc Hi. unfold step, step_Name, name_byte, name_char in *. rewrite land_31 by done.
  destruct (lowcase ch =? 0); cbn in *; [|done]. by rewrite Hc.
Qed.

Lemma exec_name name rest p h i l :
  forallb name_char name = true -> 0 <= i < 32 ->
  exec_loop (name ++ rest) p Name h i l =
  exec_loop rest (p + Z.of_nat (length name)) Name (name_hash h name) ((i + Z.of_nat (length name)) mod 32)
    (store_name i name l).
Proof.
  revert p h i l. induction name as [|ch name IH]; intros p h i l Hall Hi.
  - cbn. rewrite !Z.add_0_r, (Z.mod_small i) by lia. done.
  - cbn [forallb] in Hall. apply andb_prop in Hall as [Hc Hall].
    cbn [app exec_loop]. rewrite step_Name_char by done.
    rewrite IH by (done || apply Z.mod_pos_bound; lia). cbn [length name_hash foldl store_name].
    rewrite Z.add_mod_idemp_l by lia. f_equal; [lia|f_equal; lia].
Qed.

Lemma store_name_fields i name l :
  exists lh, store_name i name l = set_lowcase_header lh l /\ length lh = length (lowcase_header l).
Proof.
  revert i l. induction name as [|ch name IH]; intros i l; cbn [store_name].
  - exists (lowcase_header l). by destruct l.
  - destruct (IH ((i + 1) mod 32) (store_lowcase i (name_byte ch) l)) as (lh & -> & Hl).
    exists lh. destruct l. cbn in *. split; [done|]. by rewrite Hl, length_insert.
Qed.

(** The first [32 - i] bytes of a name are stored from index [i] on. *)
Lemma store_name_take i name l :
  length (lowcase_header l) = 32%nat -> 0 <= i -> i + Z.of_nat (length name) <= 32 ->
  take (Z.to_nat i + length name) (lowcase_header (store_name i name l)) =
  take (Z.to_nat i) (lowcase_header l) ++ map name_byte name.
Proof.
  revert i l. induction name as [|ch name IH]; intros i l Hlen Hi Hn; cbn [store_name length map] in *.
  { by rewrite Nat.add_0_r, app_nil_r. }
  assert (lowcase_header (store_lowcase i (name_byte ch) l) =
          <[Z.to_nat i := name_byte ch]> (lowcase_header l)) as Hst by (by destruct l).
  destruct name as [|ch' name'].
  { cbn [store_name length map]. rewrite Hst, Nat.add_1_r.
    rewrite (take_S_r _ _ (name_byte ch)) by (rewrite list_lookup_insert_eq; [done|lia]).
    by rewrite take_insert_ge by lia. }
  cbn [length] in Hn. rewrite Z.mod_small by lia.
  replace (Z.to_nat i + S (length (ch' :: name')))%nat with (Z.to_nat (i + 1) + length (ch' :: name'))%nat by lia.
  rewrite IH; [|by rewrite Hst, length_insert|lia|cbn [length]; lia]. rewrite Hst.
  replace (Z.to_nat (i + 1)) with (S (Z.to_nat i)) by lia.
  rewrite (take_S_r _ _ (name_byte ch)) by (rewrite list_lookup_insert_eq; [done|lia]).
  rewrite take_insert_ge by lia. by rewrite <-app_assoc.
Qed.

Lemma exec_spaces n rest p s h i l :
  s = SpaceBeforeValue \/ s = SpaceAfterValue ->
  exec_loop (replicate n SP ++ rest) p s h i l = exec_loop rest (p + Z.of_nat n) s h i l.
Proof.
  intros Hs. revert p. induction n as [|n IH]; intros p; [by rewrite Z.add_0_r|].
  cbn [replicate app exec_loop]. destruct Hs as [-> | ->]; cbn [step]; [unfold step_SpaceBeforeValue|
    unfold step_SpaceAfterValue]; cbn [Z.eqb SP Pos.eqb]; rewrite IH; f_equal; lia.
Qed.

(** Inside a value, up to a byte that is not a space. *)
Lemma exec_value v last_ rest p s h i l :
  s = Value \/ s = SpaceAfterValue ->
  forallb value_char (v ++ [last_]) = true -> last_ <> SP ->
  exists he, exec_loop ((v ++ [last_]) ++ rest) p s h i l =
             exec_loop rest (p + Z.of_nat (length v) + 1) Value h i (set_header_end he l).
Proof.
  revert p s l. induction v as [|ch v IH]; intros p s l Hs Hall Hlast.
  - cbn [app forallb] in *. rewrite andb_true_r in Hall. apply negb_true_iff in Hall.
    apply orb_false_iff in Hall as [Hall H0]. apply orb_false_iff in Hall as [Hcr Hlf].
    exists (header_end l). cbn [exec_loop length]. rewrite Z.add_0_r.
    apply Z.eqb_neq in Hlast.
    destruct Hs as [-> | ->]; cbn [step]; unfold step_Value, step_SpaceAfterValue;
      rewrite Hlast, Hcr, Hlf, H0; by destruct l.
  - cbn [app forallb] in Hall. apply andb_prop in Hall as [Hc Hall]. apply negb_true_iff in Hc.
    apply orb_false_iff in Hc as [Hc H0]. apply orb_false_iff in Hc as [Hcr Hlf].
    cbn [app exec_loop length].
    destruct Hs as [-> | ->]; cbn [step]; unfold step_Value, step_SpaceAfterValue; rewrite ?Hcr, ?Hlf, ?H0;
      destruct (ch =? SP) eqn:Hsp.
    all: match goal with |- context [exec_loop _ _ ?s' _ _ ?l'] =>
           destruct (IH (p + 1) s' l') as (he & Hhe); [auto|done|done|]; rewrite Hhe end.
    all: exists he; replace (p + 1 + Z.of_nat (length v)) with (p + Z.of_nat (S (length v))) by lia;
      by destruct l.
Qed.

(** A header line: name, colon, spaces, value, spaces, line end. *)
Definition print_header (name : list Z) (pad : nat) (value : list Z) (trail : nat) : list Z :=
  name ++ [chr ":"] ++ replicate pad SP ++ value ++ replicate trail SP ++ [CR; LF].

Definition value_ok (value : list Z) : Prop :=
  value = [] \/
  exists v c, value = v ++ [c] /\ c <> SP /\ head value <> Some SP /\ forallb value_char value = true.

(** [pad] spaces, the value and [trail] spaces from [SpaceBeforeValue]. *)
Lemma exec_value_line pad value trail p h i l :
  value_ok value -> (value = [] -> trail = 0%nat) ->
  exec_loop (replicate pad SP ++ value ++ replicate trail SP ++ [CR; LF]) p SpaceBeforeValue h i l =
  LoopDone (p + Z.of_nat pad + Z.of_nat (length value) + Z.of_nat trail + 1) h i
    (set_header_end (Some (p + Z.of_nat pad + Z.of_nat (length value)))
       (set_header_start (Some (p + Z.of_nat pad)) l)).
Proof.
  intros Hv Htrail. rewrite exec_spaces by auto. set (q := p + Z.of_nat pad).
  destruct Hv as [->|(v & c & -> & Hc & Hhead & Hall)].
  { rewrite Htrail by done. cbn. f_equal; [lia|]. f_equal. f_equal. lia. }
  clear Htrail.
  assert (exists he, exec_loop ((v ++ [c]) ++ replicate trail SP ++ [CR; LF]) q SpaceBeforeValue h i l =
          exec_loop (replicate trail SP ++ [CR; LF]) (q + Z.of_nat (length v) + 1) Value h i
            (set_header_end he (set_header_start (Some q) l))) as (he & ->).
  { destruct v as [|c0 v]; cbn [app exec_loop length head forallb] in *;
      apply andb_prop in Hall as [Hc0 Hall]; apply negb_true_iff in Hc0;
      apply orb_false_iff in Hc0 as [Hc0 H0]; apply orb_false_iff in Hc0 as [Hcr Hlf];
      cbn [step]; unfold step_SpaceBeforeValue; rewrite Hcr, Hlf, H0.
    - apply Z.eqb_neq in Hc. rewrite Hc. exists (header_end l). rewrite Z.add_0_r. by destruct l.
    - assert ((c0 =? SP) = false) as -> by (apply Z.eqb_neq; congruence).
      destruct (exec_value v c (replicate trail SP ++ [CR; LF]) (q + 1) Value h i
                  (set_header_start (Some q) l)) as (he & ->); [auto|done|done|].
      exists he. f_equal. lia. }
  rewrite length_app. cbn [length].
  destruct trail as [|n].
  - cbn. destruct l. cbn. f_equal; [lia|]. f_equal. f_equal. lia.
  - cbn [replicate app exec_loop step]. unfold step_Value. cbn [Z.eqb SP Pos.eqb].
    rewrite exec_spaces by auto. cbn. destruct l. cbn. f_equal; [lia|]. f_equal. f_equal. lia.
Qed.

Lemma step_Name_colon p h i l :
  step Name (chr ":") p h i l = Next SpaceBeforeValue h i (set_header_name_end (Some p) l).
Proof. reflexivity. Qed.

(** The whole line from the start state. *)
Lemma exec_header_line name value p h i pad trail l :
  name <> [] -> forallb name_char name = true -> value_ok value -> (value = [] -> trail = 0%nat) ->
  let n := Z.of_nat (length name) in
  let l0 := set_invalid_header false (set_header_end None (set_header_start None
              (set_header_name_end None (set_header_name_start (Some p) l)))) in
  exec_loop (print_header name pad value trail) p Start h i l =
  LoopDone (p + n + 1 + Z.of_nat pad + Z.of_nat (length value) + Z.of_nat trail + 1)
    (name_hash 0 name) (n mod 32)
    (set_header_end (Some (p + n + 1 + Z.of_nat pad + Z.of_nat (length value)))
      (set_header_start (Some (p + n + 1 + Z.of_nat pad))
        (set_header_name_end (Some (p + n)) (store_name 0 name l0)))).
Proof.
  intros Hne Hname Hval Htrail n l0. unfold print_header.
  destruct name as [|ch name]; [done|]. cbn [forallb] in Hname. apply andb_prop in Hname as [Hc Hname].
  assert (exec_loop ((ch :: name) ++ [chr ":"] ++ replicate pad SP ++ value ++ replicate trail SP ++ [CR; LF])
            p Start h i l =
          exec_loop (name ++ [chr ":"] ++ replicate pad SP ++ value ++ replicate trail SP ++ [CR; LF])
            (p + 1) Name (hash_step 0 (name_byte ch)) 1 (store_lowcase 0 (name_byte ch) l0)) as ->.
  { cbn [app exec_loop step]. unfold step_Start. fold l0. unfold name_char, name_byte in *.
    destruct (ch =? CR) eqn:E1; [apply Z.eqb_eq in E1 as ->; done|].
    destruct (ch =? LF) eqn:E2; [apply Z.eqb_eq in E2 as ->; done|].
    destruct (lowcase ch =? 0); cbn in *; [by rewrite Hc|done]. }
  rewrite exec_name by (done || lia). cbn [app exec_loop]. rewrite step_Name_colon.
  rewrite exec_value_line by done. cbn [store_name name_hash foldl].
  change ((0 + 1) mod 32) with 1. subst n. cbn [length]. f_equal; [lia|f_equal; lia|].
  f_equal; [f_equal; lia|]. f_equal; [f_equal; lia|]. f_equal. f_equal. lia.
Qed.

(** Printing a header line and parsing it gives the line back: the name and
    value pointers delimit exactly the printed name and value (the padding on
    both sides of the value is dropped), the hash is the base-31 hash of the
    lower-cased name, and the lower-cased bytes themselves are in
    [lowcase_header] when the name fits in it. *)
Theorem execute_prints_back_header (ps : HeaderLineParser) (b : Buffer) (name value rest : list Z)
    (pad trail : nat) :
  state_ ps = Start -> length (lowcase_header (line_ ps)) = 32%nat ->
  0 <= pos b -> name <> [] -> forallb name_char name = true -> value_ok value ->
  (value = [] -> trail = 0%nat) ->
  readable_bytes b = print_header name pad value trail ++ rest ->
  exists ps' b', execute ps (Some b) = (Ok, ps', Some b') /\
    let l := line_ ps' in
    let ns := pos b in let ne := ns + Z.of_nat (length name) in
    let hs := ne + 1 + Z.of_nat pad in let he := hs + Z.of_nat (length value) in
    state_ ps' = Start /\
    header_name_start l = Some ns /\ header_name_end l = Some ne /\ bytes_between b ns ne = name /\
    header_start l = Some hs /\ header_end l = Some he /\ bytes_between b hs he = value /\
    invalid_header l = false /\
    header_hash ps' = name_hash 0 name /\
    lowcase_index ps' = Z.of_nat (length name) mod 32 /\
    ((length name <= 32)%nat -> take (length name) (lowcase_header l) = map name_byte name) /\
    readable_bytes b' = rest.
Proof.
  intros Hst Hlow Hpos Hne Hname Hval Htrail Hread.
  destruct name as [|ch name]; [done|]. clear Hne.
  set (l0 := set_invalid_header false (set_header_end None (set_header_start None
               (set_header_name_end None (set_header_name_start (Some (pos b)) (line_ ps)))))).
  assert (length (lowcase_header l0) = 32%nat) as Hlow0 by (unfold l0; by destruct (line_ ps)).
  destruct (store_name_fields 0 (ch :: name) l0) as (lh & Hlh & _).
  pose proof (store_name_take 0 (ch :: name) l0 Hlow0 ltac:(lia)) as Htake.
  set (n := length (ch :: name)) in *.
  pose proof (exec_header_line (ch :: name) value (pos b) (header_hash ps) (lowcase_index ps) pad trail (line_ ps)
                ltac:(done) Hname Hval Htrail) as Hloop. cbv zeta in Hloop. fold l0 n in Hloop.
  rewrite execute_nonempty_header.
  2:{ intros Hz. unfold readable_bytes in Hread. rewrite bytes_between_nil in Hread by (unfold readable in Hz; lia).
      unfold print_header in Hread. by destruct name. }
  rewrite Hread, exec_loop_app_header, Hst, Hloop. rewrite Hlh in *.
  do 2 eexists. split; [reflexivity|]. cbv zeta.
  assert (forall x v y, readable_bytes b = x ++ v ++ y ->
            bytes_between b (pos b + Z.of_nat (length x)) (pos b + Z.of_nat (length x) + Z.of_nat (length v)) = v)
    as Hmid by (intros x v y; by apply readable_middle).
  unfold print_header in Hread. rewrite <-!app_assoc in Hread.
  split; [done|]. unfold l0 in *. destruct (line_ ps). cbn [line_ state_ header_hash lowcase_index] in *.
  split; [done|]. split; [done|].
  split; [specialize (Hmid [] (ch :: name) _ Hread); cbn [length] in Hmid; by rewrite Z.add_0_r in Hmid|].
  split; [done|]. split; [done|]. split.
  { specialize (Hmid ((ch :: name) ++ [chr ":"] ++ replicate pad SP) value (replicate trail SP ++ [CR; LF] ++ rest)).
    rewrite !length_app, length_replicate in Hmid. fold n in Hmid. cbn [length] in Hmid.
    rewrite <-!app_assoc in Hmid. specialize (Hmid Hread).
    replace (pos b + Z.of_nat n + 1 + Z.of_nat pad) with (pos b + Z.of_nat (n + (1 + pad))) by lia. done. }
  split; [done|]. split; [done|]. split; [done|]. split.
  { intros Hle. specialize (Htake ltac:(lia)). exact Htake. }
  apply (readable_suffix b (print_header (ch :: name) pad value trail)); [done| |].
  - unfold print_header. by rewrite <-!app_assoc.
  - unfold print_header. rewrite !length_app, !length_replicate. unfold n; cbn [length]. lia.
Qed.

Lemma execute_prints_back_header_witness :
  let m := print_header (bytes_of_string "X-Trace_Id") 2 (bytes_of_string "a b") 1 in
  let b := mkBuffer m 0 19 19 in
  exists ps' b', execute (mkParser Start initial_line 0 0) (Some b) = (Ok, ps', Some b') /\
    header_start (line_ ps') = Some 13 /\ header_end (line_ ps') = Some 16 /\
    take 10 (lowcase_header (line_ ps')) = bytes_of_string "x-trace_id".
Proof.
  intros m b.
  destruct (execute_prints_back_header (mkParser Start initial_line 0 0) b (bytes_of_string "X-Trace_Id")
              (bytes_of_string "a b") [] 2 1) as (ps' & b' & Hex & _ & _ & _ & _ & Hs & He & _ & _ & _ & _ & Ht & _).
  - reflexivity.
  - reflexivity.
  - cbn. lia.
  - discriminate.
  - reflexivity.
  - right. exists (bytes_of_string "a "), (chr "b"). split; [reflexivity|]. split; [discriminate|].
    split; [discriminate|reflexivity].
  - discriminate.
  - reflexivity.
  - exists ps', b'. split; [exact Hex|]. split; [exact Hs|]. split; [exact He|].
    apply Ht. cbn. lia.
Defined.

(** ** Bounds *)

(** What holds between bytes: [i] indexes [lowcase_header], and the pointers
    written so far are in order and not past the current byte [p]. *)
Definition stage (s : State) : Z :=
  match s with
  | Start | IgnoreLine => 0 | Name => 1 | SpaceBeforeValue => 2 | Value => 3 | SpaceAfterValue => 4
  | AlmostDone => 4 | HeaderAlmostDone => 0
  end.

Definition between (lo hi : Z) (o : option Z) : Prop :=
  match o with Some x => lo <= x <= hi | None => False end.
Definition ptr (o : option Z) : Z := default 0 o.

Record header_inv (lo : Z) (s : State) (p i : Z) (l : HeaderLineState) : Prop := mkHeaderInv {
  hinv_lo : 0 <= lo <= p;
  hinv_table : length (lowcase_header l) = 32%nat;
  hinv_index : 0 <= i < 32;
  hinv_name : 1 <= stage s -> between lo (p - 1) (header_name_start l);
  hinv_name_end : 2 <= stage s -> between (ptr (header_name_start l) + 1) (p - 1) (header_name_end l);
  hinv_value : 3 <= stage s -> between (ptr (header_name_end l)) (p - 1) (header_start l);
  hinv_value_end : 4 <= stage s -> between (ptr (header_start l)) (p - 1) (header_end l) }.

(** The pointers of an accepted line. *)
Definition header_spans (lo hi : Z) (l : HeaderLineState) : Prop :=
  exists ns ne hs he,
    header_name_start l = Some ns /\ header_name_end l = Some ne /\
    header_start l = Some hs /\ header_end l = Some he /\
    lo <= ns < ne /\ ne <= hs <= he /\ he < hi.

Definition header_step_ok (lo p : Z) (o : Outcome) : Prop :=
  match o with
  | Next s' _ i' l' => header_inv lo s' (p + 1) i' l'
  | JumpDone _ i' l' => header_inv lo AlmostDone (p + 1) i' l'
  | JumpHeaderDone l' => length (lowcase_header l') = 32%nat
  | Return _ _ => True
  end.

Lemma step_header_inv lo s ch p h i l :
  header_inv lo s p i l -> header_step_ok lo p (step s ch p h i l).
Proof.
  intros [H1 H2 H3 H4 H5 H6 H7]. destruct l as [lh ns ne hs he iv]. cbn -[stage] in *.
  unfold header_step_ok.
  destruct s; cbn [step]; unfold step_Start, step_Name, step_SpaceBeforeValue, step_Value, step_SpaceAfterValue,
    step_IgnoreLine, step_AlmostDone, step_HeaderAlmostDone, store_lowcase; rewrite ?land_31 by done;
    cbn in H4, H5, H6, H7 |- *; split_ifs; try exact I; try done.
  all: try (specialize (H4 ltac:(lia)); destruct ns; cbn in H4; [|done]).
  all: try (specialize (H5 ltac:(lia)); destruct ne; cbn in H5; [|done]).
  all: try (specialize (H6 ltac:(lia)); destruct hs; cbn in H6; [|done]).
  all: try (specialize (H7 ltac:(lia)); destruct he; cbn in H7; [|done]).
  all: split; cbn; rewrite ?length_insert; try done; try lia.
  all: apply Z.mod_pos_bound; lia.
Qed.

Lemma exec_loop_header_inv lo bs p s h i l :
  header_inv lo s p i l ->
  match exec_loop bs p s h i l with
  | LoopEnd s' p' _ i' l' => p' = p + Z.of_nat (length bs) /\ header_inv lo s' p' i' l'
  | LoopDone p' _ i' l' => p <= p' < p + Z.of_nat (length bs) /\ header_inv lo AlmostDone (p' + 1) i' l'
  | LoopHeaderDone p' l' => p <= p' < p + Z.of_nat (length bs) /\ length (lowcase_header l') = 32%nat
  | LoopReturn _ _ => True
  end.
Proof.
  revert p s h i l. induction bs as [|ch bs IH]; intros p s h i l Hinv; cbn [exec_loop length].
  - split; [lia|done].
  - pose proof (step_header_inv lo s ch p h i l Hinv) as Hstep. unfold header_step_ok in Hstep.
    destruct (step s ch p h i l) as [s' h' i' l'|h' i' l'|l'|c l']; [|by split; [lia|]|by split; [lia|]|done].
    specialize (IH (p + 1) s' h' i' l' Hstep).
    destruct (exec_loop bs (p + 1) s' h' i' l'); [|..|done]; destruct IH as [IHp IHi]; (split; [lia|done]).
Qed.

Lemma header_inv_spans lo p i l : header_inv lo AlmostDone (p + 1) i l -> header_spans lo (p + 1) l.
Proof.
  intros [H1 H2 H3 H4 H5 H6 H7]. cbn in H4, H5, H6, H7.
  specialize (H4 ltac:(lia)). specialize (H5 ltac:(lia)). specialize (H6 ltac:(lia)). specialize (H7 ltac:(lia)).
  unfold header_spans. destruct (header_name_start l), (header_name_end l), (header_start l), (header_end l);
    cbn in *; try done. do 4 eexists. repeat split; lia.
Qed.

(** Memory safety of the header line: from a fresh parser, over any number
    of calls, the index into [lowcase_header] stays below its 32 bytes and the
    position only advances within the received bytes; when a header is
    accepted, name and value are inside the consumed bytes, the name is not
    empty and precedes the value, and the parser is ready for the next line. *)
Theorem execute_header_in_bounds (ps ps' : HeaderLineParser) (b b' : Buffer) (lo : Z) (c : ParseCode) :
  buffer_ok b -> header_inv lo (state_ ps) (pos b) (lowcase_index ps) (line_ ps) ->
  execute ps (Some b) = (c, ps', Some b') ->
  pos b <= pos b' <= last b /\
  (c = Again -> header_inv lo (state_ ps') (pos b') (lowcase_index ps') (line_ ps')) /\
  (c = Ok -> header_spans lo (pos b') (line_ ps') /\
             header_inv (pos b') (state_ ps') (pos b') (lowcase_index ps') (line_ ps')).
Proof.
  intros (Hpos & Hview & Hstore) Hinv Hex.
  destruct (decide (readable b = 0)) as [Hz|Hnz].
  { rewrite execute_empty_header in Hex by done. injection Hex as <- <- <-. split; [lia|]. done. }
  rewrite execute_nonempty_header in Hex by done.
  pose proof (exec_loop_header_inv lo (readable_bytes b) (pos b) _ (header_hash ps) _ _ Hinv) as Hl.
  assert (Z.of_nat (length (readable_bytes b)) = last b - pos b) as Hlen
    by (apply length_bytes_between; lia).
  rewrite Hlen in Hl.
  destruct (exec_loop _ _ _ _ _ _) as [s1 p1 h1 i1 l1|p1 h1 i1 l1|p1 l1|c1 l1] eqn:E;
    injection Hex as <- <- <-; cbn -[stage].
  - destruct Hl as [-> Hl]. split; [lia|]. split; [|done].
    intros _. by replace (pos b + _) with (pos b + (last b - pos b)) by lia.
  - destruct Hl as (Hp & Hl). split; [lia|]. split; [done|]. intros _.
    replace (pos b + (p1 + 1 - pos b)) with (p1 + 1) by lia.
    split; [by eapply header_inv_spans|]. destruct Hl. split; cbn; try done; lia.
  - split; [lia|done].
  - apply exec_loop_error_header in E as ->. split; [lia|done].
Qed.

Lemma execute_header_in_bounds_witness :
  let m := bytes_of_string "Host: a" ++ [CR; LF] in
  let b := mkBuffer m 0 9 9 in
  exists ps' b', execute (mkParser Start initial_line 0 0) (Some b) = (Ok, ps', Some b') /\
    header_spans 0 9 (line_ ps').
Proof.
  intros m b.
  destruct (execute (mkParser Start initial_line 0 0) (Some b)) as [[c ps'] o] eqn:Hex.
  pose proof Hex as Hrun. vm_compute in Hrun. injection Hrun as Hc Hps Ho. subst c o.
  eexists ps', _. split; [reflexivity|].
  eapply (execute_header_in_bounds (mkParser Start initial_line 0 0) ps' b _ 0 Ok) in Hex.
  - by apply Hex.
  - unfold buffer_ok, b, m. cbn. lia.
  - split; cbn; try lia; try reflexivity.
Defined.

End HeaderLine.
