(* ===== verification/Http1Chunked.v ===== *)
(** * The chunked-body and body parsers
    ([ChunkedBodyParser] and [BodyParser] of [src/http/Http1Parser.cpp])

    The chunked parser reads the framing of a chunked body: it stops in front of
    the data of each chunk ([Ok], the caller takes [size()] bytes and reports
    them with [consume]) and behind the line of the last chunk ([BodyDone]). *)
From S2P Require Import Prelude Http1Detail.

Module Chunked.

(** ** Data *)

Inductive State :=
  | ChunkStart | ChunkSize | ChunkExtension | ChunkExtensionAlmostDone | ChunkData | AfterData
  | AfterDataAlmostDone | LastChunkExtension | LastChunkExtensionAlmostDone
  | Trailer | TrailerAlmostDone | TrailerHeader | TrailerHeaderAlmostDone.

#[export] Instance State_eq_dec : EqDecision State.
Proof. solve_decision. Defined.

Record ChunkedBodyParser := mkChunked { state_ : State; size_ : Z; length_ : Z }.

Definition reset : ChunkedBodyParser := mkChunked ChunkStart 0 0.

Definition consume (n : Z) (ps : ChunkedBodyParser) : ChunkedBodyParser :=
  if size_ ps <=? n then mkChunked (state_ ps) 0 (length_ ps)
  else mkChunked (state_ ps) (size_ ps - n) (length_ ps).

(** ** The state machine

    [GotoData state rc size eaten]: [goto data], the byte being consumed
    ([++pos]) or not; [Invalid size]: [goto invalid] with what [size_] is then. *)
Inductive Outcome :=
  | Next (state : State) (size : Z)
  | GotoData (state : State) (rc : ParseCode) (size : Z) (eaten : bool)
  | Invalid (size : Z).

Definition append_hex_digit (size digit : Z) : option Z :=
  if (size_max - digit) / 16 <? size then None else Some (u64 (size * 16 + digit)).

(** The value of a hexadecimal digit, as the two tests of the source read it. *)
Definition hex_digit (ch : Z) : option Z :=
  if (chr "0" <=? ch) && (ch <=? chr "9") then Some (ch - chr "0")
  else let c := u8 (Z.lor ch 0x20) in
       if (chr "a" <=? c) && (c <=? chr "f") then Some (c - chr "a" + 10) else None.

Definition is_ext (ch : Z) : bool := (ch =? chr ";") || (ch =? SP) || (ch =? HTAB).

Definition step_ChunkStart (ch size : Z) : Outcome :=
  match hex_digit ch with
  | Some d => Next ChunkSize d
  | None => Invalid size
  end.

Definition step_ChunkSize (ch size : Z) : Outcome :=
  match hex_digit ch with
  | Some d =>
      match append_hex_digit size d with
      | Some size' => Next ChunkSize size'
      | None => Invalid size
      end
  | None =>
      if size =? 0 then
        if ch =? CR then Next LastChunkExtensionAlmostDone size
        else if ch =? LF then GotoData Trailer BodyDone size true
        else if is_ext ch then Next LastChunkExtension size
        else Invalid size
      else
        if ch =? CR then Next ChunkExtensionAlmostDone size
        else if ch =? LF then Next ChunkData size
        else if is_ext ch then Next ChunkExtension size
        else Invalid size
  end.

Definition step_ChunkExtension (ch size : Z) : Outcome :=
  if ch =? CR then Next ChunkExtensionAlmostDone size
  else if ch =? LF then Next ChunkData size
  else Next ChunkExtension size.

Definition step_ChunkExtensionAlmostDone (ch size : Z) : Outcome :=
  if ch =? LF then Next ChunkData size else Invalid size.

Definition step_ChunkData (size : Z) : Outcome := GotoData ChunkData Ok size false.

Definition step_AfterData (ch size : Z) : Outcome :=
  if ch =? CR then Next AfterDataAlmostDone size
  else if ch =? LF then Next ChunkStart size
  else Invalid size.

Definition step_AfterDataAlmostDone (ch size : Z) : Outcome :=
  if ch =? LF then Next ChunkStart size else Invalid size.

Definition step_LastChunkExtension (ch size : Z) : Outcome :=
  if ch =? CR then Next LastChunkExtensionAlmostDone size
  else if ch =? LF then GotoData Trailer BodyDone size true
  else Next LastChunkExtension size.

Definition step_LastChunkExtensionAlmostDone (ch size : Z) : Outcome :=
  if ch =? LF then GotoData Trailer BodyDone size true else Invalid size.

Definition step_Trailer (s : State) (size : Z) : Outcome := GotoData s BodyDone size false.

Definition step (s : State) (ch size : Z) : Outcome :=
  match s with
  | ChunkStart => step_ChunkStart ch size
  | ChunkSize => step_ChunkSize ch size
  | ChunkExtension => step_ChunkExtension ch size
  | ChunkExtensionAlmostDone => step_ChunkExtensionAlmostDone ch size
  | ChunkData => step_ChunkData size
  | AfterData => step_AfterData ch size
  | AfterDataAlmostDone => step_AfterDataAlmostDone ch size
  | LastChunkExtension => step_LastChunkExtension ch size
  | LastChunkExtensionAlmostDone => step_LastChunkExtensionAlmostDone ch size
  | Trailer | TrailerAlmostDone | TrailerHeader | TrailerHeaderAlmostDone => step_Trailer s size
  end.

(** ** [execute] *)

Inductive LoopResult :=
  | LoopData (s : State) (rc : ParseCode) (size p : Z)
  | LoopInvalid (size : Z).

(** [rc] is [Again] when the loop runs out of bytes. *)
Fixpoint exec_loop (bs : list Z) (p : Z) (s : State) (size : Z) : LoopResult :=
  match bs with
  | [] => LoopData s Again size p
  | ch :: bs' =>
      match step s ch size with
      | Next s' size' => exec_loop bs' (p + 1) s' size'
      | GotoData s' rc size' eaten => LoopData s' rc size' (if eaten then p + 1 else p)
      | Invalid size' => LoopInvalid size'
      end
  end.

(** The bytes the rest of the body has at least. *)
Definition body_length (s : State) (size : Z) : Z :=
  match s with
  | ChunkStart => 3
  | ChunkSize => u64 (1 + (if size =? 0 then 1 else u64 (size + 4)))
  | ChunkExtension | ChunkExtensionAlmostDone => u64 (1 + size + 4)
  | ChunkData => u64 (size + 4)
  | AfterData | AfterDataAlmostDone => 4
  | LastChunkExtension | LastChunkExtensionAlmostDone => 2
  | Trailer | TrailerAlmostDone | TrailerHeader | TrailerHeaderAlmostDone => 0
  end.

Definition start_state (ps : ChunkedBodyParser) : State :=
  if bool_decide (state_ ps = ChunkData) && (size_ ps =? 0) then AfterData else state_ ps.

(** The label [data]. *)
Definition at_data (ps : ChunkedBodyParser) (b : Buffer) (s : State) (rc : ParseCode) (size p : Z)
  : ParseCode * ChunkedBodyParser * option Buffer :=
  let b := Http1Detail.consume (p - pos b) b in
  if size_max - 5 <? size then (Error, mkChunked s size (length_ ps), Some b)
  else (rc, mkChunked s size (body_length s size), Some b).

(** Behind the loop: the labels [data] and [invalid]. *)
Definition run_result (ps : ChunkedBodyParser) (b : Buffer) (r : LoopResult)
  : ParseCode * ChunkedBodyParser * option Buffer :=
  match r with
  | LoopData s rc size p => at_data ps b s rc size p
  | LoopInvalid size => (Error, mkChunked (state_ ps) size (length_ ps), Some b)
  end.

Definition execute (ps : ChunkedBodyParser) (buffer : option Buffer)
  : ParseCode * ChunkedBodyParser * option Buffer :=
  match buffer with
  | None => (Error, ps, None)
  | Some b =>
      run_result ps b (exec_loop (readable_bytes b) (pos b) (start_state ps) (size_ ps))
  end.

Example demo_chunk :
  let m := bytes_of_string "1a;x=y" ++ [CR; LF] ++ bytes_of_string "abc" in
  let n := Z.of_nat (length m) in
  let '(c, ps, b) := execute reset (Some (mkBuffer m 0 n n)) in
  (c, size_ ps, length_ ps, readable_bytes <$> b) = (Ok, 26, 30, Some (bytes_of_string "abc")).
Proof. vm_compute. reflexivity. Qed.

(** ** Digits *)

Lemma append_hex_digit_spec size d :
  0 <= size < 2 ^ 64 -> 0 <= d < 16 ->
  append_hex_digit size d = if size * 16 + d <? 2 ^ 64 then Some (size * 16 + d) else None.
Proof.
  intros Hs Hd. unfold append_hex_digit, size_max.
  destruct (Z.ltb_spec ((2 ^ 64 - 1 - d) / 16) size) as [Hlt|Hge];
    destruct (Z.ltb_spec (size * 16 + d) (2 ^ 64)) as [Hf|Hf]; try done.
  - apply Z.div_lt_upper_bound in Hlt || (pose proof (Z.div_mod (2 ^ 64 - 1 - d) 16 ltac:(lia));
      pose proof (Z.mod_pos_bound (2 ^ 64 - 1 - d) 16 ltac:(lia)); lia).
  - rewrite wrap_small; [done|]. unfold in_width. lia.
  - pose proof (Z.div_mod (2 ^ 64 - 1 - d) 16 ltac:(lia)).
    pose proof (Z.mod_pos_bound (2 ^ 64 - 1 - d) 16 ltac:(lia)). lia.
Qed.

Lemma hex_digit_range ch d : hex_digit ch = Some d -> 0 <= d < 16.
Proof.
  unfold hex_digit. split_ifs; intros [= <-]; bool_to_prop; lia.
Qed.

(** The value of a string of hexadecimal digits. *)
Definition hex_value (acc : Z) (ds : list Z) : Z :=
  foldl (fun a ch => a * 16 + default 0 (hex_digit ch)) acc ds.

Definition hex_string (ds : list Z) : Prop := Forall (fun ch => hex_digit ch <> None) ds.

Lemma hex_value_ge acc ds : hex_string ds -> 0 <= acc -> acc <= hex_value acc ds.
Proof.
  intros Hds. revert acc. induction Hds as [|ch ds Hh _ IH]; intros acc Hacc; cbn; [lia|].
  destruct (hex_digit ch) as [d|] eqn:E; [|done]. apply hex_digit_range in E.
  specialize (IH (acc * 16 + d) ltac:(lia)). cbn. unfold hex_value in IH. lia.
Qed.

(** Digits are read as long as the value fits in 64 bits. *)
Lemma exec_hex_digits ds rest p size :
  hex_string ds -> 0 <= size < 2 ^ 64 ->
  (hex_value size ds < 2 ^ 64 ->
   exec_loop (ds ++ rest) p ChunkSize size =
   exec_loop rest (p + Z.of_nat (length ds)) ChunkSize (hex_value size ds)) /\
  (2 ^ 64 <= hex_value size ds -> exists z, exec_loop (ds ++ rest) p ChunkSize size = LoopInvalid z).
Proof.
  intros Hds. revert p size. induction Hds as [|ch ds Hh Hds IH]; intros p size Hs.
  - cbn. rewrite Z.add_0_r. split; [done|lia].
  - cbn [app exec_loop step length]. unfold step_ChunkSize.
    destruct (hex_digit ch) as [d|] eqn:E; [|done]. pose proof (hex_digit_range _ _ E) as Hd.
    rewrite append_hex_digit_spec by done.
    assert (hex_value size (ch :: ds) = hex_value (size * 16 + d) ds) as -> by (cbn; by rewrite E).
    destruct (Z.ltb_spec (size * 16 + d) (2 ^ 64)) as [Hlt|Hge].
    + destruct (IH (p + 1) (size * 16 + d) ltac:(lia)) as [IH1 IH2]. split; [|done].
      intros Hv. rewrite IH1 by done. f_equal. lia.
    + pose proof (hex_value_ge (size * 16 + d) ds Hds ltac:(lia)). split; [lia|]. intros _. by eexists.
Qed.

Lemma hex_value_cons ch ds d : hex_digit ch = Some d -> hex_value 0 (ch :: ds) = hex_value d ds.
Proof. intros E. cbn. by rewrite E. Qed.

(** What precedes the size line: nothing, or the line end of the last chunk. *)
Definition lead_in (s : State) (lead : list Z) : Prop :=
  (s = ChunkStart /\ lead = []) \/ (s = AfterData /\ (lead = [CR; LF] \/ lead = [LF])).

Lemma exec_lead_in s lead bs p size :
  lead_in s lead ->
  exec_loop (lead ++ bs) p s size = exec_loop bs (p + Z.of_nat (length lead)) ChunkStart size.
Proof.
  intros [[-> ->]|[-> [->| ->]]]; cbn.
  - by rewrite Z.add_0_r.
  - f_equal. lia.
  - done.
Qed.

Lemma exec_size_line ds rest p size :
  hex_string ds -> ds <> [] ->
  let v := hex_value 0 ds in
  let q := p + Z.of_nat (length ds) + 2 in
  (2 ^ 64 <= v /\ exists z, exec_loop (ds ++ [CR; LF] ++ rest) p ChunkStart size = LoopInvalid z) \/
  (v < 2 ^ 64 /\ exec_loop (ds ++ [CR; LF] ++ rest) p ChunkStart size =
   if v =? 0 then LoopData Trailer BodyDone 0 q
   else match rest with [] => LoopData ChunkData Again v q | _ => LoopData ChunkData Ok v q end).
Proof.
  intros Hds Hne v q. destruct Hds as [|ch ds Hh Hds]; [done|]. clear Hne.
  cbn [app exec_loop step]. unfold step_ChunkStart.
  destruct (hex_digit ch) as [d|] eqn:E; [|done]. pose proof (hex_digit_range _ _ E) as Hd.
  subst v. rewrite (hex_value_cons _ _ _ E).
  destruct (exec_hex_digits ds (CR :: LF :: rest) (p + 1) d Hds ltac:(lia)) as [H1 H2].
  pose proof (hex_value_ge d ds Hds ltac:(lia)) as Hge.
  destruct (Z.lt_ge_cases (hex_value d ds) (2 ^ 64)) as [Hlt|Hbig]; [right|left; auto].
  split; [done|]. rewrite H1 by done.
  replace (p + 1 + Z.of_nat (length ds)) with (p + Z.of_nat (length (ch :: ds))) by (cbn [length]; lia).
  subst q. set (n := p + Z.of_nat (length (ch :: ds))).
  replace (n + 2) with (n + 1 + 1) by lia.
  destruct (Z.eqb_spec (hex_value d ds) 0) as [Hz|Hnz].
  - rewrite Hz. done.
  - apply Z.eqb_neq in Hnz. cbn [exec_loop step]. unfold step_ChunkSize. cbn -[Z.add Z.eqb hex_value n].
    rewrite Hnz. cbn -[Z.add Z.eqb hex_value n]. by destruct rest.
Qed.

(** The size line of a chunk, exactly: for any string of hexadecimal digits
    of value [v] followed by a line end, a chunk of [v] bytes is announced when
    [0 < v <= 2^64 - 6] (the position is then the first data byte and
    [length() = v + 4]); [v = 0] ends the body; any larger value, whether it
    overflows 64 bits or only the length computation, is an error. *)
Theorem execute_chunk_size (ps : ChunkedBodyParser) (b : Buffer) (lead ds rest : list Z) :
  0 <= pos b -> lead_in (start_state ps) lead -> hex_string ds -> ds <> [] ->
  readable_bytes b = lead ++ ds ++ [CR; LF] ++ rest ->
  let v := hex_value 0 ds in
  exists c ps' b', execute ps (Some b) = (c, ps', Some b') /\
    (v = 0 -> c = BodyDone /\ ps' = mkChunked Trailer 0 0 /\ readable_bytes b' = rest) /\
    (0 < v <= size_max - 5 ->
       c = (match rest with [] => Again | _ => Ok end) /\
       ps' = mkChunked ChunkData v (v + 4) /\ readable_bytes b' = rest) /\
    (size_max - 5 < v -> c = Error).
Proof.
  intros Hpos Hlead Hds Hne Hread v. unfold execute. rewrite Hread.
  rewrite (exec_lead_in _ _ _ _ _ Hlead). set (p := pos b + Z.of_nat (length lead)).
  pose proof (hex_value_ge 0 ds Hds ltac:(lia)) as Hge.
  assert (forall n, n = p + Z.of_nat (length ds) + 2 - pos b ->
            readable_bytes (Http1Detail.consume n b) = rest) as Hrest.
  { intros n ->. apply (readable_suffix b (lead ++ ds ++ [CR; LF])); [done| |].
    - by rewrite Hread, <-!app_assoc.
    - rewrite !length_app. subst p. cbn [length]. lia. }
  destruct (exec_size_line ds rest p (size_ ps) Hds Hne) as [[Hv [z ->]]|[Hv ->]].
  - do 3 eexists. split; [reflexivity|]. fold v in Hv. unfold size_max. split; [lia|]. split; [lia|done].
  - fold v. destruct (Z.eqb_spec v 0) as [Hz|Hnz].
    { do 3 eexists. split; [reflexivity|]. split; [|unfold size_max; split; lia].
      intros _. split; [done|]. split; [done|]. by apply Hrest. }
    assert (at_data ps b ChunkData (match rest with [] => Again | _ => Ok end) v (p + Z.of_nat (length ds) + 2) =
            run_result ps b (match rest with [] => LoopData ChunkData Again v (p + Z.of_nat (length ds) + 2)
                   | _ => LoopData ChunkData Ok v (p + Z.of_nat (length ds) + 2) end)) as <- by (by destruct rest).
    unfold at_data. destruct (Z.ltb_spec (size_max - 5) v) as [Hbig|Hfit].
    + do 3 eexists. split; [reflexivity|]. split; [lia|]. split; [lia|done].
    + do 3 eexists. split; [reflexivity|]. split; [lia|]. split; [|lia].
      intros _. split; [done|]. split; [|by apply Hrest].
      cbn. f_equal. apply wrap_small. unfold in_width, size_max in *. subst v. lia.
Qed.

Lemma execute_chunk_size_witness :
  let m := [CR; LF] ++ bytes_of_string "fF" ++ [CR; LF] ++ bytes_of_string "data" in
  let b := mkBuffer m 0 10 10 in
  exists ps' b', execute (mkChunked ChunkData 0 0) (Some b) = (Ok, ps', Some b') /\
    size_ ps' = 255 /\ readable_bytes b' = bytes_of_string "data".
Proof.
  intros m b.
  destruct (execute_chunk_size (mkChunked ChunkData 0 0) b [CR; LF] (bytes_of_string "fF") (bytes_of_string "data"))
    as (c & ps' & b' & Hex & _ & Hok & _).
  - cbn. lia.
  - right. split; [reflexivity|left; reflexivity].
  - repeat constructor; discriminate.
  - discriminate.
  - reflexivity.
  - destruct Hok as (Hc & Hps & Hr); [vm_compute; intuition congruence|].
    subst c ps'. exists (mkChunked ChunkData 255 259), b'. split; [exact Hex|].
    split; [reflexivity|exact Hr].
Defined.

(** ** Incremental parsing *)

(** The size that belongs to a state: none between chunks, a positive one after
    the size line. *)
Definition loop_wf (s : State) (size : Z) : Prop :=
  0 <= size < 2 ^ 64 /\
  match s with
  | ChunkSize => True
  | ChunkExtension | ChunkExtensionAlmostDone | ChunkData => size <> 0
  | _ => size = 0
  end.

Definition wf (ps : ChunkedBodyParser) : Prop := loop_wf (start_state ps) (size_ ps).

Lemma start_state_id s size len : loop_wf s size -> start_state (mkChunked s size len) = s.
Proof.
  intros [_ H]. unfold start_state. cbn. destruct (bool_decide_reflect (s = ChunkData)) as [->|]; [|done].
  by rewrite (proj2 (Z.eqb_neq _ _) H).
Qed.

Lemma step_wf s ch size :
  loop_wf s size ->
  match step s ch size with
  | Next s' size' | GotoData s' _ size' _ => loop_wf s' size' /\ size <= size'
  | Invalid _ => True
  end.
Proof.
  intros [Hr Hs]. destruct s; cbn [step].
  - unfold step_ChunkStart. destruct (hex_digit ch) as [d|] eqn:E; [|done]. apply hex_digit_range in E.
    unfold loop_wf. lia.
  - unfold step_ChunkSize. destruct (hex_digit ch) as [d|] eqn:E.
    + apply hex_digit_range in E. rewrite append_hex_digit_spec by done.
      destruct (Z.ltb_spec (size * 16 + d) (2 ^ 64)); [|done]. unfold loop_wf. lia.
    + destruct (Z.eqb_spec size 0); split_ifs; unfold loop_wf; (done || lia).
  - unfold step_ChunkExtension. split_ifs; unfold loop_wf; lia.
  - unfold step_ChunkExtensionAlmostDone. split_ifs; unfold loop_wf; (done || lia).
  - unfold step_ChunkData. unfold loop_wf; lia.
  - unfold step_AfterData. split_ifs; unfold loop_wf; (done || lia).
  - unfold step_AfterDataAlmostDone. split_ifs; unfold loop_wf; (done || lia).
  - unfold step_LastChunkExtension. split_ifs; unfold loop_wf; lia.
  - unfold step_LastChunkExtensionAlmostDone. split_ifs; unfold loop_wf; (done || lia).
  - unfold step_Trailer, loop_wf; lia.
  - unfold step_Trailer, loop_wf; lia.
  - unfold step_Trailer, loop_wf; lia.
  - unfold step_Trailer, loop_wf; lia.
Qed.

Lemma exec_loop_wf bs p s size :
  loop_wf s size ->
  match exec_loop bs p s size with
  | LoopData s' _ size' p' => loop_wf s' size' /\ size <= size' /\ p <= p' <= p + Z.of_nat (length bs)
  | LoopInvalid _ => True
  end.
Proof.
  revert p s size. induction bs as [|ch bs IH]; intros p s size Hwf; cbn [exec_loop length].
  - split; [done|lia].
  - pose proof (step_wf s ch size Hwf) as Hst. destruct (step s ch size) as [s' size'|s' rc size' eaten|z].
    + destruct Hst as [Hst Hle]. specialize (IH (p + 1) s' size' Hst).
      destruct (exec_loop bs (p + 1) s' size'); [|done].
      destruct IH as (? & ? & ?). split; [done|lia].
    + destruct Hst. split; [done|]. destruct eaten; lia.
    + done.
Qed.

Lemma exec_loop_app_chunked bs1 bs2 p s size :
  match exec_loop bs1 p s size with
  | LoopData s' Again size' p' =>
      p' = p + Z.of_nat (length bs1) /\ exec_loop (bs1 ++ bs2) p s size = exec_loop bs2 p' s' size'
  | r => exec_loop (bs1 ++ bs2) p s size = r
  end.
Proof.
  revert p s size. induction bs1 as [|ch bs1 IH]; intros p s size; cbn [app exec_loop length].
  { split; [lia|done]. }
  destruct (step s ch size) as [s' size'|s' rc size' eaten|z] eqn:Hst; [| |done].
  - specialize (IH (p + 1) s' size'). destruct (exec_loop bs1 (p + 1) s' size') as [s1 rc1 z1 p1|]; [|done].
    destruct rc1; try done. destruct IH as [-> ?]. split; [lia|done].
  - destruct rc; try done. exfalso.
    destruct s; cbn in Hst;
    unfold step_ChunkStart, step_ChunkSize, step_ChunkExtension, step_ChunkExtensionAlmostDone, step_ChunkData,
      step_AfterData, step_AfterDataAlmostDone, step_LastChunkExtension, step_LastChunkExtensionAlmostDone,
      step_Trailer in Hst; repeat case_match; congruence.
Qed.

(** What a caller sees: nothing but the code after an error. *)
Definition observe (r : ParseCode * ChunkedBodyParser * option Buffer)
  : ParseCode * option (State * Z * Z) * option Z :=
  let '(c, ps, b) := r in
  match c with
  | Error => (Error, None, None)
  | _ => (c, Some (state_ ps, size_ ps, length_ ps), pos <$> b)
  end.

Fixpoint feed (ps : ChunkedBodyParser) (b : Buffer) (e : Z) (more : list Z)
  : ParseCode * ChunkedBodyParser * option Buffer :=
  match execute ps (Some (with_last e b)), more with
  | (Again, ps', Some b'), e' :: more' => feed ps' b' e' more'
  | r, _ => r
  end.

(** The result depends on where the loop ended, not on where it began. *)
Lemma observe_run_result ps b ps1 b1 r :
  observe (run_result ps b r) = observe (run_result ps1 b1 r).
Proof.
  destruct r as [s rc size p|z]; [|done]. cbn [run_result]. unfold at_data.
  destruct (size_max - 5 <? size); [done|]. destruct rc; cbn; try done; do 2 f_equal; lia.
Qed.

Lemma run_result_oversize ps b bs p s size :
  loop_wf s size -> size_max - 5 < size -> observe (run_result ps b (exec_loop bs p s size)) = (Error, None, None).
Proof.
  intros Hwf Hbig. pose proof (exec_loop_wf bs p s size Hwf) as Hl.
  destruct (exec_loop bs p s size) as [s' rc size' p'|z]; [|done]. destruct Hl as (_ & Hle & _).
  cbn [run_result]. unfold at_data. by rewrite (proj2 (Z.ltb_lt _ _) (Z.lt_le_trans _ _ _ Hbig Hle)).
Qed.

Lemma execute_two_chunked ps b mid :
  buffer_ok b -> wf ps -> pos b <= mid <= last b ->
  match execute ps (Some (with_last mid b)) with
  | (Again, ps1, Some b1) =>
      buffer_ok (with_last (last b) b1) /\ pos b1 = mid /\ wf ps1 /\
      observe (execute ps (Some b)) = observe (execute ps1 (Some (with_last (last b) b1)))
  | r => observe (execute ps (Some b)) = observe r
  end.
Proof.
  intros (Hpos & Hview & Hstore) Hwf Hmid. unfold wf in Hwf.
  unfold execute.
  rewrite (readable_bytes_split b mid) by lia. change (pos (with_last mid b)) with (pos b).
  pose proof (exec_loop_app_chunked (readable_bytes (with_last mid b)) (bytes_between b mid (last b))
                (pos b) (start_state ps) (size_ ps)) as Happ.
  pose proof (exec_loop_wf (readable_bytes (with_last mid b)) (pos b) _ _ Hwf) as Hl.
  assert (Z.of_nat (length (readable_bytes (with_last mid b))) = mid - pos b) as Hlen
    by (apply length_bytes_between; cbn; lia).
  destruct (exec_loop (readable_bytes (with_last mid b)) _ _ _) as [s1 rc1 z1 p1|z1] eqn:E;
    [|by rewrite Happ].
  destruct Hl as (Hwf1 & _ & _).
  destruct (decide (rc1 = Again)) as [->|Hrc].
  - destruct Happ as [-> ->]. rewrite Hlen. replace (pos b + (mid - pos b)) with mid by lia.
    cbn [run_result]. unfold at_data. destruct (Z.ltb_spec (size_max - 5) z1) as [Hbig|Hfit].
    { rewrite run_result_oversize by done. done. }
    split; [unfold buffer_ok; cbn; lia|]. split; [cbn; lia|].
    split; [unfold wf; by rewrite start_state_id|].
    rewrite start_state_id by done. cbn [size_ state_ length_].
    set (b1 := with_last (last b) _).
    replace (pos b1) with mid by (unfold b1; cbn; lia).
    replace (readable_bytes b1) with (bytes_between b mid (last b))
      by (unfold readable_bytes, b1; cbn; unfold bytes_between; cbn; do 3 f_equal; lia).
    apply observe_run_result.
  - assert (exec_loop (readable_bytes (with_last mid b) ++ bytes_between b mid (last b)) (pos b)
              (start_state ps) (size_ ps) = LoopData s1 rc1 z1 p1) as -> by (by destruct rc1).
    rewrite (observe_run_result ps b ps (with_last mid b)).
    cbn [run_result]. unfold at_data. destruct (size_max - 5 <? z1); [done|]. by destruct rc1.
Qed.

(** C26. Framing is insensitive to how the bytes arrive: feeding a chunked body
    piece by piece gives the same code, state, size, length and position as one
    call on all the bytes. *)
Theorem execute_any_split_chunked (ps : ChunkedBodyParser) (b : Buffer) (e : Z) (more : list Z) :
  buffer_ok b -> wf ps -> arrivals (pos b) e more (last b) ->
  observe (feed ps b e more) = observe (execute ps (Some b)).
Proof.
  revert ps b e. induction more as [|e' more IH]; intros ps b e Hok Hwf Harr; cbn [feed].
  - destruct Harr as [_ ->]. rewrite with_last_id. by destruct (execute ps (Some b)) as [[[] ?] [?|]].
  - pose proof (arrivals_le _ _ _ _ Harr) as Hle.
    pose proof (execute_two_chunked ps b e Hok Hwf Hle) as Htwo. destruct Harr as [_ Hrest].
    destruct (execute ps (Some (with_last e b))) as [[c ps'] [b'|]]; [|by destruct c].
    destruct c; try (by rewrite Htwo).
    destruct Htwo as (Hok' & Hpos & Hwf' & ->).
    rewrite <-(IH ps' (with_last (last b) b') e'); [|done|done|cbn; by rewrite Hpos].
    by destruct more.
Qed.

Lemma execute_any_split_chunked_witness :
  let m := bytes_of_string "3" ++ [CR; LF] ++ bytes_of_string "abc" in
  let b := mkBuffer m 0 6 6 in
  observe (feed reset b 0 [1; 2; 4; 6]) = observe (execute reset (Some b)) /\
  observe (execute reset (Some b)) = (Ok, Some (ChunkData, 3, 7), Some 3).
Proof.
  intros m b. split; [|vm_compute; reflexivity].
  apply execute_any_split_chunked.
  - unfold buffer_ok, b, m. cbn. lia.
  - unfold wf, loop_wf. unfold size_max. vm_compute. intuition congruence.
  - cbn. lia.
Defined.

End Chunked.

(** * [BodyParser] *)
Module Body.

Inductive Type_ := TNone | TContentLength | TChunked.

#[export] Instance Type_eq_dec : EqDecision Type_.
Proof. solve_decision. Defined.

Record BodyParser := mkBody {
  type_ : Type_; remaining_ : Z; done_ : bool; chunked_parser_ : Chunked.ChunkedBodyParser }.

Definition set_none : BodyParser := mkBody TNone 0 true Chunked.reset.
Definition reset : BodyParser := set_none.
Definition set_content_length (length : Z) : BodyParser :=
  mkBody TContentLength length (length =? 0) Chunked.reset.
Definition set_chunked : BodyParser := mkBody TChunked 0 false Chunked.reset.

Definition remaining (bp : BodyParser) : Z :=
  match type_ bp with
  | TNone => 0
  | TContentLength => remaining_ bp
  | TChunked => Chunked.size_ (chunked_parser_ bp)
  end.

Definition consume (n : Z) (bp : BodyParser) : BodyParser :=
  match type_ bp with
  | TNone => bp
  | TContentLength =>
      if remaining_ bp <=? n then mkBody TContentLength 0 true (chunked_parser_ bp)
      else mkBody TContentLength (remaining_ bp - n) (done_ bp) (chunked_parser_ bp)
  | TChunked => mkBody TChunked (remaining_ bp) (done_ bp) (Chunked.consume n (chunked_parser_ bp))
  end.

Definition finish_chunked_trailers (bp : BodyParser) : BodyParser :=
  match type_ bp with
  | TChunked => mkBody TChunked (remaining_ bp) true Chunked.reset
  | _ => bp
  end.

Definition execute (bp : BodyParser) (buffer : option Buffer) : ParseCode * BodyParser * option Buffer :=
  match type_ bp with
  | TNone => (Done, bp, buffer)
  | TContentLength => ((if done_ bp then Done else Ok), bp, buffer)
  | TChunked =>
      if done_ bp then (Done, bp, buffer)
      else let '(code, cp, buffer') := Chunked.execute (chunked_parser_ bp) buffer in
           (code, mkBody TChunked (remaining_ bp) (bool_decide (code = Done) || done_ bp) cp, buffer')
  end.

End Body.
