(* ===== verification/IoBuf.v ===== *)
(** * Reference-counted buffers and buffer chains
    ([IoBuf] and [IoBufChain] of [src/common/mem/IoBuf.h], [IoBuf.cpp])

    The heap maps addresses to control blocks with the storage behind them; a
    handle holds the address of its block and four offsets into the storage.  A
    failed [FIBER_ASSERT], and any access to a freed block, is [None].  The
    compare-and-swap loops of [retain] and [release] are one atomic step. *)
From S2P Require Import Prelude.

Module IoBuf.

(** ** Data *)

Record ControlBlock := mkBlock { refcount : Z; capacity_ : Z; storage : list Z }.

(** [oom] says which of the next allocations fail; afterwards none does. *)
Record Heap := mkHeap { blocks : gmap Z ControlBlock; next_block : Z; oom : list bool }.

Record IoBuf := mkBuf { control_ : option Z; view_begin_ : Z; view_end_ : Z; pos_ : Z; last_ : Z }.

Definition null_buf : IoBuf := mkBuf None 0 0 0 0.

Definition sizeof_ControlBlock : Z := 16.

Definition operator_new (h : Heap) : bool * Heap :=
  match oom h with
  | [] => (true, h)
  | f :: rest => (negb f, mkHeap (blocks h) (next_block h) rest)
  end.

Definition with_blocks (m : gmap Z ControlBlock) (h : Heap) : Heap := mkHeap m (next_block h) (oom h).

(** ** Reference counts *)

Definition retain (c : Z) (h : Heap) : option Heap :=
  b ← blocks h !! c;
  if (0 <? refcount b) && (refcount b <? 2 ^ 32 - 1) then
    Some (with_blocks (<[c := mkBlock (refcount b + 1) (capacity_ b) (storage b)]> (blocks h)) h)
  else None.

Definition unsafe_retain (c : Z) (h : Heap) : option Heap := retain c h.

Definition release (c : Z) (h : Heap) : option Heap :=
  b ← blocks h !! c;
  if 0 <? refcount b then
    let next := refcount b - 1 in
    if next =? 0 then Some (with_blocks (delete c (blocks h)) h)
    else Some (with_blocks (<[c := mkBlock next (capacity_ b) (storage b)]> (blocks h)) h)
  else None.

(** ** Handles *)

(** New storage is filled with zeros; no operation reads it before it is
    written. *)
Definition allocate (capacity : Z) (h : Heap) : IoBuf * Heap :=
  if capacity =? 0 then (null_buf, h)
  else if size_max - sizeof_ControlBlock <? capacity then (null_buf, h)
  else
    let '(ok, h) := operator_new h in
    if negb ok then (null_buf, h)
    else
      let c := next_block h in
      (mkBuf (Some c) 0 capacity 0 0,
       mkHeap (<[c := mkBlock 1 capacity (replicate (Z.to_nat capacity) 0)]> (blocks h)) (c + 1) (oom h)).

(** Destructor, copy and move construction, the two assignments ([same]: the
    two operands are the same object). *)
Definition destroy (b : IoBuf) (h : Heap) : option Heap :=
  match control_ b with
  | None => Some h
  | Some c => release c h
  end.

Definition copy (other : IoBuf) (h : Heap) : option (IoBuf * Heap) :=
  match control_ other with
  | None => Some (other, h)
  | Some c => h ← retain c h; Some (other, h)
  end.

Definition move (other : IoBuf) : IoBuf * IoBuf := (other, null_buf).

Definition copy_assign (same : bool) (self other : IoBuf) (h : Heap) : option (IoBuf * Heap) :=
  if same then Some (self, h)
  else
    '(b, h) ← copy other h;
    h ← destroy self h;
    Some (b, h).

Definition move_assign (same : bool) (self other : IoBuf) (h : Heap) : option (IoBuf * IoBuf * Heap) :=
  if same then Some (self, self, h)
  else
    h ← destroy self h;
    Some (other, null_buf, h).

Definition valid (b : IoBuf) : bool := match control_ b with Some _ => true | None => false end.

Definition capacity (b : IoBuf) (h : Heap) : Z :=
  match control_ b with
  | None => 0
  | Some c => match blocks h !! c with Some bl => capacity_ bl | None => 0 end
  end.

Definition readable (b : IoBuf) : Z := if valid b then u64 (last_ b - pos_ b) else 0.
Definition writable (b : IoBuf) : Z := if valid b then u64 (view_end_ b - last_ b) else 0.
Definition view_size (b : IoBuf) : Z := if valid b then u64 (view_end_ b - view_begin_ b) else 0.
Definition headroom (b : IoBuf) : Z := if valid b then u64 (pos_ b - view_begin_ b) else 0.

Definition use_count (b : IoBuf) (h : Heap) : Z :=
  match control_ b with
  | None => 0
  | Some c => match blocks h !! c with Some bl => refcount bl | None => 0 end
  end.

Definition unique (b : IoBuf) (h : Heap) : bool := use_count b h =? 1.

Definition clear (b : IoBuf) : option IoBuf :=
  if valid b then Some (mkBuf (control_ b) (view_begin_ b) (view_end_ b) (view_begin_ b) (view_begin_ b))
  else None.

Definition reset (b : IoBuf) (h : Heap) : option IoBuf :=
  if valid b then Some (mkBuf (control_ b) 0 (capacity b h) 0 0) else None.

Definition consume (bytes : Z) (b : IoBuf) : option IoBuf :=
  if bytes <=? readable b then
    Some (mkBuf (control_ b) (view_begin_ b) (view_end_ b) (pos_ b + bytes) (last_ b))
  else None.

Definition commit (bytes : Z) (b : IoBuf) : option IoBuf :=
  if bytes <=? writable b then
    Some (mkBuf (control_ b) (view_begin_ b) (view_end_ b) (pos_ b) (last_ b + bytes))
  else None.

Definition retain_slice (b : IoBuf) (offset len : Z) (h : Heap) : option (IoBuf * Heap) :=
  c ← control_ b;
  if (offset <=? readable b) && (len <=? readable b - offset) then
    h ← retain c h;
    let slice_begin := pos_ b + offset in
    let slice_end := slice_begin + len in
    Some (mkBuf (Some c) slice_begin slice_end slice_begin slice_end, h)
  else None.

(** The bytes between [readable_data()] and [writable_data()]. *)
Definition bytes_of (h : Heap) (b : IoBuf) : list Z :=
  match control_ b with
  | None => []
  | Some c =>
      match blocks h !! c with
      | Some bl => take (Z.to_nat (last_ b - pos_ b)) (drop (Z.to_nat (pos_ b)) (storage bl))
      | None => []
      end
  end.

(** [memcpy(b.writable_data(), bs, bs.size())]; [None] when it would write past
    the view. *)
Definition write (b : IoBuf) (bs : list Z) (h : Heap) : option Heap :=
  c ← control_ b;
  bl ← blocks h !! c;
  if Z.of_nat (length bs) <=? writable b then
    let st := storage bl in
    let l := Z.to_nat (last_ b) in
    Some (with_blocks (<[c := mkBlock (refcount bl) (capacity_ bl)
                                (take l st ++ bs ++ drop (l + length bs) st)]> (blocks h)) h)
  else None.

(** ** Chains

    The singly linked nodes are the list of their buffers; the counters are
    fields, as in the source. *)
Record IoBufChain := mkChain { nodes : list IoBuf; size_ : Z; readable_bytes_ : Z; writable_bytes_ : Z }.

Definition empty_chain : IoBufChain := mkChain [] 0 0 0.

Definition chain_empty (c : IoBufChain) : bool := size_ c =? 0.

Definition append (buf : IoBuf) (c : IoBufChain) (h : Heap) : bool * IoBufChain * Heap :=
  if negb (valid buf) then (true, c, h)
  else
    let '(ok, h) := operator_new h in
    if negb ok then (false, c, h)
    else (true, mkChain (nodes c ++ [buf]) (u64 (size_ c + 1)) (u64 (readable_bytes_ c + readable buf))
                  (u64 (writable_bytes_ c + writable buf)), h).

Definition prepend (buf : IoBuf) (c : IoBufChain) (h : Heap) : bool * IoBufChain * Heap :=
  if negb (valid buf) then (true, c, h)
  else
    let '(ok, h) := operator_new h in
    if negb ok then (false, c, h)
    else (true, mkChain (buf :: nodes c) (u64 (size_ c + 1)) (u64 (readable_bytes_ c + readable buf))
                  (u64 (writable_bytes_ c + writable buf)), h).

Fixpoint delete_nodes (l : list IoBuf) (h : Heap) : option Heap :=
  match l with
  | [] => Some h
  | b :: l' => h ← destroy b h; delete_nodes l' h
  end.

Definition clear_chain (c : IoBufChain) (h : Heap) : option (IoBufChain * Heap) :=
  h ← delete_nodes (nodes c) h;
  Some (empty_chain, h).

(** The loop of [retain_prefix] over the remaining nodes. *)
Fixpoint retain_loop (l : list IoBuf) (remaining : Z) (out : IoBufChain) (h : Heap)
  : option (bool * Z * IoBufChain * Heap) :=
  match l with
  | [] => Some (true, remaining, out, h)
  | b :: l' =>
      if negb (0 <? remaining) then Some (true, remaining, out, h)
      else if readable b =? 0 then retain_loop l' remaining out h
      else
        let take_ := Z.min (readable b) remaining in
        '(slice, h) ← retain_slice b 0 take_ h;
        let '(ok, out, h) := append slice out h in
        if negb ok then
          h ← destroy slice h;
          '(out, h) ← clear_chain out h;
          Some (false, remaining, out, h)
        else retain_loop l' (remaining - take_) out h
  end.

Definition retain_prefix (c : IoBufChain) (bytes : Z) (out : IoBufChain) (h : Heap)
  : option (bool * IoBufChain * Heap) :=
  if bytes <=? readable_bytes_ c then
    '(ok, remaining, out, h) ← retain_loop (nodes c) bytes out h;
    if negb ok then Some (false, out, h)
    else if remaining =? 0 then Some (true, out, h) else None
  else None.

Fixpoint consume_nodes (l : list IoBuf) (bytes : Z) : option (list IoBuf) :=
  match l with
  | [] => Some []
  | b :: l' =>
      if negb (0 <? bytes) then Some l
      else if bytes <? readable b then b ← consume bytes b; Some (b :: l')
      else
        let r := readable b in
        b ← consume r b; l' ← consume_nodes l' (bytes - r); Some (b :: l')
  end.

Definition consume_chain (bytes : Z) (c : IoBufChain) : option IoBufChain :=
  if bytes <=? readable_bytes_ c then
    l ← consume_nodes (nodes c) bytes;
    Some (mkChain l (size_ c) (readable_bytes_ c - bytes) (writable_bytes_ c))
  else None.

Fixpoint drop_loop (l : list IoBuf) (size writable_bytes : Z) (h : Heap) : option (list IoBuf * Z * Z * Heap) :=
  match l with
  | [] => Some ([], size, writable_bytes, h)
  | b :: l' =>
      if readable b =? 0 then
        let writable_bytes := u64 (writable_bytes - writable b) in
        h ← destroy b h; drop_loop l' (u64 (size - 1)) writable_bytes h
      else Some (l, size, writable_bytes, h)
  end.

Definition drop_empty_front (c : IoBufChain) (h : Heap) : option (IoBufChain * Heap) :=
  '(l, size, w, h) ← drop_loop (nodes c) (size_ c) (writable_bytes_ c) h;
  Some (mkChain l size (readable_bytes_ c) w, h).

Fixpoint compact_loop (l : list IoBuf) (bytes size writable_bytes : Z) (h : Heap)
  : option (list IoBuf * Z * Z * Heap) :=
  match l with
  | [] => Some ([], size, writable_bytes, h)
  | b :: l' =>
      if negb (0 <? bytes) then Some (l, size, writable_bytes, h)
      else if bytes <? readable b then
        b ← consume bytes b; Some (b :: l', size, writable_bytes, h)
      else
        let r := readable b in
        b ← consume r b;
        let writable_bytes := u64 (writable_bytes - writable b) in
        h ← destroy b h;
        compact_loop l' (bytes - r) (u64 (size - 1)) writable_bytes h
  end.

Definition consume_and_compact (bytes : Z) (c : IoBufChain) (h : Heap) : option (IoBufChain * Heap) :=
  if bytes <=? readable_bytes_ c then
    '(l, size, w, h) ← compact_loop (nodes c) bytes (size_ c) (writable_bytes_ c) h;
    Some (mkChain l size (readable_bytes_ c - bytes) w, h)
  else None.

Fixpoint commit_nodes (l : list IoBuf) (bytes : Z) : option (list IoBuf) :=
  match l with
  | [] => Some []
  | b :: l' =>
      if negb (0 <? bytes) then Some l
      else if bytes <? writable b then b ← commit bytes b; Some (b :: l')
      else
        let w := writable b in
        b ← commit w b; l' ← commit_nodes l' (bytes - w); Some (b :: l')
  end.

Definition commit_chain (bytes : Z) (c : IoBufChain) : option IoBufChain :=
  if bytes <=? writable_bytes_ c then
    l ← commit_nodes (nodes c) bytes;
    Some (mkChain l (size_ c) (u64 (readable_bytes_ c + bytes)) (writable_bytes_ c - bytes))
  else None.

(** The entries of an [iovec] array: offset and length in a block. *)
Definition iovec : Type := option Z * Z * Z.

Fixpoint fill_iov (len : IoBuf -> Z) (base : IoBuf -> Z) (l : list IoBuf) (max_iov : nat) : list iovec :=
  match l, max_iov with
  | [], _ | _, O => []
  | b :: l', S n =>
      if len b =? 0 then fill_iov len base l' max_iov
      else (control_ b, base b, len b) :: fill_iov len base l' n
  end.

Definition fill_write_iov (c : IoBufChain) (max_iov : Z) : list iovec :=
  fill_iov readable pos_ (nodes c) (Z.to_nat max_iov).
Definition fill_read_iov (c : IoBufChain) (max_iov : Z) : list iovec :=
  fill_iov writable last_ (nodes c) (Z.to_nat max_iov).

Definition front (c : IoBufChain) : option IoBuf := head (nodes c).
Definition first_readable (c : IoBufChain) : option IoBuf :=
  head (filter (fun b => 0 < readable b) (nodes c)).
Definition first_writable (c : IoBufChain) : option IoBuf :=
  head (filter (fun b => 0 < writable b) (nodes c)).

(** The bytes a reader of the chain gets. *)
Definition chain_bytes (h : Heap) (c : IoBufChain) : list Z := concat (map (bytes_of h) (nodes c)).

(** ** Ownership

    [owned h hs]: the live handles are exactly [hs]; every block has as many
    references as handles, a block without a handle does not exist, and every
    handle is inside its block. *)
Definition count (c : Z) (hs : list IoBuf) : Z :=
  Z.of_nat (length (filter (fun b => control_ b = Some c) hs)).

Definition offsets_ok (bl : ControlBlock) (b : IoBuf) : Prop :=
  0 <= view_begin_ b <= pos_ b /\ pos_ b <= last_ b <= view_end_ b /\ view_end_ b <= capacity_ bl.

Definition block_ok (bl : ControlBlock) : Prop :=
  Z.of_nat (length (storage bl)) = capacity_ bl /\ 0 < capacity_ bl < 2 ^ 64.

Definition handle_ok (h : Heap) (b : IoBuf) : Prop :=
  match control_ b with
  | None => True
  | Some c => exists bl, blocks h !! c = Some bl /\ block_ok bl /\ offsets_ok bl b
  end.

Record owned (h : Heap) (hs : list IoBuf) : Prop := mkOwned {
  owned_count : forall c bl, blocks h !! c = Some bl ->
                  refcount bl = count c hs /\ 0 < refcount bl < 2 ^ 32 /\ c < next_block h;
  owned_handles : Forall (handle_ok h) hs }.

Lemma count_nil c : count c [] = 0.
Proof. done. Qed.

Lemma count_cons c b hs :
  count c (b :: hs) = (if decide (control_ b = Some c) then 1 else 0) + count c hs.
Proof. unfold count. rewrite filter_cons. case_decide; cbn [length]; lia. Qed.

Lemma count_app c hs1 hs2 : count c (hs1 ++ hs2) = count c hs1 + count c hs2.
Proof. unfold count. rewrite filter_app, length_app. lia. Qed.

Lemma count_nonneg c hs : 0 <= count c hs.
Proof. unfold count. lia. Qed.

Lemma count_pos c b hs : b ∈ hs -> control_ b = Some c -> 0 < count c hs.
Proof.
  intros Hin Hc. induction hs as [|b' hs IH]; [by apply not_elem_of_nil in Hin|].
  rewrite count_cons. pose proof (count_nonneg c hs).
  apply elem_of_cons in Hin as [<-|Hin]; [rewrite decide_True by done; lia|].
  specialize (IH Hin). case_decide; lia.
Qed.

Lemma count_perm c hs hs' : hs ≡ₚ hs' -> count c hs = count c hs'.
Proof. intros Hp. unfold count. by rewrite Hp. Qed.

#[export] Instance owned_perm h : Proper ((≡ₚ) ==> iff) (owned h).
Proof.
  assert (forall hs hs', hs ≡ₚ hs' -> owned h hs -> owned h hs') as Hone.
  { intros hs hs' Hp [H1 H2]. split.
    - intros c bl Hb. rewrite <-(count_perm c hs hs' Hp). by apply H1.
    - by rewrite <-Hp. }
  intros hs hs' Hp. split; apply Hone; [done|by symmetry].
Qed.

Lemma readable_handle h b : handle_ok h b -> readable b = if valid b then last_ b - pos_ b else 0.
Proof.
  unfold handle_ok, readable, valid. destruct (control_ b); [|done].
  intros (bl & _ & Hb & Ho). apply wrap_small. unfold in_width, block_ok, offsets_ok in *. lia.
Qed.

Lemma writable_handle h b : handle_ok h b -> writable b = if valid b then view_end_ b - last_ b else 0.
Proof.
  unfold handle_ok, writable, valid. destruct (control_ b); [|done].
  intros (bl & _ & Hb & Ho). apply wrap_small. unfold in_width, block_ok, offsets_ok in *. lia.
Qed.

(** A heap that changes only reference counts keeps every handle good. *)
Definition same_storage (h h' : Heap) (hs : list IoBuf) : Prop :=
  forall b, b ∈ hs -> bytes_of h' b = bytes_of h b /\ (handle_ok h b -> handle_ok h' b).

Lemma same_storage_update h c bl r hs :
  blocks h !! c = Some bl ->
  same_storage h (with_blocks (<[c := mkBlock r (capacity_ bl) (storage bl)]> (blocks h)) h) hs.
Proof.
  intros Hc b _. unfold bytes_of, handle_ok. destruct (control_ b) as [c'|]; [|done]. cbn [blocks with_blocks].
  destruct (decide (c = c')) as [<-|Hne].
  - rewrite lookup_insert_eq, Hc. split; [done|].
    intros (bl' & Heq & Hb & Ho). injection Heq as <-. exists (mkBlock r (capacity_ bl) (storage bl)). done.
  - by rewrite lookup_insert_ne by done.
Qed.

Lemma retain_owned h hs c b :
  owned h hs -> handle_ok h b -> control_ b = Some c -> 0 < count c hs < 2 ^ 32 - 1 ->
  exists h', retain c h = Some h' /\ owned h' (b :: hs) /\ same_storage h h' (b :: hs) /\ oom h' = oom h.
Proof.
  intros [Hcount Hok] Hb Hc Hlt. pose proof Hb as Hb'. unfold handle_ok in Hb'. rewrite Hc in Hb'.
  destruct Hb' as (bl & Hbl & _). destruct (Hcount c bl Hbl) as (Href & Hpos & Hnext).
  unfold retain. rewrite Hbl. cbn [mbind option_bind].
  rewrite (proj2 (Z.ltb_lt _ _)), (proj2 (Z.ltb_lt _ _)) by lia. cbn [andb].
  eexists. split; [reflexivity|].
  pose proof (same_storage_update h c bl (refcount bl + 1) (b :: hs) Hbl) as Hsame.
  split; [|split; [done|done]]. split.
  - intros c' bl'. cbn [blocks with_blocks]. destruct (decide (c = c')) as [<-|Hne].
    + rewrite lookup_insert_eq. intros [= <-]. cbn [refcount]. rewrite count_cons, decide_True by done. cbn. lia.
    + rewrite lookup_insert_ne by done. rewrite count_cons, decide_False by congruence. apply Hcount.
  - apply Forall_forall. intros b' Hin. apply (Hsame b' Hin).
    apply elem_of_cons in Hin as [->|Hin]; [done|]. by apply (proj1 (Forall_forall _ _) Hok).
Qed.

(** Dropping a handle always succeeds, frees the block exactly when it was the
    last one, and leaves the bytes of every other handle alone. *)
Lemma destroy_owned h b hs :
  owned h (b :: hs) ->
  exists h', destroy b h = Some h' /\ owned h' hs /\ same_storage h h' hs /\ oom h' = oom h.
Proof.
  intros Hown. pose proof Hown as [Hcount Hok]. apply Forall_cons in Hok as [Hb Hok].
  unfold destroy. destruct (control_ b) as [c|] eqn:Hc.
  2:{ exists h. split; [done|]. split; [|by split; [intros ? ?|]]. split; [|done].
      intros c bl Hbl. rewrite <-(Z.add_0_l (count c hs)).
      specialize (Hcount c bl Hbl). rewrite count_cons, decide_False in Hcount by congruence. done. }
  pose proof Hb as Hb'. unfold handle_ok in Hb'. rewrite Hc in Hb'. destruct Hb' as (bl & Hbl & Hbok & _).
  destruct (Hcount c bl Hbl) as (Href & Hpos & Hnext).
  rewrite count_cons, decide_True in Href by done. pose proof (count_nonneg c hs) as Hnn.
  unfold release. rewrite Hbl. cbn [mbind option_bind]. rewrite (proj2 (Z.ltb_lt _ _)) by lia.
  assert (forall c' bl', c <> c' -> blocks h !! c' = Some bl' ->
            refcount bl' = count c' hs /\ 0 < refcount bl' < 2 ^ 32 /\ c' < next_block h) as Hother.
  { intros c' bl' Hne Hbl'. specialize (Hcount c' bl' Hbl').
    rewrite count_cons, decide_False in Hcount by congruence. done. }
  destruct (Z.eqb_spec (refcount bl - 1) 0) as [Hz|Hnz].
  - eexists. split; [reflexivity|].
    assert (forall b', b' ∈ hs -> control_ b' <> Some c) as Hnone.
    { intros b' Hin Hc'. pose proof (count_pos c b' hs Hin Hc'). lia. }
    assert (same_storage h (with_blocks (delete c (blocks h)) h) hs) as Hsame.
    { intros b' Hin. specialize (Hnone b' Hin). unfold bytes_of, handle_ok.
      destruct (control_ b') as [c'|]; [|done]. cbn [blocks with_blocks].
      rewrite lookup_delete_ne by congruence. done. }
    split; [|by split]. split.
    + intros c' bl'. cbn [blocks with_blocks next_block]. intros Hbl'.
      apply lookup_delete_Some in Hbl' as [Hne Hbl']. by apply Hother.
    + apply Forall_forall. intros b' Hin. apply (Hsame b' Hin). by apply (proj1 (Forall_forall _ _) Hok).
  - eexists. split; [reflexivity|].
    pose proof (same_storage_update h c bl (refcount bl - 1) hs Hbl) as Hsame.
    split; [|by split]. split.
    + intros c' bl'. cbn [blocks with_blocks next_block]. destruct (decide (c = c')) as [<-|Hne].
      * rewrite lookup_insert_eq. intros [= <-]. cbn [refcount]. lia.
      * rewrite lookup_insert_ne by done. by apply Hother.
    + apply Forall_forall. intros b' Hin. apply (Hsame b' Hin). by apply (proj1 (Forall_forall _ _) Hok).
Qed.

Lemma allocate_owned h hs cap :
  owned h hs -> 0 <= cap ->
  let '(b, h') := allocate cap h in
  owned h' (b :: hs) /\ same_storage h h' hs /\
  (valid b = true -> 0 < cap /\ readable b = 0 /\ writable b = cap).
Proof.
  intros [Hcount Hok] Hcap.
  assert (owned h (null_buf :: hs)) as Hnull.
  { split.
    - intros c bl Hbl. rewrite count_cons, decide_False by done. by apply Hcount.
    - by constructor. }
  assert (same_storage h h hs) as Hrefl by (by intros ? ?).
  unfold allocate. destruct (Z.eqb_spec cap 0) as [->|Hnz]; [done|].
  destruct (Z.ltb_spec (size_max - sizeof_ControlBlock) cap) as [Hbig|Hfit]; [done|].
  unfold size_max, sizeof_ControlBlock in Hfit.
  assert (exists ok h1, operator_new h = (ok, h1) /\ blocks h1 = blocks h /\ next_block h1 = next_block h)
    as (ok & h1 & -> & Hbl1 & Hnx1) by (unfold operator_new; destruct (oom h); eauto).
  assert (forall hs0, owned h hs0 -> owned h1 hs0) as Hown1.
  { intros hs0 [A B]. split; [rewrite Hbl1, Hnx1; exact A|].
    eapply Forall_impl; [exact B|]. intros b'. unfold handle_ok. by rewrite Hbl1. }
  assert (same_storage h h1 hs) as Hsame1.
  { intros b' _. unfold bytes_of, handle_ok. by rewrite Hbl1. }
  destruct ok; cbn [negb]; [|split; [by apply Hown1|done]].
  set (bl := mkBlock 1 cap (replicate (Z.to_nat cap) 0)).
  set (c := next_block h1).
  assert (blocks h !! c = None) as Hfresh.
  { destruct (blocks h !! c) as [bl0|] eqn:E; [|done].
    destruct (Hcount c bl0 E) as (_ & _ & Hlt). unfold c in Hlt. rewrite Hnx1 in Hlt. lia. }
  assert (forall b', b' ∈ hs -> control_ b' <> Some c) as Hnone.
  { intros b' Hin Hc. apply (proj1 (Forall_forall _ _) Hok) in Hin. unfold handle_ok in Hin.
    rewrite Hc in Hin. destruct Hin as (bl0 & Hbl0 & _). congruence. }
  assert (count c hs = 0) as Hc0.
  { unfold count.
    destruct (filter (fun b => control_ b = Some c) hs) as [|b' l] eqn:E; [done|].
    assert (b' ∈ filter (fun b => control_ b = Some c) hs) as Hin by (rewrite E; left).
    apply list_elem_of_filter in Hin as [Hc Hin]. by destruct (Hnone b' Hin). }
  assert (same_storage h (mkHeap (<[c := bl]> (blocks h1)) (c + 1) (oom h1)) hs) as Hsame.
  { intros b' Hin. specialize (Hnone b' Hin). unfold bytes_of, handle_ok. cbn [blocks]. rewrite Hbl1.
    destruct (control_ b') as [c'|]; [|done]. by rewrite lookup_insert_ne by congruence. }
  split; [|split; [done|]].
  - split.
    + intros c' bl'. cbn [blocks next_block]. rewrite Hbl1. destruct (decide (c = c')) as [<-|Hne].
      * rewrite lookup_insert_eq. intros [= <-]. rewrite count_cons, decide_True by done. cbn. lia.
      * rewrite lookup_insert_ne by done. rewrite count_cons, decide_False by (cbn; congruence).
        intros Hbl'. destruct (Hcount c' bl' Hbl') as (? & ? & ?). unfold c. rewrite Hnx1. cbn. lia.
    + constructor.
      * unfold handle_ok. cbn [control_]. exists bl. cbn [blocks]. rewrite lookup_insert_eq. split; [done|].
        unfold block_ok, offsets_ok, bl. cbn. rewrite length_replicate. lia.
      * apply Forall_forall. intros b' Hin. apply (Hsame b' Hin). by apply (proj1 (Forall_forall _ _) Hok).
  - intros _. unfold readable, writable. cbn. rewrite !wrap_small by (unfold in_width; lia). lia.
Qed.

(** Changing the offsets of a handle inside its block. *)
Lemma owned_replace h b b' hs :
  owned h (b :: hs) -> control_ b' = control_ b -> (handle_ok h b -> handle_ok h b') -> owned h (b' :: hs).
Proof.
  intros [Hcount Hok] Hc Himp. apply Forall_cons in Hok as [Hb Hok]. split.
  - intros c bl Hbl. rewrite count_cons, Hc, <-count_cons. by apply Hcount.
  - constructor; [by apply Himp|done].
Qed.

Lemma owned_null h hs : owned h hs -> owned h (null_buf :: hs).
Proof.
  intros [Hcount Hok]. split; [|by constructor].
  intros c bl Hbl. rewrite count_cons, decide_False by done. by apply Hcount.
Qed.

Lemma count_in_range h hs c b :
  owned h hs -> b ∈ hs -> control_ b = Some c -> exists bl, blocks h !! c = Some bl /\ refcount bl = count c hs.
Proof.
  intros [Hcount Hok] Hin Hc. apply (proj1 (Forall_forall _ _) Hok) in Hin. unfold handle_ok in Hin.
  rewrite Hc in Hin. destruct Hin as (bl & Hbl & _). exists bl. split; [done|]. by apply (Hcount c).
Qed.

(** ** Programs over handles *)

Inductive Op :=
  | OAllocate (capacity : Z)
  | OCopy (i : nat)
  | OCopyAssign (i j : nat)
  | OMoveAssign (i j : nat)
  | OSlice (i : nat) (offset len : Z)
  | OConsume (i : nat) (n : Z)
  | OCommit (i : nat) (n : Z)
  | OClear (i : nat)
  | OReset (i : nat)
  | ODestroy (i : nat).

(** The variables of the program are the list [hs]. *)
Definition step (op : Op) (st : Heap * list IoBuf) : option (Heap * list IoBuf) :=
  let '(h, hs) := st in
  match op with
  | OAllocate cap => let '(b, h) := allocate cap h in Some (h, b :: hs)
  | OCopy i => b ← hs !! i; '(b', h) ← copy b h; Some (h, b' :: hs)
  | OCopyAssign i j =>
      self ← hs !! i; other ← hs !! j;
      '(b, h) ← copy_assign (i =? j)%nat self other h;
      Some (h, <[i := b]> hs)
  | OMoveAssign i j =>
      self ← hs !! i; other ← hs !! j;
      '(b, o, h) ← move_assign (i =? j)%nat self other h;
      Some (h, <[i := b]> (<[j := o]> hs))
  | OSlice i offset len => b ← hs !! i; '(b', h) ← retain_slice b offset len h; Some (h, b' :: hs)
  | OConsume i n => b ← hs !! i; b' ← consume n b; Some (h, <[i := b']> hs)
  | OCommit i n => b ← hs !! i; b' ← commit n b; Some (h, <[i := b']> hs)
  | OClear i => b ← hs !! i; b' ← clear b; Some (h, <[i := b']> hs)
  | OReset i => b ← hs !! i; b' ← reset b h; Some (h, <[i := b']> hs)
  | ODestroy i => b ← hs !! i; h ← destroy b h; Some (h, delete i hs)
  end.

(** What the callers must respect: existing variables, sizes within the buffer
    and no more than [2^32 - 1] references to one block. *)
Definition not_saturated (h : Heap) (b : IoBuf) : bool :=
  negb (valid b) || (use_count b h <? 2 ^ 32 - 1).

Definition allowed (op : Op) (st : Heap * list IoBuf) : bool :=
  let '(h, hs) := st in
  let at_ i := default null_buf (hs !! i) in
  let there i := (i <? length hs)%nat in
  match op with
  | OAllocate cap => 0 <=? cap
  | OCopy i => there i && not_saturated h (at_ i)
  | OCopyAssign i j => there i && there j && ((i =? j)%nat || not_saturated h (at_ j))
  | OMoveAssign i j => there i && there j
  | OSlice i offset len =>
      there i && valid (at_ i) && not_saturated h (at_ i) && (0 <=? offset) && (0 <=? len) &&
      (offset + len <=? readable (at_ i))
  | OConsume i n => there i && (0 <=? n) && (n <=? readable (at_ i))
  | OCommit i n => there i && (0 <=? n) && (n <=? writable (at_ i))
  | OClear i | OReset i => there i && valid (at_ i)
  | ODestroy i => there i
  end.

Fixpoint run (ops : list Op) (st : Heap * list IoBuf) : option (Heap * list IoBuf) :=
  match ops with
  | [] => Some st
  | op :: ops' => if allowed op st then st' ← step op st; run ops' st' else Some st
  end.

Definition step_good (op : Op) (h : Heap) (hs : list IoBuf) : Prop :=
  exists h' hs', step op (h, hs) = Some (h', hs') /\ owned h' hs'.

Section steps.
Variables (h : Heap) (hs : list IoBuf).
Hypothesis Hown : owned h hs.

Lemma split_at i b : hs !! i = Some b -> hs ≡ₚ b :: delete i hs.
Proof. intros Hi. by apply delete_Permutation. Qed.

Lemma insert_perm i b b' : hs !! i = Some b -> <[i := b']> hs ≡ₚ b' :: delete i hs.
Proof.
  intros Hi. pose proof (lookup_lt_Some _ _ _ Hi).
  rewrite insert_take_drop, delete_take_drop by done. symmetry. apply Permutation_middle.
Qed.

Lemma lookup_owned i b : hs !! i = Some b -> owned h (b :: delete i hs).
Proof. intros Hi. by rewrite <-split_at by done. Qed.

Lemma handle_at i b : hs !! i = Some b -> handle_ok h b.
Proof. intros Hi. apply (proj1 (Forall_forall _ _) (owned_handles _ _ Hown)). by eapply list_elem_of_lookup_2. Qed.

Lemma copy_good i b : hs !! i = Some b -> not_saturated h b = true ->
  exists h', copy b h = Some (b, h') /\ owned h' (b :: hs).
Proof.
  intros Hi Hsat. unfold copy. destruct (control_ b) as [c|] eqn:Hc.
  - assert (b ∈ hs) as Hin by (by eapply list_elem_of_lookup_2).
    destruct (count_in_range h hs c b Hown Hin Hc) as (bl & Hbl & Href).
    destruct (owned_count _ _ Hown c bl Hbl) as (_ & Hpos & _).
    assert (refcount bl < 2 ^ 32 - 1) as Hlt.
    { unfold not_saturated, valid, use_count in Hsat. rewrite Hc, Hbl in Hsat. by apply Z.ltb_lt in Hsat. }
    destruct (retain_owned h hs c b Hown (handle_at i b Hi) Hc ltac:(lia)) as (h' & Hr & Ho & _).
    exists h'. by rewrite Hr.
  - exists h. split; [done|]. destruct Hown as [Hcount Hok]. split.
    + intros c bl Hbl. rewrite count_cons, decide_False by congruence. by apply Hcount.
    + constructor; [|done]. unfold handle_ok. by rewrite Hc.
Qed.

Lemma offsets_good i b b' :
  hs !! i = Some b -> control_ b' = control_ b -> (handle_ok h b -> handle_ok h b') ->
  owned h (<[i := b']> hs).
Proof.
  intros Hi Hc Himp. rewrite (insert_perm i b b' Hi).
  by apply (owned_replace h b b' (delete i hs)); [apply lookup_owned| |].
Qed.

End steps.

Lemma there_lookup (hs : list IoBuf) i :
  (i <? length hs)%nat = true -> hs !! i = Some (default null_buf (hs !! i)).
Proof. intros Hi. apply Nat.ltb_lt in Hi. by destruct (lookup_lt_is_Some_2 hs i Hi) as [b ->]. Qed.

Ltac get_slot H b Hb :=
  apply there_lookup in H; set (b := default null_buf _) in *; rename H into Hb.

Lemma step_allocate_good h hs cap : owned h hs -> allowed (OAllocate cap) (h, hs) = true -> step_good (OAllocate cap) h hs.
Proof.
  intros Hown Ha. cbn in Ha. apply Z.leb_le in Ha. pose proof (allocate_owned h hs cap Hown Ha) as H.
  unfold step_good. cbn [step]. destruct (allocate cap h) as [b h']. do 2 eexists. split; [reflexivity|]. apply H.
Qed.

Lemma step_copy_good h hs i : owned h hs -> allowed (OCopy i) (h, hs) = true -> step_good (OCopy i) h hs.
Proof.
  intros Hown Ha. cbn in Ha. apply andb_prop in Ha as [Hi Hs]. get_slot Hi b Hb.
  destruct (copy_good h hs Hown i b Hb Hs) as (h' & Hc & Ho).
  unfold step_good. cbn [step]. rewrite Hb. cbn. rewrite Hc. cbn. eauto.
Qed.

Lemma step_copy_assign_good h hs i j :
  owned h hs -> allowed (OCopyAssign i j) (h, hs) = true -> step_good (OCopyAssign i j) h hs.
Proof.
  intros Hown Ha. cbn in Ha. apply andb_prop in Ha as [Ha Hs]. apply andb_prop in Ha as [Hi Hj].
  apply there_lookup in Hi, Hj. set (self := default null_buf (hs !! i)) in *.
  set (other := default null_buf (hs !! j)) in *.
  unfold step_good. cbn [step]. rewrite Hi, Hj. cbn. unfold copy_assign.
  destruct (i =? j)%nat; cbn in Hs |- *.
  { do 2 eexists. split; [reflexivity|]. by rewrite list_insert_id. }
  destruct (copy_good h hs Hown j other Hj Hs) as (h1 & -> & Ho1). cbn.
  rewrite (split_at hs i self Hi), (Permutation_swap self other) in Ho1.
  destruct (destroy_owned h1 self _ Ho1) as (h2 & -> & Ho2 & _). cbn.
  do 2 eexists. split; [reflexivity|]. by rewrite (insert_perm hs i self other Hi).
Qed.

Lemma step_move_assign_good h hs i j :
  owned h hs -> allowed (OMoveAssign i j) (h, hs) = true -> step_good (OMoveAssign i j) h hs.
Proof.
  intros Hown Ha. cbn in Ha. apply andb_prop in Ha as [Hi Hj].
  apply there_lookup in Hi, Hj. set (self := default null_buf (hs !! i)) in *.
  set (other := default null_buf (hs !! j)) in *.
  unfold step_good. cbn [step]. rewrite Hi, Hj. cbn. unfold move_assign.
  destruct (Nat.eqb_spec i j) as [<-|Hne]; cbn.
  { do 2 eexists. split; [reflexivity|]. by rewrite !(list_insert_id hs i self Hi). }
  pose proof Hown as Hself. rewrite (split_at hs i self Hi) in Hself.
  destruct (destroy_owned h self _ Hself) as (h1 & -> & Ho1 & _). cbn.
  do 2 eexists. split; [reflexivity|].
  rewrite list_insert_insert_ne by done.
  assert (<[i := other]> hs !! j = Some other) as Hj' by (by rewrite list_lookup_insert_ne).
  rewrite (insert_perm _ j other null_buf Hj'). apply owned_null.
  (* what remains without [j] is what remained without [i] *)
  assert (other :: delete j (<[i := other]> hs) ≡ₚ other :: delete i hs) as Hp.
  { by rewrite <-(split_at _ j other Hj'), (insert_perm hs i self other Hi). }
  apply Permutation_cons_inv in Hp. by rewrite Hp.
Qed.

Lemma slice_owned h hs b offset len :
  owned h hs -> b ∈ hs -> valid b = true -> not_saturated h b = true ->
  0 <= offset -> 0 <= len -> offset + len <= readable b ->
  exists c h', control_ b = Some c /\
    retain_slice b offset len h =
      Some (mkBuf (Some c) (pos_ b + offset) (pos_ b + offset + len) (pos_ b + offset) (pos_ b + offset + len), h') /\
    owned h' (mkBuf (Some c) (pos_ b + offset) (pos_ b + offset + len) (pos_ b + offset) (pos_ b + offset + len) :: hs) /\
    same_storage h h' hs /\ oom h' = oom h.
Proof.
  intros Hown Hin Hv Hs Ho Hl Hle. unfold valid in Hv. destruct (control_ b) as [c|] eqn:Hc; [|done].
  destruct (count_in_range h hs c b Hown Hin Hc) as (bl & Hbl & Href).
  destruct (owned_count _ _ Hown c bl Hbl) as (_ & Hpos & _).
  assert (refcount bl < 2 ^ 32 - 1) as Hlt.
  { unfold not_saturated, valid, use_count in Hs. rewrite Hc, Hbl in Hs. by apply Z.ltb_lt in Hs. }
  assert (handle_ok h b) as Hb by (by apply (proj1 (Forall_forall _ _) (owned_handles _ _ Hown))).
  rewrite (readable_handle h b Hb) in Hle. unfold valid in Hle. rewrite Hc in Hle.
  set (b' := mkBuf (Some c) (pos_ b + offset) (pos_ b + offset + len) (pos_ b + offset) (pos_ b + offset + len)).
  assert (handle_ok h b') as Hb'.
  { unfold handle_ok in Hb |- *. rewrite Hc in Hb. cbn [control_ b']. destruct Hb as (bl' & ? & ? & Hoff).
    exists bl'. split; [done|]. split; [done|]. unfold offsets_ok, b' in *. cbn. lia. }
  destruct (retain_owned h hs c b' Hown Hb' eq_refl ltac:(lia)) as (h' & Hr & Ho' & Hsame & Hoom).
  exists c, h'. split; [done|]. split.
  - unfold retain_slice. rewrite Hc. cbn [mbind option_bind].
    rewrite (readable_handle h b Hb). unfold valid. rewrite Hc.
    rewrite (proj2 (Z.leb_le _ _)), (proj2 (Z.leb_le _ _)) by lia. cbn [andb]. by rewrite Hr.
  - split; [done|]. split; [|done]. intros b0 Hin0. apply Hsame. by right.
Qed.

Lemma step_slice_good h hs i offset len :
  owned h hs -> allowed (OSlice i offset len) (h, hs) = true -> step_good (OSlice i offset len) h hs.
Proof.
  intros Hown Ha. cbn in Ha. repeat (apply andb_prop in Ha as [Ha ?]). get_slot Ha b Hb. bool_to_prop.
  destruct (slice_owned h hs b offset len) as (c & h' & _ & Hr & Ho & _); try done.
  { by eapply list_elem_of_lookup_2. }
  unfold step_good. cbn [step]. rewrite Hb. cbn. rewrite Hr. cbn. eauto.
Qed.

Lemma step_consume_good h hs i n : owned h hs -> allowed (OConsume i n) (h, hs) = true -> step_good (OConsume i n) h hs.
Proof.
  intros Hown Ha. cbn in Ha. repeat (apply andb_prop in Ha as [Ha ?]). get_slot Ha b Hb.
  unfold step_good. cbn [step]. rewrite Hb. cbn. unfold consume. rewrite H. cbn. bool_to_prop.
  do 2 eexists. split; [reflexivity|]. apply (offsets_good h hs Hown i b); [done|done|].
  intros Hok. rewrite (readable_handle h b Hok) in H. unfold valid in H. unfold handle_ok in *. cbn [control_].
  destruct (control_ b); [|done]. destruct Hok as (bl & ? & ? & Hoff). exists bl.
  unfold offsets_ok in *. cbn. split_and!; (done || lia).
Qed.

Lemma step_commit_good h hs i n : owned h hs -> allowed (OCommit i n) (h, hs) = true -> step_good (OCommit i n) h hs.
Proof.
  intros Hown Ha. cbn in Ha. repeat (apply andb_prop in Ha as [Ha ?]). get_slot Ha b Hb.
  unfold step_good. cbn [step]. rewrite Hb. cbn. unfold commit. rewrite H. cbn. bool_to_prop.
  do 2 eexists. split; [reflexivity|]. apply (offsets_good h hs Hown i b); [done|done|].
  intros Hok. rewrite (writable_handle h b Hok) in H. unfold valid in H. unfold handle_ok in *. cbn [control_].
  destruct (control_ b); [|done]. destruct Hok as (bl & ? & ? & Hoff). exists bl.
  unfold offsets_ok in *. cbn. split_and!; (done || lia).
Qed.

Lemma step_clear_good h hs i : owned h hs -> allowed (OClear i) (h, hs) = true -> step_good (OClear i) h hs.
Proof.
  intros Hown Ha. cbn in Ha. apply andb_prop in Ha as [Hi Hv]. get_slot Hi b Hb.
  unfold step_good. cbn [step]. rewrite Hb. cbn. unfold clear. rewrite Hv. cbn.
  do 2 eexists. split; [reflexivity|]. apply (offsets_good h hs Hown i b); [done|done|].
  unfold handle_ok. cbn [control_]. destruct (control_ b); [|done].
  intros (bl & ? & ? & Hoff). exists bl. unfold offsets_ok in *. cbn. split_and!; (done || lia).
Qed.

Lemma step_reset_good h hs i : owned h hs -> allowed (OReset i) (h, hs) = true -> step_good (OReset i) h hs.
Proof.
  intros Hown Ha. cbn in Ha. apply andb_prop in Ha as [Hi Hv]. get_slot Hi b Hb.
  unfold step_good. cbn [step]. rewrite Hb. cbn. unfold reset. rewrite Hv. cbn.
  do 2 eexists. split; [reflexivity|]. apply (offsets_good h hs Hown i b); [done|done|].
  unfold handle_ok, capacity. cbn [control_]. destruct (control_ b); [|done].
  intros (bl & Hbl & Hblk & Hoff). exists bl. rewrite Hbl. unfold offsets_ok, block_ok in *. cbn.
  split_and!; (done || lia).
Qed.

Lemma step_destroy_good h hs i : owned h hs -> allowed (ODestroy i) (h, hs) = true -> step_good (ODestroy i) h hs.
Proof.
  intros Hown Ha. cbn in Ha. get_slot Ha b Hb.
  unfold step_good. cbn [step]. rewrite Hb. cbn. pose proof (lookup_owned h hs Hown i b Hb) as Ho.
  destruct (destroy_owned h b _ Ho) as (h' & -> & Ho' & _). cbn. eauto.
Qed.

Lemma step_allowed_good op h hs : owned h hs -> allowed op (h, hs) = true -> step_good op h hs.
Proof.
  destruct op; auto using step_allocate_good, step_copy_good, step_copy_assign_good, step_move_assign_good,
    step_slice_good, step_consume_good, step_commit_good, step_clear_good, step_reset_good, step_destroy_good.
Qed.

Lemma run_owned ops h hs :
  owned h hs -> exists h' hs', run ops (h, hs) = Some (h', hs') /\ owned h' hs'.
Proof.
  revert h hs. induction ops as [|op ops IH]; intros h hs Hown; cbn [run]; [eauto|].
  destruct (allowed op (h, hs)) eqn:Ha; [|eauto].
  destruct (step_allowed_good op h hs Hown Ha) as (h1 & hs1 & -> & Ho1). cbn. by apply IH.
Qed.

(** C37. No use after free, double free or leak: a program over buffer handles
    that respects sizes and does not saturate a count never fails an assertion
    or touches a freed block, whichever allocations fail; afterwards the count
    of every live block is the number of handles to it and every view lies in
    its block, so that when the last handle is gone no block is left. *)
Theorem run_handles_sound (ops : list Op) (failures : list bool) :
  exists h' hs', run ops (mkHeap ∅ 0 failures, []) = Some (h', hs') /\
    owned h' hs' /\
    (forall c, is_Some (blocks h' !! c) <-> 0 < count c hs') /\
    (hs' = [] -> blocks h' = ∅).
Proof.
  destruct (run_owned ops (mkHeap ∅ 0 failures) []) as (h' & hs' & Hrun & Hown).
  { split; [|constructor]. intros c bl Hbl. cbn [blocks] in Hbl. by rewrite lookup_empty in Hbl. }
  exists h', hs'. split; [done|]. split; [done|].
  assert (forall c, is_Some (blocks h' !! c) <-> 0 < count c hs') as Hlive.
  { intros c. split.
    - intros [bl Hbl]. destruct (owned_count _ _ Hown c bl Hbl) as (? & ? & _). lia.
    - intros Hpos. unfold count in Hpos.
      destruct (filter (fun b => control_ b = Some c) hs') as [|b l] eqn:E; [cbn in Hpos; lia|].
      assert (b ∈ filter (fun b => control_ b = Some c) hs') as Hin by (rewrite E; left).
      apply list_elem_of_filter in Hin as [Hc Hin].
      destruct (count_in_range h' hs' c b Hown Hin Hc) as (bl & Hbl & _). eauto. }
  split; [done|]. intros ->. apply map_eq. intros c. rewrite lookup_empty.
  destruct (blocks h' !! c) eqn:E; [|done]. specialize (Hlive c). rewrite E in Hlive.
  destruct Hlive as [Hlive _]. specialize (Hlive ltac:(eauto)). rewrite count_nil in Hlive. lia.
Qed.

(** ** Chains *)

Fixpoint total (f : IoBuf -> Z) (l : list IoBuf) : Z :=
  match l with [] => 0 | b :: l' => f b + total f l' end.

(** The counters of a chain are exact; only valid buffers are linked. *)
Record chain_ok (c : IoBufChain) : Prop := mkChainOk {
  chain_valid : Forall (fun b => valid b = true) (nodes c);
  chain_size : size_ c = Z.of_nat (length (nodes c));
  chain_size_fits : size_ c < 2 ^ 64;
  chain_readable : readable_bytes_ c = total readable (nodes c);
  chain_readable_fits : readable_bytes_ c < 2 ^ 64;
  chain_writable : writable_bytes_ c = total writable (nodes c);
  chain_writable_fits : writable_bytes_ c < 2 ^ 64 }.

Lemma readable_nonneg b : 0 <= readable b.
Proof. unfold readable. destruct (valid b); [|lia]. apply wrap_range. lia. Qed.

Lemma writable_nonneg b : 0 <= writable b.
Proof. unfold writable. destruct (valid b); [|lia]. apply wrap_range. lia. Qed.

Lemma total_nonneg f l : (forall b, 0 <= f b) -> 0 <= total f l.
Proof. intros Hf. induction l as [|b l IH]; cbn; [lia|]. specialize (Hf b).  lia. Qed.

Lemma total_app f l1 l2 : total f (l1 ++ l2) = total f l1 + total f l2.
Proof. induction l1 as [|b l1 IH]; cbn; [lia|].  lia. Qed.

Lemma length_bytes_of h b : handle_ok h b -> Z.of_nat (length (bytes_of h b)) = readable b.
Proof.
  intros Hok. rewrite (readable_handle h b Hok). unfold handle_ok in Hok. unfold bytes_of, valid.
  destruct (control_ b); [|done]. destruct Hok as (bl & -> & Hb & Ho).
  rewrite length_take, length_drop. unfold block_ok, offsets_ok in *. lia.
Qed.

Lemma length_chain_bytes h l :
  Forall (handle_ok h) l -> Z.of_nat (length (concat (map (bytes_of h) l))) = total readable l.
Proof.
  induction 1 as [|b l Hb _ IH]; [done|]. cbn [map concat total].
  rewrite length_app, Nat2Z.inj_add, (length_bytes_of h b Hb), IH. done.
Qed.

(** Consuming part of one buffer. *)
Lemma consume_spec h b n :
  handle_ok h b -> valid b = true -> 0 <= n <= readable b ->
  exists b', consume n b = Some b' /\ control_ b' = control_ b /\ valid b' = true /\ handle_ok h b' /\
    bytes_of h b' = drop (Z.to_nat n) (bytes_of h b) /\ readable b' = readable b - n /\ writable b' = writable b.
Proof.
  intros Hok Hv Hn. unfold consume. rewrite (proj2 (Z.leb_le _ _)) by lia.
  set (b' := mkBuf _ _ _ _ _). exists b'.
  assert (handle_ok h b') as Hok'.
  { rewrite (readable_handle h b Hok), Hv in Hn. unfold handle_ok in *. cbn [control_ b'].
    destruct (control_ b); [|done]. destruct Hok as (bl & ? & ? & Ho). exists bl.
    unfold offsets_ok in *. cbn. split_and!; (done || lia). }
  assert (valid b' = true) as Hv' by (by unfold valid in *).
  split; [done|]. split; [done|]. split; [done|]. split; [done|].
  rewrite (readable_handle h b Hok), (readable_handle h b' Hok'), Hv, Hv' in *.
  split; [|split; [cbn; lia|unfold writable; by rewrite Hv, Hv']].
  unfold bytes_of, handle_ok in *. cbn [control_ b' pos_ last_]. destruct (control_ b); [|done].
  destruct Hok as (bl & -> & _ & Ho). unfold offsets_ok in Ho.
  rewrite skipn_firstn_comm, drop_drop. f_equal; [lia|f_equal; lia].
Qed.

(** What a chain operation does to the nodes: [l] becomes [l'], some nodes
    released, [n] bytes read. *)
Record consumed (h : Heap) (l : list IoBuf) (n : Z) (h' : Heap) (l' : list IoBuf) (rest : list IoBuf) : Prop := mkConsumed {
  con_owned : owned h' (l' ++ rest);
  con_valid : Forall (fun b => valid b = true) l';
  con_same : same_storage h h' rest;
  con_bytes : concat (map (bytes_of h') l') = drop (Z.to_nat n) (concat (map (bytes_of h) l));
  con_readable : total readable l' = total readable l - n }.

Lemma same_storage_map h h' l :
  same_storage h h' l -> map (bytes_of h') l = map (bytes_of h) l.
Proof. intros Hs. apply map_ext_in. intros b Hin. apply Hs. by apply list_elem_of_In. Qed.

Lemma same_storage_app h h' l1 l2 :
  same_storage h h' (l1 ++ l2) <-> same_storage h h' l1 /\ same_storage h h' l2.
Proof.
  split.
  - intros Hs. split; intros b Hin; apply Hs, elem_of_app; auto.
  - intros [H1 H2] b Hin. apply elem_of_app in Hin as [Hin|Hin]; [by apply H1|by apply H2].
Qed.

Lemma same_storage_trans h h1 h2 l :
  same_storage h h1 l -> same_storage h1 h2 l -> same_storage h h2 l.
Proof.
  intros H1 H2 b Hin. destruct (H1 b Hin) as [E1 O1], (H2 b Hin) as [E2 O2].
  split; [congruence|auto].
Qed.

(** Destroying the front node of a chain whose bytes have all been read. *)
Lemma destroy_front h b l rest :
  owned h (b :: l ++ rest) ->
  exists h', destroy b h = Some h' /\ owned h' (l ++ rest) /\
    same_storage h h' rest /\ map (bytes_of h') l = map (bytes_of h) l.
Proof.
  intros Hown. destruct (destroy_owned h b (l ++ rest) Hown) as (h' & -> & Ho & Hs & _).
  apply same_storage_app in Hs as [Hl Hr]. exists h'. split; [done|]. split; [done|]. split; [done|].
  by apply same_storage_map.
Qed.

Lemma compact_loop_spec l n size w h rest :
  owned h (l ++ rest) -> Forall (fun b => valid b = true) l ->
  0 <= n <= total readable l ->
  size = Z.of_nat (length l) -> size < 2 ^ 64 -> w = total writable l -> w < 2 ^ 64 ->
  exists l' h', compact_loop l n size w h = Some (l', Z.of_nat (length l'), total writable l', h') /\
    consumed h l n h' l' rest /\ (length l' <= length l)%nat /\ total writable l' <= w.
Proof.
  revert n size w h. induction l as [|b l IH]; intros n size w h Hown Hval Hn Hsize Hsf Hw Hwf.
  { cbn in Hn. assert (n = 0) as -> by lia. exists [], h. subst. split; [done|].
    split; [|cbn; lia]. split; try done. }
  cbn [compact_loop]. apply Forall_cons in Hval as [Hv Hval].
  assert (handle_ok h b) as Hb.
  { pose proof (owned_handles _ _ Hown) as Hf. by apply Forall_cons in Hf as [? _]. }
  pose proof (readable_nonneg b) as Hrn. pose proof (total_nonneg readable l readable_nonneg) as Htn.
  pose proof (total_nonneg writable l writable_nonneg) as Htw. pose proof (writable_nonneg b) as Hwn.
  cbn [total] in Hn, Hw.
  destruct (Z.ltb_spec 0 n) as [Hpos|Hz]; cbn [negb].
  2:{ assert (n = 0) as -> by lia. exists (b :: l), h. subst. split; [done|].
      split; [|cbn [total]; lia].
      split; [done|by constructor|done|done|lia]. }
  destruct (Z.ltb_spec n (readable b)) as [Hlt|Hge].
  - destruct (consume_spec h b n Hb Hv ltac:(lia)) as (b' & -> & Hc & Hv' & Hok' & Hby & Hr & Hwr). cbn [mbind option_bind].
    exists (b' :: l), h. cbn [total length map concat]. rewrite Hwr, <-Hw.
    split; [by subst size|]. split; [|lia]. split.
    + cbn [app]. by apply (owned_replace h b b').
    + by constructor.
    + done.
    + cbn [map concat]. rewrite Hby, drop_app_le; [done|]. pose proof (length_bytes_of h b Hb). lia.
    + cbn [total]. rewrite Hr. lia.
  - destruct (consume_spec h b (readable b) Hb Hv ltac:(lia)) as (b' & -> & Hc & Hv' & Hok' & Hby & Hr & Hwr). cbn [mbind option_bind].
    assert (owned h (b' :: l ++ rest)) as Hown' by (by apply (owned_replace h b b')).
    destruct (destroy_front h b' l rest Hown') as (h1 & -> & Ho1 & Hs1 & Hm1). cbn [mbind option_bind].
    rewrite Hwr. rewrite (wrap_small 64 (w - writable b)), (wrap_small 64 (size - 1))
      by (unfold in_width; cbn [length] in Hsize; lia).
    destruct (IH (n - readable b) (size - 1) (w - writable b) h1 Ho1 Hval ltac:(lia)
                ltac:(cbn [length] in Hsize; lia) ltac:(lia) ltac:(lia) ltac:(lia))
      as (l' & h2 & -> & [Hc1 Hc2 Hc3 Hc4 Hc5] & Hlen & Hwle).
    exists l', h2. split; [done|]. split; [|cbn [length]; lia]. split; [done|done| | |].
    + by apply (same_storage_trans h h1 h2).
    + rewrite Hc4, Hm1. cbn [map concat].
      pose proof (length_bytes_of h b Hb) as Hlb.
      replace (Z.to_nat n) with (length (bytes_of h b) + Z.to_nat (n - readable b))%nat by lia.
      by rewrite <-drop_drop, drop_app_length.
    + cbn [total]. lia.
Qed.

Lemma consume_nodes_bytes h l n :
  Forall (handle_ok h) l -> Forall (fun b => valid b = true) l -> 0 <= n <= total readable l ->
  exists l', consume_nodes l n = Some l' /\
    concat (map (bytes_of h) l') = drop (Z.to_nat n) (concat (map (bytes_of h) l)) /\
    total readable l' = total readable l - n /\ total writable l' = total writable l /\ length l' = length l /\
    map control_ l' = map control_ l.
Proof.
  intros Hok Hval. revert n. induction l as [|b l IH]; intros n Hn.
  { cbn in Hn. assert (n = 0) as -> by lia. exists []. done. }
  apply Forall_cons in Hok as [Hb Hok]. apply Forall_cons in Hval as [Hv Hval]. cbn [consume_nodes].
  pose proof (readable_nonneg b) as Hrn. cbn [total] in Hn.
  destruct (Z.ltb_spec 0 n) as [Hpos|Hz]; cbn [negb].
  2:{ assert (n = 0) as -> by lia. exists (b :: l). rewrite Z.sub_0_r. done. }
  destruct (Z.ltb_spec n (readable b)) as [Hlt|Hge].
  - destruct (consume_spec h b n Hb Hv ltac:(lia)) as (b' & -> & Hc & _ & _ & Hby & Hr & Hwr). cbn [mbind option_bind].
    exists (b' :: l). cbn [map concat total length]. rewrite Hby, Hwr, Hr, Hc.
    split; [done|]. split; [|split_and!; (done || lia)].
    rewrite drop_app_le; [done|]. pose proof (length_bytes_of h b Hb). lia.
  - destruct (consume_spec h b (readable b) Hb Hv ltac:(lia)) as (b' & -> & Hc & _ & _ & Hby & Hr & Hwr). cbn [mbind option_bind].
    destruct (IH Hok Hval (n - readable b) ltac:(lia)) as (l' & -> & Hl1 & Hl2 & Hl3 & Hl4 & Hl5). cbn [mbind option_bind].
    exists (b' :: l'). cbn [map concat total length].
    rewrite Hby, Hl1, Hl2, Hl3, Hl4, Hwr, Hr, Hc, Hl5.
    pose proof (length_bytes_of h b Hb) as Hlb.
    split; [done|]. split; [|split_and!; (done || lia)].
    rewrite drop_ge by lia. cbn [app].
    replace (Z.to_nat n) with (length (bytes_of h b) + Z.to_nat (n - readable b))%nat by lia.
    by rewrite <-drop_drop, drop_app_length.
Qed.

(** [consume_and_compact n] reads exactly the next [n] bytes of a chain: what
    remains is the rest of the byte stream, the same that the non-compacting
    [consume n] leaves; the three counters stay exact; the nodes it passes are
    released (and only they: every other handle keeps its bytes and the counts
    stay exact), and no assertion fails. *)
Theorem consume_and_compact_spec (h : Heap) (c : IoBufChain) (rest : list IoBuf) (n : Z) :
  owned h (nodes c ++ rest) -> chain_ok c -> 0 <= n <= readable_bytes_ c ->
  exists c' h' c2, consume_and_compact n c h = Some (c', h') /\
    owned h' (nodes c' ++ rest) /\ chain_ok c' /\ same_storage h h' rest /\
    chain_bytes h' c' = drop (Z.to_nat n) (chain_bytes h c) /\
    readable_bytes_ c' = readable_bytes_ c - n /\
    consume_chain n c = Some c2 /\ chain_ok c2 /\ chain_bytes h c2 = chain_bytes h' c'.
Proof.
  intros Hown [Hval Hsize Hsf Hr Hrf Hw Hwf] Hn.
  destruct (compact_loop_spec (nodes c) n (size_ c) (writable_bytes_ c) h rest) as (l' & h' & Hl & [H1 H2 H3 H4 H5] & Hlen & Hwle);
    try done; [lia|].
  assert (Forall (handle_ok h) (nodes c)) as Hok.
  { pose proof (owned_handles _ _ Hown) as Hf. by apply Forall_app in Hf as [? _]. }
  destruct (consume_nodes_bytes h (nodes c) n Hok Hval ltac:(lia)) as (l2 & Hl2 & Hb2 & Hr2 & Hw2 & Hlen2 & Hc2).
  exists (mkChain l' (Z.of_nat (length l')) (readable_bytes_ c - n) (total writable l')), h',
    (mkChain l2 (size_ c) (readable_bytes_ c - n) (writable_bytes_ c)).
  unfold consume_and_compact, consume_chain. rewrite (proj2 (Z.leb_le _ _)) by lia. rewrite Hl, Hl2.
  split; [done|]. split; [done|]. split; [split; cbn; (done || lia)|]. split; [done|]. split; [done|].
  split; [done|]. split; [done|]. split; [|unfold chain_bytes; cbn; by rewrite Hb2].
  split; cbn; try (done || lia).
  apply Forall_forall. intros b Hin.
  assert (control_ b ∈ map control_ (nodes c)) as Hin'.
  { rewrite <-Hc2. apply list_elem_of_In, in_map, list_elem_of_In, Hin. }
  apply list_elem_of_In, in_map_iff in Hin' as (b0 & Hb0 & Hin0). apply list_elem_of_In in Hin0.
  apply (proj1 (Forall_forall _ _) Hval) in Hin0. unfold valid in *. by rewrite <-Hb0.
Qed.

Lemma consume_and_compact_spec_witness :
  let bl x := mkBlock 1 4 x in
  let h := mkHeap {[0 := bl [1; 2; 3; 4]; 1 := bl [5; 6; 7; 8]]} 2 [] in
  let c := mkChain [mkBuf (Some 0) 0 4 1 4; mkBuf (Some 1) 0 4 0 3] 2 6 1 in
  exists c' h', consume_and_compact 4 c h = Some (c', h') /\ chain_bytes h' c' = [6; 7] /\ chain_ok c'.
Proof.
  intros bl h c.
  destruct (consume_and_compact_spec h c [] 4) as (c' & h' & _ & Hrun & _ & Hok & _ & Hb & _).
  - split.
    + intros a b Hb. unfold h in Hb. cbn [blocks] in Hb. apply lookup_insert_Some in Hb as [[<- <-]|[_ Hb]]; [vm_compute; intuition congruence|].
      apply lookup_singleton_Some in Hb as [<- <-]. vm_compute. intuition congruence.
    + repeat constructor; unfold handle_ok; cbn [control_]; eexists;
        (split; [vm_compute; reflexivity|]); vm_compute; intuition congruence.
  - split; try (vm_compute; intuition congruence). repeat constructor.
  - vm_compute. intuition congruence.
  - exists c', h'. split; [exact Hrun|]. split; [|exact Hok]. rewrite Hb. vm_compute. reflexivity.
Defined.

(** *** [retain_prefix] *)

Lemma append_cases buf c h :
  valid buf = true ->
  exists (ok : bool) h', blocks h' = blocks h /\ next_block h' = next_block h /\
    append buf c h = (ok, (if ok then mkChain (nodes c ++ [buf]) (u64 (size_ c + 1))
                             (u64 (readable_bytes_ c + readable buf)) (u64 (writable_bytes_ c + writable buf))
                           else c), h').
Proof.
  intros Hv. unfold append, operator_new. rewrite Hv. cbn [negb].
  destruct (oom h) as [|f fs]; [exists true, h; done|].
  exists (negb f), (mkHeap (blocks h) (next_block h) fs). by destruct f.
Qed.

Lemma owned_blocks h h' hs :
  blocks h' = blocks h -> next_block h' = next_block h -> owned h hs -> owned h' hs.
Proof.
  intros Hb Hn [H1 H2]. split; [rewrite Hb, Hn; exact H1|].
  eapply Forall_impl; [exact H2|]. intros b. unfold handle_ok. by rewrite Hb.
Qed.

Lemma same_storage_blocks h h' hs : blocks h' = blocks h -> same_storage h h' hs.
Proof. intros Hb b _. unfold bytes_of, handle_ok. by rewrite Hb. Qed.

Lemma clear_chain_owned c h rest :
  owned h (nodes c ++ rest) ->
  exists h', clear_chain c h = Some (empty_chain, h') /\ owned h' rest /\ same_storage h h' rest.
Proof.
  unfold clear_chain. generalize (nodes c) as l. intros l. revert h.
  induction l as [|b l IH]; intros h Hown; cbn [delete_nodes].
  - exists h. split; [done|]. split; [done|]. by intros ? ?.
  - destruct (destroy_owned h b (l ++ rest) Hown) as (h1 & -> & Ho1 & Hs1 & _). cbn [mbind option_bind].
    destruct (IH h1 Ho1) as (h2 & Hd & Ho2 & Hs2).
    exists h2. split; [done|]. split; [done|].
    apply same_storage_app in Hs1 as [_ Hs1]. by apply (same_storage_trans h h1 h2).
Qed.

(** Every block can take as many more references as [l] has nodes. *)
Definition room (h : Heap) (l : list IoBuf) (hs : list IoBuf) : Prop :=
  forall c, count c hs + Z.of_nat (length l) < 2 ^ 32 - 1.

Lemma slice_bytes h b n :
  handle_ok h b -> valid b = true -> 0 <= n <= readable b ->
  forall c, control_ b = Some c ->
  let s := mkBuf (Some c) (pos_ b + 0) (pos_ b + 0 + n) (pos_ b + 0) (pos_ b + 0 + n) in
  bytes_of h s = take (Z.to_nat n) (bytes_of h b) /\ readable s = n /\ writable s = 0 /\ valid s = true.
Proof.
  intros Hok Hv Hn c Hc s. rewrite (readable_handle h b Hok), Hv in Hn.
  unfold handle_ok in Hok. rewrite Hc in Hok. destruct Hok as (bl & Hbl & Hb & Ho).
  unfold block_ok, offsets_ok in *. split; [|split; [|split; [|done]]].
  - unfold bytes_of. cbn [control_ s pos_ last_]. rewrite Hc, Hbl, take_take.
    f_equal; [lia|f_equal; lia].
  - unfold readable. cbn. rewrite wrap_small by (unfold in_width; lia). lia.
  - unfold writable. cbn. rewrite wrap_small by (unfold in_width; lia). lia.
Qed.

(** What the loop guarantees: the source [src] keeps its bytes, [out] gets the
    next [n] of the remaining nodes [l] or, when a node cannot be allocated,
    is emptied. *)
Lemma retain_loop_spec src l n out h rest :
  owned h (src ++ nodes out ++ rest) -> (forall b, b ∈ l -> b ∈ src) ->
  Forall (fun b => valid b = true) l -> chain_ok out -> room h l (src ++ nodes out ++ rest) ->
  0 <= n <= total readable l -> readable_bytes_ out + n < 2 ^ 64 ->
  size_ out + Z.of_nat (length l) < 2 ^ 64 ->
  exists ok rem out' h', retain_loop l n out h = Some (ok, rem, out', h') /\
    owned h' (src ++ nodes out' ++ rest) /\ same_storage h h' (src ++ rest) /\ chain_ok out' /\
    if ok then rem = 0 /\ chain_bytes h' out' = chain_bytes h out ++ take (Z.to_nat n) (concat (map (bytes_of h) l))
    else nodes out' = [].
Proof.
  revert n out h. induction l as [|b l IH]; intros n out h Hown Hin Hval Hout Hroom Hn Hfit Hsz.
  { cbn in Hn. assert (n = 0) as -> by lia. exists true, 0, out, h. split; [done|]. split; [done|].
    split; [by intros ? ?|]. split; [done|]. split; [done|]. by rewrite app_nil_r. }
  cbn [retain_loop]. apply Forall_cons in Hval as [Hv Hval].
  assert (b ∈ src) as Hbsrc by (apply Hin; left).
  assert (handle_ok h b) as Hb.
  { apply (proj1 (Forall_forall _ _) (owned_handles _ _ Hown)). apply elem_of_app. by left. }
  pose proof (length_bytes_of h b Hb) as Hlb. pose proof (readable_nonneg b) as Hrn.
  cbn [total length] in Hn, Hsz.
  assert (room h l (src ++ nodes out ++ rest)) as Hroom'.
  { intros c. specialize (Hroom c). cbn [length] in Hroom. lia. }
  destruct (Z.ltb_spec 0 n) as [Hpos|Hz]; cbn [negb].
  2:{ assert (n = 0) as -> by lia. exists true, 0, out, h. split; [done|]. split; [done|].
      split; [by intros ? ?|]. split; [done|]. split; [done|]. by rewrite app_nil_r. }
  destruct (Z.eqb_spec (readable b) 0) as [Hz|Hnz].
  { destruct (IH n out h) as (ok & rem & out' & h' & Hrun & Ho & Hs & Hok & Hres); try done; try lia.
    { intros b' Hb'. apply Hin. by right. }
    exists ok, rem, out', h'. split; [done|]. split; [done|]. split; [done|]. split; [done|].
    destruct ok; [|done]. destruct Hres as [-> ->]. split; [done|]. cbn [map concat].
    destruct (bytes_of h b); [done|cbn in Hlb; lia]. }
  set (t := Z.min (readable b) n).
  assert (not_saturated h b = true) as Hsat.
  { unfold not_saturated. rewrite Hv. cbn [negb orb]. apply Z.ltb_lt.
    unfold use_count. unfold valid in Hv. destruct (control_ b) as [c|] eqn:Hc; [|done].
    assert (b ∈ src ++ nodes out ++ rest) as Hball by (apply elem_of_app; by left).
    destruct (count_in_range h _ c b Hown Hball Hc) as (bl & -> & ->).
    specialize (Hroom c). cbn [length] in Hroom. lia. }
  destruct (slice_owned h _ b 0 t Hown ltac:(apply elem_of_app; by left) Hv Hsat ltac:(lia) ltac:(lia) ltac:(lia))
    as (c & h1 & Hc & Hslice & Ho1 & Hs1 & _).
  destruct (slice_bytes h b t Hb Hv ltac:(lia) c Hc) as (Hsb & Hsr & Hsw & Hsv).
  rewrite Hslice. cbn [mbind option_bind]. set (s := mkBuf _ _ _ _ _) in *.
  destruct (append_cases s out h1 Hsv) as (ok & h2 & Hbl2 & Hnx2 & ->).
  apply (owned_blocks h1 h2) in Ho1; [|done..].
  assert (same_storage h h2 (src ++ nodes out ++ rest)) as Hs2
    by (by apply (same_storage_trans h h1 h2), same_storage_blocks).
  destruct ok; cbn [negb].
  - set (out1 := mkChain _ _ _ _).
    assert (chain_ok out1) as Hout1.
    { destruct Hout as [A B C D E F G]. split; unfold out1; cbn [nodes size_ readable_bytes_ writable_bytes_].
      all: rewrite ?Hsr, ?Hsw, ?total_app, ?wrap_small by (unfold in_width; pose proof (total_nonneg readable (nodes out) readable_nonneg); pose proof (total_nonneg writable (nodes out) writable_nonneg); lia).
      all: rewrite ?length_app; cbn [total length]; rewrite ?Hsr, ?Hsw; try lia.
      apply Forall_app. split; [done|by constructor]. }
    assert (owned h2 (src ++ nodes out1 ++ rest)) as Ho2.
    { unfold out1. cbn [nodes]. rewrite <-app_assoc. cbn [app].
      eapply owned_perm; [|exact Ho1]. rewrite !(app_assoc src). by rewrite <-Permutation_middle. }
    destruct (IH (n - t) out1 h2) as (ok & rem & out' & h' & Hrun & Ho & Hs & Hok & Hres); try done.
    { intros b' Hb'. apply Hin. by right. }
    { intros c'. specialize (Hroom c'). unfold out1. cbn [nodes length] in *.
      rewrite !count_app, count_cons, count_nil in *. case_decide; lia. }
    { pose proof (total_nonneg readable l readable_nonneg). lia. }
    { unfold out1. cbn [readable_bytes_]. rewrite Hsr, wrap_small; [lia|].
      unfold in_width. pose proof (chain_readable _ Hout).
      pose proof (total_nonneg readable (nodes out) readable_nonneg). lia. }
    { unfold out1. cbn [size_]. rewrite wrap_small; [lia|]. unfold in_width. pose proof (chain_size _ Hout). lia. }
    exists ok, rem, out', h'. split; [done|]. split; [done|]. split.
    { apply (same_storage_trans h h2 h'); [|done].
      apply same_storage_app in Hs2 as [A B]. apply same_storage_app in B as [_ B].
      by apply same_storage_app. }
    split; [done|]. destruct ok; [|done]. destruct Hres as [-> ->]. split; [done|].
    assert (chain_bytes h2 out1 = chain_bytes h out ++ bytes_of h s) as ->.
    { unfold chain_bytes, out1. cbn [nodes]. rewrite map_app, concat_app. cbn [map concat].
      rewrite app_nil_r. f_equal.
      - f_equal. apply same_storage_map. apply same_storage_app in Hs2 as [_ Hs2].
        by apply same_storage_app in Hs2 as [Hs2 _].
      - unfold bytes_of. cbn [control_ s]. rewrite Hbl2.
        specialize (Hs1 b ltac:(apply elem_of_app; by left)). destruct Hs1 as [Hs1 _].
        (* the block of [b] keeps its storage *)
        unfold retain_slice in Hslice. rewrite Hc in Hslice. cbn [mbind option_bind] in Hslice.
        destruct (_ && _) in Hslice; [|done]. unfold retain in Hslice.
        destruct (blocks h !! c) as [bl|] eqn:Ebl; [|done]. cbn [mbind option_bind] in Hslice.
        destruct (_ && _) in Hslice; [|done]. cbn [mbind option_bind] in Hslice.
        injection Hslice as <-. cbn [blocks with_blocks]. by rewrite lookup_insert_eq. }
    assert (map (bytes_of h2) l = map (bytes_of h) l) as ->.
    { apply same_storage_map. intros b' Hb'. apply Hs2. apply elem_of_app. left. apply Hin. by right. }
    rewrite <-app_assoc, Hsb. cbn [map concat]. f_equal.
    rewrite take_app. unfold t. destruct (Z.le_gt_cases (readable b) n).
    + rewrite Z.min_l by lia. rewrite !(take_ge (bytes_of h b)) by lia. do 2 f_equal. lia.
    + rewrite Z.min_r by lia. replace (Z.to_nat (n - n)) with 0%nat by lia.
      by replace (Z.to_nat n - length (bytes_of h b))%nat with 0%nat by lia.
  - destruct (destroy_owned h2 s _ Ho1) as (h3 & -> & Ho3 & Hs3 & _). cbn [mbind option_bind].
    assert (owned h3 (nodes out ++ (src ++ rest))) as Ho3'.
    { eapply owned_perm; [|exact Ho3]. apply Permutation_app_swap_app. }
    destruct (clear_chain_owned out h3 (src ++ rest) Ho3') as (h4 & -> & Ho4 & Hs4). cbn [mbind option_bind].
    exists false, n, empty_chain, h4. split; [done|]. split; [done|]. split.
    { apply (same_storage_trans h h3 h4); [|done]. apply (same_storage_trans h h2 h3).
      - apply same_storage_app in Hs2 as [A B]. apply same_storage_app in B as [_ B]. by apply same_storage_app.
      - apply same_storage_app in Hs3 as [A B]. apply same_storage_app in B as [_ B]. by apply same_storage_app. }
    split; [|done]. split; try (vm_compute; done).
Qed.

(** [retain_prefix n] shares the next [n] bytes of a chain with another one
    without copying: the output gets exactly those bytes behind its own, the
    source keeps all of its bytes, and the counts account for the new
    references; when a node cannot be allocated it reports failure, the output
    is emptied and every reference it held is given back. *)
Theorem retain_prefix_shares (h : Heap) (c out : IoBufChain) (rest : list IoBuf) (n : Z) :
  owned h (nodes c ++ nodes out ++ rest) -> chain_ok c -> chain_ok out ->
  room h (nodes c) (nodes c ++ nodes out ++ rest) ->
  0 <= n <= readable_bytes_ c -> readable_bytes_ out + n < 2 ^ 64 -> size_ out + size_ c < 2 ^ 64 ->
  exists ok out' h', retain_prefix c n out h = Some (ok, out', h') /\
    owned h' (nodes c ++ nodes out' ++ rest) /\ chain_ok out' /\
    chain_bytes h' c = chain_bytes h c /\ same_storage h h' rest /\
    if ok then chain_bytes h' out' = chain_bytes h out ++ take (Z.to_nat n) (chain_bytes h c)
    else nodes out' = [].
Proof.
  intros Hown Hc Hout Hroom Hn Hfit Hsz. unfold retain_prefix. rewrite (proj2 (Z.leb_le _ _)) by lia.
  destruct (retain_loop_spec (nodes c) (nodes c) n out h rest) as (ok & rem & out' & h' & -> & Ho & Hs & Hok & Hres);
    try done.
  { by apply chain_valid. }
  { by rewrite <-(chain_readable _ Hc). }
  { by rewrite <-(chain_size _ Hc). }
  cbn [mbind option_bind]. apply same_storage_app in Hs as [Hsc Hsr].
  assert (chain_bytes h' c = chain_bytes h c) as Hcb by (unfold chain_bytes; f_equal; by apply same_storage_map).
  destruct ok; cbn [negb].
  - destruct Hres as [-> Hby]. exists true, out', h'. done.
  - exists false, out', h'. done.
Qed.

Lemma retain_prefix_shares_witness :
  let h := mkHeap {[0 := mkBlock 1 4 [1; 2; 3; 4]]} 1 [] in
  let c := mkChain [mkBuf (Some 0) 0 4 1 4] 1 3 0 in
  exists out' h', retain_prefix c 2 empty_chain h = Some (true, out', h') /\ chain_bytes h' out' = [2; 3] /\
    chain_bytes h' c = [2; 3; 4].
Proof.
  intros h c.
  destruct (retain_prefix_shares h c empty_chain [] 2) as (ok & out' & h' & Hrun & _ & _ & Hc & _ & Hb).
  - split.
    + intros a b Hb. unfold h in Hb. cbn [blocks] in Hb. apply lookup_singleton_Some in Hb as [<- <-]. vm_compute. intuition congruence.
    + repeat constructor. unfold handle_ok; cbn [control_]; eexists;
        (split; [vm_compute; reflexivity|]); vm_compute; intuition congruence.
  - split; try (vm_compute; intuition congruence). repeat constructor.
  - split; try (vm_compute; intuition congruence). constructor.
  - intros x. unfold count. cbn [nodes c app empty_chain]. rewrite filter_cons. case_decide; cbn; lia.
  - vm_compute. intuition congruence.
  - vm_compute. intuition congruence.
  - vm_compute. intuition congruence.
  - pose proof Hrun as Hr. vm_compute in Hr. injection Hr as <- _ _.
    exists out', h'. split; [exact Hrun|]. split; [rewrite Hb|rewrite Hc]; vm_compute; reflexivity.
Defined.

End IoBuf.
