(* ===== verification/HttpHeaders.v ===== *)
(** * Header tables
    ([HttpHeaders] of [src/http/HttpHeaders.h], [HttpHeaders.cpp])

    A table is a store of [HeaderField] nodes linked twice: every node is in the
    doubly linked list of all fields, in the order of insertion, and in the
    singly linked chain of its hash bucket, newest first.  The store maps node
    addresses to nodes; an access through a null or unknown pointer is [Fault],
    the [std::bad_alloc] thrown by the bucket vector is [BadAlloc].  The
    allocations of the pool are an oracle: the list of those that fail.

    Section [Refinement] shows that the table implements an ordered multimap
    with case-insensitive names. *)
From S2P Require Import Prelude.

Module Headers.

(** ** Data *)

(** The views [name_view], [lowcase_view] and [value_view] are the bytes the
    three pointers designate; [name_len] and [value_len] are their lengths. *)
Record HeaderField := mkField {
  name : list Z; lowcase_name : list Z; value : list Z; name_hash : Z;
  next_bucket : option Z; next_all : option Z; prev_all : option Z }.

Record HttpHeaders := mkHeaders {
  fields : gmap Z HeaderField; next_field : Z; pool_ : list bool;
  bucket_head_ : list (option Z); all_head_ : option Z; all_tail_ : option Z; size_ : Z }.

(** The constructor. *)
Definition construct (pool : list bool) : HttpHeaders := mkHeaders ∅ 1 pool [] None None 0.

(** ** Effects *)

Inductive Result (A : Type) := Value (a : A) (s : HttpHeaders) | BadAlloc (s : HttpHeaders) | Fault.
Arguments Value {A}.
Arguments BadAlloc {A}.
Arguments Fault {A}.

Definition M (A : Type) : Type := HttpHeaders -> Result A.

Definition ret {A} (a : A) : M A := fun s => Value a s.
Definition bind {A B} (m : M A) (f : A -> M B) : M B := fun s =>
  match m s with Value a s' => f a s' | BadAlloc s' => BadAlloc s' | Fault => Fault end.

Declare Scope headers_scope.
Delimit Scope headers_scope with headers.
Notation "x <- m ;; k" := (bind m (fun x => k)) (at level 100, m at next level, right associativity) : headers_scope.
Notation "m ;; k" := (bind m (fun _ => k)) (at level 100, right associativity) : headers_scope.
#[local] Open Scope headers_scope.

Definition gets {A} (f : HttpHeaders -> A) : M A := fun s => Value (f s) s.
Definition modify (f : HttpHeaders -> HttpHeaders) : M unit := fun s => Value tt (f s).
Definition fault {A} : M A := fun _ => Fault.
Definition bad_alloc {A} : M A := fun s => BadAlloc s.

Definition set_fields (v : gmap Z HeaderField) (s : HttpHeaders) : HttpHeaders :=
  mkHeaders v (next_field s) (pool_ s) (bucket_head_ s) (all_head_ s) (all_tail_ s) (size_ s).
Definition set_bucket_head (v : list (option Z)) (s : HttpHeaders) : HttpHeaders :=
  mkHeaders (fields s) (next_field s) (pool_ s) v (all_head_ s) (all_tail_ s) (size_ s).
Definition set_all_head (v : option Z) (s : HttpHeaders) : HttpHeaders :=
  mkHeaders (fields s) (next_field s) (pool_ s) (bucket_head_ s) v (all_tail_ s) (size_ s).
Definition set_all_tail (v : option Z) (s : HttpHeaders) : HttpHeaders :=
  mkHeaders (fields s) (next_field s) (pool_ s) (bucket_head_ s) (all_head_ s) v (size_ s).
Definition set_size (v : Z) (s : HttpHeaders) : HttpHeaders :=
  mkHeaders (fields s) (next_field s) (pool_ s) (bucket_head_ s) (all_head_ s) (all_tail_ s) v.

Definition with_next_bucket (v : option Z) (f : HeaderField) : HeaderField :=
  mkField (name f) (lowcase_name f) (value f) (name_hash f) v (next_all f) (prev_all f).
Definition with_next_all (v : option Z) (f : HeaderField) : HeaderField :=
  mkField (name f) (lowcase_name f) (value f) (name_hash f) (next_bucket f) v (prev_all f).
Definition with_prev_all (v : option Z) (f : HeaderField) : HeaderField :=
  mkField (name f) (lowcase_name f) (value f) (name_hash f) (next_bucket f) (next_all f) v.

(** [*p] and [p->... = ...] *)
Definition load (p : option Z) : M HeaderField := fun s =>
  match p ≫= fun a => fields s !! a with Some f => Value f s | None => Fault end.
Definition update (p : option Z) (g : HeaderField -> HeaderField) : M unit := fun s =>
  match p with
  | Some a => match fields s !! a with
              | Some f => Value tt (set_fields (<[a := g f]> (fields s)) s)
              | None => Fault
              end
  | None => Fault
  end.

(** [pool_->alloc] of a positive size: whether it returned memory. *)
Definition pool_alloc : M bool := fun s =>
  match pool_ s with
  | [] => Value true s
  | f :: rest => Value (negb f) (mkHeaders (fields s) (next_field s) rest (bucket_head_ s)
                                           (all_head_ s) (all_tail_ s) (size_ s))
  end.

(** ** Hashing and comparison *)

Definition lower (ch : Z) : Z :=
  if (chr "A" <=? ch) && (ch <=? chr "Z") then u8 (ch - chr "A" + chr "a") else ch.

Definition hash_name (name : list Z) : Z :=
  foldl (fun hash ch => u32 (u32 (hash * 31) + lower ch)) 0 name.

Fixpoint equals_ascii_ci_loop (a b : list Z) : bool :=
  match a, b with
  | x :: a', y :: b' => if negb (lower x =? lower y) then false else equals_ascii_ci_loop a' b'
  | _, _ => true
  end.

Definition equals_ascii_ci (a b : list Z) : bool :=
  if negb (length a =? length b)%nat then false else equals_ascii_ci_loop a b.

Definition next_pow2 (value : Z) : Z :=
  if value <=? 1 then 1
  else
    let value := value - 1 in
    let value := Z.lor value (Z.shiftr value 1) in
    let value := Z.lor value (Z.shiftr value 2) in
    let value := Z.lor value (Z.shiftr value 4) in
    let value := Z.lor value (Z.shiftr value 8) in
    let value := Z.lor value (Z.shiftr value 16) in
    let value := Z.lor value (Z.shiftr value 32) in
    u64 (value + 1).

(** [to_lowcase_and_hash]: the lower case copy and the hash of a name. *)
Definition to_lowcase_and_hash (name : list Z) : list Z * Z := (map lower name, hash_name name).

(** ** Buckets *)

Definition kDefaultBuckets : Z := 32.
Definition max_u32 : Z := 2 ^ 32 - 1.

(** [hash & (bucket_head_.size() - 1)] *)
Definition bucket_index (count : nat) (hash : Z) : Z := u32 (Z.land hash (u64 (Z.of_nat count - 1))).

Definition bucket_of (hash : Z) (s : HttpHeaders) : Z := bucket_index (length (bucket_head_ s)) hash.

Definition init_buckets (count : Z) : M unit :=
  let count := if count =? 0 then kDefaultBuckets else count in
  let count := next_pow2 count in
  let count := if count <? kDefaultBuckets then kDefaultBuckets else count in
  ok <- pool_alloc;;
  if ok then modify (set_bucket_head (replicate (Z.to_nat count) None))
  else bad_alloc.

Definition ensure_buckets : M bool :=
  empty <- gets (fun s => (length (bucket_head_ s) =? 0)%nat);;
  (if empty then init_buckets kDefaultBuckets else ret tt);;
  gets (fun s => negb (length (bucket_head_ s) =? 0)%nat).

(** [bucket_head_[bucket]]: [std::vector::operator[]], undefined out of range. *)
Definition get_bucket (bucket : Z) : M (option Z) := fun s =>
  match bucket_head_ s !! Z.to_nat bucket with Some h => Value h s | None => Fault end.
Definition put_bucket (bucket : Z) (h : option Z) : M unit := fun s =>
  if decide (Z.to_nat bucket < length (bucket_head_ s))%nat
  then Value tt (set_bucket_head (<[Z.to_nat bucket := h]> (bucket_head_ s)) s)
  else Fault.

(** The loop of [rebuild_buckets] over the list of all fields. *)
Fixpoint rebuild_loop (fuel : nat) (node : option Z) : M unit :=
  match fuel, node with
  | _, None => ret tt
  | O, Some _ => fault
  | S fuel', Some _ =>
      f <- load node;;
      bucket <- gets (bucket_of (name_hash f));;
      h <- get_bucket bucket;;
      update node (with_next_bucket h);;
      put_bucket bucket node;;
      f <- load node;;
      rebuild_loop fuel' (next_all f)
  end.

(** Enough iterations for every chain of distinct nodes. *)
Definition node_fuel : M nat := gets (fun s => S (size (fields s))).

Definition fill_null (s : HttpHeaders) : HttpHeaders :=
  set_bucket_head (replicate (length (bucket_head_ s)) None) s.

Definition rebuild_buckets : M unit :=
  empty <- gets (fun s => (length (bucket_head_ s) =? 0)%nat);;
  if empty then ret tt
  else
    modify fill_null;;
    fuel <- node_fuel;;
    head <- gets all_head_;;
    rebuild_loop fuel head.

Definition reserve_bytes (bytes : Z) : M unit :=
  let estimated_fields := u64 (bytes / 32 + 8) in
  let buckets := next_pow2 (Z.max kDefaultBuckets (u64 (estimated_fields * 2))) in
  n <- gets (fun s => Z.of_nat (length (bucket_head_ s)));;
  if n <? buckets then
    init_buckets buckets;;
    rebuild_buckets
  else ret tt.

Definition clear : M unit :=
  modify (fun s => fill_null (set_size 0 (set_all_tail None (set_all_head None s)))).

Definition release : M unit :=
  modify (fun s => set_bucket_head [] (set_size 0 (set_all_tail None (set_all_head None s)))).

(** ** Adding *)

Definition copy_to_pool (data : list Z) : M (option (list Z)) :=
  if (length data =? 0)%nat then ret (Some [])
  else ok <- pool_alloc;; if negb ok then ret None else ret (Some data).

(** The lower case copy, and the hash (0 when there is no copy). *)
Definition copy_lowercase_to_pool (data : list Z) : M (option (list Z) * Z) :=
  if (length data =? 0)%nat then ret (Some [], 0)
  else ok <- pool_alloc;;
       if negb ok then ret (None, 0) else ret (Some (map lower data), hash_name data).

(** [pool_->alloc(sizeof(HeaderField))]; the memory is not initialised. *)
Definition alloc_field : M (option Z) :=
  ok <- pool_alloc;;
  if negb ok then ret None
  else fun s => Value (Some (next_field s))
                      (mkHeaders (<[next_field s := mkField [] [] [] 0 None None None]> (fields s))
                                 (next_field s + 1) (pool_ s) (bucket_head_ s) (all_head_ s)
                                 (all_tail_ s) (size_ s)).

Definition init_field (field : Z) (name lowcase value : list Z) (hash : Z) : M unit :=
  update (Some field) (fun _ => mkField name lowcase value hash None None None).

Definition link_field (field : Z) : M (option Z) :=
  f <- load (Some field);;
  bucket <- gets (bucket_of (name_hash f));;
  h <- get_bucket bucket;;
  update (Some field) (with_next_bucket h);;
  put_bucket bucket (Some field);;
  head <- gets all_head_;;
  match head with
      | None => modify (fun s => set_all_tail (Some field) (set_all_head (Some field) s))
      | Some _ =>
          tail <- gets all_tail_;;
          update (Some field) (with_prev_all tail);;
          update tail (with_next_all (Some field));;
          modify (set_all_tail (Some field))
      end;;
  modify (fun s => set_size (u64 (size_ s + 1)) s);;
  ret (Some field).

Definition too_long (name value : list Z) : bool :=
  (max_u32 <? Z.of_nat (length name)) || (max_u32 <? Z.of_nat (length value)).

(** The common end of the four functions that add: [alloc_field], [init_field]
    and [link_field]. *)
Definition new_field (name lowcase value : list Z) (hash : Z) : M (option Z) :=
  field <- alloc_field;;
  match field with
  | None => ret None
  | Some a => init_field a name lowcase value hash;; link_field a
  end.

Definition add (name value : list Z) : M (option Z) :=
  ok <- ensure_buckets;;
  if negb ok then ret None else
  if too_long name value then ret None else
  name_ptr <- copy_to_pool name;;
  match name_ptr with
  | None => ret None
  | Some name_ptr =>
      low <- copy_lowercase_to_pool name;;
      match low with
      | (None, _) => ret None
      | (Some lowcase_ptr, hash) =>
          value_ptr <- copy_to_pool value;;
          match value_ptr with
          | None => ret None
          | Some value_ptr => new_field name_ptr lowcase_ptr value_ptr hash
          end
      end
  end.

(** [std::string_view(lowcase_name, name_len)], [""] for an empty name. *)
Definition lowcase_prefix (name lowcase_name : list Z) : list Z := 
  take (Z.to_nat (u32 (Z.of_nat (length name)))) lowcase_name.

Definition add_hashed (name value lowcase_name : list Z) (hash : Z) : M (option Z) :=
  ok <- ensure_buckets;;
  if negb ok then ret None else
  if too_long name value then ret None else
  name_ptr <- copy_to_pool name;;
  match name_ptr with
  | None => ret None
  | Some name_ptr =>
      lowcase_ptr <- copy_to_pool (lowcase_prefix name lowcase_name);;
      match lowcase_ptr with
      | None => ret None
      | Some lowcase_ptr =>
          value_ptr <- copy_to_pool value;;
          match value_ptr with
          | None => ret None
          | Some value_ptr => new_field name_ptr lowcase_ptr value_ptr hash
          end
      end
  end.

Definition add_view (name value : list Z) : M (option Z) :=
  ok <- ensure_buckets;;
  if negb ok then ret None else
  if too_long name value then ret None else
  new_field name name value (hash_name name).

Definition add_view_hashed (name value lowcase_name : list Z) (hash : Z) : M (option Z) :=
  ok <- ensure_buckets;;
  if negb ok then ret None else
  if too_long name value then ret None else
  new_field name (lowcase_prefix name lowcase_name) value hash.

(** ** Searching *)

(** [node->name_hash == hash && equals_ascii_ci(node->name_view(), name)] and
    the same test on [lowcase_view()]. *)
Definition match_name (hash : Z) (key : list Z) (f : HeaderField) : bool :=
  (name_hash f =? hash) && equals_ascii_ci (name f) key.
Definition match_lowcase (hash : Z) (key : list Z) (f : HeaderField) : bool :=
  (name_hash f =? hash) && equals_ascii_ci (lowcase_name f) key.

Fixpoint find_loop (fuel : nat) (hit : HeaderField -> bool) (node : option Z) : M (option Z) :=
  match fuel, node with
  | _, None => ret None
  | O, Some _ => fault
  | S fuel', Some _ =>
      f <- load node;;
      if hit f then ret node else find_loop fuel' hit (next_bucket f)
  end.

(** The common shape of the two searches: the chain of the bucket of [hash]. *)
Definition find_in_bucket (hash : Z) (hit : HeaderField -> bool) : M (option Z) :=
  empty <- gets (fun s => (length (bucket_head_ s) =? 0)%nat);;
  if empty then ret None
  else
    bucket <- gets (bucket_of hash);;
    node <- get_bucket bucket;;
    fuel <- node_fuel;;
    find_loop fuel hit node.

Definition find_first_node (name : list Z) : M (option Z) :=
  find_in_bucket (hash_name name) (match_name (hash_name name) name).

Definition find_first_node_lowcase (lowcase_key : list Z) (hash : Z) : M (option Z) :=
  find_in_bucket hash (match_lowcase hash lowcase_key).

Definition next_match_node (start : option Z) (lowcase_key : list Z) (hash : Z) : M (option Z) :=
  match start with
  | None => ret None
  | Some _ =>
      f <- load start;;
      fuel <- node_fuel;;
      find_loop fuel (match_lowcase hash lowcase_key) (next_bucket f)
  end.

Definition get (name : list Z) : M (list Z) :=
  node <- find_first_node name;;
  match node with
  | None => ret []
  | Some _ => f <- load node;; ret (value f)
  end.

Definition contains (name : list Z) : M bool :=
  node <- find_first_node name;;
  ret (match node with Some _ => true | None => false end).

(** A [for] loop over the [MatchRange] of [get_all]: the values it visits. *)
Fixpoint match_loop (fuel : nat) (lowcase_key : list Z) (hash : Z) (node : option Z) : M (list (list Z)) :=
  match fuel, node with
  | _, None => ret []
  | O, Some _ => fault
  | S fuel', Some _ =>
      f <- load node;;
      next <- next_match_node node lowcase_key hash;;
      rest <- match_loop fuel' lowcase_key hash next;;
      ret (value f :: rest)
  end.

Definition get_all_hashed (lowcase_key : list Z) (hash : Z) : M (list (list Z)) :=
  node <- find_first_node_lowcase lowcase_key hash;;
  fuel <- node_fuel;;
  match_loop fuel lowcase_key hash node.

Definition get_all (name : list Z) : M (list (list Z)) :=
  let '(key, hash) := to_lowcase_and_hash name in get_all_hashed key hash.

(** A [for] loop from [begin()] to [end()]: the names and values it visits. *)
Fixpoint iterate_loop (fuel : nat) (node : option Z) : M (list (list Z * list Z)) :=
  match fuel, node with
  | _, None => ret []
  | O, Some _ => fault
  | S fuel', Some _ =>
      f <- load node;;
      rest <- iterate_loop fuel' (next_all f);;
      ret ((name f, value f) :: rest)
  end.

Definition iterate : M (list (list Z * list Z)) :=
  fuel <- node_fuel;;
  head <- gets all_head_;;
  iterate_loop fuel head.

(** ** Removing *)

(** [node] leaves its bucket, whose previous node is [prev_bucket], and the
    list of all fields. *)
Definition unlink (bucket : Z) (prev_bucket : option Z) (node next : option Z) : M unit :=
  match prev_bucket with
      | Some _ => update prev_bucket (with_next_bucket next)
      | None => put_bucket bucket next
      end;;
  f <- load node;;
  match prev_all f with
      | Some _ => update (prev_all f) (with_next_all (next_all f))
      | None => modify (set_all_head (next_all f))
      end;;
  f <- load node;;
  match next_all f with
      | Some _ => update (next_all f) (with_prev_all (prev_all f))
      | None => modify (set_all_tail (prev_all f))
      end;;
  modify (fun s => set_size (u64 (size_ s - 1)) s).

Fixpoint remove_loop (fuel : nat) (hit : HeaderField -> bool) (bucket removed : Z)
  (prev_bucket node : option Z) : M Z :=
  match fuel, node with
  | _, None => ret removed
  | O, Some _ => fault
  | S fuel', Some _ =>
      f <- load node;;
      let next := next_bucket f in
      if hit f then
        unlink bucket prev_bucket node next;;
        remove_loop fuel' hit bucket (u64 (removed + 1)) prev_bucket next
      else remove_loop fuel' hit bucket removed node next
  end.

Definition remove_in_bucket (hash : Z) (hit : HeaderField -> bool) : M Z :=
  none <- gets (fun s => match all_head_ s with None => true | Some _ => (length (bucket_head_ s) =? 0)%nat end);;
  if none then ret 0
  else
    bucket <- gets (bucket_of hash);;
    node <- get_bucket bucket;;
    fuel <- node_fuel;;
    remove_loop fuel hit bucket 0 None node.

Definition remove (name : list Z) : M Z :=
  remove_in_bucket (hash_name name) (match_name (hash_name name) name).

Definition remove_lowcase (lowcase_key : list Z) (hash : Z) : M Z :=
  remove_in_bucket hash (match_lowcase hash lowcase_key).

Definition set (name value : list Z) : M (option Z) :=
  remove name;; add name value.

Definition set_hashed (name value lowcase_name : list Z) (hash : Z) : M (option Z) :=
  remove_lowcase (lowcase_prefix name lowcase_name) hash;;
  add_hashed name value lowcase_name hash.

Definition set_view (name value : list Z) : M (option Z) :=
  remove name;; add_view name value.

Definition set_view_hashed (name value lowcase_name : list Z) (hash : Z) : M (option Z) :=
  remove_lowcase (lowcase_prefix name lowcase_name) hash;;
  add_view_hashed name value lowcase_name hash.

(** ** A run on concrete headers *)

Definition run {A} (m : M A) (s : HttpHeaders) : option A :=
  match m s with Value a _ => Some a | _ => None end.

Definition bs (s : string) : list Z := bytes_of_string s.

Example headers_example :
  run (add (bs "Accept") (bs "a");;
       add (bs "Host") (bs "h");;
       add (bs "ACCEPT") (bs "b");;
       v <- get (bs "accept");;
       l <- get_all (bs "aCCept");;
       n <- remove (bs "host");;
       set (bs "X") (bs "1");;
       r <- iterate;;
       ret (v, l, n, r)) (construct [])
  = Some (bs "b", [bs "b"; bs "a"], 1, [(bs "Accept", bs "a"); (bs "ACCEPT", bs "b"); (bs "X", bs "1")]).
Proof. vm_compute. reflexivity. Qed.

(** ** Reasoning about runs *)

(** [m] run in [s] has no fault; [Q] holds of its result and final state, [E]
    of the state in which [std::bad_alloc] leaves it. *)
Definition wp {A} (m : M A) (Q : A -> HttpHeaders -> Prop) (E : HttpHeaders -> Prop) (s : HttpHeaders) : Prop :=
  match m s with Value a s' => Q a s' | BadAlloc s' => E s' | Fault => False end.

Lemma wp_bind {A B} (m : M A) (f : A -> M B) Q E s :
  wp m (fun a s' => wp (f a) Q E s') E s -> wp (bind m f) Q E s.
Proof. unfold wp, bind. by destruct (m s). Qed.

Lemma wp_mono {A} (m : M A) (Q Q' : A -> HttpHeaders -> Prop) (E E' : HttpHeaders -> Prop) s :
  wp m Q E s -> (forall a s', Q a s' -> Q' a s') -> (forall s', E s' -> E' s') -> wp m Q' E' s.
Proof. unfold wp. destruct (m s); naive_solver. Qed.

Lemma wp_gets {A} (f : HttpHeaders -> A) Q E s : Q (f s) s -> wp (gets f) Q E s.
Proof. done. Qed.

Lemma wp_modify g (Q : unit -> HttpHeaders -> Prop) E s : Q tt (g s) -> wp (modify g) Q E s.
Proof. done. Qed.

Lemma wp_load a f Q E s : fields s !! a = Some f -> Q f s -> wp (load (Some a)) Q E s.
Proof. unfold wp, load. cbn. by intros ->. Qed.

Lemma wp_update a f g (Q : unit -> HttpHeaders -> Prop) E s :
  fields s !! a = Some f -> Q tt (set_fields (alter g a (fields s)) s) -> wp (update (Some a) g) Q E s.
Proof.
  unfold wp, update. intros Ha. rewrite Ha.
  replace (<[a := g f]> (fields s)) with (alter g a (fields s)); [done|].
  apply map_eq. intros i. destruct (decide (i = a)) as [->|Hne].
  - by rewrite lookup_alter_eq, lookup_insert_eq, Ha.
  - by rewrite lookup_alter_ne, lookup_insert_ne by done.
Qed.

Lemma wp_get_bucket b h Q E s :
  bucket_head_ s !! Z.to_nat b = Some h -> Q h s -> wp (get_bucket b) Q E s.
Proof. unfold wp, get_bucket. by intros ->. Qed.

Lemma wp_put_bucket b h (Q : unit -> HttpHeaders -> Prop) E s :
  (Z.to_nat b < length (bucket_head_ s))%nat ->
  Q tt (set_bucket_head (<[Z.to_nat b := h]> (bucket_head_ s)) s) -> wp (put_bucket b h) Q E s.
Proof. unfold wp, put_bucket. intros. by rewrite decide_True. Qed.

(** The oracle decides; nothing else of the table changes. *)
Definition set_pool (v : list bool) (s : HttpHeaders) : HttpHeaders :=
  mkHeaders (fields s) (next_field s) v (bucket_head_ s) (all_head_ s) (all_tail_ s) (size_ s).

Lemma wp_pool_alloc (Q : bool -> HttpHeaders -> Prop) E s :
  (forall ok pool, (pool_ s = [] -> ok = true /\ pool = []) -> Q ok (set_pool pool s)) -> wp pool_alloc Q E s.
Proof.
  intros H. unfold wp, pool_alloc. destruct s as [m n pool hs a t z]. destruct pool as [|x pool]; cbn.
  - by apply (H true []).
  - by apply (H (negb x) pool).
Qed.

(** Once no allocation is to fail, none is. *)
Definition calm (s s' : HttpHeaders) : Prop := pool_ s = [] -> pool_ s' = [].

(** ** Linked segments *)

(** A chain of [next_bucket] pointers from [h] through [l], ending in [e]. *)
Fixpoint bseg (m : gmap Z HeaderField) (h : option Z) (l : list Z) (e : option Z) : Prop :=
  match l with
  | [] => h = e
  | a :: l' => h = Some a /\ exists f, m !! a = Some f /\ bseg m (next_bucket f) l' e
  end.

Definition next_of (l : list Z) (n : option Z) : option Z :=
  match l with [] => n | b :: _ => Some b end.

(** A stretch [l] of the list of all fields between [p] and [n]. *)
Fixpoint aseg (m : gmap Z HeaderField) (p : option Z) (l : list Z) (n : option Z) : Prop :=
  match l with
  | [] => True
  | a :: l' => exists f, m !! a = Some f /\ prev_all f = p /\ next_all f = next_of l' n /\ aseg m (Some a) l' n
  end.

Definition prev_of (p : option Z) (l : list Z) : option Z :=
  match last l with Some b => Some b | None => p end.

Lemma bseg_app m h l1 l2 e : bseg m h (l1 ++ l2) e <-> exists x, bseg m h l1 x /\ bseg m x l2 e.
Proof.
  revert h. induction l1 as [|a l1 IH]; intros h; cbn.
  - naive_solver.
  - split.
    + intros (-> & f & Hf & Hb). apply IH in Hb as (x & ? & ?). naive_solver.
    + intros (x & (-> & f & Hf & Hb) & H2). split; [done|]. exists f. rewrite IH. eauto.
Qed.

Lemma bseg_ext m m' h l e :
  (forall a, a ∈ l -> next_bucket <$> m' !! a = next_bucket <$> m !! a) -> bseg m h l e -> bseg m' h l e.
Proof.
  revert h. induction l as [|a l IH]; intros h Hext; cbn; [done|].
  intros (-> & f & Hf & Hb). split; [done|].
  pose proof (Hext a ltac:(set_solver)) as He. rewrite Hf in He. cbn in He.
  destruct (m' !! a) as [f'|] eqn:Hf'; simplify_eq/=. exists f'. split; [done|].
  replace (next_bucket f') with (next_bucket f) by congruence.
  apply IH; [set_solver|done].
Qed.

Lemma bseg_next m h l : bseg m h l None -> h = head l.
Proof. destruct l; naive_solver. Qed.

Lemma prev_of_cons p a l : prev_of p (a :: l) = prev_of (Some a) l.
Proof. unfold prev_of. rewrite last_cons. by destruct (last l). Qed.

Lemma aseg_app m p l1 l2 n :
  aseg m p (l1 ++ l2) n <-> aseg m p l1 (next_of l2 n) /\ aseg m (prev_of p l1) l2 n.
Proof.
  revert p. induction l1 as [|a l1 IH]; intros p; cbn.
  - naive_solver.
  - rewrite prev_of_cons. setoid_rewrite IH. clear IH.
    replace (next_of (l1 ++ l2) n) with (next_of l1 (next_of l2 n)) by (by destruct l1). naive_solver.
Qed.

Definition links (f : HeaderField) : option Z * option Z := (prev_all f, next_all f).

Lemma aseg_ext m m' p l n :
  (forall a, a ∈ l -> links <$> m' !! a = links <$> m !! a) -> aseg m p l n -> aseg m' p l n.
Proof.
  revert p. induction l as [|a l IH]; intros p Hext; cbn; [done|].
  intros (f & Hf & Hp & Hn & Hl).
  pose proof (Hext a ltac:(set_solver)) as He. rewrite Hf in He. cbn in He.
  destruct (m' !! a) as [f'|] eqn:Hf'; simplify_eq/=. exists f'. unfold links in He.
  repeat split; [congruence..|]. apply IH; [set_solver|done].
Qed.

Lemma aseg_in m p l n a : aseg m p l n -> a ∈ l -> is_Some (m !! a).
Proof.
  revert p. induction l as [|b l IH]; intros p; [set_solver|].
  intros (f & Hf & _ & _ & Hl) [->|Hin]%elem_of_cons; eauto.
Qed.

(** A node leaves its chain, the way [unlink] rewrites it. *)
Definition drop_next (k : list Z) (nxt : option Z) (m : gmap Z HeaderField) : gmap Z HeaderField :=
  match last k with Some p => alter (with_next_bucket nxt) p m | None => m end.

Lemma bseg_unlink m h kept a f rest :
  bseg m h (kept ++ a :: rest) None -> NoDup (kept ++ a :: rest) -> m !! a = Some f ->
  bseg (drop_next kept (next_bucket f) m) (match last kept with Some _ => h | None => next_bucket f end)
       (kept ++ rest) None.
Proof.
  intros Hb Hnd Ha. unfold drop_next. destruct kept as [|p k _] using rev_ind; cbn [last app] in *.
  - destruct Hb as (-> & f' & Hf' & Hb). by simplify_eq.
  - rewrite last_snoc. rewrite <-app_assoc in *. cbn [app] in *.
    apply bseg_app in Hb as (x & Hk & -> & fp & Hp & Hpa & f' & Hf' & Hb).
    rewrite Ha in Hf'. injection Hf' as <-.
    apply NoDup_app in Hnd as (_ & Hk2 & Hnd). apply NoDup_cons in Hnd as [Hp2 Hnd].
    apply bseg_app. exists (Some p). split.
    + apply (bseg_ext m); [|done]. intros b Hin. rewrite lookup_alter_ne; [done|set_solver].
    + split; [done|]. exists (with_next_bucket (next_bucket f) fp).
      rewrite lookup_alter_eq, Hp. split; [done|].
      cbn. apply (bseg_ext m); [|done]. intros b Hin. rewrite lookup_alter_ne; [done|set_solver].
Qed.

Definition drop_all (f : HeaderField) (m : gmap Z HeaderField) : gmap Z HeaderField :=
  let m := match prev_all f with Some p => alter (with_next_all (next_all f)) p m | None => m end in
  match next_all f with Some n => alter (with_prev_all (prev_all f)) n m | None => m end.

Lemma lookup_drop_all f m a :
  prev_all f <> Some a -> next_all f <> Some a -> drop_all f m !! a = m !! a.
Proof.
  intros. unfold drop_all.
  destruct (next_all f), (prev_all f); rewrite ?lookup_alter_ne by congruence; done.
Qed.

(** What [drop_all] and [drop_next] leave alone. *)
Lemma lookup_alter_proj {B} (g : HeaderField -> B) h x (m : gmap Z HeaderField) a :
  (forall f, g (h f) = g f) -> g <$> alter h x m !! a = g <$> m !! a.
Proof.
  intros Hg. destruct (decide (x = a)) as [->|]; [rewrite lookup_alter_eq|by rewrite lookup_alter_ne].
  destruct (m !! a); cbn; by rewrite ?Hg.
Qed.

Lemma lookup_drop_all_proj {B} (g : HeaderField -> B) f m a :
  (forall v h, g (with_next_all v h) = g h) -> (forall v h, g (with_prev_all v h) = g h) ->
  g <$> drop_all f m !! a = g <$> m !! a.
Proof.
  intros Hn Hp.
  unfold drop_all. destruct (next_all f), (prev_all f); rewrite ?lookup_alter_proj; auto.
Qed.

Lemma lookup_drop_next_proj {B} (g : HeaderField -> B) k nxt m a :
  (forall v h, g (with_next_bucket v h) = g h) -> g <$> drop_next k nxt m !! a = g <$> m !! a.
Proof.
  intros Hn. unfold drop_next. destruct (last k) as [p|]; [|done]. apply lookup_alter_proj; auto.
Qed.

Lemma aseg_unlink m l1 a f l2 :
  aseg m None (l1 ++ a :: l2) None -> NoDup (l1 ++ a :: l2) -> m !! a = Some f ->
  aseg (drop_all f m) None (l1 ++ l2) None /\
  prev_all f = last l1 /\ next_all f = head l2.
Proof.
  intros H Hnd Ha. apply aseg_app in H as [H1 (f' & Hf' & Hp & Hn & H2)].
  rewrite Ha in Hf'. injection Hf' as <-.
  assert (Hl1 : prev_of None l1 = last l1) by (unfold prev_of; by destruct (last l1)).
  assert (Hl2 : next_of l2 None = head l2) by (by destruct l2).
  rewrite Hl1 in Hp. rewrite Hl2 in Hn. cbn [next_of] in H1.
  split; [|done]. apply NoDup_app in Hnd as (Hnd1 & Hdis & Hnd2). apply NoDup_cons in Hnd2 as [Ha2 Hnd2].
  apply aseg_app. rewrite Hl1, Hl2. split.
  - destruct l1 as [|p l1 _] using rev_ind; [done|]. rewrite last_snoc in Hp.
    apply aseg_app in H1 as [H1 (fp & Hfp & Hpp & _ & _)].
    apply NoDup_app in Hnd1 as (Hndl & Hp1 & _).
    apply aseg_app. split.
    + apply (aseg_ext m); [|exact H1]. intros b Hb. rewrite lookup_drop_all; [done| |].
      * rewrite Hp. intros [=->]. apply (Hp1 b Hb). set_solver.
      * rewrite Hn. intros Hh%head_Some_elem_of. apply (Hdis b); set_solver.
    + exists (with_next_all (head l2) fp). split; [|by cbn; destruct l2].
      unfold drop_all. rewrite Hp, Hn. destruct (head l2) as [n|] eqn:Hh.
      * rewrite lookup_alter_ne; [by rewrite lookup_alter_eq, Hfp|].
        apply head_Some_elem_of in Hh. intros ->. apply (Hdis p); set_solver.
      * by rewrite lookup_alter_eq, Hfp.
  - destruct l2 as [|n l2]; [done|]. destruct H2 as (fn & Hfn & Hpn & Hnn & H2).
    apply NoDup_cons in Hnd2 as [Hn2 Hnd2]. cbn [head] in Hn. exists (with_prev_all (last l1) fn).
    assert (Hne : last l1 <> Some n).
    { intros Hl%last_Some_elem_of. apply (Hdis n); set_solver. }
    split; [|split; [done|split; [done|]]].
    + unfold drop_all. rewrite Hn, Hp, lookup_alter_eq.
      destruct (last l1) as [p|]; [rewrite lookup_alter_ne by congruence|]; by rewrite Hfn.
    + apply (aseg_ext m); [|exact H2]. intros b Hb. rewrite lookup_drop_all; [done| |].
      * rewrite Hp. intros Hl%last_Some_elem_of. apply (Hdis b); set_solver.
      * rewrite Hn. intros [=->]. done.
Qed.

(** ** The number of buckets *)

(** [y] has a bit set when [x] has one among the [n] bits from there up. *)
Definition smeared (n x y : Z) : Prop :=
  forall i, 0 <= i -> Z.testbit y i = true <-> exists j, 0 <= j < n /\ Z.testbit x (i + j) = true.

Lemma smear_step n n' x y :
  0 < n -> n' = 2 * n -> smeared n x y -> smeared n' x (Z.lor y (Z.shiftr y n)).
Proof.
  intros Hn -> Hs i Hi. rewrite Z.lor_spec, orb_true_iff, Z.shiftr_spec by lia.
  rewrite (Hs i Hi), (Hs (i + n) ltac:(lia)). split.
  - intros [(j & Hj & Ht)|(j & Hj & Ht)].
    + exists j. split; [lia|done].
    + exists (n + j). split; [lia|]. by rewrite Z.add_assoc.
  - intros (j & Hj & Ht). destruct (Z.lt_ge_cases j n).
    + left. exists j. split; [lia|done].
    + right. exists (j - n). split; [lia|]. by replace (i + n + (j - n)) with (i + j) by lia.
Qed.

Lemma smear_ones x y : 0 < x < 2 ^ 64 -> smeared 64 x y -> y = Z.ones (Z.log2 x + 1).
Proof.
  intros Hx Hs. apply Z.bits_inj'. intros i Hi. rewrite Z.testbit_ones_nonneg by (pose proof (Z.log2_nonneg x); lia).
  assert (Hlog : Z.log2 x < 64) by (apply Z.log2_lt_pow2; lia).
  apply eq_bool_prop_intro. rewrite !Is_true_true, (Hs i Hi), Z.ltb_lt. split.
  - intros (j & Hj & Ht). destruct (Z.lt_ge_cases (Z.log2 x) (i + j)); [|lia].
    rewrite Z.bits_above_log2 in Ht by lia. done.
  - intros Hlt. exists (Z.log2 x - i). split; [lia|].
    replace (i + (Z.log2 x - i)) with (Z.log2 x) by lia. apply Z.bit_log2. lia.
Qed.

(** The shifts of [next_pow2] round a size up to a power of two; a size above
    2^63 gives 0. *)
Lemma bucket_count_pow2 value :
  1 < value < 2 ^ 64 ->
  next_pow2 value = if value <=? 2 ^ 63 then 2 ^ Z.log2_up value else 0.
Proof.
  intros Hv. unfold next_pow2. destruct (Z.leb_spec value 1) as [|_]; [lia|]. cbv zeta.
  set (x := value - 1). assert (Hx : 0 < x < 2 ^ 64) by (unfold x; lia).
  assert (H0 : smeared 1 x x).
  { intros i Hi. split; [intros; exists 0; rewrite Z.add_0_r; split; [lia|done]|].
    intros (j & Hj & Ht). by replace (i + j) with i in Ht by lia. }
  apply (smear_step 1 2) in H0; [|lia..]. apply (smear_step 2 4) in H0; [|lia..].
  apply (smear_step 4 8) in H0; [|lia..]. apply (smear_step 8 16) in H0; [|lia..].
  apply (smear_step 16 32) in H0; [|lia..]. apply (smear_step 32 64) in H0; [|lia..].
  apply smear_ones in H0; [|done]. rewrite H0, Z.ones_equiv.
  replace (Z.pred (2 ^ (Z.log2 x + 1)) + 1) with (2 ^ (Z.log2 x + 1)) by lia.
  rewrite Z.log2_up_eqn by lia. fold x. replace (Z.pred value) with x by lia.
  destruct (Z.leb_spec value (2 ^ 63)) as [Hle|Hgt].
  - apply wrap_small. pose proof (Z.log2_nonneg x). split; [lia|]. apply Z.pow_lt_mono_r; [lia..|].
    assert (Z.log2 x < 63); [|lia]. apply Z.log2_lt_pow2; unfold x; lia.
  - assert (Z.log2 x = 63) as ->; [|done].
    apply Z.log2_unique; [lia|]. unfold x. lia.
Qed.

Definition power_of_two (n : Z) : Prop := exists k, 0 <= k <= 63 /\ n = 2 ^ k.

Lemma bucket_index_bound n hash :
  power_of_two (Z.of_nat n) -> (Z.to_nat (bucket_index n hash) < n)%nat.
Proof.
  intros (k & Hk & Hn). unfold bucket_index. rewrite Hn.
  assert (2 ^ k <= 2 ^ 63) by (apply Z.pow_le_mono_r; lia).
  assert (0 < 2 ^ k) by (apply Z.pow_pos_nonneg; lia).
  rewrite (wrap_small 64) by (split; lia).
  replace (2 ^ k - 1) with (Z.ones k) by (rewrite Z.ones_equiv; lia).
  rewrite Z.land_ones by lia.
  assert (0 <= hash mod 2 ^ k < 2 ^ k) by (apply Z.mod_pos_bound; lia).
  assert (0 <= u32 (hash mod 2 ^ k) <= hash mod 2 ^ k); [|lia].
  split; [apply wrap_range; lia|]. apply Z.mod_le; lia.
Qed.

(** ** What a table represents *)

Record Entry := mkEntry { e_name : list Z; e_lowcase : list Z; e_value : list Z; e_hash : Z }.

Definition entry_of (f : HeaderField) : Entry := mkEntry (name f) (lowcase_name f) (value f) (name_hash f).

Definition entry_at (m : gmap Z HeaderField) (a : Z) : Entry :=
  default (mkEntry [] [] [] 0) (entry_of <$> m !! a).

Definition in_bucket (m : gmap Z HeaderField) (n b : nat) (a : Z) : Prop :=
  Z.to_nat (bucket_index n (e_hash (entry_at m a))) = b.

#[export] Instance in_bucket_dec m n b a : Decision (in_bucket m n b a).
Proof. unfold in_bucket. apply _. Defined.

(** The nodes [l] in the order of the list of all fields. *)
Record listed (s : HttpHeaders) (l : list Z) : Prop := mkListed {
  l_nodup : NoDup l;
  l_fresh : forall a, a ∈ l -> a < next_field s;
  l_all : aseg (fields s) None l None;
  l_head : all_head_ s = head l;
  l_tail : all_tail_ s = last l;
  l_size : size_ s = u64 (Z.of_nat (length l)) }.

(** Every bucket chains its nodes, the newest first. *)
Definition bucketed (s : HttpHeaders) (l : list Z) : Prop :=
  forall b h, bucket_head_ s !! b = Some h ->
    bseg (fields s) h (reverse (filter (in_bucket (fields s) (length (bucket_head_ s)) b) l)) None.

Definition count_ok (s : HttpHeaders) (l : list Z) : Prop :=
  (bucket_head_ s = [] /\ l = []) \/ power_of_two (Z.of_nat (length (bucket_head_ s))).

Record repr (s : HttpHeaders) (l : list Z) : Prop := mkRepr {
  r_listed : listed s l; r_bucketed : bucketed s l; r_count : count_ok s l }.

(** The table holds the entries [es], in the order of insertion. *)
Definition represents (s : HttpHeaders) (es : list Entry) : Prop :=
  exists l, repr s l /\ es = (entry_at (fields s) <$> l).

Lemma filter_ext_in {A} (P P' : A -> Prop) `{!forall x, Decision (P x), !forall x, Decision (P' x)} (l : list A) :
  (forall x, x ∈ l -> P x <-> P' x) -> filter P l = filter P' l.
Proof.
  intros Hext. induction l as [|a l IH]; [done|]. pose proof (Hext a ltac:(set_solver)).
  rewrite !filter_cons, IH by set_solver. repeat case_decide; tauto.
Qed.

Lemma filter_fmap {A B} (f : A -> B) (P : B -> Prop) `{!forall x, Decision (P x)} (l : list A) :
  filter P (f <$> l) = (f <$> filter (fun x => P (f x)) l).
Proof.
  induction l as [|a l IH]; [done|]. rewrite fmap_cons, !filter_cons.
  case_decide; [rewrite fmap_cons|]; by rewrite IH.
Qed.

Lemma in_bucket_ext m m' n b (l : list Z) :
  (forall a, a ∈ l -> entry_at m' a = entry_at m a) ->
  filter (in_bucket m' n b) l = filter (in_bucket m n b) l.
Proof.
  intros Hext. apply filter_ext_in. intros a Ha. unfold in_bucket. by rewrite (Hext a).
Qed.

Lemma listed_in s l a : listed s l -> a ∈ l -> is_Some (fields s !! a).
Proof. intros [_ _ H _ _ _]. eapply aseg_in; eauto. Qed.

Lemma entry_at_some m a f : m !! a = Some f -> entry_at m a = entry_of f.
Proof. unfold entry_at. by intros ->. Qed.

(** A duplicate-free list of nodes is no longer than the fuel of the loops. *)
Lemma nodes_fuel (m : gmap Z HeaderField) (l : list Z) :
  NoDup l -> (forall a, a ∈ l -> is_Some (m !! a)) -> (length l <= size m)%nat.
Proof.
  intros Hnd Hin. rewrite <-(size_list_to_set (C := gset Z)), <-size_dom by done.
  apply subseteq_size. intros a Ha%elem_of_list_to_set. by apply elem_of_dom, Hin.
Qed.

(** ** Linking a field *)

Lemma entry_at_ext m m' a :
  entry_of <$> m' !! a = entry_of <$> m !! a -> entry_at m' a = entry_at m a.
Proof. unfold entry_at. by intros ->. Qed.

Lemma entry_at_alter h x m a :
  (forall f, entry_of (h f) = entry_of f) -> entry_at (alter h x m) a = entry_at m a.
Proof. intros. apply entry_at_ext. by apply lookup_alter_proj. Qed.

(** The chain of a bucket, read from any map that agrees on it. *)
Lemma bucketed_set s m l :
  (forall a, a ∈ l -> next_bucket <$> m !! a = next_bucket <$> fields s !! a) ->
  (forall a, a ∈ l -> entry_at m a = entry_at (fields s) a) ->
  bucketed s l -> bucketed (set_fields m s) l.
Proof.
  intros Hn He Hb b h Hh. cbn in *. rewrite (in_bucket_ext (fields s)) by done.
  apply (bseg_ext (fields s)); [|by apply Hb].
  intros a Ha%elem_of_reverse%list_elem_of_filter. apply Hn. naive_solver.
Qed.

Lemma bucket_head_push s l a f h b m :
  bucketed s l -> power_of_two (Z.of_nat (length (bucket_head_ s))) -> a ∉ l ->
  b = Z.to_nat (bucket_of (name_hash f) s) -> bucket_head_ s !! b = Some h ->
  (forall x, x ∈ l -> next_bucket <$> m !! x = next_bucket <$> fields s !! x) ->
  (forall x, x ∈ l -> entry_at m x = entry_at (fields s) x) ->
  (exists f', m !! a = Some f' /\ entry_of f' = entry_of f /\ next_bucket f' = h) ->
  forall i hi, <[b := Some a]> (bucket_head_ s) !! i = Some hi ->
    bseg m hi (reverse (filter (in_bucket m (length (bucket_head_ s)) i) (l ++ [a]))) None.
Proof.
  intros Hb Hpow Ha Hbe Hh Hn He (f' & Hf' & Hef & Hnf) i hi Hi.
  assert (Hbf : forall i, in_bucket m (length (bucket_head_ s)) i a <-> b = i).
  { intros j. unfold in_bucket. rewrite (entry_at_some _ _ f'), Hef, Hbe by done. done. }
  assert (Hold : forall j hj, bucket_head_ s !! j = Some hj ->
            bseg m hj (reverse (filter (in_bucket m (length (bucket_head_ s)) j) l)) None).
  { intros j hj Hj. rewrite (in_bucket_ext (fields s)) by done. apply (bseg_ext (fields s)); [|by apply Hb].
    intros x Hx%elem_of_reverse%list_elem_of_filter. apply Hn. naive_solver. }
  rewrite filter_app, reverse_app. destruct (decide (i = b)) as [->|Hne].
  - rewrite list_lookup_insert_eq in Hi by (by eapply lookup_lt_Some).
    injection Hi as <-. rewrite (filter_cons_True _ a) by (by apply Hbf). cbn.
    split; [done|]. exists f'. rewrite Hnf. eauto.
  - rewrite list_lookup_insert_ne in Hi by done. rewrite (filter_cons_False _ a) by (rewrite Hbf; congruence).
    cbn. by apply Hold.
Qed.

Lemma last_some_of_head {A} (l : list A) x : head l = Some x -> exists y, last l = Some y /\ y ∈ l.
Proof.
  intros Hh. destruct (last l) as [y|] eqn:Hy; [exists y; split; [done|by apply last_Some_elem_of]|].
  apply last_None in Hy. by subst.
Qed.

Lemma aseg_snoc m p l a n : aseg m p (l ++ [a]) n <->
  aseg m p l (Some a) /\ exists f, m !! a = Some f /\ prev_all f = prev_of p l /\ next_all f = n.
Proof. rewrite aseg_app. cbn. naive_solver. Qed.

(** Changing the last node's [next_all]. *)
Lemma aseg_retail m p l t n n' :
  aseg m p l n -> NoDup l -> last l = Some t -> aseg (alter (with_next_all n') t m) p l n'.
Proof.
  intros Hs Hnd Hl. apply last_Some in Hl as [l' ->].
  apply aseg_snoc in Hs as [Hs (f & Hf & Hp & Hn)]. apply NoDup_app in Hnd as (_ & Hnin & _).
  apply aseg_snoc. split.
  - apply (aseg_ext m); [|done]. intros b Hb. rewrite lookup_alter_ne; [done|]. intros ->. apply (Hnin b); set_solver.
  - exists (with_next_all n' f). rewrite lookup_alter_eq, Hf. done.
Qed.

(** [a] joins the table: it is in the store, in no list yet. *)
Lemma link_field_spec s l a f E :
  repr s l -> power_of_two (Z.of_nat (length (bucket_head_ s))) ->
  a ∉ l -> a < next_field s -> fields s !! a = Some f -> next_all f = None -> prev_all f = None ->
  wp (link_field a) (fun r s' => r = Some a /\ repr s' (l ++ [a]) /\
    (forall x, entry_at (fields s') x = entry_at (fields s) x) /\
    length (bucket_head_ s') = length (bucket_head_ s) /\ pool_ s' = pool_ s) E s.
Proof.
  intros [[Hnd Hfr Hall Hhd Htl Hsz] Hb Hcnt] Hpow Ha Hlt Hf Hna Hpa.
  pose proof (bucket_index_bound _ (name_hash f) Hpow) as Hin.
  destruct (lookup_lt_is_Some_2 _ _ Hin) as [h Hh].
  unfold link_field. apply wp_bind, (wp_load _ f); [done|]. apply wp_bind, wp_gets.
  apply wp_bind, (wp_get_bucket _ h); [done|]. apply wp_bind, (wp_update _ f); [done|].
  apply wp_bind, wp_put_bucket; [done|]. apply wp_bind, wp_gets. cbn [all_head_ set_bucket_head set_fields].
  set (m1 := alter (with_next_bucket h) a (fields s)).
  assert (Hm1 : m1 !! a = Some (with_next_bucket h f)) by (unfold m1; by rewrite lookup_alter_eq, Hf).
  assert (Hsize : u64 (u64 (Z.of_nat (length l)) + 1) = u64 (Z.of_nat (length (l ++ [a])))).
  { rewrite length_app. cbn. unfold wrap. rewrite Zplus_mod_idemp_l. f_equal. lia. }
  assert (Hnd' : NoDup (l ++ [a])).
  { apply NoDup_app. split; [done|]. split; [set_solver|apply NoDup_singleton]. }
  assert (Hfr' : forall x, x ∈ l ++ [a] -> x < next_field s) by set_solver.
  assert (He1 : forall x, entry_at m1 x = entry_at (fields s) x) by (intros; by apply entry_at_alter).
  rewrite Hhd. destruct (head l) as [hd|] eqn:Hl.
  - destruct (last_some_of_head _ _ Hl) as (t & Ht & Htin).
    assert (Hta : t <> a) by (intros ->; done).
    set (m2 := alter (with_prev_all (Some t)) a m1). set (m3 := alter (with_next_all (Some a)) t m2).
    assert (Hm3 : m3 !! a = Some (with_prev_all (Some t) (with_next_bucket h f))).
    { unfold m3. rewrite lookup_alter_ne by done. unfold m2. by rewrite lookup_alter_eq, Hm1. }
    destruct (aseg_in _ _ _ _ t Hall Htin) as [ft Hft].
    apply wp_bind, wp_bind, wp_gets. cbn [all_tail_ set_bucket_head set_fields]. rewrite Htl, Ht.
    apply wp_bind, (wp_update _ (with_next_bucket h f)); [done|]. cbn [fields set_fields set_bucket_head].
    apply wp_bind, (wp_update _ ft).
    { cbn. rewrite lookup_alter_ne by done. unfold m1. by rewrite lookup_alter_ne. }
    cbn [fields set_fields set_bucket_head]. fold m2. fold m3. cbn -[m3].
    assert (He3 : forall x, entry_at m3 x = entry_at (fields s) x).
    { intros. unfold m3, m2. rewrite !entry_at_alter by done. apply He1. }
    split; [done|]. split; [|split; [done|by rewrite length_insert]].
    split; [split; cbn -[m3]|intros i hi Hi; cbn -[m3] in *|right; cbn; by rewrite length_insert].
    + done.
    + done.
    + apply aseg_snoc. split; [|exists (with_prev_all (Some t) (with_next_bucket h f)); unfold prev_of; by rewrite Ht].
      apply (aseg_retail _ _ _ _ None); [|done|done].
      apply (aseg_ext (fields s)); [|done]. intros x Hx. unfold m2, m1.
      rewrite !lookup_alter_ne by (intros ->; done). done.
    + rewrite Hhd. by destruct l.
    + by rewrite last_snoc.
    + by rewrite Hsz.
    + rewrite length_insert. eapply bucket_head_push; [exact Hb|exact Hpow|exact Ha|reflexivity|exact Hh| | | |exact Hi].
      * intros x Hx. unfold m3, m2, m1. rewrite !lookup_alter_proj by done.
        rewrite lookup_alter_ne by (intros ->; done). done.
      * done.
      * eexists. split; [exact Hm3|done].
  - destruct l as [|? ?]; [|done]. cbn -[m1].
    split; [done|]. split; [|split; [done|by rewrite length_insert]].
    split; [split; cbn -[m1]|intros i hi Hi; cbn -[m1] in *|right; cbn; by rewrite length_insert].
    + done.
    + done.
    + exists (with_next_bucket h f). done.
    + done.
    + done.
    + by rewrite Hsz.
    + rewrite length_insert. eapply (bucket_head_push s [] a); [exact Hb|exact Hpow|exact Ha|reflexivity|exact Hh| | | |exact Hi].
      * set_solver.
      * done.
      * eexists. split; [exact Hm1|done].
Qed.

(** ** Buckets before the first field *)

Lemma repr_set_pool s l p : repr s l -> repr (set_pool p s) l.
Proof. intros [[? ? ? ? ? ?] Hb Hc]. split; [by split| |done]. exact Hb. Qed.

Lemma power_of_two_max n : n = 0 \/ power_of_two n ->
  power_of_two (if n <? kDefaultBuckets then kDefaultBuckets else n).
Proof.
  intros [->|(k & Hk & ->)]; [by exists 5|].
  destruct (Z.ltb_spec (2 ^ k) kDefaultBuckets); [by exists 5|by exists k].
Qed.

Lemma next_pow2_power count : count < 2 ^ 64 -> next_pow2 count = 0 \/ power_of_two (next_pow2 count).
Proof.
  intros Hc. destruct (Z.leb_spec count 1) as [Hle|Hgt].
  - unfold next_pow2. destruct (Z.leb_spec count 1); [|lia]. right. by exists 0.
  - rewrite bucket_count_pow2 by lia. destruct (Z.leb_spec count (2 ^ 63)); [right|by left].
    exists (Z.log2_up count). split; [|done]. pose proof (Z.log2_up_nonneg count). split; [lia|].
    by apply Z.log2_up_le_pow2; [lia|].
Qed.

Lemma init_buckets_spec count s :
  count < 2 ^ 64 ->
  wp (init_buckets count)
     (fun _ s' => exists n p, power_of_two (Z.of_nat n) /\ (pool_ s = [] -> p = []) /\
                    s' = set_bucket_head (replicate n None) (set_pool p s))
     (fun s' => pool_ s <> [] /\ exists p, s' = set_pool p s) s.
Proof.
  intros Hc. unfold init_buckets. cbv zeta. apply wp_bind, wp_pool_alloc.
  intros ok p Hp. destruct ok; [|split; [naive_solver|by exists p]].
  exists (Z.to_nat (let c := next_pow2 (if count =? 0 then kDefaultBuckets else count) in
                    if c <? kDefaultBuckets then kDefaultBuckets else c)), p.
  split; [|split; [naive_solver|done]]. cbv zeta.
  destruct (power_of_two_max (next_pow2 (if count =? 0 then kDefaultBuckets else count))) as (k & Hk & ->).
  - apply next_pow2_power. destruct (count =? 0); [done|lia].
  - exists k. split; [done|]. rewrite Z2Nat.id; [done|]. pose proof (Z.pow_pos_nonneg 2 k). lia.
Qed.

(** The state of a table ready for a new field. *)
Definition ready (s : HttpHeaders) (es : list Entry) : Prop :=
  represents s es /\ power_of_two (Z.of_nat (length (bucket_head_ s))).

Lemma power_of_two_pos n : power_of_two n -> 0 < n.
Proof. intros (k & Hk & ->). apply Z.pow_pos_nonneg; lia. Qed.

Lemma represents_ready s es : represents s es -> bucket_head_ s <> [] -> ready s es.
Proof.
  intros (l & Hr & Hes) Hne. split; [by exists l|]. destruct (r_count _ _ Hr) as [[? _]|Hp]; [done|exact Hp].
Qed.

Lemma bucketed_replicate s n : bucketed (set_bucket_head (replicate n None) s) [].
Proof. intros b h Hh. cbn in *. by apply lookup_replicate in Hh as [-> _]. Qed.

Lemma ensure_buckets_spec s es :
  represents s es ->
  wp ensure_buckets (fun ok s' => ok = true /\ ready s' es /\ calm s s')
     (fun s' => represents s' es /\ pool_ s <> []) s.
Proof.
  intros Hrep. unfold ensure_buckets. apply wp_bind, wp_gets. apply wp_bind.
  destruct (length (bucket_head_ s) =? 0)%nat eqn:Hn.
  - apply Nat.eqb_eq, length_zero_iff_nil in Hn as Hnil. destruct Hrep as (l & Hr & ->).
    assert (l = []) as ->.
    { destruct (r_count _ _ Hr) as [[_ ?]|Hp]; [done|]. rewrite Hnil in Hp. by apply power_of_two_pos in Hp. }
    eapply wp_mono; [apply init_buckets_spec; done| |].
    + intros [] s' (n & p & Hp & Hc & ->). apply wp_gets. cbn. rewrite length_replicate.
      pose proof (power_of_two_pos _ Hp). destruct (Nat.eqb_spec n 0); [lia|]. split; [done|].
      split; [|by intros ?; apply Hc]. split; [|cbn; by rewrite length_replicate].
      exists []. split; [|done]. destruct Hr as [[? ? ? ? ? ?] _ _].
      split; [by split|apply bucketed_replicate|right; cbn; by rewrite length_replicate].
    + intros s' (Hne & p & ->). split; [|done]. exists []. split; [by apply repr_set_pool|done].
  - change (negb (length (bucket_head_ s) =? 0)%nat = true /\ ready s es /\ calm s s).
    rewrite Hn. split; [done|]. split; [|by intros ?].
    apply represents_ready; [done|]. intros Hnil. by rewrite Hnil in Hn.
Qed.

(** ** Adding *)

Lemma insert_fresh s l f :
  repr s l ->
  repr (mkHeaders (<[next_field s := f]> (fields s)) (next_field s + 1) (pool_ s) (bucket_head_ s)
                  (all_head_ s) (all_tail_ s) (size_ s)) l /\
  (forall a, a ∈ l -> entry_at (<[next_field s := f]> (fields s)) a = entry_at (fields s) a).
Proof.
  intros [[Hnd Hfr Hall Hhd Htl Hsz] Hb Hc].
  assert (Hne : forall a, a ∈ l -> <[next_field s := f]> (fields s) !! a = fields s !! a).
  { intros a Ha. apply lookup_insert_ne. specialize (Hfr a Ha). lia. }
  assert (He : forall a, a ∈ l -> entry_at (<[next_field s := f]> (fields s)) a = entry_at (fields s) a).
  { intros a Ha. unfold entry_at. by rewrite Hne. }
  split; [|done]. split; [split; cbn|intros b h Hh; cbn in *|done]; try done.
  - intros a Ha. specialize (Hfr a Ha). lia.
  - apply (aseg_ext (fields s)); [|done]. intros a Ha. by rewrite Hne.
  - rewrite (in_bucket_ext (fields s)) by done. apply (bseg_ext (fields s)); [|by apply Hb].
    intros a Ha%elem_of_reverse%list_elem_of_filter. by rewrite Hne by naive_solver.
Qed.

Lemma new_field_spec n low v h s es E :
  ready s es ->
  wp (new_field n low v h)
     (fun r s' => calm s s' /\
        ((r = None /\ represents s' es /\ pool_ s <> []) \/
         (exists a, r = Some a /\ represents s' (es ++ [mkEntry n low v h])))) E s.
Proof.
  intros [(l & Hr & ->) Hpow]. unfold new_field, alloc_field. apply wp_bind, wp_bind, wp_pool_alloc.
  intros ok p Hok. apply (repr_set_pool _ _ p) in Hr. destruct ok; cbn [negb].
  2: { split; [naive_solver|]. left. split; [done|]. split; [by exists l|naive_solver]. }
  assert (Hcalm : calm s (set_pool p s)) by (intros ?; naive_solver).
  change (fields s) with (fields (set_pool p s)).
  change (bucket_head_ s) with (bucket_head_ (set_pool p s)) in Hpow.
  revert Hr Hpow Hcalm. generalize (set_pool p s) as s0. clear p Hok.
  intros s0 Hr Hpow Hcalm. unfold wp at 1. cbv beta iota.
  set (s1 := mkHeaders _ _ _ _ _ _ _).
  set (f := mkField n low v h None None None).
  apply wp_bind. unfold init_field.
  apply (wp_update _ (mkField [] [] [] 0 None None None)); [apply lookup_insert_eq|].
  assert (Hm : alter (fun _ => f) (next_field s0) (fields s1) = <[next_field s0 := f]> (fields s0)).
  { unfold s1. cbn. apply map_eq. intros i. destruct (decide (i = next_field s0)) as [->|Hi].
    - by rewrite lookup_alter_eq, !lookup_insert_eq.
    - by rewrite lookup_alter_ne, !lookup_insert_ne. }
  fold f. rewrite Hm. destruct (insert_fresh s0 l f Hr) as [Hr2 He].
  assert (Hnin : next_field s0 ∉ l).
  { intros Hin. pose proof (l_fresh _ _ (r_listed _ _ Hr) _ Hin). lia. }
  eapply wp_mono.
  - eapply (link_field_spec _ l (next_field s0) f); [exact Hr2|exact Hpow|exact Hnin| |apply lookup_insert_eq|done|done].
    cbn. lia.
  - intros r s' (-> & Hr' & He' & _ & Hp'). split; [intros Hc; rewrite Hp'; by apply Hcalm|right]. exists (next_field s0). split; [done|].
    exists (l ++ [next_field s0]). split; [exact Hr'|]. rewrite fmap_app. cbn [fmap list_fmap]. f_equal.
    + apply list_fmap_ext. intros i a Ha. rewrite He'. cbn. symmetry. apply He. by eapply list_elem_of_lookup_2.
    + f_equal. rewrite He'. cbn. by rewrite (entry_at_some _ _ f) by apply lookup_insert_eq.
  - done.
Qed.

Lemma ready_set_pool s es p : ready s es -> ready (set_pool p s) es.
Proof. intros [(l & Hr & ->) Hp]. split; [|done]. exists l. split; [by apply repr_set_pool|done]. Qed.

Lemma calm_trans s1 s2 s3 : calm s1 s2 -> calm s2 s3 -> calm s1 s3.
Proof. unfold calm. auto. Qed.

Lemma calm_set_pool s p : (pool_ s = [] -> p = []) -> calm s (set_pool p s).
Proof. intros H Hp. cbn. auto. Qed.

Lemma wp_copy d s es (Q : option (list Z) -> HttpHeaders -> Prop) E :
  ready s es ->
  (forall s', ready s' es -> calm s s' -> Q (Some d) s') ->
  (forall s', ready s' es -> calm s s' -> pool_ s <> [] -> Q None s') ->
  wp (copy_to_pool d) Q E s.
Proof.
  intros Hr HS HN. unfold copy_to_pool. destruct d as [|c d]; [exact (HS s Hr (fun H => H))|]. cbn [length Nat.eqb].
  apply wp_bind, wp_pool_alloc. intros ok p Hp. destruct ok; cbn [negb].
  - apply HS; [by apply ready_set_pool|apply calm_set_pool; naive_solver].
  - apply HN; [by apply ready_set_pool|apply calm_set_pool; naive_solver|naive_solver].
Qed.

Lemma wp_copy_lowercase d s es (Q : option (list Z) * Z -> HttpHeaders -> Prop) E :
  ready s es ->
  (forall s', ready s' es -> calm s s' -> Q (Some (map lower d), hash_name d) s') ->
  (forall s', ready s' es -> calm s s' -> pool_ s <> [] -> Q (None, 0) s') ->
  wp (copy_lowercase_to_pool d) Q E s.
Proof.
  intros Hr HS HN. unfold copy_lowercase_to_pool. destruct d as [|c d]; [exact (HS s Hr (fun H => H))|]. cbn [length Nat.eqb].
  apply wp_bind, wp_pool_alloc. intros ok p Hp. destruct ok; cbn [negb].
  - apply HS; [by apply ready_set_pool|apply calm_set_pool; naive_solver].
  - apply HN; [by apply ready_set_pool|apply calm_set_pool; naive_solver|naive_solver].
Qed.

(** What a function that adds the entry [e] returns and leaves: nothing changes
    when memory or a length limit refuses it. *)
Definition added (s : HttpHeaders) (long : bool) (es : list Entry) (e : Entry) (r : option Z)
  (s' : HttpHeaders) : Prop :=
  calm s s' /\
  ((r = None /\ represents s' es /\ (pool_ s <> [] \/ long = true)) \/
   (exists a, r = Some a /\ long = false /\ represents s' (es ++ [e]))).

Definition unchanged (s : HttpHeaders) (es : list Entry) (s' : HttpHeaders) : Prop :=
  represents s' es /\ pool_ s <> [].

Lemma added_refused s long es e s' :
  ready s' es -> calm s s' -> pool_ s <> [] \/ long = true -> added s long es e None s'.
Proof. intros [Hr _] Hc Hp. split; [done|]. by left. Qed.

Lemma added_new n low v h s s0 es :
  ready s0 es -> calm s s0 -> wp (new_field n low v h) (added s false es (mkEntry n low v h)) (unchanged s es) s0.
Proof.
  intros Hr Hc. eapply wp_mono; [by apply (new_field_spec n low v h s0 es (fun _ => False))| |done].
  intros r s' [Hc' [(-> & Hr' & Hp)|(a & -> & Hr')]]; (split; [by eapply calm_trans|]); [left|right; eauto].
  split; [done|]. split; [done|]. left. intros Hn. by apply Hp, Hc.
Qed.

(** The length of an accepted name fits the 32 bits of [name_len]. *)
Lemma lowcase_prefix_eq name low :
  Z.of_nat (length name) <= max_u32 -> lowcase_prefix name low = take (length name) low.
Proof.
  unfold max_u32. intros Hl. unfold lowcase_prefix. rewrite wrap_small by (split; lia). by rewrite Nat2Z.id.
Qed.

(** The common start of the four functions: buckets, then the length test. *)
Lemma wp_guarded (body : M (option Z)) name value s es e :
  represents s es ->
  (forall s0, ready s0 es -> calm s s0 -> too_long name value = false ->
     wp body (added s false es e) (unchanged s es) s0) ->
  wp (ok <- ensure_buckets;; if negb ok then ret None else if too_long name value then ret None else body)
     (added s (too_long name value) es e) (unchanged s es) s.
Proof.
  intros Hr Hb. apply wp_bind. eapply wp_mono; [by apply ensure_buckets_spec| |done].
  intros ok s0 (-> & Hr0 & Hc0). cbn [negb]. destruct (too_long name value) eqn:Hl.
  - apply added_refused; auto.
  - by apply Hb.
Qed.

Lemma add_spec name value s es :
  represents s es ->
  wp (add name value)
     (added s (too_long name value) es (mkEntry name (map lower name) value (hash_name name))) (unchanged s es) s.
Proof.
  intros Hr. apply wp_guarded; [done|]. intros s0 Hr0 Hc0 _.
  apply wp_bind, (wp_copy _ _ es); [done|intros s1 Hr1 Hc1|intros s1 Hr1 Hc1 Hp1].
  2: { apply added_refused; [done|by eapply calm_trans|]. left. intros Hn. by apply Hp1, Hc0. }
  apply wp_bind, (wp_copy_lowercase _ _ es); [done|intros s2 Hr2 Hc2|intros s2 Hr2 Hc2 Hp2].
  2: { apply added_refused; [done|by eauto using calm_trans|]. left. intros Hn. by apply Hp2, Hc1, Hc0. }
  apply wp_bind, (wp_copy _ _ es); [done|intros s3 Hr3 Hc3|intros s3 Hr3 Hc3 Hp3].
  2: { apply added_refused; [done|by eauto using calm_trans|]. left. intros Hn. by apply Hp3, Hc2, Hc1, Hc0. }
  apply added_new; [done|by eauto using calm_trans].
Qed.

Lemma add_hashed_spec name value low hash s es :
  represents s es ->
  wp (add_hashed name value low hash)
     (added s (too_long name value) es (mkEntry name (lowcase_prefix name low) value hash)) (unchanged s es) s.
Proof.
  intros Hr. apply wp_guarded; [done|]. intros s0 Hr0 Hc0 _.
  apply wp_bind, (wp_copy _ _ es); [done|intros s1 Hr1 Hc1|intros s1 Hr1 Hc1 Hp1].
  2: { apply added_refused; [done|by eapply calm_trans|]. left. intros Hn. by apply Hp1, Hc0. }
  apply wp_bind, (wp_copy _ _ es); [done|intros s2 Hr2 Hc2|intros s2 Hr2 Hc2 Hp2].
  2: { apply added_refused; [done|by eauto using calm_trans|]. left. intros Hn. by apply Hp2, Hc1, Hc0. }
  apply wp_bind, (wp_copy _ _ es); [done|intros s3 Hr3 Hc3|intros s3 Hr3 Hc3 Hp3].
  2: { apply added_refused; [done|by eauto using calm_trans|]. left. intros Hn. by apply Hp3, Hc2, Hc1, Hc0. }
  apply added_new; [done|by eauto using calm_trans].
Qed.

Lemma add_view_spec name value s es :
  represents s es ->
  wp (add_view name value)
     (added s (too_long name value) es (mkEntry name name value (hash_name name))) (unchanged s es) s.
Proof. intros Hr. apply wp_guarded; [done|]. intros s0 Hr0 Hc0 _. by apply added_new. Qed.

Lemma add_view_hashed_spec name value low hash s es :
  represents s es ->
  wp (add_view_hashed name value low hash)
     (added s (too_long name value) es (mkEntry name (lowcase_prefix name low) value hash)) (unchanged s es) s.
Proof. intros Hr. apply wp_guarded; [done|]. intros s0 Hr0 Hc0 _. by apply added_new. Qed.

(** ** Searching *)

Definition hits (ehit : Entry -> bool) (m : gmap Z HeaderField) (l : list Z) : list Z :=
  filter (fun a => ehit (entry_at m a) = true) l.

Lemma hits_entries ehit m (l : list Z) :
  entry_at m <$> hits ehit m l = filter (fun e => ehit e = true) (entry_at m <$> l).
Proof.
  symmetry. apply filter_fmap.
Qed.

(** Either no node of the chain is hit, or [r] is the first that is. *)
Definition found (ehit : Entry -> bool) (m : gmap Z HeaderField) (l : list Z) (r : option Z) : Prop :=
  match hits ehit m l with
  | [] => r = None
  | a :: more => r = Some a /\ exists rest, bseg m (Some a) (a :: rest) None /\
                   hits ehit m rest = more /\ (length rest < length l)%nat
  end.

Lemma find_loop_spec hit ehit fuel h l s (Q : option Z -> HttpHeaders -> Prop) E :
  (forall f, hit f = ehit (entry_of f)) -> bseg (fields s) h l None -> (length l <= fuel)%nat ->
  (forall r, found ehit (fields s) l r -> Q r s) -> wp (find_loop fuel hit h) Q E s.
Proof.
  intros Hhit Hb Hf HQ. revert h l Hb Hf HQ.
  induction fuel as [|fuel IH]; intros h l Hb Hf HQ.
  - destruct l; [|cbn in Hf; lia]. cbn in Hb. subst h. by apply HQ.
  - destruct l as [|a l]; cbn [bseg] in Hb; [subst h; by apply HQ|].
    destruct Hb as (-> & f & Hfa & Hb). cbn [find_loop].
    apply wp_bind, (wp_load _ f); [done|]. rewrite Hhit.
    assert (Hea : entry_at (fields s) a = entry_of f) by (by apply entry_at_some).
    destruct (ehit (entry_of f)) eqn:He.
    + apply HQ. unfold found, hits. rewrite filter_cons_True by (by rewrite Hea).
      split; [done|]. exists l. cbn. eauto 10.
    + apply (IH _ l); [done|cbn in Hf; lia|]. intros r Hr. apply HQ. unfold found, hits in *.
      rewrite filter_cons_False by (rewrite Hea; congruence).
      destruct (filter _ l); [done|]. destruct Hr as [-> (rest & ? & ? & ?)]. split; [done|].
      exists rest. cbn. eauto with lia.
Qed.

(** The entries of a bucket that a search for [hash] can hit are all of them. *)
Lemma hits_bucket ehit hash m n l :
  (forall e, ehit e = true -> e_hash e = hash) ->
  hits ehit m (reverse (filter (in_bucket m n (Z.to_nat (bucket_index n hash))) l)) = reverse (hits ehit m l).
Proof.
  intros Hh. unfold hits. rewrite filter_reverse. f_equal. rewrite list_filter_filter_l; [done|].
  intros a Ha. unfold in_bucket. by rewrite (Hh _ Ha).
Qed.

Lemma chain_length s l b :
  listed s l -> (length (reverse (filter (in_bucket (fields s) (length (bucket_head_ s)) b) l))
    <= S (size (fields s)))%nat.
Proof.
  intros Hl. rewrite length_reverse. pose proof (length_filter (in_bucket (fields s) (length (bucket_head_ s)) b) l).
  pose proof (nodes_fuel (fields s) l (l_nodup _ _ Hl)). etransitivity; [exact H|].
  etransitivity; [apply H0|lia]. intros. by eapply listed_in.
Qed.

Lemma wp_find_in_bucket hash hit ehit s l (Q : option Z -> HttpHeaders -> Prop) E :
  repr s l -> (forall f, hit f = ehit (entry_of f)) -> (forall e, ehit e = true -> e_hash e = hash) ->
  (forall r chain, found ehit (fields s) chain r -> hits ehit (fields s) chain = reverse (hits ehit (fields s) l) ->
     (length chain <= S (size (fields s)))%nat -> Q r s) ->
  wp (find_in_bucket hash hit) Q E s.
Proof.
  intros Hr Hhit Hhash HQ. unfold find_in_bucket. apply wp_bind, wp_gets.
  destruct (r_count _ _ Hr) as [[Hnil ->]|Hpow].
  - rewrite Hnil. cbn. apply (HQ None []); [done|done|cbn; lia].
  - pose proof (power_of_two_pos _ Hpow). destruct (Nat.eqb_spec (length (bucket_head_ s)) 0) as [He|_]; [lia|].
    apply wp_bind, wp_gets. pose proof (bucket_index_bound _ hash Hpow) as Hlt.
    destruct (lookup_lt_is_Some_2 _ _ Hlt) as [h Hh]. apply wp_bind, (wp_get_bucket _ h); [done|].
    apply wp_bind, wp_gets. eapply find_loop_spec; [done|by eapply r_bucketed| |].
    + apply chain_length. by destruct Hr.
    + intros r Hf. eapply HQ; [exact Hf|by apply hits_bucket|]. apply chain_length. by destruct Hr.
Qed.

(** The tests of the code, on entries. *)
Definition by_name (hash : Z) (key : list Z) (e : Entry) : bool :=
  (e_hash e =? hash) && equals_ascii_ci (e_name e) key.
Definition by_lowcase (hash : Z) (key : list Z) (e : Entry) : bool :=
  (e_hash e =? hash) && equals_ascii_ci (e_lowcase e) key.

Lemma by_name_hash hash key e : by_name hash key e = true -> e_hash e = hash.
Proof. intros [H%Z.eqb_eq _]%andb_true_iff. done. Qed.
Lemma by_lowcase_hash hash key e : by_lowcase hash key e = true -> e_hash e = hash.
Proof. intros [H%Z.eqb_eq _]%andb_true_iff. done. Qed.

Definition matching (ehit : Entry -> bool) (es : list Entry) : list Entry := filter (fun e => ehit e = true) es.
Definition others (ehit : Entry -> bool) (es : list Entry) : list Entry := filter (fun e => ehit e = false) es.

Lemma wp_find_first_node name s l (Q : option Z -> HttpHeaders -> Prop) E :
  repr s l ->
  Q (last (hits (by_name (hash_name name) name) (fields s) l)) s -> wp (find_first_node name) Q E s.
Proof.
  intros Hr HQ. apply (wp_find_in_bucket _ _ (by_name (hash_name name) name) _ l); [done|done|apply by_name_hash|].
  intros r chain Hf Hc _. unfold found in Hf. rewrite Hc in Hf. rewrite <-head_reverse in HQ.
  destruct (reverse (hits _ (fields s) l)) as [|a more]; [by subst r|].
  by destruct Hf as [-> _].
Qed.

Lemma hits_in ehit m l a : a ∈ hits ehit m l -> a ∈ l.
Proof. intros Ha%list_elem_of_filter. naive_solver. Qed.

Lemma get_spec name s es (Q : list Z -> HttpHeaders -> Prop) E :
  represents s es ->
  Q (from_option e_value [] (last (matching (by_name (hash_name name) name) es))) s -> wp (get name) Q E s.
Proof.
  intros (l & Hr & ->) HQ. apply wp_bind, (wp_find_first_node _ _ l); [done|].
  unfold matching in HQ. rewrite <-hits_entries, fmap_last in HQ.
  destruct (last (hits _ _ l)) as [a|] eqn:Hl; [|done].
  apply last_Some_elem_of, hits_in in Hl. destruct (listed_in _ _ _ (r_listed _ _ Hr) Hl) as [f Hf].
  apply wp_bind, (wp_load _ f); [done|]. cbn in HQ. by rewrite (entry_at_some _ _ f) in HQ.
Qed.

Lemma contains_spec name s es (Q : bool -> HttpHeaders -> Prop) E :
  represents s es ->
  Q (existsb (by_name (hash_name name) name) es) s -> wp (contains name) Q E s.
Proof.
  intros (l & Hr & ->) HQ. apply wp_bind, (wp_find_first_node _ _ l); [done|].
  assert (Hex : existsb (by_name (hash_name name) name) (entry_at (fields s) <$> l) =
    match last (hits (by_name (hash_name name) name) (fields s) l) with Some _ => true | None => false end).
  { clear HQ Hr. unfold hits. induction l as [|a l IH]; [done|]. rewrite fmap_cons, filter_cons. cbn [existsb].
    rewrite IH. case_decide as Hd; [rewrite Hd|by apply not_true_is_false in Hd as ->].
    rewrite last_cons. cbn. by destruct (last _). }
  rewrite Hex in HQ. by destruct (last (hits _ _ l)).
Qed.

Lemma match_loop_spec key hash (fuel : nat) r chain s (Q : list (list Z) -> HttpHeaders -> Prop) E :
  found (by_lowcase hash key) (fields s) chain r -> (length chain <= fuel)%nat ->
  (length chain <= S (size (fields s)))%nat ->
  Q ((fun a => e_value (entry_at (fields s) a)) <$> hits (by_lowcase hash key) (fields s) chain) s ->
  wp (match_loop fuel key hash r) Q E s.
Proof.
  revert r chain Q. induction fuel as [|fuel IH]; intros r chain Q Hf Hlen Hsz HQ; unfold found in Hf.
  - destruct chain; [|cbn in Hlen; lia]. cbn in Hf. by subst r.
  - destruct (hits _ (fields s) chain) as [|a more]; [by subst r|].
    destruct Hf as [-> (rest & Hb & Hm & Hlt)]. destruct Hb as (_ & f & Hfa & Hb).
    cbn [match_loop]. apply wp_bind, (wp_load _ f); [done|].
    apply wp_bind. unfold next_match_node. apply wp_bind, (wp_load _ f); [done|].
    apply wp_bind, wp_gets. eapply (find_loop_spec _ (by_lowcase hash key) _ _ rest); [done|done|lia|].
    intros next Hnext. apply wp_bind. eapply (IH next rest); [done|lia|lia|].
    rewrite Hm. rewrite fmap_cons, (entry_at_some _ _ f) in HQ by done. exact HQ.
Qed.

Lemma get_all_spec key hash s es (Q : list (list Z) -> HttpHeaders -> Prop) E :
  represents s es ->
  Q (e_value <$> reverse (matching (by_lowcase hash key) es)) s -> wp (get_all_hashed key hash) Q E s.
Proof.
  intros (l & Hr & ->) HQ. unfold get_all_hashed, find_first_node_lowcase. apply wp_bind.
  apply (wp_find_in_bucket _ _ (by_lowcase hash key) _ l); [done|done|apply by_lowcase_hash|].
  intros r chain Hf Hc Hlen. apply wp_bind, wp_gets.
  unfold matching in HQ. rewrite <-hits_entries, <-fmap_reverse, <-Hc, <-list_fmap_compose in HQ.
  by eapply match_loop_spec.
Qed.

(** ** Iterating *)

Lemma iterate_loop_spec (fuel : nat) p l s (Q : list (list Z * list Z) -> HttpHeaders -> Prop) E :
  aseg (fields s) p l None -> (length l <= fuel)%nat ->
  Q ((fun a => (e_name (entry_at (fields s) a), e_value (entry_at (fields s) a))) <$> l) s ->
  wp (iterate_loop fuel (head l)) Q E s.
Proof.
  revert p l Q. induction fuel as [|fuel IH]; intros p l Q Hs Hf HQ.
  - destruct l; [done|cbn in Hf; lia].
  - destruct l as [|a l]; [done|]. destruct Hs as (f & Hfa & _ & Hn & Hs). cbn [iterate_loop head].
    apply wp_bind, (wp_load _ f); [done|]. apply wp_bind.
    replace (next_all f) with (head l) by (rewrite Hn; by destruct l).
    eapply IH; [done|cbn in Hf; lia|]. by rewrite fmap_cons, (entry_at_some _ _ f) in HQ by done.
Qed.

Lemma iterate_spec s es (Q : list (list Z * list Z) -> HttpHeaders -> Prop) E :
  represents s es -> Q ((fun e => (e_name e, e_value e)) <$> es) s -> wp iterate Q E s.
Proof.
  intros (l & Hr & ->) HQ. unfold iterate. apply wp_bind, wp_gets, wp_bind, wp_gets.
  pose proof (r_listed _ _ Hr) as Hl. rewrite (l_head _ _ Hl). eapply iterate_loop_spec; [by apply Hl| |].
  - apply Nat.le_le_succ_r, nodes_fuel; [by apply Hl|]. intros a. by apply listed_in.
  - by rewrite <-list_fmap_compose in HQ.
Qed.

(** ** Removing *)

Lemma filter_ne_id a (l : list Z) : a ∉ l -> filter (fun x => x <> a) l = l.
Proof. intros Hl. induction l as [|x l IH]; [done|]. rewrite filter_cons_True, IH by set_solver. done. Qed.

Lemma filter_split a (k r : list Z) :
  NoDup (k ++ a :: r) -> filter (fun x => x <> a) (k ++ a :: r) = k ++ r.
Proof.
  intros (_ & Hk & Hr)%NoDup_app. apply NoDup_cons in Hr as [Har _].
  rewrite filter_app, filter_cons_False by naive_solver. rewrite !filter_ne_id; [done|done|].
  intros Hin. by apply (Hk a); [|set_solver].
Qed.

(** Chains and lists of a table after [a] has left both. *)
Definition unlinked (s : HttpHeaders) (b : nat) (kept : list Z) (f : HeaderField) : HttpHeaders :=
  let heads := match last kept with Some _ => bucket_head_ s | None => <[b := next_bucket f]> (bucket_head_ s) end in
  mkHeaders (drop_all f (drop_next kept (next_bucket f) (fields s))) (next_field s) (pool_ s) heads
    (match prev_all f with Some _ => all_head_ s | None => next_all f end)
    (match next_all f with Some _ => all_tail_ s | None => prev_all f end) (u64 (size_ s - 1)).

Lemma unlinked_entry s b kept f x : entry_at (fields (unlinked s b kept f)) x = entry_at (fields s) x.
Proof.
  apply entry_at_ext. unfold unlinked. cbn [fields].
  by rewrite lookup_drop_all_proj, lookup_drop_next_proj.
Qed.

Lemma unlinked_length s b kept f : length (bucket_head_ (unlinked s b kept f)) = length (bucket_head_ s).
Proof. unfold unlinked. cbn. destruct (last kept); [done|]. by rewrite length_insert. Qed.

Section unlink.
Variables (s : HttpHeaders) (b : nat) (kept rest l1 l2 : list Z) (a : Z) (f : HeaderField).
Hypothesis Hr : repr s (l1 ++ a :: l2).
Hypothesis Hpow : power_of_two (Z.of_nat (length (bucket_head_ s))).
Hypothesis Hb : (b < length (bucket_head_ s))%nat.
Hypothesis Hchain : reverse (filter (in_bucket (fields s) (length (bucket_head_ s)) b) (l1 ++ a :: l2)) = kept ++ a :: rest.
Hypothesis Hf : fields s !! a = Some f.

Lemma unlink_nodup : NoDup (l1 ++ a :: l2) /\ NoDup (kept ++ a :: rest).
Proof.
  pose proof (l_nodup _ _ (r_listed _ _ Hr)) as Hnd. split; [done|].
  rewrite <-Hchain, reverse_Permutation. by apply NoDup_filter.
Qed.

Lemma unlink_in x : x ∈ kept ++ a :: rest ->
  in_bucket (fields s) (length (bucket_head_ s)) b x /\ x ∈ l1 ++ a :: l2.
Proof. rewrite <-Hchain. by intros Hx%elem_of_reverse%list_elem_of_filter. Qed.

(** The node after which [a] came in its bucket is another node. *)
Lemma unlink_prev_ne x : last kept = Some x -> x <> a.
Proof.
  intros Hl%last_Some_elem_of ->. destruct unlink_nodup as [_ (_ & Hd & _)%NoDup_app].
  apply (Hd a Hl). set_solver.
Qed.

Lemma unlink_lookup_a : drop_next kept (next_bucket f) (fields s) !! a = Some f.
Proof.
  unfold drop_next. destruct (last kept) as [x|] eqn:Hl; [|done].
  rewrite lookup_alter_ne; [done|]. by apply unlink_prev_ne.
Qed.

Lemma unlink_listed : listed (unlinked s b kept f) (l1 ++ l2).
Proof.
  destruct Hr as [[Hnd Hfr Hall Hhd Htl Hsz] _ _].
  assert (Hall' : aseg (drop_next kept (next_bucket f) (fields s)) None (l1 ++ a :: l2) None).
  { apply (aseg_ext (fields s)); [|done]. intros x _. by apply lookup_drop_next_proj. }
  destruct (aseg_unlink _ _ _ _ _ Hall' Hnd unlink_lookup_a) as (Hs & Hp & Hn).
  assert (Hnd' : NoDup (l1 ++ l2)).
  { apply NoDup_app in Hnd as (? & Hd & ?%NoDup_cons). apply NoDup_app. split; [done|]. split; [|naive_solver].
    intros x Hx Hx2. apply (Hd x Hx). set_solver. }
  split; cbn.
  - done.
  - intros x Hx. apply Hfr. set_solver.
  - done.
  - rewrite Hp, Hn, Hhd. destruct l1 as [|y l1' _] using rev_ind; [done|]. rewrite last_snoc.
    by destruct l1'.
  - rewrite Hp, Hn, Htl. destruct l2 as [|y l2']; cbn [head].
    + by rewrite app_nil_r.
    + rewrite !last_app. change (last (a :: y :: l2')) with (last (y :: l2')). done.
  - rewrite Hsz, !length_app. cbn [length]. unfold wrap. rewrite Zminus_mod_idemp_l. f_equal. lia.
Qed.

Lemma unlink_bucketed : bucketed (unlinked s b kept f) (l1 ++ l2).
Proof.
  destruct unlink_nodup as [Hnd Hndk]. intros i h Hi.
  rewrite (in_bucket_ext (fields s)) by (intros; apply unlinked_entry). rewrite unlinked_length.
  rewrite <-(filter_split a l1 l2), list_filter_filter by done.
  assert (Hcomm : filter (fun x => in_bucket (fields s) (length (bucket_head_ s)) i x /\ x <> a) (l1 ++ a :: l2) =
                  filter (fun x => x <> a) (filter (in_bucket (fields s) (length (bucket_head_ s)) i) (l1 ++ a :: l2))).
  { rewrite list_filter_filter. apply list_filter_iff. tauto. }
  rewrite Hcomm, <-filter_reverse. clear Hcomm. cbn [fields unlinked].
  apply (bseg_ext (drop_next kept (next_bucket f) (fields s))).
  { intros x _. by apply lookup_drop_all_proj. }
  destruct (decide (i = b)) as [->|Hne].
  - rewrite Hchain, filter_split by done.
    destruct (lookup_lt_is_Some_2 _ _ Hb) as [h0 Hh0].
    assert (h = match last kept with Some _ => h0 | None => next_bucket f end) as ->.
    { unfold unlinked in Hi. cbn in Hi. destruct (last kept); [congruence|].
      rewrite list_lookup_insert_eq in Hi by done. congruence. }
    apply (bseg_unlink _ _ _ a); [|done|done]. rewrite <-Hchain. by apply (r_bucketed _ _ Hr).
  - assert (Hi' : bucket_head_ s !! i = Some h).
    { unfold unlinked in Hi. cbn in Hi. destruct (last kept); [done|]. by rewrite list_lookup_insert_ne in Hi. }
    assert (Hnot : forall x, x ∈ reverse (filter (in_bucket (fields s) (length (bucket_head_ s)) i) (l1 ++ a :: l2)) ->
                     x ∉ kept ++ a :: rest).
    { intros x [Hx _]%elem_of_reverse%list_elem_of_filter [Hx' _]%unlink_in. unfold in_bucket in *. congruence. }
    rewrite filter_ne_id.
    + apply (bseg_ext (fields s)); [|by apply (r_bucketed _ _ Hr)]. intros x Hx. unfold drop_next.
      destruct (last kept) as [y|] eqn:Hl; [|done]. rewrite lookup_alter_ne; [done|]. intros ->.
      apply (Hnot _ Hx). apply last_Some_elem_of in Hl. set_solver.
    + intros Hx. apply (Hnot _ Hx). set_solver.
Qed.

Lemma unlink_repr : repr (unlinked s b kept f) (l1 ++ l2).
Proof.
  split; [apply unlink_listed|apply unlink_bucketed|]. right. by rewrite unlinked_length.
Qed.

(** The code of [unlink] ends in that table. *)
Lemma wp_unlink bucket (Q : unit -> HttpHeaders -> Prop) E :
  b = Z.to_nat bucket -> Q tt (unlinked s b kept f) ->
  wp (unlink bucket (last kept) (Some a) (next_bucket f)) Q E s.
Proof.
  intros Hbk HQ. pose proof unlink_lookup_a as Ha.
  set (m1 := drop_next kept (next_bucket f) (fields s)) in *.
  assert (Hin : forall x, x ∈ l1 ++ a :: l2 -> is_Some (m1 !! x)).
  { intros x Hx. destruct (listed_in _ _ _ (r_listed _ _ Hr) Hx) as [g Hg].
    pose proof (lookup_drop_next_proj name kept (next_bucket f) (fields s) x ltac:(done)) as Hl.
    fold m1 in Hl. rewrite Hg in Hl. destruct (m1 !! x); [done|discriminate]. }
  destruct (aseg_unlink m1 l1 a f l2) as (_ & Hp & Hn); [|by destruct unlink_nodup|done|].
  { apply (aseg_ext (fields s)); [|by apply Hr]. intros x _. by apply lookup_drop_next_proj. }
  assert (Hpa : prev_all f <> Some a /\ next_all f <> Some a).
  { rewrite Hp, Hn. destruct unlink_nodup as [(_ & Hd & (Ha2 & _)%NoDup_cons)%NoDup_app _]. split.
    - intros Hx%last_Some_elem_of. apply (Hd a Hx). set_solver.
    - intros Hx%head_Some_elem_of. done. }
  set (heads := match last kept with Some _ => bucket_head_ s | None => <[b := next_bucket f]> (bucket_head_ s) end).
  assert (Hstep : forall Q', Q' tt (set_bucket_head heads (set_fields m1 s)) ->
    wp (match last kept with Some _ => update (last kept) (with_next_bucket (next_bucket f))
        | None => put_bucket bucket (next_bucket f) end) Q' E s).
  { intros Q' HQ'. unfold heads, m1, drop_next in *. destruct (last kept) as [x|] eqn:Hl.
    - destruct (unlink_in x) as [_ Hx]; [apply last_Some_elem_of in Hl; set_solver|].
      destruct (listed_in _ _ _ (r_listed _ _ Hr) Hx) as [g Hg].
      apply (wp_update _ g); [done|]. by destruct s.
    - apply wp_put_bucket; [lia|]. rewrite <-Hbk. by destruct s. }
  unfold unlink. apply wp_bind, Hstep. apply wp_bind, (wp_load _ f); [done|].
  unfold unlinked in HQ. fold heads m1 in HQ. unfold drop_all in HQ.
  apply wp_bind. destruct (prev_all f) as [x|] eqn:Hpf.
  - destruct (Hin x) as [g Hg]; [symmetry in Hp; apply last_Some_elem_of in Hp; set_solver|].
    apply (wp_update _ g); [done|]. apply wp_bind, (wp_load _ f).
    { cbn -[m1]. rewrite lookup_alter_ne by naive_solver. done. }
    rewrite Hpf. apply wp_bind. destruct (next_all f) as [y|] eqn:Hnf.
    + destruct (Hin y) as [g' Hg']; [symmetry in Hn; apply head_Some_elem_of in Hn; set_solver|].
      apply (wp_update _ (if decide (x = y) then with_next_all (Some y) g' else g')); [|done].
      cbn -[m1]. case_decide as Hxy; [subst y; by rewrite lookup_alter_eq, Hg'|by rewrite lookup_alter_ne].
    + exact HQ.
  - apply wp_bind, (wp_load _ f); [done|]. rewrite Hpf. apply wp_bind. destruct (next_all f) as [y|] eqn:Hnf.
    + destruct (Hin y) as [g' Hg']; [symmetry in Hn; apply head_Some_elem_of in Hn; set_solver|].
      apply (wp_update _ g'); [done|]. exact HQ.
    + exact HQ.
Qed.

End unlink.

(** What a loop over the rest of a bucket removes. *)
Definition survives (ehit : Entry -> bool) (m : gmap Z HeaderField) (rest : list Z) (x : Z) : Prop :=
  ~ (x ∈ rest /\ ehit (entry_at m x) = true).

#[export] Instance survives_dec ehit m rest x : Decision (survives ehit m rest x).
Proof. unfold survives. apply _. Defined.

Lemma survives_all ehit m (l : list Z) : filter (survives ehit m []) l = l.
Proof.
  induction l as [|a l IH]; [done|].
  rewrite filter_cons_True, IH by (unfold survives; set_solver). done.
Qed.

Definition same_shape (s s' : HttpHeaders) : Prop :=
  pool_ s' = pool_ s /\ length (bucket_head_ s') = length (bucket_head_ s) /\
  forall x, entry_at (fields s') x = entry_at (fields s) x.

Lemma remove_loop_spec hit ehit bucket (fuel : nat) rest kept removed l s (Q : Z -> HttpHeaders -> Prop) E :
  (forall f, hit f = ehit (entry_of f)) -> repr s l ->
  power_of_two (Z.of_nat (length (bucket_head_ s))) -> (Z.to_nat bucket < length (bucket_head_ s))%nat ->
  reverse (filter (in_bucket (fields s) (length (bucket_head_ s)) (Z.to_nat bucket)) l) = kept ++ rest ->
  (length rest <= fuel)%nat -> in_width 64 removed ->
  (forall s', repr s' (filter (survives ehit (fields s) rest) l) -> same_shape s s' ->
     Q (u64 (removed + Z.of_nat (length (hits ehit (fields s) rest)))) s') ->
  wp (remove_loop fuel hit bucket removed (last kept) (head rest)) Q E s.
Proof.
  intros Hhit. revert rest kept removed l s Q.
  induction fuel as [|fuel IH]; intros rest kept removed l s Q Hr Hpow Hb Hchain Hlen Hrem HQ.
  - destruct rest; [|cbn in Hlen; lia]. specialize (HQ s). rewrite survives_all in HQ. cbn in HQ.
    rewrite Z.add_0_r, wrap_small in HQ by done. by apply HQ.
  - destruct rest as [|a rest].
    { specialize (HQ s). rewrite survives_all in HQ. cbn in HQ.
      rewrite Z.add_0_r, wrap_small in HQ by done. by apply HQ. }
    destruct (lookup_lt_is_Some_2 _ _ Hb) as [h Hh]. pose proof (r_bucketed _ _ Hr _ _ Hh) as Hseg.
    rewrite Hchain in Hseg. apply bseg_app in Hseg as (x & _ & -> & f & Hf & Hseg). apply bseg_next in Hseg as Hnx.
    assert (Ha : a ∈ l).
    { assert (Hin : a ∈ kept ++ a :: rest) by set_solver.
      rewrite <-Hchain in Hin. apply elem_of_reverse, list_elem_of_filter in Hin. by destruct Hin. }
    cbn [remove_loop head]. apply wp_bind, (wp_load _ f); [done|]. cbv zeta. rewrite Hhit.
    pose proof (entry_at_some _ _ _ Hf) as Hea.
    destruct (ehit (entry_of f)) eqn:He.
    + apply list_elem_of_split in Ha as (l1 & l2 & ->). apply wp_bind.
      eapply (wp_unlink s (Z.to_nat bucket) kept rest l1 l2 a f); [done..|].
      pose proof (unlink_repr s (Z.to_nat bucket) kept rest l1 l2 a f Hr Hpow Hb Hchain Hf) as Hr'.
      pose proof (l_nodup _ _ (r_listed _ _ Hr)) as Hnd.
      assert (Hnk : NoDup (kept ++ a :: rest)).
      { rewrite <-Hchain, reverse_Permutation. by apply NoDup_filter. }
      rewrite Hnx. apply (IH _ _ _ (l1 ++ l2)); [done| | | |cbn in Hlen; lia|apply wrap_range; lia|].
      * by rewrite unlinked_length.
      * by rewrite unlinked_length.
      * rewrite unlinked_length, (in_bucket_ext (fields s)) by (intros; apply unlinked_entry).
        rewrite <-(filter_split a l1 l2), <-(filter_split a kept rest), <-Hchain, <-filter_reverse by done.
        rewrite !filter_reverse. f_equal. rewrite !list_filter_filter. apply list_filter_iff. tauto.
      * intros s' Hs' (Hp' & Hl' & He').
        assert (Hhits : hits ehit (fields (unlinked s (Z.to_nat bucket) kept f)) rest = hits ehit (fields s) rest).
        { apply list_filter_iff. intros y. by rewrite unlinked_entry. }
        assert (Hcount : length (hits ehit (fields s) (a :: rest)) = S (length (hits ehit (fields s) rest))).
        { unfold hits at 1. by rewrite filter_cons_True by (by rewrite Hea). }
        rewrite Hhits. replace (u64 (u64 (removed + 1) + _))
          with (u64 (removed + Z.of_nat (length (hits ehit (fields s) (a :: rest))))).
        -- apply HQ.
           ++ replace (filter _ (l1 ++ a :: l2))
                with (filter (survives ehit (fields (unlinked s (Z.to_nat bucket) kept f)) rest) (l1 ++ l2)); [done|].
              rewrite <-(filter_split a l1 l2), list_filter_filter by done. apply list_filter_iff. intros y.
              unfold survives. rewrite unlinked_entry, elem_of_cons.
              destruct (decide (y = a)) as [->|]; [rewrite Hea|]; naive_solver.
           ++ split; [done|]. split; [by rewrite Hl', unlinked_length|]. intros y. by rewrite He', unlinked_entry.
        -- rewrite Hcount. unfold wrap. rewrite Zplus_mod_idemp_l. f_equal. lia.
    + rewrite Hnx. replace (Some a) with (last (kept ++ [a])) by apply last_snoc.
      eapply (IH rest (kept ++ [a]) _ l); [done|done|done|by rewrite <-app_assoc|cbn in Hlen; lia|done|].
      intros s' Hs' Hsame.
      assert (Hcount : hits ehit (fields s) (a :: rest) = hits ehit (fields s) rest).
      { unfold hits at 1. by rewrite filter_cons_False by (rewrite Hea; congruence). }
      rewrite <-Hcount. apply HQ; [|done].
      replace (filter _ l) with (filter (survives ehit (fields s) rest) l); [done|].
      apply list_filter_iff. intros y. unfold survives. rewrite elem_of_cons.
      destruct (decide (y = a)) as [->|]; [rewrite Hea, He; by split; intros _ [_ ?]|naive_solver].
Qed.

Lemma others_entries ehit m (l : list Z) :
  entry_at m <$> filter (fun a => ehit (entry_at m a) = false) l = others ehit (entry_at m <$> l).
Proof.
  symmetry. apply filter_fmap.
Qed.

Lemma remove_in_bucket_spec hash hit ehit s es (Q : Z -> HttpHeaders -> Prop) E :
  represents s es -> (forall f, hit f = ehit (entry_of f)) -> (forall e, ehit e = true -> e_hash e = hash) ->
  (forall s', represents s' (others ehit es) -> calm s s' -> (bucket_head_ s <> [] -> bucket_head_ s' <> []) ->
     Q (u64 (Z.of_nat (length (matching ehit es)))) s') ->
  wp (remove_in_bucket hash hit) Q E s.
Proof.
  intros (l & Hr & ->) Hhit Hhash HQ. unfold remove_in_bucket. apply wp_bind, wp_gets.
  pose proof (r_listed _ _ Hr) as Hl. rewrite (l_head _ _ Hl). destruct l as [|a0 l0] eqn:Hll.
  { specialize (HQ s). cbn in *. apply HQ; [by exists []|by intros ?|done]. }
  rewrite <-Hll in *. cbn [head]. replace (head l) with (Some a0) by (by rewrite Hll).
  destruct (r_count _ _ Hr) as [[_ ?]|Hpow]; [congruence|]. pose proof (power_of_two_pos _ Hpow).
  destruct (Nat.eqb_spec (length (bucket_head_ s)) 0) as [He|_]; [lia|].
  pose proof (bucket_index_bound _ hash Hpow) as Hlt. destruct (lookup_lt_is_Some_2 _ _ Hlt) as [h Hh].
  apply wp_bind, wp_gets. apply wp_bind, (wp_get_bucket _ h); [done|]. apply wp_bind, wp_gets.
  rewrite (bseg_next _ _ _ (r_bucketed _ _ Hr _ _ Hh)). change None with (@last Z []).
  eapply (remove_loop_spec hit ehit _ _ _ [] 0 l); [done|done|done|done|done|by apply chain_length|done|].
  intros s' Hr' (Hp' & Hl' & He'). rewrite hits_bucket, length_reverse by done. cbn [Z.add].
  rewrite <-(length_fmap (entry_at (fields s))), hits_entries. apply HQ.
  - eexists. split; [exact Hr'|]. rewrite <-others_entries.
    rewrite (list_fmap_ext _ (entry_at (fields s)) (filter (survives _ _ _) l)) by (intros; apply He').
    f_equal. apply filter_ext_in. intros x Hx. unfold survives. rewrite elem_of_reverse, list_elem_of_filter.
    destruct (ehit (entry_at (fields s) x)) eqn:Hex; [|naive_solver].
    split; [congruence|]. intros Hn. exfalso. apply Hn. split; [|done]. split; [|done].
    unfold in_bucket. by rewrite (Hhash _ Hex).
  - intros Hp. congruence.
  - intros _ Hnil. rewrite Hnil in Hl'. cbn in Hl'. lia.
Qed.

(** ** Rebuilding the buckets *)

Lemma rebuild_loop_spec (fuel : nat) l2 l1 s (Q : unit -> HttpHeaders -> Prop) E :
  listed s (l1 ++ l2) -> bucketed s l1 -> power_of_two (Z.of_nat (length (bucket_head_ s))) ->
  (length l2 <= fuel)%nat ->
  (forall s', repr s' (l1 ++ l2) -> same_shape s s' -> Q tt s') ->
  wp (rebuild_loop fuel (head l2)) Q E s.
Proof.
  revert l2 l1 s Q. induction fuel as [|fuel IH]; intros l2 l1 s Q Hl Hb Hpow Hf HQ.
  - destruct l2; [|cbn in Hf; lia]. rewrite app_nil_r in *. apply HQ; [|done]. split; [done|done|by right].
  - destruct l2 as [|a l2].
    { rewrite app_nil_r in *. apply HQ; [|done]. split; [done|done|by right]. }
    destruct (listed_in _ _ a Hl ltac:(set_solver)) as [f Hfa].
    pose proof (bucket_index_bound _ (name_hash f) Hpow) as Hlt.
    destruct (lookup_lt_is_Some_2 _ _ Hlt) as [h Hh].
    cbn [rebuild_loop head]. apply wp_bind, (wp_load _ f); [done|]. apply wp_bind, wp_gets.
    apply wp_bind, (wp_get_bucket _ h); [done|]. apply wp_bind, (wp_update _ f); [done|].
    apply wp_bind, wp_put_bucket; [done|].
    apply wp_bind, (wp_load _ (with_next_bucket h f)); [cbn; by rewrite lookup_alter_eq, Hfa|].
    set (m := alter (with_next_bucket h) a (fields s)).
    assert (Hnx : next_all (with_next_bucket h f) = head l2).
    { pose proof (l_all _ _ Hl) as Hs. apply aseg_app in Hs as [_ (f' & Hf' & _ & Hn & _)].
      cbn. rewrite Hfa in Hf'. injection Hf' as <-. rewrite Hn. by destruct l2. }
    rewrite Hnx.
    assert (He : forall x, entry_at m x = entry_at (fields s) x) by (intros; by apply entry_at_alter).
    apply (IH l2 (l1 ++ [a])); [| | |cbn in Hf; lia|].
    + rewrite <-app_assoc. destruct Hl as [Hnd Hfr Hall Hhd Htl Hsz]. split; try done. cbn [fields set_bucket_head set_fields].
      apply (aseg_ext (fields s)); [|done]. intros x _. by apply lookup_alter_proj.
    + intros i hi Hi. cbn [fields set_bucket_head set_fields bucket_head_] in *. rewrite length_insert.
      pose proof (l_nodup _ _ Hl) as (_ & Hd & _)%NoDup_app.
      eapply bucket_head_push; [exact Hb|exact Hpow| |reflexivity|exact Hh| | | |exact Hi].
      * intros Hin. apply (Hd a Hin). set_solver.
      * intros x Hx. unfold m; rewrite lookup_alter_ne; [done|]. intros ->. apply (Hd _ Hx). set_solver.
      * intros x _. apply He.
      * exists (with_next_bucket h f). unfold m. rewrite lookup_alter_eq, Hfa. done.
    + cbn. by rewrite length_insert.
    + intros s' Hr (Hp & Hlen & He'). rewrite <-app_assoc in Hr. apply HQ; [done|].
      split; [done|]. split; [rewrite Hlen; cbn; by rewrite length_insert|].
      intros x. rewrite He'. apply He.
Qed.

Lemma reserve_bytes_spec bytes s es :
  represents s es ->
  wp (reserve_bytes bytes) (fun _ s' => represents s' es /\ calm s s') (unchanged s es) s.
Proof.
  intros (l & Hr & ->). unfold reserve_bytes. cbv zeta. apply wp_bind, wp_gets.
  set (buckets := next_pow2 _). destruct (_ <? buckets); [|split; [by exists l|by intros ?]].
  assert (Hbk : buckets < 2 ^ 64).
  { unfold buckets, next_pow2. cbv zeta. destruct (_ <=? 1); [done|]. apply wrap_range. lia. }
  apply wp_bind. eapply wp_mono; [by apply init_buckets_spec| |].
  - intros [] s' (n & p & Hpow & Hcalm & ->). unfold rebuild_buckets. apply wp_bind, wp_gets.
    cbn [bucket_head_ set_bucket_head]. rewrite length_replicate. pose proof (power_of_two_pos _ Hpow).
    destruct (Nat.eqb_spec n 0); [lia|].
    assert (Hfill : fill_null (set_bucket_head (replicate n None) (set_pool p s)) =
                    set_bucket_head (replicate n None) (set_pool p s)).
    { unfold fill_null. cbn. by rewrite length_replicate. }
    apply wp_bind, wp_modify. rewrite Hfill. clear Hfill.
    apply wp_bind, wp_gets, wp_bind, wp_gets. pose proof (r_listed _ _ Hr) as Hl.
    change (all_head_ _) with (all_head_ s). rewrite (l_head _ _ Hl).
    eapply (rebuild_loop_spec _ l []).
    + by destruct Hl.
    + unfold set_bucket_head. intros b h Hh. cbn in *. by apply lookup_replicate in Hh as [-> _].
    + cbn. by rewrite length_replicate.
    + cbn. apply Nat.le_le_succ_r, nodes_fuel; [by apply Hl|]. intros a. by apply listed_in.
    + intros s' Hr' (Hp & _ & He). split.
      * exists l. split; [done|]. apply list_fmap_ext. intros i x _. symmetry. apply He.
      * intros Hn. rewrite Hp. cbn. auto.
  - intros s' (Hne & p & ->). split; [|done]. exists l. split; [by apply repr_set_pool|done].
Qed.

Lemma clear_spec s es : represents s es -> wp clear (fun _ s' => represents s' [] /\ calm s s') (fun _ => False) s.
Proof.
  intros (l & Hr & ->). split; [|by intros ?]. exists []. split; [|done]. split.
  - split; cbn; try done; [constructor|set_solver].
  - apply bucketed_replicate.
  - destruct (r_count _ _ Hr) as [[Hn _]|Hp]; [left|right]; cbn; [by rewrite Hn|by rewrite length_replicate].
Qed.

Lemma release_spec s es : represents s es -> wp release (fun _ s' => represents s' [] /\ calm s s') (fun _ => False) s.
Proof.
  intros (l & Hr & ->). split; [|by intros ?]. exists []. split; [|done]. split.
  - split; cbn; try done; [constructor|set_solver].
  - intros b h Hh. done.
  - by left.
Qed.

(** ** Names without case *)

Lemma same_name_ci a b : equals_ascii_ci a b = bool_decide (map lower a = map lower b).
Proof.
  unfold equals_ascii_ci. destruct (Nat.eqb_spec (length a) (length b)) as [Hl|Hl]; cbn [negb].
  - revert b Hl. induction a as [|x a IH]; intros [|y b] Hl; try done. cbn [equals_ascii_ci_loop map].
    destruct (Z.eqb_spec (lower x) (lower y)) as [He|Hne]; cbn [negb].
    + rewrite IH by (cbn in Hl; lia). apply bool_decide_ext. rewrite He. split; congruence.
    + symmetry. apply bool_decide_eq_false. congruence.
  - symmetry. apply bool_decide_eq_false. intros He. apply Hl.
    apply (f_equal length) in He. by rewrite !length_map in He.
Qed.

Lemma lower_idempotent ch : lower (lower ch) = lower ch.
Proof.
  unfold lower at 2 3. destruct ((chr "A" <=? ch) && (ch <=? chr "Z")) eqn:H; [|unfold lower; by rewrite H].
  bool_to_prop. rewrite (wrap_small 8) by (split; lia). unfold lower.
  destruct (Z.leb_spec (ch - 65 + 97) 90); [lia|]. by rewrite andb_false_r.
Qed.

Lemma map_lower_idempotent l : map lower (map lower l) = map lower l.
Proof. rewrite map_map. apply map_ext, lower_idempotent. Qed.

Lemma hash_name_lower a b : map lower a = map lower b -> hash_name a = hash_name b.
Proof.
  assert (Hm : forall l h, foldl (fun hash ch => u32 (u32 (hash * 31) + lower ch)) h l =
                           foldl (fun hash ch => u32 (u32 (hash * 31) + ch)) h (map lower l)).
  { induction l as [|x l IH]; intros h; [done|]. cbn. apply IH. }
  intros H. unfold hash_name. by rewrite !Hm, H.
Qed.

(** An entry whose hash and lower case copy belong to its name. *)
Definition consistent (e : Entry) : Prop :=
  e_hash e = hash_name (e_name e) /\ map lower (e_lowcase e) = map lower (e_name e).

Definition same_name (key : list Z) (e : Entry) : bool := bool_decide (map lower (e_name e) = map lower key).

Lemma by_name_same key e : consistent e -> by_name (hash_name key) key e = same_name key e.
Proof.
  intros [Hh _]. unfold by_name, same_name. rewrite same_name_ci, Hh.
  case_bool_decide as He; [|apply andb_false_r]. by rewrite (hash_name_lower _ _ He), Z.eqb_refl.
Qed.

Lemma by_lowcase_same key low e :
  consistent e -> map lower low = map lower key -> by_lowcase (hash_name key) low e = same_name key e.
Proof.
  intros [Hh Hl] Hk. unfold by_lowcase, same_name. rewrite same_name_ci, Hh, Hl, Hk.
  case_bool_decide as He; [|apply andb_false_r]. by rewrite (hash_name_lower _ _ He), Z.eqb_refl.
Qed.

Section keyed.
Variables (f g : Entry -> bool) (es : list Entry).
Hypothesis Hfg : Forall (fun e => f e = g e) es.

Lemma matching_ext : matching f es = matching g es.
Proof.
  apply filter_ext_in. intros e He. rewrite Forall_forall in Hfg. by rewrite Hfg.
Qed.

Lemma others_ext : others f es = others g es.
Proof.
  apply filter_ext_in. intros e He. rewrite Forall_forall in Hfg. by rewrite Hfg.
Qed.

Lemma existsb_ext : existsb f es = existsb g es.
Proof.
  revert Hfg. induction es as [|e es' IH]; [done|]. intros [He Hf]%Forall_cons. cbn. by rewrite He, IH.
Qed.
End keyed.

(** ** The specification: an ordered multimap *)

Inductive Op :=
  | OpAdd (name value : list Z) | OpAddHashed (name value low : list Z) (hash : Z)
  | OpAddView (name value : list Z) | OpAddViewHashed (name value low : list Z) (hash : Z)
  | OpSet (name value : list Z) | OpSetHashed (name value low : list Z) (hash : Z)
  | OpSetView (name value : list Z) | OpSetViewHashed (name value low : list Z) (hash : Z)
  | OpGet (name : list Z) | OpContains (name : list Z)
  | OpGetAll (name : list Z) | OpGetAllHashed (key : list Z) (hash : Z)
  | OpIterate | OpSize | OpRemove (name : list Z) | OpReserve (bytes : Z) | OpClear | OpRelease.

Inductive Answer :=
  | AField (o : option Z) | ABytes (v : list Z) | ABool (b : bool) | AMany (vs : list (list Z))
  | APairs (nvs : list (list Z * list Z)) | ANumber (n : Z) | AUnit.

Definition answer {A} (c : A -> Answer) (m : M A) : M Answer := a <- m;; ret (c a).

Definition perform (op : Op) : M Answer :=
  match op with
  | OpAdd n v => answer AField (add n v)
  | OpAddHashed n v low h => answer AField (add_hashed n v low h)
  | OpAddView n v => answer AField (add_view n v)
  | OpAddViewHashed n v low h => answer AField (add_view_hashed n v low h)
  | OpSet n v => answer AField (set n v)
  | OpSetHashed n v low h => answer AField (set_hashed n v low h)
  | OpSetView n v => answer AField (set_view n v)
  | OpSetViewHashed n v low h => answer AField (set_view_hashed n v low h)
  | OpGet n => answer ABytes (get n)
  | OpContains n => answer ABool (contains n)
  | OpGetAll n => answer AMany (get_all n)
  | OpGetAllHashed k h => answer AMany (get_all_hashed k h)
  | OpIterate => answer APairs iterate
  | OpSize => answer ANumber (gets size_)
  | OpRemove n => answer ANumber (remove n)
  | OpReserve b => answer (fun _ => AUnit) (reserve_bytes b)
  | OpClear => answer (fun _ => AUnit) clear
  | OpRelease => answer (fun _ => AUnit) release
  end.

Fixpoint perform_all (ops : list Op) : M (list Answer) :=
  match ops with
  | [] => ret []
  | op :: ops' => a <- perform op;; rest <- perform_all ops';; ret (a :: rest)
  end.

(** The callers that pass a hash and a lower case name pass those of the name. *)
Definition honest (op : Op) : Prop :=
  match op with
  | OpAddHashed n _ low h | OpAddViewHashed n _ low h | OpSetHashed n _ low h | OpSetViewHashed n _ low h =>
      low = map lower n /\ h = hash_name n /\ Z.of_nat (length n) <= max_u32
  | OpGetAllHashed k h => h = hash_name k
  | _ => True
  end.

(** The field an operation writes, and the name it first removes. *)
Definition writes (op : Op) : option (list Z * list Z) :=
  match op with
  | OpAdd n v | OpAddHashed n v _ _ | OpAddView n v | OpAddViewHashed n v _ _
  | OpSet n v | OpSetHashed n v _ _ | OpSetView n v | OpSetViewHashed n v _ _ => Some (n, v)
  | _ => None
  end.

Definition replaces (op : Op) : bool :=
  match op with OpSet _ _ | OpSetHashed _ _ _ _ | OpSetView _ _ | OpSetViewHashed _ _ _ _ => true | _ => false end.

(** A multimap is the list of its names and values in the order they came. *)
Abbreviation Multimap := (list (list Z * list Z)).
Definition named (key : list Z) (nv : list Z * list Z) : bool := bool_decide (map lower nv.1 = map lower key).
Definition with_name (key : list Z) (mm : Multimap) : Multimap := filter (fun nv => named key nv = true) mm.
Definition without_name (key : list Z) (mm : Multimap) : Multimap := filter (fun nv => named key nv = false) mm.

(** [alloc_ok]: no allocation is to fail. *)
Inductive spec (alloc_ok : Prop) (mm : Multimap) : Op -> Answer -> Multimap -> Prop :=
  | spec_written op n v a :
      writes op = Some (n, v) -> too_long n v = false ->
      spec alloc_ok mm op (AField (Some a)) ((if replaces op then without_name n mm else mm) ++ [(n, v)])
  | spec_refused op n v :
      writes op = Some (n, v) -> ~ alloc_ok \/ too_long n v = true ->
      spec alloc_ok mm op (AField None) (if replaces op then without_name n mm else mm)
  | spec_get n : spec alloc_ok mm (OpGet n) (ABytes (from_option snd [] (last (with_name n mm)))) mm
  | spec_contains n : spec alloc_ok mm (OpContains n) (ABool (existsb (named n) mm)) mm
  | spec_get_all n : spec alloc_ok mm (OpGetAll n) (AMany (snd <$> reverse (with_name n mm))) mm
  | spec_get_all_hashed k h :
      spec alloc_ok mm (OpGetAllHashed k h) (AMany (snd <$> reverse (with_name k mm))) mm
  | spec_iterate : spec alloc_ok mm OpIterate (APairs mm) mm
  | spec_size : spec alloc_ok mm OpSize (ANumber (u64 (Z.of_nat (length mm)))) mm
  | spec_remove n :
      spec alloc_ok mm (OpRemove n) (ANumber (u64 (Z.of_nat (length (with_name n mm))))) (without_name n mm)
  | spec_reserve b : spec alloc_ok mm (OpReserve b) AUnit mm
  | spec_clear : spec alloc_ok mm OpClear AUnit []
  | spec_release : spec alloc_ok mm OpRelease AUnit [].

Inductive spec_all (alloc_ok : Prop) : Multimap -> list Op -> list Answer -> Multimap -> Prop :=
  | spec_done mm : spec_all alloc_ok mm [] [] mm
  | spec_step mm op a mm1 ops answers mm2 :
      spec alloc_ok mm op a mm1 -> spec_all alloc_ok mm1 ops answers mm2 ->
      spec_all alloc_ok mm (op :: ops) (a :: answers) mm2.

(** ** The refinement *)

Definition pair_of (e : Entry) : list Z * list Z := (e_name e, e_value e).

Definition holds (s : HttpHeaders) (mm : Multimap) : Prop :=
  exists es, represents s es /\ Forall consistent es /\ mm = (pair_of <$> es).

Lemma with_name_entries k es :
  with_name k (pair_of <$> es) = (pair_of <$> matching (same_name k) es).
Proof.
  apply filter_fmap.
Qed.

Lemma without_name_entries k es :
  without_name k (pair_of <$> es) = (pair_of <$> others (same_name k) es).
Proof.
  apply filter_fmap.
Qed.

Lemma named_entries k es : existsb (named k) (pair_of <$> es) = existsb (same_name k) es.
Proof. induction es as [|e es IH]; [done|]. cbn. by rewrite IH. Qed.

Lemma names_agree k es : Forall consistent es -> Forall (fun e => by_name (hash_name k) k e = same_name k e) es.
Proof. intros Hc. eapply Forall_impl; [exact Hc|]. intros e He. by apply by_name_same. Qed.

Lemma lowcases_agree k low es :
  map lower low = map lower k -> Forall consistent es ->
  Forall (fun e => by_lowcase (hash_name k) low e = same_name k e) es.
Proof. intros Hk Hc. eapply Forall_impl; [exact Hc|]. intros e He. by apply by_lowcase_same. Qed.

Lemma consistent_others f es : Forall consistent es -> Forall consistent (others f es).
Proof. rewrite !Forall_forall. intros H e [_ He]%list_elem_of_filter. auto. Qed.

(** What a step promises: the answer and the table are those of the
    specification; a [std::bad_alloc] needs an allocation that fails. *)
Definition promises (s0 : HttpHeaders) (mm : Multimap) (op : Op) (a : Answer) (s' : HttpHeaders) : Prop :=
  exists mm', spec (pool_ s0 = []) mm op a mm' /\ holds s' mm' /\ calm s0 s'.
(** The multimap an operation that writes starts from. *)
Definition base (op : Op) (mm : Multimap) : Multimap :=
  match writes op with Some (n, _) => if replaces op then without_name n mm else mm | None => mm end.
Definition gives_up (s0 : HttpHeaders) (mm : Multimap) (op : Op) (s' : HttpHeaders) : Prop :=
  pool_ s0 <> [] /\ holds s' (base op mm).

Lemma written_step op n v e body s0 s es mm :
  writes op = Some (n, v) -> consistent e -> e_name e = n -> e_value e = v ->
  represents s es -> Forall consistent es -> calm s0 s ->
  (if replaces op then without_name n mm else mm) = (pair_of <$> es) ->
  wp body (added s (too_long n v) es e) (unchanged s es) s ->
  wp (answer AField body) (promises s0 mm op) (gives_up s0 mm op) s.
Proof.
  intros Hw Hce Hn Hv Hr Hc Hcalm Hmm Hbody. apply wp_bind. eapply wp_mono; [exact Hbody| |].
  - intros r s' (Hc' & [(-> & Hr' & Hno)|(a & -> & Hl & Hr')]).
    + eexists. split; [eapply spec_refused; [done|]|split; [|by eapply calm_trans]].
      * destruct Hno as [Hp|Hl]; [|by right]. left. intros H0. by apply Hp, Hcalm.
      * exists es. by rewrite Hmm.
    + eexists. split; [by eapply spec_written|]. split; [|by eapply calm_trans].
      exists (es ++ [e]). split; [done|]. split; [apply Forall_app_2; [done|by apply Forall_singleton]|].
      rewrite Hmm, fmap_app. subst n v. done.
  - intros s' [Hr' Hp]. split; [intros H0; by apply Hp, Hcalm|]. exists es. unfold base. by rewrite Hw.
Qed.

(** The removal that comes before the writing in the four [set] functions. *)
Lemma removed_step hash hit ehit k s es (Q : Z -> HttpHeaders -> Prop) E :
  represents s es -> Forall consistent es ->
  (forall f, hit f = ehit (entry_of f)) -> (forall e, ehit e = true -> e_hash e = hash) ->
  Forall (fun e => ehit e = same_name k e) es ->
  (forall s', represents s' (others (same_name k) es) -> Forall consistent (others (same_name k) es) -> calm s s' ->
     Q (u64 (Z.of_nat (length (with_name k (pair_of <$> es))))) s') ->
  wp (remove_in_bucket hash hit) Q E s.
Proof.
  intros Hr Hc Hhit Hhash Hag HQ. apply (remove_in_bucket_spec _ _ ehit _ es); [done..|].
  intros s' Hr' Hc' _. rewrite (others_ext _ _ _ Hag) in Hr'. rewrite (matching_ext _ _ _ Hag).
  rewrite with_name_entries, length_fmap in HQ. apply HQ; [done|by apply consistent_others|done].
Qed.

Lemma consistent_new n v : consistent (mkEntry n (map lower n) v (hash_name n)).
Proof. split; [done|]. apply map_lower_idempotent. Qed.

Lemma take_lowcase n : Z.of_nat (length n) <= max_u32 -> lowcase_prefix n (map lower n) = map lower n.
Proof. intros Hl. rewrite (lowcase_prefix_eq _ _ Hl). apply take_ge. by rewrite length_map.
Qed.

(** The two shapes of operation that write a field. *)
Lemma add_step op n v e body s mm :
  writes op = Some (n, v) -> replaces op = false -> consistent e -> e_name e = n -> e_value e = v ->
  holds s mm ->
  (forall s es, represents s es -> wp body (added s (too_long n v) es e) (unchanged s es) s) ->
  wp (answer AField body) (promises s mm op) (gives_up s mm op) s.
Proof.
  intros Hw Hrp Hce Hn Hv (es & Hr & Hc & ->) Hbody.
  eapply (written_step _ n v e); [done..|by intros ?|by rewrite Hrp|by apply Hbody].
Qed.

Lemma set_step op n v e hash hit ehit body s mm :
  writes op = Some (n, v) -> replaces op = true -> consistent e -> e_name e = n -> e_value e = v ->
  holds s mm ->
  (forall f, hit f = ehit (entry_of f)) -> (forall x, ehit x = true -> e_hash x = hash) ->
  (forall es, Forall consistent es -> Forall (fun x => ehit x = same_name n x) es) ->
  (forall s es, represents s es -> wp body (added s (too_long n v) es e) (unchanged s es) s) ->
  wp (answer AField (remove_in_bucket hash hit;; body)) (promises s mm op) (gives_up s mm op) s.
Proof.
  intros Hw Hrp Hce Hn Hv (es & Hr & Hc & ->) Hhit Hhash Hag Hbody. unfold answer.
  apply wp_bind, wp_bind, (removed_step _ _ ehit n _ es); auto.
  intros s' Hr' Hc' Hcalm.
  pose proof (written_step op n v e body s s' _ (pair_of <$> es) Hw Hce Hn Hv Hr' Hc' Hcalm) as H.
  assert (Hb : wp (answer AField body) (promises s (pair_of <$> es) op) (gives_up s (pair_of <$> es) op) s').
  { apply H; [by rewrite Hrp, without_name_entries|by apply Hbody]. }
  unfold answer, wp, bind in Hb |- *. by destruct (body s').
Qed.

Lemma query_step {A} (c : A -> Answer) (m : M A) op s mm r :
  (forall Q E, Q r s -> wp m Q E s) -> spec (pool_ s = []) mm op (c r) mm -> holds s mm ->
  wp (answer c m) (promises s mm op) (gives_up s mm op) s.
Proof. intros Hm Hs Hh. apply wp_bind, Hm. exists mm. split; [done|]. split; [done|]. by intros ?. Qed.

Lemma represents_size s es : represents s es -> size_ s = u64 (Z.of_nat (length es)).
Proof. intros (l & Hr & ->). rewrite length_fmap. by apply Hr. Qed.

(** The lookups. *)
Lemma perform_query op s mm :
  holds s mm ->
  match op with OpGet _ | OpContains _ | OpGetAll _ | OpGetAllHashed _ _ | OpIterate | OpSize => True | _ => False end ->
  honest op -> wp (perform op) (promises s mm op) (gives_up s mm op) s.
Proof.
  intros Hh. pose proof Hh as (es & Hr & Hc & ->). destruct op; try done; intros _ Hho; cbn [perform].
  - apply (query_step _ _ _ _ _ _ (fun Q E => get_spec name0 s es Q E Hr)); [|done].
    rewrite (matching_ext _ _ _ (names_agree _ _ Hc)).
    replace (from_option e_value _ _) with (from_option snd [] (last (with_name name0 (pair_of <$> es)))); [constructor|].
    rewrite with_name_entries, fmap_last. by destruct (last _).
  - apply (query_step _ _ _ _ _ _ (fun Q E => contains_spec name0 s es Q E Hr)); [|done].
    rewrite (existsb_ext _ _ _ (names_agree _ _ Hc)), <-named_entries. constructor.
  - apply (query_step _ _ _ _ _ _ (fun Q E => get_all_spec (map lower name0) (hash_name name0) s es Q E Hr)); [|done].
    rewrite (matching_ext _ _ _ (lowcases_agree name0 _ _ (map_lower_idempotent _) Hc)).
    replace (e_value <$> _) with (snd <$> reverse (with_name name0 (pair_of <$> es))); [constructor|].
    by rewrite with_name_entries, <-fmap_reverse, <-list_fmap_compose.
  - cbn in Hho. subst hash. apply (query_step _ _ _ _ _ _ (fun Q E => get_all_spec key (hash_name key) s es Q E Hr)); [|done].
    rewrite (matching_ext _ _ _ (lowcases_agree key _ _ eq_refl Hc)).
    replace (e_value <$> _) with (snd <$> reverse (with_name key (pair_of <$> es))); [constructor|].
    by rewrite with_name_entries, <-fmap_reverse, <-list_fmap_compose.
  - apply (query_step _ _ _ _ _ _ (fun Q E => iterate_spec s es Q E Hr)); [|done]. constructor.
  - apply (query_step _ _ _ _ _ (size_ s)); [intros Q E HQ; exact HQ| |done].
    rewrite (represents_size _ _ Hr), <-(length_fmap pair_of es). constructor.
Qed.

Lemma perform_step op s mm :
  holds s mm -> honest op -> wp (perform op) (promises s mm op) (gives_up s mm op) s.
Proof.
  intros Hh Hho. pose proof Hh as (es & Hr & Hc & Hmm).
  destruct op as [n v|n v low h|n v|n v low h|n v|n v low h|n v|n v low h| | | | | | |n|b| |];
    try (apply perform_query; done); cbn [perform].
  - eapply add_step; [done|done|apply consistent_new|done|done|done|]. intros. by apply add_spec.
  - destruct Hho as (-> & -> & Hl).
    eapply (add_step _ n v (mkEntry n (map lower n) v (hash_name n))); [done|done|apply consistent_new|done|done|done|].
    intros s1 es1 Hr1. rewrite <-(take_lowcase n Hl) at 2. by apply add_hashed_spec.
  - eapply (add_step _ n v (mkEntry n n v (hash_name n))); [done..|]. intros. by apply add_view_spec.
  - destruct Hho as (-> & -> & Hl).
    eapply (add_step _ n v (mkEntry n (map lower n) v (hash_name n))); [done|done|apply consistent_new|done|done|done|].
    intros s1 es1 Hr1. rewrite <-(take_lowcase n Hl) at 2. by apply add_view_hashed_spec.
  - eapply (set_step _ n v (mkEntry n (map lower n) v (hash_name n)) _ _ (by_name (hash_name n) n));
      [done|done|apply consistent_new|done|done|done|done|apply by_name_hash|apply names_agree|].
    intros. by apply add_spec.
  - destruct Hho as (-> & -> & Hl). unfold set_hashed. rewrite (take_lowcase n Hl).
    eapply (set_step _ n v (mkEntry n (map lower n) v (hash_name n)) _ _ (by_lowcase (hash_name n) (map lower n)));
      [done|done|apply consistent_new|done|done|done|done|apply by_lowcase_hash| |].
    + intros. apply lowcases_agree; [apply map_lower_idempotent|done].
    + intros s1 es1 Hr1. rewrite <-(take_lowcase n Hl) at 2. by apply add_hashed_spec.
  - eapply (set_step _ n v (mkEntry n n v (hash_name n)) _ _ (by_name (hash_name n) n));
      [done|done|done|done|done|done|done|apply by_name_hash|apply names_agree|].
    intros. by apply add_view_spec.
  - destruct Hho as (-> & -> & Hl). unfold set_view_hashed. rewrite (take_lowcase n Hl).
    eapply (set_step _ n v (mkEntry n (map lower n) v (hash_name n)) _ _ (by_lowcase (hash_name n) (map lower n)));
      [done|done|apply consistent_new|done|done|done|done|apply by_lowcase_hash| |].
    + intros. apply lowcases_agree; [apply map_lower_idempotent|done].
    + intros s1 es1 Hr1. rewrite <-(take_lowcase n Hl) at 2. by apply add_view_hashed_spec.
  - subst mm. apply wp_bind. eapply (removed_step _ _ (by_name (hash_name n) n) n _ es);
      [exact Hr|exact Hc|done|apply by_name_hash|by apply names_agree|].
    intros s' Hr' Hc' Hcalm. eexists. split; [constructor|]. split; [|done].
    eexists. split; [exact Hr'|]. split; [done|]. apply without_name_entries.
  - apply wp_bind. eapply wp_mono; [by apply reserve_bytes_spec| |].
    + intros [] s' [Hr' Hcalm]. exists mm. split; [constructor|]. split; [by exists es|done].
    + intros s' [Hr' Hp]. split; [done|]. by exists es.
  - apply wp_bind. eapply wp_mono; [by eapply clear_spec| |done].
    intros [] s' [Hr' Hcalm]. exists []. split; [constructor|]. split; [by exists []|done].
  - apply wp_bind. eapply wp_mono; [by eapply release_spec| |done].
    intros [] s' [Hr' Hcalm]. exists []. split; [constructor|]. split; [by exists []|done].
Qed.

Lemma construct_holds pool : holds (construct pool) [].
Proof.
  exists []. split; [|done]. exists []. split; [|done]. split; [|done|by left].
  split; cbn; try done; [constructor|set_solver].
Qed.

Lemma spec_weaken (P P' : Prop) mm op a mm' : (P' -> P) -> spec P mm op a mm' -> spec P' mm op a mm'.
Proof.
  intros HP Hs. destruct Hs; try constructor; try done.
  eapply spec_refused; [done|]. destruct H0; [left; auto|by right].
Qed.

Lemma perform_all_spec ops s0 s mm :
  Forall honest ops -> holds s mm -> calm s0 s ->
  wp (perform_all ops)
     (fun answers s' => exists mm', spec_all (pool_ s0 = []) mm ops answers mm' /\ holds s' mm' /\ calm s0 s')
     (fun s' => pool_ s0 <> [] /\ exists mm', holds s' mm') s.
Proof.
  intros Hho. revert s mm. induction Hho as [|op ops Hop _ IH]; intros s mm Hh Hc.
  - exists mm. split; [constructor|done].
  - cbn [perform_all]. apply wp_bind. eapply wp_mono; [by apply perform_step| |].
    + intros a s1 (mm1 & Hs & Hh1 & Hc1). apply wp_bind.
      eapply wp_mono; [apply (IH s1 mm1); [done|by eapply calm_trans]| |done].
      intros answers s2 (mm2 & Hs2 & Hh2 & Hc2). exists mm2. split; [|done].
      econstructor; [|exact Hs2]. eapply spec_weaken; [exact Hc|exact Hs].
    + intros s' [Hp Hm]. split; [|by eexists]. intros H0. by apply Hp, Hc.
Qed.

(** C13. Any sequence of operations on a new header table behaves as on an ordered
    multimap whose names are compared without case: fields come back in the
    order they were added (and newest first per name), [get] gives the newest
    field of a name, [set] replaces all of them, [remove] counts them; no
    pointer is followed that is null or stale, whatever the bucket layout and
    hash collisions, and an operation is refused only when an allocation fails
    or a length exceeds 32 bits. *)
Theorem headers_refine_multimap (ops : list Op) (pool : list bool) :
  Forall honest ops ->
  match perform_all ops (construct pool) with
  | Value answers s => exists mm, spec_all (pool = []) [] ops answers mm /\ holds s mm
  | BadAlloc s => pool <> [] /\ exists mm, holds s mm
  | Fault => False
  end.
Proof.
  intros Hho. pose proof (perform_all_spec ops (construct pool) (construct pool) [] Hho (construct_holds pool)) as H.
  specialize (H ltac:(by intros ?)). unfold wp in H. destruct (perform_all ops (construct pool)); [|done|done].
  naive_solver.
Qed.

Definition demo_ops : list Op :=
  [OpAdd (bs "Accept") (bs "a"); OpAddViewHashed (bs "Host") (bs "h") (bs "host") (hash_name (bs "host"));
   OpAdd (bs "ACCEPT") (bs "b"); OpGetAll (bs "aCCept"); OpSet (bs "hOst") (bs "x"); OpGet (bs "HOST"); OpSize].

Lemma headers_refine_multimap_witness :
  exists answers s mm, perform_all demo_ops (construct [false]) = Value answers s /\
    spec_all ([false] = []) [] demo_ops answers mm /\ holds s mm /\ nth 5 answers AUnit = ABytes (bs "x").
Proof.
  assert (Hho : Forall honest demo_ops) by (repeat constructor; vm_compute; congruence).
  pose proof (headers_refine_multimap demo_ops [false] Hho) as H.
  destruct (perform_all demo_ops (construct [false])) as [answers s|s|] eqn:He.
  - destruct H as (mm & Hs & Hh). exists answers, s, mm. split; [reflexivity|]. split; [exact Hs|]. split; [exact Hh|].
    vm_compute in He. injection He as <- <-. reflexivity.
  - vm_compute in He. discriminate.
  - destruct H.
Defined.

End Headers.
