(* ===== verification/HeaderMap.v ===== *)
(** * Handlers by header name
    ([HeaderMap] of [src/http/HeaderMap.h])

    The nodes are in a vector in order of insertion; the nodes of a bucket are
    chained by their indices, newest first.  Following an index outside the
    vector has no result.  The hash and the comparison of names are the functions
    of [HttpHeaders.h], which [HeaderMap.h] repeats. *)
From S2P Require Import Prelude HttpHeaders.
Import Headers (lower, hash_name, equals_ascii_ci, next_pow2, kDefaultBuckets, same_name_ci).

Module HeaderMap.

Section map.
Context {V : Type}.

Record Node := mkNode { key : list Z; hash : Z; next : Z; value : V }.

Record HeaderMap := mkMap { nodes_ : list Node; bucket_head_ : list Z }.

Definition kInvalidIndex : Z := 0xFFFFFFFF.

Definition init_buckets (count : Z) (m : HeaderMap) : HeaderMap :=
  let count := if count =? 0 then kDefaultBuckets else count in
  let count := next_pow2 count in
  let count := if count <? kDefaultBuckets then kDefaultBuckets else count in
  mkMap (nodes_ m) (replicate (Z.to_nat count) kInvalidIndex).

Definition construct : HeaderMap := init_buckets kDefaultBuckets (mkMap [] []).
Definition construct_sized (bucket_count : Z) : HeaderMap := init_buckets bucket_count (mkMap [] []).

(** [hash & static_cast<std::uint32_t>(bucket_head_.size() - 1)] *)
Definition bucket_of (hash : Z) (heads : list Z) : Z :=
  Z.land hash (u32 (u64 (Z.of_nat (length heads) - 1))).

Definition matches (k : list Z) (h : Z) (n : Node) : bool :=
  (hash n =? h) && equals_ascii_ci (key n) k.

(** The loop along a chain: the node that matches. *)
Fixpoint walk (fuel : nat) (nodes : list Node) (k : list Z) (h index : Z) : option (option Node) :=
  if index =? kInvalidIndex then Some None
  else match fuel, nodes !! Z.to_nat index with
       | S fuel', Some n => if matches k h n then Some (Some n) else walk fuel' nodes k h (next n)
       | _, _ => None
       end.

(** The chain a name would be in, from its newest node. *)
Definition find_node (k : list Z) (h : Z) (m : HeaderMap) : option (option Node) :=
  walk (length (nodes_ m)) (nodes_ m) k h (bucket_head_ m !z bucket_of h (bucket_head_ m)).

Definition insert_impl (k : list Z) (h : Z) (v : V) (m : HeaderMap) : option (bool * HeaderMap) :=
  let m := if (length (bucket_head_ m) =? 0)%nat then init_buckets kDefaultBuckets m else m in
  let bucket := bucket_of h (bucket_head_ m) in
  match find_node k h m with
  | None => None
  | Some (Some _) => Some (false, m)
  | Some None =>
      let nodes := nodes_ m ++ [mkNode k h (bucket_head_ m !z bucket) v] in
      Some (true, mkMap nodes (<[Z.to_nat bucket := u32 (u64 (Z.of_nat (length nodes) - 1))]> (bucket_head_ m)))
  end.

Definition insert (name : list Z) (v : V) (m : HeaderMap) : option (bool * HeaderMap) :=
  insert_impl name (hash_name name) v m.

(** A pointer to the value, or null. *)
Definition get_impl (k : list Z) (h : Z) (m : HeaderMap) : option (option V) :=
  if (length (bucket_head_ m) =? 0)%nat then Some None
  else option_map value <$> find_node k h m.

Definition get (name : list Z) (m : HeaderMap) : option (option V) := get_impl name (hash_name name) m.

Definition size (m : HeaderMap) : Z := Z.of_nat (length (nodes_ m)).

(** ** Chains

    [newest b ns]: the index of the newest node of bucket [b]. *)

Definition hash_bucket (c : nat) (n : Node) : Z := bucket_of (hash n) (replicate c 0).

Fixpoint newest (c : nat) (b : Z) (rns : list Node) : Z :=
  match rns with
  | [] => kInvalidIndex
  | n :: rns' => if hash_bucket c n =? b then Z.of_nat (length rns') else newest c b rns'
  end.

(** The nodes, newest first, are linked to the next older one of their bucket. *)
Fixpoint linked (c : nat) (rns : list Node) : Prop :=
  match rns with
  | [] => True
  | n :: rns' => next n = newest c (hash_bucket c n) rns' /\ linked c rns'
  end.

Definition well_formed (m : HeaderMap) : Prop :=
  exists k : nat, let c := (2 ^ k)%nat in
  (5 <= k <= 32)%nat /\ length (bucket_head_ m) = c /\
  Z.of_nat (length (nodes_ m)) <= kInvalidIndex /\
  linked c (reverse (nodes_ m)) /\
  (forall b, 0 <= b < Z.of_nat c -> bucket_head_ m !z b = newest c b (reverse (nodes_ m))).

Lemma bucket_range (k : nat) h heads :
  (k <= 32)%nat -> 0 <= h -> length heads = (2 ^ k)%nat ->
  bucket_of h heads = h mod Z.of_nat (2 ^ k).
Proof.
  intros Hk Hh Hl. unfold bucket_of. rewrite Hl, Nat2Z.inj_pow. change (Z.of_nat 2) with 2.
  assert (1 <= 2 ^ Z.of_nat k <= 2 ^ 32) as Hp.
  { split; [|apply Z.pow_le_mono_r; lia]. pose proof (Z.pow_pos_nonneg 2 (Z.of_nat k)). lia. }
  rewrite !wrap_small by (unfold in_width; rewrite ?wrap_small; unfold in_width; lia).
  replace (2 ^ Z.of_nat k - 1) with (Z.ones (Z.of_nat k)) by (rewrite Z.ones_equiv; lia).
  by rewrite Z.land_ones by lia.
Qed.

Lemma hash_bucket_of (c : nat) n heads : length heads = c -> hash_bucket c n = bucket_of (hash n) heads.
Proof. intros Hl. unfold hash_bucket, bucket_of. by rewrite length_replicate, Hl. Qed.

Lemma newest_spec c b rns :
  newest c b rns = kInvalidIndex \/
  (exists j n, newest c b rns = Z.of_nat j /\ reverse rns !! j = Some n /\ hash_bucket c n = b).
Proof.
  induction rns as [|n rns IH]; [by left|]. cbn [newest].
  destruct (Z.eqb_spec (hash_bucket c n) b) as [Hb|Hb].
  - right. exists (length rns), n. split; [done|]. split; [|done].
    rewrite reverse_cons, lookup_app_r, length_reverse by (rewrite length_reverse; lia).
    by rewrite Nat.sub_diag.
  - destruct IH as [->|(j & n' & Hj & Hn & Hb')]; [by left|]. right. exists j, n'. split; [done|]. split; [|done].
    rewrite reverse_cons. by apply lookup_app_l_Some.
Qed.

(** Walking from the newest node of a bucket finds the newest match. *)
Lemma walk_spec c k h rns older fuel :
  linked c rns -> Z.of_nat (length rns) <= kInvalidIndex -> (length rns <= fuel)%nat ->
  (forall n, n ∈ rns -> matches k h n = true -> hash_bucket c n = bucket_of h (replicate c 0)) ->
  walk fuel (reverse rns ++ older) k h (newest c (bucket_of h (replicate c 0)) rns) =
  Some (List.find (matches k h) rns).
Proof.
  intros Hl Hlen Hf Hb. revert older fuel Hf. induction rns as [|n rns IH]; intros older fuel Hf.
  { destruct fuel; done. }
  destruct Hl as [Hn Hl]. cbn [length] in Hf, Hlen.
  assert (forall f, (length rns <= f)%nat ->
    walk f (reverse rns ++ n :: older) k h (newest c (bucket_of h (replicate c 0)) rns) =
    Some (List.find (matches k h) rns)) as IH'.
  { intros f Hf'. apply IH; [done|lia| |done]. intros n' Hn'. apply Hb. by right. }
  clear IH. cbn [newest List.find]. rewrite reverse_cons, <-app_assoc. cbn [app].
  destruct (Z.eqb_spec (hash_bucket c n) (bucket_of h (replicate c 0))) as [Hbk|Hbk].
  - destruct fuel as [|fuel]; [lia|]. cbn [walk].
    assert (Z.of_nat (length rns) =? kInvalidIndex = false) as -> by (apply Z.eqb_neq; lia).
    rewrite Nat2Z.id, lookup_app_r, length_reverse, Nat.sub_diag by (rewrite length_reverse; lia).
    cbn [lookup list_lookup]. destruct (matches k h n); [done|]. rewrite Hn, Hbk. apply IH'. lia.
  - destruct (matches k h n) eqn:Hm; [by destruct Hbk; apply Hb; [left|]|]. apply IH'. lia.
Qed.

Lemma find_node_newest m k h :
  well_formed m -> 0 <= h -> find_node k h m = Some (List.find (matches k h) (reverse (nodes_ m))).
Proof.
  intros (e & He & Hl & Hlen & Hlink & Hhead) Hh. unfold find_node.
  pose proof (bucket_range e h (bucket_head_ m) ltac:(lia) Hh Hl) as Hr.
  assert (1 <= Z.of_nat (2 ^ e)) as Hpos by (pose proof (Nat.pow_nonzero 2 e); lia).
  rewrite Hhead by (rewrite Hr; apply Z.mod_pos_bound; lia).
  assert (bucket_of h (bucket_head_ m) = bucket_of h (replicate (2 ^ e) 0)) as ->
    by (unfold bucket_of; by rewrite length_replicate, Hl).
  pose proof (walk_spec (2 ^ e) k h (reverse (nodes_ m)) [] (length (nodes_ m)) Hlink) as Hw.
  rewrite reverse_involutive, app_nil_r in Hw. apply Hw; [by rewrite length_reverse..|].
  intros n _ Hm. unfold matches in Hm. bool_to_prop. subst h. by unfold hash_bucket.
Qed.

(** ** The map it implements

    A finite map from lower-cased names with their hash to values. *)

Definition id_of (k : list Z) (h : Z) : list Z * Z := (map lower k, h).
Definition binding (n : Node) : (list Z * Z) * V := (id_of (key n) (hash n), value n).

Definition represents (m : HeaderMap) (f : gmap (list Z * Z) V) : Prop :=
  well_formed m /\ Forall (fun n => 0 <= hash n) (nodes_ m) /\
  NoDup (binding <$> nodes_ m).*1 /\ f = list_to_map (binding <$> nodes_ m).

Lemma matches_id k h n : matches k h n = bool_decide (id_of (key n) (hash n) = id_of k h).
Proof.
  unfold matches, id_of. rewrite same_name_ci. apply Bool.eq_iff_eq_true.
  rewrite andb_true_iff, !bool_decide_eq_true, Z.eqb_eq.
  split; [by intros [-> ->]|by intros [= -> ->]].
Qed.

Lemma find_binding k h (ns : list Node) :
  NoDup (binding <$> ns).*1 ->
  value <$> List.find (matches k h) (reverse ns) =
  (list_to_map (binding <$> ns) : gmap (list Z * Z) V) !! id_of k h.
Proof.
  intros Hnd. destruct (List.find _ _) as [n|] eqn:Hf; cbn.
  - apply List.find_some in Hf as [Hin Hm]. rewrite matches_id in Hm. apply bool_decide_eq_true in Hm.
    symmetry. apply elem_of_list_to_map; [done|]. apply list_elem_of_fmap. exists n.
    split; [unfold binding; by rewrite <-Hm|]. by apply elem_of_reverse, list_elem_of_In.
  - symmetry. apply not_elem_of_list_to_map. intros Hin.
    apply list_elem_of_fmap in Hin as ([i v] & Hi & Hin). apply list_elem_of_fmap in Hin as (n & Hb & Hn).
    pose proof (List.find_none _ _ Hf n) as Hno. rewrite matches_id in Hno.
    injection Hb as -> ->. cbn in Hi. rewrite <-Hi, bool_decide_eq_true_2 in Hno by done.
    discriminate Hno. by apply list_elem_of_In, elem_of_reverse.
Qed.

Lemma construct_represents : represents construct ∅.
Proof.
  split; [|by split; [constructor|split; [constructor|]]]. exists 5%nat. cbn zeta.
  split; [lia|]. split; [done|]. split; [by vm_compute|]. split; [done|].
  intros b Hb. cbn [nodes_ construct init_buckets reverse rev_append newest].
  change (bucket_head_ construct) with (replicate 32 kInvalidIndex).
  rewrite list_lookup_total_alt, lookup_replicate_2; [done|]. change (2 ^ 5)%nat with 32%nat in Hb. lia.
Qed.

Lemma well_formed_buckets m : well_formed m -> (length (bucket_head_ m) =? 0)%nat = false.
Proof.
  intros (e & _ & Hl & _). rewrite Hl. apply Nat.eqb_neq. by apply Nat.pow_nonzero.
Qed.

Lemma get_represents m f k h :
  represents m f -> 0 <= h -> get_impl k h m = Some (f !! id_of k h).
Proof.
  intros (Hwf & _ & Hnd & ->) Hh. unfold get_impl.
  rewrite (well_formed_buckets _ Hwf), (find_node_newest _ _ _ Hwf Hh). cbn. f_equal.
  by rewrite <-find_binding.
Qed.

(** A new node becomes the head of its bucket's chain. *)
Lemma well_formed_push m k h v :
  well_formed m -> 0 <= h -> Z.of_nat (length (nodes_ m)) < kInvalidIndex ->
  let bucket := bucket_of h (bucket_head_ m) in
  well_formed (mkMap (nodes_ m ++ [mkNode k h (bucket_head_ m !z bucket) v])
                 (<[Z.to_nat bucket := Z.of_nat (length (nodes_ m))]> (bucket_head_ m))).
Proof.
  intros (e & He & Hl & Hlen & Hlink & Hhead) Hh Hroom bucket. exists e. cbn zeta. cbn [nodes_ bucket_head_].
  pose proof (bucket_range e h (bucket_head_ m) ltac:(lia) Hh Hl) as Hr. fold bucket in Hr.
  assert (1 <= Z.of_nat (2 ^ e)) as Hpos by (pose proof (Nat.pow_nonzero 2 e); lia).
  pose proof (Z.mod_pos_bound h (Z.of_nat (2 ^ e)) ltac:(lia)) as Hb. rewrite <-Hr in Hb.
  split; [done|]. split; [by rewrite length_insert|]. split; [rewrite length_app; cbn [length]; lia|].
  rewrite reverse_snoc.
  set (n := mkNode k h (bucket_head_ m !z bucket) v).
  assert (Hn : hash_bucket (2 ^ e) n = bucket) by by apply hash_bucket_of.
  split; [split; [|done]|].
  - rewrite Hn. cbn [next n]. by apply Hhead.
  - intros b Hbr. cbn [newest]. rewrite Hn, length_reverse.
    rewrite lookup_total_insert_Z by lia. destruct (decide (bucket = b)) as [->|Hne].
    + by rewrite Z.eqb_refl.
    + rewrite (proj2 (Z.eqb_neq _ _) Hne). by apply Hhead.
Qed.

(** Inserting adds the binding of a new name and refuses a known one. *)
Lemma insert_represents m f k h v :
  represents m f -> 0 <= h -> Z.of_nat (length (nodes_ m)) < kInvalidIndex ->
  match insert_impl k h v m with
  | Some (ok, m') => ok = bool_decide (f !! id_of k h = None) /\
                     represents m' (if ok then <[id_of k h := v]> f else f)
  | None => False
  end.
Proof.
  intros Hr Hh Hroom. pose proof Hr as (Hwf & Hnn & Hnd & ->). unfold insert_impl. cbv zeta.
  rewrite (well_formed_buckets _ Hwf), (find_node_newest _ _ _ Hwf Hh).
  pose proof (find_binding k h _ Hnd) as Hf. destruct (List.find _ _) as [n|]; cbn [fmap option_fmap option_map] in Hf.
  { rewrite <-Hf. split; [done|done]. }
  rewrite <-Hf. split; [done|]. symmetry in Hf. pose proof Hf as Hnew. apply not_elem_of_list_to_map in Hnew.
  split; [|split; [|split]].
  - rewrite length_app. cbn [length].
    replace (u32 (u64 (Z.of_nat (length (nodes_ m) + 1) - 1))) with (Z.of_nat (length (nodes_ m))).
    { by apply well_formed_push. }
    unfold kInvalidIndex in Hroom. rewrite !wrap_small; unfold in_width; rewrite ?wrap_small; unfold in_width; lia.
  - cbn. apply Forall_app. split; [done|]. by repeat constructor.
  - cbn [nodes_]. rewrite !fmap_app. apply NoDup_app. split; [done|]. split; [|repeat constructor; set_solver].
    intros x Hx Hx'. cbn in Hx'. apply list_elem_of_singleton in Hx' as ->. done.
  - cbn [nodes_]. rewrite fmap_app. symmetry. by apply list_to_map_snoc.
Qed.

Lemma insert_new m f k v :
  represents m f -> 0 <= hash_name k -> Z.of_nat (length (nodes_ m)) < kInvalidIndex -> f !! id_of k (hash_name k) = None ->
  exists m', insert k v m = Some (true, m') /\ represents m' (<[id_of k (hash_name k) := v]> f) /\
    length (nodes_ m') = S (length (nodes_ m)).
Proof.
  intros Hr Hh Hroom Hnew. pose proof (insert_represents m f k (hash_name k) v Hr Hh Hroom) as H. unfold insert.
  destruct Hr as (Hwf & _). unfold insert_impl in *. cbv zeta in *. rewrite (well_formed_buckets _ Hwf) in *.
  destruct (find_node k (hash_name k) m) as [[n|]|]; [| |done].
  - destruct H as [Hb _]. by rewrite bool_decide_eq_true_2 in Hb.
  - destruct H as [_ H]. eexists. split; [reflexivity|]. split; [exact H|]. cbn. rewrite length_app. cbn. lia.
Qed.

End map.
End HeaderMap.
