(* ===== verification/Http2Protocol.v ===== *)
(** * HTTP/2 wire format
    ([src/http/Http2Protocol.h] and the byte helpers of [src/http/Http2Connection.cpp])

    Numbers travel in network byte order; a pointer into a buffer is the list of
    the bytes behind it, read with [!z]. *)
From S2P Require Import Prelude.

Module Protocol.

(** ** Constants *)

Inductive FrameType :=
  | Data | Headers | Priority | RstStream | Settings | PushPromise | Ping | Goaway | WindowUpdate
  | Continuation | UnknownType (code : Z).

#[global] Instance FrameType_eq_dec : EqDecision FrameType.
Proof. solve_decision. Defined.

(** [static_cast<Http2FrameType>(byte)] keeps bytes without an enumerator. *)
Definition frame_type_of (code : Z) : FrameType :=
  if code =? 0x0 then Data else if code =? 0x1 then Headers else if code =? 0x2 then Priority
  else if code =? 0x3 then RstStream else if code =? 0x4 then Settings else if code =? 0x5 then PushPromise
  else if code =? 0x6 then Ping else if code =? 0x7 then Goaway else if code =? 0x8 then WindowUpdate
  else if code =? 0x9 then Continuation else UnknownType code.

Definition frame_type_code (t : FrameType) : Z :=
  match t with
  | Data => 0x0 | Headers => 0x1 | Priority => 0x2 | RstStream => 0x3 | Settings => 0x4
  | PushPromise => 0x5 | Ping => 0x6 | Goaway => 0x7 | WindowUpdate => 0x8 | Continuation => 0x9
  | UnknownType code => code
  end.

(** The codes the connection sends; a received code is kept as its number. *)
Definition NoError : Z := 0x0.
Definition ProtocolError : Z := 0x1.
Definition FlowControlError : Z := 0x3.
Definition StreamClosed : Z := 0x5.

Record FrameHeader := mkFrameHeader { length_ : Z; type_ : FrameType; flags : Z; stream_id : Z }.

Definition kFrameHeaderSize : Z := 9.
Definition kSettingsParameterSize : Z := 6.
Definition kFlagAck : Z := 0x1.
Definition kFlagSettingsAck : Z := 0x1.
Definition kFlagEndStream : Z := 0x1.
Definition kFlagEndHeaders : Z := 0x4.
Definition kFlagPadded : Z := 0x8.
Definition kFlagPriority : Z := 0x20.
Definition kDefaultHeaderTableSize : Z := 4096.
Definition kDefaultMaxFrameSize : Z := 16384.
Definition kMaxFrameSizeLimit : Z := 16777215.
Definition kMaxFlowControlWindow : Z := 0x7fffffff.
Definition kInitialFlowControlWindow : Z := 65535.

Definition has_flag (fl f : Z) : bool := negb (Z.land fl f =? 0).

(** ** Encoding *)

Definition encode_http2_frame_header (length : Z) (type : FrameType) (flags stream_id : Z) : list Z :=
  [Z.land (Z.shiftr length 16) 0xff; Z.land (Z.shiftr length 8) 0xff; Z.land length 0xff;
   frame_type_code type; flags;
   Z.land (Z.shiftr stream_id 24) 0x7f; Z.land (Z.shiftr stream_id 16) 0xff;
   Z.land (Z.shiftr stream_id 8) 0xff; Z.land stream_id 0xff].

Definition append_u16 (value : Z) : list Z := [Z.land (Z.shiftr value 8) 0xff; Z.land value 0xff].

Definition append_u32 (value : Z) : list Z :=
  [Z.land (Z.shiftr value 24) 0xff; Z.land (Z.shiftr value 16) 0xff; Z.land (Z.shiftr value 8) 0xff;
   Z.land value 0xff].

(** The payloads of [WINDOW_UPDATE], [RST_STREAM] and [GOAWAY]. *)
Definition u31_bytes (value : Z) : list Z :=
  [Z.land (Z.shiftr value 24) 0x7f; Z.land (Z.shiftr value 16) 0xff; Z.land (Z.shiftr value 8) 0xff;
   Z.land value 0xff].
Definition window_update_payload (increment : Z) : list Z := u31_bytes increment.
Definition rst_stream_payload (error_code : Z) : list Z := append_u32 error_code.
Definition goaway_payload (last_stream_id error_code : Z) : list Z :=
  u31_bytes last_stream_id ++ append_u32 error_code.

(** ** Decoding *)

Definition parse_frame_length (p : list Z) : Z :=
  Z.lor (Z.lor (Z.shiftl (p !z 0) 16) (Z.shiftl (p !z 1) 8)) (p !z 2).

Definition parse_u32 (p : list Z) : Z :=
  Z.lor (Z.lor (Z.lor (Z.shiftl (p !z 0) 24) (Z.shiftl (p !z 1) 16)) (Z.shiftl (p !z 2) 8)) (p !z 3).

Definition parse_stream_id (p : list Z) : Z :=
  Z.lor (Z.lor (Z.lor (Z.shiftl (Z.land (p !z 0) 0x7f) 24) (Z.shiftl (p !z 1) 16)) (Z.shiftl (p !z 2) 8)) (p !z 3).

Definition parse_u16 (p : list Z) : Z := Z.lor (Z.shiftl (p !z 0) 8) (p !z 1).

(** The reading of nine bytes in [run]. *)
Definition parse_frame_header (p : list Z) : FrameHeader :=
  mkFrameHeader (parse_frame_length p) (frame_type_of (p !z 3)) (p !z 4) (parse_stream_id (drop 5 p)).

(** ** Round trips *)

Definition byte_at (v k : Z) : Z := (v / 2 ^ k) mod 256.

Lemma land_shiftr_byte v k : 0 <= k -> Z.land (Z.shiftr v k) 0xff = byte_at v k.
Proof.
  intros Hk. change 0xff with (Z.ones 8). rewrite Z.land_ones, Z.shiftr_div_pow2 by lia. done.
Qed.

Lemma land_byte v : Z.land v 0xff = byte_at v 0.
Proof. rewrite <-land_shiftr_byte by lia. by rewrite Z.shiftr_0_r. Qed.

Lemma land_shiftr_7 v k : 0 <= k -> Z.land (Z.shiftr v k) 0x7f = (v / 2 ^ k) mod 128.
Proof.
  intros Hk. change 0x7f with (Z.ones 7). rewrite Z.land_ones, Z.shiftr_div_pow2 by lia. done.
Qed.

Lemma byte_at_range v k : 0 <= byte_at v k < 256.
Proof. apply Z.mod_pos_bound. lia. Qed.

(** Reads of known bytes. *)
Ltac read_bytes :=
  change (Z.to_nat 0) with 0%nat; change (Z.to_nat 1) with 1%nat; change (Z.to_nat 2) with 2%nat;
  change (Z.to_nat 3) with 3%nat; change (Z.to_nat 4) with 4%nat; change (Z.to_nat 5) with 5%nat;
  cbn [lookup_total list_lookup_total].

(** The three decoders as sums of weighted bytes. *)
Lemma parse_u32_sum a b c d rest :
  0 <= b < 256 -> 0 <= c < 256 -> 0 <= d < 256 ->
  parse_u32 (a :: b :: c :: d :: rest) = a * 2 ^ 24 + b * 2 ^ 16 + c * 2 ^ 8 + d.
Proof.
  intros Hb Hc Hd. unfold parse_u32. read_bytes.
  rewrite !Z.shiftl_mul_pow2 by lia.
  rewrite (lor_disjoint _ (b * 2 ^ 16) 24), (lor_disjoint _ (c * 2 ^ 8) 16), (lor_disjoint _ d 8); try lia.
  - exists (a * 2 ^ 16 + b * 2 ^ 8 + c). lia.
  - exists (a * 2 ^ 8 + b). lia.
  - by exists a.
Qed.

Lemma parse_frame_length_sum a b c rest :
  0 <= b < 256 -> 0 <= c < 256 ->
  parse_frame_length (a :: b :: c :: rest) = a * 2 ^ 16 + b * 2 ^ 8 + c.
Proof.
  intros Hb Hc. unfold parse_frame_length. read_bytes.
  rewrite !Z.shiftl_mul_pow2 by lia.
  rewrite (lor_disjoint _ (b * 2 ^ 8) 16), (lor_disjoint _ c 8); try lia.
  - exists (a * 2 ^ 8 + b). lia.
  - by exists a.
Qed.

Lemma parse_stream_id_sum a b c d rest :
  0 <= b < 256 -> 0 <= c < 256 -> 0 <= d < 256 ->
  parse_stream_id (a :: b :: c :: d :: rest) = (a mod 128) * 2 ^ 24 + b * 2 ^ 16 + c * 2 ^ 8 + d.
Proof.
  intros Hb Hc Hd. change (parse_stream_id (a :: b :: c :: d :: rest)) with
    (parse_u32 (Z.land a 0x7f :: b :: c :: d :: rest)).
  rewrite parse_u32_sum by done. change 0x7f with (Z.ones 7). by rewrite Z.land_ones by lia.
Qed.

Lemma parse_u16_sum a b rest : 0 <= b < 256 -> parse_u16 (a :: b :: rest) = a * 2 ^ 8 + b.
Proof.
  intros Hb. unfold parse_u16. read_bytes.
  rewrite Z.shiftl_mul_pow2 by lia. rewrite (lor_disjoint _ b 8); try lia. by exists a.
Qed.

Ltac bytes_arith := unfold byte_at; Z.div_mod_to_equations; lia.

Lemma parse_append_u32 v rest : 0 <= v < 2 ^ 32 -> parse_u32 (append_u32 v ++ rest) = v.
Proof.
  intros Hv. unfold append_u32. cbn [app]. rewrite !land_shiftr_byte, land_byte by lia.
  rewrite parse_u32_sum by apply byte_at_range. bytes_arith.
Qed.

Lemma parse_append_u16 v rest : 0 <= v < 2 ^ 16 -> parse_u16 (append_u16 v ++ rest) = v.
Proof.
  intros Hv. unfold append_u16. cbn [app]. rewrite !land_shiftr_byte, land_byte by lia.
  rewrite parse_u16_sum by apply byte_at_range. bytes_arith.
Qed.

Lemma parse_u31_bytes v rest : 0 <= v < 2 ^ 31 -> parse_stream_id (u31_bytes v ++ rest) = v /\ parse_u32 (u31_bytes v ++ rest) = v.
Proof.
  intros Hv. unfold u31_bytes. cbn [app]. rewrite land_shiftr_7, !land_shiftr_byte, land_byte by lia.
  rewrite parse_stream_id_sum, parse_u32_sum by apply byte_at_range. split; bytes_arith.
Qed.

Lemma frame_type_roundtrip t :
  match t with UnknownType c => ~ (0 <= c <= 9) | _ => True end -> frame_type_of (frame_type_code t) = t.
Proof.
  destruct t as [| | | | | | | | | |c]; try done. intros Hc. cbn [frame_type_code]. unfold frame_type_of.
  split_ifs; bool_to_prop; try lia. done.
Qed.

(** A header parses to what was encoded, whatever the reserved bit says. *)
Lemma parse_encode_header len fl id reserved t rest :
  0 <= len < 2 ^ 24 -> 0 <= id < 2 ^ 31 ->
  match t with UnknownType c => ~ (0 <= c <= 9) | _ => True end ->
  let bytes := encode_http2_frame_header len t fl id in
  parse_frame_header (<[5%nat := bytes !z 5 + reserved * 128]> bytes ++ rest) = mkFrameHeader len t fl id.
Proof.
  intros Hlen Hid Ht bytes. subst bytes. unfold encode_http2_frame_header.
  rewrite land_shiftr_7, !land_shiftr_byte, !land_byte by lia. unfold parse_frame_header.
  cbn [insert list_insert app drop].
  rewrite parse_frame_length_sum, parse_stream_id_sum by apply byte_at_range.
  read_bytes.
  rewrite frame_type_roundtrip by done. rewrite Z_mod_plus_full, Z.mod_mod by lia.
  f_equal; bytes_arith.
Qed.

Lemma parse_encode len fl id t rest :
  0 <= len < 2 ^ 24 -> 0 <= id < 2 ^ 31 ->
  match t with UnknownType c => ~ (0 <= c <= 9) | _ => True end ->
  parse_frame_header (encode_http2_frame_header len t fl id ++ rest) = mkFrameHeader len t fl id.
Proof.
  intros Hlen Hid Ht. pose proof (parse_encode_header len fl id 0 t rest Hlen Hid Ht) as E.
  cbv zeta in E. rewrite Z.mul_0_l, Z.add_0_r in E. exact E.
Qed.

(** What one end encodes the other reads: a frame header (length below 2^24,
    stream id below 2^31) is nine bytes and parses to itself, whatever the
    reserved bit of the id says when it arrives; so do the payloads of
    [WINDOW_UPDATE], [RST_STREAM] and [GOAWAY] frames. *)
Theorem frame_header_roundtrip (len fl id inc err reserved : Z) (t : FrameType) (rest : list Z) :
  0 <= len < 2 ^ 24 -> 0 <= id < 2 ^ 31 -> 0 <= inc < 2 ^ 31 -> 0 <= err < 2 ^ 32 ->
  match t with UnknownType c => ~ (0 <= c <= 9) | _ => True end ->
  let bytes := encode_http2_frame_header len t fl id in
  length bytes = Z.to_nat kFrameHeaderSize /\
  parse_frame_header (bytes ++ rest) = mkFrameHeader len t fl id /\
  parse_frame_header (<[5%nat := bytes !z 5 + reserved * 128]> bytes ++ rest) = mkFrameHeader len t fl id /\
  Z.land (parse_u32 (window_update_payload inc)) 0x7fffffff = inc /\
  parse_u32 (rst_stream_payload err) = err /\
  parse_stream_id (goaway_payload inc err) = inc /\ parse_u32 (drop 4 (goaway_payload inc err)) = err.
Proof.
  intros Hlen Hid Hinc Herr Ht bytes.
  split; [done|]. split; [by apply parse_encode|]. split; [by apply parse_encode_header|].
  unfold window_update_payload, rst_stream_payload, goaway_payload.
  destruct (parse_u31_bytes inc [] Hinc) as [_ Hw]. rewrite app_nil_r in Hw. rewrite Hw.
  split; [change (Z.land inc (Z.ones 31) = inc); rewrite Z.land_ones by lia; by apply Z.mod_small|].
  pose proof (parse_append_u32 err [] Herr) as He. rewrite app_nil_r in He. rewrite He.
  split; [done|]. split; [exact (proj1 (parse_u31_bytes inc (append_u32 err) Hinc))|]. exact He.
Qed.

Lemma frame_header_roundtrip_witness :
  parse_frame_header (encode_http2_frame_header 16384 Headers 5 7 ++ []) = mkFrameHeader 16384 Headers 5 7.
Proof.
  destruct (frame_header_roundtrip 16384 5 7 1 0 1 Headers []) as (_ & H & _); [lia|lia|lia|lia|exact I|]. exact H.
Defined.

End Protocol.
