(* ===== verification/IoError.v ===== *)
(** * Error codes ([src/common/IoError.h], [src/common/IoError.cpp])

    The [errno] numbers are those of Linux, where [EWOULDBLOCK] is [EAGAIN] and
    [ENOTSUP] is [EOPNOTSUPP]. *)
From S2P Require Import Prelude.

Module IoError.

Inductive IoErr :=
  | None_ | WouldBlock | Interrupted | Invalid | BadFd | Busy | NotFound | AddrInUse | AddrNotAvailable
  | ConnAborted | ConnReset | ConnRefused | TimedOut | NotConnected | Already | Permission | BrokenPipe
  | NoMem | NotSupported | Canceled | Unknown.

#[global] Instance IoErr_eq_dec : EqDecision IoErr.
Proof. solve_decision. Defined.

#[export] Instance IoErr_inhabited : Inhabited IoErr := populate None_.

Definition EPERM : Z := 1.
Definition ENOENT : Z := 2.
Definition EINTR : Z := 4.
Definition EBADF : Z := 9.
Definition EAGAIN : Z := 11.
Definition ENOMEM : Z := 12.
Definition EACCES : Z := 13.
Definition EBUSY : Z := 16.
Definition EINVAL : Z := 22.
Definition EPIPE : Z := 32.
Definition EOPNOTSUPP : Z := 95.
Definition EADDRINUSE : Z := 98.
Definition EADDRNOTAVAIL : Z := 99.
Definition ECONNABORTED : Z := 103.
Definition ECONNRESET : Z := 104.
Definition ENOTCONN : Z := 107.
Definition ETIMEDOUT : Z := 110.
Definition ECONNREFUSED : Z := 111.
Definition EALREADY : Z := 114.
Definition ECANCELED : Z := 125.
Definition io_err_from_errno (err : Z) : IoErr :=
  if err =? 0 then None_
  else if err =? EAGAIN then WouldBlock
  else if err =? EINTR then Interrupted
  else if err =? EINVAL then Invalid
  else if err =? EBADF then BadFd
  else if err =? EBUSY then Busy
  else if err =? ENOENT then NotFound
  else if err =? EADDRINUSE then AddrInUse
  else if err =? EADDRNOTAVAIL then AddrNotAvailable
  else if err =? ECONNABORTED then ConnAborted
  else if err =? ECONNRESET then ConnReset
  else if err =? ECONNREFUSED then ConnRefused
  else if err =? ETIMEDOUT then TimedOut
  else if err =? ENOTCONN then NotConnected
  else if err =? EALREADY then Already
  else if (err =? EACCES) || (err =? EPERM) then Permission
  else if err =? EPIPE then BrokenPipe
  else if err =? ENOMEM then NoMem
  else if err =? EOPNOTSUPP then NotSupported
  else if err =? ECANCELED then Canceled
  else Unknown.

Definition io_err_to_errno (err : IoErr) : Z :=
  match err with
  | None_ => 0 | WouldBlock => EAGAIN | Interrupted => EINTR | Invalid => EINVAL | BadFd => EBADF
  | Busy => EBUSY | NotFound => ENOENT | AddrInUse => EADDRINUSE | AddrNotAvailable => EADDRNOTAVAIL
  | ConnAborted => ECONNABORTED | ConnReset => ECONNRESET | ConnRefused => ECONNREFUSED
  | TimedOut => ETIMEDOUT | NotConnected => ENOTCONN | Already => EALREADY | Permission => EACCES
  | BrokenPipe => EPIPE | NoMem => ENOMEM | NotSupported => EOPNOTSUPP | Canceled => ECANCELED
  | Unknown => EINVAL
  end.

Definition io_err_name (err : IoErr) : string :=
  match err with
  | None_ => "none" | WouldBlock => "would_block" | Interrupted => "interrupted" | Invalid => "invalid"
  | BadFd => "bad_fd" | Busy => "busy" | NotFound => "not_found" | AddrInUse => "addr_in_use"
  | AddrNotAvailable => "addr_not_available" | ConnAborted => "conn_aborted" | ConnReset => "conn_reset"
  | ConnRefused => "conn_refused" | TimedOut => "timed_out" | NotConnected => "not_connected"
  | Already => "already" | Permission => "permission" | BrokenPipe => "broken_pipe" | NoMem => "no_mem"
  | NotSupported => "not_supported" | Canceled => "canceled" | Unknown => "unknown"
  end.

(** The two conversions agree: going to [errno] and back is the identity on
    every code except [Unknown] (which becomes [Invalid]); from [errno] and back
    is the identity on every number the table knows, [EPERM] apart (which
    becomes [EACCES]); names identify codes. *)
Theorem errno_roundtrip :
  (forall e, io_err_from_errno (io_err_to_errno e) = match e with Unknown => Invalid | _ => e end) /\
  (forall n, io_err_to_errno (io_err_from_errno n) =
     if bool_decide (io_err_from_errno n = Unknown) then EINVAL else if n =? EPERM then EACCES else n) /\
  (forall e1 e2, io_err_name e1 = io_err_name e2 -> e1 = e2).
Proof.
  split; [by intros []|]. split; [|intros e1 e2; by destruct e1, e2].
  intros n. destruct (Z.eq_dec n EACCES) as [->|Ha]; [reflexivity|].
  destruct (Z.eq_dec n EPERM) as [->|Hp]; [reflexivity|].
  unfold io_err_from_errno. apply Z.eqb_neq in Ha, Hp. rewrite Ha, Hp. cbn [orb].
  repeat match goal with
  | |- context [if (n =? ?k) then _ else _] => destruct (Z.eqb_spec n k) as [->|]; [reflexivity|]
  end.
  reflexivity.
Qed.

End IoError.
