(* ===== verification/HeaderStore.v ===== *)
(** * What an exchange needs of its header tables

    The interface between [HttpHeaders] (file HttpHeaders) and the code that
    fills and prints headers: a listing in order of insertion, a membership
    test, and the three functions that write a field.  [StoreLaws] is what the
    clients may rely on; [http_headers_laws] discharges it for the linked
    tables. *)
From S2P Require Import Prelude HttpHeaders.
Import Headers.

Class HeaderStore := {
  table : Type;
  make : Z -> table;                                      (* HttpHeaders(pool), reserve_bytes *)
  listing : table -> Multimap;                            (* begin() .. end() *)
  has_name : table -> list Z -> bool;                     (* contains *)
  put : table -> list Z -> list Z -> table;               (* set *)
  add_field : table -> list Z -> list Z -> bool * table;  (* add *)
  add_view_field : table -> list Z -> list Z -> list Z -> Z -> bool * table;  (* add_view with its hash *)
}.

(** Fields are only ever appended; [put] first drops the fields of the name.  A
    refusal (no memory, or a length above 32 bits) leaves the listing alone. *)
Class StoreLaws (store : HeaderStore) := {
  table_ok : table -> Prop;
  make_ok : forall n, table_ok (make n) /\ listing (make n) = [];
  has_name_spec : forall t n, table_ok t -> has_name t n = existsb (named n) (listing t);
  put_spec : forall t n v, table_ok t -> table_ok (put t n v) /\
    (listing (put t n v) = without_name n (listing t) ++ [(n, v)] \/
     listing (put t n v) = without_name n (listing t));
  add_field_spec : forall t n v, table_ok t -> let '(ok, t') := add_field t n v in
    table_ok t' /\ listing t' = listing t ++ (if ok then [(n, v)] else []);
  add_view_field_spec : forall t n v, table_ok t -> Z.of_nat (length n) <= max_u32 ->
    let '(ok, t') := add_view_field t n v (map lower n) (hash_name n) in
    table_ok t' /\ listing t' = listing t ++ (if ok then [(n, v)] else []);
}.

(** ** The linked tables *)
Section linked.
Variable pool : list bool.

(** The state an operation leaves and its answer; a [std::bad_alloc] is a
    refusal. *)
Definition field_result (r : Result (option Z)) (t : HttpHeaders) : bool * HttpHeaders :=
  match r with
  | Value (Some _) t' => (true, t')
  | Value None t' | BadAlloc t' => (false, t')
  | Fault => (false, t)
  end.

Definition make_headers (bytes : Z) : HttpHeaders :=
  match reserve_bytes bytes (construct pool) with
  | Value _ t | BadAlloc t => t
  | Fault => construct pool
  end.

#[export] Instance http_headers : HeaderStore := {
  table := HttpHeaders;
  make := make_headers;
  listing t := match iterate t with Value l _ => l | _ => [] end;
  has_name t n := match contains n t with Value b _ => b | _ => false end;
  put t n v := snd (field_result (set n v t) t);
  add_field t n v := field_result (add n v t) t;
  add_view_field t n v low h := field_result (add_view_hashed n v low h t) t;
}.

Lemma listing_holds (t : HttpHeaders) mm : holds t mm -> @listing http_headers t = mm.
Proof.
  intros (es & Hr & _ & ->).
  assert (Hi : wp iterate (fun l s => l = (pair_of <$> es)) (fun _ => False) t) by 
    by (by apply (iterate_spec t es)).
  unfold listing, http_headers. unfold wp in Hi. destruct (iterate t); [exact Hi|destruct Hi|destruct Hi].
Qed.

(** An operation that writes a field, as the clients see it. *)
Lemma field_result_spec (op : Op) n v (m : M (option Z)) (t : HttpHeaders) mm :
  perform op = answer AField m -> writes op = Some (n, v) -> honest op -> holds t mm ->
  let '(ok, t') := field_result (m t) t in
  holds t' (base op mm ++ if ok then [(n, v)] else []).
Proof.
  intros Hp Hw Hho Hh. pose proof (perform_step op t mm Hh Hho) as H. rewrite Hp in H.
  unfold answer, wp, bind in H. unfold field_result. destruct (m t) as [a t'|t'|]; [| |done].
  - destruct H as (mm' & Hs & Hh' & _). unfold base. rewrite Hw.
    inversion Hs; subst; simplify_eq; [done|by rewrite app_nil_r].
  - destruct H as [_ Hh']. by rewrite app_nil_r.
Qed.

#[export] Program Instance http_headers_laws : StoreLaws http_headers := {
  table_ok t := exists mm, holds t mm;
}.
Next Obligation.
  intros n. assert (H : holds (make_headers n) []).
  { pose proof (perform_step (OpReserve n) _ _ (construct_holds pool) I) as H.
    unfold make_headers. cbn in H. unfold answer, wp, bind in H.
    destruct (reserve_bytes n (construct pool)) as [[] t|t|]; [|by destruct H|done].
    destruct H as (mm & Hs & Hh & _). by inversion Hs; subst. }
  split; [by exists []|by apply listing_holds].
Qed.
Next Obligation.
  intros t n [mm Hh]. rewrite (listing_holds _ _ Hh).
  destruct Hh as (es & Hr & Hc & ->).
  assert (Hi : wp (Headers.contains n) (fun b s => b = existsb (named n) (pair_of <$> es)) (fun _ => False) t).
  { apply (contains_spec n t es); [exact Hr|]. by rewrite named_entries, (existsb_ext _ _ _ (names_agree n es Hc)). }
  unfold has_name, http_headers. unfold wp in Hi. by destruct (Headers.contains n t).
Qed.
Next Obligation.
  intros t n v [mm Hh]. rewrite (listing_holds _ _ Hh).
  change (@put http_headers t n v) with (snd (field_result (set n v t) t)).
  pose proof (field_result_spec (OpSet n v) n v (set n v) t mm eq_refl eq_refl I Hh) as H.
  destruct (field_result (set n v t) t) as [ok t']. cbn [snd]. split; [by eexists|].
  rewrite (listing_holds _ _ H). unfold base. cbn [writes replaces]. destruct ok; [by left|right; by rewrite app_nil_r].
Qed.
Next Obligation.
  intros t n v [mm Hh]. rewrite (listing_holds _ _ Hh).
  change (@add_field http_headers t n v) with (field_result (add n v t) t).
  pose proof (field_result_spec (OpAdd n v) n v (add n v) t mm eq_refl eq_refl I Hh) as H.
  destruct (field_result (add n v t) t) as [ok t']. split; [by eexists|]. by rewrite (listing_holds _ _ H).
Qed.
Next Obligation.
  intros t n v [mm Hh] Hn. rewrite (listing_holds _ _ Hh).
  change (@add_view_field http_headers t n v (map lower n) (hash_name n)) with
    (field_result (add_view_hashed n v (map lower n) (hash_name n) t) t).
  pose proof (field_result_spec (OpAddViewHashed n v (map lower n) (hash_name n)) n v
    (add_view_hashed n v (map lower n) (hash_name n)) t mm eq_refl eq_refl (conj eq_refl (conj eq_refl Hn)) Hh) as H.
  destruct (field_result (add_view_hashed n v (map lower n) (hash_name n) t) t) as [ok t'].
  split; [by eexists|]. by rewrite (listing_holds _ _ H).
Qed.

End linked.
