(* ===== verification/HttpExchange.v ===== *)
(** * The exchange: one request and its response
    ([HttpExchange], [HttpServerOptions] of [src/http/HttpExchange.h],
    [HttpExchange.cpp])

    The header tables are an implementation of [HeaderStore]; a string view is
    the list of its bytes. *)
From S2P Require Import Prelude Http1Detail HeaderStore.

Module Exchange.

Record HttpServerOptions := mkOptions {
  header_init_size : Z; header_large_size : Z; header_large_num : Z; drain_unread_body : bool }.

Definition default_server_options : HttpServerOptions := mkOptions (8 * 1024) (32 * 1024) 4 false.

Inductive ResponseBodyMode := BodyAuto | ContentLength | Chunked.
Inductive ResponseConnectionMode := ConnAuto | Close.

#[export] Instance ResponseBodyMode_eq_dec : EqDecision ResponseBodyMode.
Proof. solve_decision. Defined.
#[export] Instance ResponseConnectionMode_eq_dec : EqDecision ResponseConnectionMode.
Proof. solve_decision. Defined.

Record HttpUri := mkUri { path : list Z; query : list Z; exten : list Z; unparsed_uri : list Z }.

Section exchange.
Context `{store : HeaderStore}.

Record HttpExchange := mkExchange {
  method_ : HttpMethod; version_ : HttpVersion; uri_ : HttpUri;
  method_view_ : list Z; version_view_ : list Z;
  request_headers_ : table; request_trailers_ : table; request_trailers_complete_ : bool;
  response_headers_ : table; response_trailers_ : table;
  response_status_code_ : Z; response_reason_ : list Z;
  response_body_mode_ : ResponseBodyMode; response_connection_mode_ : ResponseConnectionMode;
  response_content_length_ : Z;
  request_chunked_ : bool; request_content_length_set_ : bool; request_content_length_ : Z;
  request_close_ : bool; request_keep_alive_ : bool }.

(** The constructor.  [HttpMethod{}] and [HttpVersion{}] are the number 0. *)
Definition make_exchange (options : HttpServerOptions) : HttpExchange :=
  let t := make (header_init_size options) in
  mkExchange MUnknown (HttpVersionOther 0) (mkUri [] [] [] []) [] [] t t false t t 200 [] BodyAuto ConnAuto 0
    false false 0 false false.

(** ** Assignments *)

Definition with_request_line (m : HttpMethod) (mv : list Z) (v : HttpVersion) (vv : list Z) (u : HttpUri)
  (x : HttpExchange) : HttpExchange :=
  mkExchange m v u mv vv (request_headers_ x) (request_trailers_ x) (request_trailers_complete_ x)
    (response_headers_ x) (response_trailers_ x) (response_status_code_ x) (response_reason_ x)
    (response_body_mode_ x) (response_connection_mode_ x) (response_content_length_ x)
    (request_chunked_ x) (request_content_length_set_ x) (request_content_length_ x)
    (request_close_ x) (request_keep_alive_ x).

Definition with_request_headers (t : table) (x : HttpExchange) : HttpExchange :=
  mkExchange (method_ x) (version_ x) (uri_ x) (method_view_ x) (version_view_ x)
    t (request_trailers_ x) (request_trailers_complete_ x)
    (response_headers_ x) (response_trailers_ x) (response_status_code_ x) (response_reason_ x)
    (response_body_mode_ x) (response_connection_mode_ x) (response_content_length_ x)
    (request_chunked_ x) (request_content_length_set_ x) (request_content_length_ x)
    (request_close_ x) (request_keep_alive_ x).

Definition with_request_trailers (t : table) (complete : bool) (x : HttpExchange) : HttpExchange :=
  mkExchange (method_ x) (version_ x) (uri_ x) (method_view_ x) (version_view_ x)
    (request_headers_ x) t complete
    (response_headers_ x) (response_trailers_ x) (response_status_code_ x) (response_reason_ x)
    (response_body_mode_ x) (response_connection_mode_ x) (response_content_length_ x)
    (request_chunked_ x) (request_content_length_set_ x) (request_content_length_ x)
    (request_close_ x) (request_keep_alive_ x).

Definition with_framing (chunked set : bool) (length : Z) (x : HttpExchange) : HttpExchange :=
  mkExchange (method_ x) (version_ x) (uri_ x) (method_view_ x) (version_view_ x)
    (request_headers_ x) (request_trailers_ x) (request_trailers_complete_ x)
    (response_headers_ x) (response_trailers_ x) (response_status_code_ x) (response_reason_ x)
    (response_body_mode_ x) (response_connection_mode_ x) (response_content_length_ x)
    chunked set length (request_close_ x) (request_keep_alive_ x).

Definition with_persistence (close keep_alive : bool) (x : HttpExchange) : HttpExchange :=
  mkExchange (method_ x) (version_ x) (uri_ x) (method_view_ x) (version_view_ x)
    (request_headers_ x) (request_trailers_ x) (request_trailers_complete_ x)
    (response_headers_ x) (response_trailers_ x) (response_status_code_ x) (response_reason_ x)
    (response_body_mode_ x) (response_connection_mode_ x) (response_content_length_ x)
    (request_chunked_ x) (request_content_length_set_ x) (request_content_length_ x) close keep_alive.

Definition with_response (hs ts : table) (status : Z) (reason : list Z) (x : HttpExchange) : HttpExchange :=
  mkExchange (method_ x) (version_ x) (uri_ x) (method_view_ x) (version_view_ x)
    (request_headers_ x) (request_trailers_ x) (request_trailers_complete_ x) hs ts status reason
    (response_body_mode_ x) (response_connection_mode_ x) (response_content_length_ x)
    (request_chunked_ x) (request_content_length_set_ x) (request_content_length_ x)
    (request_close_ x) (request_keep_alive_ x).

Definition with_body_mode (mode : ResponseBodyMode) (length : Z) (x : HttpExchange) : HttpExchange :=
  mkExchange (method_ x) (version_ x) (uri_ x) (method_view_ x) (version_view_ x)
    (request_headers_ x) (request_trailers_ x) (request_trailers_complete_ x)
    (response_headers_ x) (response_trailers_ x) (response_status_code_ x) (response_reason_ x)
    mode (response_connection_mode_ x) length
    (request_chunked_ x) (request_content_length_set_ x) (request_content_length_ x)
    (request_close_ x) (request_keep_alive_ x).

Definition with_connection_mode (mode : ResponseConnectionMode) (x : HttpExchange) : HttpExchange :=
  mkExchange (method_ x) (version_ x) (uri_ x) (method_view_ x) (version_view_ x)
    (request_headers_ x) (request_trailers_ x) (request_trailers_complete_ x)
    (response_headers_ x) (response_trailers_ x) (response_status_code_ x) (response_reason_ x)
    (response_body_mode_ x) mode (response_content_length_ x)
    (request_chunked_ x) (request_content_length_set_ x) (request_content_length_ x)
    (request_close_ x) (request_keep_alive_ x).

(** ** What the handler of a request may set *)

(** [FIBER_ASSERT(status >= 100 && status <= 999)]; [None] is its failure.  The
    copy of the reason is assumed to be allocated, as the second assertion
    does. *)
Definition set_response_status (status : Z) (reason : list Z) (x : HttpExchange) : option HttpExchange :=
  if (100 <=? status) && (status <=? 999)
  then Some (with_response (response_headers_ x) (response_trailers_ x) status reason x)
  else None.

Definition set_response_header (name value : list Z) (x : HttpExchange) : HttpExchange :=
  with_response (put (response_headers_ x) name value) (response_trailers_ x)
                (response_status_code_ x) (response_reason_ x) x.

Definition set_response_trailer (name value : list Z) (x : HttpExchange) : HttpExchange :=
  with_response (response_headers_ x) (put (response_trailers_ x) name value)
                (response_status_code_ x) (response_reason_ x) x.

Definition set_response_content_length (len : Z) (x : HttpExchange) : HttpExchange :=
  with_body_mode ContentLength len x.

Definition set_response_chunked (x : HttpExchange) : HttpExchange :=
  with_body_mode Chunked (response_content_length_ x) x.

Definition set_response_close (x : HttpExchange) : HttpExchange := with_connection_mode Close x.

(** ** What they keep *)

(** The tables are well formed and the status has three digits. *)
Record exchange_ok `{laws : !StoreLaws store} (x : HttpExchange) : Prop := mkExchangeOk {
  ok_request_headers : table_ok (request_headers_ x);
  ok_request_trailers : table_ok (request_trailers_ x);
  ok_response_headers : table_ok (response_headers_ x);
  ok_response_trailers : table_ok (response_trailers_ x);
  ok_status : 100 <= response_status_code_ x <= 999 }.

Context `{laws : !StoreLaws store}.

Lemma make_exchange_ok options : exchange_ok (make_exchange options).
Proof.
  destruct (make_ok (header_init_size options)) as [Ht _]. split; try exact Ht. cbn. lia.
Qed.

Lemma set_response_status_ok status reason x x' :
  exchange_ok x -> set_response_status status reason x = Some x' -> exchange_ok x'.
Proof.
  intros [] H. unfold set_response_status in H. destruct (_ && _) eqn:Hs; [|done]. injection H as <-.
  bool_to_prop. by split.
Qed.

Lemma set_response_header_ok name value x : exchange_ok x -> exchange_ok (set_response_header name value x).
Proof. intros []. split; try done. cbn. by destruct (put_spec (response_headers_ x) name value). Qed.

Lemma set_response_trailer_ok name value x : exchange_ok x -> exchange_ok (set_response_trailer name value x).
Proof. intros []. split; try done. cbn. by destruct (put_spec (response_trailers_ x) name value). Qed.

Lemma with_body_mode_ok mode len x : exchange_ok x -> exchange_ok (with_body_mode mode len x).
Proof. by intros []. Qed.

Lemma with_connection_mode_ok mode x : exchange_ok x -> exchange_ok (with_connection_mode mode x).
Proof. by intros []. Qed.

End exchange.
End Exchange.
