(* ===== verification/Http1Response.v ===== *)
(** * Writing an HTTP/1 response
    (the response side of [Http1ExchangeIo], [src/http/Http1ExchangeIo.cpp])

    A call is a function on the state of the exchange and of its transport; it
    returns a value, an error code, or has written past the end of a buffer
    ([Overrun]).  The transport is an oracle: how many bytes each of the next
    writes accepts, or the error it reports; [wire] is what it has accepted so
    far.  A buffer or a buffer chain is the list of its readable bytes (file
    IoBuf shows that the operations used here act so on chains); [allocs] says
    which of the next allocations succeed. *)
From S2P Require Import Prelude Http1Detail IoError HttpHeaders HeaderStore HttpExchange.
Import IoError Exchange.

Module Response.

(** ** Text *)

Definition CRLF : list Z := [CR; LF].
Definition str (s : string) : list Z := bytes_of_string s.

Definition default_reason_phrase (status : Z) : list Z :=
  if status =? 100 then str "Continue"
  else if status =? 101 then str "Switching Protocols"
  else if status =? 200 then str "OK"
  else if status =? 201 then str "Created"
  else if status =? 202 then str "Accepted"
  else if status =? 204 then str "No Content"
  else if status =? 301 then str "Moved Permanently"
  else if status =? 302 then str "Found"
  else if status =? 304 then str "Not Modified"
  else if status =? 400 then str "Bad Request"
  else if status =? 401 then str "Unauthorized"
  else if status =? 403 then str "Forbidden"
  else if status =? 404 then str "Not Found"
  else if status =? 405 then str "Method Not Allowed"
  else if status =? 408 then str "Request Timeout"
  else if status =? 409 then str "Conflict"
  else if status =? 413 then str "Payload Too Large"
  else if status =? 429 then str "Too Many Requests"
  else if status =? 500 then str "Internal Server Error"
  else if status =? 501 then str "Not Implemented"
  else if status =? 502 then str "Bad Gateway"
  else if status =? 503 then str "Service Unavailable"
  else if status =? 504 then str "Gateway Timeout"
  else str "OK".

(** [std::to_chars] of an unsigned number; 64 digits are enough for 64 bits in
    any base. *)
Definition digit_char (d : Z) : Z := if d <? 10 then chr "0" + d else chr "a" + (d - 10).

Fixpoint to_chars_loop (fuel : nat) (base v : Z) (acc : list Z) : list Z :=
  match fuel with
  | O => acc
  | S fuel' =>
      let acc := digit_char (v mod base) :: acc in
      if v / base =? 0 then acc else to_chars_loop fuel' base (v / base) acc
  end.

Definition to_chars (base v : Z) : list Z := to_chars_loop 64 base v [].

#[local] Arguments to_chars : simpl never.

Definition append_decimal (value : Z) : list Z := to_chars 10 value.
Definition append_hex (value : Z) : list Z := to_chars 16 value.

(** [std::to_string] of an [int] and of a [std::size_t]. *)
Definition to_string (v : Z) : list Z := if v <? 0 then chr "-" :: to_chars 10 (- v) else to_chars 10 v.

(** ** The state *)

Inductive ResponsePhase := Init | HeaderSent | BodyStreaming | Finished.

#[export] Instance ResponsePhase_eq_dec : EqDecision ResponsePhase.
Proof. solve_decision. Defined.

Inductive WriteResult := Accepts (n : nat) | Refuses (e : IoErr).

(** The argument of [write_body(buf, len, end)]. *)
Inductive BufArg := NullBuf (len : Z) | Buf (bs : list Z).

Section response.
Context `{store : HeaderStore}.

(** [stopping], [drain] and [body_done] are what the code asks of its
    connection, its options and the request body parser. *)
Record World := mkWorld {
  exch : HttpExchange;
  response_phase_ : ResponsePhase; response_body_sent_ : Z; close_after_response_ : bool;
  stopping : bool; drain : bool; body_done : bool;
  allocs : list bool; writes : list WriteResult; wire : list Z }.

Definition set_exch (x : HttpExchange) (w : World) : World :=
  mkWorld x (response_phase_ w) (response_body_sent_ w) (close_after_response_ w)
    (stopping w) (drain w) (body_done w) (allocs w) (writes w) (wire w).
Definition set_phase (p : ResponsePhase) (w : World) : World :=
  mkWorld (exch w) p (response_body_sent_ w) (close_after_response_ w)
    (stopping w) (drain w) (body_done w) (allocs w) (writes w) (wire w).
Definition set_sent (n : Z) (w : World) : World :=
  mkWorld (exch w) (response_phase_ w) n (close_after_response_ w)
    (stopping w) (drain w) (body_done w) (allocs w) (writes w) (wire w).
Definition set_close_after (b : bool) (w : World) : World :=
  mkWorld (exch w) (response_phase_ w) (response_body_sent_ w) b
    (stopping w) (drain w) (body_done w) (allocs w) (writes w) (wire w).
Definition set_allocs (l : list bool) (w : World) : World :=
  mkWorld (exch w) (response_phase_ w) (response_body_sent_ w) (close_after_response_ w)
    (stopping w) (drain w) (body_done w) l (writes w) (wire w).
Definition set_transport (os : list WriteResult) (bs : list Z) (w : World) : World :=
  mkWorld (exch w) (response_phase_ w) (response_body_sent_ w) (close_after_response_ w)
    (stopping w) (drain w) (body_done w) (allocs w) os bs.

(** The constructor of the response side. *)
Definition fresh (x : HttpExchange) (stopping drain body_done : bool) (allocs : list bool)
  (writes : list WriteResult) (wire : list Z) : World :=
  mkWorld x Init 0 false stopping drain body_done allocs writes wire.

Inductive Outcome (A : Type) := Returns (a : A) (w : World) | Unexpected (e : IoErr) (w : World) | Overrun.
Arguments Returns {A}.
Arguments Unexpected {A}.
Arguments Overrun {A}.

Definition Io (A : Type) : Type := World -> Outcome A.
Definition ret {A} (a : A) : Io A := fun w => Returns a w.
Definition fail {A} (e : IoErr) : Io A := fun w => Unexpected e w.
Definition bind {A B} (m : Io A) (f : A -> Io B) : Io B := fun w =>
  match m w with Returns a w' => f a w' | Unexpected e w' => Unexpected e w' | Overrun => Overrun end.
Definition gets {A} (f : World -> A) : Io A := fun w => Returns (f w) w.
Definition modify (f : World -> World) : Io unit := fun w => Returns tt (f w).
Definition overrun {A} : Io A := fun _ => Overrun.

Declare Scope response_scope.
Delimit Scope response_scope with response.
Notation "x <- m ;; k" := (bind m (fun x => k)) (at level 100, m at next level, right associativity) : response_scope.
Notation "m ;; k" := (bind m (fun _ => k)) (at level 100, right associativity) : response_scope.
#[local] Open Scope response_scope.

(** [mem::IoBuf::allocate] of a positive size: whether there is a buffer. *)
Definition allocate : Io bool := fun w =>
  match allocs w with [] => Returns true w | b :: l => Returns b (set_allocs l w) end.

(** ** Writing to the transport *)

(** The loop of [write_all]: a write that accepts [n] bytes accepts at most
    what it was given; accepting none is an error. *)
Fixpoint write_loop (os : list WriteResult) (remaining : list Z) (w : World) : Outcome unit :=
  match remaining with
  | [] => Returns tt (set_transport os (wire w) w)
  | _ :: _ =>
      match os with
      | [] => Returns tt (set_transport [] (wire w ++ remaining) w)
      | Refuses e :: os' => Unexpected e (set_transport os' (wire w) w)
      | Accepts n :: os' =>
          if (n =? 0)%nat then Unexpected ConnReset (set_transport os' (wire w) w)
          else write_loop os' (drop n remaining) (set_transport os' (wire w ++ take n remaining) w)
      end
  end.

Definition write_all (bs : list Z) : Io unit := fun w => write_loop (writes w) bs w.

(** The overload on a chain, which [writev] consumes. *)
Definition write_all_chain (chain : list Z) : Io unit := fun w => write_loop (writes w) chain w.

(** ** The header *)

Definition infer_mode (infer_body_mode body_end : bool) (first_body_len : Z) (x : HttpExchange) : HttpExchange :=
  let x := if infer_body_mode && bool_decide (response_body_mode_ x = BodyAuto)
           then if body_end then with_body_mode ContentLength first_body_len x
                else with_body_mode Chunked (response_content_length_ x) x
           else x in
  if bool_decide (response_body_mode_ x = BodyAuto) then with_body_mode ContentLength 0 x else x.

Definition is_http10 (x : HttpExchange) : bool := match version_ x with HTTP_1_0 => true | _ => false end.

Definition close_connection (w : World) : bool :=
  if bool_decide (response_connection_mode_ (exch w) = Close) || stopping w then true
  else if negb (drain w) && negb (body_done w) then true
  else if is_http10 (exch w) then negb (request_keep_alive_ (exch w)) else request_close_ (exch w).

Definition reason_of (x : HttpExchange) : list Z :=
  if (length (response_reason_ x) =? 0)%nat then default_reason_phrase (response_status_code_ x)
  else response_reason_ x.

Definition kHttp10 : list Z := str "HTTP/1.0 ".
Definition kHttp11 : list Z := str "HTTP/1.1 ".
Definition kContentLength : list Z := str "Content-Length: ".
Definition kTransferEncoding : list Z := str "Transfer-Encoding: chunked" ++ CRLF.
Definition kConnectionClose : list Z := str "Connection: close" ++ CRLF.
Definition kHttpStatusDigits : Z := 3.
Definition kMaxContentLengthDigits : Z := 20.
Definition kMaxChunkSizeHexDigits : Z := 16.
Definition kInlineFirstWriteBodyLimit : Z := 128.

Definition writes_content_length (x : HttpExchange) : bool :=
  bool_decide (response_body_mode_ x = ContentLength) && negb (has_name (response_headers_ x) (str "Content-Length")).
Definition writes_transfer_encoding (x : HttpExchange) : bool :=
  bool_decide (response_body_mode_ x = Chunked) && negb (has_name (response_headers_ x) (str "Transfer-Encoding")).
Definition writes_connection_close (close_conn : bool) (x : HttpExchange) : bool :=
  close_conn && negb (has_name (response_headers_ x) (str "Connection")).

Definition size (l : list Z) : Z := Z.of_nat (length l).

(** The loops over the fields; a field without a name is skipped. *)
Fixpoint fields_len (fs : list (list Z * list Z)) : Z :=
  match fs with
  | [] => 0
  | (name, value) :: fs' =>
      (if size name =? 0 then 0 else size name + 2 + size value + size CRLF) + fields_len fs'
  end.

Fixpoint print_fields (fs : list (list Z * list Z)) : list Z :=
  match fs with
  | [] => []
  | (name, value) :: fs' =>
      (if size name =? 0 then [] else name ++ [chr ":"; SP] ++ value ++ CRLF) ++ print_fields fs'
  end.

(** The size of the buffer of [build_response_header]. *)
Definition header_len (close_conn : bool) (x : HttpExchange) : Z :=
  u64 (size (if is_http10 x then kHttp10 else kHttp11) + kHttpStatusDigits + (1 + size (reason_of x) + size CRLF)
       + (if writes_content_length x then size kContentLength + kMaxContentLengthDigits + size CRLF else 0)
       + (if writes_transfer_encoding x then size kTransferEncoding else 0)
       + (if writes_connection_close close_conn x then size kConnectionClose else 0)
       + fields_len (listing (response_headers_ x)) + size CRLF).

(** What it writes there. *)
Definition header_bytes (close_conn : bool) (x : HttpExchange) : list Z :=
  (if is_http10 x then kHttp10 else kHttp11) ++ append_decimal (u64 (response_status_code_ x)) ++ [SP]
  ++ reason_of x ++ CRLF
  ++ (if writes_content_length x then kContentLength ++ append_decimal (response_content_length_ x) ++ CRLF else [])
  ++ (if writes_transfer_encoding x then kTransferEncoding else [])
  ++ (if writes_connection_close close_conn x then kConnectionClose else [])
  ++ print_fields (listing (response_headers_ x)) ++ CRLF.

Definition build_response_header (body_end : bool) (first_body_len : Z) (infer_body_mode : bool)
  : Io (list Z * bool) :=
  modify (fun w => set_exch (infer_mode infer_body_mode body_end first_body_len (exch w)) w);;
  close_conn <- gets close_connection;;
  x <- gets exch;;
  ok <- allocate;;
  if negb ok then fail NoMem
  else if header_len close_conn x <? size (header_bytes close_conn x) then overrun
  else ret (header_bytes close_conn x, close_conn).

(** The string that [write_response_header] appends to. *)
Definition header_string (close_conn : bool) (x : HttpExchange) : list Z :=
  (if is_http10 x then str "HTTP/1.0 " else str "HTTP/1.1 ") ++ to_string (response_status_code_ x) ++ [SP]
  ++ reason_of x ++ CRLF
  ++ (if writes_content_length x then str "Content-Length: " ++ to_string (response_content_length_ x) ++ CRLF else [])
  ++ (if writes_transfer_encoding x then str "Transfer-Encoding: chunked" ++ CRLF else [])
  ++ (if writes_connection_close close_conn x then str "Connection: close" ++ CRLF else [])
  ++ print_fields (listing (response_headers_ x)) ++ CRLF.

(** [close_after_response_] and the mode it imposes. *)
Definition note_close (close_conn : bool) (w : World) : World :=
  let w := set_close_after close_conn w in
  if close_conn then set_exch (with_connection_mode Close (exch w)) w else w.

Definition write_response_header (body_end : bool) (first_body_len : Z) (infer_body_mode : bool) : Io unit :=
  phase <- gets response_phase_;;
  if negb (bool_decide (phase = Init)) then fail Already else
  modify (fun w => set_exch (infer_mode infer_body_mode body_end first_body_len (exch w)) w);;
  close_conn <- gets close_connection;;
  x <- gets exch;;
  write_all (header_string close_conn x);;
  modify (set_phase HeaderSent);;
  modify (note_close close_conn).

Definition send_response_header : Io unit := write_response_header true 0 false.

(** ** The end of the body *)

Definition trailer_block (x : HttpExchange) : list Z := print_fields (listing (response_trailers_ x)) ++ CRLF.

Definition write_chunked_trailer_block : Io unit :=
  x <- gets exch;; write_all (trailer_block x).

Definition finish_response : Io unit :=
  phase <- gets response_phase_;;
  if bool_decide (phase = Init) then fail Invalid else
  if bool_decide (phase = Finished) then fail Already else
  x <- gets exch;;
  if bool_decide (response_body_mode_ x = Chunked) then
    write_all (str "0" ++ CRLF);;
    write_chunked_trailer_block;;
    modify (set_phase Finished)
  else if negb (length (listing (response_trailers_ x)) =? 0)%nat then fail Invalid
  else
    sent <- gets response_body_sent_;;
    if bool_decide (response_body_mode_ x = ContentLength) && negb (sent =? response_content_length_ x)
    then fail Invalid
    else modify (set_phase Finished).

(** ** The body *)

(** The guard on [Content-Length]: the new bytes must fit what is left. *)
Definition exceeds (len : Z) (w : World) : bool :=
  bool_decide (response_body_mode_ (exch w) = ContentLength) &&
  (u64 (response_content_length_ (exch w) - response_body_sent_ w) <? len).

Definition finish_if (last : bool) : Io unit := if last then finish_response else ret tt.

(** After the first write: the header is out. *)
Definition first_written (close_conn : bool) (len : Z) (w : World) : World :=
  let w := note_close close_conn w in
  let w := set_sent (u64 (response_body_sent_ w + len)) w in
  set_phase (if 0 <? len then BodyStreaming else HeaderSent) w.

(** After a later write. *)
Definition more_written (len : Z) (w : World) : World :=
  let w := set_sent (u64 (response_body_sent_ w + len)) w in
  if 0 <? len then set_phase BodyStreaming w else w.

Definition is_chunked (w : World) : bool := bool_decide (response_body_mode_ (exch w) = Chunked).

Definition write_body_chunk (chunk : list Z) (last : bool) : Io Z :=
  phase <- gets response_phase_;;
  if bool_decide (phase = Finished) then fail Already else
  let len := size chunk in
  if bool_decide (phase = Init) then
    header <- build_response_header last len true;;
    too_much <- gets (exceeds len);;
    if too_much then fail Invalid else
    chunked <- gets is_chunked;;
    chain <- (if chunked && (0 <? len) then
                ok <- allocate;;
                if negb ok then fail NoMem else
                let prefix := append_hex len ++ CRLF in
                if kMaxChunkSizeHexDigits + 2 <? size prefix then overrun else
                ok <- allocate;;
                if negb ok then fail NoMem else
                appended <- allocate;;
                if negb appended then fail NoMem else
                prepended <- allocate;;
                if negb prepended then fail NoMem else ret (prefix ++ chunk ++ CRLF)
              else ret chunk);;
    linked <- allocate;;
    if negb linked then fail NoMem else
    write_all_chain (header.1 ++ chain);;
    modify (first_written header.2 len);;
    finish_if last;;
    ret len
  else
    chunked <- gets is_chunked;;
    if chunked then
      (if 0 <? len then
         write_all (append_hex len);;
         write_all CRLF;;
         write_all_chain chunk;;
         write_all CRLF
       else ret tt);;
      modify (more_written len);;
      finish_if last;;
      ret len
    else
      too_much <- gets (exceeds len);;
      if too_much then fail Invalid else
      (if 0 <? len then write_all_chain chunk else ret tt);;
      modify (more_written len);;
      finish_if last;;
      ret len.

Definition write_body_buf (buf : BufArg) (last : bool) : Io Z :=
  let len := match buf with NullBuf n => n | Buf bs => size bs end in
  let bs := match buf with NullBuf _ => [] | Buf bs => bs end in
  let is_null := match buf with NullBuf _ => true | Buf _ => false end in
  if (0 <? len) && is_null then fail Invalid else
  phase <- gets response_phase_;;
  if bool_decide (phase = Finished) then fail Already else
  if bool_decide (phase = Init) then
    header <- build_response_header last len true;;
    too_much <- gets (exceeds len);;
    if too_much then fail Invalid else
    chunked <- gets is_chunked;;
    (if len <=? kInlineFirstWriteBodyLimit then
       let combined_len := u64 (size header.1 + len
             + (if chunked && (0 <? len) then kMaxChunkSizeHexDigits + 4 else 0)) in
       ok <- allocate;;
       if negb ok then fail NoMem else
       let out := header.1 ++ (if chunked && (0 <? len) then append_hex len ++ CRLF ++ bs ++ CRLF else bs) in
       if combined_len <? size out then overrun else
       write_all out
     else
       write_all header.1;;
       if chunked && (0 <? len) then
         write_all (append_hex len);;
         write_all CRLF;;
         write_all bs;;
         write_all CRLF
       else if 0 <? len then write_all bs else ret tt);;
    modify (first_written header.2 len);;
    finish_if last;;
    ret len
  else
    chunked <- gets is_chunked;;
    if chunked then
      (if 0 <? len then
         write_all (append_hex len);;
         write_all CRLF;;
         write_all bs;;
         write_all CRLF
       else ret tt);;
      modify (more_written len);;
      finish_if last;;
      ret len
    else
      too_much <- gets (exceeds len);;
      if too_much then fail Invalid else
      (if 0 <? len then write_all bs else ret tt);;
      modify (more_written len);;
      finish_if last;;
      ret len.

Definition response_complete (w : World) : bool := bool_decide (response_phase_ w = Finished).

Definition should_keep_alive (w : World) : bool :=
  bool_decide (response_phase_ w = Finished) && negb (close_after_response_ w).

(** ** Numbers as text *)

Lemma to_chars_loop_length (fuel : nat) base v k acc :
  2 <= base -> (1 <= k)%nat -> 0 <= v < base ^ Z.of_nat k ->
  (length (to_chars_loop fuel base v acc) <= k + length acc)%nat.
Proof.
  intros Hb. revert v k acc. induction fuel as [|fuel IH]; intros v k acc Hk Hv; cbn [to_chars_loop]; [lia|].
  destruct (Z.eqb_spec (v / base) 0) as [_|Hz]; [cbn; lia|].
  destruct k as [|[|k]]; [lia| |].
  - rewrite Z.pow_1_r in Hv. rewrite Z.div_small in Hz by lia. done.
  - etransitivity; [apply (IH _ (S k)); [lia|]|cbn; lia].
    split; [apply Z.div_pos; lia|]. apply Z.div_lt_upper_bound; [lia|].
    rewrite <-Z.pow_succ_r, <-Nat2Z.inj_succ by lia. lia.
Qed.

Lemma append_decimal_length (k : nat) v :
  (1 <= k)%nat -> 0 <= v < 10 ^ Z.of_nat k -> size (append_decimal v) <= Z.of_nat k.
Proof.
  intros Hk Hv. unfold size, append_decimal, to_chars.
  pose proof (to_chars_loop_length 64 10 v k [] ltac:(lia) Hk Hv). cbn [length] in *. lia.
Qed.

Lemma append_hex_length v : in_width 64 v -> size (append_hex v) <= kMaxChunkSizeHexDigits.
Proof.
  intros Hv. unfold size, append_hex, to_chars, kMaxChunkSizeHexDigits.
  pose proof (to_chars_loop_length 64 16 v 16 [] ltac:(lia) ltac:(lia) Hv). cbn [length] in *. lia.
Qed.

Lemma to_chars_loop_nonempty (fuel : nat) base v acc :
  (0 < fuel)%nat \/ acc <> [] -> to_chars_loop fuel base v acc <> [].
Proof.
  revert v acc. induction fuel as [|fuel IH]; intros v acc Ha; cbn [to_chars_loop].
  - destruct Ha; [lia|done].
  - destruct (_ =? 0); [done|]. apply IH. by right.
Qed.

Lemma append_hex_nonempty v : append_hex v <> [].
Proof. apply to_chars_loop_nonempty. left. lia. Qed.

Lemma size_app a b : size (a ++ b) = size a + size b.
Proof. unfold size. rewrite length_app. lia. Qed.

Lemma size_nonneg l : 0 <= size l.
Proof. unfold size. lia. Qed.

Lemma size_nil l : (0 <? size l) = false -> l = [].
Proof. destruct l; [done|]. intros H. apply Z.ltb_ge in H. unfold size in H. cbn in H. lia. Qed.

Lemma print_fields_size fs : size (print_fields fs) = fields_len fs.
Proof.
  induction fs as [|[n v] fs IH]; [done|]. cbn [print_fields fields_len]. rewrite size_app, IH.
  destruct (size n =? 0); [done|]. rewrite !size_app. change (size [58; SP]) with 2. lia.
Qed.

(** ** The header fits its buffer *)

(** A response whose status was accepted by [set_response_status] and whose
    header has fewer than 2^63 bytes. *)
Record sane (x : HttpExchange) : Prop := mkSane {
  sane_status : 100 <= response_status_code_ x <= 999;
  sane_length : in_width 64 (response_content_length_ x);
  sane_text : size (reason_of x) + fields_len (listing (response_headers_ x)) < 2 ^ 63 }.

Lemma fields_len_nonneg fs : 0 <= fields_len fs.
Proof. rewrite <-print_fields_size. apply size_nonneg. Qed.

Ltac literal_sizes :=
  change (size kHttp10) with 9; change (size kHttp11) with 9; change (size kContentLength) with 16;
  change (size kTransferEncoding) with 28; change (size kConnectionClose) with 19;
  change (size CRLF) with 2; change (size [SP]) with 1; change (size []) with 0.

Lemma header_fits close_conn x : sane x -> size (header_bytes close_conn x) <= header_len close_conn x.
Proof.
  intros [Hst Hcl Htext]. unfold header_len, header_bytes. rewrite !size_app, print_fields_size.
  rewrite (wrap_small 64 (response_status_code_ x)) by (split; lia).
  pose proof (append_decimal_length 3 (response_status_code_ x) ltac:(lia) ltac:(lia)) as H3.
  pose proof (append_decimal_length 20 (response_content_length_ x) ltac:(lia)) as H20.
  assert (in_width 64 (response_content_length_ x) -> 0 <= response_content_length_ x < 10 ^ Z.of_nat 20) as Hw.
  { intros [? ?]. split; [done|]. eapply Z.lt_trans; [eassumption|]. reflexivity. }
  specialize (H20 (Hw Hcl)). pose proof (fields_len_nonneg (listing (response_headers_ x))).
  pose proof (size_nonneg (reason_of x)).
  pose proof (size_nonneg (append_decimal (response_content_length_ x))).
  unfold kHttpStatusDigits, kMaxContentLengthDigits in *. change (Z.of_nat 20) with 20 in *. change (Z.of_nat 3) with 3 in *.
  rewrite wrap_small.
  - destruct (is_http10 x), (writes_content_length x), (writes_transfer_encoding x), (writes_connection_close close_conn x);
      rewrite ?size_app; literal_sizes; lia.
  - destruct (is_http10 x), (writes_content_length x), (writes_transfer_encoding x), (writes_connection_close close_conn x);
      literal_sizes; split; lia.
Qed.

Lemma header_small close_conn x : sane x -> size (header_bytes close_conn x) < 2 ^ 63 + 200.
Proof.
  intros Hx. pose proof (header_fits close_conn x Hx) as Hf. destruct Hx as [_ _ Htext].
  eapply Z.le_lt_trans; [exact Hf|]. unfold header_len, kHttpStatusDigits, kMaxContentLengthDigits.
  pose proof (fields_len_nonneg (listing (response_headers_ x))). pose proof (size_nonneg (reason_of x)).
  eapply Z.le_lt_trans; [apply Z.mod_le; [|done]|];
    destruct (is_http10 x), (writes_content_length x), (writes_transfer_encoding x), (writes_connection_close close_conn x);
    literal_sizes; lia.
Qed.

(** The two builders of the header write the same bytes. *)
Lemma header_string_bytes close_conn x : sane x -> header_string close_conn x = header_bytes close_conn x.
Proof.
  intros [Hst Hcl _]. unfold header_string, header_bytes, append_decimal, to_string.
  destruct (Z.ltb_spec (response_status_code_ x) 0); [lia|].
  destruct (Z.ltb_spec (response_content_length_ x) 0) as [Hn|_]; [destruct Hcl; lia|].
  by rewrite wrap_small by (split; lia).
Qed.

(** ** Reasoning about calls *)

Definition wp {A} (m : Io A) (Q : A -> World -> Prop) (E : World -> Prop) (w : World) : Prop :=
  match m w with Returns a w' => Q a w' | Unexpected _ w' => E w' | Overrun => False end.

Lemma respond_bind {A B} (m : Io A) (f : A -> Io B) Q E w :
  wp m (fun a w' => wp (f a) Q E w') E w -> wp (bind m f) Q E w.
Proof. unfold wp, bind. by destruct (m w). Qed.

Lemma respond_mono {A} (m : Io A) (Q Q' : A -> World -> Prop) (E E' : World -> Prop) w :
  wp m Q E w -> (forall a w', Q a w' -> Q' a w') -> (forall w', E w' -> E' w') -> wp m Q' E' w.
Proof. unfold wp. destruct (m w); naive_solver. Qed.

Lemma respond_gets {A} (f : World -> A) Q E w : Q (f w) w -> wp (gets f) Q E w.
Proof. done. Qed.

Lemma respond_modify f (Q : unit -> World -> Prop) E w : Q tt (f w) -> wp (modify f) Q E w.
Proof. done. Qed.

Lemma wp_if {A} (b : bool) (m1 m2 : Io A) Q E w :
  (b = true -> wp m1 Q E w) -> (b = false -> wp m2 Q E w) -> wp (if b then m1 else m2) Q E w.
Proof. destruct b; auto. Qed.

(** A transport that reports no error and always makes progress. *)
Definition steady (os : list WriteResult) : Prop := Forall (fun o => exists n, o = Accepts (S n)) os.

Lemma write_loop_steady os bs w :
  steady os -> exists os', steady os' /\ write_loop os bs w = Returns tt (set_transport os' (wire w ++ bs) w).
Proof.
  intros Hs. revert bs w. induction Hs as [|o os [n ->] Hs IH]; intros bs w.
  - destruct bs; cbn [write_loop]; exists []; (split; [constructor|]); by rewrite ?app_nil_r.
  - destruct bs as [|b bs]; cbn [write_loop].
    + exists (Accepts (S n) :: os). rewrite app_nil_r. split; [by constructor; [exists n|]|done].
    + cbn [Nat.eqb]. destruct (IH (drop (S n) (b :: bs)) (set_transport os (wire w ++ take (S n) (b :: bs)) w))
        as (os' & Hs' & ->).
      exists os'. split; [done|]. cbn [wire set_transport]. by rewrite <-app_assoc, take_drop.
Qed.

(** A write on a steady transport, and two writes in a row. *)
Lemma wp_write_all bs (Q : unit -> World -> Prop) E w :
  steady (writes w) ->
  (forall os, steady os -> Q tt (set_transport os (wire w ++ bs) w)) -> wp (write_all bs) Q E w.
Proof.
  intros Hs HQ. unfold wp, write_all. destruct (write_loop_steady (writes w) bs w Hs) as (os & Hos & ->). auto.
Qed.

Lemma wp_write_chunk bs (Q : unit -> World -> Prop) E w :
  steady (writes w) ->
  (forall os, steady os -> Q tt (set_transport os (wire w ++ append_hex (size bs) ++ CRLF ++ bs ++ CRLF) w)) ->
  wp (write_all (append_hex (size bs));; write_all CRLF;; write_all bs;; write_all CRLF) Q E w.
Proof.
  intros Hs HQ.
  apply respond_bind, wp_write_all; [done|intros os1 H1]. apply respond_bind, wp_write_all; [done|intros os2 H2].
  apply respond_bind, wp_write_all; [done|intros os3 H3]. apply wp_write_all; [done|intros os4 H4].
  specialize (HQ os4 H4). cbn [wire set_transport] in *. by rewrite !app_assoc in *.
Qed.

Lemma wp_allocate (Q : bool -> World -> Prop) E w : (forall b l, Q b (set_allocs l w)) -> wp allocate Q E w.
Proof.
  intros HQ. unfold wp, allocate. destruct w as [x p n c st d b al os wi]. destruct al as [|a al]; cbn.
  - apply (HQ true []).
  - apply (HQ a al).
Qed.

(** ** The response on the wire *)

Definition frame_chunk (bs : list Z) : list Z :=
  if size bs =? 0 then [] else append_hex (size bs) ++ CRLF ++ bs ++ CRLF.

(** The body made of [pieces], and what ends it. *)
Definition framed (mode : ResponseBodyMode) (pieces : list (list Z)) : list Z :=
  match mode with Chunked => concat (map frame_chunk pieces) | _ => concat pieces end.

Definition ending (x : HttpExchange) : list Z :=
  match response_body_mode_ x with Chunked => str "0" ++ CRLF ++ trailer_block x | _ => [] end.

Definition started (p : ResponsePhase) : Prop := p <> Init.

(** [pieces] are the bodies written so far; [start] is what was on the wire
    before this exchange. *)
Record on_wire (start : list Z) (pieces : list (list Z)) (w : World) : Prop := mkOnWire {
  ow_sane : sane (exch w);
  ow_steady : steady (writes w);
  ow_init : response_phase_ w = Init -> wire w = start /\ response_body_sent_ w = 0 /\ pieces = [];
  ow_mode : started (response_phase_ w) -> response_body_mode_ (exch w) <> BodyAuto;
  ow_wire : started (response_phase_ w) ->
    wire w = start ++ header_bytes (close_after_response_ w) (exch w)
             ++ framed (response_body_mode_ (exch w)) pieces
             ++ (if bool_decide (response_phase_ w = Finished) then ending (exch w) else []);
  ow_sent : started (response_phase_ w) -> response_body_sent_ w = u64 (size (concat pieces));
  ow_length : started (response_phase_ w) -> response_body_mode_ (exch w) = ContentLength ->
    size (concat pieces) <= response_content_length_ (exch w) /\
    (response_phase_ w = Finished -> size (concat pieces) = response_content_length_ (exch w) /\
                                     listing (response_trailers_ (exch w)) = []) }.

Lemma sane_infer infer body_end len x : sane x -> in_width 64 len -> sane (infer_mode infer body_end len x).
Proof.
  intros [Hs Hl Ht] Hw. unfold infer_mode.
  destruct (infer && bool_decide (response_body_mode_ x = BodyAuto)); [destruct body_end|];
    case_bool_decide; split; cbn; try done; lia.
Qed.

Lemma infer_mode_not_auto infer body_end len x : response_body_mode_ (infer_mode infer body_end len x) <> BodyAuto.
Proof.
  unfold infer_mode. destruct (infer && bool_decide (response_body_mode_ x = BodyAuto)); [destruct body_end|];
    case_bool_decide; by cbn in *.
Qed.

Lemma framed_nil mode : framed mode [] = [].
Proof. by destruct mode. Qed.

Lemma framed_app mode ps qs : framed mode (ps ++ qs) = framed mode ps ++ framed mode qs.
Proof. unfold framed. destruct mode; by rewrite ?map_app, concat_app. Qed.

(** Only the fields of the response and the tables matter before it starts. *)
Lemma on_wire_init start pieces w x l :
  on_wire start pieces w -> response_phase_ w = Init -> sane x -> on_wire start pieces (set_allocs l (set_exch x w)).
Proof.
  intros [] Hp Hs. by split; cbn; unfold started in *.
Qed.

Lemma finish_response_spec start pieces w :
  on_wire start pieces w ->
  wp finish_response (fun _ w' => on_wire start pieces w' /\ response_phase_ w' = Finished)
     (on_wire start pieces) w.
Proof.
  intros Hw. pose proof Hw as [Hsane Hst Hinit Hmode Hwire Hsent Hlen].
  unfold finish_response. apply respond_bind. cbn. destruct (bool_decide_reflect (response_phase_ w = Init)) as [Hi|Hi]; [exact Hw|].
  destruct (bool_decide_reflect (response_phase_ w = Finished)) as [Hf|Hf]; [exact Hw|].
  apply respond_bind. cbn. specialize (Hwire Hi). cbn [andb] in Hwire. rewrite app_nil_r in Hwire.
  destruct (bool_decide_reflect (response_body_mode_ (exch w) = Chunked)) as [Hc|Hc].
  - apply respond_bind, wp_write_all; [done|intros os1 H1]. apply respond_bind. unfold write_chunked_trailer_block.
    apply respond_bind. cbn. apply wp_write_all; [done|intros os2 H2].
    split; [|done]. split; cbn; try done.
    + intros _. by apply Hmode.
    + intros _. rewrite Hwire. unfold ending. rewrite Hc. by rewrite <-!app_assoc.
    + intros _. by apply Hsent.
    + by rewrite Hc.
  - destruct (Nat.eqb_spec (length (listing (response_trailers_ (exch w)))) 0) as [Ht|Ht]; cbn [negb]; [|exact Hw].
    apply respond_bind. cbn. case_bool_decide as Hcl; cbn [andb].
    + destruct (Z.eqb_spec (response_body_sent_ w) (response_content_length_ (exch w))) as [He|He]; cbn [negb]; [|exact Hw].
      destruct (Hlen Hi Hcl) as [Hle _].
      split; [|done]. split; cbn; try done.
      * intros _. by apply Hmode.
      * intros _. rewrite Hwire. unfold ending. rewrite Hcl. by rewrite ?app_nil_r.
      * intros _. by apply Hsent.
      * intros _ _. split; [done|]. intros _. split.
        -- rewrite (Hsent Hi) in He. pose proof (size_nonneg (concat pieces)).
           rewrite wrap_small in He; [done|]. destruct (sane_length _ Hsane). split; lia.
        -- by apply length_zero_iff_nil.
    + split; [|done]. split; cbn; try done.
      * intros _. by apply Hmode.
      * intros _. rewrite Hwire. unfold ending. destruct (response_body_mode_ (exch w)); [by rewrite ?app_nil_r|done|done].
      * intros _. by apply Hsent.
Qed.

Lemma sent_add ps bs : u64 (u64 (size (concat ps)) + size bs) = u64 (size (concat (ps ++ [bs]))).
Proof.
  rewrite concat_app, size_app. cbn [concat]. rewrite app_nil_r.
  unfold wrap. by rewrite Zplus_mod_idemp_l.
Qed.

(** The state after the header and the first piece are out. *)
Lemma on_wire_first start bs c os w :
  on_wire start [] w -> response_phase_ w = Init -> response_body_mode_ (exch w) <> BodyAuto -> steady os ->
  (response_body_mode_ (exch w) = ContentLength -> size bs <= response_content_length_ (exch w)) ->
  on_wire start [bs] (first_written c (size bs)
    (set_transport os (start ++ header_bytes c (exch w) ++ framed (response_body_mode_ (exch w)) [bs]) w)).
Proof.
  intros [Hsane Hst Hinit Hmode Hwire Hsent Hlen] Hp Hm Hos Hcl. destruct (Hinit Hp) as (Hw & Hs0 & _).
  assert (Hphase : forall p, (if 0 <? size bs then BodyStreaming else HeaderSent) = p -> p <> Init /\ p <> Finished)
    by (intros p <-; by destruct (0 <? size bs)).
  assert (Hsize : u64 (response_body_sent_ w + size bs) = u64 (size (concat [bs]))).
  { rewrite Hs0. cbn [concat]. by rewrite app_nil_r. }
  unfold first_written, note_close. destruct c; split; cbn; try done; try (intros _; exact Hsize);
    try (intros [? ?]%Hphase; done); try (intros _; exact Hm).
  - by destruct Hsane.
  - intros _. rewrite bool_decide_eq_false_2; [by rewrite app_nil_r|]. by destruct (0 <? size bs).
  - intros _ Hcl'. rewrite app_nil_r. split; [by apply Hcl|]. intros [? ?]%Hphase. done.
  - intros _. rewrite bool_decide_eq_false_2; [by rewrite app_nil_r|]. by destruct (0 <? size bs).
  - intros _ Hcl'. rewrite app_nil_r. split; [by apply Hcl|]. intros [? ?]%Hphase. done.
Qed.

(** The state after another piece. *)
Lemma on_wire_more start ps bs os w :
  on_wire start ps w -> started (response_phase_ w) -> response_phase_ w <> Finished -> steady os ->
  (response_body_mode_ (exch w) = ContentLength -> size (concat ps) + size bs <= response_content_length_ (exch w)) ->
  on_wire start (ps ++ [bs]) (more_written (size bs)
    (set_transport os (wire w ++ framed (response_body_mode_ (exch w)) [bs]) w)).
Proof.
  intros [Hsane Hst Hinit Hmode Hwire Hsent Hlen] Hp Hf Hos Hcl.
  specialize (Hwire Hp). rewrite bool_decide_eq_false_2, app_nil_r in Hwire by done.
  assert (Hw : wire w ++ framed (response_body_mode_ (exch w)) [bs] = start ++
    header_bytes (close_after_response_ w) (exch w) ++ framed (response_body_mode_ (exch w)) (ps ++ [bs])).
  { by rewrite Hwire, framed_app, <-!app_assoc. }
  assert (Hsize : u64 (response_body_sent_ w + size bs) = u64 (size (concat (ps ++ [bs])))).
  { by rewrite (Hsent Hp), sent_add. }
  assert (Hc : response_body_mode_ (exch w) = ContentLength ->
                 size (concat (ps ++ [bs])) <= response_content_length_ (exch w)).
  { intros Hm. rewrite concat_app, size_app. cbn [concat]. rewrite app_nil_r. by apply Hcl. }
  unfold more_written. destruct (0 <? size bs) eqn:Hb; split; cbn; try done; try (intros _; exact Hsize); try (by auto).
  - intros _. rewrite bool_decide_eq_false_2, app_nil_r by done. exact Hw.
  - intros _ Hm. split; [by apply Hc|done].
  - intros _. rewrite bool_decide_eq_false_2, app_nil_r by done. exact Hw.
  - intros _ Hm. split; [by apply Hc|done].
Qed.

Lemma wp_build start body_end len infer w (Q : list Z * bool -> World -> Prop) E :
  on_wire start [] w -> response_phase_ w = Init -> in_width 64 len ->
  (forall w1 c, on_wire start [] w1 -> response_phase_ w1 = Init -> response_body_mode_ (exch w1) <> BodyAuto ->
     Q (header_bytes c (exch w1), c) w1) ->
  (forall w1, on_wire start [] w1 -> E w1) -> wp (build_response_header body_end len infer) Q E w.
Proof.
  intros Hw Hp Hlen HQ HE. unfold build_response_header. apply respond_bind, respond_modify, respond_bind, respond_gets, respond_bind, respond_gets.
  apply respond_bind, wp_allocate. intros b l. cbn [exch set_exch].
  set (x := infer_mode infer body_end len (exch w)).
  assert (Hx : sane x) by (apply sane_infer; [by destruct Hw|done]).
  pose proof (on_wire_init start [] w x l Hw Hp Hx) as Hw1.
  destruct b; cbn [negb]; [|by apply HE].
  set (c := close_connection _). destruct (Z.ltb_spec (header_len c x) (size (header_bytes c x))) as [Hover|_].
  { pose proof (header_fits c x Hx). lia. }
  apply (HQ (set_allocs l (set_exch x w)) c); [done|done|apply infer_mode_not_auto].
Qed.

Lemma wp_finish_if start ps last len w (Q : Z -> World -> Prop) E :
  on_wire start ps w ->
  (forall w', on_wire start ps w' -> Q len w') -> (forall w', on_wire start ps w' -> E w') ->
  wp (finish_if last;; ret len) Q E w.
Proof.
  intros Hw HQ HE. apply respond_bind. destruct last; [|by apply HQ].
  eapply respond_mono; [by apply finish_response_spec| |done]. intros [] w' [Hw' _]. by apply HQ.
Qed.

(** The guard on the declared length, in arithmetic. *)
Lemma exceeds_false start ps bs w :
  on_wire start ps w -> exceeds (size bs) w = false -> response_body_mode_ (exch w) = ContentLength ->
  size (concat ps) + size bs <= response_content_length_ (exch w).
Proof.
  intros [Hsane Hst Hinit Hmode Hwire Hsent Hlen] He Hm. unfold exceeds in He. rewrite Hm in He.
  cbn [andb bool_decide] in He. change (bool_decide (ContentLength = ContentLength)) with true in He. cbn [andb] in He.
  apply Z.ltb_ge in He. pose proof (size_nonneg (concat ps)). destruct (sane_length _ Hsane) as [Hl0 Hl1].
  destruct (decide (response_phase_ w = Init)) as [Hp|Hp].
  - destruct (Hinit Hp) as (_ & Hs & ->). rewrite Hs, Z.sub_0_r, wrap_small in He by (split; lia). cbn [concat] in *. change (size []) with 0. lia.
  - destruct (Hlen Hp Hm) as [Hle _]. rewrite (Hsent Hp), (wrap_small 64 (size _)), wrap_small in He by (split; lia). lia.
Qed.

Lemma framed_one mode bs :
  framed mode [bs] = if bool_decide (mode = Chunked) && (0 <? size bs)
                     then append_hex (size bs) ++ CRLF ++ bs ++ CRLF else bs.
Proof.
  unfold framed, frame_chunk. pose proof (size_nonneg bs).
  destruct mode; cbn [map concat]; rewrite app_nil_r; try done.
  change (bool_decide (Chunked = Chunked)) with true. cbn [andb].
  destruct (Z.eqb_spec (size bs) 0) as [Hz|Hz].
  - rewrite Hz. cbn. destruct bs; [done|]. unfold size in Hz. cbn in Hz. lia.
  - destruct (Z.ltb_spec 0 (size bs)); [done|lia].
Qed.

(** What a call that carries [bs] promises. *)
Definition wrote (start : list Z) (ps : list (list Z)) (bs : list Z) (n : Z) (w : World) : Prop :=
  n = size bs /\ on_wire start (ps ++ [bs]) w.
Definition gave_up (start : list Z) (ps : list (list Z)) (bs : list Z) (w : World) : Prop :=
  on_wire start ps w \/ on_wire start (ps ++ [bs]) w.

(** The common ends of the two functions. *)
Lemma finish_first start bs last c os w :
  on_wire start [] w -> response_phase_ w = Init -> response_body_mode_ (exch w) <> BodyAuto ->
  exceeds (size bs) w = false -> steady os ->
  wp (modify (first_written c (size bs));; finish_if last;; ret (size bs))
     (wrote start [] bs) (gave_up start [] bs)
     (set_transport os (start ++ header_bytes c (exch w) ++ framed (response_body_mode_ (exch w)) [bs]) w).
Proof.
  intros Hw Hp Hm He Hos. apply respond_bind, respond_modify.
  eapply (wp_finish_if start [bs]).
  - apply on_wire_first; try done. intros Hcl. pose proof (exceeds_false _ _ _ _ Hw He Hcl) as H. exact H.
  - intros w' Hw'. by split.
  - intros w' Hw'. by right.
Qed.

Lemma finish_more start ps bs last os w :
  on_wire start ps w -> started (response_phase_ w) -> response_phase_ w <> Finished ->
  (response_body_mode_ (exch w) = ContentLength -> exceeds (size bs) w = false) -> steady os ->
  wp (modify (more_written (size bs));; finish_if last;; ret (size bs))
     (wrote start ps bs) (gave_up start ps bs)
     (set_transport os (wire w ++ framed (response_body_mode_ (exch w)) [bs]) w).
Proof.
  intros Hw Hp Hf He Hos. apply respond_bind, respond_modify.
  eapply (wp_finish_if start (ps ++ [bs])).
  - apply on_wire_more; [done..|]. intros Hcl. eapply exceeds_false; [exact Hw|by apply He|done].
  - intros w' Hw'. by split.
  - intros w' Hw'. by right.
Qed.

Lemma bind_assoc {A B C} (m : Io A) (f : A -> Io B) (g : B -> Io C) w :
  bind (bind m f) g w = bind m (fun x => bind (f x) g) w.
Proof. unfold bind. by destruct (m w). Qed.

(** Writing a piece after the header. *)
Lemma write_more_spec start ps bs last w :
  on_wire start ps w -> started (response_phase_ w) -> response_phase_ w <> Finished ->
  wp (chunked <- gets is_chunked;;
      if chunked then
        (if 0 <? size bs then
           write_all (append_hex (size bs));; write_all CRLF;; write_all bs;; write_all CRLF
         else ret tt);;
        modify (more_written (size bs));; finish_if last;; ret (size bs)
      else
        too_much <- gets (exceeds (size bs));;
        if too_much then fail Invalid else
        (if 0 <? size bs then write_all bs else ret tt);;
        modify (more_written (size bs));; finish_if last;; ret (size bs))
     (wrote start ps bs) (gave_up start ps bs) w.
Proof.
  intros Hw Hp Hf. pose proof (ow_steady _ _ _ Hw) as Hst.
  assert (Hsame : set_transport (writes w) (wire w) w = w) by (by destruct w).
  pose proof (framed_one (response_body_mode_ (exch w)) bs) as Hone.
  apply respond_bind, respond_gets. unfold is_chunked. destruct (bool_decide_reflect (response_body_mode_ (exch w) = Chunked)) as [Hc|Hc].
  - assert (Hno : response_body_mode_ (exch w) = ContentLength -> exceeds (size bs) w = false) by congruence.
    apply respond_bind. destruct (0 <? size bs) eqn:Hb; cbn [andb] in Hone.
    + apply wp_write_chunk; [done|intros os Hos]. rewrite <-Hone. by apply finish_more.
    + apply size_nil in Hb as ->. pose proof (finish_more start ps [] last (writes w) w Hw Hp Hf Hno Hst) as H.
      rewrite Hone, app_nil_r, Hsame in H. exact H.
  - cbn [andb] in Hone. apply respond_bind, respond_gets. destruct (exceeds (size bs) w) eqn:He; [by left|].
    apply respond_bind. destruct (0 <? size bs) eqn:Hb.
    + apply wp_write_all; [done|intros os Hos].
      pose proof (finish_more start ps bs last os w Hw Hp Hf (fun _ => He) Hos) as H. by rewrite Hone in H.
    + apply size_nil in Hb as ->. pose proof (finish_more start ps [] last (writes w) w Hw Hp Hf (fun _ => He) Hst) as H.
      rewrite Hone, app_nil_r, Hsame in H. exact H.
Qed.

Lemma write_body_chunk_spec start ps bs last w :
  on_wire start ps w -> in_width 64 (size bs) ->
  wp (write_body_chunk bs last) (wrote start ps bs) (gave_up start ps bs) w.
Proof.
  intros Hw Hlen. unfold write_body_chunk. apply respond_bind, respond_gets. cbv zeta.
  destruct (bool_decide_reflect (response_phase_ w = Finished)) as [Hf|Hf]; [by left|].
  destruct (bool_decide_reflect (response_phase_ w = Init)) as [Hp|Hp]; [|by apply write_more_spec].
  destruct (ow_init _ _ _ Hw Hp) as (Hstart & _ & ->).
  apply respond_bind. eapply wp_build; [done|done|done| |by left].
  intros w1 c Hw1 Hp1 Hm1. cbn [fst snd]. destruct (ow_init _ _ _ Hw1 Hp1) as (Hst1 & _ & _).
  apply respond_bind, respond_gets. destruct (exceeds (size bs) w1) eqn:He; [by left|].
  apply respond_bind, respond_gets. unfold is_chunked.
  pose proof (framed_one (response_body_mode_ (exch w1)) bs) as Hone.
  assert (Hrest : forall l, wp
    (linked <- allocate;;
     if negb linked then fail NoMem else
     write_all_chain (header_bytes c (exch w1) ++ framed (response_body_mode_ (exch w1)) [bs]);;
     modify (first_written c (size bs));; finish_if last;; ret (size bs))
    (wrote start [] bs) (gave_up start [] bs) (set_allocs l w1)).
  { intros l. apply respond_bind, wp_allocate. intros b l'. 
    assert (Hw2 : on_wire start [] (set_allocs l' (set_allocs l w1))).
    { apply (on_wire_init _ _ w1 (exch w1) l'); [done|done|by destruct Hw1]. }
    destruct b; cbn [negb]; [|by left]. apply respond_bind, wp_write_all; [by destruct Hw2|intros os Hos].
    cbn [wire set_allocs]. rewrite Hst1.
    by apply (finish_first start bs last c os (set_allocs l' (set_allocs l w1))). }
  apply respond_bind. rewrite Hone in Hrest.
  destruct (bool_decide (response_body_mode_ (exch w1) = Chunked) && (0 <? size bs)) eqn:Hb.
  - apply respond_bind, wp_allocate. intros b1 l1.
    assert (Hgu : forall l, gave_up start [] bs (set_allocs l w1)).
    { intros l. left. apply (on_wire_init _ _ w1 (exch w1) l); [done|done|by destruct Hw1]. }
    destruct b1; cbn [negb]; [|apply Hgu]. cbv zeta.
    destruct (Z.ltb_spec (kMaxChunkSizeHexDigits + 2) (size (append_hex (size bs) ++ CRLF))) as [Hover|_].
    { rewrite size_app in Hover. change (size CRLF) with 2 in Hover. pose proof (append_hex_length _ Hlen). lia. }
    apply respond_bind, wp_allocate. intros b2 l2. destruct b2; cbn [negb]; [|apply Hgu].
    apply respond_bind, wp_allocate. intros b3 l3. destruct b3; cbn [negb]; [|apply Hgu].
    apply respond_bind, wp_allocate. intros b4 l4. destruct b4; cbn [negb]; [|apply Hgu].
    rewrite <-app_assoc. apply Hrest.
  - specialize (Hrest (allocs w1)). replace (set_allocs (allocs w1) w1) with w1 in Hrest by (by destruct w1).
    exact Hrest.
Qed.

Definition bytes_of (buf : BufArg) : list Z := match buf with NullBuf _ => [] | Buf bs => bs end.
Definition buf_ok (buf : BufArg) : Prop :=
  match buf with NullBuf n => 0 <= n | Buf bs => in_width 64 (size bs) end.

Lemma write_body_buf_spec start ps buf last w :
  on_wire start ps w -> buf_ok buf ->
  wp (write_body_buf buf last) (wrote start ps (bytes_of buf)) (gave_up start ps (bytes_of buf)) w.
Proof.
  intros Hw Hbuf. unfold write_body_buf. cbv zeta. fold (bytes_of buf).
  set (len := match buf with NullBuf n => n | Buf bs => size bs end).
  destruct ((0 <? len) && _) eqn:Hnull; [by left|].
  assert (len = size (bytes_of buf) /\ in_width 64 (size (bytes_of buf))) as [Heq Hlen].
  { destruct buf as [n|bs]; cbn in *; [|done]. rewrite andb_true_r in Hnull. apply Z.ltb_ge in Hnull.
    subst len. split; [|done]. change (size []) with 0. lia. }
  clear Hnull Hbuf. clearbody len. subst len. revert Hlen. generalize (bytes_of buf). clear buf. intros bs Hlen.
  apply respond_bind, respond_gets.
  destruct (bool_decide_reflect (response_phase_ w = Finished)) as [Hf|Hf]; [by left|].
  destruct (bool_decide_reflect (response_phase_ w = Init)) as [Hp|Hp]; [|by apply write_more_spec].
  destruct (ow_init _ _ _ Hw Hp) as (Hstart & _ & ->).
  apply respond_bind. eapply wp_build; [done|done|done| |by left].
  intros w1 c Hw1 Hp1 Hm1. cbn [fst snd]. destruct (ow_init _ _ _ Hw1 Hp1) as (Hst1 & _ & _).
  apply respond_bind, respond_gets. destruct (exceeds (size bs) w1) eqn:He; [by left|].
  apply respond_bind, respond_gets. unfold is_chunked.
  pose proof (framed_one (response_body_mode_ (exch w1)) bs) as Hone.
  assert (Hend : forall os, steady os -> wp
    (modify (first_written c (size bs));; finish_if last;; ret (size bs))
    (wrote start [] bs) (gave_up start [] bs)
    (set_transport os (start ++ header_bytes c (exch w1) ++ framed (response_body_mode_ (exch w1)) [bs]) w1)).
  { intros os Hos. by apply finish_first. }
  rewrite Hone in Hend. set (chunked := bool_decide (response_body_mode_ (exch w1) = Chunked)) in *.
  apply respond_bind. destruct (size bs <=? kInlineFirstWriteBodyLimit) eqn:Hin.
  - apply respond_bind, wp_allocate. intros b l.
    assert (Hw2 : on_wire start [] (set_allocs l w1)).
    { apply (on_wire_init _ _ w1 (exch w1) l); [done|done|by destruct Hw1]. }
    destruct b; cbn [negb]; [|by left].
    assert (Hout : header_bytes c (exch w1) ++ (if chunked && (0 <? size bs) then append_hex (size bs) ++ CRLF ++ bs ++ CRLF else bs)
                   = header_bytes c (exch w1) ++ framed (response_body_mode_ (exch w1)) [bs]) by (by rewrite Hone).
    match goal with |- wp (if ?a <? ?b then _ else _) _ _ _ => destruct (Z.ltb_spec a b) as [Hover|_] end.
    { exfalso. revert Hover. apply Z.le_ngt. pose proof (header_small c (exch w1) (ow_sane _ _ _ Hw1)).
      pose proof (append_hex_length _ Hlen). pose proof (size_nonneg (header_bytes c (exch w1))).
      unfold kInlineFirstWriteBodyLimit, kMaxChunkSizeHexDigits in *. apply Z.leb_le in Hin. pose proof (size_nonneg bs).
      rewrite size_app, wrap_small; destruct (chunked && (0 <? size bs)); rewrite ?size_app; literal_sizes; try split; lia. }
    apply wp_write_all; [by destruct Hw2|intros os Hos]. cbn [wire set_allocs]. rewrite Hst1.
    pose proof (finish_first start bs last c os (set_allocs l w1) Hw2 Hp1 Hm1 He Hos) as H.
    cbn [exch set_allocs] in H. by rewrite Hone in H.
  - apply respond_bind, wp_write_all; [by destruct Hw1|intros os1 Hos1]. rewrite Hst1.
    destruct (chunked && (0 <? size bs)) eqn:Hch.
    + apply wp_write_chunk; [done|intros os Hos]. cbn [wire set_transport]. rewrite <-app_assoc. by apply Hend.
    + destruct (0 <? size bs) eqn:Hb.
      * apply wp_write_all; [done|intros os Hos]. cbn [wire set_transport]. rewrite <-app_assoc. by apply Hend.
      * apply size_nil in Hb as ->. specialize (Hend os1 Hos1). rewrite app_nil_r in Hend. exact Hend.
Qed.

Lemma send_header_spec start ps w :
  on_wire start ps w -> wp send_response_header (fun _ => on_wire start ps) (on_wire start ps) w.
Proof.
  intros Hw. unfold send_response_header, write_response_header. apply respond_bind, respond_gets.
  destruct (bool_decide_reflect (response_phase_ w = Init)) as [Hp|Hp]; [|exact Hw]. cbn [negb].
  destruct (ow_init _ _ _ Hw Hp) as (Hstart & Hs0 & ->).
  apply respond_bind, respond_modify, respond_bind, respond_gets, respond_bind, respond_gets. cbn [exch set_exch].
  set (x := infer_mode false true 0 (exch w)). set (c := close_connection _).
  assert (Hx : sane x) by (apply sane_infer; [by destruct Hw|split; lia]).
  pose proof (infer_mode_not_auto false true 0 (exch w)) as Hm. fold x in Hm.
  rewrite (header_string_bytes c x Hx).
  apply respond_bind, wp_write_all; [by destruct Hw|intros os Hos]. cbn [wire set_exch]. rewrite Hstart.
  apply respond_bind, respond_modify, respond_modify.
  assert (Hlen : response_body_mode_ x = ContentLength -> size (concat []) <= response_content_length_ x /\
            (HeaderSent = Finished -> size (concat []) = response_content_length_ x /\ listing (response_trailers_ x) = [])).
  { intros _. split; [|done]. change (size (concat [])) with 0. by destruct (sane_length _ Hx). }
  unfold note_close. destruct c; split; cbn -[infer_mode]; fold x; try done.
  - by destruct Hx.
  - intros _. rewrite framed_nil, bool_decide_eq_false_2 by done. by rewrite app_nil_r.
  - intros _. rewrite framed_nil, bool_decide_eq_false_2 by done. by rewrite app_nil_r.
Qed.

(** ** Any sequence of calls *)

Inductive Call :=
  | SendHeader | Finish | WriteChunk (bs : list Z) (last : bool) | WriteBuf (buf : BufArg) (last : bool).

Definition perform (c : Call) : Io Z :=
  match c with
  | SendHeader => send_response_header;; ret 0
  | Finish => finish_response;; ret 0
  | WriteChunk bs last => write_body_chunk bs last
  | WriteBuf buf last => write_body_buf buf last
  end.

Definition payload (c : Call) : list (list Z) :=
  match c with WriteChunk bs _ => [bs] | WriteBuf buf _ => [bytes_of buf] | _ => [] end.

Definition call_ok (c : Call) : Prop :=
  match c with WriteChunk bs _ => in_width 64 (size bs) | WriteBuf buf _ => buf_ok buf | _ => True end.

(** The answers to the calls: a number or an error code. *)
Fixpoint perform_all (cs : list Call) (w : World) : option (list (Z + IoErr) * World) :=
  match cs with
  | [] => Some ([], w)
  | c :: cs' =>
      '(r, w') ← match perform c w with
                 | Returns n w' => Some (inl n, w') | Unexpected e w' => Some (inr e, w') | Overrun => None
                 end;
      '(rs, w'') ← perform_all cs' w'; Some (r :: rs, w'')
  end.

(** The pieces of the body: the payload of every accepted call, in order; a
    call that ended in an error has written its payload or nothing. *)
Inductive delivered : list Call -> list (Z + IoErr) -> list (list Z) -> Prop :=
  | delivered_nil : delivered [] [] []
  | delivered_ok c cs n rs ps :
      n = size (concat (payload c)) -> delivered cs rs ps -> delivered (c :: cs) (inl n :: rs) (payload c ++ ps)
  | delivered_error c cs e rs ps : delivered cs rs ps -> delivered (c :: cs) (inr e :: rs) ps
  | delivered_late c cs e rs ps : delivered cs rs ps -> delivered (c :: cs) (inr e :: rs) (payload c ++ ps).

Lemma perform_spec start ps c w :
  on_wire start ps w -> call_ok c ->
  wp (perform c) (fun n w' => n = size (concat (payload c)) /\ on_wire start (ps ++ payload c) w')
     (fun w' => on_wire start ps w' \/ on_wire start (ps ++ payload c) w') w.
Proof.
  intros Hw Hc. destruct c as [| |bs last|buf last]; cbn [perform payload concat].
  - rewrite app_nil_r. apply respond_bind. eapply respond_mono; [by apply send_header_spec|done|by left].
  - rewrite app_nil_r. apply respond_bind. eapply respond_mono; [by apply finish_response_spec| |by left].
    by intros [] w' [Hw' _].
  - rewrite app_nil_r. by apply write_body_chunk_spec.
  - rewrite app_nil_r. by apply write_body_buf_spec.
Qed.

Lemma perform_all_wire start ps cs w :
  on_wire start ps w -> Forall call_ok cs ->
  exists rs w' qs, perform_all cs w = Some (rs, w') /\ delivered cs rs qs /\ on_wire start (ps ++ qs) w'.
Proof.
  intros Hw Hcs. revert ps w Hw. induction Hcs as [|c cs Hc _ IH]; intros ps w Hw.
  - exists [], w, []. rewrite app_nil_r. split; [done|]. split; [constructor|done].
  - pose proof (perform_spec start ps c w Hw Hc) as Hp. cbn [perform_all]. unfold wp in Hp.
    destruct (perform c w) as [n w1|e w1|]; [| |done].
    + destruct Hp as [-> Hw1]. destruct (IH _ _ Hw1) as (rs & w2 & qs & Hrun & Hd & Hw2). cbn. rewrite Hrun.
      exists (inl (size (concat (payload c))) :: rs), w2, (payload c ++ qs). rewrite app_assoc.
      split; [done|]. split; [by constructor|done].
    + destruct Hp as [Hw1|Hw1]; destruct (IH _ _ Hw1) as (rs & w2 & qs & Hrun & Hd & Hw2); cbn; rewrite Hrun.
      * exists (inr e :: rs), w2, qs. split; [done|]. split; [by constructor|done].
      * exists (inr e :: rs), w2, (payload c ++ qs). rewrite app_assoc.
        split; [done|]. split; [by apply delivered_late|done].
Qed.

(** C14. A response is well framed on the wire, whichever of its four operations
    the handler calls, in any order and number: [send_response_header],
    [finish_response] and the two [write_body].  The setters of the exchange were
    called before ([x] is any exchange with a status of three digits, a length of
    64 bits and fields whose size does not wrap; setters called later can break
    the framing, [framing_changed_after_header]); the transport reports no error
    and always makes progress; allocations may fail.  Then no buffer is overrun,
    nothing is sent before the header, and then the wire holds the header, the
    bodies of the accepted calls in order (as chunks with their size lines, or
    plain and never more than the declared Content-Length), and once finished
    the terminator, a plain body then having exactly the declared length.  The
    framing ignores the version of the request: chunks also go to an HTTP/1.0
    client, [http10_response_is_chunked]. *)
Theorem response_framing (x : HttpExchange) (stopping drain body_done : bool) (allocs : list bool)
    (os : list WriteResult) (start : list Z) (cs : list Call) :
  sane x -> steady os -> Forall call_ok cs ->
  exists rs w ps, perform_all cs (fresh x stopping drain body_done allocs os start) = Some (rs, w) /\
    delivered cs rs ps /\
    (response_phase_ w = Init -> wire w = start) /\
    (response_phase_ w <> Init ->
       wire w = start ++ header_bytes (close_after_response_ w) (exch w) ++ framed (response_body_mode_ (exch w)) ps
                ++ (if bool_decide (response_phase_ w = Finished) then ending (exch w) else []) /\
       (response_body_mode_ (exch w) = ContentLength ->
          size (concat ps) <= response_content_length_ (exch w) /\
          (response_phase_ w = Finished -> size (concat ps) = response_content_length_ (exch w)))).
Proof.
  intros Hx Hos Hcs.
  assert (Hw : on_wire start [] (fresh x stopping drain body_done allocs os start)) by (by split).
  destruct (perform_all_wire _ _ _ _ Hw Hcs) as (rs & w & ps & Hrun & Hd & Hwire). cbn [app] in Hwire.
  exists rs, w, ps. split; [done|]. split; [done|]. destruct Hwire as [_ _ Hi _ Hwi _ Hl].
  split; [intros Hp; by apply Hi|]. intros Hp. split; [by apply Hwi|].
  intros Hm. destruct (Hl Hp Hm) as [Hle Heq]. split; [done|]. intros Hf. by apply Heq.
Qed.

(** Both builders of the response header agree, and the buffer of the second is
    always large enough for what it writes: three digits for the status and
    twenty for the length suffice. *)
Theorem header_buffer_fits (close_conn : bool) (x : HttpExchange) :
  sane x ->
  size (header_bytes close_conn x) <= header_len close_conn x /\
  header_string close_conn x = header_bytes close_conn x.
Proof. intros Hx. split; [by apply header_fits|by apply header_string_bytes]. Qed.

End response.

(** ** Concrete responses *)
Section concrete.
#[local] Existing Instance http_headers.
#[local] Instance demo_store : HeaderStore := http_headers [].

Definition demo_exchange : HttpExchange :=
  set_response_header (str "X-Id") (str "7") (make_exchange default_server_options).

Lemma demo_sane : sane demo_exchange.
Proof. split; [vm_compute; split; discriminate|split; [discriminate|reflexivity]|vm_compute; reflexivity]. Qed.

Definition demo_calls : list Call :=
  [WriteBuf (Buf (str "hello")) false; SendHeader; WriteChunk (str "!") true; Finish].

Lemma response_framing_witness :
  exists rs w ps, perform_all demo_calls (fresh demo_exchange false true true [] [Accepts 3] []) = Some (rs, w) /\
    delivered demo_calls rs ps /\
    wire w = header_bytes (close_after_response_ w) (exch w) ++ framed (response_body_mode_ (exch w)) ps
             ++ (if bool_decide (response_phase_ w = Finished) then ending (exch w) else []) /\
    wire w = str "HTTP/1.1 200 OK" ++ CRLF ++ str "Transfer-Encoding: chunked" ++ CRLF ++ str "X-Id: 7" ++ CRLF ++ CRLF
             ++ str "5" ++ CRLF ++ str "hello" ++ CRLF ++ str "1" ++ CRLF ++ str "!" ++ CRLF ++ str "0" ++ CRLF ++ CRLF.
Proof.
  destruct (response_framing demo_exchange false true true [] [Accepts 3] [] demo_calls) as (rs & w & ps & Hrun & Hd & _ & Hw).
  - exact demo_sane.
  - repeat constructor. by exists 2%nat.
  - repeat constructor; discriminate.
  - exists rs, w, ps. split; [exact Hrun|]. split; [exact Hd|].
    assert (Hv : (fun r => (bool_decide (response_phase_ r.2 = Init), wire r.2)) <$>
        perform_all demo_calls (fresh demo_exchange false true true [] [Accepts 3] []) =
      Some (false, str "HTTP/1.1 200 OK" ++ CRLF ++ str "Transfer-Encoding: chunked" ++ CRLF
              ++ str "X-Id: 7" ++ CRLF ++ CRLF ++ str "5" ++ CRLF ++ str "hello" ++ CRLF ++ str "1" ++ CRLF ++ str "!" ++ CRLF
              ++ str "0" ++ CRLF ++ CRLF)) by (vm_compute; reflexivity).
    rewrite Hrun in Hv. cbn [fmap option_fmap option_map snd] in Hv. injection Hv as Hp Hwire.
    apply bool_decide_eq_false in Hp.
    split; [|exact Hwire]. apply Hw. exact Hp.
Defined.

Lemma header_buffer_fits_witness :
  size (header_bytes true demo_exchange) <= header_len true demo_exchange /\
  header_string true demo_exchange = header_bytes true demo_exchange.
Proof. apply header_buffer_fits. exact demo_sane. Defined.

Definition wire_of (cs : list Call) (x : HttpExchange) : option (list Z) :=
  (fun r => wire r.2) <$> perform_all cs (fresh x false true true [] [] []).

(** A streamed response to an HTTP/1.0 request is sent in chunks all the same. *)
Lemma http10_response_is_chunked :
  wire_of [WriteBuf (Buf (str "hi")) false; WriteBuf (Buf []) true]
    (with_request_line MGet (str "GET") HTTP_1_0 (str "HTTP/1.0") (mkUri [] [] [] []) (make_exchange default_server_options))
  = Some (str "HTTP/1.0 200 OK" ++ CRLF ++ str "Transfer-Encoding: chunked" ++ CRLF ++ str "Connection: close" ++ CRLF
          ++ CRLF ++ str "2" ++ CRLF ++ str "hi" ++ CRLF ++ str "0" ++ CRLF ++ CRLF).
Proof. vm_compute. reflexivity. Qed.

(** A handler may still change the framing after the header is out: the body of
    a response announced as empty is then sent in chunks. *)
Lemma framing_changed_after_header :
  match send_response_header (fresh (make_exchange default_server_options) false true true [] [] []) with
  | Returns _ _ w =>
      match write_body_buf (Buf (str "hi")) true (set_exch (set_response_chunked (exch w)) w) with
      | Returns _ _ w' => Some (wire w')
      | _ => None
      end
  | _ => None
  end
  = Some (str "HTTP/1.1 200 OK" ++ CRLF ++ str "Content-Length: 0" ++ CRLF ++ CRLF
          ++ str "2" ++ CRLF ++ str "hi" ++ CRLF ++ str "0" ++ CRLF ++ CRLF).
Proof. vm_compute. reflexivity. Qed.

End concrete.

End Response.
