(* ===== verification/Http1Input.v ===== *)
(** * The input side of an HTTP/1 connection

    What [Http1Connection] ([src/http/Http1Connection.cpp]) and the reading half
    of [Http1ExchangeIo] ([src/http/Http1ExchangeIo.cpp]) share: the bytes
    received ahead, the transport, and the buffer a request head or a trailer
    block is parsed in.

    [stream] is what the peer is still going to send before it closes; a read
    takes a prefix of it, as long as the oracle [reads] and the room in the buffer
    say.  A buffer chain is the list of the readable bytes of its buffers (file
    IoBuf shows that the operations used here act so on chains).  The buffer of
    the body reader is its unread bytes and the room behind them; whether it is
    the only owner of its block is asked of the oracle [owners].  A failed
    [FIBER_ASSERT] aborts the process ([Aborts]). *)
From S2P Require Import Prelude Http1Detail IoError HttpHeaders HeaderStore HttpExchange Http1HeaderLine Http1Chunked.
Import IoError Exchange.

Module Input.

Inductive ReadResult := Gives (n : nat) | Fails (e : IoErr).

(** A [std::string_view] handed to the exchange: bytes [from] to [to] of the
    buffer with the number [buffer]. *)
Record View := mkView { buffer : Z; from : Z; to : Z }.

(** [read_buf_]: the unread bytes, the writable ones, the size of the block. *)
Record ReadBuf := mkReadBuf { unread : list Z; room : Z; block : Z }.

Section input.
Context `{store : HeaderStore}.

Record Session := mkSession {
  inbound_bufs_ : list (list Z);
  stream : list Z; reads : list ReadResult; allocs : list bool; owners : list bool;
  exchange : HttpExchange; views : list View; header_bufs_ : list (Z * list Z);
  body_parser_ : Body.BodyParser; read_buf_ : option ReadBuf; read_call_used_io_ : bool }.

Definition set_inbound (v : list (list Z)) (s : Session) : Session :=
  mkSession v (stream s) (reads s) (allocs s) (owners s) (exchange s) (views s) (header_bufs_ s)
    (body_parser_ s) (read_buf_ s) (read_call_used_io_ s).
Definition set_stream (v : list Z) (r : list ReadResult) (s : Session) : Session :=
  mkSession (inbound_bufs_ s) v r (allocs s) (owners s) (exchange s) (views s) (header_bufs_ s)
    (body_parser_ s) (read_buf_ s) (read_call_used_io_ s).
Definition set_allocs (v : list bool) (s : Session) : Session :=
  mkSession (inbound_bufs_ s) (stream s) (reads s) v (owners s) (exchange s) (views s) (header_bufs_ s)
    (body_parser_ s) (read_buf_ s) (read_call_used_io_ s).
Definition set_owners (v : list bool) (s : Session) : Session :=
  mkSession (inbound_bufs_ s) (stream s) (reads s) (allocs s) v (exchange s) (views s) (header_bufs_ s)
    (body_parser_ s) (read_buf_ s) (read_call_used_io_ s).
Definition set_exchange (v : HttpExchange) (s : Session) : Session :=
  mkSession (inbound_bufs_ s) (stream s) (reads s) (allocs s) (owners s) v (views s) (header_bufs_ s)
    (body_parser_ s) (read_buf_ s) (read_call_used_io_ s).
Definition add_views (v : list View) (s : Session) : Session :=
  mkSession (inbound_bufs_ s) (stream s) (reads s) (allocs s) (owners s) (exchange s) (views s ++ v) (header_bufs_ s)
    (body_parser_ s) (read_buf_ s) (read_call_used_io_ s).
Definition set_header_bufs (v : list (Z * list Z)) (s : Session) : Session :=
  mkSession (inbound_bufs_ s) (stream s) (reads s) (allocs s) (owners s) (exchange s) (views s) v
    (body_parser_ s) (read_buf_ s) (read_call_used_io_ s).
Definition set_body_parser (v : Body.BodyParser) (s : Session) : Session :=
  mkSession (inbound_bufs_ s) (stream s) (reads s) (allocs s) (owners s) (exchange s) (views s) (header_bufs_ s)
    v (read_buf_ s) (read_call_used_io_ s).
Definition set_read_buf (v : option ReadBuf) (s : Session) : Session :=
  mkSession (inbound_bufs_ s) (stream s) (reads s) (allocs s) (owners s) (exchange s) (views s) (header_bufs_ s)
    (body_parser_ s) v (read_call_used_io_ s).
Definition set_used_io (v : bool) (s : Session) : Session :=
  mkSession (inbound_bufs_ s) (stream s) (reads s) (allocs s) (owners s) (exchange s) (views s) (header_bufs_ s)
    (body_parser_ s) (read_buf_ s) v.

(** ** Effects *)

Inductive Outcome (A : Type) :=
  | Returns (a : A) (s : Session) | Unexpected (e : IoErr) (s : Session) | Aborts | OutOfFuel.
Arguments Returns {A}.
Arguments Unexpected {A}.
Arguments Aborts {A}.
Arguments OutOfFuel {A}.

Definition Io (A : Type) : Type := Session -> Outcome A.
Definition ret {A} (a : A) : Io A := fun s => Returns a s.
Definition fail {A} (e : IoErr) : Io A := fun s => Unexpected e s.
Definition abort {A} : Io A := fun _ => Aborts.
Definition out_of_fuel {A} : Io A := fun _ => OutOfFuel.
Definition bind {A B} (m : Io A) (f : A -> Io B) : Io B := fun s =>
  match m s with
  | Returns a s' => f a s' | Unexpected e s' => Unexpected e s' | Aborts => Aborts | OutOfFuel => OutOfFuel
  end.
Definition gets {A} (f : Session -> A) : Io A := fun s => Returns (f s) s.
Definition modify (f : Session -> Session) : Io unit := fun s => Returns tt (f s).
Definition asserting {A} (o : option A) : Io A := match o with Some a => ret a | None => abort end.

(** An error that the caller looks at before passing it on. *)
Definition attempt {A} (m : Io A) : Io (A + IoErr) := fun s =>
  match m s with
  | Returns a s' => Returns (inl a) s' | Unexpected e s' => Returns (inr e) s'
  | Aborts => Aborts | OutOfFuel => OutOfFuel
  end.

End input.

Arguments Returns {store A}.
Arguments Unexpected {store A}.
Arguments Aborts {store A}.
Arguments OutOfFuel {store A}.

Declare Scope input_scope.
Delimit Scope input_scope with input.
Notation "x <- m ;; k" := (bind m (fun x => k)) (at level 100, m at next level, right associativity) : input_scope.
Notation "m ;; k" := (bind m (fun _ => k)) (at level 100, right associativity) : input_scope.

Definition size (l : list Z) : Z := Z.of_nat (length l).

(** ** Chains *)

Definition readable_size (c : list (list Z)) : Z := size (concat c).

Fixpoint drop_empty_front (c : list (list Z)) : list (list Z) :=
  match c with [] :: c' => drop_empty_front c' | _ => c end.

Definition front (c : list (list Z)) : option (list Z) := head c.

(** Behind the assertion [bytes <= readable_bytes_]. *)
Fixpoint consume_and_compact (bytes : Z) (c : list (list Z)) : list (list Z) :=
  match c with
  | [] => []
  | b :: c' =>
      if bytes <=? 0 then c
      else if bytes <? size b then drop (Z.to_nat bytes) b :: c'
      else consume_and_compact (bytes - size b) c'
  end.

(** ** The parse buffer

    The memory of a new buffer is taken to be zero; nothing reads it before it
    is written. *)

Definition new_buffer (capacity : Z) : Buffer := mkBuffer (replicate (Z.to_nat capacity) 0) 0 0 capacity.

Definition capacity_of (b : Buffer) : Z := Z.of_nat (length (storage b)).

(** [memcpy] behind the readable bytes and [commit]. *)
Definition fill (bs : list Z) (b : Buffer) : Buffer := commit (size bs) (write_at_last bs b).

Definition next_header_capacity (options : HttpServerOptions) (current_capacity growth_count : Z) : Z :=
  if current_capacity =? 0 then header_init_size options
  else if header_large_num options <=? growth_count then 0
  else if size_max - current_capacity <? header_large_size options then 0
  else current_capacity + header_large_size options.

(** The name and the value of a line the header parser accepted; no name is an
    invalid line, no value the empty one. *)
Definition name_span (l : HeaderLine.HeaderLineState) : option (Z * Z) :=
  match HeaderLine.header_name_start l, HeaderLine.header_name_end l with
  | Some a, Some e => if e <? a then None else Some (a, e)
  | _, _ => None
  end.

Definition value_span (l : HeaderLine.HeaderLineState) : option (Z * Z) :=
  match HeaderLine.header_start l, HeaderLine.header_end l with
  | Some a, Some e => if a <=? e then Some (a, e) else None
  | _, _ => None
  end.

Definition text_of (b : Buffer) (sp : option (Z * Z)) : list Z :=
  match sp with Some (a, e) => bytes_between b a e | None => [] end.

Section transport.
Context `{store : HeaderStore}.
Local Abbreviation Io := (@Io store).
#[local] Open Scope input_scope.

(** An allocation from the heap or from the pool of the exchange: whether there
    was memory. *)
Definition memory : Io bool := fun s =>
  match allocs s with [] => Returns true s | b :: l => Returns b (set_allocs l s) end.

(** [mem::IoBuf::allocate] *)
Definition allocate (capacity : Z) : Io bool := fun s =>
  if capacity =? 0 then Returns false s else memory s.

(** [IoBufChain::append] of a buffer with bytes, which needs a node. *)
Definition append_inbound (bs : list Z) : Io bool :=
  ok <- memory;;
  if negb ok then ret false
  else modify (fun s => set_inbound (inbound_bufs_ s ++ [bs]) s);; ret true.

(** [transport.read] into [n] writable bytes. *)
Definition read_some (n : Z) : Io (list Z) := fun s =>
  match reads s with
  | [] => Returns (take (Z.to_nat n) (stream s)) (set_stream (drop (Z.to_nat n) (stream s)) [] s)
  | Fails e :: rs => Unexpected e (set_stream (stream s) rs s)
  | Gives k :: rs =>
      let m := Nat.min k (Z.to_nat n) in
      Returns (take m (stream s)) (set_stream (drop m (stream s)) rs s)
  end.

(** [transport.read_into] *)
Definition read_into (b : Buffer) : Io (Z * Buffer) :=
  if writable b =? 0 then ret (0, b)
  else bs <- read_some (writable b);; ret (size bs, fill bs b).

(** [grow_header_buffer], for either parser. *)
Definition grow_header_buffer {P} (options : HttpServerOptions)
  (replace_buf_ptr : P -> Buffer -> Buffer -> option (ParseCode * P * Buffer))
  (b : Buffer) (growth_count : Z) (ps : P) : Io (Buffer * Z * P) :=
  let next_capacity := next_header_capacity options (capacity_of b) growth_count in
  if next_capacity =? 0 then fail NoMem else
  ok <- allocate next_capacity;;
  if negb ok then fail NoMem else
  moved <- asserting (replace_buf_ptr ps b (new_buffer next_capacity));;
  let '(code, ps', next) := moved in
  if negb (bool_decide (code = Ok)) then fail (if bool_decide (code = HeaderTooLarge) then Invalid else NoMem)
  else ret (next, u64 (growth_count + 1), ps').

End transport.

(** ** Bytes of a text between two positions *)

Definition sub (t : list Z) (x y : Z) : list Z := take (Z.to_nat (y - x)) (drop (Z.to_nat x) t).

Lemma sub_app t x y z : 0 <= x <= y -> y <= z -> sub t x z = sub t x y ++ sub t y z.
Proof. intros. by apply (bytes_between_app (mkBuffer t 0 0 0)). Qed.

Lemma sub_nil t x y : y <= x -> sub t x y = [].
Proof. by apply (bytes_between_nil (mkBuffer t 0 0 0)). Qed.

Lemma size_sub t x y : 0 <= x <= y -> y <= size t -> size (sub t x y) = y - x.
Proof. by apply (length_bytes_between (mkBuffer t 0 0 0)). Qed.

Lemma sub_drop t x y : 0 <= x <= y -> sub t x y = take (Z.to_nat (y - x)) (sub t x (size t)).
Proof.
  intros Hx. unfold sub. rewrite take_take. destruct (decide (y <= size t)); [f_equal; lia|].
  rewrite !take_ge; [done|..]; rewrite length_drop; unfold size in *; lia.
Qed.

(** The text starts at [x] with [l]. *)
Lemma sub_prefix t x y l r :
  0 <= x -> drop (Z.to_nat x) t = l ++ r -> y = x + size l -> sub t x y = l.
Proof.
  intros Hx Ht ->. unfold sub. rewrite Ht. replace (Z.to_nat (x + size l - x)) with (length l) by (unfold size; lia).
  by rewrite take_app_length.
Qed.

Lemma sub_longer t x y l r :
  0 <= x -> drop (Z.to_nat x) t = l ++ r -> x + size l <= y -> exists r', sub t x y = l ++ r'.
Proof.
  intros Hx Ht Hy. rewrite (sub_app t x (x + size l) y) by (unfold size in *; lia).
  rewrite (sub_prefix t x (x + size l) l r) by done. by eexists.
Qed.

Lemma drop_sub t x l r :
  0 <= x -> drop (Z.to_nat x) t = l ++ r -> drop (Z.to_nat (x + size l)) t = r.
Proof.
  intros Hx Ht. replace (Z.to_nat (x + size l)) with (Z.to_nat x + length l)%nat by (unfold size; lia).
  by rewrite <-drop_drop, Ht, drop_app_length.
Qed.

Lemma length_of_app a b : size (a ++ b) = size a + size b.
Proof. unfold size. rewrite length_app. lia. Qed.

Lemma length_of_nonneg l : 0 <= size l.
Proof. unfold size. lia. Qed.

Lemma size_take n l : 0 <= n -> size (take (Z.to_nat n) l) = Z.min n (size l).
Proof. intros. unfold size. rewrite length_take. lia. Qed.

Lemma size_positive l : l <> [] <-> 0 < size l.
Proof. destruct l; unfold size; cbn; [split; [done|lia]|split; [lia|done]]. Qed.

(** ** Filling a buffer *)

Definition room_for (bs : list Z) (b : Buffer) : Prop := buffer_ok b /\ size bs <= writable b.

Lemma fill_ok bs b : room_for bs b -> buffer_ok (fill bs b).
Proof.
  unfold room_for, buffer_ok, writable, size. intros (((?&?)&?&?)&?). unfold fill, commit, write_at_last. cbn.
  rewrite !length_app, length_take, length_drop. unfold size. lia.
Qed.

Lemma fill_storage bs b : room_for bs b -> length (storage (fill bs b)) = length (storage b).
Proof.
  unfold room_for, buffer_ok, writable, size. intros (((?&?)&?&?)&?). unfold fill, commit, write_at_last. cbn.
  rewrite !length_app, length_take, length_drop. lia.
Qed.

Lemma fill_nil b : buffer_ok b -> fill [] b = b.
Proof.
  intros _. destruct b as [st p l e]. unfold fill, commit, write_at_last, size. cbn.
  by rewrite Nat.add_0_r, take_drop, Z.add_0_r.
Qed.

Lemma fill_fill xs ys b : room_for (xs ++ ys) b -> fill ys (fill xs b) = fill (xs ++ ys) b.
Proof.
  unfold room_for, buffer_ok, writable. rewrite length_of_app. destruct b as [st p l e].
  unfold fill, commit, write_at_last, size in *. cbn. intros (((?&?)&?&?)&?).
  f_equal; [|rewrite length_app; lia].
  assert (length (take (Z.to_nat l) st) = Z.to_nat l) as Hl by (rewrite length_take; lia).
  replace (Z.to_nat (l + Z.of_nat (length xs))) with (Z.to_nat l + length xs)%nat by lia.
  rewrite take_app_ge, drop_app_ge by (rewrite Hl; lia). rewrite Hl.
  replace (Z.to_nat l + length xs - Z.to_nat l)%nat with (length xs) by lia.
  rewrite take_app_length, drop_app_ge by lia.
  rewrite drop_drop, length_app, <-!app_assoc. do 3 f_equal. f_equal. lia.
Qed.

Lemma fill_bytes bs b x :
  room_for bs b -> 0 <= x <= last b ->
  bytes_between (fill bs b) x (last b + size bs) = bytes_between b x (last b) ++ bs.
Proof.
  unfold room_for, buffer_ok, writable. destruct b as [st p l e]. cbn.
  intros (((?&?)&?&?)&?) ?. rewrite (bytes_between_app _ x l) by (unfold size; lia).
  unfold bytes_between, fill, commit, write_at_last. cbn. f_equal.
  - rewrite drop_app_le, take_app_le by (rewrite ?length_drop, length_take; unfold size in *; lia).
    rewrite skipn_firstn_comm, take_take. f_equal. lia.
  - rewrite drop_app_ge by (rewrite length_take; lia). rewrite length_take.
    replace (Z.to_nat l - _ `min` _)%nat with 0%nat by lia. rewrite drop_0.
    replace (Z.to_nat (l + size bs - l)) with (length bs) by (unfold size; lia). by rewrite take_app_length.
Qed.

(** ** Chains without empty buffers *)

Definition nonempty (c : list (list Z)) : Prop := Forall (fun b => b <> []) c.

Lemma consume_front n f c :
  0 < n <= size f ->
  consume_and_compact n (f :: c) = if n <? size f then drop (Z.to_nat n) f :: c else c.
Proof.
  intros Hn. cbn. rewrite (proj2 (Z.leb_gt n 0)) by lia. destruct (Z.ltb_spec n (size f)); [done|].
  replace (n - size f) with 0 by lia. by destruct c.
Qed.

Lemma nonempty_drop n f c : nonempty (f :: c) -> 0 <= n < size f -> nonempty (drop (Z.to_nat n) f :: c).
Proof.
  intros Hc Hn. apply Forall_cons in Hc as [Hf Hc]. apply Forall_cons. split; [|done].
  apply size_positive. unfold size in *. rewrite length_drop. lia.
Qed.

Lemma nonempty_front c : nonempty c -> concat c <> [] -> exists f c', c = f :: c' /\ 0 < size f.
Proof.
  intros Hc Hne. destruct c as [|f c]; [done|]. exists f, c. split; [done|].
  apply Forall_cons in Hc as [Hf _]. by apply size_positive.
Qed.

(** A transport that reports no error and never a premature end. *)
Definition steady (rs : list ReadResult) : Prop := Forall (fun r => exists n, r = Gives (S n)) rs.

Section moves.
Context `{store : HeaderStore}.

(** Only the bytes received and the transport have changed. *)
Definition moved (s s' : Session) : Prop :=
  s' = set_stream (stream s') (reads s') (set_inbound (inbound_bufs_ s') s).

Lemma moved_refl s : moved s s.
Proof. by destruct s. Qed.

Lemma moved_trans s1 s2 s3 : moved s1 s2 -> moved s2 s3 -> moved s1 s3.
Proof. unfold moved. intros -> ->. by destruct s1. Qed.

Lemma read_some_steady n s :
  steady (reads s) -> 0 < n -> stream s <> [] ->
  exists bs s', read_some n s = Returns bs s' /\ moved s s' /\ bs <> [] /\ size bs <= n /\
    stream s = bs ++ stream s' /\ inbound_bufs_ s' = inbound_bufs_ s /\ steady (reads s').
Proof.
  intros Hs Hn Hne. unfold read_some. destruct (reads s) as [|r rs] eqn:Hr.
  - do 2 eexists. split; [reflexivity|]. split; [by destruct s|].
    split. { destruct (stream s) as [|z l]; [done|]. by replace (Z.to_nat n) with (S (Z.to_nat n - 1)) by lia. }
    rewrite size_take by lia. split; [lia|]. split; [symmetry; apply take_drop|]. split; [done|constructor].
  - apply Forall_cons in Hs as [[k ->] Hs]. do 2 eexists. split; [reflexivity|]. split; [by destruct s|].
    split. { destruct (stream s) as [|z l]; [done|]. by replace (S k `min` Z.to_nat n)%nat with (S (k `min` (Z.to_nat n - 1)))%nat by lia. }
    split; [unfold size; rewrite length_take; lia|]. split; [symmetry; apply take_drop|]. by split.
Qed.

(** An outcome that is not the end of the fuel, and what holds when it is a
    result. *)
Definition ends {A} (r : Outcome A) (Q : A -> Session -> Prop) : Prop :=
  match r with Returns a s => Q a s | OutOfFuel => False | _ => True end.

Lemma ends_bind {A B} (m : Io A) (f : A -> Io B) Q s :
  ends (m s) (fun a s' => ends (f a s') Q) -> ends (bind m f s) Q.
Proof. unfold ends, bind. by destruct (m s). Qed.

Lemma ends_mono {A} (r : Outcome A) (Q Q' : A -> Session -> Prop) :
  ends r Q -> (forall a s, Q a s -> Q' a s) -> ends r Q'.
Proof. unfold ends. destruct r; auto. Qed.

(** A result, and what holds of it. *)
Definition gives {A} (r : Outcome A) (Q : A -> Session -> Prop) : Prop :=
  match r with Returns a s => Q a s | _ => False end.

Lemma gives_bind {A B} (m : Io A) (f : A -> Io B) Q s :
  gives (m s) (fun a s' => gives (f a s') Q) -> gives (bind m f s) Q.
Proof. unfold gives, bind. by destruct (m s). Qed.

Lemma gives_mono {A} (r : Outcome A) (Q Q' : A -> Session -> Prop) :
  gives r Q -> (forall a s, Q a s -> Q' a s) -> gives r Q'.
Proof. unfold gives. destruct r; auto. Qed.

Lemma gives_returns {A} (r : Outcome A) (Q : A -> Session -> Prop) :
  gives r Q -> exists a s, r = Returns a s /\ Q a s.
Proof. unfold gives. destruct r; [eauto|done..]. Qed.

(** Bytes not yet handed to a parser. *)
Definition available (s : Session) : Z := size (concat (inbound_bufs_ s) ++ stream s).

Lemma memory_ends s : ends (memory s) (fun _ s' => available s' = available s).
Proof. unfold memory. destruct (allocs s); cbn; [done|]. by destruct s. Qed.

Lemma allocate_ends n s : ends (allocate n s) (fun _ s' => available s' = available s).
Proof. unfold allocate. destruct (_ =? 0); [done|]. apply memory_ends. Qed.

Lemma read_some_ends n s :
  ends (read_some n s) (fun bs s' => available s' = available s - size bs).
Proof.
  assert (forall k rs, size (concat (inbound_bufs_ (set_stream (drop k (stream s)) rs s)) ++ drop k (stream s)) =
    available s - size (take k (stream s))) as H.
  { intros k rs. assert (size (stream s) = size (take k (stream s)) + size (drop k (stream s))) as Hs
      by by rewrite <-length_of_app, take_drop.
    unfold available. rewrite !length_of_app. destruct s; cbn -[size] in *. lia. }
  unfold read_some. destruct (reads s) as [|[k|e] rs]; [apply H|apply H|done].
Qed.

Lemma read_into_ends b s :
  ends (read_into b s) (fun r s' => readable (r.2) = readable b + r.1 /\ 0 <= r.1 /\ available s' = available s - r.1).
Proof.
  unfold read_into. destruct (_ =? 0); [cbn; lia|]. apply ends_bind.
  eapply ends_mono; [apply read_some_ends|]. intros bs s' H. cbn -[size] in *.
  pose proof (length_of_nonneg bs). unfold readable, fill, commit, write_at_last. cbn -[size available]. lia.
Qed.

End moves.
End Input.
