(* ===== verification/Http1Connection.v ===== *)
(** * Reading a request
    ([Http1Connection] of [src/http/Http1Connection.cpp])

    [parse_request] parses the request line and the header lines in one buffer,
    refilled from the bytes received ahead and from the transport, and grown when
    it is full; every field is entered in the header table and the ones that
    frame the body are interpreted. *)
From S2P Require Import Prelude Http1Detail IoError HttpHeaders HeaderMap HeaderStore HttpExchange.
From S2P Require Import Http1RequestLine Http1HeaderLine Http1Chunked Http1Input.
Import IoError Exchange Input.

Module Connection1.

(** ** Tokens *)

Definition is_lws (ch : Z) : bool := (ch =? SP) || (ch =? HTAB).

Definition trim_lws (value : list Z) : list Z :=
  let value := skip_while is_lws value in rev (skip_while is_lws (rev value)).

(** [value] from [start] on: the token up to the next comma, and what follows
    it. *)
Fixpoint for_each_token_loop (fuel : nat) (value : list Z) : list (list Z) :=
  match fuel, value with
  | S fuel', _ :: _ =>
      let '(piece, rest) := span (fun ch => negb (ch =? chr ",")) value in
      let token := trim_lws piece in
      (if (length token =? 0)%nat then [] else [token]) ++
      match rest with [] => [] | _ :: value' => for_each_token_loop fuel' value' end
  | _, _ => []
  end.

(** The tokens [fn] is called with; every round takes a byte. *)
Definition for_each_token (value : list Z) : list (list Z) := for_each_token_loop (length value) value.

(** [std::from_chars] in base 10 of a 64-bit number: the number and what is left
    of the text, or an error when there is no digit or the number is too large. *)
Definition is_decimal (ch : Z) : bool := (chr "0" <=? ch) && (ch <=? chr "9").

Definition from_chars (text : list Z) : option (Z * list Z) :=
  let '(digits, rest) := span is_decimal text in
  let v := foldl (fun n ch => n * 10 + (ch - chr "0")) 0 digits in
  if (length digits =? 0)%nat || (2 ^ 64 - 1 <? v) then None else Some (v, rest).

(** ** Header handlers

    A handler returns [false] ([None]) when the field makes the request
    invalid. *)
Section handlers.
Context `{store : HeaderStore}.

Definition handle_content_length (x : HttpExchange) (value : list Z) : option HttpExchange :=
  match from_chars value with
  | Some (parsed, []) =>
      if size_max <? parsed then None else
      if request_content_length_set_ x && negb (request_content_length_ x =? parsed) then None
      else if negb (request_chunked_ x) then Some (with_framing (request_chunked_ x) true parsed x) else Some x
  | _ => None
  end.

Definition handle_transfer_encoding (x : HttpExchange) (value : list Z) : option HttpExchange :=
  let chunked := existsb (fun token => equals_ascii_ci token (bytes_of_string "chunked")) (for_each_token value) in
  Some (if chunked then with_framing true false 0 x else x).

Definition handle_connection_token (x : HttpExchange) (token : list Z) : HttpExchange :=
  if equals_ascii_ci token (bytes_of_string "close") then with_persistence true (request_keep_alive_ x) x
  else if equals_ascii_ci token (bytes_of_string "keep-alive") then with_persistence (request_close_ x) true x
  else x.

Definition handle_connection (x : HttpExchange) (value : list Z) : option HttpExchange :=
  Some (foldl handle_connection_token x (for_each_token value)).

Inductive HeaderHandler := HandleContentLength | HandleTransferEncoding | HandleConnection.

Definition call_handler (h : HeaderHandler) : HttpExchange -> list Z -> option HttpExchange :=
  match h with
  | HandleContentLength => handle_content_length
  | HandleTransferEncoding => handle_transfer_encoding
  | HandleConnection => handle_connection
  end.

Definition header_handler_map : option (@HeaderMap.HeaderMap HeaderHandler) :=
  '(_, m) ← HeaderMap.insert (bytes_of_string "content-length") HandleContentLength HeaderMap.construct;
  '(_, m) ← HeaderMap.insert (bytes_of_string "transfer-encoding") HandleTransferEncoding m;
  '(_, m) ← HeaderMap.insert (bytes_of_string "connection") HandleConnection m;
  Some m.

(** ** The request line *)

Definition method_span (l : RequestLine.RequestLineState) : option (Z * Z) :=
  match RequestLine.request_start l, RequestLine.method_end l with
  | Some a, Some e => if a <=? e then Some (a, e + 1) else None
  | _, _ => None
  end.

Definition version_span (l : RequestLine.RequestLineState) : option (Z * Z) :=
  match RequestLine.http_protocol_start l, RequestLine.request_end l with
  | Some a, Some e => if a <=? e then Some (a, e) else None
  | _, _ => None
  end.

(** The spans of the target: path, query, extension, and all of it. *)
Record UriSpans := mkSpans {
  path_span : option (Z * Z); query_span : option (Z * Z); exten_span : option (Z * Z); unparsed_span : option (Z * Z) }.

Definition uri_spans (l : RequestLine.RequestLineState) : UriSpans :=
  match RequestLine.uri_start l, RequestLine.uri_end l with
  | Some a, Some e =>
      if a <=? e then
        let ext := match RequestLine.uri_ext l with Some x => if x <? e then Some (x, e) else None | None => None end in
        match RequestLine.args_start l with
        | Some q => if q <=? e then mkSpans (Some (a, q - 1)) (Some (q, e)) ext (Some (a, e))
                    else mkSpans (Some (a, e)) None ext (Some (a, e))
        | None => mkSpans (Some (a, e)) None ext (Some (a, e))
        end
      else mkSpans None None None None
  | _, _ => mkSpans None None None None
  end.

Definition uri_of (b : Buffer) (u : UriSpans) : HttpUri :=
  mkUri (text_of b (path_span u)) (text_of b (query_span u)) (text_of b (exten_span u)) (text_of b (unparsed_span u)).

Definition take_request_line (b : Buffer) (l : RequestLine.RequestLineState) (x : HttpExchange) : HttpExchange :=
  with_request_line (RequestLine.method l) (text_of b (method_span l)) (to_http_version (RequestLine.http_version l))
    (text_of b (version_span l)) (uri_of b (uri_spans l)) x.

Definition views_of (number : Z) (spans : list (option (Z * Z))) : list View :=
  omap (fun sp => match sp with Some (a, e) => Some (mkView number a e) | None => None end) spans.

Definition request_line_views (number : Z) (l : RequestLine.RequestLineState) : list View :=
  let u := uri_spans l in
  views_of number [method_span l; version_span l; path_span u; query_span u; exten_span u; unparsed_span u].

(** ** A header line *)

Inductive Added := Field (x : HttpExchange) | BadField (x : HttpExchange) | NoField (x : HttpExchange).

(** [add_view] and the handler of the name. *)
Definition add_request_header (m : @HeaderMap.HeaderMap HeaderHandler) (name value lowercase : list Z) (hash : Z)
  (x : HttpExchange) : option Added :=
  let '(added, t) := add_view_field (request_headers_ x) name value lowercase hash in
  let x := with_request_headers t x in
  if negb added then Some (NoField x)
  else match HeaderMap.get_impl lowercase hash m with
       | None => None
       | Some None => Some (Field x)
       | Some (Some h) => match call_handler h x value with Some x' => Some (Field x') | None => Some (BadField x) end
       end.

Definition lowercase_of (ps : HeaderLine.HeaderLineParser) (name : list Z) : list Z :=
  if HeaderLine.lowcase_index ps =? size name
  then take (length name) (HeaderLine.lowcase_header (HeaderLine.line_ ps))
  else map Headers.lower name.

End handlers.

(** ** Parsing *)

Section parsing.
Context `{store : HeaderStore}.
Context (options : HttpServerOptions).
Local Abbreviation Io := (@Io store).
#[local] Open Scope input_scope.

(** [None] is too little fuel. *)
Fixpoint drain_inbound_loop (fuel : nat) (c : list (list Z)) (b : Buffer) (copied : Z)
  : option (Z * list (list Z) * Buffer) :=
  match fuel with
  | O => None
  | S fuel' =>
      if writable b <=? 0 then Some (copied, c, b)
      else match front c with
           | None => Some (copied, c, b)
           | Some f =>
               if size f =? 0 then Some (copied, c, b)
               else
                 let n := Z.min (size f) (writable b) in
                 drain_inbound_loop fuel' (consume_and_compact n c) (fill (take (Z.to_nat n) f) b) (copied + n)
           end
  end.

(** Every round empties the front buffer or fills the parse buffer. *)
Definition drain_inbound (b : Buffer) : Io (Z * Buffer) := fun s =>
  match drain_inbound_loop (S (S (length (inbound_bufs_ s)))) (inbound_bufs_ s) b 0 with
  | Some (copied, c, b') => Returns (copied, b') (set_inbound c s)
  | None => OutOfFuel
  end.

(** What both loops do on [Again]: grow a full buffer, then get more bytes.
    [inr] is a code that ends [parse_request]. *)
Definition refill {P} (replace_buf_ptr : P -> Buffer -> Buffer -> option (ParseCode * P * Buffer))
  (b : Buffer) (growth_count : Z) (ps : P) : Io (Buffer * Z * P + ParseCode) :=
  grown <- (if writable b =? 0
            then r <- attempt (grow_header_buffer options replace_buf_ptr b growth_count ps);;
                 match r with
                 | inl t => ret (inl t)
                 | inr e => if next_header_capacity options (capacity_of b) growth_count =? 0
                            then ret (inr HeaderTooLarge) else fail e
                 end
            else ret (inl (b, growth_count, ps)));;
  match grown with
  | inr code => ret (inr code)
  | inl (b, growth_count, ps) =>
      drained <- drain_inbound b;;
      let '(copied, b) := drained in
      if copied =? 0 then
        more <- read_into b;;
        let '(n, b) := more in
        if n =? 0 then fail ConnReset else ret (inl (b, growth_count, ps))
      else ret (inl (b, growth_count, ps))
  end.

Fixpoint request_line_loop (fuel : nat) (b : Buffer) (growth_count : Z) (ps : RequestLine.RequestLineParser)
  : Io (Buffer * Z + ParseCode) :=
  match fuel with
  | O => out_of_fuel
  | S fuel' =>
      match RequestLine.execute ps (Some b) with
      | (Again, ps, Some b) =>
          r <- refill RequestLine.replace_buf_ptr b growth_count ps;;
          match r with
          | inr code => ret (inr code)
          | inl (b, growth_count, ps) => request_line_loop fuel' b growth_count ps
          end
      | (Ok, ps, Some b) =>
          let l := RequestLine.line_ ps in
          modify (fun s => add_views (request_line_views growth_count l)
                             (set_exchange (take_request_line b l (exchange s)) s));;
          ret (inl (b, growth_count))
      | (code, _, _) => ret (inr code)
      end
  end.

(** The end of the header block: the exchange keeps the buffer, and the bytes
    behind the block go to the inbound chain. *)
Definition finish_head (b : Buffer) (growth_count : Z) : Io ParseCode :=
  ok <- memory;;
  if negb ok then fail NoMem else
  modify (fun s => set_header_bufs (header_bufs_ s ++ [(growth_count, bytes_between b 0 (pos b))]) s);;
  if 0 <? readable b then
    ok <- append_inbound (readable_bytes b);;
    if negb ok then fail NoMem else ret Ok
  else ret Ok.

Fixpoint header_loop (fuel : nat) (m : @HeaderMap.HeaderMap HeaderHandler) (b : Buffer) (growth_count : Z)
  (ps : HeaderLine.HeaderLineParser) : Io ParseCode :=
  match fuel with
  | O => out_of_fuel
  | S fuel' =>
      match HeaderLine.execute ps (Some b) with
      | (Again, ps, Some b) =>
          r <- refill HeaderLine.replace_buf_ptr b growth_count ps;;
          match r with
          | inr code => ret code
          | inl (b, growth_count, ps) => header_loop fuel' m b growth_count ps
          end
      | (Ok, ps, Some b) =>
          let l := HeaderLine.line_ ps in
          match name_span l with
          | None => ret InvalidHeader
          | Some (a, e) =>
              let name := bytes_between b a e in
              let value := text_of b (value_span l) in
              ok <- memory;;
              if negb ok then fail NoMem else
              x <- gets exchange;;
              added <- asserting (add_request_header m name value (lowercase_of ps name) (HeaderLine.header_hash ps) x);;
              match added with
              | Field x =>
                  modify (fun s => add_views (views_of growth_count [Some (a, e); value_span l]) (set_exchange x s));;
                  header_loop fuel' m b growth_count ps
              | BadField x => modify (set_exchange x);; ret InvalidHeader
              | NoField x => modify (set_exchange x);; fail NoMem
              end
          end
      | (HeaderDone, _, Some b) => finish_head b growth_count
      | (code, _, _) => ret code
      end
  end.

(** Bytes that can still be parsed; a round of a loop takes at least one of them
    from the parser or moves one to its buffer. *)
Definition pending (s : Session) : nat := (length (concat (inbound_bufs_ s)) + length (stream s))%nat.
Definition loop_fuel (b : Buffer) (s : Session) : nat := (2 * pending s + Z.to_nat (readable b) + 1)%nat.

Definition parse_request : Io ParseCode :=
  ok <- allocate (header_init_size options);;
  if negb ok then fail NoMem else
  let b := new_buffer (header_init_size options) in
  fuel <- gets (loop_fuel b);;
  line <- request_line_loop fuel b 0 (RequestLine.mkParser RequestLine.Start RequestLine.initial_line);;
  match line with
  | inr code => ret code
  | inl (b, growth_count) =>
      m <- asserting header_handler_map;;
      fuel <- gets (loop_fuel b);;
      header_loop fuel m b growth_count (HeaderLine.mkParser HeaderLine.Start HeaderLine.initial_line 0 0)
  end.

End parsing.

(** ** Refilling the buffer *)

Section refilling.
Context `{store : HeaderStore}.
Context (options : HttpServerOptions).

Lemma room_for_take n f b : buffer_ok b -> 0 <= n <= writable b -> room_for (take (Z.to_nat n) f) b.
Proof. intros Hb Hn. split; [done|]. rewrite size_take; lia. Qed.

Lemma writable_fill bs b : writable (fill bs b) = writable b - size bs.
Proof. unfold writable, fill, commit. cbn. lia. Qed.

(** The loop moves as many bytes as there is room for, in order. *)
Lemma drain_inbound_loop_spec fuel c b k :
  nonempty c -> buffer_ok b -> (S (length c) < fuel)%nat ->
  let n := Z.min (size (concat c)) (writable b) in
  exists c', drain_inbound_loop fuel c b k = Some (k + n, c', fill (take (Z.to_nat n) (concat c)) b) /\
    nonempty c' /\ concat c = take (Z.to_nat n) (concat c) ++ concat c'.
Proof.
  revert c b k. induction fuel as [|fuel IH]; intros c b k Hc Hb Hf; [lia|]. cbv zeta.
  assert (0 <= writable b) as Hw by (unfold buffer_ok, writable in *; lia).
  cbn [drain_inbound_loop]. destruct (Z.leb_spec (writable b) 0) as [Hz|Hz].
  { exists c. pose proof (length_of_nonneg (concat c)). replace (Z.min _ _) with 0 by lia. cbn [Z.to_nat take].
    rewrite Z.add_0_r, fill_nil by done. by split. }
  destruct c as [|f c].
  { exists []. cbn. rewrite Z.min_l, Z.add_0_r, fill_nil by (done || lia). by split. }
  apply Forall_cons in Hc as [Hf0 Hc]. pose proof (proj1 (size_positive f) Hf0) as Hf1. cbn [front head].
  rewrite (proj2 (Z.eqb_neq (size f) 0)) by lia. set (m := Z.min (size f) (writable b)).
  rewrite consume_front by (unfold m; lia).
  pose proof (room_for_take m f b Hb ltac:(lia)) as Hroom.
  cbn [concat]. rewrite length_of_app. pose proof (length_of_nonneg (concat c)) as Hcc.
  destruct (Z.ltb_spec m (size f)) as [Hlt|Hge].
  - assert (m = writable b) as Hm by lia. destruct fuel as [|fuel]; [lia|]. cbn [drain_inbound_loop].
    rewrite (proj2 (Z.leb_le _ 0)) by (rewrite writable_fill, size_take; lia).
    exists (drop (Z.to_nat m) f :: c). rewrite Z.min_r by lia. rewrite <-Hm.
    rewrite take_app_le by (unfold size in *; lia). split; [done|].
    split; [apply nonempty_drop; [by apply Forall_cons|lia]|]. cbn [concat].
    by rewrite app_assoc, take_drop.
  - assert (m = size f /\ size f <= writable b) as [Hm Hfit] by lia. clearbody m. subst m.
    assert (take (Z.to_nat (size f)) f = f) as Hall by (rewrite take_ge; [done|unfold size in *; lia]).
    rewrite Hall in *.
    destruct (IH c (fill f b) (k + size f)) as (c' & -> & Hc' & Hcat); [done|by apply fill_ok|cbn [length] in *; lia|].
    exists c'. rewrite writable_fill in *.
    set (n := Z.min (size (concat c)) (writable b - size f)) in *.
    replace (Z.min (size f + size (concat c)) (writable b)) with (size f + n) by lia.
    assert (take (Z.to_nat (size f + n)) (f ++ concat c) = f ++ take (Z.to_nat n) (concat c)) as ->.
    { rewrite take_app_ge by (unfold size in *; lia). f_equal. f_equal. unfold size in *. lia. }
    split; [|split; [done|by rewrite <-app_assoc, <-Hcat]].
    rewrite Z.add_assoc. do 2 f_equal. apply fill_fill. split; [done|].
    rewrite length_of_app, size_take; unfold n in *; lia.
Qed.

(** What a refill of a buffer that is not full leaves. *)
Record refilled (b : Buffer) (s : Session) (b' : Buffer) (s' : Session) : Prop := mkRefilled {
  refilled_moved : moved s s';
  refilled_bytes : exists xs, b' = fill xs b /\ room_for xs b /\ 0 < size xs /\
    concat (inbound_bufs_ s) ++ stream s = xs ++ concat (inbound_bufs_ s') ++ stream s';
  refilled_inbound : nonempty (inbound_bufs_ s');
  refilled_reads : steady (reads s');
  refilled_drained : size (concat (inbound_bufs_ s)) <= writable b -> inbound_bufs_ s' = [] }.

Lemma concat_nonempty c : nonempty c -> concat c = [] -> c = [].
Proof. destruct c as [|f c]; [done|]. intros H. apply Forall_cons in H as [Hf _]. by destruct f. Qed.

Lemma refill_spec {P} (replace_buf_ptr : P -> Buffer -> Buffer -> option (ParseCode * P * Buffer)) b g ps s :
  buffer_ok b -> 0 < writable b -> nonempty (inbound_bufs_ s) -> steady (reads s) ->
  concat (inbound_bufs_ s) ++ stream s <> [] ->
  exists b' s', refill options replace_buf_ptr b g ps s = Returns (inl (b', g, ps)) s' /\ refilled b s b' s'.
Proof.
  intros Hb Hw Hc Hs Hp. unfold refill. rewrite (proj2 (Z.eqb_neq (writable b) 0)) by lia.
  cbn [bind ret]. unfold drain_inbound, bind.
  destruct (drain_inbound_loop_spec (S (S (length (inbound_bufs_ s)))) (inbound_bufs_ s) b 0 Hc Hb ltac:(lia))
    as (c' & -> & Hc' & Hcat).
  set (n := Z.min _ _) in *. rewrite Z.add_0_l. pose proof (length_of_nonneg (concat (inbound_bufs_ s))) as Hnn.
  assert (size (concat (inbound_bufs_ s)) <= writable b -> c' = []) as Hdr.
  { intros Hle. apply concat_nonempty; [done|]. apply (f_equal size) in Hcat.
    rewrite length_of_app, size_take in Hcat by lia.
    apply dec_stable. intros Hne%size_positive. lia. }
  set (xs := take (Z.to_nat n) (concat (inbound_bufs_ s))) in *.
  assert (size xs = n) as Hxs by (unfold xs; rewrite size_take; lia).
  destruct (Z.eqb_spec n 0) as [Hz|Hz].
  - assert (concat (inbound_bufs_ s) = []) as Hin by (apply dec_stable; intros Hne%size_positive; lia).
    assert (xs = []) as -> by (unfold xs; by rewrite Hz). cbn [app] in Hcat. rewrite fill_nil by done.
    rewrite Hin in Hp. cbn [app] in Hp. unfold read_into. rewrite (proj2 (Z.eqb_neq (writable b) 0)) by lia.
    destruct (read_some_steady (writable b) (set_inbound c' s)) as (bs & s' & Hread & Hmv & Hne & Hsz & Hst & Hinb & Hrs);
      [by destruct s|done|by destruct s|].
    unfold bind. rewrite Hread. apply size_positive in Hne as Hne'. cbn [ret].
    rewrite (proj2 (Z.eqb_neq (size bs) 0)) by lia. do 2 eexists. split; [reflexivity|].
    assert (inbound_bufs_ s' = c') as Hi by (rewrite Hinb; by destruct s).
    split.
    + eapply moved_trans; [|exact Hmv]. by destruct s.
    + exists bs. split; [done|]. split; [by split|]. split; [done|]. rewrite Hi, <-Hcat, Hin. cbn [app].
      destruct s; exact Hst.
    + by rewrite Hi.
    + done.
    + rewrite Hi. exact Hdr.
  - do 2 eexists. split; [reflexivity|]. split.
    + by destruct s.
    + exists xs. split; [done|]. split; [split; [done|lia]|]. split; [lia|].
      rewrite Hcat at 1. rewrite <-app_assoc. by destruct s.
    + by destruct s.
    + by destruct s.
    + destruct s; exact Hdr.
Qed.

End refilling.

(** ** The buffer as a window on the bytes of the request *)

Section window.
Context `{store : HeaderStore}.

(** The buffer holds the first bytes of [T] and the connection the others. *)
Record buffered (T : list Z) (b : Buffer) (s : Session) : Prop := mkBuffered {
  buffered_ok : buffer_ok b;
  buffered_view : Z.of_nat (length (storage b)) = view_end b;
  buffered_text : bytes_between b 0 (last b) ++ concat (inbound_bufs_ s) ++ stream s = T;
  buffered_inbound : nonempty (inbound_bufs_ s);
  buffered_reads : steady (reads s) }.

(** What the loops have left to do. *)
Definition work (b : Buffer) (s : Session) : Z :=
  2 * size (concat (inbound_bufs_ s) ++ stream s) + readable b.

Lemma loop_fuel_work b s : 0 <= readable b -> Z.of_nat (loop_fuel b s) = work b s + 1.
Proof. intros. unfold loop_fuel, pending, work. rewrite length_of_app. unfold size. lia. Qed.

Lemma buffered_length T b s :
  buffered T b s -> last b + size (concat (inbound_bufs_ s) ++ stream s) = size T.
Proof.
  intros [(?&?&?) _ Ht _ _]. rewrite <-Ht, !length_of_app.
  assert (Z.of_nat (length (bytes_between b 0 (last b))) = last b - 0) by (apply length_bytes_between; lia).
  unfold size. lia.
Qed.

Lemma buffered_sub T b s x y :
  buffered T b s -> 0 <= x <= y -> y <= last b -> bytes_between b x y = sub T x y.
Proof.
  intros [(?&?&?) _ <- _ _] Hx Hy. unfold sub.
  assert (Z.of_nat (length (bytes_between b 0 (last b))) = last b) as Hl by (rewrite length_bytes_between; lia).
  rewrite drop_app_le, take_app_le by (rewrite ?length_drop; lia).
  unfold bytes_between. cbn [Z.to_nat drop]. rewrite Z.sub_0_r, skipn_firstn_comm, take_take. f_equal. lia.
Qed.

Lemma buffered_consume T b s n :
  buffered T b s -> 0 <= n <= readable b -> buffered T (Http1Detail.consume n b) s.
Proof. intros [(?&?&?) ? ? ? ?] Hn. unfold readable in Hn. split; try done. unfold buffer_ok. cbn. lia. Qed.

Lemma buffered_refill T b s b' s' :
  buffered T b s -> refilled b s b' s' ->
  buffered T b' s' /\ pos b' = pos b /\ view_end b' = view_end b /\ last b < last b' /\ work b' s' < work b s.
Proof.
  intros [Hok Hv Ht Hi Hr] [_ (xs & -> & Hroom & Hxs & Hbytes) Hi' Hr' _].
  assert (last (fill xs b) = last b + size xs) as Hlast by done.
  split; [split|].
  - by apply fill_ok.
  - by rewrite fill_storage.
  - rewrite Hlast, fill_bytes, <-app_assoc, <-Hbytes by (first [done|destruct Hok; lia]). done.
  - done.
  - done.
  - split; [done|]. split; [done|]. split; [lia|]. unfold work. rewrite Hbytes.
    unfold readable. rewrite Hlast, !length_of_app. change (pos (fill xs b)) with (pos b). lia.
Qed.

Lemma window_pending T b s :
  buffered T b s -> last b < size T -> concat (inbound_bufs_ s) ++ stream s <> [].
Proof. intros Hb Hl. apply size_positive. pose proof (buffered_length _ _ _ Hb). lia. Qed.

End window.

(** ** The request line, whatever the pieces it arrives in *)

Section request_line.
Import RequestLine.
Context `{store : HeaderStore}.
Context (options : HttpServerOptions).
Context (T L rest : list Z) (l1 : RequestLineState).
Hypothesis HT : T = L ++ rest.
Hypothesis HL : exec_loop (sub T) L 0 Start initial_line = LoopDone (size L - 1) l1.

(** The parser has read the bytes before [p]. *)
Definition line_reached (ps : RequestLineParser) (p : Z) : Prop :=
  exec_loop (sub T) (sub T 0 p) 0 Start initial_line = LoopEnd (state_ ps) p (line_ ps).

Lemma line_resumed ps b s :
  buffered T b s -> line_reached ps (pos b) -> readable b <> 0 ->
  execute ps (Some b) =
    match exec_loop (sub T) (sub T 0 (last b)) 0 Start initial_line with
    | LoopEnd s p l => (Again, mkParser s l, Some (Http1Detail.consume (p - pos b) b))
    | LoopDone p l => let '(code, ps', b') := finish b p l in (code, ps', Some b')
    | LoopReturn code l => (code, mkParser (state_ ps) l, Some b)
    end.
Proof.
  intros Hb Hr Hne. pose proof (buffered_ok _ _ _ Hb) as (Hpos & Hl & Hst).
  pose proof (exec_loop_inv (sub T) 0 (sub T 0 (pos b)) 0 Start initial_line (line_inv_initial 0 ltac:(lia))) as Hinv.
  unfold line_reached in Hr. rewrite Hr in Hinv. destruct Hinv as [_ Hinv].
  rewrite execute_nonempty by done.
  rewrite (exec_loop_ext (bytes_between b) (sub T) 0 _ _ _ _ Hinv).
  2:{ intros x y Hx Hy. unfold readable_bytes in Hy. rewrite length_bytes_between in Hy by lia.
      apply (buffered_sub _ _ _ _ _ Hb); lia. }
  unfold readable_bytes. rewrite (buffered_sub _ _ _ _ _ Hb) by lia.
  rewrite (sub_app T 0 (pos b) (last b)) by lia.
  rewrite exec_loop_app, Hr. reflexivity.
Qed.

Lemma line_prefix q : 0 <= q < size L ->
  exists st l, exec_loop (sub T) (sub T 0 q) 0 Start initial_line = LoopEnd st q l.
Proof.
  intros Hq. pose proof HL as H. assert (exists n, n = size L - 1) as [n Hn] by by eexists.
  rewrite <-Hn in H. replace L with (sub T 0 q ++ drop (Z.to_nat q) L) in H.
  2:{ rewrite <-(take_drop (Z.to_nat q) L) at 2. f_equal. unfold sub. rewrite Z.sub_0_r, HT. cbn [Z.to_nat drop].
      apply take_app_le. unfold size in Hq. lia. }
  rewrite exec_loop_app in H.
  pose proof (exec_loop_inv (sub T) 0 (sub T 0 q) 0 Start initial_line (line_inv_initial 0 ltac:(lia))) as Hinv.
  assert (size (sub T 0 q) = q - 0) as Hlen
    by (apply size_sub; [lia|rewrite HT, length_of_app; pose proof (length_of_nonneg rest); lia]).
  unfold size in Hlen. rewrite Hlen in Hinv. destruct (exec_loop _ (sub T 0 q) _ _ _) as [st p l|p l|c l]; [|exfalso|done].
  - destruct Hinv as [-> _]. rewrite Z.add_0_l, Z.sub_0_r. by do 2 eexists.
  - injection H as -> _. lia.
Qed.

(** As long as the line is not complete, the loop refills the buffer. *)
Lemma line_again ps b s :
  buffered T b s -> line_reached ps (pos b) -> last b < size L ->
  exists ps1 b1, execute ps (Some b) = (Again, ps1, Some b1) /\ line_reached ps1 (pos b1) /\
    buffered T b1 s /\ pos b1 = last b /\ last b1 = last b /\ view_end b1 = view_end b /\ readable b1 = 0.
Proof.
  intros Hb Hr Hlt. pose proof (buffered_ok _ _ _ Hb) as (Hpos & Hl & Hst).
  destruct (decide (readable b = 0)) as [Hz|Hnz].
  { exists ps, b. rewrite execute_empty by done. unfold readable in Hz |- *.
    split; [done|]. split; [done|]. split; [done|]. lia. }
  rewrite (line_resumed _ _ _ Hb Hr Hnz). destruct (line_prefix (last b) ltac:(lia)) as (st & l & Heq).
  rewrite Heq. do 2 eexists. split; [reflexivity|].
  assert (pos (Http1Detail.consume (last b - pos b) b) = last b) as Hp by (cbn; lia).
  split; [by rewrite Hp|]. split; [apply buffered_consume; [done|unfold readable in *; lia]|].
  split; [done|]. split; [done|]. split; [done|]. unfold readable. rewrite Hp. cbn. lia.
Qed.

Lemma request_line_until fuel b g ps s :
  buffered T b s -> size L <= view_end b -> pos b < size L -> line_reached ps (pos b) ->
  work b s < Z.of_nat fuel ->
  (inbound_bufs_ s = [] \/ (last b = pos b /\ size (concat (inbound_bufs_ s)) <= writable b)) ->
  exists fuel' b' s' ps',
    request_line_loop options fuel b g ps s = request_line_loop options (S fuel') b' g ps' s' /\
    moved s s' /\ buffered T b' s' /\ view_end b' = view_end b /\ 0 <= pos b' < size L /\ size L <= last b' /\
    work b' s' <= Z.of_nat fuel' /\ inbound_bufs_ s' = [] /\
    execute ps' (Some b') = (let '(code, ps', b') := finish b' (size L - 1) l1 in (code, ps', Some b')).
Proof.
  revert b ps s. induction fuel as [|fuel IH]; intros b ps s Hb Hcap Hpos Hr Hw Hin.
  { pose proof (buffered_ok _ _ _ Hb) as (?&?&?). pose proof (length_of_nonneg (concat (inbound_bufs_ s) ++ stream s)).
    unfold work, readable in Hw. lia. }
  pose proof (buffered_ok _ _ _ Hb) as (Hp & Hl & Hst).
  destruct (decide (size L <= last b)) as [Hfull|Hpart].
  - exists fuel, b, s, ps. split; [done|]. split; [apply moved_refl|]. split; [done|]. split; [done|].
    split; [lia|]. split; [lia|]. split; [lia|]. split; [destruct Hin as [|[? ?]]; [done|lia]|].
    rewrite (line_resumed _ _ _ Hb Hr) by (unfold readable; lia).
    destruct (sub_longer T 0 (last b) L rest ltac:(lia) HT ltac:(lia)) as [r' ->].
    by rewrite exec_loop_app, HL.
  - destruct (line_again _ _ _ Hb Hr ltac:(lia)) as (ps1 & b1 & Hex & Hr1 & Hb1 & Hp1 & Hl1 & Hv1 & Hz1).
    assert (work b1 s <= work b s) as Hw1 by (unfold work, readable in *; lia).
    destruct (refill_spec options replace_buf_ptr b1 g ps1 s) as (b2 & s2 & Hre & Hrefill).
    { apply (buffered_ok _ _ _ Hb1). }
    { unfold writable. lia. }
    { apply (buffered_inbound _ _ _ Hb1). }
    { apply (buffered_reads _ _ _ Hb1). }
    { apply (window_pending T b1); [done|]. pose proof (length_of_nonneg rest). rewrite HT, length_of_app. lia. }
    destruct (buffered_refill _ _ _ _ _ Hb1 Hrefill) as (Hb2 & Hp2 & Hv2 & Hlt2 & Hw2).
    destruct (IH b2 ps1 s2) as (fuel' & b' & s' & ps' & Heq & Hmv & H1 & H2 & H3 & H4 & H5); try done; try lia.
    + unfold line_reached in *. by rewrite Hp2.
    + left. apply (refilled_drained _ _ _ _ Hrefill). destruct Hin as [->|[? ?]]; unfold writable, size in *; cbn in *; lia.
    + exists fuel', b', s', ps'. split.
      { rewrite <-Heq. cbn [request_line_loop]. rewrite Hex. unfold bind at 1. by rewrite Hre. }
      split; [eapply moved_trans; [apply Hrefill|done]|]. split; [done|]. split; [lia|]. done.
Qed.

End request_line.

(** ** A line of the header block, whatever the pieces it arrives in *)

Section header_line.
Import HeaderLine.
Context `{store : HeaderStore}.
Context (options : HttpServerOptions) (m : @HeaderMap.HeaderMap HeaderHandler).
Context (T L rest : list Z) (p0 h0 i0 : Z) (l0 : HeaderLineState).
Hypothesis Hp0 : 0 <= p0.
Hypothesis HT : drop (Z.to_nat p0) T = L ++ rest.

Definition stops_at (q : Z) (r : LoopResult) : Prop :=
  match r with LoopDone p _ _ _ | LoopHeaderDone p _ => p = q | _ => False end.

Hypothesis HL : stops_at (p0 + size L - 1) (exec_loop L p0 Start h0 i0 l0).

Definition header_reached (ps : HeaderLineParser) (p : Z) : Prop :=
  exec_loop (sub T p0 p) p0 Start h0 i0 l0 = LoopEnd (state_ ps) p (header_hash ps) (lowcase_index ps) (line_ ps).

Lemma header_stop_bound bs p st h i l :
  match exec_loop bs p st h i l with
  | LoopEnd _ q _ _ _ => q = p + Z.of_nat (length bs)
  | LoopDone q _ _ _ | LoopHeaderDone q _ => p <= q < p + Z.of_nat (length bs)
  | LoopReturn _ _ => True
  end.
Proof.
  revert p st h i l. induction bs as [|ch bs IH]; intros p st h i l; cbn [exec_loop length]; [lia|].
  destruct (step st ch p h i l) as [st' h' i' l'|h' i' l'|l'|c l']; [|lia|lia|done].
  specialize (IH (p + 1) st' h' i' l'). destruct (exec_loop bs (p + 1) st' h' i' l'); lia.
Qed.

Lemma header_resumed ps b s :
  buffered T b s -> header_reached ps (pos b) -> p0 <= pos b -> readable b <> 0 ->
  execute ps (Some b) = loop_result ps b (exec_loop (sub T p0 (last b)) p0 Start h0 i0 l0).
Proof.
  intros Hb Hr Hp Hne. pose proof (buffered_ok _ _ _ Hb) as (Hpos & Hl & Hst).
  rewrite execute_nonempty_header by done. unfold readable_bytes. rewrite (buffered_sub _ _ _ _ _ Hb) by lia.
  rewrite (sub_app T p0 (pos b) (last b)) by lia. unfold header_reached in Hr.
  by rewrite exec_loop_app_header, Hr.
Qed.

Lemma header_prefix q : p0 <= q < p0 + size L ->
  exists st h i l, exec_loop (sub T p0 q) p0 Start h0 i0 l0 = LoopEnd st q h i l.
Proof.
  intros Hq. pose proof HL as H.
  assert (sub T p0 (p0 + size L) = L) as HLs by (by apply (sub_prefix _ _ _ _ rest)).
  assert (exists n, n = p0 + size L) as [n Hn] by by eexists.
  rewrite <-Hn in H, HLs. rewrite <-HLs, (sub_app T p0 q), exec_loop_app_header in H by lia.
  pose proof (header_stop_bound (sub T p0 q) p0 Start h0 i0 l0) as Hb.
  assert (size (sub T p0 q) = q - p0) as Hlen.
  { apply size_sub; [lia|]. apply (f_equal size) in HT. rewrite length_of_app in HT. unfold size in HT at 1.
    rewrite length_drop in HT. pose proof (length_of_nonneg rest). unfold size in *. lia. }
  unfold size in Hlen. rewrite Hlen in Hb.
  destruct (exec_loop (sub T p0 q) p0 Start h0 i0 l0) as [st p h i l|p h i l|p l|c l]; cbn in H.
  - subst p. replace (p0 + (q - p0)) with q by lia. by do 4 eexists.
  - lia.
  - lia.
  - done.
Qed.

Lemma header_again ps b s :
  buffered T b s -> header_reached ps (pos b) -> p0 <= pos b -> last b < p0 + size L ->
  exists ps1 b1, execute ps (Some b) = (Again, ps1, Some b1) /\ header_reached ps1 (pos b1) /\
    buffered T b1 s /\ pos b1 = last b /\ last b1 = last b /\ view_end b1 = view_end b /\ readable b1 = 0.
Proof.
  intros Hb Hr Hp Hlt. pose proof (buffered_ok _ _ _ Hb) as (Hpos & Hl & Hst).
  destruct (decide (readable b = 0)) as [Hz|Hnz].
  { exists ps, b. rewrite execute_empty_header by done. unfold readable in Hz |- *.
    split; [done|]. split; [done|]. split; [done|]. lia. }
  rewrite (header_resumed _ _ _ Hb Hr Hp Hnz). destruct (header_prefix (last b) ltac:(lia)) as (st & h & i & l & Heq).
  rewrite Heq. do 2 eexists. split; [reflexivity|].
  assert (pos (Http1Detail.consume (last b - pos b) b) = last b) as Hpc by (cbn; lia).
  split; [unfold header_reached; by rewrite Hpc|]. split; [apply buffered_consume; [done|unfold readable in *; lia]|].
  split; [done|]. split; [done|]. split; [done|]. unfold readable. rewrite Hpc. cbn. lia.
Qed.

Lemma header_line_until fuel b g ps s :
  buffered T b s -> p0 + size L <= view_end b -> p0 <= pos b < p0 + size L -> header_reached ps (pos b) ->
  work b s < Z.of_nat fuel -> inbound_bufs_ s = [] ->
  exists fuel' b' s' ps',
    header_loop options fuel m b g ps s = header_loop options (S fuel') m b' g ps' s' /\
    moved s s' /\ buffered T b' s' /\ view_end b' = view_end b /\ p0 <= pos b' < p0 + size L /\
    p0 + size L <= last b' /\ work b' s' <= Z.of_nat fuel' /\ inbound_bufs_ s' = [] /\
    execute ps' (Some b') = loop_result ps' b' (exec_loop L p0 Start h0 i0 l0).
Proof.
  revert b ps s. induction fuel as [|fuel IH]; intros b ps s Hb Hcap Hpos Hr Hw Hin.
  { pose proof (buffered_ok _ _ _ Hb) as (?&?&?). pose proof (length_of_nonneg (concat (inbound_bufs_ s) ++ stream s)).
    unfold work, readable in Hw. lia. }
  pose proof (buffered_ok _ _ _ Hb) as (Hp & Hl & Hst).
  destruct (decide (p0 + size L <= last b)) as [Hfull|Hpart].
  - exists fuel, b, s, ps. split; [done|]. split; [apply moved_refl|]. split; [done|]. split; [done|].
    split; [lia|]. split; [lia|]. split; [lia|]. split; [done|].
    rewrite (header_resumed _ _ _ Hb Hr) by (unfold readable; lia).
    destruct (sub_longer T p0 (last b) L rest Hp0 HT ltac:(lia)) as [r' ->].
    rewrite exec_loop_app_header. by destruct (exec_loop L p0 Start h0 i0 l0).
  - destruct (header_again _ _ _ Hb Hr ltac:(lia) ltac:(lia)) as (ps1 & b1 & Hex & Hr1 & Hb1 & Hp1 & Hl1 & Hv1 & Hz1).
    assert (work b1 s <= work b s) as Hw1 by (unfold work, readable in *; lia).
    destruct (refill_spec options replace_buf_ptr b1 g ps1 s) as (b2 & s2 & Hre & Hrefill).
    { apply (buffered_ok _ _ _ Hb1). }
    { unfold writable. lia. }
    { apply (buffered_inbound _ _ _ Hb1). }
    { apply (buffered_reads _ _ _ Hb1). }
    { apply (window_pending T b1); [done|]. apply (f_equal size) in HT. rewrite length_of_app in HT.
      unfold size in HT at 1. rewrite length_drop in HT. pose proof (length_of_nonneg rest). unfold size in *. lia. }
    destruct (buffered_refill _ _ _ _ _ Hb1 Hrefill) as (Hb2 & Hp2 & Hv2 & Hlt2 & Hw2).
    destruct (IH b2 ps1 s2) as (fuel' & b' & s' & ps' & Heq & Hmv & H1 & H2 & H3 & H4 & H5); try done; try lia.
    + unfold header_reached in *. by rewrite Hp2.
    + apply (refilled_drained _ _ _ _ Hrefill). rewrite Hin. unfold writable, size. cbn. lia.
    + exists fuel', b', s', ps'. split.
      { rewrite <-Heq. cbn [header_loop]. rewrite Hex. unfold bind at 1. by rewrite Hre. }
      split; [eapply moved_trans; [apply Hrefill|done]|]. split; [done|]. split; [lia|]. done.
Qed.

End header_line.

(** ** The header block *)

(** A header field and the blanks around its value. *)
Record HeadField := mkHeadField { f_name : list Z; f_pad : nat; f_value : list Z; f_trail : nat }.

Definition print_field (f : HeadField) : list Z :=
  HeaderLine.print_header (f_name f) (f_pad f) (f_value f) (f_trail f).

Definition print_block (fs : list HeadField) : list Z := concat (map print_field fs) ++ [CR; LF].

Definition field_ok (f : HeadField) : Prop :=
  f_name f <> [] /\ Forall (fun ch => 0 <= ch < 256) (f_name f) /\ forallb HeaderLine.name_char (f_name f) = true /\ HeaderLine.value_ok (f_value f) /\
  (f_value f = [] -> f_trail f = 0%nat).

(** What the fields do to an exchange, one after the other. *)
Fixpoint apply_fields `{HeaderStore} (m : @HeaderMap.HeaderMap HeaderHandler) (fs : list HeadField) (x : HttpExchange)
  : option Added :=
  match fs with
  | [] => Some (Field x)
  | f :: fs' =>
      match add_request_header m (f_name f) (f_value f) (map Headers.lower (f_name f)) (Headers.hash_name (f_name f)) x with
      | Some (Field x') => apply_fields m fs' x'
      | r => r
      end
  end.

Section names.
Import HeaderLine.

Definition bytes (l : list Z) : Prop := Forall (fun ch => 0 <= ch < 256) l.

Lemma name_byte_lower ch : 0 <= ch < 256 -> name_char ch = true -> name_byte ch = Headers.lower ch.
Proof.
  intros Hr Hc. assert (forallb (fun c => negb (name_char c) || (name_byte c =? Headers.lower c)) (map Z.of_nat (seq 0 256)) = true)
    as Hall by (vm_compute; reflexivity).
  rewrite forallb_forall in Hall. specialize (Hall ch). rewrite Hc in Hall. apply Z.eqb_eq, Hall.
  apply in_map_iff. exists (Z.to_nat ch). split; [lia|]. apply in_seq. lia.
Qed.

Lemma map_name_byte name : bytes name -> forallb name_char name = true -> map name_byte name = map Headers.lower name.
Proof.
  intros Hb. induction Hb as [|ch name Hr Hb IH]; [done|]. cbn. intros [Hc Hn]%andb_true_iff.
  by rewrite name_byte_lower, IH.
Qed.

Lemma name_hash_lower name : bytes name -> forallb name_char name = true -> name_hash 0 name = Headers.hash_name name.
Proof.
  unfold name_hash, Headers.hash_name. intros Hb. generalize 0 as h. induction Hb as [|ch name Hr Hb IH]; intros h; [done|].
  cbn. intros [Hc Hn]%andb_true_iff. rewrite name_byte_lower, IH by done. f_equal.
  unfold hash_step, wrap. by rewrite Zplus_mod_idemp_l.
Qed.

End names.

Section field.
Import HeaderLine.
Context `{store : HeaderStore}.
Context (options : HttpServerOptions) (m : @HeaderMap.HeaderMap HeaderHandler).
Context (T rest : list Z).

Lemma lowercase_of_name ps name :
  bytes name -> forallb name_char name = true -> lowcase_index ps = size name mod 32 -> length (lowcase_header (line_ ps)) = 32%nat ->
  ((length name <= 32)%nat -> take (length name) (lowcase_header (line_ ps)) = map name_byte name) ->
  lowercase_of ps name = map Headers.lower name.
Proof.
  intros Hb Hn Hi _ Ht. unfold lowercase_of. rewrite Hi. destruct (Z.eqb_spec (size name mod 32) (size name)) as [He|]; [|done].
  pose proof (Z.mod_pos_bound (size name) 32 ltac:(lia)). rewrite Ht, map_name_byte by (done || unfold size in *; lia). done.
Qed.

(** Reading a field whose line is in the buffer. *)
Lemma header_loop_field f p0 h0 i0 l0 fuel b g ps s :
  field_ok f -> 0 <= p0 -> drop (Z.to_nat p0) T = print_field f ++ rest -> length (lowcase_header l0) = 32%nat ->
  buffered T b s -> p0 <= pos b < p0 + size (print_field f) -> p0 + size (print_field f) <= last b -> allocs s = [] ->
  execute ps (Some b) = loop_result ps b (exec_loop (print_field f) p0 Start h0 i0 l0) ->
  let n := size (f_name f) in let v := p0 + n + 1 + Z.of_nat (f_pad f) in
  exists ps' b',
    header_loop options (S fuel) m b g ps s =
    match add_request_header m (f_name f) (f_value f) (map Headers.lower (f_name f)) (Headers.hash_name (f_name f)) (exchange s) with
    | None => Aborts
    | Some (Field x) => header_loop options fuel m b' g ps'
        (add_views [mkView g p0 (p0 + n); mkView g v (v + size (f_value f))] (set_exchange x s))
    | Some (BadField x) => Returns InvalidHeader (set_exchange x s)
    | Some (NoField x) => Unexpected NoMem (set_exchange x s)
    end /\
    state_ ps' = Start /\ length (lowcase_header (line_ ps')) = 32%nat /\ buffered T b' s /\
    pos b' = p0 + size (print_field f) /\ last b' = last b /\ view_end b' = view_end b /\
    v + size (f_value f) <= p0 + size (print_field f) /\ work b' s < work b s.
Proof.
  intros (Hne & Hby & Hnc & Hv & Htr) Hp0 HT Hlow Hb Hpos Hlast Hal Hex n v. pose proof (buffered_ok _ _ _ Hb) as (Hp & Hl & Hst).
  pose proof (exec_header_line (f_name f) (f_value f) p0 h0 i0 (f_pad f) (f_trail f) l0 Hne Hnc Hv Htr) as Hloop.
  cbv zeta in Hloop. fold (print_field f) in Hloop.
  set (l1 := set_invalid_header false _) in Hloop.
  assert (length (lowcase_header l1) = 32%nat) as Hlow1 by (unfold l1; by destruct l0).
  destruct (store_name_fields 0 (f_name f) l1) as (lh & Hlh & Hlhl).
  assert (size (print_field f) = n + 1 + Z.of_nat (f_pad f) + size (f_value f) + Z.of_nat (f_trail f) + 2) as Hsz.
  { unfold print_field, print_header. rewrite !length_of_app. unfold size. rewrite !length_replicate. cbn. unfold n, size. lia. }
  change (Z.of_nat (length (f_name f))) with n in Hloop. change (Z.of_nat (length (f_value f))) with (size (f_value f)) in Hloop.
  rewrite Hloop in Hex. cbn [loop_result] in Hex.
  set (q := p0 + n + 1 + Z.of_nat (f_pad f) + size (f_value f) + Z.of_nat (f_trail f) + 1) in *.
  set (ps' := mkParser Start _ _ _) in Hex. set (b' := Http1Detail.consume _ b) in Hex.
  assert (n = size (f_name f)) as Hn by done. pose proof (length_of_nonneg (f_name f)). pose proof (length_of_nonneg (f_value f)).
  assert (pos b' = p0 + size (print_field f)) as Hpb by (unfold b', q; cbn; lia).
  exists ps', b'. split.
  - cbn [header_loop]. rewrite Hex.
    assert (line_ ps' = set_header_end (Some (v + size (f_value f))) (set_header_start (Some v)
              (set_header_name_end (Some (p0 + n)) (set_lowcase_header lh l1)))) as Hline by (unfold ps'; by rewrite <-Hlh).
    assert (name_span (line_ ps') = Some (p0, p0 + n)) as ->.
    { rewrite Hline. unfold name_span, l1. destruct l0. cbn. by rewrite (proj2 (Z.ltb_ge _ _)) by lia. }
    assert (value_span (line_ ps') = Some (v, v + size (f_value f))) as Hvs.
    { rewrite Hline. unfold value_span, l1. destruct l0. cbn. by rewrite (proj2 (Z.leb_le _ _)) by lia. }
    cbn iota. rewrite Hvs. unfold memory, bind at 1, asserting, gets. rewrite Hal. cbn [negb].
    assert (buffered T b' s) as Hb' by (apply buffered_consume; [done|unfold readable, q; lia]).
    assert (bytes_between b' p0 (p0 + n) = f_name f) as ->.
    { rewrite (buffered_sub _ _ _ _ _ Hb') by (cbn; lia). unfold print_field, print_header in HT.
      rewrite <-app_assoc in HT. by apply (sub_prefix _ _ _ _ _ Hp0 HT). }
    assert (text_of b' (Some (v, v + size (f_value f))) = f_value f) as ->.
    { cbn. rewrite (buffered_sub _ _ _ _ _ Hb') by (cbn; lia). unfold print_field, print_header in HT.
      assert (drop (Z.to_nat v) T = f_value f ++ replicate (f_trail f) SP ++ [CR; LF] ++ rest) as Hd.
      { replace v with (p0 + size (f_name f ++ [chr ":"] ++ replicate (f_pad f) SP)).
        2:{ rewrite !length_of_app. unfold size at 3. rewrite length_replicate. change (size [chr ":"]) with 1. lia. }
        apply drop_sub; [done|]. rewrite HT, <-!app_assoc. done. }
      apply (sub_prefix T v _ _ _ ltac:(unfold v; lia) Hd). done. }
    rewrite lowercase_of_name; [|done|done|done| |].
    + change (header_hash ps') with (name_hash 0 (f_name f)). rewrite name_hash_lower by done.
      unfold bind, ret, modify, abort, fail. cbn beta iota.
      destruct (add_request_header _ _ _ _ _ _) as [[x|x|x]|]; done.
    + rewrite Hline. unfold l1 in *. destruct l0. cbn in *. lia.
    + intros Hle. pose proof (store_name_take 0 (f_name f) l1 Hlow1 ltac:(lia) ltac:(lia)) as Htake.
      rewrite Hlh in Htake. rewrite Hline. unfold l1 in *. destruct l0. exact Htake.
  - split; [done|]. split.
    { unfold ps'. cbn [line_]. rewrite Hlh. unfold l1 in *. destruct l0. cbn in *. lia. }
    split; [apply buffered_consume; [done|unfold readable, q; lia]|]. split; [done|]. split; [done|]. split; [done|].
    split; [lia|]. unfold work, readable. rewrite Hpb. cbn. lia.
Qed.

End field.

Section block.
Import HeaderLine.
Context `{store : HeaderStore}.
Context (options : HttpServerOptions) (m : @HeaderMap.HeaderMap HeaderHandler).
Context (T rest : list Z).

(** Views of a retained buffer whose first [hi] bytes are kept. *)
Definition views_within (g hi : Z) (vs : list View) : Prop :=
  Forall (fun v => buffer v = g /\ 0 <= from v <= to v /\ to v <= hi) vs.

(** The head was accepted: the exchange is [x], the bytes behind the head are
    unread and in order, and what the exchange points to is kept. *)
Definition head_accepted (x : HttpExchange) (g hi cap : Z) (r : Input.Outcome ParseCode) : Prop :=
  exists s', r = Returns Ok s' /\ exchange s' = x /\ concat (inbound_bufs_ s') ++ stream s' = rest /\
    nonempty (inbound_bufs_ s') /\ size (concat (inbound_bufs_ s')) <= cap /\
    header_bufs_ s' = [(g, sub T 0 hi)] /\ views_within g hi (views s') /\ steady (reads s') /\ allocs s' = [].

Definition head_result (a : option Added) (g hi cap : Z) (r : Input.Outcome ParseCode) : Prop :=
  match a with
  | Some (Field x) => head_accepted x g hi cap r
  | Some (BadField x) => exists s', r = Returns InvalidHeader s' /\ exchange s' = x
  | Some (NoField x) => exists s', r = Unexpected NoMem s' /\ exchange s' = x
  | None => r = Aborts
  end.

Lemma moved_fields s s' :
  moved s s' -> allocs s' = allocs s /\ exchange s' = exchange s /\ views s' = views s /\ header_bufs_ s' = header_bufs_ s.
Proof. intros ->. by destruct s. Qed.

Lemma exec_blank_line p h i l : exists l', exec_loop [CR; LF] p Start h i l = LoopHeaderDone (p + 1) l'.
Proof. destruct l. by eexists. Qed.

Lemma reached_start ps p : state_ ps = Start -> header_reached T p (header_hash ps) (lowcase_index ps) (line_ ps) ps p.
Proof. intros Hs. unfold header_reached. rewrite sub_nil by lia. cbn. by rewrite Hs. Qed.

Lemma finish_head_spec g b s hi :
  buffered T b s -> pos b = hi -> drop (Z.to_nat hi) T = rest -> inbound_bufs_ s = [] -> allocs s = [] ->
  header_bufs_ s = [] -> views_within g hi (views s) ->
  head_accepted (exchange s) g hi (view_end b) (finish_head b g s).
Proof.
  intros Hb Hp HT Hin Hal Hh Hv. pose proof (buffered_ok _ _ _ Hb) as (Hpos & Hl & Hst).
  pose proof (buffered_text _ _ _ Hb) as Htext. pose proof (buffered_reads _ _ _ Hb) as Hr. rewrite Hin in Htext. cbn [concat app] in Htext.
  assert (rest = readable_bytes b ++ stream s) as Hrest.
  { rewrite <-HT, <-Htext. rewrite (bytes_between_app b 0 (pos b)) by lia. rewrite <-app_assoc.
    assert (length (bytes_between b 0 (pos b)) = Z.to_nat hi) as <-.
    { pose proof (length_bytes_between b 0 (pos b) ltac:(lia)). lia. }
    by rewrite drop_app_length. }
  assert (bytes_between b 0 (pos b) = sub T 0 hi) as Hhead by (rewrite (buffered_sub _ _ _ _ _ Hb) by lia; by rewrite Hp).
  unfold finish_head, memory, append_inbound, bind, modify, ret, memory. rewrite Hal. cbn [negb].
  destruct (Z.ltb_spec 0 (readable b)) as [Hrd|Hrd].
  - cbn. rewrite Hal. cbn. eexists. split; [reflexivity|]. cbn -[readable_bytes]. rewrite Hin, Hh, Hhead. cbn -[readable_bytes].
    rewrite app_nil_r, Hrest. split; [done|]. split; [done|]. split.
    { constructor; [|constructor]. apply size_positive. unfold size, readable_bytes. rewrite length_bytes_between; unfold readable in Hrd; lia. }
    split; [|by split]. pose proof (length_bytes_between b (pos b) (last b) ltac:(lia) ltac:(lia)). unfold size, readable_bytes in *. lia.
  - eexists. split; [reflexivity|]. cbn -[readable_bytes size]. rewrite Hin, Hh, Hhead, Hrest.
    unfold readable_bytes. rewrite bytes_between_nil by (unfold readable in Hrd; lia). cbn -[size].
    split; [done|]. split; [done|]. split; [constructor|]. split; [change (size []) with 0; lia|]. by split.
Qed.

Lemma header_block_spec fs : forall p0 fuel b g ps s,
  Forall field_ok fs -> 0 <= p0 -> drop (Z.to_nat p0) T = print_block fs ++ rest ->
  state_ ps = Start -> length (lowcase_header (line_ ps)) = 32%nat ->
  buffered T b s -> pos b = p0 -> p0 + size (print_block fs) <= view_end b -> work b s < Z.of_nat fuel ->
  inbound_bufs_ s = [] -> allocs s = [] -> header_bufs_ s = [] -> views_within g (p0 + size (print_block fs)) (views s) ->
  head_result (apply_fields m fs (exchange s)) g (p0 + size (print_block fs)) (view_end b) (header_loop options fuel m b g ps s).
Proof.
  induction fs as [|f fs IH]; intros p0 fuel b g ps s Hfs Hp0 HT Hst Hlow Hb Hpos Hcap Hw Hin Hal Hh Hv.
  - cbn [print_block map concat app] in *. change (print_block []) with [CR; LF] in *. change (size [CR; LF]) with 2 in *.
    destruct (exec_blank_line p0 (header_hash ps) (lowcase_index ps) (line_ ps)) as (l' & Hblank).
    destruct (header_line_until options m T [CR; LF] rest p0 (header_hash ps) (lowcase_index ps) (line_ ps) Hp0 HT
                ltac:(rewrite Hblank; cbn [stops_at]; change (size [CR; LF]) with 2; lia) fuel b g ps s Hb) as
      (fuel' & b' & s' & ps' & -> & Hmv & Hb' & Hve & Hpb & Hlb & Hw' & Hin' & Hex);
      [done|change (size [CR; LF]) with 2; lia|rewrite Hpos; by apply reached_start|done|done|].
    destruct (moved_fields _ _ Hmv) as (Ha' & <- & Hv' & Hh'). cbn [header_loop]. rewrite Hex, Hblank. cbn [loop_result].
    change (size [CR; LF]) with 2 in *. rewrite <-Hve. set (b2 := Http1Detail.consume _ b'). change (view_end b') with (view_end b2).
    apply finish_head_spec; [|cbn; lia| |done|by rewrite Ha'|by rewrite Hh'|by rewrite Hv'].
    + apply buffered_consume; [done|unfold readable; lia].
    + by apply (drop_sub T p0 [CR; LF] rest).
  - apply Forall_cons in Hfs as [Hf Hfs].
    assert (print_block (f :: fs) = print_field f ++ print_block fs) as Hpr by (unfold print_block; cbn; by rewrite app_assoc).
    rewrite Hpr in *. rewrite length_of_app in *. rewrite <-app_assoc in HT.
    pose proof (length_of_nonneg (print_block fs)) as Hnn.
    assert (0 < size (print_field f)) as Hpf.
    { apply size_positive. unfold print_field, print_header. by destruct (f_name f). }
    destruct (header_line_until options m T (print_field f) (print_block fs ++ rest) p0 (header_hash ps) (lowcase_index ps)
                (line_ ps) Hp0 HT) with (fuel := fuel) (b := b) (g := g) (ps := ps) (s := s) as
      (fuel' & b' & s' & ps' & -> & Hmv & Hb' & Hve & Hpb & Hlb & Hw' & Hin' & Hex);
      [|done|lia|lia|rewrite Hpos; by apply reached_start|done|done|].
    { destruct Hf as (Hne & _ & Hnc & Hvo & Htr). unfold print_field. rewrite exec_header_line by done. cbn.
      unfold print_header. rewrite !length_of_app. unfold size. rewrite !length_replicate. cbn. lia. }
    destruct (moved_fields _ _ Hmv) as (Ha' & He' & Hv' & Hh').
    destruct (header_loop_field options m T (print_block fs ++ rest) f p0 _ _ _ fuel' b' g ps' s' Hf Hp0 HT Hlow Hb' Hpb Hlb
                ltac:(by rewrite Ha') Hex) as (ps2 & b2 & -> & Hst2 & Hlow2 & Hb2 & Hp2 & Hl2 & Hve2 & Hval & Hw2).
    cbn [apply_fields]. rewrite <-He'. destruct (add_request_header _ _ _ _ _ _) as [[x|x|x]|]; cbn [head_result].
    + set (vs := [_; _]) in *. set (s2 := add_views vs (set_exchange x s')).
      assert (moved_fields_ok : inbound_bufs_ s2 = inbound_bufs_ s' /\ stream s2 = stream s' /\ reads s2 = reads s' /\
        allocs s2 = [] /\ header_bufs_ s2 = [] /\ exchange s2 = x /\ views s2 = views s' ++ vs).
      { unfold s2. destruct s'. cbn in *. subst. done. }
      destruct moved_fields_ok as (E1 & E2 & E3 & E4 & E5 & E6 & E7).
      replace (apply_fields m fs x) with (apply_fields m fs (exchange s2)) by (by rewrite E6).
      rewrite Z.add_assoc. replace (view_end b) with (view_end b2) by lia. apply IH; try done; try lia.
      * by apply drop_sub.
      * destruct Hb2. split; try done; by rewrite ?E1, ?E2, ?E3.
      * unfold work in *. rewrite E1, E2. lia.
      * rewrite E7, Hv'. apply Forall_app. rewrite <-Z.add_assoc. split; [done|].
        pose proof (length_of_nonneg (f_name f)). pose proof (length_of_nonneg (f_value f)).
        unfold vs. repeat constructor; cbn -[size]; lia.
    + eexists. split; [reflexivity|]. by destruct s'.
    + eexists. split; [reflexivity|]. by destruct s'.
    + done.
Qed.

End block.

(** ** The whole head *)

Section head.
Context `{store : HeaderStore}.
Context (options : HttpServerOptions).

Definition print_head (m path : list Z) (query : option (list Z)) (d : Z) (fs : list HeadField) : list Z :=
  RequestLine.request_line m path query d ++ print_block fs.

Definition http_1 (d : Z) : list Z := bytes_of_string "HTTP/1." ++ [chr "0" + d].

(** The exchange once the request line has been read. *)
Definition with_printed_line (m path : list Z) (query : option (list Z)) (d : Z) (x : HttpExchange) : HttpExchange :=
  let target := chr "/" :: path in
  with_request_line (parse_method m) m (to_http_version (1000 + d)) (http_1 d)
    (mkUri target (default [] query) [] (target ++ RequestLine.query_part query)) x.

Definition apply_header (fs : list HeadField) (x : HttpExchange) : option Added :=
  m ← header_handler_map; apply_fields m fs x.

Lemma text_of_sub T b s a e : buffered T b s -> 0 <= a <= e -> e <= last b -> text_of b (Some (a, e)) = sub T a e.
Proof. intros. by apply (buffered_sub _ _ s). Qed.

Lemma take_printed_line T m path query d rest b s x :
  T = RequestLine.request_line m path query d ++ rest -> buffered T b s -> m <> [] -> 0 <= d <= 9 ->
  size (RequestLine.request_line m path query d) <= last b ->
  take_request_line b (RequestLine.expected_line m path query d 0) x = with_printed_line m path query d x.
Proof.
  intros HT Hb Hm Hd Hl. pose proof (RequestLine.length_request_line m path query d) as Hlen. unfold size in Hl.
  apply size_positive in Hm as Hm0. unfold size in Hm0. set (qp := RequestLine.query_part query) in *.
  assert (drop (Z.to_nat 0) T = m ++ [SP] ++ (chr "/" :: path) ++ qp ++ [SP] ++ http_1 d ++ [CR; LF] ++ rest) as H0.
  { rewrite HT. unfold RequestLine.request_line, http_1. cbn [Z.to_nat drop]. by rewrite <-!app_assoc. }
  pose proof (drop_sub T 0 m _ ltac:(lia) H0) as H1. cbn [app] in H1.
  pose proof (drop_sub T (0 + size m) [SP] (chr "/" :: path ++ qp ++ [SP] ++ http_1 d ++ [CR; LF] ++ rest) ltac:(unfold size; lia) H1) as H2.
  set (u := 0 + size m + size [SP]) in H2.
  assert (u = Z.of_nat (length m) + 1) as Hu by (unfold u, size; cbn; lia).
  change (chr "/" :: path ++ qp ++ [SP] ++ http_1 d ++ [CR; LF] ++ rest)
    with ((chr "/" :: path) ++ qp ++ [SP] ++ http_1 d ++ [CR; LF] ++ rest) in H2.
  pose proof (drop_sub T u _ _ ltac:(lia) H2) as H3. set (q := u + size (chr "/" :: path)) in H3.
  assert (q = u + 1 + Z.of_nat (length path)) as Hq by (unfold q, size; cbn [length]; lia).
  pose proof (drop_sub T q _ _ ltac:(lia) H3) as H4.
  pose proof (drop_sub T (q + size qp) [SP] (http_1 d ++ [CR; LF] ++ rest) ltac:(unfold size; lia) H4) as H5.
  set (e := q + size qp) in *. change (size [SP]) with 1 in H5.
  assert (e = q + Z.of_nat (length qp)) as He by done.
  unfold take_request_line, with_printed_line, RequestLine.expected_line. fold qp. cbn [RequestLine.method RequestLine.http_version].
  replace (0 + Z.of_nat (length m) + 1) with u by lia.
  replace (u + 1 + Z.of_nat (length path)) with q by lia. replace (q + Z.of_nat (length qp)) with e by lia.
  f_equal.
  - unfold method_span. cbn. rewrite (proj2 (Z.leb_le _ _)) by lia. cbn. rewrite (buffered_sub _ _ _ _ _ Hb) by lia.
    apply (sub_prefix T 0 _ _ _ ltac:(lia) H0). unfold size. lia.
  - unfold version_span. cbn. rewrite (proj2 (Z.leb_le _ _)) by lia. cbn. rewrite (buffered_sub _ _ _ _ _ Hb) by lia.
    apply (sub_prefix T (e + 1) _ _ _ ltac:(lia) H5). change (size (http_1 d)) with 8. lia.
  - unfold uri_of, uri_spans. cbn -[Z.add]. rewrite (proj2 (Z.leb_le u e)) by lia.
    destruct query as [qu|]; cbn [RequestLine.query_part] in qp.
    + rewrite (proj2 (Z.leb_le (q + 1) e)) by (unfold e, qp, size; cbn [length]; lia).
      unfold qp in *. cbn [path_span query_span exten_span unparsed_span text_of default].
      rewrite !(buffered_sub _ _ _ _ _ Hb) by (unfold e, size in *; cbn [length] in *; lia). f_equal.
      * apply (sub_prefix T u _ _ _ ltac:(lia) H2). unfold q. lia.
      * assert (drop (Z.to_nat (q + 1)) T = qu ++ [SP] ++ http_1 d ++ [CR; LF] ++ rest) as H6
          by (apply (drop_sub T q [chr "?"]); [lia|exact H3]).
        apply (sub_prefix T (q + 1) _ _ _ ltac:(lia) H6). unfold e, size. cbn [length]. lia.
      * apply (sub_prefix T u _ ((chr "/" :: path) ++ chr "?" :: qu) ([SP] ++ http_1 d ++ [CR; LF] ++ rest) ltac:(lia)).
        { by rewrite H2, app_assoc. }
        rewrite length_of_app. unfold e, q. lia.
    + unfold qp in *. cbn [path_span query_span exten_span unparsed_span text_of default].
      assert (e = q) as -> by (unfold e, size; cbn; lia). rewrite app_nil_r.
      rewrite !(buffered_sub _ _ _ _ _ Hb) by (cbn [length] in *; lia).
      assert (sub T u q = chr "/" :: path) as -> by (apply (sub_prefix T u _ _ _ ltac:(lia) H2); unfold q; lia). done.
Qed.

(** A connection waiting for a request, with memory to spare and a transport that
    delivers. *)
Record waiting (s : Session) : Prop := mkWaiting {
  waiting_inbound : nonempty (inbound_bufs_ s);
  waiting_reads : steady (reads s);
  waiting_memory : allocs s = [];
  waiting_views : views s = [];
  waiting_bufs : header_bufs_ s = [] }.

Lemma new_buffer_buffered s :
  0 <= header_init_size options -> waiting s ->
  buffered (concat (inbound_bufs_ s) ++ stream s) (new_buffer (header_init_size options)) s.
Proof.
  intros Hc [Hi Hr _ _ _]. split; try done.
  - unfold buffer_ok, new_buffer. cbn. rewrite length_replicate. lia.
  - cbn. rewrite length_replicate. lia.
Qed.

(** The loop for the request line ends behind it. *)
Lemma request_line_parsed m path query d rest s :
  let line := RequestLine.request_line m path query d in
  waiting s -> m <> [] -> Forall RequestLine.method_char m -> Forall RequestLine.usual_char path ->
  (forall q, query = Some q -> Forall RequestLine.query_char q) -> 0 <= d <= 9 ->
  concat (inbound_bufs_ s) ++ stream s = line ++ rest ->
  size line <= header_init_size options -> size (concat (inbound_bufs_ s)) <= header_init_size options ->
  let b := new_buffer (header_init_size options) in
  exists b' s', request_line_loop options (loop_fuel b s) b 0 (RequestLine.mkParser RequestLine.Start RequestLine.initial_line) s
      = Returns (inl (b', 0)) s' /\
    buffered (line ++ rest) b' s' /\ pos b' = size line /\ view_end b' = header_init_size options /\
    inbound_bufs_ s' = [] /\ allocs s' = [] /\ header_bufs_ s' = [] /\ views_within 0 (size line) (views s') /\
    exchange s' = with_printed_line m path query d (exchange s).
Proof.
  intros line Hw Hm Hmc Hpath Hq Hd HT Hfit Hin b. set (T := line ++ rest) in *.
  pose proof (length_of_nonneg line). pose proof (new_buffer_buffered s ltac:(lia) Hw) as Hb. fold b in Hb. rewrite HT in Hb.
  pose proof (RequestLine.length_request_line m path query d) as Hlen. fold line in Hlen.
  assert (Hbb : sub T 0 (0 + Z.of_nat (length m)) = m).
  { apply (sub_prefix T 0 _ m (drop (length m) T)); [lia| |done]. unfold T, line, RequestLine.request_line.
    rewrite <-!app_assoc, drop_app_length. done. }
  assert (HL : RequestLine.exec_loop (sub T) line 0 RequestLine.Start RequestLine.initial_line =
    RequestLine.LoopDone (size line - 1) (RequestLine.set_http_version 0 (RequestLine.expected_line m path query d 0))).
  { rewrite <-(app_nil_r line) at 1. unfold line. rewrite RequestLine.exec_request_line by done. f_equal; unfold size; lia. }
  destruct (request_line_until options T line rest _ eq_refl HL (loop_fuel b s) b 0
              (RequestLine.mkParser RequestLine.Start RequestLine.initial_line) s Hb) as
    (fuel' & b' & s' & ps' & -> & Hmv & Hb' & Hve & Hpb & Hlb & Hw' & Hin' & Hex); try done.
  { unfold size. cbn [pos b new_buffer]. lia. }
  { rewrite loop_fuel_work by done. lia. }
  { right. split; [done|]. unfold writable. cbn. lia. }
  destruct (moved_fields _ _ Hmv) as (Ha' & He' & Hv' & Hh'). destruct Hw as [_ _ Ha Hv Hh].
  cbn [request_line_loop]. rewrite Hex, RequestLine.finish_request_line by done.
  set (b2 := Http1Detail.consume _ b').
  assert (Hb2 : buffered T b2 s') by (apply buffered_consume; [done|unfold readable; lia]).
  cbn [RequestLine.line_]. unfold bind, modify, ret. do 2 eexists. split; [reflexivity|].
  split; [by destruct Hb2; split; destruct s'|]. split; [cbn; lia|]. split; [done|].
  split; [by destruct s'|]. split; [destruct s'; cbn in *; congruence|]. split; [destruct s'; cbn in *; congruence|].
  split.
  - assert (views (add_views (request_line_views 0 (RequestLine.expected_line m path query d 0))
        (set_exchange (take_request_line b2 (RequestLine.expected_line m path query d 0) (exchange s')) s')) =
      request_line_views 0 (RequestLine.expected_line m path query d 0)) as -> by (destruct s'; cbn in *; by rewrite Hv', Hv).
    apply size_positive in Hm as Hm0. unfold size in Hm0.
    unfold request_line_views, uri_spans, views_of, method_span, version_span, RequestLine.expected_line.
    destruct query as [q|]; cbn -[Z.add size]; cbn [RequestLine.query_part length] in Hlen; unfold size;
      repeat (rewrite (proj2 (Z.leb_le _ _)) by lia; cbn -[Z.add size]); repeat constructor; cbn; unfold size in *; lia.
  - rewrite (take_printed_line T m path query d rest b2 s') by (done || cbn; lia). destruct s'; cbn in *; by rewrite He'.
Qed.

Lemma parse_request_spec (m path : list Z) (query : option (list Z)) (d : Z) (fs : list HeadField)
    (rest : list Z) (s : Session) :
  waiting s -> m <> [] -> Forall RequestLine.method_char m -> Forall RequestLine.usual_char path ->
  (forall q, query = Some q -> Forall RequestLine.query_char q) -> 0 <= d <= 9 -> Forall field_ok fs ->
  let head := print_head m path query d fs in
  concat (inbound_bufs_ s) ++ stream s = head ++ rest ->
  size head <= header_init_size options -> size (concat (inbound_bufs_ s)) <= header_init_size options ->
  head_result (head ++ rest) rest (apply_header fs (with_printed_line m path query d (exchange s))) 0 (size head)
    (header_init_size options)
    (parse_request options s).
Proof.
  intros Hw Hm Hmc Hpath Hq Hd Hfs head HT Hfit Hin. unfold head, print_head in *.
  set (line := RequestLine.request_line m path query d) in *. rewrite <-app_assoc in HT |- *. rewrite length_of_app in *.
  pose proof (length_of_nonneg (print_block fs)). pose proof (length_of_nonneg line) as Hl0.
  assert (0 < size line) as Hl1.
  { apply size_positive. unfold line, RequestLine.request_line. by destruct m. }
  destruct (request_line_parsed m path query d (print_block fs ++ rest) s Hw Hm Hmc Hpath Hq Hd HT ltac:(fold line; lia) ltac:(lia))
    as (b' & s' & Hloop & Hb' & Hp & Hve & Hin' & Ha' & Hh' & Hv' & He').
  unfold parse_request, allocate, memory. rewrite (proj2 (Z.eqb_neq _ 0)) by lia.
  unfold bind at 1. rewrite (waiting_memory _ Hw). cbn [negb]. unfold bind at 1, gets at 1. unfold bind at 1. rewrite Hloop.
  unfold apply_header. destruct header_handler_map as [hm|]; [|done]. cbn [mbind option_bind]. unfold bind, asserting, ret, gets.
  rewrite <-He', <-Hve. apply header_block_spec; try done; try lia.
  - by apply drop_sub with (x := 0).
  - rewrite loop_fuel_work by (pose proof (buffered_ok _ _ _ Hb') as (?&?&?); unfold readable; lia). lia.
  - fold line in Hv'. eapply Forall_impl; [exact Hv'|]. cbn -[size]. intros v (? & ? & ?). lia.
Qed.

(** C19. A printed request parses back.  The connection waits for a request with memory to
    spare and a transport that delivers without an error; the head fits the header
    buffer, and so do the bytes that have been received ahead (more of them may be
    reordered, [pipelined_bytes_reordered]); the path of the target has only usual
    characters, without dots, percent signs and further slashes, and every field is well formed.  In
    whatever pieces the transport delivers and in whatever chain the bytes received ahead
    are, [parse_request] then ends; the exchange gets the method, the target, the version
    and every header field in order, exactly as applying the fields to it says (a field
    may be invalid or the table full); after an accepted head the bytes behind it are
    unread, complete and in order, and everything the exchange points to lies in the one
    buffer that is kept. *)
Theorem parse_request_prints_back (m path : list Z) (query : option (list Z)) (d : Z) (fs : list HeadField)
    (rest : list Z) (s : Session) :
  waiting s -> m <> [] -> Forall RequestLine.method_char m -> Forall RequestLine.usual_char path ->
  (forall q, query = Some q -> Forall RequestLine.query_char q) -> 0 <= d <= 9 -> Forall field_ok fs ->
  let head := print_head m path query d fs in
  concat (inbound_bufs_ s) ++ stream s = head ++ rest ->
  size head <= header_init_size options -> size (concat (inbound_bufs_ s)) <= header_init_size options ->
  head_result (head ++ rest) rest (apply_header fs (with_printed_line m path query d (exchange s))) 0 (size head)
    (header_init_size options)
    (parse_request options s).
Proof. apply parse_request_spec. Qed.

End head.

Definition small_options : HttpServerOptions := mkOptions 64 64 4 false.

Definition start_session `{store : HeaderStore} (options : HttpServerOptions) (inbound : list (list Z)) (stream : list Z)
  (reads : list ReadResult) : Session :=
  mkSession inbound stream reads [] [] (make_exchange options) [] [] Body.reset None false.

Lemma parse_request_prints_back_witness :
  let fs := [mkHeadField (bytes_of_string "Host") 1 (bytes_of_string "x") 0;
             mkHeadField (bytes_of_string "Content-Length") 0 (bytes_of_string "4") 2] in
  let head := print_head (bytes_of_string "GET") (bytes_of_string "a") (Some (bytes_of_string "b")) 1 fs in
  let s := start_session (store := http_headers []) small_options [take 3 head] (drop 3 head ++ [1; 2; 3; 4]) [Gives 5; Gives 20] in
  head_result (head ++ [1; 2; 3; 4]) [1; 2; 3; 4]
    (apply_header fs (with_printed_line (bytes_of_string "GET") (bytes_of_string "a") (Some (bytes_of_string "b")) 1 (exchange s)))
    0 (size head) (header_init_size small_options) (parse_request small_options s) /\
  match apply_header fs (with_printed_line (bytes_of_string "GET") (bytes_of_string "a") (Some (bytes_of_string "b")) 1 (exchange s)) with
  | Some (Field x) => request_content_length_ x = 4
  | _ => False
  end.
Proof.
  intros fs head s. split; [|vm_compute; reflexivity].
  apply parse_request_prints_back.
  - apply mkWaiting; [|change (steady [Gives 5; Gives 20])|reflexivity..].
    + constructor; [vm_compute; discriminate|constructor].
    + constructor; [by exists 4%nat|]. constructor; [by exists 19%nat|constructor].
  - discriminate.
  - repeat constructor.
  - repeat constructor.
  - intros q [= <-]. unfold RequestLine.query_char, SP. repeat constructor; discriminate.
  - lia.
  - constructor; [|constructor; [|constructor]].
    all: split; [discriminate|]; split; [cbn; repeat (constructor; [lia|]); constructor|].
    all: split; [reflexivity|]; split; [right|discriminate].
    + exists [], (chr "x"). split; [reflexivity|]. split; [discriminate|]. split; [discriminate|reflexivity].
    + exists [], (chr "4"). split; [reflexivity|]. split; [discriminate|]. split; [discriminate|reflexivity].
  - reflexivity.
  - vm_compute. discriminate.
  - vm_compute. discriminate.
Defined.

(** ** The framing of the body *)

Section framing.
Context `{store : HeaderStore}.

Definition kContentLength : list Z := bytes_of_string "content-length".
Definition kTransferEncoding : list Z := bytes_of_string "transfer-encoding".
Definition kConnection : list Z := bytes_of_string "connection".

(** The handler of a name. *)
Definition handler_named (lowname : list Z) : option HeaderHandler :=
  if bool_decide (lowname = kContentLength) then Some HandleContentLength
  else if bool_decide (lowname = kTransferEncoding) then Some HandleTransferEncoding
  else if bool_decide (lowname = kConnection) then Some HandleConnection else None.

Definition handlers : gmap (list Z * Z) HeaderHandler :=
  <[(kConnection, Headers.hash_name kConnection) := HandleConnection]>
  (<[(kTransferEncoding, Headers.hash_name kTransferEncoding) := HandleTransferEncoding]>
  (<[(kContentLength, Headers.hash_name kContentLength) := HandleContentLength]> ∅)).

Lemma hash_name_nonneg n : 0 <= Headers.hash_name n.
Proof.
  unfold Headers.hash_name. induction n as [|ch n _] using rev_ind; [done|].
  rewrite foldl_snoc. apply wrap_range. lia.
Qed.

Lemma handler_map_represents : exists hm, header_handler_map = Some hm /\ HeaderMap.represents hm handlers.
Proof.
  unfold header_handler_map.
  destruct (HeaderMap.insert_new HeaderMap.construct ∅ kContentLength HandleContentLength HeaderMap.construct_represents
    (hash_name_nonneg _) ltac:(reflexivity) (lookup_empty _)) as (m1 & E1 & R1 & L1).
  destruct (HeaderMap.insert_new m1 _ kTransferEncoding HandleTransferEncoding R1 (hash_name_nonneg _) ltac:(by rewrite L1))
    as (m2 & E2 & R2 & L2); [by rewrite lookup_insert_ne by discriminate|].
  destruct (HeaderMap.insert_new m2 _ kConnection HandleConnection R2 (hash_name_nonneg _) ltac:(by rewrite L2, L1))
    as (m3 & E3 & R3 & L3); [by rewrite !lookup_insert_ne by discriminate|].
  exists m3. unfold kContentLength, kTransferEncoding, kConnection in *. rewrite E1. cbn [mbind option_bind].
  rewrite E2. cbn [mbind option_bind]. rewrite E3. by split.
Qed.

Lemma map_lower_idem n : map Headers.lower (map Headers.lower n) = map Headers.lower n.
Proof. rewrite map_map. apply map_ext. intros. apply Headers.lower_idempotent. Qed.

Lemma handlers_lookup n :
  handlers !! HeaderMap.id_of (map Headers.lower n) (Headers.hash_name n) = handler_named (map Headers.lower n).
Proof.
  unfold handlers, HeaderMap.id_of, handler_named. rewrite map_lower_idem.
  assert (forall k, map Headers.lower n = k -> map Headers.lower k = k -> Headers.hash_name n = Headers.hash_name k) as Hh
    by (intros k Hk Hlk; apply Headers.hash_name_lower; congruence).
  destruct (decide (map Headers.lower n = kContentLength)) as [E|N1].
  { rewrite E, (Hh _ E eq_refl), bool_decide_eq_true_2 by done.
    rewrite !lookup_insert_ne by discriminate. apply lookup_insert_eq. }
  rewrite (bool_decide_eq_false_2 _ N1). destruct (decide (map Headers.lower n = kTransferEncoding)) as [E|N2].
  { rewrite E, (Hh _ E eq_refl), bool_decide_eq_true_2 by done.
    rewrite !lookup_insert_ne by discriminate. apply lookup_insert_eq. }
  rewrite (bool_decide_eq_false_2 _ N2). destruct (decide (map Headers.lower n = kConnection)) as [E|N3].
  { rewrite E, (Hh _ E eq_refl), bool_decide_eq_true_2 by done. apply lookup_insert_eq. }
  rewrite (bool_decide_eq_false_2 _ N3). rewrite !lookup_insert_ne by (intros [=]; congruence). apply lookup_empty.
Qed.

Definition named_as (k : list Z) (f : HeadField) : bool := bool_decide (map Headers.lower (f_name f) = k).

(** What a field says about the body and the connection. *)
Definition says (k token : list Z) (f : HeadField) : bool :=
  named_as k f && existsb (fun t => equals_ascii_ci t token) (for_each_token (f_value f)).
Definition says_chunked : HeadField -> bool := says kTransferEncoding (bytes_of_string "chunked").
Definition says_close : HeadField -> bool := says kConnection (bytes_of_string "close").
Definition says_keep_alive : HeadField -> bool := says kConnection (bytes_of_string "keep-alive").
Definition length_of (f : HeadField) : option Z :=
  match from_chars (f_value f) with Some (n, []) => Some n | _ => None end.

(** The framing an exchange has after the fields [fs]. *)
Record framed_by (fs : list HeadField) (x : HttpExchange) : Prop := mkFramed {
  framed_chunked : request_chunked_ x = existsb says_chunked fs;
  framed_set : request_content_length_set_ x = negb (existsb says_chunked fs) && existsb (named_as kContentLength) fs;
  framed_length : if request_content_length_set_ x
                  then Forall (fun f => named_as kContentLength f = true -> length_of f = Some (request_content_length_ x)) fs
                  else request_content_length_ x = 0;
  framed_valid : Forall (fun f => named_as kContentLength f = true -> is_Some (length_of f)) fs;
  framed_close : request_close_ x = existsb says_close fs;
  framed_keep_alive : request_keep_alive_ x = existsb says_keep_alive fs }.

Lemma close_or_keep_alive t :
  equals_ascii_ci t (bytes_of_string "close") = true -> equals_ascii_ci t (bytes_of_string "keep-alive") = false.
Proof.
  rewrite !equals_ascii_ci_spec. intros Hc%bool_decide_eq_true. rewrite Hc. reflexivity.
Qed.

Lemma connection_tokens ts x :
  let x' := foldl handle_connection_token x ts in
  request_close_ x' = request_close_ x || existsb (fun t => equals_ascii_ci t (bytes_of_string "close")) ts /\
  request_keep_alive_ x' = request_keep_alive_ x || existsb (fun t => equals_ascii_ci t (bytes_of_string "keep-alive")) ts /\
  request_chunked_ x' = request_chunked_ x /\ request_content_length_set_ x' = request_content_length_set_ x /\
  request_content_length_ x' = request_content_length_ x.
Proof.
  revert x. induction ts as [|t ts IH]; intros x; cbn [foldl existsb].
  { by rewrite !orb_false_r. }
  destruct (IH (handle_connection_token x t)) as (-> & -> & -> & -> & ->). unfold handle_connection_token.
  destruct (equals_ascii_ci t (bytes_of_string "close")) eqn:Hc.
  - rewrite (close_or_keep_alive _ Hc). cbn. by rewrite orb_true_r.
  - destruct (equals_ascii_ci t (bytes_of_string "keep-alive")); cbn; by rewrite ?orb_true_r.
Qed.

Lemma existsb_snoc {A} (p : A -> bool) l x : existsb p (l ++ [x]) = existsb p l || p x.
Proof. rewrite existsb_app. cbn. by rewrite orb_false_r. Qed.

Lemma from_chars_bound v n r : from_chars v = Some (n, r) -> n <= size_max.
Proof.
  unfold from_chars. destruct (span is_decimal v) as [ds rest]. destruct (_ || _) eqn:E; [done|].
  apply orb_false_iff in E as [_ E]. intros [= <- <-]. apply Z.ltb_ge in E. exact E.
Qed.

(** A field of another name leaves what the name says alone. *)
Lemma says_other k k' t f : k <> k' -> named_as k f = true -> says k' t f = false.
Proof.
  unfold says, named_as. intros Hne Hk%bool_decide_eq_true. rewrite bool_decide_eq_false_2; [done|congruence].
Qed.

(** Lengths of the fields seen, when one more is seen. *)
Lemma Forall_snoc {A} (P : A -> Prop) l x : Forall P l -> P x -> Forall P (l ++ [x]).
Proof. intros Hl Hx. apply Forall_app. split; [done|]. by constructor. Qed.

Lemma framed_quiet fs f x :
  framed_by fs x -> named_as kContentLength f = false -> says_chunked f = false ->
  request_close_ x || says_close f = request_close_ x -> request_keep_alive_ x || says_keep_alive f = request_keep_alive_ x ->
  framed_by (fs ++ [f]) x.
Proof.
  intros [F1 F2 F3 F4 F5 F6] Hn Hc Hcl Hk. split; rewrite ?existsb_snoc, ?Hn, ?Hc, ?orb_false_r; try done.
  - destruct (request_content_length_set_ x); [|done]. apply Forall_snoc; [done|]. by rewrite Hn.
  - apply Forall_snoc; [done|]. by rewrite Hn.
  - by rewrite <-F5, Hcl.
  - by rewrite <-F6, Hk.
Qed.

Ltac framing_fields :=
  cbn [with_framing request_chunked_ request_content_length_set_ request_content_length_ request_close_ request_keep_alive_].

Lemma framed_content_length fs f x x' :
  framed_by fs x -> named_as kContentLength f = true -> handle_content_length x (f_value f) = Some x' ->
  framed_by (fs ++ [f]) x'.
Proof.
  intros [F1 F2 F3 F4 F5 F6] Hnm Hh.
  assert (says_chunked f = false /\ says_close f = false /\ says_keep_alive f = false) as (S1 & S2 & S3)
    by (split_and!; by apply (says_other kContentLength)).
  unfold handle_content_length in Hh. destruct (from_chars (f_value f)) as [[n [|]]|] eqn:Hn; [|done..].
  rewrite (proj2 (Z.ltb_ge _ _) (from_chars_bound _ _ _ Hn)) in Hh.
  assert (length_of f = Some n) as Hlen by (unfold length_of; by rewrite Hn).
  assert (Forall (fun f => named_as kContentLength f = true -> is_Some (length_of f)) (fs ++ [f])) as F4'
    by (apply Forall_snoc; [done|]; intros _; by eexists).
  destruct (request_content_length_set_ x && _) eqn:Hdup; [done|].
  destruct (request_chunked_ x) eqn:Hc; injection Hh as <-; split; framing_fields;
    rewrite ?existsb_snoc, ?S1, ?S2, ?S3, ?Hnm, ?orb_false_r, ?orb_true_r, <-?F1, ?Hc; try done.
  - by rewrite F2, <-F1.
  - rewrite F2, <-F1 in *. done.
  - apply Forall_snoc; [|done]. rewrite <-F1 in F2. cbn [negb andb] in F2. rewrite F2 in *.
    destruct (existsb (named_as kContentLength) fs) eqn:He.
    + cbn [negb andb] in Hdup. apply negb_false_iff, Z.eqb_eq in Hdup. by rewrite <-Hdup.
    + apply Forall_forall. intros g Hg Hng. assert (existsb (named_as kContentLength) fs = true) as He' by
        (apply existsb_exists; exists g; split; [by apply list_elem_of_In|done]). congruence.
Qed.

Lemma framed_transfer_encoding fs f x x' :
  framed_by fs x -> named_as kTransferEncoding f = true -> handle_transfer_encoding x (f_value f) = Some x' ->
  framed_by (fs ++ [f]) x'.
Proof.
  intros HF Hnm Hh. assert (named_as kContentLength f = false) as Hn.
  { unfold named_as in *. apply bool_decide_eq_true in Hnm. by rewrite Hnm. }
  assert (says_close f = false /\ says_keep_alive f = false) as (S2 & S3) by (split; by apply (says_other kTransferEncoding)).
  unfold handle_transfer_encoding in Hh. assert (says_chunked f = existsb (fun t => equals_ascii_ci t (bytes_of_string "chunked")) (for_each_token (f_value f))) as Hs
    by (unfold says_chunked, says; by rewrite Hnm). rewrite <-Hs in Hh.
  destruct (says_chunked f) eqn:Hc; injection Hh as <-.
  - destruct HF as [F1 F2 F3 F4 F5 F6].
    split; framing_fields; rewrite ?existsb_snoc, ?Hc, ?S2, ?S3, ?orb_false_r, ?orb_true_r; try done.
    apply Forall_snoc; [done|]. by rewrite Hn.
  - apply framed_quiet; rewrite ?S2, ?S3, ?orb_false_r; done.
Qed.

Lemma framed_connection fs f x x' :
  framed_by fs x -> named_as kConnection f = true -> handle_connection x (f_value f) = Some x' ->
  framed_by (fs ++ [f]) x'.
Proof.
  intros [F1 F2 F3 F4 F5 F6] Hnm [= <-]. assert (named_as kContentLength f = false) as Hn.
  { unfold named_as in *. apply bool_decide_eq_true in Hnm. by rewrite Hnm. }
  assert (says_chunked f = false) as S1 by by apply (says_other kConnection).
  destruct (connection_tokens (for_each_token (f_value f)) x) as (Hc & Hk & H1 & H2 & H3).
  split; rewrite ?H1, ?H2, ?H3, ?existsb_snoc, ?S1, ?Hn, ?orb_false_r; try done.
  - destruct (request_content_length_set_ x); [|done]. apply Forall_snoc; [done|]. by rewrite Hn.
  - apply Forall_snoc; [done|]. by rewrite Hn.
  - rewrite Hc, F5. unfold says_close, says. by rewrite Hnm.
  - rewrite Hk, F6. unfold says_keep_alive, says. by rewrite Hnm.
Qed.

Lemma framed_step fs f x x' hm :
  HeaderMap.represents hm handlers -> framed_by fs x ->
  add_request_header hm (f_name f) (f_value f) (map Headers.lower (f_name f)) (Headers.hash_name (f_name f)) x = Some (Field x') ->
  framed_by (fs ++ [f]) x'.
Proof.
  intros Hr HF Hadd. unfold add_request_header in Hadd.
  destruct (add_view_field _ _ _ _ _) as [[] t]; [|discriminate Hadd]. cbn [negb] in Hadd.
  rewrite (HeaderMap.get_represents _ _ _ _ Hr (hash_name_nonneg _)), handlers_lookup in Hadd.
  set (y := with_request_headers t x) in *. assert (framed_by fs y) as HFy by (destruct HF; by split).
  clearbody y. clear Hr HF. unfold handler_named in Hadd.
  destruct (bool_decide (map Headers.lower (f_name f) = kContentLength)) eqn:K1.
  { cbn [call_handler] in Hadd. destruct (handle_content_length y (f_value f)) eqn:Hh; [|discriminate Hadd].
    injection Hadd as ->. by apply (framed_content_length fs f y). }
  destruct (bool_decide (map Headers.lower (f_name f) = kTransferEncoding)) eqn:K2.
  { cbn [call_handler] in Hadd. destruct (handle_transfer_encoding y (f_value f)) eqn:Hh; [|discriminate Hadd].
    injection Hadd as ->. by apply (framed_transfer_encoding fs f y). }
  destruct (bool_decide (map Headers.lower (f_name f) = kConnection)) eqn:K3.
  { cbn [call_handler] in Hadd. destruct (handle_connection y (f_value f)) eqn:Hh; [|discriminate Hadd].
    injection Hadd as ->. by apply (framed_connection fs f y). }
  injection Hadd as ->. apply framed_quiet; [done|done|..];
    unfold says_chunked, says_close, says_keep_alive, says, named_as; rewrite ?K2, ?K3; by rewrite ?orb_false_r.
Qed.

Lemma apply_fields_framed hm fs seen x x' :
  HeaderMap.represents hm handlers -> framed_by seen x -> apply_fields hm fs x = Some (Field x') ->
  framed_by (seen ++ fs) x'.
Proof.
  intros Hr. revert seen x. induction fs as [|f fs IH]; intros seen x HF Ha; cbn [apply_fields] in Ha.
  - injection Ha as <-. by rewrite app_nil_r.
  - destruct (add_request_header _ _ _ _ _ _) as [[y|y|y]|] eqn:Hadd; [|discriminate Ha..].
    replace (seen ++ f :: fs) with ((seen ++ [f]) ++ fs) by (by rewrite <-app_assoc).
    apply (IH (seen ++ [f]) y); [by eapply framed_step|exact Ha].
Qed.

(** C20. The framing of an accepted request is unambiguous and decided by its
    fields alone: the body is chunked exactly when a Transfer-Encoding field lists
    [chunked] (no Content-Length counts then); otherwise, if there is a
    Content-Length, all of them are the same decimal 64-bit number and it is the
    length of the body; a request with a malformed Content-Length is never
    accepted.  The connection flags are those the Connection fields list. *)
Theorem framing_unambiguous (fs : list HeadField) (x x' : HttpExchange) :
  framed_by [] x -> apply_header fs x = Some (Field x') -> framed_by fs x'.
Proof.
  intros HF Ha. destruct handler_map_represents as (hm & Hm & Hr). unfold apply_header in Ha. rewrite Hm in Ha.
  exact (apply_fields_framed hm fs [] x x' Hr HF Ha).
Qed.


End framing.

Lemma framing_unambiguous_witness :
  let fs := [mkHeadField (bytes_of_string "content-length") 0 (bytes_of_string "7") 0;
             mkHeadField (bytes_of_string "Content-Length") 0 (bytes_of_string "007") 0] in
  exists x', apply_header (store := http_headers []) fs (make_exchange small_options) = Some (Field x') /\ framed_by fs x'.
Proof.
  intros fs.
  assert (match apply_header (store := http_headers []) fs (make_exchange small_options) with
          | Some (Field _) => true | _ => false end = true) as Hok by (vm_compute; reflexivity).
  destruct (apply_header (store := http_headers []) fs (make_exchange small_options)) as [[x'|x'|x']|] eqn:Ha;
    [|discriminate Hok..].
  exists x'. split; [reflexivity|]. apply (framing_unambiguous fs (make_exchange small_options) x'); [|exact Ha].
  split; [reflexivity|reflexivity|reflexivity|constructor|reflexivity|reflexivity].
Defined.

(** ** A full buffer between two lines *)

Section full_buffer.
Context `{store : HeaderStore}.
Context (options : HttpServerOptions).

(** C25. When the request line ends exactly at the end of the header buffer, and
    the buffer may still grow, the next line starts with a full buffer:
    [replace_buf_ptr] is called between two lines, its assertion fails and the
    process aborts, whatever the rest of the request is. *)
Theorem full_header_buffer_aborts (m path : list Z) (query : option (list Z)) (d : Z) (rest : list Z) (s : Session) :
  waiting s -> m <> [] -> Forall RequestLine.method_char m -> Forall RequestLine.usual_char path ->
  (forall q, query = Some q -> Forall RequestLine.query_char q) -> 0 <= d <= 9 ->
  concat (inbound_bufs_ s) ++ stream s = RequestLine.request_line m path query d ++ rest ->
  header_init_size options = size (RequestLine.request_line m path query d) ->
  size (concat (inbound_bufs_ s)) <= header_init_size options ->
  0 < header_large_num options -> 0 <= header_large_size options <= size_max - header_init_size options ->
  parse_request options s = Aborts.
Proof.
  intros Hw Hm Hmc Hpath Hq Hd HT Hfit Hin Hnum Hlarge.
  set (line := RequestLine.request_line m path query d) in *.
  assert (0 < size line) as Hl1 by (apply size_positive; unfold line, RequestLine.request_line; by destruct m).
  destruct (request_line_parsed options m path query d rest s Hw Hm Hmc Hpath Hq Hd HT ltac:(fold line; lia) ltac:(lia))
    as (b & s' & Hloop & Hb & Hp & Hve & Hin' & Ha' & Hh' & Hv' & He'). fold line in Hp.
  unfold parse_request, allocate, memory. rewrite (proj2 (Z.eqb_neq _ 0)) by lia.
  unfold bind at 1. rewrite (waiting_memory _ Hw). cbn [negb]. unfold bind at 1, gets at 1. unfold bind at 1. rewrite Hloop.
  destruct (handler_map_represents) as (hm & -> & _). cbn [asserting]. unfold bind at 1, ret at 1, gets at 1. unfold bind at 1.
  pose proof (buffered_ok _ _ _ Hb) as (Hpos & Hl & Hst). pose proof (buffered_view _ _ _ Hb) as Hview.
  assert (readable b = 0) as Hr by (unfold readable; lia).
  assert (exists n, loop_fuel b s' = S n) as [n ->] by (unfold loop_fuel; eexists; rewrite Nat.add_1_r; reflexivity).
  cbn [header_loop]. rewrite HeaderLine.execute_empty_header by done. unfold bind at 1, refill.
  rewrite (proj2 (Z.eqb_eq (writable b) 0)) by (unfold writable; lia).
  unfold grow_header_buffer, attempt, bind, next_header_capacity, capacity_of. rewrite Hview, Hve.
  rewrite (proj2 (Z.eqb_neq (header_init_size options) 0)), (proj2 (Z.leb_gt _ _)), (proj2 (Z.ltb_ge _ _)) by lia.
  rewrite (proj2 (Z.eqb_neq (_ + _) 0)) by lia. unfold allocate, memory. rewrite Ha'.
  rewrite (proj2 (Z.eqb_neq (_ + _) 0)) by lia. reflexivity.
Qed.

End full_buffer.

Definition crlf_lines (ls : list string) : list Z := concat (map (fun l => bytes_of_string l ++ [CR; LF]) ls).

Lemma full_header_buffer_aborts_witness :
  let options := mkOptions 16 64 4 false in
  parse_request (store := http_headers []) options
    (start_session options [] (crlf_lines ["GET / HTTP/1.1"; "Host: x"; ""]%string) []) = Aborts.
Proof.
  intros options. apply (full_header_buffer_aborts options (bytes_of_string "GET") [] None 1 (crlf_lines ["Host: x"; ""]%string)).
  - split; try reflexivity; constructor.
  - discriminate.
  - repeat constructor.
  - constructor.
  - discriminate.
  - lia.
  - reflexivity.
  - reflexivity.
  - vm_compute. discriminate.
  - reflexivity.
  - split; vm_compute; discriminate.
Defined.

(** ** Termination *)

Section termination.
Context `{store : HeaderStore}.
Context (options : HttpServerOptions).

Lemma drain_inbound_loop_ends fuel c b k :
  (S (length c) < fuel)%nat ->
  exists k' c' b', drain_inbound_loop fuel c b k = Some (k', c', b') /\ k <= k' /\
    readable b' = readable b + (k' - k) /\ size (concat c') = size (concat c) - (k' - k).
Proof.
  revert c b k. induction fuel as [|fuel IH]; intros c b k Hf; [lia|]. cbn [drain_inbound_loop].
  assert (exists k' c' b', Some (k, c, b) = Some (k', c', b') /\ k <= k' /\
    readable b' = readable b + (k' - k) /\ size (concat c') = size (concat c) - (k' - k)) as Hstop
    by (do 3 eexists; split; [reflexivity|lia]).
  destruct (Z.leb_spec (writable b) 0) as [_|Hw]; [done|]. destruct c as [|f c]; [done|]. cbn [front head].
  destruct (Z.eqb_spec (size f) 0) as [_|Hz]; [done|]. pose proof (length_of_nonneg f). clear Hstop.
  set (n := Z.min (size f) (writable b)). rewrite consume_front by lia.
  set (c1 := if n <? size f then drop (Z.to_nat n) f :: c else c). set (b1 := fill _ b).
  assert (size (concat c1) = size (concat (f :: c)) - n) as Hc1.
  { unfold c1. cbn [concat]. destruct (Z.ltb_spec n (size f)); cbn [concat]; rewrite !length_of_app; [|lia].
    unfold size in *. rewrite length_drop. lia. }
  assert (readable b1 = readable b + n) as Hb1.
  { unfold b1, readable, fill, commit, write_at_last. cbn -[size]. rewrite size_take; lia. }
  assert (exists k' c' b', drain_inbound_loop fuel c1 b1 (k + n) = Some (k', c', b') /\ k + n <= k' /\
    readable b' = readable b1 + (k' - (k + n)) /\ size (concat c') = size (concat c1) - (k' - (k + n))) as (k' & c' & b' & E & ?).
  { unfold c1 in *. destruct (Z.ltb_spec n (size f)) as [Hlt|Hge]; [|apply IH; cbn [length] in *; lia].
    destruct fuel as [|fuel]; [cbn in Hf; lia|]. cbn [drain_inbound_loop].
    assert (writable b1 <= 0) as Hfull by (unfold b1; rewrite writable_fill, size_take; lia).
    rewrite (proj2 (Z.leb_le _ _) Hfull). do 3 eexists. split; [reflexivity|lia]. }
  exists k', c', b'. split; [done|]. lia.
Qed.

Lemma drain_inbound_ends b s :
  ends (drain_inbound b s) (fun r s' => 0 <= r.1 /\ readable (r.2) = readable b + r.1 /\ available s' = available s - r.1).
Proof.
  unfold drain_inbound.
  destruct (drain_inbound_loop_ends (S (S (length (inbound_bufs_ s)))) (inbound_bufs_ s) b 0 ltac:(lia)) as (k & c & b' & -> & Hk & Hr & Hc).
  cbn -[size]. unfold available in *. rewrite !length_of_app. destruct s; cbn -[size] in *. lia.
Qed.

Lemma grow_ends {P} (replace : P -> Buffer -> Buffer -> option (ParseCode * P * Buffer)) b g ps s :
  (forall n c ps' b', replace ps b (new_buffer n) = Some (c, ps', b') -> readable b' = 0) ->
  ends (grow_header_buffer options replace b g ps s) (fun r s' => readable (r.1.1) = 0 /\ available s' = available s).
Proof.
  intros Hrep. unfold grow_header_buffer. destruct (_ =? 0); [done|]. apply ends_bind.
  eapply ends_mono; [apply allocate_ends|]. intros ok s' Hs. destruct ok; [|done]. cbn [negb].
  destruct (replace ps b (new_buffer _)) as [[[c ps'] b']|] eqn:E; [|done]. cbn. destruct (bool_decide _); [|by destruct (bool_decide _)].
  cbn. split; [by eapply Hrep|done].
Qed.

(** The bytes still to be parsed. *)
Definition unparsed (b : Buffer) (s : Session) : Z := readable b + available s.

(** A refill brings the loops closer to their end. *)
Lemma refill_ends {P} (replace : P -> Buffer -> Buffer -> option (ParseCode * P * Buffer)) b g ps s :
  (forall n c ps' b', replace ps b (new_buffer n) = Some (c, ps', b') -> readable b' = 0) -> 0 <= readable b ->
  ends (refill options replace b g ps s)
    (fun r s' => match r with
       | inl (b', _, _) => 0 <= readable b' /\ work b' s' < work b s /\ unparsed b' s' <= unparsed b s
       | inr code => code <> Ok
       end).
Proof.
  intros Hrep Hb. unfold refill. apply ends_bind. eapply (ends_mono _ (fun r s' => match r with
    | inl (b', _, _) => available s' = available s /\ 0 <= readable b' <= readable b | inr code => code <> Ok end)).
  - destruct (_ =? 0); [|cbn; lia]. apply ends_bind. unfold attempt.
    pose proof (grow_ends replace b g ps s Hrep) as Hg.
    destruct (grow_header_buffer options replace b g ps s) as [[[b' g'] ps']|e s'| |] eqn:E; cbn in *; [lia| |done|done].
    by destruct (next_header_capacity _ _ _ =? 0).
  - intros [[[b1 g1] ps1]|code] s1; [|done]. intros [Hs Hb1]. apply ends_bind.
    eapply ends_mono; [apply drain_inbound_ends|]. intros [n b2] s2 (Hn & Hr2 & Ha2). cbn [fst snd] in *.
    destruct (Z.eqb_spec n 0) as [->|Hnz].
    + apply ends_bind. eapply ends_mono; [apply read_into_ends|]. intros [k b3] s3 (Hr3 & Hk & Ha3). cbn [fst snd] in *.
      destruct (Z.eqb_spec k 0) as [|Hk0]; [done|]. cbn. unfold work, unparsed, available in *. lia.
    + cbn. unfold work, unparsed, available in *. lia.
Qed.

Lemma length_readable_bytes b : 0 <= readable b -> size (readable_bytes b) <= readable b.
Proof. intros. unfold size, readable_bytes, bytes_between. rewrite length_take. unfold readable in *. lia. Qed.

Lemma replace_line_readable ps b n c ps' b' :
  RequestLine.replace_buf_ptr ps b (new_buffer n) = Some (c, ps', b') -> readable b' = 0.
Proof.
  unfold RequestLine.replace_buf_ptr. intros H. repeat case_match; try discriminate H; injection H as _ _ <-; [done|].
  unfold readable, consume, commit, write_at_last, new_buffer. cbn. lia.
Qed.

Lemma replace_header_readable ps b n c ps' b' :
  HeaderLine.replace_buf_ptr ps b (new_buffer n) = Some (c, ps', b') -> readable b' = 0.
Proof.
  unfold HeaderLine.replace_buf_ptr. intros H. repeat case_match; try discriminate H; injection H as _ _ <-; [done|].
  unfold readable, consume, commit, write_at_last, new_buffer. cbn. lia.
Qed.

Lemma exec_loop_done_pos bb bs p s l p' l' :
  RequestLine.exec_loop bb bs p s l = RequestLine.LoopDone p' l' -> p <= p' < p + size bs.
Proof.
  revert p s l. induction bs as [|ch bs IH]; intros p s l; cbn [RequestLine.exec_loop]; [discriminate|].
  unfold size in *. cbn [length]. destruct (RequestLine.step bb s ch p l); [|intros [= <- _]; lia|discriminate].
  intros H. apply IH in H. lia.
Qed.

Lemma exec_loop_done_pos_header bs p s h i l p' h' i' l' :
  HeaderLine.exec_loop bs p s h i l = HeaderLine.LoopDone p' h' i' l' -> p <= p' < p + size bs.
Proof.
  revert p s h i l. induction bs as [|ch bs IH]; intros p s h i l; cbn [HeaderLine.exec_loop]; [discriminate|].
  unfold size in *. cbn [length]. destruct (HeaderLine.step s ch p h i l); [|intros [= <- _ _ _]; lia|discriminate..].
  intros H. apply IH in H. lia.
Qed.

Lemma exec_loop_header_done_pos bs p s h i l p' l' :
  HeaderLine.exec_loop bs p s h i l = HeaderLine.LoopHeaderDone p' l' -> p <= p' < p + size bs.
Proof.
  revert p s h i l. induction bs as [|ch bs IH]; intros p s h i l; cbn [HeaderLine.exec_loop]; [discriminate|].
  unfold size in *. cbn [length]. destruct (HeaderLine.step s ch p h i l); [|discriminate|intros [= <- _]; lia|discriminate].
  intros H. apply IH in H. lia.
Qed.

(** A parser takes bytes from its buffer and adds none. *)
Lemma execute_readable ps b c ps' b' :
  0 <= readable b -> RequestLine.execute ps (Some b) = (c, ps', Some b') ->
  0 <= readable b' <= readable b /\ (c = Ok -> readable b' < readable b).
Proof.
  intros Hb. unfold RequestLine.execute. pose proof (length_readable_bytes b Hb) as Hl.
  destruct (_ =? 0); [intros [= <- _ <-]; split; [lia|discriminate]|].
  destruct (RequestLine.exec_loop _ _ _ _ _) as [s p l|p l|c0 l] eqn:E.
  - intros [= <- _ <-]. apply RequestLine.exec_loop_end_pos in E. unfold size, readable, consume in *. cbn [last pos].
    split; [lia|discriminate].
  - apply exec_loop_done_pos in E. unfold RequestLine.finish. intros H.
    assert (b' = consume (p + 1 - pos b) b) as -> by (repeat case_match; congruence).
    unfold readable, consume in *. cbn [last pos]. lia.
  - intros [= <- _ <-]. apply RequestLine.exec_loop_error in E as [_ ?]. by split; [lia|].
Qed.

Lemma execute_readable_header ps b c ps' b' :
  0 <= readable b -> HeaderLine.execute ps (Some b) = (c, ps', Some b') ->
  0 <= readable b' <= readable b /\ (c = Ok -> readable b' < readable b).
Proof.
  intros Hb. unfold HeaderLine.execute. pose proof (length_readable_bytes b Hb) as Hl.
  destruct (_ =? 0); [intros [= <- _ <-]; split; [lia|discriminate]|].
  destruct (HeaderLine.exec_loop _ _ _ _ _ _) as [s p h i l|p h i l|p l|c0 l] eqn:E.
  - intros [= <- _ <-]. apply HeaderLine.exec_loop_end_pos_header in E. unfold size, readable, consume in *. cbn [last pos].
    split; [lia|discriminate].
  - intros [= <- _ <-]. apply exec_loop_done_pos_header in E. unfold readable, consume in *. cbn [last pos].
    split; [lia|lia].
  - intros [= <- _ <-]. apply exec_loop_header_done_pos in E. unfold readable, consume in *. cbn [last pos].
    by split; [lia|].
  - intros [= <- _ <-]. apply HeaderLine.exec_loop_error_header in E as ->. by split; [lia|].
Qed.

Lemma execute_some ps b c ps' o : RequestLine.execute ps (Some b) = (c, ps', o) -> o <> None.
Proof.
  unfold RequestLine.execute, RequestLine.finish. intros H ->. repeat case_match; discriminate H.
Qed.

Lemma execute_some_header ps b c ps' o : HeaderLine.execute ps (Some b) = (c, ps', o) -> o <> None.
Proof. unfold HeaderLine.execute. intros H ->. repeat case_match; discriminate H. Qed.

Lemma request_line_loop_ends fuel b g ps s :
  0 <= readable b -> work b s < Z.of_nat fuel ->
  ends (request_line_loop options fuel b g ps s) (fun r s' => match r with
    | inl (b', _) => 0 <= readable b' /\ unparsed b' s' < unparsed b s
    | inr code => code <> Ok
    end).
Proof.
  revert b g ps s. induction fuel as [|fuel IH]; intros b g ps s Hb Hf.
  { pose proof (length_of_nonneg (concat (inbound_bufs_ s) ++ stream s)). unfold work in Hf. lia. }
  cbn [request_line_loop]. destruct (RequestLine.execute ps (Some b)) as [[c ps'] [b'|]] eqn:E; [|by apply execute_some in E].
  apply execute_readable in E as [E Hok]; [|done]. destruct c; try done.
  - specialize (Hok eq_refl). apply ends_bind. cbn [modify ends]. cbn [ret ends]. split; [lia|].
    unfold unparsed, available. destruct s. cbn -[size]. lia.
  - apply ends_bind. eapply ends_mono; [apply refill_ends; [intros; by eapply replace_line_readable|lia]|].
    intros [[[b2 g2] ps2]|code] s2; [|done]. intros (Hb2 & Hw2 & Hu2).
    eapply ends_mono; [apply IH; [done|]|]; [unfold work in *; lia|]. intros [[b3 g3]|code] s3; [|done].
    intros [Hb3 Hu3]. split; [done|]. unfold unparsed in *. lia.
Qed.

Lemma finish_head_ends b g s :
  0 <= readable b -> ends (finish_head b g s) (fun c s' => c = Ok /\ available s' <= unparsed b s).
Proof.
  intros Hb. unfold finish_head. apply ends_bind. eapply ends_mono; [apply memory_ends|]. intros [] s1 Hs1; [|done].
  cbn [negb]. apply ends_bind. cbn [modify ends]. set (s2 := set_header_bufs _ s1).
  assert (available s2 = available s) as Hs2 by (rewrite <-Hs1; by destruct s1). clearbody s2.
  destruct (0 <? readable b); [|cbn [ret ends]; split; [done|unfold unparsed; lia]]. apply ends_bind.
  pose proof (length_readable_bytes b Hb) as Hl.
  assert (forall s3, available s3 = available s2 ->
    available (set_inbound (inbound_bufs_ s3 ++ [readable_bytes b]) s3) <= unparsed b s) as Happ.
  { intros s3 Hs3. unfold unparsed. rewrite <-Hs2, <-Hs3. unfold available. destruct s3. cbn -[size readable readable_bytes].
    rewrite concat_app, !length_of_app. cbn [concat]. rewrite app_nil_r. lia. }
  unfold append_inbound, bind, memory. destruct (allocs s2) as [|[] l] eqn:Ha; cbn [negb modify ret ends]; [| |done].
  - split; [done|by apply Happ].
  - split; [done|apply Happ]. by destruct s2.
Qed.

Lemma header_loop_ends fuel m b g ps s :
  0 <= readable b -> work b s < Z.of_nat fuel ->
  ends (header_loop options fuel m b g ps s) (fun c s' => c = Ok -> available s' <= unparsed b s).
Proof.
  revert b g ps s. induction fuel as [|fuel IH]; intros b g ps s Hb Hf.
  { pose proof (length_of_nonneg (concat (inbound_bufs_ s) ++ stream s)). unfold work in Hf. lia. }
  cbn [header_loop]. destruct (HeaderLine.execute ps (Some b)) as [[c ps'] [b'|]] eqn:E; [|by apply execute_some_header in E].
  apply execute_readable_header in E as (Hb' & Hok); [|done]. destruct c; try done.
  - specialize (Hok eq_refl). destruct (name_span _) as [[a e]|]; [|done].
    apply ends_bind. eapply ends_mono; [apply memory_ends|]. intros [] s1 Ha; [|done]. cbn [negb].
    apply ends_bind. cbn [gets ends]. apply ends_bind. destruct (add_request_header _ _ _ _ _ _) as [[x|x|x]|]; [|done..].
    cbn [asserting ret ends]. apply ends_bind. cbn [modify ends]. set (s2 := add_views _ _).
    assert (available s2 = available s) as Hs2 by (rewrite <-Ha; by destruct s1). clearbody s2.
    eapply ends_mono; [apply IH; [lia|unfold work, available in *; lia]|].
    intros c s' H Hc. specialize (H Hc). unfold unparsed in *. lia.
  - apply ends_bind.
    eapply ends_mono; [apply refill_ends; [intros; by eapply replace_header_readable|lia]|].
    intros [[[b2 g2] ps2]|code] s2; [|by intros Hc ?]. intros (Hb2 & Hw2 & Hu2).
    eapply ends_mono; [apply IH; [done|unfold work in *; lia]|]. intros c s' H Hc. specialize (H Hc). unfold unparsed in *. lia.
  - eapply ends_mono; [apply finish_head_ends; lia|]. intros c s' [_ H] _. unfold unparsed in *. lia.
Qed.

Lemma parse_request_ends s :
  ends (parse_request options s) (fun c s' => c = Ok -> available s' < available s).
Proof.
  unfold parse_request. apply ends_bind. eapply ends_mono; [apply allocate_ends|]. intros [] s1 Hs1; [|done].
  cbn [negb]. apply ends_bind. cbn [gets ends]. apply ends_bind. set (b := new_buffer _).
  assert (readable b = 0) as Hb by done. pose proof (loop_fuel_work b s1 ltac:(lia)) as Hfuel.
  eapply ends_mono; [apply request_line_loop_ends; lia|]. intros [[b1 g1]|code] s2; [intros [Hb1 Hu1]|by intros Hc ?].
  apply ends_bind. destruct header_handler_map as [m|]; [|done]. cbn [asserting ret ends]. apply ends_bind. cbn [gets ends].
  pose proof (loop_fuel_work b1 s2 Hb1). eapply ends_mono; [apply header_loop_ends; [done|lia]|].
  intros c s' Hle Hc. specialize (Hle Hc). unfold unparsed in *. lia.
Qed.

(** C24. Reading a request head always comes to an end: with the fuel of the model
    every run of [parse_request] gives a code, an error or an abort, whatever is
    received, in whatever pieces, and whatever the transport and the allocator do.
    (Every round of its loops parses a byte or takes one from the chain or from
    the peer.) *)
Theorem parse_request_terminates (s : Session) :
  ends (parse_request options s) (fun _ _ => True).
Proof. eapply ends_mono; [apply parse_request_ends|done]. Qed.

End termination.

(** ** Runs *)



(** Twenty bytes behind the head arrived in the same buffer as the head.  What the
    parse buffer took of them is appended behind the rest: the next request on the
    connection starts with byte 7. *)
Lemma pipelined_bytes_reordered :
  let options := mkOptions 32 64 4 false in
  let head := crlf_lines ["GET /a HTTP/1.1"; "A: b"; ""]%string in
  let next := map Z.of_nat (seq 1 20) in
  match parse_request (store := http_headers []) options (start_session options [head ++ next] [] []) with
  | Returns Ok s => inbound_bufs_ s = [map Z.of_nat (seq 8 13); map Z.of_nat (seq 1 7)]
  | _ => False
  end.
Proof. vm_compute. reflexivity. Qed.

(** The buffer of the request line is replaced while the header is read: the
    method, the target and the version are views of buffer 0, and the exchange
    keeps buffer 1 only. *)
Lemma request_line_views_dangle :
  let options := mkOptions 20 64 4 false in
  let head := crlf_lines ["GET /a HTTP/1.1"; "Host: x"; ""]%string in
  match parse_request (store := http_headers []) options (start_session options [head] [] []) with
  | Returns Ok s => In (mkView 0 4 6) (views s) /\ map fst (header_bufs_ s) = [1]
  | _ => False
  end.
Proof. vm_compute. split; [|reflexivity]. repeat (first [by left|right]). Qed.

Example parse_small :
  let t := crlf_lines ["GET /a?b HTTP/1.1"; "Host: x"; "Content-Length: 3"; ""]%string in
  match parse_request (store := http_headers []) small_options
          (start_session small_options [] (t ++ [1; 2; 3; 4]) [Gives 5; Gives 3; Gives 30]) with
  | Returns Ok s => (inbound_bufs_ s, stream s, @listing (http_headers []) (request_headers_ (exchange s)),
                     request_content_length_ (exchange s), query (uri_ (exchange s)), version_view_ (exchange s), method_ (exchange s))
  | _ => ([], [], [], 0, [], [], MUnknown)
  end = ([[1; 2; 3; 4]], [],
         [(bytes_of_string "Host", bytes_of_string "x"); (bytes_of_string "Content-Length", bytes_of_string "3")], 3,
         bytes_of_string "b", bytes_of_string "HTTP/1.1", MGet).
Proof. vm_compute. reflexivity. Qed.

End Connection1.
