(* ===== verification/Http1Body.v ===== *)
(** * Reading a request body
    (the request side of [Http1ExchangeIo], [src/http/Http1ExchangeIo.cpp])

    The body is taken from the bytes received ahead (the inbound chain), then from
    [read_buf_], then from the transport.  [read_body] hands out one piece; the
    body parser (file Http1Chunked) keeps what is left of the body or of the
    current chunk.  [read_request_trailers] parses the fields behind the last
    chunk. *)
From S2P Require Import Prelude Http1Detail IoError HttpHeaders HeaderStore HttpExchange.
From S2P Require Import Http1HeaderLine Http1Chunked Http1Input Http1Connection.
Import IoError Exchange Input.

Module RequestBody.

Definition kMaxDirectBodyRead : Z := 64 * 1024.

(** [HttpExchange]'s piece of a body: the buffers of the chain. *)
Record BodyChunk := mkChunk { last : bool; data_chain : list (list Z) }.

(** What [front_body_input] points to. *)
Inductive BodyInput := InboundFront (bs : list Z) | ReadBufFront (bs : list Z) | NoInput.

Section body.
Context `{store : HeaderStore}.
Context (options : HttpServerOptions).
Local Abbreviation Io := (@Io store).
#[local] Open Scope input_scope.

(** The constructor: how the body is framed. *)
Definition body_parser_of (x : HttpExchange) : Body.BodyParser :=
  if request_chunked_ x then Body.set_chunked
  else if negb (request_content_length_set_ x) || (request_content_length_ x =? 0) then Body.set_none
  else Body.set_content_length (request_content_length_ x).

Definition construct_io (s : Session) : Session :=
  set_used_io false (set_read_buf None (set_body_parser (body_parser_of (exchange s)) s)).

Definition request_body_complete (s : Session) : bool := Body.done_ (body_parser_ s).

(** ** The read buffer *)

Definition unread_bytes (s : Session) : list Z :=
  match read_buf_ s with Some r => unread r | None => [] end.

Definition unique : Io bool := fun s =>
  match owners s with [] => Returns true s | b :: l => Returns b (set_owners l s) end.

Definition new_read_buf (capacity : Z) (bs : list Z) : Io unit :=
  ok <- allocate capacity;;
  if negb ok then fail NoMem
  else modify (set_read_buf (Some (mkReadBuf bs (capacity - size bs) capacity))).

Definition ensure_read_buf_writable (min_writable : Z) : Io unit :=
  if min_writable =? 0 then ret tt else
  buf <- gets read_buf_;;
  match buf with
  | None => new_read_buf min_writable []
  | Some r =>
      if size (unread r) =? 0 then
        alone <- unique;;
        if alone && (min_writable <=? block r)
        then modify (set_read_buf (Some (mkReadBuf [] (block r) (block r))))
        else new_read_buf min_writable []
      else if min_writable <=? room r then ret tt
      else new_read_buf (u64 (size (unread r) + min_writable)) (unread r)
  end.

Definition commit_read (bs : list Z) (r : ReadBuf) : ReadBuf := mkReadBuf (unread r ++ bs) (room r - size bs) (block r).
Definition consume_read (n : Z) (r : ReadBuf) : ReadBuf := mkReadBuf (drop (Z.to_nat n) (unread r)) (room r) (block r).

Definition on_read_buf (f : ReadBuf -> ReadBuf) (s : Session) : Session := set_read_buf (f <$> read_buf_ s) s.

(** A read of no bytes still marks the call as having read. *)
Definition read_more (max_bytes : Z) : Io Z :=
  let read_size := Z.min max_bytes kMaxDirectBodyRead in
  if read_size =? 0 then ret 0 else
  ensure_read_buf_writable read_size;;
  bs <- read_some read_size;;
  modify (fun s => on_read_buf (commit_read bs) (set_used_io true s));;
  ret (size bs).

Definition spill_read_buf_to_inbound : Io unit :=
  bs <- gets unread_bytes;;
  if size bs =? 0 then ret tt else
  ok <- append_inbound bs;;
  if negb ok then fail NoMem else modify (on_read_buf (consume_read (size bs))).

(** ** The input of the body *)

Definition body_input_readable (s : Session) : Z := readable_size (inbound_bufs_ s) + size (unread_bytes s).

Definition front_body_input : Io BodyInput := fun s =>
  let c := drop_empty_front (inbound_bufs_ s) in
  let s := set_inbound c s in
  match front c with
  | Some f => Returns (InboundFront f) s
  | None => Returns (if 0 <? size (unread_bytes s) then ReadBufFront (unread_bytes s) else NoInput) s
  end.

Definition consume_inbound (n : Z) (s : Session) : Session := set_inbound (consume_and_compact n (inbound_bufs_ s)) s.

(** [out.append] needs a node. *)
Definition append_piece (out : list (list Z)) (piece : list Z) : Io (list (list Z)) :=
  ok <- memory;;
  if negb ok then fail NoMem else ret (out ++ [piece]).

Fixpoint take_prefix_loop (fuel : nat) (out : list (list Z)) (len : Z) : Io (list (list Z)) :=
  if len <=? 0 then ret out else
  match fuel with
  | O => out_of_fuel
  | S fuel' =>
      source <- front_body_input;;
      match source with
      | InboundFront f =>
          let n := Z.min len (size f) in
          out <- append_piece out (take (Z.to_nat n) f);;
          modify (consume_inbound n);;
          take_prefix_loop fuel' out (len - n)
      | ReadBufFront bs =>
          let n := Z.min len (size bs) in
          out <- append_piece out (take (Z.to_nat n) bs);;
          modify (on_read_buf (consume_read n));;
          take_prefix_loop fuel' out (len - n)
      | NoInput => fail Invalid
      end
  end.

(** The pieces of the next [len] bytes; every round takes a buffer or the end. *)
Definition take_prefix (out : list (list Z)) (len : Z) : Io (list (list Z)) := fun s =>
  take_prefix_loop (S (S (length (inbound_bufs_ s)))) out len s.

(** Copies as much of the input as there is room for. *)
Fixpoint drain_body_loop (fuel : nat) (b : Buffer) (copied : Z) : Io (Z * Buffer) :=
  if writable b <=? 0 then ret (copied, b) else
  match fuel with
  | O => out_of_fuel
  | S fuel' =>
      source <- front_body_input;;
      match source with
      | InboundFront f =>
          let n := Z.min (size f) (writable b) in
          modify (consume_inbound n);;
          drain_body_loop fuel' (fill (take (Z.to_nat n) f) b) (copied + n)
      | ReadBufFront bs =>
          let n := Z.min (size bs) (writable b) in
          modify (on_read_buf (consume_read n));;
          drain_body_loop fuel' (fill (take (Z.to_nat n) bs) b) (copied + n)
      | NoInput => ret (copied, b)
      end
  end.

Definition drain_body_input (b : Buffer) : Io (Z * Buffer) := fun s =>
  drain_body_loop (S (S (length (inbound_bufs_ s)))) b 0 s.

(** ** Chunks *)

(** A cursor on the readable bytes of a buffer. *)
Definition cursor_of (bs : list Z) : Buffer := mkBuffer bs 0 (size bs) (size bs).

(** The code of the parser and the number of bytes it took. *)
Definition parse_input (bs : list Z) (consume : Z -> Session -> Session) : Io (ParseCode * Z) :=
  parser <- gets body_parser_;;
  let '(code, parser, cursor) := Body.execute parser (Some (cursor_of bs)) in
  let consumed := size bs - match cursor with Some c => readable c | None => 0 end in
  modify (set_body_parser parser);;
  (if 0 <? consumed then modify (consume consumed) else ret tt);;
  ret (code, consumed).

Definition parse_front (source : BodyInput) : Io (option (ParseCode * Z)) :=
  match source with
  | InboundFront f => r <- parse_input f consume_inbound;; ret (Some r)
  | ReadBufFront bs => r <- parse_input bs (fun n => on_read_buf (consume_read n));; ret (Some r)
  | NoInput => ret None
  end.

Fixpoint advance_loop (fuel : nat) (max_bytes : Z) (allow_read : bool) : Io ParseCode :=
  match fuel with
  | O => out_of_fuel
  | S fuel' =>
      source <- front_body_input;;
      parsed <- parse_front source;;
      match parsed with
      | None =>
          if negb allow_read then ret Again else
          more <- read_more max_bytes;;
          if more =? 0 then fail ConnReset else advance_loop fuel' max_bytes false
      | Some (Again, consumed) => if consumed =? 0 then fail Invalid else advance_loop fuel' max_bytes allow_read
      | Some (Ok, _) => ret Ok
      | Some (Done, _) => ret Done
      | Some (BodyDone, _) => ret BodyDone
      | Some _ => fail Invalid
      end
  end.

(** Bytes of the input of the body, received or not. *)
Definition body_stream (s : Session) : list Z := concat (inbound_bufs_ s) ++ unread_bytes s ++ stream s.

(** Every round but the one that reads takes a byte. *)
Definition advance_chunked_body (max_bytes : Z) (allow_read : bool) : Io ParseCode := fun s =>
  advance_loop (S (S (length (body_stream s)))) max_bytes allow_read s.

(** ** Trailers *)

Fixpoint trailer_loop (fuel : nat) (b : Buffer) (growth_count : Z) (ps : HeaderLine.HeaderLineParser) : Io unit :=
  match fuel with
  | O => out_of_fuel
  | S fuel' =>
      match HeaderLine.execute ps (Some b) with
      | (Again, ps, Some b) =>
          grown <- (if writable b =? 0
                    then grow_header_buffer options HeaderLine.replace_buf_ptr b growth_count ps
                    else ret (b, growth_count, ps));;
          let '(b, growth_count, ps) := grown in
          drained <- drain_body_input b;;
          let '(copied, b) := drained in
          if copied =? 0 then
            more <- read_into b;;
            let '(n, b) := more in
            if n =? 0 then fail ConnReset else trailer_loop fuel' b growth_count ps
          else trailer_loop fuel' b growth_count ps
      | (Ok, ps, Some b) =>
          let l := HeaderLine.line_ ps in
          match name_span l with
          | None => fail Invalid
          | Some (a, e) =>
              x <- gets exchange;;
              let '(added, t) := add_field (request_trailers_ x) (bytes_between b a e) (text_of b (value_span l)) in
              modify (set_exchange (with_request_trailers t (request_trailers_complete_ x) x));;
              if negb added then fail NoMem else trailer_loop fuel' b growth_count ps
          end
      | (HeaderDone, _, Some b) =>
          (if 0 <? readable b then
             ok <- append_inbound (readable_bytes b);;
             if negb ok then fail NoMem else ret tt
           else ret tt);;
          spill_read_buf_to_inbound;;
          modify (fun s => set_exchange (with_request_trailers (request_trailers_ (exchange s)) true (exchange s))
                             (set_body_parser (Body.finish_chunked_trailers (body_parser_ s)) s))
      | _ => fail Invalid
      end
  end.

Definition trailer_fuel (b : Buffer) (s : Session) : nat := (2 * length (body_stream s) + Z.to_nat (readable b) + 1)%nat.

Definition read_request_trailers : Io unit :=
  ok <- allocate (header_init_size options);;
  if negb ok then fail NoMem else
  let b := new_buffer (header_init_size options) in
  fuel <- gets (trailer_fuel b);;
  trailer_loop fuel b 0 (HeaderLine.mkParser HeaderLine.Start HeaderLine.initial_line 0 0).

(** ** [read_body] *)

Definition remaining (s : Session) : Z := Body.remaining (body_parser_ s).

(** Some input, by one read if there is none. *)
Definition some_input (max_bytes : Z) : Io unit :=
  n <- read_more max_bytes;; if n =? 0 then fail ConnReset else ret tt.

(** The next piece of a chunk or of a sized body: how long it is. *)
Definition take_piece (out : list (list Z)) (budget : Z) : Io (Z * list (list Z)) :=
  n <- gets (fun s => Z.min budget (Z.min (remaining s) (body_input_readable s)));;
  out <- take_prefix out n;;
  modify (fun s => set_body_parser (Body.consume n (body_parser_ s)) s);;
  ret (n, out).

(** The data of the current chunk, and then the [next] round. *)
Definition chunk_data (next : list (list Z) -> Z -> Io BodyChunk) (out : list (list Z)) (budget : Z) : Io BodyChunk :=
  readable <- gets body_input_readable;;
  used <- gets read_call_used_io_;;
  if (readable =? 0) && used then ret (mkChunk false out) else
  left_in_chunk <- gets remaining;;
  (if readable =? 0 then some_input (Z.min budget left_in_chunk) else ret tt);;
  taken <- take_piece out budget;;
  let '(n, out) := taken in
  left_in_chunk <- gets remaining;;
  if (budget - n =? 0) || (0 <? left_in_chunk) then ret (mkChunk false out) else next out (budget - n).

Fixpoint chunked_loop (fuel : nat) (out : list (list Z)) (budget : Z) : Io BodyChunk :=
  match fuel with
  | O => out_of_fuel
  | S fuel' =>
      left_in_chunk <- gets remaining;;
      used <- gets read_call_used_io_;;
      code <- (if left_in_chunk =? 0 then advance_chunked_body budget (negb used) else ret Ok);;
      match code with
      | BodyDone => read_request_trailers;; ret (mkChunk true out)
      | Again => ret (mkChunk false out)
      | _ => chunk_data (chunked_loop fuel') out budget
      end
  end.

Definition complete_without_trailers (s : Session) : Session :=
  set_exchange (with_request_trailers (request_trailers_ (exchange s)) true (exchange s)) s.

Definition read_sized_body (max_bytes : Z) : Io BodyChunk :=
  readable <- gets body_input_readable;;
  left_in_body <- gets remaining;;
  (if readable =? 0 then some_input (Z.min max_bytes left_in_body) else ret tt);;
  taken <- take_piece [] max_bytes;;
  done <- gets request_body_complete;;
  if done then modify complete_without_trailers;; ret (mkChunk true (snd taken))
  else ret (mkChunk false (snd taken)).

Definition read_body (max_bytes : Z) : Io BodyChunk :=
  done <- gets request_body_complete;;
  if done then modify complete_without_trailers;; ret (mkChunk true []) else
  if max_bytes =? 0 then ret (mkChunk false []) else
  modify (set_used_io false);;
  parser <- gets body_parser_;;
  match Body.type_ parser with
  | Body.TChunked => fuel <- gets (fun s => S (length (body_stream s)));; chunked_loop fuel [] max_bytes
  | _ => read_sized_body max_bytes
  end.

(** [HttpExchange::discard_body]; every call takes a byte. *)
Fixpoint discard_loop (fuel : nat) : Io unit :=
  match fuel with
  | O => out_of_fuel
  | S fuel' =>
      chunk <- read_body 4096;;
      if last chunk then ret tt else discard_loop fuel'
  end.

Definition discard_body : Io unit := fun s => discard_loop (S (length (body_stream s))) s.

End body.

(** ** Taking input *)

Section input.
Context `{store : HeaderStore}.
Context (options : HttpServerOptions).

(** The bytes received but not handed out. *)
Definition ahead (s : Session) : list Z := concat (inbound_bufs_ s) ++ unread_bytes s.

(** Everything but the input is as before. *)
Definition kept (s s' : Session) : Prop :=
  body_parser_ s' = body_parser_ s /\ exchange s' = exchange s /\ allocs s' = allocs s.

Lemma kept_refl s : kept s s.
Proof. done. Qed.

Lemma kept_trans s1 s2 s3 : kept s1 s2 -> kept s2 s3 -> kept s1 s3.
Proof. unfold kept. intros (?&?&?) (?&?&?). repeat split; congruence. Qed.

Lemma body_stream_ahead s : body_stream s = ahead s ++ stream s.
Proof. unfold body_stream, ahead. by rewrite app_assoc. Qed.

Lemma body_input_readable_ahead s : body_input_readable s = size (ahead s).
Proof. unfold body_input_readable, ahead, readable_size. by rewrite length_of_app. Qed.

Lemma concat_drop_empty_front c : concat (drop_empty_front c) = concat c.
Proof. induction c as [|[|z f] c IH]; [done|exact IH|done]. Qed.

Lemma length_drop_empty_front c : (length (drop_empty_front c) <= length c)%nat.
Proof. induction c as [|[|z f] c IH]; cbn in *; lia. Qed.

Lemma concat_consume n f c :
  0 < n <= size f -> concat (consume_and_compact n (f :: c)) = drop (Z.to_nat n) (f ++ concat c).
Proof.
  intros Hn. rewrite consume_front by done. destruct (Z.ltb_spec n (size f)); cbn.
  - rewrite drop_app_le by (unfold size in *; lia). done.
  - rewrite drop_app_ge by (unfold size in *; lia). replace (_ - _)%nat with 0%nat by (unfold size in *; lia). done.
Qed.

(** The first bytes of the input, from the inbound chain or from the read buffer. *)
Lemma front_body_input_spec s :
  exists source, front_body_input s = Returns source (set_inbound (drop_empty_front (inbound_bufs_ s)) s) /\
    match source with
    | InboundFront f => 0 < size f /\ exists c, drop_empty_front (inbound_bufs_ s) = f :: c
    | ReadBufFront bs => drop_empty_front (inbound_bufs_ s) = [] /\ bs = unread_bytes s /\ 0 < size bs
    | NoInput => ahead s = []
    end.
Proof.
  unfold front_body_input. destruct (drop_empty_front (inbound_bufs_ s)) as [|f c] eqn:Hd; cbn [front head].
  - replace (unread_bytes (set_inbound [] s)) with (unread_bytes s) by (by destruct s).
    destruct (Z.ltb_spec 0 (size (unread_bytes s))) as [Hu|Hu]; eexists; (split; [reflexivity|]); [done|].
    unfold ahead. rewrite <-concat_drop_empty_front, Hd. cbn. destruct (unread_bytes s); [done|]. unfold size in Hu. cbn in Hu. lia.
  - eexists. split; [reflexivity|]. split; [|by exists c].
    assert (forall c0, match drop_empty_front c0 with [] :: _ => False | _ => True end) as Hne
      by (induction c0 as [|[|z g] c0 IH]; done).
    specialize (Hne (inbound_bufs_ s)). rewrite Hd in Hne. apply size_positive. by destruct f.
Qed.

(** What [consume] leaves of the input, from either source. *)
Lemma consume_inbound_ahead n f c s :
  inbound_bufs_ s = f :: c -> 0 < n <= size f ->
  ahead (consume_inbound n s) = drop (Z.to_nat n) (ahead s).
Proof.
  intros Hc Hn. unfold ahead, consume_inbound. rewrite Hc. destruct s as [i ? ? ? ? ? ? ? ? [r|] ?]; cbn [inbound_bufs_ set_inbound unread_bytes read_buf_] in *.
  all: rewrite concat_consume by done; cbn [concat]; rewrite (drop_app_le (f ++ concat c)); [done|rewrite length_app; unfold size in *; lia].
Qed.

Lemma consume_read_ahead n s :
  inbound_bufs_ s = [] -> ahead (on_read_buf (consume_read n) s) = drop (Z.to_nat n) (ahead s).
Proof.
  intros Hc. unfold ahead, on_read_buf, unread_bytes. destruct s as [i ? ? ? ? ? ? ? ? [r|] ?]; cbn in *; subst; cbn; [done|by rewrite drop_nil].
Qed.

Lemma append_piece_spec out piece s : allocs s = [] -> append_piece out piece s = Returns (out ++ [piece]) s.
Proof. intros Ha. unfold append_piece, memory, bind. by rewrite Ha. Qed.

(** A chain without empty buffers stays one, and gets no longer. *)
Definition chain_shrinks (c c' : list (list Z)) : Prop :=
  (nonempty c -> nonempty c') /\ size (concat c') <= size (concat c).

Lemma nonempty_drop_front c : nonempty c -> nonempty (drop_empty_front c).
Proof. induction 1 as [|f c Hf Hc IH]; cbn; [constructor|]. destruct f; [done|]. by constructor. Qed.

(** How [take_prefix] and [drain_body_input] change the input: [n] bytes are gone,
    and nothing moves between its two parts. *)
Record took (n : Z) (s s' : Session) : Prop := mkTook {
  took_ahead : ahead s' = drop (Z.to_nat n) (ahead s);
  took_kept : kept s s';
  took_stream : stream s' = stream s /\ reads s' = reads s;
  took_unread : unread_bytes s = [] -> unread_bytes s' = [];
  took_inbound : concat (inbound_bufs_ s) = [] -> concat (inbound_bufs_ s') = [];
  took_chain : chain_shrinks (inbound_bufs_ s) (inbound_bufs_ s');
  took_length : (length (inbound_bufs_ s') <= length (inbound_bufs_ s))%nat }.

Lemma chain_shrinks_refl c : chain_shrinks c c.
Proof. by split. Qed.

Lemma chain_shrinks_trans c1 c2 c3 : chain_shrinks c1 c2 -> chain_shrinks c2 c3 -> chain_shrinks c1 c3.
Proof. intros [] []. split; [auto|lia]. Qed.

Lemma chain_shrinks_front c : chain_shrinks c (drop_empty_front c).
Proof. split; [apply nonempty_drop_front|]. by rewrite concat_drop_empty_front. Qed.

Lemma took_none s : took 0 s s.
Proof. split; done. Qed.

Lemma took_trans n m s1 s2 s3 : 0 <= n -> 0 <= m -> took n s1 s2 -> took m s2 s3 -> took (n + m) s1 s3.
Proof.
  intros Hn Hm [] []. split; try naive_solver lia.
  - rewrite took_ahead1, took_ahead0, drop_drop. f_equal. lia.
  - by eapply kept_trans.
  - naive_solver congruence.
  - by eapply chain_shrinks_trans.
Qed.

Lemma took_inbound_front n s f c :
  drop_empty_front (inbound_bufs_ s) = f :: c -> 0 < n <= size f ->
  let s' := consume_inbound n (set_inbound (drop_empty_front (inbound_bufs_ s)) s) in
  took n s s' /\ (n = size f -> (length (inbound_bufs_ s') < length (inbound_bufs_ s))%nat).
Proof.
  intros Hd Hn s'. set (s1 := set_inbound (drop_empty_front (inbound_bufs_ s)) s) in *.
  assert (inbound_bufs_ s1 = f :: c) as Hi by (unfold s1; by rewrite <-Hd; destruct s).
  assert (ahead s1 = ahead s) as Ha by (unfold s1, ahead; destruct s; cbn; by rewrite concat_drop_empty_front).
  pose proof (consume_inbound_ahead n f c s1 Hi Hn) as Hc. rewrite Ha in Hc.
  pose proof (length_drop_empty_front (inbound_bufs_ s)) as Hl. rewrite Hd in Hl.
  assert (inbound_bufs_ s' = if n <? size f then drop (Z.to_nat n) f :: c else c) as Hs'
    by (unfold s'; unfold consume_inbound; rewrite Hi, consume_front by done; by destruct s1).
  split; [split|]; rewrite ?Hs'.
  - exact Hc.
  - by destruct s.
  - by destruct s.
  - by destruct s.
  - intros He. rewrite <-concat_drop_empty_front, Hd in He. destruct f; [unfold size in Hn; cbn in Hn; lia|discriminate He].
  - eapply chain_shrinks_trans; [apply chain_shrinks_front|]. rewrite Hd. split.
    + intros Hne. inversion_clear Hne. destruct (Z.ltb_spec n (size f)); [|done].
      constructor; [|done]. intros He%(f_equal length). rewrite length_drop in He. unfold size in *. cbn in He. lia.
    + destruct (n <? size f); cbn [concat]; unfold size in *; rewrite ?length_app, ?length_drop; lia.
  - destruct (n <? size f); cbn [length] in *; lia.
  - intros ->. rewrite Z.ltb_irrefl. cbn [length] in Hl. lia.
Qed.

Lemma took_read_buf n s :
  drop_empty_front (inbound_bufs_ s) = [] ->
  took n s (on_read_buf (consume_read n) (set_inbound (drop_empty_front (inbound_bufs_ s)) s)).
Proof.
  intros Hd. set (s1 := set_inbound _ s). assert (inbound_bufs_ s1 = []) as Hi by (unfold s1; by rewrite Hd; destruct s).
  pose proof (consume_read_ahead n s1 Hi) as Hc.
  assert (ahead s1 = ahead s) as Ha by (unfold s1, ahead; destruct s; cbn; by rewrite concat_drop_empty_front).
  assert (concat (inbound_bufs_ s) = []) as Hin by (by rewrite <-concat_drop_empty_front, Hd).
  split; [by rewrite Hc, Ha|by destruct s|by destruct s|..].
  - unfold s1. destruct s as [? ? ? ? ? ? ? ? ? [r|] ?]; cbn; [|done]. intros ->. by rewrite drop_nil.
  - unfold s1. destruct s; cbn in *. by rewrite Hd.
  - unfold s1. destruct s; cbn in *. apply chain_shrinks_front.
  - unfold s1. destruct s; cbn in *. rewrite Hd. cbn. lia.
Qed.

Lemma took_front s : took 0 s (set_inbound (drop_empty_front (inbound_bufs_ s)) s).
Proof.
  split; destruct s; cbn; try done.
  - unfold ahead. cbn. by rewrite concat_drop_empty_front.
  - by rewrite concat_drop_empty_front.
  - apply chain_shrinks_front.
  - apply length_drop_empty_front.
Qed.

Lemma ahead_prefix n f c s :
  drop_empty_front (inbound_bufs_ s) = f :: c -> n <= size f -> take (Z.to_nat n) (ahead s) = take (Z.to_nat n) f.
Proof.
  intros Hd Hn. unfold ahead. rewrite <-concat_drop_empty_front, Hd. cbn. rewrite <-app_assoc.
  apply take_app_le. unfold size in Hn. lia.
Qed.

Lemma ahead_read_buf s : drop_empty_front (inbound_bufs_ s) = [] -> ahead s = unread_bytes s.
Proof. intros Hd. unfold ahead. by rewrite <-concat_drop_empty_front, Hd. Qed.

Lemma take_take_rest (l : list Z) n m :
  0 <= n -> 0 <= m -> take (Z.to_nat n) l ++ take (Z.to_nat m) (drop (Z.to_nat n) l) = take (Z.to_nat (n + m)) l.
Proof. intros. rewrite take_take_drop. f_equal. lia. Qed.

Lemma take_prefix_loop_spec fuel out len s :
  allocs s = [] -> 0 <= len <= size (ahead s) -> len = 0 \/ (length (inbound_bufs_ s) < fuel)%nat ->
  gives (take_prefix_loop fuel out len s)
    (fun out' s' => concat out' = concat out ++ take (Z.to_nat len) (ahead s) /\ took len s s').
Proof.
  revert out len s. induction fuel as [|fuel IH]; intros out len s Ha Hlen Hfuel.
  - destruct Hfuel as [->|]; [|lia]. cbn. rewrite app_nil_r. split; [done|apply took_none].
  - cbn [take_prefix_loop]. destruct (Z.leb_spec len 0) as [Hz|Hp].
    { replace len with 0 by lia. cbn. rewrite app_nil_r. split; [done|apply took_none]. }
    apply gives_bind. destruct (front_body_input_spec s) as (source & -> & Hsrc). cbn [gives].
    destruct source as [f|bs|].
    + destruct Hsrc as [Hf [c Hd]]. set (n := Z.min len (size f)).
      destruct (took_inbound_front n s f c Hd ltac:(lia)) as [Ht Hl].
      apply gives_bind. rewrite append_piece_spec by (by destruct s). cbn [gives]. apply gives_bind. cbn [modify gives].
      set (s1 := consume_inbound n _) in *. pose proof (took_ahead _ _ _ Ht) as Ha1.
      assert (size (ahead s1) = size (ahead s) - n) as Hs1 by (rewrite Ha1; unfold size in *; rewrite length_drop; lia).
      pose proof (took_kept _ _ _ Ht) as (_ & _ & Hal).
      eapply gives_mono; [apply (IH _ (len - n) s1); [by rewrite Hal|lia|lia]|].
      intros out' s' [Hout Ht']. split.
      * rewrite Hout, concat_app, <-app_assoc. cbn [concat]. rewrite app_nil_r. f_equal.
        rewrite <-(ahead_prefix n f c s Hd) by lia. rewrite Ha1, take_take_rest by lia. f_equal. lia.
      * replace len with (n + (len - n)) by lia. eapply took_trans; [lia|lia|exact Ht|exact Ht'].
    + destruct Hsrc as (Hd & -> & Hb). pose proof (ahead_read_buf s Hd) as Hau. rewrite Hau in *.
      set (n := Z.min len (size (unread_bytes s))). assert (n = len) as -> by lia.
      pose proof (took_read_buf len s Hd) as Ht.
      apply gives_bind. rewrite append_piece_spec by (by destruct s). cbn [gives]. apply gives_bind. cbn [modify gives].
      set (s1 := on_read_buf _ _) in *. rewrite Z.sub_diag.
      pose proof (took_kept _ _ _ Ht) as (_ & _ & Hal).
      pose proof (length_of_nonneg (ahead s1)).
      eapply gives_mono; [apply (IH _ 0 s1); [by rewrite Hal|lia|by left]|].
      intros out' s' [Hout Ht']. split.
      * rewrite Hout, concat_app. cbn. by rewrite !app_nil_r.
      * rewrite <-(Z.add_0_r len). eapply took_trans; [lia|lia|exact Ht|exact Ht'].
    + rewrite Hsrc in Hlen. unfold size in Hlen. cbn in Hlen. lia.
Qed.

Lemma take_prefix_spec out len s :
  allocs s = [] -> 0 <= len <= size (ahead s) ->
  gives (take_prefix out len s)
    (fun out' s' => concat out' = concat out ++ take (Z.to_nat len) (ahead s) /\ took len s s').
Proof. intros. apply take_prefix_loop_spec; [done|done|right; lia]. Qed.

(** A read when nothing is ahead: up to [n] bytes of the peer are in the read
    buffer. *)
Record read_ahead (n : Z) (s s' : Session) : Prop := mkReadAhead {
  ra_kept : kept s s';
  ra_stream : stream s = ahead s' ++ stream s';
  ra_inbound : inbound_bufs_ s' = inbound_bufs_ s;
  ra_size : 0 < size (ahead s') <= n;
  ra_reads : steady (reads s');
  ra_used : read_call_used_io_ s' = true }.

Lemma ahead_nil s : ahead s = [] -> concat (inbound_bufs_ s) = [] /\ unread_bytes s = [].
Proof. unfold ahead. intros H. by apply app_eq_nil in H. Qed.

Lemma ensure_read_buf_empty n s :
  allocs s = [] -> 0 < n -> unread_bytes s = [] ->
  gives (ensure_read_buf_writable n s) (fun _ s' => exists r l,
    s' = set_owners l (set_read_buf (Some r) s) /\ unread r = []).
Proof.
  intros Ha Hn Hu. unfold ensure_read_buf_writable. rewrite (proj2 (Z.eqb_neq n 0)) by lia. apply gives_bind. cbn [gets gives].
  assert (forall s1, allocs s1 = [] -> gives (new_read_buf n [] s1) (fun _ s' => s' = set_read_buf (Some (mkReadBuf [] n n)) s1)) as Hnew.
  { intros s1 Hs1. unfold new_read_buf, allocate, memory, bind. rewrite (proj2 (Z.eqb_neq n 0)) by lia. rewrite Hs1. cbn.
    by rewrite Z.sub_0_r. }
  unfold unread_bytes in Hu. destruct (read_buf_ s) as [r|] eqn:Hr.
  - rewrite Hu. cbn [length size Z.of_nat]. unfold size. cbn [length Z.of_nat]. rewrite Z.eqb_refl. apply gives_bind.
    assert (exists u l, unique s = Returns u (set_owners l s)) as (u & l & ->).
    { unfold unique. destruct (owners s) as [|u l] eqn:Ho; [exists true, []|by exists u, l]. rewrite <-Ho. by destruct s. }
    cbn [gives]. destruct (u && _).
    + cbn. exists (mkReadBuf [] (block r) (block r)), l. split; [|done]. by destruct s.
    + eapply gives_mono; [apply Hnew; by destruct s|]. intros _ s' ->. exists (mkReadBuf [] n n), l. split; [|done]. by destruct s.
  - eapply gives_mono; [by apply Hnew|]. intros _ s' ->. exists (mkReadBuf [] n n), (owners s). split; [|done]. by destruct s.
Qed.

Lemma read_more_spec n s :
  allocs s = [] -> 0 < n -> ahead s = [] -> steady (reads s) -> stream s <> [] ->
  gives (read_more n s) (fun k s' => k = size (ahead s') /\ read_ahead n s s').
Proof.
  intros Ha Hn [Hin Hu]%ahead_nil Hs Hst. unfold read_more, kMaxDirectBodyRead. rewrite (proj2 (Z.eqb_neq _ 0)) by lia.
  apply gives_bind. eapply gives_mono; [apply ensure_read_buf_empty; [done|lia|done]|].
  intros [] s1 (r & l & -> & Hr). apply gives_bind.
  destruct (read_some_steady (Z.min n (64 * 1024)) (set_owners l (set_read_buf (Some r) s))) as
    (bs & s2 & -> & Hmv & Hne & Hsz & Hsplit & Hinb & Hrd); [by destruct s|lia|by destruct s|].
  cbn [gives]. apply gives_bind. cbn [modify gives ret].
  assert (read_buf_ s2 = Some r /\ inbound_bufs_ s2 = inbound_bufs_ s /\ body_parser_ s2 = body_parser_ s /\
          exchange s2 = exchange s /\ allocs s2 = allocs s) as (E1 & E2 & E3 & E4 & E5)
    by (rewrite Hmv; destruct s; cbn in *; by subst).
  set (s3 := on_read_buf _ _). assert (ahead s3 = bs) as Hah.
  { unfold s3, ahead, on_read_buf, unread_bytes. destruct s2; cbn in *. subst. cbn. by rewrite Hin, Hr. }
  rewrite Hah. split; [done|]. apply size_positive in Hne. split; rewrite ?Hah.
  - unfold kept. rewrite <-E3, <-E4, <-E5. by destruct s2.
  - replace (stream s3) with (stream s2) by (by destruct s2). rewrite <-Hsplit. by destruct s.
  - rewrite <-E2. by destruct s2.
  - lia.
  - by destruct s2.
  - by destruct s2.
Qed.

(** ** Bodies with a length *)

(** [n] bytes of the body are left, and nothing behind it has been read. *)
Record sized (n : Z) (s : Session) : Prop := mkSized {
  sized_parser : body_parser_ s = Body.mkBody Body.TContentLength n false Chunked.reset;
  sized_left : 0 < n <= size (body_stream s);
  sized_unread : unread_bytes s = [] \/ concat (inbound_bufs_ s) = [] /\ size (unread_bytes s) <= n;
  sized_allocs : allocs s = [];
  sized_reads : steady (reads s) }.

(** The body has been read completely and what follows it is still to be read. *)
Definition completed (s : Session) : Prop :=
  request_body_complete s = true /\ unread_bytes s = [] /\ request_trailers_complete_ (exchange s) = true.

Lemma some_input_spec n s :
  allocs s = [] -> 0 < n -> ahead s = [] -> steady (reads s) -> stream s <> [] ->
  gives (some_input n s) (fun _ s' => read_ahead n s s').
Proof.
  intros. unfold some_input. apply gives_bind. eapply gives_mono; [by apply read_more_spec|].
  intros k s' [-> Hra]. rewrite (proj2 (Z.eqb_neq _ 0)) by (destruct Hra; lia). done.
Qed.

Lemma take_piece_spec out budget s :
  allocs s = [] -> 0 <= budget -> 0 <= remaining s ->
  gives (take_piece out budget s) (fun r s' =>
    let n := Z.min budget (Z.min (remaining s) (size (ahead s))) in
    fst r = n /\ concat (snd r) = concat out ++ take (Z.to_nat n) (ahead s) /\
    exists s1, took n s s1 /\ s' = set_body_parser (Body.consume n (body_parser_ s)) s1).
Proof.
  intros Ha Hb Hr. unfold take_piece. apply gives_bind. cbn [gets gives]. rewrite body_input_readable_ahead.
  set (n := Z.min _ _). pose proof (length_of_nonneg (ahead s)). apply gives_bind.
  eapply gives_mono; [apply take_prefix_spec; [done|unfold n; lia]|]. intros out' s1 [Hout Ht].
  apply gives_bind. cbn [modify ret gives fst snd]. split; [done|]. split; [done|].
  exists s1. split; [done|]. by destruct (took_kept _ _ _ Ht) as (-> & _).
Qed.

Lemma sized_input n m s :
  sized n s -> 0 < m ->
  gives ((readable <- gets body_input_readable;;
          left_in_body <- gets remaining;;
          (if readable =? 0 then some_input (Z.min m left_in_body) else ret tt))%input s)
    (fun _ s' => sized n s' /\ kept s s' /\ body_stream s' = body_stream s /\ 0 < size (ahead s') /\
      inbound_bufs_ s' = inbound_bufs_ s).
Proof.
  intros [Hp Hn Hu Ha Hr] Hm. apply gives_bind. cbn [gets gives]. apply gives_bind. cbn [gets gives].
  rewrite body_input_readable_ahead. pose proof (length_of_nonneg (ahead s)).
  destruct (Z.eqb_spec (size (ahead s)) 0) as [Hz|Hz]; cbn [ret gives].
  - assert (ahead s = []) as Hah by (apply dec_stable; intros Hne%size_positive; lia).
    unfold remaining. rewrite Hp. cbn [Body.remaining Body.type_ Body.remaining_].
    rewrite body_stream_ahead, Hah in Hn. cbn [app] in Hn.
    eapply gives_mono; [apply some_input_spec; try done; [lia|by apply size_positive; lia]|].
    intros _ s' [Hk Hsp Hi Hsz Hrd _]. destruct (ahead_nil _ Hah) as [Hi0 _]. assert (concat (inbound_bufs_ s') = []) as Hic by (by rewrite Hi).
    assert (body_stream s' = body_stream s) as Hbs by (by rewrite !body_stream_ahead, Hah, <-Hsp).
    destruct Hk as (Hk1 & Hk2 & Hk3). split; [|split; [done|split; [done|split; [lia|done]]]].
    split; [by rewrite Hk1|by rewrite Hbs, body_stream_ahead, Hah| |by rewrite Hk3|done].
    right. split; [done|]. unfold ahead in Hsz. rewrite Hic in Hsz. cbn [app] in Hsz. lia.
  - split; [by split|]. split; [done|]. split; [done|]. split; [lia|done].
Qed.

Lemma read_sized_step n m s :
  sized n s -> 0 < m ->
  gives (read_body options m s) (fun c s' =>
    let d := concat (data_chain c) in
    (chain_shrinks (inbound_bufs_ s) (inbound_bufs_ s') /\ allocs s' = [] /\ steady (reads s')) /\
    body_stream s = d ++ body_stream s' /\ 0 < size d <= Z.min m n /\
    if last c then size d = n /\ completed s' else sized (n - size d) s').
Proof.
  intros Hsz Hm. unfold read_body. apply gives_bind. cbn [gets gives].
  unfold request_body_complete at 1. rewrite (sized_parser _ _ Hsz). cbn [Body.done_]. rewrite (proj2 (Z.eqb_neq m 0)) by lia.
  apply gives_bind. cbn [modify gives]. apply gives_bind. cbn [gets gives].
  set (s0 := set_used_io false s). assert (sized n s0) as Hsz0 by (destruct Hsz, s; by split).
  rewrite (sized_parser _ _ Hsz0). cbn [Body.type_].
  replace (body_stream s) with (body_stream s0) by (by destruct s).
  replace (inbound_bufs_ s) with (inbound_bufs_ s0) by (by destruct s). clearbody s0. clear Hsz s.
  unfold read_sized_body. pose proof (sized_input n m s0 Hsz0 Hm) as Hin.
  apply gives_bind. cbn [gets gives]. apply gives_bind. cbn [gets gives]. apply gives_bind.
  unfold bind, gets in Hin. eapply gives_mono; [exact Hin|]. clear Hin. intros [] s1 (Hsz1 & Hk1 & <- & Hah & Hi1).
  destruct Hsz1 as [Hp Hn Hu Ha Hr]. apply gives_bind.
  assert (remaining s1 = n) as Hrem by (unfold remaining; by rewrite Hp).
  eapply gives_mono; [apply take_piece_spec; [done|lia|lia]|]. intros [k out] s2. cbn [fst snd].
  rewrite Hrem. intros (-> & Hout & s' & Ht & ->). set (k := Z.min m _) in *.
  cbn [concat app] in Hout. assert (size (concat out) = k) as Hk by (rewrite Hout, size_take by lia; lia).
  assert (body_stream s1 = concat out ++ body_stream s') as Hsplit.
  { destruct Ht as [Hta _ [Hts _] _ _ _ _]. by rewrite !body_stream_ahead, Hta, Hts, Hout, app_assoc, take_drop. }
  rewrite Hp. unfold Body.consume. cbn [Body.type_ Body.remaining_]. apply gives_bind. cbn [gets gives].
  destruct Ht as [Hta (Htk & Htx & Htl) [Hts Htr] Htu Hti Htc _].
  set (s2 := set_body_parser _ s').
  assert (body_stream s2 = body_stream s' /\ unread_bytes s2 = unread_bytes s' /\ inbound_bufs_ s2 = inbound_bufs_ s' /\
          reads s2 = reads s' /\ allocs s2 = allocs s') as (E1 & E2 & E3 & E4 & E5) by (by destruct s').
  assert (body_parser_ s2 = Body.mkBody Body.TContentLength (if n <=? k then 0 else n - k) (n <=? k) Chunked.reset) as E6
    by (unfold s2; destruct s'; cbn; by destruct (n <=? k)).
  assert (chain_shrinks (inbound_bufs_ s0) (inbound_bufs_ s2) /\ allocs s2 = [] /\ steady (reads s2)) as Hidle
    by (rewrite <-Hi1, E3, E4, E5, Htl, Htr; done).
  clearbody s2. assert (unread_bytes s2 = [] \/ concat (inbound_bufs_ s2) = [] /\
    size (unread_bytes s2) = size (unread_bytes s1) - k /\ k <= size (unread_bytes s1)) as Hu'.
  { rewrite E2, E3. destruct Hu as [Hu|[Hi Hu]]; [left; auto|right]. split; [auto|].
    assert (ahead s1 = unread_bytes s1) as H1 by (unfold ahead; by rewrite Hi).
    assert (ahead s' = unread_bytes s') as H2 by (unfold ahead; by rewrite (Hti Hi)).
    assert (0 <= k <= size (unread_bytes s1)) by (unfold k; rewrite <-H1; lia).
    rewrite H1, H2 in Hta. rewrite Hta. unfold size in *. rewrite length_drop. lia. }
  rewrite <-E1 in Hsplit. unfold request_body_complete at 1. rewrite E6. cbn [Body.done_].
  pose proof (length_of_nonneg (unread_bytes s2)). destruct (Z.leb_spec n k) as [Hle|Hlt].
  - apply gives_bind. unfold modify. cbn [gives ret last data_chain snd].
    replace (body_stream (complete_without_trailers s2)) with (body_stream s2) by (by destruct s2).
    split; [by destruct s2|]. split; [done|]. split; [lia|]. split; [lia|].
    unfold completed, request_body_complete.
    replace (body_parser_ (complete_without_trailers s2)) with (body_parser_ s2) by (by destruct s2). rewrite E6.
    replace (unread_bytes (complete_without_trailers s2)) with (unread_bytes s2) by (by destruct s2).
    split; [done|]. split; [|by destruct s2]. destruct Hu' as [->|(_ & Hu1 & Hu2)]; [done|].
    apply dec_stable. intros Hne%size_positive.
    destruct Hu as [Hu|[_ Hu]]; [rewrite Hu in *; change (size []) with 0 in *; lia|lia].
  - cbn [gives ret last data_chain snd]. split; [done|]. split; [done|]. split; [lia|]. rewrite Hk. split.
    + by rewrite E6.
    + rewrite Hsplit, length_of_app in Hn. lia.
    + destruct Hu' as [->|(Hu0 & Hu1 & Hu2)]; [by left|right; split; [done|]].
      destruct Hu as [Hu|[_ Hu]]; [rewrite Hu in *; change (size []) with 0 in *; lia|lia].
    + by rewrite E5, Htl.
    + by rewrite E4, Htr.
Qed.

(** Successive calls of [read_body], up to the last piece. *)
Fixpoint read_pieces (ms : list Z) : Io (list BodyChunk) :=
  match ms with
  | [] => ret []
  | m :: ms' =>
      (c <- read_body options m;;
       if last c then ret [c] else cs <- read_pieces ms';; ret (c :: cs))%input
  end.

Definition delivered (cs : list BodyChunk) : list Z := concat (map (fun c => concat (data_chain c)) cs).
Definition finished (cs : list BodyChunk) : bool := existsb last cs.

Lemma read_pieces_sized ms n s :
  sized n s -> Forall (fun m => 0 < m) ms ->
  gives (read_pieces ms s) (fun cs s' =>
    body_stream s = delivered cs ++ body_stream s' /\ Forall (fun c => concat (data_chain c) <> []) cs /\
    if finished cs then size (delivered cs) = n /\ completed s'
    else length cs = length ms /\ size (delivered cs) < n /\ sized (n - size (delivered cs)) s').
Proof.
  revert n s. induction ms as [|m ms IH]; intros n s Hs Hms.
  - cbn -[size]. change (size []) with 0. rewrite Z.sub_0_r. destruct Hs. by repeat (split; [done || lia|]).
  - apply Forall_cons in Hms as [Hm Hms]. cbn [read_pieces]. apply gives_bind.
    eapply gives_mono; [by apply (read_sized_step n)|]. intros c s1. cbv zeta. intros (_ & Hst & Hsz & Hl).
    assert (concat (data_chain c) <> []) as Hne by (apply size_positive; lia).
    destruct (last c) eqn:Hlast.
    + cbn. unfold delivered, finished. cbn. rewrite Hlast, app_nil_r. split; [done|]. split; [by repeat constructor|done].
    + apply gives_bind. eapply gives_mono; [by apply IH|]. intros cs s' (Hst' & Hall & Hf). cbn [ret gives].
      unfold delivered, finished in *. cbn [map concat existsb]. rewrite Hlast, length_of_app. cbn [orb].
      split; [by rewrite Hst, Hst', app_assoc|]. split; [by constructor|].
      destruct (existsb last cs).
      * destruct Hf. split; [lia|done].
      * destruct Hf as (? & ? & Hsz'). cbn [length]. split; [lia|]. split; [lia|].
        by rewrite Z.sub_add_distr.
Qed.

Lemma delivered_length cs : Forall (fun c => concat (data_chain c) <> []) cs -> Z.of_nat (length cs) <= size (delivered cs).
Proof.
  induction 1 as [|c cs Hc _ IH]; [done|]. unfold delivered in *. cbn [map concat length]. rewrite length_of_app.
  apply size_positive in Hc. lia.
Qed.

(** C21. A body announced with a positive Content-Length [n] is read exactly.  The peer has sent or
    will send at least [n] bytes, the transport delivers them without an error or a
    premature end, no allocation fails, and every call asks for at least one byte.  Then,
    however the bytes arrive and whatever the positive sizes of the calls, the pieces
    that [read_body] hands out are, in order, the first bytes of what the peer sent behind
    the head; none is empty; the piece that completes [n] bytes, and no other, is marked
    as the last; nothing behind the body is taken from the connection, so the next request
    starts right after it; and [n] calls are enough. *)
Theorem content_length_body_exact (ms : list Z) (n : Z) (s : Session) :
  request_chunked_ (exchange s) = false -> request_content_length_set_ (exchange s) = true ->
  request_content_length_ (exchange s) = n -> 0 < n <= size (concat (inbound_bufs_ s) ++ stream s) ->
  allocs s = [] -> steady (reads s) -> Forall (fun m => 0 < m) ms ->
  exists cs s', read_pieces ms (construct_io s) = Returns cs s' /\
    concat (inbound_bufs_ s) ++ stream s = delivered cs ++ body_stream s' /\
    Forall (fun c => concat (data_chain c) <> []) cs /\
    (if finished cs then size (delivered cs) = n /\ completed s' else size (delivered cs) < n) /\
    (n <= Z.of_nat (length ms) -> finished cs = true).
Proof.
  intros Hc Hset Hn Hlen Ha Hr Hms.
  assert (body_stream (construct_io s) = concat (inbound_bufs_ s) ++ stream s) as Hbs by (by destruct s).
  assert (sized n (construct_io s)) as Hs.
  { split; [|by rewrite Hbs|left; by destruct s|by destruct s|by destruct s].
    unfold construct_io, body_parser_of. rewrite Hc, Hset, Hn. cbn [negb orb]. rewrite (proj2 (Z.eqb_neq n 0)) by lia.
    destruct s. cbn. unfold Body.set_content_length. by rewrite (proj2 (Z.eqb_neq n 0)) by lia. }
  destruct (gives_returns _ _ (read_pieces_sized ms n (construct_io s) Hs Hms)) as (cs & s' & Hrun & Hst & Hall & Hf).
  exists cs, s'. split; [done|]. rewrite <-Hbs. split; [done|]. split; [done|].
  pose proof (delivered_length cs Hall). destruct (finished cs); [by split|].
  destruct Hf as (Hl & Hlt & _). split; [done|]. lia.
Qed.

(** ** Chunked bodies that have been received *)

Lemma set_inbound_parser p c s : set_body_parser p (set_inbound c s) = set_inbound c (set_body_parser p s).
Proof. by destruct s. Qed.

Lemma took_set_parser n p s s1 : took n s s1 -> took n (set_body_parser p s) (set_body_parser p s1).
Proof. intros [? (?&?&?) ? ? ? ?]. destruct s, s1. by split. Qed.

(** The parser on the first buffer of the input. *)
Lemma parse_front_spec s :
  ahead s <> [] ->
  exists f rest, ahead s = f ++ rest /\ 0 < size f /\
    forall code parser cursor, Body.execute (body_parser_ s) (Some (cursor_of f)) = (code, parser, Some cursor) ->
    0 <= readable cursor <= size f ->
    exists s1, took (size f - readable cursor) s s1 /\
      (source <- front_body_input;; parse_front source)%input s =
      Returns (Some (code, size f - readable cursor)) (set_body_parser parser s1).
Proof.
  intros Hne. destruct (front_body_input_spec s) as (source & Hfront & Hsrc).
  assert (forall f (consume : Z -> Session -> Session),
    let s0 := set_inbound (drop_empty_front (inbound_bufs_ s)) s in
    (forall n p, consume n (set_body_parser p s0) = set_body_parser p (consume n s0)) ->
    (forall n, 0 < n <= size f -> took n s (consume n s0)) ->
    forall code parser cursor, Body.execute (body_parser_ s) (Some (cursor_of f)) = (code, parser, Some cursor) ->
    0 <= readable cursor <= size f ->
    exists s1, took (size f - readable cursor) s s1 /\
      parse_input f consume s0 = Returns (code, size f - readable cursor) (set_body_parser parser s1)) as Hparse.
  { intros f consume s0 Hcomm Htook code parser cursor Hex Hr. unfold parse_input, bind, gets, modify, ret.
    replace (body_parser_ s0) with (body_parser_ s) by (by destruct s). rewrite Hex.
    destruct (Z.ltb_spec 0 (size f - readable cursor)) as [Hlt|Hge].
    - rewrite Hcomm. eexists. split; [|reflexivity]. apply Htook. lia.
    - replace (size f - readable cursor) with 0 by lia. eexists. split; [|reflexivity]. apply took_front. }
  unfold bind at 1. destruct source as [f|bs|].
  - destruct Hsrc as [Hf [c Hd]]. exists f, (concat c ++ unread_bytes s).
    split; [unfold ahead; rewrite <-concat_drop_empty_front, Hd; cbn; by rewrite app_assoc|]. split; [done|].
    intros code parser cursor Hex Hr. destruct (Hparse f consume_inbound) with (code := code) (parser := parser) (cursor := cursor)
      as (s1 & Ht & Hrun); [intros; by destruct s|intros n Hn; by apply (took_inbound_front n s f c Hd)|done|done|].
    exists s1. split; [done|]. rewrite Hfront. cbn [parse_front]. unfold bind. by rewrite Hrun.
  - destruct Hsrc as (Hd & -> & Hb). exists (unread_bytes s), []. rewrite app_nil_r. split; [by apply ahead_read_buf|]. split; [done|].
    intros code parser cursor Hex Hr.
    destruct (Hparse (unread_bytes s) (fun n => on_read_buf (consume_read n))) with (code := code) (parser := parser) (cursor := cursor)
      as (s1 & Ht & Hrun); [intros; by destruct s|intros n Hn; by apply took_read_buf|done|done|].
    exists s1. split; [done|]. rewrite Hfront. cbn [parse_front]. unfold bind. by rewrite Hrun.
  - done.
Qed.

Definition chunked_with (rem : Z) (cp : Chunked.ChunkedBodyParser) : Body.BodyParser :=
  Body.mkBody Body.TChunked rem false cp.

Lemma size_nil_iff (l : list Z) : size l <= 0 -> l = [].
Proof. intros H. apply dec_stable. intros Hne%size_positive. lia. Qed.

(** ** Termination *)

(** Bytes of the input that have not been handed out. *)
Definition left_of (s : Session) : Z := size (body_stream s).

Lemma took_left n s s' : took n s s' -> 0 <= n <= size (ahead s) -> left_of s' = left_of s - n.
Proof.
  intros [Hta _ [Hts _] _ _ _ _] Hn. unfold left_of. rewrite !body_stream_ahead, !length_of_app, Hta, Hts.
  unfold size in *. rewrite length_drop. lia.
Qed.

Lemma left_of_ahead s : left_of s = size (ahead s) + size (stream s).
Proof. unfold left_of. by rewrite body_stream_ahead, length_of_app. Qed.

(** Changes of the rest of the session do not touch the input. *)
Lemma set_allocs_input l s :
  ahead (set_allocs l s) = ahead s /\ left_of (set_allocs l s) = left_of s /\ body_parser_ (set_allocs l s) = body_parser_ s /\
  inbound_bufs_ (set_allocs l s) = inbound_bufs_ s.
Proof. by destruct s. Qed.

Lemma append_piece_ends out piece s :
  ends (append_piece out piece s) (fun _ s' => exists l, s' = set_allocs l s).
Proof.
  unfold append_piece, bind, memory. destruct (allocs s) as [|[] l] eqn:Ha; cbn; [exists []|by exists l|done].
  rewrite <-Ha. by destruct s.
Qed.

(** Taking [len] bytes: the rounds are as many as buffers. *)
Lemma take_prefix_loop_ends fuel out len s :
  len <= 0 \/ ahead s = [] /\ (0 < fuel)%nat \/ (S (length (inbound_bufs_ s)) < fuel)%nat ->
  ends (take_prefix_loop fuel out len s) (fun _ s' => left_of s' = left_of s - Z.max 0 len /\ body_parser_ s' = body_parser_ s).
Proof.
  revert out len s. induction fuel as [|fuel IH]; intros out len s Hfuel; cbn [take_prefix_loop];
    (destruct (Z.leb_spec len 0) as [Hz|Hp]; [cbn -[left_of]; split; [lia|done]|]); [lia|].
  apply ends_bind. destruct (front_body_input_spec s) as (source & -> & Hsrc). cbn [ends].
  set (s0 := set_inbound _ s) in *.
  assert (forall f n (consume : Session -> Session), took n s (consume s0) -> 0 < n <= size f -> n <= len -> n <= size (ahead s) ->
    (forall l, consume (set_allocs l s0) = set_allocs l (consume s0)) ->
    n = len \/ ahead (consume s0) = [] /\ (0 < fuel)%nat \/ (S (length (inbound_bufs_ (consume s0))) < fuel)%nat ->
    ends ((out <- append_piece out (take (Z.to_nat n) f);; modify consume;; take_prefix_loop fuel out (len - n))%input s0)
      (fun _ s' => left_of s' = left_of s - Z.max 0 len /\ body_parser_ s' = body_parser_ s)) as Hgo.
  { intros f n consume Ht Hn Hnl Hna Hcomm Hf. apply ends_bind. eapply ends_mono; [apply append_piece_ends|].
    intros out' s1 [l ->]. apply ends_bind. cbn [modify ends]. rewrite Hcomm.
    destruct (set_allocs_input l (consume s0)) as (E1 & E2 & E3 & E4).
    eapply ends_mono; [apply IH; rewrite E1, E4; destruct Hf as [->|Hf]; [left; lia|by right]|].
    intros _ s' [-> ->]. rewrite E2, E3, (took_left _ _ _ Ht) by lia. destruct (took_kept _ _ _ Ht) as (-> & _). split; [lia|done]. }
  destruct source as [f|bs|].
  - destruct Hsrc as [Hf [c Hd]]. destruct (took_inbound_front (Z.min len (size f)) s f c Hd ltac:(lia)) as [Ht Hl].
    assert (size f <= size (ahead s)) as Hfa.
    { unfold ahead. rewrite <-concat_drop_empty_front, Hd. cbn [concat]. rewrite !length_of_app.
      pose proof (length_of_nonneg (concat c)). pose proof (length_of_nonneg (unread_bytes s)). lia. }
    apply Hgo; [done|lia|lia|lia|intros l; by destruct s|].
    destruct Hfuel as [|[[Hz _]|Hfuel]]; [lia|rewrite Hz in Hfa; unfold size in *; cbn in *; lia|].
    destruct (Z.le_gt_cases len (size f)); [left; lia|right; right]. specialize (Hl ltac:(lia)). unfold s0. lia.
  - destruct Hsrc as (Hd & -> & Hbs). pose proof (ahead_read_buf s Hd) as Hau.
    pose proof (took_read_buf (Z.min len (size (unread_bytes s))) s Hd) as Ht.
    apply Hgo; [done|lia|lia|rewrite Hau; lia|intros l; by destruct s|].
    destruct Hfuel as [|[[Hz _]|Hfuel]]; [lia|rewrite Hau in Hz; rewrite Hz in Hbs; unfold size in Hbs; cbn in Hbs; lia|].
    destruct (Z.le_gt_cases len (size (unread_bytes s))); [left; lia|right; left]. split; [|lia].
    unfold s0. rewrite (took_ahead _ _ _ Ht), Hau. apply drop_ge. unfold size in *. lia.
  - done.
Qed.

Lemma take_piece_ends out budget s :
  ends (take_piece out budget s) (fun r s' => r.1 = Z.min budget (Z.min (remaining s) (size (ahead s))) /\
    left_of s' = left_of s - Z.max 0 (r.1) /\ body_parser_ s' = Body.consume (r.1) (body_parser_ s)).
Proof.
  unfold take_piece. apply ends_bind. cbn [gets ends]. rewrite body_input_readable_ahead. set (n := Z.min _ _). apply ends_bind.
  eapply ends_mono; [apply take_prefix_loop_ends; right; right; lia|]. intros out' s1 [Hl Hp].
  apply ends_bind. cbn [modify ret ends fst]. split; [done|]. split; [by destruct s1|]. rewrite <-Hp. by destruct s1.
Qed.

Lemma ensure_read_buf_ends n s :
  ends (ensure_read_buf_writable n s) (fun _ s' => ahead s' = ahead s /\ stream s' = stream s /\ body_parser_ s' = body_parser_ s /\
    inbound_bufs_ s' = inbound_bufs_ s /\ (n = 0 \/ read_buf_ s' <> None)).
Proof.
  unfold ensure_read_buf_writable. destruct (Z.eqb_spec n 0) as [->|Hn]; [cbn; by repeat (split; [done|]); left|].
  assert (forall c bs s1, bs = unread_bytes s1 -> ends (new_read_buf c bs s1) (fun _ s' => ahead s' = ahead s1 /\ stream s' = stream s1 /\
    body_parser_ s' = body_parser_ s1 /\ inbound_bufs_ s' = inbound_bufs_ s1 /\ (n = 0 \/ read_buf_ s' <> None))) as Hnew.
  { intros c bs s1 ->. unfold new_read_buf, allocate, memory, bind. destruct (c =? 0); [done|].
    destruct (allocs s1) as [|[] l]; cbn; try done; unfold ahead; destruct s1; cbn; (repeat (split; [done|])); by right. }
  apply ends_bind. cbn [gets ends]. destruct (read_buf_ s) as [r|] eqn:Hr; [|apply Hnew; unfold unread_bytes; by rewrite Hr].
  assert (unread_bytes s = unread r) as Hu by (unfold unread_bytes; by rewrite Hr).
  destruct (Z.eqb_spec (size (unread r)) 0) as [Hz|Hz].
  - assert (unread r = []) as Hnil by (apply size_nil_iff; lia). rewrite Hnil in Hu. apply ends_bind.
    assert (exists u l, unique s = Returns u (set_owners l s)) as (u & l & ->).
    { unfold unique. destruct (owners s) as [|u l] eqn:Ho; [exists true, []|by exists u, l]. rewrite <-Ho. by destruct s. }
    cbn [ends]. destruct (u && _).
    + cbn. unfold ahead. rewrite Hu. destruct s. cbn. (repeat (split; [done|])). by right.
    + eapply ends_mono; [apply Hnew; rewrite <-Hu; by destruct s|]. intros [] s' (?&?&?&?&?). by destruct s.
  - destruct (n <=? room r); [cbn; (repeat (split; [done|])); right; congruence|]. apply Hnew. by rewrite Hu.
Qed.

Lemma read_more_ends n s :
  ends (read_more n s) (fun k s' => left_of s' = left_of s /\ body_parser_ s' = body_parser_ s /\ size (ahead s') = size (ahead s) + k /\ 0 <= k).
Proof.
  unfold read_more. destruct (Z.eqb_spec (Z.min n kMaxDirectBodyRead) 0) as [|Hn]; [cbn [ret ends]; split; [done|split; [done|lia]]|]. apply ends_bind.
  eapply ends_mono; [apply ensure_read_buf_ends|]. intros [] s1 (Ha & Hs & Hp & Hi & Hb). destruct Hb as [|Hb]; [done|].
  apply ends_bind.
  assert (forall k rs, let s2 := set_stream (drop k (stream s1)) rs s1 in let bs := take k (stream s1) in
    left_of (on_read_buf (commit_read bs) (set_used_io true s2)) = left_of s /\
    body_parser_ (on_read_buf (commit_read bs) (set_used_io true s2)) = body_parser_ s /\
    size (ahead (on_read_buf (commit_read bs) (set_used_io true s2))) = size (ahead s) + size bs /\ 0 <= size bs) as Hcommit.
  { intros k rs s2 bs. set (s3 := on_read_buf _ _). assert (ahead s3 = ahead s1 ++ bs /\ stream s3 = drop k (stream s1)) as [Ha3 Hs3].
    { unfold s3, s2, ahead, on_read_buf, unread_bytes in *. destruct s1 as [? ? ? ? ? ? ? ? ? [r|] ?]; [|done]. cbn. by rewrite app_assoc. }
    rewrite !left_of_ahead, Ha3, Hs3, length_of_app, Ha, <-Hs. pose proof (length_of_nonneg bs).
    assert (size (stream s1) = size bs + size (drop k (stream s1))) as -> by (unfold bs; by rewrite <-length_of_app, take_drop).
    split; [lia|]. split; [|lia]. rewrite <-Hp. unfold s3, s2. by destruct s1. }
  unfold read_some. destruct (reads s1) as [|[k|e] rs]; [| |done];
    cbn [ends]; apply ends_bind; cbn [modify ret ends]; apply Hcommit.
Qed.

Lemma exec_loop_basic bs p st sz :
  0 <= sz ->
  match Chunked.exec_loop bs p st sz with
  | Chunked.LoopData st' rc sz' p' => p <= p' <= p + size bs /\ 0 <= sz' /\
      (rc = Again /\ p' = p + size bs \/ rc = Ok /\ (st <> Chunked.ChunkData -> p < p') \/ rc = BodyDone)
  | Chunked.LoopInvalid _ => True
  end.
Proof.
  revert p st sz. induction bs as [|ch bs IH]; intros p st sz Hsz; cbn [Chunked.exec_loop].
  - change (size []) with 0. split; [lia|]. split; [done|left; split; [done|lia]].
  - assert (size (ch :: bs) = size bs + 1) as Hl by (unfold size; cbn [length]; lia). pose proof (length_of_nonneg bs).
    assert (match Chunked.step st ch sz with
            | Chunked.Next _ sz' => 0 <= sz'
            | Chunked.GotoData _ rc sz' eaten => 0 <= sz' /\ (rc = Ok /\ st = Chunked.ChunkData \/ rc = BodyDone)
            | Chunked.Invalid _ => True end) as Hst.
    { destruct st; cbn [Chunked.step];
        unfold Chunked.step_ChunkStart, Chunked.step_ChunkSize, Chunked.step_ChunkExtension, Chunked.step_ChunkExtensionAlmostDone,
          Chunked.step_ChunkData, Chunked.step_AfterData, Chunked.step_AfterDataAlmostDone, Chunked.step_LastChunkExtension,
          Chunked.step_LastChunkExtensionAlmostDone, Chunked.step_Trailer, Chunked.append_hex_digit;
        repeat case_match; simplify_eq; try done; try (split; [done|]; auto);
        try match goal with H : Chunked.hex_digit _ = Some _ |- _ => apply Chunked.hex_digit_range in H; lia end;
        try (unfold wrap; apply Z.mod_pos_bound; lia). }
    destruct (Chunked.step st ch sz) as [st' sz'|st' rc sz' eaten|z]; [| |done].
    + specialize (IH (p + 1) st' sz' Hst). destruct (Chunked.exec_loop bs (p + 1) st' sz'); [|done].
      destruct IH as (Hp & Hs & Hc). split; [lia|]. split; [done|]. destruct Hc as [[-> ->]|[[-> _]| ->]]; [left|right; left|by right; right].
      * split; [done|lia].
      * split; [done|lia].
    + destruct Hst as [Hs Hc]. split; [destruct eaten; lia|]. split; [done|].
      destruct Hc as [[-> ->]| ->]; [right; left; by split|by right; right].
Qed.

(** The parser on one buffer. *)
Lemma execute_chunked_basic rem cp f :
  0 <= Chunked.size_ cp ->
  exists code parser cursor, Body.execute (chunked_with rem cp) (Some (cursor_of f)) = (code, parser, Some cursor) /\
    0 <= readable cursor <= size f /\
    (code = Error \/
     (exists cp', parser = chunked_with rem cp' /\ 0 <= Chunked.size_ cp') /\
     (code = Again /\ readable cursor = 0 \/ code = Ok /\ (Chunked.size_ cp = 0 -> readable cursor < size f) \/ code = BodyDone)).
Proof.
  intros Hsz. unfold Body.execute, chunked_with. cbn [Body.type_ Body.done_ Body.chunked_parser_ Body.remaining_]. unfold Chunked.execute.
  assert (readable_bytes (cursor_of f) = f) as -> by (unfold readable_bytes, bytes_between, cursor_of; cbn; apply take_ge; unfold size; lia).
  change (pos (cursor_of f)) with 0. pose proof (exec_loop_basic f 0 (Chunked.start_state cp) _ Hsz) as Hl.
  destruct (Chunked.exec_loop f 0 (Chunked.start_state cp) (Chunked.size_ cp)) as [st rc sz p|z]; cbn [Chunked.run_result].
  - destruct Hl as (Hp & Hs & Hc). unfold Chunked.at_data. set (cursor := Http1Detail.consume _ _).
    assert (readable cursor = size f - p) as Hr by (unfold cursor, readable, Http1Detail.consume, cursor_of; cbn; lia).
    destruct (size_max - 5 <? sz); do 3 eexists; (split; [reflexivity|]); rewrite Hr; (split; [lia|]); [by left|right].
    destruct Hc as [[-> ->]|[[-> Hpos]| ->]].
    + split; [by eexists|]. left. split; [done|lia].
    + split; [by eexists|]. right. left. split; [done|]. intros Hz. enough (0 < p) by lia. apply Hpos.
      unfold Chunked.start_state. rewrite Hz. destruct (Chunked.state_ cp); done.
    + split; [by eexists|]. by right; right.
  - do 3 eexists. split; [reflexivity|]. split; [unfold readable, cursor_of; cbn; pose proof (length_of_nonneg f); lia|]. by left.
Qed.

(** The body parser is in the middle of a chunked body. *)
Definition chunking (rem z : Z) (s : Session) : Prop :=
  exists cp, body_parser_ s = chunked_with rem cp /\ Chunked.size_ cp = z /\ 0 <= z.

Lemma chunking_remaining rem z s : chunking rem z s -> remaining s = z.
Proof. intros (cp & Hp & Hz & _). unfold remaining. by rewrite Hp. Qed.

Lemma advance_loop_ends (fuel : nat) (m : Z) (allow : bool) (rem z : Z) (s : Session) :
  chunking rem z s -> left_of s + (if allow then 1 else 0) < Z.of_nat fuel ->
  ends (advance_loop fuel m allow s) (fun c s' => (exists z', chunking rem z' s') /\ left_of s' <= left_of s /\
    (c = Ok /\ (z = 0 -> left_of s' < left_of s) \/ c = BodyDone \/
     c = Again /\ (allow = true \/ ahead s <> [] -> left_of s' < left_of s))).
Proof.
  revert allow z s. induction fuel as [|fuel IH]; intros allow z s Hck Hfuel.
  { pose proof (length_of_nonneg (body_stream s)). unfold left_of in Hfuel. destruct allow; lia. }
  cbn [advance_loop]. destruct (decide (ahead s = [])) as [Hnil|Hne].
  - apply ends_bind. destruct (front_body_input_spec s) as (source & -> & Hsrc). cbn [ends].
    destruct (ahead_nil s Hnil) as [Hin Hun].
    assert (source = NoInput) as ->.
    { destruct source as [f|bs|]; [| |done].
      - destruct Hsrc as [Hf [c Hd]]. rewrite <-concat_drop_empty_front, Hd in Hin. destruct f; [unfold size in Hf; cbn in Hf; lia|discriminate Hin].
      - destruct Hsrc as (_ & -> & Hb). rewrite Hun in Hb. unfold size in Hb. cbn in Hb. lia. }
    pose proof (took_front s) as Ht. set (s0 := set_inbound _ s) in *.
    assert (left_of s0 = left_of s) as Hl0 by (rewrite (took_left _ _ _ Ht); [lia|pose proof (length_of_nonneg (ahead s)); lia]).
    assert (chunking rem z s0) as Hck0 by (destruct Hck as (cp & ? & ?); exists cp; by destruct s).
    apply ends_bind. cbn [parse_front ret ends]. destruct allow; cbn [negb].
    + apply ends_bind. eapply ends_mono; [apply read_more_ends|]. intros k s1 (Hl1 & Hp1 & Ha1 & Hk).
      destruct (Z.eqb_spec k 0) as [|Hk0]; [done|]. cbn [ends].
      assert (ahead s1 <> []) as Hne1 by (apply size_positive; pose proof (length_of_nonneg (ahead s0)); lia).
      eapply ends_mono; [apply (IH false z); [destruct Hck0 as (cp & ? & ?); exists cp; by rewrite Hp1|lia]|].
      intros c s' (Hz' & Hle & Hc). split; [done|]. split; [lia|]. rewrite Hl1, Hl0 in *.
      destruct Hc as [[-> Hc]|[-> |[-> Hc]]]; [left; by split|by right; left|right; right; split; [done|intros _; apply Hc; by right]].
    + cbn [ret ends]. split; [by exists z|]. split; [lia|]. right; right. split; [done|]. naive_solver.
  - destruct (parse_front_spec s Hne) as (f & rest & Hah & Hf & Hparse). destruct Hck as (cp & Hp & Hz & Hz0). subst z.
    destruct (execute_chunked_basic rem cp f Hz0) as (code & parser & cursor & Hex & Hr & Hc).
    rewrite <-Hp in Hex. destruct (Hparse _ _ _ Hex Hr) as (s1 & Ht & Hrun). set (k := size f - readable cursor) in *.
    unfold bind in Hrun |- *. destruct (front_body_input s) as [source s0|e s0| |]; try discriminate Hrun. rewrite Hrun. clear Hrun.
    assert (left_of (set_body_parser parser s1) = left_of s - k) as Hl.
    { replace (left_of (set_body_parser parser s1)) with (left_of s1) by (by destruct s1). apply (took_left _ _ _ Ht).
      rewrite Hah, length_of_app. pose proof (length_of_nonneg rest). unfold k. lia. }
    destruct Hc as [-> |[(cp' & -> & Hz') Hc]]; [done|].
    set (s2 := set_body_parser _ s1) in *. assert (chunking rem (Chunked.size_ cp') s2) as Hck2 by (exists cp'; by destruct s1).
    destruct Hc as [[-> Hr0]|[[-> Hr0]| ->]].
    + assert (0 < k) by (unfold k; lia). rewrite (proj2 (Z.eqb_neq k 0)) by lia.
      eapply ends_mono; [apply (IH allow _ s2 Hck2); lia|]. intros c s' (Hex' & Hle & Hc). split; [done|]. split; [lia|].
      destruct Hc as [[-> _]|[-> |[-> _]]]; [left; split; [done|lia]|by right; left|right; right; split; [done|lia]].
    + cbn [ret ends]. split; [by eexists|]. split; [unfold k in *; lia|]. left. split; [done|]. intros Hz1. specialize (Hr0 Hz1). unfold k in *. lia.
    + cbn [ret ends]. split; [by eexists|]. split; [unfold k in *; lia|]. by right; left.
Qed.

Lemma readable_fill bs b : readable (fill bs b) = readable b + size bs.
Proof. unfold readable, fill, commit, write_at_last. cbn -[size]. lia. Qed.

Lemma drain_body_loop_ends fuel b k s :
  writable b <= 0 \/ ahead s = [] /\ (0 < fuel)%nat \/ (S (length (inbound_bufs_ s)) < fuel)%nat ->
  ends (drain_body_loop fuel b k s) (fun r s' => k <= r.1 /\ readable (r.2) = readable b + (r.1 - k) /\
    left_of s' = left_of s - (r.1 - k) /\ body_parser_ s' = body_parser_ s).
Proof.
  revert b k s. induction fuel as [|fuel IH]; intros b k s Hfuel; cbn [drain_body_loop];
    (destruct (Z.leb_spec (writable b) 0) as [Hz|Hp]; [cbn [ret ends fst snd]; repeat split; lia|]); [lia|].
  apply ends_bind. destruct (front_body_input_spec s) as (source & -> & Hsrc). cbn [ends].
  pose proof (took_front s) as Ht0. set (s0 := set_inbound _ s) in *.
  assert (forall f n (consume : Session -> Session), took n s (consume s0) -> 0 < n -> n = Z.min (size f) (writable b) -> n <= size (ahead s) ->
    n = writable b \/ ahead (consume s0) = [] /\ (0 < fuel)%nat \/ (S (length (inbound_bufs_ (consume s0))) < fuel)%nat ->
    ends ((modify consume;; drain_body_loop fuel (fill (take (Z.to_nat n) f) b) (k + n))%input s0)
      (fun r s' => k <= r.1 /\ readable (r.2) = readable b + (r.1 - k) /\ left_of s' = left_of s - (r.1 - k) /\
        body_parser_ s' = body_parser_ s)) as Hgo.
  { intros f n consume Ht Hn Heq Hna Hf. apply ends_bind. cbn [modify ends].
    assert (size (take (Z.to_nat n) f) = n) as Hsz by (rewrite size_take; lia).
    eapply ends_mono; [apply IH; rewrite Connection1.writable_fill, Hsz; destruct Hf as [->|Hf]; [left; lia|by right]|].
    intros r s' (Hk & -> & -> & ->). rewrite readable_fill, Hsz, (took_left _ _ _ Ht) by lia.
    destruct (took_kept _ _ _ Ht) as (-> & _). split; [lia|]. split; [lia|]. split; [lia|done]. }
  destruct source as [f|bs|].
  - destruct Hsrc as [Hf [c Hd]]. destruct (took_inbound_front (Z.min (size f) (writable b)) s f c Hd ltac:(lia)) as [Ht Hl].
    assert (size f <= size (ahead s)) as Hfa.
    { unfold ahead. rewrite <-concat_drop_empty_front, Hd. cbn [concat]. rewrite !length_of_app.
      pose proof (length_of_nonneg (concat c)). pose proof (length_of_nonneg (unread_bytes s)). lia. }
    apply Hgo; [done|lia|done|lia|].
    destruct Hfuel as [|[[Hz _]|Hfuel]]; [lia|rewrite Hz in Hfa; unfold size in *; cbn in *; lia|].
    destruct (Z.le_gt_cases (writable b) (size f)); [left; lia|right; right]. specialize (Hl ltac:(lia)). unfold s0. lia.
  - destruct Hsrc as (Hd & -> & Hbs). pose proof (ahead_read_buf s Hd) as Hau.
    pose proof (took_read_buf (Z.min (size (unread_bytes s)) (writable b)) s Hd) as Ht.
    apply Hgo; [done|lia|done|rewrite Hau; lia|].
    destruct Hfuel as [|[[Hz _]|Hfuel]]; [lia|rewrite Hau in Hz; rewrite Hz in Hbs; unfold size in Hbs; cbn in Hbs; lia|].
    destruct (Z.le_gt_cases (writable b) (size (unread_bytes s))); [left; lia|right; left]. split; [|lia].
    unfold s0. rewrite (took_ahead _ _ _ Ht), Hau. apply drop_ge. unfold size in *. lia.
  - cbn [ret ends fst snd]. rewrite (took_left _ _ _ Ht0) by (pose proof (length_of_nonneg (ahead s)); lia).
    destruct (took_kept _ _ _ Ht0) as (-> & _). repeat split; lia.
Qed.

Lemma allocate_any n s : ends (allocate n s) (fun _ s' => exists l, s' = set_allocs l s).
Proof.
  unfold allocate, memory. destruct (n =? 0); [exists (allocs s); by destruct s|].
  destruct (allocs s) as [|x l] eqn:Ha; [exists []; rewrite <-Ha; by destruct s|by exists l].
Qed.

Lemma append_inbound_ends bs s :
  ends (append_inbound bs s) (fun _ s' => left_of s' <= left_of s + size bs /\ body_parser_ s' = body_parser_ s /\
    unread_bytes s' = unread_bytes s).
Proof.
  assert (forall l c, (c = inbound_bufs_ s ++ [bs] \/ c = inbound_bufs_ s) -> let s' := set_allocs l (set_inbound c s) in
    left_of s' <= left_of s + size bs /\ body_parser_ s' = body_parser_ s /\ unread_bytes s' = unread_bytes s) as H.
  { intros l c Hc s'. split; [|by destruct s]. unfold left_of, body_stream. pose proof (length_of_nonneg bs).
    replace (inbound_bufs_ s') with c by (by destruct s). replace (unread_bytes s') with (unread_bytes s) by (by destruct s).
    replace (stream s') with (stream s) by (by destruct s).
    destruct Hc as [-> | ->]; rewrite !length_of_app; [rewrite concat_app; cbn [concat]; rewrite app_nil_r, length_of_app|]; lia. }
  unfold append_inbound, memory, bind. destruct (allocs s) as [|[] l] eqn:Ha; cbn [negb modify ret ends].
  - specialize (H [] (inbound_bufs_ s ++ [bs]) ltac:(by left)). rewrite <-Ha in H. by destruct s.
  - specialize (H l (inbound_bufs_ s ++ [bs]) ltac:(by left)). by destruct s.
  - specialize (H l (inbound_bufs_ s) ltac:(by right)). by destruct s.
Qed.

Lemma spill_ends s :
  ends (spill_read_buf_to_inbound s) (fun _ s' => left_of s' <= left_of s /\ body_parser_ s' = body_parser_ s).
Proof.
  unfold spill_read_buf_to_inbound. apply ends_bind. cbn [gets ends].
  destruct (size (unread_bytes s) =? 0); [cbn [ret ends]; split; [lia|done]|].
  apply ends_bind. eapply ends_mono; [apply append_inbound_ends|]. intros [] s1 (Hl & Hp & Hu); [|done]. cbn [negb modify ends].
  split; [|rewrite <-Hp; by destruct s1]. set (s2 := on_read_buf _ s1).
  assert (unread_bytes s2 = []) as Hn.
  { unfold s2. rewrite <-Hu. clear. unfold on_read_buf, unread_bytes. destruct s1 as [? ? ? ? ? ? ? ? ? [r|] ?]; [|done].
    cbn. apply drop_ge. unfold size. lia. }
  unfold left_of, body_stream in *. rewrite Hn. rewrite Hu in Hl.
  replace (inbound_bufs_ s2) with (inbound_bufs_ s1) by (by destruct s1).
  replace (stream s2) with (stream s1) by (by destruct s1). rewrite !length_of_app in *. change (size []) with 0. lia.
Qed.

(** The end of the trailer block: bytes only move. *)
Lemma end_of_trailers_ends b s :
  0 <= readable b ->
  ends (((if 0 <? readable b then
            ok <- append_inbound (readable_bytes b);; if negb ok then fail NoMem else ret tt
          else ret tt);;
         spill_read_buf_to_inbound;;
         modify (fun s => set_exchange (with_request_trailers (request_trailers_ (exchange s)) true (exchange s))
                            (set_body_parser (Body.finish_chunked_trailers (body_parser_ s)) s)))%input s)
    (fun _ s' => left_of s' <= left_of s + readable b /\ body_parser_ s' = Body.finish_chunked_trailers (body_parser_ s)).
Proof.
  intros Hb. apply ends_bind. eapply (ends_mono _ (fun _ s1 => left_of s1 <= left_of s + readable b /\ body_parser_ s1 = body_parser_ s)).
  - destruct (0 <? readable b); [|cbn [ret ends]; split; [lia|done]].
    apply ends_bind. eapply ends_mono; [apply append_inbound_ends|]. intros [] s1 (Hl & Hp & _); [|done]. cbn [negb ret ends].
    pose proof (Connection1.length_readable_bytes b Hb). split; [lia|done].
  - intros [] s1 [Hl1 Hp1]. apply ends_bind. eapply ends_mono; [apply spill_ends|]. intros [] s2 [Hl2 Hp2].
    cbn [modify ends]. split; [|destruct s2; cbn in *; congruence].
    assert (left_of (set_exchange (with_request_trailers (request_trailers_ (exchange s2)) true (exchange s2))
      (set_body_parser (Body.finish_chunked_trailers (body_parser_ s2)) s2)) = left_of s2) as -> by (by destruct s2). lia.
Qed.

Lemma read_into_left b s :
  ends (read_into b s) (fun r s' => 0 <= r.1 /\ readable (r.2) = readable b + r.1 /\ left_of s' = left_of s - r.1 /\
    body_parser_ s' = body_parser_ s).
Proof.
  unfold read_into. destruct (writable b =? 0); [cbn [ret ends fst snd]; repeat split; lia|]. apply ends_bind.
  assert (forall k rs, left_of (set_stream (drop k (stream s)) rs s) = left_of s - size (take k (stream s))) as Hd.
  { intros k rs. rewrite !left_of_ahead. assert (size (stream s) = size (take k (stream s)) + size (drop k (stream s))) as Hsp
      by (by rewrite <-length_of_app, take_drop).
    replace (ahead (set_stream _ rs s)) with (ahead s) by (by destruct s).
    replace (stream (set_stream _ rs s)) with (drop k (stream s)) by (by destruct s). lia. }
  unfold read_some. destruct (reads s) as [|[n|e] rs]; [| |done]; cbn [ret ends fst snd];
    rewrite readable_fill; (split; [apply length_of_nonneg|]); (split; [done|]); (split; [apply Hd|by destruct s]).
Qed.

Lemma grow_left b g ps s :
  ends (grow_header_buffer options HeaderLine.replace_buf_ptr b g ps s) (fun r s' =>
    readable (r.1.1) = 0 /\ left_of s' = left_of s /\ body_parser_ s' = body_parser_ s).
Proof.
  unfold grow_header_buffer. destruct (_ =? 0); [done|]. apply ends_bind.
  eapply ends_mono; [apply allocate_any|]. intros [] s1 [l ->]; [|done]. cbn [negb].
  destruct (HeaderLine.replace_buf_ptr _ _ _) as [[[code ps2] b2]|] eqn:Er; [|done]. cbn [asserting ret bind].
  destruct (bool_decide (code = Ok)); [|by destruct (bool_decide _)]. cbn [negb ret ends fst].
  apply Connection1.replace_header_readable in Er. split; [done|]. by destruct s.
Qed.

Lemma trailer_loop_ends fuel b g ps s :
  0 <= readable b -> 2 * left_of s + readable b < Z.of_nat fuel ->
  ends (trailer_loop options fuel b g ps s) (fun _ s' => left_of s' <= left_of s + readable b /\
    body_parser_ s' = Body.finish_chunked_trailers (body_parser_ s)).
Proof.
  revert b g ps s. induction fuel as [|fuel IH]; intros b g ps s Hb Hfuel.
  { pose proof (length_of_nonneg (body_stream s)). unfold left_of in Hfuel. lia. }
  cbn [trailer_loop]. destruct (HeaderLine.execute ps (Some b)) as [[c ps'] [b'|]] eqn:E; [|by destruct c].
  apply Connection1.execute_readable_header in E as (Hb' & Hok); [|done]. destruct c; try done.
  - specialize (Hok eq_refl). destruct (name_span _) as [[a e]|]; [|done]. apply ends_bind. cbn [gets ends].
    destruct (add_field _ _ _) as [added t]. apply ends_bind. cbn [modify ends]. destruct added; cbn [negb]; [|done].
    set (s1 := set_exchange _ s). assert (left_of s1 = left_of s) as Hl by (by destruct s).
    eapply ends_mono; [apply IH; lia|]. intros [] s' [Hle Hp]. split; [lia|]. rewrite Hp. by destruct s.
  - apply ends_bind.
    eapply (ends_mono _ (fun r s1 => 0 <= readable (r.1.1) <= readable b' /\ left_of s1 = left_of s /\ body_parser_ s1 = body_parser_ s)).
    { destruct (_ =? 0); [|cbn [ret ends fst]; split; [lia|done]]. eapply ends_mono; [apply grow_left|].
      intros r s1 (-> & Hr). split; [lia|done]. }
    intros [[b1 g1] ps1] s1. cbn [fst]. intros (Hb1 & Hl1 & Hp1). apply ends_bind. unfold drain_body_input.
    eapply ends_mono; [apply drain_body_loop_ends; right; right; lia|]. intros [k b2] s2. cbn [fst snd]. intros (Hk & Hr2 & Hl2 & Hp2).
    destruct (Z.eqb_spec k 0) as [->|Hnz].
    + apply ends_bind. eapply ends_mono; [apply read_into_left|]. intros [n b3] s3. cbn [fst snd]. intros (Hn & Hr3 & Hl3 & Hp3).
      destruct (Z.eqb_spec n 0) as [|Hne]; [done|].
      eapply ends_mono; [apply IH; lia|]. intros [] s' [Hle Hp]. split; [lia|congruence].
    + eapply ends_mono; [apply IH; lia|]. intros [] s' [Hle Hp]. split; [lia|congruence].
  - eapply ends_mono; [apply end_of_trailers_ends; lia|]. intros [] s' [Hle Hp]. split; [lia|done].
Qed.

Lemma read_request_trailers_ends s :
  ends (read_request_trailers options s) (fun _ s' => left_of s' <= left_of s /\
    body_parser_ s' = Body.finish_chunked_trailers (body_parser_ s)).
Proof.
  unfold read_request_trailers. apply ends_bind. eapply ends_mono; [apply allocate_any|]. intros [] s1 [l ->]; [|done]. cbn [negb].
  destruct (set_allocs_input l s) as (E1 & E2 & E3 & E4). apply ends_bind. cbn [gets ends].
  eapply ends_mono; [apply trailer_loop_ends; [done|]|].
  - rewrite E2. unfold trailer_fuel, left_of, size, readable, new_buffer. cbn [last pos].
    replace (body_stream (set_allocs l s)) with (body_stream s) by (by destruct s). cbn [Http1Detail.last]. lia.
  - intros [] s' [Hle Hp]. rewrite E2 in Hle. rewrite E3 in Hp. split; [|done]. unfold readable, new_buffer in Hle. cbn [Http1Detail.last pos] in Hle. lia.
Qed.

(** What every call leaves: a parser that may go on, and no more input than
    before. *)
Definition going_on (rem : Z) (s s' : Session) : Prop := (exists z, chunking rem z s') /\ left_of s' <= left_of s.

Definition chunk_result (rem : Z) (s : Session) (strict : Prop) (c : BodyChunk) (s' : Session) : Prop :=
  if last c then request_body_complete s' = true else going_on rem s s' /\ (strict -> left_of s' < left_of s).

Lemma chunk_data_ends (next : list (list Z) -> Z -> Io BodyChunk) out budget rem z s :
  chunking rem z s -> 0 < budget ->
  (forall out' budget' s1, (exists z', chunking rem z' s1) -> 0 < budget' ->
     (0 < z -> left_of s1 < left_of s) -> left_of s1 <= left_of s -> ends (next out' budget' s1) (chunk_result rem s1 False)) ->
  ends (chunk_data next out budget s) (chunk_result rem s (0 < z /\ read_call_used_io_ s = false)).
Proof.
  intros Hck Hb Hnext. unfold chunk_data. apply ends_bind. cbn [gets ends]. apply ends_bind. cbn [gets ends].
  rewrite body_input_readable_ahead. destruct ((size (ahead s) =? 0) && read_call_used_io_ s) eqn:Hstop.
  { apply andb_prop in Hstop as [_ Hu]. cbn [ret ends]. unfold chunk_result. cbn [last].
    split; [split; [by exists z|lia]|]. intros [_ Hf]. congruence. }
  apply ends_bind. cbn [gets ends]. rewrite (chunking_remaining _ _ _ Hck). apply ends_bind.
  eapply (ends_mono _ (fun _ s1 => chunking rem z s1 /\ left_of s1 = left_of s /\ (0 < size (ahead s1)))).
  - destruct (Z.eqb_spec (size (ahead s)) 0) as [Hz|Hz].
    + unfold some_input. apply ends_bind. eapply ends_mono; [apply read_more_ends|]. intros k s1 (Hl & Hp & Ha & Hk).
      destruct (Z.eqb_spec k 0); [done|]. cbn [ret ends]. split; [|lia]. destruct Hck as (cp & ? & ?). exists cp. by rewrite Hp.
    + cbn [ret ends]. pose proof (length_of_nonneg (ahead s)). split; [done|]. split; [done|lia].
  - intros [] s1 (Hck1 & Hl1 & Ha1). apply ends_bind. eapply ends_mono; [apply take_piece_ends|].
    intros [n out'] s2. cbn [fst]. rewrite (chunking_remaining _ _ _ Hck1). intros (Hn & Hl2 & Hp2).
    assert (0 <= z) as Hz0 by (by destruct Hck as (? & ? & ? & ?)).
    assert (chunking rem (if z <=? n then 0 else z - n) s2) as Hck2.
    { destruct Hck1 as (cp & Hp1 & Hz1 & _). exists (Chunked.consume n cp). rewrite Hp2, Hp1. split; [done|].
      unfold Chunked.consume. rewrite Hz1. destruct (Z.leb_spec z n); cbn; split; lia. }
    apply ends_bind. cbn [gets ends]. rewrite (chunking_remaining _ _ _ Hck2).
    destruct ((budget - n =? 0) || (0 <? (if z <=? n then 0 else z - n))) eqn:Hret.
    + cbn [ret ends]. unfold chunk_result. cbn [last]. split; [split; [by eexists|lia]|]. intros [Hz _]. lia.
    + apply orb_false_iff in Hret as [Hb1%Z.eqb_neq _].
      eapply ends_mono; [apply (Hnext out' (budget - n) s2); [by eexists|lia|intros; lia|lia]|].
      intros c s'. unfold chunk_result, going_on. destruct (last c); [done|]. intros [[Hz' Hle] _]. split; [split; [done|lia]|]. lia.
Qed.

Lemma chunked_loop_ends fuel out budget rem z s :
  chunking rem z s -> 0 < budget -> left_of s < Z.of_nat fuel ->
  ends (chunked_loop options fuel out budget s) (chunk_result rem s (read_call_used_io_ s = false)).
Proof.
  revert out budget z s. induction fuel as [|fuel IH]; intros out budget z s Hck Hb Hfuel.
  { pose proof (length_of_nonneg (body_stream s)). unfold left_of in Hfuel. lia. }
  cbn [chunked_loop]. apply ends_bind. cbn [gets ends]. apply ends_bind. cbn [gets ends]. apply ends_bind.
  rewrite (chunking_remaining _ _ _ Hck). assert (0 <= z) as Hz0 by (by destruct Hck as (? & ? & ? & ?)).
  destruct (Z.eqb_spec z 0) as [Hz|Hz].
  - eapply ends_mono; [apply (advance_loop_ends _ _ _ rem z); [done|]|].
    { unfold left_of, size. destruct (negb _); lia. }
    intros c s1 ([z' Hck1] & Hle & Hc). destruct Hc as [[-> Hc]|[-> |[-> Hc]]].
    + specialize (Hc Hz). eapply ends_mono; [apply (chunk_data_ends _ out budget rem z' s1 Hck1 Hb)|].
      * intros out' budget' s2 [z2 Hck2] Hb2 _ Hle2. eapply ends_mono; [apply (IH out' budget' z2); [done|done|lia]|].
        intros c s'. unfold chunk_result. destruct (last c); [done|]. intros [Hg _]. by split.
      * intros c s'. unfold chunk_result, going_on. destruct (last c); [done|]. intros [[Hz2 Hle2] _]. split; [split; [done|lia]|]. lia.
    + apply ends_bind. eapply ends_mono; [apply read_request_trailers_ends|]. intros [] s2 [_ Hp2]. cbn [ret ends].
      unfold chunk_result. cbn [last]. unfold request_body_complete. rewrite Hp2. by destruct Hck1 as (cp & -> & _).
    + cbn [ret ends]. unfold chunk_result, going_on. cbn [last]. split; [split; [by exists z'|done]|]. intros Hu.
      apply Hc. left. by rewrite Hu.
  - cbn [ret ends]. eapply ends_mono; [apply (chunk_data_ends _ out budget rem z s Hck Hb)|].
    + intros out' budget' s2 [z2 Hck2] Hb2 Hlt Hle2. eapply ends_mono; [apply (IH out' budget' z2); [done|done|lia]|].
      intros c s'. unfold chunk_result. destruct (last c); [done|]. intros [Hg _]. by split.
    + intros c s'. unfold chunk_result. destruct (last c); [done|]. intros [Hg Hs]. split; [done|]. intros Hu. apply Hs. split; [lia|done].
Qed.

(** A body that is being read: complete, with bytes of it left, or chunked. *)
Definition reading (s : Session) : Prop :=
  request_body_complete s = true \/
  (exists n, 0 < n /\ body_parser_ s = Body.mkBody Body.TContentLength n false Chunked.reset) \/
  (exists rem z, chunking rem z s).

Lemma read_body_ends m s :
  reading s -> 0 < m ->
  ends (read_body options m s) (fun c s' =>
    if last c then request_body_complete s' = true else reading s' /\ left_of s' < left_of s).
Proof.
  intros Hread Hm. unfold read_body. apply ends_bind. cbn [gets ends].
  destruct (request_body_complete s) eqn:Hdone.
  { apply ends_bind. cbn [modify ret ends last]. unfold request_body_complete in *. by destruct s. }
  rewrite (proj2 (Z.eqb_neq m 0)) by lia. apply ends_bind. cbn [modify ends]. apply ends_bind. cbn [gets ends].
  set (s0 := set_used_io false s). assert (left_of s0 = left_of s /\ body_parser_ s0 = body_parser_ s) as [Hl0 Hp0] by (by destruct s).
  destruct Hread as [|[(n & Hn & Hp)|(rem & z & Hck)]]; [congruence| |].
  - rewrite Hp0, Hp. cbn [Body.type_]. unfold read_sized_body. apply ends_bind. cbn [gets ends]. apply ends_bind. cbn [gets ends].
    rewrite body_input_readable_ahead. apply ends_bind.
    eapply (ends_mono _ (fun _ s1 => body_parser_ s1 = body_parser_ s /\ left_of s1 = left_of s /\ (0 < size (ahead s1)))).
    + destruct (Z.eqb_spec (size (ahead s0)) 0) as [Hz|Hz].
      * unfold some_input. apply ends_bind. eapply ends_mono; [apply read_more_ends|]. intros k s1 (Hl & Hp1 & Ha & Hk).
        destruct (Z.eqb_spec k 0); [done|]. cbn [ret ends]. split; [congruence|]. lia.
      * cbn [ret ends]. pose proof (length_of_nonneg (ahead s0)). split; [done|]. lia.
    + intros [] s1 (Hp1 & Hl1 & Ha1). apply ends_bind. eapply ends_mono; [apply take_piece_ends|].
      intros [k out'] s2. cbn [fst snd]. unfold remaining. rewrite Hp1, Hp. unfold Body.remaining, Body.consume. cbn [Body.type_ Body.remaining_ Body.done_ Body.chunked_parser_].
      intros (Hk & Hl2 & Hp2). apply ends_bind. cbn [gets ends]. unfold request_body_complete at 1. rewrite Hp2.
      destruct (Z.leb_spec n k); cbn [Body.done_].
      * apply ends_bind. cbn [modify ret ends last]. unfold request_body_complete.
        replace (body_parser_ (complete_without_trailers s2)) with (body_parser_ s2) by (by destruct s2). by rewrite Hp2.
      * cbn [ret ends last]. split; [|lia]. right. left. exists (n - k). split; [lia|]. by rewrite Hp2.
  - assert (chunking rem z s0) as Hck0 by (destruct Hck as (cp & ? & ?); exists cp; by rewrite Hp0).
    destruct Hck as (cp & Hp & _). rewrite Hp0, Hp. cbn [chunked_with Body.type_]. apply ends_bind. cbn [gets ends].
    eapply ends_mono; [apply (chunked_loop_ends _ [] m rem z s0 Hck0 Hm); unfold left_of, size; lia|].
    intros c s'. unfold chunk_result. destruct (last c); [done|]. intros [[Hz _] Hlt]. split; [|rewrite <-Hl0; apply Hlt; by destruct s].
    right; right. exists rem. exact Hz.
Qed.

Lemma read_pieces_ends ms s :
  reading s -> Forall (fun m => 0 < m) ms -> ends (read_pieces ms s) (fun _ s' => reading s').
Proof.
  intros Hr Hms. revert s Hr. induction Hms as [|m ms Hm Hms IH]; intros s Hr; cbn [read_pieces]; [done|].
  apply ends_bind. eapply ends_mono; [by apply read_body_ends|]. intros c s1. cbv beta. destruct (last c).
  - intros Hd. cbn [ret ends]. by left.
  - intros [Hr1 _]. apply ends_bind. eapply ends_mono; [by apply IH|]. intros cs s' Hr'. exact Hr'.
Qed.

Lemma discard_loop_ends fuel s :
  reading s -> left_of s < Z.of_nat fuel -> ends (discard_loop options fuel s) (fun _ s' => request_body_complete s' = true).
Proof.
  revert s. induction fuel as [|fuel IH]; intros s Hr Hfuel.
  { pose proof (length_of_nonneg (body_stream s)). unfold left_of in Hfuel. lia. }
  cbn [discard_loop]. apply ends_bind. eapply ends_mono; [apply read_body_ends; [done|lia]|].
  intros c s1. cbv beta. destruct (last c); [by intros Hd|]. intros [Hr1 Hlt]. apply IH; [done|lia].
Qed.

(** C23. Reading a body comes to an end: any calls of [read_body], of any positive
    sizes, and then [discard_body], end with a result, an error or an abort,
    whatever arrives and whatever the transport and the allocator do; and when
    [discard_body] succeeds the body is complete.  (Every call that does not fail
    or finish the body takes a byte of the input.) *)
Theorem body_reading_terminates (ms : list Z) (s : Session) :
  0 <= request_content_length_ (exchange s) -> Forall (fun m => 0 < m) ms ->
  ends ((read_pieces ms;; discard_body options)%input (construct_io s)) (fun _ s' => request_body_complete s' = true).
Proof.
  intros Hn Hms. assert (reading (construct_io s)) as Hr.
  { assert (body_parser_ (construct_io s) = body_parser_of (exchange s)) as Hp by (by destruct s).
    unfold body_parser_of in Hp. destruct (request_chunked_ (exchange s)).
    - right; right. exists 0, 0, Chunked.reset. split; [exact Hp|]. split; [done|lia].
    - destruct (negb _ || _) eqn:Hset; [left; unfold request_body_complete; by rewrite Hp|].
      apply orb_false_iff in Hset as [_ Hz%Z.eqb_neq]. right; left. exists (request_content_length_ (exchange s)). split; [lia|].
      rewrite Hp. unfold Body.set_content_length. by rewrite (proj2 (Z.eqb_neq _ 0)). }
  apply ends_bind. eapply ends_mono; [by apply read_pieces_ends|]. intros cs s1 Hr1.
  unfold discard_body. apply discard_loop_ends; [done|]. unfold left_of, size. lia.
Qed.

End input.

(** ** Examples *)

Definition body_session (options : HttpServerOptions) (parser : Body.BodyParser) (inbound : list (list Z)) (stream : list Z)
  (reads : list ReadResult) : @Session (http_headers []) :=
  set_body_parser parser (Connection1.start_session (store := http_headers []) options inbound stream reads).

(** The pieces of the calls, and what is left of the input of the connection. *)
Definition pieces (options : HttpServerOptions) (ms : list Z) (s : @Session (http_headers [])) : list (list Z * bool) * list Z :=
  match read_pieces options ms s with
  | Returns cs s' => (map (fun c => (concat (data_chain c), last c)) cs, body_stream s')
  | _ => ([], [])
  end.

Example chunked_at_once :
  pieces Connection1.small_options [100]
    (body_session Connection1.small_options Body.set_chunked
      [bytes_of_string "3" ++ [CR]; [LF; 97; 98; 99; CR; LF] ++ bytes_of_string "1;x" ++ [CR; LF; 100; CR; LF]]
      (bytes_of_string "0" ++ [CR; LF] ++ bytes_of_string "T: u" ++ [CR; LF; CR; LF; 1; 2]) [])
  = ([([97; 98; 99; 100], true)], [1; 2]).
Proof. vm_compute. reflexivity. Qed.

(** A chunk of 16 bytes whose size line arrives in two reads: between the two the
    parser holds the size 1, and [read_body] takes that as the rest of a chunk.
    The body is the byte ["0"], and the data of the chunk is read as what follows
    the last chunk. *)
Lemma split_chunk_size_misread :
  let text := bytes_of_string "10" ++ [CR; LF] ++ bytes_of_string "A: b" ++ [CR; LF; CR; LF] ++ bytes_of_string "GET /xyz" ++
              [CR; LF] ++ bytes_of_string "0" ++ [CR; LF; CR; LF] in
  pieces Connection1.small_options [100; 100; 100; 100]
    (body_session Connection1.small_options Body.set_chunked [] text [Gives 1]) =
  ([([], false); (bytes_of_string "0", false); ([], true)],
   bytes_of_string "GET /xyz" ++ [CR; LF] ++ bytes_of_string "0" ++ [CR; LF; CR; LF]).
Proof. vm_compute. reflexivity. Qed.

Lemma content_length_body_exact_witness :
  let options := Connection1.small_options in
  let s := Connection1.start_session (store := http_headers []) options [[1; 2]; [3]] [4; 5; 6; 7] [Gives 1] in
  let s := set_exchange (with_framing false true 5 (exchange s)) s in
  exists cs s', read_pieces options [1; 4; 9; 9; 9] (construct_io s) = Returns cs s' /\
    delivered cs = [1; 2; 3; 4; 5] /\ body_stream s' = [6; 7].
Proof.
  intros options s0 s.
  destruct (content_length_body_exact options [1; 4; 9; 9; 9] 5 s) as (cs & s' & Hrun & Hst & _ & Hf & Hfin).
  - reflexivity.
  - reflexivity.
  - reflexivity.
  - split; vm_compute; [reflexivity|discriminate].
  - reflexivity.
  - constructor; [by exists 0%nat|constructor].
  - repeat constructor.
  - exists cs, s'. split; [exact Hrun|]. rewrite Hfin in Hf by (cbn; lia). destruct Hf as [Hsz _].
    assert (concat (inbound_bufs_ s) ++ stream s = [1; 2; 3; 4; 5; 6; 7]) as Hin by (vm_compute; reflexivity).
    rewrite Hin in Hst. clear - Hst Hsz. revert Hst Hsz. generalize (delivered cs), (body_stream s'). unfold size. clear.
    intros d r. destruct d as [|a [|b [|c [|d [|e [|f l]]]]]]; cbn; intros [=] Hl; try lia. by subst.
Defined.

Lemma body_reading_terminates_witness :
  let options := Connection1.small_options in
  let s := Connection1.start_session (store := http_headers []) options [] [1; 2; 3; 4; 5; 6] [Gives 1] in
  let s := set_exchange (with_framing false true 5 (exchange s)) s in
  ends ((read_pieces options [3; 1];; discard_body options)%input (construct_io s)) (fun _ s' => request_body_complete s' = true).
Proof.
  intros options s0 s. apply body_reading_terminates.
  - vm_compute. discriminate.
  - repeat constructor.
Defined.

End RequestBody.
