(* ===== verification/Http1BodyChunked.v ===== *)
(** * Chunked bodies and their trailers

    What [read_body] and [read_request_trailers] (file Http1Body) make of a printed
    chunked body whose bytes have been received: the parser stops at the same
    place whatever the buffers are, the pieces are the data of the chunks, and the
    trailers are entered in the exchange. *)
From S2P Require Import Prelude Http1Detail IoError HttpHeaders HeaderStore HttpExchange.
From S2P Require Import Http1HeaderLine Http1Chunked Http1Input Http1Connection Http1Body.
Import IoError Exchange Input RequestBody.

Module ChunkedBody.

Section received.
Context `{store : HeaderStore}.
Context (options : HttpServerOptions).

Lemma exec_loop_shift_chunked d bs p st sz :
  Chunked.exec_loop bs (p + d) st sz =
  match Chunked.exec_loop bs p st sz with
  | Chunked.LoopData st' rc sz' p' => Chunked.LoopData st' rc sz' (p' + d)
  | r => r
  end.
Proof.
  revert p st sz. induction bs as [|ch bs IH]; intros p st sz; cbn [Chunked.exec_loop]; [done|].
  destruct (Chunked.step st ch sz) as [st' sz'|st' rc sz' []|]; [|f_equal; lia|done|done].
  replace (p + d + 1) with (p + 1 + d) by lia. apply IH.
Qed.

(** What the parser answers on a buffer, by the loop on its bytes. *)
Lemma execute_cursor rem cp f st rc sz p :
  Chunked.exec_loop f 0 (Chunked.start_state cp) (Chunked.size_ cp) = Chunked.LoopData st rc sz p ->
  sz <= size_max - 5 -> rc = Again \/ rc = Ok \/ rc = BodyDone ->
  exists len cursor, Body.execute (chunked_with rem cp) (Some (cursor_of f)) =
    (rc, chunked_with rem (Chunked.mkChunked st sz len), Some cursor) /\ readable cursor = size f - p.
Proof.
  intros Hex Hsz Hrc. unfold Body.execute, chunked_with. cbn [Body.type_ Body.done_ Body.chunked_parser_ Body.remaining_].
  unfold Chunked.execute. assert (readable_bytes (cursor_of f) = f) as ->.
  { unfold readable_bytes, bytes_between, cursor_of. cbn. apply take_ge. unfold size. lia. }
  change (pos (cursor_of f)) with 0. rewrite Hex. unfold Chunked.run_result, Chunked.at_data.
  rewrite (proj2 (Z.ltb_ge _ _)) by lia.
  exists (Chunked.body_length st sz), (Http1Detail.consume (p - pos (cursor_of f)) (cursor_of f)). split.
  - destruct Hrc as [->|[->| ->]]; reflexivity.
  - unfold readable, Http1Detail.consume, cursor_of. cbn. lia.
Qed.

(** [advance_chunked_body] stops where the parser stops on all the bytes received,
    whatever the buffers they are in. *)
Lemma advance_loop_spec fuel m allow rem cp s st rc sz p :
  body_parser_ s = chunked_with rem cp -> Chunked.wf cp ->
  Chunked.exec_loop (ahead s) 0 (Chunked.start_state cp) (Chunked.size_ cp) = Chunked.LoopData st rc sz p ->
  rc = Ok \/ rc = BodyDone -> sz <= size_max - 5 -> (length (ahead s) < fuel)%nat ->
  gives (advance_loop fuel m allow s) (fun c s' => c = rc /\
    exists s1 len, took p s s1 /\ s' = set_body_parser (chunked_with rem (Chunked.mkChunked st sz len)) s1).
Proof.
  revert cp s p. induction fuel as [|fuel IH]; intros cp s p Hp Hwf Hex Hrc Hsz Hfuel; [lia|].
  assert (ahead s <> []) as Hne by (intros Hz; rewrite Hz in Hex; injection Hex as _ <- _ _; naive_solver).
  destruct (parse_front_spec s Hne) as (f & rest & Hah & Hf & Hparse). rewrite Hah in Hex.
  pose proof (Chunked.exec_loop_wf f 0 _ _ Hwf) as Hw1.
  pose proof (Chunked.exec_loop_app_chunked f rest 0 (Chunked.start_state cp) (Chunked.size_ cp)) as Happ.
  destruct (Chunked.exec_loop f 0 (Chunked.start_state cp) (Chunked.size_ cp)) as [st1 rc1 sz1 p1|z] eqn:E1;
    [|rewrite Happ in Hex; discriminate Hex].
  destruct Hw1 as (Hw1 & Hle1 & Hp1). unfold size in *.
  cbn [advance_loop]. destruct (decide (rc1 = Again)) as [->|Hrc1].
  - destruct Happ as [Hp1' Happ]. rewrite Happ in Hex. pose proof (Chunked.exec_loop_wf rest p1 st1 sz1 Hw1) as Hw2.
    rewrite Hex in Hw2. destruct Hw2 as (Hw2 & Hle2 & Hp2).
    destruct (execute_cursor rem cp f st1 Again sz1 p1 E1 ltac:(lia) ltac:(by left)) as (len & cursor & Hexe & Hcur). unfold size in *.
    destruct (Hparse Again _ cursor ltac:(rewrite Hp; exact Hexe) ltac:(lia)) as (s1 & Ht & Hrun).
    unfold bind in Hrun |- *. destruct (front_body_input s) as [source s0|e s0| |]; try discriminate Hrun. rewrite Hrun.
    rewrite (proj2 (Z.eqb_neq _ 0)) by lia. replace (Z.of_nat (length f) - readable cursor) with p1 in Ht by lia.
    assert (ahead s1 = rest) as Hah1.
    { rewrite (took_ahead _ _ _ Ht), Hah. replace (Z.to_nat p1) with (length f) by lia. apply drop_app_length. }
    set (s2 := set_body_parser _ s1). assert (ahead s2 = rest) as Hah2 by (by rewrite <-Hah1; destruct s1).
    eapply gives_mono; [apply (IH (Chunked.mkChunked st1 sz1 len) s2 (p - p1))|].
    + by destruct s1.
    + unfold Chunked.wf. by rewrite Chunked.start_state_id.
    + rewrite Hah2, Chunked.start_state_id by done. cbn [Chunked.size_].
      pose proof (exec_loop_shift_chunked p1 rest 0 st1 sz1) as Hsh. rewrite Z.add_0_l, Hex in Hsh.
      destruct (Chunked.exec_loop rest 0 st1 sz1) as [? ? ? p2|]; [|discriminate Hsh]. injection Hsh as -> -> -> ->.
      f_equal. lia.
    + done.
    + done.
    + rewrite Hah2. rewrite Hah, length_app in Hfuel. lia.
    + intros c s' (-> & s3 & len' & Ht' & ->). split; [done|].
      exists (set_body_parser (body_parser_ s1) s3), len'. split; [|by destruct s3].
      replace p with (p1 + (p - p1)) by lia. eapply took_trans; [lia|lia|exact Ht|].
      apply (took_set_parser _ (body_parser_ s1)) in Ht'. by replace (set_body_parser (body_parser_ s1) s2) with s1 in Ht' by (by destruct s1).
  - assert (Chunked.exec_loop (f ++ rest) 0 (Chunked.start_state cp) (Chunked.size_ cp) = Chunked.LoopData st1 rc1 sz1 p1) as Happ'
      by (by destruct rc1). rewrite Happ' in Hex. injection Hex as -> -> -> ->.
    destruct (execute_cursor rem cp f st rc sz p E1 ltac:(lia) ltac:(by right)) as (len & cursor & Hexe & Hcur). unfold size in *.
    destruct (Hparse rc _ cursor ltac:(rewrite Hp; exact Hexe) ltac:(lia)) as (s1 & Ht & Hrun).
    unfold bind in Hrun |- *. destruct (front_body_input s) as [source s0|e s0| |]; try discriminate Hrun. rewrite Hrun.
    replace (Z.of_nat (length f) - readable cursor) with p in Ht by lia.
    destruct Hrc as [-> | ->]; (split; [done|by exists s1, len]).
Qed.

(** ** Trailers that have been received *)

Lemma readable_length b : buffer_ok b -> size (readable_bytes b) = readable b.
Proof. unfold buffer_ok. intros (?&?&?). unfold size, readable_bytes. rewrite length_bytes_between; [done|lia|lia]. Qed.

(** A field whose line starts the buffer. *)
Lemma execute_field f b ps r :
  Connection1.field_ok f -> buffer_ok b -> HeaderLine.state_ ps = HeaderLine.Start ->
  readable_bytes b = Connection1.print_field f ++ r ->
  exists ps' b' a e, HeaderLine.execute ps (Some b) = (Ok, ps', Some b') /\
    HeaderLine.state_ ps' = HeaderLine.Start /\ buffer_ok b' /\ readable_bytes b' = r /\
    name_span (HeaderLine.line_ ps') = Some (a, e) /\
    bytes_between b' a e = Connection1.f_name f /\ text_of b' (value_span (HeaderLine.line_ ps')) = Connection1.f_value f.
Proof.
  destruct f as [name pad value trail]. unfold Connection1.field_ok, Connection1.print_field. cbn [Connection1.f_name Connection1.f_pad Connection1.f_value Connection1.f_trail].
  intros (Hne & Hby & Hnc & Hv & Htr) Hb Hst Hrd. pose proof Hb as (Hpos & Hl & _).
  pose proof (readable_length b Hb) as Hlen. rewrite Hrd, length_of_app in Hlen. pose proof (length_of_nonneg r) as Hrn.
  set (line := HeaderLine.print_header name pad value trail) in *.
  assert (size line = size name + 1 + Z.of_nat pad + size value + Z.of_nat trail + 2) as Hsz.
  { unfold line, HeaderLine.print_header. rewrite !length_of_app. unfold size. rewrite !length_replicate. cbn. lia. }
  apply size_positive in Hne as Hn0. pose proof (length_of_nonneg value) as Hv0.
  rewrite HeaderLine.execute_nonempty_header by lia. rewrite Hrd, HeaderLine.exec_loop_app_header, Hst.
  unfold line at 1. rewrite HeaderLine.exec_header_line by done. cbn [HeaderLine.loop_result].
  change (Z.of_nat (length name)) with (size name). change (Z.of_nat (length value)) with (size value).
  set (l1 := HeaderLine.set_invalid_header false _). destruct (HeaderLine.store_name_fields 0 name l1) as (lh & -> & _).
  do 4 eexists. split; [reflexivity|]. split; [done|].
  replace (pos b + size name + 1 + Z.of_nat pad + size value + Z.of_nat trail + 1 + 1 - pos b) with (size line) by lia.
  split; [unfold buffer_ok, readable in *; cbn; lia|]. split; [apply (readable_suffix b line); [lia|done|done]|].
  split; [|split].
  - unfold name_span, l1. destruct (HeaderLine.line_ ps). cbn. by rewrite (proj2 (Z.ltb_ge _ _)) by lia.
  - apply (readable_prefix b name ([chr ":"] ++ replicate pad SP ++ value ++ replicate trail SP ++ [CR; LF] ++ r)); [lia|].
    rewrite Hrd. unfold line, HeaderLine.print_header. by rewrite <-!app_assoc.
  - cbn [HeaderLine.line_]. assert (value_span (HeaderLine.set_header_end (Some (pos b + size name + 1 + Z.of_nat pad + size value))
      (HeaderLine.set_header_start (Some (pos b + size name + 1 + Z.of_nat pad)) (HeaderLine.set_header_name_end (Some (pos b + size name))
      (HeaderLine.set_lowcase_header lh l1)))) = Some (pos b + size name + 1 + Z.of_nat pad, pos b + size name + 1 + Z.of_nat pad + size value)) as ->.
    { unfold value_span, l1. destruct (HeaderLine.line_ ps). cbn -[size Z.add]. by rewrite (proj2 (Z.leb_le _ _)) by lia. }
    cbn [text_of]. change (bytes_between (Http1Detail.consume (size line) b)) with (bytes_between b).
    pose proof (readable_middle b (name ++ [chr ":"] ++ replicate pad SP) value (replicate trail SP ++ [CR; LF] ++ r) ltac:(lia)) as Hmid.
    rewrite !length_app, length_replicate in Hmid. change (length [chr ":"]) with 1%nat in Hmid.
    replace (pos b + Z.of_nat (length name + (1 + pad))) with (pos b + size name + 1 + Z.of_nat pad) in Hmid by (unfold size; lia).
    apply Hmid. rewrite Hrd. unfold line, HeaderLine.print_header. by rewrite <-!app_assoc.
Qed.

(** The fields entered in the table, one after the other; [None] is a refusal. *)
Fixpoint add_trailers (fs : list Connection1.HeadField) (x : HttpExchange) : option HttpExchange :=
  match fs with
  | [] => Some x
  | f :: fs' =>
      let '(added, t) := add_field (request_trailers_ x) (Connection1.f_name f) (Connection1.f_value f) in
      if added then add_trailers fs' (with_request_trailers t (request_trailers_complete_ x) x) else None
  end.

(** The body is over and [rest] is what follows it. *)
Definition ended (x : HttpExchange) (rest : list Z) (s s' : Session) : Prop :=
  exchange s' = with_request_trailers (request_trailers_ x) true x /\
  body_parser_ s' = Body.finish_chunked_trailers (body_parser_ s) /\
  concat (inbound_bufs_ s') = rest /\ unread_bytes s' = [] /\ stream s' = stream s /\ reads s' = reads s /\ allocs s' = allocs s.

Lemma trailer_loop_spec fs rest fuel b g ps s x :
  Forall Connection1.field_ok fs -> buffer_ok b -> HeaderLine.state_ ps = HeaderLine.Start ->
  readable_bytes b = Connection1.print_block fs ++ rest ->
  ahead s = [] -> allocs s = [] -> add_trailers fs (exchange s) = Some x -> (length fs < fuel)%nat ->
  gives (trailer_loop options fuel b g ps s) (fun _ s' => ended x rest s s').
Proof.
  intros Hfs. revert fuel b ps s. induction Hfs as [|f fs Hf Hfs IH]; intros fuel b ps s Hb Hst Hrd Hah Hal Hx Hfuel;
    (destruct fuel as [|fuel]; [cbn in Hfuel; lia|]); cbn [trailer_loop].
  - cbn in Hx. injection Hx as <-. change (Connection1.print_block []) with [CR; LF] in Hrd.
    pose proof (readable_length b Hb) as Hlen. rewrite Hrd, length_of_app in Hlen. pose proof (length_of_nonneg rest).
    change (size [CR; LF]) with 2 in Hlen. rewrite HeaderLine.execute_nonempty_header by lia.
    rewrite Hrd, HeaderLine.exec_loop_app_header, Hst.
    destruct (Connection1.exec_blank_line (pos b) (HeaderLine.header_hash ps) (HeaderLine.lowcase_index ps) (HeaderLine.line_ ps)) as [l' ->].
    cbn [HeaderLine.loop_result]. set (b' := Http1Detail.consume _ b).
    assert (readable_bytes b' = rest) as Hrd' by (apply (readable_suffix b [CR; LF]); [apply Hb|done|cbn; lia]).
    assert (readable b' = size rest) as Hr' by (unfold b', readable, Http1Detail.consume in *; cbn; lia).
    destruct (ahead_nil s Hah) as [Hin Hun]. apply gives_bind.
    eapply (gives_mono _ (fun _ s1 => concat (inbound_bufs_ s1) = rest /\ s1 = set_inbound (inbound_bufs_ s1) s)).
    + rewrite Hr'. destruct (Z.ltb_spec 0 (size rest)) as [Hlt|Hge].
      * unfold append_inbound, memory, bind, modify, ret. rewrite Hal. cbn. rewrite Hrd'. destruct s. cbn in *.
        rewrite concat_app, Hin. cbn. by rewrite app_nil_r.
      * cbn. destruct rest; [|unfold size in Hge; cbn in Hge; lia]. split; [done|by destruct s].
    + intros [] s1 [Hc ->]. apply gives_bind. unfold spill_read_buf_to_inbound, bind, gets.
      replace (unread_bytes (set_inbound _ s)) with (@nil Z) by (rewrite <-Hun; by destruct s). cbn.
      unfold ended. destruct s. cbn in *. by repeat split.
  - destruct (execute_field f b ps (Connection1.print_block fs ++ rest) Hf Hb Hst) as (ps' & b' & a & e & Hex & Hst' & Hb' & Hrd' & Hns & Hnm & Hvl).
    { rewrite Hrd. unfold Connection1.print_block. cbn [map concat]. by rewrite <-!app_assoc. }
    rewrite Hex, Hns, Hnm, Hvl. cbn [add_trailers] in Hx. apply gives_bind. cbn [gets gives].
    destruct (add_field _ _ _) as [added t]. destruct added; [|discriminate Hx]. cbn [negb].
    apply gives_bind. cbn [modify gives]. eapply gives_mono.
    + apply (IH fuel b' ps'); [done|done|done|by destruct s|by destruct s|by destruct s; exact Hx|cbn in Hfuel; lia].
    + intros [] s' He. revert He. unfold ended. clear. by destruct s.
Qed.

(** What is ahead fits in the buffer: all of it is copied. *)
Lemma drain_body_loop_spec fuel b k s :
  buffer_ok b -> size (ahead s) <= writable b -> ahead s = [] /\ (0 < fuel)%nat \/ (S (length (inbound_bufs_ s)) < fuel)%nat ->
  gives (drain_body_loop fuel b k s) (fun r s' =>
    r = (k + size (ahead s), fill (ahead s) b) /\ took (size (ahead s)) s s').
Proof.
  revert b k s. induction fuel as [|fuel IH]; intros b k s Hb Hw Hfuel; [lia|].
  assert (ahead s = [] -> forall s', took 0 s s' -> gives (@ret store _ (k, b) s') (fun r s' =>
    r = (k + size (ahead s), fill (ahead s) b) /\ took (size (ahead s)) s s')) as Hstop.
  { intros Hz s' Ht. rewrite Hz. change (size []) with 0. cbn [ret gives]. by rewrite fill_nil, Z.add_0_r. }
  cbn [drain_body_loop]. destruct (Z.leb_spec (writable b) 0) as [Hz|Hp];
    [apply Hstop; [apply size_nil_iff; lia|apply took_none]|].
  apply gives_bind. destruct (front_body_input_spec s) as (source & -> & Hsrc). cbn [gives].
  assert (forall f s1, took (size f) s s1 -> ahead s = f ++ ahead s1 ->
    ahead s1 = [] /\ (0 < fuel)%nat \/ (S (length (inbound_bufs_ s1)) < fuel)%nat ->
    gives (drain_body_loop fuel (fill f b) (k + size f) s1) (fun r s' =>
      r = (k + size (ahead s), fill (ahead s) b) /\ took (size (ahead s)) s s')) as Hgo.
  { intros f s1 Ht Hah Hf. assert (size (ahead s) = size f + size (ahead s1)) as Hsz by (by rewrite Hah, length_of_app).
    pose proof (length_of_nonneg f). pose proof (length_of_nonneg (ahead s1)).
    eapply gives_mono; [apply IH; [apply fill_ok; split; [done|lia]|rewrite Connection1.writable_fill; lia|exact Hf]|].
    intros r s' [-> Ht']. rewrite Hsz. split; [|by eapply took_trans].
    rewrite fill_fill by (split; [done|rewrite length_of_app; lia]). rewrite <-Hah. f_equal. lia. }
  destruct source as [f|bs|].
  - destruct Hsrc as [Hf [c Hd]]. assert (ahead s = f ++ concat c ++ unread_bytes s) as Hah.
    { unfold ahead. rewrite <-concat_drop_empty_front, Hd. cbn. by rewrite app_assoc. }
    pose proof Hah as Hsz. apply (f_equal size) in Hsz. rewrite length_of_app in Hsz. pose proof (length_of_nonneg (concat c ++ unread_bytes s)).
    rewrite Z.min_l by lia. destruct (took_inbound_front (size f) s f c Hd ltac:(lia)) as [Ht Hl]. specialize (Hl eq_refl).
    apply gives_bind. cbn [modify gives]. replace (take (Z.to_nat (size f)) f) with f by (rewrite take_ge; [done|unfold size; lia]).
    apply Hgo; [done| |].
    + rewrite (took_ahead _ _ _ Ht), Hah. unfold size. rewrite Nat2Z.id, drop_app_length. done.
    + destruct Hfuel as [[Hz _]|]; [rewrite Hah in Hz; destruct f; [unfold size in Hf; cbn in Hf; lia|discriminate Hz]|right; lia].
  - destruct Hsrc as (Hd & -> & Hbs). pose proof (ahead_read_buf s Hd) as Hau. rewrite Z.min_l by (rewrite <-Hau; lia).
    pose proof (took_read_buf (size (unread_bytes s)) s Hd) as Ht.
    apply gives_bind. cbn [modify gives]. replace (take (Z.to_nat (size (unread_bytes s))) (unread_bytes s)) with (unread_bytes s)
      by (rewrite take_ge; [done|unfold size; lia]).
    set (s1 := on_read_buf _ _) in *. assert (ahead s1 = []) as Hnil by (rewrite (took_ahead _ _ _ Ht), Hau; apply drop_ge; unfold size; lia).
    apply Hgo; [done|by rewrite Hnil, app_nil_r|left; split; [done|]].
    destruct Hfuel as [[Hz _]|]; [rewrite Hau in Hz; rewrite Hz in Hbs; unfold size in Hbs; cbn in Hbs; lia|lia].
  - apply Hstop; [done|apply took_front].
Qed.

Lemma read_request_trailers_spec fs rest s x :
  Forall Connection1.field_ok fs -> ahead s = Connection1.print_block fs ++ rest -> size (ahead s) <= header_init_size options ->
  allocs s = [] -> add_trailers fs (exchange s) = Some x ->
  gives (read_request_trailers options s) (fun _ s' => ended x rest s s').
Proof.
  intros Hfs Hah Hfit Hal Hx. assert (2 + Z.of_nat (length fs) <= size (Connection1.print_block fs)) as Hblock.
  { unfold Connection1.print_block. rewrite length_of_app. change (size [CR; LF]) with 2. clear.
    induction fs as [|f fs IH]; [cbn -[size]; change (size []) with 0; lia|].
    cbn [map concat length]. rewrite length_of_app. enough (1 <= size (Connection1.print_field f)) by lia.
    unfold Connection1.print_field, HeaderLine.print_header. rewrite !length_of_app. change (size [chr ":"]) with 1.
    unfold size. lia. }
  pose proof Hah as Hsz. apply (f_equal size) in Hsz. rewrite length_of_app in Hsz. pose proof (length_of_nonneg rest).
  unfold read_request_trailers. apply gives_bind. unfold allocate, memory. rewrite (proj2 (Z.eqb_neq _ 0)) by lia. rewrite Hal. cbn [gives negb].
  apply gives_bind. cbn [gets gives]. unfold trailer_fuel. set (b := new_buffer (header_init_size options)).
  assert (buffer_ok b) as Hb by (unfold buffer_ok, b, new_buffer; cbn; rewrite length_replicate; lia).
  assert (writable b = header_init_size options) as Hw by (unfold writable, b, new_buffer; cbn; lia).
  rewrite Nat.add_1_r. cbn [trailer_loop]. rewrite HeaderLine.execute_empty_header by done.
  apply gives_bind. rewrite (proj2 (Z.eqb_neq (writable b) 0)) by lia. cbn [ret gives].
  apply gives_bind. unfold drain_body_input. eapply gives_mono; [apply drain_body_loop_spec; [done|lia|right; lia]|].
  intros r s1 [-> Ht]. cbn [Z.add]. rewrite (proj2 (Z.eqb_neq _ 0)) by lia.
  assert (readable_bytes (fill (ahead s) b) = ahead s) as Hrd.
  { pose proof (fill_bytes (ahead s) b 0 ltac:(by split; [|lia])) as Hf. cbn -[size fill bytes_between] in Hf.
    rewrite (bytes_between_nil b 0 0) in Hf by lia. unfold readable_bytes. change (pos (fill (ahead s) b)) with 0. apply Hf. lia. }
  destruct (took_kept _ _ _ Ht) as (Hk1 & Hk2 & Hk3). destruct (took_stream _ _ _ Ht) as [Hk4 Hk5].
  eapply gives_mono; [apply (trailer_loop_spec fs rest); [done|apply fill_ok; split; [done|lia]|done| | |by rewrite Hk3|by rewrite Hk2|]|].
  - by rewrite Hrd, Hah.
  - rewrite (took_ahead _ _ _ Ht). apply drop_ge. unfold size. lia.
  - rewrite body_stream_ahead, length_app. unfold size in *. lia.
  - intros [] s' (?&?&?&?&?&?&?). unfold ended. repeat split; congruence.
Qed.

(** ** The chunked encoding *)

Record Chunk := mkChunkLine { digits : list Z; data : list Z }.

Definition chunk_ok (c : Chunk) : Prop :=
  Chunked.hex_string (digits c) /\ Chunked.hex_value 0 (digits c) = size (data c) /\ 0 < size (data c) <= size_max - 5.

Definition zero_line (zs : list Z) : Prop := Chunked.hex_string zs /\ zs <> [] /\ Chunked.hex_value 0 zs = 0.

Definition print_chunk (c : Chunk) : list Z := digits c ++ [CR; LF] ++ data c ++ [CR; LF].
Definition print_chunks (cs : list Chunk) (zs : list Z) : list Z := concat (map print_chunk cs) ++ zs ++ [CR; LF].
Definition all_data (cs : list Chunk) : list Z := concat (map data cs).

(** Where a reader is in a chunked body that has been received: [d] is left of the
    current chunk, [cs] follow, [tail] is behind the last chunk. *)
Record in_chunks (d : list Z) (cs : list Chunk) (zs tail : list Z) (s : Session) : Prop := mkInChunks {
  in_chunks_ok : Forall chunk_ok cs;
  in_zero_line : zero_line zs;
  in_allocs : allocs s = [];
  in_parser : exists rem cp, body_parser_ s = chunked_with rem cp /\
    (d = [] /\ Chunked.size_ cp = 0 /\
       (exists lead, Chunked.lead_in (Chunked.start_state cp) lead /\ ahead s = lead ++ print_chunks cs zs ++ tail) \/
     0 < size d <= size_max - 5 /\ Chunked.state_ cp = Chunked.ChunkData /\ Chunked.size_ cp = size d /\
       ahead s = d ++ [CR; LF] ++ print_chunks cs zs ++ tail) }.

Lemma lead_wf cp lead : Chunked.lead_in (Chunked.start_state cp) lead -> Chunked.size_ cp = 0 -> Chunked.wf cp.
Proof. unfold Chunked.wf, Chunked.loop_wf. intros [[-> _]|[-> _]] ->; split; (done || lia). Qed.

(** The size line of the next chunk, or of the last. *)
Lemma advance_to_chunk m allow cs zs tail s :
  in_chunks [] cs zs tail s ->
  gives (advance_chunked_body m allow s) (fun c s' => allocs s' = [] /\ stream s' = stream s /\ exchange s' = exchange s /\
    reads s' = reads s /\
    match cs with
    | [] => c = BodyDone /\ ahead s' = tail /\ exists rem cp, body_parser_ s' = chunked_with rem cp
    | ch :: cs' => c = Ok /\ in_chunks (data ch) cs' zs tail s' /\ size (ahead s') < size (ahead s)
    end).
Proof.
  intros [Hcs Hz Hal (rem & cp & Hp & Hcase)].
  assert (Chunked.size_ cp = 0 /\ exists lead, Chunked.lead_in (Chunked.start_state cp) lead /\ ahead s = lead ++ print_chunks cs zs ++ tail)
    as (Hs0 & lead & Hlead & Hah) by (destruct Hcase as [(_ & ? & ?)|[[Hd _] _]]; [done|change (size []) with 0 in Hd; lia]).
  pose proof (lead_wf _ _ Hlead Hs0) as Hwf. pose proof (length_of_nonneg lead) as Hln.
  unfold advance_chunked_body. assert (length (ahead s) < S (S (length (body_stream s))))%nat as Hfuel
    by (rewrite body_stream_ahead, length_app; lia).
  destruct cs as [|ch cs].
  - destruct Hz as (Hz1 & Hz2 & Hz3). unfold print_chunks in Hah. cbn [map concat app] in Hah.
    set (q := 0 + Z.of_nat (length lead) + Z.of_nat (length zs) + 2).
    assert (Chunked.exec_loop (ahead s) 0 (Chunked.start_state cp) (Chunked.size_ cp) = Chunked.LoopData Chunked.Trailer BodyDone 0 q) as Hex.
    { rewrite Hah, (Chunked.exec_lead_in _ _ _ _ _ Hlead). rewrite <-app_assoc.
      destruct (Chunked.exec_size_line zs tail (0 + Z.of_nat (length lead)) (Chunked.size_ cp) Hz1 Hz2) as [[Hbig _]|[_ ->]];
        rewrite Hz3 in *; [lia|done]. }
    eapply gives_mono; [apply (advance_loop_spec _ _ _ rem cp s _ _ _ _ Hp Hwf Hex); [by right|unfold size_max; lia|done]|].
    intros c s' (-> & s1 & len & [Hta (_ & Hx & Hka) [Hts Htr] _ _ _ _] & ->). split; [destruct s1; cbn in *; congruence|].
    split; [by destruct s1|]. split; [by destruct s1|]. split; [by destruct s1|]. split; [done|].
    split; [|do 2 eexists; by destruct s1].
    transitivity (ahead s1); [by destruct s1|]. rewrite Hta, Hah. unfold q.
    replace (Z.to_nat _) with (length (lead ++ zs ++ [CR; LF])) by (rewrite !length_app; cbn; lia).
    rewrite !app_assoc, <-(app_assoc _ zs). apply drop_app_length.
  - apply Forall_cons in Hcs as [(Hc1 & Hc2 & Hc3) Hcs]. set (v := size (data ch)) in *.
    set (q := 0 + Z.of_nat (length lead) + Z.of_nat (length (digits ch)) + 2).
    set (after := data ch ++ [CR; LF] ++ print_chunks cs zs ++ tail).
    assert (ahead s = lead ++ digits ch ++ [CR; LF] ++ after) as Hah'.
    { rewrite Hah. unfold after, print_chunks, print_chunk. cbn [map concat]. by rewrite <-!app_assoc. }
    assert (after <> []) as Hafter by (unfold after; by destruct (data ch)).
    assert (digits ch <> []) as Hne by (intros Hd; rewrite Hd in Hc2; cbn in Hc2; lia).
    assert (Chunked.exec_loop (ahead s) 0 (Chunked.start_state cp) (Chunked.size_ cp) = Chunked.LoopData Chunked.ChunkData Ok v q) as Hex.
    { rewrite Hah', (Chunked.exec_lead_in _ _ _ _ _ Hlead).
      destruct (Chunked.exec_size_line (digits ch) after (0 + Z.of_nat (length lead)) (Chunked.size_ cp) Hc1 Hne) as [[Hbig _]|[_ ->]];
        rewrite Hc2 in *; [unfold size_max in *; lia|]. rewrite (proj2 (Z.eqb_neq v 0)) by lia.
      by destruct after. }
    eapply gives_mono; [apply (advance_loop_spec _ _ _ rem cp s _ _ _ _ Hp Hwf Hex); [by left|lia|done]|].
    intros c s' (-> & s1 & len & [Hta (_ & Hx & Hka) [Hts Htr] _ _ _ _] & ->). split; [destruct s1; cbn in *; congruence|].
    split; [by destruct s1|]. split; [by destruct s1|]. split; [by destruct s1|]. split; [done|].
    set (s2 := set_body_parser _ s1). assert (ahead s2 = after) as Hah2.
    { transitivity (ahead s1); [by destruct s1|]. rewrite Hta, Hah'. unfold q.
      replace (Z.to_nat _) with (length (lead ++ digits ch ++ [CR; LF])) by (rewrite !length_app; cbn; lia).
      rewrite !app_assoc, <-(app_assoc _ (digits ch)). apply drop_app_length. }
    split.
    + split; [done|done|destruct s1; cbn in *; congruence|]. exists rem, (Chunked.mkChunked Chunked.ChunkData v len).
      split; [by destruct s1|]. right. by rewrite Hah2.
    + rewrite Hah2, Hah', !length_of_app. change (size [CR; LF]) with 2. pose proof (length_of_nonneg (digits ch)). lia.
Qed.

Lemma take_from_chunk out budget d cs zs tail s :
  in_chunks d cs zs tail s -> 0 < size d -> 0 < budget ->
  gives (take_piece out budget s) (fun r s' =>
    let n := Z.min budget (size d) in
    fst r = n /\ concat (snd r) = concat out ++ take (Z.to_nat n) d /\ in_chunks (drop (Z.to_nat n) d) cs zs tail s' /\
    remaining s' = size d - n /\ exchange s' = exchange s /\ stream s' = stream s /\ reads s' = reads s /\
    size (ahead s') = size (ahead s) - n).
Proof.
  intros [Hcs Hz Hal (rem & cp & Hp & Hcase)] Hd Hb.
  assert (size d <= size_max - 5 /\ Chunked.state_ cp = Chunked.ChunkData /\ Chunked.size_ cp = size d /\
    ahead s = d ++ [CR; LF] ++ print_chunks cs zs ++ tail) as (Hmax & Hst & Hsz & Hah)
    by (destruct Hcase as [(Hnil & _)|([_ ?] & ? & ? & ?)]; [rewrite Hnil in Hd; unfold size in Hd; cbn in Hd; lia|done]).
  assert (remaining s = size d) as Hrem by (unfold remaining; by rewrite Hp).
  assert (size (ahead s) = size d + size ([CR; LF] ++ print_chunks cs zs ++ tail)) as Hsa by (by rewrite Hah, length_of_app).
  pose proof (length_of_nonneg ([CR; LF] ++ print_chunks cs zs ++ tail)) as Hnn.
  eapply gives_mono; [apply take_piece_spec; [done|lia|lia]|]. intros [k out'] s'. cbn [fst snd]. rewrite Hrem.
  replace (Z.min budget (Z.min (size d) (size (ahead s)))) with (Z.min budget (size d)) by lia. set (n := Z.min _ _).
  intros (-> & -> & s1 & [Hta (_ & Hx & Hka) [Hts Htr] _ _ _ _] & ->).
  assert (take (Z.to_nat n) (ahead s) = take (Z.to_nat n) d) as -> by (rewrite Hah; apply take_app_le; unfold n, size; lia).
  assert (ahead s1 = drop (Z.to_nat n) d ++ [CR; LF] ++ print_chunks cs zs ++ tail) as Hah1
    by (rewrite Hta, Hah; apply drop_app_le; unfold n, size; lia).
  assert (size (drop (Z.to_nat n) d) = size d - n) as Hsd by (unfold n, size in *; rewrite length_drop; lia).
  split; [done|]. split; [done|]. rewrite Hp. unfold Body.consume, chunked_with. cbn [Body.type_ Body.chunked_parser_ Body.remaining_ Body.done_].
  unfold Chunked.consume. rewrite Hsz, Hst.
  split; [|split; [|split; [by destruct s1|split; [by destruct s1|split; [by destruct s1|]]]]].
  - split; [done|done|destruct s1; cbn in *; congruence|].
    destruct (Z.leb_spec (size d) n) as [Hle|Hgt].
    + exists rem, (Chunked.mkChunked Chunked.ChunkData 0 (Chunked.length_ cp)). split; [by destruct s1|]. left.
      assert (drop (Z.to_nat n) d = []) as Hnil by (apply size_nil_iff; lia). split; [done|]. split; [done|].
      exists [CR; LF]. split; [by right; split; [|left]|]. rewrite Hnil in Hah1. by destruct s1.
    + exists rem, (Chunked.mkChunked Chunked.ChunkData (size d - n) (Chunked.length_ cp)). split; [by destruct s1|]. right.
      rewrite Hsd. split; [lia|]. split; [done|]. split; [done|]. by destruct s1.
  - unfold remaining. destruct s1. cbn [body_parser_ set_body_parser]. unfold Body.remaining. cbn [Body.type_ Body.chunked_parser_].
    destruct (Z.leb_spec (size d) n); cbn [Chunked.size_]; lia.
  - replace (ahead (set_body_parser _ s1)) with (ahead s1) by (by destruct s1). rewrite Hah1, length_of_app, Hsd, Hsa. lia.
Qed.

(** The body has been read, its trailers are in [x], and [rest] comes next. *)
Definition body_read (x : HttpExchange) (rest : list Z) (s' : Session) : Prop :=
  request_body_complete s' = true /\ exchange s' = with_request_trailers (request_trailers_ x) true x /\
  body_stream s' = rest /\ unread_bytes s' = [].

(** The result of [read_body], when [content] was left of the data. *)
Definition next_piece (budget : Z) (content before : list Z) zs tail x (rest : list Z) (s : Session) (c : BodyChunk) (s' : Session) : Prop :=
  concat (data_chain c) = before ++ take (Z.to_nat budget) content /\
  if last c then size content < budget /\ body_read x (rest ++ stream s) s'
  else budget <= size content /\ exchange s' = exchange s /\ stream s' = stream s /\
       exists d' cs', in_chunks d' cs' zs tail s' /\ d' ++ all_data cs' = drop (Z.to_nat budget) content.

Lemma chunked_loop_spec fs rest zs x : forall fuel out budget d cs s,
  let tail := Connection1.print_block fs ++ rest in
  in_chunks d cs zs tail s -> 0 < budget -> Forall Connection1.field_ok fs -> size tail <= header_init_size options ->
  add_trailers fs (exchange s) = Some x -> (length (ahead s) < fuel)%nat ->
  gives (chunked_loop options fuel out budget s) (next_piece budget (d ++ all_data cs) (concat out) zs tail x rest s).
Proof.
  induction fuel as [|fuel IH]; intros out budget d cs s tail Hin Hb Hfs Hfit Hx Hfuel; [lia|].
  assert (forall d cs s1, in_chunks d cs zs tail s1 -> 0 < size d -> exchange s1 = exchange s -> stream s1 = stream s ->
    (length (ahead s1) <= fuel)%nat ->
    gives (chunk_data (chunked_loop options fuel) out budget s1) (next_piece budget (d ++ all_data cs) (concat out) zs tail x rest s)) as Hdata.
  { clear d cs Hin Hfuel. intros d cs s1 Hin Hd Hxs Hss Hfuel. unfold chunk_data. apply gives_bind. cbn [gets gives]. apply gives_bind. cbn [gets gives].
    rewrite body_input_readable_ahead. assert (size d <= size (ahead s1)) as Hda.
    { destruct (in_parser _ _ _ _ _ Hin) as (rem & cp & _ & [(Hnil & _)|(_ & _ & _ & Hah)]); [rewrite Hnil in Hd; unfold size in Hd; cbn in Hd; lia|].
      rewrite Hah, length_of_app. pose proof (length_of_nonneg ([CR; LF] ++ print_chunks cs zs ++ tail)). lia. }
    rewrite (proj2 (Z.eqb_neq _ 0)) by lia. cbn [andb]. apply gives_bind. cbn [gets gives]. apply gives_bind. cbn [ret gives].
    apply gives_bind. eapply gives_mono; [by apply (take_from_chunk out budget d cs zs tail)|]. intros [n out'] s2. cbn [fst snd].
    intros (-> & Hout & Hin2 & Hrem & Hx2 & Hs2 & _ & Ha2). set (n := Z.min _ _) in *. apply gives_bind. cbn [gets gives]. rewrite Hrem.
    destruct (Z.eqb_spec (budget - n) 0) as [Hz|Hnz]; cbn [orb]; [|destruct (Z.ltb_spec 0 (size d - n)) as [|Hle]; [lia|]].
    - unfold next_piece. cbn [ret gives last data_chain]. rewrite Hout. assert (budget <= size d) as Hbd by lia. replace n with budget in * by lia.
      rewrite take_app_le, drop_app_le, length_of_app by (unfold size in *; lia). split; [done|].
      pose proof (length_of_nonneg (all_data cs)). split; [lia|]. split; [congruence|]. split; [congruence|].
      by exists (drop (Z.to_nat budget) d), cs.
    - assert (n = size d) as Hn by lia. rewrite Hn in *.
      assert (take (Z.to_nat (size d)) d = d) as Htk by (apply take_ge; unfold size; lia).
      assert (drop (Z.to_nat (size d)) d = []) as Hdk by (apply drop_ge; unfold size; lia). rewrite Htk in Hout. rewrite Hdk in Hin2.
      eapply gives_mono; [apply (IH out' (budget - size d) [] cs s2 Hin2); try done; [lia|congruence|unfold size in *; lia]|].
      intros c s'. unfold next_piece. cbn [app]. rewrite Hout, (length_of_app d).
      assert (take (Z.to_nat budget) (d ++ all_data cs) = d ++ take (Z.to_nat (budget - size d)) (all_data cs)) as ->
        by (rewrite take_app_ge by (unfold size in *; lia); do 2 f_equal; unfold size; lia).
      assert (drop (Z.to_nat budget) (d ++ all_data cs) = drop (Z.to_nat (budget - size d)) (all_data cs)) as ->
        by (rewrite drop_app_ge by (unfold size in *; lia); f_equal; unfold size; lia).
      rewrite app_assoc. intros [-> Hl]. split; [done|]. destruct (last c).
      + destruct Hl as [Hlt Hl]. rewrite Hs2, Hss in Hl. split; [lia|done].
      + destruct Hl as (Hge & Hl1 & Hl2 & Hl). split; [lia|]. split; [congruence|]. split; [congruence|done]. }
  cbn [chunked_loop]. apply gives_bind. cbn [gets gives]. apply gives_bind. cbn [gets gives]. apply gives_bind.
  destruct (in_parser _ _ _ _ _ Hin) as (rem & cp & Hp & Hcase).
  assert (remaining s = size d) as -> by (unfold remaining; rewrite Hp; cbn; destruct Hcase as [(-> & Hs & _)|(_ & _ & Hs & _)]; exact Hs).
  destruct (Z.eqb_spec (size d) 0) as [Hd|Hd].
  - assert (d = []) as -> by (apply size_nil_iff; lia). eapply gives_mono; [by apply (advance_to_chunk _ _ cs zs tail)|].
    intros c s1 (Hal & Hst & Hxs & _ & Hc). destruct cs as [|ch cs].
    + destruct Hc as (-> & Hah & rem' & cp' & Hp'). apply gives_bind.
      eapply gives_mono; [apply (read_request_trailers_spec fs rest s1 x); [done|by rewrite Hah|by rewrite Hah|done|by rewrite Hxs]|].
      intros [] s' (E1 & E2 & E3 & E4 & E5 & _). unfold next_piece. cbn [ret gives last data_chain].
      unfold all_data. cbn [map concat app]. rewrite take_nil, app_nil_r. split; [done|]. split; [unfold size; cbn; lia|].
      unfold body_read, request_body_complete, body_stream. rewrite E2, Hp', E3, E4, E5, Hst. cbn. by rewrite E1.
    + destruct Hc as (-> & Hin1 & Hlt). cbn [app].
      replace (all_data (ch :: cs)) with (data ch ++ all_data cs) by done.
      apply Hdata; [done| |done|done|unfold size in *; lia].
      pose proof (in_chunks_ok _ _ _ _ _ Hin) as Hok. apply Forall_cons in Hok as [(_ & _ & Hd0) _]. lia.
  - cbn [ret gives]. pose proof (length_of_nonneg d). apply Hdata; [done|lia|done|done|lia].
Qed.

Lemma read_chunked_step m d cs fs rest zs x s :
  let tail := Connection1.print_block fs ++ rest in
  in_chunks d cs zs tail s -> 0 < m -> Forall Connection1.field_ok fs -> size tail <= header_init_size options ->
  add_trailers fs (exchange s) = Some x ->
  gives (read_body options m s) (next_piece m (d ++ all_data cs) [] zs tail x rest s).
Proof.
  intros tail Hin Hm Hfs Hfit Hx. destruct (in_parser _ _ _ _ _ Hin) as (rem & cp & Hp & _).
  unfold read_body. apply gives_bind. cbn [gets gives]. unfold request_body_complete at 1. rewrite Hp. cbn [Body.done_ chunked_with].
  rewrite (proj2 (Z.eqb_neq m 0)) by lia. apply gives_bind. cbn [modify gives]. apply gives_bind. cbn [gets gives].
  set (s0 := set_used_io false s). assert (body_parser_ s0 = chunked_with rem cp) as -> by (by destruct s). cbn [Body.type_ chunked_with].
  assert (in_chunks d cs zs tail s0) as Hin0 by (destruct Hin; unfold s0; destruct s; by split).
  apply gives_bind. cbn [gets gives].
  eapply gives_mono; [apply (chunked_loop_spec fs rest zs x); try done; [rewrite body_stream_ahead, length_app; lia]|].
  intros c s'. by destruct s.
Qed.

Definition total (ms : list Z) : Z := foldr Z.add 0 ms.

Lemma read_pieces_chunked ms fs rest zs x : forall d cs s,
  let tail := Connection1.print_block fs ++ rest in
  in_chunks d cs zs tail s -> Forall (fun m => 0 < m) ms -> Forall Connection1.field_ok fs ->
  size tail <= header_init_size options -> add_trailers fs (exchange s) = Some x ->
  gives (read_pieces options ms s) (fun ps s' => let content := d ++ all_data cs in
    if finished ps then delivered ps = content /\ body_read x (rest ++ stream s) s'
    else delivered ps = take (Z.to_nat (total ms)) content /\ total ms <= size content).
Proof.
  induction ms as [|m ms IH]; intros d cs s tail Hin Hms Hfs Hfit Hx.
  - cbn -[size]. split; [done|apply length_of_nonneg].
  - apply Forall_cons in Hms as [Hm Hms]. cbn [read_pieces total foldr]. fold (total ms).
    assert (0 <= total ms) as Ht by (clear - Hms; unfold total; induction Hms; cbn in *; lia).
    apply gives_bind. eapply gives_mono; [by apply (read_chunked_step m d cs fs rest zs x)|].
    intros c s1 [Hc Hl]. cbn [app] in Hc. set (content := d ++ all_data cs) in *. destruct (last c) eqn:Hlast.
    + destruct Hl as [Hlt Hr]. cbn [ret gives]. unfold finished, delivered. cbn [existsb map concat]. rewrite Hlast, app_nil_r.
      split; [|done]. rewrite Hc. apply take_ge. unfold size in Hlt. lia.
    + destruct Hl as (Hge & Hxs & Hst & d' & cs' & Hin' & Hrest).
      apply gives_bind. eapply gives_mono; [by apply (IH d' cs' s1); [| | | |rewrite Hxs]|].
      intros ps s'. cbv zeta. rewrite Hrest. cbn [ret gives]. unfold finished, delivered. cbn [existsb map concat]. rewrite Hlast. cbn [orb].
      destruct (existsb last ps).
      * rewrite <-Hst. intros [-> Hr]. split; [|done]. by rewrite Hc, take_drop.
      * intros [-> Hle]. split; [rewrite Hc, take_take_rest by lia; done|].
        unfold size in *. rewrite length_drop in Hle. lia.
Qed.

(** C22. A chunked body that has been received is decoded exactly.  The whole body with its
    trailers is among the bytes received ahead, in whatever buffers (a size line that
    arrives in two parts is misread, [split_chunk_size_misread]); the trailers and what
    follows them fit the header buffer, the exchange accepts the trailers, no allocation
    fails, and every call asks for at least one byte.  Then, whatever the positive sizes
    of the calls, [read_body] hands out the data of the chunks in order, every call but
    the last as much as was asked for; the last piece comes with the zero chunk; then the
    trailers are in the exchange, and what follows the body is still to be read. *)
Theorem chunked_body_exact (ms : list Z) (cs : list Chunk) (zs : list Z) (fs : list Connection1.HeadField) (rest : list Z)
  (s : Session) (x : HttpExchange) :
  request_chunked_ (exchange s) = true ->
  concat (inbound_bufs_ s) = print_chunks cs zs ++ Connection1.print_block fs ++ rest ->
  Forall chunk_ok cs -> zero_line zs -> Forall Connection1.field_ok fs ->
  size (Connection1.print_block fs ++ rest) <= header_init_size options ->
  allocs s = [] -> add_trailers fs (exchange s) = Some x -> Forall (fun m => 0 < m) ms ->
  exists ps s', read_pieces options ms (construct_io s) = Returns ps s' /\
    (if finished ps then delivered ps = all_data cs /\ body_read x (rest ++ stream s) s'
     else delivered ps = take (Z.to_nat (total ms)) (all_data cs)) /\
    (size (all_data cs) < total ms -> finished ps = true).
Proof.
  intros Hch Hin Hcs Hzs Hfs Hfit Hal Hx Hms.
  assert (in_chunks [] cs zs (Connection1.print_block fs ++ rest) (construct_io s)) as Hi.
  { split; [done|done|by destruct s|]. exists 0, Chunked.reset.
    split; [unfold construct_io, body_parser_of; rewrite Hch; by destruct s|]. left. split; [done|]. split; [done|].
    exists []. split; [by left|]. unfold ahead. cbn [app]. rewrite <-Hin. destruct s. cbn. by rewrite app_nil_r. }
  destruct (gives_returns _ _ (read_pieces_chunked ms fs rest zs x [] cs _ Hi Hms Hfs Hfit ltac:(by destruct s))) as (ps & s' & Hrun & Hf).
  exists ps, s'. split; [done|]. cbn [app] in Hf. destruct (finished ps).
  - split; [|done]. destruct Hf as [-> Hr]. split; [done|]. by destruct s.
  - destruct Hf as [Hd Hle]. split; [done|lia].
Qed.

End received.

Lemma chunked_body_exact_witness :
  let options := Connection1.small_options in
  let cs := [mkChunkLine (bytes_of_string "3") [97; 98; 99]; mkChunkLine (bytes_of_string "01") [100]] in
  let text := print_chunks cs (bytes_of_string "0") ++
    Connection1.print_block [Connection1.mkHeadField (bytes_of_string "T") 1 (bytes_of_string "u") 0] ++ [1; 2] in
  let s := Connection1.start_session (store := http_headers []) options [take 2 text; drop 2 text] [3] [] in
  let s := set_exchange (with_framing true false 0 (exchange s)) s in
  exists ps s', read_pieces options [2; 9] (construct_io s) = Returns ps s' /\
    delivered ps = [97; 98; 99; 100] /\ body_stream s' = [1; 2; 3].
Proof.
  intros options cs text s0 s.
  set (fs := [Connection1.mkHeadField (bytes_of_string "T") 1 (bytes_of_string "u") 0]) in *.
  assert (match add_trailers fs (exchange s) with Some _ => true | None => false end = true) as Hok by (vm_compute; reflexivity).
  destruct (add_trailers fs (exchange s)) as [x|] eqn:Hx; [|discriminate Hok].
  destruct (chunked_body_exact options [2; 9] cs (bytes_of_string "0") fs [1; 2] s x) as (ps & s' & Hrun & Hf & Hfin).
  - reflexivity.
  - vm_compute. reflexivity.
  - repeat constructor; discriminate.
  - split; [repeat constructor; discriminate|]. split; [discriminate|reflexivity].
  - constructor; [|constructor]. split; [discriminate|]. split; [repeat constructor; discriminate|]. split; [reflexivity|].
    split; [|discriminate]. right. exists [], 117. split; [reflexivity|]. split; [discriminate|]. split; [discriminate|reflexivity].
  - vm_compute. discriminate.
  - reflexivity.
  - exact Hx.
  - repeat constructor.
  - exists ps, s'. split; [exact Hrun|]. rewrite Hfin in Hf by (vm_compute; reflexivity). destruct Hf as [Hd (_ & _ & Hb & _)].
    split; [exact Hd|exact Hb].
Defined.

End ChunkedBody.
