(* ===== verification/Http1BodyPaths.v ===== *)
(** * Every path of the body reader

    What a call of the body reader leaves behind, whether it succeeds or fails: no
    byte of the input comes back, and the body parser can be run on.  The request
    loop (file Http1Run) needs it because a handler may go on after an error. *)
From S2P Require Import Prelude Http1Detail IoError HttpHeaders HeaderStore HttpExchange.
From S2P Require Import Http1HeaderLine Http1Chunked Http1Input Http1Connection Http1Body.
Import IoError Exchange Input RequestBody.

Module BodyPaths.

Section paths.
Context `{store : HeaderStore}.
Context (options : HttpServerOptions).

(** What holds of the result, and what holds after an error. *)
Definition leaves {A} (r : Outcome A) (Q : A -> Session -> Prop) (E : Session -> Prop) : Prop :=
  match r with Returns a s => Q a s | Unexpected _ s => E s | _ => True end.

Lemma leaves_bind {A B} (m : Io A) (f : A -> Io B) Q E s :
  leaves (m s) (fun a s' => leaves (f a s') Q E) E -> leaves (bind m f s) Q E.
Proof. unfold leaves, bind. by destruct (m s). Qed.

Lemma leaves_mono {A} (r : Outcome A) (Q Q' : A -> Session -> Prop) (E E' : Session -> Prop) :
  leaves r Q E -> (forall a s, Q a s -> Q' a s) -> (forall s, E s -> E' s) -> leaves r Q' E'.
Proof. unfold leaves. destruct r; auto. Qed.

Lemma leaves_ends {A} (r : Outcome A) (Q Q' : A -> Session -> Prop) (E : Session -> Prop) :
  ends r Q -> leaves r Q' E -> ends r (fun a s => Q a s /\ Q' a s).
Proof. destruct r; cbn; auto. Qed.

(** ** Parsers that can be run *)

Definition runnable (p : Body.BodyParser) : Prop :=
  Body.done_ p = true \/ (exists n, 0 < n /\ p = Body.mkBody Body.TContentLength n false Chunked.reset) \/
  (exists rem cp, p = chunked_with rem cp /\ 0 <= Chunked.size_ cp).

Lemma reading_runnable s : reading s <-> runnable (body_parser_ s).
Proof.
  unfold reading, runnable, request_body_complete, chunking. split; intros [H|[H|H]]; auto; right; right.
  - destruct H as (rem & z & cp & ? & ? & ?). subst. eauto.
  - destruct H as (rem & cp & ? & ?). eauto 6.
Qed.

Lemma runnable_consume n p : runnable p -> runnable (Body.consume n p).
Proof.
  unfold Body.consume. intros [H|[(m & Hm & ->)|(rem & cp & -> & Hc)]].
  - left. destruct (Body.type_ p); [done|by destruct (_ <=? n)|done].
  - cbn [Body.type_ Body.remaining_]. destruct (Z.leb_spec m n); [by left|]. right; left. exists (m - n). split; [lia|done].
  - right; right. cbn [chunked_with Body.type_]. exists rem, (Chunked.consume n cp). split; [done|]. unfold Chunked.consume.
    destruct (Z.leb_spec (Chunked.size_ cp) n); cbn; lia.
Qed.

Lemma exec_loop_invalid_size bs p st sz :
  0 <= sz -> match Chunked.exec_loop bs p st sz with Chunked.LoopInvalid z => 0 <= z | _ => True end.
Proof.
  revert p st sz. induction bs as [|ch bs IH]; intros p st sz Hsz; cbn [Chunked.exec_loop]; [done|].
  assert (match Chunked.step st ch sz with Chunked.Next _ z | Chunked.Invalid z => 0 <= z | _ => True end) as Hst.
  { destruct st; cbn [Chunked.step];
      unfold Chunked.step_ChunkStart, Chunked.step_ChunkSize, Chunked.step_ChunkExtension, Chunked.step_ChunkExtensionAlmostDone,
        Chunked.step_ChunkData, Chunked.step_AfterData, Chunked.step_AfterDataAlmostDone, Chunked.step_LastChunkExtension,
        Chunked.step_LastChunkExtensionAlmostDone, Chunked.step_Trailer, Chunked.append_hex_digit;
      repeat case_match; simplify_eq; try done;
      try match goal with H : Chunked.hex_digit _ = Some _ |- _ => apply Chunked.hex_digit_range in H; lia end;
      try (unfold wrap; apply Z.mod_pos_bound; lia). }
  destruct (Chunked.step st ch sz); [by apply IH|done|done].
Qed.

Lemma runnable_execute p b : runnable p -> runnable (Body.execute p (Some b)).1.2.
Proof.
  intros [H|[(m & Hm & ->)|(rem & cp & -> & Hc)]].
  - left. unfold Body.execute. destruct (Body.type_ p); [done|done|]. by rewrite H.
  - cbn. by right; left; exists m.
  - unfold Body.execute, chunked_with. cbn [Body.type_ Body.done_ Body.chunked_parser_ Body.remaining_]. unfold Chunked.execute.
    pose proof (exec_loop_basic (readable_bytes b) (pos b) (Chunked.start_state cp) _ Hc) as Hl.
    pose proof (exec_loop_invalid_size (readable_bytes b) (pos b) (Chunked.start_state cp) _ Hc) as Hi.
    assert (forall c cp', 0 <= Chunked.size_ cp' -> runnable (Body.mkBody Body.TChunked rem (bool_decide (c = Done) || false) cp')) as Hr.
    { intros c cp' Hc'. destruct (bool_decide _); [by left|]. right; right. by do 2 eexists. }
    destruct (Chunked.exec_loop _ _ _ _) as [st rc sz p|z]; cbn [Chunked.run_result].
    + unfold Chunked.at_data. destruct (size_max - 5 <? sz); apply Hr; cbn; lia.
    + apply Hr. done.
Qed.

(** ** What every call keeps *)

Definition within (k : Z) (s : Session) : Prop := left_of s <= k /\ runnable (body_parser_ s).

Lemma within_le k k' s : within k s -> k <= k' -> within k' s.
Proof. intros [? ?] ?. split; [lia|done]. Qed.

(** The changes that touch neither the input nor the parser. *)
Lemma same_input s s' :
  inbound_bufs_ s' = inbound_bufs_ s -> read_buf_ s' = read_buf_ s -> stream s' = stream s -> body_parser_ s' = body_parser_ s ->
  left_of s' = left_of s /\ body_parser_ s' = body_parser_ s.
Proof. intros E1 E2 E3 E4. unfold left_of, body_stream, unread_bytes. rewrite E1, E2, E3. by split. Qed.

Ltac same_as s := apply (same_input s); by destruct s.

Lemma within_same k s s' : left_of s' = left_of s /\ body_parser_ s' = body_parser_ s -> within k s -> within k s'.
Proof. intros [Hl Hp]. unfold within. by rewrite Hl, Hp. Qed.

Lemma memory_returns s : exists b l, memory s = Returns b (set_allocs l s).
Proof.
  unfold memory. destruct (allocs s) as [|b l] eqn:Ha; [exists true, []|by exists b, l]. rewrite <-Ha. by destruct s.
Qed.

Lemma allocate_returns n s : exists b l, allocate n s = Returns b (set_allocs l s).
Proof. unfold allocate. destruct (n =? 0); [|apply memory_returns]. exists false, (allocs s). by destruct s. Qed.

Lemma unique_returns s : exists b l, unique s = Returns b (set_owners l s).
Proof.
  unfold unique. destruct (owners s) as [|b l] eqn:Ho; [exists true, []|by exists b, l]. rewrite <-Ho. by destruct s.
Qed.

Lemma new_read_buf_within c bs k s :
  size bs <= size (unread_bytes s) -> within k s -> leaves (new_read_buf c bs s) (fun _ => within k) (within k).
Proof.
  intros Hbs Hs. unfold new_read_buf. apply leaves_bind. destruct (allocate_returns c s) as (ok & l & ->). cbn [leaves].
  assert (within k (set_allocs l s)) as Hl by (apply (within_same k s); [same_as s|done]).
  destruct ok; cbn [negb leaves]; [|done]. cbn [modify leaves]. destruct Hl as [Hk Hp]. split; [|by destruct s].
  unfold left_of, body_stream, unread_bytes in *. destruct s. cbn -[size] in *. rewrite !length_of_app in *. lia.
Qed.

Lemma ensure_within n k s : within k s -> leaves (ensure_read_buf_writable n s) (fun _ => within k) (within k).
Proof.
  intros Hs. unfold ensure_read_buf_writable. destruct (n =? 0); [done|]. apply leaves_bind. cbn [gets leaves].
  destruct (read_buf_ s) as [r|] eqn:Hr; [|apply new_read_buf_within; [apply length_of_nonneg|done]].
  assert (unread_bytes s = unread r) as Hu by (unfold unread_bytes; by rewrite Hr).
  destruct (size (unread r) =? 0) eqn:Hz.
  - apply Z.eqb_eq in Hz. apply leaves_bind. destruct (unique_returns s) as (b & l & ->). cbn [leaves].
    assert (within k (set_owners l s)) as Hl by (apply (within_same k s); [same_as s|done]).
    destruct (b && _).
    + cbn [modify leaves]. destruct Hl as [Hk Hp]. split; [|by destruct s].
      unfold left_of, body_stream, unread_bytes in *. rewrite !length_of_app in *. pose proof (length_of_nonneg (unread r)).
      destruct s. cbn -[size] in *. subst. cbn -[size] in *. change (size []) with 0 in *. lia.
    + apply new_read_buf_within; [|done]. apply length_of_nonneg.
  - destruct (n <=? room r); [done|]. apply new_read_buf_within; [by rewrite Hu|done].
Qed.

(** The bytes a read takes from the peer are not in the input yet. *)
Lemma read_some_within n k s :
  within k s -> leaves (read_some n s) (fun bs => within (k - size bs)) (within k).
Proof.
  intros [Hk Hp]. assert (forall m rs, within (k - size (take m (stream s))) (set_stream (drop m (stream s)) rs s)) as H.
  { intros m rs. split; [|by destruct s]. rewrite left_of_ahead in *.
    assert (size (stream s) = size (take m (stream s)) + size (drop m (stream s))) by (by rewrite <-length_of_app, take_drop).
    replace (ahead (set_stream _ rs s)) with (ahead s) by (by destruct s).
    replace (stream (set_stream _ rs s)) with (drop m (stream s)) by (by destruct s). lia. }
  unfold read_some. destruct (reads s) as [|[m|e] rs]; [apply H|apply H|]. cbn [leaves].
  apply (within_same k s); [same_as s|by split].
Qed.

Lemma read_more_within n k s : within k s -> leaves (read_more n s) (fun _ => within k) (within k).
Proof.
  intros Hs. unfold read_more. destruct (_ =? 0); [done|]. apply leaves_bind.
  eapply leaves_mono; [by apply ensure_within|cbv beta|done]. intros [] s1 Hs1. apply leaves_bind.
  eapply leaves_mono; [by apply read_some_within|cbv beta|done]. intros bs s2 [Hk Hp]. apply leaves_bind. cbn [modify ret leaves].
  split; [|by destruct s2]. unfold left_of, body_stream, unread_bytes in *. destruct s2 as [? ? ? ? ? ? ? ? ? [r|] ?]; cbn -[size] in *;
    rewrite !length_of_app in *; pose proof (length_of_nonneg bs); lia.
Qed.

Lemma append_inbound_within bs k s :
  within (k - size bs) s -> leaves (append_inbound bs s) (fun _ => within k) (within k).
Proof.
  intros [Hk Hp]. unfold append_inbound. apply leaves_bind. destruct (memory_returns s) as (ok & l & ->). cbn [leaves].
  pose proof (length_of_nonneg bs). destruct ok; cbn [negb].
  - apply leaves_bind. cbn [modify ret leaves]. split; [|by destruct s]. unfold left_of, body_stream, unread_bytes in *. destruct s. cbn -[size] in *.
    rewrite concat_app, !length_of_app in *. cbn [concat]. rewrite app_nil_r. lia.
  - cbn [ret leaves]. apply (within_same k s); [same_as s|]. split; [lia|done].
Qed.

Lemma consume_read_within n k s : within k s -> within k (on_read_buf (consume_read n) s).
Proof.
  intros [Hk Hp]. split; [|by destruct s]. unfold left_of, body_stream, unread_bytes in *. rewrite !length_of_app in *.
  destruct s as [? ? ? ? ? ? ? ? ? [r|] ?]; cbn -[size] in *; [|lia].
  assert (size (drop (Z.to_nat n) (unread r)) <= size (unread r)) by (unfold size; rewrite length_drop; lia). lia.
Qed.

Lemma consume_and_compact_size n c : size (concat (consume_and_compact n c)) <= size (concat c).
Proof.
  revert n. induction c as [|f c IH]; intros n; cbn [consume_and_compact]; [lia|]. pose proof (length_of_nonneg f).
  destruct (n <=? 0); [lia|]. destruct (n <? size f); cbn [concat]; rewrite !length_of_app.
  - unfold size. rewrite length_drop. lia.
  - specialize (IH (n - size f)). lia.
Qed.

Lemma consume_inbound_within n k s : within k s -> within k (consume_inbound n s).
Proof.
  intros [Hk Hp]. split; [|by destruct s]. unfold left_of, body_stream, unread_bytes, consume_inbound in *. rewrite !length_of_app in *.
  pose proof (consume_and_compact_size n (inbound_bufs_ s)). destruct s. cbn -[size] in *. lia.
Qed.

Lemma set_parser_within p k s : runnable p -> within k s -> within k (set_body_parser p s).
Proof. intros Hp [Hk _]. split; [by destruct s|by destruct s]. Qed.

Lemma spill_within k s : within k s -> leaves (spill_read_buf_to_inbound s) (fun _ => within k) (within k).
Proof.
  intros [Hk Hp]. unfold spill_read_buf_to_inbound. apply leaves_bind. cbn [gets leaves].
  destruct (_ =? 0); [by split|]. apply leaves_bind. unfold append_inbound.
  apply leaves_bind. destruct (memory_returns s) as (ok & l & ->). cbn [leaves]. destruct ok; cbn [negb].
  - apply leaves_bind. cbn [modify ret leaves negb]. split; [|by destruct s]. unfold left_of, body_stream, unread_bytes in *.
    rewrite !length_of_app in *. destruct s as [? ? ? ? ? ? ? ? ? [r|] ?]; cbn -[size] in *;
      rewrite concat_app, length_of_app; cbn [concat]; rewrite app_nil_r; [|change (size []) with 0 in *; lia].
    replace (drop _ (unread r)) with (@nil Z) by (symmetry; apply drop_ge; unfold size; lia). change (size []) with 0 in *. lia.
  - cbn [ret leaves negb]. apply (within_same k s); [same_as s|by split].
Qed.

Lemma front_within {A} (f : BodyInput -> Io A) Q k s :
  within k s -> (forall source s', within k s' -> leaves (f source s') Q (within k)) ->
  leaves (bind front_body_input f s) Q (within k).
Proof.
  intros Hs Hf. apply leaves_bind. destruct (front_body_input_spec s) as (source & -> & _). cbn [leaves]. apply Hf.
  apply (within_same k s); [|done]. split; [|by destruct s]. unfold left_of, body_stream. destruct s. cbn -[size].
  by rewrite concat_drop_empty_front.
Qed.

Lemma append_piece_within out piece k s : within k s -> leaves (append_piece out piece s) (fun _ => within k) (within k).
Proof.
  intros Hs. unfold append_piece. apply leaves_bind. destruct (memory_returns s) as (ok & l & ->). cbn [leaves].
  assert (within k (set_allocs l s)) by (apply (within_same k s); [same_as s|done]). by destruct ok.
Qed.

Lemma take_prefix_loop_within fuel out len k s :
  within k s -> leaves (take_prefix_loop fuel out len s) (fun _ => within k) (within k).
Proof.
  revert out len s. induction fuel as [|fuel IH]; intros out len s Hs; cbn [take_prefix_loop]; (destruct (len <=? 0); [done|]); [done|].
  apply front_within; [done|]. intros source s1 Hs1. destruct source as [f|bs|]; [| |done].
  all: apply leaves_bind; eapply leaves_mono; [by apply append_piece_within|cbv beta|done]; intros out' s2 Hs2.
  all: apply leaves_bind; cbn [modify leaves]; apply IH.
  - by apply consume_inbound_within.
  - by apply consume_read_within.
Qed.

Lemma take_piece_within out budget k s : within k s -> leaves (take_piece out budget s) (fun _ => within k) (within k).
Proof.
  intros Hs. unfold take_piece. apply leaves_bind. cbn [gets leaves]. apply leaves_bind.
  eapply leaves_mono; [by apply take_prefix_loop_within|cbv beta|done]. intros out' s1 Hs1. apply leaves_bind. cbn [modify ret leaves].
  apply set_parser_within; [|done]. apply runnable_consume. by destruct Hs1.
Qed.

(** ** The chunk parser and the trailers *)

Lemma parse_input_within bs consume k s :
  (forall n s', within k s' -> within k (consume n s')) -> within k s ->
  leaves (parse_input bs consume s) (fun _ => within k) (within k).
Proof.
  intros Hc Hs. unfold parse_input. apply leaves_bind. cbn [gets leaves].
  pose proof (runnable_execute (body_parser_ s) (cursor_of bs) (proj2 Hs)) as Hr.
  destruct (Body.execute _ _) as [[code parser] cursor]. cbn [fst snd] in Hr. apply leaves_bind. cbn [modify leaves].
  apply leaves_bind. pose proof (set_parser_within parser k s Hr Hs). destruct (0 <? _); cbn; auto.
Qed.

Lemma parse_front_within source k s : within k s -> leaves (parse_front source s) (fun _ => within k) (within k).
Proof.
  intros Hs. destruct source as [f|bs|]; [| |done]; cbn [parse_front]; apply leaves_bind;
    (eapply leaves_mono; [apply parse_input_within; [|done]|cbv beta; by intros|done]); intros n s' Hs'.
  - by apply consume_inbound_within.
  - by apply consume_read_within.
Qed.

Lemma advance_loop_within fuel m allow k s : within k s -> leaves (advance_loop fuel m allow s) (fun _ => within k) (within k).
Proof.
  revert allow s. induction fuel as [|fuel IH]; intros allow s Hs; cbn [advance_loop]; [done|].
  apply front_within; [done|]. intros source s1 Hs1. apply leaves_bind.
  eapply leaves_mono; [by apply parse_front_within|cbv beta|done]. intros [[code n]|] s2 Hs2.
  - destruct code; try done. destruct (_ =? 0); [done|by apply IH].
  - destruct (negb allow); [done|]. apply leaves_bind. eapply leaves_mono; [by apply read_more_within|cbv beta|done].
    intros n s3 Hs3. destruct (_ =? 0); [done|by apply IH].
Qed.

Lemma drain_body_never_fails fuel b n s : leaves (drain_body_loop fuel b n s) (fun _ _ => True) (fun _ => False).
Proof.
  revert b n s. induction fuel as [|fuel IH]; intros b n s; cbn [drain_body_loop]; (destruct (_ <=? 0); [done|]); [done|].
  apply leaves_bind. destruct (front_body_input_spec s) as (source & -> & _). cbn [leaves].
  destruct source as [f|bs|]; [| |done]; apply leaves_bind; cbn [modify leaves]; apply IH.
Qed.

Lemma drain_body_input_within b k s :
  within (k - readable b) s -> leaves (drain_body_input b s) (fun r => within (k - readable (r.2))) (within k).
Proof.
  intros [Hk Hp]. unfold drain_body_input.
  pose proof (drain_body_loop_ends (S (S (length (inbound_bufs_ s)))) b 0 s ltac:(right; right; lia)) as He.
  pose proof (drain_body_never_fails (S (S (length (inbound_bufs_ s)))) b 0 s) as Hn.
  destruct (drain_body_loop _ _ _ _) as [[n b'] s'|e s'| |]; cbn -[readable] in *; [|done..].
  destruct He as (H1 & H2 & H3 & H4). unfold within. rewrite H4. split; [lia|done].
Qed.

Lemma grow_within b g ps k s :
  0 <= readable b -> within (k - readable b) s ->
  leaves (grow_header_buffer options HeaderLine.replace_buf_ptr b g ps s)
    (fun r s' => readable (r.1.1) = 0 /\ within k s') (within k).
Proof.
  intros Hb Hs. assert (within k s) as Hk by (eapply within_le; [done|lia]).
  unfold grow_header_buffer. destruct (_ =? 0); [done|]. apply leaves_bind.
  destruct (allocate_returns (next_header_capacity options (capacity_of b) g) s) as (ok & l & ->). cbn [leaves].
  assert (within k (set_allocs l s)) by (apply (within_same k s); [same_as s|done]).
  destruct ok; [|done]. cbn [negb]. apply leaves_bind.
  destruct (HeaderLine.replace_buf_ptr _ _ _) as [[[code ps2] b2]|] eqn:Er; [|done]. cbn [asserting ret leaves].
  destruct (negb _); [done|]. cbn [ret leaves fst]. split; [|done]. by eapply Connection1.replace_header_readable.
Qed.

Lemma read_into_within b k s :
  0 <= readable b -> within (k - readable b) s ->
  leaves (read_into b s) (fun r s' => 0 <= readable (r.2) /\ within (k - readable (r.2)) s') (within k).
Proof.
  intros Hb Hs. unfold read_into. destruct (_ =? 0); [by cbn -[readable]|]. apply leaves_bind.
  eapply leaves_mono; [by apply read_some_within|cbv beta|].
  - intros bs s1 Hs1. cbn [ret leaves snd]. rewrite readable_fill. pose proof (length_of_nonneg bs). split; [lia|].
    eapply within_le; [done|lia].
  - intros s1 Hs1. eapply within_le; [done|lia].
Qed.

Lemma trailer_loop_within fuel b g ps k s :
  0 <= readable b -> within (k - readable b) s ->
  leaves (trailer_loop options fuel b g ps s) (fun _ => within k) (within k).
Proof.
  revert b g ps s. induction fuel as [|fuel IH]; intros b g ps s Hb Hs; cbn [trailer_loop]; [done|].
  assert (within k s) as Hk by (eapply within_le; [done|lia]).
  destruct (HeaderLine.execute ps (Some b)) as [[c ps'] [b'|]] eqn:E; [|by destruct c].
  apply Connection1.execute_readable_header in E as (Hb' & _); [|done].
  assert (within (k - readable b') s) as Hs' by (eapply within_le; [exact Hs|lia]). destruct c; try done.
  - destruct (name_span _) as [[a e]|]; [|done]. apply leaves_bind. cbn [gets leaves].
    destruct (add_field _ _ _) as [added t]. apply leaves_bind. cbn [modify leaves]. set (s1 := set_exchange _ s).
    destruct added; cbn [negb]; [apply IH; [lia|]|]; apply (within_same _ s); (done || same_as s).
  - apply leaves_bind. eapply (leaves_mono _ (fun r s1 => 0 <= readable (r.1.1) /\ within (k - readable (r.1.1)) s1) _ (within k)); [| |done].
    { destruct (_ =? 0); [|cbn -[readable]; split; [lia|done]].
      eapply leaves_mono; [apply grow_within; [lia|done]|cbv beta|done]. intros r s1 [-> ?]. by rewrite Z.sub_0_r. }
    intros [[b1 g1] ps1] s1 [Hb1 Hs1]. cbn [fst] in *. apply leaves_bind.
    pose proof (drain_body_loop_ends (S (S (length (inbound_bufs_ s1)))) b1 0 s1 ltac:(right; right; lia)) as He.
    pose proof (drain_body_input_within b1 k s1 Hs1) as Hd. unfold drain_body_input in *.
    destruct (drain_body_loop _ _ _ _) as [[n b2] s2|e s2| |]; cbn -[readable trailer_loop] in He, Hd |- *; [|done..].
    destruct (n =? 0); [|apply IH; [lia|done]]. apply leaves_bind.
    eapply leaves_mono; [apply read_into_within; [lia|done]|cbv beta|done]. intros [n3 b3] s3 [Hb3 Hs3]. cbn [fst snd] in *.
    destruct (n3 =? 0); [eapply within_le; [done|lia]|by apply IH].
  - apply leaves_bind. eapply (leaves_mono _ (fun _ => within k) _ (within k)); [| |done].
    { destruct (0 <? readable b'); [|done]. apply leaves_bind.
      eapply leaves_mono; [apply append_inbound_within|cbv beta|done].
      - eapply within_le; [done|]. pose proof (Connection1.length_readable_bytes b' ltac:(lia)). lia.
      - intros [] s1 Hs1; done. }
    intros [] s1 Hs1. apply leaves_bind. eapply leaves_mono; [by apply spill_within|cbv beta|done].
    intros [] s2 [Hk2 Hp2]. cbn [modify leaves]. apply (within_same k (set_body_parser (Body.finish_chunked_trailers (body_parser_ s2)) s2)).
    { apply same_input; by destruct s2. }
    apply set_parser_within; [|done]. unfold Body.finish_chunked_trailers. destruct (Body.type_ _) eqn:Ht; [done..|]. by left.
Qed.

Lemma read_request_trailers_within k s :
  within k s -> leaves (read_request_trailers options s) (fun _ => within k) (within k).
Proof.
  intros Hs. unfold read_request_trailers. apply leaves_bind.
  destruct (allocate_returns (header_init_size options) s) as (ok & l & ->). cbn [leaves].
  assert (within k (set_allocs l s)) as Hl by (apply (within_same k s); [same_as s|done]).
  destruct ok; [|done]. cbn [negb]. apply leaves_bind. cbn [gets leaves]. apply trailer_loop_within; [done|].
  change (readable (new_buffer (header_init_size options))) with 0. by rewrite Z.sub_0_r.
Qed.

(** ** [read_body] and [discard_body] *)

Lemma some_input_within n k s : within k s -> leaves (some_input n s) (fun _ => within k) (within k).
Proof.
  intros Hs. unfold some_input. apply leaves_bind. eapply leaves_mono; [by apply read_more_within|cbv beta|done].
  intros m s1 Hs1. by destruct (m =? 0).
Qed.

Lemma chunked_loop_within fuel out budget k s :
  within k s -> leaves (chunked_loop options fuel out budget s) (fun _ => within k) (within k).
Proof.
  revert out budget s. induction fuel as [|fuel IH]; intros out budget s Hs; cbn [chunked_loop]; [done|].
  apply leaves_bind. cbn [gets leaves]. apply leaves_bind. cbn [gets leaves]. apply leaves_bind.
  eapply (leaves_mono _ (fun _ => within k) _ (within k)); [| |done].
  { destruct (_ =? 0); [|done]. by apply advance_loop_within. }
  intros code s1 Hs1.
  assert (leaves (chunk_data (chunked_loop options fuel) out budget s1) (fun _ => within k) (within k)) as Hdata.
  { unfold chunk_data. apply leaves_bind. cbn [gets leaves]. apply leaves_bind. cbn [gets leaves].
    destruct (_ && _); [done|]. apply leaves_bind. cbn [gets leaves]. apply leaves_bind.
    eapply (leaves_mono _ (fun _ => within k) _ (within k)); [| |done].
    { destruct (_ =? 0); [by apply some_input_within|done]. }
    intros [] s2 Hs2. apply leaves_bind. eapply leaves_mono; [by apply take_piece_within|cbv beta|done].
    intros [n out'] s3 Hs3. apply leaves_bind. cbn [gets leaves]. destruct (_ || _); [done|by apply IH]. }
  destruct code; try exact Hdata; [done|]. apply leaves_bind.
  eapply leaves_mono; [by apply read_request_trailers_within|cbv beta|done]. by intros [] s2 Hs2.
Qed.

Lemma complete_within k s : within k s -> within k (complete_without_trailers s).
Proof. apply within_same. same_as s. Qed.

Lemma read_body_within m k s : within k s -> leaves (read_body options m s) (fun _ => within k) (within k).
Proof.
  intros Hs. unfold read_body. apply leaves_bind. cbn [gets leaves].
  destruct (request_body_complete s); [apply leaves_bind; cbn [modify ret leaves]; by apply complete_within|].
  destruct (m =? 0); [done|]. apply leaves_bind. cbn [modify leaves]. apply leaves_bind. cbn [gets leaves].
  set (s0 := set_used_io false s). assert (within k s0) as Hs0 by (apply (within_same k s); [same_as s|done]).
  destruct (Body.type_ _); [..|apply leaves_bind; cbn [gets leaves]; by apply chunked_loop_within].
  all: unfold read_sized_body; apply leaves_bind; cbn [gets leaves]; apply leaves_bind; cbn [gets leaves]; apply leaves_bind.
  all: eapply (leaves_mono _ (fun _ => within k) _ (within k)); [destruct (_ =? 0); [by apply some_input_within|done]| |done].
  all: intros [] s1 Hs1; apply leaves_bind; eapply leaves_mono; [by apply take_piece_within|cbv beta|done].
  all: intros [n out] s2 Hs2; apply leaves_bind; cbn [gets leaves]; destruct (request_body_complete s2); [|done].
  all: apply leaves_bind; cbn [modify ret leaves]; by apply complete_within.
Qed.

Lemma discard_loop_within fuel k s : within k s -> leaves (discard_loop options fuel s) (fun _ => within k) (within k).
Proof.
  revert s. induction fuel as [|fuel IH]; intros s Hs; cbn [discard_loop]; [done|]. apply leaves_bind.
  eapply leaves_mono; [by apply read_body_within|cbv beta|done]. intros c s1 Hs1. destruct (last c); [done|by apply IH].
Qed.

End paths.
End BodyPaths.
