(* ===== verification/Http1Run.v ===== *)
(** * The request loop of a connection
    ([Http1Connection::run], [stopping] and [finish] of
    [src/http/Http1Connection.cpp]; the calls that [HttpExchange]
    ([src/http/HttpExchange.cpp]) forwards to its [HttpExchangeIo])

    A connection parses a request, hands it to the handler, deals with what the
    handler left of the body and of the response, and starts again.  The handler
    is a parameter: for every request a program, that is a finite tree of calls on
    the exchange which sees the answer to each call and the exchange after it.
    [shutting] answers [Http1Server::shutting_down], [transport_calls] is what the
    loop asks of the transport at its end. *)
From S2P Require Import Prelude Http1Detail IoError HttpHeaders HeaderStore HttpExchange Http1Response.
From S2P Require Import HeaderMap Http1RequestLine Http1HeaderLine Http1Chunked Http1Input Http1Connection Http1Body Http1BodyPaths.
Import IoError Exchange.

Module Run.
Import Input Connection1 RequestBody BodyPaths.

(** What a handler may ask of its exchange. *)
Inductive Action :=
  | ReadBody (max_bytes : N) | DiscardBody | Respond (c : Response.Call)
  | SetStatus (status : Z) (reason : list Z) | SetHeader (name value : list Z) | SetTrailer (name value : list Z)
  | SetContentLength (len : Z) | SetChunked | SetClose.

Inductive Answer := Chunk (r : BodyChunk + IoErr) | Discarded (r : option IoErr) | Sent (r : Z + IoErr) | Assigned.

Inductive TransportCall := Shutdown | CloseTransport.

(** How the loop left a request. *)
Inductive Verdict := KeepAlive | BodyLeft | DiscardFailed | ResponseLeft | Closing.

#[export] Instance Verdict_eq_dec : EqDecision Verdict.
Proof. solve_decision. Defined.

Section run.
Context `{store : HeaderStore}.
Context (options : HttpServerOptions).

Inductive Program := Return | Perform (a : Action) (k : Answer -> HttpExchange -> Program).

(** The number of the request on its connection, and the request. *)
Context (handler : nat -> HttpExchange -> Program).

Record State := mkState {
  session : Input.Session; world : Response.World; shutting : list bool;
  finished_ : bool; transport_calls : list TransportCall }.

Definition set_session (s : Input.Session) (st : State) : State :=
  mkState s (world st) (shutting st) (finished_ st) (transport_calls st).
Definition set_world (w : Response.World) (st : State) : State :=
  mkState (session st) w (shutting st) (finished_ st) (transport_calls st).
Definition set_shutting (l : list bool) (st : State) : State :=
  mkState (session st) (world st) l (finished_ st) (transport_calls st).

(** [stopping], and the test in [run]. *)
Definition shutting_down (st : State) : bool * State :=
  match shutting st with [] => (false, st) | b :: l => (b, set_shutting l st) end.

Definition exchange (st : State) : HttpExchange := Input.exchange (session st).
Definition set_exchange (x : HttpExchange) (st : State) : State := set_session (Input.set_exchange x (session st)) st.

Inductive Step (A : Type) := Goes (a : A) (st : State) | Crashes (st : State) | Hangs.
Arguments Goes {A}.
Arguments Crashes {A}.
Arguments Hangs {A}.

(** ** The calls of the handler *)

Definition on_session {A} (m : Input.Io A) (st : State) : Step (A + IoErr) :=
  match m (session st) with
  | Input.Returns a s => Goes (inl a) (set_session s st)
  | Input.Unexpected e s => Goes (inr e) (set_session s st)
  | Input.Aborts => Crashes st
  | Input.OutOfFuel => Hangs
  end.

(** What the response side sees of the connection and of the body parser. *)
Definition response_world (stopping : bool) (st : State) : Response.World :=
  let w := world st in
  Response.mkWorld (exchange st) (Response.response_phase_ w) (Response.response_body_sent_ w) (Response.close_after_response_ w)
    stopping (drain_unread_body options) (request_body_complete (session st))
    (Response.allocs w) (Response.writes w) (Response.wire w).

Definition respond (c : Response.Call) (st : State) : Step (Z + IoErr) :=
  let '(stopping, st) := shutting_down st in
  match Response.perform c (response_world stopping st) with
  | Response.Returns _ n w => Goes (inl n) (set_exchange (Response.exch w) (set_world w st))
  | Response.Unexpected _ e w => Goes (inr e) (set_exchange (Response.exch w) (set_world w st))
  | Response.Overrun _ => Crashes st
  end.

Definition assign (f : HttpExchange -> HttpExchange) (st : State) : Step Answer :=
  Goes Assigned (set_exchange (f (exchange st)) st).

Definition map_step {A B} (f : A -> B) (r : Step A) : Step B :=
  match r with Goes a st => Goes (f a) st | Crashes st => Crashes st | Hangs => Hangs end.

Definition perform_action (a : Action) (st : State) : Step Answer :=
  match a with
  | ReadBody max_bytes => map_step Chunk (on_session (read_body options (Z.of_N max_bytes)) st)
  | DiscardBody =>
      map_step (fun r => Discarded match r with inl _ => None | inr e => Some e end) (on_session (discard_body options) st)
  | Respond c => map_step Sent (respond c st)
  | SetStatus status reason =>
      match set_response_status status reason (exchange st) with
      | Some x => Goes Assigned (set_exchange x st)
      | None => Crashes st
      end
  | SetHeader name value => assign (set_response_header name value) st
  | SetTrailer name value => assign (set_response_trailer name value) st
  | SetContentLength len => assign (set_response_content_length len) st
  | SetChunked => assign set_response_chunked st
  | SetClose => assign set_response_close st
  end.

Fixpoint run_program (p : Program) (st : State) : Step unit :=
  match p with
  | Return => Goes tt st
  | Perform a k =>
      match perform_action a st with
      | Goes r st => run_program (k r (exchange st)) st
      | Crashes st => Crashes st
      | Hangs => Hangs
      end
  end.

(** ** One request *)

(** [HttpExchange exchange(options_)] *)
Definition begin_request (s : Input.Session) : Input.Session :=
  Input.mkSession (Input.inbound_bufs_ s) (Input.stream s) (Input.reads s) (Input.allocs s) (Input.owners s)
    (make_exchange options) [] [] (Input.body_parser_ s) (Input.read_buf_ s) (Input.read_call_used_io_ s).

(** The [Http1ExchangeIo] of the request. *)
Definition construct (s : Input.Session) (st : State) : State :=
  let w := world st in
  set_world (Response.fresh (Input.exchange s) false (drain_unread_body options) false
               (Response.allocs w) (Response.writes w) (Response.wire w))
    (set_session (construct_io s) st).

(** Behind the call of the handler. *)
Definition after_response (st : State) : Step Verdict :=
  if negb (Response.response_complete (world st)) then Goes ResponseLeft st else
  let '(down, st) := shutting_down st in
  if down || negb (Response.should_keep_alive (world st)) then Goes Closing st else Goes KeepAlive st.

Definition after_handler (st : State) : Step Verdict :=
  if negb (request_body_complete (session st)) then
    if drain_unread_body options then
      match on_session (discard_body options) st with
      | Goes (inl _) st => after_response st
      | Goes (inr _) st => Goes DiscardFailed st
      | Crashes st => Crashes st
      | Hangs => Hangs
      end
    else Goes BodyLeft st
  else after_response st.

Definition serve (n : nat) (s : Input.Session) (st : State) : Step Verdict :=
  match run_program (handler n (Input.exchange s)) (construct s st) with
  | Goes _ st => after_handler st
  | Crashes st => Crashes st
  | Hangs => Hangs
  end.

(** ** The loop *)

(** The requests that were handed to the handler, and how they were left. *)
Definition Log : Type := list (HttpExchange * option Verdict).

Inductive Ending := Ended (log : Log) (st : State) | Crashed (log : Log) | Stuck.

Fixpoint request_loop (fuel : nat) (n : nat) (log : Log) (st : State) : Ending :=
  match fuel with
  | O => Stuck
  | S fuel' =>
      let '(down, st) := shutting_down st in
      if down then Ended log st else
      match Connection1.parse_request options (begin_request (session st)) with
      | Input.Returns Ok s =>
          match serve n s st with
          | Goes KeepAlive st => request_loop fuel' (S n) (log ++ [(Input.exchange s, Some KeepAlive)]) st
          | Goes v st => Ended (log ++ [(Input.exchange s, Some v)]) st
          | Crashes st => Crashed (log ++ [(Input.exchange s, None)])
          | Hangs => Stuck
          end
      | Input.Returns _ s => Ended log (set_session s st)
      | Input.Unexpected _ s => Ended log (set_session s st)
      | Input.Aborts => Crashed log
      | Input.OutOfFuel => Stuck
      end
  end.

Definition call_transport (c : TransportCall) (st : State) : State :=
  mkState (session st) (world st) (shutting st) (finished_ st) (transport_calls st ++ [c]).

(** [present]: there is a transport. *)
Definition finish (present : bool) (st : State) : State :=
  if finished_ st then st else
  let st := mkState (session st) (world st) (shutting st) true (transport_calls st) in
  if present then call_transport CloseTransport st else st.

(** [transport]: whether it is valid, if there is one; [handshake]: the error of
    the handshake, if it fails.  Every request takes a byte of the input. *)
Definition run (transport : option bool) (handshake : option IoErr) (st : State) : Ending :=
  match transport with
  | None => Ended [] (finish false st)
  | Some false => Ended [] (finish true st)
  | Some true =>
      match handshake with
      | Some _ => Ended [] (finish true st)
      | None =>
          match request_loop (S (Connection1.pending (session st))) 0 [] st with
          | Ended log st => Ended log (finish true (call_transport Shutdown st))
          | r => r
          end
      end
  end.

End run.

Arguments Goes {store A}.
Arguments Crashes {store A}.
Arguments Hangs {store A}.

(** ** The length a request announces *)

Section length.
Context `{store : HeaderStore}.
Context (options : HttpServerOptions).

Definition length_ok (x : HttpExchange) : Prop := 0 <= request_content_length_ x.

Lemma decimal_nonneg ds n : Forall (fun ch => is_decimal ch = true) ds -> 0 <= n -> 0 <= foldl (fun n ch => n * 10 + (ch - chr "0")) n ds.
Proof.
  intros Hds. revert n. induction Hds as [|ch ds Hch _ IH]; intros n Hn; cbn [foldl]; [done|]. apply IH.
  unfold is_decimal in Hch. bool_to_prop. lia.
Qed.

Lemma span_all f l : Forall (fun c => f c = true) (span f l).1.
Proof.
  induction l as [|c l IH]; cbn [span]; [constructor|]. destruct (f c) eqn:Hc; [|constructor].
  destruct (span f l). by constructor.
Qed.

Lemma from_chars_nonneg v n r : from_chars v = Some (n, r) -> 0 <= n.
Proof.
  unfold from_chars. pose proof (span_all is_decimal v) as Hall. destruct (span is_decimal v) as [ds rest]. destruct (_ || _); [done|].
  intros [= <- <-]. by apply decimal_nonneg.
Qed.

Lemma connection_tokens_length ts x : request_content_length_ (foldl handle_connection_token x ts) = request_content_length_ x.
Proof.
  revert x. induction ts as [|tk ts IH]; intros x; cbn [foldl]; [done|]. rewrite IH. unfold handle_connection_token.
  by repeat case_match.
Qed.

Lemma call_handler_length h x v x' : length_ok x -> call_handler h x v = Some x' -> length_ok x'.
Proof.
  intros Hx. destruct h; cbn [call_handler].
  - unfold handle_content_length. destruct (from_chars v) as [[n [|? ?]]|] eqn:Hn; [|done..]. apply from_chars_nonneg in Hn.
    repeat case_match; intros [= <-]; done.
  - unfold handle_transfer_encoding. intros [= <-]. by case_match.
  - unfold handle_connection. intros [= <-]. unfold length_ok. by rewrite connection_tokens_length.
Qed.

Lemma add_request_header_length m name value lower hash x :
  length_ok x ->
  match add_request_header m name value lower hash x with Some (Field x') => length_ok x' | _ => True end.
Proof.
  intros Hx. unfold add_request_header. destruct (add_view_field _ _ _ _ _) as [added t]. destruct (negb added); [done|].
  destruct (HeaderMap.get_impl _ _ _) as [[h|]|]; [|done..]. destruct (call_handler _ _ _) eqn:Hc; [|done].
  eapply call_handler_length; [|done]. done.
Qed.

(** Moving bytes leaves the exchange alone. *)
Definition same_exchange (s s' : Session) : Prop := Input.exchange s' = Input.exchange s.

Lemma read_into_exchange b s : leaves (read_into b s) (fun _ => same_exchange s) (fun _ => True).
Proof.
  unfold read_into. destruct (_ =? 0); [done|]. apply leaves_bind. unfold read_some.
  destruct (reads s) as [|[n|e] rs]; [..|done]; cbn; by destruct s.
Qed.

Lemma refill_exchange {P} (replace : P -> Buffer -> Buffer -> option (ParseCode * P * Buffer)) b g ps s :
  leaves (refill options replace b g ps s) (fun _ => same_exchange s) (fun _ => True).
Proof.
  unfold refill. apply leaves_bind. eapply (leaves_mono _ (fun _ => same_exchange s)); [| |by intros].
  - destruct (_ =? 0); [|done]. apply leaves_bind.
    assert (leaves (attempt (grow_header_buffer options replace b g ps) s) (fun _ => same_exchange s) (fun _ => True)) as Hg.
    { unfold attempt, grow_header_buffer. destruct (_ =? 0); [done|]. unfold bind.
      destruct (allocate_returns (next_header_capacity options (capacity_of b) g) s) as ([] & l & ->); cbn [negb];
        [|by destruct s]. destruct (replace _ _ _) as [[[c ps2] b2]|]; [|done]. cbn. destruct (bool_decide _); by destruct s. }
    eapply leaves_mono; [exact Hg| |by intros]. intros [t|e] s1 Hs1; [done|]. cbv beta. by destruct (_ =? 0).
  - intros [[[b1 g1] ps1]|code] s1 Hs1; [|done]. apply leaves_bind.
    assert (leaves (drain_inbound b1 s1) (fun _ => same_exchange s) (fun _ => True)) as Hd.
    { unfold drain_inbound. destruct (drain_inbound_loop _ _ _ _) as [[[k c] b2]|]; [|done]. cbn. unfold same_exchange in *. rewrite <-Hs1. by destruct s1. }
    eapply leaves_mono; [exact Hd| |by intros]. intros [k b2] s2 Hs2. cbv beta. destruct (k =? 0); [|done]. apply leaves_bind.
    eapply leaves_mono; [apply read_into_exchange| |by intros]. intros [n b3] s3 Hs3. cbv beta.
    destruct (n =? 0); [done|]. cbn. unfold same_exchange in *. congruence.
Qed.

Lemma request_line_loop_length fuel b g ps s :
  length_ok (Input.exchange s) ->
  leaves (request_line_loop options fuel b g ps s) (fun _ s' => length_ok (Input.exchange s')) (fun _ => True).
Proof.
  revert b g ps s. induction fuel as [|fuel IH]; intros b g ps s Hs; cbn [request_line_loop]; [done|].
  destruct (RequestLine.execute ps (Some b)) as [[c ps'] [b'|]]; [|by destruct c]. destruct c; try done.
  apply leaves_bind. eapply leaves_mono; [apply refill_exchange| |done].
  intros [[[b2 g2] ps2]|code] s2 Hs2; cbv beta; [|cbn; by rewrite Hs2]. apply IH. by rewrite Hs2.
Qed.

Lemma header_loop_length fuel m b g ps s :
  length_ok (Input.exchange s) ->
  leaves (header_loop options fuel m b g ps s) (fun c s' => c = Ok -> length_ok (Input.exchange s')) (fun _ => True).
Proof.
  revert b g ps s. induction fuel as [|fuel IH]; intros b g ps s Hs; cbn [header_loop]; [done|].
  destruct (HeaderLine.execute ps (Some b)) as [[c ps'] [b'|]] eqn:E; [|by apply execute_some_header in E]. destruct c; try done.
  - destruct (name_span _) as [[a e]|]; [|done]. apply leaves_bind. destruct (memory_returns s) as (ok & l & ->). cbn [leaves].
    destruct ok; cbn [negb]; [|done]. apply leaves_bind. cbn [gets leaves]. apply leaves_bind.
    set (added := add_request_header _ _ _ _ _ _).
    assert (match added with Some (Field x') => length_ok x' | _ => True end) as Ha by (apply add_request_header_length; by destruct s).
    destruct added as [[x|x|x]|]; cbn [asserting ret leaves]; [|apply leaves_bind; done..|done].
    apply leaves_bind. cbn [modify leaves]. apply IH. by destruct s.
  - apply leaves_bind. eapply leaves_mono; [apply refill_exchange| |done].
    intros [[[b2 g2] ps2]|code] s2 Hs2; cbv beta; [|cbn; by rewrite Hs2]. apply IH. by rewrite Hs2.
  - unfold finish_head, append_inbound. apply leaves_bind. destruct (memory_returns s) as (ok & l & ->). cbn [leaves].
    destruct ok; cbn [negb]; [|done]. apply leaves_bind. cbn [modify leaves]. destruct (0 <? _); [|cbn; intros _; by destruct s].
    apply leaves_bind. apply leaves_bind. set (s1 := set_header_bufs _ _).
    destruct (memory_returns s1) as (ok & l' & ->). cbn [leaves]. destruct ok; [|done]. cbn. intros _. by destruct s.
Qed.

Lemma parse_request_length s :
  length_ok (Input.exchange s) ->
  leaves (parse_request options s) (fun c s' => c = Ok -> length_ok (Input.exchange s')) (fun _ => True).
Proof.
  intros Hs. unfold parse_request. apply leaves_bind.
  destruct (allocate_returns (header_init_size options) s) as (ok & l & ->). cbn [leaves]. destruct ok; [|done]. cbn [negb].
  apply leaves_bind. cbn [gets leaves]. apply leaves_bind. set (s1 := set_allocs l s). set (b := new_buffer _).
  set (ps := RequestLine.mkParser _ _). pose proof (loop_fuel_work b s1 ltac:(done)) as Hfuel.
  pose proof (request_line_loop_ends options (loop_fuel b s1) b 0 ps s1 ltac:(done) ltac:(lia)) as He.
  pose proof (request_line_loop_length (loop_fuel b s1) b 0 ps s1 ltac:(by destruct s)) as Hl.
  destruct (request_line_loop _ _ _ _ _ _) as [[[b1 g1]|code] s2|e s2| |]; cbn [ends leaves ret] in *; [|by intros ?|done..].
  apply leaves_bind. destruct header_handler_map as [m|]; [|done]. cbn [asserting ret leaves]. apply leaves_bind. cbn [gets leaves].
  by apply header_loop_length.
Qed.

End length.

(** ** Termination *)

Section termination.
Context `{store : HeaderStore}.
Context (options : HttpServerOptions) (handler : nat -> HttpExchange -> Program).

(** A step that comes to an end, and what holds behind it. *)
Definition proceeds {A} (I : State -> Prop) (r : Step A) : Prop :=
  match r with Goes _ st => I st | Crashes _ => True | Hangs => False end.

Lemma proceeds_mono {A} (I J : State -> Prop) (r : Step A) : proceeds I r -> (forall st, I st -> J st) -> proceeds J r.
Proof. unfold proceeds. destruct r; auto. Qed.

Lemma map_step_proceeds {A B} (f : A -> B) I (r : Step A) : proceeds I r -> proceeds I (map_step f r).
Proof. by destruct r. Qed.

(** Nothing is asked of the transport before the loop ends. *)
Context (fin : bool) (calls : list TransportCall).

Definition open (st : State) : Prop := finished_ st = fin /\ transport_calls st = calls.

(** The input and the body parser of the exchange in progress. *)
Definition running (k : Z) (st : State) : Prop := within k (session st) /\ open st.

Lemma on_session_proceeds {A} (m : Io A) k st :
  open st -> ends (m (session st)) (fun _ _ => True) -> leaves (m (session st)) (fun _ => within k) (within k) ->
  proceeds (running k) (on_session m st).
Proof. unfold on_session. intros Ho He Hl. by destruct (m (session st)). Qed.

Lemma shutting_down_spec st : session (shutting_down st).2 = session st /\ (open st -> open (shutting_down st).2).
Proof. unfold shutting_down. by destruct (shutting st). Qed.

Lemma set_exchange_running k x st : running k st -> running k (set_exchange x st).
Proof.
  intros [Hst Ho]. split; [|exact Ho]. revert Hst. apply within_same.
  apply (same_input (session st)); by destruct st as [[] ? ? ? ?].
Qed.

Lemma discard_running k st : running k st -> proceeds (running k) (on_session (discard_body options) st).
Proof.
  intros [Hst Ho]. apply on_session_proceeds; unfold discard_body; [done| |by apply discard_loop_within].
  eapply ends_mono; [apply discard_loop_ends; [apply reading_runnable, Hst|unfold left_of, size; lia]|done].
Qed.

Lemma respond_running k c st : running k st -> proceeds (running k) (respond options c st).
Proof.
  intros Hst. unfold respond. pose proof (shutting_down_spec st) as [Hs Ho]. destruct (shutting_down st) as [down st1]. cbn in Hs, Ho.
  assert (running k st1) as H1 by (destruct Hst; split; [by rewrite Hs|auto]).
  destruct (Response.perform c _) as [n w|e w|]; cbn [proceeds]; [..|done]; apply set_exchange_running; exact H1.
Qed.

Lemma read_body_any (m : N) s : reading s -> ends (read_body options (Z.of_N m) s) (fun _ _ => True).
Proof.
  intros Hr. destruct (decide (m = 0%N)) as [->|Hm].
  - unfold read_body. apply ends_bind. cbn [gets ends]. by destruct (request_body_complete s).
  - eapply ends_mono; [apply read_body_ends; [done|lia]|]. done.
Qed.

Lemma perform_action_running k a st : running k st -> proceeds (running k) (perform_action options a st).
Proof.
  intros Hst. pose proof (proj2 (reading_runnable _) (proj2 (proj1 Hst))) as Hr.
  destruct a as [m| |c|status reason|name value|name value|len| |]; cbn [perform_action]; unfold assign;
    try (by apply set_exchange_running).
  - apply map_step_proceeds, on_session_proceeds; [apply Hst|by apply read_body_any|apply read_body_within, Hst].
  - by apply map_step_proceeds, discard_running.
  - by apply map_step_proceeds, respond_running.
  - destruct (set_response_status _ _ _); [by apply set_exchange_running|done].
Qed.

Lemma run_program_running k p st : running k st -> proceeds (running k) (run_program options p st).
Proof.
  revert st. induction p as [|a next IH]; intros st Hst; cbn [run_program]; [done|].
  pose proof (perform_action_running k a st Hst) as Ha. by destruct (perform_action options a st); [apply IH|..].
Qed.

Lemma after_response_running k st : running k st -> proceeds (running k) (after_response st).
Proof.
  intros Hst. unfold after_response. destruct (negb _); [done|].
  pose proof (shutting_down_spec st) as [Hs Ho]. destruct (shutting_down st) as [down st1]. cbn in Hs, Ho. destruct Hst.
  destruct (down || _); cbn [proceeds]; (split; [by rewrite Hs|auto]).
Qed.

Lemma after_handler_running k st : running k st -> proceeds (running k) (after_handler options st).
Proof.
  intros Hst. unfold after_handler.
  destruct (negb _); [|by apply after_response_running]. destruct (drain_unread_body options); [|done].
  pose proof (discard_running k st Hst) as Hd.
  destruct (on_session _ _) as [[[]|e] st1| |]; [by apply after_response_running|done..].
Qed.

Lemma construct_running s st :
  length_ok (Input.exchange s) -> open st -> running (available s) (construct options s st).
Proof.
  intros Hl Ho. split; [|exact Ho]. replace (session (construct options s st)) with (construct_io s) by done. split.
  - unfold left_of, body_stream, available. by destruct s.
  - replace (body_parser_ (construct_io s)) with (body_parser_of (Input.exchange s)) by (by destruct s). unfold body_parser_of.
    destruct (request_chunked_ (Input.exchange s)); [right; right; by exists 0, Chunked.reset|].
    destruct (negb _ || _) eqn:Hset; [by left|]. apply orb_false_iff in Hset as [_ Hz%Z.eqb_neq]. unfold length_ok in Hl.
    right; left. exists (request_content_length_ (Input.exchange s)). split; [lia|]. unfold Body.set_content_length.
    by rewrite (proj2 (Z.eqb_neq _ 0)).
Qed.

Lemma serve_running n s st :
  length_ok (Input.exchange s) -> open st -> proceeds (running (available s)) (serve options handler n s st).
Proof.
  intros Hl Ho. unfold serve. pose proof (run_program_running _ (handler n (Input.exchange s)) _ (construct_running s st Hl Ho)) as Hp.
  destruct (run_program _ _ _); [by apply after_handler_running|done..].
Qed.

Definition comes_to_end (r : Ending) : Prop := match r with Ended _ st => open st | Crashed _ => True | Stuck => False end.

Lemma begin_request_available s : available (begin_request options s) = available s.
Proof. by destruct s. Qed.

Lemma running_available k st : running k st -> available (session st) <= k.
Proof.
  intros [[Hk _] _]. unfold left_of, body_stream, available in *. rewrite !length_of_app in *.
  pose proof (length_of_nonneg (unread_bytes (session st))). lia.
Qed.

Lemma request_loop_ends fuel n log st :
  open st -> available (session st) < Z.of_nat fuel -> comes_to_end (request_loop options handler fuel n log st).
Proof.
  revert n log st. induction fuel as [|fuel IH]; intros n log st Ho Hfuel.
  { pose proof (length_of_nonneg (concat (inbound_bufs_ (session st)) ++ stream (session st))). unfold available in Hfuel. lia. }
  cbn [request_loop]. pose proof (shutting_down_spec st) as [Hs Ho1]. destruct (shutting_down st) as [down st1]. cbn in Hs, Ho1.
  specialize (Ho1 Ho). destruct down; [done|].
  pose proof (parse_request_ends options (begin_request options (session st1))) as He.
  pose proof (parse_request_length options (begin_request options (session st1)) ltac:(done)) as Hl.
  assert (available (begin_request options (session st1)) = available (session st)) as Ha by (by rewrite begin_request_available, Hs).
  destruct (parse_request options _) as [c s|e s| |]; cbn [ends leaves] in He, Hl; try done.
  destruct c; try done. specialize (He eq_refl). specialize (Hl eq_refl).
  pose proof (serve_running n s st1 Hl Ho1) as Hserve. destruct (serve options handler n s st1) as [v st2|st2|]; [|done..].
  destruct v; try apply Hserve. apply IH; [apply Hserve|]. apply running_available in Hserve. lia.
Qed.

End termination.

(** C18. Every connection comes to an end, and is then closed: whatever finite
    programs the handlers are, whatever the peer sends before it stops, in whatever
    pieces, whatever the transport, the allocators and the server's shutdown flag
    do.  Unless an assertion fails, [run] returns, it has asked the transport to
    shut down if the handshake succeeded, and has closed it exactly once.
    (Every request that is handed to a handler has taken a byte of the input, and no
    call of a handler, failing or not, gives one back.) *)
Theorem connection_ends `{store : HeaderStore} (options : HttpServerOptions) (handler : nat -> HttpExchange -> Program)
    (valid : bool) (handshake : option IoErr) (st : State) :
  finished_ st = false ->
  match run options handler (Some valid) handshake st with
  | Ended _ st' =>
      finished_ st' = true /\
      transport_calls st' =
        transport_calls st ++ (if valid && bool_decide (handshake = None) then [Shutdown] else []) ++ [CloseTransport]
  | Crashed _ => True
  | Stuck => False
  end.
Proof.
  intros Hf. unfold run, finish. rewrite Hf. destruct valid; [|done]. destruct handshake as [e|]; [done|].
  pose proof (request_loop_ends options handler false (transport_calls st) (S (pending (session st))) 0 [] st) as He.
  destruct (request_loop _ _ _ _ _ _) as [log st'|log|]; [|done|apply He; [done|]].
  - destruct He as [He1 He2]; [done|unfold available, pending, size; rewrite length_app; lia|].
    cbn. rewrite He1. cbn. split; [done|]. by rewrite He2, <-app_assoc.
  - unfold available, pending, size. rewrite length_app. lia.
Qed.

(** ** Requests in order *)

(** A request as the peer writes it: head and sized body. *)
Record Request := mkRequest {
  r_method : list Z; r_path : list Z; r_query : option (list Z); r_minor : Z; r_fields : list HeadField; r_body : list Z }.

Definition request_head (r : Request) : list Z := print_head (r_method r) (r_path r) (r_query r) (r_minor r) (r_fields r).
Definition print_request (r : Request) : list Z := request_head r ++ r_body r.

Section order.
Context `{store : HeaderStore}.
Context (options : HttpServerOptions) (handler : nat -> HttpExchange -> Program).

(** The request is well formed, its head fits the header buffer, and its fields
    make of a new exchange the exchange [x], which announces the body. *)
Record announces (r : Request) (x : HttpExchange) : Prop := mkAnnounces {
  ann_method : r_method r <> [] /\ Forall RequestLine.method_char (r_method r);
  ann_path : Forall RequestLine.usual_char (r_path r);
  ann_query : forall q, r_query r = Some q -> Forall RequestLine.query_char q;
  ann_minor : 0 <= r_minor r <= 9;
  ann_fields : Forall field_ok (r_fields r);
  ann_fits : size (request_head r) <= header_init_size options;
  ann_parsed : apply_header (r_fields r)
      (with_printed_line (r_method r) (r_path r) (r_query r) (r_minor r) (make_exchange options)) = Some (Field x);
  ann_sized : request_chunked_ x = false;
  ann_length : size (r_body r) = if request_content_length_set_ x then request_content_length_ x else 0 }.

(** The handlers saw these requests, in this order, each once and no other; they
    saw all of them unless the last one they saw ended the connection. *)
Inductive served : list HttpExchange -> Log -> Prop :=
  | served_all : served [] []
  | served_last x xs v : v <> Some KeepAlive -> served (x :: xs) [(x, v)]
  | served_next x xs log : served xs log -> served (x :: xs) ((x, Some KeepAlive) :: log).

(** A connection in good order: memory, a transport that delivers, and no more
    bytes received ahead than the header buffer holds. *)
Record orderly (s : Session) : Prop := mkOrderly {
  ord_chain : nonempty (inbound_bufs_ s);
  ord_cap : size (concat (inbound_bufs_ s)) <= header_init_size options;
  ord_allocs : Input.allocs s = [];
  ord_reads : steady (reads s) }.

(** Behind a body: [rest] is what follows it. *)
Definition behind_body (rest : list Z) (s : Session) : Prop :=
  request_body_complete s = true /\ unread_bytes s = [] /\ body_stream s = rest.

Definition in_body (rest : list Z) (s : Session) : Prop :=
  exists d, sized (size d) s /\ body_stream s = d ++ rest.

Definition with_body (rest : list Z) (s : Session) : Prop := orderly s /\ (behind_body rest s \/ in_body rest s).

Lemma read_body_keeps rest m s :
  with_body rest s -> 0 <= m ->
  gives (read_body options m s) (fun c s' => with_body rest s' /\
    if last c then behind_body rest s' else 0 < m -> left_of s' < left_of s).
Proof.
  intros [Ho Hb] Hm. destruct Hb as [(Hd & Hu & Hr)|(d & Hs & Hr)].
  - unfold read_body. apply gives_bind. cbn [gets gives]. rewrite Hd. apply gives_bind. cbn [modify ret gives last].
    assert (orderly (complete_without_trailers s) /\ behind_body rest (complete_without_trailers s)) as [H1 H2].
    { split; [destruct Ho; split; by destruct s|]. unfold behind_body. by destruct s. }
    split; [|done]. split; [done|by left].
  - destruct (decide (m = 0)) as [->|Hnz].
    + unfold read_body. apply gives_bind. cbn [gets gives]. unfold request_body_complete. rewrite (sized_parser _ _ Hs).
      cbn [Body.done_ Z.eqb ret gives last]. split; [split; [done|right; by exists d]|lia].
    + eapply gives_mono; [apply (read_sized_step options (size d)); [done|lia]|]. intros c s'. cbv zeta.
      intros ((Hch & Ha & Hrd) & Hst & Hsz & Hl). rewrite Hr in Hst. set (d1 := concat (data_chain c)) in *.
      assert (orderly s') as Ho'.
      { destruct Ho, Hch. split; [auto|lia|done|done]. }
      assert (d = d1 ++ drop (length d1) d /\ body_stream s' = drop (length d1) d ++ rest) as [Hd Hst'].
      { assert (length d1 <= length d)%nat by (unfold size in *; lia). split.
        - apply (f_equal (take (length d1))) in Hst. rewrite take_app_le, take_app_length in Hst by done.
          rewrite <-Hst at 1. by rewrite take_drop.
        - apply (f_equal (drop (length d1))) in Hst. rewrite drop_app_le, drop_app_length in Hst by done. done. }
      assert (size d = size d1 + size (drop (length d1) d)) as Hsd by (rewrite Hd at 1; by rewrite length_of_app).
      assert (left_of s' < left_of s) as Hlt.
      { unfold left_of. rewrite Hr, Hst', !length_of_app. lia. }
      destruct (last c).
      * destruct Hl as [Hn (Hc & Hu & _)]. assert (drop (length d1) d = []) as Hnil.
        { apply size_nil_iff. lia. }
        rewrite Hnil in Hst'. assert (behind_body rest s') by done. split; [|done]. split; [done|by left].
      * split; [|done]. split; [done|]. right. exists (drop (length d1) d). split; [|done].
        by replace (size (drop (length d1) d)) with (size d - size d1) by lia.
Qed.

Lemma discard_keeps rest s :
  with_body rest s -> gives (discard_body options s) (fun _ s' => orderly s' /\ behind_body rest s').
Proof.
  intros Hs. unfold discard_body. assert (left_of s < Z.of_nat (S (length (body_stream s)))) as Hf by (unfold left_of, size; lia).
  revert Hf. generalize (S (length (body_stream s))) as fuel. intros fuel. revert s Hs.
  induction fuel as [|fuel IH]; intros s Hs Hf.
  { pose proof (length_of_nonneg (body_stream s)). unfold left_of in Hf. lia. }
  cbn [discard_loop]. apply gives_bind. eapply gives_mono; [apply read_body_keeps; [done|lia]|]. intros c s1. cbv beta.
  intros [Hs1 Hl]. destruct (last c); [by destruct Hs1|]. apply IH; [done|lia].
Qed.

(** A handler's calls stay within the body. *)
Definition handling (rest : list Z) (st : State) : Prop := with_body rest (session st) /\ shutting st = [].

Lemma shutting_down_never st : shutting st = [] -> shutting_down st = (false, st).
Proof. unfold shutting_down. by intros ->. Qed.

Lemma with_body_exchange rest x s : with_body rest s -> with_body rest (Input.set_exchange x s).
Proof.
  intros [[] Hb]. split; [by split; destruct s|]. destruct Hb as [(?&?&?)|(d & [] & ?)]; [left|right].
  - unfold behind_body. by destruct s.
  - exists d. split; [split|]; by destruct s.
Qed.

Lemma set_exchange_handling rest x st : handling rest st -> handling rest (set_exchange x st).
Proof. intros [Hb Hs]. split; [by apply with_body_exchange|done]. Qed.

Lemma on_session_handling {A} (m : Io A) rest st :
  shutting st = [] -> gives (m (session st)) (fun _ s' => with_body rest s') -> proceeds (handling rest) (on_session m st).
Proof. unfold on_session. intros Hs Hg. by destruct (m (session st)). Qed.

Lemma perform_action_handling rest a st : handling rest st -> proceeds (handling rest) (perform_action options a st).
Proof.
  intros Hst. destruct a as [m| |c|status reason|name value|name value|len| |]; cbn [perform_action]; unfold assign;
    try (by apply set_exchange_handling).
  - apply map_step_proceeds, on_session_handling; [apply Hst|].
    eapply gives_mono; [apply read_body_keeps; [apply Hst|lia]|]. by intros c s' [? _].
  - apply map_step_proceeds, on_session_handling; [apply Hst|].
    eapply gives_mono; [apply discard_keeps, Hst|]. intros c s' [? ?]. split; [done|by left].
  - apply map_step_proceeds. unfold respond. rewrite shutting_down_never by apply Hst.
    destruct (Response.perform c _) as [n w|e w|]; cbn [proceeds]; [..|done]; by apply set_exchange_handling.
  - destruct (set_response_status _ _ _); [by apply set_exchange_handling|done].
Qed.

Lemma run_program_handling rest p st : handling rest st -> proceeds (handling rest) (run_program options p st).
Proof.
  revert st. induction p as [|a next IH]; intros st Hst; cbn [run_program]; [done|].
  pose proof (perform_action_handling rest a st Hst) as Ha. by destruct (perform_action options a st); [apply IH|..].
Qed.

(** A connection that is kept alive is ready for what follows the body. *)
Definition ready (rest : list Z) (st : State) : Prop :=
  orderly (session st) /\ shutting st = [] /\ concat (inbound_bufs_ (session st)) ++ stream (session st) = rest.

Definition goes_on (rest : list Z) (r : Step Verdict) : Prop :=
  match r with Goes v st => v = KeepAlive -> ready rest st | Crashes _ => True | Hangs => False end.

Lemma after_handler_ready rest st : handling rest st -> goes_on rest (after_handler options st).
Proof.
  intros [Hb Hs].
  assert (forall st1, orderly (session st1) -> behind_body rest (session st1) -> shutting st1 = [] -> goes_on rest (after_response st1)) as Hafter.
  { intros st1 Ho (_ & Hu & Hr) Hs1. unfold after_response. rewrite shutting_down_never by done.
    destruct (negb _); [done|]. destruct (false || _); [done|]. cbn [goes_on]. intros _.
    split; [done|]. split; [done|]. rewrite <-Hr. unfold body_stream. by rewrite Hu. }
  unfold after_handler. destruct (request_body_complete (session st)) eqn:Hc; cbn [negb].
  - destruct Hb as [Ho [Hb|(d & Hd & _)]]; [by apply Hafter|]. unfold request_body_complete in Hc. by rewrite (sized_parser _ _ Hd) in Hc.
  - destruct (drain_unread_body options); [|done]. unfold on_session. pose proof (discard_keeps rest (session st) Hb) as Hd.
    destruct (discard_body options (session st)) as [u s1|e s1| |]; cbn [gives] in Hd; [|done..]. destruct Hd. by apply Hafter.
Qed.

Lemma serve_ready rest n s x d st :
  orderly s -> shutting st = [] -> Input.exchange s = x -> request_chunked_ x = false ->
  size d = (if request_content_length_set_ x then request_content_length_ x else 0) ->
  concat (inbound_bufs_ s) ++ stream s = d ++ rest -> goes_on rest (serve options handler n s st).
Proof.
  intros Ho Hs Hx Hc Hd Hr.
  assert (handling rest (construct options s st)) as Hh.
  { split; [|done]. replace (session (construct options s st)) with (construct_io s) by done.
    assert (body_stream (construct_io s) = d ++ rest) as Hbs by (rewrite <-Hr; by destruct s).
    assert (body_parser_ (construct_io s) = body_parser_of x) as Hp by (rewrite <-Hx; by destruct s).
    unfold body_parser_of in Hp. rewrite Hc in Hp. split; [destruct Ho; split; by destruct s|].
    assert (unread_bytes (construct_io s) = []) as Hu by (by destruct s).
    pose proof (length_of_nonneg d). destruct (negb _ || _) eqn:Hset.
    - left. split; [unfold request_body_complete; by rewrite Hp|]. split; [done|].
      assert (size d = 0) as Hz.
      { destruct (request_content_length_set_ x); [|done]. cbn in Hset. apply Z.eqb_eq in Hset. lia. }
      by rewrite Hbs, (size_nil_iff d) by lia.
    - right. exists d. split; [|done]. apply orb_false_iff in Hset as [Hset Hz%Z.eqb_neq]. apply negb_false_iff in Hset.
      rewrite Hset in Hd. split.
      + rewrite Hp, Hd. unfold Body.set_content_length. by rewrite (proj2 (Z.eqb_neq _ 0)).
      + rewrite Hbs, length_of_app. pose proof (length_of_nonneg rest). lia.
      + by left.
      + destruct Ho. by destruct s.
      + destruct Ho. by destruct s. }
  unfold serve. pose proof (run_program_handling rest (handler n (Input.exchange s)) _ Hh) as Hp.
  destruct (run_program _ _ _); [by apply after_handler_ready|done..].
Qed.

(** The peer has stopped sending: there is no further request. *)
Lemma parse_request_at_end s :
  Input.allocs s = [] -> concat (inbound_bufs_ s) = [] -> nonempty (inbound_bufs_ s) -> stream s = [] -> steady (reads s) ->
  0 < header_init_size options -> exists s', parse_request options s = Unexpected ConnReset s'.
Proof.
  intros Ha Hi Hne Hst Hr Hcap. assert (inbound_bufs_ s = []) as Hin.
  { destruct Hne as [|f c Hf _]; [done|]. by apply app_eq_nil in Hi as [-> _]. }
  unfold parse_request, allocate, memory. rewrite (proj2 (Z.eqb_neq _ 0)) by lia. unfold bind at 1. rewrite Ha. cbn [negb].
  unfold bind at 1, gets at 1. set (b := new_buffer _). replace (loop_fuel b s) with 1%nat.
  2: { unfold loop_fuel, pending, b, new_buffer, readable. rewrite Hin, Hst. done. }
  unfold bind at 1. cbn [request_line_loop]. unfold RequestLine.execute. change (readable b =? 0) with true. cbv iota beta.
  unfold bind at 1, refill. unfold bind at 1. assert (writable b = header_init_size options) as Hw by (unfold writable, b, new_buffer; cbn; lia).
  rewrite (proj2 (Z.eqb_neq (writable b) 0)) by lia. cbn [ret]. unfold bind at 1, drain_inbound. rewrite Hin.
  cbn [length drain_inbound_loop]. rewrite (proj2 (Z.leb_gt (writable b) 0)) by lia. cbn [front head].
  change (0 =? 0) with true. cbv iota beta. unfold bind at 1, read_into. rewrite (proj2 (Z.eqb_neq (writable b) 0)) by lia.
  unfold bind at 1, read_some. set (s1 := set_inbound [] s).
  replace (reads s1) with (reads s) by (by destruct s). replace (stream s1) with (@nil Z) by (by destruct s).
  destruct Hr as [|r rs [n ->] _]; [rewrite take_nil|rewrite take_nil]; by eexists.
Qed.

Lemma request_loop_in_order rs xs :
  Forall2 announces rs xs -> forall fuel n log0 st,
  0 < header_init_size options -> ready (concat (map print_request rs)) st -> (length rs < fuel)%nat ->
  exists log, (request_loop options handler fuel n log0 st = Crashed (log0 ++ log) \/
               exists st', request_loop options handler fuel n log0 st = Ended (log0 ++ log) st') /\ served xs log.
Proof.
  induction 1 as [|r x rs xs Hrx Hrs IH]; intros fuel n log0 st Hcap (Ho & Hs & Hr) Hfuel.
  all: destruct fuel as [|fuel]; [lia|]; cbn [request_loop]; rewrite shutting_down_never by done; cbv iota beta.
  - cbn [map concat] in Hr. apply app_eq_nil in Hr as [Hi Hst]. destruct Ho.
    destruct (parse_request_at_end (begin_request options (session st))) as (s' & ->); [by destruct (session st)..|].
    exists []. rewrite app_nil_r. split; [right; by eexists|constructor].
  - cbn [map concat] in Hr. unfold print_request at 1 in Hr. rewrite <-app_assoc in Hr. cbn [length] in Hfuel.
    destruct Hrx as [[Hm1 Hm2] Hpath Hq Hd Hfs Hfit Hparsed Hchunk Hlen].
    set (s0 := begin_request options (session st)).
    assert (waiting s0) as Hw by (destruct Ho; split; by destruct (session st)).
    pose proof (parse_request_spec options (r_method r) (r_path r) (r_query r) (r_minor r) (r_fields r)
      (r_body r ++ concat (map print_request rs)) s0 Hw Hm1 Hm2 Hpath Hq Hd Hfs Hr Hfit (ord_cap _ Ho)) as Hhead.
    change (Input.exchange s0) with (make_exchange options) in Hhead. rewrite Hparsed in Hhead. cbn [head_result] in Hhead.
    destruct Hhead as (s' & -> & Hx & Hrest & Hne & Hsz & _ & _ & Hrd & Hal).
    pose proof (serve_ready (concat (map print_request rs)) n s' x (r_body r) st (mkOrderly s' Hne Hsz Hal Hrd) Hs Hx Hchunk Hlen Hrest) as Hserve.
    destruct (serve options handler n s' st) as [v st2|st2|]; cbn [goes_on] in Hserve; [| |destruct Hserve].
    + destruct (decide (v = KeepAlive)) as [->|Hv].
      * destruct (IH fuel (S n) (log0 ++ [(Input.exchange s', Some KeepAlive)]) st2 Hcap (Hserve eq_refl) ltac:(lia)) as (log & Hrun & Hlog).
        rewrite Hx in *. exists ((x, Some KeepAlive) :: log). rewrite <-app_assoc in Hrun. split; [exact Hrun|by constructor].
      * exists [(x, Some v)]. rewrite Hx. split; [right; exists st2; destruct v; [congruence|reflexivity..]|]. constructor. congruence.
    + exists [(x, None)]. rewrite Hx. split; [left; reflexivity|]. constructor. discriminate.
Qed.

End order.

(** C17. Pipelined requests are handled in order and never mixed up.  The peer sends
    printed requests with sized bodies, each head no longer than the header buffer,
    in any pieces; memory and transport do not fail, the server does not shut
    down.  Whatever the handlers do with the bodies and the responses, they see the
    requests the peer wrote, in its order, each with the fields it wrote, until one
    leaves the connection unusable, crashes or all have been handled: no byte of a
    body is ever taken for a request or the other way round. *)
Theorem pipelined_requests_in_order `{store : HeaderStore} (options : HttpServerOptions)
    (handler : nat -> HttpExchange -> Program) (rs : list Request) (xs : list HttpExchange) (st : State) :
  Forall2 (announces options) rs xs -> 0 < header_init_size options ->
  ready options (concat (map print_request rs)) st ->
  exists log, (run options handler (Some true) None st = Crashed log \/
               exists st', run options handler (Some true) None st = Ended log st') /\ served xs log.
Proof.
  intros Hrs Hcap Hst. unfold run.
  assert (length rs < S (pending (session st)))%nat as Hfuel.
  { destruct Hst as (_ & _ & Hr). unfold pending. rewrite <-length_app, Hr. clear -Hrs.
    enough (length rs <= length (concat (map print_request rs)))%nat by lia.
    induction Hrs as [|r x rs xs Hrx _ IH]; [done|]. cbn [map concat length]. rewrite length_app.
    assert (0 < length (print_request r))%nat; [|lia]. destruct (ann_method _ _ _ Hrx) as [Hm _].
    unfold print_request, request_head, print_head, RequestLine.request_line. destruct (r_method r); [done|]. cbn. lia. }
  destruct (request_loop_in_order options handler rs xs Hrs _ 0 [] st Hcap Hst Hfuel) as (log & Hrun & Hlog).
  exists log. split; [|done]. destruct Hrun as [-> |[st' ->]]; [by left|right; by eexists].
Qed.

(** ** Runs *)

Definition start_state (options : HttpServerOptions) (inbound : list (list Z)) (stream : list Z) (reads : list ReadResult)
  (shutting : list bool) : @State (http_headers []) :=
  mkState (start_session options inbound stream reads)
    (Response.fresh (make_exchange options) false false false [] [] []) shutting false [].

(** Reads up to eight bytes of the body and answers with them. *)
Definition echo : nat -> @HttpExchange (http_headers []) -> @Program (http_headers []) := fun _ _ =>
  Perform (ReadBody 8) (fun a _ =>
    match a with
    | Chunk (inl c) => Perform (Respond (Response.WriteChunk (concat (data_chain c)) true)) (fun _ _ => Return)
    | _ => Return
    end).

Definition post (target body : string) : Request :=
  mkRequest (bytes_of_string "POST") (bytes_of_string target) None 1
    [mkHeadField (bytes_of_string "Content-Length") 1 [chr "0" + Z.of_nat (String.length body)] 0] (bytes_of_string body).

Definition two_posts : list Request := [post "a" "xyz"; post "b" "uvw"].

Definition run_options : HttpServerOptions := mkOptions 64 64 4 false.

(** The targets the handler saw, the verdicts and the end of what was sent. *)
Example two_requests :
  match run run_options echo (Some true) None
          (start_state run_options [] (concat (map print_request two_posts)) [Gives 5; Gives 60; Gives 3] []) with
  | Ended log st => (map (fun e => (path (uri_ e.1), e.2)) log, drop 79 (Response.wire (world st)), transport_calls st)
  | _ => ([], [], [])
  end = ([(bytes_of_string "/a", Some KeepAlive); (bytes_of_string "/b", Some KeepAlive)],
         bytes_of_string "uvw", [Shutdown; CloseTransport]).
Proof. vm_compute. reflexivity. Qed.

(** A server that goes down before the third request is read. *)
Lemma connection_ends_witness :
  let st := start_state run_options [] (concat (map print_request (two_posts ++ two_posts))) []
              [false; false; false; false; false; false; true] in
  finished_ st = false /\
  match run run_options echo (Some true) None st with
  | Ended _ st' =>
      finished_ st' = true /\
      transport_calls st' =
        transport_calls st ++ (if true && bool_decide (@None IoErr = None) then [Shutdown] else []) ++ [CloseTransport]
  | Crashed _ => True
  | Stuck => False
  end.
Proof. intros st. assert (finished_ st = false) as H by reflexivity. split; [exact H|]. exact (connection_ends run_options echo true None st H). Defined.

(** The exchange the parser makes of a request. *)
Definition parsed (r : Request) : @HttpExchange (http_headers []) :=
  match apply_header (r_fields r)
          (with_printed_line (r_method r) (r_path r) (r_query r) (r_minor r) (make_exchange run_options)) with
  | Some (Field x) => x
  | _ => make_exchange run_options
  end.

Definition parses (r : Request) : bool :=
  match apply_header (store := http_headers []) (r_fields r)
          (with_printed_line (r_method r) (r_path r) (r_query r) (r_minor r) (make_exchange run_options)) with
  | Some (Field _) => true
  | _ => false
  end.

Lemma parses_parsed r :
  parses r = true ->
  apply_header (r_fields r) (with_printed_line (r_method r) (r_path r) (r_query r) (r_minor r) (make_exchange run_options)) =
  Some (Field (parsed r)).
Proof. unfold parses, parsed. by destruct (apply_header _ _) as [[]|]. Qed.

Ltac announced :=
  split; [split; [discriminate|repeat constructor]|repeat constructor|discriminate|cbn; lia| |vm_compute; discriminate|
          apply parses_parsed; vm_compute; reflexivity|vm_compute; reflexivity|vm_compute; reflexivity];
  constructor; [|constructor]; split; [discriminate|]; split; [cbn; repeat (constructor; [lia|]); constructor|];
  split; [reflexivity|]; split; [right|discriminate];
  exists [], (chr "3"); split; [reflexivity|]; split; [discriminate|]; split; [discriminate|reflexivity].

Lemma pipelined_requests_in_order_witness :
  let st := start_state run_options [take 5 (concat (map print_request two_posts))]
              (drop 5 (concat (map print_request two_posts))) [Gives 9; Gives 1; Gives 70; Gives 2] [] in
  exists log, (run run_options echo (Some true) None st = Crashed log \/
               exists st', run run_options echo (Some true) None st = Ended log st') /\ served (map parsed two_posts) log.
Proof.
  intros st. apply (pipelined_requests_in_order run_options echo two_posts (map parsed two_posts) st).
  - constructor; [announced|constructor; [announced|constructor]].
  - reflexivity.
  - split; [split|split].
    + constructor; [discriminate|constructor].
    + vm_compute. discriminate.
    + reflexivity.
    + repeat (constructor; [by eexists|]). constructor.
    + reflexivity.
    + reflexivity.
Defined.

End Run.
