(* ===== verification/Http2StreamState.v ===== *)
(** * The life cycle of an HTTP/2 stream
    ([State], [StreamOp], [kValidOpBits] and the transitions of [src/http/Http2Stream.h], [Http2Stream.cpp]) *)
From S2P Require Import Prelude IoError.
Import IoError.

Module StreamState.

Inductive State := Idle | ReservedLocal | ReservedRemote | Open | HalfClosedLocal | HalfClosedRemote | Closed.

#[global] Instance State_eq_dec : EqDecision State.
Proof. solve_decision. Defined.

Inductive StreamOp :=
  | RecvHeaders | RecvHeadersEndStream | RecvData | RecvDataEndStream
  | SendHeaders | SendHeadersEndStream | SendData | SendDataEndStream.

#[global] Instance StreamOp_eq_dec : EqDecision StreamOp.
Proof. solve_decision. Defined.

Definition state_index (s : State) : Z :=
  match s with
  | Idle => 0 | ReservedLocal => 1 | ReservedRemote => 2 | Open => 3 | HalfClosedLocal => 4
  | HalfClosedRemote => 5 | Closed => 6
  end.

Definition op_index (op : StreamOp) : Z :=
  match op with
  | RecvHeaders => 0 | RecvHeadersEndStream => 1 | RecvData => 2 | RecvDataEndStream => 3
  | SendHeaders => 4 | SendHeadersEndStream => 5 | SendData => 6 | SendDataEndStream => 7
  end.

Definition bit (op : StreamOp) : Z := u16 (Z.shiftl 1 (op_index op)).

Definition bits (ops : list StreamOp) : Z := foldl (fun acc op => Z.lor acc (bit op)) 0 ops.

Definition kValidOpBits : list Z :=
  [bits [RecvHeaders; RecvHeadersEndStream; SendHeaders; SendHeadersEndStream];
   0;
   0;
   bits [RecvHeaders; RecvHeadersEndStream; RecvData; RecvDataEndStream;
         SendHeaders; SendHeadersEndStream; SendData; SendDataEndStream];
   bits [RecvHeaders; RecvHeadersEndStream; RecvData; RecvDataEndStream];
   bits [SendHeaders; SendHeadersEndStream; SendData; SendDataEndStream];
   0].

Definition is_valid_transition (s : State) (op : StreamOp) : bool :=
  negb (Z.land (kValidOpBits !z (state_index s)) (bit op) =? 0).

Definition transition_on_remote_end_stream (s : State) : State :=
  match s with Open => HalfClosedRemote | HalfClosedLocal => Closed | _ => s end.

Definition transition_on_local_end_stream (s : State) : State :=
  match s with Open => HalfClosedLocal | HalfClosedRemote => Closed | _ => s end.

Definition transition_on_recv_headers (s : State) (end_stream : bool) : IoErr * State :=
  let op := if end_stream then RecvHeadersEndStream else RecvHeaders in
  if negb (is_valid_transition s op) then (Invalid, s)
  else if bool_decide (s = Idle) then (None_, if end_stream then HalfClosedRemote else Open)
  else if end_stream then (None_, transition_on_remote_end_stream s)
  else (None_, s).

Definition transition_on_recv_data (s : State) (end_stream : bool) : IoErr * State :=
  let op := if end_stream then RecvDataEndStream else RecvData in
  if negb (is_valid_transition s op) then (Invalid, s)
  else if end_stream then (None_, transition_on_remote_end_stream s)
  else (None_, s).

Definition transition_on_send_headers (s : State) (end_stream : bool) : IoErr * State :=
  let op := if end_stream then SendHeadersEndStream else SendHeaders in
  if negb (is_valid_transition s op) then (Invalid, s)
  else if bool_decide (s = Idle) then (None_, if end_stream then HalfClosedLocal else Open)
  else if end_stream then (None_, transition_on_local_end_stream s)
  else (None_, s).

Definition transition_on_send_data (s : State) (end_stream : bool) : IoErr * State :=
  let op := if end_stream then SendDataEndStream else SendData in
  if negb (is_valid_transition s op) then (Invalid, s)
  else if end_stream then (None_, transition_on_local_end_stream s)
  else (None_, s).

(** The transition an operation of the table goes through. *)
Definition transition (s : State) (op : StreamOp) : IoErr * State :=
  match op with
  | RecvHeaders => transition_on_recv_headers s false
  | RecvHeadersEndStream => transition_on_recv_headers s true
  | RecvData => transition_on_recv_data s false
  | RecvDataEndStream => transition_on_recv_data s true
  | SendHeaders => transition_on_send_headers s false
  | SendHeadersEndStream => transition_on_send_headers s true
  | SendData => transition_on_send_data s false
  | SendDataEndStream => transition_on_send_data s true
  end.

(** A history of frames; [None] when one of them is refused. *)
Fixpoint run (s : State) (ops : list StreamOp) : option State :=
  match ops with
  | [] => Some s
  | op :: ops' =>
      match transition s op with
      | (None_, s') => run s' ops'
      | _ => None
      end
  end.

(** ** The rule of RFC 7540, section 5.1, for streams without push

    A stream is opened by [HEADERS]; afterwards each direction is used freely
    until its [END_STREAM]. *)
Definition is_recv (op : StreamOp) : bool :=
  match op with RecvHeaders | RecvHeadersEndStream | RecvData | RecvDataEndStream => true | _ => false end.
Definition is_headers (op : StreamOp) : bool :=
  match op with RecvHeaders | RecvHeadersEndStream | SendHeaders | SendHeadersEndStream => true | _ => false end.
Definition ends (op : StreamOp) : bool :=
  match op with
  | RecvHeadersEndStream | RecvDataEndStream | SendHeadersEndStream | SendDataEndStream => true
  | _ => false
  end.

(** Nothing follows the end of a direction. *)
Fixpoint closed_once (ops : list StreamOp) : bool :=
  match ops with
  | [] => true
  | op :: ops' => if ends op then match ops' with [] => true | _ => false end else closed_once ops'
  end.

Definition direction (recv : bool) (ops : list StreamOp) : list StreamOp :=
  List.filter (fun op => Bool.eqb (is_recv op) recv) ops.

Definition legal (ops : list StreamOp) : bool :=
  match ops with [] => true | op :: _ => is_headers op end &&
  closed_once (direction true ops) && closed_once (direction false ops).

Definition ended (recv : bool) (ops : list StreamOp) : bool := existsb ends (direction recv ops).

Definition state_of (ops : list StreamOp) : State :=
  match ops with
  | [] => Idle
  | _ =>
      match ended true ops, ended false ops with
      | false, false => Open
      | true, false => HalfClosedRemote
      | false, true => HalfClosedLocal
      | true, true => Closed
      end
  end.

(** The state as two open ends. *)
Definition recv_open (s : State) : bool := match s with Open | HalfClosedLocal => true | _ => false end.
Definition send_open (s : State) : bool := match s with Open | HalfClosedRemote => true | _ => false end.

Definition of_ends (r s : bool) : State :=
  match r, s with
  | true, true => Open | false, true => HalfClosedRemote | true, false => HalfClosedLocal | false, false => Closed
  end.

Lemma transition_active (r s : bool) op :
  transition (of_ends r s) op =
  if (if is_recv op then r else s) then
    (None_, if ends op then (if is_recv op then of_ends false s else of_ends r false) else of_ends r s)
  else (Invalid, of_ends r s).
Proof. destruct r, s, op; reflexivity. Qed.

Lemma transition_idle op :
  transition Idle op =
  if is_headers op then
    (None_, if ends op then (if is_recv op then of_ends false true else of_ends true false) else of_ends true true)
  else (Invalid, Idle).
Proof. destruct op; reflexivity. Qed.

(** What is left of a direction that is already closed is nothing. *)
Definition rest_ok (is_open : bool) (ops : list StreamOp) : bool :=
  if is_open then closed_once ops else match ops with [] => true | _ => false end.

Lemma direction_cons recv op ops :
  direction recv (op :: ops) = if Bool.eqb (is_recv op) recv then op :: direction recv ops else direction recv ops.
Proof. done. Qed.

Lemma closed_once_end op ops : ends op = true -> closed_once (op :: ops) = match ops with [] => true | _ => false end.
Proof. intros E. cbn. by rewrite E. Qed.

Lemma run_active ops (r s : bool) :
  run (of_ends r s) ops =
    if rest_ok r (direction true ops) && rest_ok s (direction false ops)
    then Some (of_ends (r && negb (ended true ops)) (s && negb (ended false ops)))
    else None.
Proof.
  revert r s. induction ops as [|op ops IH]; intros r s.
  { by destruct r, s. }
  cbn [run]. rewrite transition_active. unfold ended in *. rewrite !direction_cons.
  destruct (is_recv op) eqn:Hr; cbn [Bool.eqb].
  - destruct r; [|by destruct (direction false ops)].
    destruct (ends op) eqn:He; cbn [rest_ok closed_once existsb]; rewrite He; [|by rewrite IH].
    rewrite IH. cbn [orb negb andb rest_ok]. by destruct (direction true ops).
  - destruct s; [|by rewrite andb_false_r].
    destruct (ends op) eqn:He; cbn [rest_ok closed_once existsb]; rewrite He; [|by rewrite IH].
    rewrite IH. cbn [orb negb andb rest_ok]. by destruct (direction false ops).
Qed.

(** The transition table is the RFC's: from an idle stream, a history of
    frames is accepted if and only if its first frame is [HEADERS] and in each
    direction nothing follows an [END_STREAM]; the state afterwards says exactly
    which directions have ended, and [Closed] accepts nothing any more. *)
Theorem transitions_follow_rfc (ops : list StreamOp) :
  run Idle ops = (if legal ops then Some (state_of ops) else None) /\
  (forall op, transition Closed op = (Invalid, Closed)).
Proof.
  split; [|by intros []].
  destruct ops as [|op ops]; [done|]. cbn [run]. rewrite transition_idle.
  unfold legal, state_of, ended. destruct (is_headers op) eqn:Hh; [|done]. cbn [andb].
  rewrite !direction_cons.
  destruct (is_recv op) eqn:Hr; cbn [Bool.eqb]; destruct (ends op) eqn:He; cbn [closed_once existsb];
    rewrite He; rewrite run_active; cbn [rest_ok orb andb negb]; unfold ended.
  all: destruct (direction true ops) as [|o1 l1]; destruct (direction false ops) as [|o2 l2]; try done.
  all: repeat match goal with |- context [closed_once ?l] => destruct (closed_once l) end; try done.
  all: repeat match goal with |- context [existsb ends ?l] => destruct (existsb ends l) end; done.
Qed.

Example legal_history :
  run Idle [SendHeadersEndStream; RecvHeaders; RecvData; RecvDataEndStream] = Some Closed.
Proof. reflexivity. Qed.

End StreamState.
