(* ===== verification/Http2Sending.v ===== *)
(** * Outgoing HTTP/2 data: payloads, pending entries and the send queue
    ([src/http/Http2SendPayload.cpp], [Http2Pending.h], [Http2PendingPool.cpp],
    [Http2SendingEntryQueue.cpp])

    Buffers are represented by their readable bytes: [IoBuf.retain_prefix_shares]
    and [IoBuf.consume_and_compact_spec] say that slicing and consuming a chain
    acts on that byte string as [take] and [drop]. *)
From S2P Require Import Prelude IoError Http2Protocol.
Import IoError.

(** ** [Http2SendPayload] *)
Module SendPayload.

Inductive Kind := KNone | KStableSpan | KIoBuf | KIoBufChain.

#[global] Instance Kind_eq_dec : EqDecision Kind.
Proof. solve_decision. Defined.

Record Http2SendPayload := mkPayload { kind_ : Kind; bytes_ : list Z }.

Definition empty_payload : Http2SendPayload := mkPayload KNone [].

Definition readable_bytes (p : Http2SendPayload) : Z :=
  match kind_ p with KNone => 0 | _ => Z.of_nat (length (bytes_ p)) end.

Definition empty (p : Http2SendPayload) : bool := readable_bytes p =? 0.

Definition reset (p : Http2SendPayload) : Http2SendPayload := mkPayload KNone [].

Definition set_stable_span (data : list Z) : Http2SendPayload := mkPayload KStableSpan data.
Definition set_buf (data : list Z) : Http2SendPayload := mkPayload KIoBuf data.
Definition set_chain (data : list Z) : Http2SendPayload := mkPayload KIoBufChain data.

(** [split_prefix_to bytes]: the result, what is left and the prefix.  [alloc_ok]:
    the nodes [retain_prefix] allocates for a chain can be had. *)
Definition split_prefix_to (alloc_ok : bool) (bytes : Z) (p : Http2SendPayload)
  : bool * Http2SendPayload * Http2SendPayload :=
  let pre := take (Z.to_nat bytes) (bytes_ p) in
  let rest := drop (Z.to_nat bytes) (bytes_ p) in
  match kind_ p with
  | KStableSpan =>
      if readable_bytes p <? bytes then (false, p, empty_payload)
      else (true, mkPayload KStableSpan rest, set_stable_span pre)
  | KIoBuf =>
      if readable_bytes p <? bytes then (false, p, empty_payload)
      else (true, mkPayload KIoBuf rest, set_buf pre)
  | KIoBufChain =>
      if readable_bytes p <? bytes then (false, p, empty_payload)
      else if negb alloc_ok then (false, p, empty_payload)
      else (true, mkPayload KIoBufChain rest, set_chain pre)
  | KNone => (bytes =? 0, p, empty_payload)
  end.

(** [write_once]: [result] is what the transport wrote, an error or a number of
    bytes not above what it was offered. *)
Definition write_once (result : IoErr + Z) (p : Http2SendPayload) : (IoErr + Z) * Http2SendPayload :=
  match kind_ p with
  | KNone => (inr 0, p)
  | k => match result with
         | inl e => (inl e, p)
         | inr n => (inr n, mkPayload k (drop (Z.to_nat n) (bytes_ p)))
         end
  end.

Lemma split_prefix_ok alloc bytes p p' chunk :
  0 < bytes -> split_prefix_to alloc bytes p = (true, p', chunk) ->
  bytes <= readable_bytes p /\ bytes_ chunk = take (Z.to_nat bytes) (bytes_ p) /\
  bytes_ p' = drop (Z.to_nat bytes) (bytes_ p) /\ kind_ p' = kind_ p /\ kind_ p <> KNone /\
  readable_bytes p' = readable_bytes p - bytes /\ readable_bytes chunk = bytes /\ kind_ chunk <> KNone.
Proof.
  intros Hb. unfold split_prefix_to, readable_bytes. destruct (kind_ p) eqn:Hk.
  - destruct (Z.eqb_spec bytes 0); [lia|done].
  - destruct (Z.ltb_spec (Z.of_nat (length (bytes_ p))) bytes); [done|]. intros [= <- <-]. cbn.
    rewrite length_drop, length_take. split_and!; (done || lia).
  - destruct (Z.ltb_spec (Z.of_nat (length (bytes_ p))) bytes); [done|]. intros [= <- <-]. cbn.
    rewrite length_drop, length_take. split_and!; (done || lia).
  - destruct (Z.ltb_spec (Z.of_nat (length (bytes_ p))) bytes); [done|]. destruct alloc; [|done].
    intros [= <- <-]. cbn. rewrite length_drop, length_take. split_and!; (done || lia).
Qed.

Lemma split_prefix_compute bytes p :
  kind_ p <> KNone -> bytes <= readable_bytes p ->
  split_prefix_to true bytes p =
    (true, mkPayload (kind_ p) (drop (Z.to_nat bytes) (bytes_ p)), mkPayload (kind_ p) (take (Z.to_nat bytes) (bytes_ p))).
Proof.
  intros Hk Hle. unfold split_prefix_to.
  destruct (kind_ p); try done; destruct (Z.ltb_spec (readable_bytes p) bytes); (done || lia).
Qed.

End SendPayload.
Import SendPayload.

(** ** [Http2PendingEntry] and its pool *)
Module Pending.

Inductive PendingKind := PHeader | PData.

#[global] Instance PendingKind_eq_dec : EqDecision PendingKind.
Proof. solve_decision. Defined.

Inductive ChangeKind := Scheduled | Written | Completed | Failed | Canceled_.

#[global] Instance ChangeKind_eq_dec : EqDecision ChangeKind.
Proof. solve_decision. Defined.

(** A call of [on_change]: the context of the entry and the change. *)
Record Change := mkChange {
  ch_ctx : Z; ch_kind : ChangeKind; ch_delta : Z; ch_total : Z; ch_written : Z; ch_result : IoErr }.

(** [pe_stream] is the address of the owning stream; [pe_on_change] the context
    of the callback, when there is one.  The links [next], [active_prev] and
    [active_next] are the positions in the two lists of the stream. *)
Record Http2PendingEntry := mkPending {
  pe_stream : option nat; pe_stream_id : Z; pe_kind : PendingKind; pe_payload : Http2SendPayload;
  pe_first_frame_flags : Z; pe_last_frame_flags : Z; pe_total_bytes : Z; pe_written_bytes : Z;
  pe_inflight_sends : Z; pe_result : IoErr; pe_terminal_notified : bool; pe_on_change : option Z }.

Definition init (stream : nat) (stream_id : Z) (kind : PendingKind) (payload : Http2SendPayload)
    (first_flags last_flags : Z) (on_change : option Z) : Http2PendingEntry :=
  mkPending (Some stream) stream_id kind payload first_flags last_flags (readable_bytes payload) 0 0
    None_ false on_change.

Definition remaining_bytes (e : Http2PendingEntry) : Z := readable_bytes (pe_payload e).

Definition notify_change (k : ChangeKind) (delta : Z) (result : IoErr) (e : Http2PendingEntry) : list Change :=
  match pe_on_change e with
  | None => []
  | Some ctx => [mkChange ctx k delta (pe_total_bytes e) (pe_written_bytes e) result]
  end.

Definition set_payload (p : Http2SendPayload) (e : Http2PendingEntry) : Http2PendingEntry :=
  let '(mkPending s i k _ ff lf t w n r tn c) := e in mkPending s i k p ff lf t w n r tn c.
Definition set_written (w : Z) (e : Http2PendingEntry) : Http2PendingEntry :=
  let '(mkPending s i k p ff lf t _ n r tn c) := e in mkPending s i k p ff lf t w n r tn c.
Definition set_inflight (n : Z) (e : Http2PendingEntry) : Http2PendingEntry :=
  let '(mkPending s i k p ff lf t w _ r tn c) := e in mkPending s i k p ff lf t w n r tn c.
Definition set_result (r : IoErr) (e : Http2PendingEntry) : Http2PendingEntry :=
  let '(mkPending s i k p ff lf t w n _ tn c) := e in mkPending s i k p ff lf t w n r tn c.
Definition set_terminal (tn : bool) (e : Http2PendingEntry) : Http2PendingEntry :=
  let '(mkPending s i k p ff lf t w n r _ c) := e in mkPending s i k p ff lf t w n r tn c.

End Pending.

(** ** [Http2SendingEntry] *)
Module SendEntry.

(** [on_done] is the address of the pending entry that [handle_send_done] will
    be called with ([user_data]), if any. *)
Record Http2SendingEntry := mkEntry {
  payload : Http2SendPayload; total_bytes : Z; written_bytes : Z; frame_header_size : Z;
  logical_bytes : Z; result : IoErr; done_notified : bool; on_done : option nat; frame_header_ : list Z }.

(** What [acquire] and [reset_released_entry] set the fields to. *)
Definition fresh_entry : Http2SendingEntry := mkEntry empty_payload 0 0 0 0 None_ false None (replicate 9 0).

(** The bytes of an entry still to be written: the rest of the header, then the
    payload. *)
Definition unsent (e : Http2SendingEntry) : list Z :=
  drop (Z.to_nat (written_bytes e)) (take (Z.to_nat (frame_header_size e)) (frame_header_ e)) ++ bytes_ (payload e).

End SendEntry.
