(* ===== verification/Http2SendQueue.v ===== *)
(** * The send queue and its waiter
    ([Http2SendingEntryQueue] of [src/http/Http2SendingEntryQueue.cpp])

    One consumer coroutine polls the queue through awaiters; the event loop keeps
    the notifications posted to it and the timers armed by the awaiters.  An
    awaiter is an object with a number: once it is destroyed, running a
    notification that still points to it is an access to freed memory. *)
From S2P Require Import Prelude IoError Http2Protocol Http2Sending.
Import IoError SendEntry.

Module SendQueue.

(** ** Data *)

Definition max_timeout : Z := 2 ^ 63 - 1.

Record PollAwaiter := mkAwaiter {
  aw_queue : bool; aw_loop : bool; aw_handle : bool; aw_timeout : Z;
  aw_timer_in_heap : bool; aw_timed_out : bool; aw_resume_posted : bool }.

Inductive PollResult := PEntry (e : Http2SendingEntry) | PTimedOut | PClosed.

(** [awaiters] are the live awaiters, [notifies] the posted notifications,
    [oom] which of the next allocations fail.  The free list holds reset entries,
    so only its length is kept. *)
Record Queue := mkQueue {
  ready_ : list Http2SendingEntry; free_count_ : Z; max_free_entries_ : Z; closed_ : bool;
  waiter_ : option nat; awaiters : gmap nat PollAwaiter; notifies : list nat; oom : list bool }.

Definition empty_queue (max_free : Z) (failures : list bool) : Queue :=
  mkQueue [] 0 max_free false None ∅ [] failures.

Definition set_ready (r : list Http2SendingEntry) (q : Queue) : Queue :=
  let '(mkQueue _ f m c w a n o) := q in mkQueue r f m c w a n o.
Definition set_free (f : Z) (q : Queue) : Queue :=
  let '(mkQueue r _ m c w a n o) := q in mkQueue r f m c w a n o.
Definition set_closed (c : bool) (q : Queue) : Queue :=
  let '(mkQueue r f m _ w a n o) := q in mkQueue r f m c w a n o.
Definition set_waiter (w : option nat) (q : Queue) : Queue :=
  let '(mkQueue r f m c _ a n o) := q in mkQueue r f m c w a n o.
Definition set_awaiters (a : gmap nat PollAwaiter) (q : Queue) : Queue :=
  let '(mkQueue r f m c w _ n o) := q in mkQueue r f m c w a n o.
Definition set_notifies (n : list nat) (q : Queue) : Queue :=
  let '(mkQueue r f m c w a _ o) := q in mkQueue r f m c w a n o.
Definition set_oom (o : list bool) (q : Queue) : Queue :=
  let '(mkQueue r f m c w a n _) := q in mkQueue r f m c w a n o.

(** ** Entries *)

Definition acquire (q : Queue) : option Http2SendingEntry * Queue :=
  if 0 <? free_count_ q then (Some fresh_entry, set_free (free_count_ q - 1) q)
  else match oom q with
       | true :: rest => (None, set_oom rest q)
       | false :: rest => (Some fresh_entry, set_oom rest q)
       | [] => (Some fresh_entry, q)
       end.

Definition release (q : Queue) : Queue :=
  if free_count_ q <? max_free_entries_ q then set_free (free_count_ q + 1) q else q.

Definition notify_waiter (q : Queue) : Queue :=
  match waiter_ q with
  | None => q
  | Some id =>
      match awaiters q !! id with
      | None => q
      | Some aw =>
          if aw_resume_posted aw || negb (aw_loop aw) then q
          else set_notifies (notifies q ++ [id])
                 (set_awaiters (<[id := mkAwaiter (aw_queue aw) (aw_loop aw) (aw_handle aw) (aw_timeout aw)
                                          (aw_timer_in_heap aw) (aw_timed_out aw) true]> (awaiters q)) q)
      end
  end.

Definition enqueue (entry : Http2SendingEntry) (q : Queue) : IoErr * Queue :=
  if closed_ q then (Canceled, q)
  else (None_, notify_waiter (set_ready (ready_ q ++ [entry]) q)).

Definition pop_ready (q : Queue) : option Http2SendingEntry * Queue :=
  match ready_ q with
  | [] => (None, q)
  | e :: rest => (Some e, set_ready rest q)
  end.

Definition close (q : Queue) : Queue :=
  if closed_ q then q else notify_waiter (set_closed true q).

(** ** The awaiter *)

Definition has_timer (aw : PollAwaiter) : bool := (0 <? aw_timeout aw) && negb (aw_timeout aw =? max_timeout).

Definition await_ready (aw : PollAwaiter) (q : Queue) : bool :=
  negb (aw_queue aw) || match ready_ q with [] => false | _ => true end || closed_ q || (aw_timeout aw =? 0).

(** [arm_waiter]; a second waiter is a failed assertion. *)
Definition arm_waiter (id : nat) (q : Queue) : option (bool * Queue) :=
  if match ready_ q with [] => false | _ => true end || closed_ q then Some (false, q)
  else match waiter_ q with
       | Some _ => None
       | None => Some (true, set_waiter (Some id) q)
       end.

Definition await_suspend (id : nat) (aw : PollAwaiter) (q : Queue) : option (bool * Queue) :=
  if negb (aw_queue aw) then Some (false, q)
  else
    let aw := mkAwaiter true true true (aw_timeout aw) (aw_timer_in_heap aw) (aw_timed_out aw)
                (aw_resume_posted aw) in
    '(armed, q) ← arm_waiter id (set_awaiters (<[id := aw]> (awaiters q)) q);
    if negb armed then Some (false, q)
    else
      let aw := mkAwaiter true true true (aw_timeout aw) (has_timer aw || aw_timer_in_heap aw) (aw_timed_out aw)
                  (aw_resume_posted aw) in
      Some (true, set_awaiters (<[id := aw]> (awaiters q)) q).

(** [await_resume], then the destructor of the awaiter, whose [queue_] is null
    by then. *)
Definition await_resume (id : nat) (q : Queue) : PollResult * Queue :=
  let q := if bool_decide (waiter_ q = Some id) then set_waiter None q else q in
  let '(e, q) := pop_ready q in
  let r := match e with
           | Some e => PEntry e
           | None => if closed_ q then PClosed else PTimedOut
           end in
  (r, set_awaiters (delete id (awaiters q)) q).

(** [co_await poll_to_send(timeout)] up to the suspension. *)
Definition poll_to_send (id : nat) (timeout : Z) (q : Queue) : option (option PollResult * Queue) :=
  let aw := mkAwaiter true false false timeout false false false in
  if await_ready aw q then let '(r, q) := await_resume id q in Some (Some r, q)
  else
    '(suspended, q) ← await_suspend id aw q;
    if negb suspended then let '(r, q) := await_resume id q in Some (Some r, q)
    else Some (None, q).

(** [resume]: the coroutine runs on if it has not been resumed yet. *)
Definition resume (id : nat) (aw : PollAwaiter) (q : Queue) : option PollResult * Queue :=
  if aw_handle aw then let '(r, q) := await_resume id q in (Some r, q) else (None, q).

(** The event loop runs a posted notification. *)
Definition on_notify (q : Queue) : option (option PollResult * Queue) :=
  match notifies q with
  | [] => Some (None, q)
  | id :: rest =>
      aw ← awaiters q !! id;
      let q := set_notifies rest q in
      let aw := mkAwaiter (aw_queue aw) (aw_loop aw) (aw_handle aw) (aw_timeout aw) (aw_timer_in_heap aw)
                  (aw_timed_out aw) false in
      Some (resume id aw (set_awaiters (<[id := aw]> (awaiters q)) q))
  end.

(** The timer of an awaiter fires, if it is armed. *)
Definition on_timeout (id : nat) (q : Queue) : option PollResult * Queue :=
  match awaiters q !! id with
  | None => (None, q)
  | Some aw =>
      if negb (aw_timer_in_heap aw) then (None, q)
      else
        let q := if bool_decide (waiter_ q = Some id) then set_waiter None q else q in
        let aw := mkAwaiter (aw_queue aw) (aw_loop aw) (aw_handle aw) (aw_timeout aw) false true
                    (aw_resume_posted aw) in
        resume id aw (set_awaiters (<[id := aw]> (awaiters q)) q)
  end.

(** ** Histories

    The consumer polls when it is not suspended; everything else may happen at
    any time. *)
Inductive Event :=
  | EvEnqueue (e : Http2SendingEntry)
  | EvClose
  | EvPoll (timeout : Z)
  | EvNotify
  | EvTimer (id : nat).

Record World := mkWorld {
  queue : Queue; next_id : nat; accepted : list Http2SendingEntry; results : list PollResult }.

Definition with_result (w : World) (q : Queue) (next : nat) (r : option PollResult) : World :=
  mkWorld q next (accepted w) (results w ++ option_list r).

Definition step (ev : Event) (w : World) : option World :=
  let q := queue w in
  match ev with
  | EvEnqueue e =>
      let '(err, q) := enqueue e q in
      Some (mkWorld q (next_id w) (accepted w ++ if bool_decide (err = None_) then [e] else []) (results w))
  | EvClose => Some (mkWorld (close q) (next_id w) (accepted w) (results w))
  | EvPoll timeout =>
      match waiter_ q with
      | Some _ => Some w
      | None => '(r, q) ← poll_to_send (next_id w) timeout q; Some (with_result w q (S (next_id w)) r)
      end
  | EvNotify => '(r, q) ← on_notify q; Some (with_result w q (next_id w) r)
  | EvTimer id => let '(r, q) := on_timeout id q in Some (with_result w q (next_id w) r)
  end.

Fixpoint run (evs : list Event) (w : World) : option World :=
  match evs with
  | [] => Some w
  | ev :: evs' => w ← step ev w; run evs' w
  end.

Definition initial_world (max_free : Z) (failures : list bool) : World :=
  mkWorld (empty_queue max_free failures) 0 [] [].

Definition delivered (rs : list PollResult) : list Http2SendingEntry :=
  omap (fun r => match r with PEntry e => Some e | _ => None end) rs.

Definition work (q : Queue) : bool := match ready_ q with [] => closed_ q | _ => true end.

(** Between events: the only live awaiter is the suspended one; it has been
    notified if there is something for it. *)
Record queue_inv (w : World) : Prop := mkQueueInv {
  qi_waiter : forall id, waiter_ (queue w) = Some id ->
    exists aw, awaiters (queue w) !! id = Some aw /\ aw_queue aw = true /\ aw_loop aw = true /\ aw_handle aw = true /\
      (if aw_resume_posted aw then id ∈ notifies (queue w) else work (queue w) = false);
  qi_alive : forall id aw, awaiters (queue w) !! id = Some aw -> waiter_ (queue w) = Some id;
  qi_fresh : forall id, (next_id w <= id)%nat -> awaiters (queue w) !! id = None;
  qi_fifo : delivered (results w) ++ ready_ (queue w) = accepted w }.

(** ** Preservation *)

Lemma notify_waiter_ready q : ready_ (notify_waiter q) = ready_ q /\ closed_ (notify_waiter q) = closed_ q.
Proof. unfold notify_waiter. repeat case_match; by destruct q. Qed.

(** After [notify_waiter], a waiter is notified whatever work there is. *)
Lemma notify_waiter_inv q next acc rs :
  (forall id, waiter_ q = Some id ->
     exists aw, awaiters q !! id = Some aw /\ aw_queue aw = true /\ aw_loop aw = true /\ aw_handle aw = true /\
       (aw_resume_posted aw = true -> id ∈ notifies q)) ->
  (forall id aw, awaiters q !! id = Some aw -> waiter_ q = Some id) ->
  (forall id, (next <= id)%nat -> awaiters q !! id = None) ->
  delivered rs ++ ready_ q = acc ->
  queue_inv (mkWorld (notify_waiter q) next acc rs).
Proof.
  intros Hw Ha Hf Hd. destruct (notify_waiter_ready q) as [Hr Hc].
  destruct (waiter_ q) as [id|] eqn:Ewait.
  2:{ assert (notify_waiter q = q) as -> by (unfold notify_waiter; by rewrite Ewait).
      split; cbn; rewrite ?Ewait; try done. }
  destruct (Hw id eq_refl) as (aw & Haw & Hq & Hl & Hh & Hp).
  destruct (aw_resume_posted aw) eqn:Ep.
  - assert (notify_waiter q = q) as -> by (unfold notify_waiter; by rewrite Ewait, Haw, Ep).
    split; cbn; rewrite ?Ewait; try done.
    intros id0 [= <-]. exists aw. rewrite Ep. auto 10.
  - assert (notify_waiter q = set_notifies (notifies q ++ [id])
              (set_awaiters (<[id := mkAwaiter (aw_queue aw) (aw_loop aw) (aw_handle aw) (aw_timeout aw)
                                          (aw_timer_in_heap aw) (aw_timed_out aw) true]> (awaiters q)) q)) as Heq
      by (unfold notify_waiter; by rewrite Ewait, Haw, Ep, Hl).
    split; cbn; rewrite ?Hr; try done; rewrite Heq; destruct q; cbn in *; subst waiter_0.
    + intros id0 [= <-]. eexists. rewrite lookup_insert_eq. split; [done|]. cbn.
      rewrite Hq, Hl, Hh. split_and!; try done. apply elem_of_app. right. by left.
    + intros id0 aw0. destruct (decide (id = id0)) as [<-|Hne]; [done|].
      rewrite lookup_insert_ne by done. intros Hl0. by rewrite <-(Ha id0 aw0 Hl0).
    + intros id0 Hle. destruct (decide (id = id0)) as [<-|Hne]; [|rewrite lookup_insert_ne by done; auto].
      specialize (Hf id Hle). congruence.
Qed.

(** The end of a poll: the awaiter [id] is the only one that can be alive. *)
Lemma await_resume_inv id q next acc rs r q' :
  (forall id' aw, awaiters q !! id' = Some aw -> id' = id) ->
  (forall id', waiter_ q = Some id' -> id' = id) ->
  delivered rs ++ ready_ q = acc ->
  await_resume id q = (r, q') ->
  queue_inv (mkWorld q' next acc (rs ++ [r])) /\ notifies q' = notifies q.
Proof.
  intros Ha Hw Hd. unfold await_resume.
  set (q1 := if bool_decide (waiter_ q = Some id) then set_waiter None q else q).
  assert (ready_ q1 = ready_ q /\ awaiters q1 = awaiters q /\ waiter_ q1 = None /\ notifies q1 = notifies q /\
          closed_ q1 = closed_ q) as (E1 & E2 & E3 & E4 & E5).
  { subst q1. case_bool_decide as Hb; [by destruct q|]. split_and!; try done.
    destruct (waiter_ q) as [id'|] eqn:E; [|done]. by rewrite (Hw id' eq_refl) in Hb. }
  assert (forall r1 q2, awaiters q2 = awaiters q -> waiter_ q2 = None -> notifies q2 = notifies q ->
            delivered (rs ++ [r1]) ++ ready_ q2 = acc ->
            queue_inv (mkWorld (set_awaiters (delete id (awaiters q2)) q2) next acc (rs ++ [r1])) /\
            notifies (set_awaiters (delete id (awaiters q2)) q2) = notifies q) as Hgo.
  { intros r1 q2 F1 F2 F3 F4. destruct q2; cbn in *. subst. split; [|done].
    assert (forall i, delete id (awaiters q) !! i = None) as Hnone.
    { intros i. destruct (decide (id = i)) as [<-|Hne]; [apply lookup_delete_eq|].
      rewrite lookup_delete_ne by done. destruct (awaiters q !! i) as [aw|] eqn:E; [|done].
      by rewrite (Ha i aw E) in Hne. }
    split; cbn; try done. intros i aw Hi. by rewrite Hnone in Hi. }
  unfold pop_ready. rewrite E1. destruct (ready_ q) as [|e rest] eqn:Er; intros [= <- <-].
  - apply Hgo; try done. rewrite E1, <-Hd. unfold delivered. rewrite omap_app.
    by destruct (closed_ q1); rewrite !app_nil_r.
  - apply Hgo; try (destruct q1; cbn in *; congruence). rewrite <-Hd. unfold delivered. rewrite omap_app. cbn.
    rewrite <-app_assoc. by destruct q1.
Qed.

Lemma enqueue_inv e w : queue_inv w -> exists w', step (EvEnqueue e) w = Some w' /\ queue_inv w'.
Proof.
  intros [Hw Ha Hf Hd]. cbn [step]. unfold enqueue. destruct (closed_ (queue w)) eqn:Ec.
  - eexists. split; [reflexivity|]. rewrite app_nil_r. by split.
  - eexists. split; [reflexivity|]. destruct w as [q next acc rs]. cbn [queue next_id accepted results] in *.
    apply notify_waiter_inv.
    + intros id Hid. assert (waiter_ q = Some id) as Hid' by (by destruct q).
      destruct (Hw id Hid') as (aw & H1 & H2 & H3 & H4 & H5). exists aw.
      split; [by destruct q|]. split; [done|]. split; [done|]. split; [done|].
      intros Hp. rewrite Hp in H5. by destruct q.
    + intros id aw Hi. destruct q; cbn in *. by eapply Ha.
    + intros id Hle. destruct q; cbn in *. by apply Hf.
    + assert (ready_ (set_ready (ready_ q ++ [e]) q) = ready_ q ++ [e]) as -> by (by destruct q).
      by rewrite app_assoc, Hd.
Qed.

Lemma close_inv w : queue_inv w -> exists w', step EvClose w = Some w' /\ queue_inv w'.
Proof.
  intros Hinv. pose proof Hinv as [Hw Ha Hf Hd]. cbn [step]. unfold close.
  destruct (closed_ (queue w)) eqn:Ec.
  - eexists. split; [reflexivity|]. by destruct w.
  - eexists. split; [reflexivity|]. destruct w as [q next acc rs]. cbn [queue next_id accepted results] in *.
    apply notify_waiter_inv.
    + intros id Hid. assert (waiter_ q = Some id) as Hid' by (by destruct q).
      destruct (Hw id Hid') as (aw & H1 & H2 & H3 & H4 & H5). exists aw.
      split; [by destruct q|]. split; [done|]. split; [done|]. split; [done|].
      intros Hp. rewrite Hp in H5. by destruct q.
    + intros id aw Hi. destruct q; cbn in *. by eapply Ha.
    + intros id Hle. destruct q; cbn in *. by apply Hf.
    + by destruct q.
Qed.

(** Polling never meets a second waiter. *)
Lemma poll_inv timeout w : queue_inv w -> exists w', step (EvPoll timeout) w = Some w' /\ queue_inv w'.
Proof.
  intros Hinv. pose proof Hinv as [Hw Ha Hf Hd]. cbn [step].
  destruct (waiter_ (queue w)) as [id|] eqn:Ew; [eauto|].
  set (id := next_id w). set (q := queue w) in *.
  assert (forall i, awaiters q !! i = None) as Hnone.
  { intros i. destruct (awaiters q !! i) as [aw|] eqn:E; [|done]. by specialize (Ha i aw E). }
  unfold poll_to_send. set (aw := mkAwaiter true false false timeout false false false).
  assert (forall r q', await_resume id q = (r, q') ->
            queue_inv (with_result w q' (S id) (Some r))) as Hresume.
  { intros r q' Hr. destruct (await_resume_inv id q (S id) (accepted w) (results w) r q') as [H _]; try done.
    - intros i aw0 Hi. by rewrite Hnone in Hi.
    - intros i Hi. by rewrite Ew in Hi. }
  destruct (await_ready aw q) eqn:Er.
  { destruct (await_resume id q) as [r q'] eqn:E. eexists. split; [reflexivity|]. by apply Hresume. }
  unfold await_ready in Er. cbn in Er.
  apply orb_false_iff in Er as [Er Et]. apply orb_false_iff in Er as [Erd Ec].
  assert (ready_ q = []) as Erd' by (by destruct (ready_ q)).
  unfold await_suspend. cbn [aw_queue aw negb]. unfold arm_waiter.
  assert (ready_ (set_awaiters (<[id := mkAwaiter true true true timeout false false false]> (awaiters q)) q) = []
          /\ closed_ (set_awaiters (<[id := mkAwaiter true true true timeout false false false]> (awaiters q)) q) = false
          /\ waiter_ (set_awaiters (<[id := mkAwaiter true true true timeout false false false]> (awaiters q)) q) = None)
    as (E1 & E2 & E3) by (by destruct q; cbn in *; subst).
  cbn [aw_timeout aw_timer_in_heap aw_timed_out aw_resume_posted aw]. rewrite E1, E2, E3. cbn.
  eexists. split; [reflexivity|]. clear E1 E2 E3. destruct q; cbn in *. subst.
  split; cbn.
  - intros i [= <-]. eexists. rewrite lookup_insert_eq. split; [reflexivity|]. cbn.
    split_and!; done.
  - intros i aw0. destruct (decide (id = i)) as [<-|Hne]; [done|].
    rewrite !lookup_insert_ne by done. by rewrite Hnone.
  - intros i Hle. rewrite !lookup_insert_ne by lia. apply Hnone.
  - rewrite <-Hd, !app_nil_r. done.
Qed.

(** A live awaiter resumed by the loop. *)
Lemma resume_inv w id aw q :
  queue_inv w -> waiter_ (queue w) = Some id -> aw_handle aw = true ->
  awaiters q = <[id := aw]> (awaiters (queue w)) -> ready_ q = ready_ (queue w) ->
  (forall i, waiter_ q = Some i -> i = id) ->
  let '(r, q') := resume id aw q in
  queue_inv (with_result w q' (next_id w) r) /\ notifies q' = notifies q.
Proof.
  intros [Hw Ha Hf Hd] Hid Hh Haw Hr Hwait. unfold resume. rewrite Hh.
  destruct (await_resume id q) as [r q'] eqn:E.
  apply (await_resume_inv id q (next_id w) (accepted w) (results w) r q'); try done.
  - intros i aw0. rewrite Haw. destruct (decide (id = i)) as [<-|Hne]; [done|].
    rewrite lookup_insert_ne by done. intros Hi. pose proof (Ha i aw0 Hi). congruence.
  - by rewrite Hr.
Qed.

Lemma with_none_inv w : queue_inv w -> queue_inv (with_result w (queue w) (next_id w) None).
Proof.
  intros [Hw Ha Hf Hd]. unfold with_result. split; cbn [queue next_id accepted results option_list]; try done.
  by rewrite app_nil_r.
Qed.

Lemma notify_inv w w' : queue_inv w -> step EvNotify w = Some w' -> queue_inv w'.
Proof.
  intros Hinv. cbn [step]. unfold on_notify. destruct (notifies (queue w)) as [|id rest] eqn:En.
  { cbn [mbind option_bind]. intros [= <-]. by apply with_none_inv. }
  destruct (awaiters (queue w) !! id) as [aw|] eqn:Haw; [|done]. cbn [mbind option_bind].
  set (aw' := mkAwaiter _ _ _ _ _ _ _).
  set (q := set_awaiters _ _).
  assert (waiter_ (queue w) = Some id) as Hid by (by apply (qi_alive _ Hinv) in Haw).
  destruct (qi_waiter _ Hinv id Hid) as (aw0 & H1 & _ & _ & Hh & _). rewrite Haw in H1. injection H1 as <-.
  pose proof (resume_inv w id aw' q Hinv Hid Hh) as Hres.
  destruct (resume id aw' q) as [r q'] eqn:E. cbn [mbind option_bind]. intros [= <-].
  apply Hres; unfold q; destruct (queue w); cbn in *; try done. congruence.
Qed.

Lemma timer_inv id w : queue_inv w -> exists w', step (EvTimer id) w = Some w' /\ queue_inv w'.
Proof.
  intros Hinv. cbn [step]. unfold on_timeout.
  assert (queue_inv (with_result w (queue w) (next_id w) None)) as Hsame.
  { by apply with_none_inv. }
  destruct (awaiters (queue w) !! id) as [aw|] eqn:Haw; [|eauto].
  destruct (aw_timer_in_heap aw); cbn [negb]; [|eauto].
  set (aw' := mkAwaiter _ _ _ _ _ _ _). set (q1 := if bool_decide _ then _ else _).
  assert (waiter_ (queue w) = Some id) as Hid by (by apply (qi_alive _ Hinv) in Haw).
  destruct (qi_waiter _ Hinv id Hid) as (aw0 & H1 & _ & _ & Hh & _). rewrite Haw in H1. injection H1 as <-.
  assert (q1 = set_waiter None (queue w)) as Hq1 by (unfold q1; by rewrite bool_decide_true).
  pose proof (resume_inv w id aw' (set_awaiters (<[id := aw']> (awaiters q1)) q1) Hinv Hid Hh) as Hres.
  destruct (resume id aw' _) as [r q'] eqn:E. eexists. split; [reflexivity|].
  apply Hres; rewrite Hq1; by destruct (queue w).
Qed.

Lemma step_queue_inv ev w w' : queue_inv w -> step ev w = Some w' -> queue_inv w'.
Proof.
  intros Hinv Hstep. destruct ev as [e| |t| |id].
  - destruct (enqueue_inv e w Hinv) as (w1 & H1 & H2). congruence.
  - destruct (close_inv w Hinv) as (w1 & H1 & H2). congruence.
  - destruct (poll_inv t w Hinv) as (w1 & H1 & H2). congruence.
  - by eapply notify_inv.
  - destruct (timer_inv id w Hinv) as (w1 & H1 & H2). congruence.
Qed.

Lemma run_queue_inv evs w w' : queue_inv w -> run evs w = Some w' -> queue_inv w'.
Proof.
  revert w. induction evs as [|ev evs IH]; intros w Hinv; cbn [run].
  - by intros [= <-].
  - destruct (step ev w) as [w1|] eqn:E; [|done]. cbn. apply IH. by eapply step_queue_inv.
Qed.

Lemma initial_queue_inv max_free failures : queue_inv (initial_world max_free failures).
Proof. by split. Qed.

(** C39. No lost wake-up and no lost, duplicated or reordered entry: in every
    history of enqueues, polls, closes, notifications and timeouts that does not
    touch a dead awaiter, what the consumer has received followed by what is
    still queued is what was accepted, in order; and a consumer that is
    suspended while there is an entry or the queue is closed has a notification
    on its way. *)
Theorem queue_fifo_no_lost_wakeup (max_free : Z) (failures : list bool) (evs : list Event) (w : World) :
  run evs (initial_world max_free failures) = Some w ->
  delivered (results w) ++ ready_ (queue w) = accepted w /\
  (forall id, waiter_ (queue w) = Some id -> work (queue w) = true -> id ∈ notifies (queue w)).
Proof.
  intros Hrun. apply run_queue_inv in Hrun; [|apply initial_queue_inv]. destruct Hrun as [Hw _ _ Hd].
  split; [done|]. intros id Hid Hwork. destruct (Hw id Hid) as (aw & _ & _ & _ & _ & Hp).
  destruct (aw_resume_posted aw); [done|congruence].
Qed.

Lemma queue_fifo_no_lost_wakeup_witness :
  exists w, run [EvPoll 10; EvEnqueue fresh_entry; EvEnqueue fresh_entry; EvNotify; EvClose]
              (initial_world 4 []) = Some w /\
    delivered (results w) ++ ready_ (queue w) = [fresh_entry; fresh_entry].
Proof.
  destruct (run [EvPoll 10; EvEnqueue fresh_entry; EvEnqueue fresh_entry; EvNotify; EvClose] (initial_world 4 []))
    as [w|] eqn:E; [|vm_compute in E; discriminate].
  exists w. split; [reflexivity|]. pose proof E as Hrun. vm_compute in Hrun. injection Hrun as Hw.
  rewrite (proj1 (queue_fifo_no_lost_wakeup 4 [] _ w E)). subst w. reflexivity.
Defined.

(** Without timers the posted notifications are exactly that of the waiter. *)
Definition timerless (ev : Event) : bool := match ev with EvTimer _ => false | _ => true end.

Definition notifies_ok (q : Queue) : Prop :=
  notifies q =
    match waiter_ q with
    | None => []
    | Some id => match awaiters q !! id with
                 | Some aw => if aw_resume_posted aw then [id] else []
                 | None => []
                 end
    end.

Lemma notify_waiter_ok q :
  notifies_ok q ->
  (forall id, waiter_ q = Some id -> exists aw, awaiters q !! id = Some aw /\ aw_loop aw = true) ->
  notifies_ok (notify_waiter q).
Proof.
  unfold notifies_ok, notify_waiter. intros Hn Hw. destruct (waiter_ q) as [id|] eqn:Ew; [|by rewrite Ew].
  destruct (Hw id eq_refl) as (aw & Haw & Hl). rewrite Haw in *. rewrite Hl. cbn [negb orb].
  destruct (aw_resume_posted aw) eqn:Ep; cbn [orb]; [by rewrite Ew, Haw, Ep|].
  destruct q; cbn in *. subst. by rewrite lookup_insert_eq.
Qed.

Lemma await_resume_notifies id q r q' :
  await_resume id q = (r, q') -> notifies q' = notifies q /\ (waiter_ q = Some id \/ waiter_ q = None -> waiter_ q' = None).
Proof.
  unfold await_resume, pop_ready. case_bool_decide as Hb.
  - destruct q as [[|e rd] f m c w a n o]; cbn; intros [= <- <-]; done.
  - destruct q as [[|e rd] f m c w a n o]; cbn in *; intros [= <- <-]; cbn; (split; [done|]); intros [?| ->]; done.
Qed.

Lemma waiter_loop w id :
  queue_inv w -> waiter_ (queue w) = Some id ->
  exists aw, awaiters (queue w) !! id = Some aw /\ aw_loop aw = true.
Proof. intros Hinv Hid. destruct (qi_waiter _ Hinv id Hid) as (aw & ? & _ & ? & _). eauto. Qed.

Lemma step_timerless ev w :
  queue_inv w -> notifies_ok (queue w) -> timerless ev = true ->
  exists w', step ev w = Some w' /\ notifies_ok (queue w').
Proof.
  intros Hinv Hn Ht. destruct ev as [e| |timeout| |]; [| | | |done]; cbn [step].
  - unfold enqueue. destruct (closed_ (queue w)); eexists; (split; [reflexivity|]); [done|].
    cbn [queue]. apply notify_waiter_ok; [by destruct (queue w)|].
    intros id Hid. assert (waiter_ (queue w) = Some id) as Hid' by (by destruct (queue w)).
    destruct (waiter_loop w id Hinv Hid') as (aw & H1 & H2). exists aw. by destruct (queue w).
  - unfold close. destruct (closed_ (queue w)); eexists; (split; [reflexivity|]); [done|].
    cbn [queue]. apply notify_waiter_ok; [by destruct (queue w)|].
    intros id Hid. assert (waiter_ (queue w) = Some id) as Hid' by (by destruct (queue w)).
    destruct (waiter_loop w id Hinv Hid') as (aw & H1 & H2). exists aw. by destruct (queue w).
  - destruct (poll_inv timeout w Hinv) as (w' & Hstep & _). exists w'. split; [exact Hstep|].
    cbn [step] in Hstep. unfold notifies_ok in Hn |- *. destruct (waiter_ (queue w)) as [id|] eqn:Ew.
    { injection Hstep as <-. by rewrite Ew. }
    unfold poll_to_send in Hstep. destruct (await_ready _ _).
    { destruct (await_resume _ _) as [r q'] eqn:E. cbn in Hstep. injection Hstep as <-.
      apply await_resume_notifies in E as [E1 E2]. cbn. rewrite E1, E2 by auto. done. }
    unfold await_suspend, arm_waiter in Hstep. cbn [aw_queue negb] in Hstep.
    destruct (queue w) as [rd f m c wt a n o]. cbn in Hstep, Hn, Ew. subst.
    destruct rd; destruct c; cbn in Hstep; injection Hstep as <-; cbn; rewrite ?lookup_insert_eq; done.
  - unfold on_notify. unfold notifies_ok in Hn. rewrite Hn.
    destruct (waiter_ (queue w)) as [id|] eqn:Ew.
    2:{ eexists. split; [reflexivity|]. cbn. unfold notifies_ok. by rewrite Ew, Hn. }
    destruct (qi_waiter _ Hinv id Ew) as (aw & Haw & _ & _ & Hh & _). rewrite Haw in Hn |- *.
    destruct (aw_resume_posted aw) eqn:Ep.
    2:{ eexists. split; [reflexivity|]. cbn. unfold notifies_ok. by rewrite Ew, Haw, Ep, Hn. }
    rewrite Haw. cbn [mbind option_bind]. unfold resume. cbn [aw_handle]. rewrite Hh.
    destruct (await_resume id _) as [r q'] eqn:E. cbn [mbind option_bind].
    eexists. split; [reflexivity|]. apply await_resume_notifies in E as [E1 E2].
    unfold notifies_ok. cbn. rewrite E1, E2; destruct (queue w); cbn in *; auto.
Qed.

(** As long as no poll has a timer (the keep-alive ping is off), no history
    ever resumes a dead awaiter; with a timer one does: an entry posts the
    notification, the timer fires first and ends the poll, and the notification
    then runs on the destroyed awaiter. *)
Theorem dead_awaiter_needs_timer :
  (forall max_free failures evs, forallb timerless evs = true ->
     is_Some (run evs (initial_world max_free failures))) /\
  run [EvPoll 10; EvEnqueue fresh_entry; EvTimer 0; EvNotify] (initial_world 4 []) = None.
Proof.
  split; [|vm_compute; reflexivity]. intros max_free failures evs.
  assert (forall w, queue_inv w -> notifies_ok (queue w) -> forallb timerless evs = true -> is_Some (run evs w)) as Hgo.
  { induction evs as [|ev evs IH]; intros w Hinv Hn Ht; cbn [run]; [eauto|].
    cbn [forallb] in Ht. apply andb_prop in Ht as [Ht Hts].
    destruct (step_timerless ev w Hinv Hn Ht) as (w' & Hstep & Hn'). rewrite Hstep. cbn [mbind option_bind].
    apply IH; [by eapply step_queue_inv|done|done]. }
  intros Ht. apply Hgo; [apply initial_queue_inv|done|done].
Qed.

Lemma dead_awaiter_needs_timer_witness :
  is_Some (run [EvPoll max_timeout; EvEnqueue fresh_entry; EvNotify] (initial_world 4 [])).
Proof. apply (proj1 dead_awaiter_needs_timer). reflexivity. Defined.

End SendQueue.
