(* ===== verification/Http2State.v ===== *)
(** * The state of an HTTP/2 connection
    (the data members of [src/http/Http2Connection.h], [Http2Stream.h])

    Streams and pending entries are heap objects with an address; every pointer
    of the source is such an address, and following one whose object has been
    deleted has no result ([None]), like a failed [FIBER_ASSERT].  The members
    are grouped in records by what they are for. *)
From S2P Require Import Prelude IoError Http2Protocol Http2StreamState Http2Sending Http2SendQueue StreamTable.
Import IoError SendPayload Pending Protocol.

(** ** What a connection needs of its table of streams

    The table maps identifiers to streams ([Http2StreamTable] in the program);
    the connection relies on the operations and laws below only. *)
Class StreamIndex (T : Type) := {
  index_size : T -> Z;
  index_find : T -> Z -> option nat;
  index_insert : T -> Z -> nat -> bool * T;
  index_erase : T -> Z -> T;
  index_all : T -> list nat }.

Class StreamIndexLaws (T : Type) `{StreamIndex T} := {
  index_ok : T -> Prop;
  index_map : T -> gmap Z nat;
  index_find_spec t id : index_ok t -> index_find t id = index_map t !! id;
  index_size_spec t : index_ok t -> index_size t = Z.of_nat (size (index_map t));
  index_all_spec t : index_ok t -> index_all t ≡ₚ (map_to_list (index_map t)).*2;
  index_insert_spec t id a : index_ok t ->
    let '(b, t') := index_insert t id a in
    index_ok t' /\ index_map t' = (if b then <[id := a]> (index_map t) else index_map t) /\
    (b = true -> index_map t !! id = None);
  index_erase_spec t id : index_ok t ->
    index_ok (index_erase t id) /\ index_map (index_erase t id) = delete id (index_map t) }.

#[export] Instance table_index : StreamIndex StreamTable.Http2StreamTable := {
  index_size := StreamTable.size_;
  index_find := StreamTable.find;
  index_insert := StreamTable.insert;
  index_erase t id := match StreamTable.erase t id with Some (_, t') => t' | None => t end;
  index_all := StreamTable.streams_in_order }.

#[export] Program Instance table_index_laws : StreamIndexLaws StreamTable.Http2StreamTable := {
  index_ok := StreamTable.wf;
  index_map := StreamTable.to_map }.
Next Obligation. intros. by apply StreamTable.find_ok. Qed.
Next Obligation. intros. symmetry. by apply StreamTable.size_to_map. Qed.
Next Obligation. intros. by apply StreamTable.streams_in_order_perm. Qed.
Next Obligation.
  intros t id a Hwf. cbn.
  destruct (StreamTable.insert_ok t id a Hwf) as (t' & -> & Hwf' & _ & ->).
  split; [done|]. split; [done|]. intros Hb. by apply bool_decide_eq_true in Hb as [_ ?].
Qed.
Next Obligation.
  intros t id Hwf. cbn. destruct (StreamTable.erase_ok t id Hwf) as (t' & -> & Hwf' & _ & ->). done.
Qed.

Module Conn.

(** ** Data *)

Inductive CloseState := Open | PeerDraining | LocalDraining | BothDraining | AbortClosing | Closed.

#[global] Instance CloseState_eq_dec : EqDecision CloseState.
Proof. solve_decision. Defined.

Inductive ScheduleResult := NoPending | BlockedByStreamWindow | BlockedByConnWindow | Scheduled_.

#[global] Instance ScheduleResult_eq_dec : EqDecision ScheduleResult.
Proof. solve_decision. Defined.

(** The options the logic depends on; [role_server] is [role == Server]. *)
Record Options := mkOptions {
  role_server : bool;
  max_frame_size : Z;
  max_free_send_entries : Z;
  max_free_pending_entries : Z;
  max_peer_concurrent_streams : Z;
  local_max_concurrent_streams : Z;
  max_local_push_streams : Z;
  initial_connection_recv_window : Z;
  initial_connection_send_window : Z;
  initial_stream_send_window : Z;
  keepalive_ping_interval : Z;
  read_buffer_size : Z;
  expect_peer_preface : bool;
  auto_start_connection_preface : bool }.

(** A stream: [pending_] runs from [pending_head_] to [pending_tail_],
    [active_pending_] from [active_pending_head_]; [conn_] says that the pointer
    to the connection is set. *)
Record Http2Stream := mkStream {
  stream_id_ : Z;
  state_ : StreamState.State;
  active_ : bool;
  conn_ : bool;
  send_window_ : Z;
  pending_ : list nat;
  active_pending_ : list nat;
  connection_owned_ : bool }.

Definition set_stream_id_ (v : Z) (r : Http2Stream) : Http2Stream :=
  mkStream v (state_ r) (active_ r) (conn_ r) (send_window_ r) (pending_ r) (active_pending_ r)
    (connection_owned_ r).
Definition set_state_ (v : StreamState.State) (r : Http2Stream) : Http2Stream :=
  mkStream (stream_id_ r) v (active_ r) (conn_ r) (send_window_ r) (pending_ r) (active_pending_ r)
    (connection_owned_ r).
Definition set_active_ (v : bool) (r : Http2Stream) : Http2Stream :=
  mkStream (stream_id_ r) (state_ r) v (conn_ r) (send_window_ r) (pending_ r) (active_pending_ r)
    (connection_owned_ r).
Definition set_conn_ (v : bool) (r : Http2Stream) : Http2Stream :=
  mkStream (stream_id_ r) (state_ r) (active_ r) v (send_window_ r) (pending_ r) (active_pending_ r)
    (connection_owned_ r).
Definition set_send_window_ (v : Z) (r : Http2Stream) : Http2Stream :=
  mkStream (stream_id_ r) (state_ r) (active_ r) (conn_ r) v (pending_ r) (active_pending_ r)
    (connection_owned_ r).
Definition set_pending_ (v : list nat) (r : Http2Stream) : Http2Stream :=
  mkStream (stream_id_ r) (state_ r) (active_ r) (conn_ r) (send_window_ r) v (active_pending_ r)
    (connection_owned_ r).
Definition set_active_pending_ (v : list nat) (r : Http2Stream) : Http2Stream :=
  mkStream (stream_id_ r) (state_ r) (active_ r) (conn_ r) (send_window_ r) (pending_ r) v
    (connection_owned_ r).
Definition set_connection_owned_ (v : bool) (r : Http2Stream) : Http2Stream :=
  mkStream (stream_id_ r) (state_ r) (active_ r) (conn_ r) (send_window_ r) (pending_ r) (active_pending_
    r) v.

(** What the peer announced, and the window of the connection. *)
Record Peer := mkPeer {
  peer_advertised_max_concurrent_streams_ : Z;
  conn_send_window_ : Z;
  peer_initial_stream_send_window_ : Z;
  peer_header_table_size_ : Z;
  peer_max_outbound_frame_size_ : Z;
  peer_max_header_list_size_ : Z;
  peer_enable_push_ : bool }.

Definition set_peer_advertised_max_concurrent_streams_ (v : Z) (r : Peer) : Peer :=
  mkPeer v (conn_send_window_ r) (peer_initial_stream_send_window_ r) (peer_header_table_size_ r)
    (peer_max_outbound_frame_size_ r) (peer_max_header_list_size_ r) (peer_enable_push_ r).
Definition set_conn_send_window_ (v : Z) (r : Peer) : Peer :=
  mkPeer (peer_advertised_max_concurrent_streams_ r) v (peer_initial_stream_send_window_ r)
    (peer_header_table_size_ r) (peer_max_outbound_frame_size_ r) (peer_max_header_list_size_ r)
    (peer_enable_push_ r).
Definition set_peer_initial_stream_send_window_ (v : Z) (r : Peer) : Peer :=
  mkPeer (peer_advertised_max_concurrent_streams_ r) (conn_send_window_ r) v (peer_header_table_size_ r)
    (peer_max_outbound_frame_size_ r) (peer_max_header_list_size_ r) (peer_enable_push_ r).
Definition set_peer_header_table_size_ (v : Z) (r : Peer) : Peer :=
  mkPeer (peer_advertised_max_concurrent_streams_ r) (conn_send_window_ r)
    (peer_initial_stream_send_window_ r) v (peer_max_outbound_frame_size_ r) (peer_max_header_list_size_ r)
    (peer_enable_push_ r).
Definition set_peer_max_outbound_frame_size_ (v : Z) (r : Peer) : Peer :=
  mkPeer (peer_advertised_max_concurrent_streams_ r) (conn_send_window_ r)
    (peer_initial_stream_send_window_ r) (peer_header_table_size_ r) v (peer_max_header_list_size_ r)
    (peer_enable_push_ r).
Definition set_peer_max_header_list_size_ (v : Z) (r : Peer) : Peer :=
  mkPeer (peer_advertised_max_concurrent_streams_ r) (conn_send_window_ r)
    (peer_initial_stream_send_window_ r) (peer_header_table_size_ r) (peer_max_outbound_frame_size_ r) v
    (peer_enable_push_ r).
Definition set_peer_enable_push_ (v : bool) (r : Peer) : Peer :=
  mkPeer (peer_advertised_max_concurrent_streams_ r) (conn_send_window_ r)
    (peer_initial_stream_send_window_ r) (peer_header_table_size_ r) (peer_max_outbound_frame_size_ r)
    (peer_max_header_list_size_ r) v.

(** Stream numbering and counts. *)
Record Ids := mkIds {
  last_peer_stream_id_ : Z;
  last_local_stream_id_ : Z;
  peer_active_stream_count_ : Z;
  local_push_stream_count_ : Z }.

Definition set_last_peer_stream_id_ (v : Z) (r : Ids) : Ids :=
  mkIds v (last_local_stream_id_ r) (peer_active_stream_count_ r) (local_push_stream_count_ r).
Definition set_last_local_stream_id_ (v : Z) (r : Ids) : Ids :=
  mkIds (last_peer_stream_id_ r) v (peer_active_stream_count_ r) (local_push_stream_count_ r).
Definition set_peer_active_stream_count_ (v : Z) (r : Ids) : Ids :=
  mkIds (last_peer_stream_id_ r) (last_local_stream_id_ r) v (local_push_stream_count_ r).
Definition set_local_push_stream_count_ (v : Z) (r : Ids) : Ids :=
  mkIds (last_peer_stream_id_ r) (last_local_stream_id_ r) (peer_active_stream_count_ r) v.

(** Start, shutdown and [GOAWAY]. *)
Record Life := mkLife {
  close_state_ : CloseState;
  run_started_ : bool;
  send_loop_running_ : bool;
  transport_valid : bool;
  local_connection_preface_sent_ : bool;
  local_settings_acknowledged_ : bool;
  local_goaway_sent_ : bool;
  local_goaway_last_stream_id_ : Z;
  peer_sent_goaway_ : bool;
  peer_last_stream_id_ : Z;
  peer_goaway_error_code_ : Z;
  graceful_send_queue_close_requested_ : bool;
  stop_keepalive_ : bool;
  stop_sending_requested_ : bool;
  stop_sending_reason_ : IoErr }.

Definition set_close_state_ (v : CloseState) (r : Life) : Life :=
  mkLife v (run_started_ r) (send_loop_running_ r) (transport_valid r) (local_connection_preface_sent_ r)
    (local_settings_acknowledged_ r) (local_goaway_sent_ r) (local_goaway_last_stream_id_ r)
    (peer_sent_goaway_ r) (peer_last_stream_id_ r) (peer_goaway_error_code_ r)
    (graceful_send_queue_close_requested_ r) (stop_keepalive_ r) (stop_sending_requested_ r)
    (stop_sending_reason_ r).
Definition set_run_started_ (v : bool) (r : Life) : Life :=
  mkLife (close_state_ r) v (send_loop_running_ r) (transport_valid r) (local_connection_preface_sent_ r)
    (local_settings_acknowledged_ r) (local_goaway_sent_ r) (local_goaway_last_stream_id_ r)
    (peer_sent_goaway_ r) (peer_last_stream_id_ r) (peer_goaway_error_code_ r)
    (graceful_send_queue_close_requested_ r) (stop_keepalive_ r) (stop_sending_requested_ r)
    (stop_sending_reason_ r).
Definition set_send_loop_running_ (v : bool) (r : Life) : Life :=
  mkLife (close_state_ r) (run_started_ r) v (transport_valid r) (local_connection_preface_sent_ r)
    (local_settings_acknowledged_ r) (local_goaway_sent_ r) (local_goaway_last_stream_id_ r)
    (peer_sent_goaway_ r) (peer_last_stream_id_ r) (peer_goaway_error_code_ r)
    (graceful_send_queue_close_requested_ r) (stop_keepalive_ r) (stop_sending_requested_ r)
    (stop_sending_reason_ r).
Definition set_transport_valid (v : bool) (r : Life) : Life :=
  mkLife (close_state_ r) (run_started_ r) (send_loop_running_ r) v (local_connection_preface_sent_ r)
    (local_settings_acknowledged_ r) (local_goaway_sent_ r) (local_goaway_last_stream_id_ r)
    (peer_sent_goaway_ r) (peer_last_stream_id_ r) (peer_goaway_error_code_ r)
    (graceful_send_queue_close_requested_ r) (stop_keepalive_ r) (stop_sending_requested_ r)
    (stop_sending_reason_ r).
Definition set_local_connection_preface_sent_ (v : bool) (r : Life) : Life :=
  mkLife (close_state_ r) (run_started_ r) (send_loop_running_ r) (transport_valid r) v
    (local_settings_acknowledged_ r) (local_goaway_sent_ r) (local_goaway_last_stream_id_ r)
    (peer_sent_goaway_ r) (peer_last_stream_id_ r) (peer_goaway_error_code_ r)
    (graceful_send_queue_close_requested_ r) (stop_keepalive_ r) (stop_sending_requested_ r)
    (stop_sending_reason_ r).
Definition set_local_settings_acknowledged_ (v : bool) (r : Life) : Life :=
  mkLife (close_state_ r) (run_started_ r) (send_loop_running_ r) (transport_valid r)
    (local_connection_preface_sent_ r) v (local_goaway_sent_ r) (local_goaway_last_stream_id_ r)
    (peer_sent_goaway_ r) (peer_last_stream_id_ r) (peer_goaway_error_code_ r)
    (graceful_send_queue_close_requested_ r) (stop_keepalive_ r) (stop_sending_requested_ r)
    (stop_sending_reason_ r).
Definition set_local_goaway_sent_ (v : bool) (r : Life) : Life :=
  mkLife (close_state_ r) (run_started_ r) (send_loop_running_ r) (transport_valid r)
    (local_connection_preface_sent_ r) (local_settings_acknowledged_ r) v (local_goaway_last_stream_id_ r)
    (peer_sent_goaway_ r) (peer_last_stream_id_ r) (peer_goaway_error_code_ r)
    (graceful_send_queue_close_requested_ r) (stop_keepalive_ r) (stop_sending_requested_ r)
    (stop_sending_reason_ r).
Definition set_local_goaway_last_stream_id_ (v : Z) (r : Life) : Life :=
  mkLife (close_state_ r) (run_started_ r) (send_loop_running_ r) (transport_valid r)
    (local_connection_preface_sent_ r) (local_settings_acknowledged_ r) (local_goaway_sent_ r) v
    (peer_sent_goaway_ r) (peer_last_stream_id_ r) (peer_goaway_error_code_ r)
    (graceful_send_queue_close_requested_ r) (stop_keepalive_ r) (stop_sending_requested_ r)
    (stop_sending_reason_ r).
Definition set_peer_sent_goaway_ (v : bool) (r : Life) : Life :=
  mkLife (close_state_ r) (run_started_ r) (send_loop_running_ r) (transport_valid r)
    (local_connection_preface_sent_ r) (local_settings_acknowledged_ r) (local_goaway_sent_ r)
    (local_goaway_last_stream_id_ r) v (peer_last_stream_id_ r) (peer_goaway_error_code_ r)
    (graceful_send_queue_close_requested_ r) (stop_keepalive_ r) (stop_sending_requested_ r)
    (stop_sending_reason_ r).
Definition set_peer_last_stream_id_ (v : Z) (r : Life) : Life :=
  mkLife (close_state_ r) (run_started_ r) (send_loop_running_ r) (transport_valid r)
    (local_connection_preface_sent_ r) (local_settings_acknowledged_ r) (local_goaway_sent_ r)
    (local_goaway_last_stream_id_ r) (peer_sent_goaway_ r) v (peer_goaway_error_code_ r)
    (graceful_send_queue_close_requested_ r) (stop_keepalive_ r) (stop_sending_requested_ r)
    (stop_sending_reason_ r).
Definition set_peer_goaway_error_code_ (v : Z) (r : Life) : Life :=
  mkLife (close_state_ r) (run_started_ r) (send_loop_running_ r) (transport_valid r)
    (local_connection_preface_sent_ r) (local_settings_acknowledged_ r) (local_goaway_sent_ r)
    (local_goaway_last_stream_id_ r) (peer_sent_goaway_ r) (peer_last_stream_id_ r) v
    (graceful_send_queue_close_requested_ r) (stop_keepalive_ r) (stop_sending_requested_ r)
    (stop_sending_reason_ r).
Definition set_graceful_send_queue_close_requested_ (v : bool) (r : Life) : Life :=
  mkLife (close_state_ r) (run_started_ r) (send_loop_running_ r) (transport_valid r)
    (local_connection_preface_sent_ r) (local_settings_acknowledged_ r) (local_goaway_sent_ r)
    (local_goaway_last_stream_id_ r) (peer_sent_goaway_ r) (peer_last_stream_id_ r) (peer_goaway_error_code_
    r) v (stop_keepalive_ r) (stop_sending_requested_ r) (stop_sending_reason_ r).
Definition set_stop_keepalive_ (v : bool) (r : Life) : Life :=
  mkLife (close_state_ r) (run_started_ r) (send_loop_running_ r) (transport_valid r)
    (local_connection_preface_sent_ r) (local_settings_acknowledged_ r) (local_goaway_sent_ r)
    (local_goaway_last_stream_id_ r) (peer_sent_goaway_ r) (peer_last_stream_id_ r) (peer_goaway_error_code_
    r) (graceful_send_queue_close_requested_ r) v (stop_sending_requested_ r) (stop_sending_reason_ r).
Definition set_stop_sending_requested_ (v : bool) (r : Life) : Life :=
  mkLife (close_state_ r) (run_started_ r) (send_loop_running_ r) (transport_valid r)
    (local_connection_preface_sent_ r) (local_settings_acknowledged_ r) (local_goaway_sent_ r)
    (local_goaway_last_stream_id_ r) (peer_sent_goaway_ r) (peer_last_stream_id_ r) (peer_goaway_error_code_
    r) (graceful_send_queue_close_requested_ r) (stop_keepalive_ r) v (stop_sending_reason_ r).
Definition set_stop_sending_reason_ (v : IoErr) (r : Life) : Life :=
  mkLife (close_state_ r) (run_started_ r) (send_loop_running_ r) (transport_valid r)
    (local_connection_preface_sent_ r) (local_settings_acknowledged_ r) (local_goaway_sent_ r)
    (local_goaway_last_stream_id_ r) (peer_sent_goaway_ r) (peer_last_stream_id_ r) (peer_goaway_error_code_
    r) (graceful_send_queue_close_requested_ r) (stop_keepalive_ r) (stop_sending_requested_ r) v.

(** The frame being received. *)
Record Inbound := mkInbound {
  expecting_continuation_ : bool;
  inbound_header_stream_id_ : Z;
  inbound_header_block_bytes_ : Z;
  inbound_header_end_stream_ : bool;
  incoming_pad_length_ : Z;
  control_payload_scratch_ : list Z;
  control_payload_used_ : Z;
  settings_scratch_ : list Z;
  settings_scratch_used_ : Z }.

Definition set_expecting_continuation_ (v : bool) (r : Inbound) : Inbound :=
  mkInbound v (inbound_header_stream_id_ r) (inbound_header_block_bytes_ r) (inbound_header_end_stream_ r)
    (incoming_pad_length_ r) (control_payload_scratch_ r) (control_payload_used_ r) (settings_scratch_ r)
    (settings_scratch_used_ r).
Definition set_inbound_header_stream_id_ (v : Z) (r : Inbound) : Inbound :=
  mkInbound (expecting_continuation_ r) v (inbound_header_block_bytes_ r) (inbound_header_end_stream_ r)
    (incoming_pad_length_ r) (control_payload_scratch_ r) (control_payload_used_ r) (settings_scratch_ r)
    (settings_scratch_used_ r).
Definition set_inbound_header_block_bytes_ (v : Z) (r : Inbound) : Inbound :=
  mkInbound (expecting_continuation_ r) (inbound_header_stream_id_ r) v (inbound_header_end_stream_ r)
    (incoming_pad_length_ r) (control_payload_scratch_ r) (control_payload_used_ r) (settings_scratch_ r)
    (settings_scratch_used_ r).
Definition set_inbound_header_end_stream_ (v : bool) (r : Inbound) : Inbound :=
  mkInbound (expecting_continuation_ r) (inbound_header_stream_id_ r) (inbound_header_block_bytes_ r) v
    (incoming_pad_length_ r) (control_payload_scratch_ r) (control_payload_used_ r) (settings_scratch_ r)
    (settings_scratch_used_ r).
Definition set_incoming_pad_length_ (v : Z) (r : Inbound) : Inbound :=
  mkInbound (expecting_continuation_ r) (inbound_header_stream_id_ r) (inbound_header_block_bytes_ r)
    (inbound_header_end_stream_ r) v (control_payload_scratch_ r) (control_payload_used_ r)
    (settings_scratch_ r) (settings_scratch_used_ r).
Definition set_control_payload_scratch_ (v : list Z) (r : Inbound) : Inbound :=
  mkInbound (expecting_continuation_ r) (inbound_header_stream_id_ r) (inbound_header_block_bytes_ r)
    (inbound_header_end_stream_ r) (incoming_pad_length_ r) v (control_payload_used_ r) (settings_scratch_ r)
    (settings_scratch_used_ r).
Definition set_control_payload_used_ (v : Z) (r : Inbound) : Inbound :=
  mkInbound (expecting_continuation_ r) (inbound_header_stream_id_ r) (inbound_header_block_bytes_ r)
    (inbound_header_end_stream_ r) (incoming_pad_length_ r) (control_payload_scratch_ r) v (settings_scratch_
    r) (settings_scratch_used_ r).
Definition set_settings_scratch_ (v : list Z) (r : Inbound) : Inbound :=
  mkInbound (expecting_continuation_ r) (inbound_header_stream_id_ r) (inbound_header_block_bytes_ r)
    (inbound_header_end_stream_ r) (incoming_pad_length_ r) (control_payload_scratch_ r)
    (control_payload_used_ r) v (settings_scratch_used_ r).
Definition set_settings_scratch_used_ (v : Z) (r : Inbound) : Inbound :=
  mkInbound (expecting_continuation_ r) (inbound_header_stream_id_ r) (inbound_header_block_bytes_ r)
    (inbound_header_end_stream_ r) (incoming_pad_length_ r) (control_payload_scratch_ r)
    (control_payload_used_ r) (settings_scratch_ r) v.

(** A call of [on_header_recv] ([rc_header]) or [on_data_recv]: the stream, the
    bytes of the frame handed to it and their offset. *)
Record Received := mkReceived {
  rc_stream : nat;
  rc_header : bool;
  rc_bytes : list Z;
  rc_offset : Z }.

(** Objects, lists and queues.  [owned_streams] is the list from
    [owned_stream_head_], [changes] the calls of [on_change] so far, [received] those of
    the two methods that receive, [oom_] which
    of the next allocations fail. *)
Record Mem (T : Type) := mkMem {
  streams_ : T;
  stream_store : gmap nat Http2Stream;
  next_stream : nat;
  pending_store : gmap nat Http2PendingEntry;
  next_pending : nat;
  free_entry_count_ : Z;
  conn_wait_streams_ : list nat;
  owned_streams : list nat;
  lifetime_wg_ : Z;
  changes : list Change;
  received : list Received;
  send_queue_ : SendQueue.Queue;
  oom_ : list bool }.
Arguments mkMem {T}.
Arguments streams_ {T}.
Arguments stream_store {T}.
Arguments next_stream {T}.
Arguments pending_store {T}.
Arguments next_pending {T}.
Arguments free_entry_count_ {T}.
Arguments conn_wait_streams_ {T}.
Arguments owned_streams {T}.
Arguments lifetime_wg_ {T}.
Arguments changes {T}.
Arguments received {T}.
Arguments send_queue_ {T}.
Arguments oom_ {T}.

Definition set_streams_ {T} (v : T) (r : Mem T) : Mem T :=
  mkMem v (stream_store r) (next_stream r) (pending_store r) (next_pending r) (free_entry_count_ r)
    (conn_wait_streams_ r) (owned_streams r) (lifetime_wg_ r) (changes r) (received r) (send_queue_ r) (oom_ r).
Definition set_stream_store {T} (v : gmap nat Http2Stream) (r : Mem T) : Mem T :=
  mkMem (streams_ r) v (next_stream r) (pending_store r) (next_pending r) (free_entry_count_ r)
    (conn_wait_streams_ r) (owned_streams r) (lifetime_wg_ r) (changes r) (received r) (send_queue_ r) (oom_ r).
Definition set_next_stream {T} (v : nat) (r : Mem T) : Mem T :=
  mkMem (streams_ r) (stream_store r) v (pending_store r) (next_pending r) (free_entry_count_ r)
    (conn_wait_streams_ r) (owned_streams r) (lifetime_wg_ r) (changes r) (received r) (send_queue_ r) (oom_ r).
Definition set_pending_store {T} (v : gmap nat Http2PendingEntry) (r : Mem T) : Mem T :=
  mkMem (streams_ r) (stream_store r) (next_stream r) v (next_pending r) (free_entry_count_ r)
    (conn_wait_streams_ r) (owned_streams r) (lifetime_wg_ r) (changes r) (received r) (send_queue_ r) (oom_ r).
Definition set_next_pending {T} (v : nat) (r : Mem T) : Mem T :=
  mkMem (streams_ r) (stream_store r) (next_stream r) (pending_store r) v (free_entry_count_ r)
    (conn_wait_streams_ r) (owned_streams r) (lifetime_wg_ r) (changes r) (received r) (send_queue_ r) (oom_ r).
Definition set_free_entry_count_ {T} (v : Z) (r : Mem T) : Mem T :=
  mkMem (streams_ r) (stream_store r) (next_stream r) (pending_store r) (next_pending r) v
    (conn_wait_streams_ r) (owned_streams r) (lifetime_wg_ r) (changes r) (received r) (send_queue_ r) (oom_ r).
Definition set_conn_wait_streams_ {T} (v : list nat) (r : Mem T) : Mem T :=
  mkMem (streams_ r) (stream_store r) (next_stream r) (pending_store r) (next_pending r) (free_entry_count_
    r) v (owned_streams r) (lifetime_wg_ r) (changes r) (received r) (send_queue_ r) (oom_ r).
Definition set_owned_streams {T} (v : list nat) (r : Mem T) : Mem T :=
  mkMem (streams_ r) (stream_store r) (next_stream r) (pending_store r) (next_pending r) (free_entry_count_
    r) (conn_wait_streams_ r) v (lifetime_wg_ r) (changes r) (received r) (send_queue_ r) (oom_ r).
Definition set_lifetime_wg_ {T} (v : Z) (r : Mem T) : Mem T :=
  mkMem (streams_ r) (stream_store r) (next_stream r) (pending_store r) (next_pending r) (free_entry_count_
    r) (conn_wait_streams_ r) (owned_streams r) v (changes r) (received r) (send_queue_ r) (oom_ r).
Definition set_changes {T} (v : list Change) (r : Mem T) : Mem T :=
  mkMem (streams_ r) (stream_store r) (next_stream r) (pending_store r) (next_pending r) (free_entry_count_
    r) (conn_wait_streams_ r) (owned_streams r) (lifetime_wg_ r) v (received r) (send_queue_ r) (oom_ r).
Definition set_received {T} (v : list Received) (r : Mem T) : Mem T :=
  mkMem (streams_ r) (stream_store r) (next_stream r) (pending_store r) (next_pending r) (free_entry_count_
    r) (conn_wait_streams_ r) (owned_streams r) (lifetime_wg_ r) (changes r) v (send_queue_ r) (oom_ r).
Definition set_send_queue_ {T} (v : SendQueue.Queue) (r : Mem T) : Mem T :=
  mkMem (streams_ r) (stream_store r) (next_stream r) (pending_store r) (next_pending r) (free_entry_count_
    r) (conn_wait_streams_ r) (owned_streams r) (lifetime_wg_ r) (changes r) (received r) v (oom_ r).
Definition set_oom_ {T} (v : list bool) (r : Mem T) : Mem T :=
  mkMem (streams_ r) (stream_store r) (next_stream r) (pending_store r) (next_pending r) (free_entry_count_
    r) (conn_wait_streams_ r) (owned_streams r) (lifetime_wg_ r) (changes r) (received r) (send_queue_ r) v.

Record Conn (T : Type) := mkConn {
  options_ : Options;
  peer : Peer;
  ids : Ids;
  life : Life;
  inb : Inbound;
  mem : Mem T }.
Arguments mkConn {T}.
Arguments options_ {T}.
Arguments peer {T}.
Arguments ids {T}.
Arguments life {T}.
Arguments inb {T}.
Arguments mem {T}.

Definition set_options_ {T} (v : Options) (r : Conn T) : Conn T :=
  mkConn v (peer r) (ids r) (life r) (inb r) (mem r).
Definition set_peer {T} (v : Peer) (r : Conn T) : Conn T :=
  mkConn (options_ r) v (ids r) (life r) (inb r) (mem r).
Definition set_ids {T} (v : Ids) (r : Conn T) : Conn T :=
  mkConn (options_ r) (peer r) v (life r) (inb r) (mem r).
Definition set_life {T} (v : Life) (r : Conn T) : Conn T :=
  mkConn (options_ r) (peer r) (ids r) v (inb r) (mem r).
Definition set_inb {T} (v : Inbound) (r : Conn T) : Conn T :=
  mkConn (options_ r) (peer r) (ids r) (life r) v (mem r).
Definition set_mem {T} (v : Mem T) (r : Conn T) : Conn T :=
  mkConn (options_ r) (peer r) (ids r) (life r) (inb r) v.

(** ** The monad

    A method runs on the connection and yields a result, or touches freed memory
    or fails an assertion ([None]). *)
Section Monad.
Context {T : Type} `{StreamIndex T}.

Definition M (A : Type) : Type := Conn T -> option (A * Conn T).

#[global] Instance M_ret : MRet M := fun _ a c => Some (a, c).
#[global] Instance M_bind : MBind M := fun _ _ k m c =>
  match m c with Some (a, c') => k a c' | None => None end.

Definition crash {A} : M A := fun _ => None.
Definition fiber_assert (b : bool) : M unit := if b then mret tt else crash.
Definition gets {A} (f : Conn T -> A) : M A := fun c => Some (f c, c).
Definition modify (f : Conn T -> Conn T) : M unit := fun c => Some (tt, f c).

Definition modify_peer (f : Peer -> Peer) : M unit := modify (fun c => set_peer (f (peer c)) c).
Definition modify_ids (f : Ids -> Ids) : M unit := modify (fun c => set_ids (f (ids c)) c).
Definition modify_life (f : Life -> Life) : M unit := modify (fun c => set_life (f (life c)) c).
Definition modify_inb (f : Inbound -> Inbound) : M unit := modify (fun c => set_inb (f (inb c)) c).
Definition modify_mem (f : Mem T -> Mem T) : M unit := modify (fun c => set_mem (f (mem c)) c).

Definition when (b : bool) (m : M unit) : M unit := if b then m else mret tt.

Fixpoint for_each {A} (l : list A) (f : A -> M unit) : M unit :=
  match l with
  | [] => mret tt
  | a :: l' => f a ;; for_each l' f
  end.

(** *** Objects *)

Definition get_stream (a : nat) : M Http2Stream := fun c =>
  match stream_store (mem c) !! a with Some s => Some (s, c) | None => None end.
Definition mod_stream (a : nat) (f : Http2Stream -> Http2Stream) : M unit :=
  s ← get_stream a;
  modify_mem (fun m => set_stream_store (<[a := f s]> (stream_store m)) m).

Definition get_pending (e : nat) : M Http2PendingEntry := fun c =>
  match pending_store (mem c) !! e with Some p => Some (p, c) | None => None end.
Definition mod_pending (e : nat) (f : Http2PendingEntry -> Http2PendingEntry) : M unit :=
  p ← get_pending e;
  modify_mem (fun m => set_pending_store (<[e := f p]> (pending_store m)) m).

(** [new (std::nothrow)]: whether it succeeds. *)
Definition allocate : M bool := fun c =>
  match oom_ (mem c) with
  | [] => Some (true, c)
  | f :: rest => Some (negb f, set_mem (set_oom_ rest (mem c)) c)
  end.

(** [lifetime_wg_.add(1)] and [done()]. *)
Definition wg_add : M unit := modify_mem (fun m => set_lifetime_wg_ (lifetime_wg_ m + 1) m).
Definition wg_done : M unit :=
  n ← gets (fun c => lifetime_wg_ (mem c));
  fiber_assert (0 <? n) ;;
  modify_mem (fun m => set_lifetime_wg_ (n - 1) m).

(** *** The send queue and the pools *)

Definition on_queue {A} (f : SendQueue.Queue -> A * SendQueue.Queue) : M A := fun c =>
  let '(a, q) := f (send_queue_ (mem c)) in Some (a, set_mem (set_send_queue_ q (mem c)) c).

(** [acquire_send_entry] and [release_send_entry]: allocation failures come from
    the connection's list. *)
Definition acquire_send_entry : M (option SendEntry.Http2SendingEntry) :=
  n ← gets (fun c => SendQueue.free_count_ (send_queue_ (mem c)));
  if 0 <? n then on_queue SendQueue.acquire
  else ok ← allocate; if negb ok then mret None else mret (Some SendEntry.fresh_entry).

Definition release_send_entry : M unit := on_queue (fun q => (tt, SendQueue.release q)).

(** [Http2PendingPool::create] and [destroy]; the address of the entry. *)
Definition pool_create (entry : Http2PendingEntry) : M (option nat) :=
  n ← gets (fun c => free_entry_count_ (mem c));
  ok ← (if 0 <? n then modify_mem (set_free_entry_count_ (n - 1)) ;; mret true else allocate);
  if negb ok then mret None
  else
    e ← gets (fun c => next_pending (mem c));
    modify_mem (fun m => set_next_pending (S e) (set_pending_store (<[e := entry]> (pending_store m)) m)) ;;
    mret (Some e).

Definition pool_destroy (e : nat) : M unit :=
  _ ← get_pending e;
  max ← gets (fun c => max_free_pending_entries (options_ c));
  modify_mem (fun m =>
    set_free_entry_count_ (if free_entry_count_ m <? max then free_entry_count_ m + 1 else free_entry_count_ m)
      (set_pending_store (delete e (pending_store m)) m)).

(** *** Shutdown *)

(** [abort_connection] (also [stop_sending] and [shutdown]). *)
Definition abort_connection (reason : IoErr) : M unit :=
  stopped ← gets (fun c => stop_sending_requested_ (life c));
  if (stopped : bool) then mret tt
  else
    modify_life (fun l => set_stop_keepalive_ true (set_stop_sending_reason_ reason
      (set_stop_sending_requested_ true (set_close_state_ AbortClosing l)))) ;;
    on_queue (fun q => (tt, SendQueue.close q)) ;;
    modify_life (set_transport_valid false).

Definition stop_sending (reason : IoErr) : M unit := abort_connection reason.

Definition enqueue_send_entry (entry : SendEntry.Http2SendingEntry) : M IoErr :=
  l ← gets life;
  if negb (run_started_ l) || negb (transport_valid l) then mret Invalid
  else if stop_sending_requested_ l then mret (stop_sending_reason_ l)
  else
    result ← on_queue (SendQueue.enqueue entry);
    if bool_decide (result = Canceled) then
      l ← gets life; mret (if stop_sending_requested_ l then stop_sending_reason_ l else Canceled)
    else mret result.

Definition maybe_finish_graceful_shutdown : M unit :=
  l ← gets life;
  n ← gets (fun c => index_size (streams_ (mem c)));
  if stop_sending_requested_ l || graceful_send_queue_close_requested_ l then mret tt
  else if negb (bool_decide (close_state_ l = PeerDraining) || bool_decide (close_state_ l = LocalDraining) ||
                bool_decide (close_state_ l = BothDraining)) then mret tt
  else if negb (n =? 0) then mret tt
  else if negb (local_goaway_sent_ l) then mret tt
  else
    modify_life (set_graceful_send_queue_close_requested_ true) ;;
    on_queue (fun q => (tt, SendQueue.close q)).

(** *** Identifiers *)

Definition is_local_stream_id (c : Conn T) (stream_id : Z) : bool :=
  if stream_id =? 0 then false
  else let odd := negb (Z.land stream_id 1 =? 0) in
       if role_server (options_ c) then negb odd else odd.

Definition is_peer_stream_id (c : Conn T) (stream_id : Z) : bool :=
  if stream_id =? 0 then false else negb (is_local_stream_id c stream_id).

Definition is_next_peer_stream_id (c : Conn T) (stream_id : Z) : bool :=
  is_peer_stream_id c stream_id && (last_peer_stream_id_ (ids c) <? stream_id).

Definition is_next_local_stream_id (c : Conn T) (stream_id : Z) : bool :=
  is_local_stream_id c stream_id && (last_local_stream_id_ (ids c) <? stream_id).

Definition find_stream (c : Conn T) (stream_id : Z) : option nat := index_find (streams_ (mem c)) stream_id.

Definition is_idle_stream (c : Conn T) (stream_id : Z) : bool :=
  if (stream_id =? 0) || bool_decide (is_Some (find_stream c stream_id)) then false
  else if is_local_stream_id c stream_id then last_local_stream_id_ (ids c) <? stream_id
  else if is_peer_stream_id c stream_id then last_peer_stream_id_ (ids c) <? stream_id
  else false.

(** *** Destroying a stream *)

(** [conn_wait_streams_] is an intrusive list: pushing a linked stream and
    erasing an unlinked one do nothing. *)
Definition wait_push_back (a : nat) : M unit :=
  modify_mem (fun m => set_conn_wait_streams_
    (if bool_decide (a ∈ conn_wait_streams_ m) then conn_wait_streams_ m else conn_wait_streams_ m ++ [a]) m).
Definition wait_erase (a : nat) : M unit :=
  modify_mem (fun m => set_conn_wait_streams_ (filter (fun x => x <> a) (conn_wait_streams_ m)) m).

Definition erase_stream (a : nat) : M unit :=
  s ← get_stream a;
  when (conn_ s) (wait_erase a) ;;
  modify_mem (fun m => set_streams_ (index_erase (streams_ m) (stream_id_ s)) m) ;;
  mod_stream a (fun s => set_active_ false (set_conn_ false s)) ;;
  c ← gets (fun c => c);
  when (is_peer_stream_id c (stream_id_ s) && negb (peer_active_stream_count_ (ids c) =? 0))
    (modify_ids (fun i => set_peer_active_stream_count_ (peer_active_stream_count_ i - 1) i)) ;;
  n ← gets (fun c => index_size (streams_ (mem c)));
  let stream_set_empty := n =? 0 in
  (if negb (connection_owned_ s) then
     when stream_set_empty wg_done
   else
     modify_mem (fun m => set_owned_streams (filter (fun x => x <> a) (owned_streams m))
                            (set_stream_store (delete a (stream_store m)) m)) ;;
     when stream_set_empty wg_done) ;;
  maybe_finish_graceful_shutdown.

Definition maybe_destroy_stream (a : nat) : M unit :=
  s ← get_stream a;
  if negb (bool_decide (state_ s = StreamState.Closed)) then mret tt
  else match pending_ s, active_pending_ s with
       | [], [] => erase_stream a
       | _, _ => mret tt
       end.

End Monad.

(** *** Construction *)

(** The defaults of [Options]; the time limits are not part of the model. *)
Definition default_options : Options :=
  mkOptions true 16384 64 64 100 128 0 0x7fffffff 65535 65535 0 (64 * 1024) true true.

Definition configured_max_active_streams (o : Options) : Z :=
  max_peer_concurrent_streams o + max_local_push_streams o.

(** The constructor on a transport that is up, with the table [streams] that
    [Http2StreamTable::init] made; [failures] are the allocations to come. *)
Definition construct {T} (streams : T) (o : Options) (failures : list bool) : Conn T :=
  mkConn
    (mkOptions (role_server o) (max_frame_size o) (max_free_send_entries o) (max_free_pending_entries o)
       (max_peer_concurrent_streams o) (local_max_concurrent_streams o) (max_local_push_streams o)
       (initial_connection_recv_window o) (initial_connection_send_window o) (initial_stream_send_window o)
       (keepalive_ping_interval o) (read_buffer_size o) (role_server o) (auto_start_connection_preface o))
    (mkPeer (max_peer_concurrent_streams o) (initial_connection_send_window o) (initial_stream_send_window o)
       kDefaultHeaderTableSize (max_frame_size o) 0xffffffff true)
    (mkIds 0 0 0 0)
    (mkLife Open false false true false false false 0 false 0 NoError false false false Canceled)
    (mkInbound false 0 0 false 0 (replicate 8 0) 0 (replicate 6 0) 0)
    (mkMem streams ∅ 0%nat ∅ 0%nat 0 [] [] 0 [] [] (SendQueue.empty_queue (max_free_send_entries o) []) failures).

(** A connection over the program's own table; [None] when the assertion on
    [init] fails. *)
Definition new_connection (o : Options) (failures : list bool) : option (Conn StreamTable.Http2StreamTable) :=
  match StreamTable.init StreamTable.empty_table (configured_max_active_streams o) true with
  | Some (true, t) => Some (construct t o failures)
  | _ => None
  end.

End Conn.

(** ** A connection to try things on

    A server that is running, with stream 1 at address 0 and the given pending
    entries. *)
Module Sample.
Import Conn.

Definition stream (st : StreamState.State) (window : Z) (pending : list nat) : Http2Stream :=
  mkStream 1 st true true window pending pending true.

Definition connection (s : Http2Stream) (entries : list (nat * Http2PendingEntry)) : Conn StreamTable.Http2StreamTable :=
  let c := default (construct StreamTable.empty_table default_options []) (new_connection default_options []) in
  let m := mem c in
  let m := set_next_stream 1 (set_stream_store {[0%nat := s]} (set_streams_ (StreamTable.insert (streams_ m) 1 0).2 m)) in
  let m := set_next_pending (length entries) (set_pending_store (list_to_map entries) (set_owned_streams [0%nat] m)) in
  set_ids (set_last_peer_stream_id_ 1 (set_peer_active_stream_count_ 1 (ids c)))
    (set_life (set_run_started_ true (set_local_connection_preface_sent_ true (life c)))
      (set_mem (set_lifetime_wg_ 1 m) c)).

Definition data_entry (payload : list Z) (fl : Z) : Http2PendingEntry :=
  Pending.init 0 1 PData (set_buf payload) 0 fl (Some 7).

End Sample.
