(* ===== verification/Http2Stream.v ===== *)
(** * Sending on an HTTP/2 stream
    (the methods of [src/http/Http2Stream.cpp], with [send_control_frame],
    [finish_send_entry] and [drain_send_queue] of [src/http/Http2Connection.cpp]
    they work with)

    A method takes the address of its stream.  [schedule_pending] cuts the head
    of the pending list into frames within the two flow-control windows and the
    peer's frame size. *)
From S2P Require Import Prelude IoError Http2Protocol Http2StreamState Http2Sending Http2SendQueue Http2State.
Import IoError SendPayload Pending SendEntry Protocol Conn.

Module Stream.

Section Methods.
Context {T : Type} `{StreamIndex T}.
Local Abbreviation M := (@M T).

(** ** The pending lists *)

Definition append_active_pending (a e : nat) : M unit :=
  mod_stream a (fun s => set_active_pending_ (e :: active_pending_ s) s).

Definition remove_active_pending (a e : nat) : M unit :=
  mod_stream a (fun s => set_active_pending_ (filter (fun x => x <> e) (active_pending_ s)) s).

Definition pop_pending_head (a : nat) : M unit :=
  mod_stream a (fun s => set_pending_ (tail (pending_ s)) s).

(** [notify_change]: the calls of [on_change] are recorded in order. *)
Definition notify (e : nat) (k : ChangeKind) (delta : Z) (result : IoErr) : M unit :=
  p ← get_pending e;
  modify_mem (fun m => set_changes (changes m ++ notify_change k delta result p) m).

Definition finish_pending (a e : nat) (result : IoErr) : M unit :=
  p ← get_pending e;
  s ← get_stream a;
  if pe_terminal_notified p || negb (conn_ s) then mret tt
  else
    mod_pending e (fun p => set_terminal true (set_result result p)) ;;
    notify e (if bool_decide (result = None_) then Completed
              else if bool_decide (result = Canceled) then Canceled_ else Failed) 0 result ;;
    remove_active_pending a e ;;
    pool_destroy e ;;
    maybe_destroy_stream a.

Definition maybe_finish_pending (a e : nat) : M unit :=
  p ← get_pending e;
  if pe_terminal_notified p || negb (pe_inflight_sends p =? 0) then mret tt
  else if negb (bool_decide (pe_result p = None_)) then finish_pending a e (pe_result p)
  else if empty (pe_payload p) && (pe_written_bytes p =? pe_total_bytes p) then finish_pending a e None_
  else mret tt.

(** ** Waiting for the connection window *)

Definition blocked_by_stream_window (a : nat) : M bool :=
  s ← get_stream a;
  match pending_ s with
  | [] => mret false
  | e :: _ => p ← get_pending e; mret (bool_decide (pe_kind p = PData) && (send_window_ s <=? 0))
  end.

Definition blocked_by_conn_window (a : nat) : M bool :=
  s ← get_stream a;
  w ← gets (fun c => conn_send_window_ (peer c));
  match pending_ s with
  | [] => mret false
  | e :: _ =>
      p ← get_pending e;
      mret (conn_ s && bool_decide (pe_kind p = PData) && (0 <? send_window_ s) && (w <=? 0))
  end.

Definition sync_conn_window_wait_membership (a : nat) : M unit :=
  s ← get_stream a;
  if negb (conn_ s) then mret tt
  else b ← blocked_by_conn_window a; if negb b then wait_erase a else wait_push_back a.

Definition remove_from_conn_window_wait_list (a : nat) : M unit :=
  s ← get_stream a;
  when (conn_ s) (wait_erase a).

(** ** [schedule_pending] *)

Definition finish_schedule (a : nat) (r : ScheduleResult) : M ScheduleResult :=
  sync_conn_window_wait_membership a ;; mret r.

(** The type and flags of a frame that takes [payload_bytes] of [remaining]. *)
Definition frame_kind (p : Http2PendingEntry) (remaining payload_bytes : Z) : FrameType * Z :=
  let first_fragment := remaining =? pe_total_bytes p in
  let last_fragment := payload_bytes =? remaining in
  match pe_kind p with
  | PHeader =>
      (if first_fragment then Headers else Continuation,
       Z.lor (if first_fragment then pe_first_frame_flags p else 0)
             (if last_fragment then pe_last_frame_flags p else 0))
  | PData => (Data, if last_fragment then pe_last_frame_flags p else 0)
  end.

(** How much of an entry fits in the next frame. *)
Definition fragment_size (p : Http2PendingEntry) (pr : Peer) (s : Http2Stream) : Z :=
  let payload_bytes := Z.min (remaining_bytes p) (peer_max_outbound_frame_size_ pr) in
  match pe_kind p with
  | PData => Z.min (Z.min payload_bytes (conn_send_window_ pr)) (send_window_ s)
  | PHeader => payload_bytes
  end.

(** The send entry for a fragment; [e] is told when it has been written. *)
Definition build_send_entry (e : nat) (ty : FrameType) (fl sid payload_bytes : Z) (chunk : Http2SendPayload)
  : Http2SendingEntry :=
  mkEntry chunk (9 + payload_bytes) 0 9 payload_bytes None_ false (Some e)
    (encode_http2_frame_header payload_bytes ty fl sid).

(** The fragment cut off the payload, or [None] when sending had to be stopped. *)
Definition take_fragment (e : nat) (payload_bytes : Z) : M (option Http2SendPayload) :=
  send ← acquire_send_entry;
  match send with
  | None => stop_sending NoMem ;; mret None
  | Some _ =>
      p ← get_pending e;
      alloc ← (if bool_decide (kind_ (pe_payload p) = KIoBufChain) then allocate else mret true);
      let '(ok, rest, chunk) := split_prefix_to alloc payload_bytes (pe_payload p) in
      if negb ok then release_send_entry ;; stop_sending NoMem ;; mret None
      else mod_pending e (set_payload rest) ;; mret (Some chunk)
  end.

(** Queue the frame of a fragment and account for it; [p] is the entry before
    the cut, [false] again when sending had to be stopped. *)
Definition queue_fragment (a e : nat) (p : Http2PendingEntry) (payload_bytes : Z) (chunk : Http2SendPayload)
  : M bool :=
  s ← get_stream a;
  let '(ty, fl) := frame_kind p (remaining_bytes p) payload_bytes in
  err ← enqueue_send_entry (build_send_entry e ty fl (stream_id_ s) payload_bytes chunk);
  if negb (bool_decide (err = None_)) then release_send_entry ;; stop_sending err ;; mret false
  else
    when (bool_decide (pe_kind p = PData))
      (modify_peer (fun pr => set_conn_send_window_ (conn_send_window_ pr - payload_bytes) pr) ;;
       mod_stream a (fun s => set_send_window_ (send_window_ s - payload_bytes) s)) ;;
    mod_pending e (fun p => set_inflight (pe_inflight_sends p + 1) p) ;;
    notify e Scheduled payload_bytes None_ ;;
    mret true.

Definition send_fragment (a e : nat) (payload_bytes : Z) : M bool :=
  p ← get_pending e;
  chunk ← take_fragment e payload_bytes;
  match chunk with
  | None => mret false
  | Some chunk => queue_fragment a e p payload_bytes chunk
  end.

Fixpoint schedule_loop (fuel : nat) (a e : nat) (scheduled_any : bool) : M ScheduleResult :=
  match fuel with
  | O => crash
  | S fuel' =>
      p ← get_pending e;
      s ← get_stream a;
      pr ← gets peer;
      let or_scheduled r := finish_schedule a (if scheduled_any then Scheduled_ else r) in
      if bool_decide (pe_kind p = PData) && (send_window_ s <=? 0) then or_scheduled BlockedByStreamWindow
      else if bool_decide (pe_kind p = PData) && (conn_send_window_ pr <=? 0) then
        or_scheduled BlockedByConnWindow
      else if remaining_bytes p =? 0 then
        pop_pending_head a ;; maybe_finish_pending a e ;; or_scheduled NoPending
      else
        let payload_bytes := fragment_size p pr s in
        if payload_bytes =? 0 then
          or_scheduled (match pe_kind p with PData => BlockedByConnWindow | PHeader => NoPending end)
        else
          sent ← send_fragment a e payload_bytes;
          if negb sent then finish_schedule a NoPending
          else
            p' ← get_pending e;
            if empty (pe_payload p') then
              pop_pending_head a ;;
              match pe_kind p' with
              | PHeader =>
                  s' ← get_stream a;
                  match pending_ s' with
                  | [] => finish_schedule a Scheduled_
                  | e' :: _ => schedule_loop fuel' a e' true
                  end
              | PData => finish_schedule a Scheduled_
              end
            else match pe_kind p' with
                 | PHeader => schedule_loop fuel' a e true
                 | PData => finish_schedule a Scheduled_
                 end
  end.

(** Each round sends at least one byte or removes an entry. *)
Definition schedule_fuel (c : Conn T) (s : Http2Stream) : nat :=
  S (sum_list_with (fun e => match pending_store (mem c) !! e with
                             | Some p => S (length (bytes_ (pe_payload p)))
                             | None => 1%nat
                             end) (pending_ s)).

Definition schedule_pending (a : nat) : M ScheduleResult :=
  s ← get_stream a;
  if negb (conn_ s) then mret NoPending
  else match pending_ s with
       | [] => sync_conn_window_wait_membership a ;; mret NoPending
       | e :: _ => fuel ← gets (fun c => schedule_fuel c s); schedule_loop fuel a e false
       end.

Definition try_schedule_pending (a : nat) : M unit :=
  s ← get_stream a;
  stop ← gets (fun c => stop_sending_requested_ (life c));
  if negb (conn_ s) || stop || bool_decide (state_ s = StreamState.Closed) then mret tt
  else schedule_pending a ;; mret tt.

(** ** Sending *)

Definition enqueue_pending (a : nat) (kind : PendingKind) (payload : Http2SendPayload)
    (first_flags last_flags : Z) (on_change : option Z) : M IoErr :=
  s ← get_stream a;
  if negb (conn_ s) || negb (active_ s) || bool_decide (state_ s = StreamState.Closed) then mret Invalid
  else
    entry ← pool_create (Pending.init a (stream_id_ s) kind payload first_flags last_flags on_change);
    match entry with
    | None => mret NoMem
    | Some e =>
        append_active_pending a e ;;
        mod_stream a (fun s => set_pending_ (pending_ s ++ [e]) s) ;;
        try_schedule_pending a ;;
        mret None_
    end.

Definition send_header (a : nat) (payload : Http2SendPayload) (end_stream : bool) : M IoErr :=
  s ← get_stream a;
  if negb (conn_ s) then mret Invalid
  else
    let '(err, st) := StreamState.transition_on_send_headers (state_ s) end_stream in
    mod_stream a (set_state_ st) ;;
    if negb (bool_decide (err = None_)) then mret err
    else enqueue_pending a PHeader payload 0
           (if end_stream then Z.lor kFlagEndHeaders kFlagEndStream else kFlagEndHeaders) None.

Definition send_data (a : nat) (payload : Http2SendPayload) (end_stream : bool) : M IoErr :=
  s ← get_stream a;
  if negb (conn_ s) then mret Invalid
  else
    let '(err, st) := StreamState.transition_on_send_data (state_ s) end_stream in
    mod_stream a (set_state_ st) ;;
    if negb (bool_decide (err = None_)) then mret err
    else enqueue_pending a PData payload 0 (if end_stream then kFlagEndStream else 0) None.

Definition update_send_window (a : nat) (delta : Z) : M unit :=
  mod_stream a (fun s => set_send_window_ (send_window_ s + delta) s) ;;
  try_schedule_pending a.

(** ** Receiving

    A call is entered in [received]; the source does nothing else with the bytes
    yet ([TODO: decode/process received header block fragments]). *)

Definition on_header_recv (a : nat) (payload : list Z) (block_offset length : Z) (end_headers end_stream : bool) : M IoErr :=
  modify_mem (fun m => set_received (received m ++ [mkReceived a true (take (Z.to_nat length) payload) block_offset]) m) ;;
  s ← get_stream a;
  let '(err, st) := StreamState.transition_on_recv_headers (state_ s) end_stream in
  mod_stream a (set_state_ st) ;; mret err.

Definition on_data_recv (a : nat) (payload : list Z) (data_offset length : Z) (end_stream : bool) : M IoErr :=
  modify_mem (fun m => set_received (received m ++ [mkReceived a false (take (Z.to_nat length) payload) data_offset]) m) ;;
  s ← get_stream a;
  let '(err, st) := StreamState.transition_on_recv_data (state_ s) end_stream in
  mod_stream a (set_state_ st) ;; mret err.

(** ** Closing *)

Definition drain_pending (a : nat) (result : IoErr) : M unit :=
  s ← get_stream a;
  for_each (active_pending_ s) (fun e =>
    p ← get_pending e;
    if pe_inflight_sends p =? 0 then finish_pending a e result
    else if bool_decide (pe_result p = None_) then mod_pending e (set_result result)
    else mret tt).

Definition close (a : nat) (result : IoErr) : M unit :=
  mod_stream a (fun s => set_active_ false (set_state_ StreamState.Closed s)) ;;
  remove_from_conn_window_wait_list a ;;
  mod_stream a (set_pending_ []) ;;
  drain_pending a result.

Definition on_remote_rst (a : nat) : M unit := close a Canceled.

(** ** Completion of a send *)

Definition handle_send_done (e : nat) (written_bytes frame_header_size logical_bytes : Z) (result : IoErr)
  : M unit :=
  p ← get_pending e;
  match pe_stream p with
  | None => mret tt
  | Some a =>
      let payload_written :=
        if frame_header_size <? written_bytes then Z.min logical_bytes (written_bytes - frame_header_size) else 0 in
      when (negb (payload_written =? 0))
        (mod_pending e (fun p => set_written (pe_written_bytes p + payload_written) p) ;;
         notify e Written payload_written None_) ;;
      when (negb (bool_decide (result = None_)) && bool_decide (pe_result p = None_))
        (mod_pending e (set_result result)) ;;
      fiber_assert (0 <? pe_inflight_sends p) ;;
      mod_pending e (fun p => set_inflight (pe_inflight_sends p - 1) p) ;;
      maybe_finish_pending a e ;;
      s ← get_stream a;
      if bool_decide (state_ s = StreamState.Closed) then mret tt else try_schedule_pending a
  end.

(** [notify_send_done], [finish_send_entry] and [drain_send_queue] of the
    connection. *)
Definition notify_send_done (entry : Http2SendingEntry) (result : IoErr) : M unit :=
  if done_notified entry then mret tt
  else match on_done entry with
       | None => mret tt
       | Some e => handle_send_done e (written_bytes entry) (frame_header_size entry) (logical_bytes entry) result
       end.

Definition finish_send_entry (entry : Http2SendingEntry) (result : IoErr) : M unit :=
  notify_send_done entry result ;; release_send_entry.

Fixpoint drain_send_queue_loop (fuel : nat) (result : IoErr) : M unit :=
  match fuel with
  | O => crash
  | S fuel' =>
      entry ← on_queue SendQueue.pop_ready;
      match entry with
      | None => mret tt
      | Some entry => finish_send_entry entry result ;; drain_send_queue_loop fuel' result
      end
  end.

Definition drain_send_queue (result : IoErr) : M unit :=
  n ← gets (fun c => length (SendQueue.ready_ (send_queue_ (mem c))));
  drain_send_queue_loop (S n) result.

(** ** Control frames *)

Definition send_control_frame (ty : FrameType) (fl stream_id : Z) (payload : list Z) : M IoErr :=
  ok ← allocate;
  if negb ok then mret NoMem
  else
    let data := encode_http2_frame_header (Z.of_nat (length payload)) ty fl stream_id ++ payload in
    send ← acquire_send_entry;
    match send with
    | None => mret NoMem
    | Some _ =>
        result ← enqueue_send_entry
          (mkEntry (set_buf data) (Z.of_nat (length data)) 0 0 0 None_ false None (replicate 9 0));
        when (negb (bool_decide (result = None_))) release_send_entry ;;
        mret result
    end.

Definition send_settings_ack : M IoErr := send_control_frame Settings kFlagSettingsAck 0 [].

Definition send_ping_ack (opaque_data : list Z) : M IoErr := send_control_frame Ping kFlagAck 0 (take 8 opaque_data).

Definition send_window_update (stream_id increment : Z) : M IoErr :=
  if (increment =? 0) || (kMaxFlowControlWindow <? increment) then mret Invalid
  else send_control_frame WindowUpdate 0 stream_id (window_update_payload increment).

Definition send_rst_stream (stream_id error_code : Z) : M IoErr :=
  send_control_frame RstStream 0 stream_id (rst_stream_payload error_code).

Definition send_goaway (last_stream_id error_code : Z) : M IoErr :=
  send_control_frame Goaway 0 0 (goaway_payload last_stream_id error_code).

Definition close_rst (a : nat) (code : Z) (result : IoErr) : M IoErr :=
  s ← get_stream a;
  if negb (conn_ s) then mret Invalid
  else
    err ← send_rst_stream (stream_id_ s) code;
    if negb (bool_decide (err = None_)) then mret err
    else close a result ;; maybe_destroy_stream a ;; mret None_.

Definition handle_stream_error (stream_id error_code : Z) (pending_result : IoErr) : M unit :=
  send_rst_stream stream_id error_code ;;
  c ← gets (fun c => c);
  match find_stream c stream_id with
  | None => mret tt
  | Some a => close a pending_result ;; maybe_destroy_stream a
  end.

End Methods.

(** ** Calm steps

    A step that queues no frame and moves no flow-control window; streams may
    change otherwise or disappear. *)
Section Effects.
Context {T : Type} `{StreamIndex T}.
Local Abbreviation M := (@M T).

Definition ready_of (c : Conn T) : list Http2SendingEntry := SendQueue.ready_ (send_queue_ (mem c)).
Definition window_of (c : Conn T) : Z := conn_send_window_ (peer c).

Definition limits_of (c : Conn T) : Z * Z :=
  (peer_max_outbound_frame_size_ (peer c), peer_initial_stream_send_window_ (peer c)).

(** What a step does to windows and queue: [frames] are queued for stream [a],
    whose window and that of the connection shrink by [n]. *)
Record effect (a : nat) (frames : list Http2SendingEntry) (n : Z) (c c' : Conn T) : Prop := mkEffect {
  eff_queue : ready_of c' = ready_of c ++ frames;
  eff_window : window_of c' = window_of c - n;
  eff_limits : limits_of c' = limits_of c;
  eff_reason : stop_sending_reason_ (life c) <> None_ -> stop_sending_reason_ (life c') <> None_;
  eff_streams : forall b s', stream_store (mem c') !! b = Some s' ->
    exists s, stream_store (mem c) !! b = Some s /\
      send_window_ s' = send_window_ s - (if decide (b = a) then n else 0) /\ stream_id_ s' = stream_id_ s }.

Lemma eff_frame_size a frames n c c' :
  effect a frames n c c' -> peer_max_outbound_frame_size_ (peer c') = peer_max_outbound_frame_size_ (peer c).
Proof. intros [_ _ Hl _ _]. by injection Hl. Qed.

Lemma effect_refl a c : effect a [] 0 c c.
Proof.
  split; [by rewrite app_nil_r|lia|done|done|]. intros b s' Hb. exists s'. split; [done|]. case_decide; split; (lia || done).
Qed.

Lemma effect_trans a f1 n1 f2 n2 c c1 c2 :
  effect a f1 n1 c c1 -> effect a f2 n2 c1 c2 -> effect a (f1 ++ f2) (n1 + n2) c c2.
Proof.
  intros [A1 B1 C1 R1 D1] [A2 B2 C2 R2 D2]. split.
  - by rewrite A2, A1, app_assoc.
  - lia.
  - congruence.
  - auto.
  - intros b s2 Hb. destruct (D2 b s2 Hb) as (s1 & Hb1 & E1 & F1). destruct (D1 b s1 Hb1) as (s & Hb0 & E0 & F0).
    exists s. split; [done|]. case_decide; split; (lia || congruence).
Qed.

Definition calm {A} (a : nat) (m : M A) : Prop := forall c x c', m c = Some (x, c') -> effect a [] 0 c c'.

Lemma calm_bind {A B} a (m : M A) (k : A -> M B) :
  calm a m -> (forall x, calm a (k x)) -> calm a (m ≫= k).
Proof.
  intros Hm Hk c y c' Hrun. unfold mbind, M_bind in Hrun. destruct (m c) as [[x c1]|] eqn:E; [|done].
  apply (effect_trans a [] 0 [] 0 c c1 c'); [by apply (Hm c x)|by apply (Hk x c1 y)].
Qed.

Lemma calm_ret {A} a (x : A) : calm a (mret x : M A).
Proof. intros c y c' [= <- <-]. apply effect_refl. Qed.

Lemma calm_gets {A} a (f : Conn T -> A) : calm a (gets f).
Proof. intros c y c' [= <- <-]. apply effect_refl. Qed.

Lemma calm_crash {A} a : calm a (crash : M A).
Proof. by intros c y c'. Qed.

Lemma calm_modify a f : (forall c, effect a [] 0 c (f c)) -> calm a (modify f).
Proof. intros Hf c y c' [= <- <-]. apply Hf. Qed.

Lemma calm_get_stream a b : calm a (get_stream b).
Proof. intros c y c'. unfold get_stream. destruct (_ !! b); [|done]. intros [= <- <-]. apply effect_refl. Qed.

Lemma calm_get_pending a e : calm a (get_pending e).
Proof. intros c y c'. unfold get_pending. destruct (_ !! e); [|done]. intros [= <- <-]. apply effect_refl. Qed.

Lemma calm_modify_mem a f :
  (forall m : Mem T, SendQueue.ready_ (send_queue_ (f m)) = SendQueue.ready_ (send_queue_ m) /\
     stream_store (f m) = stream_store m) -> calm a (modify_mem f).
Proof.
  intros Hf. apply calm_modify. intros c. destruct (Hf (mem c)) as [H1 H2]. split; cbn.
  - by rewrite app_nil_r.
  - unfold window_of. cbn. lia.
  - done.
  - done.
  - intros b s' Hb. rewrite H2 in Hb. exists s'. split; [done|]. case_decide; split; (lia || done).
Qed.

Lemma calm_mod_stream a b f :
  (forall s, send_window_ (f s) = send_window_ s /\ stream_id_ (f s) = stream_id_ s) -> calm a (mod_stream b f).
Proof.
  intros Hf c y c'. unfold mod_stream, get_stream, modify_mem, modify, mbind, M_bind. cbn.
  destruct (stream_store (mem c) !! b) as [s|] eqn:E; [|done]. intros [= <- <-]. split; cbn.
  - unfold ready_of. cbn. by rewrite app_nil_r.
  - unfold window_of. cbn. lia.
  - done.
  - done.
  - intros b' s' Hb. destruct (Hf s) as [F1 F2]. destruct (decide (b = b')) as [<-|Hne].
    + rewrite lookup_insert_eq in Hb. injection Hb as <-. exists s. split; [done|]. case_decide; split; (lia || done).
    + rewrite lookup_insert_ne in Hb by done. exists s'. split; [done|]. case_decide; split; (lia || done).
Qed.

Lemma calm_other a (f : Conn T -> Conn T) :
  (forall c, peer (f c) = peer c /\ mem (f c) = mem c /\
     (stop_sending_reason_ (life c) <> None_ -> stop_sending_reason_ (life (f c)) <> None_)) -> calm a (modify f).
Proof.
  intros Hf. apply calm_modify. intros c. destruct (Hf c) as (H1 & H2 & H3). split.
  - unfold ready_of. rewrite H2. by rewrite app_nil_r.
  - unfold window_of. rewrite H1. lia.
  - unfold limits_of. by rewrite H1.
  - done.
  - rewrite H2. intros b s' Hb. exists s'. split; [done|]. case_decide; split; (lia || done).
Qed.

Lemma calm_mod_pending a e f : calm a (mod_pending e f).
Proof.
  unfold mod_pending. apply calm_bind; [apply calm_get_pending|]. intros p. by apply calm_modify_mem.
Qed.

Lemma calm_on_queue {A} a (f : SendQueue.Queue -> A * SendQueue.Queue) :
  (forall q, SendQueue.ready_ (f q).2 = SendQueue.ready_ q) -> calm a (on_queue f).
Proof.
  intros Hf c y c'. unfold on_queue. specialize (Hf (send_queue_ (mem c))). destruct (f _) as [r q].
  intros [= <- <-]. cbn in Hf. split; cbn.
  - unfold ready_of. cbn. by rewrite app_nil_r.
  - unfold window_of. cbn. lia.
  - done.
  - done.
  - intros b s' Hb. exists s'. split; [done|]. case_decide; split; (lia || done).
Qed.

Lemma close_ready q : SendQueue.ready_ (SendQueue.close q) = SendQueue.ready_ q.
Proof.
  unfold SendQueue.close. destruct (SendQueue.closed_ q); [done|].
  rewrite (proj1 (SendQueue.notify_waiter_ready _)). by destruct q.
Qed.

Lemma release_ready q : SendQueue.ready_ (SendQueue.release q) = SendQueue.ready_ q.
Proof. unfold SendQueue.release. case_match; by destruct q. Qed.

Lemma acquire_ready q : SendQueue.ready_ (SendQueue.acquire q).2 = SendQueue.ready_ q.
Proof. unfold SendQueue.acquire. repeat case_match; by destruct q. Qed.

Lemma calm_allocate a : calm a allocate.
Proof.
  intros c y c'. unfold allocate. destruct (oom_ (mem c)) as [|f rest]; intros [= <- <-]; [apply effect_refl|].
  by apply (calm_modify_mem a (set_oom_ rest)) with (x := tt).
Qed.

Lemma calm_for_each {A} a (l : list A) f : (forall x, calm a (f x)) -> calm a (for_each l f).
Proof.
  intros Hf. induction l as [|x l IH]; cbn [for_each]; [apply calm_ret|]. apply calm_bind; auto.
Qed.

Lemma calm_when a b (m : M unit) : calm a m -> calm a (when b m).
Proof. intros Hm. destruct b; [done|apply calm_ret]. Qed.

Lemma calm_assert a b : calm a (fiber_assert b : M unit).
Proof. destruct b; [apply calm_ret|apply calm_crash]. Qed.

Lemma calm_modify_life a f :
  (forall l, stop_sending_reason_ l <> None_ -> stop_sending_reason_ (f l) <> None_) -> calm a (modify_life f).
Proof. intros Hf. apply calm_other. intros c. split; [done|]. split; [done|]. apply Hf. Qed.

Lemma calm_modify_ids a f : calm a (modify_ids f).
Proof. by apply calm_other. Qed.

(** Walk through a method with the lemmas above. *)
Ltac calm_step :=
  first
    [ apply calm_ret | apply calm_gets | apply calm_crash | apply calm_get_stream | apply calm_get_pending
    | apply calm_mod_pending | apply calm_modify_life; intros ?; cbn; done | apply calm_modify_ids | apply calm_allocate
    | apply calm_assert | apply calm_when
    | apply calm_mod_stream; intros ?; split; done
    | match goal with |- calm _ (_ ≫= _) => apply calm_bind; [|intros ?] end
    | apply calm_modify_mem; intros ?; split; done
    | apply calm_on_queue; intros ?; first [done | apply close_ready | apply release_ready | apply acquire_ready]
    | case_match ].
Ltac calm := repeat calm_step.

Lemma calm_abort a reason : reason <> None_ -> calm a (abort_connection reason).
Proof. intros Hr. unfold abort_connection. calm. Qed.

Lemma calm_release a : calm a release_send_entry.
Proof. unfold release_send_entry. calm. Qed.

Lemma calm_acquire a : calm a acquire_send_entry.
Proof. unfold acquire_send_entry. calm. Qed.

Lemma calm_maybe_finish_shutdown a : calm a maybe_finish_graceful_shutdown.
Proof. unfold maybe_finish_graceful_shutdown. calm. Qed.

Lemma calm_wg_done a : calm a wg_done.
Proof. unfold wg_done. calm. Qed.

(** Deleting a stream is calm: what is left is unchanged. *)
Lemma calm_delete_stream a b (l : Mem T -> list nat) :
  calm a (modify_mem (fun m => set_owned_streams (l m) (set_stream_store (delete b (stream_store m)) m))).
Proof.
  apply calm_modify. intros c. split; cbn.
  - unfold ready_of. cbn. by rewrite app_nil_r.
  - unfold window_of. cbn. lia.
  - done.
  - done.
  - intros b' s' Hb. apply lookup_delete_Some in Hb as [_ Hb]. exists s'. split; [done|].
    case_decide; split; (lia || done).
Qed.

Lemma calm_erase_stream a b : calm a (erase_stream b).
Proof.
  unfold erase_stream, wait_erase. calm; try apply calm_wg_done; try apply calm_maybe_finish_shutdown.
  apply calm_delete_stream.
Qed.

Lemma calm_maybe_destroy a b : calm a (maybe_destroy_stream b).
Proof. unfold maybe_destroy_stream. calm; apply calm_erase_stream. Qed.

Lemma calm_finish_pending a b e r : calm a (finish_pending b e r).
Proof.
  unfold finish_pending, notify, remove_active_pending, pool_destroy. calm. apply calm_maybe_destroy.
Qed.

Lemma calm_maybe_finish_pending a b e : calm a (maybe_finish_pending b e).
Proof. unfold maybe_finish_pending. calm; apply calm_finish_pending. Qed.

Lemma calm_sync a b : calm a (sync_conn_window_wait_membership b).
Proof.
  unfold sync_conn_window_wait_membership, blocked_by_conn_window, wait_erase, wait_push_back. calm.
Qed.

Lemma calm_finish_schedule a b r : calm a (finish_schedule b r).
Proof. unfold finish_schedule. calm. apply calm_sync. Qed.

Lemma calm_pop a b : calm a (pop_pending_head b).
Proof. unfold pop_pending_head. calm. Qed.

Lemma calm_notify a e k d r : calm a (notify e k d r).
Proof. unfold notify. calm. Qed.

(** Queueing a send entry. *)
Lemma enqueue_send_entry_effect a entry c err c' :
  stop_sending_reason_ (life c) <> None_ ->
  enqueue_send_entry entry c = Some (err, c') ->
  (err = None_ /\ effect a [entry] 0 c c' /\ pending_store (mem c') = pending_store (mem c) /\
     stream_store (mem c') = stream_store (mem c) /\ oom_ (mem c') = oom_ (mem c)) \/
  (err <> None_ /\ effect a [] 0 c c').
Proof.
  intros Hreason. unfold enqueue_send_entry, gets, on_queue, mbind, M_bind, mret, M_ret. cbn.
  destruct (negb (run_started_ (life c)) || negb (transport_valid (life c))).
  { intros [= <- <-]. right. split; [done|apply effect_refl]. }
  destruct (stop_sending_requested_ (life c)).
  { intros [= <- <-]. right. split; [done|apply effect_refl]. }
  unfold SendQueue.enqueue. destruct (SendQueue.closed_ (send_queue_ (mem c))) eqn:Ec; cbn.
  - assert (effect a [] 0 c (set_mem (set_send_queue_ (send_queue_ (mem c)) (mem c)) c)) as Hcalm.
    { split; cbn; unfold ready_of, window_of; cbn; rewrite ?app_nil_r; try done; [lia|].
      intros b s' Hb. exists s'. split; [done|]. case_decide; split; (lia || done). }
    rewrite bool_decide_true by done. intros [= <- <-]. right. split; [|done]. by case_match.
  - rewrite bool_decide_false by done. intros [= <- <-]. left. split; [done|]. split; [|done].
    split; cbn; unfold ready_of, window_of; cbn; try done; try lia.
    + rewrite (proj1 (SendQueue.notify_waiter_ready _)). by destruct (send_queue_ (mem c)).
    + intros b s' Hb. exists s'. split; [done|]. case_decide; split; (lia || done).
Qed.

Lemma bind_Some_inv {A B} (m : M A) (k : A -> M B) c y c' :
  (m ≫= k) c = Some (y, c') -> exists x c1, m c = Some (x, c1) /\ k x c1 = Some (y, c').
Proof. unfold mbind, M_bind. destruct (m c) as [[x c1]|]; [|done]. eauto. Qed.

(** The objects, the windows and the flags stay as they are. *)
Definition same_objects (c c' : Conn T) : Prop :=
  pending_store (mem c') = pending_store (mem c) /\ stream_store (mem c') = stream_store (mem c) /\
  peer c' = peer c /\ life c' = life c.

Lemma allocate_objects c r c' : allocate c = Some (r, c') -> same_objects c c'.
Proof. unfold allocate. destruct (oom_ (mem c)); intros [= <- <-]; done. Qed.

Lemma acquire_objects c r c' : acquire_send_entry c = Some (r, c') -> same_objects c c'.
Proof.
  unfold acquire_send_entry. intros Hrun. apply bind_Some_inv in Hrun as (n & c1 & Hg & Hrun).
  injection Hg as <- <-. destruct (0 <? _).
  - unfold on_queue in Hrun. destruct (SendQueue.acquire _). injection Hrun as <- <-. done.
  - apply bind_Some_inv in Hrun as (ok & c1 & Hok & Hrun). apply allocate_objects in Hok.
    destruct (negb ok); injection Hrun as <- <-; done.
Qed.

Lemma abort_streams reason (c c' : Conn T) u :
  abort_connection reason c = Some (u, c') -> stream_store (mem c') = stream_store (mem c).
Proof.
  unfold abort_connection, gets, modify_life, on_queue, modify, mbind, M_bind, mret, M_ret. cbn.
  destruct (stop_sending_requested_ (life c)); intros [= _ <-]; done.
Qed.

(** A frame of a pending entry. *)
Definition fragment_frame (e : nat) (p : Http2PendingEntry) (sid n : Z) (chunk : Http2SendPayload) : Http2SendingEntry :=
  build_send_entry e (frame_kind p (remaining_bytes p) n).1 (frame_kind p (remaining_bytes p) n).2 sid n chunk.

Lemma take_fragment_effect a e n c r c' p :
  0 < n -> pending_store (mem c) !! e = Some p ->
  take_fragment e n c = Some (r, c') ->
  effect a [] 0 c c' /\ stream_store (mem c') = stream_store (mem c) /\
  match r with
  | None => True
  | Some chunk =>
      life c' = life c /\
      exists rest,
        bytes_ chunk = take (Z.to_nat n) (bytes_ (pe_payload p)) /\ readable_bytes chunk = n /\
        bytes_ rest = drop (Z.to_nat n) (bytes_ (pe_payload p)) /\ kind_ rest = kind_ (pe_payload p) /\
        readable_bytes rest = remaining_bytes p - n /\
        pending_store (mem c') = <[e := set_payload rest p]> (pending_store (mem c))
  end.
Proof.
  intros Hn Hp Hrun. unfold take_fragment in Hrun.
  apply bind_Some_inv in Hrun as (send & c1 & Hacq & Hrun).
  pose proof (calm_acquire a c send c1 Hacq) as E1. pose proof (acquire_objects c send c1 Hacq) as (P1 & S1 & W1 & L1).
  assert (forall r, calm a (stop_sending NoMem ;; mret r : M (option Http2SendPayload))) as Hstop.
  { intros r0. apply calm_bind; [by apply calm_abort|intros; apply calm_ret]. }
  assert (forall u (c2 c3 : Conn T) reason, stop_sending reason c2 = Some (u, c3) ->
            stream_store (mem c3) = stream_store (mem c2)) as Hstop_streams.
  { intros u c2 c3 reason Hs. by apply abort_streams in Hs. }
  destruct send as [send|].
  2:{ pose proof (Hstop None c1 r c' Hrun) as E2.
      split; [by apply (effect_trans a [] 0 [] 0 c c1 c' E1 E2)|].
      apply bind_Some_inv in Hrun as (u & c2 & Hs & Hrun). injection Hrun as <- <-.
      split; [|done]. rewrite <-S1. by eapply Hstop_streams. }
  apply bind_Some_inv in Hrun as (p1 & c1' & Hg & Hrun). unfold get_pending in Hg. rewrite P1, Hp in Hg.
  injection Hg as <- <-.
  apply bind_Some_inv in Hrun as (alloc & c2 & Halloc & Hrun).
  assert (effect a [] 0 c1 c2 /\ same_objects c1 c2) as (E2 & P2 & S2 & W2 & L2).
  { destruct (bool_decide _).
    - split; [by apply (calm_allocate a c1 alloc)|by eapply allocate_objects].
    - injection Halloc as <- <-. split; [apply effect_refl|done]. }
  pose proof (effect_trans a [] 0 [] 0 c c1 c2 E1 E2) as E12. cbn in E12.
  destruct (split_prefix_to alloc n (pe_payload p)) as [[okk rest] chunk] eqn:Hsplit.
  destruct okk; cbn [negb] in Hrun.
  - destruct (split_prefix_ok alloc n (pe_payload p) rest chunk Hn Hsplit) as (B1 & B2 & B3 & B4 & B5 & B6 & B7 & _).
    apply bind_Some_inv in Hrun as (u & c3 & Hmod & Hrun). injection Hrun as <- <-.
    pose proof (calm_mod_pending a e (set_payload rest) c2 u c3 Hmod) as E3.
    unfold mod_pending in Hmod. apply bind_Some_inv in Hmod as (p2 & c2' & Hg & Hmod).
    unfold get_pending in Hg. rewrite P2, P1, Hp in Hg. injection Hg as <- <-. injection Hmod as <- <-.
    split; [by apply (effect_trans a [] 0 [] 0 c c2 _ E12 E3)|]. cbn.
    split; [congruence|]. split; [congruence|]. exists rest. rewrite P2, P1. done.
  - apply bind_Some_inv in Hrun as (u & c3 & Hrel & Hrun).
    pose proof (calm_release a c2 u c3 Hrel) as E3. pose proof (Hstop None c3 r c' Hrun) as E4.
    split; [by apply (effect_trans a [] 0 [] 0 c c3 c'); [apply (effect_trans a [] 0 [] 0 c c2 c3 E12 E3)|]|].
    apply bind_Some_inv in Hrun as (u' & c4 & Hs & Hrun). injection Hrun as <- <-.
    split; [|done]. rewrite (Hstop_streams u' c3 c4 NoMem Hs).
    unfold release_send_entry, on_queue in Hrel. injection Hrel as <- <-. cbn. congruence.
Qed.

(** The accounting of a queued frame. *)
Lemma account_effect a e (p : Http2PendingEntry) n q c x c' :
  pending_store (mem c) !! e = Some q ->
  (when (bool_decide (pe_kind p = PData))
     (modify_peer (fun pr => set_conn_send_window_ (conn_send_window_ pr - n) pr) ;;
      mod_stream a (fun s => set_send_window_ (send_window_ s - n) s)) ;;
   mod_pending e (fun p => set_inflight (pe_inflight_sends p + 1) p) ;;
   notify e Scheduled n None_ ;;
   mret true : M bool) c = Some (x, c') ->
  x = true /\ effect a [] (match pe_kind p with PData => n | PHeader => 0 end) c c' /\
  pending_store (mem c') = <[e := set_inflight (pe_inflight_sends q + 1) q]> (pending_store (mem c)).
Proof.
  intros Hq Hrun.
  apply bind_Some_inv in Hrun as (u' & c5 & Hwin & Hrun).
  apply bind_Some_inv in Hrun as (u'' & c6 & Hinf & Hrun).
  apply bind_Some_inv in Hrun as (u3 & c7 & Hnote & Hrun). injection Hrun as <- <-. split; [done|].
  set (d := match pe_kind p with PData => n | PHeader => 0 end).
  assert (effect a [] d c c5 /\ pending_store (mem c5) = pending_store (mem c)) as [E5 P5].
  { subst d. unfold when in Hwin. destruct (pe_kind p).
    - rewrite bool_decide_false in Hwin by done. injection Hwin as <- <-. split; [apply effect_refl|done].
    - rewrite bool_decide_true in Hwin by done.
      unfold modify_peer, modify, mod_stream, get_stream, modify_mem, modify, mbind, M_bind in Hwin. cbn in Hwin.
      destruct (stream_store (mem c) !! a) as [s4|] eqn:Es4; [|done]. injection Hwin as <- <-. split; [|done].
      split; cbn; unfold ready_of, window_of; cbn; rewrite ?app_nil_r; try done.
      intros b s' Hb. destruct (decide (b = a)) as [->|Hne].
      + rewrite lookup_insert_eq in Hb. injection Hb as <-. exists s4. done.
      + rewrite lookup_insert_ne in Hb by done. exists s'. split; [done|]. split; [lia|done]. }
  pose proof (calm_mod_pending a e _ c5 u'' c6 Hinf) as E6.
  unfold mod_pending in Hinf. apply bind_Some_inv in Hinf as (p5 & c5' & Hg & Hinf).
  unfold get_pending in Hg. rewrite P5, Hq in Hg. injection Hg as <- <-. injection Hinf as <- <-.
  set (c6 := set_mem _ c5) in *.
  pose proof (calm_notify a e Scheduled n None_ c6 u3 c7 Hnote) as E7.
  unfold notify in Hnote. apply bind_Some_inv in Hnote as (p6 & c6' & Hg & Hnote).
  unfold get_pending in Hg. subst c6. cbn in Hg. rewrite lookup_insert_eq in Hg. injection Hg as <- <-.
  injection Hnote as <- <-. cbn. split; [|by rewrite P5].
  pose proof (effect_trans a _ _ _ _ c _ _ E5 E6) as F6.
  pose proof (effect_trans a _ _ _ _ c _ _ F6 E7) as F7.
  cbn [app] in F7. replace (d + 0 + 0) with d in F7 by lia. exact F7.
Qed.

Lemma queue_fragment_effect a e p n chunk q c ok c' s :
  stop_sending_reason_ (life c) <> None_ ->
  stream_store (mem c) !! a = Some s -> pending_store (mem c) !! e = Some q ->
  queue_fragment a e p n chunk c = Some (ok, c') ->
  if ok then
    effect a [fragment_frame e p (stream_id_ s) n chunk]
      (match pe_kind p with PData => n | PHeader => 0 end) c c' /\
    pending_store (mem c') = <[e := set_inflight (pe_inflight_sends q + 1) q]> (pending_store (mem c))
  else effect a [] 0 c c'.
Proof.
  intros Hreason Hs Hq Hrun. unfold queue_fragment in Hrun.
  apply bind_Some_inv in Hrun as (s1 & c1 & Hg & Hrun). unfold get_stream in Hg. rewrite Hs in Hg.
  injection Hg as <- <-. unfold fragment_frame.
  destruct (frame_kind p (remaining_bytes p) n) as [ty fl]. cbn [fst snd].
  apply bind_Some_inv in Hrun as (err & c4 & Henq & Hrun).
  destruct (enqueue_send_entry_effect a _ c err c4 Hreason Henq) as [(-> & E4 & P4 & S4 & _)|(Herr & E4)].
  - rewrite bool_decide_true in Hrun by done. cbn [negb] in Hrun. rewrite <-P4 in Hq.
    destruct (account_effect a e p n q c4 ok c' Hq Hrun) as (-> & E5 & P5).
    split; [|by rewrite P5, P4].
    pose proof (effect_trans a _ _ _ _ c c4 c' E4 E5) as E. cbn [app] in E. exact E.
  - rewrite bool_decide_false in Hrun by done. cbn [negb] in Hrun.
    apply bind_Some_inv in Hrun as (u' & c5 & Hrel & Hrun). apply bind_Some_inv in Hrun as (u'' & c6 & Hstop & Hrun).
    injection Hrun as <- <-.
    apply (effect_trans a [] 0 [] 0 c c5 c6); [apply (effect_trans a [] 0 [] 0 c c4 c5 E4)|].
    + by apply (calm_release a c4 u').
    + by apply (calm_abort a err Herr c5 u'').
Qed.

Lemma send_fragment_effect a e n c ok c' p s :
  stop_sending_reason_ (life c) <> None_ -> 0 < n ->
  pending_store (mem c) !! e = Some p -> stream_store (mem c) !! a = Some s ->
  send_fragment a e n c = Some (ok, c') ->
  if ok then
    exists rest chunk,
      bytes_ chunk = take (Z.to_nat n) (bytes_ (pe_payload p)) /\ readable_bytes chunk = n /\
      bytes_ rest = drop (Z.to_nat n) (bytes_ (pe_payload p)) /\ kind_ rest = kind_ (pe_payload p) /\
      readable_bytes rest = remaining_bytes p - n /\
      effect a [fragment_frame e p (stream_id_ s) n chunk]
        (match pe_kind p with PData => n | PHeader => 0 end) c c' /\
      pending_store (mem c') = <[e := set_inflight (pe_inflight_sends p + 1) (set_payload rest p)]> (pending_store (mem c))
  else effect a [] 0 c c'.
Proof.
  intros Hreason Hn Hp Hs Hrun. unfold send_fragment in Hrun.
  apply bind_Some_inv in Hrun as (p1 & c1' & Hg & Hrun). unfold get_pending in Hg. rewrite Hp in Hg.
  injection Hg as <- <-.
  apply bind_Some_inv in Hrun as (r & c1 & Htake & Hrun).
  destruct (take_fragment_effect a e n c r c1 p Hn Hp Htake) as (E1 & S1 & Hr).
  destruct r as [chunk|]; [|by injection Hrun as <- <-].
  destruct Hr as (L1 & rest & B1 & B2 & B3 & B4 & B5 & P1).
  assert (stop_sending_reason_ (life c1) <> None_) as Hreason1 by (by rewrite L1).
  assert (pending_store (mem c1) !! e = Some (set_payload rest p)) as Hp1 by (rewrite P1; apply lookup_insert_eq).
  rewrite <-S1 in Hs.
  pose proof (queue_fragment_effect a e p n chunk _ c1 ok c' s Hreason1 Hs Hp1 Hrun) as Hq.
  destruct ok.
  - destruct Hq as [E2 P2]. exists rest, chunk. split; [done|]. split; [done|]. split; [done|]. split; [done|].
    split; [done|]. split.
    + pose proof (effect_trans a _ _ _ _ c c1 c' E1 E2) as E. cbn [app] in E. exact E.
    + rewrite P2, P1. destruct p; cbn. apply insert_insert_eq.
  - by apply (effect_trans a [] 0 [] 0 c c1 c' E1 Hq).
Qed.

(** ** Flow control *)

Definition is_data_frame (f : Http2SendingEntry) : bool := (frame_header_ f) !z 3 =? frame_type_code Data.

Fixpoint data_bytes (frames : list Http2SendingEntry) : Z :=
  match frames with
  | [] => 0
  | f :: frames => (if is_data_frame f then logical_bytes f else 0) + data_bytes frames
  end.

(** A well-formed frame of stream [sid], at most [m] bytes of payload. *)
Definition frame_fits (m sid : Z) (f : Http2SendingEntry) : Prop :=
  0 < logical_bytes f <= m /\ readable_bytes (payload f) = logical_bytes f /\
  total_bytes f = 9 + logical_bytes f /\ frame_header_size f = 9 /\ written_bytes f = 0 /\
  exists ty fl, frame_header_ f = encode_http2_frame_header (logical_bytes f) ty fl sid.

Lemma data_bytes_app f1 f2 : data_bytes (f1 ++ f2) = data_bytes f1 + data_bytes f2.
Proof. induction f1 as [|f f1 IH]; cbn; lia. Qed.

Lemma build_is_data e ty fl sid n chunk :
  is_data_frame (build_send_entry e ty fl sid n chunk) = (frame_type_code ty =? frame_type_code Data).
Proof. done. Qed.

Lemma fragment_frame_data e p sid n chunk :
  data_bytes [fragment_frame e p sid n chunk] = match pe_kind p with PData => n | PHeader => 0 end.
Proof.
  cbn [data_bytes]. unfold fragment_frame. rewrite build_is_data. unfold frame_kind.
  destruct (pe_kind p); [destruct (remaining_bytes p =? pe_total_bytes p)|]; cbn [fst snd frame_type_code Z.eqb Pos.eqb];
    cbn; lia.
Qed.

Lemma fragment_frame_fits e p sid n chunk m :
  0 < n <= m -> readable_bytes chunk = n -> frame_fits m sid (fragment_frame e p sid n chunk).
Proof.
  intros Hn Hc. unfold frame_fits, fragment_frame, build_send_entry. cbn. split_and!; try (done || lia). eauto.
Qed.

(** What the loop may do from a state [c] on, with [s] the stream. *)
Definition schedule_post (a : nat) (s : Http2Stream) (c c' : Conn T) : Prop :=
  exists frames d, effect a frames d c c' /\ d = data_bytes frames /\
    0 <= d <= Z.max 0 (Z.min (window_of c) (send_window_ s)) /\
    Forall (frame_fits (peer_max_outbound_frame_size_ (peer c)) (stream_id_ s)) frames.

Lemma schedule_post_calm a s c c' : effect a [] 0 c c' -> schedule_post a s c c'.
Proof. intros E. exists [], 0. split; [done|]. split; [done|]. split; [lia|constructor]. Qed.

Lemma fragment_size_bounds p pr s :
  fragment_size p pr s <> 0 -> 0 < peer_max_outbound_frame_size_ pr -> 0 <= remaining_bytes p ->
  (pe_kind p = PData -> 0 < send_window_ s /\ 0 < conn_send_window_ pr) ->
  0 < fragment_size p pr s <= peer_max_outbound_frame_size_ pr /\ fragment_size p pr s <= remaining_bytes p /\
  (pe_kind p = PData -> fragment_size p pr s <= Z.min (conn_send_window_ pr) (send_window_ s)).
Proof.
  unfold fragment_size. destruct (pe_kind p); cbv zeta; intros Hnz Hmax Hrem Hwin.
  - split_and!; [lia|lia|lia|done].
  - destruct (Hwin eq_refl). split_and!; lia.
Qed.

Lemma remaining_nonneg p : 0 <= remaining_bytes p.
Proof. unfold remaining_bytes, readable_bytes. destruct (kind_ _); lia. Qed.

(** One round sends at most one frame; after header frames the loop goes on
    with the windows untouched. *)
Lemma schedule_loop_effect fuel a e b c r c' s :
  stop_sending_reason_ (life c) <> None_ -> 0 < peer_max_outbound_frame_size_ (peer c) ->
  stream_store (mem c) !! a = Some s ->
  schedule_loop fuel a e b c = Some (r, c') -> schedule_post a s c c'.
Proof.
  revert e b c s. induction fuel as [|fuel IH]; intros e b c s Hreason Hmax Hs Hrun; [done|].
  cbn [schedule_loop] in Hrun.
  apply bind_Some_inv in Hrun as (p & c1 & Hg & Hrun). unfold get_pending in Hg.
  destruct (pending_store (mem c) !! e) as [p0|] eqn:Hp; [|done]. injection Hg as <- <-.
  apply bind_Some_inv in Hrun as (s0 & c1 & Hg & Hrun). unfold get_stream in Hg. rewrite Hs in Hg. injection Hg as <- <-.
  apply bind_Some_inv in Hrun as (pr & c1 & Hg & Hrun). injection Hg as <- <-. cbv zeta in Hrun.
  assert (forall r0, calm a (finish_schedule a r0 : M ScheduleResult)) as Hfin by (intros; apply calm_finish_schedule).
  destruct (bool_decide (pe_kind p0 = PData) && (send_window_ s <=? 0)) eqn:Hb1.
  { apply schedule_post_calm. by eapply Hfin. }
  destruct (bool_decide (pe_kind p0 = PData) && (conn_send_window_ (peer c) <=? 0)) eqn:Hb2.
  { apply schedule_post_calm. by eapply Hfin. }
  assert (pe_kind p0 = PData -> 0 < send_window_ s /\ 0 < conn_send_window_ (peer c)) as Hwin.
  { intros Hk. rewrite bool_decide_true in Hb1, Hb2 by done. cbn in Hb1, Hb2. bool_to_prop. lia. }
  destruct (Z.eqb_spec (remaining_bytes p0) 0) as [Hz|Hnz].
  { apply schedule_post_calm.
    apply bind_Some_inv in Hrun as (u & c1 & Hpop & Hrun). apply bind_Some_inv in Hrun as (u' & c2 & Hmf & Hrun).
    apply (effect_trans a [] 0 [] 0 c c2 c'); [apply (effect_trans a [] 0 [] 0 c c1 c2)|].
    - by eapply calm_pop.
    - by eapply calm_maybe_finish_pending.
    - by eapply Hfin. }
  destruct (Z.eqb_spec (fragment_size p0 (peer c) s) 0) as [Hz|Hfz].
  { apply schedule_post_calm. by eapply Hfin. }
  destruct (fragment_size_bounds p0 (peer c) s Hfz Hmax (remaining_nonneg p0) Hwin) as ([Hn1 Hn2] & Hn3 & Hn4).
  set (n := fragment_size p0 (peer c) s) in *.
  apply bind_Some_inv in Hrun as (sent & c1 & Hsend & Hrun).
  pose proof (send_fragment_effect a e n c sent c1 p0 s Hreason Hn1 Hp Hs Hsend) as E1.
  destruct sent; cbn [negb] in Hrun.
  2:{ apply schedule_post_calm. apply (effect_trans a [] 0 [] 0 c c1 c' E1). by eapply Hfin. }
  destruct E1 as (rest & chunk & _ & Hchunk & _ & _ & _ & E1 & P1).
  set (fr := fragment_frame e p0 (stream_id_ s) n chunk) in *.
  assert (data_bytes [fr] = match pe_kind p0 with PData => n | PHeader => 0 end) as Hdata by apply fragment_frame_data.
  assert (frame_fits (peer_max_outbound_frame_size_ (peer c)) (stream_id_ s) fr) as Hfit
    by (apply fragment_frame_fits; [lia|done]).
  assert (forall c2, effect a [] 0 c1 c2 -> schedule_post a s c c2) as Hone.
  { intros c2 E2. exists [fr], (data_bytes [fr]). rewrite Hdata in *.
    pose proof (effect_trans a _ _ _ _ c c1 c2 E1 E2) as E. rewrite Z.add_0_r, app_nil_r in E.
    split; [done|]. split; [done|]. split; [|by constructor].
    destruct (pe_kind p0); [lia|]. specialize (Hn4 eq_refl). unfold window_of. lia. }
  (* header frames: go on behind this one *)
  assert (forall e2 c2, effect a [] 0 c1 c2 -> pe_kind p0 = PHeader ->
            schedule_loop fuel a e2 true c2 = Some (r, c') -> schedule_post a s c c') as Hmore.
  { intros e2 c2 E2 Hk Hloop. rewrite Hk in *.
    pose proof (effect_trans a _ _ _ _ c c1 c2 E1 E2) as E. rewrite app_nil_r in E. cbn [Z.add] in E.
    destruct fuel as [|fuel']; [done|].
    assert (exists s2, stream_store (mem c2) !! a = Some s2) as [s2 Hs2].
    { cbn [schedule_loop] in Hloop. apply bind_Some_inv in Hloop as (q & c3 & Hg & Hloop).
      unfold get_pending in Hg. destruct (pending_store (mem c2) !! e2); [|done]. injection Hg as <- <-.
      apply bind_Some_inv in Hloop as (s2 & c3 & Hg & Hloop). unfold get_stream in Hg.
      destruct (stream_store (mem c2) !! a) as [s2'|]; [eauto|done]. }
    destruct (eff_streams _ _ _ _ _ E a s2 Hs2) as (s0 & Hs0 & Hw & Hid). rewrite Hs in Hs0. injection Hs0 as <-.
    rewrite decide_True in Hw by done.
    destruct (IH e2 true c2 s2) as (frames & d & E3 & Hd & Hb & Hall);
      [by apply (eff_reason _ _ _ _ _ E)|by rewrite (eff_frame_size _ _ _ _ _ E)|done|done|].
    exists (fr :: frames), (0 + d). split; [apply (effect_trans a [fr] 0 frames d c c2 c' E E3)|].
    change (fr :: frames) with ([fr] ++ frames). rewrite data_bytes_app, Hdata, Hd.
    pose proof (eff_window _ _ _ _ _ E) as Hwc. rewrite (eff_frame_size _ _ _ _ _ E), Hid in Hall.
    split; [done|]. split; [lia|]. by constructor. }
  apply bind_Some_inv in Hrun as (p' & c2 & Hg & Hrun). unfold get_pending in Hg. rewrite P1, lookup_insert_eq in Hg.
  injection Hg as <- <-.
  destruct (empty _).
  - apply bind_Some_inv in Hrun as (u & c2 & Hpop & Hrun).
    pose proof (calm_pop a a c1 u c2 Hpop) as E2.
    assert (pe_kind (set_inflight (pe_inflight_sends p0 + 1) (set_payload rest p0)) = pe_kind p0) as Hk' by (by destruct p0).
    rewrite Hk' in Hrun. destruct (pe_kind p0) eqn:Hk.
    + apply bind_Some_inv in Hrun as (s' & c3 & Hg & Hrun). unfold get_stream in Hg.
      destruct (stream_store (mem c2) !! a) as [s2|]; [|done]. injection Hg as <- <-.
      destruct (pending_ s2) as [|e2 rest2].
      * apply Hone. apply (effect_trans a [] 0 [] 0 c1 c2 c' E2). by eapply Hfin.
      * by apply (Hmore e2 c2).
    + apply Hone. apply (effect_trans a [] 0 [] 0 c1 c2 c' E2). by eapply Hfin.
  - assert (pe_kind (set_inflight (pe_inflight_sends p0 + 1) (set_payload rest p0)) = pe_kind p0) as Hk' by (by destruct p0).
    rewrite Hk' in Hrun. destruct (pe_kind p0) eqn:Hk.
    + apply (Hmore e c1); [apply effect_refl|done|done].
    + apply Hone. by eapply Hfin.
Qed.

Lemma schedule_pending_post a (c c' : Conn T) r :
  stop_sending_reason_ (life c) <> None_ -> 0 < peer_max_outbound_frame_size_ (peer c) ->
  schedule_pending a c = Some (r, c') -> exists s, stream_store (mem c) !! a = Some s /\ schedule_post a s c c'.
Proof.
  intros Hreason Hmax Hrun. unfold schedule_pending in Hrun. apply bind_Some_inv in Hrun as (s & c1 & Hg & Hrun).
  unfold get_stream in Hg. destruct (stream_store (mem c) !! a) as [s0|] eqn:Hs; [|done]. injection Hg as <- <-.
  exists s0. split; [done|].
  destruct (negb (conn_ s0)); [injection Hrun as <- <-; apply schedule_post_calm, effect_refl|].
  destruct (pending_ s0) as [|e rest].
  - apply schedule_post_calm. apply bind_Some_inv in Hrun as (u & c1 & Hsync & Hrun). injection Hrun as <- <-.
    by eapply calm_sync.
  - apply bind_Some_inv in Hrun as (fuel & c1 & Hg & Hrun). injection Hg as <- <-.
    by eapply schedule_loop_effect.
Qed.

(** ** [schedule_pending] runs to its end

    As long as the stream, its pending entries and the send queue are there,
    each step ends and leaves them there: neither the assertions nor the fuel
    stop it. *)

Definition listed (a : nat) (es : list nat) (c : Conn T) : Prop :=
  (exists s, stream_store (mem c) !! a = Some s /\ pending_ s = es) /\
  Forall (fun e => is_Some (pending_store (mem c) !! e)) es.

Definition proceeds {A} (a : nat) (es : list nat) (m : M A) : Prop :=
  forall c, listed a es c -> exists x c', m c = Some (x, c') /\ listed a es c'.

Lemma bind_run {A B} (m : M A) (k : A -> M B) c x c1 : m c = Some (x, c1) -> (m ≫= k) c = k x c1.
Proof. intros Hm. unfold mbind, M_bind. by rewrite Hm. Qed.

Lemma get_pending_run e (c : Conn T) p : pending_store (mem c) !! e = Some p -> get_pending e c = Some (p, c).
Proof. intros Hp. unfold get_pending. by rewrite Hp. Qed.

Lemma get_stream_run a (c : Conn T) s : stream_store (mem c) !! a = Some s -> get_stream a c = Some (s, c).
Proof. intros Hs. unfold get_stream. by rewrite Hs. Qed.

Section Proceeds.
Variables (a : nat) (es : list nat).

Lemma proceeds_bind {A B} (m : M A) (k : A -> M B) : proceeds a es m -> (forall x, proceeds a es (k x)) -> proceeds a es (m ≫= k).
Proof.
  intros Hm Hk c Hc. destruct (Hm c Hc) as (x & c1 & Hrun & H1). rewrite (bind_run _ _ _ _ _ Hrun). by apply Hk.
Qed.

Lemma proceeds_ret {A} (x : A) : proceeds a es (mret x : M A).
Proof. intros c Hc. by eexists _, _. Qed.

Lemma proceeds_gets {A} (f : Conn T -> A) : proceeds a es (gets f).
Proof. intros c Hc. by eexists _, _. Qed.

Lemma proceeds_modify f :
  (forall c, stream_store (mem (f c)) = stream_store (mem c) /\ pending_store (mem (f c)) = pending_store (mem c)) ->
  proceeds a es (modify f).
Proof. intros Hf c Hc. destruct (Hf c) as [H1 H2]. eexists _, _. split; [done|]. unfold listed. by rewrite H1, H2. Qed.

Lemma proceeds_when b (m : M unit) : proceeds a es m -> proceeds a es (when b m).
Proof. intros Hm. destruct b; [done|apply proceeds_ret]. Qed.

Lemma proceeds_on_queue {A} (f : SendQueue.Queue -> A * SendQueue.Queue) : proceeds a es (on_queue f).
Proof. intros c Hc. unfold on_queue. destruct (f _) as [r q]. by eexists _, _. Qed.

Lemma proceeds_allocate : proceeds a es allocate.
Proof. intros c Hc. unfold allocate. destruct (oom_ _); by eexists _, _. Qed.

Lemma proceeds_get_stream : proceeds a es (get_stream a).
Proof. intros c Hc. pose proof Hc as [(s & Hs & _) _]. rewrite (get_stream_run a c s Hs). by eexists _, _. Qed.

Lemma proceeds_get_pending e : e ∈ es -> proceeds a es (get_pending e).
Proof.
  intros He c Hc. pose proof Hc as [_ Hall]. rewrite Forall_forall in Hall. destruct (Hall e He) as [p Hp].
  rewrite (get_pending_run e c p Hp). by eexists _, _.
Qed.

Lemma proceeds_mod_stream f : (forall s, pending_ (f s) = pending_ s) -> proceeds a es (mod_stream a f).
Proof.
  intros Hf c [(s & Hs & Hes) Hall]. unfold mod_stream. rewrite (bind_run _ _ _ _ _ (get_stream_run a c s Hs)).
  eexists _, _. split; [done|]. split; [|done]. exists (f s). cbn. rewrite lookup_insert_eq, Hf. done.
Qed.

Lemma proceeds_mod_pending e f : e ∈ es -> proceeds a es (mod_pending e f).
Proof.
  intros He c [Hs Hall]. pose proof Hall as Hall'. rewrite Forall_forall in Hall'. destruct (Hall' e He) as [p Hp].
  unfold mod_pending. rewrite (bind_run _ _ _ _ _ (get_pending_run e c p Hp)). eexists _, _. split; [done|].
  split; [done|]. cbn. apply (Forall_impl _ _ _ Hall). intros e' [p' Hp']. rewrite lookup_insert_is_Some. destruct (decide (e = e')); eauto.
Qed.

Ltac run_step :=
  first
    [ apply proceeds_ret | apply proceeds_gets | apply proceeds_get_stream | apply proceeds_allocate | apply proceeds_on_queue | apply proceeds_when
    | apply proceeds_get_pending; done | apply proceeds_mod_pending; done
    | apply proceeds_mod_stream; intros ?; done | apply proceeds_modify; intros ?; split; done
    | match goal with |- proceeds _ _ (_ ≫= _) => apply proceeds_bind; [|intros ?] end | case_match ].

Lemma proceeds_stop reason : proceeds a es (stop_sending reason).
Proof. unfold stop_sending, abort_connection, modify_life. repeat run_step. Qed.

Lemma proceeds_send_fragment e n : e ∈ es -> proceeds a es (send_fragment a e n).
Proof.
  intros He. unfold send_fragment, take_fragment, queue_fragment, acquire_send_entry, release_send_entry,
    enqueue_send_entry, notify, modify_peer, modify_mem.
  repeat first [apply proceeds_stop | run_step].
Qed.

Lemma proceeds_finish_schedule r : proceeds a es (finish_schedule a r).
Proof.
  unfold finish_schedule. apply proceeds_bind; [|intros; apply proceeds_ret]. unfold sync_conn_window_wait_membership.
  apply proceeds_bind; [apply proceeds_get_stream|]. intros s. case_match; [apply proceeds_ret|].
  apply proceeds_bind.
  - intros c Hc. pose proof Hc as [(s' & Hs & Hes) Hall]. unfold blocked_by_conn_window.
    rewrite (bind_run _ _ _ _ _ (get_stream_run a c s' Hs)). unfold gets, mbind at 1, M_bind. rewrite Hes.
    destruct es as [|e es']; [by eexists _, _|]. apply Forall_cons in Hall as [[p Hp] _].
    rewrite (bind_run _ _ _ _ _ (get_pending_run e c p Hp)). by eexists _, _.
  - intros b. unfold wait_erase, wait_push_back, modify_mem. repeat run_step.
Qed.

End Proceeds.

(** The pending list of a stream: its entries exist, once each, and none is empty. *)
Definition pending_sound (c : Conn T) (s : Http2Stream) : Prop :=
  NoDup (pending_ s) /\
  forall e, e ∈ pending_ s -> exists p, pending_store (mem c) !! e = Some p /\ remaining_bytes p <> 0.

Lemma proceeds_pop a e rest c :
  listed a (e :: rest) c -> exists c', pop_pending_head a c = Some (tt, c') /\ listed a rest c' /\
    pending_store (mem c') = pending_store (mem c) /\ stop_sending_reason_ (life c') = stop_sending_reason_ (life c).
Proof.
  intros [(s & Hs & Hes) Hall]. unfold pop_pending_head, mod_stream. rewrite (bind_run _ _ _ _ _ (get_stream_run a c s Hs)).
  eexists. split; [done|]. split; [|done]. split; [|by apply Forall_cons in Hall as [_ Hall]].
  eexists. split; [apply lookup_insert_eq|]. cbn. by rewrite Hes.
Qed.

Definition pending_cost (c : Conn T) (e : nat) : nat :=
  match pending_store (mem c) !! e with Some p => S (length (bytes_ (pe_payload p))) | None => 1%nat end.

Lemma remaining_length p : remaining_bytes p <> 0 -> remaining_bytes p = Z.of_nat (length (bytes_ (pe_payload p))).
Proof. unfold remaining_bytes, readable_bytes. by destruct (kind_ _). Qed.

Lemma pending_sound_listed a c s : stream_store (mem c) !! a = Some s -> pending_sound c s -> listed a (pending_ s) c.
Proof. intros Hs [_ He]. split; [eauto|]. apply Forall_forall. intros e Hin. destruct (He e Hin) as (p & -> & _). eauto. Qed.

Lemma pending_cost_cong c c' es :
  (forall e, e ∈ es -> pending_store (mem c') !! e = pending_store (mem c) !! e) ->
  sum_list_with (pending_cost c') es = sum_list_with (pending_cost c) es.
Proof.
  intros Hs. induction es as [|e es IH]; cbn; [done|]. unfold pending_cost at 1 3. rewrite (Hs e) by apply list_elem_of_here.
  rewrite IH; [done|]. intros e' He'. apply Hs. by apply list_elem_of_further.
Qed.

Lemma schedule_loop_runs fuel a e rest b c s :
  stop_sending_reason_ (life c) <> None_ -> 0 < peer_max_outbound_frame_size_ (peer c) ->
  stream_store (mem c) !! a = Some s -> pending_ s = e :: rest -> pending_sound c s ->
  (sum_list_with (pending_cost c) (e :: rest) < fuel)%nat ->
  exists r c', schedule_loop fuel a e b c = Some (r, c').
Proof.
  revert e rest b c s. induction fuel as [|fuel IH]; intros e rest b c s Hreason Hmax Hs Hes Hsound Hfuel; [lia|].
  pose proof (pending_sound_listed a c s Hs Hsound) as L. destruct Hsound as [Hnd Hall]. rewrite Hes in L, Hnd, Hall.
  destruct (Hall e (list_elem_of_here _ _)) as (p & Hp & Hnz). pose proof (remaining_length p Hnz) as Hlen.
  assert (forall es c0 r0, listed a es c0 -> exists r c', finish_schedule a r0 c0 = Some (r, c')) as Hfin.
  { intros es c0 r0 L0. destruct (proceeds_finish_schedule a es r0 c0 L0) as (x & c' & -> & _). eauto. }
  cbn [schedule_loop]. rewrite (bind_run _ _ _ _ _ (get_pending_run e c p Hp)), (bind_run _ _ _ _ _ (get_stream_run a c s Hs)).
  unfold gets at 1. unfold mbind at 1, M_bind. cbv zeta.
  destruct (bool_decide (pe_kind p = PData) && (send_window_ s <=? 0)) eqn:Hb1; [by apply (Hfin (e :: rest))|].
  destruct (bool_decide (pe_kind p = PData) && (conn_send_window_ (peer c) <=? 0)) eqn:Hb2; [by apply (Hfin (e :: rest))|].
  rewrite (proj2 (Z.eqb_neq _ _) Hnz). set (n := fragment_size p (peer c) s).
  destruct (Z.eqb_spec n 0) as [Hn0|Hn0]; [by apply (Hfin (e :: rest))|].
  assert (0 < n /\ n <= remaining_bytes p) as [Hn Hnle].
  { destruct (fragment_size_bounds p (peer c) s Hn0 Hmax (remaining_nonneg p)) as ([H1 _] & H2 & _); [|done].
    intros Hk. rewrite bool_decide_true in Hb1, Hb2 by done. cbn in Hb1, Hb2. bool_to_prop. lia. }
  destruct (proceeds_send_fragment a (e :: rest) e n (list_elem_of_here _ _) c L) as (sent & c1 & Hsend & L1).
  rewrite (bind_run _ _ _ _ _ Hsend). destruct sent; cbn [negb]; [|by apply (Hfin (e :: rest))].
  destruct (send_fragment_effect a e n c true c1 p s Hreason Hn Hp Hs Hsend)
    as (rst & chunk & _ & _ & Hrst & Hkr & Hrr & E1 & P1).
  set (p1 := set_inflight (pe_inflight_sends p + 1) (set_payload rst p)) in *.
  rewrite (bind_run _ _ _ _ _ (get_pending_run e c1 p1 ltac:(rewrite P1; apply lookup_insert_eq))).
  assert (pe_payload p1 = rst /\ pe_kind p1 = pe_kind p) as [Hpay Hk1] by (subst p1; by destruct p).
  pose proof (eff_reason _ _ _ _ _ E1 Hreason) as Hr1. pose proof (eff_frame_size _ _ _ _ _ E1) as Hm1.
  assert (forall e', e' ∈ rest -> pending_store (mem c1) !! e' = pending_store (mem c) !! e') as Hrest.
  { intros e' He'. rewrite P1. apply lookup_insert_ne. intros <-. by apply NoDup_cons in Hnd as [Hnin _]. }
  assert (NoDup rest) as Hndr by (by apply NoDup_cons in Hnd as [_ Hndr]).
  unfold empty. rewrite Hpay, Hk1, Hrr.
  destruct (Z.eqb_spec (remaining_bytes p - n) 0) as [Hlast|Hmore].
  - destruct (proceeds_pop a e rest c1 L1) as (c2 & Hpop & L2 & P2 & R2). rewrite (bind_run _ _ _ _ _ Hpop).
    destruct (pe_kind p); [|by apply (Hfin rest)].
    pose proof L2 as [(s2 & Hs2 & Hes2) _]. rewrite (bind_run _ _ _ _ _ (get_stream_run a c2 s2 Hs2)), Hes2.
    destruct rest as [|e2 rest2]; [by apply (Hfin [])|]. pose proof (calm_pop a a c1 tt c2 Hpop) as E2.
    apply (IH e2 rest2 true c2 s2); [by rewrite R2|by rewrite (eff_frame_size _ _ _ _ _ E2), Hm1|done|done| |].
    + split; [by rewrite Hes2|]. rewrite Hes2. intros e' He'. rewrite P2, (Hrest e' He').
      apply Hall. by apply list_elem_of_further.
    + cbn [sum_list_with] in Hfuel. unfold pending_cost at 1 in Hfuel. rewrite Hp in Hfuel.
      rewrite (pending_cost_cong c c2); [cbn [sum_list_with]; lia|]. intros e' He'. by rewrite P2, Hrest.
  - destruct (pe_kind p); [|by apply (Hfin (e :: rest))]. pose proof L1 as [(s1 & Hs1 & Hes1) _].
    apply (IH e rest true c1 s1); [done|by rewrite Hm1|done|done| |].
    + split; [by rewrite Hes1|]. rewrite Hes1. intros e' [->|He']%elem_of_cons.
      * exists p1. split; [rewrite P1; apply lookup_insert_eq|]. unfold remaining_bytes at 1. rewrite Hpay, Hrr. lia.
      * rewrite (Hrest e' He'). apply Hall. by apply list_elem_of_further.
    + cbn [sum_list_with] in Hfuel |- *. rewrite (pending_cost_cong c c1 rest) by done.
      unfold pending_cost at 1 in Hfuel. rewrite Hp in Hfuel. unfold pending_cost at 1.
      rewrite P1, lookup_insert_eq, Hpay, Hrst, length_drop. lia.
Qed.

Lemma schedule_pending_runs a c s :
  stop_sending_reason_ (life c) <> None_ -> 0 < peer_max_outbound_frame_size_ (peer c) ->
  stream_store (mem c) !! a = Some s -> pending_sound c s -> exists r c', schedule_pending a c = Some (r, c').
Proof.
  intros Hreason Hmax Hs Hsound. pose proof (pending_sound_listed a c s Hs Hsound) as L. unfold schedule_pending.
  rewrite (bind_run _ _ _ _ _ (get_stream_run a c s Hs)). destruct (negb (conn_ s)); [by eexists _, _|].
  destruct (pending_ s) as [|e rest] eqn:Hes.
  - destruct (proceeds_finish_schedule a [] NoPending c L) as (r & c' & Hrun & _). exists r, c'. exact Hrun.
  - unfold gets, mbind at 1, M_bind. apply (schedule_loop_runs _ a e rest false c s); try done.
    unfold schedule_fuel. rewrite Hes. apply Nat.lt_succ_diag_r.
Qed.

(** C35. Flow control is never violated.  On a connection whose stop reason is an
    error, as it is from its construction on, and whose peer takes frames of some
    size: if the entries pending on the stream exist, once each and none empty, a
    call of [schedule_pending] runs to its end (no assertion fails and the fuel
    suffices).  Whenever it does, also with empty entries in the list, the frames
    it queues are of this stream only, each non-empty, no larger than the peer's
    maximum frame size and with the header that announces it; the DATA bytes
    among them fit in both the connection window and the stream window, and
    both windows shrink by exactly that many; no other stream's window moves. *)
Theorem schedule_pending_within_windows (a : nat) (c : Conn T) (s : Http2Stream) :
  stop_sending_reason_ (life c) <> None_ -> 0 < peer_max_outbound_frame_size_ (peer c) ->
  stream_store (mem c) !! a = Some s ->
  (pending_sound c s -> exists r c', schedule_pending a c = Some (r, c')) /\
  forall r c', schedule_pending a c = Some (r, c') ->
  exists frames,
    ready_of c' = ready_of c ++ frames /\
    Forall (frame_fits (peer_max_outbound_frame_size_ (peer c)) (stream_id_ s)) frames /\
    0 <= data_bytes frames <= Z.max 0 (Z.min (window_of c) (send_window_ s)) /\
    window_of c' = window_of c - data_bytes frames /\
    forall b s', stream_store (mem c') !! b = Some s' ->
      exists s0, stream_store (mem c) !! b = Some s0 /\
        send_window_ s' = send_window_ s0 - (if decide (b = a) then data_bytes frames else 0).
Proof.
  intros Hreason Hmax Hs. split; [intros; by apply (schedule_pending_runs a c s)|]. intros r c' Hrun.
  destruct (schedule_pending_post a c c' r Hreason Hmax Hrun) as (s0 & Hs0 & frames & d & [E1 E2 _ _ E4] & -> & Hd & Hall).
  rewrite Hs in Hs0. injection Hs0 as <-.
  exists frames. split; [done|]. split; [done|]. split; [done|]. split; [done|].
  intros b s' Hb. destruct (E4 b s' Hb) as (s0 & Hs0 & Hw & _). eauto.
Qed.

(** ** Header blocks *)

(** The frames that carry the pieces of a header block. *)
Fixpoint block_frames (first : bool) (e : nat) (k : Kind) (ff lf sid : Z) (pieces : list (list Z))
  : list Http2SendingEntry :=
  match pieces with
  | [] => []
  | b :: rest =>
      build_send_entry e (if first then Headers else Continuation)
        (Z.lor (if first then ff else 0) (match rest with [] => lf | _ => 0 end)) sid
        (Z.of_nat (length b)) (mkPayload k b) :: block_frames false e k ff lf sid rest
  end.

(** Nothing stands in the way of sending. *)
Record healthy (c : Conn T) : Prop := mkHealthy {
  h_run : run_started_ (life c) = true;
  h_transport : transport_valid (life c) = true;
  h_stop : stop_sending_requested_ (life c) = false;
  h_reason : stop_sending_reason_ (life c) <> None_;
  h_queue : SendQueue.closed_ (send_queue_ (mem c)) = false;
  h_memory : oom_ (mem c) = [] }.

(** All but the queue of [c]. *)
Definition queue_moved (c c' : Conn T) : Prop :=
  exists q, c' = set_mem (set_send_queue_ q (mem c)) c /\ SendQueue.closed_ q = SendQueue.closed_ (send_queue_ (mem c)).

Lemma healthy_moved c c' : healthy c -> queue_moved c c' -> healthy c'.
Proof. intros [] (q & -> & Hq). split; cbn; congruence. Qed.

Lemma acquire_healthy c : healthy c -> exists x c', acquire_send_entry c = Some (Some x, c') /\ queue_moved c c'.
Proof.
  intros [_ _ _ _ Hq Hoom]. unfold acquire_send_entry, gets, mbind, M_bind. cbn.
  destruct (Z.ltb_spec 0 (SendQueue.free_count_ (send_queue_ (mem c)))) as [Hf|Hf].
  - unfold on_queue, SendQueue.acquire. rewrite (proj2 (Z.ltb_lt _ _) Hf).
    eexists _, _. split; [done|]. eexists. split; [done|]. by destruct (send_queue_ (mem c)).
  - unfold allocate. rewrite Hoom. cbn. eexists _, _. split; [done|]. exists (send_queue_ (mem c)).
    split; [|done]. by destruct c as [? ? ? ? ? []].
Qed.

Lemma enqueue_healthy entry c :
  healthy c -> exists c', enqueue_send_entry entry c = Some (None_, c') /\ queue_moved c c'.
Proof.
  intros [Hr Ht Hs _ Hq _]. unfold enqueue_send_entry, gets, on_queue, mbind, M_bind, mret, M_ret. cbn.
  rewrite Hr, Ht, Hs. cbn. unfold SendQueue.enqueue. rewrite Hq. cbn.
  eexists. split; [done|]. eexists. split; [done|].
  rewrite (proj2 (SendQueue.notify_waiter_ready _)). by destruct (send_queue_ (mem c)).
Qed.

(** [c'] is [c] but for the queue and the pending entries [f]. *)
Definition pending_moved (f : gmap nat Http2PendingEntry -> gmap nat Http2PendingEntry) (c c' : Conn T) : Prop :=
  exists q ch, c' = set_mem (set_changes ch (set_pending_store (f (pending_store (mem c))) (set_send_queue_ q (mem c)))) c /\
    SendQueue.closed_ q = SendQueue.closed_ (send_queue_ (mem c)).

(** A pending entry without its first [n] bytes, and these bytes. *)
Definition cut (n : Z) (p : Http2PendingEntry) : Http2PendingEntry :=
  set_payload (mkPayload (kind_ (pe_payload p)) (drop (Z.to_nat n) (bytes_ (pe_payload p)))) p.
Definition prefix_of (n : Z) (p : Http2PendingEntry) : Http2SendPayload :=
  mkPayload (kind_ (pe_payload p)) (take (Z.to_nat n) (bytes_ (pe_payload p))).

Lemma take_fragment_healthy e n c p :
  healthy c -> pending_store (mem c) !! e = Some p -> kind_ (pe_payload p) <> KNone -> n <= remaining_bytes p ->
  exists c', take_fragment e n c = Some (Some (prefix_of n p), c') /\ healthy c' /\
    pending_moved (fun ps => <[e := cut n p]> ps) c c'.
Proof.
  intros Hh Hp Hk Hn. unfold take_fragment.
  destruct (acquire_healthy c Hh) as (x & c1 & Hacq & Hm). rewrite (bind_run _ _ _ _ _ Hacq).
  pose proof (healthy_moved c c1 Hh Hm) as Hh1. destruct Hm as (q & -> & Hq). set (c1 := set_mem _ c) in *.
  assert (pending_store (mem c1) !! e = Some p) as Hp1 by done.
  rewrite (bind_run _ _ _ _ _ (get_pending_run e c1 p Hp1)).
  assert ((if bool_decide (kind_ (pe_payload p) = KIoBufChain) then allocate else mret true : M bool) c1 = Some (true, c1))
    as Halloc.
  { case_bool_decide; [|done]. unfold allocate. by rewrite (h_memory c1 Hh1). }
  rewrite (bind_run _ _ _ _ _ Halloc), split_prefix_compute by done. cbn [negb].
  unfold mod_pending. unfold mbind at 1 2, M_bind. rewrite (get_pending_run e c1 p Hp1). cbn.
  eexists. split; [reflexivity|]. split.
  - destruct Hh. split; cbn; try done. by rewrite Hq.
  - exists q, (changes (mem c)). split; [|done]. by destruct c as [? ? ? ? ? []].
Qed.

Lemma queue_fragment_healthy a e p n chunk c s q :
  healthy c -> pe_kind p = PHeader -> stream_store (mem c) !! a = Some s -> pending_store (mem c) !! e = Some q ->
  exists c', queue_fragment a e p n chunk c = Some (true, c') /\ healthy c' /\ peer c' = peer c /\
    stream_store (mem c') = stream_store (mem c).
Proof.
  intros Hh Hk Hs Hq. unfold queue_fragment. rewrite (bind_run _ _ _ _ _ (get_stream_run a c s Hs)).
  destruct (frame_kind _ _ _) as [ty fl].
  destruct (enqueue_healthy (build_send_entry e ty fl (stream_id_ s) n chunk) c Hh) as (c1 & Henq & Hm).
  rewrite (bind_run _ _ _ _ _ Henq). rewrite bool_decide_true by done. cbn [negb].
  pose proof (healthy_moved c c1 Hh Hm) as Hh1. destruct Hm as (qq & -> & Hqq). set (c1 := set_mem _ c) in *.
  rewrite bool_decide_false by (by rewrite Hk). unfold when, mod_pending, notify.
  unfold mbind, M_bind, mret, M_ret. unfold get_pending. subst c1. cbn. rewrite Hq. cbn. rewrite lookup_insert_eq.
  eexists. split; [reflexivity|]. cbn. split; [|done]. destruct Hh1. by split.
Qed.

Lemma send_fragment_healthy a e n c p s :
  healthy c -> pe_kind p = PHeader -> stream_store (mem c) !! a = Some s -> pending_store (mem c) !! e = Some p ->
  kind_ (pe_payload p) <> KNone -> 0 < n <= remaining_bytes p ->
  exists c', send_fragment a e n c = Some (true, c') /\ healthy c' /\ peer c' = peer c /\
    stream_store (mem c') = stream_store (mem c) /\
    pending_store (mem c') = <[e := set_inflight (pe_inflight_sends p + 1) (cut n p)]> (pending_store (mem c)) /\
    ready_of c' = ready_of c ++ [fragment_frame e p (stream_id_ s) n (prefix_of n p)].
Proof.
  intros Hh Hk Hs Hp Hkind Hn. pose proof (get_pending_run e c p Hp) as Hg.
  destruct (take_fragment_healthy e n c p Hh Hp Hkind (proj2 Hn)) as (c1 & Htake & Hh1 & (q & ch & E & Hq)).
  assert (pending_store (mem c1) !! e = Some (cut n p)) as Hp1 by (rewrite E; apply lookup_insert_eq).
  assert (stream_store (mem c1) !! a = Some s) as Hs1 by (by rewrite E).
  destruct (queue_fragment_healthy a e p n (prefix_of n p) c1 s _ Hh1 Hk Hs1 Hp1) as (c2 & Hrun & Hh2 & Hpeer & Hst).
  assert (send_fragment a e n c = Some (true, c2)) as Hsend.
  { unfold send_fragment. by rewrite (bind_run _ _ _ _ _ Hg), (bind_run _ _ _ _ _ Htake). }
  exists c2. split; [done|]. split; [done|]. split; [by rewrite Hpeer, E|]. split; [by rewrite Hst, E|].
  pose proof (take_fragment_effect a e n c _ c1 p (proj1 Hn) Hp Htake) as ([F1 _ _ _ _] & _ & _).
  destruct (queue_fragment_effect a e p n _ _ c1 true c2 s (h_reason c1 Hh1) Hs1 Hp1 Hrun) as ([F2 _ _ _ _] & P2).
  rewrite P2, F2, F1, app_nil_r, E. split; [|done]. cbn. rewrite insert_insert_eq. by destruct p.
Qed.

Lemma finish_schedule_empty a r c s :
  stream_store (mem c) !! a = Some s -> pending_ s = [] ->
  exists c', finish_schedule a r c = Some (r, c') /\ ready_of c' = ready_of c.
Proof.
  intros Hs Hpend.
  assert (exists c', finish_schedule a r c = Some (r, c')) as [c' Hrun].
  { unfold finish_schedule, sync_conn_window_wait_membership, blocked_by_conn_window, wait_erase.
    unfold mbind, M_bind, mret, M_ret, gets, get_stream. rewrite Hs. cbn.
    destruct (conn_ s); cbn; [|eauto]. rewrite Hs, Hpend. cbn. eauto. }
  exists c'. split; [done|]. pose proof (eff_queue _ _ _ _ _ (calm_finish_schedule a a r c r c' Hrun)) as E.
  by rewrite app_nil_r in E.
Qed.

Lemma pop_finish a c s e :
  stream_store (mem c) !! a = Some s -> pending_ s = [e] ->
  exists c1 s1 c', pop_pending_head a c = Some (tt, c1) /\ get_stream a c1 = Some (s1, c1) /\ pending_ s1 = [] /\
    finish_schedule a Scheduled_ c1 = Some (Scheduled_, c') /\ ready_of c' = ready_of c.
Proof.
  intros Hs Hpend. unfold pop_pending_head, mod_stream. rewrite (bind_run _ _ _ _ _ (get_stream_run a c s Hs)).
  set (c1 := set_mem (set_stream_store (<[a := set_pending_ (tail (pending_ s)) s]> (stream_store (mem c))) (mem c)) c).
  assert (stream_store (mem c1) !! a = Some (set_pending_ (tail (pending_ s)) s)) as Hs1 by apply lookup_insert_eq.
  rewrite Hpend in Hs1. destruct (finish_schedule_empty a Scheduled_ c1 _ Hs1 eq_refl) as (c' & Hfin & Hready).
  exists c1, (set_pending_ [] s), c'. split; [done|]. split; [by apply get_stream_run|]. done.
Qed.

(** One piece, and what follows it. *)
Lemma block_frames_head e p sid n ff rest :
  pe_kind p = PHeader -> 0 < n <= remaining_bytes p -> ff = (remaining_bytes p =? pe_total_bytes p) ->
  (rest = [] <-> n = remaining_bytes p) -> kind_ (pe_payload p) <> KNone ->
  block_frames ff e (kind_ (pe_payload p)) (pe_first_frame_flags p) (pe_last_frame_flags p) sid
    (take (Z.to_nat n) (bytes_ (pe_payload p)) :: rest) =
  fragment_frame e p sid n (prefix_of n p) ::
    block_frames false e (kind_ (pe_payload p)) (pe_first_frame_flags p) (pe_last_frame_flags p) sid rest.
Proof.
  intros Hk Hn -> Hrest Hkind. cbn [block_frames]. f_equal. unfold fragment_frame, frame_kind. rewrite Hk. cbn [fst snd].
  assert (Z.of_nat (length (take (Z.to_nat n) (bytes_ (pe_payload p)))) = n) as ->.
  { unfold remaining_bytes, readable_bytes in Hn. rewrite length_take. destruct (kind_ _); lia. }
  assert ((match rest with [] => pe_last_frame_flags p | _ => 0 end) =
          if n =? remaining_bytes p then pe_last_frame_flags p else 0) as ->; [|done].
  destruct (Z.eqb_spec n (remaining_bytes p)) as [E|E].
  - by rewrite (proj2 Hrest E).
  - destruct rest; [|done]. by destruct E, Hrest; auto.
Qed.

(** The loop on a single header entry. *)
Lemma header_loop fuel a e b c s p :
  healthy c -> 0 < peer_max_outbound_frame_size_ (peer c) ->
  stream_store (mem c) !! a = Some s -> pending_ s = [e] -> pending_store (mem c) !! e = Some p ->
  pe_kind p = PHeader -> kind_ (pe_payload p) <> KNone -> bytes_ (pe_payload p) <> [] ->
  remaining_bytes p <= pe_total_bytes p -> (length (bytes_ (pe_payload p)) < fuel)%nat ->
  exists c' pieces, schedule_loop fuel a e b c = Some (Scheduled_, c') /\ pieces <> [] /\
    concat pieces = bytes_ (pe_payload p) /\
    Forall (fun b => 0 < Z.of_nat (length b) <= peer_max_outbound_frame_size_ (peer c)) pieces /\
    ready_of c' = ready_of c ++ block_frames (remaining_bytes p =? pe_total_bytes p) e (kind_ (pe_payload p))
                    (pe_first_frame_flags p) (pe_last_frame_flags p) (stream_id_ s) pieces.
Proof.
  revert b c p. induction fuel as [|fuel IH]; intros b c p Hh Hmax Hs Hpend Hp Hk Hkind Hne Htot Hfuel; [lia|].
  cbn [schedule_loop]. rewrite (bind_run _ _ _ _ _ (get_pending_run e c p Hp)), (bind_run _ _ _ _ _ (get_stream_run a c s Hs)).
  unfold gets at 1. unfold mbind at 1, M_bind. rewrite Hk. cbv zeta.
  rewrite !(bool_decide_false (PHeader = PData)) by done. cbn [andb].
  assert (remaining_bytes p = Z.of_nat (length (bytes_ (pe_payload p)))) as Hrem
    by (unfold remaining_bytes, readable_bytes; by destruct (kind_ _)).
  assert (0 < length (bytes_ (pe_payload p)))%nat as Hpos by (by destruct (bytes_ _); [|cbn; lia]).
  rewrite (proj2 (Z.eqb_neq (remaining_bytes p) 0)) by lia.
  assert (fragment_size p (peer c) s = Z.min (remaining_bytes p) (peer_max_outbound_frame_size_ (peer c))) as Hfrag
    by (unfold fragment_size; by rewrite Hk).
  set (n := fragment_size p (peer c) s) in *. assert (0 < n <= remaining_bytes p) as Hn by lia.
  rewrite (proj2 (Z.eqb_neq n 0)) by lia.
  destruct (send_fragment_healthy a e n c p s Hh Hk Hs Hp Hkind Hn) as (c1 & Hsend & Hh1 & Hpeer1 & Hs1 & Hp1 & Hready1).
  rewrite (bind_run _ _ _ _ _ Hsend). cbn [negb]. rewrite <-Hs1 in Hs.
  set (p1 := set_inflight _ (cut n p)) in *.
  assert (pending_store (mem c1) !! e = Some p1) as Hg1 by (rewrite Hp1; apply lookup_insert_eq).
  rewrite (bind_run _ _ _ _ _ (get_pending_run e c1 p1 Hg1)).
  assert (pe_payload p1 = mkPayload (kind_ (pe_payload p)) (drop (Z.to_nat n) (bytes_ (pe_payload p)))) as Hpay1
    by (subst p1; by destruct p).
  assert (pe_kind p1 = PHeader) as Hk1 by (subst p1; by destruct p).
  assert (remaining_bytes p1 = remaining_bytes p - n) as Hrem1.
  { unfold remaining_bytes at 1, readable_bytes. rewrite Hpay1. cbn [kind_ bytes_]. rewrite length_drop.
    destruct (kind_ _); (done || lia). }
  unfold empty. change (readable_bytes (pe_payload p1)) with (remaining_bytes p1). rewrite Hk1, Hrem1.
  destruct (Z.eqb_spec (remaining_bytes p - n) 0) as [Hlast|Hmore].
  - destruct (pop_finish a c1 s e Hs Hpend) as (c2 & s2 & c' & Hpop & Hg2 & Hpend2 & Hfin & Hready2).
    rewrite (bind_run _ _ _ _ _ Hpop), (bind_run _ _ _ _ _ Hg2), Hpend2.
    exists c', [take (Z.to_nat n) (bytes_ (pe_payload p))]. split; [done|]. split; [done|].
    split; [cbn; rewrite app_nil_r; apply take_ge; lia|].
    split; [constructor; [rewrite length_take; lia|constructor]|].
    rewrite Hready2, Hready1, block_frames_head; [done|done|done|done| |done]. split; [lia|done].
  - destruct (IH true c1 p1) as (c' & pieces & Hrun & Hnil & Hcat & Hall & Hready); try done.
    + by rewrite Hpeer1.
    + by rewrite Hpay1.
    + rewrite Hpay1. cbn [bytes_]. intros Hd. apply (f_equal length) in Hd. rewrite length_drop in Hd. cbn in Hd. lia.
    + rewrite Hrem1. subst p1. destruct p; cbn in *; lia.
    + rewrite Hpay1. cbn [bytes_]. rewrite length_drop. lia.
    + exists c', (take (Z.to_nat n) (bytes_ (pe_payload p)) :: pieces). split; [done|]. split; [done|].
      rewrite Hpay1 in Hcat, Hready. cbn [bytes_ kind_] in Hcat, Hready.
      split; [cbn [concat]; by rewrite Hcat, take_drop|].
      split; [constructor; [rewrite length_take; lia|by rewrite <-Hpeer1]|].
      rewrite Hready, Hready1, Hrem1, block_frames_head; [|done|done|done| |done]; [|split; [done|lia]].
      assert ((remaining_bytes p - n =? pe_total_bytes p1) = false) as ->.
      { apply Z.eqb_neq. subst p1. destruct p; cbn in *; lia. }
      rewrite <-app_assoc. subst p1. by destruct p.
Qed.

Lemma pool_create_healthy entry c :
  healthy c -> exists c', pool_create entry c = Some (Some (next_pending (mem c)), c') /\ healthy c' /\
    peer c' = peer c /\ stream_store (mem c') = stream_store (mem c) /\ ready_of c' = ready_of c /\
    pending_store (mem c') = <[next_pending (mem c) := entry]> (pending_store (mem c)).
Proof.
  intros Hh. pose proof (h_memory c Hh) as Hoom. unfold pool_create, gets, allocate, mbind, M_bind, mret, M_ret. cbn.
  destruct (0 <? free_entry_count_ (mem c)); cbn; rewrite ?Hoom; cbn; (eexists; split; [reflexivity|]);
    (split; [by destruct Hh|done]).
Qed.

Definition with_stream (a : nat) (s : Http2Stream) (c : Conn T) : Conn T :=
  set_mem (set_stream_store (<[a := s]> (stream_store (mem c))) (mem c)) c.

Lemma mod_stream_run a f c s :
  stream_store (mem c) !! a = Some s -> mod_stream a f c = Some (tt, with_stream a (f s) c).
Proof. intros Hs. unfold mod_stream. by rewrite (bind_run _ _ _ _ _ (get_stream_run a c s Hs)). Qed.

Lemma with_stream_healthy a s c : healthy c -> healthy (with_stream a s c).
Proof. by destruct 1. Qed.

Lemma with_stream_lookup a s c : stream_store (mem (with_stream a s c)) !! a = Some s.
Proof. apply lookup_insert_eq. Qed.

(** A fresh entry on a stream with nothing else to send is scheduled at once. *)
Lemma enqueue_pending_alone a kind payload ff lf oc c s :
  healthy c -> stream_store (mem c) !! a = Some s -> conn_ s = true -> active_ s = true -> pending_ s = [] ->
  state_ s <> StreamState.Closed ->
  let e := next_pending (mem c) in
  let p := Pending.init a (stream_id_ s) kind payload ff lf oc in
  exists c1 s1, healthy c1 /\ peer c1 = peer c /\ ready_of c1 = ready_of c /\ stream_store (mem c1) !! a = Some s1 /\
    pending_ s1 = [e] /\ stream_id_ s1 = stream_id_ s /\ pending_store (mem c1) !! e = Some p /\
    enqueue_pending a kind payload ff lf oc c =
      (schedule_loop (S (S (length (bytes_ payload)))) a e false ≫= fun _ => mret None_) c1.
Proof.
  intros Hh Hs Hconn Hact Hpend Hst e p. unfold enqueue_pending.
  rewrite (bind_run _ _ _ _ _ (get_stream_run a c s Hs)), Hconn, Hact. cbn [negb orb].
  rewrite (bool_decide_false _ Hst).
  destruct (pool_create_healthy p c Hh) as (c2 & Hcreate & Hh2 & Hpeer2 & Hst2 & Hready2 & Hps2).
  rewrite (bind_run _ _ _ _ _ Hcreate). rewrite <-Hst2 in Hs. unfold append_active_pending.
  rewrite (bind_run _ _ _ _ _ (mod_stream_run _ _ _ _ Hs)).
  set (s2 := set_active_pending_ _ s). set (c3 := with_stream a s2 c2).
  rewrite (bind_run _ _ _ _ _ (mod_stream_run a _ c3 s2 (with_stream_lookup a s2 c2))).
  set (s3 := set_pending_ _ s2). set (c4 := with_stream a s3 c3).
  assert (pending_ s3 = [e]) as Hp3 by (subst s3 s2; cbn; by rewrite Hpend).
  assert (stream_store (mem c4) !! a = Some s3) as Hs4 by apply with_stream_lookup.
  assert (healthy c4) as Hh4 by (by do 2 apply with_stream_healthy).
  assert (pending_store (mem c4) !! e = Some p) as Hp4 by (subst c4 c3; cbn; rewrite Hps2; apply lookup_insert_eq).
  exists c4, s3. do 7 (split; [first [done | apply Hpeer2 | apply Hready2 | exact Hp3]|]).
  pose proof (get_stream_run a c4 s3 Hs4) as Hg.
  assert (conn_ s3 = true /\ state_ s3 <> StreamState.Closed) as [Hc3 Hst3] by (split; [exact Hconn|exact Hst]).
  unfold try_schedule_pending. unfold mbind, M_bind at 1 2 3. rewrite Hg. unfold gets. rewrite (h_stop c4 Hh4), Hc3.
  rewrite (bool_decide_false _ Hst3). cbn [negb orb]. unfold schedule_pending. unfold mbind, M_bind at 1 2 3.
  rewrite Hg, Hc3, Hp3. cbn [negb]. unfold gets, M_bind.
  assert (schedule_fuel c4 s3 = S (S (length (bytes_ payload)))) as ->.
  { unfold schedule_fuel. rewrite Hp3. cbn [sum_list_with]. rewrite Hp4. cbn. lia. }
  by destruct (schedule_loop _ a e false c4) as [[]|].
Qed.

(** A header block leaves in pieces: on a connection that is up, with
    nothing else pending on the stream, [send_header] succeeds and queues one
    [HEADERS] frame followed by [CONTINUATION] frames; their payloads, none empty
    and none larger than the peer's maximum frame size, are the block, and only
    the last one has [END_HEADERS] (and [END_STREAM] when asked for). *)
Theorem send_header_fragments (a : nat) (c : Conn T) (s : Http2Stream) (payload : Http2SendPayload)
    (end_stream : bool) (st : StreamState.State) :
  healthy c -> 0 < peer_max_outbound_frame_size_ (peer c) ->
  stream_store (mem c) !! a = Some s -> conn_ s = true -> active_ s = true -> pending_ s = [] ->
  StreamState.transition_on_send_headers (state_ s) end_stream = (None_, st) -> st <> StreamState.Closed ->
  kind_ payload <> KNone -> bytes_ payload <> [] ->
  exists c' pieces,
    send_header a payload end_stream c = Some (None_, c') /\
    pieces <> [] /\ concat pieces = bytes_ payload /\
    Forall (fun b => 0 < Z.of_nat (length b) <= peer_max_outbound_frame_size_ (peer c)) pieces /\
    ready_of c' = ready_of c ++
      block_frames true (next_pending (mem c)) (kind_ payload) 0
        (if end_stream then Z.lor kFlagEndHeaders kFlagEndStream else kFlagEndHeaders) (stream_id_ s) pieces.
Proof.
  intros Hh Hmax Hs Hconn Hact Hpend Htr Hst Hkind Hne. unfold send_header.
  rewrite (bind_run _ _ _ _ _ (get_stream_run a c s Hs)), Hconn. cbn [negb]. rewrite Htr.
  rewrite (bind_run _ _ _ _ _ (mod_stream_run _ _ _ _ Hs)), bool_decide_true by done. cbn [negb].
  set (lf := if end_stream then _ else _).
  destruct (enqueue_pending_alone a PHeader payload 0 lf None (with_stream a (set_state_ st s) c) (set_state_ st s))
    as (c1 & s1 & Hh1 & Hpeer1 & Hready1 & Hs1 & Hpend1 & Hid1 & Hp1 & ->);
    [by apply with_stream_healthy|apply with_stream_lookup|done|done|done|done|].
  change (peer c) with (peer (with_stream a (set_state_ st s) c)) in Hmax. rewrite <-Hpeer1 in Hmax. change (peer (with_stream a (set_state_ st s) c)) with (peer c) in Hpeer1.
  destruct (header_loop (S (S (length (bytes_ payload)))) a _ false c1 s1 _ Hh1 Hmax Hs1 Hpend1 Hp1)
    as (c' & pieces & Hrun & Hnil & Hcat & Hall & Hready); try done; [cbn; lia|].
  exists c', pieces. rewrite (bind_run _ _ _ _ _ Hrun). split; [done|]. split; [done|]. split; [done|].
  split; [by rewrite <-Hpeer1|]. rewrite Hready, Hready1, Hid1. f_equal. cbn. by rewrite Z.eqb_refl.
Qed.

(** A stream that is half closed by the peer cannot finish its own half:
    [send_data] and [send_header] with [end_stream] enter [Closed] before the data
    is enqueued, so the data is refused with [Invalid] and no frame is sent; the
    same call a second time is refused by the transition itself. *)
Theorem end_stream_refused_when_half_closed_remote (a : nat) (c : Conn T) (s : Http2Stream) (payload : Http2SendPayload) :
  stream_store (mem c) !! a = Some s -> conn_ s = true -> state_ s = StreamState.HalfClosedRemote ->
  let c' := with_stream a (set_state_ StreamState.Closed s) c in
  send_data a payload true c = Some (Invalid, c') /\ send_header a payload true c = Some (Invalid, c') /\
  ready_of c' = ready_of c /\
  send_data a payload true c' = Some (Invalid, with_stream a (set_state_ StreamState.Closed s) c').
Proof.
  intros Hs Hconn Hst c'.
  assert (forall st fl oc k (c : Conn T), stream_store (mem c) !! a = Some st -> state_ st = StreamState.Closed ->
            enqueue_pending a k payload 0 fl oc c = Some (Invalid, c)) as Hclosed.
  { intros st fl oc k c0 Hst0 Hcl. unfold enqueue_pending. rewrite (bind_run _ _ _ _ _ (get_stream_run a c0 st Hst0)).
    rewrite (bool_decide_true _ Hcl), orb_true_r. done. }
  assert (stream_store (mem c') !! a = Some (set_state_ StreamState.Closed s)) as Hs' by apply with_stream_lookup.
  unfold send_data, send_header.
  rewrite !(bind_run _ _ _ _ _ (get_stream_run a c s Hs)), (bind_run _ _ _ _ _ (get_stream_run a c' _ Hs')).
  cbn [conn_ set_state_]. rewrite Hconn, Hst. cbn [negb state_ set_state_].
  change (StreamState.transition_on_send_data StreamState.HalfClosedRemote true) with (None_, StreamState.Closed).
  change (StreamState.transition_on_send_headers StreamState.HalfClosedRemote true) with (None_, StreamState.Closed).
  change (StreamState.transition_on_send_data StreamState.Closed true) with (Invalid, StreamState.Closed). cbv iota beta zeta.
  rewrite !(bind_run _ _ _ _ _ (mod_stream_run _ _ _ _ Hs)), (bind_run _ _ _ _ _ (mod_stream_run _ _ _ _ Hs')).
  rewrite bool_decide_true by done. cbn [negb]. rewrite !(Hclosed _ _ _ _ _ Hs' eq_refl). done.
Qed.

End Effects.

(** ** Examples *)

Section Examples.
Import Sample.

(** Ten bytes on a stream whose window takes four: the call queues one [DATA]
    frame of four bytes and leaves both windows four smaller. *)
Lemma schedule_pending_within_windows_witness :
  let c := connection (stream StreamState.Open 4 [0%nat]) [(0%nat, data_entry (replicate 10 65) 1)] in
  exists c' f, schedule_pending 0 c = Some (Scheduled_, c') /\ ready_of c = [] /\ ready_of c' = [f] /\
    frame_fits 16384 1 f /\ data_bytes [f] = 4 /\ bytes_ (payload f) = [65; 65; 65; 65] /\
    window_of c = 65535 /\ window_of c' = 65531 /\ option_map send_window_ (stream_store (mem c') !! 0%nat) = Some 0.
Proof.
  intros c. destruct (schedule_pending_within_windows 0 c (stream StreamState.Open 4 [0%nat])) as [Hends Hpost];
    [by vm_compute|by vm_compute|by vm_compute|].
  destruct Hends as (r & c' & E).
  { split; [apply NoDup_singleton|]. intros e ->%list_elem_of_singleton.
    exists (data_entry (replicate 10 65) 1). split; [by vm_compute|by vm_compute]. }
  destruct (Hpost r c' E) as (frames & Hq & Hfit & _ & Hw & _).
  assert (option_map (fun x => (x.1, map (fun f => (data_bytes [f], bytes_ (payload f))) (ready_of x.2), window_of x.2,
            option_map send_window_ (stream_store (mem x.2) !! 0%nat))) (schedule_pending 0 c) =
          Some (Scheduled_, [(4, [65; 65; 65; 65])], 65531, Some 0)) as Hrun by (by vm_compute).
  rewrite E in Hrun. cbn [option_map fst snd] in Hrun. injection Hrun as -> Hready Hwin Hstream.
  assert (ready_of c = []) as Hnil by (by vm_compute). rewrite Hnil in Hq. cbn in Hq. subst frames.
  destruct (ready_of c') as [|f [|]] eqn:Er; [done| |done]. injection Hready as Hdata Hbytes.
  assert (peer_max_outbound_frame_size_ (peer c) = 16384 /\ window_of c = 65535) as [Hmax Hwin0] by (split; by vm_compute).
  rewrite Hmax, Forall_singleton in Hfit. exists c', f. split_and!;
    [exact E|exact Hnil|exact Er|exact Hfit|exact Hdata|exact Hbytes|exact Hwin0|exact Hwin|exact Hstream].
Defined.

Lemma send_header_fragments_witness :
  let c := connection (stream StreamState.Open 0 []) [] in
  exists c' pieces, send_header 0 (set_buf [1; 2; 3]) true c = Some (None_, c') /\ concat pieces = [1; 2; 3].
Proof.
  intros c.
  destruct (send_header_fragments 0 c (stream StreamState.Open 0 []) (set_buf [1; 2; 3]) true StreamState.HalfClosedLocal)
    as (c' & pieces & Hrun & _ & Hcat & _); try (by vm_compute).
  exists c', pieces. by split.
Defined.

Lemma end_stream_refused_when_half_closed_remote_witness :
  let c := connection (stream StreamState.HalfClosedRemote 100 []) [] in
  exists c', send_data 0 (set_buf [1; 2; 3]) true c = Some (Invalid, c').
Proof.
  intros c.
  destruct (end_stream_refused_when_half_closed_remote 0 c (stream StreamState.HalfClosedRemote 100 []) (set_buf [1; 2; 3]))
    as (H & _); [by vm_compute|done|done|]. eauto.
Defined.

End Examples.

End Stream.
