(* ===== verification/Http2Reader.v ===== *)
(** * The frame reader of an HTTP/2 connection
    (the parse loop of [Http2Connection::run], [src/http/Http2Connection.cpp])

    The loop alternates between the preface, frame headers and payload pieces.
    [read_next] is one turn of it: what it asks the connection to do and the
    state it goes on in when that succeeds. *)
From S2P Require Import Prelude Http2Protocol.
Import Protocol.

Module Reader.

(** ** Definitions *)

Definition kClientPreface : list Z :=
  map (fun a => Z.of_N (Ascii.N_of_ascii a)) (String.list_ascii_of_string "PRI * HTTP/2.0") ++ [CR; LF; CR; LF] ++
  map (fun a => Z.of_N (Ascii.N_of_ascii a)) (String.list_ascii_of_string "SM") ++ [CR; LF; CR; LF].

Definition kClientPrefaceSize : Z := 24.

Inductive ParsePhase := Preface | FrameHeaderPhase | FramePayload.

#[global] Instance ParsePhase_eq_dec : EqDecision ParsePhase.
Proof. solve_decision. Defined.

(** The variables of the loop; [unread] are the readable bytes of [read_buf]. *)
Record State := mkState {
  phase : ParsePhase;
  current_header : FrameHeader;
  payload_remaining : Z;
  payload_offset : Z;
  unread : list Z }.

Definition no_header : FrameHeader := mkFrameHeader 0 Data 0 0.

Definition start (expect_peer_preface : bool) : State :=
  mkState (if expect_peer_preface then Preface else FrameHeaderPhase) no_header 0 0 [].

(** [EvChunk h buf offset length] is the call
    [consume_incoming_frame_payload(h, buf, offset, length)]; [EvNone] a turn
    that only moves on. *)
Inductive Event :=
  | EvNeedMore | EvPreface | EvBadPreface | EvTooLarge | EvNone
  | EvChunk (h : FrameHeader) (buf : list Z) (offset length : Z).

Definition size (l : list Z) : Z := Z.of_nat (length l).

Definition read_next (max_frame_size : Z) (st : State) : Event * State :=
  match phase st with
  | Preface =>
      if size (unread st) <? kClientPrefaceSize then (EvNeedMore, st)
      else if negb (bool_decide (take (Z.to_nat kClientPrefaceSize) (unread st) = kClientPreface)) then (EvBadPreface, st)
      else (EvPreface, mkState FrameHeaderPhase (current_header st) (payload_remaining st) (payload_offset st)
                         (drop (Z.to_nat kClientPrefaceSize) (unread st)))
  | FrameHeaderPhase =>
      if size (unread st) <? kFrameHeaderSize then (EvNeedMore, st)
      else
        let h := parse_frame_header (unread st) in
        if max_frame_size <? length_ h then
          (EvTooLarge, mkState FrameHeaderPhase h (payload_remaining st) (payload_offset st) (unread st))
        else
          let rest := drop (Z.to_nat kFrameHeaderSize) (unread st) in
          if length_ h =? 0 then (EvChunk h rest 0 0, mkState FrameHeaderPhase h 0 0 rest)
          else (EvNone, mkState FramePayload h (length_ h) 0 rest)
  | FramePayload =>
      if size (unread st) =? 0 then (EvNeedMore, st)
      else
        let chunk_len := Z.min (size (unread st)) (payload_remaining st) in
        let left := payload_remaining st - chunk_len in
        (EvChunk (current_header st) (unread st) (payload_offset st) chunk_len,
         mkState (if left =? 0 then FrameHeaderPhase else FramePayload) (current_header st) left
           (payload_offset st + chunk_len) (drop (Z.to_nat chunk_len) (unread st)))
  end.

(** The turns until more input is needed or the connection has failed. *)
Definition stops (ev : Event) : bool :=
  match ev with EvNeedMore | EvBadPreface | EvTooLarge => true | _ => false end.

Fixpoint read_all (fuel : nat) (max_frame_size : Z) (st : State) : option (list Event * State) :=
  match fuel with
  | O => None
  | S fuel' =>
      let '(ev, st') := read_next max_frame_size st in
      if stops ev then Some ([ev], st')
      else match read_all fuel' max_frame_size st' with
           | Some (evs, st'') => Some (ev :: evs, st'')
           | None => None
           end
  end.

(** A read appends to the buffer.  Every turn but the last takes a byte out of it. *)
Definition with_input (st : State) (bytes : list Z) : State :=
  mkState (phase st) (current_header st) (payload_remaining st) (payload_offset st) (unread st ++ bytes).

Definition feed (max_frame_size : Z) (st : State) (bytes : list Z) : option (list Event * State) :=
  let st := with_input st bytes in read_all (S (length (unread st))) max_frame_size st.

Fixpoint feed_all (max_frame_size : Z) (st : State) (reads : list (list Z)) : option (list Event * State) :=
  match reads with
  | [] => Some ([], st)
  | bytes :: reads' =>
      match feed max_frame_size st bytes with
      | None => None
      | Some (evs, st') =>
          match feed_all max_frame_size st' reads' with
          | None => None
          | Some (evs', st'') => Some (evs ++ evs', st'')
          end
      end
  end.

(** The end of the stream ([read_into] yields 0): clean between two frames. *)
Definition clean_eof (st : State) : bool :=
  bool_decide (phase st = FrameHeaderPhase) && (size (unread st) =? 0).

(** ** Frames on the wire *)

Definition frame_bytes (f : FrameHeader * list Z) : list Z :=
  encode_http2_frame_header (length_ f.1) (type_ f.1) (flags f.1) (stream_id f.1) ++ f.2.

Definition frame_ok (max_frame_size : Z) (f : FrameHeader * list Z) : Prop :=
  length_ f.1 = size f.2 /\ length_ f.1 <= max_frame_size /\ 0 <= stream_id f.1 < 2 ^ 31 /\
  match type_ f.1 with UnknownType c => ~ (0 <= c <= 9) | _ => True end.

(** Put the pieces of frames together: a piece at offset 0 opens a frame, another
    one continues the open frame exactly where it stands. *)
Definition add_piece (acc : option (list (FrameHeader * list Z))) (ev : Event) : option (list (FrameHeader * list Z)) :=
  match acc with
  | None => None
  | Some fs =>
      match ev with
      | EvChunk h buf offset len =>
          let piece := take (Z.to_nat len) buf in
          if offset =? 0 then Some (fs ++ [(h, piece)])
          else match last fs with
               | Some (h', p) => if size p =? offset then Some (removelast fs ++ [(h', p ++ piece)]) else None
               | None => None
               end
      | _ => Some fs
      end
  end.

Definition assemble (evs : list Event) : option (list (FrameHeader * list Z)) := foldl add_piece (Some []) evs.

(** ** The loop ends *)

(** What holds of the loop variables between turns. *)
Definition state_ok (st : State) : Prop :=
  Forall (fun b => 0 <= b) (unread st) /\ (phase st = FramePayload -> 0 < payload_remaining st).

Lemma parse_frame_length_nonneg p : Forall (fun b => 0 <= b) p -> 0 <= parse_frame_length p.
Proof.
  intros Hp. assert (forall i, 0 <= p !z i) as Hi.
  { intros i. destruct (p !! Z.to_nat i) as [b|] eqn:E.
    - rewrite (list_lookup_total_correct _ _ _ E). exact (proj1 (Forall_lookup _ _) Hp _ _ E).
    - rewrite list_lookup_total_alt, E. done. }
  unfold parse_frame_length. rewrite !Z.lor_nonneg, !Z.shiftl_nonneg. auto.
Qed.

(** The length of the input decreases with every turn that does not end the loop. *)
Lemma read_next_progress max st :
  state_ok st ->
  state_ok (read_next max st).2 /\
  (stops (read_next max st).1 = false -> (length (unread (read_next max st).2) < length (unread st))%nat).
Proof.
  intros [Hb Hrem]. assert (forall ev, stops ev = true -> state_ok (ev, st).2 /\
    (stops (ev, st).1 = false -> (length (unread (ev, st).2) < length (unread st))%nat)) as Hstay.
  { intros ev Hev. cbn. rewrite Hev. by repeat split. }
  assert (forall n, Forall (fun b => 0 <= b) (drop n (unread st))) as Hdrop by (intros; by apply Forall_drop).
  unfold read_next, size, kClientPrefaceSize, kFrameHeaderSize. destruct (phase st) eqn:Hp.
  - destruct (Z.ltb_spec (Z.of_nat (length (unread st))) 24); [by apply Hstay|].
    destruct (negb _); [by apply Hstay|]. cbn [fst snd unread]. rewrite length_drop. split; [split; [apply Hdrop|done]|lia].
  - destruct (Z.ltb_spec (Z.of_nat (length (unread st))) 9); [by apply Hstay|].
    pose proof (parse_frame_length_nonneg _ Hb) as Hl. cbn [length_ parse_frame_header].
    destruct (max <? _); [by repeat split|].
    destruct (Z.eqb_spec (parse_frame_length (unread st)) 0); cbn [fst snd unread]; rewrite length_drop;
      (split; [split; [apply Hdrop|cbn; (done || lia)]|lia]).
  - specialize (Hrem eq_refl). destruct (Z.eqb_spec (Z.of_nat (length (unread st))) 0); [by apply Hstay|].
    cbn [fst snd unread]. rewrite length_drop. split; [split; [apply Hdrop|]|lia]. cbn.
    destruct (Z.eqb_spec (payload_remaining st - Z.min (Z.of_nat (length (unread st))) (payload_remaining st)) 0); [done|lia].
Qed.

(** [evs] ends with an event that stops the loop, the only such one. *)
Definition one_stop (evs : list Event) : Prop :=
  exists evs0 ev, evs = evs0 ++ [ev] /\ stops ev = true /\ Forall (fun ev => stops ev = false) evs0.

Lemma need_more_room max st : (read_next max st).1 = EvNeedMore -> size (unread (read_next max st).2) < kClientPrefaceSize.
Proof.
  unfold read_next, kClientPrefaceSize, kFrameHeaderSize. destruct (phase st).
  - destruct (Z.ltb_spec (size (unread st)) 24); [done|]. by destruct (negb _).
  - destruct (Z.ltb_spec (size (unread st)) 9); [cbn; lia|]. destruct (max <? _); [done|]. by destruct (_ =? 0).
  - destruct (Z.eqb_spec (size (unread st)) 0); [cbn; lia|done].
Qed.

Lemma read_all_total fuel max st :
  state_ok st -> (length (unread st) < fuel)%nat ->
  exists evs st', read_all fuel max st = Some (evs, st') /\ state_ok st' /\ one_stop evs /\
    (last evs = Some EvNeedMore -> size (unread st') < kClientPrefaceSize).
Proof.
  revert st. induction fuel as [|fuel IH]; intros st Hok Hf; [lia|]. cbn [read_all].
  destruct (read_next_progress max st Hok) as [Hok' Hlt]. pose proof (need_more_room max st) as Hroom.
  destruct (read_next max st) as [ev st1]. cbn [fst snd] in *. destruct (stops ev) eqn:Hs.
  - exists [ev], st1. split; [done|]. split; [done|]. split; [by exists [], ev|]. cbn. intros [= ->]. auto.
  - destruct (IH st1 Hok') as (evs & st' & -> & Hok2 & (evs0 & ev0 & -> & Hs0 & Hall) & Hr); [specialize (Hlt eq_refl); lia|].
    exists (ev :: evs0 ++ [ev0]), st'. split; [done|]. split; [done|].
    split; [exists (ev :: evs0), ev0; split; [done|]; split; [done|by constructor]|].
    intros Hlast. apply Hr. rewrite <-Hlast. change (ev :: evs0 ++ [ev0]) with ((ev :: evs0) ++ [ev0]). by rewrite !last_snoc.
Qed.

Lemma with_input_ok st bytes : state_ok st -> Forall (fun b => 0 <= b) bytes -> state_ok (with_input st bytes).
Proof. intros [H1 H2] Hb. split; [by apply Forall_app|done]. Qed.

(** Reading never gets stuck: whatever bytes arrive, in whatever pieces, the
    loop ends after each read, and unless the connection fails fewer bytes than
    the client preface stay in the buffer, so the next read has room. *)
Theorem reader_always_has_room (max_frame_size : Z) (server : bool) (reads : list (list Z)) (bytes : list Z) :
  Forall (Forall (fun b => 0 <= b)) (reads ++ [bytes]) ->
  exists evs st evs' st',
    feed_all max_frame_size (start server) reads = Some (evs, st) /\
    feed max_frame_size st bytes = Some (evs', st') /\ one_stop evs' /\
    (last evs' = Some EvNeedMore -> size (unread st') < kClientPrefaceSize).
Proof.
  intros Hb. apply Forall_app in Hb as [Hreads Hbytes]. apply Forall_inv in Hbytes.
  assert (forall st, state_ok st -> exists evs st', feed_all max_frame_size st reads = Some (evs, st') /\ state_ok st') as Hall.
  { clear Hbytes. induction Hreads as [|b reads Hb Hreads IH]; intros st Hok; [by eexists _, _|]. cbn [feed_all].
    destruct (read_all_total _ max_frame_size (with_input st b) (with_input_ok st b Hok Hb) (Nat.lt_succ_diag_r _))
      as (evs & st' & Hrun & Hok' & _). unfold feed. rewrite Hrun.
    destruct (IH st' Hok') as (evs' & st'' & -> & Hok''). by eexists _, _. }
  destruct (Hall (start server)) as (evs & st & Hrun & Hok); [by destruct server|].
  destruct (read_all_total _ max_frame_size (with_input st bytes) (with_input_ok st bytes Hok Hbytes) (Nat.lt_succ_diag_r _))
    as (evs' & st' & Hrun' & _ & Hone & Hroom).
  exists evs, st, evs', st'. done.
Qed.

Lemma reader_always_has_room_witness :
  exists evs st evs' st', feed_all 16384 (start false) [[0; 0]; [5]] = Some (evs, st) /\
    feed 16384 st [4; 0; 0; 0; 0] = Some (evs', st') /\ size (unread st') < kClientPrefaceSize.
Proof.
  destruct (reader_always_has_room 16384 false [[0; 0]; [5]] [4; 0; 0; 0; 0]) as (evs & st & evs' & st' & H1 & H2 & _ & H3);
    [by repeat constructor|].
  exists evs, st, evs', st'. split; [exact H1|]. split; [exact H2|]. apply H3.
  vm_compute in H1. injection H1 as <- <-. vm_compute in H2. by injection H2 as <- <-.
Defined.

(** ** Frames come out whole *)

(** Where the loop stands in a stream of frames: [acc] has been put together so
    far, [rem] is the input after what is in the buffer. *)
Definition at_point (frames acc : list (FrameHeader * list Z)) (rem : list Z) (st : State) : Prop :=
  match phase st with
  | Preface => acc = [] /\ unread st ++ rem = kClientPreface ++ concat (map frame_bytes frames)
  | FrameHeaderPhase =>
      exists rest, frames = acc ++ rest /\ unread st ++ rem = concat (map frame_bytes rest)
  | FramePayload =>
      exists done rest p1 p2, frames = done ++ (current_header st, p1 ++ p2) :: rest /\
        acc = done ++ (match p1 with [] => [] | _ => [(current_header st, p1)] end) /\
        unread st ++ rem = p2 ++ concat (map frame_bytes rest) /\
        payload_remaining st = size p2 /\ payload_offset st = size p1 /\ p2 <> []
  end.

Lemma app_prefix {A} (u r x y : list A) n :
  u ++ r = x ++ y -> length x = n -> (n <= length u)%nat -> take n u = x /\ drop n u ++ r = y.
Proof.
  intros E Hx Hn. split.
  - apply (f_equal (take n)) in E. by rewrite take_app_le, take_app_length' in E.
  - apply (f_equal (drop n)) in E. by rewrite drop_app_le, drop_app_length' in E.
Qed.

Lemma frame_bytes_length f : (9 <= length (frame_bytes f))%nat.
Proof. unfold frame_bytes. rewrite length_app. cbn. lia. Qed.

(** At a header: the whole of it is in the buffer. *)
Lemma header_point max frames acc rem st :
  max < 2 ^ 24 -> Forall (frame_ok max) frames ->
  phase st = FrameHeaderPhase -> at_point frames acc rem st -> 9 <= size (unread st) ->
  exists h p rest, frames = acc ++ (h, p) :: rest /\ frame_ok max (h, p) /\
    parse_frame_header (unread st) = h /\ drop 9 (unread st) ++ rem = p ++ concat (map frame_bytes rest).
Proof.
  intros Hmax Hok Hph Hat H9. unfold at_point in Hat. rewrite Hph in Hat. destruct Hat as (rest & -> & E).
  unfold size in H9. destruct rest as [|[h p] rest].
  { cbn in E. apply (f_equal length) in E. rewrite length_app in E. cbn in E. lia. }
  exists h, p, rest. split; [done|]. apply Forall_app in Hok as [_ Hok]. apply Forall_inv in Hok as Hf.
  split; [done|]. cbn [map concat] in E. unfold frame_bytes in E at 1. cbn [fst snd] in E. rewrite <-app_assoc in E.
  destruct (app_prefix _ _ _ _ 9 E eq_refl ltac:(lia)) as [Hhead Hrest]. split; [|done].
  destruct Hf as (Hlen & Hle & Hid & Hty). cbn in *. unfold size in Hlen.
  rewrite <-(take_drop 9 (unread st)), Hhead, parse_encode; [by destruct h|lia|lia|done].
Qed.

(** A turn keeps the loop in place. *)
Lemma read_next_point max frames acc rem st :
  max < 2 ^ 24 -> Forall (frame_ok max) frames -> at_point frames acc rem st ->
  exists acc', add_piece (Some acc) (read_next max st).1 = Some acc' /\
    at_point frames acc' rem (read_next max st).2 /\
    ((read_next max st).1 = EvNeedMore \/ stops (read_next max st).1 = false).
Proof.
  intros Hmax Hok Hat. unfold read_next. destruct (phase st) eqn:Hph.
  - unfold at_point in Hat. rewrite Hph in Hat. destruct Hat as [-> E].
    destruct (Z.ltb_spec (size (unread st)) kClientPrefaceSize) as [Hlt|Hge].
    { exists []. cbn. unfold at_point. rewrite Hph. auto. }
    destruct (app_prefix _ _ _ _ (Z.to_nat kClientPrefaceSize) E eq_refl) as [Hhead Hrest].
    { unfold size, kClientPrefaceSize in *. lia. }
    rewrite bool_decide_true by done. cbn [negb fst snd]. exists []. split; [done|]. split; [|by right].
    unfold at_point. cbn [phase unread]. by exists frames.
  - destruct (Z.ltb_spec (size (unread st)) kFrameHeaderSize) as [Hlt|Hge].
    { exists acc. cbn. auto. }
    destruct (header_point max frames acc rem st Hmax Hok Hph Hat Hge) as (h & p & rest & -> & (Hlen & Hle & _) & -> & E).
    cbn [fst snd] in *. rewrite (proj2 (Z.ltb_ge max (length_ h))) by done.
    destruct (Z.eqb_spec (length_ h) 0) as [Hz|Hnz].
    + destruct p as [|b p]; [|unfold size in Hlen; cbn in Hlen; lia]. exists (acc ++ [(h, [])]). cbn [fst snd].
      split; [done|]. split; [|by right]. unfold at_point. cbn [phase unread]. exists rest. by rewrite <-app_assoc.
    + exists acc. cbn [fst snd]. split; [done|]. split; [|by right]. unfold at_point.
      cbn [phase unread current_header payload_remaining payload_offset].
      exists acc, rest, [], p. rewrite app_nil_r. split_and!; try done. intros ->. done.
  - unfold at_point in Hat. rewrite Hph in Hat. destruct Hat as (done & rest & p1 & p2 & -> & -> & E & Hrem & Hoff & Hne).
    destruct (Z.eqb_spec (size (unread st)) 0) as [Hz|Hnz].
    { eexists. cbn [fst snd add_piece]. split; [done|]. split; [|by left]. unfold at_point. rewrite Hph.
      exists done, rest, p1, p2. done. }
    set (n := Z.min (size (unread st)) (payload_remaining st)). cbn [fst snd].
    assert (0 < size p2) as Hp2 by (destruct p2; [done|unfold size; cbn; lia]).
    assert (0 < n <= size p2 /\ n <= size (unread st)) as [Hn Hnu] by (unfold size in *; lia).
    assert (take (Z.to_nat n) (unread st) = take (Z.to_nat n) p2) as Htake.
    { apply (f_equal (take (Z.to_nat n))) in E. unfold size in *. by rewrite !take_app_le in E by lia. }
    assert (drop (Z.to_nat n) (unread st) ++ rem = drop (Z.to_nat n) p2 ++ concat (map frame_bytes rest)) as Hdrop.
    { apply (f_equal (drop (Z.to_nat n))) in E. unfold size in *. by rewrite !drop_app_le in E by lia. }
    set (q := take (Z.to_nat n) p2) in *.
    assert (size q = n) as Hq by (unfold size, q in *; rewrite length_take; lia).
    exists (done ++ [(current_header st, p1 ++ q)]).
    split; [|split; [|by right]].
    + unfold add_piece. rewrite Hoff, Htake. destruct p1 as [|b p1]; cbn [app].
      * change (size [] =? 0) with true. cbn iota. by rewrite app_nil_r.
      * rewrite (proj2 (Z.eqb_neq (size (b :: p1)) 0)) by (unfold size; cbn; lia).
        rewrite last_snoc, removelast_last, Z.eqb_refl. done.
    + unfold at_point. cbn [phase unread current_header payload_remaining payload_offset].
      rewrite Hrem. destruct (Z.eqb_spec (size p2 - n) 0) as [Hlast|Hmore].
      * assert (q = p2) as -> by (unfold q, size in *; apply take_ge; lia).
        exists rest. rewrite <-app_assoc. split; [done|]. rewrite Hdrop, drop_ge by (unfold size in *; lia). done.
      * exists done, rest, (p1 ++ q), (drop (Z.to_nat n) p2). unfold q. rewrite <-app_assoc, take_drop.
        split; [done|]. split.
        { destruct (p1 ++ take (Z.to_nat n) p2) eqn:Enil; [|done].
          apply app_nil in Enil as [_ Enil]. unfold q in Hq. rewrite Enil in Hq. unfold size in Hq. cbn in Hq. lia. }
        split; [done|]. unfold size in *. rewrite length_drop, length_app. fold q. split_and!; try lia.
        intros Hd. apply (f_equal length) in Hd. rewrite length_drop in Hd. cbn in Hd. lia.
Qed.

(** A read, then all reads. *)
Lemma need_more_same max st : (read_next max st).1 = EvNeedMore -> (read_next max st).2 = st.
Proof. unfold read_next. destruct (phase st); repeat case_match; done. Qed.

Lemma read_all_point fuel max frames acc rem st evs st' :
  max < 2 ^ 24 -> Forall (frame_ok max) frames -> at_point frames acc rem st ->
  read_all fuel max st = Some (evs, st') ->
  exists acc', foldl add_piece (Some acc) evs = Some acc' /\ at_point frames acc' rem st' /\
    (read_next max st').1 = EvNeedMore.
Proof.
  intros Hmax Hok. revert acc st evs. induction fuel as [|fuel IH]; intros acc st evs Hat Hrun; [done|].
  cbn [read_all] in Hrun. destruct (read_next_point max frames acc rem st Hmax Hok Hat) as (acc1 & Hadd & Hat1 & Hev).
  pose proof (need_more_same max st) as Hsame.
  destruct (read_next max st) as [ev st1] eqn:Hnext. cbn [fst snd] in *. destruct (stops ev) eqn:Hs.
  - destruct Hev as [->|Hev]; [|done]. injection Hrun as <- <-. exists acc1. cbn [foldl]. rewrite Hadd.
    split; [done|]. split; [done|]. rewrite (Hsame eq_refl), Hnext. done.
  - destruct (read_all fuel max st1) as [[evs1 st2]|] eqn:Hrec; [|done]. injection Hrun as <- <-.
    destruct (IH acc1 st1 evs1 Hat1 Hrec) as (acc2 & Hfold & Hat2 & Hnm).
    exists acc2. cbn [foldl]. by rewrite Hadd.
Qed.

Lemma at_point_shift frames acc b rem st : at_point frames acc (b ++ rem) st -> at_point frames acc rem (with_input st b).
Proof. unfold at_point. cbn. destruct (phase st); by setoid_rewrite <-app_assoc. Qed.

Lemma feed_all_point max frames reads acc st :
  max < 2 ^ 24 -> Forall (frame_ok max) frames -> at_point frames acc (concat reads) st ->
  Forall (Forall (fun b => 0 <= b)) reads -> state_ok st -> (read_next max st).1 = EvNeedMore ->
  exists evs acc' st', feed_all max st reads = Some (evs, st') /\ foldl add_piece (Some acc) evs = Some acc' /\
    at_point frames acc' [] st' /\ (read_next max st').1 = EvNeedMore.
Proof.
  intros Hmax Hok. revert acc st. induction reads as [|b reads IH]; intros acc st Hat Hb Hst Hnm.
  { exists [], acc, st. done. }
  apply Forall_cons in Hb as [Hb Hbs]. cbn [feed_all concat] in *.
  destruct (read_all_total _ max (with_input st b) (with_input_ok st b Hst Hb) (Nat.lt_succ_diag_r _))
    as (evs & st1 & Hrun & Hst1 & _). unfold feed. rewrite Hrun.
  destruct (read_all_point _ max frames acc (concat reads) _ evs st1 Hmax Hok (at_point_shift _ _ _ _ _ Hat) Hrun)
    as (acc1 & Hfold & Hat1 & Hnm1).
  destruct (IH acc1 st1 Hat1 Hbs Hst1 Hnm1) as (evs' & acc2 & st2 & -> & Hfold2 & Hat2 & Hnm2).
  exists (evs ++ evs'), acc2, st2. split; [done|]. by rewrite foldl_app, Hfold.
Qed.

(** With no input left and none in sight every frame has been delivered. *)
Lemma at_point_end max frames acc st :
  at_point frames acc [] st -> (read_next max st).1 = EvNeedMore -> acc = frames /\ clean_eof st = true.
Proof.
  unfold at_point, read_next, clean_eof. rewrite app_nil_r. destruct (phase st).
  - intros [_ ->]. unfold size. rewrite length_app. change (length kClientPreface) with 24%nat.
    unfold kClientPrefaceSize. destruct (Z.ltb_spec (Z.of_nat (24 + length (concat (map frame_bytes frames)))) 24); [lia|].
    rewrite take_app_length' by done. by rewrite bool_decide_true.
  - intros (rest & -> & Hu). rewrite Hu. destruct rest as [|f rest]; [by rewrite app_nil_r|].
    pose proof (frame_bytes_length f). unfold size, kFrameHeaderSize. cbn [map concat]. rewrite length_app.
    destruct (Z.ltb_spec (Z.of_nat (length (frame_bytes f) + length (concat (map frame_bytes rest)))) 9); [lia|].
    by destruct (max <? _), (_ =? 0).
  - intros (? & rest & p1 & p2 & _ & _ & Hu & _ & _ & Hne). rewrite Hu. unfold size. rewrite length_app.
    destruct p2; [done|]. cbn [length Nat.add]. destruct (Z.eqb_spec (Z.of_nat (S (length p2 + length (concat (map frame_bytes rest))))) 0); [lia|done].
Qed.

(** C36. Frames come out whole: a stream of frames (after the client preface, on a
    server), cut into reads anywhere, is delivered piece by piece so that the
    pieces put together are exactly these frames, in order, each piece at the
    offset it belongs to; the loop then stands between two frames. *)
Theorem frames_reassembled (max_frame_size : Z) (server : bool) (frames : list (FrameHeader * list Z))
    (reads : list (list Z)) :
  max_frame_size < 2 ^ 24 -> Forall (frame_ok max_frame_size) frames ->
  concat reads = (if server then kClientPreface else []) ++ concat (map frame_bytes frames) ->
  Forall (Forall (fun b => 0 <= b)) reads ->
  exists evs st, feed_all max_frame_size (start server) reads = Some (evs, st) /\
    assemble evs = Some frames /\ clean_eof st = true.
Proof.
  intros Hmax Hok Hcat Hb.
  assert (at_point frames [] (concat reads) (start server)) as Hat.
  { rewrite Hcat. destruct server; [done|]. by exists frames. }
  destruct (feed_all_point max_frame_size frames reads [] (start server) Hmax Hok Hat Hb)
    as (evs & acc & st & Hrun & Hfold & Hend & Hnm); [by destruct server|by destruct server|].
  destruct (at_point_end _ _ _ _ Hend Hnm) as [-> Hclean]. by exists evs, st.
Qed.

(** A [PING] and an empty [SETTINGS], read byte by byte in places. *)
Lemma frames_reassembled_witness :
  let ping := (mkFrameHeader 8 Ping 0 0, [1; 2; 3; 4; 5; 6; 7; 8]) in
  let settings := (mkFrameHeader 0 Settings 1 0, []) in
  exists evs st,
    feed_all 16384 (start false) [take 3 (frame_bytes ping); drop 3 (take 11 (frame_bytes ping));
      drop 11 (frame_bytes ping) ++ frame_bytes settings] = Some (evs, st) /\
    assemble evs = Some [ping; settings].
Proof.
  intros ping settings.
  destruct (frames_reassembled 16384 false [ping; settings]
    [take 3 (frame_bytes ping); drop 3 (take 11 (frame_bytes ping)); drop 11 (frame_bytes ping) ++ frame_bytes settings])
    as (evs & st & H1 & H2 & _).
  - lia.
  - repeat constructor; cbn; lia.
  - reflexivity.
  - vm_compute. repeat (apply Forall_cons; split); try apply Forall_nil; try done; repeat (apply Forall_cons; split); done.
  - exists evs, st. split; [exact H1|exact H2].
Defined.

End Reader.
