(* ===== verification/Http2Connection.v ===== *)
(** * Receiving on an HTTP/2 connection, its start and its shutdown
    ([src/http/Http2Connection.cpp])

    The handlers of incoming frames take the readable bytes [buf] of the read
    buffer, of which the first [length] belong to the frame, at [offset] in its
    payload.  [run_event] connects them to the turns of the parse loop
    ([Http2Reader]). *)
From S2P Require Import Prelude IoError Http2Protocol Http2StreamState Http2Sending Http2SendQueue StreamTable Http2State.
From S2P Require Import Http2Stream Http2Reader.
Import IoError SendPayload Pending SendEntry Protocol Conn Stream.

Module Connection.

Section Handlers.
Context {T : Type} `{StreamIndex T}.
Local Abbreviation M := (@M T).

(** ** Creating streams *)

Definition can_accept_peer_stream (c : Conn T) (stream_id : Z) : bool :=
  bool_decide (close_state_ (life c) = Open) && negb (stream_id =? 0) && is_peer_stream_id c stream_id &&
  is_next_peer_stream_id c stream_id && (peer_active_stream_count_ (ids c) <? max_peer_concurrent_streams (options_ c)).

Definition can_create_local_stream (c : Conn T) (stream_id : Z) : bool :=
  bool_decide (close_state_ (life c) = Open) && run_started_ (life c) && local_connection_preface_sent_ (life c) &&
  negb (stream_id =? 0) && negb (peer_sent_goaway_ (life c)) && is_local_stream_id c stream_id &&
  is_next_local_stream_id c stream_id &&
  (local_push_stream_count_ (ids c) <? peer_advertised_max_concurrent_streams_ (peer c)).

(** The body [create_peer_stream] and [create_local_stream] share: the stream is
    put at the head of the owned list and into the table. *)
Definition create_stream (stream_id : Z) : M (option nat) :=
  n ← gets (fun c => index_size (streams_ (mem c)));
  ok ← allocate;
  if negb ok then mret None
  else
    c ← gets (fun c => c);
    let a := next_stream (mem c) in
    let s := mkStream stream_id StreamState.Idle true true (peer_initial_stream_send_window_ (peer c)) [] [] true in
    let '(inserted, t) := index_insert (streams_ (mem c)) stream_id a in
    modify_mem (fun m => set_next_stream (S a) m) ;;
    if negb inserted then mret None
    else
      modify_mem (fun m => set_streams_ t (set_owned_streams (a :: owned_streams m)
                             (set_stream_store (<[a := s]> (stream_store m)) m))) ;;
      when (n =? 0) wg_add ;;
      mret (Some a).

Definition create_peer_stream (stream_id : Z) : M (option nat) :=
  c ← gets (fun c => c);
  if negb (can_accept_peer_stream c stream_id) || bool_decide (is_Some (find_stream c stream_id)) then mret None
  else
    r ← create_stream stream_id;
    match r with
    | None => mret None
    | Some a =>
        modify_ids (fun i => set_peer_active_stream_count_ (peer_active_stream_count_ i + 1)
                               (set_last_peer_stream_id_ stream_id i)) ;;
        mret (Some a)
    end.

Definition create_local_stream (stream_id : Z) : M (option nat) :=
  c ← gets (fun c => c);
  if negb (can_create_local_stream c stream_id) || bool_decide (is_Some (find_stream c stream_id)) then mret None
  else
    r ← create_stream stream_id;
    match r with
    | None => mret None
    | Some a => modify_ids (set_last_local_stream_id_ stream_id) ;; mret (Some a)
    end.

(** ** [DATA], [HEADERS] and [CONTINUATION] *)

(** Which part of the piece [offset, offset + length) of a frame is content, when
    the content is the bytes from [prefix] on, without the padding. *)
Record Delivery := mkDelivery {
  chunk_begin : Z; deliver_len : Z; content_offset : Z; reaches_end : bool }.

Definition delivery (frame_length prefix pad offset length : Z) : Delivery :=
  let logical_total := u64 (frame_length - prefix - pad) in
  let frame_end := offset + length in
  let content_end := prefix + logical_total in
  let deliver_begin := Z.max offset prefix in
  let deliver_end := Z.min frame_end content_end in
  mkDelivery (if offset <? deliver_begin then deliver_begin - offset else 0)
    (if deliver_begin <? deliver_end then deliver_end - deliver_begin else 0)
    (if prefix <? deliver_begin then deliver_begin - prefix else 0)
    (content_end <=? frame_end).

(** [buf.retain_slice(begin, len)]: its assertions; the slice itself needs no
    memory. *)
Definition retain_slice_ok (buf : list Z) (begin len : Z) : bool :=
  (begin <=? Z.of_nat (length buf)) && (len <=? Z.of_nat (length buf) - begin).

Definition slice (buf : list Z) (d : Delivery) : list Z := take (Z.to_nat (deliver_len d)) (drop (Z.to_nat (chunk_begin d)) buf).

(** The buffer handed on with [deliver_len]: the slice, or all of it if the slice
    is empty. *)
Definition slice_or_all (buf : list Z) (d : Delivery) : list Z := if deliver_len d =? 0 then buf else slice buf d.

Definition read_pad_length (fl : Z) (buf : list Z) : M unit :=
  if has_flag fl kFlagPadded then
    match buf with
    | [] => crash
    | b :: _ => modify_inb (set_incoming_pad_length_ b)
    end
  else mret tt.

Definition data_prefix (fl : Z) : Z := if has_flag fl kFlagPadded then 1 else 0.
Definition headers_prefix (fl : Z) : Z :=
  (if has_flag fl kFlagPadded then 1 else 0) + (if has_flag fl kFlagPriority then 5 else 0).

Definition data_first (fhr : FrameHeader) (buf : list Z) : M IoErr :=
  modify_inb (set_incoming_pad_length_ 0) ;;
  if stream_id fhr =? 0 then mret Invalid
  else
    read_pad_length (flags fhr) buf ;;
    i ← gets inb;
    if has_flag (flags fhr) kFlagPadded && (length_ fhr <? 1 + incoming_pad_length_ i) then mret Invalid
    else mret None_.

Definition handle_data_payload (fhr : FrameHeader) (buf : list Z) (offset length : Z) : M IoErr :=
  err ← (if offset =? 0 then data_first fhr buf else mret None_);
  if negb (bool_decide (err = None_)) then mret err
  else
    c ← gets (fun c => c);
    match find_stream c (stream_id fhr) with
    | None => mret Invalid
    | Some a =>
        let d := delivery (length_ fhr) (data_prefix (flags fhr)) (incoming_pad_length_ (inb c)) offset length in
        let end_stream := has_flag (flags fhr) kFlagEndStream && reaches_end d in
        if negb (deliver_len d =? 0) || end_stream then
          fiber_assert (retain_slice_ok buf (chunk_begin d) (deliver_len d)) ;;
          err ← on_data_recv a (slice_or_all buf d) (content_offset d) (deliver_len d) end_stream;
          if negb (bool_decide (err = None_)) then
            handle_stream_error (stream_id fhr) StreamClosed err ;; mret None_
          else maybe_destroy_stream a ;; mret None_
        else mret None_
    end.

Definition headers_first (fhr : FrameHeader) (buf : list Z) : M IoErr :=
  modify_inb (set_incoming_pad_length_ 0) ;;
  if stream_id fhr =? 0 then mret Invalid
  else
    read_pad_length (flags fhr) buf ;;
    c ← gets (fun c => c);
    if length_ fhr <? headers_prefix (flags fhr) + incoming_pad_length_ (inb c) then mret Invalid
    else if expecting_continuation_ (inb c) then mret Invalid
    else if is_idle_stream c (stream_id fhr) then
      created ← create_peer_stream (stream_id fhr);
      mret (match created with None => Invalid | Some _ => None_ end)
    else mret None_.

Definition end_header_block : M unit :=
  modify_inb (fun i => set_inbound_header_stream_id_ 0 (set_inbound_header_block_bytes_ 0
                         (set_inbound_header_end_stream_ false i))).

Definition handle_headers_payload (fhr : FrameHeader) (buf : list Z) (offset length : Z) : M IoErr :=
  err ← (if offset =? 0 then headers_first fhr buf else mret None_);
  if negb (bool_decide (err = None_)) then mret err
  else
    c ← gets (fun c => c);
    match find_stream c (stream_id fhr) with
    | None => mret Invalid
    | Some a =>
        let pad := incoming_pad_length_ (inb c) in
        let prefix := headers_prefix (flags fhr) in
        let d := delivery (length_ fhr) prefix pad offset length in
        let end_headers := has_flag (flags fhr) kFlagEndHeaders && reaches_end d in
        let end_stream := has_flag (flags fhr) kFlagEndStream && end_headers in
        when (offset =? 0) (modify_inb (fun i =>
          set_inbound_header_stream_id_ (stream_id fhr)
            (set_inbound_header_end_stream_ (has_flag (flags fhr) kFlagEndStream) i))) ;;
        err ← (if negb (deliver_len d =? 0) || end_headers then
                 fiber_assert (retain_slice_ok buf (chunk_begin d) (deliver_len d)) ;;
                 err ← on_header_recv a (slice_or_all buf d) (inbound_header_block_bytes_ (inb c) + content_offset d)
                          (deliver_len d) end_headers end_stream;
                 (if negb (bool_decide (err = None_)) then handle_stream_error (stream_id fhr) ProtocolError err
                  else maybe_destroy_stream a) ;;
                 mret err
               else mret None_);
        if negb (bool_decide (err = None_)) then mret None_
        else
          when (reaches_end d)
            (modify_inb (fun i => set_inbound_header_block_bytes_
                (inbound_header_block_bytes_ i + u64 (length_ fhr - prefix - pad))
                (set_expecting_continuation_ (negb (has_flag (flags fhr) kFlagEndHeaders)) i)) ;;
             when (has_flag (flags fhr) kFlagEndHeaders) end_header_block) ;;
          mret None_
    end.

Definition handle_continuation_payload (fhr : FrameHeader) (buf : list Z) (offset length : Z) : M IoErr :=
  c ← gets (fun c => c);
  if (offset =? 0) && (negb (expecting_continuation_ (inb c)) ||
                       negb (stream_id fhr =? inbound_header_stream_id_ (inb c))) then mret Invalid
  else
    match find_stream c (stream_id fhr) with
    | None => mret Invalid
    | Some a =>
        let complete := length_ fhr <=? offset + length in
        let end_headers := has_flag (flags fhr) kFlagEndHeaders && complete in
        err ← (if negb (length =? 0) || end_headers then
                 fiber_assert (retain_slice_ok buf 0 length) ;;
                 err ← on_header_recv a buf (inbound_header_block_bytes_ (inb c) + offset) length end_headers
                          (end_headers && inbound_header_end_stream_ (inb c));
                 (if negb (bool_decide (err = None_)) then handle_stream_error (stream_id fhr) ProtocolError err
                  else maybe_destroy_stream a) ;;
                 mret err
               else mret None_);
        if negb (bool_decide (err = None_)) then mret None_
        else
          when complete
            (modify_inb (fun i => set_inbound_header_block_bytes_ (inbound_header_block_bytes_ i + length_ fhr) i) ;;
             when (has_flag (flags fhr) kFlagEndHeaders) (modify_inb (set_expecting_continuation_ false) ;; end_header_block)) ;;
          mret None_
    end.

(** ** [SETTINGS] *)

Definition kSettingsHeaderTableSize : Z := 0x1.
Definition kSettingsEnablePush : Z := 0x2.
Definition kSettingsMaxConcurrentStreams : Z := 0x3.
Definition kSettingsInitialWindowSize : Z := 0x4.
Definition kSettingsMaxFrameSize : Z := 0x5.
Definition kSettingsMaxHeaderListSize : Z := 0x6.

(** The two passes over the streams; the first stops at the first window that
    would leave the range. *)
Fixpoint check_windows (l : list nat) (delta : Z) : M IoErr :=
  match l with
  | [] => mret None_
  | a :: l' =>
      s ← get_stream a;
      let next_window := send_window_ s + delta in
      if (kMaxFlowControlWindow <? next_window) || (next_window <? - kMaxFlowControlWindow - 1) then mret Invalid
      else check_windows l' delta
  end.

Definition apply_peer_initial_stream_window (value : Z) : M IoErr :=
  if kMaxFlowControlWindow <? value then mret Invalid
  else
    c ← gets (fun c => c);
    let delta := value - peer_initial_stream_send_window_ (peer c) in
    err ← (if negb (delta =? 0) then
             err ← check_windows (index_all (streams_ (mem c))) delta;
             if negb (bool_decide (err = None_)) then mret err
             else for_each (index_all (streams_ (mem c))) (fun a => update_send_window a (to_signed 32 delta)) ;; mret None_
           else mret None_);
    if negb (bool_decide (err = None_)) then mret err
    else modify_peer (set_peer_initial_stream_send_window_ value) ;; mret None_.

Definition apply_settings_parameter (id value : Z) : M IoErr :=
  if id =? kSettingsHeaderTableSize then modify_peer (set_peer_header_table_size_ value) ;; mret None_
  else if id =? kSettingsEnablePush then
    if 1 <? value then mret Invalid
    else modify_peer (set_peer_enable_push_ (negb (value =? 0))) ;; mret None_
  else if id =? kSettingsMaxConcurrentStreams then
    modify_peer (set_peer_advertised_max_concurrent_streams_ value) ;; mret None_
  else if id =? kSettingsInitialWindowSize then apply_peer_initial_stream_window value
  else if id =? kSettingsMaxFrameSize then
    if (value <? kDefaultMaxFrameSize) || (kMaxFrameSizeLimit <? value) then mret Invalid
    else modify_peer (set_peer_max_outbound_frame_size_ value) ;; mret None_
  else if id =? kSettingsMaxHeaderListSize then modify_peer (set_peer_max_header_list_size_ value) ;; mret None_
  else mret None_.

(** [memcpy(scratch + used, pos, n)], within the array. *)
Definition write_at (used : Z) (bytes scratch : list Z) : option (list Z) :=
  if used + Z.of_nat (length bytes) <=? Z.of_nat (length scratch) then
    Some (take (Z.to_nat used) scratch ++ bytes ++ drop (Z.to_nat used + length bytes) scratch)
  else None.

(** The loop over the piece of a [SETTINGS] payload: [pos] is what is left of it;
    each turn takes at least one byte. *)
Fixpoint settings_loop (fuel : nat) (pos : list Z) : M IoErr :=
  match fuel with
  | O => crash
  | S fuel' =>
      if bool_decide (pos = []) then mret None_
      else
        i ← gets inb;
        let used := settings_scratch_used_ i in
        let n := Z.min (Z.of_nat (length pos)) (kSettingsParameterSize - used) in
        match write_at used (take (Z.to_nat n) pos) (settings_scratch_ i) with
        | None => crash
        | Some scratch =>
            modify_inb (fun i => set_settings_scratch_used_ (used + n) (set_settings_scratch_ scratch i)) ;;
            if used + n =? kSettingsParameterSize then
              err ← apply_settings_parameter (parse_u16 scratch) (parse_u32 (drop 2 scratch));
              if negb (bool_decide (err = None_)) then mret err
              else modify_inb (set_settings_scratch_used_ 0) ;; settings_loop fuel' (drop (Z.to_nat n) pos)
            else settings_loop fuel' (drop (Z.to_nat n) pos)
        end
  end.

Definition handle_settings_payload (fhr : FrameHeader) (buf : list Z) (offset length_ : Z) : M IoErr :=
  let ack := has_flag (flags fhr) kFlagSettingsAck in
  err ← (if offset =? 0 then
           modify_inb (set_settings_scratch_used_ 0) ;;
           (if negb (stream_id fhr =? 0) then mret (Some Invalid)
            else if ack then
              if negb (Protocol.length_ fhr =? 0) then mret (Some Invalid)
              else modify_life (set_local_settings_acknowledged_ true) ;; mret (Some None_)
            else if negb (Protocol.length_ fhr mod kSettingsParameterSize =? 0) then mret (Some Invalid)
            else mret None)
         else mret None);
  match err with
  | Some err => mret err
  | None =>
      if ack then mret None_
      else
        let pos := take (Z.to_nat length_) buf in
        err ← settings_loop (S (length pos)) pos;
        if negb (bool_decide (err = None_)) then mret err
        else if offset + length_ =? Protocol.length_ fhr then
          used ← gets (fun c => settings_scratch_used_ (inb c));
          if negb (used =? 0) then mret Invalid else send_settings_ack
        else mret None_
  end.

(** ** The fixed-size control frames *)

(** Collect [length] bytes in [control_payload_scratch_]. *)
Definition collect (buf : list Z) (n : Z) : M unit :=
  if n =? 0 then mret tt
  else
    i ← gets inb;
    match write_at (control_payload_used_ i) (take (Z.to_nat n) buf) (control_payload_scratch_ i) with
    | None => crash
    | Some scratch =>
        modify_inb (fun i => set_control_payload_used_ (control_payload_used_ i + n) (set_control_payload_scratch_ scratch i))
    end.

(** The common shape: check at offset 0, collect, act when the frame is complete. *)
Definition control_frame (fhr : FrameHeader) (buf : list Z) (offset length_ : Z) (valid : bool)
    (act : list Z -> M IoErr) : M IoErr :=
  ok ← (if offset =? 0 then modify_inb (set_control_payload_used_ 0) ;; mret valid else mret true);
  if negb ok then mret Invalid
  else
    collect buf length_ ;;
    if negb (offset + length_ =? Protocol.length_ fhr) then mret None_
    else scratch ← gets (fun c => control_payload_scratch_ (inb c)); act scratch.

Definition handle_ping_payload (fhr : FrameHeader) (buf : list Z) (offset length_ : Z) : M IoErr :=
  control_frame fhr buf offset length_ ((stream_id fhr =? 0) && (Protocol.length_ fhr =? 8)) (fun scratch =>
    if has_flag (flags fhr) kFlagAck then mret None_ else send_ping_ack scratch).

(** *** [WINDOW_UPDATE] *)

(** [next_of]: what follows [a] in the wait list. *)
Fixpoint next_of (a : nat) (l : list nat) : option nat :=
  match l with
  | [] => None
  | x :: l' => if Nat.eqb x a then head l' else next_of a l'
  end.

(** One pass over the waiting streams; whether one of them was scheduled. *)
Fixpoint drain_pass (fuel : nat) (cur : option nat) (progress : bool) : M bool :=
  match cur, fuel with
  | None, _ => mret progress
  | Some _, O => crash
  | Some a, S fuel' =>
      next ← gets (fun c => next_of a (conn_wait_streams_ (mem c)));
      result ← schedule_pending a;
      c ← gets (fun c => c);
      let progress := progress || bool_decide (result = Scheduled_) in
      if stop_sending_requested_ (life c) || (conn_send_window_ (peer c) <=? 0) then mret progress
      else drain_pass fuel' next progress
  end.

Fixpoint drain_loop (fuel : nat) : M unit :=
  match fuel with
  | O => crash
  | S fuel' =>
      waiting ← gets (fun c => conn_wait_streams_ (mem c));
      progress ← drain_pass (length waiting) (head waiting) false;
      c ← gets (fun c => c);
      if negb progress || (conn_send_window_ (peer c) <=? 0) || bool_decide (conn_wait_streams_ (mem c) = []) then mret tt
      else drain_loop fuel'
  end.

(** A pass with progress sends at least one byte of the connection window. *)
Definition drain_conn_blocked_streams : M unit :=
  stop ← gets (fun c => stop_sending_requested_ (life c));
  if (stop : bool) then mret tt
  else w ← gets (fun c => conn_send_window_ (peer c)); drain_loop (S (S (Z.to_nat w))).

Definition update_connection_send_window (delta : Z) : M unit :=
  modify_peer (fun p => set_conn_send_window_ (conn_send_window_ p + delta) p) ;;
  drain_conn_blocked_streams.

Definition window_update_received (sid increment : Z) : M IoErr :=
  c ← gets (fun c => c);
  if increment =? 0 then
    if sid =? 0 then mret Invalid else handle_stream_error sid ProtocolError Invalid ;; mret None_
  else if sid =? 0 then
    if kMaxFlowControlWindow <? conn_send_window_ (peer c) + increment then mret Invalid
    else update_connection_send_window increment ;; mret None_
  else
    match find_stream c sid with
    | None => mret (if is_idle_stream c sid then Invalid else None_)
    | Some a =>
        s ← get_stream a;
        if kMaxFlowControlWindow <? send_window_ s + increment then
          handle_stream_error sid FlowControlError Invalid ;; mret None_
        else update_send_window a increment ;; mret None_
    end.

Definition handle_window_update_payload (fhr : FrameHeader) (buf : list Z) (offset length_ : Z) : M IoErr :=
  control_frame fhr buf offset length_ (Protocol.length_ fhr =? 4) (fun scratch =>
    window_update_received (stream_id fhr) (Z.land (parse_u32 scratch) 0x7fffffff)).

(** *** [RST_STREAM] *)

Definition rst_received (sid : Z) : M IoErr :=
  c ← gets (fun c => c);
  match find_stream c sid with
  | None => mret (if is_idle_stream c sid then Invalid else None_)
  | Some a => on_remote_rst a ;; maybe_destroy_stream a ;; mret None_
  end.

Definition handle_rst_stream_payload (fhr : FrameHeader) (buf : list Z) (offset length_ : Z) : M IoErr :=
  control_frame fhr buf offset length_ (negb (stream_id fhr =? 0) && (Protocol.length_ fhr =? 4)) (fun _ =>
    rst_received (stream_id fhr)).

(** *** [GOAWAY] *)

(** Close and destroy the streams of a snapshot of the table. *)
Definition close_streams (l : list nat) (result : IoErr) : M unit :=
  for_each l (fun a => close a result ;; maybe_destroy_stream a).

(** A local stream the peer will not process; a dangling pointer is kept. *)
Definition after_goaway (c : Conn T) (last_stream_id : Z) (a : nat) : bool :=
  match stream_store (mem c) !! a with
  | Some s => is_local_stream_id c (stream_id_ s) && (last_stream_id <? stream_id_ s)
  | None => true
  end.

Definition close_streams_after_goaway (last_stream_id : Z) : M unit :=
  ok ← allocate;
  if negb ok then abort_connection NoMem
  else
    c ← gets (fun c => c);
    close_streams (filter (fun a => after_goaway c last_stream_id a = true) (index_all (streams_ (mem c)))) Canceled.

Definition close_all_streams (result : IoErr) : M unit :=
  ok ← allocate;
  if negb ok then mret tt
  else l ← gets (fun c => index_all (streams_ (mem c))); close_streams l result.

Definition note_peer_goaway (last_stream_id error_code : Z) (l : Life) : Life :=
  let l := set_peer_goaway_error_code_ error_code (set_peer_last_stream_id_ last_stream_id (set_peer_sent_goaway_ true l)) in
  match close_state_ l with
  | Open => set_close_state_ PeerDraining l
  | LocalDraining => set_close_state_ BothDraining l
  | _ => l
  end.

Definition on_peer_goaway (last_stream_id error_code : Z) : M unit :=
  modify_life (note_peer_goaway last_stream_id error_code) ;;
  close_streams_after_goaway last_stream_id ;;
  c ← gets (fun c => c);
  let l := life c in
  if negb (local_goaway_sent_ l) && negb (bool_decide (close_state_ l = AbortClosing)) &&
     negb (bool_decide (close_state_ l = Closed)) then
    modify_life (set_local_goaway_last_stream_id_ (last_peer_stream_id_ (ids c))) ;;
    err ← send_goaway (last_peer_stream_id_ (ids c)) NoError;
    if negb (bool_decide (err = None_)) then abort_connection err
    else
      modify_life (fun l => set_stop_keepalive_ true (set_close_state_ BothDraining (set_local_goaway_sent_ true l))) ;;
      maybe_finish_graceful_shutdown
  else maybe_finish_graceful_shutdown.

(** The payload may be longer than eight bytes; the rest is ignored. *)
Definition handle_goaway_payload (fhr : FrameHeader) (buf : list Z) (offset length_ : Z) : M IoErr :=
  ok ← (if offset =? 0 then
          modify_inb (set_control_payload_used_ 0) ;; mret ((stream_id fhr =? 0) && (8 <=? Protocol.length_ fhr))
        else mret true);
  if negb ok then mret Invalid
  else
    i ← gets inb;
    collect buf (Z.min length_ (8 - control_payload_used_ i)) ;;
    if negb (offset + length_ =? Protocol.length_ fhr) then mret None_
    else
      scratch ← gets (fun c => control_payload_scratch_ (inb c));
      on_peer_goaway (parse_stream_id scratch) (parse_u32 (drop 4 scratch)) ;; mret None_.

(** ** Dispatch *)

Definition consume_incoming_frame_payload (fhr : FrameHeader) (buf : list Z) (offset length_ : Z) : M IoErr :=
  i ← gets inb;
  let continuation := bool_decide (type_ fhr = Continuation) in
  if expecting_continuation_ i && negb continuation then mret Invalid
  else if negb (expecting_continuation_ i) && continuation then mret Invalid
  else match type_ fhr with
       | Data => handle_data_payload fhr buf offset length_
       | Headers => handle_headers_payload fhr buf offset length_
       | Continuation => handle_continuation_payload fhr buf offset length_
       | Settings => handle_settings_payload fhr buf offset length_
       | Ping => handle_ping_payload fhr buf offset length_
       | WindowUpdate => handle_window_update_payload fhr buf offset length_
       | RstStream => handle_rst_stream_payload fhr buf offset length_
       | Goaway => handle_goaway_payload fhr buf offset length_
       | _ => mret None_
       end.

(** ** Start *)

Definition start_send_loop : M unit :=
  l ← gets life;
  if send_loop_running_ l || stop_sending_requested_ l then mret tt
  else wg_add ;; modify_life (set_send_loop_running_ true).

(** The bytes of [send_connection_preface]. *)
Definition connection_preface (o : Options) : list Z :=
  (if role_server o then [] else Reader.kClientPreface) ++
  encode_http2_frame_header 18 Settings 0 0 ++
  append_u16 kSettingsMaxConcurrentStreams ++ append_u32 (local_max_concurrent_streams o) ++
  append_u16 kSettingsInitialWindowSize ++ append_u32 (u32 (initial_stream_send_window o)) ++
  append_u16 kSettingsMaxFrameSize ++ append_u32 (max_frame_size o) ++
  (if kInitialFlowControlWindow <? initial_connection_recv_window o then
     encode_http2_frame_header 4 WindowUpdate 0 0 ++
     append_u32 (Z.land (initial_connection_recv_window o - kInitialFlowControlWindow) 0x7fffffff)
   else []).

Definition send_connection_preface : M IoErr :=
  o ← gets options_;
  ok ← allocate;
  if negb ok then mret NoMem
  else
    send ← acquire_send_entry;
    match send with
    | None => mret NoMem
    | Some _ =>
        let data := connection_preface o in
        err ← enqueue_send_entry
          (mkEntry (set_buf data) (Z.of_nat (length data)) 0 0 0 None_ false None (replicate 9 0));
        if negb (bool_decide (err = None_)) then release_send_entry ;; mret err
        else
          modify_life (fun l => set_local_settings_acknowledged_ false (set_local_connection_preface_sent_ true l)) ;;
          mret err
    end.

(** The part of [run] before the parse loop; an error ends the run. *)
Definition run_begin : M IoErr :=
  l ← gets life;
  o ← gets options_;
  if negb (transport_valid l) then mret Invalid
  else if run_started_ l then mret Busy
  else
    modify_life (set_run_started_ true) ;;
    start_send_loop ;;
    err ← (if negb (role_server o) && auto_start_connection_preface o && negb (local_connection_preface_sent_ l)
           then send_connection_preface else mret None_);
    if negb (bool_decide (err = None_)) then mret err
    else ok ← allocate; mret (if (ok : bool) then None_ else NoMem).

(** What [run] does at one turn of the parse loop; an error ends the run. *)
Definition run_event (ev : Reader.Event) : M IoErr :=
  match ev with
  | Reader.EvNeedMore | Reader.EvNone => mret None_
  | Reader.EvBadPreface | Reader.EvTooLarge => mret Invalid
  | Reader.EvPreface =>
      c ← gets (fun c => c);
      if auto_start_connection_preface (options_ c) && negb (local_connection_preface_sent_ (life c))
      then send_connection_preface else mret None_
  | Reader.EvChunk h buf offset n => consume_incoming_frame_payload h buf offset n
  end.

Fixpoint run_events (evs : list Reader.Event) : M IoErr :=
  match evs with
  | [] => mret None_
  | ev :: evs' => err ← run_event ev; if negb (bool_decide (err = None_)) then mret err else run_events evs'
  end.

(** ** Shutdown *)

Definition drain_locally (l : Life) : Life :=
  set_close_state_ (if bool_decide (close_state_ l = PeerDraining) then BothDraining else LocalDraining)
    (set_stop_keepalive_ true (set_local_goaway_sent_ true l)).

Definition begin_graceful_shutdown : M IoErr :=
  c ← gets (fun c => c);
  let l := life c in
  if stop_sending_requested_ l then mret (stop_sending_reason_ l)
  else if bool_decide (close_state_ l = Closed) || bool_decide (close_state_ l = AbortClosing) then mret Canceled
  else if negb (run_started_ l) || negb (local_connection_preface_sent_ l) then mret Invalid
  else if bool_decide (close_state_ l = LocalDraining) || bool_decide (close_state_ l = BothDraining) then mret None_
  else
    modify_life (set_local_goaway_last_stream_id_ (last_peer_stream_id_ (ids c))) ;;
    err ← send_goaway (last_peer_stream_id_ (ids c)) NoError;
    if negb (bool_decide (err = None_)) then abort_connection err ;; mret err
    else
      modify_life drain_locally ;;
      maybe_finish_graceful_shutdown ;;
      mret None_.

Definition graceful_shutdown : M unit :=
  err ← begin_graceful_shutdown;
  if negb (bool_decide (err = None_)) && negb (bool_decide (err = Canceled)) then abort_connection err else mret tt.

(** [finish_run] up to [lifetime_wg_.join()], and after it; [None_] is success. *)
Definition finish_run_begin (result : IoErr) : M unit :=
  l ← gets life;
  let ok := bool_decide (result = None_) in
  when (negb ok && negb (stop_sending_requested_ l) && negb (bool_decide (close_state_ l = AbortClosing)) &&
        negb (bool_decide (close_state_ l = Closed))) (abort_connection result) ;;
  l ← gets life;
  when (ok && negb (stop_sending_requested_ l))
    (modify_life (set_stop_keepalive_ true) ;;
     on_queue (fun q => (tt, SendQueue.close q)) ;;
     close_all_streams Canceled).

Definition finish_run_end : M unit :=
  n ← gets (fun c => lifetime_wg_ (mem c));
  fiber_assert (n =? 0) ;;
  modify_life (fun l => set_close_state_ Closed (set_transport_valid false l)).

Definition destroy : M unit :=
  modify_life (fun l => set_stop_sending_requested_ true (set_close_state_ Closed l)) ;;
  on_queue (fun q => (tt, SendQueue.close q)) ;;
  drain_send_queue Canceled ;;
  close_all_streams Canceled ;;
  owned ← gets (fun c => owned_streams (mem c));
  for_each owned (fun a =>
    modify_mem (fun m => set_owned_streams (tail (owned_streams m)) (set_stream_store (delete a (stream_store m)) m))).

(** ** The send loop *)

Definition handle_send_loop_timeout : M unit :=
  c ← gets (fun c => c);
  let l := life c in
  if stop_sending_requested_ l || stop_keepalive_ l || negb (bool_decide (close_state_ l = Open)) ||
     (keepalive_ping_interval (options_ c) <=? 0) then mret tt
  else
    err ← send_control_frame Ping 0 0 (replicate 8 0);
    when (negb (bool_decide (err = None_))) (abort_connection err).

(** What the loop offers the transport for an entry: the rest of the header, or
    what [write_once] passes on. *)
Definition offered (entry : Http2SendingEntry) : list Z :=
  if written_bytes entry <? frame_header_size entry then
    drop (Z.to_nat (written_bytes entry)) (take (Z.to_nat (frame_header_size entry)) (frame_header_ entry))
  else bytes_ (payload entry).

Definition set_entry (p : Http2SendPayload) (written : Z) (en : Http2SendingEntry) : Http2SendingEntry :=
  mkEntry p (total_bytes en) written (frame_header_size en) (logical_bytes en) (result en) (done_notified en)
    (on_done en) (frame_header_ en).

(** The write of one turn: its result and the entry, the payload consumed. *)
Definition write_entry (outcome : IoErr + Z) (entry : Http2SendingEntry) : (IoErr + Z) * Http2SendingEntry :=
  if written_bytes entry <? frame_header_size entry then (outcome, entry)
  else let '(r, p) := write_once outcome (payload entry) in (r, set_entry p (written_bytes entry) entry).

Inductive LoopState := Idle_ | Sending (entry : Http2SendingEntry) | Exit.

(** One turn on an entry, with the outcome of the write when there is one. *)
Definition send_turn (outcome : IoErr + Z) (entry : Http2SendingEntry) : M LoopState :=
  if (frame_header_size entry =? written_bytes entry) && SendPayload.empty (payload entry) then
    finish_send_entry entry None_ ;; mret Idle_
  else
    l ← gets life;
    let '(r, entry) := write_entry outcome entry in
    let failed err := finish_send_entry entry err ;; abort_connection err ;; mret Exit in
    match r with
    | inl err => failed (if stop_sending_requested_ l then stop_sending_reason_ l else err)
    | inr n =>
        if n =? 0 then failed (if stop_sending_requested_ l then stop_sending_reason_ l else ConnReset)
        else
          let entry := set_entry (payload entry) (written_bytes entry + n) entry in
          if (frame_header_size entry <=? written_bytes entry) && SendPayload.empty (payload entry) then
            finish_send_entry entry None_ ;; mret Idle_
          else mret (Sending entry)
    end.

(** One turn of [run_send_loop]: [polled] is the result of [poll_to_send] when the
    loop polls. *)
Definition send_loop_turn (st : LoopState) (polled : SendQueue.PollResult) (outcome : IoErr + Z) : M LoopState :=
  match st with
  | Exit => mret Exit
  | Sending entry => send_turn outcome entry
  | Idle_ =>
      match polled with
      | SendQueue.PClosed => mret Exit
      | SendQueue.PTimedOut => handle_send_loop_timeout ;; mret Idle_
      | SendQueue.PEntry entry => send_turn outcome entry
      end
  end.

Definition send_loop_exit : M unit :=
  modify_life (set_send_loop_running_ false) ;;
  l ← gets life;
  when (stop_sending_requested_ l)
    (drain_send_queue (stop_sending_reason_ l) ;; close_all_streams (stop_sending_reason_ l)) ;;
  wg_done.

End Handlers.

(** ** The send loop writes what was queued *)

Section SendLoop.
Context {T : Type} `{StreamIndex T}.
Local Abbreviation M := (@M T).

Record entry_ok (e : Http2SendingEntry) : Prop := mkEntryOk {
  ok_written : 0 <= written_bytes e;
  ok_header : 0 <= frame_header_size e <= Z.of_nat (length (frame_header_ e));
  ok_payload : kind_ (payload e) = KNone -> bytes_ (payload e) = [] }.

(** The entry after a write of [n] bytes. *)
Definition next_entry (n : Z) (e : Http2SendingEntry) : Http2SendingEntry :=
  let e' := (write_entry (inr n) e).2 in set_entry (payload e') (written_bytes e' + n) e'.

Lemma next_entry_unsent n e :
  entry_ok e -> 0 < n <= Z.of_nat (length (offered e)) ->
  (write_entry (inr n) e).1 = inr n /\ entry_ok (next_entry n e) /\ on_done (next_entry n e) = on_done e /\
  unsent e = take (Z.to_nat n) (offered e) ++ unsent (next_entry n e).
Proof.
  intros [Hw Hh Hp] Hn. unfold next_entry, write_entry, offered, unsent in *.
  destruct (Z.ltb_spec (written_bytes e) (frame_header_size e)) as [Hlt|Hge]; cbn.
  - split; [done|]. split; [by split; cbn; lia || done|]. split; [done|].
    rewrite Z2Nat.inj_add, <-drop_drop by lia. by rewrite app_assoc, take_drop.
  - unfold write_once. destruct (kind_ (payload e)) eqn:Hk; [rewrite (Hp eq_refl) in Hn; cbn in Hn; lia| | |];
      cbn; (split; [done|]; split; [split; cbn; (lia || done)|]; split; [done|]);
      rewrite !drop_ge by (rewrite length_take; lia); cbn; by rewrite take_drop.
Qed.

(** An entry is complete when nothing of it is unsent. *)
Lemma complete_unsent e :
  entry_ok e -> ((frame_header_size e <=? written_bytes e) && SendPayload.empty (payload e) = true <-> unsent e = []).
Proof.
  intros [Hw Hh Hp]. unfold SendPayload.empty, readable_bytes, unsent. rewrite andb_true_iff, Z.leb_le, Z.eqb_eq. split.
  - intros [Hle He]. rewrite drop_ge by (rewrite length_take; lia). destruct (kind_ (payload e)); cbn;
      [by apply Hp|apply length_zero_iff_nil; lia..].
  - intros Hnil. apply app_nil in Hnil as [Hd Hb]. rewrite Hb. apply (f_equal length) in Hd.
    rewrite length_drop, length_take in Hd. cbn in Hd. split; [lia|]. by destruct (kind_ _).
Qed.

Lemma send_turn_progress n e (c : Conn T) :
  entry_ok e -> unsent e <> [] -> 0 < n <= Z.of_nat (length (offered e)) ->
  send_turn (inr n) e c =
    (if bool_decide (unsent (next_entry n e) = []) then finish_send_entry (next_entry n e) None_ ;; mret Idle_
     else mret (Sending (next_entry n e))) c.
Proof.
  intros Hok Hne Hn. destruct (next_entry_unsent n e Hok Hn) as (Hr & Hok' & _ & _).
  pose proof (complete_unsent _ Hok') as Hcomplete. pose proof (complete_unsent e Hok) as Hinc. unfold send_turn.
  destruct ((frame_header_size e =? written_bytes e) && SendPayload.empty (payload e)) eqn:Hdone.
  { destruct Hne. apply Hinc. apply andb_true_iff in Hdone as [H1 ->]. rewrite (proj1 (Z.eqb_eq _ _) H1), Z.leb_refl. done. }
  unfold gets at 1. unfold mbind at 1, M_bind at 1. unfold next_entry in *.
  destruct (write_entry (inr n) e) as [r e']. cbn [fst snd] in *. subst r.
  rewrite (proj2 (Z.eqb_neq n 0)) by lia. set (e2 := set_entry _ _ e') in *.
  destruct (decide (unsent e2 = [])) as [Hd|Hd].
  - by rewrite (bool_decide_true _ Hd), (proj2 Hcomplete Hd).
  - rewrite (bool_decide_false _ Hd). destruct ((frame_header_size e2 <=? _) && _) eqn:E; [|done].
    by destruct Hd, Hcomplete; auto.
Qed.

(** The loop on one entry when the transport accepts [ns] bytes at a time; what
    goes out is recorded. *)
Fixpoint transmit (ns : list Z) (e : Http2SendingEntry) (sent : list Z) : M (list Z * LoopState) :=
  match ns with
  | [] => mret (sent, Sending e)
  | n :: ns' =>
      st ← send_turn (inr n) e;
      let sent := sent ++ take (Z.to_nat n) (offered e) in
      match st with
      | Sending e' => transmit ns' e' sent
      | _ => mret (sent, st)
      end
  end.

(** The transport never accepts more than it is offered, nor nothing. *)
Fixpoint accepted (ns : list Z) (e : Http2SendingEntry) : Prop :=
  match ns with
  | [] => True
  | n :: ns' => 0 < n <= Z.of_nat (length (offered e)) /\ (unsent (next_entry n e) <> [] -> accepted ns' (next_entry n e))
  end.

Lemma transmit_spec ns e sent (c : Conn T) :
  entry_ok e -> unsent e <> [] -> accepted ns e ->
  (on_done e = None -> is_Some (transmit ns e sent c)) /\
  forall wire st c', transmit ns e sent c = Some ((wire, st), c') ->
    exists rest, sent ++ unsent e = wire ++ rest /\
      ((st = Idle_ /\ rest = []) \/ (exists e', st = Sending e' /\ unsent e' = rest /\ rest <> [] /\ c' = c)).
Proof.
  revert e sent. induction ns as [|n ns IH]; intros e sent Hok Hne Hacc.
  { split; [by eexists|]. intros wire st c' [= <- <- <-]. exists (unsent e). split; [done|]. right. by exists e. }
  destruct Hacc as [Hn Hacc]. destruct (next_entry_unsent n e Hok Hn) as (_ & Hok' & Hdone & Hcut).
  cbn [transmit]. pose proof (send_turn_progress n e c Hok Hne Hn) as Hturn.
  destruct (decide (unsent (next_entry n e) = [])) as [Hd|Hd].
  - rewrite (bool_decide_true _ Hd) in Hturn. rewrite Hd, app_nil_r in Hcut. rewrite Hcut. split.
    + intros Hnone. unfold finish_send_entry, notify_send_done in Hturn. rewrite Hdone, Hnone in Hturn.
      unfold mbind, M_bind in *. rewrite Hturn. destruct (done_notified (next_entry n e)); cbn; by eexists.
    + intros wire st c' Hrun. apply bind_Some_inv in Hrun as (st1 & c1 & Hs & Hrun). rewrite Hturn in Hs.
      apply bind_Some_inv in Hs as (u & c2 & _ & Hs). injection Hs as <- <-. injection Hrun as <- <- <-.
      exists []. rewrite app_nil_r. split; [done|]. by left.
  - rewrite (bool_decide_false _ Hd) in Hturn. rewrite (bind_run _ _ _ _ _ Hturn).
    destruct (IH _ (sent ++ take (Z.to_nat n) (offered e)) Hok' Hd (Hacc Hd)) as [H1 H2]. rewrite Hdone in H1.
    split; [exact H1|]. rewrite Hcut, app_assoc. exact H2.
Qed.

(** C40. The send loop writes an entry byte for byte: whatever portions the
    transport accepts, what has gone out is a prefix of the frame (header, then
    payload); the loop lets go of the entry exactly when the whole of it is out,
    and before that what is left is what is still missing.  A control frame
    (no completion callback) never fails. *)
Theorem send_loop_writes_frame (ns : list Z) (e : Http2SendingEntry) (c : Conn T) :
  entry_ok e -> unsent e <> [] -> accepted ns e ->
  (on_done e = None -> is_Some (transmit ns e [] c)) /\
  forall wire st c', transmit ns e [] c = Some ((wire, st), c') ->
    exists rest, unsent e = wire ++ rest /\
      ((st = Idle_ /\ rest = []) \/ (exists e', st = Sending e' /\ unsent e' = rest /\ rest <> [] /\ c' = c)).
Proof. apply transmit_spec. Qed.

End SendLoop.

(** ** Closing a stream whose data waits *)

Section Dangling.
Context {T : Type} `{StreamIndex T}.
Local Abbreviation M := (@M T).

(** A method succeeds from [P] and leaves [Q]. *)
Definition runs {A} (P : Conn T -> Prop) (m : M A) (Q : A -> Conn T -> Prop) : Prop :=
  forall c, P c -> exists x c', m c = Some (x, c') /\ Q x c'.

Lemma runs_bind {A B} P R Q (m : M A) (k : A -> M B) :
  runs P m R -> (forall x, runs (R x) (k x) Q) -> runs P (m ≫= k) Q.
Proof.
  intros Hm Hk c Hc. destruct (Hm c Hc) as (x & c1 & E & HR). destruct (Hk x c1 HR) as (y & c2 & E2 & HQ).
  exists y, c2. split; [|done]. by rewrite (bind_run _ _ _ _ _ E).
Qed.

Lemma runs_modify P f (Q : Conn T -> Prop) : (forall c, P c -> Q (f c)) -> runs P (modify f) (fun _ => Q).
Proof. intros Hf c Hc. exists tt, (f c). auto. Qed.

Lemma runs_gets {A} P (f : Conn T -> A) : runs P (gets f) (fun x c => P c /\ x = f c).
Proof. intros c Hc. by exists (f c), c. Qed.

Lemma runs_when P b m (Q : Conn T -> Prop) :
  runs P m (fun _ => Q) -> (forall c, P c -> Q c) -> runs P (when b m) (fun _ => Q).
Proof. intros Hm HPQ. destruct b; [done|]. intros c Hc. exists tt, c. auto. Qed.

Lemma runs_mod_stream P a f (Q : Conn T -> Prop) :
  (forall c, P c -> exists s, stream_store (mem c) !! a = Some s /\ Q (with_stream a (f s) c)) ->
  runs P (mod_stream a f) (fun _ => Q).
Proof.
  intros Hf c Hc. destruct (Hf c Hc) as (s & Hs & HQ). exists tt, (with_stream a (f s) c). split; [|done].
  by apply mod_stream_run.
Qed.

Lemma runs_abort P reason (Q : Conn T -> Prop) :
  (forall c c' : Conn T, P c -> stream_store (mem c') = stream_store (mem c) -> Q c') ->
  runs P (abort_connection reason) (fun _ => Q).
Proof.
  intros HQ c Hc. unfold abort_connection, gets, modify_life, on_queue, modify, mbind, M_bind, mret, M_ret. cbn.
  destruct (stop_sending_requested_ (life c)); eexists _, _; (split; [reflexivity|]); by eapply HQ.
Qed.

Lemma runs_shutdown P (Q : Conn T -> Prop) :
  (forall c c' : Conn T, P c -> stream_store (mem c') = stream_store (mem c) -> Q c') ->
  runs P maybe_finish_graceful_shutdown (fun _ => Q).
Proof.
  intros HQ c Hc. unfold maybe_finish_graceful_shutdown, gets, modify_life, on_queue, modify, mbind, M_bind, mret, M_ret. cbn.
  repeat case_match; eexists _, _; (split; [reflexivity|]); by eapply HQ.
Qed.

(** The stream at [a] exists and the lifetime of the connection is being counted. *)
Definition live (a : nat) (f : Http2Stream -> Prop) (c : Conn T) : Prop :=
  0 < lifetime_wg_ (mem c) /\ exists s, stream_store (mem c) !! a = Some s /\ f s.

(** An owned stream is deleted. *)
Lemma erase_stream_deletes a :
  runs (live a (fun s => connection_owned_ s = true)) (erase_stream a) (fun _ c => stream_store (mem c) !! a = None).
Proof.
  intros c Hc. pose proof Hc as (_ & s & Hs & Hown). revert c Hc Hs. unfold erase_stream.
  intros c Hc Hs. rewrite (bind_run _ _ _ _ _ (get_stream_run a c s Hs)). rewrite Hown. cbn [negb]. clear Hs.
  revert c Hc. set (P := live a _).
  assert (forall f, (forall m, lifetime_wg_ (f m) = lifetime_wg_ m /\ stream_store (f m) = stream_store m) ->
    runs P (modify_mem f) (fun _ => P)) as Hmem.
  { intros f Hf. apply runs_modify. intros c [Hwg (s1 & Hs1 & Ho)]. destruct (Hf (mem c)) as [E1 E2].
    split; cbn; [by rewrite E1|]. exists s1. by rewrite E2. }
  eapply runs_bind with (R := fun _ => P).
  { apply runs_when; [|done]. by apply Hmem. }
  intros []. eapply runs_bind with (R := fun _ => P); [by apply Hmem|].
  intros []. eapply runs_bind with (R := fun _ => P).
  { apply runs_mod_stream. intros c [Hwg (s1 & Hs1 & Ho)]. exists s1. split; [done|]. split; [done|].
    eexists. split; [apply with_stream_lookup|done]. }
  intros []. eapply runs_bind with (R := fun _ => P).
  { intros c Hc. by exists c, c. }
  intros c0. eapply runs_bind with (R := fun _ => P).
  { apply runs_when; [|done]. by apply runs_modify. }
  intros []. eapply runs_bind with (R := fun _ => P).
  { intros c Hc. by eexists _, _. }
  intros n. eapply runs_bind with (R := fun _ c => stream_store (mem c) !! a = None).
  - eapply runs_bind with (R := fun _ c => 0 < lifetime_wg_ (mem c) /\ stream_store (mem c) !! a = None).
    + apply runs_modify. intros c [Hwg _]. split; [done|]. cbn. apply lookup_delete_eq.
    + intros []. apply runs_when; [|by intros ? []]. intros c [Hwg Hnone]. unfold wg_done, gets, mbind, M_bind.
      cbn. rewrite (proj2 (Z.ltb_lt _ _) Hwg). cbn. by eexists _, _.
  - intros []. apply runs_shutdown. intros c c' Hnone ->. done.
Qed.

(** A closed stream whose only entry has nothing in flight loses both. *)
Definition lone_entry (a e : nat) (f : Http2Stream -> Prop) (c : Conn T) : Prop :=
  live a (fun s => connection_owned_ s = true /\ conn_ s = true /\ active_pending_ s = [e] /\ f s) c /\
  exists p, pending_store (mem c) !! e = Some p /\ pe_inflight_sends p = 0 /\ pe_terminal_notified p = false.

Lemma finish_pending_deletes a e r :
  runs (lone_entry a e (fun s => state_ s = StreamState.Closed /\ pending_ s = [])) (finish_pending a e r)
    (fun _ c => stream_store (mem c) !! a = None).
Proof.
  intros c [[Hwg (s & Hs & Hown & Hconn & Hact & Hst & Hpend)] (p & Hp & Hfl & Hterm)].
  unfold finish_pending. rewrite (bind_run _ _ _ _ _ (get_pending_run e c p Hp)), (bind_run _ _ _ _ _ (get_stream_run a c s Hs)).
  rewrite Hterm, Hconn. cbn [negb orb].
  set (P := fun c => live a (fun s => connection_owned_ s = true /\ active_pending_ s = [e] /\
                               state_ s = StreamState.Closed /\ pending_ s = []) c /\ is_Some (pending_store (mem c) !! e)).
  set (Q := live a (fun s => connection_owned_ s = true /\ active_pending_ s = [] /\
                      state_ s = StreamState.Closed /\ pending_ s = [])).
  assert (P c) as Hc by (split; [split; [done|by exists s]|by exists p]). clear - P Q Hc. revert c Hc.
  assert (forall f, (forall p c, is_Some (pending_store (mem c) !! e) -> is_Some (pending_store (f p (mem c)) !! e)) ->
            (forall p m, lifetime_wg_ (f p m) = lifetime_wg_ m /\ stream_store (f p m) = stream_store m) ->
            runs P (p ← get_pending e; modify_mem (f p)) (fun _ => P)) as Hmod.
  { intros f Hf Hg c [[Hwg Hs] [p Hp]]. rewrite (bind_run _ _ _ _ _ (get_pending_run e c p Hp)). cbn.
    eexists tt, _. split; [reflexivity|]. destruct (Hg p (mem c)) as [E1 E2].
    split; [split; cbn; [by rewrite E1|by rewrite E2]|]. cbn. apply Hf. by exists p. }
  eapply runs_bind with (R := fun _ => P).
  { apply (Hmod (fun p m => set_pending_store (<[e := _]> (pending_store m)) m)); [|done].
    intros p c _. cbn. rewrite lookup_insert_eq. by eexists. }
  intros []. eapply runs_bind with (R := fun _ => P).
  { by apply (Hmod (fun p m => set_changes (changes m ++ notify_change _ 0 r p) m)). }
  intros []. eapply runs_bind with (R := fun _ c => Q c /\ is_Some (pending_store (mem c) !! e)).
  { apply runs_mod_stream. intros c [[Hwg (s & Hs & Ho & Ha & Hst & Hpe)] Hp]. exists s. split; [done|]. split; [|done].
    split; [done|]. eexists. split; [apply with_stream_lookup|]. cbn. split; [done|]. split; [|done].
    rewrite Ha. cbn. by rewrite decide_False by (intros []; done). }
  intros []. eapply runs_bind with (R := fun _ => Q).
  { intros c [HQ [p Hp]]. unfold pool_destroy. rewrite (bind_run _ _ _ _ _ (get_pending_run e c p Hp)).
    eexists tt, _. split; [reflexivity|]. exact HQ. }
  intros [] c HQ. pose proof HQ as (Hwg & s & Hs & Ho & Ha & Hst & Hpe). unfold maybe_destroy_stream.
  rewrite (bind_run _ _ _ _ _ (get_stream_run a c s Hs)), Hst, Hpe, Ha. rewrite bool_decide_true by done. cbn [negb].
  apply erase_stream_deletes. split; [done|]. by exists s.
Qed.

Lemma close_deletes a e r :
  runs (lone_entry a e (fun _ => True)) (close a r) (fun _ c => stream_store (mem c) !! a = None).
Proof.
  unfold close. eapply runs_bind with (R := fun _ => lone_entry a e (fun s => state_ s = StreamState.Closed)).
  { apply runs_mod_stream. intros c [[Hwg (s & Hs & Ho & Hc & Ha & _)] Hp]. exists s. split; [done|]. split; [|done].
    split; [done|]. eexists. split; [apply with_stream_lookup|]. done. }
  intros []. eapply runs_bind with (R := fun _ => lone_entry a e (fun s => state_ s = StreamState.Closed)).
  { intros c Hc. pose proof Hc as [[Hwg (s & Hs & Ho & Hconn & Ha & Hst)] Hp]. unfold remove_from_conn_window_wait_list.
    rewrite (bind_run _ _ _ _ _ (get_stream_run a c s Hs)), Hconn. cbn. eexists _, _. split; [reflexivity|]. exact Hc. }
  intros []. eapply runs_bind with (R := fun _ => lone_entry a e (fun s => state_ s = StreamState.Closed /\ pending_ s = [])).
  { apply runs_mod_stream. intros c [[Hwg (s & Hs & Ho & Hc & Ha & Hst)] Hp]. exists s. split; [done|]. split; [|done].
    split; [done|]. eexists. split; [apply with_stream_lookup|]. done. }
  intros [] c Hc. pose proof Hc as [[_ (s & Hs & _ & _ & Ha & _)] (p & Hp & Hfl & _)]. unfold drain_pending.
  rewrite (bind_run _ _ _ _ _ (get_stream_run a c s Hs)), Ha. cbn [for_each].
  destruct (finish_pending_deletes a e r c Hc) as ([] & c' & Hrun & Hnone). exists tt, c'. split; [|done].
  unfold mbind, M_bind. rewrite (get_pending_run e c p Hp), Hfl. cbn. by rewrite Hrun.
Qed.

(** A reset while data waits: when a stream whose only pending entry has no
    frame in flight (its data waits for a window, say) is reset by the peer,
    [close] finishes the entry, which deletes the stream; [maybe_destroy_stream]
    then reads the deleted object, so the handler has no defined result.  The
    same holds of every other caller that closes a stream and then calls
    [maybe_destroy_stream] on it. *)
Theorem reset_of_waiting_stream_dangles (a e : nat) (sid : Z) (c : Conn T) (r : IoErr) :
  find_stream c sid = Some a -> lone_entry a e (fun _ => True) c ->
  (exists c', close a r c = Some (tt, c') /\ stream_store (mem c') !! a = None) /\
  rst_received sid c = None /\ close_streams [a] r c = None /\
  (forall code c', send_rst_stream sid code c = Some (None_, c') -> find_stream c' sid = Some a ->
     lone_entry a e (fun _ => True) c' -> handle_stream_error sid code r c = None).
Proof.
  intros Hfind Hc.
  assert (forall r (c : Conn T), lone_entry a e (fun _ => True) c -> (close a r ;; maybe_destroy_stream a) c = None /\
            exists c', close a r c = Some (tt, c') /\ stream_store (mem c') !! a = None) as Hcrash.
  { intros r0 c0 Hc0. destruct (close_deletes a e r0 c0 Hc0) as ([] & c' & Hrun & Hnone). split; [|by exists c'].
    rewrite (bind_run _ _ _ _ _ Hrun). unfold maybe_destroy_stream, mbind, M_bind, get_stream. by rewrite Hnone. }
  split; [by apply Hcrash|]. split; [|split].
  - unfold rst_received, on_remote_rst. unfold gets, mbind at 1, M_bind at 1. rewrite Hfind.
    destruct (Hcrash Canceled c Hc) as [H1 _]. unfold mbind, M_bind in *. destruct (close a Canceled c) as [[[] c1]|]; [|done].
    by rewrite H1.
  - unfold close_streams. cbn [for_each]. destruct (Hcrash r c Hc) as [H1 _]. unfold mbind, M_bind in *. by rewrite H1.
  - intros code c' Hsend Hfind' Hc'. unfold handle_stream_error. rewrite (bind_run _ _ _ _ _ Hsend).
    unfold gets, mbind at 1, M_bind at 1. rewrite Hfind'. by apply Hcrash.
Qed.

End Dangling.

(** ** Examples *)

Section Examples.
Import Sample.

(** A [DATA] frame with [END_STREAM] whose padding arrives in a read of its
    own ends the stream twice: the second time the stream is half closed
    already, so a valid frame is answered with [RST_STREAM] ([StreamClosed]) and
    the stream is closed. *)
Theorem late_padding_resets_stream :
  let fhr := mkFrameHeader 3 Data (Z.lor kFlagPadded kFlagEndStream) 1 in
  let c := connection (stream StreamState.Open 100 []) [] in
  exists c1 c2,
    handle_data_payload fhr [1; 65] 0 2 c = Some (None_, c1) /\
    (exists s1, stream_store (mem c1) !! 0%nat = Some s1 /\ state_ s1 = StreamState.HalfClosedRemote) /\
    handle_data_payload fhr [0] 2 1 c1 = Some (None_, c2) /\
    stream_store (mem c2) !! 0%nat = None /\
    map unsent (ready_of c2) = [encode_http2_frame_header 4 RstStream 0 1 ++ rst_stream_payload StreamClosed].
Proof.
  intros fhr c. eexists _, _. split; [vm_compute; reflexivity|]. split; [eexists; split; vm_compute; reflexivity|].
  split; [vm_compute; reflexivity|]. split; vm_compute; reflexivity.
Qed.

(** A frame of twelve bytes in portions of 5, 4 and 3. *)
Lemma send_loop_writes_frame_witness :
  let e := build_send_entry 0 Data 1 1 3 (set_buf [1; 2; 3]) in
  let e := mkEntry (payload e) 12 0 9 3 None_ false None (frame_header_ e) in
  is_Some (transmit [5; 4; 3] e [] (connection (stream StreamState.Open 100 []) [])).
Proof.
  intros e0 e.
  destruct (send_loop_writes_frame [5; 4; 3] e (connection (stream StreamState.Open 100 []) [])) as [H _].
  - split; cbn; (lia || done).
  - done.
  - vm_compute. repeat (split; [done|]; intros _ || (split; [done|])). done.
  - by apply H.
Defined.

(** Ten bytes wait for the stream window when the [RST_STREAM] arrives. *)
Lemma reset_of_waiting_stream_dangles_witness :
  let s := mkStream 1 StreamState.Open true true 0 [0%nat] [0%nat] true in
  let c := connection s [(0%nat, data_entry (replicate 10 65) 1)] in
  rst_received 1 c = None.
Proof.
  intros s c. destruct (reset_of_waiting_stream_dangles 0 0 1 c Canceled) as (_ & H & _).
  - vm_compute. reflexivity.
  - split; [split; [vm_compute; reflexivity|exists s; split; [vm_compute; reflexivity|done]]|].
    eexists. split; [vm_compute; reflexivity|]. done.
  - exact H.
Defined.

End Examples.

End Connection.
