(* ===== verification/Http2Padding.v ===== *)
(** * Padding and priority of incoming frames
    ([handle_data_payload], [handle_headers_payload] of [src/http/Http2Connection.cpp])

    What the streams are handed of a [DATA] or [HEADERS] frame that arrives in
    pieces, seen from [consume_incoming_frame_payload]: the calls of
    [on_data_recv] and [on_header_recv] are in the log [received]. *)
From S2P Require Import Prelude IoError Http2Protocol Http2StreamState Http2Sending Http2SendQueue StreamTable Http2State.
From S2P Require Import Http2Stream Http2Reader Http2Connection.
Import IoError SendPayload Pending SendEntry Protocol Conn Stream Connection.

Module Padding.

(** ** What a frame says

    The content of a payload: behind the pad length, if the frame is [PADDED], and
    in a [HEADERS] frame with [PRIORITY] behind five more bytes, up to the padding;
    [None] if the payload is too short for these. *)
Definition frame_content (fhr : FrameHeader) (payload : list Z) : option (list Z) :=
  let '(pad, rest) :=
    match payload with
    | n :: rest => if has_flag (flags fhr) kFlagPadded then (Z.to_nat n, rest) else (0%nat, payload)
    | [] => (0%nat, [])
    end in
  let fields := if bool_decide (type_ fhr = Headers) && has_flag (flags fhr) kFlagPriority then 5%nat else 0%nat in
  if (fields + pad <=? length rest)%nat then Some (take (length rest - fields - pad) (drop fields rest)) else None.

(** ** Delivery of a piece *)

Definition prefix_len (fhr : FrameHeader) : Z :=
  match type_ fhr with Headers => headers_prefix (flags fhr) | _ => data_prefix (flags fhr) end.

Definition pad_len (fhr : FrameHeader) (payload : list Z) : Z :=
  if has_flag (flags fhr) kFlagPadded then match payload with n :: _ => n | [] => 0 end else 0.

(** The content of a payload. *)
Definition content (frame_length prefix pad : Z) (payload : list Z) : list Z :=
  take (Z.to_nat (frame_length - prefix - pad)) (drop (Z.to_nat prefix) payload).

Lemma delivery_slice L prefix pad offset b behind before after :
  0 <= prefix -> 0 <= pad -> prefix + pad <= L < 2 ^ 32 -> Z.of_nat (length before) = offset ->
  Z.of_nat (length (before ++ b ++ after)) = L ->
  let d := delivery L prefix pad offset (Z.of_nat (length b)) in
  content L prefix pad (before ++ b) = content L prefix pad before ++ slice (b ++ behind) d /\
  (deliver_len d <> 0 -> content_offset d = Z.of_nat (length (content L prefix pad before))) /\
  (deliver_len d <> 0 \/ reaches_end d = true -> retain_slice_ok (b ++ behind) (chunk_begin d) (deliver_len d) = true) /\
  (reaches_end d = true <-> L - pad <= offset + Z.of_nat (length b)).
Proof.
  intros Hp Hpad HL Hoff Hlen d. rewrite !length_app in Hlen.
  assert (u64 (L - prefix - pad) = L - prefix - pad) as Hu by (apply wrap_small; unfold in_width; lia).
  subst d. unfold delivery. rewrite Hu. cbn [deliver_len chunk_begin content_offset reaches_end].
  set (db := Z.max offset prefix). set (de := Z.min (offset + Z.of_nat (length b)) (prefix + (L - prefix - pad))).
  split; [|split; [|split]].
  - unfold content, slice. cbn [deliver_len chunk_begin]. rewrite drop_app, take_app. f_equal. rewrite length_drop.
    set (cb := Z.to_nat (if offset <? db then db - offset else 0)).
    assert ((Z.to_nat prefix - length before)%nat = cb) as -> by (subst cb; destruct (Z.ltb_spec offset db); lia).
    assert (Z.to_nat (if db <? de then de - db else 0) =
              ((Z.to_nat (L - prefix - pad) - (length before - Z.to_nat prefix)) `min` (length b - cb))%nat) as ->.
    { subst cb. destruct (Z.ltb_spec db de), (Z.ltb_spec offset db); lia. }
    destruct (decide (cb <= length b)%nat) as [Hcb|Hcb].
    + rewrite drop_app_le, take_app_le by (rewrite ?length_drop; lia).
      rewrite <-(take_take (drop cb b)). f_equal. symmetry. apply take_ge. rewrite length_drop. lia.
    + rewrite (drop_ge b) by lia. by rewrite Nat.min_r, take_nil, (proj2 (Nat.sub_0_le _ _)) by lia.
  - destruct (Z.ltb_spec db de); [|done]. intros _. unfold content. rewrite length_take, length_drop.
    destruct (Z.ltb_spec prefix db); lia.
  - unfold retain_slice_ok. rewrite length_app. destruct (Z.ltb_spec db de) as [Hd|Hd]; intros Hor.
    + apply andb_true_iff. rewrite !Z.leb_le. destruct (Z.ltb_spec offset db); lia.
    + destruct Hor as [?|Hr]; [done|]. apply Z.leb_le in Hr. apply andb_true_iff. rewrite !Z.leb_le.
      destruct (Z.ltb_spec offset db); lia.
  - rewrite Z.leb_le. lia.
Qed.

Lemma prefix_len_nonneg fhr : 0 <= prefix_len fhr.
Proof. unfold prefix_len, headers_prefix, data_prefix. repeat case_match; lia. Qed.

Lemma frame_content_spec fhr payload :
  payload <> [] -> Forall (fun b => 0 <= b) payload -> type_ fhr = Data \/ type_ fhr = Headers ->
  let L := Z.of_nat (length payload) in
  frame_content fhr payload =
    if prefix_len fhr + pad_len fhr payload <=? L then Some (content L (prefix_len fhr) (pad_len fhr payload) payload)
    else None.
Proof.
  intros Hne Hb Ht L. destruct payload as [|n rest]; [done|]. apply Forall_cons in Hb as [Hn _]. subst L.
  unfold frame_content, prefix_len, pad_len, headers_prefix, data_prefix, content.
  set (pr := has_flag (flags fhr) kFlagPriority). set (pd := has_flag (flags fhr) kFlagPadded).
  set (fields := if bool_decide (type_ fhr = Headers) && pr then 5%nat else 0%nat).
  assert (match type_ fhr with Headers => (if pd then 1 else 0) + (if pr then 5 else 0) | _ => if pd then 1 else 0 end =
          Z.of_nat (if pd then S fields else fields)) as ->.
  { subst fields. destruct Ht as [-> | ->]; cbn; destruct pd, pr; done. }
  destruct pd.
  - destruct (Nat.leb_spec (fields + Z.to_nat n) (length rest)), (Z.leb_spec (Z.of_nat (S fields) + n) (Z.of_nat (length (n :: rest))));
      cbn [length] in *; try lia; [|done].
    rewrite Nat2Z.id. cbn [drop]. f_equal. f_equal. lia.
  - destruct (Nat.leb_spec (fields + 0) (length (n :: rest))), (Z.leb_spec (Z.of_nat fields + 0) (Z.of_nat (length (n :: rest))));
      try lia; [|done].
    rewrite Nat2Z.id. f_equal. f_equal. lia.
Qed.

(** ** Steps that hand nothing on *)

Section Handed.
Context {T : Type} `{StreamIndex T}.
Local Abbreviation M := (@M T).

Definition quiet {A} (m : M A) : Prop :=
  forall c x c', m c = Some (x, c') -> received (mem c') = received (mem c) /\ inb c' = inb c.

Lemma quiet_bind {A B} (m : M A) (k : A -> M B) : quiet m -> (forall x, quiet (k x)) -> quiet (m ≫= k).
Proof.
  intros Hm Hk c y c' Hrun. apply bind_Some_inv in Hrun as (x & c1 & H1 & H2).
  destruct (Hm c x c1 H1) as [<- <-]. exact (Hk x c1 y c' H2).
Qed.
Lemma quiet_ret {A} (x : A) : quiet (mret x : M A).
Proof. by intros c y c' [= <- <-]. Qed.
Lemma quiet_gets {A} (f : Conn T -> A) : quiet (gets f).
Proof. by intros c y c' [= <- <-]. Qed.
Lemma quiet_crash {A} : quiet (crash : M A).
Proof. by intros c y c'. Qed.
Lemma quiet_assert b : quiet (fiber_assert b : M unit).
Proof. destruct b; [apply quiet_ret|apply quiet_crash]. Qed.
Lemma quiet_when b (m : M unit) : quiet m -> quiet (when b m).
Proof. intros Hm. destruct b; [done|apply quiet_ret]. Qed.
Lemma quiet_get_stream a : quiet (get_stream a).
Proof. intros c x c'. unfold get_stream. by destruct (_ !! a); intros [= <- <-]. Qed.
Lemma quiet_get_pending e : quiet (get_pending e).
Proof. intros c x c'. unfold get_pending. by destruct (_ !! e); intros [= <- <-]. Qed.
Lemma quiet_modify f :
  (forall c, received (mem (f c)) = received (mem c) /\ inb (f c) = inb c) -> quiet (modify f).
Proof. intros Hf c x c' [= <- <-]. apply Hf. Qed.
Lemma quiet_mod_stream a f : quiet (mod_stream a f).
Proof. apply quiet_bind; [apply quiet_get_stream|]. intros s. by apply quiet_modify. Qed.
Lemma quiet_mod_pending e f : quiet (mod_pending e f).
Proof. apply quiet_bind; [apply quiet_get_pending|]. intros s. by apply quiet_modify. Qed.
Lemma quiet_allocate : quiet allocate.
Proof. intros c x c'. unfold allocate. by destruct (oom_ (mem c)); intros [= <- <-]. Qed.
Lemma quiet_on_queue {A} (f : SendQueue.Queue -> A * SendQueue.Queue) : quiet (on_queue f).
Proof. intros c x c'. unfold on_queue. destruct (f _) as [r q]. by intros [= <- <-]. Qed.
Lemma quiet_for_each {A} (l : list A) f : (forall x, quiet (f x)) -> quiet (for_each l f).
Proof. intros Hf. induction l as [|x l IH]; cbn [for_each]; [apply quiet_ret|]. by apply quiet_bind. Qed.

Ltac quiet_step :=
  first
    [ apply quiet_ret | apply quiet_gets | apply quiet_crash | apply quiet_assert | apply quiet_when
    | apply quiet_get_stream | apply quiet_get_pending | apply quiet_mod_stream | apply quiet_mod_pending
    | apply quiet_allocate | apply quiet_on_queue | apply quiet_modify; done | apply quiet_for_each; intros ?
    | match goal with |- quiet (_ ≫= _) => apply quiet_bind; [|intros ?] end | case_match ].

Lemma quiet_maybe_destroy a : quiet (maybe_destroy_stream a).
Proof.
  unfold maybe_destroy_stream, erase_stream, maybe_finish_graceful_shutdown, wg_done, wait_erase. repeat quiet_step.
Qed.

Lemma quiet_handle_stream_error sid code r : quiet (handle_stream_error sid code r).
Proof.
  unfold handle_stream_error, send_rst_stream, send_control_frame, acquire_send_entry, enqueue_send_entry,
    release_send_entry, close, remove_from_conn_window_wait_list, wait_erase, drain_pending, finish_pending, notify,
    remove_active_pending, pool_destroy.
  repeat first [apply quiet_maybe_destroy | quiet_step].
Qed.

Lemma quiet_create_peer_stream sid : quiet (create_peer_stream sid).
Proof. unfold create_peer_stream, create_stream, wg_add. repeat quiet_step. Qed.

(** ** The calls of a piece *)

Definition handed (c c' : Conn T) (calls : list Received) : Prop := received (mem c') = received (mem c) ++ calls.

(** One call at most, with the bytes of [d]. *)
Definition call_of (header : bool) (base : Z) (buf : list Z) (d : Delivery) (calls : list Received) : Prop :=
  calls = [] /\ deliver_len d = 0 \/
  exists a, calls = [mkReceived a header (slice buf d) (base + content_offset d)].

Lemma take_slice_or_all buf d : take (Z.to_nat (deliver_len d)) (slice_or_all buf d) = slice buf d.
Proof. unfold slice_or_all, slice. destruct (Z.eqb_spec (deliver_len d) 0) as [->|_]; [done|]. by rewrite take_take, Nat.min_id. Qed.

(** The handlers, behind their checks of the first piece. *)
Definition data_rest (fhr : FrameHeader) (buf : list Z) (offset length : Z) : M IoErr :=
  c ← gets (fun c => c);
  match find_stream c (stream_id fhr) with
  | None => mret Invalid
  | Some a =>
      let d := delivery (length_ fhr) (data_prefix (flags fhr)) (incoming_pad_length_ (inb c)) offset length in
      let end_stream := has_flag (flags fhr) kFlagEndStream && reaches_end d in
      if negb (deliver_len d =? 0) || end_stream then
        fiber_assert (retain_slice_ok buf (chunk_begin d) (deliver_len d)) ;;
        err ← on_data_recv a (slice_or_all buf d) (content_offset d) (deliver_len d) end_stream;
        if negb (bool_decide (err = None_)) then
          handle_stream_error (stream_id fhr) StreamClosed err ;; mret None_
        else maybe_destroy_stream a ;; mret None_
      else mret None_
  end.

Lemma on_data_recv_log a payload o n es c err c' :
  on_data_recv a payload o n es c = Some (err, c') ->
  handed c c' [mkReceived a false (take (Z.to_nat n) payload) o] /\ inb c' = inb c.
Proof.
  unfold on_data_recv. intros Hrun. apply bind_Some_inv in Hrun as (u & c1 & Hm & Hrun). injection Hm as <- <-.
  match type of Hrun with ?m ?c1 = _ => assert (quiet m) as Hq end.
  { repeat quiet_step. }
  destruct (Hq _ _ _ Hrun) as [H1 H2]. split; [exact H1|exact H2].
Qed.

Lemma on_header_recv_log a payload o n eh es c err c' :
  on_header_recv a payload o n eh es c = Some (err, c') ->
  handed c c' [mkReceived a true (take (Z.to_nat n) payload) o] /\ inb c' = inb c.
Proof.
  unfold on_header_recv. intros Hrun. apply bind_Some_inv in Hrun as (u & c1 & Hm & Hrun). injection Hm as <- <-.
  match type of Hrun with ?m ?c1 = _ => assert (quiet m) as Hq end.
  { repeat quiet_step. }
  destruct (Hq _ _ _ Hrun) as [H1 H2]. split; [exact H1|exact H2].
Qed.

Lemma data_rest_calls fhr buf o n c c' :
  data_rest fhr buf o n c = Some (None_, c') ->
  let d := delivery (length_ fhr) (data_prefix (flags fhr)) (incoming_pad_length_ (inb c)) o n in
  inb c' = inb c /\ exists calls, handed c c' calls /\ call_of false 0 buf d calls.
Proof.
  intros Hrun d. unfold data_rest in Hrun. apply bind_Some_inv in Hrun as (c0 & c1 & Hg & Hrun). injection Hg as <- <-.
  destruct (find_stream c _) as [a|]; [|done]. fold d in Hrun. cbv zeta in Hrun.
  destruct (negb (deliver_len d =? 0) || _) eqn:Hd.
  - apply bind_Some_inv in Hrun as (u & c1 & Ha & Hrun). destruct (retain_slice_ok _ _ _); [|done]. injection Ha as <- <-.
    apply bind_Some_inv in Hrun as (err & c1 & Hrecv & Hrun). destruct (on_data_recv_log _ _ _ _ _ _ _ _ Hrecv) as [Hl Hi].
    rewrite take_slice_or_all in Hl.
    match type of Hrun with ?m c1 = _ => assert (quiet m) as Hq end.
    { repeat first [apply quiet_maybe_destroy | apply quiet_handle_stream_error | quiet_step]. }
    destruct (Hq _ _ _ Hrun) as [H1 H2]. split; [by rewrite H2|]. eexists. split; [unfold handed; rewrite H1; exact Hl|].
    right. by exists a.
  - injection Hrun as <-. split; [done|]. exists []. split; [unfold handed; by rewrite app_nil_r|]. left. bool_to_prop. done.
Qed.

Definition headers_rest (fhr : FrameHeader) (buf : list Z) (offset length : Z) : M IoErr :=
  c ← gets (fun c => c);
  match find_stream c (stream_id fhr) with
  | None => mret Invalid
  | Some a =>
      let pad := incoming_pad_length_ (inb c) in
      let prefix := headers_prefix (flags fhr) in
      let d := delivery (length_ fhr) prefix pad offset length in
      let end_headers := has_flag (flags fhr) kFlagEndHeaders && reaches_end d in
      let end_stream := has_flag (flags fhr) kFlagEndStream && end_headers in
      when (offset =? 0) (modify_inb (fun i =>
        set_inbound_header_stream_id_ (stream_id fhr)
          (set_inbound_header_end_stream_ (has_flag (flags fhr) kFlagEndStream) i))) ;;
      err ← (if negb (deliver_len d =? 0) || end_headers then
               fiber_assert (retain_slice_ok buf (chunk_begin d) (deliver_len d)) ;;
               err ← on_header_recv a (slice_or_all buf d) (inbound_header_block_bytes_ (inb c) + content_offset d)
                        (deliver_len d) end_headers end_stream;
               (if negb (bool_decide (err = None_)) then handle_stream_error (stream_id fhr) ProtocolError err
                else maybe_destroy_stream a) ;;
               mret err
             else mret None_);
      if negb (bool_decide (err = None_)) then mret None_
      else
        when (reaches_end d)
          (modify_inb (fun i => set_inbound_header_block_bytes_
              (inbound_header_block_bytes_ i + u64 (length_ fhr - prefix - pad))
              (set_expecting_continuation_ (negb (has_flag (flags fhr) kFlagEndHeaders)) i)) ;;
           when (has_flag (flags fhr) kFlagEndHeaders) end_header_block) ;;
        mret None_
  end.

Lemma headers_rest_calls fhr buf o n c c' :
  headers_rest fhr buf o n c = Some (None_, c') ->
  let d := delivery (length_ fhr) (headers_prefix (flags fhr)) (incoming_pad_length_ (inb c)) o n in
  incoming_pad_length_ (inb c') = incoming_pad_length_ (inb c) /\
  (reaches_end d = false -> inbound_header_block_bytes_ (inb c') = inbound_header_block_bytes_ (inb c)) /\
  exists calls, handed c c' calls /\ call_of true (inbound_header_block_bytes_ (inb c)) buf d calls.
Proof.
  intros Hrun d. unfold headers_rest in Hrun. apply bind_Some_inv in Hrun as (c0 & c1 & Hg & Hrun). injection Hg as <- <-.
  destruct (find_stream c _) as [a|]; [|done]. cbv zeta in Hrun. fold d in Hrun.
  apply bind_Some_inv in Hrun as (u & c1 & Hid & Hrun).
  assert (received (mem c1) = received (mem c) /\ incoming_pad_length_ (inb c1) = incoming_pad_length_ (inb c) /\
          inbound_header_block_bytes_ (inb c1) = inbound_header_block_bytes_ (inb c)) as (R1 & I1 & B1).
  { unfold when in Hid. destruct (o =? 0); injection Hid as <- <-; done. }
  apply bind_Some_inv in Hrun as (err & c2 & Hcall & Hrun).
  assert (inb c2 = inb c1 /\ exists calls, handed c1 c2 calls /\
            call_of true (inbound_header_block_bytes_ (inb c)) buf d calls) as (I2 & calls & Hh & Hc).
  { clear Hrun. destruct (negb (deliver_len d =? 0) || _) eqn:Hd.
    - apply bind_Some_inv in Hcall as (u' & c3 & Ha & Hcall). destruct (retain_slice_ok _ _ _); [|done]. injection Ha as <- <-.
      apply bind_Some_inv in Hcall as (err' & c3 & Hrecv & Hcall).
      destruct (on_header_recv_log _ _ _ _ _ _ _ _ _ Hrecv) as [Hl Hi]. rewrite take_slice_or_all in Hl.
      match type of Hcall with ?m c3 = _ => assert (quiet m) as Hq end.
      { repeat first [apply quiet_maybe_destroy | apply quiet_handle_stream_error | quiet_step]. }
      destruct (Hq _ _ _ Hcall) as [H1 H2]. split; [by rewrite H2|]. eexists. split; [unfold handed; rewrite H1; exact Hl|].
      right. by exists a.
    - injection Hcall as <- <-. split; [done|]. exists []. split; [unfold handed; by rewrite app_nil_r|]. left. bool_to_prop. done. }
  unfold handed in Hh. rewrite R1 in Hh. rewrite <-I1, <-B1, <-I2.
  destruct (negb (bool_decide _)).
  { injection Hrun as <-. split; [done|]. split; [done|]. exists calls. by rewrite I2, B1. }
  apply bind_Some_inv in Hrun as (u' & c3 & Hend & Hrun). injection Hrun as <-.
  assert (received (mem c3) = received (mem c2) /\ incoming_pad_length_ (inb c3) = incoming_pad_length_ (inb c2) /\
          (reaches_end d = false -> inb c3 = inb c2)) as (R3 & I3 & B3).
  { unfold when, end_header_block in Hend. destruct (reaches_end d); [|injection Hend as <- <-; done].
    apply bind_Some_inv in Hend as (u2 & c4 & Hm & Hend). injection Hm as <- <-.
    destruct (has_flag (flags fhr) kFlagEndHeaders); injection Hend as <- <-; done. }
  split; [done|]. split; [intros Hr; by rewrite (B3 Hr)|]. exists calls. unfold handed. rewrite R3, I2, B1. done.
Qed.

(** Both handlers at once. *)
Definition is_headers (fhr : FrameHeader) : bool := bool_decide (type_ fhr = Headers).

Definition rest_of (fhr : FrameHeader) : list Z -> Z -> Z -> M IoErr :=
  if is_headers fhr then headers_rest fhr else data_rest fhr.

Definition base_of (fhr : FrameHeader) (c : Conn T) : Z := if is_headers fhr then inbound_header_block_bytes_ (inb c) else 0.

Definition carries_content (fhr : FrameHeader) : Prop := type_ fhr = Data \/ type_ fhr = Headers.

Lemma rest_calls fhr buf o n c c' :
  carries_content fhr -> rest_of fhr buf o n c = Some (None_, c') ->
  let d := delivery (length_ fhr) (prefix_len fhr) (incoming_pad_length_ (inb c)) o n in
  incoming_pad_length_ (inb c') = incoming_pad_length_ (inb c) /\
  (reaches_end d = false -> base_of fhr c' = base_of fhr c) /\
  exists calls, handed c c' calls /\ call_of (is_headers fhr) (base_of fhr c) buf d calls.
Proof.
  unfold rest_of, base_of, is_headers, prefix_len. intros [-> | ->] Hrun; cbn in *.
  - destruct (data_rest_calls fhr buf o n c c' Hrun) as (-> & Hc). split; [done|]. split; [done|]. exact Hc.
  - exact (headers_rest_calls fhr buf o n c c' Hrun).
Qed.

(** ** A frame in pieces

    The read buffer may hold more behind a piece. *)
Fixpoint feed (fhr : FrameHeader) (offset : Z) (pieces : list (list Z * list Z)) : M IoErr :=
  match pieces with
  | [] => mret None_
  | (b, behind) :: rest =>
      err ← consume_incoming_frame_payload fhr (b ++ behind) offset (Z.of_nat (length b));
      if negb (bool_decide (err = None_)) then mret err else feed fhr (offset + Z.of_nat (length b)) rest
  end.

Definition first_of (fhr : FrameHeader) (buf : list Z) : M IoErr :=
  if is_headers fhr then headers_first fhr buf else data_first fhr buf.

(** A handler is its checks of the first piece and the rest. *)
Lemma consume_split fhr buf o n c :
  carries_content fhr -> expecting_continuation_ (inb c) = false ->
  consume_incoming_frame_payload fhr buf o n c =
  (err ← (if o =? 0 then first_of fhr buf else mret None_);
   if negb (bool_decide (err = None_)) then mret err else rest_of fhr buf o n) c.
Proof.
  intros Ht He. unfold consume_incoming_frame_payload, gets, mbind at 1, M_bind. rewrite He. cbn [andb negb].
  unfold rest_of, first_of, is_headers. by destruct Ht as [-> | ->].
Qed.

Lemma consume_expecting fhr buf o n c :
  carries_content fhr -> expecting_continuation_ (inb c) = true ->
  consume_incoming_frame_payload fhr buf o n c = Some (Invalid, c).
Proof.
  intros Ht He. unfold consume_incoming_frame_payload, gets, mbind at 1, M_bind. rewrite He.
  by destruct Ht as [-> | ->].
Qed.

Lemma first_checks fhr p buf c :
  carries_content fhr -> 0 <= p -> 0 <= length_ fhr ->
  exists c0, received (mem c0) = received (mem c) /\ inb c0 = set_incoming_pad_length_ (pad_len fhr [p]) (inb c) /\
    streams_ (mem c0) = streams_ (mem c) /\ stream_store (mem c0) = stream_store (mem c) /\
    if (stream_id fhr =? 0) || (length_ fhr <? prefix_len fhr + pad_len fhr [p]) then
      exists c1, first_of fhr (p :: buf) c = Some (Invalid, c1) /\ received (mem c1) = received (mem c)
    else
      first_of fhr (p :: buf) c =
        if negb (is_headers fhr) then Some (None_, c0)
        else if expecting_continuation_ (inb c) then Some (Invalid, c0)
        else if is_idle_stream c0 (stream_id fhr) then
          (created ← create_peer_stream (stream_id fhr); mret (match created with None => Invalid | Some _ => None_ end)) c0
        else Some (None_, c0).
Proof.
  intros Ht Hp HL. exists (set_inb (set_incoming_pad_length_ (pad_len fhr [p]) (inb c)) c).
  do 4 (split; [done|]).
  unfold first_of, is_headers, prefix_len, pad_len, data_prefix, headers_prefix.
  destruct Ht as [-> | ->]; [rewrite bool_decide_false by done; unfold data_first|rewrite bool_decide_true by done; unfold headers_first];
    unfold read_pad_length; unfold modify_inb, modify, gets, mbind, M_bind, mret, M_ret, headers_prefix;
    destruct (stream_id fhr =? 0); cbn [orb negb]; try (by eexists);
    destruct (has_flag (flags fhr) kFlagPadded); cbn [andb negb orb inb set_inb incoming_pad_length_ set_incoming_pad_length_].
  - destruct (_ <? _); [by eexists|done].
  - destruct (Z.ltb_spec (length_ fhr) (0 + 0)); [lia|done].
  - destruct (_ <? _); [by eexists|].
    change (set_inb (set_incoming_pad_length_ p (set_incoming_pad_length_ 0 (inb c)))
              (set_inb (set_incoming_pad_length_ 0 (inb c)) c)) with (set_inb (set_incoming_pad_length_ p (inb c)) c).
    change (expecting_continuation_ (set_incoming_pad_length_ p (set_incoming_pad_length_ 0 (inb c))))
      with (expecting_continuation_ (inb c)). destruct (expecting_continuation_ (inb c)); [done|]. by destruct (is_idle_stream _ _).
  - destruct (_ <? _); [by eexists|].
    change (expecting_continuation_ (set_incoming_pad_length_ 0 (inb c))) with (expecting_continuation_ (inb c)).
    destruct (expecting_continuation_ (inb c)); [done|]. by destruct (is_idle_stream _ _).
Qed.

(** ** The calls of a frame

    The bytes lie one behind the other from [start] on; the offset of a call
    without bytes says nothing. *)
Fixpoint calls_at (header : bool) (start : Z) (calls : list Received) : Prop :=
  match calls with
  | [] => True
  | r :: rest =>
      rc_header r = header /\ (rc_bytes r <> [] -> rc_offset r = start) /\
      calls_at header (start + Z.of_nat (length (rc_bytes r))) rest
  end.

Lemma calls_at_app h start l1 l2 :
  calls_at h start l1 -> calls_at h (start + Z.of_nat (length (concat (map rc_bytes l1)))) l2 -> calls_at h start (l1 ++ l2).
Proof.
  revert start. induction l1 as [|r l1 IH]; intros start; cbn [app calls_at map concat].
  - intros _. by rewrite Z.add_0_r.
  - intros (H1 & H2 & H3) Hl2. do 2 (split; [done|]). apply IH; [done|]. rewrite length_app in Hl2.
    by rewrite <-Z.add_assoc, <-Nat2Z.inj_add.
Qed.

Lemma delivery_before L prefix pad offset n :
  0 <= prefix -> 0 <= pad -> prefix + pad <= L < 2 ^ 32 -> deliver_len (delivery L prefix pad offset n) <> 0 -> offset < L - pad.
Proof.
  intros Hp Hpad HL. assert (u64 (L - prefix - pad) = L - prefix - pad) as Hu by (apply wrap_small; unfold in_width; lia).
  unfold delivery. rewrite Hu. cbn [deliver_len]. destruct (Z.ltb_spec (Z.max offset prefix) (Z.min (offset + n) (prefix + (L - prefix - pad)))); lia.
Qed.

Section Frame.
Variables (fhr : FrameHeader) (pad base : Z).
Hypothesis (Hkind : carries_content fhr) (Hpad : 0 <= pad) (HL : prefix_len fhr + pad <= length_ fhr < 2 ^ 32).
Local Abbreviation content_of := (content (length_ fhr) (prefix_len fhr) pad).

(** Before the rest of a payload of which [before] has been read. *)
Definition mid_frame (before : list Z) (c : Conn T) : Prop :=
  incoming_pad_length_ (inb c) = pad /\ (Z.of_nat (length before) < length_ fhr - pad -> base_of fhr c = base).

Definition handed_between (before before' : list Z) (c c' : Conn T) : Prop :=
  exists calls, handed c c' calls /\ content_of before ++ concat (map rc_bytes calls) = content_of before' /\
    calls_at (is_headers fhr) (base + Z.of_nat (length (content_of before))) calls.

Lemma piece_calls before b behind after c c' :
  Z.of_nat (length (before ++ b ++ after)) = length_ fhr -> mid_frame before c ->
  rest_of fhr (b ++ behind) (Z.of_nat (length before)) (Z.of_nat (length b)) c = Some (None_, c') ->
  mid_frame (before ++ b) c' /\ handed_between before (before ++ b) c c'.
Proof.
  intros Hlen [Hp Hb] Hrun. destruct (rest_calls fhr _ _ _ c c' Hkind Hrun) as (Hp' & Hbase & calls & Hh & Hc).
  rewrite Hp in *. set (d := delivery _ _ _ _ _) in *.
  destruct (delivery_slice (length_ fhr) (prefix_len fhr) pad (Z.of_nat (length before)) b behind before after
              (prefix_len_nonneg fhr) Hpad HL eq_refl Hlen) as (Hcat & Hoff & _ & Hend). fold d in Hcat, Hoff, Hend.
  split.
  - split; [done|]. intros Hlt. rewrite Hbase; [apply Hb; rewrite length_app in Hlt; lia|].
    apply not_true_iff_false. rewrite Hend, <-Nat2Z.inj_add, <-length_app. lia.
  - exists calls. split; [done|]. rewrite Hcat. destruct Hc as [[-> Hd]|[a ->]].
    + assert (slice (b ++ behind) d = []) as -> by (unfold slice; by rewrite Hd). cbn. by rewrite app_nil_r.
    + cbn [map concat rc_bytes]. rewrite app_nil_r. split; [done|]. split; [done|]. split; [|done]. intros Hne.
      assert (deliver_len d <> 0) as Hd by (intros Hd; apply Hne; unfold slice; by rewrite Hd).
      cbn [rc_offset]. rewrite (Hoff Hd), Hb; [done|]. by eapply delivery_before, Hd; [apply prefix_len_nonneg| |].
Qed.

Lemma handed_trans b1 b2 b3 c1 c2 c3 :
  handed_between b1 b2 c1 c2 -> handed_between b2 b3 c2 c3 -> handed_between b1 b3 c1 c3.
Proof.
  intros (l1 & H1 & E1 & C1) (l2 & H2 & E2 & C2). exists (l1 ++ l2). unfold handed in *.
  split; [by rewrite H2, H1, app_assoc|]. rewrite map_app, concat_app, app_assoc, E1. split; [done|].
  apply calls_at_app; [done|]. by rewrite <-Z.add_assoc, <-Nat2Z.inj_add, <-length_app, E1.
Qed.

Lemma feed_calls pieces before c c' :
  before <> [] -> Z.of_nat (length (before ++ concat (map fst pieces))) = length_ fhr -> mid_frame before c ->
  feed fhr (Z.of_nat (length before)) pieces c = Some (None_, c') ->
  handed_between before (before ++ concat (map fst pieces)) c c'.
Proof.
  revert before c. induction pieces as [|[b behind] pieces IH]; intros before c Hne Hlen Hmid Hrun.
  - injection Hrun as <-. cbn. rewrite app_nil_r. exists []. unfold handed. cbn. by rewrite !app_nil_r.
  - cbn [feed map fst concat] in *. apply bind_Some_inv in Hrun as (err & c1 & Hc & Hrun).
    destruct (negb (bool_decide (err = None_))) eqn:He; [injection Hrun as -> <-; done|].
    apply negb_false_iff, bool_decide_eq_true in He as ->.
    destruct (expecting_continuation_ (inb c)) eqn:Hexp; [by rewrite consume_expecting in Hc|].
    rewrite consume_split in Hc by done.
    rewrite (proj2 (Z.eqb_neq (Z.of_nat (length before)) 0)) in Hc by (destruct before; [done|cbn; lia]).
    destruct (piece_calls before b behind (concat (map fst pieces)) c c1 Hlen Hmid Hc) as [Hmid1 Hh1].
    rewrite app_assoc. eapply handed_trans; [exact Hh1|]. apply IH; [by destruct before|by rewrite <-app_assoc|done|].
    by rewrite length_app, Nat2Z.inj_add.
Qed.

End Frame.

(** ** A frame for a stream that receives *)

Definition receives (st : StreamState.State) : Prop := st = StreamState.Open \/ st = StreamState.HalfClosedLocal.

(** Stream [a] has the id of the frame and receives. *)
Definition stream_receives (fhr : FrameHeader) (a : nat) (c : Conn T) : Prop :=
  find_stream c (stream_id fhr) = Some a /\ exists s, stream_store (mem c) !! a = Some s /\ receives (state_ s).

(** One step of such a frame: a call for stream [a], or none. *)
Definition hands_to (fhr : FrameHeader) (a : nat) (c c' : Conn T) : Prop :=
  stream_receives fhr a c' /\ inb c' = inb c /\ exists calls, handed c c' calls /\ Forall (fun r => rc_stream r = a) calls.

Lemma receives_transitions st : receives st ->
  StreamState.transition_on_recv_data st false = (None_, st) /\ StreamState.transition_on_recv_headers st false = (None_, st) /\
  st <> StreamState.Closed.
Proof. by intros [-> | ->]. Qed.

Lemma recv_hands fhr a payload o n eh c :
  stream_receives fhr a c ->
  (exists c', on_data_recv a payload o n false c = Some (None_, c') /\ hands_to fhr a c c') /\
  (exists c', on_header_recv a payload o n eh false c = Some (None_, c') /\ hands_to fhr a c c').
Proof.
  intros (Hf & s & Hs & Hst). destruct (receives_transitions _ Hst) as (Hd & Hh & _).
  unfold on_data_recv, on_header_recv.
  split; unfold modify_mem at 1, modify; unfold mbind at 1, M_bind;
    (match goal with |- context [set_received ?l (mem c)] => set (c1 := set_mem (set_received l (mem c)) c) end);
    (rewrite (bind_run _ _ _ _ _ (get_stream_run a c1 s Hs))); rewrite ?Hd, ?Hh;
    (rewrite (bind_run _ _ _ _ _ (mod_stream_run a (set_state_ (state_ s)) c1 s Hs)));
    (eexists; split; [reflexivity|]); (split; [split; [exact Hf|]; eexists; split; [apply lookup_insert_eq|exact Hst]|]);
    (split; [done|]); (eexists; split; [reflexivity|by constructor]).
Qed.

Lemma maybe_destroy_receives fhr a c : stream_receives fhr a c -> maybe_destroy_stream a c = Some (tt, c).
Proof.
  intros (_ & s & Hs & Hst). unfold maybe_destroy_stream. rewrite (bind_run _ _ _ _ _ (get_stream_run a c s Hs)).
  by rewrite bool_decide_false by apply (receives_transitions _ Hst).
Qed.

(** The rest of a handler never fails on it; a block that goes on in
    [CONTINUATION] frames is awaited from the last piece on. *)
Lemma rest_hands fhr a buf o n c :
  let d := delivery (length_ fhr) (prefix_len fhr) (incoming_pad_length_ (inb c)) o n in
  carries_content fhr -> stream_receives fhr a c -> has_flag (flags fhr) kFlagEndStream = false ->
  (deliver_len d <> 0 \/ reaches_end d = true -> retain_slice_ok buf (chunk_begin d) (deliver_len d) = true) ->
  exists c', rest_of fhr buf o n c = Some (None_, c') /\ stream_receives fhr a c' /\
    (exists calls, handed c c' calls /\ Forall (fun r => rc_stream r = a) calls) /\
    (expecting_continuation_ (inb c) = false -> expecting_continuation_ (inb c') = true ->
     is_headers fhr = true /\ has_flag (flags fhr) kFlagEndHeaders = false /\ reaches_end d = true).
Proof.
  intros d Hkind Ha Hes Hok. pose proof Ha as [Hf _]. subst d. unfold rest_of, is_headers, prefix_len in *.
  destruct Hkind as [Hk|Hk]; rewrite Hk in *; [rewrite bool_decide_false by done|rewrite bool_decide_true by done].
  - unfold data_rest, gets, mbind at 1, M_bind. rewrite Hf, Hes. cbv zeta. set (d := delivery _ _ _ _ _) in *. cbn [andb].
    destruct (Z.eqb_spec (deliver_len d) 0) as [Hd|Hd]; cbn [negb orb].
    + exists c. split; [done|]. split; [done|]. split; [|congruence]. exists []. split; [unfold handed; by rewrite app_nil_r|done].
    + assert ((fiber_assert (retain_slice_ok buf (chunk_begin d) (deliver_len d)) : M unit) c = Some (tt, c)) as Hassert
        by (by rewrite Hok by (by left)).
      rewrite (bind_run _ _ _ _ _ Hassert).
      destruct (recv_hands fhr a (slice_or_all buf d) (content_offset d) (deliver_len d) true c Ha) as [(c1 & Hrun & Ha1 & Hi & Hc) _].
      rewrite (bind_run _ _ _ _ _ Hrun). rewrite bool_decide_true by done.
      cbn [negb]. rewrite (bind_run _ _ _ _ _ (maybe_destroy_receives fhr a c1 Ha1)).
      exists c1. split; [done|]. split; [done|]. split; [done|]. rewrite Hi. congruence.
  - unfold headers_rest, gets, mbind at 1, M_bind. rewrite Hf, Hes. cbv zeta. set (d := delivery _ _ _ _ _) in *. cbn [andb].
    set (eh := has_flag (flags fhr) kFlagEndHeaders) in *.
    match goal with |- context [when (o =? 0) ?m] => set (w := when (o =? 0) m) end.
    assert (exists c1, w c = Some (tt, c1) /\ mem c1 = mem c /\
              expecting_continuation_ (inb c1) = expecting_continuation_ (inb c)) as (c1 & Hw & Hm1 & He1).
    { subst w. unfold when. destruct (o =? 0); by eexists. }
    rewrite (bind_run _ _ _ _ _ Hw). clear Hw w.
    assert (stream_receives fhr a c1) as Ha1 by (unfold stream_receives, find_stream; by rewrite Hm1).
    match goal with |- context [(if _ || _ then ?m else _) ≫= ?k] => set (call := m); set (next := k) end.
    assert (exists c2, (if negb (deliver_len d =? 0) || eh && reaches_end d then call else mret None_) c1 = Some (None_, c2) /\
              hands_to fhr a c1 c2) as (c2 & Hcall & Ha2 & Hi2 & Hc2).
    { destruct (negb (deliver_len d =? 0) || eh && reaches_end d) eqn:Hd.
      - subst call.
        assert ((fiber_assert (retain_slice_ok buf (chunk_begin d) (deliver_len d)) : M unit) c1 = Some (tt, c1)) as Hassert.
        { rewrite Hok; [done|]. apply orb_true_iff in Hd as [Hd|Hd]; [left; by apply negb_true_iff, Z.eqb_neq in Hd|].
          right. by apply andb_true_iff in Hd as [_ Hd]. }
        rewrite (bind_run _ _ _ _ _ Hassert).
        destruct (recv_hands fhr a (slice_or_all buf d) (inbound_header_block_bytes_ (inb c) + content_offset d) (deliver_len d)
                    (eh && reaches_end d) c1 Ha1) as [_ (c2 & Hrun & H2)].
        rewrite (bind_run _ _ _ _ _ Hrun). rewrite bool_decide_true by done. cbn [negb].
        rewrite (bind_run _ _ _ _ _ (maybe_destroy_receives fhr a c2 (proj1 H2))). by exists c2.
      - exists c1. split; [done|]. split; [done|]. split; [done|]. exists []. split; [unfold handed; by rewrite app_nil_r|done]. }
    rewrite (bind_run _ _ _ _ _ Hcall). subst next. cbv beta. rewrite bool_decide_true by done. cbn [negb].
    unfold handed in Hc2. rewrite Hm1 in Hc2. rewrite <-He1, <-Hi2. unfold when, end_header_block, modify_inb, modify, mbind, M_bind, mret, M_ret.
    destruct (reaches_end d); [|exists c2; split; [done|]; split; [done|]; split; [done|congruence]].
    destruct eh; (eexists; split; [reflexivity|]); (split; [exact Ha2|]); (split; [exact Hc2|]); done.
Qed.

(** A piece behind the checks, and the pieces after it. *)
Definition through (fhr : FrameHeader) (offset : Z) (b behind : list Z) (pieces : list (list Z * list Z)) : M IoErr :=
  err ← rest_of fhr (b ++ behind) offset (Z.of_nat (length b));
  if negb (bool_decide (err = None_)) then mret err else feed fhr (offset + Z.of_nat (length b)) pieces.

Lemma feed_through fhr offset b behind pieces c :
  carries_content fhr -> offset <> 0 -> expecting_continuation_ (inb c) = false ->
  feed fhr offset ((b, behind) :: pieces) c = through fhr offset b behind pieces c.
Proof.
  intros Hk Ho He. cbn [feed]. unfold through. unfold mbind at 1 2, M_bind. rewrite consume_split by done.
  by rewrite (proj2 (Z.eqb_neq offset 0)).
Qed.

(** When a [HEADERS] frame that leaves its block open has no padding. *)
Definition block_padding_ok (fhr : FrameHeader) (pad : Z) : Prop :=
  is_headers fhr = true -> has_flag (flags fhr) kFlagEndHeaders = true \/ pad = 0.

Lemma through_runs fhr a pad pieces before b behind c :
  carries_content fhr -> 0 <= pad -> prefix_len fhr + pad <= length_ fhr < 2 ^ 32 ->
  has_flag (flags fhr) kFlagEndStream = false -> block_padding_ok fhr pad -> b <> [] -> Forall (fun p => p.1 <> []) pieces ->
  Z.of_nat (length (before ++ b ++ concat (map fst pieces))) = length_ fhr ->
  incoming_pad_length_ (inb c) = pad -> expecting_continuation_ (inb c) = false -> stream_receives fhr a c ->
  exists c' calls, through fhr (Z.of_nat (length before)) b behind pieces c = Some (None_, c') /\ handed c c' calls /\
    Forall (fun r => rc_stream r = a) calls.
Proof.
  revert before b behind c. induction pieces as [|[b2 behind2] pieces IH];
    intros before b behind c Hk Hpad HL Hes Hblock Hne Hall Hlen Hp Hexp Ha; unfold through;
    (destruct (delivery_slice (length_ fhr) (prefix_len fhr) pad (Z.of_nat (length before)) b behind before _
                (prefix_len_nonneg fhr) Hpad HL eq_refl Hlen) as (_ & _ & Hok & Hend); rewrite <-Hp in Hok, Hend;
     destruct (rest_hands fhr a _ _ _ c Hk Ha Hes Hok) as (c1 & Hrun & Ha1 & (l1 & Hh1 & F1) & Hexp1);
     rewrite (bind_run _ _ _ _ _ Hrun), bool_decide_true by done; cbn [negb]).
  - by exists c1, l1.
  - apply Forall_cons in Hall as [Hne2 Hall]. cbn [fst map concat] in *.
    assert (0 < Z.of_nat (length b2)) as Hl2 by (destruct b2; [done|cbn; lia]).
    rewrite !length_app, !Nat2Z.inj_add in Hlen.
    assert (expecting_continuation_ (inb c1) = false) as He1.
    { destruct (expecting_continuation_ (inb c1)); [|done]. destruct (Hexp1 Hexp eq_refl) as (Hh & Hno & Hr).
      apply Hend in Hr. destruct (Hblock Hh) as [?|Hz]; [congruence|]. lia. }
    assert (0 < Z.of_nat (length b)) by (destruct b; [done|cbn; lia]).
    rewrite feed_through by (done || lia). rewrite <-Nat2Z.inj_add, <-length_app.
    destruct (IH (before ++ b) b2 behind2 c1) as (c2 & l2 & Hrun2 & Hh2 & F2); try done.
    + rewrite !length_app, !Nat2Z.inj_add. lia.
    + destruct (rest_calls fhr _ _ _ c c1 Hk Hrun) as [-> _]. done.
    + exists c2, (l1 ++ l2). split; [done|]. unfold handed in *. split; [by rewrite Hh2, Hh1, app_assoc|by apply Forall_app].
Qed.

(** The whole frame, whose first byte is [p]. *)
Section Whole.
Variables (fhr : FrameHeader) (p : Z) (b behind : list Z) (pieces : list (list Z * list Z)) (c : Conn T).
Local Abbreviation payload := ((p :: b) ++ concat (map fst pieces)).
Local Abbreviation pad := (pad_len fhr (p :: b)).
Hypothesis (Hk : carries_content fhr) (Hall : Forall (fun p => p.1 <> []) pieces) (Hnn : Forall (fun x => 0 <= x) payload).
Hypothesis (Hlen : Z.of_nat (length payload) = length_ fhr) (HL : length_ fhr < 2 ^ 24).

Lemma pad_nonneg : 0 <= pad.
Proof. apply Forall_cons in Hnn as [? _]. unfold pad_len. case_match; lia. Qed.

Lemma payload_content :
  frame_content fhr payload =
    if prefix_len fhr + pad <=? length_ fhr then Some (content (length_ fhr) (prefix_len fhr) pad payload) else None.
Proof. rewrite <-Hlen. exact (frame_content_spec fhr payload ltac:(done) Hnn Hk). Qed.

Lemma first_checks_frame :
  exists c0, received (mem c0) = received (mem c) /\ inb c0 = set_incoming_pad_length_ pad (inb c) /\
    (forall a, stream_receives fhr a c -> stream_receives fhr a c0 /\
       (stream_id fhr <> 0 -> is_idle_stream c0 (stream_id fhr) = false)) /\
    if (stream_id fhr =? 0) || (length_ fhr <? prefix_len fhr + pad) then
      exists c1, first_of fhr ((p :: b) ++ behind) c = Some (Invalid, c1) /\ received (mem c1) = received (mem c)
    else
      first_of fhr ((p :: b) ++ behind) c =
        if negb (is_headers fhr) then Some (None_, c0)
        else if expecting_continuation_ (inb c) then Some (Invalid, c0)
        else if is_idle_stream c0 (stream_id fhr) then
          (created ← create_peer_stream (stream_id fhr); mret (match created with None => Invalid | Some _ => None_ end)) c0
        else Some (None_, c0).
Proof.
  apply Forall_cons in Hnn as [Hp _].
  destruct (first_checks fhr p (b ++ behind) c Hk Hp ltac:(lia)) as (c0 & R0 & I0 & S0 & St0 & Hfirst).
  exists c0. do 2 (split; [done|]). split; [|exact Hfirst]. intros a (Hf & s & Hs & Hst).
  assert (find_stream c0 (stream_id fhr) = Some a) as Hf0 by (unfold find_stream; by rewrite S0).
  split; [split; [done|]; exists s; by rewrite St0|]. intros Hsid. unfold is_idle_stream.
  rewrite Hf0, (proj2 (Z.eqb_neq _ _) Hsid). by rewrite bool_decide_true by eauto.
Qed.

Lemma feed_first x c1 :
  expecting_continuation_ (inb c) = false -> first_of fhr ((p :: b) ++ behind) c = Some (x, c1) ->
  feed fhr 0 ((p :: b, behind) :: pieces) c =
    if negb (bool_decide (x = None_)) then Some (x, c1) else through fhr 0 (p :: b) behind pieces c1.
Proof.
  intros He Hf. cbn [feed]. unfold through. unfold mbind at 1, M_bind. rewrite consume_split by done. cbn [Z.eqb].
  rewrite (bind_run _ _ _ _ _ Hf). destruct (negb (bool_decide (x = None_))) eqn:Hx; [|done].
  unfold mret, M_ret. by rewrite Hx.
Qed.

Lemma feed_expecting :
  expecting_continuation_ (inb c) = true -> feed fhr 0 ((p :: b, behind) :: pieces) c = Some (Invalid, c).
Proof. intros He. cbn [feed]. by rewrite (bind_run _ _ _ _ _ (consume_expecting fhr _ _ _ c Hk He)). Qed.

Lemma feed_content c' :
  feed fhr 0 ((p :: b, behind) :: pieces) c = Some (None_, c') ->
  exists calls, received (mem c') = received (mem c) ++ calls /\
    frame_content fhr payload = Some (concat (map rc_bytes calls)) /\ calls_at (is_headers fhr) (base_of fhr c) calls.
Proof.
  intros Hrun. rewrite payload_content. pose proof pad_nonneg as Hpad.
  destruct (expecting_continuation_ (inb c)) eqn:He; [by rewrite feed_expecting in Hrun|].
  destruct first_checks_frame as (c0 & R0 & I0 & _ & Hfirst).
  destruct ((stream_id fhr =? 0) || (length_ fhr <? prefix_len fhr + pad)) eqn:Hbad.
  { destruct Hfirst as (c3 & Hf & _). by rewrite (feed_first _ _ He Hf) in Hrun. }
  apply orb_false_iff in Hbad as [_ Hshort]. apply Z.ltb_ge in Hshort. rewrite (proj2 (Z.leb_le _ _) Hshort).
  destruct (first_of fhr ((p :: b) ++ behind) c) as [[x c1]|] eqn:Hf.
  2:{ cbn [feed] in Hrun. unfold mbind at 1, M_bind in Hrun. rewrite consume_split in Hrun by done. cbn [Z.eqb] in Hrun.
      unfold mbind at 1, M_bind in Hrun. by rewrite Hf in Hrun. }
  rewrite (feed_first _ _ He Hf) in Hrun. destruct (negb (bool_decide (x = None_))) eqn:Hx; [by injection Hrun as -> <-|].
  assert (received (mem c1) = received (mem c) /\ inb c1 = inb c0) as [R1 I1].
  { symmetry in Hfirst. rewrite He in Hfirst. destruct (negb (is_headers fhr)); [by injection Hfirst as _ <-|]. rewrite <-R0.
    destruct (is_idle_stream c0 (stream_id fhr)); [|by injection Hfirst as _ <-].
    eapply (quiet_bind (create_peer_stream (stream_id fhr))); [apply quiet_create_peer_stream|intros; apply quiet_ret|exact Hfirst]. }
  assert (mid_frame fhr pad (base_of fhr c) [] c1) as Hmid.
  { split; [by rewrite I1, I0|]. intros _. unfold base_of. by rewrite I1, I0. }
  unfold through in Hrun. apply bind_Some_inv in Hrun as (err & c2 & Hc & Hrun).
  destruct (negb (bool_decide (err = None_))) eqn:Herr; [injection Hrun as -> <-; done|].
  apply negb_false_iff, bool_decide_eq_true in Herr as ->.
  destruct (piece_calls fhr _ _ Hk Hpad ltac:(lia) [] (p :: b) behind (concat (map fst pieces)) c1 c2 Hlen Hmid Hc) as [Hmid2 Hh1].
  pose proof (feed_calls fhr _ _ Hk Hpad ltac:(lia) pieces (p :: b) c2 c' ltac:(done) Hlen Hmid2 Hrun) as Hh2.
  destruct (handed_trans fhr _ _ _ _ _ _ _ _ Hh1 Hh2) as (calls & Hh & Hcat & Hat).
  assert (forall L x y, content L x y [] = []) as Hnil by (intros; unfold content; by rewrite drop_nil, take_nil).
  rewrite Hnil in Hcat, Hat. cbn [app length] in Hcat, Hat. rewrite Z.add_0_r in Hat.
  exists calls. split; [by rewrite Hh, R1|]. split; [|done]. by rewrite Hcat.
Qed.

Lemma feed_runs a :
  stream_receives fhr a c -> stream_id fhr <> 0 -> expecting_continuation_ (inb c) = false ->
  has_flag (flags fhr) kFlagEndStream = false -> frame_content fhr payload <> None -> block_padding_ok fhr pad ->
  exists c' calls, feed fhr 0 ((p :: b, behind) :: pieces) c = Some (None_, c') /\
    received (mem c') = received (mem c) ++ calls /\ Forall (fun r => rc_stream r = a) calls.
Proof.
  intros Ha Hsid He Hes Hfc Hblock. rewrite payload_content in Hfc.
  destruct (Z.leb_spec (prefix_len fhr + pad) (length_ fhr)) as [Hfit|]; [|done].
  destruct first_checks_frame as (c0 & R0 & I0 & Hst & Hfirst). destruct (Hst a Ha) as [Ha0 Hidle].
  rewrite (proj2 (Z.eqb_neq _ _) Hsid), (proj2 (Z.ltb_ge _ _) Hfit), He, (Hidle Hsid) in Hfirst. cbn [orb] in Hfirst.
  assert (first_of fhr ((p :: b) ++ behind) c = Some (None_, c0)) as Hf0 by (by destruct (negb (is_headers fhr))).
  rewrite (feed_first _ _ He Hf0), bool_decide_true by done. cbn [negb].
  destruct (through_runs fhr a pad pieces [] (p :: b) behind c0) as (c' & calls & Hrun & Hh & Hs);
    try (done || apply pad_nonneg || lia || by rewrite I0).
  exists c', calls. split; [exact Hrun|]. split; [by rewrite Hh, R0|done].
Qed.

Lemma feed_refused :
  stream_id fhr = 0 \/ frame_content fhr payload = None ->
  exists c', feed fhr 0 ((p :: b, behind) :: pieces) c = Some (Invalid, c') /\ received (mem c') = received (mem c).
Proof.
  intros Hbad. rewrite payload_content in Hbad. destruct first_checks_frame as (c0 & _ & _ & _ & Hfirst).
  assert ((stream_id fhr =? 0) || (length_ fhr <? prefix_len fhr + pad) = true) as Hb1.
  { destruct Hbad as [->|Hbad]; [done|]. apply orb_true_iff. right. apply Z.ltb_lt.
    destruct (Z.leb_spec (prefix_len fhr + pad) (length_ fhr)); [done|lia]. }
  rewrite Hb1 in Hfirst. destruct Hfirst as (c1 & Hf & R1). destruct (expecting_continuation_ (inb c)) eqn:He.
  - exists c. by rewrite feed_expecting.
  - exists c1. by rewrite (feed_first _ _ He Hf).
Qed.

End Whole.

(** C38. Padding and priority never reach the stream.  Take a [DATA] or
    [HEADERS] frame with at least one byte of payload, that arrives in non-empty
    pieces, with any bytes behind them in the buffer, and the calls of
    [consume_incoming_frame_payload] on these.  If none reports an error, the
    bytes handed to [on_data_recv] or [on_header_recv] one after the other are
    the content of the frame, behind the pad length and the five bytes of the
    priority and before the padding, and each call with bytes says where they
    lie.  None reports an error if the stream of the frame is there and receives,
    no [CONTINUATION] is awaited, the frame does not end the stream, is long
    enough for its flags, and is no padded [HEADERS] frame without
    [END_HEADERS]; all calls then are for that stream.  A frame without a
    stream id, or too short for its flags, is refused with [Invalid] at its first
    piece and hands nothing on. *)
Theorem padded_content_delivered (fhr : FrameHeader) (pieces : list (list Z * list Z)) (c : Conn T) :
  let payload := concat (map fst pieces) in
  carries_content fhr -> pieces <> [] -> Forall (fun p => p.1 <> []) pieces -> Forall (fun b => 0 <= b < 256) payload ->
  Z.of_nat (length payload) = length_ fhr -> length_ fhr < 2 ^ 24 ->
  (forall c', feed fhr 0 pieces c = Some (None_, c') ->
     exists calls, received (mem c') = received (mem c) ++ calls /\
       frame_content fhr payload = Some (concat (map rc_bytes calls)) /\
       calls_at (is_headers fhr) (base_of fhr c) calls) /\
  (forall a, stream_receives fhr a c -> stream_id fhr <> 0 -> expecting_continuation_ (inb c) = false ->
     has_flag (flags fhr) kFlagEndStream = false -> frame_content fhr payload <> None ->
     block_padding_ok fhr (pad_len fhr payload) ->
     exists c' calls, feed fhr 0 pieces c = Some (None_, c') /\ received (mem c') = received (mem c) ++ calls /\
       Forall (fun r => rc_stream r = a) calls) /\
  (stream_id fhr = 0 \/ frame_content fhr payload = None ->
     exists c', feed fhr 0 pieces c = Some (Invalid, c') /\ received (mem c') = received (mem c)).
Proof.
  intros payload Hk Hne Hall Hbytes Hlen HL. destruct pieces as [|[[|p b] behind] pieces]; [done| |].
  { by apply Forall_cons in Hall as [Hb _]. }
  apply Forall_cons in Hall as [_ Hall].
  assert (Forall (fun x => 0 <= x) payload) as Hnn by (eapply Forall_impl; [exact Hbytes|]; cbv beta; lia).
  split; [|split].
  - intros c'. by apply feed_content.
  - intros a Ha Hsid He Hes Hfc Hblock. by apply feed_runs.
  - by apply feed_refused.
Qed.

End Handed.

(** ** Examples *)

Section Examples.
Import Sample.

(** A padded [HEADERS] frame with priority: the block [1;2;3] behind the pad
    length and five bytes, two bytes of padding behind it, in four pieces. *)
Lemma padded_content_delivered_witness :
  let fhr := mkFrameHeader 11 Headers (Z.lor kFlagPadded (Z.lor kFlagPriority kFlagEndHeaders)) 1 in
  let pieces := [([2; 0; 0], []); ([0; 0; 16; 1], [9]); ([2; 3; 0], [7; 7]); ([0], [])] in
  let c := connection (stream StreamState.Open 100 []) [] in
  exists c' calls, feed fhr 0 pieces c = Some (None_, c') /\ received (mem c') = received (mem c) ++ calls /\
    concat (map rc_bytes calls) = [1; 2; 3] /\ calls_at true 0 calls /\
    calls = [mkReceived 0 true [1] 0; mkReceived 0 true [2; 3] 1; mkReceived 0 true [] 4].
Proof.
  intros fhr pieces c.
  destruct (padded_content_delivered fhr pieces c) as (Hok & Hruns & _);
    [by right|done|by repeat constructor|by vm_compute; repeat constructor|done|done|].
  destruct (Hruns 0%nat) as (c' & calls & Hrun & Hrec & _).
  - split; [by vm_compute|]. exists (stream StreamState.Open 100 []). split; [by vm_compute|by left].
  - done.
  - by vm_compute.
  - by vm_compute.
  - by vm_compute.
  - intros _. left. by vm_compute.
  - destruct (Hok c' Hrun) as (calls' & Hrec' & Hcontent & Hat). rewrite Hrec in Hrec'. apply app_inv_head in Hrec' as <-.
    assert (option_map (fun x => received (mem x.2)) (feed fhr 0 pieces c) =
              Some [mkReceived 0 true [1] 0; mkReceived 0 true [2; 3] 1; mkReceived 0 true [] 4]) as Hlog by (vm_compute; reflexivity).
    rewrite Hrun in Hlog. cbn [option_map snd] in Hlog. injection Hlog as Hlog. rewrite Hrec in Hlog.
    change (received (mem c)) with ([] : list Received) in Hlog. cbn [app] in Hlog. subst calls.
    exists c', [mkReceived 0 true [1] 0; mkReceived 0 true [2; 3] 1; mkReceived 0 true [] 4].
    split; [exact Hrun|]. split; [exact Hrec|]. split; [done|]. split; [exact Hat|done].
Defined.

(** A padded [HEADERS] frame without [END_HEADERS] whose padding arrives in a read
    of its own is refused: the piece with the end of the block makes the connection await a
    [CONTINUATION] frame, and then the rest of this very frame is one frame of another
    type.  In one piece the frame is accepted. *)
Theorem late_padding_of_open_block_refused :
  let fhr := mkFrameHeader 3 Headers kFlagPadded 1 in
  let c := connection (stream StreamState.Open 100 []) [] in
  (exists c', feed fhr 0 [([1; 65], []); ([0], [])] c = Some (Invalid, c')) /\
  (exists c', feed fhr 0 [([1; 65; 0], [])] c = Some (None_, c')).
Proof. intros fhr c. split; eexists; vm_compute; reflexivity. Qed.

End Examples.

End Padding.
