(* ===== verification/Http2Lifecycle.v ===== *)
(** * The life of an HTTP/2 connection

    The entry points of the connection as one step relation, and what holds along
    every run of it: shutdown only moves forward, and the flow-control windows
    stay 32-bit numbers. *)
From S2P Require Import Prelude IoError Http2Protocol Http2StreamState Http2Sending Http2SendQueue StreamTable Http2State.
From S2P Require Import Http2Stream Http2Reader Http2Connection.
Import IoError SendPayload Pending SendEntry Protocol Conn Stream Connection.

Module Lifecycle.

Section Steps.
Context {T : Type} `{StreamIndex T}.
Local Abbreviation M := (@M T).

Definition event_bytes (ev : Reader.Event) : Prop :=
  match ev with Reader.EvChunk _ buf _ _ => Forall (fun b => 0 <= b) buf | _ => True end.

(** ** Steps

    What can happen to a connection: the parse loop turns, the application calls
    a method, the send loop turns, [run] begins or ends.  Bytes are not negative, a
    failed write carries an error, and so does a request to shut down. *)
Inductive step : Conn T -> Conn T -> Prop :=
  | step_run_begin c r c' : run_begin c = Some (r, c') -> step c c'
  | step_event ev c r c' : event_bytes ev -> run_event ev c = Some (r, c') -> step c c'
  | step_create_local sid c r c' : create_local_stream sid c = Some (r, c') -> step c c'
  | step_send_header a p es c r c' : send_header a p es c = Some (r, c') -> step c c'
  | step_send_data a p es c r c' : send_data a p es c = Some (r, c') -> step c c'
  | step_close_rst a code res c r c' : close_rst a code res c = Some (r, c') -> step c c'
  | step_window_update sid n c r c' : send_window_update sid n c = Some (r, c') -> step c c'
  | step_poll c (r : option Http2SendingEntry) c' : on_queue SendQueue.pop_ready c = Some (r, c') -> step c c'
  | step_send st polled outcome c r c' :
      outcome <> inl None_ -> send_loop_turn st polled outcome c = Some (r, c') -> step c c'
  | step_loop_exit c r c' : send_loop_exit c = Some (r, c') -> step c c'
  | step_graceful c r c' : graceful_shutdown c = Some (r, c') -> step c c'
  | step_shutdown reason c r c' : reason <> None_ -> abort_connection reason c = Some (r, c') -> step c c'
  | step_finish_begin result c r c' : finish_run_begin result c = Some (r, c') -> step c c'
  | step_finish_end c r c' : finish_run_end c = Some (r, c') -> step c c'.

(** ** Shutdown moves forward *)

(** How far the shutdown has come; a connection that is closed may be aborted
    once more. *)
Definition rank (s : CloseState) : Z :=
  match s with Open => 0 | PeerDraining => 1 | LocalDraining => 2 | BothDraining => 3 | AbortClosing | Closed => 4 end.

Definition queue_closed (c : Conn T) : Prop := SendQueue.closed_ (send_queue_ (mem c)) = true.

(** Stopped connections have a closed queue; [GOAWAY] is out only while draining
    or later. *)
Record life_ok (c : Conn T) : Prop := mkLifeOk {
  lo_stop : stop_sending_requested_ (life c) = true -> queue_closed c /\ 4 <= rank (close_state_ (life c));
  lo_goaway : local_goaway_sent_ (life c) = true -> 2 <= rank (close_state_ (life c)) }.

Record forward (c c' : Conn T) : Prop := mkForward {
  fw_ok : life_ok c';
  fw_rank : rank (close_state_ (life c)) <= rank (close_state_ (life c'));
  fw_stop : stop_sending_requested_ (life c) = true ->
    stop_sending_requested_ (life c') = true /\ stop_sending_reason_ (life c') = stop_sending_reason_ (life c);
  fw_queue : queue_closed c -> queue_closed c' /\ exists popped, ready_of c = popped ++ ready_of c';
  fw_goaway : local_goaway_sent_ (life c) = true ->
    local_goaway_sent_ (life c') = true /\ local_goaway_last_stream_id_ (life c') = local_goaway_last_stream_id_ (life c);
  fw_ids : last_peer_stream_id_ (ids c) <= last_peer_stream_id_ (ids c') /\
    last_local_stream_id_ (ids c) <= last_local_stream_id_ (ids c');
  fw_drain : 1 <= rank (close_state_ (life c)) -> last_peer_stream_id_ (ids c') = last_peer_stream_id_ (ids c) /\
    last_local_stream_id_ (ids c') = last_local_stream_id_ (ids c) }.

Definition advances (c c' : Conn T) : Prop := life_ok c -> forward c c'.

Lemma advances_refl c : advances c c.
Proof. intros Hok. split; try done. intros Hq. split; [done|]. by exists []. Qed.

Lemma advances_trans c1 c2 c3 : advances c1 c2 -> advances c2 c3 -> advances c1 c3.
Proof.
  intros H12 H23 Hok. destruct (H12 Hok) as [Hok2 R S Q G I D]. destruct (H23 Hok2) as [Hok3 R' S' Q' G' I' D'].
  split; [done|lia| | | |lia|].
  - intros Hs. destruct (S Hs) as [Hs2 <-]. auto.
  - intros Hq. destruct (Q Hq) as [Hq2 [l E]]. destruct (Q' Hq2) as [Hq3 [l' E']]. split; [done|].
    exists (l ++ l'). by rewrite E, E', app_assoc.
  - intros Hg. destruct (G Hg) as [Hg2 <-]. auto.
  - intros Hd. destruct (D Hd) as [E1 E2]. destruct D' as [E3 E4]; [lia|]. split; congruence.
Qed.

#[global] Instance advances_preorder : PreOrder advances.
Proof. split; [exact advances_refl|exact advances_trans]. Qed.

(** The parts [advances] speaks of. *)
Definition same_life (c c' : Conn T) : Prop :=
  life c' = life c /\ ids c' = ids c /\ send_queue_ (mem c') = send_queue_ (mem c).

Lemma same_life_advances c c' : same_life c c' -> advances c c'.
Proof.
  intros (E1 & E2 & E3) [Hs Hg]. unfold queue_closed, ready_of in *. split; unfold queue_closed, ready_of; rewrite ?E1, ?E2, ?E3; try done.
  - split; unfold queue_closed; rewrite ?E1, ?E3; done.
  - intros Hq. split; [done|]. by exists [].
Qed.

Definition keeps {A} (m : M A) : Prop := forall c x c', m c = Some (x, c') -> advances c c'.

Lemma keeps_bind {A B} (m : M A) (k : A -> M B) : keeps m -> (forall x, keeps (k x)) -> keeps (m ≫= k).
Proof.
  intros Hm Hk c y c' Hrun. apply bind_Some_inv in Hrun as (x & c1 & H1 & H2). etrans; [by eapply Hm|by eapply Hk].
Qed.

Lemma keeps_pure {A} (m : M A) : (forall c x c', m c = Some (x, c') -> c' = c) -> keeps m.
Proof. intros Hm c x c' Hrun. by rewrite (Hm c x c' Hrun). Qed.

Lemma keeps_ret {A} (x : A) : keeps (mret x : M A).
Proof. apply keeps_pure. by intros c y c' [= <- <-]. Qed.
Lemma keeps_gets {A} (f : Conn T -> A) : keeps (gets f).
Proof. apply keeps_pure. by intros c y c' [= <- <-]. Qed.
Lemma keeps_crash {A} : keeps (crash : M A).
Proof. by intros c y c'. Qed.
Lemma keeps_get_stream a : keeps (get_stream a).
Proof. apply keeps_pure. unfold get_stream. intros c x c'. by destruct (_ !! a); intros [= <- <-]. Qed.
Lemma keeps_get_pending e : keeps (get_pending e).
Proof. apply keeps_pure. unfold get_pending. intros c x c'. by destruct (_ !! e); intros [= <- <-]. Qed.
Lemma keeps_assert b : keeps (fiber_assert b : M unit).
Proof. destruct b; [apply keeps_ret|apply keeps_crash]. Qed.
Lemma keeps_when b (m : M unit) : keeps m -> keeps (when b m).
Proof. intros Hm. destruct b; [done|apply keeps_ret]. Qed.

Lemma keeps_modify f : (forall c, advances c (f c)) -> keeps (modify f).
Proof. intros Hf c x c' [= <- <-]. apply Hf. Qed.
Lemma keeps_modify_peer f : keeps (modify_peer f).
Proof. apply keeps_modify. intros c. by apply same_life_advances. Qed.
Lemma keeps_modify_inb f : keeps (modify_inb f).
Proof. apply keeps_modify. intros c. by apply same_life_advances. Qed.
Lemma keeps_modify_mem f : (forall m : Mem T, send_queue_ (f m) = send_queue_ m) -> keeps (modify_mem f).
Proof. intros Hf. apply keeps_modify. intros c. apply same_life_advances. split; [done|]. split; [done|]. apply Hf. Qed.
Lemma keeps_mod_stream a f : keeps (mod_stream a f).
Proof. apply keeps_bind; [apply keeps_get_stream|]. intros s. by apply keeps_modify_mem. Qed.
Lemma keeps_mod_pending e f : keeps (mod_pending e f).
Proof. apply keeps_bind; [apply keeps_get_pending|]. intros s. by apply keeps_modify_mem. Qed.
Lemma keeps_allocate : keeps allocate.
Proof. intros c x c'. unfold allocate. destruct (oom_ (mem c)); intros [= <- <-]; by apply same_life_advances. Qed.

(** Counters and flags outside [advances]. *)
Lemma keeps_modify_ids f :
  (forall i, last_peer_stream_id_ (f i) = last_peer_stream_id_ i /\ last_local_stream_id_ (f i) = last_local_stream_id_ i) ->
  keeps (modify_ids f).
Proof.
  intros Hf. apply keeps_modify. intros c [Hs Hg]. destruct (Hf (ids c)) as [E1 E2]. split; cbn; rewrite ?E1, ?E2; try done.
  intros Hq. split; [done|]. by exists [].
Qed.

Lemma keeps_modify_life f :
  (forall l, close_state_ (f l) = close_state_ l /\ stop_sending_requested_ (f l) = stop_sending_requested_ l /\
     stop_sending_reason_ (f l) = stop_sending_reason_ l /\ local_goaway_sent_ (f l) = local_goaway_sent_ l /\
     local_goaway_last_stream_id_ (f l) = local_goaway_last_stream_id_ l) -> keeps (modify_life f).
Proof.
  intros Hf. apply keeps_modify. intros c [Hs Hg]. destruct (Hf (life c)) as (E1 & E2 & E3 & E4 & E5).
  split; cbn; rewrite ?E1, ?E2, ?E3, ?E4, ?E5; try done.
  - split; cbn; rewrite ?E1, ?E2, ?E4; done.
  - intros Hq. split; [done|]. by exists [].
Qed.

(** Queue operations. *)
Lemma keeps_on_queue {A} (f : SendQueue.Queue -> A * SendQueue.Queue) :
  (forall q, (SendQueue.closed_ q = true -> SendQueue.closed_ (f q).2 = true /\
     exists popped, SendQueue.ready_ q = popped ++ SendQueue.ready_ (f q).2)) -> keeps (on_queue f).
Proof.
  intros Hf c x c'. unfold on_queue. specialize (Hf (send_queue_ (mem c))). destruct (f _) as [r q]. intros [= <- <-].
  cbn [snd] in Hf. intros [Hs Hg]. split; try done.
  split; cbn; [|done]. intros Hstop. destruct (Hs Hstop) as [Hq Hr]. split; [|done]. by apply Hf.
Qed.

Lemma closed_close q : SendQueue.closed_ (SendQueue.close q) = true.
Proof.
  unfold SendQueue.close. destruct (SendQueue.closed_ q) eqn:E; [done|].
  rewrite (proj2 (SendQueue.notify_waiter_ready _)). by destruct q.
Qed.

Lemma keeps_close : keeps (on_queue (fun q => (tt, SendQueue.close q))).
Proof. apply keeps_on_queue. intros q _. split; [apply closed_close|]. exists []. cbn [snd]. by rewrite close_ready. Qed.

Lemma keeps_release : keeps release_send_entry.
Proof.
  apply keeps_on_queue. intros q Hq. split; [|exists []; cbn [snd]; by rewrite release_ready].
  unfold SendQueue.release. case_match; by destruct q.
Qed.

Lemma keeps_pop : keeps (on_queue SendQueue.pop_ready).
Proof.
  apply keeps_on_queue. intros q Hq. unfold SendQueue.pop_ready. destruct (SendQueue.ready_ q) as [|e r] eqn:E; cbn.
  - split; [done|]. exists []. by rewrite E.
  - destruct q; cbn in *. split; [done|]. exists [e]. done.
Qed.

Lemma keeps_enqueue e : keeps (on_queue (SendQueue.enqueue e)).
Proof. apply keeps_on_queue. intros q Hq. unfold SendQueue.enqueue. rewrite Hq. split; [done|]. by exists []. Qed.

Lemma keeps_acquire : keeps acquire_send_entry.
Proof.
  unfold acquire_send_entry. apply keeps_bind; [apply keeps_gets|]. intros n. destruct (0 <? n).
  - apply keeps_on_queue. intros q Hq. split; [|exists []; cbn [snd]; by rewrite acquire_ready].
    unfold SendQueue.acquire. repeat case_match; by destruct q.
  - apply keeps_bind; [apply keeps_allocate|]. intros ok. destruct (negb ok); apply keeps_ret.
Qed.

(** [abort_connection]: the stop request, the closed queue and the state come
    together. *)
Lemma keeps_abort reason : keeps (abort_connection reason).
Proof.
  intros c x c'. unfold abort_connection, gets, modify_life, on_queue, modify, mbind, M_bind, mret, M_ret. cbn.
  destruct (stop_sending_requested_ (life c)) eqn:Hstop; intros [= <- <-]; [by apply advances_refl|].
  intros [Hs Hg]. split; cbn; rewrite ?Hstop; try done.
  - split; cbn; [|lia]. intros _. split; [apply closed_close|lia].
  - by destruct (close_state_ (life c)).
  - intros Hq. split; [apply closed_close|]. exists []. unfold ready_of. cbn. by rewrite close_ready.
Qed.

#[local] Create HintDb keeps.

(** Walk through a method: primitives by the lemmas above, called methods by the
    hints. *)
Ltac walk_step :=
  first
    [ solve [eauto 2 with keeps nocore]
    | match goal with |- keeps (_ ≫= _) => apply keeps_bind; [|intros ?] end
    | apply keeps_ret | apply keeps_gets | apply keeps_crash | apply keeps_get_stream | apply keeps_get_pending
    | apply keeps_assert | apply keeps_when
    | apply keeps_modify_peer | apply keeps_modify_inb | apply keeps_mod_stream | apply keeps_mod_pending
    | apply keeps_allocate | apply keeps_modify_mem; done
    | apply keeps_modify_ids; done | apply keeps_modify_life; done
    | case_match ].
Ltac walk := repeat walk_step.

Lemma keeps_for_each {A} (l : list A) f : (forall x, keeps (f x)) -> keeps (for_each l f).
Proof. intros Hf. induction l as [|x l IH]; cbn [for_each]; walk; auto. Qed.

#[local] Hint Resolve keeps_close keeps_release keeps_pop keeps_enqueue keeps_acquire keeps_abort keeps_for_each : keeps.

Lemma keeps_wg_done : keeps wg_done.
Proof. unfold wg_done. walk. Qed.
Lemma keeps_wg_add : keeps wg_add.
Proof. unfold wg_add. walk. Qed.
Lemma keeps_enqueue_send_entry e : keeps (enqueue_send_entry e).
Proof. unfold enqueue_send_entry. walk. Qed.
Lemma keeps_maybe_finish : keeps maybe_finish_graceful_shutdown.
Proof. unfold maybe_finish_graceful_shutdown. walk. Qed.
#[local] Hint Resolve keeps_wg_done keeps_wg_add keeps_enqueue_send_entry keeps_maybe_finish : keeps.

Lemma keeps_erase_stream a : keeps (erase_stream a).
Proof. unfold erase_stream, wait_erase. walk. Qed.
#[local] Hint Resolve keeps_erase_stream : keeps.
Lemma keeps_maybe_destroy a : keeps (maybe_destroy_stream a).
Proof. unfold maybe_destroy_stream. walk. Qed.
#[local] Hint Resolve keeps_maybe_destroy : keeps.
Lemma keeps_finish_pending a e r : keeps (finish_pending a e r).
Proof. unfold finish_pending, notify, remove_active_pending, pool_destroy. walk. Qed.
#[local] Hint Resolve keeps_finish_pending : keeps.
Lemma keeps_maybe_finish_pending a e : keeps (maybe_finish_pending a e).
Proof. unfold maybe_finish_pending. walk. Qed.
Lemma keeps_finish_schedule a r : keeps (finish_schedule a r).
Proof.
  unfold finish_schedule, sync_conn_window_wait_membership, blocked_by_conn_window, wait_erase, wait_push_back. walk.
Qed.
Lemma keeps_send_fragment a e n : keeps (send_fragment a e n).
Proof. unfold send_fragment, take_fragment, queue_fragment, stop_sending, notify. walk. Qed.
#[local] Hint Resolve keeps_maybe_finish_pending keeps_finish_schedule keeps_send_fragment : keeps.
Lemma keeps_schedule_loop fuel a e b : keeps (schedule_loop fuel a e b).
Proof.
  revert e b. induction fuel as [|fuel IH]; intros e b; cbn [schedule_loop]; unfold pop_pending_head; walk; apply IH.
Qed.
#[local] Hint Resolve keeps_schedule_loop : keeps.
Lemma keeps_schedule_pending a : keeps (schedule_pending a).
Proof.
  unfold schedule_pending, sync_conn_window_wait_membership, blocked_by_conn_window, wait_erase, wait_push_back. walk.
Qed.
#[local] Hint Resolve keeps_schedule_pending : keeps.
Lemma keeps_try_schedule a : keeps (try_schedule_pending a).
Proof. unfold try_schedule_pending. walk. Qed.
Lemma keeps_pool_create p : keeps (pool_create p).
Proof. unfold pool_create. walk. Qed.
#[local] Hint Resolve keeps_try_schedule keeps_pool_create : keeps.
Lemma keeps_enqueue_pending a k p ff lf oc : keeps (enqueue_pending a k p ff lf oc).
Proof. unfold enqueue_pending, append_active_pending. walk. Qed.
#[local] Hint Resolve keeps_enqueue_pending : keeps.
Lemma keeps_send_header a p es : keeps (send_header a p es).
Proof. unfold send_header. walk. Qed.
Lemma keeps_send_data a p es : keeps (send_data a p es).
Proof. unfold send_data. walk. Qed.
Lemma keeps_update_window a d : keeps (update_send_window a d).
Proof. unfold update_send_window. walk. Qed.
Lemma keeps_close_stream a r : keeps (close a r).
Proof. unfold close, remove_from_conn_window_wait_list, wait_erase, drain_pending. walk; apply keeps_for_each; intros e; walk. Qed.
Lemma keeps_send_control_frame ty fl sid p : keeps (send_control_frame ty fl sid p).
Proof. unfold send_control_frame. walk. Qed.
#[local] Hint Resolve keeps_send_header keeps_send_data keeps_update_window keeps_close_stream keeps_send_control_frame : keeps.
Lemma keeps_handle_stream_error sid code r : keeps (handle_stream_error sid code r).
Proof. unfold handle_stream_error, send_rst_stream. walk. Qed.
Lemma keeps_close_rst a code r : keeps (close_rst a code r).
Proof. unfold close_rst, send_rst_stream. walk. Qed.
Lemma keeps_handle_send_done e w h l r : keeps (handle_send_done e w h l r).
Proof. unfold handle_send_done, notify. walk. Qed.
#[local] Hint Resolve keeps_handle_stream_error keeps_close_rst keeps_handle_send_done : keeps.
Lemma keeps_finish_send_entry e r : keeps (finish_send_entry e r).
Proof. unfold finish_send_entry, notify_send_done. walk. Qed.
#[local] Hint Resolve keeps_finish_send_entry : keeps.
Lemma keeps_drain_send_queue r : keeps (drain_send_queue r).
Proof.
  unfold drain_send_queue. walk. generalize (S x). intros n. induction n as [|n IH]; cbn [drain_send_queue_loop]; walk; apply IH.
Qed.
#[local] Hint Resolve keeps_drain_send_queue : keeps.

(** ** Methods that leave [life] and [ids] alone *)

Definition stays {A} (m : M A) : Prop := forall c x c', m c = Some (x, c') -> life c' = life c /\ ids c' = ids c.

Lemma stays_bind {A B} (m : M A) (k : A -> M B) : stays m -> (forall x, stays (k x)) -> stays (m ≫= k).
Proof.
  intros Hm Hk c y c' Hrun. apply bind_Some_inv in Hrun as (x & c1 & H1 & H2).
  destruct (Hm _ _ _ H1) as [<- <-]. by eapply Hk.
Qed.
Lemma stays_ret {A} (x : A) : stays (mret x : M A).
Proof. by intros c y c' [= <- <-]. Qed.
Lemma stays_gets {A} (f : Conn T -> A) : stays (gets f).
Proof. by intros c y c' [= <- <-]. Qed.
Lemma stays_modify_mem f : stays (modify_mem f : M unit).
Proof. by intros c y c' [= <- <-]. Qed.
Lemma stays_on_queue {A} (f : SendQueue.Queue -> A * SendQueue.Queue) : stays (on_queue f).
Proof. intros c y c'. unfold on_queue. destruct (f _). by intros [= <- <-]. Qed.
Lemma stays_allocate : stays (allocate : M bool).
Proof. intros c y c'. unfold allocate. by destruct (oom_ (mem c)); intros [= <- <-]. Qed.

Ltac stay := repeat first
  [ apply stays_bind; [|intros ?] | apply stays_ret | apply stays_gets | apply stays_modify_mem | apply stays_on_queue
  | apply stays_allocate | case_match ].

Lemma stays_create_stream sid : stays (create_stream sid).
Proof. unfold create_stream, when, wg_add. stay. Qed.

Lemma stays_send_control_frame ty fl sid p : stays (send_control_frame ty fl sid p).
Proof.
  unfold send_control_frame, acquire_send_entry, enqueue_send_entry, when, release_send_entry. stay.
Qed.

(** ** Creating streams *)

Lemma keeps_create_stream sid : keeps (create_stream sid).
Proof. unfold create_stream. walk. Qed.

(** A new stream id is larger than the ones before, and the connection is open. *)
Lemma new_id_advances (c : Conn T) f :
  close_state_ (life c) = Open ->
  last_peer_stream_id_ (ids c) <= last_peer_stream_id_ (f (ids c)) /\
  last_local_stream_id_ (ids c) <= last_local_stream_id_ (f (ids c)) -> advances c (set_ids (f (ids c)) c).
Proof.
  intros Ho Hid [Hs Hg]. split; cbn; rewrite ?Ho; try done.
  - intros Hq. split; [done|]. by exists [].
Qed.

Lemma keeps_create_peer sid : keeps (create_peer_stream sid).
Proof.
  intros c x c' Hrun. unfold create_peer_stream in Hrun. apply bind_Some_inv in Hrun as (c0 & c1 & Hg & Hrun).
  injection Hg as <- <-. destruct (can_accept_peer_stream c sid) eqn:Hacc; cbn [negb orb] in Hrun;
    [|injection Hrun as <- <-; reflexivity].
  destruct (bool_decide _); [injection Hrun as <- <-; reflexivity|].
  apply bind_Some_inv in Hrun as (r & c1 & Hcr & Hrun). pose proof (keeps_create_stream sid c r c1 Hcr) as K1.
  destruct (stays_create_stream sid c r c1 Hcr) as [EL EI].
  destruct r as [a|]; [|by injection Hrun as <- <-]. injection Hrun as <- <-. etrans; [exact K1|].
  unfold can_accept_peer_stream, is_next_peer_stream_id in Hacc. bool_to_prop.
  match goal with H : bool_decide _ = true |- _ => apply bool_decide_eq_true in H as Ho end.
  rewrite <-EL in Ho. rewrite <-EI in *.
  apply (new_id_advances c1 (fun i => set_peer_active_stream_count_ (peer_active_stream_count_ i + 1)
                                        (set_last_peer_stream_id_ sid i))); [done|]. cbn. lia.
Qed.

Lemma keeps_create_local sid : keeps (create_local_stream sid).
Proof.
  intros c x c' Hrun. unfold create_local_stream in Hrun. apply bind_Some_inv in Hrun as (c0 & c1 & Hg & Hrun).
  injection Hg as <- <-. destruct (can_create_local_stream c sid) eqn:Hacc; cbn [negb orb] in Hrun;
    [|injection Hrun as <- <-; reflexivity].
  destruct (bool_decide _); [injection Hrun as <- <-; reflexivity|].
  apply bind_Some_inv in Hrun as (r & c1 & Hcr & Hrun). pose proof (keeps_create_stream sid c r c1 Hcr) as K1.
  destruct (stays_create_stream sid c r c1 Hcr) as [EL EI].
  destruct r as [a|]; [|by injection Hrun as <- <-]. injection Hrun as <- <-. etrans; [exact K1|].
  unfold can_create_local_stream, is_next_local_stream_id in Hacc. bool_to_prop.
  match goal with H : bool_decide _ = true |- _ => apply bool_decide_eq_true in H as Ho end.
  rewrite <-EL in Ho. rewrite <-EI in *.
  apply (new_id_advances c1 (set_last_local_stream_id_ sid)); [done|]. cbn. lia.
Qed.
#[local] Hint Resolve keeps_create_peer keeps_create_local : keeps.

(** ** Frames *)

Lemma keeps_data fhr buf o n : keeps (handle_data_payload fhr buf o n).
Proof. unfold handle_data_payload, data_first, read_pad_length, on_data_recv. walk. Qed.
Lemma keeps_headers fhr buf o n : keeps (handle_headers_payload fhr buf o n).
Proof. unfold handle_headers_payload, headers_first, read_pad_length, on_header_recv, end_header_block. walk. Qed.
Lemma keeps_continuation fhr buf o n : keeps (handle_continuation_payload fhr buf o n).
Proof. unfold handle_continuation_payload, on_header_recv, end_header_block. walk. Qed.

Lemma keeps_check_windows l d : keeps (check_windows l d).
Proof. induction l as [|a l IH]; cbn [check_windows]; walk; apply IH. Qed.
#[local] Hint Resolve keeps_check_windows : keeps.
Lemma keeps_apply_setting id v : keeps (apply_settings_parameter id v).
Proof. unfold apply_settings_parameter, apply_peer_initial_stream_window. walk; apply keeps_for_each; intros a; walk. Qed.
#[local] Hint Resolve keeps_apply_setting : keeps.
Lemma keeps_settings_loop fuel pos : keeps (settings_loop fuel pos).
Proof. revert pos. induction fuel as [|fuel IH]; intros pos; cbn [settings_loop]; walk; apply IH. Qed.
#[local] Hint Resolve keeps_settings_loop : keeps.
Lemma keeps_settings fhr buf o n : keeps (handle_settings_payload fhr buf o n).
Proof. unfold handle_settings_payload, send_settings_ack. walk. Qed.

Lemma keeps_control fhr buf o n v act : (forall scratch, keeps (act scratch)) -> keeps (control_frame fhr buf o n v act).
Proof. intros Hact. unfold control_frame, collect. walk; apply Hact. Qed.

Lemma keeps_drain_pass fuel cur p : keeps (drain_pass fuel cur p).
Proof. revert cur p. induction fuel as [|fuel IH]; intros [a|] p; cbn [drain_pass]; walk; apply IH. Qed.
#[local] Hint Resolve keeps_drain_pass : keeps.
Lemma keeps_drain_loop fuel : keeps (drain_loop fuel).
Proof. induction fuel as [|fuel IH]; cbn [drain_loop]; walk; apply IH. Qed.
#[local] Hint Resolve keeps_drain_loop : keeps.
Lemma keeps_window_update fhr buf o n : keeps (handle_window_update_payload fhr buf o n).
Proof.
  apply keeps_control. intros scratch.
  unfold window_update_received, update_connection_send_window, drain_conn_blocked_streams. walk.
Qed.
Lemma keeps_ping fhr buf o n : keeps (handle_ping_payload fhr buf o n).
Proof. apply keeps_control. intros scratch. unfold send_ping_ack. walk. Qed.
Lemma keeps_rst fhr buf o n : keeps (handle_rst_stream_payload fhr buf o n).
Proof. apply keeps_control. intros scratch. unfold rst_received, on_remote_rst. walk. Qed.

Lemma keeps_close_streams l r : keeps (close_streams l r).
Proof. apply keeps_for_each. intros a. walk. Qed.
#[local] Hint Resolve keeps_close_streams : keeps.
Lemma keeps_close_after_goaway last : keeps (close_streams_after_goaway last).
Proof. unfold close_streams_after_goaway. walk. Qed.
Lemma keeps_close_all r : keeps (close_all_streams r).
Proof. unfold close_all_streams. walk. Qed.
#[local] Hint Resolve keeps_close_after_goaway keeps_close_all : keeps.

(** ** [GOAWAY] and graceful shutdown *)

(** A change of [life] that goes forward. *)
Lemma life_advances (c : Conn T) f :
  (life_ok c -> life_ok (set_life (f (life c)) c) /\
     rank (close_state_ (life c)) <= rank (close_state_ (f (life c))) /\
     (stop_sending_requested_ (life c) = true ->
        stop_sending_requested_ (f (life c)) = true /\ stop_sending_reason_ (f (life c)) = stop_sending_reason_ (life c)) /\
     (local_goaway_sent_ (life c) = true -> local_goaway_sent_ (f (life c)) = true /\
        local_goaway_last_stream_id_ (f (life c)) = local_goaway_last_stream_id_ (life c))) ->
  advances c (set_life (f (life c)) c).
Proof.
  intros Hf Hok. destruct (Hf Hok) as (H1 & H2 & H3 & H4). split; try done. intros Hq. split; [done|]. by exists [].
Qed.

Lemma keeps_on_peer_goaway last code : keeps (on_peer_goaway last code).
Proof.
  unfold on_peer_goaway. apply keeps_bind.
  { apply keeps_modify. intros c. apply (life_advances c (note_peer_goaway last code)). intros [Hs Hg].
    unfold note_peer_goaway. destruct (close_state_ (life c)) eqn:E; cbn in *; rewrite ?E in *;
      (split; [split; cbn; rewrite ?E; cbn; intros Hx; [destruct (Hs Hx); split; [done|lia]|specialize (Hg Hx); lia]|]);
      cbn; rewrite ?E; cbn; (split; [lia|done]). }
  intros []. apply keeps_bind; [auto with keeps|]. intros [].
  intros c x c' Hrun. apply bind_Some_inv in Hrun as (c0 & c1 & Hg & Hrun). injection Hg as <- <-. cbv zeta in Hrun.
  destruct (negb (local_goaway_sent_ (life c)) && _ && _) eqn:Hcond.
  2:{ by eapply keeps_maybe_finish. }
  bool_to_prop. repeat match goal with H : bool_decide _ = false |- _ => apply bool_decide_eq_false in H end.
  apply bind_Some_inv in Hrun as (u & c1 & Hmod & Hrun). injection Hmod as <- <-.
  set (c1 := set_life (set_local_goaway_last_stream_id_ (last_peer_stream_id_ (ids c)) (life c)) c) in *.
  assert (advances c c1) as K1.
  { apply (life_advances c (set_local_goaway_last_stream_id_ (last_peer_stream_id_ (ids c)))). intros [Hs Hg].
    split; [by split|]. split; [done|]. split; [done|]. cbn. congruence. }
  apply bind_Some_inv in Hrun as (err & c2 & Hsend & Hrun). pose proof (keeps_send_control_frame _ _ _ _ _ _ _ Hsend) as K2.
  destruct (stays_send_control_frame _ _ _ _ _ _ _ Hsend) as [EL _]. etrans; [exact K1|]. etrans; [exact K2|].
  destruct (negb _); [by eapply keeps_abort|].
  apply bind_Some_inv in Hrun as (u' & c3 & Hmod & Hrun). injection Hmod as <- <-.
  etrans; [|by eapply keeps_maybe_finish].
  apply (life_advances c2 (fun l => set_stop_keepalive_ true (set_close_state_ BothDraining (set_local_goaway_sent_ true l)))).
  rewrite EL. cbn. intros [Hs Hg]. rewrite EL in Hs, Hg. cbn in Hs, Hg.
  assert (stop_sending_requested_ (life c) = false) as Hstop.
  { destruct (stop_sending_requested_ (life c)); [|done]. destruct (Hs eq_refl) as [_ Hr].
    by destruct (close_state_ (life c)). }
  rewrite Hstop. split; [split; cbn; [by rewrite Hstop|done]|]. split; [|split; [done|congruence]].
  by destruct (close_state_ (life c)).
Qed.

Lemma keeps_goaway fhr buf o n : keeps (handle_goaway_payload fhr buf o n).
Proof. unfold handle_goaway_payload, collect. walk. apply keeps_on_peer_goaway. Qed.

Lemma keeps_consume fhr buf o n : keeps (consume_incoming_frame_payload fhr buf o n).
Proof.
  unfold consume_incoming_frame_payload. walk; auto using keeps_data, keeps_headers, keeps_continuation, keeps_settings,
    keeps_ping, keeps_window_update, keeps_rst, keeps_goaway.
Qed.

Lemma keeps_graceful : keeps graceful_shutdown.
Proof.
  assert (keeps begin_graceful_shutdown) as Hbegin; [|unfold graceful_shutdown; walk; exact Hbegin].
  intros c x c' Hrun. unfold begin_graceful_shutdown in Hrun. apply bind_Some_inv in Hrun as (c0 & c1 & Hg & Hrun).
  injection Hg as <- <-. cbv zeta in Hrun.
  destruct (stop_sending_requested_ (life c)) eqn:Hstop; [injection Hrun as <- <-; reflexivity|].
  destruct (_ || _) eqn:Hc1 in Hrun; [injection Hrun as <- <-; reflexivity|].
  destruct (_ || _) eqn:Hc2 in Hrun; [injection Hrun as <- <-; reflexivity|].
  destruct (_ || _) eqn:Hc3 in Hrun; [injection Hrun as <- <-; reflexivity|].
  bool_to_prop. repeat match goal with H : bool_decide _ = false |- _ => apply bool_decide_eq_false in H end.
  assert (rank (close_state_ (life c)) <= 1) as Hrank by (by destruct (close_state_ (life c))).
  apply bind_Some_inv in Hrun as (u & c1 & Hmod & Hrun). injection Hmod as <- <-.
  set (c1 := set_life (set_local_goaway_last_stream_id_ (last_peer_stream_id_ (ids c)) (life c)) c) in *.
  assert (advances c c1) as K1.
  { apply (life_advances c (set_local_goaway_last_stream_id_ (last_peer_stream_id_ (ids c)))). intros [Hs Hg].
    split; [by split|]. split; [done|]. split; [done|]. cbn. intros Hx. specialize (Hg Hx). lia. }
  apply bind_Some_inv in Hrun as (err & c2 & Hsend & Hrun). pose proof (keeps_send_control_frame _ _ _ _ _ _ _ Hsend) as K2.
  destruct (stays_send_control_frame _ _ _ _ _ _ _ Hsend) as [EL _]. etrans; [exact K1|]. etrans; [exact K2|].
  destruct (negb _).
  { apply bind_Some_inv in Hrun as (u & c3 & Hab & Hrun). injection Hrun as <- <-. by eapply keeps_abort. }
  apply bind_Some_inv in Hrun as (u & c3 & Hmod & Hrun). injection Hmod as <- <-.
  apply bind_Some_inv in Hrun as (u' & c4 & Hfin & Hrun). injection Hrun as <- <-.
  etrans; [|by eapply keeps_maybe_finish].
  apply (life_advances c2 drain_locally). unfold drain_locally.
  rewrite EL. cbn. intros [Hs Hg]. rewrite EL in Hs, Hg. cbn in Hs, Hg. rewrite Hstop.
  assert (2 <= rank (if bool_decide (close_state_ (life c) = PeerDraining) then BothDraining else LocalDraining)) as Hr2
    by (case_bool_decide; cbn; lia).
  split; [split; cbn; [by rewrite Hstop|done]|]. split; [lia|]. split; [done|]. intros Hx. specialize (Hg Hx). lia.
Qed.

(** ** Start, end and the send loop *)

Lemma keeps_start_send_loop : keeps start_send_loop.
Proof. unfold start_send_loop. walk. Qed.
Lemma keeps_preface : keeps send_connection_preface.
Proof. unfold send_connection_preface. walk. Qed.
#[local] Hint Resolve keeps_start_send_loop keeps_preface : keeps.
Lemma keeps_run_begin : keeps run_begin.
Proof. unfold run_begin. walk. Qed.
Lemma keeps_run_event ev : keeps (run_event ev).
Proof. unfold run_event. walk. apply keeps_consume. Qed.
Lemma keeps_finish_begin r : keeps (finish_run_begin r).
Proof. unfold finish_run_begin. walk. Qed.

Lemma keeps_finish_end : keeps finish_run_end.
Proof.
  unfold finish_run_end. walk. apply keeps_modify. intros c. apply (life_advances c (fun l => set_close_state_ Closed (set_transport_valid false l))).
  intros [Hs Hg]. split; [split; cbn; [|lia]; intros Hx; destruct (Hs Hx); done|]. split; [by destruct (close_state_ (life c))|]. done.
Qed.

Lemma keeps_timeout : keeps handle_send_loop_timeout.
Proof. unfold handle_send_loop_timeout. walk. Qed.
Lemma keeps_send_turn outcome e : keeps (send_turn outcome e).
Proof. unfold send_turn. walk. Qed.
#[local] Hint Resolve keeps_timeout keeps_send_turn : keeps.
Lemma keeps_send_loop st polled outcome : keeps (send_loop_turn st polled outcome).
Proof. unfold send_loop_turn. walk. Qed.
Lemma keeps_loop_exit : keeps send_loop_exit.
Proof. unfold send_loop_exit. walk. Qed.

Lemma step_advances c c' : step c c' -> advances c c'.
Proof.
  destruct 1; [by eapply keeps_run_begin|by eapply keeps_run_event|by eapply keeps_create_local|by eapply keeps_send_header
    |by eapply keeps_send_data|by eapply keeps_close_rst| |by eapply keeps_pop|by eapply keeps_send_loop|by eapply keeps_loop_exit
    |by eapply keeps_graceful|by eapply keeps_abort|by eapply keeps_finish_begin|by eapply keeps_finish_end].
  assert (keeps (send_window_update sid n)) as K by (unfold send_window_update; walk). by eapply K.
Qed.

Lemma construct_life_ok (streams : T) o failures : life_ok (construct streams o failures).
Proof. by split. Qed.

Lemma steps_advance c c' : rtc step c c' -> advances c c'.
Proof. induction 1 as [|c1 c2 c3 H12 _ IH]; [reflexivity|]. etrans; [by apply step_advances|exact IH]. Qed.

(** Shutdown only moves forward.  Along every run of a connection: the close
    state never falls back to an earlier phase; after a request to stop, the reason
    stands, the queue is closed and no frame is queued any more; once [GOAWAY] is
    out, the last stream id it announced stands; stream ids only grow, and from the
    first phase of shutdown on no stream is created. *)
Theorem shutdown_moves_forward (streams : T) (o : Options) (failures : list bool) (c c' : Conn T) :
  rtc step (construct streams o failures) c -> rtc step c c' -> forward c c'.
Proof.
  intros H0 H1. apply steps_advance in H0, H1. apply H1.
  exact (fw_ok _ _ (H0 (construct_life_ok streams o failures))).
Qed.

End Steps.

(** A server starts, and is told to shut down before its preface is out. *)
Lemma shutdown_moves_forward_witness :
  let c := construct StreamTable.empty_table default_options [] in
  exists c1 c2, run_begin c = Some (None_, c1) /\ graceful_shutdown c1 = Some (tt, c2) /\ forward c1 c2.
Proof.
  intros c. eexists _, _. split; [vm_compute; reflexivity|]. split; [vm_compute; reflexivity|].
  eapply (shutdown_moves_forward StreamTable.empty_table default_options []).
  - eapply rtc_once, step_run_begin. vm_compute. reflexivity.
  - eapply rtc_once, step_graceful. vm_compute. reflexivity.
Defined.

End Lifecycle.
