(* ===== verification/Http2Integrity.v ===== *)
(** * Integrity of an HTTP/2 connection

    Along every run the stream table and the stream objects agree, and the
    flow-control windows are 32-bit numbers ([std::int32_t] in the source), so no
    addition on them overflows, if the initial window of a stream is not negative. *)
From S2P Require Import Prelude IoError Http2Protocol Http2StreamState Http2Sending Http2SendQueue StreamTable Http2State.
From S2P Require Import Http2Stream Http2Reader Http2Connection Http2Lifecycle.
Import IoError SendPayload Pending SendEntry Protocol Conn Stream Connection Lifecycle.

Module Integrity.

(** ** Preserving an invariant

    An invariant that the primitive steps preserve is preserved by the methods
    made of them. *)
Section Walk.
Context {T : Type} `{StreamIndex T}.
Local Abbreviation M := (@M T).

Class Primitive (I : Conn T -> Prop) : Prop := {
  prim_mem f c :
    (forall m : Mem T, streams_ (f m) = streams_ m /\ stream_store (f m) = stream_store m /\ next_stream (f m) = next_stream m) ->
    I c -> I (set_mem (f (mem c)) c);
  prim_stream a s s' (c : Conn T) : stream_store (mem c) !! a = Some s -> stream_id_ s' = stream_id_ s ->
    connection_owned_ s' = connection_owned_ s -> send_window_ s' = send_window_ s -> I c -> I (with_stream a s' c);
  prim_life f c : (forall l, stop_sending_reason_ l <> None_ -> stop_sending_reason_ (f l) <> None_) -> I c ->
    I (set_life (f (life c)) c);
  prim_ids i c : I c -> I (set_ids i c);
  prim_inb f c : (forall i, settings_scratch_ (f i) = settings_scratch_ i) -> I c -> I (set_inb (f (inb c)) c);
  prim_erase a c x c' : I c -> erase_stream a c = Some (x, c') -> I c' }.

Context (I : Conn T -> Prop) `{Primitive I}.

Definition pres {A} (m : M A) : Prop := forall c x c', I c -> m c = Some (x, c') -> I c'.

Lemma pres_bind {A B} (m : M A) (k : A -> M B) : pres m -> (forall x, pres (k x)) -> pres (m ≫= k).
Proof. intros Hm Hk c y c' Hok Hrun. apply bind_Some_inv in Hrun as (x & c1 & H1 & H2). eapply Hk; [|done]. by eapply Hm. Qed.
Lemma pres_ret {A} (x : A) : pres (mret x : M A).
Proof. by intros c y c' Hok [= <- <-]. Qed.
Lemma pres_gets {A} (f : Conn T -> A) : pres (gets f).
Proof. by intros c y c' Hok [= <- <-]. Qed.
Lemma pres_crash {A} : pres (crash : M A).
Proof. by intros c y c'. Qed.
Lemma pres_get_stream a : pres (get_stream a).
Proof. intros c x c' Hok. unfold get_stream. by destruct (_ !! a); intros [= <- <-]. Qed.
Lemma pres_get_pending e : pres (get_pending e).
Proof. intros c x c' Hok. unfold get_pending. by destruct (_ !! e); intros [= <- <-]. Qed.
Lemma pres_assert b : pres (fiber_assert b : M unit).
Proof. destruct b; [apply pres_ret|apply pres_crash]. Qed.
Lemma pres_when b (m : M unit) : pres m -> pres (when b m).
Proof. intros Hm. destruct b; [done|apply pres_ret]. Qed.
Lemma pres_for_each {A} (l : list A) f : (forall x, pres (f x)) -> pres (for_each l f).
Proof. intros Hf. induction l as [|x l IH]; cbn [for_each]; [apply pres_ret|]. by apply pres_bind; auto. Qed.

Lemma pres_modify_mem f :
  (forall m : Mem T, streams_ (f m) = streams_ m /\ stream_store (f m) = stream_store m /\ next_stream (f m) = next_stream m) ->
  pres (modify_mem f).
Proof. intros Hf c x c' Hok [= <- <-]. by apply prim_mem. Qed.
Lemma pres_mod_pending e f : pres (mod_pending e f).
Proof. apply pres_bind; [apply pres_get_pending|]. intros p. by apply pres_modify_mem. Qed.
Lemma pres_allocate : pres allocate.
Proof.
  intros c x c' Hok. unfold allocate. destruct (oom_ (mem c)) as [|f l]; intros [= <- <-]; [done|].
  by apply (prim_mem (set_oom_ l)).
Qed.
Lemma pres_on_queue {A} (f : SendQueue.Queue -> A * SendQueue.Queue) : pres (on_queue f).
Proof. intros c x c' Hok. unfold on_queue. destruct (f _) as [r q]. intros [= <- <-]. by apply (prim_mem (set_send_queue_ q)). Qed.
Lemma pres_modify_life f :
  (forall l, stop_sending_reason_ l <> None_ -> stop_sending_reason_ (f l) <> None_) -> pres (modify_life f).
Proof. intros Hf c x c' Hok [= <- <-]. by apply prim_life. Qed.
Lemma pres_modify_ids f : pres (modify_ids f).
Proof. intros c x c' Hok [= <- <-]. by apply prim_ids. Qed.
Lemma pres_modify_inb f : (forall i, settings_scratch_ (f i) = settings_scratch_ i) -> pres (modify_inb f).
Proof. intros Hf c x c' Hok [= <- <-]. by apply prim_inb. Qed.
Lemma pres_mod_stream a f :
  (forall s, stream_id_ (f s) = stream_id_ s /\ connection_owned_ (f s) = connection_owned_ s /\
     send_window_ (f s) = send_window_ s) -> pres (mod_stream a f).
Proof.
  intros Hf c x c' Hok Hrun. unfold mod_stream in Hrun. apply bind_Some_inv in Hrun as (s & c1 & Hg & Hrun).
  unfold get_stream in Hg. destruct (stream_store (mem c) !! a) as [s0|] eqn:Hs; [|done]. injection Hg as <- <-.
  injection Hrun as <- <-. destruct (Hf s0) as (H1 & H2 & H3). by apply (prim_stream a s0).
Qed.
Lemma pres_erase_stream a : pres (erase_stream a).
Proof. intros c x c' Hok Hrun. by eapply prim_erase. Qed.

Lemma pres_abort reason : reason <> None_ -> pres (abort_connection reason).
Proof.
  intros Hr. unfold abort_connection. apply pres_bind; [apply pres_gets|]. intros [|]; [apply pres_ret|].
  apply pres_bind; [by apply pres_modify_life|]. intros _. apply pres_bind; [apply pres_on_queue|]. intros _. by apply pres_modify_life.
Qed.

Lemma failed_not_none e : negb (bool_decide (e = None_)) = true -> e <> None_.
Proof. by rewrite negb_true_iff, bool_decide_eq_false. Qed.

Ltac walk_step hints :=
  first
    [ solve [hints]
    | match goal with |- pres (_ ≫= _) => apply pres_bind; [|intros ?] end
    | apply pres_ret | apply pres_gets | apply pres_crash | apply pres_get_stream | apply pres_get_pending
    | apply pres_assert | apply pres_when | apply pres_mod_pending | apply pres_allocate | apply pres_on_queue
    | apply pres_erase_stream
    | apply pres_modify_mem; intros ?; split_and!; reflexivity | apply pres_mod_stream; intros ?; split_and!; reflexivity
    | apply pres_modify_ids | apply pres_modify_life; intros ?; cbn; done | apply pres_modify_inb; intros ?; reflexivity
    | apply pres_abort; (done || by apply failed_not_none)
    | apply pres_for_each; intros ?
    | case_match ].
Ltac walk hints := repeat walk_step hints.

Lemma pres_wg_done : pres wg_done.
Proof. unfold wg_done. walk fail. Qed.
Lemma pres_wg_add : pres wg_add.
Proof. unfold wg_add. walk fail. Qed.
Lemma pres_maybe_finish : pres maybe_finish_graceful_shutdown.
Proof. unfold maybe_finish_graceful_shutdown. walk fail. Qed.
Lemma pres_maybe_destroy a : pres (maybe_destroy_stream a).
Proof. unfold maybe_destroy_stream. walk fail. Qed.
Lemma pres_finish_pending a e r : pres (finish_pending a e r).
Proof. unfold finish_pending, notify, remove_active_pending, pool_destroy. walk ltac:(apply pres_maybe_destroy). Qed.
Lemma pres_maybe_finish_pending a e : pres (maybe_finish_pending a e).
Proof. unfold maybe_finish_pending. walk ltac:(apply pres_finish_pending). Qed.
Lemma pres_sync a : pres (sync_conn_window_wait_membership a).
Proof. unfold sync_conn_window_wait_membership, blocked_by_conn_window, wait_erase, wait_push_back. walk fail. Qed.
Lemma pres_finish_schedule a r : pres (finish_schedule a r).
Proof. unfold finish_schedule. walk ltac:(apply pres_sync). Qed.
Lemma pres_take_fragment e n : pres (take_fragment e n).
Proof. unfold take_fragment, acquire_send_entry, release_send_entry, stop_sending. walk fail. Qed.
Lemma pres_enqueue_send_entry en : pres (enqueue_send_entry en).
Proof. unfold enqueue_send_entry. walk fail. Qed.
Lemma pres_send_control_frame ty fl sid p : pres (send_control_frame ty fl sid p).
Proof. unfold send_control_frame, acquire_send_entry, release_send_entry. walk ltac:(apply pres_enqueue_send_entry). Qed.
Lemma pres_close a r : pres (close a r).
Proof.
  unfold close, remove_from_conn_window_wait_list, wait_erase, drain_pending. walk ltac:(apply pres_finish_pending).
Qed.
Lemma pres_handle_stream_error sid code r : pres (handle_stream_error sid code r).
Proof.
  unfold handle_stream_error, send_rst_stream.
  walk ltac:(first [apply pres_close|apply pres_maybe_destroy|apply pres_send_control_frame]).
Qed.

(** Sending, when the window updates of a fragment are fine too. *)
Context (Hwindow : forall n, pres (modify_peer (fun pr => set_conn_send_window_ (conn_send_window_ pr - n) pr)))
  (Hstream : forall a n, pres (mod_stream a (fun s => set_send_window_ (send_window_ s - n) s))).

Lemma pres_send_fragment a e n : pres (send_fragment a e n).
Proof.
  unfold send_fragment, queue_fragment, release_send_entry, stop_sending, notify.
  walk ltac:(first [apply pres_take_fragment|apply pres_enqueue_send_entry|apply Hwindow|apply Hstream]).
Qed.
Lemma pres_schedule_loop fuel a e b : pres (schedule_loop fuel a e b).
Proof.
  revert e b. induction fuel as [|fuel IH]; intros e b; cbn [schedule_loop]; unfold pop_pending_head;
    walk ltac:(first [apply IH|apply pres_finish_schedule|apply pres_maybe_finish_pending|apply pres_send_fragment]).
Qed.
Lemma pres_schedule_pending a : pres (schedule_pending a).
Proof. unfold schedule_pending. walk ltac:(first [apply pres_sync|apply pres_schedule_loop]). Qed.

End Walk.

Section Invariant.
Context {T : Type} `{StreamIndexLaws T}.
Local Abbreviation M := (@M T).

Definition in32 (x : Z) : Prop := - 2 ^ 31 <= x < 2 ^ 31.

(** The table and the objects: an entry leads to the stream of that id, a stream
    is in the table under its id, belongs to the connection and is older than the
    next one. *)
Record tables_ok (m : Mem T) : Prop := mkTablesOk {
  to_index : index_ok (streams_ m);
  to_entry id a : index_map (streams_ m) !! id = Some a ->
    exists s, stream_store m !! a = Some s /\ stream_id_ s = id;
  to_stream a s : stream_store m !! a = Some s ->
    index_map (streams_ m) !! stream_id_ s = Some a /\ connection_owned_ s = true /\ (a < next_stream m)%nat }.

Record rest_ok (c : Conn T) : Prop := mkRestOk {
  ro_tables : tables_ok (mem c);
  ro_scratch : Forall (fun b => 0 <= b) (settings_scratch_ (inb c)) }.

(** The windows are looked at only under this condition, the tables always. *)
Context (checked : Prop).

Record conn_ok (c : Conn T) : Prop := mkConnOk {
  co_conn : checked -> in32 (window_of c);
  co_streams a s : stream_store (mem c) !! a = Some s -> checked -> in32 (send_window_ s);
  co_initial : checked -> 0 <= peer_initial_stream_send_window_ (peer c) < 2 ^ 31;
  co_frame : 0 < peer_max_outbound_frame_size_ (peer c) <= kMaxFrameSizeLimit;
  co_reason : stop_sending_reason_ (life c) <> None_;
  co_rest : rest_ok c }.

(** ** The tables *)

Lemma tables_same (m m' : Mem T) :
  streams_ m' = streams_ m -> stream_store m' = stream_store m -> next_stream m' = next_stream m ->
  tables_ok m -> tables_ok m'.
Proof. intros E1 E2 E3 []. split; rewrite ?E1, ?E2, ?E3; done. Qed.

Lemma tables_with_stream a s s' (c : Conn T) :
  stream_store (mem c) !! a = Some s -> stream_id_ s' = stream_id_ s -> connection_owned_ s' = connection_owned_ s ->
  tables_ok (mem c) -> tables_ok (mem (with_stream a s' c)).
Proof.
  intros Hs Hid Hown [I E S]. split; cbn; [done| |].
  - intros id b Hb. destruct (E id b Hb) as (t & Ht & Hid'). destruct (decide (b = a)) as [->|Hne].
    + exists s'. rewrite lookup_insert_eq. split; [done|]. rewrite Hs in Ht. injection Ht as <-. congruence.
    + exists t. by rewrite lookup_insert_ne.
  - intros b t. destruct (decide (b = a)) as [->|Hne]; [rewrite lookup_insert_eq; intros [= <-]|].
    + rewrite Hid, Hown. by apply S.
    + rewrite lookup_insert_ne by done. by apply S.
Qed.

(** Steps that [rest_ok] does not see. *)
Definition same_rest (c c' : Conn T) : Prop :=
  streams_ (mem c') = streams_ (mem c) /\ stream_store (mem c') = stream_store (mem c) /\
  next_stream (mem c') = next_stream (mem c) /\ settings_scratch_ (inb c') = settings_scratch_ (inb c).

Lemma rest_same c c' : same_rest c c' -> rest_ok c -> rest_ok c'.
Proof. intros (E1 & E2 & E3 & E4) [Ht Hs]. split; [by eapply tables_same|by rewrite E4]. Qed.

Lemma same_rest_maybe_finish c x c' : maybe_finish_graceful_shutdown c = Some (x, c') -> same_rest c c'.
Proof.
  unfold maybe_finish_graceful_shutdown, gets, modify_life, on_queue, modify, mbind, M_bind, mret, M_ret. cbn.
  repeat case_match; intros [= <- <-]; done.
Qed.

Lemma same_rest_wg_done b c x c' : when b wg_done c = Some (x, c') -> same_rest c c'.
Proof.
  unfold when, wg_done, gets, fiber_assert, modify_mem, modify, mbind, M_bind, mret, M_ret. destruct b; [|by intros [= <- <-]].
  cbn. destruct (0 <? _); [|done]. by intros [= <- <-].
Qed.

(** [erase_stream] up to the removal of the object. *)
Lemma erase_tables a s (m : Mem T) t' owned :
  tables_ok m -> stream_store m !! a = Some s -> t' = index_erase (streams_ m) (stream_id_ s) ->
  tables_ok (set_streams_ t' (set_owned_streams owned (set_stream_store (delete a (stream_store m)) m))).
Proof.
  intros [I E S] Hs ->. destruct (index_erase_spec (streams_ m) (stream_id_ s) I) as [I' Em].
  split; cbn; [done| |].
  - intros id b. rewrite Em. intros [Hne Hb]%lookup_delete_Some. destruct (E id b Hb) as (t & Ht & Hid).
    exists t. split; [|done]. rewrite lookup_delete_ne; [done|]. intros <-. rewrite Hs in Ht. injection Ht as <-. done.
  - intros b t [Hne Hb]%lookup_delete_Some. destruct (S b t Hb) as (H1 & H2 & H3). split; [|done].
    rewrite Em, lookup_delete_ne; [done|]. intros Hid. destruct (S a s Hs) as (H4 & _). rewrite Hid in H4. congruence.
Qed.

Lemma rest_erase_stream a c x c' : rest_ok c -> erase_stream a c = Some (x, c') -> rest_ok c'.
Proof.
  intros Hok Hrun. unfold erase_stream in Hrun. apply bind_Some_inv in Hrun as (s & c1 & Hg & Hrun).
  unfold get_stream in Hg. destruct (stream_store (mem c) !! a) as [s0|] eqn:Hs; [|done]. injection Hg as <- <-.
  destruct (to_stream _ (ro_tables c Hok) a s0 Hs) as (_ & Hown & _). rewrite Hown in Hrun. cbn [negb] in Hrun.
  (* the parts before and after the object goes *)
  assert (exists w, (when (conn_ s0) (wait_erase a)) c = Some (tt, set_mem (set_conn_wait_streams_ w (mem c)) c)) as [w Hw].
  { destruct (conn_ s0); [by eexists|]. exists (conn_wait_streams_ (mem c)). by destruct c as [? ? ? ? ? []]. }
  rewrite (bind_run _ _ _ _ _ Hw) in Hrun. apply bind_Some_inv in Hrun as (u & c1 & H1 & Hrun). injection H1 as <- <-.
  apply bind_Some_inv in Hrun as (u & c2 & H2 & Hrun). rewrite (mod_stream_run _ _ _ s0) in H2 by exact Hs. injection H2 as <- <-.
  apply bind_Some_inv in Hrun as (c3 & c4 & H3 & Hrun). injection H3 as <- <-.
  apply bind_Some_inv in Hrun as (u & c3 & H3 & Hrun).
  assert (exists i, c3 = set_ids i (with_stream a (set_active_ false (set_conn_ false s0))
    (set_mem (set_streams_ (index_erase (streams_ (mem c)) (stream_id_ s0)) (set_conn_wait_streams_ w (mem c))) c))) as [i ->].
  { unfold when in H3. match type of H3 with (if ?b then _ else _) _ = _ => destruct b end; injection H3 as <- <-;
      [by eexists|]. eexists (ids c). done. }
  apply bind_Some_inv in Hrun as (n & c5 & H5 & Hrun). injection H5 as <- <-.
  apply bind_Some_inv in Hrun as (u' & c6 & H6 & Hrun). apply bind_Some_inv in H6 as (u'' & c7 & H7 & H6). injection H7 as <- <-.
  apply (rest_same c6); [by eapply same_rest_maybe_finish|].
  eapply rest_same; [by eapply same_rest_wg_done|]. destruct Hok as [Htab Hscr]. split; cbn; [|done].
  eapply tables_same; [..|apply (erase_tables a s0 (mem c) _ (owned_streams (mem c)) Htab Hs eq_refl)]; cbn; try done.
  by rewrite delete_insert_eq.
Qed.

#[global] Instance rest_primitive : Primitive rest_ok.
Proof.
  split.
  - intros f c Hf [Ht Hs]. destruct (Hf (mem c)) as (E1 & E2 & E3). split; [by eapply tables_same|done].
  - intros a s s' c Hs Hid Hown _ [Ht Hscr]. split; [by eapply tables_with_stream|done].
  - intros f c _ []. by split.
  - intros i c []. by split.
  - intros f c Hf []. split; [done|]. cbn. by rewrite Hf.
  - intros a c x c'. apply rest_erase_stream.
Qed.

(** A calm step that keeps the tables keeps everything. *)
Lemma conn_calm a (c c' : Conn T) : conn_ok c -> effect a [] 0 c c' -> rest_ok c' -> conn_ok c'.
Proof.
  intros [Hc Hw Hi Hf Hr _] E Hrest. pose proof (eff_limits _ _ _ _ _ E) as [= E1 E2].
  split; [| | | | |done].
  - rewrite (eff_window _ _ _ _ _ E). by rewrite Z.sub_0_r.
  - intros b s' Hb. destruct (eff_streams _ _ _ _ _ E b s' Hb) as (s0 & Hs0 & -> & _).
    specialize (Hw b s0 Hs0). case_decide; by rewrite Z.sub_0_r.
  - by rewrite E2.
  - by rewrite E1.
  - by apply (eff_reason _ _ _ _ _ E).
Qed.

#[global] Instance conn_primitive : Primitive conn_ok.
Proof.
  split.
  - intros f c Hf [Hc Hw Hi Hfr Hr Hrest]. destruct (Hf (mem c)) as (E1 & E2 & E3). split; cbn; rewrite ?E2; try done.
    by apply prim_mem.
  - intros a s s' c Hs Hid Hown Hwin [Hc Hw Hi Hfr Hr Hrest]. split; cbn; try done.
    + intros b t. destruct (decide (b = a)) as [->|Hne]; [rewrite lookup_insert_eq; intros Ht; injection Ht as <-|].
      * rewrite Hwin. by eapply Hw.
      * rewrite lookup_insert_ne by done. by apply Hw.
    + by eapply prim_stream.
  - intros f c Hf [Hc Hw Hi Hfr Hr Hrest]. split; cbn; auto. by apply prim_life.
  - intros i c [Hc Hw Hi Hfr Hr Hrest]. split; cbn; auto. by apply prim_ids.
  - intros f c Hf [Hc Hw Hi Hfr Hr Hrest]. split; cbn; auto. by apply prim_inb.
  - intros a c x c' Hok Hrun. apply (conn_calm a c c' Hok); [by eapply calm_erase_stream|].
    eapply rest_erase_stream; [|done]. by destruct Hok.
Qed.

(** ** Streams that appear and send *)

(** [create_stream]: a fresh address, and an id the table does not have. *)
Lemma conn_create_stream sid : pres conn_ok (create_stream sid).
Proof.
  unfold create_stream. apply pres_bind; [apply pres_gets|]. intros n. apply pres_bind; [apply (pres_allocate conn_ok)|]. intros ok.
  destruct (negb ok); [apply pres_ret|]. intros c x c' Hok Hrun.
  apply bind_Some_inv in Hrun as (c0 & c1 & Hg & Hrun). injection Hg as <- <-. cbv zeta in Hrun.
  pose proof Hok as [? Hwin Hinit ? ? [[I E S] ?]].
  pose proof (index_insert_spec (streams_ (mem c)) sid (next_stream (mem c)) I) as Hins.
  destruct (index_insert _ sid _) as [b t] eqn:Eins. destruct Hins as (I' & Em & Hnew).
  apply bind_Some_inv in Hrun as (u & c1 & H1 & Hrun). injection H1 as <- <-.
  assert (stream_store (mem c) !! next_stream (mem c) = None) as Hfresh.
  { destruct (stream_store (mem c) !! next_stream (mem c)) as [s|] eqn:Hs; [|done]. destruct (S _ s Hs) as (_ & _ & ?). lia. }
  assert (forall a s, stream_store (mem c) !! a = Some s -> (a < next_stream (mem c))%nat) as Hold by (intros a s Hs; by apply S in Hs as (_ & _ & ?)).
  destruct b; cbn [negb] in Hrun.
  2:{ injection Hrun as <- <-. split; cbn; try done. split; [|done]. split; cbn; [done|done|]. intros a s Hs. destruct (S a s Hs) as (? & ? & ?).
      split; [done|]. split; [done|lia]. }
  apply bind_Some_inv in Hrun as (u & c1 & H1 & Hrun). injection H1 as <- <-.
  apply bind_Some_inv in Hrun as (u & c1 & H1 & Hrun). injection Hrun as <- <-.
  eapply (pres_when conn_ok); [apply (pres_wg_add conn_ok)| |exact H1]. split; cbn; try done.
  - intros a s. destruct (decide (a = next_stream (mem c))) as [->|Hne].
    + rewrite lookup_insert_eq. intros [= <-] C. specialize (Hinit C). cbn. unfold in32. lia.
    + rewrite lookup_insert_ne by done. by apply Hwin.
  - split; [|done]. split; cbn; [done| |].
    + intros id a. rewrite Em. destruct (decide (id = sid)) as [->|Hne].
      * rewrite lookup_insert_eq. intros [= <-]. eexists. by rewrite lookup_insert_eq.
      * rewrite lookup_insert_ne by done. intros Ha. destruct (E id a Ha) as (s & Hs & Hid). exists s. split; [|done].
        rewrite lookup_insert_ne; [done|]. specialize (Hold a s Hs). lia.
    + intros a s. destruct (decide (a = next_stream (mem c))) as [->|Hne].
      * rewrite lookup_insert_eq. intros [= <-]. cbn. rewrite Em, lookup_insert_eq. split; [done|]. split; [done|lia].
      * rewrite lookup_insert_ne by done. intros Hs. destruct (S a s Hs) as (Ha & ? & ?). split; [|split; [done|lia]].
        rewrite Em, lookup_insert_ne; [done|]. intros Hid. rewrite <-Hid, Hnew in Ha by done. done.
Qed.

(** One call of [schedule_pending]. *)
Lemma post_streams a s (c c' : Conn T) b s' :
  schedule_post a s c c' -> stream_store (mem c') !! b = Some s' -> b <> a ->
  exists s0, stream_store (mem c) !! b = Some s0 /\ send_window_ s' = send_window_ s0.
Proof.
  intros (frames & d & E & _) Hb Hne. destruct (eff_streams _ _ _ _ _ E b s' Hb) as (s0 & Hs0 & Hw & _).
  exists s0. split; [done|]. rewrite decide_False in Hw by done. lia.
Qed.

(** The windows after it; the rest is by walking through the method. *)
Lemma post_windows a s (c c' : Conn T) :
  conn_ok c -> stream_store (mem c) !! a = Some s -> schedule_post a s c c' ->
  (checked -> in32 (window_of c')) /\ (forall b s', stream_store (mem c') !! b = Some s' -> checked -> in32 (send_window_ s')) /\
  limits_of c' = limits_of c /\ stop_sending_reason_ (life c') <> None_.
Proof.
  intros Hok Hs (frames & d & E & Hd & Hrange & _). pose proof (co_conn c Hok) as Hc. pose proof (co_streams c Hok a s Hs) as Ha.
  pose proof (eff_window _ _ _ _ _ E) as Hw. unfold in32 in *.
  split; [intros C; specialize (Hc C); specialize (Ha C); lia|]. split; [|split; [exact (eff_limits _ _ _ _ _ E)|exact (eff_reason _ _ _ _ _ E (co_reason c Hok))]].
  intros b s' Hb C. destruct (eff_streams _ _ _ _ _ E b s' Hb) as (s0 & Hs0 & Hws & _).
  specialize (Hc C). specialize (Ha C). pose proof (co_streams c Hok b s0 Hs0 C) as H0b. unfold in32 in *. case_decide as Hba.
  - subst b. rewrite Hs in Hs0. injection Hs0 as <-. lia.
  - lia.
Qed.


Lemma rest_schedule_pending a : pres rest_ok (schedule_pending a).
Proof.
  apply (pres_schedule_pending rest_ok).
  - intros n c x c' [Ht Hs] [= <- <-]. by split.
  - intros b n c x c' [Ht Hscr] Hrun. unfold mod_stream in Hrun. apply bind_Some_inv in Hrun as (s & c1 & Hg & Hrun).
    unfold get_stream in Hg. destruct (stream_store (mem c) !! b) as [s0|] eqn:Hs; [|done]. injection Hg as <- <-.
    injection Hrun as <- <-. split; [by eapply tables_with_stream|done].
Qed.

Lemma conn_schedule_pending a : pres conn_ok (schedule_pending a).
Proof.
  intros c r c' Hok Hrun.
  destruct (schedule_pending_post a c c' r (co_reason c Hok) (proj1 (co_frame c Hok)) Hrun) as (s & Hs & Hpost).
  destruct (post_windows a s c c' Hok Hs Hpost) as (H1 & H2 & [= E1 E2] & H4). split; try done.
  - rewrite E2. by apply co_initial.
  - rewrite E1. by apply co_frame.
  - eapply rest_schedule_pending; [|done]. by destruct Hok.
Qed.

(** ** The methods *)

#[local] Create HintDb okay.

Ltac ok_step :=
  first
    [ solve [eauto 2 with okay nocore]
    | match goal with |- pres _ (_ ≫= _) => apply (pres_bind conn_ok); [|intros ?] end
    | apply (pres_ret conn_ok) | apply (pres_gets conn_ok) | apply (pres_crash conn_ok)
    | apply (pres_get_stream conn_ok) | apply (pres_get_pending conn_ok) | apply (pres_assert conn_ok)
    | match goal with |- pres _ (when ?b _) => destruct b eqn:?; cbn [when]; [|apply (pres_ret conn_ok)] end
    | apply (pres_mod_pending conn_ok) | apply (pres_allocate conn_ok)
    | apply (pres_on_queue conn_ok) | apply (pres_erase_stream conn_ok) | apply (pres_maybe_destroy conn_ok)
    | apply (pres_wg_done conn_ok) | apply (pres_wg_add conn_ok) | apply (pres_maybe_finish conn_ok)
    | apply (pres_finish_pending conn_ok) | apply (pres_maybe_finish_pending conn_ok) | apply (pres_close conn_ok)
    | apply (pres_sync conn_ok) | apply (pres_enqueue_send_entry conn_ok) | apply (pres_send_control_frame conn_ok)
    | apply (pres_handle_stream_error conn_ok) | apply conn_schedule_pending | apply conn_create_stream
    | apply (pres_modify_mem conn_ok); intros ?; split_and!; reflexivity
    | apply (pres_mod_stream conn_ok); intros ?; split_and!; reflexivity
    | apply (pres_modify_ids conn_ok) | apply (pres_modify_life conn_ok); intros ?; cbn; done
    | apply (pres_modify_inb conn_ok); intros ?; reflexivity
    | apply (pres_abort conn_ok); (done || by apply failed_not_none)
    | case_match ].
Ltac ok := repeat ok_step.

Lemma ok_try_schedule a : pres conn_ok (try_schedule_pending a).
Proof. unfold try_schedule_pending. ok. Qed.
#[local] Hint Resolve ok_try_schedule : okay.
Lemma ok_enqueue_pending a k p ff lf oc : pres conn_ok (enqueue_pending a k p ff lf oc).
Proof. unfold enqueue_pending, pool_create, append_active_pending. ok. Qed.
#[local] Hint Resolve ok_enqueue_pending : okay.
Lemma ok_send_header a p es : pres conn_ok (send_header a p es).
Proof. unfold send_header. ok. Qed.
Lemma ok_send_data a p es : pres conn_ok (send_data a p es).
Proof. unfold send_data. ok. Qed.
Lemma ok_close_rst a code r : pres conn_ok (close_rst a code r).
Proof. unfold close_rst, send_rst_stream. ok. Qed.
Lemma ok_finish_send_entry e r : pres conn_ok (finish_send_entry e r).
Proof. unfold finish_send_entry, notify_send_done, handle_send_done, notify, release_send_entry. ok. Qed.
#[local] Hint Resolve ok_finish_send_entry : okay.
Lemma ok_drain_send_queue r : pres conn_ok (drain_send_queue r).
Proof.
  unfold drain_send_queue. ok. generalize (S x). intros n. induction n as [|n IH]; cbn [drain_send_queue_loop]; ok; apply IH.
Qed.
#[local] Hint Resolve ok_drain_send_queue : okay.

Lemma ok_create_peer sid : pres conn_ok (create_peer_stream sid).
Proof. unfold create_peer_stream. ok. Qed.
Lemma ok_create_local sid : pres conn_ok (create_local_stream sid).
Proof. unfold create_local_stream. ok. Qed.
#[local] Hint Resolve ok_create_peer : okay.

Lemma ok_data fhr buf o n : pres conn_ok (handle_data_payload fhr buf o n).
Proof. unfold handle_data_payload, data_first, read_pad_length, on_data_recv. ok. Qed.
Lemma ok_headers fhr buf o n : pres conn_ok (handle_headers_payload fhr buf o n).
Proof. unfold handle_headers_payload, headers_first, read_pad_length, on_header_recv, end_header_block. ok. Qed.
Lemma ok_continuation fhr buf o n : pres conn_ok (handle_continuation_payload fhr buf o n).
Proof. unfold handle_continuation_payload, on_header_recv, end_header_block. ok. Qed.

(** *** Windows *)

(** A window moved within its range. *)
Lemma ok_update_send_window a delta (c c' : Conn T) x s :
  conn_ok c -> stream_store (mem c) !! a = Some s -> (checked -> in32 (send_window_ s + delta)) ->
  update_send_window a delta c = Some (x, c') ->
  conn_ok c' /\ forall b s', b <> a -> stream_store (mem c') !! b = Some s' ->
    exists s0, stream_store (mem c) !! b = Some s0 /\ send_window_ s' = send_window_ s0.
Proof.
  intros Hok Hs Hin Hrun. unfold update_send_window in Hrun. rewrite (bind_run _ _ _ _ _ (mod_stream_run _ _ _ _ Hs)) in Hrun.
  set (s1 := set_send_window_ _ s) in *. set (c1 := with_stream a s1 c) in *.
  assert (conn_ok c1) as Hok1.
  { destruct Hok as [Hc Hw Hi Hf Hr [Ht Hscr]]. split; try done.
    - intros b t. unfold c1. cbn. destruct (decide (b = a)) as [->|Hne].
      + rewrite lookup_insert_eq. by intros [= <-].
      + rewrite lookup_insert_ne by done. by apply Hw.
    - split; [by eapply tables_with_stream|done]. }
  split; [by eapply ok_try_schedule|]. intros b s' Hne Hb.
  assert (exists s0, stream_store (mem c1) !! b = Some s0 /\ send_window_ s' = send_window_ s0) as (s0 & Hs0 & Hw).
  { unfold try_schedule_pending in Hrun. apply bind_Some_inv in Hrun as (s2 & c2 & Hg & Hrun).
    rewrite (get_stream_run a c1 s1 (with_stream_lookup a s1 c)) in Hg. injection Hg as <- <-.
    apply bind_Some_inv in Hrun as (st & c2 & Hg & Hrun). injection Hg as <- <-.
    destruct (_ || _); [injection Hrun as <- <-; by exists s'|].
    apply bind_Some_inv in Hrun as (r & c2 & Hsched & Hrun). injection Hrun as <- <-.
    destruct (schedule_pending_post a c1 c2 r (co_reason _ Hok1) (proj1 (co_frame _ Hok1)) Hsched) as (s2 & Hs2 & Hpost).
    by eapply post_streams. }
  unfold c1 in Hs0. cbn in Hs0. rewrite lookup_insert_ne in Hs0 by done. by exists s0.
Qed.

Lemma check_windows_ok l delta (c c' : Conn T) :
  check_windows l delta c = Some (None_, c') -> c' = c /\
  Forall (fun a => forall s, stream_store (mem c) !! a = Some s -> in32 (send_window_ s + delta)) l.
Proof.
  induction l as [|a l IH]; cbn [check_windows]; [by intros [= <-]|]. intros Hrun.
  apply bind_Some_inv in Hrun as (s & c1 & Hg & Hrun). unfold get_stream in Hg.
  destruct (stream_store (mem c) !! a) as [s0|] eqn:Hs; [|done]. injection Hg as <- <-. cbv zeta in Hrun.
  destruct (_ || _) eqn:Hb; [done|]. bool_to_prop. destruct (IH Hrun) as [-> Hall]. split; [done|].
  constructor; [|done]. rewrite Hs. intros s [= <-]. unfold in32, kMaxFlowControlWindow in *. lia.
Qed.

Lemma ok_update_all l delta (c c' : Conn T) x :
  NoDup l -> conn_ok c -> Forall (fun a => forall s, stream_store (mem c) !! a = Some s -> checked -> in32 (send_window_ s + delta)) l ->
  for_each l (fun a => update_send_window a delta) c = Some (x, c') -> conn_ok c'.
Proof.
  intros Hnd. revert c. induction Hnd as [|a l Hnot Hnd IH]; intros c Hok Hall Hrun; cbn [for_each] in Hrun.
  { by injection Hrun as <- <-. }
  apply Forall_cons in Hall as [Hin Hall]. apply bind_Some_inv in Hrun as (u & c1 & Hupd & Hrun).
  destruct (stream_store (mem c) !! a) as [s|] eqn:Hs.
  - destruct (ok_update_send_window a delta c c1 u s Hok Hs (Hin s eq_refl) Hupd) as [Hok1 Hothers].
    apply (IH c1); try done. rewrite Forall_forall in Hall |- *. intros b Hb s' Hs'.
    destruct (Hothers b s') as (s0 & Hs0 & ->); [by intros ->|done|]. by apply (Hall b).
  - unfold update_send_window, mod_stream, get_stream, mbind, M_bind in Hupd. by rewrite Hs in Hupd.
Qed.

(** The table lists every stream once. *)
Lemma index_all_nodup (c : Conn T) : tables_ok (mem c) -> NoDup (index_all (streams_ (mem c))).
Proof.
  intros [I E S]. rewrite (index_all_spec _ I). apply NoDup_fmap_2_strong; [|apply NoDup_map_to_list].
  intros [id a] [id' b] H1 H2 Heq. apply elem_of_map_to_list in H1, H2. cbn in *. subst b.
  destruct (E id a H1) as (s & Hs & <-), (E id' a H2) as (s' & Hs' & <-).
  assert (s = s') as -> by congruence. done.
Qed.

Lemma to_signed_32 x : in32 x -> to_signed 32 x = x.
Proof.
  unfold in32, to_signed, wrap. intros Hx. change (32 - 1) with 31. destruct (Z.le_gt_cases 0 x).
  - rewrite Z.mod_small by lia. by rewrite (proj2 (Z.ltb_lt _ _)) by lia.
  - rewrite <-(Z.mod_add x 1 (2 ^ 32)), Z.mod_small by lia. rewrite (proj2 (Z.ltb_ge _ _)) by lia. lia.
Qed.

Lemma ok_apply_window value : 0 <= value -> pres conn_ok (apply_peer_initial_stream_window value).
Proof.
  intros Hv c x c' Hok Hrun. unfold apply_peer_initial_stream_window in Hrun.
  destruct (Z.ltb_spec kMaxFlowControlWindow value) as [|Hmax]; [by injection Hrun as <- <-|].
  apply bind_Some_inv in Hrun as (c0 & c1 & Hg & Hrun). injection Hg as <- <-. cbv zeta in Hrun.
  set (delta := value - _) in *. apply bind_Some_inv in Hrun as (err & c1 & Hupd & Hrun).
  assert (conn_ok c1) as Hok1.
  { destruct (negb (delta =? 0)); [|by injection Hupd as <- <-].
    apply bind_Some_inv in Hupd as (e & c2 & Hcheck & Hupd).
    destruct (bool_decide (e = None_)) eqn:He; cbn [negb] in Hupd.
    - apply bool_decide_eq_true in He as ->. destruct (check_windows_ok _ _ _ _ Hcheck) as [-> Hall].
      apply bind_Some_inv in Hupd as (u & c3 & Hall' & Hupd). injection Hupd as <- <-.
      eapply ok_update_all; [|exact Hok| |exact Hall']; [apply index_all_nodup; by destruct Hok as [_ _ _ _ _ []]|].
      eapply Forall_impl; [exact Hall|]. intros a Ha s Hs C. pose proof (co_initial c Hok C) as Hin.
      rewrite to_signed_32; [by apply Ha|]. unfold in32, delta, kMaxFlowControlWindow in *. lia.
    - injection Hupd as <- <-. revert Hcheck. generalize (index_all (streams_ (mem c))). clear -Hok. intros l. revert Hok.
      assert (pres conn_ok (check_windows l delta)) as Hp; [|intros; by eapply Hp].
      induction l as [|a l IH]; cbn [check_windows]; ok; apply IH. }
  destruct (negb (bool_decide (err = None_))); [by injection Hrun as <- <-|]. injection Hrun as <- <-.
  destruct Hok1 as [? ? ? ? ? []]. split; cbn; try done.
  intros _. unfold kMaxFlowControlWindow in *. lia.
Qed.

Lemma ok_modify_peer f :
  (forall p, 0 < peer_max_outbound_frame_size_ p <= kMaxFrameSizeLimit ->
     conn_send_window_ (f p) = conn_send_window_ p /\
     peer_initial_stream_send_window_ (f p) = peer_initial_stream_send_window_ p /\
     0 < peer_max_outbound_frame_size_ (f p) <= kMaxFrameSizeLimit) -> pres conn_ok (modify_peer f).
Proof.
  intros Hf c x c' [Hc Hw Hi Hfr Hr [Ht Hs]] [= <- <-]. destruct (Hf (peer c) Hfr) as (E1 & E2 & E3).
  split; cbn; try done; [unfold window_of in *; cbn; by rewrite E1|by rewrite E2].
Qed.

Lemma ok_apply_setting id value : 0 <= value -> pres conn_ok (apply_settings_parameter id value).
Proof.
  intros Hv. unfold apply_settings_parameter. ok; try (by apply ok_apply_window); try (by apply ok_modify_peer).
  bool_to_prop. apply ok_modify_peer. intros p _. cbn. unfold kDefaultMaxFrameSize, kMaxFrameSizeLimit in *.
  split; [done|]. split; [done|lia].
Qed.

Lemma parse_u32_nonneg p : Forall (fun b => 0 <= b) p -> 0 <= parse_u32 p.
Proof.
  intros Hp. assert (forall i, 0 <= p !z i) as Hi.
  { intros i. destruct (p !! Z.to_nat i) as [b|] eqn:E.
    - rewrite (list_lookup_total_correct _ _ _ E). exact (proj1 (Forall_lookup _ _) Hp _ _ E).
    - rewrite list_lookup_total_alt, E. done. }
  unfold parse_u32. rewrite !Z.lor_nonneg, !Z.shiftl_nonneg. auto.
Qed.

Lemma ok_settings_loop fuel pos : Forall (fun b => 0 <= b) pos -> pres conn_ok (settings_loop fuel pos).
Proof.
  revert pos. induction fuel as [|fuel IH]; intros pos Hpos c x c' Hok Hrun; [done|]. cbn [settings_loop] in Hrun.
  destruct (bool_decide (pos = [])); [by injection Hrun as <- <-|].
  apply bind_Some_inv in Hrun as (i & c1 & Hg & Hrun). injection Hg as <- <-. cbv zeta in Hrun.
  set (n := Z.min _ _) in *. destruct (write_at _ _ _) as [scratch|] eqn:Hw; [|done].
  assert (Forall (fun b => 0 <= b) scratch) as Hscr.
  { unfold write_at in Hw. destruct (_ <=? _); [|done]. injection Hw as <-. destruct Hok as [_ _ _ _ _ [_ Hs]].
    apply Forall_app. split; [by apply Forall_take|]. apply Forall_app. split; [by apply Forall_take|by apply Forall_drop]. }
  apply bind_Some_inv in Hrun as (u & c1 & H1 & Hrun). injection H1 as <- <-.
  set (c1 := set_inb _ c) in *. assert (conn_ok c1) as Hok1.
  { destruct Hok as [Hc Hwin Hi Hfr Hr [Ht Hs]]. split; done. }
  assert (Forall (fun b => 0 <= b) (drop (Z.to_nat n) pos)) as Hrest by (by apply Forall_drop).
  destruct (_ =? _); [|by eapply IH].
  apply bind_Some_inv in Hrun as (err & c2 & Happ & Hrun).
  assert (conn_ok c2) as Hok2.
  { eapply ok_apply_setting; [|exact Hok1|exact Happ]. by apply parse_u32_nonneg, Forall_drop. }
  destruct (negb _); [by injection Hrun as <- <-|].
  apply bind_Some_inv in Hrun as (u' & c3 & H3 & Hrun). injection H3 as <- <-.
  eapply IH; [exact Hrest| |exact Hrun]. by apply (prim_inb (set_settings_scratch_used_ 0)).
Qed.

Lemma ok_settings fhr buf o n : Forall (fun b => 0 <= b) buf -> pres conn_ok (handle_settings_payload fhr buf o n).
Proof.
  intros Hbuf. unfold handle_settings_payload, send_settings_ack. ok. apply ok_settings_loop. by apply Forall_take.
Qed.

Lemma ok_control fhr buf o n v act :
  (forall scratch, pres conn_ok (act scratch)) -> pres conn_ok (control_frame fhr buf o n v act).
Proof. intros Hact. unfold control_frame, collect. ok; apply Hact. Qed.

Lemma ok_drain : pres conn_ok drain_conn_blocked_streams.
Proof.
  assert (forall fuel cur p, pres conn_ok (drain_pass fuel cur p)) as Hpass.
  { intros fuel. induction fuel as [|fuel IH]; intros [a|] p; cbn [drain_pass]; ok; apply IH. }
  assert (forall fuel, pres conn_ok (drain_loop fuel)) as Hloop.
  { intros fuel. induction fuel as [|fuel IH]; cbn [drain_loop]; ok; first [apply Hpass|apply IH]. }
  unfold drain_conn_blocked_streams. ok.
Qed.

Lemma ok_window_update_received sid increment : 0 <= increment -> pres conn_ok (window_update_received sid increment).
Proof.
  intros Hi c x c' Hok Hrun. unfold window_update_received in Hrun.
  apply bind_Some_inv in Hrun as (c0 & c1 & Hg & Hrun). injection Hg as <- <-.
  destruct (increment =? 0).
  { revert Hrun. destruct (sid =? 0); intros Hrun; [by injection Hrun as <- <-|].
    assert (pres conn_ok (handle_stream_error sid ProtocolError Invalid ;; mret None_ : M IoErr)) as K by ok. by eapply K. }
  destruct (sid =? 0).
  - destruct (Z.ltb_spec kMaxFlowControlWindow (conn_send_window_ (peer c) + increment)) as [|Hmax]; [by injection Hrun as <- <-|].
    apply bind_Some_inv in Hrun as (u & c1 & Hupd & Hrun). injection Hrun as <- <-.
    unfold update_connection_send_window in Hupd. apply bind_Some_inv in Hupd as (u' & c2 & H1 & Hupd). injection H1 as <- <-.
    eapply ok_drain; [|exact Hupd]. destruct Hok as [Hc Hw Hi' Hf Hr []]. split; try done. cbn.
    intros C. specialize (Hc C). unfold in32, window_of, kMaxFlowControlWindow in *. cbn. lia.
  - destruct (find_stream c sid) as [a|]; [|by injection Hrun as <- <-].
    apply bind_Some_inv in Hrun as (s & c1 & Hg & Hrun). unfold get_stream in Hg.
    destruct (stream_store (mem c) !! a) as [s0|] eqn:Hs; [|done]. injection Hg as <- <-.
    destruct (Z.ltb_spec kMaxFlowControlWindow (send_window_ s0 + increment)) as [|Hmax].
    + assert (pres conn_ok (handle_stream_error sid FlowControlError Invalid ;; mret None_ : M IoErr)) as K by ok. by eapply K.
    + apply bind_Some_inv in Hrun as (u & c1 & Hupd & Hrun). injection Hrun as <- <-.
      eapply (ok_update_send_window a increment c); [done|exact Hs| |exact Hupd].
      intros C. pose proof (co_streams c Hok a s0 Hs C). unfold in32, kMaxFlowControlWindow in *. lia.
Qed.

Lemma ok_close_streams l r : pres conn_ok (close_streams l r).
Proof. apply (pres_for_each conn_ok). intros a. ok. Qed.
#[local] Hint Resolve ok_close_streams : okay.
Lemma ok_close_all r : pres conn_ok (close_all_streams r).
Proof. unfold close_all_streams. ok. Qed.
#[local] Hint Resolve ok_close_all : okay.

Lemma ok_on_peer_goaway last code : pres conn_ok (on_peer_goaway last code).
Proof.
  unfold on_peer_goaway, close_streams_after_goaway, send_goaway. ok; try (apply (pres_abort conn_ok); by apply failed_not_none).
  all: apply (pres_modify_life conn_ok); intros l Hl; unfold note_peer_goaway; by destruct (close_state_ _).
Qed.

Lemma ok_consume fhr buf o n : Forall (fun b => 0 <= b) buf -> pres conn_ok (consume_incoming_frame_payload fhr buf o n).
Proof.
  intros Hbuf. unfold consume_incoming_frame_payload. apply (pres_bind conn_ok); [apply (pres_gets conn_ok)|]. intros i.
  destruct (_ && _); [apply (pres_ret conn_ok)|]. destruct (_ && _); [apply (pres_ret conn_ok)|].
  destruct (type_ fhr); try apply (pres_ret conn_ok).
  - apply ok_data.
  - apply ok_headers.
  - apply ok_control. intros scratch. unfold rst_received, on_remote_rst. ok.
  - by apply ok_settings.
  - apply ok_control. intros scratch. unfold send_ping_ack. ok.
  - unfold handle_goaway_payload, collect. ok. apply ok_on_peer_goaway.
  - apply ok_control. intros scratch. apply ok_window_update_received. apply Z.land_nonneg. by right.
  - apply ok_continuation.
Qed.

(** ** Steps *)

Lemma ok_preface : pres conn_ok send_connection_preface.
Proof. unfold send_connection_preface, acquire_send_entry, release_send_entry. ok. Qed.
#[local] Hint Resolve ok_preface : okay.

Lemma ok_run_event ev : event_bytes ev -> pres conn_ok (run_event ev).
Proof. destruct ev; intros Hb; cbn [run_event]; ok. by apply ok_consume. Qed.

Lemma ok_graceful : pres conn_ok graceful_shutdown.
Proof.
  assert (pres conn_ok begin_graceful_shutdown) as Hbegin.
  { unfold begin_graceful_shutdown, send_goaway, drain_locally. ok. }
  unfold graceful_shutdown. apply (pres_bind conn_ok); [exact Hbegin|]. intros err.
  destruct (negb (bool_decide (err = None_))) eqn:He; cbn [andb]; ok.
Qed.

Lemma ok_finish_begin r : pres conn_ok (finish_run_begin r).
Proof.
  unfold finish_run_begin. apply (pres_bind conn_ok); [apply (pres_gets conn_ok)|]. intros l.
  apply (pres_bind conn_ok); [|intros _; ok].
  destruct (decide (r = None_)) as [->|Hr].
  - rewrite bool_decide_true by done. apply (pres_ret conn_ok).
  - by apply (pres_when conn_ok), (pres_abort conn_ok).
Qed.

Lemma ok_send_turn outcome e : outcome <> inl None_ -> pres conn_ok (send_turn outcome e).
Proof.
  intros Hout. unfold send_turn. destruct (_ && _); [ok|]. intros c x c' Hok Hrun.
  apply bind_Some_inv in Hrun as (l & c1 & Hg & Hrun). injection Hg as <- <-.
  destruct (write_entry outcome e) as [w e'] eqn:Hw.
  assert (w <> inl None_) as Hne.
  { unfold write_entry, write_once in Hw. destruct (_ <? _); [congruence|]. destruct (kind_ _), outcome; congruence. }
  cbv zeta in Hrun.
  assert (forall err, err <> None_ -> pres conn_ok (finish_send_entry e' err ;; abort_connection err ;; mret Exit : M LoopState)) as Hfail
    by (intros err He; ok).
  pose proof (co_reason c Hok) as Hr.
  destruct w as [err|n].
  - eapply Hfail; [|exact Hok|exact Hrun]. destruct (stop_sending_requested_ (life c)); [done|congruence].
  - destruct (n =? 0).
    + eapply Hfail; [|exact Hok|exact Hrun]. by destruct (stop_sending_requested_ (life c)).
    + revert Hok Hrun. generalize (set_entry (payload e') (written_bytes e' + n) e'). intros e2 Hok Hrun.
      destruct (_ && _); [|by injection Hrun as <- <-].
      assert (pres conn_ok (finish_send_entry e2 None_ ;; mret Idle_ : M LoopState)) as K by ok. by eapply K.
Qed.

Lemma ok_step c c' : step c c' -> conn_ok c -> conn_ok c'.
Proof.
  intros Hstep Hok. destruct Hstep as [c r c' Hrun|ev c r c' Hb Hrun|sid c r c' Hrun|a p es c r c' Hrun|a p es c r c' Hrun
    |a code res c r c' Hrun|sid n c r c' Hrun|c r c' Hrun|st polled outcome c r c' Hout Hrun|c r c' Hrun|c r c' Hrun
    |reason c r c' Hreason Hrun|result c r c' Hrun|c r c' Hrun].
  - assert (pres conn_ok run_begin) as K by (unfold run_begin, start_send_loop; ok). by eapply K.
  - by eapply ok_run_event.
  - by eapply ok_create_local.
  - by eapply ok_send_header.
  - by eapply ok_send_data.
  - by eapply ok_close_rst.
  - assert (pres conn_ok (send_window_update sid n)) as K by (unfold send_window_update; ok). by eapply K.
  - by eapply (pres_on_queue conn_ok).
  - assert (pres conn_ok (send_loop_turn st polled outcome)) as K; [|by eapply K].
    unfold send_loop_turn, handle_send_loop_timeout. destruct st; [|by apply ok_send_turn|ok].
    destruct polled; [by apply ok_send_turn|ok..].
  - assert (pres conn_ok send_loop_exit) as K by (unfold send_loop_exit; ok). by eapply K.
  - by eapply ok_graceful.
  - by eapply (pres_abort conn_ok).
  - by eapply ok_finish_begin.
  - assert (pres conn_ok finish_run_end) as K by (unfold finish_run_end; ok). by eapply K.
Qed.

(** Options whose numbers fit: the windows are [std::int32_t], a frame is not
    larger than the protocol allows. *)
Definition options_ok (o : Options) : Prop :=
  in32 (initial_connection_send_window o) /\ in32 (initial_stream_send_window o) /\
  0 < max_frame_size o <= kMaxFrameSizeLimit.

Lemma construct_ok (streams : T) o failures :
  index_ok streams -> index_map streams = ∅ -> options_ok o -> (checked -> 0 <= initial_stream_send_window o) ->
  conn_ok (construct streams o failures).
Proof.
  intros Hi Hm (H1 & H2 & H3) Hnn. split; try done; [intros C; cbn; unfold in32 in *; specialize (Hnn C); lia|]. split; [|cbn; by repeat constructor]. split; cbn; [done| |].
  - intros id a. by rewrite Hm, lookup_empty.
  - intros a s. by rewrite lookup_empty.
Qed.

(** As many entries as streams. *)
Lemma tables_count (m : Mem T) : tables_ok m -> size (index_map (streams_ m)) = size (stream_store m).
Proof.
  intros [I E S]. rewrite <-!length_map_to_list.
  rewrite <-(length_fmap snd (map_to_list (index_map (streams_ m)))), <-(length_fmap fst (map_to_list (stream_store m))).
  apply Permutation_length, NoDup_Permutation.
  - apply NoDup_fmap_2_strong; [|apply NoDup_map_to_list]. intros [id a] [id' b] H1 H2 Heq.
    apply elem_of_map_to_list in H1, H2. cbn in *. subst b.
    destruct (E id a H1) as (s & Hs & <-), (E id' a H2) as (s' & Hs' & <-). assert (s = s') as -> by congruence. done.
  - apply NoDup_fst_map_to_list.
  - intros a. rewrite !list_elem_of_fmap. split.
    + intros ([id b] & -> & Hb%elem_of_map_to_list). destruct (E id b Hb) as (s & Hs & _). exists (b, s). split; [done|].
      by apply elem_of_map_to_list.
    + intros ([b s] & -> & Hb%elem_of_map_to_list). destruct (S b s Hb) as (Hid & _). exists (stream_id_ s, b). split; [done|].
      by apply elem_of_map_to_list.
Qed.

End Invariant.

Section Claims.
Context {T : Type} `{StreamIndexLaws T}.


(** C4. The stream table never dangles: along every run, what [find_stream]
    returns is a live stream with that id, every live stream is found under its id
    and belongs to the connection, and the table counts exactly the live streams. *)
Theorem stream_table_never_dangles (streams : T) (o : Options) (failures : list bool) (c : Conn T) :
  index_ok streams -> index_map streams = ∅ -> options_ok o ->
  rtc step (construct streams o failures) c ->
  (forall id a, find_stream c id = Some a <-> exists s, stream_store (mem c) !! a = Some s /\ stream_id_ s = id) /\
  (forall a s, stream_store (mem c) !! a = Some s -> connection_owned_ s = true) /\
  index_size (streams_ (mem c)) = Z.of_nat (size (stream_store (mem c))).
Proof.
  intros Hi Hm Ho Hsteps. assert (conn_ok False c) as [_ _ _ _ _ [Htab _]]
    by (eapply (rtc_ind_r (conn_ok False)); [by apply construct_ok| |exact Hsteps]; eauto using ok_step).
  pose proof Htab as [I E S]. split; [|split].
  - intros id a. unfold find_stream. rewrite (index_find_spec _ _ I). split; [apply E|].
    intros (s & Hs & <-). by apply S.
  - intros a s Hs. by apply (S a s).
  - by rewrite (index_size_spec _ I), tables_count.
Qed.

End Claims.

(** ** Examples *)

Section Examples.

Definition start : Conn StreamTable.Http2StreamTable :=
  default (construct StreamTable.empty_table default_options []) (new_connection default_options []).

Lemma start_is : exists t, start = construct t default_options [] /\ index_ok t /\ index_map t = ∅.
Proof.
  destruct (StreamTable.init_ok StreamTable.empty_table (configured_max_active_streams default_options))
    as (t & Hinit & Hwf & _ & Hmap); [by vm_compute|].
  exists t. split; [|by split]. unfold start, new_connection. by rewrite Hinit.
Qed.

Lemma default_options_ok : options_ok default_options.
Proof. repeat split; by vm_compute. Qed.


(** With an initial window of -1, a SETTINGS frame with the largest window moves that of
    an open stream by -2^31 instead of 2^31. *)
Definition negative_options : Options :=
  mkOptions true 16384 64 64 100 128 0 0x7fffffff 65535 (-1) 0 (64 * 1024) true true.

Lemma negative_initial_window_wraps :
  (c ← new_connection negative_options []; x ← run_begin c; y ← create_peer_stream 1 x.2;
   z ← apply_peer_initial_stream_window kMaxFlowControlWindow y.2;
   Some (z.1, send_window_ <$> stream_store (mem z.2) !! 0%nat)) = Some (None_, Some (- 2 ^ 31 - 1)).
Proof. vm_compute. reflexivity. Qed.

(** A [HEADERS] frame opens stream 1. *)
Lemma stream_table_never_dangles_witness :
  exists c1 c2, run_begin start = Some (None_, c1) /\
    run_event (Reader.EvChunk (mkFrameHeader 1 Headers 4 1) [130] 0 1) c1 = Some (None_, c2) /\
    find_stream c2 1 = Some 0%nat /\ index_size (streams_ (mem c2)) = Z.of_nat (size (stream_store (mem c2))).
Proof.
  eexists _, _. split; [vm_compute; reflexivity|]. split; [vm_compute; reflexivity|]. split; [vm_compute; reflexivity|].
  destruct start_is as (t & Hstart & Ht & Hm).
  eapply (stream_table_never_dangles t default_options []); [exact Ht|exact Hm|exact default_options_ok|].
  rewrite <-Hstart. eapply rtc_l; [eapply step_run_begin; vm_compute; reflexivity|].
  eapply rtc_once, (step_event (Reader.EvChunk (mkFrameHeader 1 Headers 4 1) [130] 0 1)).
  - repeat constructor; lia.
  - vm_compute. reflexivity.
Defined.

End Examples.

End Integrity.
