(* ===== verification/ScriptAst.v ===== *)
(** * Script syntax and instruction codes ([src/script/ast/], [src/script/ir/Code.h])

    The tree the script parser builds, as [ir::Compiler] reads it, and the
    instruction set it is compiled to.  A [unique_ptr] the parser leaves empty
    on some programs is an [option] (the initializer of a [let], the value of a
    [return], the [else] branch); one it always fills is a plain field.  A
    pointer to a library function or constant is a number of its own kind. *)
From S2P Require Import Prelude.
From Stdlib Require Import Floats.SpecFloat.

Module Ast.

Inductive Operator :=
  | Add | Minus | Multiply | Divide | Modulo | Match | And | Or | Lt | Lte | Gt | Gte | Eq | Seq | Ne | Sne
  | Not | Typeof | In.

#[global] Instance Operator_eq_dec : EqDecision Operator.
Proof. solve_decision. Defined.

(** Positions in the script text ([ast::Node]). *)
Record Node := mkNode { start_pos : Z; end_pos : Z }.

(** [Library::Function], [AsyncFunction], [Constant], [AsyncConstant] pointers. *)
Inductive Pointer := FunctionPtr (n : nat) | AsyncFunctionPtr (n : nat) | ConstantPtr (n : nat) | AsyncConstantPtr (n : nat).

#[global] Instance Pointer_eq_dec : EqDecision Pointer.
Proof. solve_decision. Defined.

#[global] Instance Pointer_countable : Countable Pointer.
Proof.
  refine (inj_countable'
    (fun p => match p with FunctionPtr n => (0%nat, n) | AsyncFunctionPtr n => (1%nat, n)
                      | ConstantPtr n => (2%nat, n) | AsyncConstantPtr n => (3%nat, n) end)
    (fun '(k, n) => match k with 0%nat => FunctionPtr n | 1%nat => AsyncFunctionPtr n
                            | 2%nat => ConstantPtr n | _ => AsyncConstantPtr n end) _).
  by intros [].
Defined.

(** The pointer a call or a constant goes through: the asynchronous one when
    there is one. *)
Inductive Callee := Sync (n : nat) | Async (n : nat).

Definition is_async (c : Callee) : bool := match c with Sync _ => false | Async _ => true end.

Inductive Literal := NullValue | Boolean (b : bool) | Integer (i : Z) | Float (f : spec_float) | StringValue (s : string).

Inductive Expression :=
  | LiteralE (n : Node) (l : Literal)
  | Identifier (n : Node) (name : string)
  | VariableReference (n : Node) (name : string)
  | ConstantVal (n : Node) (c : Callee)
  | FunctionCall (n : Node) (c : Callee) (args : list Expression)
  | InlineList (n : Node) (values : list Expression)
  | InlineObject (n : Node) (entries : list Entry)
  | Indexer (n : Node) (parent index : Expression)
  | PropertyReference (n : Node) (name : string) (parent : Expression)
  | BinaryOperator (n : Node) (op : Operator) (left right : Expression)
  | LogicRelationalExpression (n : Node) (left : Expression) (op : Operator) (right : Expression)
  | UnaryOperator (n : Node) (op : Operator) (operand : Expression)
  | Ternary (n : Node) (test if_true if_false : Expression)
  | Assign (n : Node) (left right : Expression)
  | ExpandArrArg (n : Node) (value : Expression)
with Entry :=
  | StringKey (key : string) (value : Expression)
  | ExpressionKey (key value : Expression)
  | ExpandKey (value : Expression).

Inductive Statement :=
  | BlockS (n : Node) (statements : list Statement)
  | ExpressionStatement (n : Node) (e : Expression)
  | VariableDeclareStatement (n : Node) (identifier : string) (initializer : option Expression)
  | ReturnStatement (n : Node) (value : option Expression)
  | ThrowStatement (n : Node) (value : Expression)
  | IfStatement (n : Node) (condition : Expression) (then_branch : Statement) (else_branch : option Statement)
  | ForeachStatement (n : Node) (key value : string) (collection : Expression) (block : list Statement)
  | TryCatchStatement (n : Node) (identifier : string) (try_block catch_block : list Statement)
  | BreakStatement (n : Node)
  | ContinueStatement (n : Node)
  | DirectiveStatement (n : Node).

(** What [Compiler::compile] is given: the parser returns a block for a script
    and an expression for an expression. *)
Inductive Root := RootBlock (n : Node) (statements : list Statement) | RootExpression (e : Expression) | RootStatement (s : Statement).

Definition expression_node (e : Expression) : Node :=
  match e with
  | LiteralE n _ | Identifier n _ | VariableReference n _ | ConstantVal n _ | FunctionCall n _ _ | InlineList n _
  | InlineObject n _ | Indexer n _ _ | PropertyReference n _ _ | BinaryOperator n _ _ _
  | LogicRelationalExpression n _ _ _ | UnaryOperator n _ _ | Ternary n _ _ _ | Assign n _ _ | ExpandArrArg n _ => n
  end.

Definition statement_node (s : Statement) : Node :=
  match s with
  | BlockS n _ | ExpressionStatement n _ | VariableDeclareStatement n _ _ | ReturnStatement n _ | ThrowStatement n _
  | IfStatement n _ _ _ | ForeachStatement n _ _ _ _ | TryCatchStatement n _ _ _ | BreakStatement n
  | ContinueStatement n | DirectiveStatement n => n
  end.

(** [VariableReference::is_root]. *)
Definition is_root (name : string) : bool := bool_decide (name = "$"%string).

Definition is_expand (e : Expression) : bool := match e with ExpandArrArg _ _ => true | _ => false end.

(** ** Induction over the nested syntax *)

Section ExpressionInd.
Context (P : Expression -> Prop).
Definition entry_all (e : Entry) : Prop :=
  match e with StringKey _ v => P v | ExpressionKey k v => P k /\ P v | ExpandKey v => P v end.
Definition assign_all (e : Expression) : Prop :=
  match e with PropertyReference _ _ a => P a | Indexer _ a b => P a /\ P b | _ => True end.
Context (HLit : forall n l, P (LiteralE n l)) (HId : forall n x, P (Identifier n x))
  (HVar : forall n x, P (VariableReference n x)) (HConst : forall n c, P (ConstantVal n c))
  (HCall : forall n c args, Forall P args -> P (FunctionCall n c args))
  (HList : forall n l, Forall P l -> P (InlineList n l))
  (HObj : forall n l, Forall entry_all l -> P (InlineObject n l))
  (HIdx : forall n a b, P a -> P b -> P (Indexer n a b))
  (HProp : forall n x a, P a -> P (PropertyReference n x a))
  (HBin : forall n o a b, P a -> P b -> P (BinaryOperator n o a b))
  (HLog : forall n a o b, P a -> P b -> P (LogicRelationalExpression n a o b))
  (HUn : forall n o a, P a -> P (UnaryOperator n o a))
  (HTer : forall n a b c, P a -> P b -> P c -> P (Ternary n a b c))
  (HAssign : forall n a b, assign_all a -> P b -> P (Assign n a b))
  (HExp : forall n a, P a -> P (ExpandArrArg n a)).

Fixpoint Expression_ind' (e : Expression) : P e :=
  let list_ind := fix list_ind (l : list Expression) : Forall P l :=
    match l with [] => Forall_nil_2 P | x :: l' => Forall_cons_2 P x l' (Expression_ind' x) (list_ind l') end in
  match e with
  | LiteralE n l => HLit n l
  | Identifier n x => HId n x
  | VariableReference n x => HVar n x
  | ConstantVal n c => HConst n c
  | FunctionCall n c args => HCall n c args (list_ind args)
  | InlineList n l => HList n l (list_ind l)
  | InlineObject n l =>
      HObj n l ((fix entries (l : list Entry) : Forall entry_all l :=
        match l with
        | [] => Forall_nil_2 _
        | x :: l' => Forall_cons_2 _ x l'
            (match x return entry_all x with
             | StringKey _ v => Expression_ind' v
             | ExpressionKey k v => conj (Expression_ind' k) (Expression_ind' v)
             | ExpandKey v => Expression_ind' v
             end) (entries l')
        end) l)
  | Indexer n a b => HIdx n a b (Expression_ind' a) (Expression_ind' b)
  | PropertyReference n x a => HProp n x a (Expression_ind' a)
  | BinaryOperator n o a b => HBin n o a b (Expression_ind' a) (Expression_ind' b)
  | LogicRelationalExpression n a o b => HLog n a o b (Expression_ind' a) (Expression_ind' b)
  | UnaryOperator n o a => HUn n o a (Expression_ind' a)
  | Ternary n a b c => HTer n a b c (Expression_ind' a) (Expression_ind' b) (Expression_ind' c)
  | Assign n a b =>
      HAssign n a b
        (match a return assign_all a with
         | PropertyReference _ _ x => Expression_ind' x
         | Indexer _ x y => conj (Expression_ind' x) (Expression_ind' y)
         | _ => I
         end) (Expression_ind' b)
  | ExpandArrArg n a => HExp n a (Expression_ind' a)
  end.
End ExpressionInd.

Section StatementInd.
Context (P : Statement -> Prop).
Definition option_all (o : option Statement) : Prop := match o with Some s => P s | None => True end.
Context (HBlock : forall n l, Forall P l -> P (BlockS n l)) (HExpr : forall n e, P (ExpressionStatement n e))
  (HVar : forall n x e, P (VariableDeclareStatement n x e)) (HRet : forall n e, P (ReturnStatement n e))
  (HThrow : forall n e, P (ThrowStatement n e))
  (HIf : forall n c a b, P a -> option_all b -> P (IfStatement n c a b))
  (HFor : forall n k v c l, Forall P l -> P (ForeachStatement n k v c l))
  (HTry : forall n x l1 l2, Forall P l1 -> Forall P l2 -> P (TryCatchStatement n x l1 l2))
  (HBreakS : forall n, P (BreakStatement n)) (HContinueS : forall n, P (ContinueStatement n))
  (HDir : forall n, P (DirectiveStatement n)).

Fixpoint Statement_ind' (s : Statement) : P s :=
  let list_ind := fix list_ind (l : list Statement) : Forall P l :=
    match l with [] => Forall_nil_2 P | x :: l' => Forall_cons_2 P x l' (Statement_ind' x) (list_ind l') end in
  match s with
  | BlockS n l => HBlock n l (list_ind l)
  | ExpressionStatement n e => HExpr n e
  | VariableDeclareStatement n x e => HVar n x e
  | ReturnStatement n e => HRet n e
  | ThrowStatement n e => HThrow n e
  | IfStatement n c a b =>
      HIf n c a b (Statement_ind' a) (match b return option_all b with Some b => Statement_ind' b | None => I end)
  | ForeachStatement n k v c l => HFor n k v c l (list_ind l)
  | TryCatchStatement n x l1 l2 => HTry n x l1 l2 (list_ind l1) (list_ind l2)
  | BreakStatement n => HBreakS n
  | ContinueStatement n => HContinueS n
  | DirectiveStatement n => HDir n
  end.
End StatementInd.

End Ast.

Module Code.

Inductive BinaryCode :=
  | PLUS | MINUS | MULTIPLY | DIVIDE | MOD | MATCH | LT | LTE | GT | GTE | EQ | SEQ | NE | SNE | IN.
Inductive UnaryCode := UPLUS | UMINUS | UNEG | UTYPEOF.

(** The instructions the compiler emits and the interpreter knows; their names
    are those of [ir::Code], the binary and unary operators grouped. *)
Inductive Opcode :=
  | NOOP | LOAD_CONST | LOAD_ROOT | DUMP | POP | LOAD_VAR | STORE_VAR
  | NEW_OBJECT | NEW_ARRAY | EXP_OBJECT | EXP_ARRAY | PUSH_ARRAY
  | IDX_GET | IDX_SET | IDX_SET_1 | PROP_GET | PROP_SET | PROP_SET_1
  | BOP (b : BinaryCode) | UNARY (u : UnaryCode)
  | CALL_FUNC | CALL_FUNC_SPREAD | CALL_ASYNC_FUNC | CALL_ASYNC_FUNC_SPREAD | CALL_CONST | CALL_ASYNC_CONST
  | JUMP | JUMP_IF_FALSE | JUMP_IF_TRUE
  | ITERATE_INTO | ITERATE_NEXT | ITERATE_KEY | ITERATE_VALUE
  | INTO_CATCH | THROW_EXP | END_RETURN.

#[global] Instance BinaryCode_eq_dec : EqDecision BinaryCode.
Proof. solve_decision. Defined.
#[global] Instance UnaryCode_eq_dec : EqDecision UnaryCode.
Proof. solve_decision. Defined.
#[global] Instance Opcode_eq_dec : EqDecision Opcode.
Proof. solve_decision. Defined.

Definition binary_byte (b : BinaryCode) : Z :=
  match b with
  | PLUS => 25 | MINUS => 26 | MULTIPLY => 27 | DIVIDE => 28 | MOD => 29 | MATCH => 30
  | LT => 31 | LTE => 32 | GT => 33 | GTE => 34 | EQ => 35 | SEQ => 36 | NE => 37 | SNE => 38 | IN => 39
  end.

Definition unary_byte (u : UnaryCode) : Z :=
  match u with UPLUS => 43 | UMINUS => 44 | UNEG => 45 | UTYPEOF => 46 end.

Definition byte_of (o : Opcode) : Z :=
  match o with
  | NOOP => 1 | LOAD_CONST => 3 | LOAD_ROOT => 4 | DUMP => 5 | POP => 6 | LOAD_VAR => 7 | STORE_VAR => 8
  | NEW_OBJECT => 10 | NEW_ARRAY => 11 | EXP_OBJECT => 12 | EXP_ARRAY => 13 | PUSH_ARRAY => 14
  | IDX_GET => 15 | IDX_SET => 16 | IDX_SET_1 => 17 | PROP_GET => 18 | PROP_SET => 19 | PROP_SET_1 => 20
  | BOP b => binary_byte b | UNARY u => unary_byte u
  | CALL_FUNC => 50 | CALL_FUNC_SPREAD => 51 | CALL_ASYNC_FUNC => 52 | CALL_ASYNC_FUNC_SPREAD => 53
  | CALL_CONST => 56 | CALL_ASYNC_CONST => 57
  | JUMP => 60 | JUMP_IF_FALSE => 61 | JUMP_IF_TRUE => 62
  | ITERATE_INTO => 65 | ITERATE_NEXT => 66 | ITERATE_KEY => 67 | ITERATE_VALUE => 68
  | INTO_CATCH => 69 | THROW_EXP => 75 | END_RETURN => 76
  end.

Definition all_opcodes : list Opcode :=
  [NOOP; LOAD_CONST; LOAD_ROOT; DUMP; POP; LOAD_VAR; STORE_VAR;
   NEW_OBJECT; NEW_ARRAY; EXP_OBJECT; EXP_ARRAY; PUSH_ARRAY;
   IDX_GET; IDX_SET; IDX_SET_1; PROP_GET; PROP_SET; PROP_SET_1] ++
  (BOP <$> [PLUS; MINUS; MULTIPLY; DIVIDE; MOD; MATCH; LT; LTE; GT; GTE; EQ; SEQ; NE; SNE; IN]) ++
  (UNARY <$> [UPLUS; UMINUS; UNEG; UTYPEOF]) ++
  [CALL_FUNC; CALL_FUNC_SPREAD; CALL_ASYNC_FUNC; CALL_ASYNC_FUNC_SPREAD; CALL_CONST; CALL_ASYNC_CONST;
   JUMP; JUMP_IF_FALSE; JUMP_IF_TRUE; ITERATE_INTO; ITERATE_NEXT; ITERATE_KEY; ITERATE_VALUE;
   INTO_CATCH; THROW_EXP; END_RETURN].

(** The [switch] of the interpreter: no case is its [default]. *)
Definition opcode_of (byte : Z) : option Opcode := List.find (fun o => byte_of o =? byte) all_opcodes.

Lemma opcode_of_byte o : opcode_of (byte_of o) = Some o.
Proof. by destruct o as [| | | | | | | | | | | | | | | | | |[]|[]| | | | | | | | | | | | | | | |]. Qed.

Lemma byte_of_range o : 0 <= byte_of o < 256.
Proof. destruct o as [| | | | | | | | | | | | | | | | | |[]|[]| | | | | | | | | | | | | | | |]; simpl; lia. Qed.

(** ** Instruction words

    A code is a signed 32-bit integer: the operation in the low byte, its
    operand above. *)

(** [static_cast<int32>(op) | (static_cast<int32>(operand) << 8)] *)
Definition encode (op operand : Z) : Z :=
  to_signed 32 (Z.lor op (to_signed 32 (Z.shiftl (to_signed 32 operand) 8))).

(** [static_cast<uint8>(instr & 0xFF)] and [static_cast<size_t>(instr >> 8)]. *)
Definition op_byte (instr : Z) : Z := Z.land instr 0xff.
Definition operand (instr : Z) : Z := u64 (Z.shiftr instr 8).

End Code.
