(* ===== verification/ScriptCompiler.v ===== *)
(** * The script compiler ([src/script/ir/Compiler.cpp], [Compiled.h])

    [CompilerImpl] as a state monad: every method of the class is a function of
    its state, and a jump is emitted with target 0 and patched when its target
    is known, as in the code.  Offsets and operand indexes are [nat]; a code is
    a signed 32-bit integer in [Z], built by [Code.encode].  The pools that only
    own what [operands] points to ([const_pool], [string_pool]) are left out. *)
From S2P Require Import Prelude ScriptAst.
From Stdlib Require Import Floats.SpecFloat.
Import Ast Code.

Module Compiler.

Inductive ConstValue :=
  | CUndefined | CNull | CBoolean (b : bool) | CInteger (i : Z) | CFloat (f : spec_float) | CString (s : string)
  | CBinary (bytes : list Z).

(** What an operand points to. *)
Inductive Operand := OpConst (c : ConstValue) | OpString (s : string) | OpPointer (p : Pointer).

Record Compiled := mkCompiled {
  stack_size : Z;
  var_table_size : nat;
  positions : list Z;
  codes : list Z;
  operands : list Operand;
  exception_table : list Z;
}.

Record LoopContext := mkLoop { continue_target : nat; break_jumps : list nat; continue_jumps : list nat }.

(** The part of the state emission changes, and the part name resolution and
    the operand table change. *)
Record Emitted := mkEmitted {
  em_codes : list Z;
  em_positions : list Z;
  em_exception_table : list Z;
  loops_ : list LoopContext;
  stack_depth_ : Z;
  max_stack_ : Z;
}.

Record Names := mkNames {
  scopes_ : list (gmap string nat);
  nm_operands : list Operand;
  operand_cache_ : gmap Pointer nat;
  string_operands_ : gmap string nat;
  undef_const_ : option nat;
  null_const_ : option nat;
  true_const_ : option nat;
  false_const_ : option nat;
  next_var_index_ : nat;
}.

Record CompilerImpl := mkImpl { emitted : Emitted; names : Names }.

Definition initial : CompilerImpl :=
  mkImpl (mkEmitted [] [] [] [] 0 0) (mkNames [] [] ∅ ∅ None None None None 0).

(** ** The state monad *)

Definition CM (A : Type) : Type := CompilerImpl -> A * CompilerImpl.
#[export] Instance CM_ret : MRet CM := fun _ a s => (a, s).
#[export] Instance CM_bind : MBind CM := fun _ _ k m s => let '(a, s') := m s in k a s'.

(** What only resolves names and fills the operand table. *)
Definition NM (A : Type) : Type := Names -> A * Names.
#[export] Instance NM_ret : MRet NM := fun _ a s => (a, s).
#[export] Instance NM_bind : MBind NM := fun _ _ k m s => let '(a, s') := m s in k a s'.

Definition get : CM CompilerImpl := fun s => (s, s).
Definition on_emitted {A} (f : Emitted -> A * Emitted) : CM A :=
  fun s => let '(a, e) := f (emitted s) in (a, mkImpl e (names s)).
Definition on_names {A} (f : NM A) : CM A :=
  fun s => let '(a, n) := f (names s) in (a, mkImpl (emitted s) n).
Definition modify_emitted (f : Emitted -> Emitted) : CM unit := on_emitted (fun e => (tt, f e)).

Fixpoint for_each {A} (f : A -> CM unit) (l : list A) : CM unit :=
  match l with
  | [] => mret tt
  | x :: l' => _ ← f x; for_each f l'
  end.

(** ** Scopes and variables; [scopes_.back()] is the head of the list *)

Definition set_scopes (sc : list (gmap string nat)) (next : nat) (n : Names) : Names :=
  mkNames sc (nm_operands n) (operand_cache_ n) (string_operands_ n) (undef_const_ n) (null_const_ n) (true_const_ n)
    (false_const_ n) next.

Definition push_scope_in : NM unit := fun n => (tt, set_scopes (∅ :: scopes_ n) (next_var_index_ n) n).
Definition push_scope : CM unit := on_names push_scope_in.

Definition pop_scope_in : NM unit := fun n => (tt, set_scopes (tail (scopes_ n)) (next_var_index_ n) n).
Definition pop_scope : CM unit := on_names pop_scope_in.

Definition declare_in (name : string) : NM nat := fun n =>
  let sc := match scopes_ n with [] => [∅] | l => l end in
  match head sc ≫= lookup name with
  | Some i => (i, set_scopes sc (next_var_index_ n) n)
  | None =>
      let index := next_var_index_ n in
      (index, set_scopes (match sc with [] => [] | m :: l => <[name := index]> m :: l end) (S index) n)
  end.

Definition declare_var (name : string) : CM nat := on_names (declare_in name).

Fixpoint lookup_scopes (name : string) (l : list (gmap string nat)) : option nat :=
  match l with
  | [] => None
  | m :: l' => match m !! name with Some i => Some i | None => lookup_scopes name l' end
  end.

Definition resolve_in (name : string) : NM nat := fun n =>
  match lookup_scopes name (scopes_ n) with Some i => (i, n) | None => declare_in name n end.
Definition resolve_var (name : string) : CM nat := on_names (resolve_in name).

Definition reserve_temp_in : NM nat := fun n =>
  (next_var_index_ n, set_scopes (scopes_ n) (S (next_var_index_ n)) n).
Definition reserve_temp_var : CM nat := on_names reserve_temp_in.

(** ** Emission *)

Definition update_depth (delta : Z) (e : Emitted) : Emitted :=
  let depth := Z.max 0 (stack_depth_ e + delta) in
  mkEmitted (em_codes e) (em_positions e) (em_exception_table e) (loops_ e) depth (Z.max (max_stack_ e) depth).

Definition update_stack (delta : Z) : CM unit := modify_emitted (update_depth delta).

Definition push_code (code pos : Z) (e : Emitted) : Emitted :=
  mkEmitted (em_codes e ++ [code]) (em_positions e ++ [pos]) (em_exception_table e) (loops_ e) (stack_depth_ e)
    (max_stack_ e).

Definition here : CM nat := s ← get; mret (length (em_codes (emitted s))).

Definition emit_raw (code pos delta : Z) : CM nat :=
  index ← here;
  _ ← modify_emitted (push_code code pos);
  _ ← update_stack delta;
  mret index.

Definition emit_op (op : Opcode) (operand : nat) (pos delta : Z) : CM nat :=
  emit_raw (encode (byte_of op) (Z.of_nat operand)) pos delta.

Definition emit_jump (op : Opcode) (target : nat) (pos : Z) : CM nat :=
  emit_op op target pos
    (if bool_decide (op = JUMP_IF_FALSE) || bool_decide (op = JUMP_IF_TRUE) then -1 else 0).

Definition patch_code (target : nat) (code : Z) : Z := encode (op_byte code) (Z.of_nat target).

Definition patch_jump (index target : nat) : CM unit :=
  modify_emitted (fun e =>
    mkEmitted (alter (patch_code target) index (em_codes e)) (em_positions e) (em_exception_table e) (loops_ e)
      (stack_depth_ e) (max_stack_ e)).

Definition set_stack_depth (depth : Z) : CM unit :=
  modify_emitted (fun e =>
    mkEmitted (em_codes e) (em_positions e) (em_exception_table e) (loops_ e) depth (max_stack_ e)).

Definition stack_depth : CM Z := s ← get; mret (stack_depth_ (emitted s)).

(** ** Operands *)

Definition set_operands (ops : list Operand) (cache : gmap Pointer nat) (strings : gmap string nat) (n : Names) : Names :=
  mkNames (scopes_ n) ops cache strings (undef_const_ n) (null_const_ n) (true_const_ n) (false_const_ n)
    (next_var_index_ n).

Definition operand_in (ptr : Pointer) : NM nat := fun n =>
  match operand_cache_ n !! ptr with
  | Some i => (i, n)
  | None =>
      let index := length (nm_operands n) in
      (index, set_operands (nm_operands n ++ [OpPointer ptr]) (<[ptr := index]> (operand_cache_ n)) (string_operands_ n) n)
  end.
Definition add_operand (ptr : Pointer) : CM nat := on_names (operand_in ptr).

Definition string_in (value : string) : NM nat := fun n =>
  match string_operands_ n !! value with
  | Some i => (i, n)
  | None =>
      let index := length (nm_operands n) in
      (index, set_operands (nm_operands n ++ [OpString value]) (operand_cache_ n) (<[value := index]> (string_operands_ n)) n)
  end.
Definition add_string_operand (value : string) : CM nat := on_names (string_in value).

Definition const_in (value : ConstValue) : NM nat := fun n =>
  (length (nm_operands n), set_operands (nm_operands n ++ [OpConst value]) (operand_cache_ n) (string_operands_ n) n).
Definition add_const_value (value : ConstValue) : CM nat := on_names (const_in value).

Definition set_consts (u nl t f : option nat) (n : Names) : Names :=
  mkNames (scopes_ n) (nm_operands n) (operand_cache_ n) (string_operands_ n) u nl t f (next_var_index_ n).

Definition undefined_in : NM nat := fun n =>
  match undef_const_ n with
  | Some i => (i, n)
  | None => let '(i, n) := const_in CUndefined n in
            (i, set_consts (Some i) (null_const_ n) (true_const_ n) (false_const_ n) n)
  end.
Definition const_undefined : CM nat := on_names undefined_in.

Definition null_in : NM nat := fun n =>
  match null_const_ n with
  | Some i => (i, n)
  | None => let '(i, n) := const_in CNull n in
            (i, set_consts (undef_const_ n) (Some i) (true_const_ n) (false_const_ n) n)
  end.
Definition const_null : CM nat := on_names null_in.

Definition bool_in (value : bool) : NM nat := fun n =>
  match (if value then true_const_ n else false_const_ n) with
  | Some i => (i, n)
  | None =>
      let '(i, n) := const_in (CBoolean value) n in
      (i, if value then set_consts (undef_const_ n) (null_const_ n) (Some i) (false_const_ n) n
          else set_consts (undef_const_ n) (null_const_ n) (true_const_ n) (Some i) n)
  end.
Definition const_bool (value : bool) : CM nat := on_names (bool_in value).

Definition function_pointer (c : Callee) : Pointer := match c with Sync n => FunctionPtr n | Async n => AsyncFunctionPtr n end.
Definition constant_pointer (c : Callee) : Pointer := match c with Sync n => ConstantPtr n | Async n => AsyncConstantPtr n end.

Definition emit_end_return (pos : Z) : CM unit :=
  _ ← emit_raw (byte_of END_RETURN) pos 0;
  set_stack_depth 0.

Definition emit_default_return (pos : Z) : CM unit :=
  k ← const_undefined;
  _ ← emit_op LOAD_CONST k pos 1;
  emit_end_return pos.

(** ** Expressions *)

Definition binary_code (op : Operator) : BinaryCode :=
  match op with
  | Add => PLUS | Minus => MINUS | Multiply => MULTIPLY | Divide => DIVIDE | Modulo => MOD | Match => MATCH
  | Lt => LT | Lte => LTE | Gt => GT | Gte => GTE | Eq => EQ | Seq => SEQ | Ne => NE | Sne => SNE | In => IN
  | And | Or | Not | Typeof => PLUS
  end.

Definition unary_code (op : Operator) : UnaryCode :=
  match op with Add => UPLUS | Minus => UMINUS | Not => UNEG | Typeof => UTYPEOF | _ => UPLUS end.

Definition literal_in (l : Literal) : NM nat :=
  match l with
  | NullValue => null_in
  | Boolean b => bool_in b
  | Integer i => const_in (CInteger i)
  | Float f => const_in (CFloat f)
  | StringValue s => const_in (CString s)
  end.
Definition literal_const (l : Literal) : CM nat := on_names (literal_in l).

(** The code of a call carries the number of arguments in its second byte and
    the operand in the two bytes above. *)
Definition call_code (op : Opcode) (arg_count idx : nat) : Z :=
  to_signed 32 (Z.lor (Z.lor (byte_of op) (to_signed 32 (Z.shiftl (Z.land (Z.of_nat arg_count) 0xff) 8)))
                      (to_signed 32 (Z.shiftl (Z.land (Z.of_nat idx) 0xffff) 16))).

(** An element of a list, or an argument of a call with a spread one. *)
Definition compile_item (compile_expression : Expression -> CM unit) (pos : Z) (item : Expression) : CM unit :=
  match item with
  | ExpandArrArg _ value =>
      _ ← compile_expression value;
      _ ← emit_raw (byte_of EXP_ARRAY) pos (-1);
      mret tt
  | _ =>
      _ ← compile_expression item;
      _ ← emit_raw (byte_of PUSH_ARRAY) pos (-1);
      mret tt
  end.

(** One entry of an object literal. *)
Definition compile_entry (compile_expression : Expression -> CM unit) (pos : Z) (entry : Entry) : CM unit :=
  match entry with
  | ExpandKey value =>
      _ ← compile_expression value;
      _ ← emit_raw (byte_of EXP_OBJECT) pos (-1);
      mret tt
  | ExpressionKey key value =>
      _ ← compile_expression key;
      _ ← compile_expression value;
      _ ← emit_raw (byte_of IDX_SET_1) pos (-2);
      mret tt
  | StringKey key value =>
      prop_idx ← add_string_operand key;
      _ ← compile_expression value;
      _ ← emit_op PROP_SET_1 prop_idx pos (-1);
      mret tt
  end.

Definition compile_assign (compile_expression : Expression -> CM unit) (pos : Z) (lhs rhs : Expression) : CM unit :=
  match lhs with
  | VariableReference _ name =>
      _ ← compile_expression rhs;
      _ ← emit_raw (byte_of DUMP) pos 1;
      idx ← resolve_var name;
      _ ← emit_op STORE_VAR idx pos (-1);
      mret tt
  | PropertyReference _ name parent =>
      _ ← compile_expression parent;
      _ ← compile_expression rhs;
      prop_idx ← add_string_operand name;
      _ ← emit_op PROP_SET prop_idx pos (-1);
      mret tt
  | Indexer _ parent index =>
      _ ← compile_expression parent;
      _ ← compile_expression index;
      _ ← compile_expression rhs;
      _ ← emit_raw (byte_of IDX_SET) pos (-2);
      mret tt
  | _ => compile_expression rhs
  end.

Fixpoint compile_expression (expr : Expression) : CM unit :=
  let pos := start_pos (expression_node expr) in
  match expr with
  | LiteralE _ l =>
      idx ← literal_const l;
      _ ← emit_op LOAD_CONST idx pos 1;
      mret tt
  | Identifier _ name =>
      idx ← resolve_var name;
      _ ← emit_op LOAD_VAR idx pos 1;
      mret tt
  | VariableReference _ name =>
      if is_root name then
        _ ← emit_raw (byte_of LOAD_ROOT) pos 1;
        mret tt
      else
        idx ← resolve_var name;
        _ ← emit_op LOAD_VAR idx pos 1;
        mret tt
  | ConstantVal _ c =>
      idx ← add_operand (constant_pointer c);
      _ ← emit_op (if is_async c then CALL_ASYNC_CONST else CALL_CONST) idx pos 1;
      mret tt
  | FunctionCall _ c args =>
      if negb (existsb is_expand args) then
        _ ← for_each compile_expression args;
        idx ← add_operand (function_pointer c);
        _ ← emit_raw (call_code (if is_async c then CALL_ASYNC_FUNC else CALL_FUNC) (length args) idx) pos
              (1 - Z.of_nat (length args));
        mret tt
      else
        _ ← emit_raw (byte_of NEW_ARRAY) pos 1;
        _ ← for_each (compile_item compile_expression pos) args;
        idx ← add_operand (function_pointer c);
        _ ← emit_op (if is_async c then CALL_ASYNC_FUNC_SPREAD else CALL_FUNC_SPREAD) idx pos 0;
        mret tt
  | InlineList _ values =>
      _ ← emit_raw (byte_of NEW_ARRAY) pos 1;
      for_each (compile_item compile_expression pos) values
  | InlineObject _ entries =>
      _ ← emit_raw (byte_of NEW_OBJECT) pos 1;
      for_each (compile_entry compile_expression pos) entries
  | Indexer _ parent index =>
      _ ← compile_expression parent;
      _ ← compile_expression index;
      _ ← emit_raw (byte_of IDX_GET) pos (-1);
      mret tt
  | PropertyReference _ name parent =>
      _ ← compile_expression parent;
      prop_idx ← add_string_operand name;
      _ ← emit_op PROP_GET prop_idx pos 0;
      mret tt
  | BinaryOperator _ op lhs rhs =>
      _ ← compile_expression lhs;
      _ ← compile_expression rhs;
      _ ← emit_raw (byte_of (BOP (binary_code op))) pos (-1);
      mret tt
  | LogicRelationalExpression _ lhs op rhs =>
      _ ← compile_expression lhs;
      _ ← emit_raw (byte_of DUMP) pos 1;
      end_jump ← emit_jump (if bool_decide (op = And) then JUMP_IF_FALSE else JUMP_IF_TRUE) 0 pos;
      _ ← emit_raw (byte_of POP) pos (-1);
      _ ← compile_expression rhs;
      end_target ← here;
      patch_jump end_jump end_target
  | UnaryOperator _ op operand =>
      _ ← compile_expression operand;
      _ ← emit_raw (byte_of (UNARY (unary_code op))) pos 0;
      mret tt
  | Ternary _ test if_true if_false =>
      _ ← compile_expression test;
      else_jump ← emit_jump JUMP_IF_FALSE 0 pos;
      saved_depth ← stack_depth;
      _ ← compile_expression if_true;
      end_jump ← emit_jump JUMP 0 pos;
      else_target ← here;
      _ ← patch_jump else_jump else_target;
      _ ← set_stack_depth saved_depth;
      _ ← compile_expression if_false;
      end_target ← here;
      patch_jump end_jump end_target
  | Assign _ lhs rhs => compile_assign compile_expression pos lhs rhs
  | ExpandArrArg _ value => compile_expression value
  end.

(** ** Statements *)

Definition with_loops (f : list LoopContext -> list LoopContext) : CM unit :=
  modify_emitted (fun e =>
    mkEmitted (em_codes e) (em_positions e) (em_exception_table e) (f (loops_ e)) (stack_depth_ e) (max_stack_ e)).

Definition loops : CM (list LoopContext) := s ← get; mret (loops_ (emitted s)).

Definition add_break (idx : nat) (l : list LoopContext) : list LoopContext :=
  match l with
  | [] => []
  | c :: l' => mkLoop (continue_target c) (break_jumps c ++ [idx]) (continue_jumps c) :: l'
  end.

Definition add_continue (idx : nat) (l : list LoopContext) : list LoopContext :=
  match l with
  | [] => []
  | c :: l' => mkLoop (continue_target c) (break_jumps c) (continue_jumps c ++ [idx]) :: l'
  end.

(** [loops_.back()] and [loops_.pop_back()]. *)
Definition pop_loop : CM LoopContext :=
  l ← loops;
  _ ← with_loops (@tail LoopContext);
  mret (match l with c :: _ => c | [] => mkLoop 0 [] [] end).

Definition add_exception_range (try_begin catch_begin catch_end : nat) : CM unit :=
  modify_emitted (fun e =>
    mkEmitted (em_codes e) (em_positions e)
      (em_exception_table e ++ [to_signed 32 (Z.of_nat try_begin); to_signed 32 (Z.of_nat catch_begin);
                                to_signed 32 (Z.of_nat catch_end)])
      (loops_ e) (stack_depth_ e) (max_stack_ e)).

Definition kIteratorLen : Z := 12.
Definition kIteratorOff : Z := 8 + kIteratorLen.
Definition kMaxIteratorVar : nat := 4095.

(** [ITERATE_KEY] and [ITERATE_VALUE] carry the target variable and the
    iterator's variable, each cut off at [kMaxIteratorVar]. *)
Definition iterator_code (op : Opcode) (target iter_idx : nat) : Z :=
  to_signed 32 (Z.lor (Z.lor (byte_of op)
      (to_signed 32 (Z.shiftl (to_signed 32 (Z.of_nat (Nat.min target kMaxIteratorVar))) 8)))
    (to_signed 32 (Z.shiftl (to_signed 32 (Z.of_nat (Nat.min iter_idx kMaxIteratorVar))) kIteratorOff))).

(** [compile_block], given [compile_statement]. *)
Definition compile_block (compile_statement : Statement -> CM unit) (statements : list Statement) (push_new_scope : bool)
  : CM unit :=
  _ ← (if push_new_scope then push_scope else mret tt);
  _ ← for_each compile_statement statements;
  if push_new_scope then pop_scope else mret tt.

Definition compile_optional (e : option Expression) (pos : Z) : CM unit :=
  match e with
  | Some e => compile_expression e
  | None => k ← const_undefined; _ ← emit_op LOAD_CONST k pos 1; mret tt
  end.

Fixpoint compile_statement (stmt : Statement) : CM unit :=
  let pos := start_pos (statement_node stmt) in
  match stmt with
  | BlockS _ statements => compile_block compile_statement statements true
  | ExpressionStatement _ e =>
      _ ← compile_expression e;
      _ ← emit_raw (byte_of POP) pos (-1);
      mret tt
  | VariableDeclareStatement _ identifier initializer =>
      var_idx ← declare_var identifier;
      _ ← compile_optional initializer pos;
      _ ← emit_op STORE_VAR var_idx pos (-1);
      mret tt
  | ReturnStatement _ value =>
      _ ← compile_optional value pos;
      emit_end_return pos
  | ThrowStatement _ value =>
      _ ← compile_expression value;
      _ ← emit_raw (byte_of THROW_EXP) pos (-1);
      set_stack_depth 0
  | IfStatement _ condition then_branch else_branch =>
      _ ← compile_expression condition;
      else_jump ← emit_jump JUMP_IF_FALSE 0 pos;
      saved_depth ← stack_depth;
      _ ← compile_statement then_branch;
      end_jump ← emit_jump JUMP 0 pos;
      else_target ← here;
      _ ← patch_jump else_jump else_target;
      _ ← set_stack_depth saved_depth;
      _ ← match else_branch with Some s => compile_statement s | None => mret tt end;
      end_target ← here;
      patch_jump end_jump end_target
  | ForeachStatement _ key value collection block =>
      _ ← compile_expression collection;
      iter_idx ← reserve_temp_var;
      _ ← emit_op ITERATE_INTO iter_idx pos (-1);
      _ ← push_scope;
      key_idx ← declare_var key;
      value_idx ← declare_var value;
      loop_start ← here;
      _ ← emit_op ITERATE_NEXT iter_idx pos 1;
      exit_jump ← emit_jump JUMP_IF_FALSE 0 pos;
      _ ← emit_raw (iterator_code ITERATE_KEY key_idx iter_idx) pos 0;
      _ ← emit_raw (iterator_code ITERATE_VALUE value_idx iter_idx) pos 0;
      _ ← with_loops (cons (mkLoop loop_start [] []));
      _ ← compile_block compile_statement block false;
      finished ← pop_loop;
      _ ← emit_jump JUMP loop_start pos;
      loop_end ← here;
      _ ← patch_jump exit_jump loop_end;
      _ ← for_each (fun jump_index => patch_jump jump_index loop_end) (break_jumps finished);
      _ ← for_each (fun jump_index => patch_jump jump_index (continue_target finished)) (continue_jumps finished);
      pop_scope
  | TryCatchStatement _ identifier try_block catch_block =>
      try_begin ← here;
      _ ← compile_block compile_statement try_block true;
      jump_over ← emit_jump JUMP 0 pos;
      catch_begin ← here;
      _ ← push_scope;
      catch_var ← declare_var identifier;
      _ ← emit_op INTO_CATCH catch_var pos 0;
      _ ← set_stack_depth 0;
      _ ← compile_block compile_statement catch_block false;
      _ ← pop_scope;
      catch_end ← here;
      _ ← patch_jump jump_over catch_end;
      add_exception_range try_begin catch_begin catch_end
  | BreakStatement _ =>
      l ← loops;
      match l with
      | [] => mret tt
      | _ => idx ← emit_jump JUMP 0 pos; with_loops (add_break idx)
      end
  | ContinueStatement _ =>
      l ← loops;
      match l with
      | [] => mret tt
      | _ => idx ← emit_jump JUMP 0 pos; with_loops (add_continue idx)
      end
  | DirectiveStatement _ => mret tt
  end.

Definition compile_root (node : Root) : CM unit :=
  _ ← push_scope;
  _ ← match node with
      | RootBlock n statements => _ ← compile_block compile_statement statements false; emit_default_return (end_pos n)
      | RootExpression e => _ ← compile_expression e; emit_end_return (end_pos (expression_node e))
      | RootStatement s => _ ← compile_statement s; emit_default_return (end_pos (statement_node s))
      end;
  pop_scope.

Definition compiled_of (s : CompilerImpl) : Compiled :=
  mkCompiled (if 0 <? max_stack_ (emitted s) then max_stack_ (emitted s) else 1) (next_var_index_ (names s))
    (em_positions (emitted s)) (em_codes (emitted s)) (nm_operands (names s)) (em_exception_table (emitted s)).

(** [Compiler::compile]. *)
Definition compile (node : Root) : Compiled := compiled_of (snd (compile_root node initial)).

(** [Compiled::contains_async]. *)
Definition contains_async (c : Compiled) : bool :=
  existsb (fun code => bool_decide (opcode_of (op_byte code) ∈
    [Some CALL_ASYNC_CONST; Some CALL_ASYNC_FUNC; Some CALL_ASYNC_FUNC_SPREAD])) (codes c).

End Compiler.
