(* ===== verification/ScriptWords.v ===== *)
(** * Instruction words

    What [ir::Compiler] packs into a 32-bit code and what the interpreter reads
    back: the operation from the low byte; the operand, which is signed, from
    the bits above; the two fields of a call and of an iterator instruction. *)
From S2P Require Import Prelude ScriptAst ScriptCompiler.
Import Ast Code Compiler.

Module Words.

Lemma to_signed_mod w x : 0 < w -> to_signed w x mod 2 ^ w = x mod 2 ^ w.
Proof.
  intros Hw. pose proof (Z.pow_pos_nonneg 2 w ltac:(lia) ltac:(lia)).
  unfold to_signed, wrap. destruct (_ <? _); [apply Zmod_mod|].
  rewrite Zminus_mod, Z_mod_same_full, Z.sub_0_r, !Zmod_mod. done.
Qed.

Lemma land_byte_to_signed x : Z.land (to_signed 32 x) 0xff = Z.land x 0xff.
Proof.
  change 0xff with (Z.ones 8). rewrite !Z.land_ones by lia.
  pose proof (to_signed_mod 32 x ltac:(lia)) as E.
  rewrite <- (Z.mod_mod_divide (to_signed 32 x) (2 ^ 32) (2 ^ 8)), E, Z.mod_mod_divide; try done; exists (2 ^ 24); lia.
Qed.

Lemma land_byte_shiftl x n : 8 <= n -> Z.land (Z.shiftl x n) 0xff = 0.
Proof.
  intros Hn. apply Z.bits_inj'. intros i Hi. rewrite Z.land_spec, Z.shiftl_spec, Z.bits_0 by done.
  destruct (decide (i < 8)).
  - rewrite (Z.testbit_neg_r x) by lia. done.
  - change 0xff with (Z.ones 8). rewrite Z.ones_spec_high by lia. apply andb_false_r.
Qed.

Lemma land_byte_small x : 0 <= x < 256 -> Z.land x 0xff = x.
Proof. intros. change 0xff with (Z.ones 8). rewrite Z.land_ones by lia. apply Z.mod_small. lia. Qed.

Lemma op_byte_encode o x : op_byte (encode (byte_of o) x) = byte_of o.
Proof.
  unfold op_byte, encode. rewrite land_byte_to_signed, Z.land_lor_distr_l, land_byte_to_signed,
    land_byte_shiftl, Z.lor_0_r by lia. apply land_byte_small, byte_of_range.
Qed.

Lemma encode_byte o : encode (byte_of o) 0 = byte_of o.
Proof. by destruct o as [| | | | | | | | | | | | | | | | | |[]|[]| | | | | | | | | | | | | | | |]. Qed.


(** ** Reading operands back *)

Lemma lor_high b x n : 0 <= n -> 0 <= b < 2 ^ n -> Z.lor b (Z.shiftl x n) = b + x * 2 ^ n.
Proof.
  intros Hn Hb. rewrite Z.shiftl_mul_pow2 by done. symmetry. apply Z.add_nocarry_lor.
  apply Z.bits_inj'. intros i Hi. rewrite Z.land_spec, Z.bits_0, <- Z.shiftl_mul_pow2, Z.shiftl_spec by lia.
  destruct (Z.lt_ge_cases i n).
  - rewrite (Z.testbit_neg_r x) by lia. apply andb_false_r.
  - rewrite <- (Z.mod_small b (2 ^ n)) by done. by rewrite Z.mod_pow2_bits_high by lia.
Qed.

Lemma to_signed_small w x : 0 < w -> 0 <= x < 2 ^ (w - 1) -> to_signed w x = x.
Proof.
  intros Hw Hx. assert (2 ^ w = 2 * 2 ^ (w - 1)) as E by (rewrite <- Z.pow_succ_r by lia; f_equal; lia).
  unfold to_signed. rewrite wrap_small by (unfold in_width; lia). by destruct (Z.ltb_spec x (2 ^ (w - 1))); lia.
Qed.

Lemma encode_small b k : 0 <= b < 256 -> 0 <= k < 2 ^ 23 -> encode b k = b + k * 256.
Proof.
  intros Hb Hk. unfold encode. rewrite (to_signed_small 32 k), (to_signed_small 32 (Z.shiftl k 8)), lor_high, to_signed_small;
    rewrite ?Z.shiftl_mul_pow2; lia.
Qed.

Lemma operand_encode b k : 0 <= b < 256 -> 0 <= k < 2 ^ 23 -> operand (encode b k) = k.
Proof.
  intros Hb Hk. rewrite encode_small by done. unfold operand. rewrite Z.shiftr_div_pow2 by lia.
  rewrite Z.div_add by lia. rewrite Z.div_small, Z.add_0_l by lia. apply wrap_small. unfold in_width. lia.
Qed.

Lemma call_code_small o argc k : (argc <= 255)%nat -> Z.of_nat k < 2 ^ 15 ->
  call_code o argc k = byte_of o + Z.of_nat argc * 256 + Z.of_nat k * 65536.
Proof.
  intros Ha Hk. pose proof (byte_of_range o). unfold call_code.
  change 0xff with (Z.ones 8). change 0xffff with (Z.ones 16).
  rewrite !Z.land_ones, !Z.mod_small by lia.
  rewrite (to_signed_small 32 (Z.shiftl (Z.of_nat argc) 8)) by (rewrite ?Z.shiftl_mul_pow2; lia).
  rewrite (to_signed_small 32 (Z.shiftl (Z.of_nat k) 16)) by (rewrite ?Z.shiftl_mul_pow2; lia).
  rewrite (lor_high _ _ 8), (lor_high _ _ 16), to_signed_small; lia.
Qed.

Lemma call_code_fields o argc k : (argc <= 255)%nat -> Z.of_nat k < 2 ^ 15 ->
  op_byte (call_code o argc k) = byte_of o /\
  Z.land (Z.shiftr (call_code o argc k) 8) 0xff = Z.of_nat argc /\
  u64 (Z.shiftr (call_code o argc k) 16) = Z.of_nat k.
Proof.
  intros Ha Hk. rewrite call_code_small by done. pose proof (byte_of_range o).
  unfold op_byte. change 0xff with (Z.ones 8). rewrite !Z.land_ones, !Z.shiftr_div_pow2 by lia. repeat split.
  - replace (byte_of o + Z.of_nat argc * 256 + Z.of_nat k * 65536) with (byte_of o + (Z.of_nat argc + Z.of_nat k * 256) * 2 ^ 8) by lia.
    rewrite Z.mod_add by lia. apply Z.mod_small. lia.
  - replace (byte_of o + Z.of_nat argc * 256 + Z.of_nat k * 65536) with (byte_of o + (Z.of_nat argc + Z.of_nat k * 256) * 2 ^ 8) by lia.
    rewrite Z.div_add, Z.div_small, Z.add_0_l by lia.
    change (2 ^ 8) with 256. rewrite Z.mod_add by lia. apply Z.mod_small. lia.
  - rewrite Z.div_add by lia. rewrite Z.div_small, Z.add_0_l by lia. apply wrap_small. unfold in_width. lia.
Qed.

Lemma iterator_code_fields o target iter : (target <= kMaxIteratorVar)%nat -> Z.of_nat iter < 2 ^ 11 ->
  op_byte (iterator_code o target iter) = byte_of o /\
  Z.land (Z.shiftr (iterator_code o target iter) 8) 4095 = Z.of_nat target /\
  u64 (Z.shiftr (iterator_code o target iter) kIteratorOff) = Z.of_nat iter.
Proof.
  unfold kMaxIteratorVar, kIteratorOff, kIteratorLen. intros Ht Hi. pose proof (byte_of_range o).
  assert (iterator_code o target iter = byte_of o + Z.of_nat target * 256 + Z.of_nat iter * 2 ^ 20) as E.
  { unfold iterator_code, kMaxIteratorVar, kIteratorOff, kIteratorLen. rewrite !Nat.min_l by lia.
    rewrite (to_signed_small 32 (Z.of_nat target)), (to_signed_small 32 (Z.of_nat iter)) by lia.
    rewrite (to_signed_small 32 (Z.shiftl (Z.of_nat target) 8)) by (rewrite ?Z.shiftl_mul_pow2; lia).
    rewrite (to_signed_small 32 (Z.shiftl (Z.of_nat iter) _)) by (rewrite ?Z.shiftl_mul_pow2; lia).
    rewrite (lor_high _ _ 8), (lor_high _ _ (8 + 12)), to_signed_small; lia. }
  rewrite E. unfold op_byte. change 0xff with (Z.ones 8). change 4095 with (Z.ones 12).
  rewrite !Z.land_ones, !Z.shiftr_div_pow2 by lia.
  replace (byte_of o + Z.of_nat target * 256 + Z.of_nat iter * 2 ^ 20)
    with (byte_of o + (Z.of_nat target + Z.of_nat iter * 2 ^ 12) * 2 ^ 8) by lia. repeat split.
  - rewrite Z.mod_add by lia. apply Z.mod_small. lia.
  - rewrite Z.div_add, Z.div_small, Z.add_0_l, Z.mod_add by lia. apply Z.mod_small. lia.
  - replace (byte_of o + (Z.of_nat target + Z.of_nat iter * 2 ^ 12) * 2 ^ 8)
      with ((byte_of o + Z.of_nat target * 2 ^ 8) + Z.of_nat iter * 2 ^ (8 + 12)) by lia.
    rewrite Z.div_add by lia. rewrite Z.div_small, Z.add_0_l by lia. apply wrap_small. unfold in_width. lia.
Qed.

(** What the interpreter reads from a code: the fields of [CALL_FUNC] and of
    [ITERATE_KEY]. *)
Definition call_count (instr : Z) : Z := Z.land (Z.shiftr instr 8) 0xff.
Definition call_operand (instr : Z) : Z := u64 (Z.shiftr instr 16).
Definition iterator_target (instr : Z) : Z := Z.land (Z.shiftr instr 8) 4095.
Definition iterator_variable (instr : Z) : Z := u64 (Z.shiftr instr kIteratorOff).

(** What the interpreter reads from a code is what the compiler packed in it,
    for the operands the field has room for: an operand below 2^23, a call of at
    most 255 arguments on an operand below 2^15, an iterator variable below 2^11.
    The first value above each bound is read back as another one: the operand
    and the iterator as huge unsigned numbers, 256 arguments as none. *)
Theorem code_fields_bounds :
  (forall o k, 0 <= k < 2 ^ 23 -> op_byte (encode (byte_of o) k) = byte_of o /\ operand (encode (byte_of o) k) = k) /\
  operand (encode (byte_of JUMP) (2 ^ 23)) = 2 ^ 64 - 2 ^ 23 /\
  (forall o argc k, (argc <= 255)%nat -> Z.of_nat k < 2 ^ 15 ->
     call_count (call_code o argc k) = Z.of_nat argc /\ call_operand (call_code o argc k) = Z.of_nat k) /\
  call_count (call_code CALL_FUNC 256 0) = 0 /\
  (forall o target iter, (target <= 4095)%nat -> Z.of_nat iter < 2 ^ 11 ->
     iterator_target (iterator_code o target iter) = Z.of_nat target /\
     iterator_variable (iterator_code o target iter) = Z.of_nat iter) /\
  iterator_variable (iterator_code ITERATE_KEY 0 2048) = 2 ^ 64 - 2048.
Proof.
  repeat apply conj.
  - intros o k Hk. split; [apply op_byte_encode|by apply operand_encode; [apply byte_of_range|]].
  - vm_compute. reflexivity.
  - intros o argc k Ha Hk. by apply call_code_fields.
  - vm_compute. reflexivity.
  - intros o target iter Ht Hi. by apply iterator_code_fields.
  - vm_compute. reflexivity.
Qed.

End Words.
