(* ===== verification/ScriptVm.v ===== *)
(** * The script interpreter ([src/script/run/InterpreterVm.cpp], [InterpreterVm.h])

    One turn of the loop of [iterate] is [step]; an undefined behaviour of the
    code (a read or write outside [slots_], a failed assertion) is [Ub].  The
    value operations ([Binaries], [Unaries], [Compares], [Access], the heap) and
    the library the script calls are an interface, [Values]; [H] is the state of
    the heap, and an operation that may collect it is given the roots. *)
From S2P Require Import Prelude ScriptAst ScriptCompiler.
From Stdlib Require Import Floats.SpecFloat.
Import Ast Code Compiler.

Inductive VmErrorKind := Normal | Thrown.

Record VmErrorOf (V : Type) := mkVmError {
  er_kind : VmErrorKind;
  er_name : string;
  er_message : string;
  er_status : Z;
  er_position : Z;
  er_meta : V;
}.
Arguments mkVmError {V}.
Arguments er_kind {V}.
Arguments er_name {V}.
Arguments er_message {V}.
Arguments er_status {V}.
Arguments er_position {V}.
Arguments er_meta {V}.

(** The operations an instruction calls, by the name of the C++ function. *)
Inductive Operation :=
  | Binaries_ (b : BinaryCode)
  | Unaries_ (u : UnaryCode)
  | Unaries_iterate
  | Access_expand_object | Access_expand_array | Access_push_array
  | Access_index_get | Access_index_set | Access_index_set1
  | Access_prop_get (name : string) | Access_prop_set (name : string) | Access_prop_set1 (name : string).

(** The allocations of the interpreter itself. *)
Inductive AllocationOf (V : Type) :=
  | Make_object | Make_array | Make_string (s : string) | Make_binary (bytes : list Z)
  | New_exception (position : Z) (name message : string) (meta : V).
Arguments Make_object {V}.
Arguments Make_array {V}.
Arguments Make_string {V}.
Arguments Make_binary {V}.
Arguments New_exception {V}.

(** What a call sees of its arguments: a range of the stack, or the array a
    spread call collected them in. *)
Inductive CallArgsOf (V : Type) := ArgList (l : list V) | ArgSpread (arr : V) | NoArgs.
Arguments ArgList {V}.
Arguments ArgSpread {V}.
Arguments NoArgs {V}.

(** What the interpreter needs of the values, the heap and the library. *)
Class Values := {
  V : Type;
  H : Type;
  make_undefined : V;
  make_null : V;
  make_boolean : bool -> V;
  make_integer : Z -> V;
  make_float : spec_float -> V;
  maybe_collect : list V -> H -> H;
  operate : Operation -> list V -> list V -> H -> (VmErrorOf V + V) * H;
  allocate : AllocationOf V -> H -> option V * H;
  logic : V -> H -> bool;
  iterator_next : V -> H -> bool * H;
  iterator_key : V -> H -> V;
  iterator_value : V -> H -> V;
  call_sync : Pointer -> V -> CallArgsOf V -> list V -> H -> (V + V) * H;
  (** the result when the call answered before it returned *)
  call_async : Pointer -> V -> CallArgsOf V -> list V -> H -> option (V + V) * H;
}.

Module Vm.
Section Interpreter.
Context `{Values}.

Local Abbreviation VmError := (VmErrorOf V).
Local Abbreviation CallArgs := (CallArgsOf V).

Definition make_error (name message : string) (position : Z) : VmError :=
  mkVmError Normal name message 500 position make_undefined.
Definition make_oom (position : Z) : VmError := make_error "EXEC_OUT_OF_MEMORY" "out of memory" position.
Definition make_throw_error : VmError := mkVmError Thrown "EXEC_THROW" "script throw" 500 (-1) make_undefined.
Definition no_error : VmError := mkVmError Normal "" "" 500 (-1) make_undefined.

(** ** The exception index *)

(** [ranges[key] = value] of a [std::map], kept in key order. *)
Fixpoint map_set (key value : Z) (m : list (Z * Z)) : list (Z * Z) :=
  match m with
  | [] => [(key, value)]
  | (k, v) :: m' =>
      if key <? k then (key, value) :: m
      else if key =? k then (key, value) :: m'
      else (k, v) :: map_set key value m'
  end.

Fixpoint set_insert (key : Z) (s : list Z) : list Z :=
  match s with
  | [] => [key]
  | k :: s' => if key <? k then key :: s else if key =? k then s else k :: set_insert key s'
  end.

Definition lower_bound (key : Z) (s : list Z) : option Z := List.find (fun k => key <=? k) s.

Fixpoint exception_ranges (table : list Z) (ranges : list (Z * Z)) (catches : list Z) : list (Z * Z) :=
  match table with
  | try_begin :: catch_begin :: catch_end :: table' =>
      let ranges := map_set try_begin catch_begin ranges in
      let catches := set_insert catch_begin catches in
      let latter := match lower_bound catch_end catches with Some l => l | None => -1 end in
      exception_ranges table' (map_set catch_begin latter ranges) catches
  | _ => ranges
  end.

(** [exp_ins_]: the keys in order, then their values. *)
Definition build_exception_index (table : list Z) : list Z :=
  let ranges := exception_ranges table [] [] in (fst <$> ranges) ++ (snd <$> ranges).

Definition at_ (l : list Z) (i : Z) : Z := default 0 (l !! Z.to_nat i).

Fixpoint linear_search (exp_ins : list Z) (len epc : Z) (i : Z) (fuel : nat) : Z :=
  match fuel with
  | O => at_ exp_ins (len - 1 + len)
  | S fuel =>
      if i <? len then
        if epc <=? u64 (at_ exp_ins i) then at_ exp_ins (i - 1 + len) else linear_search exp_ins len epc (i + 1) fuel
      else at_ exp_ins (len - 1 + len)
  end.

Fixpoint binary_search (exp_ins : list Z) (len epc l r : Z) (fuel : nat) : Z :=
  match fuel with
  | O => at_ exp_ins (l - 1 + len)
  | S fuel =>
      if l <? r then
        let m := Z.shiftr (l + r) 1 in
        let mv := at_ exp_ins m in
        if epc <? u64 mv then binary_search exp_ins len epc l m fuel
        else if u64 mv <? epc then binary_search exp_ins len epc (m + 1) r fuel
        else at_ exp_ins (m + len)
      else at_ exp_ins (l - 1 + len)
  end.

Definition search_catch (exp_ins : list Z) (epc : Z) : Z :=
  let len := Z.shiftr (Z.of_nat (length exp_ins)) 1 in
  if len =? 0 then -1
  else if (epc <? u64 (at_ exp_ins 0)) || (u64 (at_ exp_ins (len - 1)) <=? epc) then -1
  else if len <=? 8 then linear_search exp_ins len epc 1 (Z.to_nat len)
  else binary_search exp_ins len epc 0 len (S (Z.to_nat len)).

(** ** State *)

Inductive VmState := Init | Running | Suspend | Success | Error.
#[global] Instance VmState_eq_dec : EqDecision VmState.
Proof. solve_decision. Defined.
Inductive PendingValueKind := PNone | PThrown | PAsyncReturn | PAsyncThrow | PReturn.
#[global] Instance PendingValueKind_eq_dec : EqDecision PendingValueKind.
Proof. solve_decision. Defined.
Inductive AsyncResumeKind := RNone | RPushResult | RReplaceTop.

(** What does not change while the script runs. *)
Record Config := mkConfig { compiled_ : Compiled; root_ : V; exp_ins_ : list Z }.

Record Arguments_ := mkArgs { arg_ptr : option Z; arg_cnt : Z; arg_spread_slot : Z }.

Record Pending := mkPending {
  pending_error : VmError;
  has_error : bool;
  pending_value_kind : PendingValueKind;
  pending_value : V;
}.

Record AsyncState := mkAsync {
  async_pending : bool;
  async_ready : bool;
  async_resume_kind : AsyncResumeKind;
  async_resume_epc : Z;
}.

Record Control := mkControl {
  state : VmState;
  in_iterate : bool;
  resume_pending : bool;
  resume_callback : bool;
  resumed : nat;      (** how often the callback ran *)
  out : option (VmError + V);
}.

Record InterpreterVm := mkVm {
  slots : list V;
  sp : Z;
  pc : Z;
  const_cache : list (option V);
  args : Arguments_;
  pend : Pending;
  async : AsyncState;
  control : Control;
  heap : H;
}.

Definition construct (c : Compiled) (root : V) (h : H) : Config * InterpreterVm :=
  (mkConfig c root (build_exception_index (exception_table c)),
   mkVm (replicate (Z.to_nat (stack_size c) + var_table_size c) make_undefined) 0 0
     (replicate (length (operands c)) None) (mkArgs (Some 0) 0 0)
     (mkPending no_error false PNone make_undefined) (mkAsync false false RNone 0)
     (mkControl Init false false false 0 None) h).

Definition set_slots l v := mkVm l (sp v) (pc v) (const_cache v) (args v) (pend v) (async v) (control v) (heap v).
Definition set_sp x v := mkVm (slots v) x (pc v) (const_cache v) (args v) (pend v) (async v) (control v) (heap v).
Definition set_pc x v := mkVm (slots v) (sp v) x (const_cache v) (args v) (pend v) (async v) (control v) (heap v).
Definition set_cache x v := mkVm (slots v) (sp v) (pc v) x (args v) (pend v) (async v) (control v) (heap v).
Definition set_args x v := mkVm (slots v) (sp v) (pc v) (const_cache v) x (pend v) (async v) (control v) (heap v).
Definition set_pend x v := mkVm (slots v) (sp v) (pc v) (const_cache v) (args v) x (async v) (control v) (heap v).
Definition set_async x v := mkVm (slots v) (sp v) (pc v) (const_cache v) (args v) (pend v) x (control v) (heap v).
Definition set_control x v := mkVm (slots v) (sp v) (pc v) (const_cache v) (args v) (pend v) (async v) x (heap v).
Definition set_heap x v := mkVm (slots v) (sp v) (pc v) (const_cache v) (args v) (pend v) (async v) (control v) x.

Definition set_pending_value (k : PendingValueKind) (x : V) (v : InterpreterVm) : InterpreterVm :=
  set_pend (mkPending (pending_error (pend v)) (has_error (pend v)) k x) v.

Definition set_state (s : VmState) (in_it : bool) (v : InterpreterVm) : InterpreterVm :=
  let c := control v in set_control (mkControl s in_it (resume_pending c) (resume_callback c) (resumed c) (out c)) v.

Definition set_out (o : VmError + V) (v : InterpreterVm) : InterpreterVm :=
  let c := control v in
  set_control (mkControl (state c) (in_iterate c) (resume_pending c) (resume_callback c) (resumed c) (Some o)) v.

(** A turn ends in [Next] to go on, in [Halt] when [iterate] returns, in [Ub]
    when the C++ has no defined result. *)
Inductive Outcome := Next (v : InterpreterVm) | Halt (v : InterpreterVm) | Ub.

Section WithConfig.
Context (cfg : Config).

Definition stack_size_ : Z := stack_size (compiled_ cfg).

(** ** Slots: [stack_] and, after it, [vars_] *)

Definition slot (i : Z) (v : InterpreterVm) : option V :=
  if (0 <=? i) then slots v !! Z.to_nat i else None.

Definition store (i : Z) (x : V) (v : InterpreterVm) : option InterpreterVm :=
  if (0 <=? i) && (i <? Z.of_nat (length (slots v))) then Some (set_slots (<[Z.to_nat i := x]> (slots v)) v) else None.

Definition stack_at (i : Z) (v : InterpreterVm) : option V := slot i v.
Definition var_at (i : Z) (v : InterpreterVm) : option V := slot (stack_size_ + i) v.
Definition store_var (i : Z) (x : V) (v : InterpreterVm) : option InterpreterVm := store (stack_size_ + i) x v.

(** [stack_[sp_++] = x] *)
Definition push (x : V) (v : InterpreterVm) : option InterpreterVm :=
  v' ← store (sp v) x v; Some (set_sp (u64 (sp v + 1)) v').

Definition visit_roots (v : InterpreterVm) : list V :=
  let p := pend v in
  [root_ cfg] ++ take (Z.to_nat (sp v)) (slots v) ++ drop (Z.to_nat stack_size_) (slots v)
  ++ omap id (const_cache v)
  ++ (if has_error p then [match pending_value_kind p with PThrown => pending_value p | _ => er_meta (pending_error p) end]
      else [])
  ++ (if async_pending (async v) && async_ready (async v) then
        match pending_value_kind p with PAsyncReturn | PAsyncThrow => [pending_value p] | _ => [] end
      else [])
  ++ match pending_value_kind p with PReturn => [pending_value p] | _ => [] end.

Definition collect (v : InterpreterVm) : InterpreterVm := set_heap (maybe_collect (visit_roots v) (heap v)) v.

(** ** Errors *)

Definition finalize_error (error : VmError) (v : InterpreterVm) : InterpreterVm :=
  let p := pend v in
  let p' := if has_error p then p else mkPending error true (pending_value_kind p) (pending_value p) in
  set_out (inl (pending_error p')) (set_pend p' v).

Definition catch_for_exception (epc : Z) (v : InterpreterVm) : bool * InterpreterVm :=
  let target := search_catch (exp_ins_ cfg) epc in
  let v := set_sp 0 v in
  if target <? 0 then (false, v) else (true, set_pc (u64 target) v).

Definition located (error : VmError) (epc : Z) : VmError :=
  if er_position error <? 0 then
    match positions (compiled_ cfg) !! Z.to_nat epc with
    | Some p => mkVmError (er_kind error) (er_name error) (er_message error) (er_status error) p (er_meta error)
    | None => error
    end
  else error.

Definition handle_error (error : VmError) (epc : Z) (v : InterpreterVm) : bool * InterpreterVm :=
  let p := pend v in
  catch_for_exception epc (set_pend (mkPending (located error epc) true (pending_value_kind p) (pending_value p)) v).

Definition finish_error (error : VmError) (v : InterpreterVm) : InterpreterVm :=
  set_state Error false (finalize_error error v).

(** The code after every failed operation: go on in the handler, or stop. *)
Definition raise (error : VmError) (v : InterpreterVm) : Outcome :=
  let '(caught, v') := handle_error error (pc v - 1) v in
  if caught then Next v' else Halt (finish_error error v').

(** A thrown value: [pending_value_] and a [Thrown] error. *)
Definition raise_value (thrown : V) (v : InterpreterVm) : Outcome := raise make_throw_error (set_pending_value PThrown thrown v).

(** ** Constants *)

Definition const_value (cv : ConstValue) (v : InterpreterVm) : (VmError + V) * InterpreterVm :=
  match cv with
  | CUndefined => (inr make_undefined, v)
  | CNull => (inr make_null, v)
  | CBoolean b => (inr (make_boolean b), v)
  | CInteger i => (inr (make_integer i), v)
  | CFloat f => (inr (make_float f), v)
  | CString s =>
      let v := collect v in
      let '(r, h) := allocate (Make_string s) (heap v) in
      (match r with Some x => inr x | None => inl (make_oom (-1)) end, set_heap h v)
  | CBinary b =>
      let v := collect v in
      let '(r, h) := allocate (Make_binary b) (heap v) in
      (match r with Some x => inr x | None => inl (make_oom (-1)) end, set_heap h v)
  end.

(** [None] when the operand is not a constant: a wild cast. *)
Definition load_const (idx : Z) (v : InterpreterVm) : option ((VmError + V) * InterpreterVm) :=
  match const_cache v !! Z.to_nat idx with
  | Some (Some x) => Some (inr x, v)
  | Some None =>
      match operands (compiled_ cfg) !! Z.to_nat idx with
      | Some (OpConst cv) =>
          let '(r, v') := const_value cv v in
          Some (r, match r with inr x => set_cache (<[Z.to_nat idx := Some x]> (const_cache v')) v' | inl _ => v' end)
      | _ => None
      end
  | None => None
  end.

Definition string_operand (idx : Z) : option string :=
  match operands (compiled_ cfg) !! Z.to_nat idx with Some (OpString s) => Some s | _ => None end.

Definition pointer_operand (idx : Z) : option Pointer :=
  match operands (compiled_ cfg) !! Z.to_nat idx with Some (OpPointer p) => Some p | _ => None end.

(** ** Calls *)

Definition set_args_for_ctx (off count : Z) (v : InterpreterVm) : InterpreterVm :=
  set_args (mkArgs (if off <? stack_size_ then Some off else Some (-1)) count (arg_spread_slot (args v))) v.
Definition set_args_for_spread (slot : Z) (v : InterpreterVm) : InterpreterVm :=
  set_args (mkArgs None (arg_cnt (args v)) slot) v.
Definition clear_args (v : InterpreterVm) : InterpreterVm := set_args (mkArgs (Some 0) 0 0) v.

(** The arguments as [arg_value] and [arg_count] give them; [None] when they lie
    outside the slots. *)
Definition call_args (v : InterpreterVm) : option CallArgs :=
  match arg_ptr (args v) with
  | Some off =>
      if arg_cnt (args v) =? 0 then Some (ArgList [])
      else if (0 <=? off) && (off + arg_cnt (args v) <=? Z.of_nat (length (slots v))) then
        Some (ArgList (take (Z.to_nat (arg_cnt (args v))) (drop (Z.to_nat off) (slots v))))
      else None
  | None =>
      if stack_size_ <=? arg_spread_slot (args v) then Some NoArgs
      else ArgSpread <$> stack_at (arg_spread_slot (args v)) v
  end.

Definition notify_resume (v : InterpreterVm) : InterpreterVm :=
  let c := control v in
  match state c with
  | Suspend =>
      if negb (resume_callback c) || resume_pending c then v
      else set_control (mkControl (state c) (in_iterate c) true (resume_callback c) (S (resumed c)) (out c)) v
  | _ => v
  end.

(** [return_value] and [throw_value]: [k] is [PAsyncReturn] or [PAsyncThrow]. *)
Definition answer (k : PendingValueKind) (value : V) (v : InterpreterVm) : InterpreterVm :=
  match state (control v) with
  | Success | Error => v
  | _ =>
      let a := async v in
      if negb (async_pending a) || async_ready a then v
      else
        let v := set_async (mkAsync true true (async_resume_kind a) (async_resume_epc a)) (set_pending_value k value v) in
        if in_iterate (control v) then v else notify_resume v
  end.

Definition return_value : V -> InterpreterVm -> InterpreterVm := answer PAsyncReturn.
Definition throw_value : V -> InterpreterVm -> InterpreterVm := answer PAsyncThrow.

(** [set_resume_callback]; [None] is a null pointer. *)
Definition set_resume_callback (present : bool) (v : InterpreterVm) : InterpreterVm :=
  let c := control v in
  set_control (mkControl (state c) (in_iterate c) (if present then resume_pending c else false) present (resumed c) (out c)) v.

Definition has_thrown (v : InterpreterVm) : bool := bool_decide (pending_value_kind (pend v) = PThrown).
Definition thrown_value (v : InterpreterVm) : V := if has_thrown v then pending_value (pend v) else make_undefined.

Definition deliver (r : V + V) (v : InterpreterVm) : InterpreterVm :=
  match r with inr x => return_value x v | inl x => throw_value x v end.

(** [apply_async_ready]: the result, and [false] when an error was not caught. *)
Definition apply_async_ready (v : InterpreterVm) : bool * InterpreterVm :=
  let a := async v in
  if negb (async_pending a) || negb (async_ready a) then (true, v)
  else
    let value := pending_value (pend v) in
    let v1 := set_async (mkAsync false false RNone 0) v in
    let v2 := match async_resume_kind a with RReplaceTop => clear_args v1 | _ => v1 end in
    match pending_value_kind (pend v) with
    | PAsyncThrow =>
        let '(caught, v3) := handle_error make_throw_error (async_resume_epc a) (set_pending_value PThrown value v2) in
        if caught then (true, v3) else (false, set_out (inl (pending_error (pend v3))) v3)
    | _ =>
        let v3 := set_pending_value PNone make_undefined v2 in
        (true,
         match async_resume_kind a with
         | RPushResult =>
             let v4 := if sp v3 <? stack_size_ then default v3 (store (sp v3) value v3) else v3 in
             set_sp (u64 (sp v3 + 1)) v4
         | RReplaceTop =>
             if (0 <? sp v3) && (sp v3 - 1 <? stack_size_) then default v3 (store (sp v3 - 1) value v3) else v3
         | RNone => v3
         end)
    end.

(** A synchronous call that pushes its result; [clear] for the spread form,
    whose array it replaces. *)
Definition finish_call (r : V + V) (spread : bool) (v : InterpreterVm) : option Outcome :=
  match r with
  | inl thrown => Some (raise_value thrown v)
  | inr x => if spread then v' ← store (u64 (sp v - 1)) x v; Some (Next v') else v' ← push x v; Some (Next v')
  end.

Definition start_async (k : AsyncResumeKind) (v : InterpreterVm) : InterpreterVm :=
  set_async (mkAsync true false k (pc v - 1)) v.

(** The end of an asynchronous call instruction. *)
Definition finish_async (r : option (V + V)) (v : InterpreterVm) : Outcome :=
  match r with
  | None => Halt (set_state Suspend false v)
  | Some r =>
      let '(ok, v') := apply_async_ready (deliver r v) in
      if ok then Next v' else Halt (set_state Error false v')
  end.

(** ** Operations on the top of the stack *)

(** [sp_ -= pops - 1; stack_[sp_ - 1] = operation(...)]: the operands are the top [pops] values, the roots
    those of the moment of the call. *)
Definition apply_top (op : Operation) (pops : Z) (keep : bool) (v : InterpreterVm) : option Outcome :=
  let base := u64 (sp v - pops) in
  let v1 := set_sp (u64 (sp v - (pops - 1))) v in
  operands ← mapM (fun i => stack_at (u64 (base + Z.of_nat i)) v1) (seq 0 (Z.to_nat pops));
  let '(r, h) := operate op operands (visit_roots v1) (heap v1) in
  let v2 := set_heap h v1 in
  match r with
  | inl error => Some (raise error v2)
  | inr x => if keep then v' ← store (u64 (sp v2 - 1)) x v2; Some (Next v') else Some (Next v2)
  end.

Definition alloc_push (a : AllocationOf V) (v : InterpreterVm) : option Outcome :=
  let v1 := collect v in
  let '(r, h) := allocate a (heap v1) in
  let v2 := set_heap h v1 in
  match r with
  | Some x => v' ← push x v2; Some (Next v')
  | None => Some (raise (make_oom (default 0 (positions (compiled_ cfg) !! Z.to_nat (pc v2 - 1)))) v2)
  end.

Definition make_exception_value (error : VmError) (v : InterpreterVm) : (VmError + V) * InterpreterVm :=
  let v1 := collect v in
  let name := if bool_decide (er_name error = ""%string) then "EXEC_ERROR"%string else er_name error in
  let message := if bool_decide (er_message error = ""%string) then "script error"%string else er_message error in
  let '(r, h) := allocate (New_exception (er_position error) name message (er_meta error)) (heap v1) in
  (match r with Some x => inr x | None => inl (make_oom (er_position error)) end, set_heap h v1).

Definition kMaxIteratorVar_ : Z := 4095.

(** ** One instruction *)

Definition jump_if (when_true : bool) (target : Z) (v : InterpreterVm) : option Outcome :=
  let v1 := set_sp (u64 (sp v - 1)) v in
  cond ← stack_at (sp v1) v1;
  Some (Next (if eqb (logic cond (heap v1)) when_true then set_pc target v1 else v1)).

Definition iterator_field (field : V -> H -> V) (instr : Z) (v : InterpreterVm) : option Outcome :=
  let var_idx := Z.land (Z.shiftr instr 8) kMaxIteratorVar_ in
  let iter_idx := u64 (Z.shiftr instr kIteratorOff) in
  iter ← var_at iter_idx v;
  v' ← store_var var_idx (field iter (heap v)) v;
  Some (Next v').

Definition into_catch (idx : Z) (v : InterpreterVm) : option Outcome :=
  let p := pend v in
  match er_kind (pending_error p) with
  | Thrown =>
      v1 ← store_var idx (pending_value p) v;
      Some (Next (set_pend (mkPending no_error false PNone make_undefined) v1))
  | Normal =>
      let '(exc, v1) := make_exception_value (pending_error p) v in
      match exc with
      | inl error => Some (raise error v1)
      | inr x =>
          v2 ← store_var idx x v1;
          Some (Next (set_pend (mkPending no_error false (pending_value_kind p) (pending_value p)) v2))
      end
  end.

Definition call_function (instr : Z) (v : InterpreterVm) : option Outcome :=
  let func_index := u64 (Z.shiftr instr 16) in
  let arg_count := Z.land (Z.shiftr instr 8) 0xff in
  f ← pointer_operand func_index;
  let v1 := set_sp (u64 (sp v - arg_count)) v in
  let v2 := set_args_for_ctx (sp v1) arg_count v1 in
  a ← call_args v2;
  let '(r, h) := call_sync f (root_ cfg) a (visit_roots v2) (heap v2) in
  finish_call r false (set_heap h v2).

Definition call_function_spread (instr : Z) (v : InterpreterVm) : option Outcome :=
  f ← pointer_operand (operand instr);
  let v1 := set_args_for_spread (u64 (sp v - 1)) v in
  a ← call_args v1;
  let '(r, h) := call_sync f (root_ cfg) a (visit_roots v1) (heap v1) in
  finish_call r true (clear_args (set_heap h v1)).

Definition call_async_function (instr : Z) (v : InterpreterVm) : option Outcome :=
  let func_index := u64 (Z.shiftr instr 16) in
  let arg_count := Z.land (Z.shiftr instr 8) 0xff in
  f ← pointer_operand func_index;
  let v1 := set_sp (u64 (sp v - arg_count)) v in
  let v2 := start_async RPushResult (set_args_for_ctx (sp v1) arg_count v1) in
  a ← call_args v2;
  let '(r, h) := call_async f (root_ cfg) a (visit_roots v2) (heap v2) in
  Some (finish_async r (set_heap h v2)).

Definition call_async_function_spread (instr : Z) (v : InterpreterVm) : option Outcome :=
  f ← pointer_operand (operand instr);
  let v1 := start_async RReplaceTop (set_args_for_spread (u64 (sp v - 1)) v) in
  a ← call_args v1;
  let '(r, h) := call_async f (root_ cfg) a (visit_roots v1) (heap v1) in
  Some (finish_async r (set_heap h v1)).

Definition call_constant (instr : Z) (v : InterpreterVm) : option Outcome :=
  f ← pointer_operand (operand instr);
  let '(r, h) := call_sync f (root_ cfg) NoArgs (visit_roots v) (heap v) in
  finish_call r false (set_heap h v).

Definition call_async_constant (instr : Z) (v : InterpreterVm) : option Outcome :=
  f ← pointer_operand (operand instr);
  let v1 := start_async RPushResult v in
  let '(r, h) := call_async f (root_ cfg) NoArgs (visit_roots v1) (heap v1) in
  Some (finish_async r (set_heap h v1)).

Definition end_return (v : InterpreterVm) : option Outcome :=
  x ← (if 0 <? sp v then stack_at (sp v - 1) v else Some make_undefined);
  Some (Halt (set_state Success false (set_out (inr x) (set_pending_value PReturn x v)))).

(** The [switch]; [pc_] is already past the instruction. *)
Definition execute (instr : Z) (v : InterpreterVm) : option Outcome :=
  match opcode_of (op_byte instr) with
  | None =>
      Some (raise (make_error "EXEC_UNKNOWN_OPCODE" "unknown opcode"
                     (default 0 (positions (compiled_ cfg) !! Z.to_nat (pc v - 1)))) v)
  | Some NOOP => Some (Next v)
  | Some LOAD_CONST =>
      '(r, v1) ← load_const (operand instr) v;
      match r with
      | inl error => Some (raise error v1)
      | inr x => v2 ← push x v1; Some (Next v2)
      end
  | Some LOAD_ROOT => v1 ← push (root_ cfg) v; Some (Next v1)
  | Some DUMP => x ← stack_at (u64 (sp v - 1)) v; v1 ← push x v; Some (Next v1)
  | Some POP => Some (Next (if 0 <? sp v then set_sp (sp v - 1) v else v))
  | Some LOAD_VAR => x ← var_at (operand instr) v; v1 ← push x v; Some (Next v1)
  | Some STORE_VAR =>
      let v1 := set_sp (u64 (sp v - 1)) v in
      x ← stack_at (sp v1) v1;
      v2 ← store_var (operand instr) x v1;
      Some (Next v2)
  | Some (BOP b) => apply_top (Binaries_ b) 2 true v
  | Some (UNARY u) => apply_top (Unaries_ u) 1 true v
  | Some NEW_OBJECT => alloc_push Make_object v
  | Some NEW_ARRAY => alloc_push Make_array v
  | Some EXP_OBJECT => apply_top Access_expand_object 2 true v
  | Some EXP_ARRAY => apply_top Access_expand_array 2 true v
  | Some PUSH_ARRAY => apply_top Access_push_array 2 true v
  | Some IDX_GET => apply_top Access_index_get 2 true v
  | Some IDX_SET => apply_top Access_index_set 3 true v
  | Some IDX_SET_1 => apply_top Access_index_set1 3 false v
  | Some PROP_GET => name ← string_operand (operand instr); apply_top (Access_prop_get name) 1 true v
  | Some PROP_SET => name ← string_operand (operand instr); apply_top (Access_prop_set name) 2 true v
  | Some PROP_SET_1 => name ← string_operand (operand instr); apply_top (Access_prop_set1 name) 2 false v
  | Some CALL_FUNC => call_function instr v
  | Some CALL_FUNC_SPREAD => call_function_spread instr v
  | Some CALL_ASYNC_FUNC => call_async_function instr v
  | Some CALL_ASYNC_FUNC_SPREAD => call_async_function_spread instr v
  | Some CALL_CONST => call_constant instr v
  | Some CALL_ASYNC_CONST => call_async_constant instr v
  | Some JUMP => Some (Next (set_pc (operand instr) v))
  | Some JUMP_IF_FALSE => jump_if false (operand instr) v
  | Some JUMP_IF_TRUE => jump_if true (operand instr) v
  | Some ITERATE_INTO =>
      let v1 := set_sp (u64 (sp v - 1)) v in
      x ← stack_at (sp v1) v1;
      let '(r, h) := operate Unaries_iterate [x] (visit_roots v1) (heap v1) in
      let v2 := set_heap h v1 in
      match r with
      | inl error => Some (raise error v2)
      | inr it => v3 ← store_var (operand instr) it v2; Some (Next v3)
      end
  | Some ITERATE_NEXT =>
      it ← var_at (operand instr) v;
      let '(more, h) := iterator_next it (heap v) in
      v1 ← push (make_boolean more) (set_heap h v);
      Some (Next v1)
  | Some ITERATE_KEY => iterator_field iterator_key instr v
  | Some ITERATE_VALUE => iterator_field iterator_value instr v
  | Some INTO_CATCH => into_catch (operand instr) v
  | Some END_RETURN => end_return v
  | Some THROW_EXP =>
      let v1 := set_sp (u64 (sp v - 1)) v in
      x ← stack_at (sp v1) v1;
      Some (raise_value x v1)
  end.

(** One turn of [while (pc_ < codes.size())]. *)
Definition step (v : InterpreterVm) : Outcome :=
  match codes (compiled_ cfg) !! Z.to_nat (pc v) with
  | None => Halt (finish_error (make_error "EXEC_NO_RETURN" "no return instruction" (-1)) (set_state (state (control v)) false v))
  | Some instr =>
      let '(ok, v1) := apply_async_ready v in
      if negb ok then Halt (set_state Error false v1)
      else
        match codes (compiled_ cfg) !! Z.to_nat (pc v1) with
        | None => Ub
        | Some instr => match execute instr (set_pc (pc v1 + 1) v1) with Some o => o | None => Ub end
        end
  end.

Inductive RunResult := Done (v : InterpreterVm) | Undefined | OutOfFuel.

Fixpoint run_loop (fuel : nat) (v : InterpreterVm) : RunResult :=
  match fuel with
  | O => OutOfFuel
  | S fuel => match step v with Next v' => run_loop fuel v' | Halt v' => Done v' | Ub => Undefined end
  end.

Definition start_loop (v : InterpreterVm) : InterpreterVm :=
  let c := control v in
  set_control (mkControl Running true false (resume_callback c) (resumed c) (out c)) v.

(** [iterate] *)
Definition iterate (fuel : nat) (v : InterpreterVm) : RunResult :=
  let p := pend v in
  match state (control v) with
  | Success => Done (set_out (inr (pending_value p)) v)
  | Error => Done (set_out (inl (pending_error p)) v)
  | _ =>
      if async_pending (async v) && negb (async_ready (async v)) then Done (set_state Suspend (in_iterate (control v)) v)
      else
        let '(ok, v1) := apply_async_ready v in
        if negb ok then Done (set_state Error (in_iterate (control v1)) v1)
        else run_loop fuel (start_loop v1)
  end.

End WithConfig.
End Interpreter.
End Vm.
