(* ===== verification/ScriptTree.v ===== *)
(** * Scripts after name resolution: reference semantics and code

    The meaning of a script is given on trees in which every name has become a
    variable index and every constant, function and property name its operand.
    [resolve_root] builds the tree with the scoping rules of the compiler and no
    emission; [run_tree] and [run_statement] evaluate it, expressions
    structurally and statements with fuel for [for] loops; [gen] is the code of
    a tree, with its jump targets in place.  [ScriptCompile] shows that the
    compiler emits that code, [ScriptCorrect] that the interpreter runs it the
    way the tree evaluates. *)
From S2P Require Import Prelude ScriptAst ScriptCompiler ScriptVm.
Import Ast Code Compiler.

Module Tree.

(** ** Trees *)

Inductive Tree :=
  | TConst (p : Z) (k : nat) (cv : ConstValue)
  | TRoot (p : Z)
  | TVar (p : Z) (i : nat)
  | TNew (p : Z) (array : bool)
  (** an operation on one to three values; without [keep] its value is that of
      its first operand *)
  | TOp (p : Z) (op : Operation) (k : nat) (keep : bool) (args : list Tree)
  | TConstant (p : Z) (k : nat) (c : Callee)
  | TCall (p : Z) (k : nat) (c : Callee) (args : list Tree)
  | TCallSpread (p : Z) (k : nat) (c : Callee) (arr : Tree)
  | TLogic (p : Z) (is_and : bool) (l r : Tree)
  | TTernary (p : Z) (test a b : Tree)
  | TSetVar (p : Z) (i : nat) (t : Tree).

Inductive STree :=
  | SSkip
  | SSeq (a b : STree)
  | SExpr (p : Z) (t : Tree)
  | SStore (p : Z) (i : nat) (t : Tree)
  | SReturn (p : Z) (t : Tree)
  | SThrow (p : Z) (t : Tree)
  | SIf (p : Z) (t : Tree) (a b : STree)
  | SForeach (p : Z) (iter key value : nat) (coll : Tree) (body : STree)
  | STry (p : Z) (i : nat) (t c : STree)
  | SBreak (p : Z)
  | SContinue (p : Z).

Section TreeInd.
Context (P : Tree -> Prop)
  (Hconst : forall p k cv, P (TConst p k cv)) (Hroot : forall p, P (TRoot p)) (Hvar : forall p i, P (TVar p i))
  (Hnew : forall p b, P (TNew p b))
  (Hop : forall p op k keep args, Forall P args -> P (TOp p op k keep args))
  (Hconstant : forall p k c, P (TConstant p k c))
  (Hcall : forall p k c args, Forall P args -> P (TCall p k c args))
  (Hspread : forall p k c arr, P arr -> P (TCallSpread p k c arr))
  (Hlogic : forall p b l r, P l -> P r -> P (TLogic p b l r))
  (Hternary : forall p t a b, P t -> P a -> P b -> P (TTernary p t a b))
  (Hset : forall p i t, P t -> P (TSetVar p i t)).

Fixpoint Tree_ind' (t : Tree) : P t :=
  let list_ind := fix list_ind (l : list Tree) : Forall P l :=
    match l with [] => Forall_nil_2 P | x :: l' => Forall_cons_2 P x l' (Tree_ind' x) (list_ind l') end in
  match t with
  | TConst p k cv => Hconst p k cv
  | TRoot p => Hroot p
  | TVar p i => Hvar p i
  | TNew p b => Hnew p b
  | TOp p op k keep args => Hop p op k keep args (list_ind args)
  | TConstant p k c => Hconstant p k c
  | TCall p k c args => Hcall p k c args (list_ind args)
  | TCallSpread p k c arr => Hspread p k c arr (Tree_ind' arr)
  | TLogic p b l r => Hlogic p b l r (Tree_ind' l) (Tree_ind' r)
  | TTernary p t a b => Hternary p t a b (Tree_ind' t) (Tree_ind' a) (Tree_ind' b)
  | TSetVar p i t => Hset p i t (Tree_ind' t)
  end.
End TreeInd.

(** ** Name resolution *)

Fixpoint map_each {A B} (f : A -> NM B) (l : list A) : NM (list B) :=
  match l with [] => mret [] | x :: l' => y ← f x; ys ← map_each f l'; mret (y :: ys) end.

Fixpoint fold_each {A B} (f : B -> A -> NM B) (acc : B) (l : list A) : NM B :=
  match l with [] => mret acc | x :: l' => acc' ← f acc x; fold_each f acc' l' end.

Definition literal_value (l : Literal) : ConstValue :=
  match l with
  | NullValue => CNull | Boolean b => CBoolean b | Integer i => CInteger i | Float f => CFloat f | StringValue s => CString s
  end.

Section Resolve.
Context (resolve : Expression -> NM Tree).

(** Adding an element to an array under construction. *)
Definition resolve_item (p : Z) (arr : Tree) (item : Expression) : NM Tree :=
  match item with
  | ExpandArrArg _ value => t ← resolve value; mret (TOp p Access_expand_array 0 true [arr; t])
  | _ => t ← resolve item; mret (TOp p Access_push_array 0 true [arr; t])
  end.

Definition resolve_entry (p : Z) (obj : Tree) (entry : Entry) : NM Tree :=
  match entry with
  | ExpandKey value => t ← resolve value; mret (TOp p Access_expand_object 0 true [obj; t])
  | ExpressionKey key value =>
      tk ← resolve key; t ← resolve value; mret (TOp p Access_index_set1 0 false [obj; tk; t])
  | StringKey key value =>
      k ← string_in key; t ← resolve value; mret (TOp p (Access_prop_set1 key) k false [obj; t])
  end.

Definition resolve_assign (p : Z) (lhs rhs : Expression) : NM Tree :=
  match lhs with
  | VariableReference _ name => t ← resolve rhs; i ← resolve_in name; mret (TSetVar p i t)
  | PropertyReference _ name parent =>
      a ← resolve parent; b ← resolve rhs; k ← string_in name;
      mret (TOp p (Access_prop_set name) k true [a; b])
  | Indexer _ parent index =>
      a ← resolve parent; b ← resolve index; c ← resolve rhs; mret (TOp p Access_index_set 0 true [a; b; c])
  | _ => resolve rhs
  end.
End Resolve.

Fixpoint resolve_expression (expr : Expression) : NM Tree :=
  let p := start_pos (expression_node expr) in
  match expr with
  | LiteralE _ l => k ← literal_in l; mret (TConst p k (literal_value l))
  | Identifier _ name => i ← resolve_in name; mret (TVar p i)
  | VariableReference _ name => if is_root name then mret (TRoot p) else i ← resolve_in name; mret (TVar p i)
  | ConstantVal _ c => k ← operand_in (constant_pointer c); mret (TConstant p k c)
  | FunctionCall _ c args =>
      if negb (existsb is_expand args) then
        ts ← map_each resolve_expression args;
        k ← operand_in (function_pointer c);
        mret (TCall p k c ts)
      else
        arr ← fold_each (resolve_item resolve_expression p) (TNew p true) args;
        k ← operand_in (function_pointer c);
        mret (TCallSpread p k c arr)
  | InlineList _ values => fold_each (resolve_item resolve_expression p) (TNew p true) values
  | InlineObject _ entries => fold_each (resolve_entry resolve_expression p) (TNew p false) entries
  | Indexer _ parent index =>
      a ← resolve_expression parent; b ← resolve_expression index; mret (TOp p Access_index_get 0 true [a; b])
  | PropertyReference _ name parent =>
      a ← resolve_expression parent; k ← string_in name; mret (TOp p (Access_prop_get name) k true [a])
  | BinaryOperator _ op lhs rhs =>
      a ← resolve_expression lhs; b ← resolve_expression rhs; mret (TOp p (Binaries_ (binary_code op)) 0 true [a; b])
  | LogicRelationalExpression _ lhs op rhs =>
      a ← resolve_expression lhs; b ← resolve_expression rhs; mret (TLogic p (bool_decide (op = And)) a b)
  | UnaryOperator _ op operand => a ← resolve_expression operand; mret (TOp p (Unaries_ (unary_code op)) 0 true [a])
  | Ternary _ test if_true if_false =>
      t ← resolve_expression test; a ← resolve_expression if_true; b ← resolve_expression if_false;
      mret (TTernary p t a b)
  | Assign _ lhs rhs => resolve_assign resolve_expression p lhs rhs
  | ExpandArrArg _ value => resolve_expression value
  end.

Definition resolve_optional (e : option Expression) (p : Z) : NM Tree :=
  match e with
  | Some e => resolve_expression e
  | None => k ← undefined_in; mret (TConst p k CUndefined)
  end.

Definition resolve_block (resolve_statement : Statement -> NM STree) (statements : list Statement) (scope : bool) : NM STree :=
  _ ← (if scope then push_scope_in else mret tt);
  ts ← map_each resolve_statement statements;
  _ ← (if scope then pop_scope_in else mret tt);
  mret (foldr SSeq SSkip ts).

Fixpoint resolve_statement (in_loop : bool) (stmt : Statement) : NM STree :=
  let p := start_pos (statement_node stmt) in
  match stmt with
  | BlockS _ statements => resolve_block (resolve_statement in_loop) statements true
  | ExpressionStatement _ e => t ← resolve_expression e; mret (SExpr p t)
  | VariableDeclareStatement _ identifier initializer =>
      i ← declare_in identifier; t ← resolve_optional initializer p; mret (SStore p i t)
  | ReturnStatement _ value => t ← resolve_optional value p; mret (SReturn p t)
  | ThrowStatement _ value => t ← resolve_expression value; mret (SThrow p t)
  | IfStatement _ condition then_branch else_branch =>
      t ← resolve_expression condition;
      a ← resolve_statement in_loop then_branch;
      b ← match else_branch with Some s => resolve_statement in_loop s | None => mret SSkip end;
      mret (SIf p t a b)
  | ForeachStatement _ key value collection block =>
      coll ← resolve_expression collection;
      iter ← reserve_temp_in;
      _ ← push_scope_in;
      k ← declare_in key;
      v ← declare_in value;
      body ← resolve_block (resolve_statement true) block false;
      _ ← pop_scope_in;
      mret (SForeach p iter k v coll body)
  | TryCatchStatement _ identifier try_block catch_block =>
      t ← resolve_block (resolve_statement in_loop) try_block true;
      _ ← push_scope_in;
      i ← declare_in identifier;
      c ← resolve_block (resolve_statement in_loop) catch_block false;
      _ ← pop_scope_in;
      mret (STry p i t c)
  | BreakStatement _ => mret (if in_loop then SBreak p else SSkip)
  | ContinueStatement _ => mret (if in_loop then SContinue p else SSkip)
  | DirectiveStatement _ => mret SSkip
  end.

(** A script without [return] returns undefined, an expression its value. *)
Definition resolve_root (node : Root) : NM STree :=
  _ ← push_scope_in;
  s ← match node with
      | RootBlock n statements =>
          s ← resolve_block (resolve_statement false) statements false;
          k ← undefined_in; mret (SSeq s (SReturn (end_pos n) (TConst (end_pos n) k CUndefined)))
      | RootExpression e => t ← resolve_expression e; mret (SReturn (end_pos (expression_node e)) t)
      | RootStatement st =>
          s ← resolve_statement false st;
          let n := statement_node st in
          k ← undefined_in; mret (SSeq s (SReturn (end_pos n) (TConst (end_pos n) k CUndefined)))
      end;
  _ ← pop_scope_in;
  mret s.

Definition tree_of (node : Root) : STree := fst (resolve_root node (names initial)).

(** ** Code *)

Definition operation_code (op : Operation) (keep : bool) : Opcode :=
  match op with
  | Binaries_ b => BOP b
  | Unaries_ u => UNARY u
  | Unaries_iterate => ITERATE_INTO
  | Access_expand_object => EXP_OBJECT
  | Access_expand_array => EXP_ARRAY
  | Access_push_array => PUSH_ARRAY
  | Access_index_get => IDX_GET
  | Access_index_set => IDX_SET
  | Access_index_set1 => IDX_SET_1
  | Access_prop_get _ => PROP_GET
  | Access_prop_set _ => PROP_SET
  | Access_prop_set1 _ => PROP_SET_1
  end.

Definition op (o : Opcode) (k : nat) (p : Z) : Z * Z := (encode (byte_of o) (Z.of_nat k), p).

Fixpoint tlen (t : Tree) : nat :=
  match t with
  | TConst _ _ _ | TRoot _ | TVar _ _ | TNew _ _ | TConstant _ _ _ => 1
  | TOp _ _ _ _ args | TCall _ _ _ args => sum_list (tlen <$> args) + 1
  | TCallSpread _ _ _ arr => tlen arr + 1
  | TLogic _ _ l r => tlen l + 3 + tlen r
  | TTernary _ t a b => tlen t + 1 + tlen a + 1 + tlen b
  | TSetVar _ _ t => tlen t + 2
  end.

Section GenList.
Context (gen : nat -> Tree -> list (Z * Z)).
Fixpoint gen_list (a : nat) (l : list Tree) : list (Z * Z) :=
  match l with [] => [] | t :: l' => gen a t ++ gen_list (a + tlen t) l' end.
End GenList.

Fixpoint gen (a : nat) (t : Tree) : list (Z * Z) :=
  match t with
  | TConst p k _ => [op LOAD_CONST k p]
  | TRoot p => [op LOAD_ROOT 0 p]
  | TVar p i => [op LOAD_VAR i p]
  | TNew p array => [op (if array then NEW_ARRAY else NEW_OBJECT) 0 p]
  | TOp p o k keep args => gen_list gen a args ++ [op (operation_code o keep) k p]
  | TConstant p k c => [op (if is_async c then CALL_ASYNC_CONST else CALL_CONST) k p]
  | TCall p k c args =>
      gen_list gen a args ++ [(call_code (if is_async c then CALL_ASYNC_FUNC else CALL_FUNC) (length args) k, p)]
  | TCallSpread p k c arr => gen a arr ++ [op (if is_async c then CALL_ASYNC_FUNC_SPREAD else CALL_FUNC_SPREAD) k p]
  | TLogic p is_and l r =>
      let target := (a + tlen l + 3 + tlen r)%nat in
      gen a l ++ [op DUMP 0 p; op (if is_and then JUMP_IF_FALSE else JUMP_IF_TRUE) target p; op POP 0 p]
      ++ gen (a + tlen l + 3) r
  | TTernary p t x y =>
      let else_target := (a + tlen t + 1 + tlen x + 1)%nat in
      gen a t ++ [op JUMP_IF_FALSE else_target p] ++ gen (a + tlen t + 1) x
      ++ [op JUMP (else_target + tlen y) p] ++ gen else_target y
  | TSetVar p i t => gen a t ++ [op DUMP 0 p; op STORE_VAR i p]
  end.

(** The jumps of [break] and [continue] are holes until their loop ends. *)
Inductive Item := Known (code : Z) | HBreak | HContinue.

Definition fill (bt ct : nat) (i : Item * Z) : Z * Z :=
  match fst i with
  | Known code => (code, snd i)
  | HBreak => op JUMP bt (snd i)
  | HContinue => op JUMP ct (snd i)
  end.

Definition known (c : Z * Z) : Item * Z := (Known (fst c), snd c).

Fixpoint slen (s : STree) : nat :=
  match s with
  | SSkip => 0
  | SSeq a b => slen a + slen b
  | SExpr _ t | SStore _ _ t | SReturn _ t | SThrow _ t => tlen t + 1
  | SIf _ t a b => tlen t + 1 + slen a + 1 + slen b
  | SForeach _ _ _ _ coll body => tlen coll + 5 + slen body + 1
  | STry _ _ t c => slen t + 1 + 1 + slen c
  | SBreak _ | SContinue _ => 1
  end.

Fixpoint gen_s (a : nat) (s : STree) : list (Item * Z) :=
  match s with
  | SSkip => []
  | SSeq s1 s2 => gen_s a s1 ++ gen_s (a + slen s1) s2
  | SExpr p t => known <$> (gen a t ++ [op POP 0 p])
  | SStore p i t => known <$> (gen a t ++ [op STORE_VAR i p])
  | SReturn p t => known <$> (gen a t ++ [op END_RETURN 0 p])
  | SThrow p t => known <$> (gen a t ++ [op THROW_EXP 0 p])
  | SIf p t s1 s2 =>
      let else_target := (a + tlen t + 1 + slen s1 + 1)%nat in
      (known <$> (gen a t ++ [op JUMP_IF_FALSE else_target p])) ++ gen_s (a + tlen t + 1) s1
      ++ [known (op JUMP (else_target + slen s2) p)] ++ gen_s else_target s2
  | SForeach p iter key value coll body =>
      let start := (a + tlen coll + 1)%nat in
      let stop := (start + 4 + slen body + 1)%nat in
      known <$> (gen a coll ++ [op ITERATE_INTO iter p; op ITERATE_NEXT iter p; op JUMP_IF_FALSE stop p;
                   (iterator_code ITERATE_KEY key iter, p); (iterator_code ITERATE_VALUE value iter, p)]
                 ++ (fill stop start <$> gen_s (start + 4) body) ++ [op JUMP start p])
  | STry p i t c =>
      let catch_begin := (a + slen t + 1)%nat in
      gen_s a t ++ [known (op JUMP (catch_begin + 1 + slen c) p); known (op INTO_CATCH i p)] ++ gen_s (catch_begin + 1) c
  | SBreak p => [(HBreak, p)]
  | SContinue p => [(HContinue, p)]
  end.

Fixpoint ranges_of (a : nat) (s : STree) : list Z :=
  match s with
  | SSeq s1 s2 => ranges_of a s1 ++ ranges_of (a + slen s1) s2
  | SIf _ t s1 s2 => ranges_of (a + tlen t + 1) s1 ++ ranges_of (a + tlen t + 1 + slen s1 + 1) s2
  | SForeach _ _ _ _ coll body => ranges_of (a + tlen coll + 5) body
  | STry _ _ t c =>
      let catch_begin := (a + slen t + 1)%nat in
      ranges_of a t ++ ranges_of (catch_begin + 1) c
      ++ [to_signed 32 (Z.of_nat a); to_signed 32 (Z.of_nat catch_begin);
          to_signed 32 (Z.of_nat (catch_begin + 1 + slen c))]
  | _ => []
  end.

(** ** Stack use *)

Section NeedList.
Context (need : Tree -> Z).
Fixpoint need_list (i : Z) (l : list Tree) : Z :=
  match l with [] => 0 | t :: l' => Z.max (i + need t) (need_list (i + 1) l') end.
End NeedList.

Fixpoint need (t : Tree) : Z :=
  match t with
  | TConst _ _ _ | TRoot _ | TVar _ _ | TNew _ _ | TConstant _ _ _ => 1
  | TOp _ _ _ _ args | TCall _ _ _ args => Z.max 1 (need_list need 0 args)
  | TCallSpread _ _ _ arr => need arr
  | TLogic _ _ l r => Z.max (Z.max (need l) 2) (need r)
  | TTernary _ t a b => Z.max (need t) (Z.max (need a) (need b))
  | TSetVar _ _ t => Z.max (need t) 2
  end.

Fixpoint sneed (s : STree) : Z :=
  match s with
  | SSkip | SBreak _ | SContinue _ => 0
  | SSeq a b => Z.max (sneed a) (sneed b)
  | SExpr _ t | SStore _ _ t | SReturn _ t | SThrow _ t => need t
  | SIf _ t a b => Z.max (need t) (Z.max (sneed a) (sneed b))
  | SForeach _ _ _ _ coll body => Z.max (Z.max (need coll) 1) (sneed body)
  | STry _ _ t c => Z.max (sneed t) (sneed c)
  end.

(** ** Lengths and stack use *)

Lemma length_gen_list a l : Forall (fun t => forall a, length (gen a t) = tlen t) l ->
  length (gen_list gen a l) = sum_list (tlen <$> l).
Proof. intros F. revert a. induction F as [|t l Ht F IH]; intros a; simpl; [done|]. by rewrite length_app, Ht, IH. Qed.

Lemma length_gen t : forall a, length (gen a t) = tlen t.
Proof.
  induction t using Tree_ind'; intros a; simpl; rewrite ?length_app; simpl; rewrite ?length_gen_list by done;
    rewrite ?IHt, ?IHt1, ?IHt2, ?IHt3, ?length_app; simpl; rewrite ?IHt3, ?IHt2; lia.
Qed.

Lemma length_gen_s s : forall a, length (gen_s a s) = slen s.
Proof.
  induction s; intros a; simpl;
    repeat (progress (rewrite ?length_fmap, ?length_app, ?length_gen, ?IHs, ?IHs1, ?IHs2; simpl)); lia.
Qed.

Lemma need_pos t : 1 <= need t.
Proof. induction t using Tree_ind'; simpl; lia. Qed.

Lemma need_list_shift l i : 0 <= i -> Z.max 1 (need_list need (i + 1) l) = Z.max 1 (1 + need_list need i l).
Proof.
  revert i. induction l as [|t l IH]; intros i Hi; simpl; [done|].
  specialize (IH (i + 1) ltac:(lia)). pose proof (need_pos t). lia.
Qed.

Lemma sneed_pos s : 0 <= sneed s.
Proof. induction s; simpl; try (pose proof (need_pos t)); try (pose proof (need_pos coll)); lia. Qed.

Lemma fill_known bt ct (l : list (Z * Z)) : fill bt ct <$> (known <$> l) = l.
Proof. induction l as [|[c p] l IH]; simpl; [done|]. f_equal. apply IH. Qed.

(** No code needs more stack than it has instructions. *)
Lemma need_list_length l : Forall (fun t => need t <= Z.of_nat (tlen t)) l -> forall i, 0 <= i ->
  need_list need i l <= i + Z.of_nat (sum_list (tlen <$> l)).
Proof.
  induction 1 as [|t l Ht F IH]; intros i Hi; [simpl; lia|].
  change (sum_list (tlen <$> t :: l)) with (tlen t + sum_list (tlen <$> l))%nat. cbn [need_list].
  specialize (IH (i + 1) ltac:(lia)). pose proof (need_pos t). lia.
Qed.

Lemma need_length t : need t <= Z.of_nat (tlen t).
Proof. induction t using Tree_ind'; simpl; try pose proof (need_list_length _ H 0 ltac:(lia)); lia. Qed.

Lemma sneed_length s : sneed s <= Z.of_nat (slen s).
Proof. induction s; simpl; try (pose proof (need_length t)); try (pose proof (need_length coll)); lia. Qed.

End Tree.
