(* ===== verification/ScriptSemantics.v ===== *)
(** * What a script means

    The evaluator of resolved trees: expressions are total, statements take fuel
    for the rounds of their [for] loops.  [await] is the host: the answer an
    asynchronous call gets when it did not answer at once.  The evaluator has no
    operand stack, so the collector is told of no roots here; the machine tells
    it what it holds.  The law class [ValuesLaws] counts the collections: where
    none runs, the roots make no difference. *)
From S2P Require Import Prelude ScriptAst ScriptCompiler ScriptVm ScriptTree.
Import Ast Code Compiler Tree.

(** What a client of the values may rely on.  [collections] is the number of
    collections a heap has been through; it never falls.  Whether an operation
    collects does not depend on the roots, and one that does not collect never
    looks at them; [maybe_collect] then leaves the heap as it is.  An operation
    that fails reports an error of its own, not a thrown value. *)
Class ValuesLaws `(Values) := {
  collections : H -> nat;
  maybe_collect_count : forall h, (collections h <= collections (maybe_collect [] h))%nat;
  maybe_collect_off : forall roots h, collections (maybe_collect [] h) = collections h -> maybe_collect roots h = h;
  operate_count : forall o args h, (collections h <= collections (operate o args [] h).2)%nat;
  operate_off : forall o args roots h, collections (operate o args [] h).2 = collections h ->
    operate o args roots h = operate o args [] h;
  operate_normal : forall o args roots h e h', operate o args roots h = (inl e, h') -> er_kind e = Normal;
  allocate_count : forall a h, (collections h <= collections (allocate a h).2)%nat;
  iterator_next_count : forall x h, (collections h <= collections (iterator_next x h).2)%nat;
  logic_boolean : forall b h, logic (make_boolean b) h = b;
  call_sync_count : forall f root a h, (collections h <= collections (call_sync f root a [] h).2)%nat;
  call_sync_off : forall f root a roots h, collections (call_sync f root a [] h).2 = collections h ->
    call_sync f root a roots h = call_sync f root a [] h;
  call_async_count : forall f root a h, (collections h <= collections (call_async f root a [] h).2)%nat;
  call_async_off : forall f root a roots h, collections (call_async f root a [] h).2 = collections h ->
    call_async f root a roots h = call_async f root a [] h;
}.

Module Semantics.
Section Evaluator.
Context `{HV : Values}.
Context (root : V) (await : H -> (V + V) * H).

Record State := mkState { vars : list V; consts : list (option V); store : H }.

(** An error located at the instruction it came from, and the thrown value. *)
Definition Exn : Type := VmErrorOf V * option V.

Definition at_position (p : Z) (e : VmErrorOf V) : VmErrorOf V :=
  if er_position e <? 0 then mkVmError (er_kind e) (er_name e) (er_message e) (er_status e) p (er_meta e) else e.

Definition failed (p : Z) (e : VmErrorOf V) : Exn := (at_position p e, None).
Definition thrown (p : Z) (x : V) : Exn := (at_position p Vm.make_throw_error, Some x).

Definition with_store (h : H) (s : State) : State := mkState (vars s) (consts s) h.
Definition set_var (i : nat) (x : V) (s : State) : State := mkState (<[i := x]> (vars s)) (consts s) (store s).
Definition var (i : nat) (s : State) : V := default make_undefined (vars s !! i).

Definition alloc (p : Z) (a : AllocationOf V) (oom : Z) (s : State) : (Exn + V) * State :=
  let '(r, h) := allocate a (maybe_collect [] (store s)) in
  (match r with Some x => inr x | None => inl (failed p (Vm.make_oom oom)) end, with_store h s).

(** A constant is built at its first use and kept. *)
Definition eval_const (p : Z) (k : nat) (cv : ConstValue) (s : State) : (Exn + V) * State :=
  match consts s !! k with
  | Some (Some x) => (inr x, s)
  | _ =>
      let '(r, s1) := match cv with
        | CUndefined => (inr make_undefined, s)
        | CNull => (inr make_null, s)
        | CBoolean b => (inr (make_boolean b), s)
        | CInteger i => (inr (make_integer i), s)
        | CFloat f => (inr (make_float f), s)
        | CString t => alloc p (Make_string t) (-1) s
        | CBinary b => alloc p (Make_binary b) (-1) s
        end in
      (r, match r with inr x => mkState (vars s1) (<[k := Some x]> (consts s1)) (store s1) | inl _ => s1 end)
  end.

Definition call (p : Z) (c : Callee) (pointer : Pointer) (a : CallArgsOf V) (s : State) : (Exn + V) * State :=
  let '(r, h) :=
    if is_async c then
      match call_async pointer root a [] (store s) with
      | (Some r, h) => (r, h)
      | (None, h) => await h
      end
    else call_sync pointer root a [] (store s) in
  (match r with inr x => inr x | inl x => inl (thrown p x) end, with_store h s).

Section EvalList.
Context (eval : Tree -> State -> (Exn + V) * State).
Fixpoint eval_list (l : list Tree) (s : State) : (Exn + list V) * State :=
  match l with
  | [] => (inr [], s)
  | t :: l' =>
      match eval t s with
      | (inl e, s1) => (inl e, s1)
      | (inr x, s1) =>
          match eval_list l' s1 with (inl e, s2) => (inl e, s2) | (inr xs, s2) => (inr (x :: xs), s2) end
      end
  end.
End EvalList.

Definition apply (p : Z) (o : Operation) (keep : bool) (xs : list V) (s : State) : (Exn + V) * State :=
  let '(r, h) := operate o xs [] (store s) in
  (match r with
   | inl e => inl (failed p e)
   | inr x => inr (if keep then x else default x (head xs))
   end, with_store h s).

Fixpoint eval (t : Tree) (s : State) : (Exn + V) * State :=
  match t with
  | TConst p k cv => eval_const p k cv s
  | TRoot _ => (inr root, s)
  | TVar _ i => (inr (var i s), s)
  | TNew p array => alloc p (if array then Make_array else Make_object) p s
  | TOp p o _ keep args =>
      match eval_list eval args s with (inl e, s1) => (inl e, s1) | (inr xs, s1) => apply p o keep xs s1 end
  | TConstant p _ c => call p c (constant_pointer c) NoArgs s
  | TCall p _ c args =>
      match eval_list eval args s with
      | (inl e, s1) => (inl e, s1)
      | (inr xs, s1) => call p c (function_pointer c) (ArgList xs) s1
      end
  | TCallSpread p _ c arr =>
      match eval arr s with
      | (inl e, s1) => (inl e, s1)
      | (inr x, s1) => call p c (function_pointer c) (ArgSpread x) s1
      end
  | TLogic _ is_and l r =>
      match eval l s with
      | (inl e, s1) => (inl e, s1)
      | (inr x, s1) => if eqb (logic x (store s1)) is_and then eval r s1 else (inr x, s1)
      end
  | TTernary _ t a b =>
      match eval t s with
      | (inl e, s1) => (inl e, s1)
      | (inr x, s1) => if logic x (store s1) then eval a s1 else eval b s1
      end
  | TSetVar _ i t =>
      match eval t s with (inl e, s1) => (inl e, s1) | (inr x, s1) => (inr x, set_var i x s1) end
  end.

Inductive Completion := Normal_ | Break_ | Continue_ | Return_ (x : V) | Throw_ (e : Exn).

(** The value a [catch] binds: the thrown value, or an exception object. *)
Definition catch_value (p : Z) (e : Exn) (s : State) : (Exn + V) * State :=
  match snd e with
  | Some x => (inr x, s)
  | None =>
      let err := fst e in
      alloc p (New_exception (er_position err)
        (if bool_decide (er_name err = ""%string) then "EXEC_ERROR"%string else er_name err)
        (if bool_decide (er_message err = ""%string) then "script error"%string else er_message err) (er_meta err))
        (er_position err) s
  end.

Section Loop.
Context (body : State -> option (Completion * State)) (iter key value : nat).
Fixpoint loop (fuel : nat) (s : State) : option (Completion * State) :=
  match fuel with
  | O => None
  | S fuel =>
      let '(more, h) := iterator_next (var iter s) (store s) in
      let s1 := with_store h s in
      if more then
        let s2 := set_var key (iterator_key (var iter s1) (store s1)) s1 in
        let s3 := set_var value (iterator_value (var iter s2) (store s2)) s2 in
        '(c, s4) ← body s3;
        match c with
        | Normal_ | Continue_ => loop fuel s4
        | Break_ => Some (Normal_, s4)
        | c => Some (c, s4)
        end
      else Some (Normal_, s1)
  end.
End Loop.

Definition with_value (t : Tree) (s : State) (k : V -> State -> option (Completion * State)) : option (Completion * State) :=
  match eval t s with (inl e, s1) => Some (Throw_ e, s1) | (inr x, s1) => k x s1 end.

Fixpoint exec (fuel : nat) (st : STree) (s : State) : option (Completion * State) :=
  match st with
  | SSkip => Some (Normal_, s)
  | SSeq a b => '(c, s1) ← exec fuel a s; match c with Normal_ => exec fuel b s1 | c => Some (c, s1) end
  | SExpr _ t => with_value t s (fun _ s1 => Some (Normal_, s1))
  | SStore _ i t => with_value t s (fun x s1 => Some (Normal_, set_var i x s1))
  | SReturn _ t => with_value t s (fun x s1 => Some (Return_ x, s1))
  | SThrow p t => with_value t s (fun x s1 => Some (Throw_ (thrown p x), s1))
  | SIf _ t a b => with_value t s (fun x s1 => if logic x (store s1) then exec fuel a s1 else exec fuel b s1)
  | SForeach p iter key value coll body =>
      with_value coll s (fun x s1 =>
        let '(r, h) := operate Unaries_iterate [x] [] (store s1) in
        let s2 := with_store h s1 in
        match r with
        | inl e => Some (Throw_ (failed p e), s2)
        | inr it => loop (exec fuel body) iter key value fuel (set_var iter it s2)
        end)
  | STry p i t c =>
      '(cm, s1) ← exec fuel t s;
      match cm with
      | Throw_ e =>
          match catch_value p e s1 with
          | (inl e', s2) => Some (Throw_ e', s2)
          | (inr x, s2) => exec fuel c (set_var i x s2)
          end
      | cm => Some (cm, s1)
      end
  | SBreak _ => Some (Break_, s)
  | SContinue _ => Some (Continue_, s)
  end.

(** The result of a script: its value, or the error nobody caught. *)
Definition result_of (c : Completion) : option (Exn + V) :=
  match c with Return_ x => Some (inr x) | Throw_ e => Some (inl e) | _ => None end.

Definition start (c : Compiled) (h : H) : State :=
  mkState (replicate (var_table_size c) make_undefined) (replicate (length (operands c)) None) h.

Definition run (fuel : nat) (node : Ast.Root) (h : H) : option ((Exn + V) * H) :=
  '(c, s) ← exec fuel (tree_of node) (start (compile node) h);
  r ← result_of c;
  Some (r, store s).

(** ** Collections

    The number of collections never falls along an evaluation. *)
Section Counting.
Context `{HL : !ValuesLaws HV} (Hawait : forall h, (collections h <= collections (await h).2)%nat).

Definition count (s : State) : nat := collections (store s).

Lemma alloc_grows p a oom s : (count s <= count (alloc p a oom s).2)%nat.
Proof.
  unfold alloc, count. pose proof (maybe_collect_count (store s)). pose proof (allocate_count a (maybe_collect [] (store s))).
  destruct (allocate _ _). simpl in *. lia.
Qed.

Lemma eval_const_grows p k cv s : (count s <= count (eval_const p k cv s).2)%nat.
Proof.
  unfold eval_const. destruct (consts s !! k) as [[x|]|]; [done|..];
    (destruct cv; try done;
      (match goal with |- context [alloc ?p ?a ?o s] => pose proof (alloc_grows p a o s) as Ha; destruct (alloc p a o s) as [[e|x] s1] end);
      exact Ha).
Qed.

Lemma call_grows p c pointer a s : (count s <= count (call p c pointer a s).2)%nat.
Proof.
  unfold call, count. destruct (is_async c).
  - pose proof (call_async_count pointer root a (store s)) as Hc. destruct (call_async _ _ _ _ _) as [[r|] h]; [exact Hc|].
    pose proof (Hawait h). destruct (await h) as [r h2]. simpl in *. lia.
  - pose proof (call_sync_count pointer root a (store s)) as Hc. destruct (call_sync _ _ _ _ _). exact Hc.
Qed.

Lemma apply_grows p o keep xs s : (count s <= count (apply p o keep xs s).2)%nat.
Proof.
  unfold apply, count. pose proof (operate_count o xs (store s)) as Hc. destruct (operate _ _ _ _) as [[e|x] h]; exact Hc.
Qed.

Lemma eval_list_grows l : Forall (fun t => forall s, (count s <= count (eval t s).2)%nat) l ->
  forall s, (count s <= count (eval_list eval l s).2)%nat.
Proof.
  induction 1 as [|t l Ht F IH]; intros s; [done|]. cbn [eval_list]. specialize (Ht s). destruct (eval t s) as [[e|x] s1]; [done|].
  specialize (IH s1). destruct (eval_list eval l s1) as [[e|xs] s2]; simpl in *; lia.
Qed.

Lemma eval_grows t : forall s, (count s <= count (eval t s).2)%nat.
Proof.
  induction t as [p k cv|p|p i|p b|p o k keep l IHl|p k f|p k f l IHl|p k f arr IH|p b l r IHl IHr|p t x y IHt IHx IHy|p i t IH]
    using Tree_ind'; intros s; cbn [eval]; try done.
  - apply eval_const_grows.
  - apply alloc_grows.
  - pose proof (eval_list_grows l IHl s). destruct (eval_list eval l s) as [[e|xs] s1]; [done|].
    pose proof (apply_grows p o keep xs s1). simpl in *. lia.
  - apply call_grows.
  - pose proof (eval_list_grows l IHl s). destruct (eval_list eval l s) as [[e|xs] s1]; [done|].
    pose proof (call_grows p f (function_pointer f) (ArgList xs) s1). simpl in *. lia.
  - specialize (IH s). destruct (eval arr s) as [[e|x] s1]; [done|].
    pose proof (call_grows p f (function_pointer f) (ArgSpread x) s1). simpl in *. lia.
  - specialize (IHl s). destruct (eval l s) as [[e|x] s1]; [done|]. specialize (IHr s1).
    destruct (eqb _ _); simpl in *; lia.
  - specialize (IHt s). destruct (eval t s) as [[e|z] s1]; [done|]. specialize (IHx s1). specialize (IHy s1).
    destruct (logic _ _); simpl in *; lia.
  - specialize (IH s). destruct (eval t s) as [[e|x] s1]; exact IH.
Qed.

Lemma with_value_grows t s k c s' : with_value t s k = Some (c, s') ->
  (forall x s1, k x s1 = Some (c, s') -> (count s1 <= count s')%nat) -> (count s <= count s')%nat.
Proof.
  unfold with_value. intros E Hk. pose proof (eval_grows t s) as Ht. destruct (eval t s) as [[e|x] s1].
  - by injection E as _ <-.
  - specialize (Hk _ _ E). simpl in Ht. lia.
Qed.

Lemma loop_grows body iter key value n s c s' :
  (forall s c s', body s = Some (c, s') -> (count s <= count s')%nat) ->
  loop body iter key value n s = Some (c, s') -> (count s <= count s')%nat.
Proof.
  intros Hb. revert s. induction n as [|n IH]; intros s E; [done|]. simpl in E.
  pose proof (iterator_next_count (var iter s) (store s)) as Hn. destruct (iterator_next _ _) as [[] h]; simpl in Hn.
  2:{ by injection E as _ <-. }
  match type of E with context [body ?s3] => destruct (body s3) as [[c1 s4]|] eqn:Eb; [|done]; pose proof (Hb _ _ _ Eb) as H4 end.
  change (count (set_var _ _ _)) with (collections h) in H4. unfold count in *. simpl in E.
  destruct c1; try (injection E as _ <-; lia); specialize (IH _ E); unfold count in IH; lia.
Qed.

Lemma catch_value_grows p e s : (count s <= count (catch_value p e s).2)%nat.
Proof. unfold catch_value. destruct (e.2); [done|apply alloc_grows]. Qed.

Lemma exec_grows fuel st : forall s c s', exec fuel st s = Some (c, s') -> (count s <= count s')%nat.
Proof.
  induction st as [|s1 IH1 s2 IH2|p t|p i t|p t|p t|p t s1 IH1 s2 IH2|p iter key value coll body IH|p i t IHt c0 IHc|p|p];
    intros s c s' E; cbn [exec] in E;
    try (eapply with_value_grows; [exact E|]; intros x sx E1; cbv beta in E1); try (injection E as _ <-; done);
    try (injection E1 as _ <-; done).
  - destruct (exec fuel s1 s) as [[c1 s3]|] eqn:E1; [|done]. specialize (IH1 _ _ _ E1). simpl in E.
    destruct c1; try (injection E as _ <-; done). specialize (IH2 _ _ _ E). lia.
  - destruct (logic _ _); eauto.
  - pose proof (operate_count Unaries_iterate [x] (store sx)) as Ho. destruct (operate _ _ _ _) as [[e|it] h]; simpl in Ho.
    + by injection E1 as _ <-.
    + pose proof (loop_grows _ _ _ _ _ _ _ _ IH E1) as Hl. unfold count in *. simpl in Hl. lia.
  - destruct (exec fuel t s) as [[c1 s3]|] eqn:E1; [|done]. specialize (IHt _ _ _ E1). simpl in E.
    destruct c1; try (injection E as _ <-; done). pose proof (catch_value_grows p e s3) as Ha.
    destruct (catch_value p e s3) as [[e'|x] s4]; simpl in Ha.
    + injection E as _ <-. lia.
    + specialize (IHc _ _ _ E). unfold count in *. simpl in IHc. lia.
Qed.

Lemma run_grows fuel node h r h' : run fuel node h = Some (r, h') -> (collections h <= collections h')%nat.
Proof.
  unfold run. intros E. destruct (exec _ _ _) as [[c s]|] eqn:Ex; [|done]. apply exec_grows in Ex. simpl in E.
  destruct (result_of c); [|done]. by injection E as _ <-.
Qed.

End Counting.

End Evaluator.
End Semantics.
