(* ===== verification/ScriptCompile.v ===== *)
(** * The compiler emits the code of the resolved tree

    [compile_root] runs name resolution and emission together, patching jumps
    as it goes; here the two are separated: what [CompilerImpl] does is to
    resolve the names as [resolve_root] does and to append [gen] of the
    resulting tree, with the stack depth and the exception ranges of the tree. *)
From S2P Require Import Prelude ScriptAst ScriptWords ScriptCompiler ScriptVm ScriptTree.
Import Ast Code Words Compiler Tree.

Module Emission.

(** ** Appending to what has been emitted *)

Lemma patch_op t o x p : (patch_code t (fst (op o x p)), snd (op o x p)) = op o t p.
Proof. unfold op, patch_code. simpl. by rewrite op_byte_encode. Qed.

Definition app (em : Emitted) (l : list (Z * Z)) (depth most : Z) : Emitted :=
  mkEmitted (em_codes em ++ (fst <$> l)) (em_positions em ++ (snd <$> l)) (em_exception_table em) (loops_ em) depth
    (Z.max (max_stack_ em) most).

Definition here_ (em : Emitted) : nat := length (em_codes em).
Definition ok (em : Emitted) : Prop := 0 <= stack_depth_ em <= max_stack_ em.

Lemma app_app em l1 d1 m1 l2 d2 m2 : app (app em l1 d1 m1) l2 d2 m2 = app em (l1 ++ l2) d2 (Z.max m1 m2).
Proof. unfold app. simpl. rewrite !fmap_app, !(assoc _). f_equal. lia. Qed.

Lemma here_app em l d m : here_ (app em l d m) = (here_ em + length l)%nat.
Proof. unfold here_, app. simpl. by rewrite length_app, length_fmap. Qed.

Lemma ok_app em l d m : ok em -> 0 <= d <= m -> ok (app em l d m).
Proof. unfold ok, app. simpl. lia. Qed.

Lemma emit_raw_run code pos delta em n :
  emit_raw code pos delta (mkImpl em n) =
    (here_ em, mkImpl (app em [(code, pos)] (Z.max 0 (stack_depth_ em + delta)) (Z.max 0 (stack_depth_ em + delta))) n).
Proof. done. Qed.

Lemma emit_op_run o k pos delta em n :
  emit_op o k pos delta (mkImpl em n) =
    (here_ em, mkImpl (app em [op o k pos] (Z.max 0 (stack_depth_ em + delta)) (Z.max 0 (stack_depth_ em + delta))) n).
Proof. done. Qed.

Lemma alter_middle {A} (f : A -> A) l1 x l2 : alter f (length l1) (l1 ++ x :: l2) = l1 ++ f x :: l2.
Proof. induction l1 as [|y l1 IH]; simpl; [done|]. f_equal. apply IH. Qed.

(** Patching the jump emitted after [l1]. *)
Lemma patch_jump_run target em l1 o k p l2 d m n :
  patch_jump (here_ em + length l1) target (mkImpl (app em (l1 ++ op o k p :: l2) d m) n) =
    (tt, mkImpl (app em (l1 ++ op o target p :: l2) d m) n).
Proof.
  unfold patch_jump, modify_emitted, on_emitted. simpl. do 2 f_equal.
  unfold app. simpl. rewrite !fmap_app, !(assoc _). simpl. f_equal.
  replace (here_ em + length l1)%nat with (length (em_codes em ++ (fst <$> l1)))
    by (unfold here_; by rewrite length_app, length_fmap).
  rewrite alter_middle. unfold patch_code. by rewrite op_byte_encode.
Qed.

Lemma here_run em n : here (mkImpl em n) = (here_ em, mkImpl em n).
Proof. done. Qed.

Lemma bind_result {A B} (m : CM A) (k : A -> CM B) s a s' : m s = (a, s') -> (m ≫= k) s = k a s'.
Proof. intros E. unfold mbind, CM_bind. by rewrite E. Qed.

Lemma nbind_run {A B} (m : NM A) (k : A -> NM B) s : (m ≫= k) s = let '(a, s') := m s in k a s'.
Proof. done. Qed.

(** ** Expressions *)

(** What compiling an expression does, in terms of resolving it. *)
Definition compiles (c : CM unit) (r : NM Tree) : Prop :=
  forall em n, ok em ->
    c (mkImpl em n) =
      let '(t, n') := r n in
      (tt, mkImpl (app em (gen (here_ em) t) (stack_depth_ em + 1) (stack_depth_ em + need t)) n').

(** ... and the code that takes the value [t0] leaves on the stack further. *)
Definition continues (c : CM unit) (r : Tree -> NM Tree) : Prop :=
  forall em0 d t0 n, ok em0 -> d = stack_depth_ em0 ->
    c (mkImpl (app em0 (gen (here_ em0) t0) (d + 1) (d + need t0)) n) =
      let '(t, n') := r t0 n in
      (tt, mkImpl (app em0 (gen (here_ em0) t) (d + 1) (d + need t)) n').

Lemma app_eq em l l' d d' m m' : l = l' -> d = d' -> m = m' -> app em l d m = app em l' d' m'.
Proof. congruence. Qed.

Lemma ok_app1 em t : ok em -> ok (app em (gen (here_ em) t) (stack_depth_ em + 1) (stack_depth_ em + need t)).
Proof. intros [? ?]. apply ok_app; [done|]. pose proof (need_pos t). lia. Qed.

Lemma bind_names {A B} (f : NM A) (k : A -> CM B) em n :
  (on_names f ≫= k) (mkImpl em n) = let '(a, n') := f n in k a (mkImpl em n').
Proof. unfold mbind, CM_bind, on_names. simpl. by destruct (f n). Qed.

Lemma bind_compiles {A} c r (k : unit -> CM A) em n : compiles c r -> ok em ->
  (c ≫= k) (mkImpl em n) =
    let '(t, n') := r n in
    k tt (mkImpl (app em (gen (here_ em) t) (stack_depth_ em + 1) (stack_depth_ em + need t)) n').
Proof. intros C O. unfold mbind, CM_bind. rewrite (C em n O). by destruct (r n). Qed.

Lemma bind_op {B} o k pos delta (f : nat -> CM B) em n :
  (emit_op o k pos delta ≫= f) (mkImpl em n) =
    f (here_ em) (mkImpl (app em [op o k pos] (Z.max 0 (stack_depth_ em + delta)) (Z.max 0 (stack_depth_ em + delta))) n).
Proof. done. Qed.

Lemma bind_raw {B} code pos delta (f : nat -> CM B) em n :
  (emit_raw code pos delta ≫= f) (mkImpl em n) =
    f (here_ em) (mkImpl (app em [(code, pos)] (Z.max 0 (stack_depth_ em + delta)) (Z.max 0 (stack_depth_ em + delta))) n).
Proof. done. Qed.

(** An emission that only names an instruction. *)
Lemma raw_op o p : (byte_of o, p) = op o 0 p.
Proof. unfold op. simpl. by rewrite encode_byte. Qed.

Ltac here_norm := repeat (progress (rewrite ?here_app, ?length_gen, ?length_app; simpl)).
Ltac list_eq := repeat (first [reflexivity | lia | f_equal]).

Ltac flat := repeat (progress (rewrite <- ?app_assoc; simpl)).

(** Reduce an emission to one [app], then compare code, depth and bound. *)
Ltac emitted_eq :=
  rewrite ?app_app, ?raw_op; simpl stack_depth_; do 2 f_equal; apply app_eq; simpl; rewrite ?(assoc_L (++));
  try (unfold ok in *; lia).

Lemma compile_item_spec e p : compiles (compile_expression e) (resolve_expression e) ->
  continues (compile_item compile_expression p e) (fun arr => resolve_item resolve_expression p arr e).
Proof.
  intros C em0 d t0 n O ->.
  assert (forall o code, o = Access_expand_array /\ code = EXP_ARRAY \/ o = Access_push_array /\ code = PUSH_ARRAY ->
    (_ ← compile_expression e; _ ← emit_raw (byte_of code) p (-1); mret tt)
      (mkImpl (app em0 (gen (here_ em0) t0) (stack_depth_ em0 + 1) (stack_depth_ em0 + need t0)) n) =
    (let '(t, n') := (t ← resolve_expression e; mret (TOp p o 0 true [t0; t])) n in
     (tt, mkImpl (app em0 (gen (here_ em0) t) (stack_depth_ em0 + 1) (stack_depth_ em0 + need t)) n'))) as G.
  { intros o code Ho. rewrite (bind_compiles _ _ _ _ _ C) by (by apply ok_app1).
    rewrite nbind_run. destruct (resolve_expression e n) as [t n1].
    rewrite bind_raw. unfold mret, CM_ret, NM_ret. simpl. here_norm. emitted_eq.
    rewrite app_nil_r. by destruct Ho as [[-> ->]|[-> ->]]. }
  destruct e; try exact (G _ _ (or_intror (conj eq_refl eq_refl))).
  exact (G _ _ (or_introl (conj eq_refl eq_refl))).
Qed.

Lemma compile_entry_spec e p : entry_all (fun e => compiles (compile_expression e) (resolve_expression e)) e ->
  continues (compile_entry compile_expression p e) (fun obj => resolve_entry resolve_expression p obj e).
Proof.
  intros C em0 d t0 n O ->. pose proof (need_pos t0).
  destruct e as [key v|k v|v]; simpl in C; simpl.
  - unfold add_string_operand. rewrite bind_names, nbind_run. destruct (string_in key n) as [i n0].
    rewrite (bind_compiles _ _ _ _ _ C) by (by apply ok_app1).
    rewrite nbind_run. destruct (resolve_expression v n0) as [t n1]. pose proof (need_pos t).
    rewrite bind_op. unfold mret, CM_ret, NM_ret. simpl. here_norm. emitted_eq. by rewrite app_nil_r.
  - destruct C as [Ck Cv]. rewrite (bind_compiles _ _ _ _ _ Ck) by (by apply ok_app1).
    rewrite nbind_run. destruct (resolve_expression k n) as [tk n0]. pose proof (need_pos tk).
    rewrite (bind_compiles _ _ _ _ _ Cv) by (apply (ok_app1 (app _ _ _ _)); by apply ok_app1).
    rewrite nbind_run. destruct (resolve_expression v n0) as [t n1]. pose proof (need_pos t).
    rewrite bind_raw. unfold mret, CM_ret, NM_ret. simpl. here_norm. emitted_eq. by rewrite app_nil_r.
  - rewrite (bind_compiles _ _ _ _ _ C) by (by apply ok_app1).
    rewrite nbind_run. destruct (resolve_expression v n) as [t n1]. pose proof (need_pos t).
    rewrite bind_raw. unfold mret, CM_ret, NM_ret. simpl. here_norm. emitted_eq. by rewrite app_nil_r.
Qed.

Lemma fold_each_spec {A} (c : A -> CM unit) (r : Tree -> A -> NM Tree) l :
  Forall (fun x => continues (c x) (fun t => r t x)) l ->
  continues (for_each c l) (fun t => fold_each r t l).
Proof.
  induction 1 as [|x l Hx F IH]; intros em0 d t0 n O Ed; [done|].
  simpl. unfold mbind at 1, CM_bind. rewrite (Hx em0 d t0 n O Ed), nbind_run.
  destruct (r t0 x n) as [t1 n1]. apply (IH em0 d t1 n1 O Ed).
Qed.

Lemma app_nothing em d m : d = stack_depth_ em -> m <= max_stack_ em -> app em [] d m = em.
Proof. intros -> ?. destruct em. unfold app. simpl in *. rewrite !app_nil_r. f_equal. lia. Qed.

Lemma map_each_spec l : Forall (fun e => compiles (compile_expression e) (resolve_expression e)) l ->
  forall em n, ok em ->
  for_each compile_expression l (mkImpl em n) =
    let '(ts, n') := map_each resolve_expression l n in
    (tt, mkImpl (app em (gen_list gen (here_ em) ts) (stack_depth_ em + Z.of_nat (length l))
                   (stack_depth_ em + need_list need 0 ts)) n').
Proof.
  induction 1 as [|e l He F IH]; intros em n O; simpl.
  - unfold mret, CM_ret, NM_ret. rewrite app_nothing; [done|lia|destruct O; lia].
  - rewrite (bind_compiles _ _ _ _ _ He O), nbind_run. destruct (resolve_expression e n) as [t n1].
    rewrite (IH _ _ (ok_app1 em t O)), nbind_run. destruct (map_each resolve_expression l n1) as [ts n2].
    unfold mret, NM_ret. simpl. here_norm. rewrite app_app. do 2 f_equal. apply app_eq; [done|lia|].
    pose proof (need_list_shift ts 0 ltac:(lia)). pose proof (need_pos t). lia.
Qed.

Lemma length_map_each l n : length (fst (map_each resolve_expression l n)) = length l.
Proof.
  revert n. induction l as [|e l IH]; intros n; simpl; [done|].
  rewrite nbind_run. destruct (resolve_expression e n) as [t n1]. rewrite nbind_run.
  specialize (IH n1). destruct (map_each resolve_expression l n1). simpl in *. by rewrite IH.
Qed.

(** Patching a jump in the middle of what was emitted since [em]. *)
Lemma patch_jump_at i target em l l1 o k p l2 d m n :
  l = l1 ++ op o k p :: l2 -> i = (here_ em + length l1)%nat ->
  patch_jump i target (mkImpl (app em l d m) n) = (tt, mkImpl (app em (l1 ++ op o target p :: l2) d m) n).
Proof. intros -> ->. apply patch_jump_run. Qed.

Lemma bind_patch {A} i target em l l1 o k p l2 d m n (f : unit -> CM A) :
  l = l1 ++ op o k p :: l2 -> i = (here_ em + length l1)%nat ->
  (patch_jump i target ≫= f) (mkImpl (app em l d m) n) = f tt (mkImpl (app em (l1 ++ op o target p :: l2) d m) n).
Proof. intros E1 E2. by rewrite (bind_result _ _ _ _ _ (patch_jump_at i target em l l1 o k p l2 d m n E1 E2)). Qed.

Lemma bind_here {A} (f : nat -> CM A) em n : (here ≫= f) (mkImpl em n) = f (here_ em) (mkImpl em n).
Proof. done. Qed.

Lemma bind_depth {A} (f : Z -> CM A) em n : (stack_depth ≫= f) (mkImpl em n) = f (stack_depth_ em) (mkImpl em n).
Proof. done. Qed.

Lemma bind_set_depth {A} (f : unit -> CM A) em l d0 m d n :
  (set_stack_depth d ≫= f) (mkImpl (app em l d0 m) n) = f tt (mkImpl (app em l d m) n).
Proof. done. Qed.

Lemma compile_assign_spec p lhs rhs :
  assign_all (fun e => compiles (compile_expression e) (resolve_expression e)) lhs ->
  compiles (compile_expression rhs) (resolve_expression rhs) ->
  compiles (compile_assign compile_expression p lhs rhs) (resolve_assign resolve_expression p lhs rhs).
Proof.
  intros Hl C.
  destruct lhs; try exact C; intros em n0 O; simpl.
  - rewrite (bind_compiles _ _ _ _ _ C O), nbind_run. destruct (resolve_expression rhs n0) as [t n1].
    pose proof (need_pos t). unfold resolve_var. rewrite bind_raw, bind_names, nbind_run.
    destruct (resolve_in name n1) as [i n2]. rewrite bind_op. unfold mret, CM_ret, NM_ret. here_norm. emitted_eq. done.
  - destruct Hl as [C1 C2].
    rewrite (bind_compiles _ _ _ _ _ C1 O), nbind_run. destruct (resolve_expression lhs1 n0) as [t1 n1].
    rewrite (bind_compiles _ _ _ _ _ C2) by (by apply ok_app1). rewrite nbind_run.
    destruct (resolve_expression lhs2 n1) as [t2 n2].
    rewrite (bind_compiles _ _ _ _ _ C) by (apply (ok_app1 (app _ _ _ _)); by apply ok_app1). rewrite nbind_run.
    destruct (resolve_expression rhs n2) as [t3 n3]. rewrite bind_raw.
    pose proof (need_pos t1). pose proof (need_pos t2). pose proof (need_pos t3).
    unfold mret, CM_ret, NM_ret. here_norm. emitted_eq. by rewrite app_nil_r.
  - rewrite (bind_compiles _ _ _ _ _ Hl O), nbind_run. destruct (resolve_expression lhs n0) as [t1 n1].
    rewrite (bind_compiles _ _ _ _ _ C) by (by apply ok_app1). rewrite nbind_run.
    destruct (resolve_expression rhs n1) as [t2 n2]. unfold add_string_operand. rewrite bind_names, nbind_run.
    destruct (string_in name n2) as [i n3]. rewrite bind_op.
    pose proof (need_pos t1). pose proof (need_pos t2).
    unfold mret, CM_ret, NM_ret. here_norm. emitted_eq. by rewrite app_nil_r.
Qed.

Lemma bind_cjump {B} (c : bool) target p (f : nat -> CM B) em n :
  (emit_jump (if c then JUMP_IF_FALSE else JUMP_IF_TRUE) target p ≫= f) (mkImpl em n) =
    f (here_ em) (mkImpl (app em [op (if c then JUMP_IF_FALSE else JUMP_IF_TRUE) target p]
                            (Z.max 0 (stack_depth_ em - 1)) (Z.max 0 (stack_depth_ em - 1))) n).
Proof. by destruct c. Qed.

Lemma bind_jump {B} target p (f : nat -> CM B) em n :
  (emit_jump JUMP target p ≫= f) (mkImpl em n) =
    f (here_ em) (mkImpl (app em [op JUMP target p] (Z.max 0 (stack_depth_ em + 0)) (Z.max 0 (stack_depth_ em + 0))) n).
Proof. done. Qed.

Lemma compile_logic_spec n a o b : compiles (compile_expression a) (resolve_expression a) ->
  compiles (compile_expression b) (resolve_expression b) ->
  compiles (compile_expression (LogicRelationalExpression n a o b)) (resolve_expression (LogicRelationalExpression n a o b)).
Proof.
  intros Ca Cb em n0 O. cbn [compile_expression resolve_expression expression_node]. set (p := start_pos n).
  rewrite (bind_compiles _ _ _ _ _ Ca O), nbind_run. destruct (resolve_expression a n0) as [t1 n1].
  pose proof (need_pos t1). rewrite bind_raw, bind_cjump, bind_raw, nbind_run, !raw_op.
  rewrite (bind_compiles _ _ _ _ _ Cb) by (unfold ok in *; simpl; lia).
  destruct (resolve_expression b n1) as [t2 n2]. pose proof (need_pos t2).
  rewrite bind_here, !app_app, !here_app. simpl.
  erewrite (patch_jump_at _ _ em _ (gen (here_ em) t1 ++ [op DUMP 0 p])); first last.
  - simpl. by rewrite length_app.
  - by rewrite <- !(assoc_L (++)).
  - unfold mret, NM_ret. simpl. here_norm. do 2 f_equal. apply app_eq; [|unfold ok in *; simpl; lia..].
    flat. here_norm. flat. list_eq.
Qed.

Lemma compile_ternary_spec n a b c : compiles (compile_expression a) (resolve_expression a) ->
  compiles (compile_expression b) (resolve_expression b) -> compiles (compile_expression c) (resolve_expression c) ->
  compiles (compile_expression (Ternary n a b c)) (resolve_expression (Ternary n a b c)).
Proof.
  intros Ca Cb Cc em n0 O. cbn [compile_expression resolve_expression expression_node]. set (p := start_pos n).
  rewrite (bind_compiles _ _ _ _ _ Ca O), nbind_run. destruct (resolve_expression a n0) as [t1 n1].
  pose proof (need_pos t1). rewrite (bind_cjump true), bind_depth, nbind_run. simpl.
  rewrite (bind_compiles _ _ _ _ _ Cb) by (unfold ok in *; simpl; lia).
  destruct (resolve_expression b n1) as [t2 n2]. pose proof (need_pos t2).
  rewrite bind_jump, bind_here, !app_app, !here_app.
  erewrite (bind_patch _ _ em _ (gen (here_ em) t1)); [|by rewrite <- !(assoc_L (++))|by rewrite length_gen].
  rewrite bind_set_depth, nbind_run.
  rewrite (bind_compiles _ _ _ _ _ Cc) by (unfold ok in *; simpl; lia).
  destruct (resolve_expression c n2) as [t3 n3]. pose proof (need_pos t3).
  rewrite bind_here, !app_app, !here_app.
  rewrite (patch_jump_at _ _ em _ (gen (here_ em) t1 ++ op JUMP_IF_FALSE (here_ em + tlen t1 + 1 + tlen t2 + 1) p ::
      gen (here_ em + tlen t1 + 1) t2) JUMP 0 p (gen (here_ em + tlen t1 + 1 + tlen t2 + 1) t3)); first last.
  - simpl. rewrite !length_app. simpl. rewrite !length_gen. lia.
  - simpl. here_norm. flat. list_eq.
  - unfold mret, NM_ret. simpl. here_norm. do 2 f_equal.
    apply app_eq; [|unfold ok in *; simpl; lia..].
    flat. here_norm. flat. list_eq.
Qed.

(** A name or an operand, then one instruction that pushes. *)
Lemma compile_simple_spec (r : NM nat) (o : Opcode) (p : Z) (f : nat -> Tree) :
  (forall k a, gen a (f k) = [op o k p]) -> (forall k, need (f k) = 1) ->
  compiles (k ← on_names r; _ ← emit_op o k p 1; mret tt) (k ← r; mret (f k)).
Proof.
  intros Hg Hn em n O. rewrite bind_names, nbind_run. destruct (r n) as [k n1].
  rewrite bind_op. unfold mret, CM_ret, NM_ret. rewrite Hg, Hn. unfold ok in O. emitted_eq. done.
Qed.

Lemma compile_call_spec p c args : Forall (fun e => compiles (compile_expression e) (resolve_expression e)) args ->
  compiles (_ ← for_each compile_expression args;
            idx ← add_operand (function_pointer c);
            _ ← emit_raw (call_code (if is_async c then CALL_ASYNC_FUNC else CALL_FUNC) (length args) idx) p
                  (1 - Z.of_nat (length args));
            mret tt)
    (ts ← map_each resolve_expression args; k ← operand_in (function_pointer c); mret (TCall p k c ts)).
Proof.
  intros F em n O. rewrite (bind_result _ _ (mkImpl em n) _ _ (eq_trans (map_each_spec args F em n O) (surjective_pairing _))).
  rewrite nbind_run. pose proof (length_map_each args n) as L.
  destruct (map_each resolve_expression args n) as [ts n1]. simpl in L. simpl fst. simpl snd.
  unfold add_operand. rewrite bind_names, nbind_run. destruct (operand_in (function_pointer c) n1) as [k n2].
  rewrite bind_raw. unfold mret, CM_ret, NM_ret. rewrite <- L, app_app. do 2 f_equal. unfold ok in O.
  apply app_eq; simpl; [done|lia|lia].
Qed.

Lemma compile_spread_spec p c args : Forall (fun e => compiles (compile_expression e) (resolve_expression e)) args ->
  compiles (_ ← emit_raw (byte_of NEW_ARRAY) p 1;
            _ ← for_each (compile_item compile_expression p) args;
            idx ← add_operand (function_pointer c);
            _ ← emit_op (if is_async c then CALL_ASYNC_FUNC_SPREAD else CALL_FUNC_SPREAD) idx p 0;
            mret tt)
    (arr ← fold_each (resolve_item resolve_expression p) (TNew p true) args;
     k ← operand_in (function_pointer c); mret (TCallSpread p k c arr)).
Proof.
  intros F em n O. rewrite bind_raw, raw_op.
  pose proof (fold_each_spec (compile_item compile_expression p) (resolve_item resolve_expression p) args) as S.
  specialize (S (Forall_impl _ _ _ F (fun e He => compile_item_spec e p He)) em (stack_depth_ em) (TNew p true) n O eq_refl).
  simpl in S. replace (Z.max 0 (stack_depth_ em + 1)) with (stack_depth_ em + 1) by (unfold ok in O; lia).
  rewrite (bind_result _ _ _ _ _ (eq_trans S (surjective_pairing _))). rewrite nbind_run.
  destruct (fold_each (resolve_item resolve_expression p) (TNew p true) args n) as [arr n1]. pose proof (need_pos arr).
  simpl fst. simpl snd.
  unfold add_operand. rewrite bind_names, nbind_run. destruct (operand_in (function_pointer c) n1) as [k n2].
  rewrite bind_op. unfold mret, CM_ret, NM_ret. unfold ok in O. simpl. emitted_eq. done.
Qed.

(** A literal under construction: an allocation, then one step per element. *)
Lemma compile_literal_spec {A} (c : A -> CM unit) (r : Tree -> A -> NM Tree) (p : Z) (b : bool) l :
  Forall (fun x => continues (c x) (fun t => r t x)) l ->
  compiles (_ ← emit_raw (byte_of (if b then NEW_ARRAY else NEW_OBJECT)) p 1; for_each c l)
    (fold_each r (TNew p b) l).
Proof.
  intros F em n O. rewrite bind_raw, raw_op.
  pose proof (fold_each_spec c r l F em (stack_depth_ em) (TNew p b) n O eq_refl) as S.
  simpl in S. replace (Z.max 0 (stack_depth_ em + 1)) with (stack_depth_ em + 1) by (unfold ok in O; lia). exact S.
Qed.

(** Two operands, then an instruction. *)
Lemma compile_op2_spec (a b : Expression) (o : Operation) (code : Opcode) (p : Z) : operation_code o true = code ->
  compiles (compile_expression a) (resolve_expression a) -> compiles (compile_expression b) (resolve_expression b) ->
  compiles (_ ← compile_expression a; _ ← compile_expression b; _ ← emit_raw (byte_of code) p (-1); mret tt)
    (x ← resolve_expression a; y ← resolve_expression b; mret (TOp p o 0 true [x; y])).
Proof.
  intros <- Ca Cb em n O.
  rewrite (bind_compiles _ _ _ _ _ Ca O), nbind_run. destruct (resolve_expression a n) as [t1 n1].
  rewrite (bind_compiles _ _ _ _ _ Cb) by (by apply ok_app1). rewrite nbind_run.
  destruct (resolve_expression b n1) as [t2 n2]. rewrite bind_raw, raw_op.
  pose proof (need_pos t1). pose proof (need_pos t2). unfold mret, CM_ret, NM_ret. here_norm. emitted_eq.
  by rewrite app_nil_r.
Qed.

Lemma compile_expression_spec e : compiles (compile_expression e) (resolve_expression e).
Proof.
  induction e using Expression_ind'; cbn [compile_expression resolve_expression expression_node].
  - by apply (compile_simple_spec (literal_in l)).
  - by apply (compile_simple_spec (resolve_in x)).
  - destruct (is_root x); [|by apply (compile_simple_spec (resolve_in x))].
    intros em n0 O. rewrite bind_raw, raw_op. unfold mret, CM_ret, NM_ret. unfold ok in O. emitted_eq. done.
  - by apply (compile_simple_spec (operand_in (constant_pointer c)) _ _ (fun k => TConstant (start_pos n) k c)).
  - destruct (negb (existsb is_expand args)); [by apply compile_call_spec|by apply compile_spread_spec].
  - apply (compile_literal_spec _ _ _ true). eapply Forall_impl; [exact H|]. intros e He. by apply compile_item_spec.
  - apply (compile_literal_spec _ _ _ false). eapply Forall_impl; [exact H|]. intros e He. by apply compile_entry_spec.
  - by apply compile_op2_spec.
  - intros em n0 O. rewrite (bind_compiles _ _ _ _ _ IHe O), nbind_run. destruct (resolve_expression e n0) as [t n1].
    unfold add_string_operand. rewrite bind_names, nbind_run. destruct (string_in x n1) as [k n2].
    rewrite bind_op. pose proof (need_pos t). unfold mret, CM_ret, NM_ret. unfold ok in O. here_norm. emitted_eq.
    by rewrite app_nil_r.
  - by apply compile_op2_spec.
  - by apply compile_logic_spec.
  - intros em n0 O. rewrite (bind_compiles _ _ _ _ _ IHe O), nbind_run. destruct (resolve_expression e n0) as [t n1].
    rewrite bind_raw, raw_op. pose proof (need_pos t). unfold mret, CM_ret, NM_ret. unfold ok in O. here_norm. emitted_eq.
    by rewrite app_nil_r.
  - by apply compile_ternary_spec.
  - by apply compile_assign_spec.
  - exact IHe.
Qed.

(** ** Statements

    A statement appends its items with the jumps of [break] and [continue] still
    to be patched, its exception ranges, and the indexes of those jumps to the
    innermost loop. *)

Definition is_hole (b : bool) (i : Item * Z) : bool :=
  match fst i with Known _ => false | HBreak => b | HContinue => negb b end.

Fixpoint holes (b : bool) (a : nat) (l : list (Item * Z)) : list nat :=
  match l with
  | [] => []
  | i :: l' => (if is_hole b i then [a] else []) ++ holes b (S a) l'
  end.

Definition note (a : nat) (items : list (Item * Z)) (l : list LoopContext) : list LoopContext :=
  match l with
  | [] => []
  | c :: l' =>
      mkLoop (continue_target c) (break_jumps c ++ holes true a items) (continue_jumps c ++ holes false a items) :: l'
  end.

Definition push_items (em : Emitted) (items : list (Item * Z)) (ranges : list Z) (depth most : Z) : Emitted :=
  mkEmitted (em_codes em ++ (fst <$> (fill 0 0 <$> items))) (em_positions em ++ (snd <$> items))
    (em_exception_table em ++ ranges) (note (here_ em) items (loops_ em)) depth (Z.max (max_stack_ em) most).

Definition in_loop (em : Emitted) : bool := match loops_ em with [] => false | _ => true end.

Lemma holes_app b a l1 l2 : holes b a (l1 ++ l2) = holes b a l1 ++ holes b (a + length l1) l2.
Proof.
  revert a. induction l1 as [|i l1 IH]; intros a; simpl; [by rewrite Nat.add_0_r|].
  by rewrite IH, (assoc_L (++)), Nat.add_succ_comm.
Qed.

Lemma holes_known b a (l : list (Z * Z)) : holes b a (known <$> l) = [].
Proof. revert a. induction l as [|c l IH]; intros a; simpl; [done|apply IH]. Qed.

Lemma note_known a (l : list (Z * Z)) loops : note a (known <$> l) loops = loops.
Proof. destruct loops as [|[ct bj cj] loops]; simpl; [done|]. by rewrite !holes_known, !app_nil_r. Qed.

Lemma note_note a l1 l2 loops : note (a + length l1) l2 (note a l1 loops) = note a (l1 ++ l2) loops.
Proof. destruct loops as [|[ct bj cj] loops]; simpl; [done|]. by rewrite !holes_app, !(assoc_L (++)). Qed.

Lemma snd_known (l : list (Z * Z)) : snd <$> (known <$> l) = snd <$> l.
Proof. rewrite <- list_fmap_compose. done. Qed.

Lemma snd_fill bt ct (l : list (Item * Z)) : snd <$> (fill bt ct <$> l) = snd <$> l.
Proof. rewrite <- list_fmap_compose. apply list_fmap_ext. by intros ? [[] ?]. Qed.

Lemma app_items em l d m : app em l d m = push_items em (known <$> l) [] d m.
Proof. unfold app, push_items. by rewrite fill_known, snd_known, note_known, app_nil_r. Qed.

Lemma items_items em i1 r1 d1 m1 i2 r2 d2 m2 :
  push_items (push_items em i1 r1 d1 m1) i2 r2 d2 m2 = push_items em (i1 ++ i2) (r1 ++ r2) d2 (Z.max m1 m2).
Proof.
  unfold push_items. simpl. unfold here_ at 1. simpl. rewrite length_app, !length_fmap. fold (here_ em).
  rewrite note_note, !fmap_app, !(assoc _). f_equal. lia.
Qed.

Lemma here_items em i r d m : here_ (push_items em i r d m) = (here_ em + length i)%nat.
Proof. unfold here_, push_items. simpl. by rewrite length_app, !length_fmap. Qed.

Lemma in_loop_items em i r d m : in_loop (push_items em i r d m) = in_loop em.
Proof. unfold in_loop, push_items. simpl. by destruct (loops_ em). Qed.

Lemma ok_items em i r d m : ok em -> 0 <= d <= m -> ok (push_items em i r d m).
Proof. unfold ok, push_items. simpl. lia. Qed.

Lemma items_eq em i i' r r' d d' m m' :
  i = i' -> r = r' -> d = d' -> m = m' -> push_items em i r d m = push_items em i' r' d' m'.
Proof. congruence. Qed.

(** Patching a jump that is not a hole. *)
Lemma patch_item j target em l i1 o k p i2 r d m n :
  l = i1 ++ known (op o k p) :: i2 -> j = (here_ em + length i1)%nat ->
  patch_jump j target (mkImpl (push_items em l r d m) n) =
    (tt, mkImpl (push_items em (i1 ++ known (op o target p) :: i2) r d m) n).
Proof.
  intros -> ->. unfold patch_jump, modify_emitted, on_emitted. simpl. do 2 f_equal.
  unfold push_items. simpl. rewrite !fmap_app. simpl. f_equal.
  - rewrite !(assoc_L (++)).
    replace (here_ em + length i1)%nat with (length (em_codes em ++ (fst <$> (fill 0 0 <$> i1))))
      by (unfold here_; by rewrite length_app, !length_fmap).
    rewrite alter_middle. unfold patch_code. simpl. by rewrite op_byte_encode.
  - destruct (loops_ em); simpl; [done|]. by rewrite !holes_app.
Qed.

Lemma bind_patch_item {A} j target em l i1 o k p i2 r d m n (f : unit -> CM A) :
  l = i1 ++ known (op o k p) :: i2 -> j = (here_ em + length i1)%nat ->
  (patch_jump j target ≫= f) (mkImpl (push_items em l r d m) n) =
    f tt (mkImpl (push_items em (i1 ++ known (op o target p) :: i2) r d m) n).
Proof. intros E1 E2. by rewrite (bind_result _ _ _ _ _ (patch_item j target em l i1 o k p i2 r d m n E1 E2)). Qed.

(** The targets of the jumps of a finished loop. *)
Definition fill_one (b : bool) (target other : nat) : Item * Z -> Z * Z :=
  if b then fill target other else fill other target.

Lemma patch_holes b target other em i1 items i2 r d m n :
  for_each (fun j => patch_jump j target) (holes b (here_ em + length i1) items)
    (mkImpl (push_items em (i1 ++ (known <$> (fill_one b 0 other <$> items)) ++ i2) r d m) n) =
  (tt, mkImpl (push_items em (i1 ++ (known <$> (fill_one b target other <$> items)) ++ i2) r d m) n).
Proof.
  revert i1. induction items as [|[it p] items IH]; intros i1; [done|].
  assert (forall x : Item * Z, fill_one b 0 other (it, p) = fill_one b target other (it, p) -> is_hole b (it, p) = false ->
    for_each (fun j => patch_jump j target) (holes b (here_ em + length i1) ((it, p) :: items))
      (mkImpl (push_items em (i1 ++ (known <$> (fill_one b 0 other <$> (it, p) :: items)) ++ i2) r d m) n) =
    (tt, mkImpl (push_items em (i1 ++ (known <$> (fill_one b target other <$> (it, p) :: items)) ++ i2) r d m) n)) as Hkeep.
  { intros _ E Eh. simpl. rewrite Eh. simpl. rewrite E.
    specialize (IH (i1 ++ [known (fill_one b target other (it, p))])).
    rewrite length_app in IH. simpl in IH. rewrite <- !(assoc_L (++)) in IH. simpl in IH.
    by replace (S (here_ em + length i1)) with (here_ em + (length i1 + 1))%nat by lia. }
  assert (forall E : fill_one b 0 other (it, p) = op JUMP 0 p, fill_one b target other (it, p) = op JUMP target p ->
    is_hole b (it, p) = true ->
    for_each (fun j => patch_jump j target) (holes b (here_ em + length i1) ((it, p) :: items))
      (mkImpl (push_items em (i1 ++ (known <$> (fill_one b 0 other <$> (it, p) :: items)) ++ i2) r d m) n) =
    (tt, mkImpl (push_items em (i1 ++ (known <$> (fill_one b target other <$> (it, p) :: items)) ++ i2) r d m) n)) as Hhole.
  { intros E E' Eh. simpl. rewrite Eh. simpl. rewrite E, E'.
    erewrite bind_patch_item; [|reflexivity|reflexivity].
    specialize (IH (i1 ++ [known (op JUMP target p)])).
    rewrite length_app in IH. simpl in IH. rewrite <- !(assoc_L (++)) in IH. simpl in IH.
    by replace (S (here_ em + length i1)) with (here_ em + (length i1 + 1))%nat by lia. }
  destruct it, b; first [by apply Hhole | by apply (Hkeep (it, p)) | apply (Hkeep (HBreak, p)); done].
Qed.

Definition push_tree (em : Emitted) (t : STree) : Emitted :=
  push_items em (gen_s (here_ em) t) (ranges_of (here_ em) t) 0 (sneed t).

(** What compiling a statement does: the stack is empty before and after it. *)
Definition emits (c : CM unit) (r : NM STree) (il : bool) : Prop :=
  forall em n, ok em -> stack_depth_ em = 0 -> in_loop em = il ->
    c (mkImpl em n) = let '(t, n') := r n in (tt, mkImpl (push_tree em t) n').

Lemma ok_tree em t : ok em -> ok (push_tree em t).
Proof. intros ?. apply ok_items; [done|]. pose proof (sneed_pos t). lia. Qed.

Lemma here_tree em t : here_ (push_tree em t) = (here_ em + slen t)%nat.
Proof. unfold push_tree. by rewrite here_items, length_gen_s. Qed.

Lemma in_loop_tree em t : in_loop (push_tree em t) = in_loop em.
Proof. apply in_loop_items. Qed.

Lemma push_seq em t1 t2 : push_tree (push_tree em t1) t2 = push_tree em (SSeq t1 t2).
Proof. unfold push_tree at 1. rewrite here_tree. unfold push_tree. by rewrite items_items. Qed.

Lemma push_skip em : ok em -> stack_depth_ em = 0 -> push_tree em SSkip = em.
Proof.
  intros [O1 O2] E. unfold push_tree. change (gen_s (here_ em) SSkip) with (known <$> ([] : list (Z * Z))).
  change (ranges_of (here_ em) SSkip) with ([] : list Z). rewrite <- app_items. apply app_nothing; [done|simpl; lia].
Qed.

Lemma bind_emits {A} c r il (k : unit -> CM A) em n : emits c r il -> ok em -> stack_depth_ em = 0 -> in_loop em = il ->
  (c ≫= k) (mkImpl em n) = let '(t, n') := r n in k tt (mkImpl (push_tree em t) n').
Proof. intros C O E L. unfold mbind, CM_bind. rewrite (C em n O E L). by destruct (r n). Qed.

Lemma for_each_emits {A} (c : A -> CM unit) (r : A -> NM STree) il l :
  Forall (fun x => emits (c x) (r x) il) l ->
  emits (for_each c l) (ts ← map_each r l; mret (foldr SSeq SSkip ts)) il.
Proof.
  induction 1 as [|x l Hx F IH]; intros em n O E L.
  - simpl. unfold mret, CM_ret, NM_ret. by rewrite push_skip.
  - simpl. rewrite (bind_emits _ _ _ _ _ _ Hx O E L), !nbind_run. destruct (r x n) as [t n1].
    rewrite (IH _ _ (ok_tree em t O) eq_refl) by (by rewrite in_loop_tree).
    rewrite !nbind_run. destruct (map_each r l n1) as [ts n2]. unfold mret, NM_ret. simpl. by rewrite push_seq.
Qed.

(** Resolution before, after or inside does not change what is emitted. *)
Lemma emits_block (c : Statement -> CM unit) (r : Statement -> NM STree) il l scope :
  Forall (fun s => emits (c s) (r s) il) l -> emits (compile_block c l scope) (resolve_block r l scope) il.
Proof.
  intros F em n O E L. unfold compile_block, resolve_block. pose proof (for_each_emits c r il l F) as S.
  destruct scope.
  - rewrite nbind_run. unfold push_scope. rewrite bind_names. destruct (push_scope_in n) as [u n1].
    rewrite (bind_emits _ _ _ _ _ _ S O E L), !nbind_run. destruct (map_each r l n1) as [ts n2].
    unfold mret, NM_ret. simpl. done.
  - rewrite (bind_result (mret tt) _ (mkImpl em n) tt (mkImpl em n) eq_refl), nbind_run. simpl.
    rewrite (bind_emits _ _ _ _ _ _ S O E L), !nbind_run. destruct (map_each r l n) as [ts n2].
    unfold mret, NM_ret. simpl. done.
Qed.

Lemma compile_optional_spec e p : compiles (compile_optional e p) (resolve_optional e p).
Proof. destruct e as [e|]; [apply compile_expression_spec|]. by apply (compile_simple_spec undefined_in). Qed.

(** A value, then one instruction that takes it and leaves the stack empty. *)
Lemma emits_value c r il (o : Opcode) k (p : Z) (f : Tree -> STree) (last : CM unit) :
  compiles c r -> (forall t a, gen_s a (f t) = known <$> (gen a t ++ [op o k p])) ->
  (forall t a, ranges_of a (f t) = []) -> (forall t, sneed (f t) = need t) ->
  (forall em n, ok em -> stack_depth_ em = 1 -> last (mkImpl em n) = (tt, mkImpl (app em [op o k p] 0 1) n)) ->
  emits (c ≫= fun _ => last) (r ≫= fun t => mret (f t)) il.
Proof.
  intros C G R N L em n O E _. rewrite (bind_compiles _ _ _ _ _ C O), nbind_run. destruct (r n) as [t n1].
  rewrite L by (try apply ok_app1; simpl; done || lia). unfold mret, NM_ret, push_tree. rewrite app_app, app_items, G, R, N. do 2 f_equal.
  pose proof (need_pos t). apply items_eq; [done..|]. lia.
Qed.

Lemma emits_hole (hole : Item) (p : Z) (f : nat -> list LoopContext -> list LoopContext) (t : STree) (il : bool) :
  (forall a, gen_s a t = [(hole, p)]) -> (forall a, ranges_of a t = []) -> sneed t = 0 ->
  fill 0 0 (hole, p) = op JUMP 0 p ->
  (forall a l, f a l = note a [(hole, p)] l) ->
  emits (l ← loops; match l with [] => mret tt | _ :: _ => idx ← emit_jump JUMP 0 p; with_loops (f idx) end)
    (mret (if il then t else SSkip)) il.
Proof.
  intros G R N F Hf em n O E L.
  assert (loops (mkImpl em n) = (loops_ em, mkImpl em n)) as El by done.
  rewrite (bind_result _ _ _ _ _ El). revert L. unfold in_loop.
  destruct (loops_ em) as [|lc lcs] eqn:Elo; intros <-.
  - unfold mret, CM_ret, NM_ret. by rewrite push_skip.
  - rewrite bind_jump. unfold with_loops, modify_emitted, on_emitted, push_tree, push_items, app. simpl. do 2 f_equal.
    rewrite G, R, N, Elo. unfold ok in O. simpl list_fmap. cbn [fmap list_fmap]. rewrite F, Hf, app_nil_r. f_equal; simpl; lia.
Qed.

Lemma bind_patch_holes {A} b target other a em l i1 items i2 r d m n (f : unit -> CM A) :
  l = i1 ++ (known <$> (fill_one b 0 other <$> items)) ++ i2 -> a = (here_ em + length i1)%nat ->
  (for_each (fun j => patch_jump j target) (holes b a items) ≫= f) (mkImpl (push_items em l r d m) n) =
    f tt (mkImpl (push_items em (i1 ++ (known <$> (fill_one b target other <$> items)) ++ i2) r d m) n).
Proof. intros -> ->. by rewrite (bind_result _ _ _ _ _ (patch_holes b target other em i1 items i2 r d m n)). Qed.

(** *** One emission at a time, relative to where the statement began *)

Lemma items_start em : ok em -> stack_depth_ em = 0 -> em = push_items em [] [] 0 0.
Proof. intros O E. symmetry. by apply (push_skip em). Qed.

Section Relative.
Context {A : Type} (em : Emitted) (l : list (Item * Z)) (rs : list Z) (d m : Z) (n : Names).

Lemma bind_op_items o k p delta (f : nat -> CM A) : 0 <= d <= m -> 0 <= d + delta ->
  (emit_op o k p delta ≫= f) (mkImpl (push_items em l rs d m) n) =
    f (here_ em + length l)%nat (mkImpl (push_items em (l ++ [known (op o k p)]) rs (d + delta) (Z.max m (d + delta))) n).
Proof.
  intros Hd Hp. rewrite bind_op, here_items, app_items, items_items. simpl. rewrite app_nil_r.
  do 2 f_equal. apply items_eq; [done|done|lia|lia].
Qed.

Lemma bind_raw_items o p delta (f : nat -> CM A) : 0 <= d <= m -> 0 <= d + delta ->
  (emit_raw (byte_of o) p delta ≫= f) (mkImpl (push_items em l rs d m) n) =
    f (here_ em + length l)%nat (mkImpl (push_items em (l ++ [known (op o 0 p)]) rs (d + delta) (Z.max m (d + delta))) n).
Proof. intros Hd Hp. rewrite <- (bind_op_items o 0 p delta f Hd Hp). unfold emit_op. by rewrite encode_byte. Qed.

Lemma bind_code_items code (p : Z) (f : nat -> CM A) : 0 <= d <= m ->
  (emit_raw code p 0 ≫= f) (mkImpl (push_items em l rs d m) n) =
    f (here_ em + length l)%nat (mkImpl (push_items em (l ++ [known (code, p)]) rs d m) n).
Proof.
  intros Hd. rewrite bind_raw, here_items, app_items, items_items. simpl. rewrite app_nil_r.
  do 2 f_equal. apply items_eq; [done|done|lia|lia].
Qed.

Lemma bind_jump_items o k p (f : nat -> CM A) : 0 <= d <= m -> o = JUMP \/ o = JUMP_IF_FALSE /\ 0 < d ->
  (emit_jump o k p ≫= f) (mkImpl (push_items em l rs d m) n) =
    f (here_ em + length l)%nat
      (mkImpl (push_items em (l ++ [known (op o k p)]) rs (if decide (o = JUMP) then d else d - 1)
                 (Z.max m (if decide (o = JUMP) then d else d - 1))) n).
Proof.
  intros Hd Ho. unfold emit_jump. destruct Ho as [-> | [-> Hpos]]; simpl; rewrite bind_op_items by lia.
  - by rewrite Z.add_0_r.
  - done.
Qed.

Lemma bind_value_items c r (f : unit -> CM A) : 0 <= d <= m -> compiles c r -> ok em ->
  (c ≫= f) (mkImpl (push_items em l rs d m) n) =
    let '(t, n') := r n in
    f tt (mkImpl (push_items em (l ++ (known <$> gen (here_ em + length l) t)) rs (d + 1) (Z.max m (d + need t))) n').
Proof.
  intros Hd C O. rewrite (bind_compiles _ _ _ _ _ C) by by apply ok_items.
  destruct (r n) as [t n']. rewrite here_items, app_items, items_items, app_nil_r. done.
Qed.

Lemma bind_tree_items c r il (f : unit -> CM A) : 0 <= d <= m -> emits c r il -> ok em -> d = 0 -> in_loop em = il ->
  (c ≫= f) (mkImpl (push_items em l rs d m) n) =
    let '(t, n') := r n in
    f tt (mkImpl (push_items em (l ++ gen_s (here_ em + length l) t) (rs ++ ranges_of (here_ em + length l) t) 0
                    (Z.max m (sneed t))) n').
Proof.
  intros Hd C O E L. rewrite (bind_emits _ _ _ _ _ _ C); [|by apply ok_items|done|by rewrite in_loop_items].
  destruct (r n) as [t n']. unfold push_tree. by rewrite here_items, items_items.
Qed.

Lemma bind_here_items (f : nat -> CM A) :
  (here ≫= f) (mkImpl (push_items em l rs d m) n) = f (here_ em + length l)%nat (mkImpl (push_items em l rs d m) n).
Proof. by rewrite bind_here, here_items. Qed.

Lemma bind_depth_items (f : Z -> CM A) :
  (stack_depth ≫= f) (mkImpl (push_items em l rs d m) n) = f d (mkImpl (push_items em l rs d m) n).
Proof. done. Qed.

Lemma bind_set_depth_items d' (f : unit -> CM A) :
  (set_stack_depth d' ≫= f) (mkImpl (push_items em l rs d m) n) = f tt (mkImpl (push_items em l rs d' m) n).
Proof. done. Qed.
End Relative.

(** Normalise the indexes of jumps and the items around them. *)
Ltac items_norm :=
  repeat (progress (rewrite ?length_app, ?length_gen_s, ?length_gen, ?length_fmap, <- ?app_assoc, ?Nat.add_assoc, ?Nat.add_0_r;
    cbn [length Datatypes.app])).

Lemma compile_if_spec (p : Z) c (a : CM unit) ra (b : CM unit) rb rc il :
  compiles c rc -> emits a ra il -> emits b rb il ->
  emits (c ≫= fun _ => else_jump ← emit_jump JUMP_IF_FALSE 0 p; saved_depth ← stack_depth; _ ← a;
         end_jump ← emit_jump JUMP 0 p; else_target ← here; _ ← patch_jump else_jump else_target;
         _ ← set_stack_depth saved_depth; _ ← b; end_target ← here; patch_jump end_jump end_target)
    (t ← rc; x ← ra; y ← rb; mret (SIf p t x y)) il.
Proof.
  intros C Ca Cb em n0 O E L. rewrite (items_start em O E) at 1.
  rewrite (bind_value_items _ _ _ _ _ _ c rc), nbind_run by (done || lia). destruct (rc n0) as [t n1]. pose proof (need_pos t).
  rewrite bind_jump_items, bind_depth_items, nbind_run by (try right; try split; done || lia). simpl.
  rewrite (bind_tree_items _ _ _ _ _ _ a ra il) by (done || lia). destruct (ra n1) as [x n2]. pose proof (sneed_pos x).
  rewrite bind_jump_items, bind_here_items, nbind_run by (auto with lia). simpl. items_norm.
  erewrite (bind_patch_item _ _ em _ (known <$> gen (here_ em) t) JUMP_IF_FALSE 0 p);
    [|reflexivity|by items_norm].
  rewrite bind_set_depth_items.
  rewrite (bind_tree_items _ _ _ _ _ _ b rb il) by (done || lia). destruct (rb n2) as [y n3]. pose proof (sneed_pos y).
  rewrite bind_here_items. items_norm.
  erewrite (patch_item _ _ em _ ((known <$> gen (here_ em) t) ++ _ :: gen_s (here_ em + tlen t + 1) x) JUMP 0 p);
    [|rewrite <- (app_assoc (known <$> gen (here_ em) t)); reflexivity|items_norm; simpl; items_norm; lia].
  unfold mret, NM_ret, push_tree. do 2 f_equal. apply items_eq; [|simpl; list_eq|done|simpl; lia].
  simpl. rewrite fmap_app. items_norm. list_eq.
Qed.

Lemma bind_scope {A} (f : unit -> CM A) (g : NM unit) em n : (on_names g ≫= f) (mkImpl em n) = f tt (mkImpl em (snd (g n))).
Proof. rewrite bind_names. by destruct (g n) as [[] ?]. Qed.

Lemma nbind_scope {A} (f : unit -> NM A) (g : NM unit) n : (g ≫= f) n = f tt (snd (g n)).
Proof. rewrite nbind_run. by destruct (g n) as [[] ?]. Qed.

Lemma compile_try_spec (p : Z) x (t : CM unit) rt (c : CM unit) rc il : emits t rt il -> emits c rc il ->
  emits (try_begin ← here; _ ← t; jump_over ← emit_jump JUMP 0 p; catch_begin ← here; _ ← push_scope;
         catch_var ← declare_var x; _ ← emit_op INTO_CATCH catch_var p 0; _ ← set_stack_depth 0; _ ← c; _ ← pop_scope;
         catch_end ← here; _ ← patch_jump jump_over catch_end; add_exception_range try_begin catch_begin catch_end)
    (t ← rt; _ ← push_scope_in; i ← declare_in x; c ← rc; _ ← pop_scope_in; mret (STry p i t c)) il.
Proof.
  intros Ct Cc em n0 O E L. rewrite (items_start em O E) at 1.
  rewrite bind_here_items, (bind_tree_items _ _ _ _ _ _ t rt il), nbind_run by (done || lia).
  destruct (rt n0) as [a n1]. pose proof (sneed_pos a).
  rewrite bind_jump_items, bind_here_items by (auto with lia).
  unfold push_scope, declare_var, pop_scope. rewrite bind_scope, nbind_scope, bind_names, nbind_run.
  destruct (declare_in x (snd (push_scope_in n1))) as [i n2].
  rewrite bind_op_items, bind_set_depth_items, nbind_run by (simpl; lia).
  rewrite (bind_tree_items _ _ _ _ _ _ c rc il) by (done || (simpl; lia)). destruct (rc n2) as [b n3].
  rewrite bind_scope, nbind_scope, bind_here_items. simpl. items_norm.
  erewrite (bind_patch_item _ _ em _ (gen_s (here_ em) a) JUMP 0 p);
    [|reflexivity|items_norm; lia].
  unfold mret, NM_ret, push_tree, add_exception_range, modify_emitted, on_emitted. simpl. do 2 f_equal.
  unfold push_items. simpl. rewrite <- !(assoc_L (++)). list_eq.
Qed.

(** Entering a loop, its body, leaving it. *)
Lemma bind_loop {A} start c r (f : LoopContext -> CM A) em n : emits c r true -> ok em -> stack_depth_ em = 0 ->
  (with_loops (cons (mkLoop start [] [])) ≫= fun _ => c ≫= fun _ => pop_loop ≫= f) (mkImpl em n) =
    let '(t, n') := r n in
    let items := gen_s (here_ em) t in
    f (mkLoop start (holes true (here_ em) items) (holes false (here_ em) items))
      (mkImpl (push_items em (known <$> (fill 0 0 <$> items)) (ranges_of (here_ em) t) 0 (sneed t)) n').
Proof.
  intros C O E.
  set (em' := mkEmitted (em_codes em) (em_positions em) (em_exception_table em) (mkLoop start [] [] :: loops_ em)
    (stack_depth_ em) (max_stack_ em)).
  rewrite (bind_result (with_loops _) _ (mkImpl em n) tt (mkImpl em' n) eq_refl).
  rewrite (bind_emits c r true) by done. destruct (r n) as [t n']. cbv zeta.
  rewrite (bind_result pop_loop _ _
    (mkLoop start (holes true (here_ em) (gen_s (here_ em) t)) (holes false (here_ em) (gen_s (here_ em) t)))
    (mkImpl (push_items em (known <$> (fill 0 0 <$> gen_s (here_ em) t)) (ranges_of (here_ em) t) 0 (sneed t)) n')); [done|].
  unfold push_tree, push_items. rewrite fill_known, snd_known, note_known, snd_fill. done.
Qed.

Lemma compile_foreach_spec (p : Z) key value c rc (body : CM unit) rb il : compiles c rc -> emits body rb true ->
  emits (c ≫= fun _ => iter_idx ← reserve_temp_var;
      _ ← emit_op ITERATE_INTO iter_idx p (-1);
      _ ← push_scope;
      key_idx ← declare_var key;
      value_idx ← declare_var value;
      loop_start ← here;
      _ ← emit_op ITERATE_NEXT iter_idx p 1;
      exit_jump ← emit_jump JUMP_IF_FALSE 0 p;
      _ ← emit_raw (iterator_code ITERATE_KEY key_idx iter_idx) p 0;
      _ ← emit_raw (iterator_code ITERATE_VALUE value_idx iter_idx) p 0;
      _ ← with_loops (cons (mkLoop loop_start [] []));
      _ ← body;
      finished ← pop_loop;
      _ ← emit_jump JUMP loop_start p;
      loop_end ← here;
      _ ← patch_jump exit_jump loop_end;
      _ ← for_each (fun jump_index => patch_jump jump_index loop_end) (break_jumps finished);
      _ ← for_each (fun jump_index => patch_jump jump_index (continue_target finished)) (continue_jumps finished);
      pop_scope)
    (coll ← rc; iter ← reserve_temp_in; _ ← push_scope_in; k ← declare_in key; v ← declare_in value;
     body ← rb; _ ← pop_scope_in; mret (SForeach p iter k v coll body)) il.
Proof.
  intros C Cb em n0 O E L. rewrite (items_start em O E) at 1.
  rewrite (bind_value_items _ _ _ _ _ _ c rc), nbind_run by (done || lia). destruct (rc n0) as [t n1]. pose proof (need_pos t).
  unfold reserve_temp_var, push_scope, declare_var. rewrite bind_names, nbind_run.
  destruct (reserve_temp_in n1) as [iter n2].
  rewrite bind_op_items, bind_scope, nbind_scope, bind_names, nbind_run by lia.
  destruct (declare_in key (snd (push_scope_in n2))) as [k n3]. rewrite bind_names, nbind_run.
  destruct (declare_in value n3) as [v n4].
  rewrite bind_here_items, bind_op_items, bind_jump_items, !bind_code_items by (try right; try split; done || (simpl; lia)).
  rewrite (bind_loop _ body rb), nbind_run; [|done|apply ok_items; [done|simpl; lia]|done].
  destruct (rb n4) as [b n5]. pose proof (sneed_pos b). simpl.
  rewrite !here_items, items_items. items_norm.
  rewrite bind_jump_items, bind_here_items by (try (by left); simpl; lia). items_norm.
  erewrite (bind_patch_item _ _ em _ ((known <$> gen (here_ em) t) ++ _ :: [_]) JUMP_IF_FALSE 0 p);
    [|rewrite <- (app_assoc (known <$> gen (here_ em) t)); reflexivity|items_norm; simpl; lia].
  set (pre := (known <$> gen (here_ em) t) ++ [known (op ITERATE_INTO iter p); known (op ITERATE_NEXT iter p);
    known (op JUMP_IF_FALSE (here_ em + tlen t + S (S (S (S (S (slen b))))) + 1) p);
    known (iterator_code ITERATE_KEY k iter, p); known (iterator_code ITERATE_VALUE v iter, p)]).
  set (items := gen_s _ b).
  erewrite (bind_patch_holes true _ 0 _ em _ pre items);
    [|unfold pre; rewrite <- !app_assoc; reflexivity|unfold pre; items_norm; simpl; lia].
  erewrite (bind_patch_holes false _ _ _ em _ pre items); [|reflexivity|unfold pre; items_norm; simpl; lia].
  unfold pop_scope, on_names, mret, NM_ret, push_tree, pre, items. simpl. do 2 f_equal. apply items_eq; [|list_eq|done|simpl; lia].
  simpl. rewrite !fmap_app, !fmap_cons, fmap_app. items_norm.
  replace (here_ em + tlen t + S (S (S (S (S (slen b))))) + 1)%nat with (here_ em + tlen t + 1 + 4 + slen b + 1)%nat by lia.
  by replace (here_ em + tlen t + 1 + 1 + 1 + 1 + 1)%nat with (here_ em + tlen t + 1 + 4)%nat by lia.
Qed.

Lemma app_depth em l d m m' : ok em -> stack_depth_ em = 1 -> m <= 1 -> m' <= 1 -> app em l d m = app em l d m'.
Proof. unfold ok, app. intros ? ? ? ?. f_equal. lia. Qed.

(** The instructions that end a statement with the stack empty. *)
Lemma end_return_spec (p : Z) em n : ok em -> stack_depth_ em = 1 ->
  emit_end_return p (mkImpl em n) = (tt, mkImpl (app em [op END_RETURN 0 p] 0 1) n).
Proof.
  intros O E. unfold emit_end_return. rewrite bind_raw, raw_op, E.
  by rewrite (app_depth em [op END_RETURN 0 p] 0 1 (Z.max 0 (1 + 0)) O E) by lia.
Qed.

Lemma pop_spec (o : Opcode) (k : nat) (p : Z) em n : ok em -> stack_depth_ em = 1 ->
  (emit_op o k p (-1) ≫= fun _ => mret tt) (mkImpl em n) = (tt, mkImpl (app em [op o k p] 0 1) n).
Proof.
  intros O E. rewrite bind_op, E. unfold mret, CM_ret.
  by rewrite (app_depth em [op o k p] 0 1 (Z.max 0 (1 + -1)) O E) by lia.
Qed.

Lemma pop_raw_spec (o : Opcode) (p : Z) (last : CM unit) em n : ok em -> stack_depth_ em = 1 ->
  last = mret tt \/ last = set_stack_depth 0 ->
  (emit_raw (byte_of o) p (-1) ≫= fun _ => last) (mkImpl em n) = (tt, mkImpl (app em [op o 0 p] 0 1) n).
Proof.
  intros O E L. rewrite bind_raw, raw_op, E, (app_depth em [op o 0 p] 0 1 (Z.max 0 (1 + -1)) O E) by lia.
  by destruct L as [-> | ->].
Qed.

Lemma compile_statement_spec s : forall il, emits (compile_statement s) (resolve_statement il s) il.
Proof.
  induction s using Statement_ind'; intros il;
    cbn [compile_statement resolve_statement statement_node]; set (p := start_pos n).
  - apply emits_block. eapply Forall_impl; [exact H|]. auto.
  - eapply (emits_value _ _ _ POP 0 p); [apply compile_expression_spec|done..|].
    intros. apply pop_raw_spec; auto.
  - intros em n0 O E L. unfold declare_var. rewrite bind_names, nbind_run. destruct (declare_in x n0) as [i n1].
    eapply (emits_value _ _ il STORE_VAR i p); [apply compile_optional_spec|done..| |done|done|done].
    intros. by apply pop_spec.
  - eapply (emits_value _ _ _ END_RETURN 0 p); [apply compile_optional_spec|done..|].
    intros. by apply end_return_spec.
  - eapply (emits_value _ _ _ THROW_EXP 0 p); [apply compile_expression_spec|done..|].
    intros. apply pop_raw_spec; auto.
  - apply compile_if_spec; [apply compile_expression_spec|apply IHs|].
    destruct b as [b|]; [apply H|]. intros em n0 O E _. unfold mret, CM_ret, NM_ret. by rewrite push_skip.
  - apply compile_foreach_spec; [apply compile_expression_spec|]. apply emits_block.
    eapply Forall_impl; [exact H|]. auto.
  - apply compile_try_spec; apply emits_block; eapply Forall_impl; eauto; auto.
  - eapply (emits_hole HBreak p add_break (SBreak p)); [done..|]; intros a [|[ct bj cj] l]; simpl; by rewrite ?app_nil_r.
  - eapply (emits_hole HContinue p add_continue (SContinue p)); [done..|]; intros a [|[ct bj cj] l]; simpl; by rewrite ?app_nil_r.
  - intros em n0 O E _. unfold mret, CM_ret, NM_ret. by rewrite push_skip.
Qed.

(** ** The whole program *)

Lemma emits_end (p : Z) il :
  emits (emit_default_return p) (k ← undefined_in; mret (SReturn p (TConst p k CUndefined))) il.
Proof.
  intros em n O E L. unfold emit_default_return, const_undefined. rewrite bind_names, nbind_run.
  destruct (undefined_in n) as [k n1]. rewrite bind_op, end_return_spec.
  - unfold mret, NM_ret, push_tree. rewrite app_app, app_items. do 2 f_equal. apply items_eq; [done|done|done|simpl; lia].
  - apply ok_app; [done|lia].
  - simpl. lia.
Qed.

Lemma emits_then c r c' r' il : emits c r il -> emits c' r' il ->
  emits (c ≫= fun _ => c') (x ← r; y ← r'; mret (SSeq x y)) il.
Proof.
  intros C C' em n O E L. rewrite (bind_emits _ _ _ _ _ _ C O E L), nbind_run. destruct (r n) as [x n1].
  rewrite (C' _ _ (ok_tree em x O) eq_refl) by (by rewrite in_loop_tree). rewrite nbind_run. destruct (r' n1) as [y n2].
  unfold mret, NM_ret. by rewrite push_seq.
Qed.

Lemma emits_root node : emits (compile_root node) (resolve_root node) false.
Proof.
  intros em n0 O E L. unfold compile_root, resolve_root, push_scope. rewrite bind_scope, nbind_scope.
  assert (exists c r, emits c r false /\
    (match node with
     | RootBlock n statements => compile_block compile_statement statements false ≫= fun _ => emit_default_return (end_pos n)
     | RootExpression e => compile_expression e ≫= fun _ => emit_end_return (end_pos (expression_node e))
     | RootStatement s => compile_statement s ≫= fun _ => emit_default_return (end_pos (statement_node s))
     end) = c /\
    (forall n, r n = (match node with
      | RootBlock n statements =>
          s ← resolve_block (resolve_statement false) statements false;
          k ← undefined_in; mret (SSeq s (SReturn (end_pos n) (TConst (end_pos n) k CUndefined)))
      | RootExpression e => t ← resolve_expression e; mret (SReturn (end_pos (expression_node e)) t)
      | RootStatement st =>
          s ← resolve_statement false st;
          let n := statement_node st in
          k ← undefined_in; mret (SSeq s (SReturn (end_pos n) (TConst (end_pos n) k CUndefined)))
      end) n)) as (c & r & C & -> & Hr).
  { destruct node as [n l|e|s]; eexists _, _.
    - split; [apply emits_then; [apply emits_block, Forall_forall; intros s _; apply compile_statement_spec|apply emits_end]|].
      split; [done|]. intros n1. rewrite !nbind_run. destruct (resolve_block _ _ _ n1) as [x n2]. rewrite !nbind_run.
      by destruct (undefined_in n2).
    - split; [|done]. eapply (emits_value _ _ _ END_RETURN 0); [apply compile_expression_spec|done..|].
      intros. by apply end_return_spec.
    - split; [apply emits_then; [apply compile_statement_spec|apply emits_end]|].
      split; [done|]. intros n1. rewrite !nbind_run. destruct (resolve_statement _ _ n1) as [x n2]. rewrite !nbind_run.
      by destruct (undefined_in n2). }
  rewrite (bind_emits _ _ _ _ _ _ C O E L), nbind_run, <- Hr. destruct (r _) as [t n1].
  rewrite nbind_scope. done.
Qed.

(** The unit of a resolved tree: every jump of the code at its target. *)
Definition unit_of (t : STree) (n : Names) : Compiled :=
  mkCompiled (Z.max 1 (sneed t)) (next_var_index_ n) (snd <$> gen_s 0 t) (fst <$> (fill 0 0 <$> gen_s 0 t)) (nm_operands n)
    (ranges_of 0 t).

Lemma compile_shape node : compile node = unit_of (tree_of node) (snd (resolve_root node (names initial))).
Proof.
  unfold compile, tree_of. rewrite (surjective_pairing (compile_root node initial)).
  pose proof (emits_root node (emitted initial) (names initial)) as C.
  change (mkImpl (emitted initial) (names initial)) with initial in C.
  rewrite C by (done || (unfold ok; simpl; lia)). destruct (resolve_root node (names initial)) as [t n]. simpl.
  unfold compiled_of, unit_of, push_tree, push_items. simpl. pose proof (sneed_pos t). f_equal.
  destruct (Z.ltb_spec 0 (Z.max 0 (sneed t))); lia.
Qed.

(** C5. What [Compiler::compile] produces is the code of the resolved tree: the
    names resolved as [resolve_root] does, every jump of the code - the ones of
    the branches, of the loops and of [break] and [continue] - at its final
    target, the exception ranges of the [try] statements in order, and a stack
    of the depth the tree needs. *)
Theorem compile_emits_tree node :
  let n := snd (resolve_root node (names initial)) in
  compile node = unit_of (tree_of node) n.
Proof. apply compile_shape. Qed.

End Emission.
