(* ===== verification/ScriptMachine.v ===== *)
(** * One turn of the interpreter on a well-formed machine

    [mach] relates the interpreter between two instructions to the state of the
    evaluator: the operand stack, the variables behind it, the constants built
    so far and the heap.  A [turn] is an instruction, followed by the answer of
    the host when the script was suspended.  Each lemma below is what one
    instruction does to [mach]; [raised] is what an error leaves. *)
From S2P Require Import Prelude ScriptAst ScriptWords ScriptCompiler ScriptVm ScriptTree ScriptSemantics.
Import Ast Code Words Compiler Tree Semantics Vm.

Module Machine.
Section Machine.
Context `{HV : Values} `{HL : !ValuesLaws HV}.
Context (cfg : Config) (await : H -> (V + V) * H).
(** The collections so far; the host does not undo any. *)
Context (gen : nat) (Hawait : forall h, (collections h <= collections (await h).2)%nat).

Local Abbreviation S_ := (stack_size_ cfg).
Local Abbreviation C_ := (compiled_ cfg).

(** ** The host *)

(** What the host does with a suspended script: it answers, and [iterate] runs
    again. *)
Definition resume (v : InterpreterVm) : Outcome :=
  let '(r, h) := await (heap v) in
  let '(ok, v1) := apply_async_ready cfg (deliver r (set_heap h v)) in
  if ok then Next (start_loop v1) else Halt (set_state Error (in_iterate (control v1)) v1).

Definition turn (v : InterpreterVm) : Outcome :=
  match step cfg v with
  | Halt v' => match state (control v') with Suspend => resume v' | _ => Halt v' end
  | o => o
  end.

Inductive turns : InterpreterVm -> InterpreterVm -> Prop :=
  | turns_refl v : turns v v
  | turns_step v v' v'' : turn v = Next v' -> turns v' v'' -> turns v v''.

Lemma turns_trans v v' v'' : turns v v' -> turns v' v'' -> turns v v''.
Proof. induction 1; eauto using turns. Qed.

Lemma turns_one v v' : turn v = Next v' -> turns v v'.
Proof. intros E. eapply turns_step; [exact E|constructor]. Qed.

(** ** The machine between two instructions *)

Definition calm : Pending := mkPending no_error false PNone make_undefined.
Definition idle : AsyncState := mkAsync false false RNone 0.
Definition running (c : Control) : Prop := state c = Running /\ in_iterate c = true.

Definition vm_at (p : nat) (stk junk : list V) (s : State) (a : Arguments_) (c : Control) : InterpreterVm :=
  mkVm (stk ++ junk ++ vars s) (Z.of_nat (length stk)) (Z.of_nat p) (consts s) a calm idle c (Semantics.store s).

Definition sized (s : State) : Prop :=
  length (vars s) = var_table_size C_ /\ length (consts s) = length (operands C_) /\ (gen <= count s)%nat.

(** A step that ends with as many collections as allowed ran none. *)
Lemma sized_steady s h : sized s -> (count s <= collections h)%nat -> (collections h <= gen)%nat ->
  collections h = count s /\ sized (with_store h s).
Proof. intros (H1 & H2 & H3) Hc Hg. split; [lia|]. split; [done|]. split; [done|]. unfold count in *. simpl. lia. Qed.

Lemma sized_grow s h : sized s -> (count s <= collections h)%nat -> sized (with_store h s).
Proof. intros (H1 & H2 & H3) Hc. split; [done|]. split; [done|]. unfold count in *. simpl. lia. Qed.

Definition mach (p : nat) (stk : list V) (s : State) (v : InterpreterVm) : Prop :=
  exists junk a c, v = vm_at p stk junk s a c /\ Z.of_nat (length stk) + Z.of_nat (length junk) = S_ /\ running c /\ sized s.

(** What an error leaves: the stack empty and the error kept for the handler,
    or the end of the script. *)
Definition exn_pending (e : Exn) : Pending :=
  mkPending (fst e) true (match snd e with Some _ => PThrown | None => PNone end) (default make_undefined (snd e)).

Definition exn_ok (e : Exn) : Prop := er_kind (fst e) = match snd e with Some _ => Thrown | None => Normal end.

Definition handling (target : Z) (e : Exn) (s : State) (v : InterpreterVm) : Prop :=
  exists junk a c, v = mkVm (junk ++ vars s) 0 target (consts s) a (exn_pending e) idle c (Semantics.store s) /\
    Z.of_nat (length junk) = S_ /\ running c /\ sized s /\ exn_ok e.

Definition uncaught (e : Exn) (s : State) (v : InterpreterVm) : Prop :=
  state (control v) = Error /\ out (control v) = Some (inl (fst e)) /\ heap v = Semantics.store s.

Definition raised (e : Exn) (epc : nat) (s : State) (o : Outcome) : Prop :=
  let target := search_catch (exp_ins_ cfg) (Z.of_nat epc) in
  if target <? 0 then exists v', o = Halt v' /\ uncaught e s v'
  else exists v', o = Next v' /\ handling (u64 target) e s v'.

(** ** Code *)

Definition code_at (a : nat) (l : list (Z * Z)) : Prop :=
  forall i c p, l !! i = Some (c, p) -> codes C_ !! (a + i)%nat = Some c /\ positions C_ !! (a + i)%nat = Some p.

Lemma code_at_app a l1 l2 : code_at a (l1 ++ l2) -> code_at a l1 /\ code_at (a + length l1) l2.
Proof.
  intros Hc. split; intros i c p Hi.
  - apply Hc. by apply lookup_app_l_Some.
  - rewrite <- Nat.add_assoc. apply Hc. rewrite lookup_app_r by lia. by rewrite Nat.add_comm, Nat.add_sub.
Qed.

Lemma code_at_cons a c p l : code_at a ((c, p) :: l) ->
  codes C_ !! a = Some c /\ positions C_ !! a = Some p /\ code_at (a + 1) l.
Proof.
  intros Hc. destruct (Hc 0%nat c p eq_refl) as [H1 H2]. rewrite Nat.add_0_r in *. split; [done|split; [done|]].
  apply (code_at_app a [(c, p)] l Hc).
Qed.

(** ** Fetching *)

(** The sizes the 32-bit codes have room for. *)
Context (HS : 0 <= S_ < 2 ^ 62) (Hcodes : Z.of_nat (length (codes C_)) < 2 ^ 23)
  (Hops : Z.of_nat (length (operands C_)) <= 2 ^ 15) (Hvars : Z.of_nat (var_table_size C_) <= 2 ^ 11).

Lemma u64_small x : 0 <= x < 2 ^ 64 -> u64 x = x.
Proof. intros. by apply wrap_small. Qed.

Definition outcome_of (o : option Outcome) : Outcome := match o with Some o => o | None => Ub end.

Lemma step_idle p v instr : pc v = Z.of_nat p -> async v = idle -> codes C_ !! p = Some instr ->
  step cfg v = outcome_of (execute cfg instr (set_pc (Z.of_nat (p + 1)) v)).
Proof.
  intros Epc Ea E. unfold step, apply_async_ready. rewrite Ea, Epc, Nat2Z.id, E. simpl. rewrite Epc, Nat2Z.id, E.
  by replace (Z.of_nat p + 1) with (Z.of_nat (p + 1)) by lia.
Qed.

Lemma step_fetch p stk junk s a c instr : codes C_ !! p = Some instr ->
  step cfg (vm_at p stk junk s a c) = outcome_of (execute cfg instr (vm_at (p + 1) stk junk s a c)).
Proof. by apply step_idle. Qed.

(** An instruction that goes on. *)
Lemma turn_next p stk junk s a c instr v' : codes C_ !! p = Some instr ->
  execute cfg instr (vm_at (p + 1) stk junk s a c) = Some (Next v') -> turn (vm_at p stk junk s a c) = Next v'.
Proof. intros E Ex. unfold turn. by rewrite (step_fetch _ _ _ _ _ _ _ E), Ex. Qed.

(** ** Slots *)

Lemma slot_at i (l : list V) v : slots v = l -> 0 <= i -> slot i v = l !! Z.to_nat i.
Proof. intros <- Hi. unfold slot. by rewrite (proj2 (Z.leb_le 0 i) Hi). Qed.

Lemma slot_stack (l1 l2 : list V) (x : V) v : slots v = l1 ++ x :: l2 -> slot (Z.of_nat (length l1)) v = Some x.
Proof. intros E. rewrite (slot_at _ _ _ E) by lia. rewrite Nat2Z.id. by apply list_lookup_middle. Qed.

Lemma store_at (l1 l2 : list V) (y x : V) v : slots v = l1 ++ y :: l2 ->
  Vm.store (Z.of_nat (length l1)) x v = Some (set_slots (l1 ++ x :: l2) v).
Proof.
  intros E. unfold Vm.store. rewrite E, length_app. simpl.
  rewrite (proj2 (Z.leb_le 0 _)), (proj2 (Z.ltb_lt _ _)) by lia. simpl. rewrite Nat2Z.id.
  do 2 f_equal. by rewrite insert_app_r_alt, Nat.sub_diag by lia.
Qed.

(** ** Instructions that push *)

Lemma push_at p stk y junk s a c x : Z.of_nat (length stk) < 2 ^ 62 ->
  push x (vm_at p stk (y :: junk) s a c) = Some (vm_at p (stk ++ [x]) junk s a c).
Proof.
  intros Hl. unfold push. rewrite (store_at stk (junk ++ vars s) y) by done. unfold vm_at, set_slots, set_sp. simpl.
  rewrite u64_small by lia. rewrite length_app, <- (assoc_L (++)). simpl. do 2 f_equal. lia.
Qed.

Lemma room p stk s v : mach p stk s v -> Z.of_nat (length stk) < S_ ->
  exists y junk a c, v = vm_at p stk (y :: junk) s a c /\ Z.of_nat (length stk) + Z.of_nat (length (y :: junk)) = S_ /\ running c /\ sized s.
Proof.
  intros ([|y junk] & a & c & -> & Hl & Hc & Hs) Hr; simpl in Hl; [lia|].
  exists y, junk, a, c. split; [done|]. simpl. split; [lia|done].
Qed.

Lemma mach_push p stk x y junk s a c : Z.of_nat (length stk) + Z.of_nat (length (y :: junk)) = S_ -> running c -> sized s ->
  mach p (stk ++ [x]) s (vm_at p (stk ++ [x]) junk s a c).
Proof. intros Hl Hc Hs. exists junk, a, c. split; [done|]. rewrite length_app. simpl in *. split; [lia|done]. Qed.

(** An instruction [o] with operand [k] that only pushes [x]. *)
Lemma turn_push p stk s v o k pos x : code_at p [op o k pos] -> mach p stk s v -> Z.of_nat (length stk) < S_ ->
  (forall v, execute cfg (encode (byte_of o) (Z.of_nat k)) v = (v1 ← push x v; Some (Next v1))) ->
  exists v', turns v v' /\ mach (p + 1) (stk ++ [x]) s v'.
Proof.
  intros Hc M Hr Ex. apply code_at_cons in Hc as (E & _ & _). apply room in M as (y & junk & a & c & -> & Hl & Hrun & Hs); [|done].
  eexists. split; [apply turns_one; eapply turn_next; [exact E|rewrite Ex, push_at by lia; reflexivity]|].
  by eapply mach_push.
Qed.

(** ** Errors *)

Lemma located_at e epc pos : positions C_ !! epc = Some pos -> located cfg e (Z.of_nat epc) = at_position pos e.
Proof. intros E. unfold located, at_position. by rewrite Nat2Z.id, E. Qed.

Lemma raise_spec e err (p : nat) pos l ss s a c pnd :
  positions C_ !! p = Some pos -> Z.of_nat (length l) = S_ -> running c -> sized s -> exn_ok e ->
  pending_value_kind pnd = pending_value_kind (exn_pending e) -> pending_value pnd = pending_value (exn_pending e) ->
  fst e = at_position pos err ->
  raised e p s (raise cfg err (mkVm (l ++ vars s) ss (Z.of_nat (p + 1)) (consts s) a pnd idle c (Semantics.store s))).
Proof.
  intros Ep Hl Hrun Hs Hok E1 E2 Ee. unfold raised, raise. simpl.
  replace (Z.of_nat (p + 1) - 1) with (Z.of_nat p) by lia.
  unfold handle_error. rewrite (located_at _ _ _ Ep), <- Ee. unfold catch_for_exception. simpl.
  destruct (search_catch (exp_ins_ cfg) (Z.of_nat p) <? 0).
  - eexists. split; [reflexivity|]. done.
  - eexists. split; [reflexivity|]. exists l, a, c. unfold set_pc, set_sp, set_pend. simpl. by rewrite E1, E2.
Qed.

Lemma turn_raised e p s v : raised e p s (step cfg v) -> raised e p s (turn v).
Proof.
  unfold raised, turn. destruct (_ <? 0); intros (v' & -> & Hv); exists v'; (split; [|done]); [|done].
  by destruct Hv as (-> & _).
Qed.

Definition fails (e : Exn) (epc : nat) (s : State) (v : InterpreterVm) : Prop :=
  exists v1, turns v v1 /\ raised e epc s (turn v1).

Lemma fails_after v v' e epc s : turns v v' -> fails e epc s v' -> fails e epc s v.
Proof. intros T (v1 & T1 & R). exists v1. split; [by eapply turns_trans|done]. Qed.

Lemma failed_ok pos err : er_kind err = Normal -> exn_ok (failed pos err).
Proof. intros E. unfold exn_ok, failed, at_position. simpl. by destruct (_ <? 0). Qed.

Lemma thrown_ok pos x : exn_ok (thrown pos x).
Proof. done. Qed.

(** An operation that fails at [p] with an error of its own. *)
Lemma fail_here p pos stk junk s0 s a c instr err l ss a' :
  codes C_ !! p = Some instr -> positions C_ !! p = Some pos -> running c -> sized s -> er_kind err = Normal ->
  execute cfg instr (vm_at (p + 1) stk junk s0 a c) =
    Some (raise cfg err (mkVm (l ++ vars s) ss (Z.of_nat (p + 1)) (consts s) a' calm idle c (Semantics.store s))) ->
  Z.of_nat (length l) = S_ ->
  fails (failed pos err) p s (vm_at p stk junk s0 a c).
Proof.
  intros E Ep Hrun Hs En Ex Hl. eexists. split; [constructor|]. apply turn_raised.
  rewrite (step_fetch _ _ _ _ _ _ _ E), Ex. apply (raise_spec _ err p pos); try done. by apply failed_ok.
Qed.

(** An operation that throws a value. *)
Lemma throw_here p pos stk junk s0 s a c instr x l ss a' :
  codes C_ !! p = Some instr -> positions C_ !! p = Some pos -> running c -> sized s ->
  execute cfg instr (vm_at (p + 1) stk junk s0 a c) =
    Some (raise_value cfg x (mkVm (l ++ vars s) ss (Z.of_nat (p + 1)) (consts s) a' calm idle c (Semantics.store s))) ->
  Z.of_nat (length l) = S_ ->
  fails (thrown pos x) p s (vm_at p stk junk s0 a c).
Proof.
  intros E Ep Hrun Hs Ex Hl. eexists. split; [constructor|]. apply turn_raised.
  rewrite (step_fetch _ _ _ _ _ _ _ E), Ex. unfold raise_value, set_pending_value, set_pend. simpl.
  by apply (raise_spec _ make_throw_error p pos).
Qed.

(** ** Operations on the top of the stack *)

Ltac flat_lists := repeat (progress (rewrite <- ?app_assoc; simpl)).

Lemma length_join (stk junk : list V) : length (stk ++ junk) = (length stk + length junk)%nat.
Proof. apply length_app. Qed.

(** The operands of an operation that pops [length xs] values. *)
Lemma read_operands base xs rest v : slots v = base ++ xs ++ rest -> Z.of_nat (length base) + Z.of_nat (length xs) < 2 ^ 62 ->
  mapM (fun i => stack_at (u64 (Z.of_nat (length base) + Z.of_nat i)) v) (seq 0 (length xs)) = Some xs.
Proof.
  intros E Hb. apply mapM_Some. apply Forall2_same_length_lookup_2; [by rewrite length_seq|].
  intros i j y Hj Hy. apply lookup_seq in Hj as [-> Hj]. simpl. unfold stack_at.
  rewrite u64_small by lia. rewrite (slot_at _ _ _ E) by lia.
  replace (Z.to_nat (Z.of_nat (length base) + Z.of_nat i)) with (length base + i)%nat by lia.
  rewrite lookup_app_r by lia. replace (length base + i - length base)%nat with i by lia. by apply lookup_app_l_Some.
Qed.

Lemma apply_top_spec p stk x0 xs junk s a c o keep pops :
  pops = Z.of_nat (length (x0 :: xs)) -> Z.of_nat (length stk) + pops < 2 ^ 62 ->
  (forall roots, operate o (x0 :: xs) roots (Semantics.store s) = operate o (x0 :: xs) [] (Semantics.store s)) ->
  apply_top cfg o pops keep (vm_at p (stk ++ x0 :: xs) junk s a c) =
    let '(r, h) := operate o (x0 :: xs) [] (Semantics.store s) in
    Some (match r with
          | inl err =>
              raise cfg err (mkVm ((stk ++ (x0 :: xs) ++ junk) ++ vars s) (Z.of_nat (length stk) + 1) (Z.of_nat p) (consts s) a
                calm idle c h)
          | inr x => Next (vm_at p (stk ++ [if keep then x else x0]) (xs ++ junk) (with_store h s) a c)
          end).
Proof.
  intros -> Hb Hoff. unfold apply_top. cbv zeta.
  assert (sp (vm_at p (stk ++ x0 :: xs) junk s a c) = Z.of_nat (length stk) + Z.of_nat (length (x0 :: xs))) as ->
    by (simpl; rewrite length_app; simpl; lia).
  set (n := length (x0 :: xs)) in *. assert (0 < n)%nat by (unfold n; simpl; lia).
  rewrite (u64_small (_ - Z.of_nat n)), (u64_small (_ - (Z.of_nat n - 1))) by lia.
  replace (Z.of_nat (length stk) + Z.of_nat n - (Z.of_nat n - 1)) with (Z.of_nat (length stk) + 1) by lia.
  replace (Z.of_nat (length stk) + Z.of_nat n - Z.of_nat n) with (Z.of_nat (length stk)) by lia.
  rewrite Nat2Z.id. unfold n at 1.
  rewrite (read_operands stk (x0 :: xs) (junk ++ vars s)); [|simpl; by rewrite <- (assoc_L (++))|fold n; lia].
  simpl mbind. simpl heap. rewrite Hoff.
  destruct (operate o (x0 :: xs) [] (Semantics.store s)) as [[err|x] h].
  - unfold set_heap, set_sp. by flat_lists.
  - destruct keep.
    + unfold set_heap, set_sp. simpl. rewrite Z.add_simpl_r, u64_small by lia.
      rewrite (store_at stk (xs ++ junk ++ vars s) x0); [|by flat_lists].
      unfold set_slots, vm_at. flat_lists. rewrite length_app. simpl. do 3 f_equal. lia.
    + unfold set_heap, set_sp, vm_at. flat_lists. rewrite length_app. simpl. do 3 f_equal. lia.
Qed.

(** Code in [lo, hi) leaves the result of an evaluation on the stack [stk], or
    its error at one of its instructions, if no collection ran on the way. *)
Definition pushes (r : (Exn + V) * State) (lo hi : nat) (stk : list V) (v : InterpreterVm) : Prop :=
  (count r.2 <= gen)%nat ->
  match r with
  | (inr x, s') => exists v', turns v v' /\ mach hi (stk ++ [x]) s' v'
  | (inl e, s') => exists epc, (lo <= epc < hi)%nat /\ fails e epc s' v
  end.

Lemma pushes_intro r lo hi stk v : ((count r.2 <= gen)%nat -> pushes r lo hi stk v) -> pushes r lo hi stk v.
Proof. intros Hp Hg. by apply Hp. Qed.

Lemma pushes_after r lo lo' hi stk v v' : (lo <= lo')%nat -> turns v v' -> pushes r lo' hi stk v' -> pushes r lo hi stk v.
Proof.
  intros Hlo T P Hg. specialize (P Hg). revert P. destruct r as [[e|x] s']; simpl.
  - intros (epc & He & F). exists epc. split; [lia|]. by eapply fails_after.
  - intros (v1 & T1 & M). exists v1. split; [by eapply turns_trans|done].
Qed.

(** An operation that does not collect does not look at the roots. *)
Lemma operate_steady o xs s : sized s -> (collections (operate o xs [] (Semantics.store s)).2 <= gen)%nat ->
  (forall roots, operate o xs roots (Semantics.store s) = operate o xs [] (Semantics.store s)) /\
  sized (with_store (operate o xs [] (Semantics.store s)).2 s).
Proof.
  intros Hs Hg. destruct (sized_steady s _ Hs (operate_count o xs (Semantics.store s)) Hg) as [Hc Hs'].
  split; [|done]. intros roots. by apply operate_off.
Qed.

(** The value operation at [p], as the evaluator applies it. *)
Lemma turn_apply p pos stk xs s v o keep instr :
  code_at p [(instr, pos)] -> xs <> [] -> mach p (stk ++ xs) s v ->
  (forall v, execute cfg instr v = apply_top cfg o (Z.of_nat (length xs)) keep v) ->
  pushes (apply pos o keep xs s) p (p + 1) stk v.
Proof.
  intros Hc Hne (junk & a & c & -> & Hl & Hrun & Hs) Ex. apply code_at_cons in Hc as (E & Ep & _).
  specialize (Ex (vm_at (p + 1) (stk ++ xs) junk s a c)).
  destruct xs as [|x0 xs]; [done|]. rewrite length_app in Hl. unfold apply, pushes. intros Hg.
  destruct (operate_steady o (x0 :: xs) s Hs) as [Hoff Hs']; [by destruct (operate o (x0 :: xs) [] (Semantics.store s))|].
  rewrite (apply_top_spec (p + 1) stk x0 xs junk s a c o keep _ eq_refl) in Ex by (lia || done).
  clear Hg Hoff. pose proof (operate_normal o (x0 :: xs) [] (Semantics.store s)) as En.
  destruct (operate o (x0 :: xs) [] (Semantics.store s)) as [[err|x] h].
  - specialize (En err h eq_refl). exists p. split; [lia|].
    eapply (fail_here p pos _ _ _ (with_store h s)); [exact E|exact Ep|exact Hrun|exact Hs'|exact En|exact Ex|].
    rewrite !length_app. simpl in *. lia.
  - eexists. split; [apply turns_one; eapply turn_next; [exact E|exact Ex]|].
    replace (if keep then x else default x (head (x0 :: xs))) with (if keep then x else x0) by (by destruct keep).
    exists (xs ++ junk), a, c. split; [done|]. rewrite !length_app. simpl in *. split; [lia|done].
Qed.

(** Allocations: the collection before them does nothing. *)
Lemma alloc_steady pos al oom s : sized s -> (count (alloc pos al oom s).2 <= gen)%nat ->
  (forall roots, maybe_collect roots (Semantics.store s) = Semantics.store s) /\ sized (alloc pos al oom s).2.
Proof.
  intros Hs Hg. pose proof (maybe_collect_count (Semantics.store s)) as H1.
  pose proof (allocate_count al (maybe_collect [] (Semantics.store s))) as H2. unfold alloc in *.
  destruct (allocate al (maybe_collect [] (Semantics.store s))) as [r h]. unfold count in Hg. simpl in Hg, H2.
  destruct (sized_steady s h Hs) as [Hc Hs']; [unfold count; lia|done|]. split; [|exact Hs'].
  intros roots. apply maybe_collect_off. unfold count in Hc. lia.
Qed.

Lemma turn_new p pos b stk s v : code_at p [op (if b : bool then NEW_ARRAY else NEW_OBJECT) 0 pos] ->
  mach p stk s v -> Z.of_nat (length stk) < S_ ->
  pushes (alloc pos (if b : bool then Make_array else Make_object) pos s) p (p + 1) stk v.
Proof.
  intros Hc M Hr. apply code_at_cons in Hc as (E & Ep & _). apply room in M as (y & junk & a & c & -> & Hl & Hrun & Hs); [|done].
  set (al := if b then Make_array else Make_object).
  assert (execute cfg (encode (byte_of (if b then NEW_ARRAY else NEW_OBJECT)) (Z.of_nat 0)) (vm_at (p + 1) stk (y :: junk) s a c)
    = alloc_push cfg al (vm_at (p + 1) stk (y :: junk) s a c)) as Ex.
  { unfold execute. rewrite op_byte_encode, opcode_of_byte. by destruct b. }
  intros Hg. destruct (alloc_steady pos al pos s Hs Hg) as [Hoff Hs']. clear Hg.
  unfold alloc_push, collect in Ex. simpl heap in Ex. rewrite Hoff in Ex. unfold alloc in Hs' |- *. rewrite (Hoff []) in Hs' |- *.
  simpl in Ex. destruct (allocate al (Semantics.store s)) as [[x|] h]; simpl in Ex, Hs'.
  - eexists. split; [apply turns_one; eapply turn_next; [exact E|]|].
    + rewrite Ex. unfold set_heap. simpl.
      change (mkVm _ _ _ _ _ _ _ _ h) with (vm_at (p + 1) stk (y :: junk) (with_store h s) a c). by rewrite push_at by lia.
    + by eapply (mach_push _ _ _ y).
  - exists p. split; [lia|].
    eapply (fail_here p pos _ _ _ (with_store h s) a c _ _ (stk ++ y :: junk)); [exact E|exact Ep|done|done|done| |by rewrite length_app, Nat2Z.inj_add].
    rewrite Ex. replace (Z.to_nat (Z.of_nat (p + 1) - 1)) with p by lia. rewrite Ep. simpl. by flat_lists.
Qed.

Ltac decode := unfold execute; rewrite ?op_byte_encode, ?opcode_of_byte, ?operand_encode by (done || apply byte_of_range || lia).

Lemma operand_bound k x : operands C_ !! k = Some x -> 0 <= Z.of_nat k < 2 ^ 15.
Proof. intros E. apply lookup_lt_Some in E. lia. Qed.

(** [const_value] and its counterpart in the evaluator. *)
Definition built (pos : Z) (cv : ConstValue) (s : State) : (Exn + V) * State :=
  match cv with
  | CUndefined => (inr make_undefined, s)
  | CNull => (inr make_null, s)
  | CBoolean b => (inr (make_boolean b), s)
  | CInteger i => (inr (make_integer i), s)
  | CFloat f => (inr (make_float f), s)
  | CString t => alloc pos (Make_string t) (-1) s
  | CBinary b => alloc pos (Make_binary b) (-1) s
  end.

Lemma const_value_spec pos cv p stk junk s a c : sized s -> (count (built pos cv s).2 <= gen)%nat -> exists r h,
  const_value cfg cv (vm_at p stk junk s a c) = (r, vm_at p stk junk (with_store h s) a c) /\
  built pos cv s = (match r with inr x => inr x | inl err => inl (failed pos err) end, with_store h s) /\
  match r with inl err => er_kind err = Normal | inr _ => True end /\ sized (with_store h s).
Proof.
  intros Hs. assert (forall al, (count (alloc pos al (-1) s).2 <= gen)%nat -> exists r h,
    (let v := collect cfg (vm_at p stk junk s a c) in
     let '(r, h) := allocate al (heap v) in
     (match r with Some x => inr x | None => inl (make_oom (-1)) end, set_heap h v)) = (r, vm_at p stk junk (with_store h s) a c) /\
    alloc pos al (-1) s = (match r with inr x => inr x | inl err => inl (failed pos err) end, with_store h s) /\
    match r with inl err => er_kind err = Normal | inr _ => True end /\ sized (with_store h s)) as Hal.
  { intros al Hg. destruct (alloc_steady pos al (-1) s Hs Hg) as [Hoff Hs']. unfold collect, alloc in *. simpl heap.
    rewrite !Hoff in *. simpl. destruct (allocate al (Semantics.store s)) as [[x|] h]; by eexists _, h. }
  assert (with_store (Semantics.store s) s = s) as Es by by destruct s.
  destruct cv; try apply (Hal (Make_string _)); try apply (Hal (Make_binary _));
    intros _; eexists (inr _), (Semantics.store s); rewrite Es; done.
Qed.

(** A constant: built at its first use, with the result kept in the cache. *)
Lemma turn_const p pos k cv stk s v : code_at p [op LOAD_CONST k pos] -> operands C_ !! k = Some (OpConst cv) ->
  mach p stk s v -> Z.of_nat (length stk) < S_ -> pushes (eval_const pos k cv s) p (p + 1) stk v.
Proof.
  intros Hc Ek M Hr. pose proof (operand_bound _ _ Ek) as Hk.
  apply code_at_cons in Hc as (E & Ep & _). apply room in M as (y & junk & a & c & -> & Hl & Hrun & Hs); [|done].
  assert (execute cfg (encode (byte_of LOAD_CONST) (Z.of_nat k)) (vm_at (p + 1) stk (y :: junk) s a c) =
    ('(r, v1) ← load_const cfg (Z.of_nat k) (vm_at (p + 1) stk (y :: junk) s a c);
     match r with inl error => Some (raise cfg error v1) | inr x => v2 ← push x v1; Some (Next v2) end)) as Ex by by decode.
  unfold load_const in Ex. rewrite Nat2Z.id in Ex. simpl const_cache in Ex. unfold eval_const, pushes.
  pose proof Hs as (Hs1 & Hs2 & _). destruct (lookup_lt_is_Some_2 (consts s) k) as [o Eo]; [rewrite Hs2; by apply lookup_lt_Some in Ek|].
  rewrite Eo in Ex |- *. destruct o as [x|]; simpl in Ex.
  { intros _. rewrite push_at in Ex by lia. eexists. split; [apply turns_one; eapply turn_next; [exact E|exact Ex]|]. by eapply (mach_push _ _ _ y). }
  rewrite Ek in Ex. fold (built pos cv s). intros Hg.
  destruct (const_value_spec pos cv (p + 1) stk (y :: junk) s a c Hs) as (r & h & E1 & E2 & Hr' & Hs').
  { revert Hg. destruct (built pos cv s) as [[e|x] s1]; done. }
  clear Hg. rewrite E1 in Ex. rewrite E2. clear E2. destruct r as [err|x]; simpl in Ex.
  - exists p. split; [lia|].
    eapply (fail_here p pos _ _ _ (with_store h s) a c _ _ (stk ++ y :: junk)); [exact E|exact Ep|done|done|done| |by rewrite length_app, Nat2Z.inj_add].
    etransitivity; [exact Ex|]. unfold vm_at. simpl. by flat_lists.
  - change (set_cache _ _) with (vm_at (p + 1) stk (y :: junk) (mkState (vars s) (<[k := Some x]> (consts s)) h) a c) in Ex.
    rewrite push_at in Ex by lia. eexists. split; [apply turns_one; eapply turn_next; [exact E|exact Ex]|].
    eapply (mach_push _ _ _ y); [done..|]. destruct Hs' as (H1 & H2 & H3). split; [done|]. simpl. by rewrite length_insert.
Qed.

(** ** Variables *)

Lemma read_var p stk junk s a c i : Z.of_nat (length stk) + Z.of_nat (length junk) = S_ -> (i < length (vars s))%nat ->
  var_at cfg (Z.of_nat i) (vm_at p stk junk s a c) = Some (var i s).
Proof.
  intros Hl Hi. unfold var_at. rewrite (slot_at _ (stk ++ junk ++ vars s)) by (done || lia).
  replace (Z.to_nat (S_ + Z.of_nat i)) with (length stk + (length junk + i))%nat by lia.
  rewrite lookup_app_r, lookup_app_r by lia.
  replace (length stk + (length junk + i) - length stk - length junk)%nat with i by lia.
  unfold var. destruct (lookup_lt_is_Some_2 (vars s) i Hi) as [x ->]. done.
Qed.

Lemma write_var p stk junk s a c i x : Z.of_nat (length stk) + Z.of_nat (length junk) = S_ -> (i < length (vars s))%nat ->
  store_var cfg (Z.of_nat i) x (vm_at p stk junk s a c) = Some (vm_at p stk junk (set_var i x s) a c).
Proof.
  intros Hl Hi. unfold store_var, Vm.store. simpl. rewrite !length_app.
  rewrite (proj2 (Z.leb_le 0 _)), (proj2 (Z.ltb_lt _ _)) by lia. simpl.
  replace (Z.to_nat (S_ + Z.of_nat i)) with (length stk + (length junk + i))%nat by lia.
  unfold set_slots. simpl. do 2 f_equal. by rewrite insert_app_r, insert_app_r.
Qed.

Lemma sized_var i x s : sized s -> sized (set_var i x s).
Proof. intros (H1 & H2). split; [simpl; by rewrite length_insert|done]. Qed.

Definition fits_var (i : nat) : Prop := (i < var_table_size C_)%nat.

Lemma turn_root p pos stk s v : code_at p [op LOAD_ROOT 0 pos] -> mach p stk s v -> Z.of_nat (length stk) < S_ ->
  pushes (inr (root_ cfg), s) p (p + 1) stk v.
Proof. intros Hc M Hr _. apply (turn_push p stk s v LOAD_ROOT 0 pos); [done..|]. intros v1. by decode. Qed.

Lemma turn_var p pos i stk s v : code_at p [op LOAD_VAR i pos] -> fits_var i -> mach p stk s v -> Z.of_nat (length stk) < S_ ->
  pushes (inr (var i s), s) p (p + 1) stk v.
Proof.
  intros Hc Hi M Hr. unfold fits_var in Hi. apply code_at_cons in Hc as (E & _ & _).
  apply room in M as (y & junk & a & c & -> & Hl & Hrun & Hs); [|done].
  eexists. split; [apply turns_one; eapply turn_next; [exact E|]|by eapply (mach_push _ _ _ y)].
  decode. rewrite read_var by (done || destruct Hs; lia). simpl mbind. by rewrite push_at by lia.
Qed.

(** ** Instructions on the stack *)

Lemma read_top p stk x junk s a c : slot (Z.of_nat (length stk)) (vm_at p (stk ++ [x]) junk s a c) = Some x.
Proof. apply (slot_stack stk (junk ++ vars s)). simpl. by rewrite <- (assoc_L (++)). Qed.

Lemma sp_top p stk x junk s a c : sp (vm_at p (stk ++ [x]) junk s a c) = Z.of_nat (length stk) + 1.
Proof. simpl. rewrite length_app. simpl. lia. Qed.

(** The value [x] at the top is taken. *)
Lemma taken p stk x junk s a c : Z.of_nat (length (stk ++ [x])) + Z.of_nat (length junk) = S_ ->
  set_sp (u64 (sp (vm_at p (stk ++ [x]) junk s a c) - 1)) (vm_at p (stk ++ [x]) junk s a c) = vm_at p stk (x :: junk) s a c.
Proof.
  intros Hl. rewrite length_app in Hl. simpl in Hl. rewrite sp_top, Z.add_simpl_r, u64_small by lia.
  unfold set_sp, vm_at. simpl. by rewrite <- (assoc_L (++)).
Qed.

Lemma read_taken p stk x junk s a c : stack_at (Z.of_nat (length stk)) (vm_at p stk (x :: junk) s a c) = Some x.
Proof. by apply (slot_stack stk (junk ++ vars s)). Qed.

Lemma mach_taken p stk x junk s a c : Z.of_nat (length (stk ++ [x])) + Z.of_nat (length junk) = S_ -> running c -> sized s ->
  mach p stk s (vm_at p stk (x :: junk) s a c).
Proof. intros Hl Hrun Hs. exists (x :: junk), a, c. rewrite length_app in Hl. simpl in *. split; [done|]. split; [lia|done]. Qed.

Lemma turn_dump p pos x stk s v : code_at p [op DUMP 0 pos] -> mach p (stk ++ [x]) s v -> Z.of_nat (length stk) + 1 < S_ ->
  exists v', turns v v' /\ mach (p + 1) (stk ++ [x; x]) s v'.
Proof.
  intros Hc M Hr. apply code_at_cons in Hc as (E & _ & _).
  apply room in M as (y & junk & a & c & -> & Hl & Hrun & Hs); [|rewrite length_app; simpl; lia].
  exists (vm_at (p + 1) ((stk ++ [x]) ++ [x]) junk s a c). split; [apply turns_one; eapply turn_next; [exact E|]|].
  - decode. rewrite sp_top, Z.add_simpl_r, u64_small by lia. unfold stack_at. rewrite read_top. simpl mbind.
    by rewrite push_at by (rewrite length_app; simpl; lia).
  - rewrite <- (assoc_L (++)). eapply (mach_push (p + 1) (stk ++ [x]) x y) in Hrun; [|exact Hl|exact Hs].
    by rewrite <- (assoc_L (++)) in Hrun.
Qed.

Lemma turn_pop p pos x stk s v : code_at p [op POP 0 pos] -> mach p (stk ++ [x]) s v ->
  exists v', turns v v' /\ mach (p + 1) stk s v'.
Proof.
  intros Hc (junk & a & c & -> & Hl & Hrun & Hs). apply code_at_cons in Hc as (E & _ & _).
  eexists. split; [apply turns_one; eapply turn_next; [exact E|]|by eapply mach_taken].
  decode. rewrite <- (taken (p + 1) stk x junk s a c Hl). rewrite sp_top, (proj2 (Z.ltb_lt 0 _)) by lia.
  rewrite u64_small by (rewrite length_app in Hl; simpl in Hl; lia). done.
Qed.

Lemma turn_store p pos i x stk s v : code_at p [op STORE_VAR i pos] -> fits_var i -> mach p (stk ++ [x]) s v ->
  exists v', turns v v' /\ mach (p + 1) stk (set_var i x s) v'.
Proof.
  intros Hc Hi (junk & a & c & -> & Hl & Hrun & Hs). unfold fits_var in Hi. apply code_at_cons in Hc as (E & _ & _).
  eexists. split; [apply turns_one; eapply turn_next; [exact E|]|eapply mach_taken; [exact Hl|exact Hrun|by apply sized_var]].
  decode. rewrite taken by done. simpl sp. rewrite read_taken. simpl mbind.
  rewrite write_var; [done| |destruct Hs; lia]. rewrite length_app in Hl. simpl in *. lia.
Qed.

(** A conditional jump takes its condition off the stack. *)
Lemma turn_jump_if p pos when_true target x stk s v :
  code_at p [op (if when_true : bool then JUMP_IF_TRUE else JUMP_IF_FALSE) target pos] -> Z.of_nat target < 2 ^ 23 ->
  mach p (stk ++ [x]) s v ->
  exists v', turns v v' /\
    mach (if eqb (logic x (Semantics.store s)) when_true then target else p + 1) stk s v'.
Proof.
  intros Hc Ht (junk & a & c & -> & Hl & Hrun & Hs). apply code_at_cons in Hc as (E & _ & _).
  exists (vm_at (if eqb (logic x (Semantics.store s)) when_true then target else p + 1) stk (x :: junk) s a c).
  split; [apply turns_one; eapply turn_next; [exact E|]|by eapply mach_taken].
  assert (execute cfg (encode (byte_of (if when_true then JUMP_IF_TRUE else JUMP_IF_FALSE)) (Z.of_nat target))
    (vm_at (p + 1) (stk ++ [x]) junk s a c) = jump_if when_true (Z.of_nat target) (vm_at (p + 1) (stk ++ [x]) junk s a c)) as ->.
  { decode. by destruct when_true. }
  unfold jump_if. rewrite taken by done. simpl sp. rewrite read_taken. simpl mbind.
  by destruct (eqb _ _).
Qed.

Lemma turn_jump p pos target stk s v : code_at p [op JUMP target pos] -> Z.of_nat target < 2 ^ 23 -> mach p stk s v ->
  exists v', turns v v' /\ mach target stk s v'.
Proof.
  intros Hc Ht (junk & a & c & -> & Hl & Hrun & Hs). apply code_at_cons in Hc as (E & _ & _).
  exists (vm_at target stk junk s a c). split; [apply turns_one; eapply turn_next; [exact E|]|by exists junk, a, c].
  by decode.
Qed.

(** ** Asynchronous answers *)

(** Waiting for the answer of the instruction at [p]. *)
Definition waiting (kd : AsyncResumeKind) (p : nat) (stk junk : list V) (s : State) (a : Arguments_) (c : Control) : InterpreterVm :=
  set_async (mkAsync true false kd (Z.of_nat p)) (vm_at (p + 1) stk junk s a c).

Definition alive (c : Control) : Prop := state c = Running \/ state c = Suspend.

(** The control after an answer: only the resume notification may differ. *)
Definition after_answer (c c' : Control) : Prop := state c' = state c /\ in_iterate c' = in_iterate c.

Lemma deliver_waiting kd p stk junk s a c r : alive c -> exists c', after_answer c c' /\
  deliver r (waiting kd p stk junk s a c) =
    set_pend (mkPending no_error false (match r with inr _ => PAsyncReturn | inl _ => PAsyncThrow end)
               (match r with inr x => x | inl x => x end))
      (set_async (mkAsync true true kd (Z.of_nat p)) (vm_at (p + 1) stk junk s a c')).
Proof.
  intros Ha. unfold deliver, return_value, throw_value, answer, waiting, notify_resume.
  destruct Ha as [Ha|Ha]; destruct r as [x|x]; simpl; rewrite Ha; simpl;
    (destruct (in_iterate c) eqn:Ei; simpl; [by exists c|]); rewrite ?Ha;
    first [ by exists c | destruct (negb (resume_callback c) || resume_pending c); [by exists c|] ];
    (exists (mkControl (state c) (in_iterate c) true (resume_callback c) (S (resumed c)) (out c)));
    (split; [done|by rewrite ?Ha, ?Ei]).
Qed.

Lemma ready_push p y x stk junk s a c : Z.of_nat (length stk) + Z.of_nat (length (y :: junk)) = S_ -> alive c ->
  exists c', after_answer c c' /\
    apply_async_ready cfg (deliver (inr x) (waiting RPushResult p stk (y :: junk) s a c)) =
      (true, vm_at (p + 1) (stk ++ [x]) junk s a c').
Proof.
  intros Hl Ha. destruct (deliver_waiting RPushResult p stk (y :: junk) s a c (inr x) Ha) as (c' & Hc & ->).
  exists c'. split; [done|]. unfold apply_async_ready. simpl.
  rewrite (proj2 (Z.ltb_lt _ _)) by (simpl in Hl; lia).
  rewrite (store_at stk (junk ++ vars s) y) by done. simpl. f_equal.
  pose proof (push_at (p + 1) stk y junk s a c' x ltac:(lia)) as Hp. unfold push in Hp.
  rewrite (store_at stk (junk ++ vars s) y) in Hp by done. injection Hp as Hp Hsp. unfold vm_at, set_sp. simpl. by rewrite Hp, Hsp.
Qed.

Lemma ready_replace p y x stk junk s a c : Z.of_nat (length (stk ++ [y])) + Z.of_nat (length junk) = S_ -> alive c ->
  exists a' c', after_answer c c' /\
    apply_async_ready cfg (deliver (inr x) (waiting RReplaceTop p (stk ++ [y]) junk s a c)) =
      (true, vm_at (p + 1) (stk ++ [x]) junk s a' c').
Proof.
  intros Hl Ha. destruct (deliver_waiting RReplaceTop p (stk ++ [y]) junk s a c (inr x) Ha) as (c' & Hc & ->).
  rewrite length_app in Hl. exists (mkArgs (Some 0) 0 0), c'. split; [done|].
  unfold apply_async_ready. simpl. rewrite length_app. simpl in *.
  replace (Z.of_nat (length stk + 1) - 1) with (Z.of_nat (length stk)) by lia.
  rewrite (proj2 (Z.ltb_lt 0 _)), (proj2 (Z.ltb_lt _ S_)) by lia. simpl.
  rewrite (store_at stk (junk ++ vars s) y) by (simpl; by rewrite <- (assoc_L (++))). simpl. f_equal.
  unfold set_slots, vm_at. simpl. by rewrite !length_app, <- !(assoc_L (++)).
Qed.

Lemma ready_throw kd p pos x stk junk s a c : positions C_ !! p = Some pos -> alive c ->
  let target := search_catch (exp_ins_ cfg) (Z.of_nat p) in
  let '(ok, v1) := apply_async_ready cfg (deliver (inl x) (waiting kd p stk junk s a c)) in
  if target <? 0 then ok = false /\ out (control v1) = Some (inl (fst (thrown pos x))) /\ heap v1 = Semantics.store s
  else ok = true /\ exists a' c', after_answer c c' /\
    v1 = mkVm ((stk ++ junk) ++ vars s) 0 (u64 target) (consts s) a' (exn_pending (thrown pos x)) idle c' (Semantics.store s).
Proof.
  intros Ep Ha. destruct (deliver_waiting kd p stk junk s a c (inl x) Ha) as (c' & Hc & ->).
  unfold apply_async_ready. simpl negb. cbv zeta. simpl orb. cbv iota.
  unfold handle_error. simpl (async_resume_epc _). rewrite (located_at _ _ pos) by done. unfold catch_for_exception.
  destruct kd; simpl; destruct (search_catch (exp_ins_ cfg) (Z.of_nat p) <? 0);
    first [done | split; [done|]; eexists _, c'; split; [done|]; by rewrite <- (assoc_L (++))].
Qed.

(** Where the answer goes: pushed, or in the place of the value on top. *)
Definition answers (kd : AsyncResumeKind) (stk junk st0 junk0 : list V) : Prop :=
  (kd = RPushResult /\ stk = st0 /\ exists y, junk = y :: junk0) \/
  (kd = RReplaceTop /\ junk = junk0 /\ exists y, stk = st0 ++ [y]).

Lemma ready_return kd p x stk junk st0 junk0 s a c : answers kd stk junk st0 junk0 ->
  Z.of_nat (length stk) + Z.of_nat (length junk) = S_ -> alive c ->
  Z.of_nat (length (st0 ++ [x])) + Z.of_nat (length junk0) = S_ /\ exists a' c', after_answer c c' /\
    apply_async_ready cfg (deliver (inr x) (waiting kd p stk junk s a c)) = (true, vm_at (p + 1) (st0 ++ [x]) junk0 s a' c').
Proof.
  intros [(-> & -> & y & ->)|(-> & -> & y & ->)] Hl Ha; rewrite length_app in *; simpl in Hl |- *; (split; [lia|]).
  - destruct (ready_push p y x st0 junk0 s a c) as (c' & Hc & E); [simpl; lia|done|]. by exists a, c'.
  - destruct (ready_replace p y x st0 junk0 s a c) as (a' & c' & Hc & E); [rewrite length_app; simpl; lia|done|]. by exists a', c'.
Qed.

Definition answered (pos : Z) (r : V + V) (h : H) (s : State) : (Exn + V) * State :=
  (match r with inr x => inr x | inl x => inl (thrown pos x) end, with_store h s).

(** The answer [r] taken, at once or by [iterate] after a suspension. *)
Lemma take_answer (g : InterpreterVm -> InterpreterVm) (b : InterpreterVm -> bool) kd p pos stk junk st0 junk0 s a c r v : 
  (forall p stk junk s a c', after_answer c c' -> exists c'', running c'' /\ g (vm_at p stk junk s a c') = vm_at p stk junk s a c'') ->
  (forall l pc s a c' pnd, after_answer c c' -> exists c'', running c'' /\
     g (mkVm l 0 pc (consts s) a pnd idle c' (Semantics.store s)) = mkVm l 0 pc (consts s) a pnd idle c'' (Semantics.store s)) ->
  positions C_ !! p = Some pos -> answers kd stk junk st0 junk0 -> Z.of_nat (length stk) + Z.of_nat (length junk) = S_ ->
  alive c -> sized s ->
  turn v = (let '(ok, v1) := apply_async_ready cfg (deliver r (waiting kd p stk junk s a c)) in
            if ok then Next (g v1) else Halt (set_state Error (b v1) v1)) ->
  pushes (answered pos r (Semantics.store s) s) p (p + 1) st0 v.
Proof.
  intros Hg1 Hg2 Ep Hk Hl Ha Hs Et. assert (with_store (Semantics.store s) s = s) as Es by by destruct s.
  unfold answered. rewrite Es. destruct r as [x|x].
  - exists p. split; [lia|]. eexists. split; [constructor|]. rewrite Et. unfold raised.
    pose proof (ready_throw kd p pos x stk junk s a c Ep Ha) as Ht. cbv zeta in Ht.
    destruct (apply_async_ready _ _) as [ok v1]. destruct (_ <? 0).
    + destruct Ht as (-> & Ho & Hh). eexists. split; [reflexivity|]. done.
    + destruct Ht as (-> & a' & c' & Hc & ->). destruct (Hg2 ((stk ++ junk) ++ vars s) (u64 (search_catch (exp_ins_ cfg) (Z.of_nat p))) s a' c' (exn_pending (thrown pos x)) Hc) as (c'' & Hrun & ->).
      eexists. split; [reflexivity|]. exists (stk ++ junk), a', c''. split; [done|]. rewrite length_app. split; [lia|done].
  - destruct (ready_return kd p x stk junk st0 junk0 s a c Hk Hl Ha) as (Hl' & a' & c' & Hc & E).
    rewrite E in Et. destruct (Hg1 (p + 1)%nat (st0 ++ [x]) junk0 s a' c' Hc) as (c'' & Hrun & E'). rewrite E' in Et.
    eexists. split; [by apply turns_one|]. by exists junk0, a', c''.
Qed.

(** The end of an asynchronous call instruction: its answer, or the host's. *)
Lemma turn_async kd p pos stk junk st0 junk0 s a c r v :
  positions C_ !! p = Some pos -> answers kd stk junk st0 junk0 -> Z.of_nat (length stk) + Z.of_nat (length junk) = S_ ->
  running c -> sized s ->
  step cfg v = finish_async cfg r (waiting kd p stk junk s a c) ->
  pushes (let '(r, h) := match r with Some r => (r, Semantics.store s) | None => await (Semantics.store s) end in
          answered pos r h s) p (p + 1) st0 v.
Proof.
  intros Ep Hk Hl Hrun Hs Est. pose proof Hrun as [Hr Hi]. destruct r as [r|].
  - apply (take_answer id (fun _ => false) kd p pos stk junk st0 junk0 s a c r v); try done.
    + intros ? ? ? ? ? c' [H1 H2]. exists c'. split; [|done]. unfold running. by rewrite H1, H2.
    + intros ? ? ? ? c' ? [H1 H2]. exists c'. split; [|done]. unfold running. by rewrite H1, H2.
    + by left.
    + unfold turn. rewrite Est. unfold finish_async.
      destruct (apply_async_ready cfg (deliver r (waiting kd p stk junk s a c))) as [[] v1]; done.
  - simpl in Est. pose proof (sized_grow s _ Hs (Hawait (Semantics.store s))) as Hs'.
    destruct (await (Semantics.store s)) as [r h] eqn:Eaw. simpl in Hs'.
    set (c2 := mkControl Suspend false (resume_pending c) (resume_callback c) (resumed c) (out c)).
    change (answered pos r h s) with (answered pos r (Semantics.store (with_store h s)) (with_store h s)).
    apply (take_answer start_loop (fun v => in_iterate (control v)) kd p pos stk junk st0 junk0 (with_store h s) a c2 r v); try done.
    + intros p1 stk1 junk1 s1 a1 c' _. by eexists (mkControl Running true false _ _ _).
    + intros l1 pc1 s1 a1 c' pnd _. by eexists (mkControl Running true false _ _ _).
    + by right.
    + unfold turn. rewrite Est. simpl state. cbv iota. unfold resume. simpl heap. rewrite Eaw.
      done.
Qed.

(** A call that does not collect does not look at the roots. *)
Lemma call_sync_steady f a s : sized s -> (collections (call_sync f (root_ cfg) a [] (Semantics.store s)).2 <= gen)%nat ->
  (forall roots, call_sync f (root_ cfg) a roots (Semantics.store s) = call_sync f (root_ cfg) a [] (Semantics.store s)) /\
  sized (with_store (call_sync f (root_ cfg) a [] (Semantics.store s)).2 s).
Proof.
  intros Hs Hg. destruct (sized_steady s _ Hs (call_sync_count f (root_ cfg) a (Semantics.store s)) Hg) as [Hc Hs'].
  split; [|done]. intros roots. by apply call_sync_off.
Qed.

Lemma call_async_steady f a s : sized s -> (collections (call_async f (root_ cfg) a [] (Semantics.store s)).2 <= gen)%nat ->
  (forall roots, call_async f (root_ cfg) a roots (Semantics.store s) = call_async f (root_ cfg) a [] (Semantics.store s)) /\
  sized (with_store (call_async f (root_ cfg) a [] (Semantics.store s)).2 s).
Proof.
  intros Hs Hg. destruct (sized_steady s _ Hs (call_async_count f (root_ cfg) a (Semantics.store s)) Hg) as [Hc Hs'].
  split; [|done]. intros roots. by apply call_async_off.
Qed.

Lemma call_steady pos c f a s : sized s -> (count (call (root_ cfg) await pos c f a s).2 <= gen)%nat ->
  if is_async c then (collections (call_async f (root_ cfg) a [] (Semantics.store s)).2 <= gen)%nat
  else (collections (call_sync f (root_ cfg) a [] (Semantics.store s)).2 <= gen)%nat.
Proof.
  intros Hs. unfold call, count. destruct (is_async c).
  - destruct (call_async _ _ _ _ _) as [[r|] h]; [done|]. pose proof (Hawait h). destruct (await h). simpl in *. lia.
  - by destruct (call_sync _ _ _ _ _).
Qed.

(** A synchronous result, pushed or put in the place of the value on top. *)
Lemma turn_sync spread p pos stk junk st0 junk0 s a c r v :
  positions C_ !! p = Some pos -> answers (if spread : bool then RReplaceTop else RPushResult) stk junk st0 junk0 ->
  Z.of_nat (length stk) + Z.of_nat (length junk) = S_ -> running c -> sized s ->
  step cfg v = outcome_of (finish_call cfg r spread (vm_at (p + 1) stk junk s a c)) ->
  pushes (answered pos r (Semantics.store s) s) p (p + 1) st0 v.
Proof.
  intros Ep Hk Hl Hrun Hs Est. assert (with_store (Semantics.store s) s = s) as Es by by destruct s.
  unfold answered. rewrite Es. destruct r as [x|x]; unfold finish_call in Est.
  - exists p. split; [lia|]. eexists. split; [constructor|]. apply turn_raised. rewrite Est. simpl. 
    unfold raise_value, set_pending_value, set_pend, vm_at. simpl. rewrite (assoc_L (++)).
    apply (raise_spec _ make_throw_error p pos); try done. rewrite length_app. lia.
  - destruct Hk as [(Hk & -> & y & ->)|(Hk & -> & y & ->)]; destruct spread; try done.
    + rewrite push_at in Est by lia. eexists. split; [apply turns_one; unfold turn; by rewrite Est|].
      by apply (mach_push _ _ _ y).
    + rewrite sp_top, Z.add_simpl_r, u64_small in Est by (rewrite length_app in Hl; simpl in Hl; lia).
      rewrite (store_at st0 (junk0 ++ vars s) y) in Est by (simpl; by rewrite <- (assoc_L (++))).
      eexists. split; [apply turns_one; unfold turn; by rewrite Est|].
      exists junk0, a, c. rewrite length_app in *. simpl in *. split; [|split; [lia|done]].
      unfold set_slots, vm_at. simpl. by rewrite !length_app, <- !(assoc_L (++)).
Qed.

(** ** Calls *)

Lemma execute_call f argc k v : (argc <= 255)%nat -> Z.of_nat k < 2 ^ 15 ->
  let instr := call_code (if is_async f then CALL_ASYNC_FUNC else CALL_FUNC) argc k in
  execute cfg instr v = if is_async f then call_async_function cfg instr v else call_function cfg instr v.
Proof.
  intros Ha Hk. cbv zeta. destruct (call_code_fields (if is_async f then CALL_ASYNC_FUNC else CALL_FUNC) argc k) as (F & _ & _); [done|lia|].
  unfold execute. rewrite F, opcode_of_byte. by destruct f.
Qed.

Lemma pointer_at k f : operands C_ !! k = Some (OpPointer f) -> pointer_operand cfg (Z.of_nat k) = Some f.
Proof. intros E. unfold pointer_operand. by rewrite Nat2Z.id, E. Qed.

(** The arguments of a call, the topmost values of the stack. *)
Lemma set_args_at p st0 xs junk s a c n : n = Z.of_nat (length xs) -> Z.of_nat (length st0) + n < 2 ^ 62 ->
  set_sp (u64 (sp (vm_at p (st0 ++ xs) junk s a c) - n)) (vm_at p (st0 ++ xs) junk s a c) = vm_at p st0 (xs ++ junk) s a c.
Proof.
  intros -> Hb. simpl sp. rewrite length_app. replace (Z.of_nat (length st0 + length xs) - Z.of_nat (length xs)) with (Z.of_nat (length st0)) by lia.
  rewrite u64_small by lia. unfold set_sp, vm_at. by flat_lists.
Qed.

Lemma read_args p st0 xs junk s c sl : call_args cfg (vm_at p st0 (xs ++ junk) s (mkArgs (Some (Z.of_nat (length st0))) (Z.of_nat (length xs)) sl) c)
  = Some (ArgList xs).
Proof.
  unfold call_args. simpl. destruct (Z.eqb_spec (Z.of_nat (length xs)) 0) as [E|E]; [by destruct xs|].
  rewrite (proj2 (Z.leb_le 0 _)), (proj2 (Z.leb_le _ _)) by (rewrite ?length_app; lia). simpl. rewrite !Nat2Z.id.
  rewrite drop_app_length, <- (assoc_L (++)), take_app_length. done.
Qed.

Lemma with_store_twice h h' s : with_store h (with_store h' s) = with_store h s.
Proof. done. Qed.

Lemma start_async_at kd p stk junk s a c : start_async kd (vm_at (p + 1) stk junk s a c) = waiting kd p stk junk s a c.
Proof. unfold start_async, waiting. simpl pc. by replace (Z.of_nat (p + 1) - 1) with (Z.of_nat p) by lia. Qed.

Lemma turn_call p pos k f xs stk s v :
  code_at p [(call_code (if is_async f then CALL_ASYNC_FUNC else CALL_FUNC) (length xs) k, pos)] ->
  operands C_ !! k = Some (OpPointer (function_pointer f)) -> (length xs <= 255)%nat ->
  mach p (stk ++ xs) s v -> Z.of_nat (length stk) < S_ ->
  pushes (call (root_ cfg) await pos f (function_pointer f) (ArgList xs) s) p (p + 1) stk v.
Proof.
  intros Hc Ek Ha (junk & a & c & -> & Hl & Hrun & Hs) Hr. apply code_at_cons in Hc as (E & Ep & _).
  pose proof (operand_bound _ _ Ek) as Hk. rewrite length_app in Hl.
  destruct (call_code_fields (if is_async f then CALL_ASYNC_FUNC else CALL_FUNC) (length xs) k) as (F1 & F2 & F3); [done|lia|].
  pose proof (step_fetch p (stk ++ xs) junk s a c _ E) as Est. rewrite execute_call in Est by (done || lia).
  destruct (xs ++ junk) as [|y junk'] eqn:Ej; [apply (f_equal length) in Ej; rewrite length_app in Ej; simpl in Ej; lia|].
  assert (Z.of_nat (length stk) + Z.of_nat (length (y :: junk')) = S_) as Hl' by (rewrite <- Ej, length_app; lia).
  assert (set_args_for_ctx cfg (Z.of_nat (length stk)) (Z.of_nat (length xs)) (vm_at (p + 1) stk (y :: junk') s a c)
    = vm_at (p + 1) stk (y :: junk') s (mkArgs (Some (Z.of_nat (length stk))) (Z.of_nat (length xs)) (arg_spread_slot a)) c) as Hctx.
  { unfold set_args_for_ctx. rewrite (proj2 (Z.ltb_lt _ _)) by lia. done. }
  pose proof (read_args (p + 1) stk xs junk s c (arg_spread_slot a)) as Hra. rewrite Ej in Hra.
  apply pushes_intro. intros Hg. apply call_steady in Hg; [|done]. unfold call. destruct f as [n|n]; cbn [is_async] in *.
  - unfold call_function in Est. cbv zeta in Est. rewrite F2, F3, (pointer_at _ _ Ek) in Est.
    rewrite set_args_at, Ej in Est by (done || lia). simpl in Est. rewrite Hctx, Hra in Est. simpl mbind in Est. simpl heap in Est. cbn [function_pointer constant_pointer] in Hg.
    destruct (call_sync_steady _ _ s Hs Hg) as [Hoff Hs']. rewrite Hoff in Est. clear Hg Hoff. simpl function_pointer. destruct (call_sync (FunctionPtr n) (root_ cfg) (ArgList xs) [] (Semantics.store s)) as [r h].
    apply (turn_sync false p pos stk (y :: junk') stk junk' (with_store h s)
      (mkArgs (Some (Z.of_nat (length stk))) (Z.of_nat (length xs)) (arg_spread_slot a)) c r); try done.
    left. eauto.
  - unfold call_async_function in Est. cbv zeta in Est. rewrite F2, F3, (pointer_at _ _ Ek) in Est.
    rewrite set_args_at, Ej in Est by (done || lia). simpl in Est. rewrite Hctx in Est.
    rewrite start_async_at in Est. match type of Hra with call_args _ (vm_at _ _ _ _ ?a' _) = _ =>
      assert (call_args cfg (waiting RPushResult p stk (y :: junk') s a' c) = Some (ArgList xs)) as Hra' by exact Hra end.
    rewrite Hra' in Est. simpl mbind in Est. simpl heap in Est. cbn [function_pointer constant_pointer] in *.
    destruct (call_async_steady _ _ s Hs Hg) as [Hoff Hs']. rewrite Hoff in Est. clear Hg Hoff.
    destruct (call_async (AsyncFunctionPtr n) (root_ cfg) (ArgList xs) [] (Semantics.store s)) as [r h].
    match type of Hra with call_args _ (vm_at _ _ _ _ ?a' _) = _ =>
      pose proof (turn_async RPushResult p pos stk (y :: junk') stk junk' (with_store h s) a' c r _ Ep ltac:(left; eauto) Hl' Hrun Hs' Est) as P end.
    by destruct r.
Qed.

Lemma turn_call_spread p pos k f arr stk s v :
  code_at p [op (if is_async f then CALL_ASYNC_FUNC_SPREAD else CALL_FUNC_SPREAD) k pos] ->
  operands C_ !! k = Some (OpPointer (function_pointer f)) -> mach p (stk ++ [arr]) s v ->
  pushes (call (root_ cfg) await pos f (function_pointer f) (ArgSpread arr) s) p (p + 1) stk v.
Proof.
  intros Hc Ek (junk & a & c & -> & Hl & Hrun & Hs). apply code_at_cons in Hc as (E & Ep & _).
  pose proof (operand_bound _ _ Ek) as Hk.
  set (a' := mkArgs None (arg_cnt a) (Z.of_nat (length stk))).
  assert (set_args_for_spread (u64 (sp (vm_at (p + 1) (stk ++ [arr]) junk s a c) - 1)) (vm_at (p + 1) (stk ++ [arr]) junk s a c)
    = vm_at (p + 1) (stk ++ [arr]) junk s a' c) as Hctx.
  { rewrite sp_top, Z.add_simpl_r, u64_small by (rewrite length_app in Hl; simpl in Hl; lia). done. }
  assert (call_args cfg (vm_at (p + 1) (stk ++ [arr]) junk s a' c) = Some (ArgSpread arr)) as Hra.
  { unfold call_args. simpl. rewrite (proj2 (Z.leb_gt _ _)) by (rewrite length_app in Hl; simpl in Hl; lia).
    unfold stack_at. pose proof (read_top (p + 1) stk arr junk s a' c) as R. by rewrite R. }
  pose proof (step_fetch p (stk ++ [arr]) junk s a c _ E) as Est.
  apply pushes_intro. intros Hg. apply call_steady in Hg; [|done]. unfold call. destruct f as [n|n]; cbn [is_async function_pointer] in *.
  - assert (execute cfg (encode (byte_of CALL_FUNC_SPREAD) (Z.of_nat k)) (vm_at (p + 1) (stk ++ [arr]) junk s a c)
      = call_function_spread cfg (encode (byte_of CALL_FUNC_SPREAD) (Z.of_nat k)) (vm_at (p + 1) (stk ++ [arr]) junk s a c)) as Ex by by decode.
    rewrite Ex in Est. clear Ex. unfold call_function_spread in Est. cbv zeta in Est.
    rewrite operand_encode, (pointer_at _ _ Ek), Hctx in Est by (apply byte_of_range || lia). simpl mbind in Est.
    rewrite Hra in Est. simpl mbind in Est. simpl heap in Est. cbn [function_pointer constant_pointer] in Hg.
    destruct (call_sync_steady _ _ s Hs Hg) as [Hoff Hs']. rewrite Hoff in Est. clear Hg Hoff.
    destruct (call_sync (FunctionPtr n) (root_ cfg) (ArgSpread arr) [] (Semantics.store s)) as [r h].
    apply (turn_sync true p pos (stk ++ [arr]) junk stk junk (with_store h s) (mkArgs (Some 0) 0 0) c r); try done.
    right. eauto.
  - assert (execute cfg (encode (byte_of CALL_ASYNC_FUNC_SPREAD) (Z.of_nat k)) (vm_at (p + 1) (stk ++ [arr]) junk s a c)
      = call_async_function_spread cfg (encode (byte_of CALL_ASYNC_FUNC_SPREAD) (Z.of_nat k)) (vm_at (p + 1) (stk ++ [arr]) junk s a c)) as Ex by by decode.
    rewrite Ex in Est. clear Ex. unfold call_async_function_spread in Est. cbv zeta in Est.
    rewrite operand_encode, (pointer_at _ _ Ek), Hctx, start_async_at in Est by (apply byte_of_range || lia). simpl mbind in Est.
    assert (call_args cfg (waiting RReplaceTop p (stk ++ [arr]) junk s a' c) = Some (ArgSpread arr)) as Hra' by exact Hra.
    rewrite Hra' in Est. simpl mbind in Est. simpl heap in Est. cbn [function_pointer constant_pointer] in Hg.
    destruct (call_async_steady _ _ s Hs Hg) as [Hoff Hs']. rewrite Hoff in Est. clear Hg Hoff.
    destruct (call_async (AsyncFunctionPtr n) (root_ cfg) (ArgSpread arr) [] (Semantics.store s)) as [r h].
    pose proof (turn_async RReplaceTop p pos (stk ++ [arr]) junk stk junk (with_store h s) a' c r _ Ep ltac:(right; eauto) Hl Hrun Hs' Est) as P.
    by destruct r.
Qed.

Lemma turn_constant p pos k f stk s v :
  code_at p [op (if is_async f then CALL_ASYNC_CONST else CALL_CONST) k pos] ->
  operands C_ !! k = Some (OpPointer (constant_pointer f)) -> mach p stk s v -> Z.of_nat (length stk) < S_ ->
  pushes (call (root_ cfg) await pos f (constant_pointer f) NoArgs s) p (p + 1) stk v.
Proof.
  intros Hc Ek M Hr. apply code_at_cons in Hc as (E & Ep & _). pose proof (operand_bound _ _ Ek) as Hk.
  apply room in M as (y & junk & a & c & -> & Hl & Hrun & Hs); [|done].
  pose proof (step_fetch p stk (y :: junk) s a c _ E) as Est.
  apply pushes_intro. intros Hg. apply call_steady in Hg; [|done]. unfold call. destruct f as [n|n]; cbn [is_async constant_pointer] in *.
  - assert (execute cfg (encode (byte_of CALL_CONST) (Z.of_nat k)) (vm_at (p + 1) stk (y :: junk) s a c)
      = call_constant cfg (encode (byte_of CALL_CONST) (Z.of_nat k)) (vm_at (p + 1) stk (y :: junk) s a c)) as Ex by by decode.
    rewrite Ex in Est. clear Ex. unfold call_constant in Est.
    rewrite operand_encode, (pointer_at _ _ Ek) in Est by (apply byte_of_range || lia). simpl mbind in Est.
    simpl heap in Est. cbn [function_pointer constant_pointer] in Hg.
    destruct (call_sync_steady _ _ s Hs Hg) as [Hoff Hs']. rewrite Hoff in Est. clear Hg Hoff.
    destruct (call_sync (ConstantPtr n) (root_ cfg) NoArgs [] (Semantics.store s)) as [r h].
    apply (turn_sync false p pos stk (y :: junk) stk junk (with_store h s) a c r); try done. left. eauto.
  - assert (execute cfg (encode (byte_of CALL_ASYNC_CONST) (Z.of_nat k)) (vm_at (p + 1) stk (y :: junk) s a c)
      = call_async_constant cfg (encode (byte_of CALL_ASYNC_CONST) (Z.of_nat k)) (vm_at (p + 1) stk (y :: junk) s a c)) as Ex by by decode.
    rewrite Ex in Est. clear Ex. unfold call_async_constant in Est. cbv zeta in Est.
    rewrite operand_encode, (pointer_at _ _ Ek), start_async_at in Est by (apply byte_of_range || lia). simpl mbind in Est.
    simpl heap in Est. cbn [function_pointer constant_pointer] in Hg.
    destruct (call_async_steady _ _ s Hs Hg) as [Hoff Hs']. rewrite Hoff in Est. clear Hg Hoff.
    destruct (call_async (AsyncConstantPtr n) (root_ cfg) NoArgs [] (Semantics.store s)) as [r h].
    pose proof (turn_async RPushResult p pos stk (y :: junk) stk junk (with_store h s) a c r _ Ep ltac:(left; eauto) Hl Hrun Hs' Est) as P.
    by destruct r.
Qed.

(** ** Loops over a collection *)

Lemma turn_iterate_into p pos i x stk s v : code_at p [op ITERATE_INTO i pos] -> fits_var i -> mach p (stk ++ [x]) s v ->
  (collections (operate Unaries_iterate [x] [] (Semantics.store s)).2 <= gen)%nat ->
  let '(r, h) := operate Unaries_iterate [x] [] (Semantics.store s) in
  match r with
  | inl err => fails (failed pos err) p (with_store h s) v
  | inr it => exists v', turns v v' /\ mach (p + 1) stk (set_var i it (with_store h s)) v'
  end.
Proof.
  intros Hc Hi (junk & a & c & -> & Hl & Hrun & Hs) Hg. unfold fits_var in Hi. apply code_at_cons in Hc as (E & Ep & _).
  pose proof (step_fetch p (stk ++ [x]) junk s a c _ E) as Est. 
  destruct (operate_steady Unaries_iterate [x] s Hs Hg) as [Hoff Hs']. clear Hg.
  assert (execute cfg (encode (byte_of ITERATE_INTO) (Z.of_nat i)) (vm_at (p + 1) (stk ++ [x]) junk s a c) =
    (let '(r, h) := operate Unaries_iterate [x] [] (Semantics.store s) in
     let v2 := vm_at (p + 1) stk (x :: junk) (with_store h s) a c in
     match r with
     | inl error => Some (raise cfg error v2)
     | inr it => v3 ← store_var cfg (Z.of_nat i) it v2; Some (Next v3)
     end)) as Ex.
  { decode. rewrite taken by done. simpl sp. rewrite read_taken. simpl mbind. simpl heap. rewrite Hoff.
    by destruct (operate Unaries_iterate [x] [] (Semantics.store s)). }
  pose proof (operate_normal Unaries_iterate [x] [] (Semantics.store s)) as En.
  destruct (operate Unaries_iterate [x] [] (Semantics.store s)) as [[err|it] h].
  - specialize (En err h eq_refl).
    eapply (fail_here p pos _ _ _ (with_store h s) a c _ _ (stk ++ x :: junk)); [exact E|exact Ep|done|done|done| |].
    + etransitivity; [exact Ex|]. unfold vm_at. by flat_lists.
    + rewrite length_app in Hl |- *. simpl in *. lia.
  - cbv zeta in Ex. rewrite length_app in Hl. rewrite write_var in Ex by (simpl in *; lia || (destruct Hs; lia)).
    eexists. split; [apply turns_one; eapply turn_next; [exact E|exact Ex]|].
    apply mach_taken; [rewrite length_app; done|done|by apply (sized_var i it (with_store h s))].
Qed.

Lemma turn_iterate_next p pos i stk s v : code_at p [op ITERATE_NEXT i pos] -> fits_var i -> mach p stk s v ->
  Z.of_nat (length stk) < S_ ->
  let '(more, h) := iterator_next (var i s) (Semantics.store s) in
  exists v', turns v v' /\ mach (p + 1) (stk ++ [make_boolean more]) (with_store h s) v'.
Proof.
  intros Hc Hi M Hr. unfold fits_var in Hi. apply code_at_cons in Hc as (E & _ & _).
  apply room in M as (y & junk & a & c & -> & Hl & Hrun & Hs); [|done].
  pose proof (sized_grow s _ Hs (iterator_next_count (var i s) (Semantics.store s))) as Hs'.
  destruct (iterator_next (var i s) (Semantics.store s)) as [more h] eqn:En.
  eexists. split; [apply turns_one; eapply turn_next; [exact E|]|].
  - decode. rewrite read_var by (done || (destruct Hs; lia)). simpl mbind. rewrite En.
    change (set_heap h (vm_at (p + 1) stk (y :: junk) s a c)) with (vm_at (p + 1) stk (y :: junk) (with_store h s) a c).
    rewrite push_at by lia. reflexivity.
  - by apply (mach_push _ _ _ y).
Qed.

Lemma turn_iterator_field (key : bool) p pos target iter stk s v :
  let field := if key then iterator_key else iterator_value in
  code_at p [(iterator_code (if key then ITERATE_KEY else ITERATE_VALUE) target iter, pos)] ->
  fits_var target -> fits_var iter -> mach p stk s v ->
  exists v', turns v v' /\ mach (p + 1) stk (set_var target (field (var iter s) (Semantics.store s)) s) v'.
Proof.
  intros field Hc Ht Hi (junk & a & c & -> & Hl & Hrun & Hs). unfold fits_var in *. apply code_at_cons in Hc as (E & _ & _).
  destruct (iterator_code_fields (if key then ITERATE_KEY else ITERATE_VALUE) target iter) as (F1 & F2 & F3);
    [unfold kMaxIteratorVar; lia|lia|].
  eexists. split; [apply turns_one; eapply turn_next; [exact E|]|exists junk, a, c; split; [reflexivity|split; [done|split; [done|by apply sized_var]]]].
  assert (execute cfg (iterator_code (if key then ITERATE_KEY else ITERATE_VALUE) target iter) (vm_at (p + 1) stk junk s a c) =
    iterator_field cfg field (iterator_code (if key then ITERATE_KEY else ITERATE_VALUE) target iter) (vm_at (p + 1) stk junk s a c)) as ->.
  { unfold execute. rewrite F1, opcode_of_byte. by destruct key. }
  unfold iterator_field, kMaxIteratorVar_. cbv zeta. rewrite F2, F3, read_var by (done || (destruct Hs; lia)). simpl mbind.
  by rewrite write_var by (done || (destruct Hs; lia)).
Qed.

(** ** Entering a handler, and the end of a script *)

Lemma turn_into_catch p pos i e s v : code_at p [op INTO_CATCH i pos] -> fits_var i -> handling (Z.of_nat p) e s v ->
  (count (catch_value pos e s).2 <= gen)%nat ->
  match catch_value pos e s with
  | (inr x, s') => exists v', turns v v' /\ mach (p + 1) [] (set_var i x s') v'
  | (inl e', s') => fails e' p s' v
  end.
Proof.
  intros Hc Hi (junk & a & c & -> & Hl & Hrun & Hs & Hok) Hg. unfold fits_var in Hi. apply code_at_cons in Hc as (E & Ep & _).
  set (v1 := mkVm (junk ++ vars s) 0 (Z.of_nat (p + 1)) (consts s) a (exn_pending e) idle c (Semantics.store s)).
  assert (step cfg (mkVm (junk ++ vars s) 0 (Z.of_nat p) (consts s) a (exn_pending e) idle c (Semantics.store s)) =
    outcome_of (into_catch cfg (Z.of_nat i) v1)) as Est.
  { rewrite (step_idle p _ (encode (byte_of INTO_CATCH) (Z.of_nat i))) by done. by decode. }
  assert (forall x h, store_var cfg (Z.of_nat i) x (set_heap h v1) =
    Some (mkVm (junk ++ <[i:=x]> (vars s)) 0 (Z.of_nat (p + 1)) (consts s) a (exn_pending e) idle c h)) as Hst.
  { intros x h. pose proof (write_var (p + 1) [] junk (with_store h s) a c i x) as Hw. 
    unfold store_var, Vm.store in *. simpl in *.
    rewrite Hl in Hw. specialize (Hw ltac:(lia) ltac:(destruct Hs; lia)). 
    destruct ((0 <=? S_ + Z.of_nat i) && (S_ + Z.of_nat i <? Z.of_nat (length (junk ++ vars s)))); [|done].
    injection Hw as Hw. unfold set_slots. simpl. by rewrite Hw. }
  unfold catch_value, exn_ok in *. destruct e as [err [x|]]; simpl in Hok |- *.
  - eexists. split.
    + apply turns_one. unfold turn. rewrite Est. unfold into_catch. simpl. rewrite Hok.
      change v1 with (set_heap (Semantics.store s) v1). rewrite Hst. simpl. reflexivity.
    + exists junk, a, c. split; [done|]. split; [simpl; lia|]. split; [done|by apply sized_var].
  - unfold into_catch in Est. simpl in Est. rewrite Hok in Est. unfold make_exception_value, collect in Est.
    destruct (alloc_steady pos _ _ s Hs Hg) as [Hoff Hs']. clear Hg. simpl heap in Est. rewrite Hoff in Est. unfold alloc in Hs' |- *.
    rewrite (Hoff []) in Hs' |- *. simpl in Est. destruct (allocate _ (Semantics.store s)) as [[x|] h]; simpl in Est.
    + change (set_heap h (set_heap (Semantics.store s) v1)) with (set_heap h v1) in Est. rewrite Hst in Est. simpl in Est.
      eexists. split; [apply turns_one; unfold turn; rewrite Est; reflexivity|].
      exists junk, a, c. split; [done|]. split; [simpl; lia|]. split; [done|by apply (sized_var i x (with_store h s))].
    + eexists. split; [constructor|]. apply turn_raised. rewrite Est.
      apply (raise_spec _ _ p pos junk 0 (with_store h s)); try done. by apply failed_ok.
Qed.

Definition succeeded (x : V) (s : State) (v : InterpreterVm) : Prop :=
  state (control v) = Success /\ out (control v) = Some (inr x) /\ heap v = Semantics.store s.

Lemma turn_return p pos x stk s v : code_at p [op END_RETURN 0 pos] -> mach p (stk ++ [x]) s v ->
  exists v', turn v = Halt v' /\ succeeded x s v'.
Proof.
  intros Hc (junk & a & c & -> & Hl & Hrun & Hs). apply code_at_cons in Hc as (E & Ep & _).
  pose proof (step_fetch p (stk ++ [x]) junk s a c _ E) as Est.
  assert (execute cfg (encode (byte_of END_RETURN) (Z.of_nat 0)) (vm_at (p + 1) (stk ++ [x]) junk s a c) =
    end_return (vm_at (p + 1) (stk ++ [x]) junk s a c)) as Ex by by decode.
  rewrite Ex in Est. unfold end_return in Est. rewrite sp_top, (proj2 (Z.ltb_lt 0 _)), Z.add_simpl_r in Est by lia.
  unfold stack_at in Est. rewrite read_top in Est. simpl in Est.
  eexists. split; [unfold turn; rewrite Est; reflexivity|]. done.
Qed.

Lemma turn_throw p pos x stk s v : code_at p [op THROW_EXP 0 pos] -> mach p (stk ++ [x]) s v -> fails (thrown pos x) p s v.
Proof.
  intros Hc (junk & a & c & -> & Hl & Hrun & Hs). apply code_at_cons in Hc as (E & Ep & _).
  eapply (throw_here p pos _ _ s s a c _ x (stk ++ x :: junk)); [exact E|exact Ep|done|done| |].
  - decode. rewrite taken by done. simpl sp. rewrite read_taken. simpl mbind. unfold vm_at. by flat_lists.
  - rewrite length_app in Hl |- *. simpl in *. lia.
Qed.

End Machine.
End Machine.
