(* ===== verification/ScriptCorrect.v ===== *)
(** * The interpreter runs compiled code the way the tree evaluates

    The simulation of [Semantics] by the turns of the machine: the code of an
    expression leaves its value on the stack, the code of a statement ends where
    its completion says, and an error arrives at the handler the exception index
    gives for the instruction it came from. *)
From S2P Require Import Prelude ScriptAst ScriptWords ScriptCompiler ScriptVm ScriptTree ScriptSemantics.
From S2P Require Import ScriptCompile ScriptMachine.
Import Ast Code Words Compiler Tree Semantics Vm Machine.

Module Correct.

(** ** Well-formed trees *)

Section WellFormed.
Context (c : Compiled).

(** An operation has the operands its instruction takes. *)
Definition op_wf (o : Operation) (k : nat) (keep : bool) (n : nat) : Prop :=
  match o with
  | Binaries_ _ | Access_expand_object | Access_expand_array | Access_push_array | Access_index_get => keep = true /\ n = 2%nat
  | Unaries_ _ => keep = true /\ n = 1%nat
  | Unaries_iterate => False
  | Access_index_set => keep = true /\ n = 3%nat
  | Access_index_set1 => keep = false /\ n = 3%nat
  | Access_prop_get name => keep = true /\ n = 1%nat /\ operands c !! k = Some (OpString name)
  | Access_prop_set name => keep = true /\ n = 2%nat /\ operands c !! k = Some (OpString name)
  | Access_prop_set1 name => keep = false /\ n = 2%nat /\ operands c !! k = Some (OpString name)
  end.

Definition in_table (i : nat) : Prop := (i < var_table_size c)%nat.

Fixpoint wf (t : Tree) : Prop :=
  let all := fix all (l : list Tree) : Prop := match l with [] => True | t :: l' => wf t /\ all l' end in
  match t with
  | TConst _ k cv => operands c !! k = Some (OpConst cv)
  | TRoot _ | TNew _ _ => True
  | TVar _ i => in_table i
  | TOp _ o k keep args => op_wf o k keep (length args) /\ all args
  | TConstant _ k f => operands c !! k = Some (OpPointer (constant_pointer f))
  | TCall _ k f args => operands c !! k = Some (OpPointer (function_pointer f)) /\ (length args <= 255)%nat /\ all args
  | TCallSpread _ k f arr => operands c !! k = Some (OpPointer (function_pointer f)) /\ wf arr
  | TLogic _ _ l r => wf l /\ wf r
  | TTernary _ t a b => wf t /\ wf a /\ wf b
  | TSetVar _ i t => in_table i /\ wf t
  end.

Fixpoint all_wf (l : list Tree) : Prop := match l with [] => True | t :: l' => wf t /\ all_wf l' end.

Fixpoint swf (s : STree) : Prop :=
  match s with
  | SSkip | SBreak _ | SContinue _ => True
  | SSeq a b => swf a /\ swf b
  | SExpr _ t | SReturn _ t | SThrow _ t => wf t
  | SStore _ i t => in_table i /\ wf t
  | SIf _ t a b => wf t /\ swf a /\ swf b
  | SForeach _ iter key value coll body => in_table iter /\ in_table key /\ in_table value /\ wf coll /\ swf body
  | STry _ i t c => in_table i /\ swf t /\ swf c
  end.
End WellFormed.

(** ** Handlers

    Where an error raised at an instruction of a statement goes: to the catch
    block of the innermost [try] around it.  [handled] says that [search_catch]
    finds that block for every instruction of the statement that may raise; [h]
    is the handler outside, [None] when there is none. *)
Section Handlers.
Context (catch_of : Z -> Z).

Definition agree (h : option nat) (epc : nat) : bool :=
  match h with None => catch_of (Z.of_nat epc) <? 0 | Some p => catch_of (Z.of_nat epc) =? Z.of_nat p end.

Definition agree_range (h : option nat) (a n : nat) : bool := forallb (agree h) (seq a n).

Fixpoint handled (h : option nat) (a : nat) (s : STree) : bool :=
  match s with
  | SSkip | SBreak _ | SContinue _ => true
  | SSeq s1 s2 => handled h a s1 && handled h (a + slen s1) s2
  | SExpr _ t | SStore _ _ t | SReturn _ t | SThrow _ t => agree_range h a (tlen t + 1)
  | SIf _ t s1 s2 => agree_range h a (tlen t) && handled h (a + tlen t + 1) s1 && handled h (a + tlen t + 1 + slen s1 + 1) s2
  | SForeach _ _ _ _ coll body => agree_range h a (tlen coll + 1) && handled h (a + tlen coll + 5) body
  | STry _ _ t c =>
      let catch_begin := (a + slen t + 1)%nat in
      handled (Some catch_begin) a t && agree h catch_begin && handled h (catch_begin + 1) c
  end.

Lemma agree_in h a n epc : agree_range h a n = true -> (a <= epc < a + n)%nat -> agree h epc = true.
Proof. intros Ha Hr. unfold agree_range in Ha. rewrite forallb_forall in Ha. apply Ha. apply in_seq. lia. Qed.
End Handlers.

Section Simulation.
Context `{HV : Values} `{HL : !ValuesLaws HV}.
Context (cfg : Config) (await : H -> (V + V) * H).
Context (gen_ : nat) (Hawait : forall h, (collections h <= collections (await h).2)%nat).

Local Abbreviation S_ := (stack_size_ cfg).
Local Abbreviation C_ := (compiled_ cfg).

Context (HS : 0 <= S_ < 2 ^ 62) (Hcodes : Z.of_nat (length (codes C_)) < 2 ^ 23)
  (Hops : Z.of_nat (length (operands C_)) <= 2 ^ 15) (Hvars : Z.of_nat (var_table_size C_) <= 2 ^ 11).

Local Abbreviation mach := (mach cfg gen_).
Local Abbreviation turns := (turns cfg await).
Local Abbreviation pushes := (pushes cfg await gen_).
Local Abbreviation fails := (fails cfg await gen_).
Local Abbreviation code_at := (code_at cfg).
Local Abbreviation eval := (eval (root_ cfg) await).

Lemma code_bound a l : code_at a l -> l <> [] -> Z.of_nat (a + length l) < 2 ^ 23.
Proof.
  intros Hc Hne. destruct (lookup_lt_is_Some_2 l (length l - 1)) as [[x p] E]; [destruct l; simpl in *; [done|lia]|].
  destruct (Hc _ _ _ E) as [E1 _]. apply lookup_lt_Some in E1. destruct l; simpl in *; [done|lia].
Qed.

Lemma pushes_bind (r : (Exn + V) * State) (k : V -> State -> (Exn + V) * State) a b c stk v : (b <= c)%nat ->
  pushes r a b stk v -> (forall x s', (count s' <= count (k x s').2)%nat) ->
  (forall x s' v', mach b (stk ++ [x]) s' v' -> pushes (k x s') b c stk v') -> (a <= b)%nat ->
  pushes (match r with (inl e, s1) => (inl e, s1) | (inr x, s1) => k x s1 end) a c stk v.
Proof.
  intros Hbc Hr Hgrow Hk Hab. destruct r as [[e|x] s1].
  - intros Hg. destruct (Hr Hg) as (epc & He & F). exists epc. split; [lia|done].
  - apply pushes_intro. intros Hg. destruct Hr as (v' & T & M); [specialize (Hgrow x s1); simpl in *; lia|].
    eapply pushes_after; [exact Hab|exact T|]. by apply Hk.
Qed.

(** The instruction of an operation applies it to the top of the stack. *)
Lemma execute_operation o k keep n v : op_wf C_ o k keep n ->
  execute cfg (encode (byte_of (operation_code o keep)) (Z.of_nat k)) v = apply_top cfg o (Z.of_nat n) keep v.
Proof.
  intros Hw. unfold execute. rewrite op_byte_encode, opcode_of_byte.
  assert (forall name, operands C_ !! k = Some (OpString name) ->
    string_operand cfg (operand (encode (byte_of (operation_code o keep)) (Z.of_nat k))) = Some name) as Hs.
  { intros name E. rewrite operand_encode by (apply byte_of_range || (apply lookup_lt_Some in E; lia)).
    unfold string_operand. by rewrite Nat2Z.id, E. }
  destruct o; cbn [op_wf operation_code] in *; try (destruct Hw as [-> ->]; reflexivity); [by destruct Hw|..];
    destruct Hw as (-> & -> & Hw); rewrite (Hs _ Hw); reflexivity.
Qed.

(** ** Expressions *)

Definition simulated (t : Tree) : Prop := forall a stk s v,
  wf C_ t -> code_at a (gen a t) -> mach a stk s v -> Z.of_nat (length stk) + need t <= S_ ->
  pushes (eval t s) a (a + tlen t) stk v.

Lemma eval_grown t s : (count s <= count (eval t s).2)%nat.
Proof. by apply eval_grows. Qed.

Lemma call_grown p f pt a s : (count s <= count (call (root_ cfg) await p f pt a s).2)%nat.
Proof. by apply call_grows. Qed.

Lemma eval_list_grown l s : (count s <= count (eval_list eval l s).2)%nat.
Proof. apply eval_list_grows. apply Forall_forall. intros t _ s1. apply eval_grown. Qed.

Lemma all_simulated l : Forall simulated l -> forall a stk s v,
  all_wf C_ l -> code_at a (gen_list gen a l) -> mach a stk s v -> Z.of_nat (length stk) + need_list need 0 l <= S_ ->
  (count (eval_list eval l s).2 <= gen_)%nat ->
  match eval_list eval l s with
  | (inr xs, s') => length xs = length l /\ exists v', turns v v' /\ mach (a + sum_list (tlen <$> l)) (stk ++ xs) s' v'
  | (inl e, s') => exists epc, (a <= epc < a + sum_list (tlen <$> l))%nat /\ fails e epc s' v
  end.
Proof.
  induction 1 as [|t l Ht F IH]; intros a stk s v Hw Hc M Hn Hg.
  { simpl. split; [done|]. exists v. split; [constructor|]. by rewrite Nat.add_0_r, app_nil_r. }
  change (sum_list (tlen <$> t :: l)) with (tlen t + sum_list (tlen <$> l))%nat. cbn [eval_list] in *.
  destruct Hw as [Hw1 Hw2]. simpl in Hc, Hn. apply code_at_app in Hc as [Hc1 Hc2]. rewrite length_gen in Hc2.
  pose proof (need_list_shift l 0 ltac:(lia)) as Hsh. pose proof (need_pos t).
  pose proof (Ht a stk s v Hw1 Hc1 M ltac:(lia)) as P. destruct (eval t s) as [[e|x] s1].
  - destruct (P Hg) as (epc & He & Fl). exists epc. split; [lia|done].
  - pose proof (eval_list_grown l s1) as Hgrow.
    assert ((count (eval_list eval l s1).2 <= gen_)%nat) as Hg1 by (by destruct (eval_list eval l s1) as [[e|xs] s2]).
    destruct P as (v1 & T1 & M1); [simpl; lia|].
    specialize (IH _ _ _ _ Hw2 Hc2 M1 ltac:(rewrite length_app; simpl in *; lia) Hg1).
    clear Hgrow Hg Hg1. destruct (eval_list eval l s1) as [[e|xs] s2].
    + destruct IH as (epc & He & Fl). exists epc. split; [lia|]. by eapply fails_after.
    + destruct IH as (Hl & v2 & T2 & M2). split; [simpl; lia|]. exists v2. split; [by eapply turns_trans|].
      rewrite <- (assoc_L (++)) in M2. by rewrite Nat.add_assoc.
Qed.

Lemma code_at_last a l c p : code_at a (l ++ [(c, p)]) -> code_at a l /\ code_at (a + length l) [(c, p)].
Proof. apply code_at_app. Qed.

Lemma length_args a l : length (gen_list gen a l) = sum_list (tlen <$> l).
Proof. apply length_gen_list. apply Forall_forall. intros t _ b. apply length_gen. Qed.

Lemma code_at_head a x l : code_at a (x :: l) -> code_at a [x] /\ code_at (a + 1) l.
Proof. apply (code_at_app cfg a [x] l). Qed.

(** The instructions of [&&] and [||] after their left operand. *)
Lemma logic_simulated p b l r : simulated r -> forall a stk x s v,
  wf C_ l /\ wf C_ r -> code_at a (gen a (TLogic p b l r)) -> mach (a + tlen l) (stk ++ [x]) s v ->
  Z.of_nat (length stk) + need (TLogic p b l r) <= S_ ->
  pushes (if eqb (logic x (Semantics.store s)) b then eval r s else (inr x, s)) (a + tlen l) (a + (tlen l + 3 + tlen r)) stk v.
Proof.
  intros IHr a stk x s v [_ Hw] Hc M Hn. simpl in Hn.
  pose proof (code_bound _ _ Hc ltac:(simpl; by destruct (gen a l))) as Hb. rewrite length_gen in Hb. simpl in Hb, Hc.
  apply code_at_app in Hc as [_ Hc]. rewrite length_gen in Hc.
  apply code_at_head in Hc as [Hc1 Hc]. apply code_at_head in Hc as [Hc2 Hc]. apply code_at_head in Hc as [Hc3 Hc4].
  destruct (turn_dump cfg await gen_ HS _ _ x stk s v Hc1 M ltac:(lia)) as (v2 & T2 & M2).
  change (stk ++ [x; x]) with (stk ++ [x] ++ [x]) in M2. rewrite (assoc_L (++)) in M2.
  replace (if b then JUMP_IF_FALSE else JUMP_IF_TRUE) with (if negb b then JUMP_IF_TRUE else JUMP_IF_FALSE) in Hc2 by by destruct b.
  destruct (turn_jump_if cfg await gen_ HS _ _ _ _ x (stk ++ [x]) s v2 Hc2 ltac:(lia) M2) as (v3 & T3 & M3).
  replace (eqb (logic x (Semantics.store s)) (negb b)) with (negb (eqb (logic x (Semantics.store s)) b)) in M3
    by (by destruct (logic x (Semantics.store s)), b).
  pose proof (turns_trans cfg await _ _ _ T2 T3) as T.
  destruct (eqb (logic x (Semantics.store s)) b); simpl in M3.
  - destruct (turn_pop cfg await gen_ HS _ _ x stk s v3 Hc3 M3) as (v4 & T4 & M4).
    replace (a + tlen l + 1 + 1 + 1)%nat with (a + tlen l + 3)%nat in * by lia.
    eapply pushes_after with (lo' := (a + tlen l + 3)%nat); [lia|by eapply turns_trans|].
    replace (a + (tlen l + 3 + tlen r))%nat with (a + tlen l + 3 + tlen r)%nat by lia. apply IHr; try done. lia.
  - exists v3. split; [done|]. by replace (a + (tlen l + 3 + tlen r))%nat with (a + tlen l + 3 + tlen r)%nat by lia.
Qed.

(** ... and those of [?:] after its condition. *)
Lemma ternary_simulated p t x y : simulated x -> simulated y -> forall a stk z s v,
  wf C_ t /\ wf C_ x /\ wf C_ y -> code_at a (gen a (TTernary p t x y)) -> mach (a + tlen t) (stk ++ [z]) s v ->
  Z.of_nat (length stk) + need (TTernary p t x y) <= S_ ->
  pushes (if logic z (Semantics.store s) then eval x s else eval y s) (a + tlen t)
    (a + (tlen t + 1 + tlen x + 1 + tlen y)) stk v.
Proof.
  intros IHx IHy a stk z s v (_ & Hwx & Hwy) Hc M Hn. simpl in Hn.
  pose proof (code_bound _ _ Hc ltac:(simpl; by destruct (gen a t))) as Hb. rewrite length_gen in Hb. simpl in Hb, Hc.
  apply code_at_app in Hc as [_ Hc]. rewrite length_gen in Hc. apply code_at_head in Hc as [Hc1 Hc].
  apply code_at_app in Hc as [Hc2 Hc]. rewrite length_gen in Hc. apply code_at_head in Hc as [Hc3 Hc4].
  destruct (turn_jump_if cfg await gen_ HS _ _ false _ z stk s v Hc1 ltac:(lia) M) as (v2 & T2 & M2).
  destruct (logic z (Semantics.store s)); simpl in M2.
  - eapply pushes_after with (lo' := (a + tlen t + 1)%nat); [lia|exact T2|].
    pose proof (IHx _ _ _ _ Hwx Hc2 M2 ltac:(lia)) as P. intros Hg. specialize (P Hg). clear Hg.
    destruct (eval x s) as [[e|w] s1].
    + destruct P as (epc & He & F). exists epc. split; [lia|done].
    + destruct P as (v3 & T3 & M3).
      destruct (turn_jump cfg await gen_ _ _ _ _ _ _ Hc3 ltac:(lia) M3) as (v4 & T4 & M4).
      exists v4. split; [by eapply turns_trans|].
      by replace (a + (tlen t + 1 + tlen x + 1 + tlen y))%nat with (a + tlen t + 1 + tlen x + 1 + tlen y)%nat by lia.
  - eapply pushes_after with (lo' := (a + tlen t + 1 + tlen x + 1)%nat); [lia|exact T2|].
    replace (a + (tlen t + 1 + tlen x + 1 + tlen y))%nat with (a + tlen t + 1 + tlen x + 1 + tlen y)%nat by lia.
    apply IHy; try done. lia.
Qed.

Lemma eval_simulated t : simulated t.
Proof.
  induction t as [p k cv|p|p i|p b|p o k keep l IHl|p k f|p k f l IHl|p k f arr IH|p b l r IHl IHr|p t x y IHt IHx IHy|p i t IH]
    using Tree_ind'; intros a stk s v Hw Hc M Hn; simpl in Hw, Hc, Hn |- *.
  - apply (turn_const cfg await gen_); try done; lia.
  - apply (turn_root cfg await gen_) with (pos := p); try done; lia.
  - apply (turn_var cfg await gen_) with (pos := p); try done; lia.
  - apply (turn_new cfg await gen_); try done; lia.
  - (* operations *)
    destruct Hw as [Ho Hw]. apply code_at_last in Hc as [Hc1 Hc2]. rewrite length_args in Hc2.
    pose proof (all_simulated l IHl a stk s v Hw Hc1 M ltac:(lia)) as P. apply pushes_intro. intros Hg.
    destruct (eval_list eval l s) as [[e|xs] s1].
    + intros _. destruct (P Hg) as (epc & He & F). exists epc. split; [lia|done].
    + pose proof (apply_grows p o keep xs s1). destruct (P ltac:(simpl in *; lia)) as (Hl & v1 & T1 & M1). clear P Hg. rewrite Nat.add_assoc. eapply pushes_after with (lo' := (a + sum_list (tlen <$> l))%nat); [lia|exact T1|].
      eapply (turn_apply cfg await gen_ HS); [exact Hc2| |exact M1|].
      * intros ->. destruct l; [|done]. destruct o; simpl in Ho; try done;
          destruct Ho as [_ Ho]; first [discriminate Ho | destruct Ho as [Ho _]; discriminate Ho].
      * intros v2. rewrite Hl. by apply execute_operation.
  - apply (turn_constant cfg await gen_) with (k := k); try done; lia.
  - destruct Hw as (Ek & Ha & Hw). apply code_at_last in Hc as [Hc1 Hc2]. rewrite length_args in Hc2.
    pose proof (all_simulated l IHl a stk s v Hw Hc1 M ltac:(lia)) as P. apply pushes_intro. intros Hg.
    destruct (eval_list eval l s) as [[e|xs] s1].
    + intros _. destruct (P Hg) as (epc & He & F). exists epc. split; [lia|done].
    + pose proof (call_grown p f (function_pointer f) (ArgList xs) s1). destruct (P ltac:(simpl in *; lia)) as (Hl & v1 & T1 & M1). clear P Hg. rewrite Nat.add_assoc. eapply pushes_after with (lo' := (a + sum_list (tlen <$> l))%nat); [lia|exact T1|].
      rewrite <- Hl in Hc2, Ha. apply (turn_call cfg await gen_) with (k := k); try done; lia.
  - destruct Hw as (Ek & Hw). apply code_at_last in Hc as [Hc1 Hc2]. rewrite length_gen in Hc2. rewrite Nat.add_assoc.
    apply (pushes_bind _ (fun x s1 => call (root_ cfg) await p f (function_pointer f) (ArgSpread x) s1) a (a + tlen arr)); [lia|by apply IH|intros x s1; apply call_grown| |lia].
    intros x s' v' M'. apply (turn_call_spread cfg await gen_) with (k := k); try done; lia.
  - apply (pushes_bind _ (fun x s1 => if eqb (logic x (Semantics.store s1)) b then eval r s1 else (inr x, s1)) a (a + tlen l));
      [lia|apply code_at_app in Hc as [Hc _]; apply IHl; [apply Hw|done|done|lia]|intros x s1; destruct (eqb _ _); [apply eval_grown|done]| |lia].
    intros x s1 v1 M1. by apply (logic_simulated p b l r IHr a stk x s1 v1).
  - apply (pushes_bind _ (fun z s1 => if logic z (Semantics.store s1) then eval x s1 else eval y s1) a (a + tlen t));
      [lia|apply code_at_app in Hc as [Hc _]; apply IHt; [apply Hw|done|done|lia]|intros z s1; destruct (logic _ _); apply eval_grown| |lia].
    intros z s1 v1 M1. by apply (ternary_simulated p t x y IHx IHy a stk z s1 v1).
  - apply (pushes_bind _ (fun x s1 => (inr x, set_var i x s1)) a (a + tlen t)); 
      [lia|apply code_at_app in Hc as [Hc _]; apply IH; [apply Hw|done|done|lia]|done| |lia].
    intros x s1 v1 M1. apply code_at_app in Hc as [_ Hc]. rewrite length_gen in Hc. apply code_at_head in Hc as [Hc1 Hc2].
    destruct (turn_dump cfg await gen_ HS _ _ x stk s1 v1 Hc1 M1 ltac:(lia)) as (v2 & T2 & M2).
    change (stk ++ [x; x]) with (stk ++ [x] ++ [x]) in M2. rewrite (assoc_L (++)) in M2.
    destruct Hw as [Hi Hw]. destruct (turn_store cfg await gen_ HS Hvars _ _ i x (stk ++ [x]) s1 v2 Hc2 Hi M2) as (v3 & T3 & M3).
    exists v3. split; [by eapply turns_trans|]. by replace (a + (tlen t + 2))%nat with (a + tlen t + 1 + 1)%nat by lia.
Qed.

(** ** Statements *)

Local Abbreviation catch_of := (search_catch (exp_ins_ cfg)).
Local Abbreviation exec := (exec (root_ cfg) await).

Definition arrives (h : option nat) (e : Exn) (s : State) (v : InterpreterVm) : Prop :=
  match h with
  | None => exists v1 v', turns v v1 /\ turn cfg await v1 = Halt v' /\ uncaught e s v'
  | Some p => exists v', turns v v' /\ handling cfg gen_ (u64 (Z.of_nat p)) e s v'
  end.

(** Where the machine is when a statement has completed. *)
Definition completes (c : Completion) (s : State) (h : option nat) (next bt ct : nat) (v : InterpreterVm) : Prop :=
  match c with
  | Normal_ => exists v', turns v v' /\ mach next [] s v'
  | Break_ => exists v', turns v v' /\ mach bt [] s v'
  | Continue_ => exists v', turns v v' /\ mach ct [] s v'
  | Return_ x => exists v1 v', turns v v1 /\ turn cfg await v1 = Halt v' /\ succeeded x s v'
  | Throw_ e => arrives h e s v
  end.

Lemma fails_arrives h e epc s v : agree catch_of h epc = true -> fails e epc s v -> arrives h e s v.
Proof.
  unfold agree, arrives. intros Ha (v1 & T & R). unfold raised in R. destruct h as [p|].
  - apply Z.eqb_eq in Ha. rewrite Ha in R. rewrite (proj2 (Z.ltb_ge _ _)) in R by lia. destruct R as (v' & E & Hh).
    exists v'. split; [|done]. eapply turns_trans; [exact T|by apply turns_one].
  - rewrite Ha in R. destruct R as (v' & E & Hh). by exists v1, v'.
Qed.

Lemma completes_after c s h next bt ct v v' : turns v v' -> completes c s h next bt ct v' -> completes c s h next bt ct v.
Proof.
  intros T. destruct c as [| | |x|e]; simpl;
    try (intros (v1 & T1 & M); exists v1; split; [by eapply turns_trans|done]).
  - intros (v1 & v2 & T1 & M). exists v1, v2. split; [by eapply turns_trans|done].
  - destruct h; simpl.
    + intros (v1 & T1 & M). exists v1. split; [by eapply turns_trans|done].
    + intros (v1 & v2 & T1 & M). exists v1, v2. split; [by eapply turns_trans|done].
Qed.

(** A statement that begins with the value of [t]. *)
Lemma value_simulated t s c s' k a h next bt ct v :
  with_value (root_ cfg) await t s k = Some (c, s') -> (count s' <= gen_)%nat ->
  (forall x s1, k x s1 = Some (c, s') -> (count s1 <= count s')%nat) -> wf C_ t -> code_at a (gen a t) -> need t <= S_ -> mach a [] s v ->
  agree_range catch_of h a (tlen t) = true ->
  (forall x s1 v1, k x s1 = Some (c, s') -> mach (a + tlen t) [x] s1 v1 -> completes c s' h next bt ct v1) ->
  completes c s' h next bt ct v.
Proof.
  unfold with_value. intros E Hg Hgrow Hw Hc Hn M Ha Hk.
  pose proof (eval_simulated t a [] s v Hw Hc M ltac:(simpl; lia)) as P. destruct (eval t s) as [[e|x] s1].
  - injection E as <- <-. destruct (P Hg) as (epc & He & F). eapply fails_arrives; [|exact F]. by eapply agree_in.
  - destruct P as (v1 & T1 & M1); [specialize (Hgrow _ _ E); simpl; lia|]. eapply completes_after; [exact T1|]. by eapply Hk.
Qed.

Definition ssimulated (fuel : nat) (st : STree) : Prop := forall s c s' a h bt ct v,
  exec fuel st s = Some (c, s') -> (count s' <= gen_)%nat -> swf C_ st -> handled catch_of h a st = true ->
  code_at a (fill bt ct <$> gen_s a st) -> Z.of_nat bt < 2 ^ 23 -> Z.of_nat ct < 2 ^ 23 -> sneed st <= S_ -> mach a [] s v ->
  completes c s' h (a + slen st) bt ct v.

Lemma exec_grown fuel st s c s' : exec fuel st s = Some (c, s') -> (count s <= count s')%nat.
Proof. by apply exec_grows. Qed.

Lemma agree_range_app h a n1 n2 : agree_range catch_of h a (n1 + n2) = true ->
  agree_range catch_of h a n1 = true /\ agree_range catch_of h (a + n1) n2 = true.
Proof. unfold agree_range. rewrite seq_app, forallb_app. apply andb_true_iff. Qed.

(** The rounds of a [for] loop; [start] is the address of its [ITERATE_NEXT]. *)
Lemma loop_simulated fuel body p iter key value start h : ssimulated fuel body ->
  in_table C_ iter -> in_table C_ key -> in_table C_ value -> swf C_ body -> 1 <= S_ -> sneed body <= S_ ->
  handled catch_of h (start + 4) body = true ->
  let stop := (start + 4 + slen body + 1)%nat in
  code_at start ([op ITERATE_NEXT iter p; op JUMP_IF_FALSE stop p; (iterator_code ITERATE_KEY key iter, p);
                  (iterator_code ITERATE_VALUE value iter, p)] ++ (fill stop start <$> gen_s (start + 4) body) ++ [op JUMP start p]) ->
  forall n s c s' v bt ct, loop (exec fuel body) iter key value n s = Some (c, s') -> (count s' <= gen_)%nat -> mach start [] s v ->
  completes c s' h stop bt ct v.
Proof.
  intros Hbody Hi Hk Hv Hw H1 Hn Hh stop Hc.
  pose proof (code_bound _ _ Hc ltac:(done)) as Hb. rewrite !length_app, length_fmap, length_gen_s in Hb. simpl in Hb.
  apply (code_at_app cfg start [_; _; _; _]) in Hc as [Hc5 Hc]. apply code_at_app in Hc as [Hc Hc6].
  rewrite length_fmap, length_gen_s in Hc6. simpl in Hc, Hc6.
  apply code_at_head in Hc5 as [Hc1 Hc5]. apply code_at_head in Hc5 as [Hc2 Hc5]. apply code_at_head in Hc5 as [Hc3 Hc4].
  induction n as [|n IH]; intros s c s' v bt ct E Hg M; [done|]. simpl in E.
  pose proof (turn_iterate_next cfg await gen_ HS Hvars start p iter [] s v Hc1 Hi M ltac:(simpl; lia)) as T1.
  destruct (iterator_next (var iter s) (Semantics.store s)) as [more hp]. destruct T1 as (v1 & T1 & M1).
  destruct (turn_jump_if cfg await gen_ HS _ _ false stop _ [] _ v1 Hc2 ltac:(unfold stop; lia) M1) as (v2 & T2 & M2).
  rewrite logic_boolean in M2. pose proof (turns_trans cfg await _ _ _ T1 T2) as T. destruct more; simpl in M2; cycle 1.
  { injection E as <- <-. exists v2. done. }
  destruct (turn_iterator_field cfg await gen_ Hvars true _ _ key iter [] _ v2 Hc3 Hk Hi M2) as (v3 & T3 & M3).
  destruct (turn_iterator_field cfg await gen_ Hvars false _ _ value iter [] _ v3 Hc4 Hv Hi M3) as (v4 & T4 & M4).
  eapply completes_after; [exact T|]. eapply completes_after; [exact T3|]. eapply completes_after; [exact T4|].
  clear T1 T2 T3 T4 T M1 M2 M3 Hc1 Hc2 Hc3 Hc4.
  replace (start + 1 + 1 + 1 + 1)%nat with (start + 4)%nat in * by lia.
  destruct (exec fuel body _) as [[c1 s4]|] eqn:Eb; [|done]. simpl in E.
  assert ((count s4 <= gen_)%nat) as Hg4.
  { assert (loop (exec fuel body) iter key value n s4 = Some (c, s') -> (count s4 <= count s')%nat) as Hloop.
    { apply loop_grows. intros sa ca sb Ea. by eapply exec_grown. }
    destruct c1; try (by injection E as _ ->); specialize (Hloop E); lia. }
  pose proof (Hbody _ _ _ _ h stop start v4 Eb Hg4 Hw Hh Hc ltac:(unfold stop; lia) ltac:(lia) Hn M4) as B.
  assert (forall v5, mach start [] s4 v5 -> loop (exec fuel body) iter key value n s4 = Some (c, s') ->
    completes c s' h stop bt ct v5) as Hagain by (intros v5 M5 E5; by eapply IH).
  destruct c1 as [| | |x|e]; simpl in B.
  - destruct B as (v5 & T5 & M5). destruct (turn_jump cfg await gen_ _ _ _ _ _ _ Hc6 ltac:(lia) M5) as (v6 & T6 & M6).
    eapply completes_after; [exact T5|]. eapply completes_after; [exact T6|]. by apply Hagain.
  - injection E as <- <-. exact B.
  - destruct B as (v5 & T5 & M5). eapply completes_after; [exact T5|]. by apply Hagain.
  - injection E as <- <-. exact B.
  - injection E as <- <-. exact B.
Qed.

Lemma code_items bt ct (l : list (Z * Z)) l' a : code_at a (fill bt ct <$> ((known <$> l) ++ l')) ->
  code_at a l /\ code_at (a + length l) (fill bt ct <$> l').
Proof. rewrite fmap_app, fill_known. apply code_at_app. Qed.

Lemma code_known bt ct (l : list (Z * Z)) a : code_at a (fill bt ct <$> (known <$> l)) -> code_at a l.
Proof. by rewrite fill_known. Qed.

(** A value, then one instruction. *)
Lemma code_value bt ct t (x : Z * Z) a : code_at a (fill bt ct <$> (known <$> (gen a t ++ [x]))) ->
  code_at a (gen a t) /\ code_at (a + tlen t) [x].
Proof. intros Hc. apply code_known, code_at_app in Hc as [H1 H2]. by rewrite length_gen in H2. Qed.

Lemma exec_simulated fuel st : ssimulated fuel st.
Proof.
  induction st as [|s1 IH1 s2 IH2|p t|p i t|p t|p t|p t s1 IH1 s2 IH2|p iter key value coll body IH|p i t IHt c0 IHc|p|p];
    intros s c s' a h bt ct v E Hg Hw Hh Hc Hbt Hct Hn M; cbn [Semantics.exec] in E; simpl in Hw, Hh, Hn; cbn [slen].
  - injection E as <- <-. exists v. rewrite Nat.add_0_r. split; [constructor|done].
  - destruct Hw as [Hw1 Hw2]. apply andb_true_iff in Hh as [Hh1 Hh2]. simpl in Hc. rewrite fmap_app in Hc.
    apply code_at_app in Hc as [Hc1 Hc2]. rewrite length_fmap, length_gen_s in Hc2.
    destruct (exec fuel s1 s) as [[c1 s3]|] eqn:E1; [|done]. simpl in E. rewrite Nat.add_assoc.
    assert ((count s3 <= gen_)%nat) as Hg3.
    { destruct c1; try (by injection E as _ ->). pose proof (exec_grown _ _ _ _ _ E). lia. }
    pose proof (IH1 _ _ _ _ _ _ _ _ E1 Hg3 Hw1 Hh1 Hc1 Hbt Hct ltac:(lia) M) as B.
    destruct c1; try (injection E as <- <-; exact B).
    destruct B as (v1 & T1 & M1). eapply completes_after; [exact T1|].
    by apply (IH2 _ _ _ _ _ _ _ _ E Hg Hw2 Hh2 Hc2 Hbt Hct ltac:(lia) M1).
  - apply code_value in Hc as [Hc1 Hc2]. apply agree_range_app in Hh as [Hh1 Hh2].
    eapply value_simulated; [exact E|done|intros x s1 E1; by injection E1 as _ <-|done..|]. intros x s1 v1 E1 M1. injection E1 as <- <-.
    rewrite Nat.add_assoc. by apply (turn_pop cfg await gen_ HS _ p x []).
  - apply code_value in Hc as [Hc1 Hc2]. apply agree_range_app in Hh as [Hh1 Hh2]. destruct Hw as [Hi Hw].
    eapply value_simulated; [exact E|done|intros x s1 E1; by injection E1 as _ <-|done..|]. intros x s1 v1 E1 M1. injection E1 as <- <-.
    rewrite Nat.add_assoc. by apply (turn_store cfg await gen_ HS Hvars _ p i x []).
  - apply code_value in Hc as [Hc1 Hc2]. apply agree_range_app in Hh as [Hh1 Hh2].
    eapply value_simulated; [exact E|done|intros x s1 E1; by injection E1 as _ <-|done..|]. intros x s1 v1 E1 M1. injection E1 as <- <-.
    destruct (turn_return cfg await gen_ _ p x [] s1 v1 Hc2 M1) as (v' & T & Hs). exists v1, v'. split; [constructor|done].
  - apply code_value in Hc as [Hc1 Hc2]. apply agree_range_app in Hh as [Hh1 Hh2].
    eapply value_simulated; [exact E|done|intros x s1 E1; by injection E1 as _ <-|done..|]. intros x s1 v1 E1 M1. injection E1 as <- <-.
    eapply fails_arrives; [|by apply (turn_throw cfg await gen_ HS _ p x [])]. eapply agree_in; [exact Hh2|lia].
  - (* if *)
    destruct Hw as (Hw & Hw1 & Hw2). apply andb_true_iff in Hh as [Hh Hh2]. apply andb_true_iff in Hh as [Hh Hh1].
    pose proof (code_bound _ _ Hc ltac:(simpl; by destruct (gen a t))) as Hb. rewrite length_fmap, length_gen_s in Hb. simpl in Hb.
    simpl in Hc. apply code_items in Hc as [Hc1 Hc]. apply code_at_last in Hc1 as [Hc1 Hc2]. rewrite length_app, length_gen in *. simpl length in Hc.
    rewrite fmap_app in Hc. apply code_at_app in Hc as [Hc3 Hc]. rewrite length_fmap, length_gen_s in Hc.
    apply (code_items bt ct [_]) in Hc as [Hc4 Hc5]. simpl length in Hc5.
    replace (a + (tlen t + 1))%nat with (a + tlen t + 1)%nat in * by lia.
    replace (a + (tlen t + 1 + slen s1 + 1 + slen s2))%nat with (a + tlen t + 1 + slen s1 + 1 + slen s2)%nat by lia.
    eapply value_simulated; [exact E|done| |done|done|lia|done|done|].
    { intros x sx E1. cbv beta in E1. destruct (logic _ _); by eapply exec_grown. }
    intros x sx v1 E1 M1. cbv beta in E1.
    destruct (turn_jump_if cfg await gen_ HS _ p false _ x [] _ v1 Hc2 ltac:(lia) M1) as (v2 & T2 & M2).
    eapply completes_after; [exact T2|]. clear T2 M1.
    destruct (logic x (Semantics.store sx)); simpl in M2.
    + pose proof (IH1 _ _ _ _ _ _ _ _ E1 Hg Hw1 Hh1 Hc3 Hbt Hct ltac:(lia) M2) as B. destruct c; try exact B.
      destruct B as (v3 & T3 & M3). destruct (turn_jump cfg await gen_ _ p _ _ _ _ Hc4 ltac:(lia) M3) as (v4 & T4 & M4).
      exists v4. split; [by eapply turns_trans|done].
    + by apply (IH2 _ _ _ _ _ _ _ _ E1 Hg Hw2 Hh2 Hc5 Hbt Hct ltac:(lia) M2).
  - (* for *)
    destruct Hw as (Hi & Hk & Hv & Hw & Hwb). apply andb_true_iff in Hh as [Hh Hhb]. apply agree_range_app in Hh as [Hh1 Hh2].
    simpl in Hc. apply code_known, code_at_app in Hc as [Hc1 Hc]. rewrite length_gen in Hc. apply code_at_head in Hc as [Hc2 Hc].
    replace (a + (tlen coll + 5 + slen body + 1))%nat with (a + tlen coll + 1 + 4 + slen body + 1)%nat by lia.
    assert (forall x s1, (let '(r, hp) := operate Unaries_iterate [x] [] (Semantics.store s1) in
              match r with
              | inl e => Some (Throw_ (failed p e), with_store hp s1)
              | inr it => loop (exec fuel body) iter key value fuel (set_var iter it (with_store hp s1))
              end) = Some (c, s') -> (collections (operate Unaries_iterate [x] [] (Semantics.store s1)).2 <= count s')%nat) as Hgi.
    { intros x s1 E1. destruct (operate _ _ _ _) as [[err|it] hp]; [by injection E1 as _ <-|].
      apply loop_grows in E1; [exact E1|]. intros sa ca sb Ea. by eapply exec_grown. }
    eapply value_simulated; [exact E|done| |done|done|lia|done|done|].
    { intros x s1 E1. pose proof (Hgi x s1 E1). pose proof (operate_count Unaries_iterate [x] (Semantics.store s1)).
      unfold count at 1. lia. }
    intros x s1 v1 E1 M1. cbv beta in E1. pose proof (Hgi x s1 E1) as Hg1. clear Hgi.
    pose proof (turn_iterate_into cfg await gen_ HS Hvars _ p iter x [] s1 v1 Hc2 Hi M1 ltac:(lia)) as T1. clear Hg1.
    destruct (operate Unaries_iterate [x] [] (Semantics.store s1)) as [[err|it] hp].
    + injection E1 as <- <-. eapply fails_arrives; [|exact T1]. eapply agree_in; [exact Hh2|lia].
    + destruct T1 as (v2 & T2 & M2). eapply completes_after; [exact T2|].
      replace (a + tlen coll + 5)%nat with (a + tlen coll + 1 + 4)%nat in Hhb by lia.
      by apply (loop_simulated fuel body p iter key value (a + tlen coll + 1) h IH Hi Hk Hv Hwb ltac:(lia) ltac:(lia) Hhb Hc fuel _ _ _ v2 bt ct E1 Hg).
  - (* try *)
    destruct Hw as (Hi & Hwt & Hwc). apply andb_true_iff in Hh as [Hh Hhc]. apply andb_true_iff in Hh as [Hht Ha].
    pose proof (code_bound _ _ Hc ltac:(simpl; by destruct (gen_s a t))) as Hb. rewrite length_fmap, length_gen_s in Hb. simpl in Hb.
    simpl in Hc. rewrite fmap_app in Hc. apply code_at_app in Hc as [Hc1 Hc]. rewrite length_fmap, length_gen_s in Hc.
    apply (code_items bt ct [_; _]) in Hc as [Hc Hc4]. apply code_at_head in Hc as [Hc2 Hc3]. simpl length in Hc4.
    replace (a + slen t + 2)%nat with (a + slen t + 1 + 1)%nat in Hc4 by lia.
    replace (a + (slen t + 1 + 1 + slen c0))%nat with (a + slen t + 1 + 1 + slen c0)%nat by lia.
    destruct (exec fuel t s) as [[c1 s1]|] eqn:E1; [|done]. simpl in E.
    assert ((count s1 <= gen_)%nat /\ forall e, c1 = Throw_ e -> (count (catch_value p e s1).2 <= gen_)%nat) as [Hg1 Hgc].
    { destruct c1; try (injection E as _ ->; split; [done|by intros e]).
      pose proof (catch_value_grows p e s1) as Hcg.
      assert ((count (catch_value p e s1).2 <= gen_)%nat) as Hcv.
      { destruct (catch_value p e s1) as [[e'|x] s2]; [by injection E as _ ->|]. pose proof (exec_grown _ _ _ _ _ E) as Hx.
        change (count (set_var i x s2)) with (count s2) in Hx. simpl. lia. }
      split; [lia|]. by intros e0 [= <-]. }
    pose proof (IHt _ _ _ _ _ _ _ _ E1 Hg1 Hwt Hht Hc1 Hbt Hct ltac:(lia) M) as B.
    destruct c1 as [| | |x|e]; try (injection E as <- <-; exact B).
    + injection E as <- <-. destruct B as (v3 & T3 & M3).
      destruct (turn_jump cfg await gen_ _ p _ _ _ _ Hc2 ltac:(lia) M3) as (v4 & T4 & M4).
      exists v4. split; [by eapply turns_trans|done].
    + destruct B as (v3 & T3 & M3). eapply completes_after; [exact T3|]. rewrite u64_small in M3 by lia.
      pose proof (turn_into_catch cfg await gen_ Hvars _ p i e s1 v3 Hc3 Hi M3 (Hgc e eq_refl)) as T4. clear Hgc.
      destruct (catch_value p e s1) as [[e'|x] s2].
      * injection E as <- <-. by eapply fails_arrives.
      * destruct T4 as (v4 & T4 & M4). eapply completes_after; [exact T4|].
        by apply (IHc _ _ _ _ _ _ _ _ E Hg Hwc Hhc Hc4 Hbt Hct ltac:(lia) M4).
  - injection E as <- <-. apply (code_known bt ct [_]) in Hc || simpl in Hc.
    destruct (turn_jump cfg await gen_ _ p _ _ _ _ Hc Hbt M) as (v4 & T4 & M4). by exists v4.
  - injection E as <- <-. simpl in Hc.
    destruct (turn_jump cfg await gen_ _ p _ _ _ _ Hc Hct M) as (v4 & T4 & M4). by exists v4.
Qed.

End Simulation.
End Correct.
