(* ===== verification/ScriptNames.v ===== *)
(** * Name resolution yields well-formed trees

    Every index [resolve_root] writes in the tree is valid in the tables the
    compiled unit ends with: operands are only appended, the caches of the
    compiler name the operands they were filled for, and a variable index is
    below the size of the variable table. *)
From S2P Require Import Prelude ScriptAst ScriptWords ScriptCompiler ScriptVm ScriptTree ScriptSemantics.
From S2P Require Import ScriptCompile ScriptMachine ScriptCorrect.
Import Ast Code Compiler Tree Correct.

Module Resolution.

(** Calls whose arguments fit the byte the instruction has for their number. *)
Fixpoint narrow (t : Tree) : bool :=
  match t with
  | TConst _ _ _ | TRoot _ | TVar _ _ | TNew _ _ | TConstant _ _ _ => true
  | TOp _ _ _ _ args => forallb narrow args
  | TCall _ _ _ args => (length args <=? 255)%nat && forallb narrow args
  | TCallSpread _ _ _ arr => narrow arr
  | TLogic _ _ l r => narrow l && narrow r
  | TTernary _ t a b => narrow t && narrow a && narrow b
  | TSetVar _ _ t => narrow t
  end.

Fixpoint snarrow (s : STree) : bool :=
  match s with
  | SSkip | SBreak _ | SContinue _ => true
  | SSeq a b => snarrow a && snarrow b
  | SExpr _ t | SStore _ _ t | SReturn _ t | SThrow _ t => narrow t
  | SIf _ t a b => narrow t && snarrow a && snarrow b
  | SForeach _ _ _ _ coll body => narrow coll && snarrow body
  | STry _ _ t c => snarrow t && snarrow c
  end.

(** ** The tables *)

Record good (n : Names) : Prop := {
  good_pointers : forall p i, operand_cache_ n !! p = Some i -> nm_operands n !! i = Some (OpPointer p);
  good_strings : forall s i, string_operands_ n !! s = Some i -> nm_operands n !! i = Some (OpString s);
  good_undef : forall i, undef_const_ n = Some i -> nm_operands n !! i = Some (OpConst CUndefined);
  good_null : forall i, null_const_ n = Some i -> nm_operands n !! i = Some (OpConst CNull);
  good_true : forall i, true_const_ n = Some i -> nm_operands n !! i = Some (OpConst (CBoolean true));
  good_false : forall i, false_const_ n = Some i -> nm_operands n !! i = Some (OpConst (CBoolean false));
  good_scopes : Forall (map_Forall (fun _ i => i < next_var_index_ n)%nat) (scopes_ n);
}.

(** What a tree sees of the tables. *)
Definition view (n : Names) : Compiled := mkCompiled 1 (next_var_index_ n) [] [] (nm_operands n) [].

Definition le (c c' : Compiled) : Prop :=
  (var_table_size c <= var_table_size c')%nat /\ (forall k x, operands c !! k = Some x -> operands c' !! k = Some x).

#[local] Instance le_preorder : PreOrder le.
Proof.
  split; [by intros c|]. intros c1 c2 c3 [H1 H1'] [H2 H2']. split; [lia|auto].
Qed.

Definition mono (Q : Compiled -> Prop) : Prop := forall c c', le c c' -> Q c -> Q c'.

Lemma mono_true : mono (fun _ => True).
Proof. done. Qed.
Lemma mono_and P Q : mono P -> mono Q -> mono (fun c => P c /\ Q c).
Proof. intros HP HQ c c' Hle [H1 H2]. split; [by eapply HP|by eapply HQ]. Qed.
Lemma mono_impl (A : Prop) P : mono P -> mono (fun c => A -> P c).
Proof. intros HP c c' Hle H1 HA. eapply HP; [done|auto]. Qed.
Lemma mono_operand k x : mono (fun c => operands c !! k = Some x).
Proof. intros c c' [_ Hle]. apply Hle. Qed.
Lemma mono_table i : mono (fun c => in_table c i).
Proof. intros c c' [Hle _] Hi. unfold in_table in *. lia. Qed.

Create HintDb mono.
#[local] Hint Resolve mono_true mono_and mono_impl mono_operand mono_table : mono.

Lemma mono_op o k keep n : mono (fun c => op_wf c o k keep n).
Proof. intros c c' [_ Hle] Hw. destruct o; simpl in *; intuition auto. Qed.

Lemma mono_wf t : mono (fun c => wf c t).
Proof.
  intros c c' Hle.
  assert (forall l, Forall (fun t => wf c t -> wf c' t) l -> all_wf c l -> all_wf c' l) as Hall.
  { induction 1; simpl; [done|]. intros [? ?]. auto. }
  induction t using Tree_ind'; simpl; intros Hw; destruct_and?; repeat split; auto;
    try (by eapply mono_operand); try (by eapply mono_table); try (by eapply mono_op); by apply (Hall _ H).
Qed.

Lemma mono_swf s : mono (fun c => swf c s).
Proof.
  intros c c' Hle. induction s; simpl; intros Hw; destruct_and?; repeat split; auto;
    try (by eapply mono_table); by eapply mono_wf.
Qed.
#[local] Hint Resolve mono_wf mono_swf mono_op : mono.

(** ** Rules for the resolution monad *)

Definition makes {A} (Q : Compiled -> Prop) (r : NM A) (P : Compiled -> A -> Prop) : Prop :=
  forall n x n', good n -> Q (view n) -> r n = (x, n') -> good n' /\ le (view n) (view n') /\ P (view n') x.

Lemma makes_ret {A} (Q : Compiled -> Prop) (x : A) (P : Compiled -> A -> Prop) : (forall c, Q c -> P c x) -> makes Q (mret x) P.
Proof. intros HP n y n' Hg HQ E. injection E as <- <-. split; [done|]. split; [done|auto]. Qed.

Lemma makes_bind {A B} Q (r : NM A) P (k : A -> NM B) R :
  mono Q -> makes Q r P -> (forall x, makes (fun c => Q c /\ P c x) (k x) R) -> makes Q (r ≫= k) R.
Proof.
  intros HQ Hr Hk n y n' Hg Hq E. unfold mbind, NM_bind in E. destruct (r n) as [x n1] eqn:E1.
  destruct (Hr n x n1 Hg Hq E1) as (Hg1 & Hle1 & Hp). destruct (Hk x n1 y n' Hg1) as (Hg2 & Hle2 & HR); [|done|].
  - split; [by eapply HQ|done].
  - split; [done|]. split; [by etransitivity|done].
Qed.

Lemma makes_weaken {A} (Q Q' : Compiled -> Prop) (r : NM A) (P P' : Compiled -> A -> Prop) :
  (forall c, Q' c -> Q c) -> makes Q r P -> (forall c x, P c x -> P' c x) -> makes Q' r P'.
Proof. intros HQ Hr HP n x n' Hg Hq E. destruct (Hr n x n' Hg (HQ _ Hq) E) as (? & ? & ?). auto. Qed.

(** ** Operands *)

Lemma lookup_snoc {A} (l : list A) k x y : l !! k = Some x -> (l ++ [y]) !! k = Some x.
Proof. apply lookup_app_l_Some. Qed.

Lemma le_snoc n n' x : nm_operands n' = nm_operands n ++ [x] -> next_var_index_ n' = next_var_index_ n -> le (view n) (view n').
Proof. intros E1 E2. unfold le, view. simpl. rewrite E1, E2. split; [done|]. intros k y. apply lookup_snoc. Qed.

Lemma lookup_new (l : list Operand) x : (l ++ [x]) !! length l = Some x.
Proof. by apply list_lookup_middle. Qed.

(** A table that grows keeps what the caches say. *)
Ltac kept := solve [eauto using good_pointers, good_strings, good_undef, good_null, good_true, good_false, good_scopes].
Ltac grown := constructor; simpl; intros; try kept; try (apply lookup_snoc; kept).

Lemma makes_operand p : makes (fun _ => True) (operand_in p) (fun c k => operands c !! k = Some (OpPointer p)).
Proof.
  intros n k n' Hg _. unfold operand_in. destruct (operand_cache_ n !! p) as [i|] eqn:E; intros E1; injection E1 as <- <-.
  - split; [done|]. split; [done|]. by apply good_pointers.
  - split; [|split; [by eapply le_snoc|apply lookup_new]]. grown.
    destruct (decide (p = p0)) as [->|]; simplify_map_eq; [apply lookup_new|]. apply lookup_snoc. by apply good_pointers.
Qed.

Lemma makes_string s : makes (fun _ => True) (string_in s) (fun c k => operands c !! k = Some (OpString s)).
Proof.
  intros n k n' Hg _. unfold string_in. destruct (string_operands_ n !! s) as [i|] eqn:E; intros E1; injection E1 as <- <-.
  - split; [done|]. split; [done|]. by apply good_strings.
  - split; [|split; [by eapply le_snoc|apply lookup_new]]. grown.
    destruct (decide (s = s0)) as [->|]; simplify_map_eq; [apply lookup_new|]. apply lookup_snoc. by apply good_strings.
Qed.

Lemma makes_const cv : makes (fun _ => True) (const_in cv) (fun c k => operands c !! k = Some (OpConst cv)).
Proof.
  intros n k n' Hg _ E. injection E as <- <-. split; [|split; [by eapply le_snoc|apply lookup_new]]. grown.
Qed.

Lemma makes_undefined : makes (fun _ => True) undefined_in (fun c k => operands c !! k = Some (OpConst CUndefined)).
Proof.
  intros n k n' Hg _. unfold undefined_in. destruct (undef_const_ n) as [i|] eqn:E; simpl; intros E1; injection E1 as <- <-.
  - split; [done|]. split; [done|]. by apply good_undef.
  - split; [|split; [by eapply le_snoc|apply lookup_new]]. grown. simplify_eq. apply lookup_new.
Qed.

Lemma makes_null : makes (fun _ => True) null_in (fun c k => operands c !! k = Some (OpConst CNull)).
Proof.
  intros n k n' Hg _. unfold null_in. destruct (null_const_ n) as [i|] eqn:E; simpl; intros E1; injection E1 as <- <-.
  - split; [done|]. split; [done|]. by apply good_null.
  - split; [|split; [by eapply le_snoc|apply lookup_new]]. grown. simplify_eq. apply lookup_new.
Qed.

Lemma makes_bool b : makes (fun _ => True) (bool_in b) (fun c k => operands c !! k = Some (OpConst (CBoolean b))).
Proof.
  intros n k n' Hg _. unfold bool_in.
  destruct b; [destruct (true_const_ n) as [i|] eqn:E|destruct (false_const_ n) as [i|] eqn:E]; simpl; intros E1; injection E1 as <- <-;
    try (split; [done|]; split; [done|]; (by apply good_true) || by apply good_false);
    (split; [|split; [by eapply le_snoc|apply lookup_new]]); grown; simplify_eq; apply lookup_new.
Qed.

Lemma makes_literal l : makes (fun _ => True) (literal_in l) (fun c k => operands c !! k = Some (OpConst (literal_value l))).
Proof. destruct l; [apply makes_null|apply makes_bool|apply makes_const..]. Qed.

(** ** Variables *)

Lemma good_set_scopes sc next n : good n -> (next_var_index_ n <= next)%nat ->
  Forall (map_Forall (fun _ i => i < next)%nat) sc -> good (set_scopes sc next n).
Proof. intros Hg Hn Hs. grown. Qed.

Lemma le_set_scopes sc next n : (next_var_index_ n <= next)%nat -> le (view n) (view (set_scopes sc next n)).
Proof. by split. Qed.

Lemma scopes_mono next next' (sc : list (gmap string nat)) : (next <= next')%nat -> Forall (map_Forall (fun _ i => i < next)%nat) sc ->
  Forall (map_Forall (fun _ i => i < next')%nat) sc.
Proof.
  intros Hle Hs. induction Hs as [|m l Hm Hl IH]; constructor; [|done]. eapply map_Forall_impl; [exact Hm|]. simpl. lia.
Qed.

Lemma makes_declare x : makes (fun _ => True) (declare_in x) (fun c i => in_table c i).
Proof.
  intros n i n' Hg _. unfold declare_in. set (sc := match scopes_ n with [] => [∅] | l => l end).
  assert (Forall (map_Forall (fun _ i => i < next_var_index_ n)%nat) sc) as Hsc.
  { pose proof (good_scopes n Hg). unfold sc. destruct (scopes_ n); [|done]. repeat constructor. apply map_Forall_empty. }
  assert (exists m l, sc = m :: l) as (m & l & Esc) by (unfold sc; destruct (scopes_ n); eauto). rewrite Esc in *. simpl.
  inversion Hsc as [|? ? Hm Hl]; subst. destruct (m !! x) as [j|] eqn:E; intros E1; injection E1 as <- <-.
  - split; [apply good_set_scopes; auto with lia|]. split; [by apply le_set_scopes|]. by apply (Hm x).
  - split; [|split; [apply le_set_scopes; lia|unfold in_table; simpl; lia]].
    apply good_set_scopes; [done|lia|]. constructor.
    + apply map_Forall_insert_2; [lia|]. eapply map_Forall_impl; [exact Hm|]. simpl. lia.
    + eapply scopes_mono; [|exact Hl]. lia.
Qed.

Lemma makes_resolve x : makes (fun _ => True) (resolve_in x) (fun c i => in_table c i).
Proof.
  intros n i n' Hg _. unfold resolve_in. destruct (lookup_scopes x (scopes_ n)) as [j|] eqn:E; [|by apply makes_declare].
  intros E1. injection E1 as <- <-. split; [done|]. split; [done|]. unfold in_table. simpl.
  pose proof (good_scopes n Hg) as Hs. induction Hs as [|m l Hm Hl IH]; [done|]. simpl in E.
  destruct (m !! x) eqn:Em; [|by apply IH]. injection E as <-. by apply (Hm x).
Qed.

Lemma makes_temp : makes (fun _ => True) reserve_temp_in (fun c i => in_table c i).
Proof.
  intros n i n' Hg _ E. injection E as <- <-. split; [|split; [apply le_set_scopes; lia|unfold in_table; simpl; lia]].
  apply good_set_scopes; [done|lia|]. eapply scopes_mono; [|apply (good_scopes n Hg)]. lia.
Qed.

Lemma makes_push : makes (fun _ => True) push_scope_in (fun _ _ => True).
Proof.
  intros n i n' Hg _ E. injection E as <- <-. split; [|split; [by apply le_set_scopes|done]].
  apply good_set_scopes; [done|done|]. constructor; [apply map_Forall_empty|apply (good_scopes n Hg)].
Qed.

Lemma makes_pop : makes (fun _ => True) pop_scope_in (fun _ _ => True).
Proof.
  intros n i n' Hg _ E. injection E as <- <-. split; [|split; [by apply le_set_scopes|done]].
  apply good_set_scopes; [done|done|]. pose proof (good_scopes n Hg) as Hs. destruct Hs; simpl; [constructor|done].
Qed.

(** ** Expressions *)

Definition twf (c : Compiled) (t : Tree) : Prop := narrow t = true -> wf c t.
Definition tswf (c : Compiled) (s : STree) : Prop := snarrow s = true -> swf c s.
Definition twfs (c : Compiled) (l : list Tree) : Prop := forallb narrow l = true -> all_wf c l.

Lemma mono_twf t : mono (fun c => twf c t).
Proof. apply mono_impl, mono_wf. Qed.
Lemma mono_tswf t : mono (fun c => tswf c t).
Proof. apply mono_impl, mono_swf. Qed.
Lemma mono_twfs l : mono (fun c => twfs c l).
Proof. apply mono_impl. induction l as [|t l IH]; simpl; [apply mono_true|apply mono_and; [apply mono_wf|exact IH]]. Qed.
#[local] Hint Resolve mono_twf mono_tswf mono_twfs : mono.

Lemma makes_then {A B} Q (r : NM A) P (k : A -> NM B) R :
  makes (fun _ => True) r P -> mono Q -> (forall x, makes (fun c => Q c /\ P c x) (k x) R) -> makes Q (r ≫= k) R.
Proof. intros Hr HQ Hk. eapply makes_bind; [done| |exact Hk]. eapply (makes_weaken (fun _ => True)); [done|exact Hr|done]. Qed.

(** One step of a resolution: what it makes, that what is known stays known. *)
Ltac next L := apply (makes_then _ _ _ _ _ L); [auto 10 with mono|intros ?].
Ltac finish := apply makes_ret; intros ? Hall; unfold twf, tswf, twfs in *; simpl; intros Hn; bool_to_prop;
  destruct_and?; repeat split; auto.

Lemma makes_map_each (f : Expression -> NM Tree) l : Forall (fun e => makes (fun _ => True) (f e) twf) l ->
  makes (fun _ => True) (map_each f l) twfs.
Proof.
  induction 1 as [|e l He F IH]; simpl; [by apply makes_ret|]. next He. next IH. finish.
Qed.

Lemma makes_fold_each {A} (f : Tree -> A -> NM Tree) l :
  Forall (fun x => forall acc, makes (fun c => twf c acc) (f acc x) twf) l ->
  forall acc, makes (fun c => twf c acc) (fold_each f acc l) twf.
Proof.
  induction 1 as [|e l He F IH]; intros acc; simpl; [by apply makes_ret|].
  eapply makes_bind; [apply mono_twf|apply He|]. intros x. eapply makes_weaken; [|apply IH|auto]. tauto.
Qed.

Local Abbreviation resolved e := (makes (fun _ => True) (resolve_expression e) twf).

(** An operation on a tree under construction and one more value. *)
Lemma makes_add p o e acc : (forall c, op_wf c o 0 true 2) -> resolved e ->
  makes (fun c => twf c acc) (t ← resolve_expression e; mret (TOp p o 0 true [acc; t])) twf.
Proof. intros Ho He. next He. finish. Qed.

Lemma makes_item p e acc : resolved e -> makes (fun c => twf c acc) (resolve_item resolve_expression p acc e) twf.
Proof. intros He. by destruct e; apply makes_add. Qed.

Lemma makes_entry p e acc : entry_all (fun e => resolved e) e ->
  makes (fun c => twf c acc) (resolve_entry resolve_expression p acc e) twf.
Proof.
  destruct e as [key v|k v|v]; simpl.
  - intros Hv. next (makes_string key). next Hv. finish.
  - intros [Hk Hv]. next Hk. next Hv. finish.
  - intros Hv. by apply makes_add.
Qed.

Lemma makes_assign p lhs rhs : assign_all (fun e => resolved e) lhs -> resolved rhs ->
  makes (fun _ => True) (resolve_assign resolve_expression p lhs rhs) twf.
Proof.
  intros Hl Hr. destruct lhs; simpl in *; try exact Hr.
  - next Hr. next (makes_resolve name). finish.
  - destruct Hl as [H1 H2]. next H1. next H2. next Hr. finish.
  - next Hl. next Hr. next (makes_string name). finish.
Qed.

Lemma makes_expression e : resolved e.
Proof.
  induction e using Expression_ind'; cbn [resolve_expression].
  - next (makes_literal l). finish.
  - next (makes_resolve x). finish.
  - destruct (is_root x); [by apply makes_ret|]. next (makes_resolve x). finish.
  - next (makes_operand (constant_pointer c)). finish.
  - destruct (negb _).
    + next (makes_map_each _ _ H). next (makes_operand (function_pointer c)). finish.
      * by apply Nat.leb_le.
      * by apply H5.
    + eapply makes_bind; [apply mono_true| |].
      * eapply (makes_weaken (fun c => twf c (TNew (start_pos n) true))); [done| |done].
        apply makes_fold_each. eapply Forall_impl; [exact H|]. intros e He acc. by apply makes_item.
      * intros arr. next (makes_operand (function_pointer c)). finish.
  - eapply (makes_weaken (fun c => twf c (TNew (start_pos n) true))); [done| |done].
    apply makes_fold_each. eapply Forall_impl; [exact H|]. intros e He acc. by apply makes_item.
  - eapply (makes_weaken (fun c => twf c (TNew (start_pos n) false))); [done| |done].
    apply makes_fold_each. eapply Forall_impl; [exact H|]. intros e He acc. by apply makes_entry.
  - next IHe1. next IHe2. finish.
  - next IHe. next (makes_string x). finish.
  - next IHe1. next IHe2. finish.
  - next IHe1. next IHe2. finish.
  - next IHe. finish.
  - next IHe1. next IHe2. next IHe3. finish.
  - by apply makes_assign.
  - exact IHe.
Qed.

Lemma makes_optional e p : makes (fun _ => True) (resolve_optional e p) twf.
Proof. destruct e as [e|]; [apply makes_expression|]. next makes_undefined. finish. Qed.

(** ** Statements *)

Lemma makes_block (r : Statement -> NM STree) l scope : Forall (fun s => makes (fun _ => True) (r s) tswf) l ->
  makes (fun _ => True) (resolve_block r l scope) tswf.
Proof.
  intros F. assert (makes (fun _ => True) (map_each r l) (fun c ts => tswf c (foldr SSeq SSkip ts))) as Hl.
  { induction F as [|s l Hs F IH]; simpl; [by apply makes_ret|]. next Hs. next IH. finish. }
  unfold resolve_block. assert (forall b (s : NM unit), makes (fun _ => True) s (fun _ _ => True) ->
    makes (fun _ => True) (if b : bool then s else mret tt) (fun _ _ => True)) as Hs by (intros [] s Hs; [done|by apply makes_ret]).
  next (Hs scope _ makes_push). next Hl. next (Hs scope _ makes_pop). apply makes_ret. by intros c [[_ H] _].
Qed.

Lemma makes_statement s : forall il, makes (fun _ => True) (resolve_statement il s) tswf.
Proof.
  induction s using Statement_ind'; intros il; cbn [resolve_statement].
  - apply makes_block. eapply Forall_impl; [exact H|]. auto.
  - next (makes_expression e). finish.
  - next (makes_declare x). next (makes_optional e (start_pos n)). finish.
  - next (makes_optional e (start_pos n)). finish.
  - next (makes_expression e). finish.
  - next (makes_expression c). next (IHs il).
    eapply (makes_then _ _ tswf); [|auto with mono|].
    + destruct b as [b|]; [apply H|by apply makes_ret].
    + intros y. finish.
  - next (makes_expression c). next makes_temp. next makes_push. next (makes_declare k). next (makes_declare v).
    eapply (makes_then _ _ tswf); [apply makes_block; eapply Forall_impl; [exact H|]; auto|auto 10 with mono|].
    intros y. next makes_pop. finish.
  - eapply (makes_then _ _ tswf); [apply makes_block; eapply Forall_impl; [exact H|]; auto|auto 10 with mono|].
    intros t. next makes_push. next (makes_declare x).
    eapply (makes_then _ _ tswf); [apply makes_block; eapply Forall_impl; [exact H0|]; auto|auto 10 with mono|].
    intros y. next makes_pop. finish.
  - by apply makes_ret; destruct il.
  - by apply makes_ret; destruct il.
  - by apply makes_ret.
Qed.

Lemma makes_root node : makes (fun _ => True) (resolve_root node) tswf.
Proof.
  unfold resolve_root. next makes_push. eapply (makes_then _ _ tswf); [|auto with mono|].
  - destruct node as [n l|e|s].
    + eapply (makes_then _ _ tswf); [apply makes_block, Forall_forall; intros; apply makes_statement|done|].
      intros s. next makes_undefined. finish.
    + next (makes_expression e). finish.
    + next (makes_statement s false). next makes_undefined. finish.
  - intros s. next makes_pop. apply makes_ret. by intros c [[_ H] _].
Qed.

Lemma good_initial : good (names initial).
Proof. constructor; simpl; try done. Qed.

(** The tree of a program is well formed in the unit it is compiled to. *)
Lemma compile_wf node : snarrow (tree_of node) = true -> swf (compile node) (tree_of node).
Proof.
  intros Hn. rewrite Emission.compile_shape. unfold tree_of in *.
  destruct (resolve_root node (names initial)) as [t n] eqn:E. simpl in *.
  destruct (makes_root node _ _ _ good_initial I E) as (_ & _ & Hw). specialize (Hw Hn).
  eapply mono_swf; [|exact Hw]. done.
Qed.

End Resolution.
