(* ===== verification/ScriptProgram.v ===== *)
(** * Whole scripts: compiled, run and resumed until they end

    The host runs a script with [iterate] and resumes it with the answer
    whenever it is suspended ([serve]).  The main theorem: a script that fits
    the 32-bit codes and whose handlers the exception index finds ends with the
    result its tree evaluates to.  [handled] holds for scripts with at most one
    [try]; the examples at the end show scripts with more for which the index
    finds another handler, or none. *)
From S2P Require Import Prelude ScriptAst ScriptWords ScriptCompiler ScriptVm ScriptTree ScriptSemantics.
From S2P Require Import ScriptCompile ScriptMachine ScriptCorrect ScriptNames.
Import Ast Code Compiler Tree Semantics Vm Machine Correct Resolution.

Module Program.

(** ** The host *)

Section Host.
Context `{HV : Values}.
Context (cfg : Config) (await : H -> (V + V) * H).

Fixpoint serve (rounds fuel : nat) (v : InterpreterVm) : RunResult :=
  match rounds with
  | O => OutOfFuel
  | S rounds =>
      match iterate cfg fuel v with
      | Done v' =>
          match state (control v') with
          | Suspend => let '(r, h) := await (heap v') in serve rounds fuel (deliver r (set_heap h v'))
          | _ => Done v'
          end
      | other => other
      end
  end.

(** What [serve] does after a call of [iterate]. *)
Definition after (rounds fuel : nat) (x : RunResult) : RunResult :=
  match x with
  | Done v' =>
      match state (control v') with
      | Suspend => let '(r, h) := await (heap v') in serve rounds fuel (deliver r (set_heap h v'))
      | _ => Done v'
      end
  | other => other
  end.

Lemma serve_after rounds fuel v : serve (S rounds) fuel v = after rounds fuel (iterate cfg fuel v).
Proof. simpl. by destruct (iterate cfg fuel v). Qed.

Lemma answer_suspended k x v : state (control v) = Suspend ->
  state (control (answer k x v)) = Suspend /\ async_pending (async (answer k x v)) && negb (async_ready (async (answer k x v))) = false.
Proof.
  intros Es. unfold answer. rewrite Es. destruct (async_pending (async v)) eqn:Ep; simpl; [|by rewrite Ep].
  destruct (async_ready (async v)) eqn:Er; simpl; [by rewrite Ep, Er|].
  destruct (in_iterate (control v)); [done|]. unfold notify_resume. simpl. rewrite Es.
  by destruct (negb _ || _).
Qed.

(** An answered script is taken up by [iterate]. *)
Lemma iterate_answered fuel r h v : state (control v) = Suspend ->
  iterate cfg fuel (deliver r (set_heap h v)) =
    let '(ok, v1) := apply_async_ready cfg (deliver r (set_heap h v)) in
    if ok then run_loop cfg fuel (start_loop v1) else Done (set_state Error (in_iterate (control v1)) v1).
Proof.
  intros Es. set (w := deliver r (set_heap h v)).
  assert (state (control w) = Suspend /\ async_pending (async w) && negb (async_ready (async w)) = false) as [E1 E2].
  { unfold w. by destruct r; apply answer_suspended. }
  unfold iterate. rewrite E1, E2. by destruct (apply_async_ready cfg w) as [[] v1].
Qed.

Lemma serve_turns v v1 v' : turns cfg await v v1 -> turn cfg await v1 = Halt v' ->
  exists k n, forall f m, (n <= m)%nat -> (n <= f)%nat -> after k f (run_loop cfg m v) = Done v'.
Proof.
  intros T Hh. induction T as [v|v v2 v1 E T IH].
  - unfold turn in Hh. destruct (step cfg v) as [w|w|] eqn:Es; try done.
    destruct (decide (state (control w) = Suspend)) as [Ew|Ew].
    + rewrite Ew in Hh. exists 1%nat, 1%nat. intros f m Hm Hf. destruct m as [|m]; [lia|]. cbn [run_loop]. rewrite Es. unfold after. rewrite Ew.
      unfold resume in Hh. destruct (await (heap w)) as [r h]. change (serve 1 f (deliver r (set_heap h w)))
        with (serve (S 0) f (deliver r (set_heap h w))). rewrite serve_after, iterate_answered by done.
      destruct (apply_async_ready cfg (deliver r (set_heap h w))) as [[] w1]; [done|]. by injection Hh as <-.
    + assert (w = v') as -> by (revert Hh Ew; destruct (state (control w)); congruence).
      exists 0%nat, 1%nat. intros f m Hm Hf. destruct m as [|m]; [lia|]. cbn [run_loop]. rewrite Es. unfold after.
      revert Ew. by destruct (state (control v')).
  - destruct (IH Hh) as (k & n & IH'). unfold turn in E. destruct (step cfg v) as [w|w|] eqn:Es; try done.
    + injection E as ->. exists k, (S n). intros f m Hm Hf. destruct m as [|m]; [lia|]. cbn [run_loop]. rewrite Es. apply IH'; lia.
    + destruct (decide (state (control w) = Suspend)) as [Ew|Ew]; [|revert E Ew; by destruct (state (control w))].
      rewrite Ew in E. exists (S k), (S n). intros f m Hm Hf. destruct m as [|m]; [lia|]. cbn [run_loop]. rewrite Es.
      unfold after. rewrite Ew. unfold resume in E. destruct (await (heap w)) as [r h].
      rewrite serve_after, iterate_answered by done.
      destruct (apply_async_ready cfg (deliver r (set_heap h w))) as [[] w1]; [|done]. injection E as <-. apply IH'; lia.
Qed.

End Host.
(** ** Scripts that fit *)

Definition handlers_found (node : Root) : bool :=
  handled (search_catch (build_exception_index (exception_table (compile node)))) None 0 (tree_of node).

(** The fields of the 32-bit codes hold the indexes of the script, and the
    exception index finds the handler of every instruction. *)
Definition fits (node : Root) : bool :=
  let c := compile node in
  (Z.of_nat (length (codes c)) <? 2 ^ 23) && (Z.of_nat (length (operands c)) <=? 2 ^ 15)
  && (Z.of_nat (var_table_size c) <=? 2 ^ 11) && snarrow (tree_of node) && handlers_found node.

Section Main.
Context `{HV : Values} `{HL : !ValuesLaws HV}.
Context (root : V) (await : H -> (V + V) * H).

(** The host does not undo a collection. *)
Definition host_counts : Prop := forall h, (collections h <= collections (await h).2)%nat.

(** The machine has ended with this result. *)
Definition ended (r : Exn + V) (h : H) (v : InterpreterVm) : Prop :=
  heap v = h /\
  match r with
  | inr x => state (control v) = Success /\ out (control v) = Some (inr x)
  | inl e => state (control v) = Error /\ out (control v) = Some (inl (fst e))
  end.

Lemma start_mach c h : let '(cfg, v) := construct c root h in
  0 <= stack_size c -> mach cfg (collections h) 0 [] (start c h) (start_loop v).
Proof.
  simpl. intros Hs. exists (replicate (Z.to_nat (stack_size c)) make_undefined), (mkArgs (Some 0) 0 0), (mkControl Running true false false 0 None).
  split; [|split; [simpl; rewrite length_replicate; unfold stack_size_; simpl; lia|split; [done|]]].
  - unfold start_loop, set_control, vm_at. simpl. by rewrite replicate_add.
  - split; [|split]; simpl; by rewrite ?length_replicate.
Qed.

Lemma iterate_start c h fuel : let '(cfg, v) := construct c root h in
  iterate cfg fuel v = run_loop cfg fuel (start_loop v).
Proof. done. Qed.

(** The whole tree is at address 0 of the unit. *)
Lemma compiled_code node h : code_at (fst (construct (compile node) root h)) 0 (fill 0 0 <$> gen_s 0 (tree_of node)).
Proof.
  intros i c p Hi. change (compiled_ _) with (compile node). rewrite Emission.compile_shape. simpl. split.
  - rewrite list_lookup_fmap, Hi. done.
  - rewrite list_lookup_fmap in Hi. rewrite list_lookup_fmap. destruct (gen_s 0 (tree_of node) !! i) as [[it q]|]; [|done].
    simpl in Hi. by destruct it; injection Hi as _ ->.
Qed.

(** The abstract run of a fitting script, as the machine makes it. *)
Lemma run_turns node fuel h r h' : fits node = true -> host_counts -> collections h' = collections h -> Semantics.run root await fuel node h = Some (r, h') ->
  let '(cfg, v) := construct (compile node) root h in
  exists v1 v', turns cfg await (start_loop v) v1 /\ turn cfg await v1 = Halt v' /\ ended r h' v'.
Proof.
  intros Hf Hcount Hoff Hr. unfold fits in Hf. bool_to_prop. unfold Semantics.run in Hr.
  destruct (exec root await fuel (tree_of node) (start (compile node) h)) as [[c s]|] eqn:E; [|done]. simpl in Hr.
  pose proof (start_mach (compile node) h) as M. pose proof (compiled_code node h) as Hc.
  assert (0 <= stack_size (compile node) < 2 ^ 62 /\ sneed (tree_of node) <= stack_size (compile node)) as [HS Hn].
  { pose proof (sneed_length (tree_of node)). pose proof (sneed_pos (tree_of node)).
    revert H. rewrite Emission.compile_shape. unfold Emission.unit_of. simpl. rewrite !length_fmap, length_gen_s. lia. }
  destruct (construct (compile node) root h) as [cfg v] eqn:Ec. simpl in Hc.
  assert (compiled_ cfg = compile node /\ root_ cfg = root /\ exp_ins_ cfg = build_exception_index (exception_table (compile node)))
    as (Ecc & Er & Ei) by (injection Ec as <- <-; done).
  pose proof (compile_wf node ltac:(done)) as Hw. rewrite <- Ecc, <- Er in *. specialize (M ltac:(lia)).
  pose proof (exec_simulated cfg await (collections h) Hcount HS ltac:(done) ltac:(done) ltac:(done) fuel (tree_of node) _ _ _ 0%nat None 0%nat 0%nat (start_loop v) E) as B.
  unfold handlers_found in *. rewrite <- Ecc in *. rewrite Ei in B. specialize (fun Hg => B Hg Hw ltac:(done) Hc ltac:(lia) ltac:(lia) Hn M) as B'. clear B.
  destruct c as [| | |x|e]; simpl in Hr; try done; injection Hr as <- <-; specialize (B' ltac:(unfold count; lia)) as B; simpl in B.
  - destruct B as (v1 & v' & T & Hh & Hs & Ho & Hp). exists v1, v'. done.
  - destruct B as (v1 & v' & T & Hh & Hs & Ho & Hp). exists v1, v'. done.
Qed.

(** The compiled script, served, ends with the result of the tree. *)
Lemma script_served node fuel h r h' :
  fits node = true -> host_counts -> collections h' = collections h ->
  Semantics.run root await fuel node h = Some (r, h') ->
  let '(cfg, v) := construct (compile node) root h in
  exists rounds steps v', serve cfg await rounds steps v = Done v' /\ ended r h' v'.
Proof.
  intros Hf Hcount Hoff Hr. pose proof (run_turns node fuel h r h' Hf Hcount Hoff Hr) as T. pose proof (fun f => iterate_start (compile node) h f) as Hi.
  destruct (construct (compile node) root h) as [cfg v]. destruct T as (v1 & v' & T & Hh & He).
  destruct (serve_turns cfg await _ _ _ T Hh) as (k & n & Hs). exists (S k), n, v'. split; [|done].
  rewrite serve_after, Hi. by apply Hs.
Qed.

(** C1. [Compiler] and [InterpreterVm] together implement the script language, for
    scripts that fit and runs without a garbage collection.  A script fits
    ([fits]) when it compiles to fewer than 2^23 instructions, at most 2^15
    operands and 2^11 variables, no call has more than 255 arguments, and the
    exception index finds the catch block of every instruction, as it does with
    at most one [try] (lemma [one_try_handled]), but not with some nested or
    successive ones ([nested_try_wrong_handler]).  The values and the
    library keep the laws of [ValuesLaws]; the host [await] never lowers
    the count of collections.  When the evaluator of the tree then gives a
    result, a value or the error nobody caught with its position, and no
    collection ran on the way, the host that runs the compiled script and
    answers its asynchronous calls gets that result, and the heap of the
    evaluation.  Of runs that collect nothing is said: the binary operators
    drop an operand before an operation that may collect it. *)
Theorem compiled_script_correct node fuel h r h' :
  fits node = true -> host_counts -> collections h' = collections h ->
  Semantics.run root await fuel node h = Some (r, h') ->
  let '(cfg, v) := construct (compile node) root h in
  exists rounds steps v', serve cfg await rounds steps v = Done v' /\ ended r h' v'.
Proof. apply script_served. Qed.

End Main.

End Program.
