(* ===== verification/ScriptHandlers.v ===== *)
(** * The exception index

    [search_catch] on the index [build_exception_index] makes of the table of a
    unit.  For a script with at most one [try] the index sends every instruction
    of the [try] block to its catch block and no other one. *)
From S2P Require Import Prelude ScriptAst ScriptWords ScriptCompiler ScriptVm ScriptTree ScriptSemantics.
From S2P Require Import ScriptCompile ScriptCorrect ScriptNames ScriptProgram.
Import Ast Code Words Compiler Tree Vm Correct Program.

Module Handlers.

Fixpoint tries (s : STree) : nat :=
  match s with
  | SSeq a b => tries a + tries b
  | SIf _ _ a b => tries a + tries b
  | SForeach _ _ _ _ _ body => tries body
  | STry _ _ t c => S (tries t + tries c)
  | _ => 0
  end.

Lemma catch_nowhere epc : search_catch (build_exception_index []) epc = -1.
Proof. done. Qed.

(** The index of one [try]: its region, then the rest. *)
Lemma one_region (tb cb ce : nat) : (tb < cb < ce)%nat -> Z.of_nat ce < 2 ^ 31 ->
  build_exception_index [to_signed 32 (Z.of_nat tb); to_signed 32 (Z.of_nat cb); to_signed 32 (Z.of_nat ce)] =
    [Z.of_nat tb; Z.of_nat cb; Z.of_nat cb; -1].
Proof.
  intros Hl Hb. rewrite !to_signed_small by lia. unfold build_exception_index. cbn [exception_ranges map_set set_insert].
  unfold lower_bound. cbn [List.find]. rewrite (proj2 (Z.leb_gt _ _)) by lia. cbn [exception_ranges map_set].
  rewrite (proj2 (Z.ltb_ge (Z.of_nat cb) (Z.of_nat tb))), (proj2 (Z.eqb_neq (Z.of_nat cb) (Z.of_nat tb))) by lia. done.
Qed.

Lemma catch_one (tb cb ce : nat) epc : (tb < cb < ce)%nat -> Z.of_nat ce < 2 ^ 31 ->
  search_catch (build_exception_index [to_signed 32 (Z.of_nat tb); to_signed 32 (Z.of_nat cb); to_signed 32 (Z.of_nat ce)]) epc =
    if (Z.of_nat tb <=? epc) && (epc <? Z.of_nat cb) then Z.of_nat cb else -1.
Proof.
  intros Hl Hb. rewrite one_region by done. unfold search_catch, at_. simpl.
  rewrite !wrap_small by (unfold in_width; lia).
  destruct (Z.ltb_spec epc (Z.of_nat tb)), (Z.leb_spec (Z.of_nat tb) epc); try lia; simpl; [done|].
  destruct (Z.leb_spec (Z.of_nat cb) epc), (Z.ltb_spec epc (Z.of_nat cb)); try lia.
  unfold at_. simpl. rewrite !wrap_small by (unfold in_width; lia). by rewrite (proj2 (Z.leb_le _ _)) by lia.
Qed.

Section Regions.
Context (catch_of : Z -> Z).

Lemma agree_all h a n : (forall epc, (a <= epc < a + n)%nat -> agree catch_of h epc = true) -> agree_range catch_of h a n = true.
Proof. intros Ha. unfold agree_range. apply forallb_forall. intros epc He. apply in_seq in He. by apply Ha. Qed.

(** A statement without [try], inside one region. *)
Lemma handled_plain h s : tries s = 0%nat -> forall a,
  (forall epc, (a <= epc < a + slen s)%nat -> agree catch_of h epc = true) -> handled catch_of h a s = true.
Proof.
  induction s; simpl; intros Ht a Ha; try done; try (by apply agree_all; intros; apply Ha; lia).
  - rewrite IHs1, IHs2; try done; try lia; intros; apply Ha; lia.
  - rewrite IHs1, IHs2; try lia; [rewrite agree_all; [done|]|..]; intros; apply Ha; lia.
  - rewrite IHs; try lia; [rewrite agree_all; [done|]|]; intros; apply Ha; lia.
Qed.
End Regions.

(** The instructions of [tb, cb) go to [cb], the others nowhere. *)
Definition catches (tb cb : nat) (catch_of : Z -> Z) : Prop :=
  forall epc, catch_of epc = if (Z.of_nat tb <=? epc) && (epc <? Z.of_nat cb) then Z.of_nat cb else -1.

Section OneRegion.
Context (tb cb : nat) (catch_of : Z -> Z) (Hc : catches tb cb catch_of).

Lemma agree_outside epc : (epc < tb)%nat \/ (cb <= epc)%nat -> agree catch_of None epc = true.
Proof.
  intros He. unfold agree. rewrite Hc.
  destruct (Z.leb_spec (Z.of_nat tb) (Z.of_nat epc)), (Z.ltb_spec (Z.of_nat epc) (Z.of_nat cb)); simpl; lia.
Qed.

Lemma agree_inside epc : (tb <= epc < cb)%nat -> agree catch_of (Some cb) epc = true.
Proof.
  intros He. unfold agree. rewrite Hc.
  destruct (Z.leb_spec (Z.of_nat tb) (Z.of_nat epc)), (Z.ltb_spec (Z.of_nat epc) (Z.of_nat cb)); simpl; lia.
Qed.

Lemma range_outside a n : (a + n <= tb)%nat \/ (cb <= a)%nat -> agree_range catch_of None a n = true.
Proof. intros Hr. apply agree_all. intros epc He. apply agree_outside. lia. Qed.

Lemma plain_outside s a : tries s = 0%nat -> (a + slen s <= tb)%nat \/ (cb <= a)%nat -> handled catch_of None a s = true.
Proof. intros Ht Hr. apply handled_plain; [done|]. intros epc He. apply agree_outside. lia. Qed.

Lemma plain_inside s a : tries s = 0%nat -> (tb <= a /\ a + slen s < cb)%nat -> handled catch_of (Some cb) a s = true.
Proof. intros Ht Hr. apply handled_plain; [done|]. intros epc He. apply agree_inside. lia. Qed.
End OneRegion.

Lemma plain_ranges s : tries s = 0%nat -> forall a, ranges_of a s = [].
Proof. induction s; simpl; intros Ht a; try done; rewrite ?IHs1, ?IHs2, ?IHs by lia; done. Qed.

(** The region of the only [try] of a statement. *)
Lemma one_try s : tries s = 1%nat -> forall a, exists tb cb ce,
  (a <= tb < cb /\ cb < ce <= a + slen s)%nat /\
  ranges_of a s = [to_signed 32 (Z.of_nat tb); to_signed 32 (Z.of_nat cb); to_signed 32 (Z.of_nat ce)] /\
  forall catch_of, catches tb cb catch_of -> handled catch_of None a s = true.
Proof.
  induction s; cbn [tries slen ranges_of handled]; intros Ht a; try lia.
  - destruct (tries s1) eqn:E1.
    + destruct (IHs2 Ht (a + slen s1)%nat) as (tb & cb & ce & Hl & Hr & Hh). exists tb, cb, ce. split; [lia|].
      rewrite plain_ranges, Hr by done. split; [done|]. intros f Hc. rewrite (Hh _ Hc), (plain_outside tb cb); done || lia.
    + destruct (IHs1 ltac:(lia) a) as (tb & cb & ce & Hl & Hr & Hh). exists tb, cb, ce. split; [lia|].
      rewrite (plain_ranges s2), Hr by lia. split; [done|]. intros f Hc. rewrite (Hh _ Hc), (plain_outside tb cb); done || lia.
  - destruct (tries s1) eqn:E1.
    + destruct (IHs2 Ht (a + tlen t + 1 + slen s1 + 1)%nat) as (tb & cb & ce & Hl & Hr & Hh). exists tb, cb, ce. split; [lia|].
      rewrite plain_ranges, Hr by done. split; [done|]. intros f Hc.
      rewrite (Hh _ Hc), (plain_outside tb cb), (range_outside tb cb); done || lia.
    + destruct (IHs1 ltac:(lia) (a + tlen t + 1)%nat) as (tb & cb & ce & Hl & Hr & Hh). exists tb, cb, ce. split; [lia|].
      rewrite (plain_ranges s2), Hr by lia. split; [done|]. intros f Hc.
      rewrite (Hh _ Hc), (plain_outside tb cb), (range_outside tb cb); done || lia.
  - destruct (IHs Ht (a + tlen coll + 5)%nat) as (tb & cb & ce & Hl & Hr & Hh). exists tb, cb, ce. split; [lia|].
    split; [done|]. intros f Hc. rewrite (Hh _ Hc), (range_outside tb cb); done || lia.
  - exists a, (a + slen s1 + 1)%nat, (a + slen s1 + 1 + 1 + slen s2)%nat. split; [lia|].
    rewrite (plain_ranges s1), (plain_ranges s2) by lia. split; [done|]. intros f Hc.
    rewrite (plain_inside a _ f Hc), (plain_outside a (a + slen s1 + 1) f Hc), (agree_outside a (a + slen s1 + 1) f Hc); done || lia.
Qed.

(** The exception index of a script with at most one [try] finds the right
    handler for each of its instructions: the catch block for those of the [try]
    block, also its first and its last one, and none for the others. *)
Theorem one_try_handled node : (tries (tree_of node) <= 1)%nat -> Z.of_nat (length (codes (compile node))) < 2 ^ 23 ->
  handlers_found node = true.
Proof.
  unfold handlers_found. rewrite Emission.compile_shape. unfold Emission.unit_of. cbn [codes exception_table].
  rewrite !length_fmap, length_gen_s. intros Ht Hb. destruct (tries (tree_of node)) as [|[|]] eqn:E; [| |lia].
  - rewrite plain_ranges by done. apply handled_plain; [done|]. intros epc _. done.
  - destruct (one_try _ E 0) as (tb & cb & ce & Hl & -> & Hh). apply Hh. intros epc. apply catch_one; lia.
Qed.

End Handlers.
