(* ===== verification/ScriptExamples.v ===== *)
(** * Scripts run end to end

    A small instance of the value interface, a script with a loop, an
    asynchronous call and a handler on which the main theorem applies, and the
    scripts on which the exception index goes wrong. *)
From S2P Require Import Prelude ScriptAst ScriptWords ScriptCompiler ScriptVm ScriptTree ScriptSemantics.
From S2P Require Import ScriptCompile ScriptMachine ScriptCorrect ScriptNames ScriptProgram ScriptHandlers.
From Stdlib Require Import Floats.SpecFloat.
Import Ast Code Compiler Tree Vm Program.

Module Toy.

Inductive Value :=
  | VUndefined | VNull | VBool (b : bool) | VInt (i : Z) | VFloat (f : spec_float) | VString (s : string)
  | VArray (loc : nat) | VIterator (loc : nat) | VException (position : Z) (name : string).

Inductive Cell := Items (l : list Value) | Cursor (l : list Value) (next : nat).

(** The cells, and how many collections there were. *)
Record Heap := mkHeap { cells : list Cell; runs : nat }.

Definition start_heap : Heap := mkHeap [] 0.

Definition with_cells (l : list Cell) (h : Heap) : Heap := mkHeap l (runs h).

Definition type_error : VmErrorOf Value := mkVmError Normal "EXEC_TYPE" "bad operand" 500 (-1) VUndefined.

Definition fresh (c : Cell) (h : Heap) : nat * Heap := (length (cells h), with_cells (cells h ++ [c]) h).

Definition refers (loc : nat) (x : Value) : bool :=
  match x with VArray l | VIterator l => (l =? loc)%nat | _ => false end.

Definition contents (c : Cell) : list Value := match c with Items l => l | Cursor l _ => l end.

(** From 1000 cells on, the cells that neither a root nor a cell names are
    emptied. *)
Definition maybe_collect (roots : list Value) (h : Heap) : Heap :=
  if (length (cells h) <? 1000)%nat then h
  else
    let named := roots ++ flat_map contents (cells h) in
    mkHeap (imap (fun loc c => if existsb (refers loc) named then c else Items []) (cells h)) (S (runs h)).

Definition operate (o : Operation) (args : list Value) (h : Heap) : (VmErrorOf Value + Value) * Heap :=
  match o, args with
  | Binaries_ PLUS, [VInt a; VInt b] => (inr (VInt (a + b)), h)
  | Binaries_ EQ, [VInt a; VInt b] => (inr (VBool (a =? b)), h)
  | Unaries_ UNEG, [VBool b] => (inr (VBool (negb b)), h)
  | Unaries_iterate, [VArray l] =>
      match cells h !! l with
      | Some (Items xs) => let '(it, h) := fresh (Cursor xs 0) h in (inr (VIterator it), h)
      | _ => (inl type_error, h)
      end
  | Access_push_array, [VArray l; x] =>
      match cells h !! l with
      | Some (Items xs) => (inr (VArray l), with_cells (<[l := Items (xs ++ [x])]> (cells h)) h)
      | _ => (inl type_error, h)
      end
  | _, _ => (inl type_error, h)
  end.

Definition allocate (a : AllocationOf Value) (h : Heap) : option Value * Heap :=
  match a with
  | Make_object | Make_array => let '(l, h) := fresh (Items []) h in (Some (VArray l), h)
  | Make_string s => (Some (VString s), h)
  | Make_binary _ => (Some VUndefined, h)
  | New_exception position name _ _ => (Some (VException position name), h)
  end.

Definition iterator_next (it : Value) (h : Heap) : bool * Heap :=
  match it with
  | VIterator l =>
      match cells h !! l with
      | Some (Cursor xs next) => if (next <? length xs)%nat then (true, with_cells (<[l := Cursor xs (S next)]> (cells h)) h) else (false, h)
      | _ => (false, h)
      end
  | _ => (false, h)
  end.

Definition iterator_value (it : Value) (h : Heap) : Value :=
  match it with
  | VIterator l => match cells h !! l with Some (Cursor xs (S i)) => default VUndefined (xs !! i) | _ => VUndefined end
  | _ => VUndefined
  end.

Definition iterator_key (it : Value) (h : Heap) : Value :=
  match it with VIterator l => match cells h !! l with Some (Cursor _ (S i)) => VInt (Z.of_nat i) | _ => VUndefined end | _ => VUndefined end.

(** Function 0 throws its argument, the others return it. *)
Definition call_sync (p : Pointer) (a : CallArgsOf Value) (h : Heap) : (Value + Value) * Heap :=
  let x := match a with ArgList (x :: _) => x | _ => VUndefined end in
  (match p with FunctionPtr 0 => inl x | _ => inr x end, h).

#[export] Instance values : Values := {|
  V := Value; H := Heap;
  make_undefined := VUndefined; make_null := VNull; make_boolean := VBool; make_integer := VInt; make_float := VFloat;
  ScriptVm.maybe_collect := maybe_collect;
  ScriptVm.operate o args _ h := operate o args h;
  ScriptVm.allocate := allocate;
  logic v _ := match v with VBool b => b | VUndefined | VNull => false | VInt i => negb (i =? 0) | _ => true end;
  ScriptVm.iterator_next := iterator_next; ScriptVm.iterator_key := iterator_key; ScriptVm.iterator_value := iterator_value;
  ScriptVm.call_sync p _ a _ h := call_sync p a h;
  call_async _ _ _ _ h := (None, h);
|}.

Lemma operate_runs o args h : runs (operate o args h).2 = runs h.
Proof. unfold operate, fresh. repeat case_match; simplify_eq; done. Qed.

Lemma operate_fails o args h e h' : operate o args h = (inl e, h') -> er_kind e = Normal.
Proof.
  intros E. assert (er_kind type_error = Normal) as En by done. unfold operate in E.
  repeat match type of E with context [match ?x with _ => _ end] => destruct x; try (injection E as <- <-; done); try done end.
Qed.

Lemma maybe_collect_runs roots h :
  runs (maybe_collect roots h) = if (length (cells h) <? 1000)%nat then runs h else S (runs h).
Proof. unfold maybe_collect. by destruct (_ <? _)%nat. Qed.

#[export] Instance values_laws : ValuesLaws values.
Proof.
  refine {| collections := runs |}; try done; simpl.
  - intros h. rewrite maybe_collect_runs. destruct (_ <? _)%nat; lia.
  - intros roots h. rewrite maybe_collect_runs. unfold maybe_collect. destruct (_ <? _)%nat; [done|lia].
  - intros o args h. by rewrite operate_runs.
  - intros o args _. apply operate_fails.
  - intros a h. destruct a; apply Nat.le_refl.
  - intros x h. unfold iterator_next. repeat case_match; apply Nat.le_refl.
Defined.

(** The host answers every call with 42. *)
Definition await (h : Heap) : (Value + Value) * Heap := (inr (VInt 42), h).

End Toy.

Module Examples.
Import Toy.

Definition at_pos (p : Z) : Node := mkNode p p.
Definition int (i : Z) : Expression := LiteralE (at_pos 1) (Integer i).
Definition v_ (x : string) : Expression := VariableReference (at_pos 2) x.
Definition call (c : Callee) (args : list Expression) : Expression := FunctionCall (at_pos 3) c args.
Definition do_ (e : Expression) : Statement := ExpressionStatement (at_pos 4) e.
Definition ret (e : Expression) : Statement := ReturnStatement (at_pos 5) (Some e).
Definition throw (e : Expression) : Statement := ThrowStatement (at_pos 6) e.
Definition try (t : list Statement) (x : string) (c : list Statement) : Statement := TryCatchStatement (at_pos 7) x t c.
Definition plus (a b : Expression) : Expression := BinaryOperator (at_pos 8) Add a b.

(** [let s = 0; for (k, v of [1, 2, 3]) { if (v == 2) continue; s = s + v; }
    try { s = s + f(); throw s; } catch (e) { return e + 1; }] *)
Definition script : Root := RootBlock (at_pos 0)
  [ VariableDeclareStatement (at_pos 9) "s" (Some (int 0));
    ForeachStatement (at_pos 10) "k" "v" (InlineList (at_pos 11) [int 1; int 2; int 3])
      [ IfStatement (at_pos 12) (BinaryOperator (at_pos 13) Ast.Eq (v_ "v") (int 2)) (ContinueStatement (at_pos 14)) None;
        do_ (Assign (at_pos 15) (v_ "s") (plus (v_ "s") (v_ "v"))) ];
    try [do_ (Assign (at_pos 16) (v_ "s") (plus (v_ "s") (call (Async 0) []))); throw (v_ "s")] "e"
      [ret (plus (v_ "e") (int 1))] ].

Definition result (x : @RunResult values) : option (VmState * option (VmErrorOf Value + Value)) :=
  match x with Done v => Some (state (control v), out (control v)) | _ => None end.

Definition serve_script (node : Root) : option (VmState * option (VmErrorOf Value + Value)) :=
  let '(cfg, v) := @construct values (compile node) VUndefined start_heap in result (@serve values cfg await 5 1000 v).

Definition run_script (node : Root) : option (@Semantics.Exn values + Value) := fst <$> @Semantics.run values VUndefined await 100 node start_heap.

Lemma compiled_script_correct_witness :
  fits script = true /\ run_script script = Some (inr (VInt 47)) /\
  let '(cfg, v) := @construct values (compile script) VUndefined start_heap in
  exists rounds steps v' h', serve cfg await rounds steps v = Done v' /\ @ended values (inr (VInt 47)) h' v' /\ runs h' = 0%nat.
Proof.
  split; [vm_compute; reflexivity|]. split; [vm_compute; reflexivity|].
  destruct (@Semantics.run values VUndefined await 100 script start_heap) as [[r h']|] eqn:E; [|vm_compute in E; discriminate].
  assert (r = inr (VInt 47) /\ runs h' = 0%nat) as [-> Hruns] by (vm_compute in E; injection E as <- <-; split; reflexivity).
  pose proof (@compiled_script_correct values values_laws VUndefined await script 100 start_heap _ h' ltac:(vm_compute; reflexivity)
    ltac:(intros h; apply Nat.le_refl) Hruns E) as P.
  destruct (@construct values (compile script) VUndefined start_heap) as [cfg v]. destruct P as (k & n & v' & P). destruct P as [P1 P2]. exists k, n, v', h'. split; [exact P1|split; [exact P2|exact Hruns]].
Defined.

Lemma one_try_handled_witness : (Handlers.tries (tree_of script) <= 1)%nat /\ handlers_found script = true.
Proof.
  split; [vm_compute; lia|]. apply Handlers.one_try_handled; vm_compute; [lia|reflexivity].
Defined.

(** ** Where the exception index goes wrong *)

(** [try { try { throw 1 } catch (a) { return 10 } } catch (b) { return 20 }] *)
Definition nested_at_start : Root := RootBlock (at_pos 0)
  [try [try [throw (int 1)] "a" [ret (int 10)]] "b" [ret (int 20)]].

(** [try { 0; try { throw 1 } catch (a) { throw 2 } } catch (b) { return b }] *)
Definition throw_in_inner_catch : Root := RootBlock (at_pos 0)
  [try [do_ (int 0); try [throw (int 1)] "a" [throw (int 2)]] "b" [ret (v_ "b")]].

(** [try { 0; try { 0 } catch (a) { } throw 3 } catch (b) { return b }] *)
Definition throw_after_inner : Root := RootBlock (at_pos 0)
  [try [do_ (int 0); try [do_ (int 0)] "a" []; throw (int 3)] "b" [ret (v_ "b")]].

(** [try { 0 } catch (a) { } try { f() } catch (b) { return 7 }], [f] throws. *)
Definition second_try_calls_first : Root := RootBlock (at_pos 0)
  [try [do_ (int 0)] "a" []; try [do_ (call (Sync 0) [])] "b" [ret (int 7)]].

(** A [try] that begins where another one does takes over its region: an
    error of the inner block goes to the outer handler. *)
Theorem nested_try_wrong_handler :
  run_script nested_at_start = Some (inr (VInt 10)) /\ serve_script nested_at_start = Some (Success, Some (inr (VInt 20))).
Proof. split; vm_compute; reflexivity. Qed.

(** The region of a [try] ends at the first [catch] inside it: what a nested
    handler throws, and what follows a nested [try] statement, is not caught by
    the outer handler, and the script ends with the error. *)
Theorem nested_try_ends_region :
  run_script throw_in_inner_catch = Some (inr (VInt 2)) /\
  fst <$> serve_script throw_in_inner_catch = Some Error /\
  run_script throw_after_inner = Some (inr (VInt 3)) /\
  fst <$> serve_script throw_after_inner = Some Error.
Proof. repeat split; vm_compute; reflexivity. Qed.

(** The linear search of [search_catch] attributes the first instruction of
    a region to the region before it: in a script with two [try] statements one
    after the other, a call without arguments at the start of the second is not
    caught. *)
Theorem second_try_misses_first_instruction :
  run_script second_try_calls_first = Some (inr (VInt 7)) /\
  fst <$> serve_script second_try_calls_first = Some Error.
Proof. split; vm_compute; reflexivity. Qed.

End Examples.
