(* ===== verification/ScriptTokens.v ===== *)
(** * The tokenizer of scripts ([src/script/parse/Tokenizer.cpp], [Token.h])

    The text is the list of its bytes.  The tokenizer only looks at the bytes from
    [pos_] on, so its position is a number and what is left of the text; a
    [while] over the text is structural or has its length as fuel.  [isalpha] and
    its like are those of the C locale. *)
From S2P Require Import Prelude.

Module Tokens.

Inductive TokenKind :=
  | LiteralInt | LiteralLong | LiteralHexInt | LiteralHexLong | LiteralString | LiteralReal | LiteralRealFloat
  | LParen | RParen | Comma | Identifier | Colon | Hash | RSquare | LSquare | LCurly | RCurly | Expand | Dot
  | Plus | Star | Minus | QMark | Project | Div | GE | GT | LE | LT | Seq | Sne | Eq | Ne | Mod | Semicolon | Not
  | Assign | Tilde | Select | SymbolicOr | SymbolicAnd | Inc | Dec.

#[export] Instance TokenKind_eq_dec : EqDecision TokenKind.
Proof. solve_decision. Defined.

(** [TokenKind.cpp] *)
Definition token_kind_name (kind : TokenKind) : string :=
  (match kind with
  | LiteralInt => "LiteralInt" | LiteralLong => "LiteralLong" | LiteralHexInt => "LiteralHexInt"
  | LiteralHexLong => "LiteralHexLong" | LiteralString => "LiteralString" | LiteralReal => "LiteralReal"
  | LiteralRealFloat => "LiteralRealFloat" | LParen => "LParen" | RParen => "RParen" | Comma => "Comma"
  | Identifier => "Identifier" | Colon => "Colon" | Hash => "Hash" | RSquare => "RSquare" | LSquare => "LSquare"
  | LCurly => "LCurly" | RCurly => "RCurly" | Expand => "Expand" | Dot => "Dot" | Plus => "Plus" | Star => "Star"
  | Minus => "Minus" | QMark => "QMark" | Project => "Project" | Div => "Div" | GE => "GE" | GT => "GT" | LE => "LE"
  | LT => "LT" | Seq => "Seq" | Sne => "Sne" | Eq => "Eq" | Ne => "Ne" | Mod => "Mod" | Semicolon => "Semicolon"
  | Not => "Not" | Assign => "Assign" | Tilde => "Tilde" | Select => "Select" | SymbolicOr => "SymbolicOr"
  | SymbolicAnd => "SymbolicAnd" | Inc => "Inc" | Dec => "Dec"
  end)%string.

Record Token := mkToken { kind : TokenKind; start : Z; end_ : Z; text : list Z }.

Record ParseError := mkError { message : string; position : Z }.

(** ** Characters *)

Definition is_digit (ch : Z) : bool := (chr "0" <=? ch) && (ch <=? chr "9").
Definition is_alpha (ch : Z) : bool := (chr "a" <=? ch) && (ch <=? chr "z") || (chr "A" <=? ch) && (ch <=? chr "Z").
Definition is_identifier (ch : Z) : bool := is_alpha ch || is_digit ch || (ch =? chr "_") || (ch =? chr "$").
Definition is_hex_digit (ch : Z) : bool :=
  is_digit ch || (chr "a" <=? ch) && (ch <=? chr "f") || (chr "A" <=? ch) && (ch <=? chr "F").
Definition is_exponent_char (ch : Z) : bool := (ch =? chr "e") || (ch =? chr "E").
Definition is_float_suffix (ch : Z) : bool := (ch =? chr "f") || (ch =? chr "F").
Definition is_double_suffix (ch : Z) : bool := (ch =? chr "d") || (ch =? chr "D").
Definition is_long_suffix (ch : Z) : bool := (ch =? chr "L") || (ch =? chr "l").
Definition is_sign (ch : Z) : bool := (ch =? chr "+") || (ch =? chr "-").

Definition quote2 : Z := 34.
Definition quote1 : Z := 39.
Definition backslash : Z := 92.

(** [input_[pos] ] satisfies [f], for a position in the text. *)
Definition next_is (f : Z -> bool) (l : list Z) : bool := match l with c :: _ => f c | [] => false end.

(** How many bytes satisfy [f]: the inner [while] loops. *)
Fixpoint count_while (f : Z -> bool) (l : list Z) : nat :=
  match l with c :: l' => if f c then S (count_while f l') else O | [] => O end.

Definition js_line_terminator_length (l : list Z) : nat :=
  match l with
  | ch :: l' =>
      if ch =? LF then 1%nat
      else if ch =? CR then if next_is (Z.eqb LF) l' then 2%nat else 1%nat
      else if ch =? 0xE2 then
        match l' with
        | next :: tail :: _ => if (next =? 0x80) && ((tail =? 0xA8) || (tail =? 0xA9)) then 3%nat else 0%nat
        | _ => 0%nat
        end
      else 0%nat
  | [] => 0%nat
  end.

(** ** Comments *)

(** The bytes up to the next line terminator. *)
Fixpoint line_length (l : list Z) : nat :=
  match l with
  | [] => 0%nat
  | _ :: l' => if (js_line_terminator_length l =? 0)%nat then S (line_length l') else 0%nat
  end.

(** The bytes before the end of a block comment; all but the last byte if it has
    no end. *)
Fixpoint block_length (l : list Z) : nat :=
  match l with
  | c :: ((d :: _) as l') => if (c =? chr "*") && (d =? chr "/") then 0%nat else S (block_length l')
  | _ => 0%nat
  end.

(** The length of the comment that starts with the slash at the front, if it is
    one.  An unterminated one ends behind the text. *)
Definition skip_comment (l : list Z) : option nat :=
  match l with
  | _ :: c :: p =>
      if c =? chr "/" then
        let n := line_length p in
        let eol_len := js_line_terminator_length (drop n p) in
        Some (2 + n + (if (eol_len =? 0)%nat then 1 else eol_len))%nat
      else if c =? chr "*" then Some (2 + block_length p + 2)%nat
      else None
  | _ => None
  end.

(** ** Strings *)

Definition hex_value (c : Z) : option Z :=
  if is_digit c then Some (c - chr "0")
  else if (chr "a" <=? c) && (c <=? chr "f") then Some (c - chr "a" + 10)
  else if (chr "A" <=? c) && (c <=? chr "F") then Some (c - chr "A" + 10)
  else None.

(** [count] digits of the base at [p]; the error has the position of the byte
    that is not one. *)
Fixpoint scan_digits (count : nat) (base p : Z) (l : list Z) : ParseError + unit :=
  match count with
  | O => inr tt
  | S count' =>
      match l with
      | [] => inl (mkError "unexpected escape" p)
      | c :: l' =>
          match hex_value c with
          | Some digit => if base <=? digit then inl (mkError "unexpected escape" p) else scan_digits count' base (p + 1) l'
          | None => inl (mkError "unexpected escape" p)
          end
      end
  end.

Definition simple_escapes : list Z :=
  [chr "a"; quote1; quote2; chr "b"; chr "f"; chr "n"; chr "r"; chr "t"; chr "v"; backslash].

(** Behind the backslash: the length of the escape. *)
Definition scan_escape (pos : Z) (l : list Z) : ParseError + nat :=
  match l with
  | [] => inl (mkError "unexpected escape" pos)
  | esc :: l' =>
      let eol_len := js_line_terminator_length l in
      if negb (eol_len =? 0)%nat then inr eol_len
      else if existsb (Z.eqb esc) simple_escapes then inr 1%nat
      else if (chr "0" <=? esc) && (esc <=? chr "7") then
        match scan_digits 3 8 pos l with inl e => inl e | inr _ => inr 3%nat end
      else if esc =? chr "x" then
        match scan_digits 2 16 (pos + 1) l' with inl e => inl e | inr _ => inr 3%nat end
      else if esc =? chr "u" then
        match scan_digits 4 16 (pos + 1) l' with inl e => inl e | inr _ => inr 5%nat end
      else inl (mkError "unexpected escape" pos)
  end.

(** Behind the opening quote: the bytes up to and with the closing one.  [None] is
    too little fuel. *)
Fixpoint string_loop (fuel : nat) (start quote pos : Z) (l : list Z) : option (ParseError + nat) :=
  match fuel with
  | O => None
  | S fuel' =>
      match l with
      | [] => Some (inl (mkError "unterminated string literal" start))
      | c :: l' =>
          if c =? quote then Some (inr 1%nat)
          else if negb (js_line_terminator_length l =? 0)%nat then Some (inl (mkError "unterminated string literal" pos))
          else if c =? backslash then
            match scan_escape (pos + 1) l' with
            | inl e => Some (inl e)
            | inr n =>
                match string_loop fuel' start quote (pos + 1 + Z.of_nat n) (drop n l') with
                | Some (inr k) => Some (inr (1 + n + k)%nat)
                | r => r
                end
            end
          else match string_loop fuel' start quote (pos + 1) l' with Some (inr k) => Some (inr (1 + k)%nat) | r => r end
      end
  end.

(** A token and the bytes it takes. *)
Definition scan_string (pos : Z) (l : list Z) : option (ParseError + (Token * nat)) :=
  match l with
  | [] => None
  | quote :: l' =>
      match string_loop (S (length l')) pos quote (pos + 1) l' with
      | Some (inr k) => Some (inr (mkToken LiteralString pos (pos + 1 + Z.of_nat k) (take (S k) l), S k))
      | Some (inl e) => Some (inl e)
      | None => None
      end
  end.

(** ** Numbers *)

Definition number_token (k : TokenKind) (pos : Z) (n : nat) (l : list Z) : Token :=
  mkToken k pos (pos + Z.of_nat n) (take n l).

(** The [0x] and its digits; the suffix belongs to the literal and not to its
    token. *)
Definition lex_hex (pos : Z) (l : list Z) : ParseError + (Token * nat) :=
  let n := (2 + count_while is_hex_digit (drop 2 l))%nat in
  if (n <=? 2)%nat then inl (mkError "invalid hex literal" pos)
  else
    let digits := take (n - 2) (drop 2 l) in
    let is_long := next_is is_long_suffix (drop n l) in
    inr (mkToken (if is_long then LiteralHexLong else LiteralHexInt) pos (pos + Z.of_nat n) digits,
         if is_long then S n else n).

(** The fraction and what follows it, at [n] bytes from the start. *)
Definition lex_suffix (is_real : bool) (pos : Z) (n : nat) (l : list Z) : ParseError + (Token * nat) :=
  match drop n l with
  | [] => inr (number_token LiteralReal pos n l, n)
  | c :: l' =>
      if is_long_suffix c then
        if is_real then inl (mkError "real cannot be long" pos)
        else inr (number_token LiteralLong pos n l, S n)
      else if is_exponent_char c then
        let n := S n in
        let n := if next_is is_sign (drop n l) then S n else n in
        let n := (n + count_while is_digit (drop n l))%nat in
        if next_is is_float_suffix (drop n l) then inr (number_token LiteralRealFloat pos (S n) l, S n)
        else
          let n := if next_is is_double_suffix (drop n l) then S n else n in
          inr (number_token LiteralReal pos n l, n)
      else if is_float_suffix c then inr (number_token LiteralRealFloat pos (S n) l, S n)
      else if is_double_suffix c then inr (number_token LiteralReal pos (S n) l, S n)
      else if is_real then inr (number_token LiteralReal pos n l, n)
      else inr (number_token LiteralInt pos n l, n)
  end.

Definition is_hex_mark (ch : Z) : bool := (ch =? chr "x") || (ch =? chr "X").

Definition lex_numeric_literal (first_char_zero : bool) (pos : Z) (l : list Z) : ParseError + (Token * nat) :=
  if first_char_zero && next_is is_hex_mark (drop 1 l) then lex_hex pos l
  else
    let n := (1 + count_while is_digit (drop 1 l))%nat in
    match drop n l with
    | [] => inr (number_token LiteralInt pos n l, n)
    | c :: l' =>
        if c =? chr "." then
          let k := count_while is_digit l' in
          if (k =? 0)%nat then inr (number_token LiteralInt pos n l, n)
          else lex_suffix true pos (n + 1 + k) l
        else lex_suffix false pos n l
    end.

Definition lex_identifier (pos : Z) (l : list Z) : Token * nat :=
  let n := (1 + count_while is_identifier (drop 1 l))%nat in (number_token Identifier pos n l, n).

(** ** The text *)

Definition push (k : TokenKind) (n : nat) (pos : Z) (l : list Z) : option (ParseError + (list Token * nat)) :=
  Some (inr ([number_token k pos n l], n)).

Definition pushed (r : ParseError + (Token * nat)) : ParseError + (list Token * nat) :=
  match r with inl e => inl e | inr (t, n) => inr ([t], n) end.

Definition skip (n : nat) : option (ParseError + (list Token * nat)) := Some (inr ([], n)).

Definition failed (message : string) (pos : Z) : option (ParseError + (list Token * nat)) :=
  Some (inl (mkError message pos)).

(** One turn of [process]: the token of the bytes at the front, if they make one,
    and how many they are. *)
Definition scan_token (pos : Z) (l : list Z) : option (ParseError + (list Token * nat)) :=
  match l with
  | [] => skip 0
  | ch :: l' =>
      let second c := next_is (Z.eqb c) l' in
      let third c := next_is (Z.eqb c) (drop 1 l') in
      if is_alpha ch || (ch =? chr "_") || (ch =? chr "$") then
        let '(t, n) := lex_identifier pos l in Some (inr ([t], n))
      else if ch =? chr "+" then if second (chr "+") then push Inc 2 pos l else push Plus 1 pos l
      else if ch =? chr "-" then if second (chr "-") then push Dec 2 pos l else push Minus 1 pos l
      else if ch =? chr ":" then push Colon 1 pos l
      else if ch =? chr "." then
        if second (chr ".") && third (chr ".") then push Expand 3 pos l else push Dot 1 pos l
      else if ch =? chr "," then push Comma 1 pos l
      else if ch =? chr "*" then push Star 1 pos l
      else if ch =? chr "/" then
        match skip_comment l with Some n => skip n | None => push Div 1 pos l end
      else if ch =? chr "%" then push Mod 1 pos l
      else if ch =? chr ";" then push Semicolon 1 pos l
      else if ch =? chr "(" then push LParen 1 pos l
      else if ch =? chr ")" then push RParen 1 pos l
      else if ch =? chr "[" then push LSquare 1 pos l
      else if ch =? chr "]" then push RSquare 1 pos l
      else if ch =? chr "{" then push LCurly 1 pos l
      else if ch =? chr "}" then push RCurly 1 pos l
      else if ch =? chr "#" then if second (chr "[") then push Project 2 pos l else push Hash 1 pos l
      else if ch =? chr "^" then if second (chr "[") then push Select 2 pos l else failed "missing character after '^'" pos
      else if ch =? chr "~" then push Tilde 1 pos l
      else if ch =? chr "!" then
        if second (chr "=") && third (chr "=") then push Sne 3 pos l
        else if second (chr "=") then push Ne 2 pos l else push Not 1 pos l
      else if ch =? chr "=" then
        if second (chr "=") && third (chr "=") then push Seq 3 pos l
        else if second (chr "=") then push Eq 2 pos l else push Assign 1 pos l
      else if ch =? chr "&" then
        if second (chr "&") then push SymbolicAnd 2 pos l else failed "missing character after '&'" pos
      else if ch =? chr "|" then
        if second (chr "|") then push SymbolicOr 2 pos l else failed "missing character after '|'" pos
      else if ch =? chr "?" then push QMark 1 pos l
      else if ch =? chr ">" then if second (chr "=") then push GE 2 pos l else push GT 1 pos l
      else if ch =? chr "<" then if second (chr "=") then push LE 2 pos l else push LT 1 pos l
      else if is_digit ch then Some (pushed (lex_numeric_literal (ch =? chr "0") pos l))
      else if (ch =? SP) || (ch =? HTAB) || (ch =? CR) || (ch =? LF) then skip 1
      else if (ch =? quote1) || (ch =? quote2) then pushed <$> scan_string pos l
      else if ch =? backslash then failed "unexpected escape char" pos
      else failed "unexpected character" pos
  end.

(** [None] is too little fuel. *)
Fixpoint process_loop (fuel : nat) (pos : Z) (l : list Z) : option (ParseError + list Token) :=
  match l with
  | [] => Some (inr [])
  | _ :: _ =>
      match fuel with
      | O => None
      | S fuel' =>
          match scan_token pos l with
          | Some (inr (ts, n)) =>
              match process_loop fuel' (pos + Z.of_nat n) (drop n l) with
              | Some (inr ts') => Some (inr (ts ++ ts'))
              | r => r
              end
          | Some (inl e) => Some (inl e)
          | None => None
          end
      end
  end.

Definition process (input : list Z) : option (ParseError + list Token) := process_loop (length input) 0 input.

Example process_small :
  match process (bytes_of_string "let $a = 0x1fL + 1.5e3 /* c */ >= b...; // end") with
  | Some (inr ts) => map (fun t => (kind t, start t, end_ t)) ts
  | _ => []
  end = [(Identifier, 0, 3); (Identifier, 4, 6); (Assign, 7, 8); (LiteralHexLong, 9, 13); (Plus, 15, 16);
             (LiteralReal, 17, 22); (GE, 31, 33); (Identifier, 34, 35); (Expand, 35, 38); (Semicolon, 38, 39)].
Proof. vm_compute. reflexivity. Qed.

(** ** Every text is tokenized or refused *)

Definition size (l : list Z) : Z := Z.of_nat (length l).

(** The bytes from [x] to [y]. *)
Definition slice (input : list Z) (x y : Z) : list Z := take (Z.to_nat (y - x)) (drop (Z.to_nat x) input).

Definition is_hex (k : TokenKind) : bool := match k with LiteralHexInt | LiteralHexLong => true | _ => false end.

(** A token of [n] bytes at the front of [l]: it has bytes, and its text is
    theirs; that of a hexadecimal literal leaves out the mark. *)
Definition token_at (pos : Z) (n : nat) (l : list Z) (t : Token) : Prop :=
  start t = pos /\ pos < end_ t <= pos + Z.of_nat n /\
  text t = slice l (if is_hex (kind t) then 2 else 0) (end_ t - pos).

Lemma count_while_length f l : (count_while f l <= length l)%nat.
Proof. induction l as [|c l IH]; cbn; [lia|]. destruct (f c); cbn; lia. Qed.

Lemma count_while_drop f n l : (n + count_while f (drop n l) <= Nat.max n (length l))%nat.
Proof. pose proof (count_while_length f (drop n l)) as H. rewrite length_drop in H. lia. Qed.

Lemma number_token_at k pos n m l : is_hex k = false -> (1 <= n <= m)%nat -> token_at pos m l (number_token k pos n l).
Proof.
  intros Hk Hn. unfold token_at, number_token, slice. cbn [kind start end_ text]. rewrite Hk. split; [done|]. split; [lia|].
  rewrite drop_0. f_equal. lia.
Qed.

Lemma next_is_drop f n (l : list Z) : next_is f (drop n l) = true -> (n < length l)%nat.
Proof. intros H. destruct (decide (n < length l)%nat); [done|]. rewrite drop_ge in H by lia. done. Qed.

(** What a scan of a token gives. *)
Definition scanned (pos : Z) (l : list Z) (r : ParseError + (Token * nat)) : Prop :=
  match r with inl e => pos <= position e <= pos + size l | inr (t, n) => (1 <= n <= length l)%nat /\ token_at pos n l t end.

Ltac suffix := match goal with H : next_is _ (drop ?n _) = true |- _ => apply next_is_drop in H end.

Lemma lex_suffix_scanned is_real pos n l : (1 <= n <= length l)%nat -> scanned pos l (lex_suffix is_real pos n l).
Proof.
  intros Hn. unfold lex_suffix. destruct (drop n l) as [|c l'] eqn:Hd.
  { split; [lia|]. apply number_token_at; [done|lia]. }
  assert (S n <= length l)%nat as Hs by (apply (f_equal length) in Hd; rewrite length_drop in Hd; cbn in Hd; lia).
  assert (forall k m, is_hex k = false -> (1 <= m <= length l)%nat -> scanned pos l (inr (number_token k pos m l, m))) as Hok.
  { intros k m Hk Hm. split; [done|]. apply number_token_at; [done|lia]. }
  destruct (is_long_suffix c).
  { destruct is_real; [cbn; unfold size; lia|]. split; [lia|]. apply number_token_at; [done|lia]. }
  destruct (is_exponent_char c); [|split_ifs; apply Hok; done || lia].
  set (n1 := if next_is is_sign _ then _ else _).
  assert (S n <= n1 <= length l)%nat as H1 by (unfold n1; destruct (next_is is_sign _) eqn:E; [suffix|]; lia).
  pose proof (count_while_drop is_digit n1 l) as H2. set (n2 := (n1 + _)%nat) in *.
  destruct (next_is is_float_suffix _) eqn:E2; [suffix; apply Hok; [done|lia]|].
  destruct (next_is is_double_suffix _) eqn:E3; [suffix|]; apply Hok; (done || lia).
Qed.

Lemma lex_hex_scanned pos l : (1 <= length l)%nat -> scanned pos l (lex_hex pos l).
Proof.
  intros Hl. unfold lex_hex. pose proof (count_while_drop is_hex_digit 2 l) as Hc. set (n := (2 + _)%nat) in *.
  destruct (Nat.leb_spec n 2) as [Hn|Hn]; [cbn; unfold size; lia|].
  assert (forall k m, is_hex k = true -> (n <= m <= length l)%nat ->
    scanned pos l (inr (mkToken k pos (pos + Z.of_nat n) (take (n - 2) (drop 2 l)), m))) as Hok.
  { intros k m Hk Hm. split; [lia|]. unfold token_at, slice. cbn [kind start end_ text]. rewrite Hk. split; [done|]. split; [lia|].
    f_equal. lia. }
  destruct (next_is is_long_suffix _) eqn:E; [suffix|]; apply Hok; (done || lia).
Qed.

Lemma lex_numeric_scanned z pos l : l <> [] -> scanned pos l (lex_numeric_literal z pos l).
Proof.
  intros Hl. assert (1 <= length l)%nat as H1 by (destruct l; [done|cbn; lia]).
  unfold lex_numeric_literal. destruct (z && _); [by apply lex_hex_scanned|].
  pose proof (count_while_drop is_digit 1 l) as Hc. set (n := (1 + _)%nat) in *.
  assert (scanned pos l (inr (number_token LiteralInt pos n l, n))) as Hint.
  { split; [lia|]. apply number_token_at; [done|lia]. }
  destruct (drop n l) as [|c l'] eqn:Hd; [done|]. destruct (c =? _); [|apply lex_suffix_scanned; lia].
  destruct (_ =? 0)%nat; [done|]. apply lex_suffix_scanned.
  apply (f_equal length) in Hd. rewrite length_drop in Hd. cbn in Hd. pose proof (count_while_length is_digit l'). lia.
Qed.

Lemma terminator_length l : (js_line_terminator_length l <= length l)%nat.
Proof.
  unfold js_line_terminator_length, next_is. repeat case_match; cbn [length]; lia.
Qed.

Lemma scan_digits_length count base p l e :
  scan_digits count base p l = inl e -> p <= position e <= p + size l.
Proof.
  revert p l. induction count as [|count IH]; intros p l; cbn [scan_digits]; [done|].
  destruct l as [|c l']; [intros [= <-]; cbn; unfold size; cbn; lia|].
  assert (size (c :: l') = size l' + 1) as -> by (unfold size; cbn [length]; lia).
  assert (0 <= size l') by (unfold size; lia).
  destruct (hex_value c); [destruct (_ <=? _)|]; [intros [= <-]; cbn; lia| |intros [= <-]; cbn; lia].
  intros He. apply IH in He. lia.
Qed.

Lemma scan_digits_enough count base p l : scan_digits count base p l = inr tt -> (count <= length l)%nat.
Proof.
  revert p l. induction count as [|count IH]; intros p l; cbn [scan_digits]; [lia|]. destruct l as [|c l']; [done|].
  destruct (hex_value c); [|done]. destruct (_ <=? _); [done|]. intros H. apply IH in H. cbn [length]. lia.
Qed.

Lemma scan_escape_bounds pos l :
  match scan_escape pos l with inl e => pos <= position e <= pos + size l | inr n => (1 <= n <= length l)%nat end.
Proof.
  unfold scan_escape. destruct l as [|c l']; [cbn; unfold size; cbn; lia|]. pose proof (terminator_length (c :: l')) as Ht.
  destruct (Nat.eqb_spec (js_line_terminator_length (c :: l')) 0) as [_|Hn]; cbn [negb]; [|lia].
  destruct (existsb _ _); [cbn [length]; lia|].
  assert (size (c :: l') = size l' + 1) as Hs by (unfold size; cbn [length]; lia). assert (0 <= size l') by (unfold size; lia).
  assert (forall k base p l0 (r : nat), (r <= k + 1)%nat -> (l0 = c :: l' /\ p = pos /\ r = k \/ l0 = l' /\ p = pos + 1) -> (1 <= r)%nat ->
    match (match scan_digits k base p l0 with inl e => inl e | inr _ => inr r end) with
    | inl e => pos <= position e <= pos + size (c :: l')
    | inr n => (1 <= n <= length (c :: l'))%nat
    end) as Hd.
  { intros k base p l0 r Hr Hl H1. destruct (scan_digits k base p l0) as [e|[]] eqn:E.
    - apply scan_digits_length in E. destruct Hl as [(-> & -> & _)|[-> ->]]; lia.
    - apply scan_digits_enough in E. destruct Hl as [(-> & -> & ->)|[-> ->]]; cbn [length] in *; lia. }
  split_ifs; [apply Hd; auto; lia|apply Hd; auto; lia|apply Hd; auto; lia|cbn; lia].
Qed.

Lemma string_loop_bounds fuel st quote pos l :
  (length l < fuel)%nat -> 0 <= st <= pos ->
  match string_loop fuel st quote pos l with
  | Some (inl e) => st <= position e <= pos + size l
  | Some (inr k) => (1 <= k <= length l)%nat
  | None => False
  end.
Proof.
  revert pos l. induction fuel as [|fuel IH]; intros pos l Hl Hst; [lia|]. cbn [string_loop].
  destruct l as [|c l']; [cbn; unfold size; lia|]. cbn [length] in Hl.
  assert (size (c :: l') = size l' + 1) as -> by (unfold size; cbn [length]; lia). assert (0 <= size l') by (unfold size; lia).
  destruct (c =? quote); [cbn [length]; lia|]. destruct (negb _); [cbn; lia|]. destruct (c =? backslash).
  - pose proof (scan_escape_bounds (pos + 1) l') as He. destruct (scan_escape (pos + 1) l') as [e|n]; [lia|].
    specialize (IH (pos + 1 + Z.of_nat n) (drop n l') ltac:(rewrite length_drop; lia) ltac:(lia)).
    destruct (string_loop _ _ _ _ _) as [[e|k]|]; [|cbn [length]; rewrite length_drop in IH; lia|done].
    unfold size in *. rewrite length_drop in IH. lia.
  - specialize (IH (pos + 1) l' ltac:(lia) ltac:(lia)). destruct (string_loop _ _ _ _ _) as [[e|k]|]; [lia|cbn [length]; lia|done].
Qed.

Lemma comment_length l : match skip_comment l with Some n => (1 <= n)%nat | None => True end.
Proof.
  unfold skip_comment. destruct l as [|a [|c p]]; [done..|]. destruct (c =? _); [lia|]. destruct (c =? _); [lia|done].
Qed.

(** One turn: it takes a byte, and gives at most one token, of bytes at the
    front. *)
Definition turn_ok (pos : Z) (l : list Z) (r : option (ParseError + (list Token * nat))) : Prop :=
  match r with
  | Some (inl e) => pos <= position e <= pos + size l
  | Some (inr (ts, n)) => (1 <= n)%nat /\ (length ts <= 1)%nat /\ Forall (fun t => (n <= length l)%nat /\ token_at pos n l t) ts
  | None => False
  end.

Lemma push_ok k n pos l : is_hex k = false -> (1 <= n <= length l)%nat -> turn_ok pos l (push k n pos l).
Proof.
  intros Hk Hn. split; [lia|]. split; [done|]. constructor; [|constructor]. split; [lia|]. apply number_token_at; [done|lia].
Qed.

Lemma pushed_ok pos l r : scanned pos l r -> turn_ok pos l (Some (pushed r)).
Proof.
  destruct r as [e|[t n]]; [done|]. intros [Hn Ht]. cbn. split; [lia|]. split; [lia|]. constructor; [|constructor]. split; [lia|done].
Qed.

Lemma scan_string_ok pos l : 0 <= pos -> l <> [] -> turn_ok pos l (pushed <$> scan_string pos l).
Proof.
  intros Hpos Hl. destruct l as [|quote l']; [done|]. unfold scan_string.
  pose proof (string_loop_bounds (S (length l')) pos quote (pos + 1) l' ltac:(lia) ltac:(lia)) as Hs.
  assert (size (quote :: l') = size l' + 1) as Hsz by (unfold size; cbn [length]; lia).
  destruct (string_loop _ _ _ _ _) as [[e|k]|]; [cbn; lia| |done]. apply (pushed_ok pos (quote :: l')).
  split; [cbn [length]; lia|]. unfold token_at, slice. cbn [kind start end_ text is_hex]. split; [done|]. split; [lia|].
  rewrite drop_0. f_equal. lia.
Qed.

Lemma next_is_second c (l : list Z) : next_is (Z.eqb c) l = true -> (1 <= length l)%nat.
Proof. destruct l; cbn; [done|lia]. Qed.

Lemma next_is_third c (l : list Z) : next_is (Z.eqb c) (drop 1 l) = true -> (2 <= length l)%nat.
Proof. intros H%next_is_drop. lia. Qed.

Lemma scan_token_ok pos l : 0 <= pos -> l <> [] -> turn_ok pos l (scan_token pos l).
Proof.
  intros Hpos Hl. destruct l as [|ch l']; [done|]. cbn [scan_token].
  assert (forall m, turn_ok pos (ch :: l') (failed m pos)) as Hfail by (intros m; cbn; unfold size; lia).
  assert (forall n, (1 <= n)%nat -> turn_ok pos (ch :: l') (skip n)) as Hskip by (intros n Hn; cbn; auto with lia).
  assert (forall k, is_hex k = false -> turn_ok pos (ch :: l') (push k 1 pos (ch :: l'))) as H1
    by (intros k Hk; apply push_ok; [done|cbn; lia]).
  assert (forall k c, is_hex k = false -> next_is (Z.eqb c) l' = true -> turn_ok pos (ch :: l') (push k 2 pos (ch :: l'))) as H2
    by (intros k c Hk Hc%next_is_second; apply push_ok; [done|cbn; lia]).
  assert (forall k b c, is_hex k = false -> b && next_is (Z.eqb c) (drop 1 l') = true ->
    turn_ok pos (ch :: l') (push k 3 pos (ch :: l'))) as H3
    by (intros k b c Hk [_ Hc%next_is_third]%andb_prop; apply push_ok; [done|cbn; lia]).
  destruct (_ || (ch =? chr "$")).
  { unfold lex_identifier. pose proof (count_while_drop is_identifier 1 (ch :: l')) as Hc. cbn [drop length] in *.
    apply (pushed_ok pos (ch :: l') (inr (_, _))). split; [cbn [length]; lia|]. apply number_token_at; [done|lia]. }
  repeat match goal with |- turn_ok _ _ (if ch =? ?c then _ else _) => destruct (ch =? c) end;
    try (by auto);
    try (match goal with |- turn_ok _ _ (if ?b then _ else _) => destruct b eqn:E end; [by eapply H3|]);
    try (match goal with |- turn_ok _ _ (if ?b then _ else _) => destruct b eqn:E2 end; [by eapply H2|by auto]).
  all: try (by auto).
  - pose proof (comment_length (ch :: l')) as Hc. destruct (skip_comment _); [by apply Hskip|by apply H1].
  - destruct (is_digit ch); [by apply pushed_ok, lex_numeric_scanned|].
    destruct (_ || (ch =? LF)); [by apply Hskip|]. destruct (_ || _); [by apply scan_string_ok|]. destruct (ch =? backslash); auto.
Qed.

(** Tokens in the order of their bytes, from [pos] on, each with the text of its
    bytes. *)
Inductive placed (input : list Z) : Z -> list Token -> Prop :=
  | placed_nil pos : placed input pos []
  | placed_cons pos t ts :
      pos <= start t < end_ t -> end_ t <= size input ->
      text t = slice input (start t + if is_hex (kind t) then 2 else 0) (end_ t) ->
      placed input (end_ t) ts -> placed input pos (t :: ts).

Lemma placed_before input pos pos' ts : pos' <= pos -> placed input pos ts -> placed input pos' ts.
Proof. intros Hle H. inversion H; subst; constructor; (done || lia). Qed.

Lemma slice_drop input pos x y : 0 <= pos -> 0 <= x -> slice (drop (Z.to_nat pos) input) x y = slice input (pos + x) (pos + y).
Proof.
  intros Hp Hx. unfold slice. rewrite drop_drop. f_equal; [f_equal; lia|]. f_equal. lia.
Qed.

Lemma process_loop_places input fuel pos :
  0 <= pos -> size input <= pos + Z.of_nat fuel ->
  match process_loop fuel pos (drop (Z.to_nat pos) input) with
  | Some (inl e) => 0 <= position e <= size input
  | Some (inr ts) => placed input pos ts
  | None => False
  end.
Proof.
  revert pos. induction fuel as [|fuel IH]; intros pos Hpos Hfuel; cbn [process_loop].
  { rewrite drop_ge by (unfold size in *; lia). constructor. }
  destruct (drop (Z.to_nat pos) input) as [|c l] eqn:Hl; [constructor|].
  assert (size (c :: l) = size input - pos) as Hsz.
  { pose proof (f_equal length Hl) as H. rewrite length_drop in H. unfold size. cbn in *. lia. }
  pose proof (scan_token_ok pos (c :: l) Hpos ltac:(done)) as Hscan.
  destruct (scan_token pos (c :: l)) as [[e|[ts n]]|]; cbn [turn_ok] in Hscan; [lia| |done].
  destruct Hscan as (Hn & Hlen & Hts). specialize (IH (pos + Z.of_nat n) ltac:(lia) ltac:(lia)).
  assert (drop (Z.to_nat (pos + Z.of_nat n)) input = drop n (c :: l)) as Hd.
  { rewrite <-Hl, drop_drop. f_equal. lia. }
  rewrite Hd in IH. destruct (process_loop fuel _ _) as [[e|ts']|]; [done| |done].
  destruct ts as [|t [|? ?]]; [|apply Forall_cons in Hts as [(Hnl & Hst & He & Htext) _]|cbn in Hlen; lia].
  - cbn [app]. eapply placed_before; [|exact IH]. lia.
  - assert (Z.of_nat n <= size (c :: l)) as Hnz by (unfold size; lia). constructor; [lia|lia| |eapply placed_before; [|exact IH]; lia].
    rewrite Htext, <-Hl. rewrite slice_drop by (destruct (is_hex _); lia). rewrite Hst. f_equal. lia.
Qed.

(** The tokenizer comes to an end on every text: it refuses it at a position in
    the text, or gives tokens with at least one byte each, in the order of the text
    and without overlap, whose texts are the bytes at their positions (without the
    mark [0x] of a hexadecimal literal). *)
Theorem process_places_tokens (input : list Z) :
  match process input with
  | Some (inl e) => 0 <= position e <= size input
  | Some (inr ts) => placed input 0 ts
  | None => False
  end.
Proof. unfold process. pose proof (process_loop_places input (length input) 0 ltac:(lia)) as H. apply H. unfold size. lia. Qed.

(** ** Printing *)

(** The spelling of the tokens that have only one. *)
Definition spelling (k : TokenKind) : option (list Z) :=
  bytes_of_string <$>
  match k with
  | LParen => Some "("%string | RParen => Some ")"%string | Comma => Some ","%string | Colon => Some ":"%string
  | Hash => Some "#"%string | RSquare => Some "]"%string | LSquare => Some "["%string | LCurly => Some "{"%string
  | RCurly => Some "}"%string | Expand => Some "..."%string | Dot => Some "."%string | Plus => Some "+"%string
  | Star => Some "*"%string | Minus => Some "-"%string | QMark => Some "?"%string | Project => Some "#["%string
  | Div => Some "/"%string | GE => Some ">="%string | GT => Some ">"%string | LE => Some "<="%string | LT => Some "<"%string
  | Seq => Some "==="%string | Sne => Some "!=="%string | Eq => Some "=="%string | Ne => Some "!="%string
  | Mod => Some "%"%string | Semicolon => Some ";"%string | Not => Some "!"%string | Assign => Some "="%string
  | Tilde => Some "~"%string | Select => Some "^["%string | SymbolicOr => Some "||"%string
  | SymbolicAnd => Some "&&"%string | Inc => Some "++"%string | Dec => Some "--"%string
  | _ => None
  end.

(** The text of a string literal: line terminators, quotes and backslashes are
    escaped. *)
Fixpoint escape (s : list Z) : list Z :=
  match s with
  | [] => []
  | c :: s1 =>
      if c =? quote2 then backslash :: quote2 :: escape s1
      else if c =? backslash then backslash :: backslash :: escape s1
      else if c =? LF then backslash :: chr "n" :: escape s1
      else if c =? CR then backslash :: chr "r" :: escape s1
      else if c =? 0xE2 then
        match s1 with
        | d :: t :: s2 =>
            if (d =? 0x80) && (t =? 0xA8) then bytes_of_string "\u2028" ++ escape s2
            else if (d =? 0x80) && (t =? 0xA9) then bytes_of_string "\u2029" ++ escape s2
            else c :: escape s1
        | _ => c :: escape s1
        end
      else c :: escape s1
  end.

Definition quoted (s : list Z) : list Z := quote2 :: escape s ++ [quote2].

(** The words that are read back as they are printed. *)
Definition spelled (w : TokenKind * list Z) : Prop :=
  match w.1 with
  | Identifier => exists c w', w.2 = c :: w' /\ is_identifier c = true /\ is_digit c = false /\ Forall (fun c => is_identifier c = true) w'
  | LiteralInt => w.2 <> [] /\ Forall (fun c => is_digit c = true) w.2
  | LiteralString => exists s, w.2 = quoted s
  | k => spelling k = Some w.2
  end.

Definition print_words (ws : list (TokenKind * list Z)) : list Z := concat (map (fun w => w.2 ++ [SP]) ws).

(** The words as tokens, each followed by a blank. *)
Fixpoint tokens_from (pos : Z) (ws : list (TokenKind * list Z)) : list Token :=
  match ws with
  | [] => []
  | (k, w) :: ws' => mkToken k pos (pos + size w) w :: tokens_from (pos + size w + 1) ws'
  end.

(** ** Words are read back as they were printed *)

Lemma count_while_app f w l : Forall (fun c => f c = true) w -> next_is f l = false -> count_while f (w ++ l) = length w.
Proof.
  intros Hw Hl. induction Hw as [|c w Hc _ IH]; cbn [app count_while length].
  - destruct l as [|c l]; cbn in *; [done|]. by rewrite Hl.
  - by rewrite Hc, IH.
Qed.

Lemma identifier_start c : is_identifier c = true -> is_digit c = false -> is_alpha c || (c =? chr "_") || (c =? chr "$") = true.
Proof. unfold is_identifier. intros H Hd. rewrite Hd, orb_false_r in H. exact H. Qed.

(** A digit is one of ten bytes. *)
Lemma is_digit_cases c : is_digit c = true -> In c [48; 49; 50; 51; 52; 53; 54; 55; 56; 57].
Proof. unfold is_digit. intros [H1%Z.leb_le H2%Z.leb_le]%andb_prop. cbn in *. lia. Qed.

Lemma scan_digit c pos l :
  is_digit c = true -> scan_token pos (c :: l) = Some (pushed (lex_numeric_literal (c =? chr "0") pos (c :: l))).
Proof. intros H%is_digit_cases. cbn in H. repeat destruct H as [<-|H]; done. Qed.

Lemma digit_not_hex_mark c : is_digit c = true -> is_hex_mark c = false.
Proof. intros H%is_digit_cases. cbn in H. repeat destruct H as [<-|H]; done. Qed.

Lemma take_word (w l : list Z) : take (length w) (w ++ l) = w.
Proof. apply take_app_length. Qed.

Lemma drop_word (w l : list Z) : drop (length w) (w ++ l) = l.
Proof. apply drop_app_length. Qed.

(** The token of the word at the front. *)
Definition word_token (k : TokenKind) (pos : Z) (w : list Z) : option (ParseError + (list Token * nat)) :=
  Some (inr ([mkToken k pos (pos + size w) w], length w)).

Lemma scan_identifier c w pos l :
  is_identifier c = true -> is_digit c = false -> Forall (fun c => is_identifier c = true) w -> next_is is_identifier l = false ->
  scan_token pos ((c :: w) ++ l) = word_token Identifier pos (c :: w).
Proof.
  intros Hc Hd Hw Hl. cbn [app scan_token]. rewrite (identifier_start c Hc Hd).
  assert (lex_identifier pos (c :: w ++ l) = (number_token Identifier pos (length (c :: w)) ((c :: w) ++ l), length (c :: w))) as ->.
  { unfold lex_identifier. change (drop 1 (c :: w ++ l)) with (w ++ l). by rewrite (count_while_app _ w l Hw Hl). }
  unfold number_token, word_token. by rewrite take_word.
Qed.

Lemma scan_int w pos l :
  w <> [] -> Forall (fun c => is_digit c = true) w -> scan_token pos (w ++ SP :: l) = word_token LiteralInt pos w.
Proof.
  intros Hne Hw. destruct Hw as [|c w Hc Hw]; [done|]. cbn [app]. rewrite (scan_digit c pos _ Hc). unfold lex_numeric_literal.
  assert (next_is is_hex_mark (drop 1 (c :: w ++ SP :: l)) = false) as ->.
  { destruct Hw as [|c' w Hc' _]; [done|]. by apply digit_not_hex_mark. }
  rewrite andb_false_r. change (drop 1 (c :: w ++ SP :: l)) with (w ++ SP :: l). rewrite (count_while_app _ w (SP :: l) Hw eq_refl).
  change (1 + length w)%nat with (length (c :: w)). change (c :: w ++ SP :: l) with ((c :: w) ++ SP :: l).
  assert (drop (length w) (w ++ SP :: l) = SP :: l) as Hd by apply drop_word.
  rewrite !drop_word. cbn [pushed].
  change (SP =? chr ".") with false. unfold lex_suffix. rewrite drop_word. cbn [pushed].
  change (is_long_suffix SP) with false. change (is_exponent_char SP) with false. change (is_float_suffix SP) with false.
  change (is_double_suffix SP) with false. unfold number_token. by rewrite take_word.
Qed.

(** What follows in the escaped text is what follows in the text, if it is not
    escaped itself. *)
Lemma escape_head s c t l :
  escape s ++ quote2 :: l = c :: t -> c <> quote2 -> c <> backslash -> c <> 0xE2 ->
  exists s', s = c :: s' /\ t = escape s' ++ quote2 :: l.
Proof.
  intros H Hq Hb He. destruct s as [|c' s']; cbn [escape app] in H; [by inversion H|].
  destruct (Z.eqb_spec c' quote2); [by inversion H|]. destruct (Z.eqb_spec c' backslash); [by inversion H|].
  destruct (c' =? LF); [by inversion H|]. destruct (c' =? CR); [by inversion H|].
  destruct (Z.eqb_spec c' 0xE2) as [->|_]; [|inversion H; subst; eauto].
  exfalso. destruct s' as [|d [|t' s2]]; [by inversion H..|].
  destruct ((d =? 0x80) && (t' =? 0xA8)); [by inversion H|]. destruct ((d =? 0x80) && (t' =? 0xA9)); by inversion H.
Qed.

(** A line separator of three bytes is escaped, so none is left. *)
Lemma no_separator s l :
  (forall d t s2, s = d :: t :: s2 -> (d =? 0x80) && ((t =? 0xA8) || (t =? 0xA9)) = false) ->
  js_line_terminator_length (0xE2 :: escape s ++ quote2 :: l) = 0%nat.
Proof.
  intros H. change (js_line_terminator_length (0xE2 :: escape s ++ quote2 :: l)) with
    (match escape s ++ quote2 :: l with
     | next :: tail :: _ => if (next =? 0x80) && ((tail =? 0xA8) || (tail =? 0xA9)) then 3%nat else 0%nat
     | _ => 0%nat
     end).
  destruct (escape s ++ quote2 :: l) as [|d [|t r]] eqn:E; [done..|].
  destruct ((d =? 0x80) && ((t =? 0xA8) || (t =? 0xA9))) eqn:E2; [|done].
  assert (d = 0x80 /\ (t = 0xA8 \/ t = 0xA9)) as [-> Ht].
  { apply andb_prop in E2 as [->%Z.eqb_eq E2]. split; [done|]. apply orb_prop in E2 as [->%Z.eqb_eq| ->%Z.eqb_eq]; auto. }
  apply escape_head in E as (s1 & -> & E); [|done..]. symmetry in E.
  apply escape_head in E as (s2 & -> & _); [|by destruct Ht as [->| ->]..].
  specialize (H _ _ _ eq_refl). destruct Ht as [->| ->]; discriminate H.
Qed.

Lemma string_loop_step fuel st pos c l :
  c <> quote2 -> c <> backslash -> js_line_terminator_length (c :: l) = 0%nat ->
  string_loop (S fuel) st quote2 pos (c :: l) =
  match string_loop fuel st quote2 (pos + 1) l with Some (inr k) => Some (inr (1 + k)%nat) | r => r end.
Proof.
  intros Hq Hb Ht. cbn [string_loop]. rewrite Ht. apply Z.eqb_neq in Hq as ->. apply Z.eqb_neq in Hb as ->. reflexivity.
Qed.

Lemma string_loop_escaped fuel st pos n e l :
  (forall p l, scan_escape p (e ++ l) = inr n) -> length e = n ->
  string_loop (S fuel) st quote2 pos (backslash :: e ++ l) =
  match string_loop fuel st quote2 (pos + 1 + Z.of_nat n) l with Some (inr k) => Some (inr (1 + n + k)%nat) | r => r end.
Proof.
  intros He Hn. cbn [string_loop]. change (backslash =? quote2) with false. change (backslash =? backslash) with true.
  change (js_line_terminator_length (backslash :: e ++ l)) with 0%nat. cbn [negb Nat.eqb]. rewrite He, <-Hn, drop_app_length. done.
Qed.

Lemma string_loop_escape fuel s st pos l :
  (length (escape s) < fuel)%nat ->
  string_loop fuel st quote2 pos (escape s ++ quote2 :: l) = Some (inr (S (length (escape s)))).
Proof.
  revert pos s. induction fuel as [|fuel IH]; [lia|]. intros pos s Hlen. destruct s as [|c s]; [done|].
  assert (forall n e s', (forall p l, scan_escape p (e ++ l) = inr n) -> length e = n ->
    (length (backslash :: e ++ escape s') < S fuel)%nat ->
    string_loop (S fuel) st quote2 pos ((backslash :: e ++ escape s') ++ quote2 :: l) =
    Some (inr (S (length (backslash :: e ++ escape s'))))) as Hesc.
  { intros n e s' He Hn Hl. cbn [app]. rewrite <-app_assoc, (string_loop_escaped _ _ _ n e _ He Hn).
    cbn [length] in *. rewrite length_app in *. rewrite IH by lia. do 2 f_equal. lia. }
  cbn [escape] in *.
  destruct (Z.eqb_spec c quote2) as [_|Hq]; [by apply (Hesc 1%nat [quote2])|].
  destruct (Z.eqb_spec c backslash) as [_|Hb]; [by apply (Hesc 1%nat [backslash])|].
  destruct (Z.eqb_spec c LF) as [_|Hlf]; [by apply (Hesc 1%nat [chr "n"])|].
  destruct (Z.eqb_spec c CR) as [_|Hcr]; [by apply (Hesc 1%nat [chr "r"])|].
  assert (js_line_terminator_length (c :: escape s ++ quote2 :: l) = 0%nat -> (length (c :: escape s) < S fuel)%nat ->
    string_loop (S fuel) st quote2 pos ((c :: escape s) ++ quote2 :: l) = Some (inr (S (length (c :: escape s))))) as Hplain.
  { intros Hterm Hl. cbn [app]. rewrite string_loop_step by done. cbn [length] in *. rewrite IH by lia. done. }
  destruct (Z.eqb_spec c 0xE2) as [->|He2].
  - destruct s as [|d [|t s2]].
    + apply Hplain; [|done]. by apply no_separator.
    + apply Hplain; [|done]. by apply no_separator.
    + destruct ((d =? 0x80) && (t =? 0xA8)) eqn:E1; [by apply (Hesc 5%nat (bytes_of_string "u2028"))|].
      destruct ((d =? 0x80) && (t =? 0xA9)) eqn:E2; [by apply (Hesc 5%nat (bytes_of_string "u2029"))|].
      apply Hplain; [|done]. apply no_separator. intros d' t' s' [= <- <- <-]. by rewrite andb_orb_distrib_r, E1, E2.
  - apply Hplain; [|done]. unfold js_line_terminator_length. apply Z.eqb_neq in Hlf as ->. apply Z.eqb_neq in Hcr as ->.
    by apply Z.eqb_neq in He2 as ->.
Qed.

Lemma scan_quoted s pos l : scan_token pos (quoted s ++ l) = word_token LiteralString pos (quoted s).
Proof.
  change (scan_token pos (quoted s ++ l)) with (pushed <$> scan_string pos (quoted s ++ l)).
  assert (quoted s ++ l = quote2 :: escape s ++ quote2 :: l) as E by (unfold quoted; cbn [app]; by rewrite <-app_assoc).
  rewrite E. unfold scan_string.
  rewrite string_loop_escape by (rewrite length_app; cbn [length]; lia). rewrite <-E.
  assert (length (quoted s) = S (S (length (escape s)))) as Hl by (unfold quoted; cbn [length]; rewrite length_app; cbn [length]; lia).
  rewrite <-Hl, take_word. unfold word_token, size. rewrite Hl. cbn [fmap option_fmap option_map pushed].
  replace (pos + 1 + Z.of_nat (S (length (escape s)))) with (pos + Z.of_nat (S (S (length (escape s))))) by lia. done.
Qed.

Lemma scan_spelled k w pos l : spelled (k, w) -> scan_token pos (w ++ SP :: l) = word_token k pos w.
Proof.
  unfold spelled. cbn [fst snd]. intros H.
  destruct k; cbn in H; try discriminate H; try (injection H as <-; reflexivity).
  - destruct H as [Hne H]. by apply scan_int.
  - destruct H as [s ->]. apply scan_quoted.
  - destruct H as (c & w' & -> & Hc & Hd & Hw). by apply scan_identifier.
Qed.

Lemma process_loop_words ws fuel pos :
  Forall spelled ws -> (length (print_words ws) <= fuel)%nat ->
  process_loop fuel pos (print_words ws) = Some (inr (tokens_from pos ws)).
Proof.
  intros Hws. revert fuel pos. induction Hws as [|[k w] ws Hw Hws IH]; intros fuel pos Hf; [by destruct fuel|].
  assert (print_words ((k, w) :: ws) = w ++ SP :: print_words ws) as E
    by (unfold print_words; cbn [map concat snd]; by rewrite <-app_assoc).
  rewrite E in Hf |- *. rewrite length_app in Hf. cbn [length] in Hf. pose proof (scan_spelled k w pos (print_words ws) Hw) as Hs.
  destruct w as [|c w]; [destruct k; cbn in Hw; naive_solver|].
  destruct fuel as [|[|fuel]]; [cbn in Hf; lia..|]. cbn [length] in Hf.
  change (process_loop (S (S fuel)) pos ((c :: w) ++ SP :: print_words ws)) with
    (match scan_token pos ((c :: w) ++ SP :: print_words ws) with
     | Some (inr (ts, n)) =>
         match process_loop (S fuel) (pos + Z.of_nat n) (drop n ((c :: w) ++ SP :: print_words ws)) with
         | Some (inr ts') => Some (inr (ts ++ ts'))
         | r => r
         end
     | Some (inl e) => Some (inl e)
     | None => None
     end).
  rewrite Hs. unfold word_token. rewrite drop_word. cbn [process_loop].
  change (scan_token (pos + Z.of_nat (length (c :: w))) (SP :: print_words ws)) with (skip 1). cbn [skip drop].
  rewrite IH by lia. cbn [tokens_from]. unfold skip. done.
Qed.

(** C34. Words that are tokens (operators, brackets, names, decimal integers and
    quoted strings with any bytes in them), printed with a blank behind each, are
    tokenized into themselves, at the positions where they were printed. *)
Theorem process_print_words (ws : list (TokenKind * list Z)) :
  Forall spelled ws -> process (print_words ws) = Some (inr (tokens_from 0 ws)).
Proof. intros H. by apply process_loop_words. Qed.

Lemma process_print_words_witness :
  process (print_words [(Identifier, bytes_of_string "$a"); (Sne, bytes_of_string "!=="); (LiteralInt, bytes_of_string "07");
                        (LiteralString, quoted [10; 34; 0xE2; 0x80; 0xA8; 200])]) =
  Some (inr [mkToken Identifier 0 2 (bytes_of_string "$a"); mkToken Sne 3 6 (bytes_of_string "!==");
             mkToken LiteralInt 7 9 (bytes_of_string "07");
             mkToken LiteralString 10 23 (quoted [10; 34; 0xE2; 0x80; 0xA8; 200])]).
Proof.
  apply (process_print_words [(Identifier, bytes_of_string "$a"); (Sne, bytes_of_string "!==");
    (LiteralInt, bytes_of_string "07"); (LiteralString, quoted [10; 34; 0xE2; 0x80; 0xA8; 200])]).
  constructor; [eexists _, _; repeat split; repeat constructor|]. constructor; [reflexivity|].
  constructor; [split; [discriminate|repeat constructor]|]. constructor; [by eexists|constructor].
Defined.

End Tokens.
