(* ===== verification/ScriptLiteral.v ===== *)
(** * The literals of a script ([src/script/parse/Parser.cpp])

    What the parser makes of the token of a number or a string: the conversions of
    the C library it calls ([strtoll], [strtod]) as they treat the text of such a
    token, and the escapes of a string. *)
From S2P Require Import Prelude ScriptAst ScriptTokens.
From Stdlib Require Import Floats.SpecFloat.

Module Literals.
Import Tokens.

(** A name of the tree: the bytes of a token as a string. *)
Definition string_of_bytes (l : list Z) : string :=
  String.string_of_list_ascii (map (fun b => Ascii.ascii_of_N (Z.to_N b)) l).

(** [static_cast<std::int32_t>] of a position in the text. *)
Definition i32 (pos : Z) : Z := to_signed 32 pos.

(** [make_error]: no position for an error without a message; the error is at the
    start of the text if there is no token. *)
Definition make_error (message : string) (token : option Token) : ParseError :=
  if bool_decide (message = EmptyString) then mkError EmptyString 0
  else mkError message (match token with Some t => start t | None => 0 end).

(** ** Strings *)

Definition append_utf8 (codepoint : Z) : list Z :=
  if codepoint <=? 0x7F then [u8 codepoint]
  else if codepoint <=? 0x7FF then
    [u8 (Z.lor 0xC0 (Z.shiftr codepoint 6)); u8 (Z.lor 0x80 (Z.land codepoint 0x3F))]
  else if codepoint <=? 0xFFFF then
    [u8 (Z.lor 0xE0 (Z.shiftr codepoint 12)); u8 (Z.lor 0x80 (Z.land (Z.shiftr codepoint 6) 0x3F));
     u8 (Z.lor 0x80 (Z.land codepoint 0x3F))]
  else
    [u8 (Z.lor 0xF0 (Z.shiftr codepoint 18)); u8 (Z.lor 0x80 (Z.land (Z.shiftr codepoint 12) 0x3F));
     u8 (Z.lor 0x80 (Z.land (Z.shiftr codepoint 6) 0x3F)); u8 (Z.lor 0x80 (Z.land codepoint 0x3F))].

(** The escapes of one character. *)
Definition simple_escape (esc : Z) : option Z :=
  if esc =? chr "a" then Some (chr "a")
  else if esc =? chr "b" then Some 8
  else if esc =? chr "f" then Some 12
  else if esc =? chr "n" then Some LF
  else if esc =? chr "r" then Some CR
  else if esc =? chr "t" then Some HTAB
  else if esc =? chr "v" then Some 11
  else if (esc =? backslash) || (esc =? quote2) || (esc =? quote1) then Some esc
  else None.

Definition is_octal (c : Z) : bool := (chr "0" <=? c) && (c <=? chr "7").

(** The value of a run of hexadecimal digits. *)
Fixpoint hex_run (value : Z) (l : list Z) : option Z :=
  match l with
  | [] => Some value
  | c :: l' => match hex_value c with Some digit => hex_run (value * 16 + digit) l' | None => None end
  end.

Definition output (bytes : list Z) (r : ParseError + list Z) : ParseError + list Z :=
  match r with inr l => inr (bytes ++ l) | inl e => inl e end.

(** The bytes between the quotes, [pos] being the position of the first. *)
Fixpoint unescape (pos : Z) (l : list Z) : ParseError + list Z :=
  match l with
  | [] => inr []
  | ch :: l1 =>
      if negb (ch =? backslash) then output [ch] (unescape (pos + 1) l1)
      else
        match l1 with
        | [] => inl (mkError "unterminated escape" pos)
        | esc :: l2 =>
            match simple_escape esc with
            | Some value => output [value] (unescape (pos + 2) l2)
            | None =>
                if esc =? chr "x" then
                  match l2 with
                  | a :: b :: l3 =>
                      match hex_run 0 [a; b] with
                      | Some value => output (append_utf8 value) (unescape (pos + 4) l3)
                      | None => inl (mkError "invalid hex escape" (pos + 1))
                      end
                  | _ => inl (mkError "invalid hex escape" (pos + 1))
                  end
                else if esc =? chr "u" then
                  match l2 with
                  | a :: b :: c :: d :: l3 =>
                      match hex_run 0 [a; b; c; d] with
                      | Some value => output (append_utf8 value) (unescape (pos + 6) l3)
                      | None => inl (mkError "invalid unicode escape" (pos + 1))
                      end
                  | _ => inl (mkError "invalid unicode escape" (pos + 1))
                  end
                else if esc =? CR then
                  match l2 with
                  | c :: l3 => if c =? LF then unescape (pos + 3) l3 else unescape (pos + 2) l2
                  | [] => unescape (pos + 2) l2
                  end
                else if esc =? LF then unescape (pos + 2) l2
                else if is_octal esc then
                  let value := esc - chr "0" in
                  match l2 with
                  | a :: l3 =>
                      if is_octal a then
                        let value := value * 8 + (a - chr "0") in
                        match l3 with
                        | b :: l4 =>
                            if is_octal b then output (append_utf8 (value * 8 + (b - chr "0"))) (unescape (pos + 4) l4)
                            else output (append_utf8 value) (unescape (pos + 3) l3)
                        | [] => output (append_utf8 value) (unescape (pos + 3) l3)
                        end
                      else output (append_utf8 value) (unescape (pos + 2) l2)
                  | [] => output (append_utf8 value) (unescape (pos + 2) l2)
                  end
                else inl (mkError "invalid escape" (pos + 1))
            end
        end
  end.

Definition parse_string_literal (token_text : list Z) (start_pos : Z) : ParseError + list Z :=
  match token_text with
  | quote :: (_ :: _) as body =>
      if negb (List.last token_text 0 =? quote) then inl (mkError "unterminated string literal" start_pos)
      else unescape (start_pos + 1) (removelast (tail token_text))
  | _ => inl (mkError "invalid string literal" start_pos)
  end.

(** ** Numbers *)

(** The value of the byte as a digit of the base. *)
Definition digit_in (base c : Z) : option Z :=
  match hex_value c with Some digit => if digit <? base then Some digit else None | None => None end.

Definition is_digit_in (base c : Z) : bool := match digit_in base c with Some _ => true | None => false end.

Definition digits_value (base : Z) (l : list Z) : Z :=
  fold_left (fun value c => value * base + match digit_in base c with Some digit => digit | None => 0 end) l 0.

(** [strtoll] on a text without blanks, sign and [0x]: [None] when it reads no
    digit or sets [errno] to [ERANGE]. *)
Definition strtoll (base : Z) (l : list Z) : option Z :=
  let n := count_while (is_digit_in base) l in
  if (n =? 0)%nat then None
  else
    let value := digits_value base (take n l) in
    if value <=? 2 ^ 63 - 1 then Some value else None.

(** The 64-bit number nearest to [m * 10 ^ e], ties to even. *)
Definition nearest_double (m e : Z) : spec_float :=
  match m with
  | Zpos p =>
      if 0 <=? e then binary_normalize 53 1024 (m * 10 ^ e) 0 false
      else match 10 ^ (- e) with
           | Zpos q => SFdiv 53 1024 (S754_finite false p 0) (S754_finite false q 0)
           | _ => S754_nan
           end
  | _ => S754_zero false
  end.

(** [errno] is [ERANGE]: too big, or so small that it has lost digits (the C library
    may or may not tell the latter; the one of GNU does). *)
Definition out_of_range (m e : Z) (f : spec_float) : bool :=
  match f with
  | S754_infinity _ => true
  | S754_zero _ => negb (m =? 0)
  | S754_finite _ p ex => (Zpos p <? 2 ^ 52) && negb (m * 2 ^ 1074 =? Zpos p * 10 ^ (- e))
  | S754_nan => false
  end.

(** The exponent behind the digits: it belongs to the number if it has digits. *)
Definition exponent_of (l : list Z) : Z :=
  match l with
  | c :: l1 =>
      if is_exponent_char c then
        let '(negative, l2) :=
          match l1 with d :: l2 => if is_sign d then (d =? chr "-", l2) else (false, l1) | [] => (false, l1) end in
        let value := digits_value 10 (take (count_while is_digit l2) l2) in
        if negative then - value else value
      else 0
  | [] => 0
  end.

(** [strtod] on a text that starts with a digit and is not hexadecimal: [None] when
    it reads no digit or sets [errno] to [ERANGE]. *)
Definition strtod (l : list Z) : option spec_float :=
  let n := count_while is_digit l in
  if (n =? 0)%nat then None
  else
    let '(fraction, l2) :=
      match drop n l with
      | c :: l1 => if c =? chr "." then (take (count_while is_digit l1) l1, drop (count_while is_digit l1) l1) else ([], c :: l1)
      | [] => ([], [])
      end in
    let m := digits_value 10 (take n l ++ fraction) in
    let e := exponent_of l2 - size fraction in
    let f := nearest_double m e in
    if out_of_range m e f then None else Some f.

(** ** Literals *)

Definition token_node (t : Token) : Ast.Node := Ast.mkNode (i32 (start t)) (i32 (end_ t)).

Definition parse_literal_token (token : Token) : ParseError + (Ast.Node * Ast.Literal) :=
  match kind token with
  | LiteralInt | LiteralLong =>
      match strtoll 10 (text token) with
      | Some value => inr (token_node token, Ast.Integer value)
      | None => inl (make_error "invalid integer literal" (Some token))
      end
  | LiteralHexInt | LiteralHexLong =>
      match strtoll 16 (text token) with
      | Some value => inr (token_node token, Ast.Integer value)
      | None => inl (make_error "invalid hex literal" (Some token))
      end
  | LiteralReal | LiteralRealFloat =>
      match strtod (text token) with
      | Some value => inr (token_node token, Ast.Float value)
      | None => inl (make_error "invalid real literal" (Some token))
      end
  | LiteralString =>
      match parse_string_literal (text token) (start token) with
      | inr value => inr (token_node token, Ast.StringValue (string_of_bytes value))
      | inl e => inl e
      end
  | _ => inl (make_error "unsupported literal" (Some token))
  end.

(** ** Values of printed literals *)

Lemma unescape_escape s pos : unescape pos (escape s) = inr s.
Proof.
  revert pos. induction s as [s IH] using (induction_ltof1 _ (@length Z)). unfold ltof in IH. intros pos.
  destruct s as [|c s]; [done|]. cbn [escape].
  assert (forall n, output [c] (unescape (pos + n) (escape s)) = inr (c :: s)) as Hone
    by (intros n; rewrite IH by (cbn; lia); done).
  assert (c <> backslash -> unescape pos (c :: escape s) = inr (c :: s)) as Hplain.
  { intros Hb%Z.eqb_neq. cbn [unescape]. rewrite Hb. apply Hone. }
  destruct (Z.eqb_spec c quote2) as [->|_]; [apply (Hone 2)|]. destruct (Z.eqb_spec c backslash) as [->|Hb]; [apply (Hone 2)|].
  destruct (Z.eqb_spec c LF) as [->|_]; [apply (Hone 2)|]. destruct (Z.eqb_spec c CR) as [->|_]; [apply (Hone 2)|].
  destruct (Z.eqb_spec c 0xE2) as [->|_]; [|by apply Hplain].
  destruct s as [|d [|t s2]]; [by apply Hplain..|].
  assert (forall v, append_utf8 v = [0xE2; d; t] -> output (append_utf8 v) (unescape (pos + 6) (escape s2)) = inr (0xE2 :: d :: t :: s2))
    as Hthree by (intros v ->; rewrite IH by (cbn; lia); done).
  destruct ((d =? 0x80) && (t =? 0xA8)) eqn:E1;
    [apply andb_prop in E1 as [->%Z.eqb_eq ->%Z.eqb_eq]; by apply (Hthree 0x2028)|].
  destruct ((d =? 0x80) && (t =? 0xA9)) eqn:E2;
    [apply andb_prop in E2 as [->%Z.eqb_eq ->%Z.eqb_eq]; by apply (Hthree 0x2029)|].
  by apply Hplain.
Qed.

Lemma parse_quoted s pos : parse_string_literal (quoted s) pos = inr s.
Proof.
  unfold quoted, parse_string_literal.
  assert (forall q (x : list Z), List.last (q :: x ++ [quote2]) 0 = quote2) as Hl
    by (intros q x; change (q :: x ++ [quote2]) with ((q :: x) ++ [quote2]); apply last_last).
  rewrite Hl. cbn [tail]. rewrite removelast_last, unescape_escape. by destruct (escape s).
Qed.

(** C33. A string literal has the value it was printed for: whatever bytes it has,
    its quoted text is one token of the text, and the parser makes of that token the
    string of those bytes. *)
Theorem string_literal_roundtrip (s : list Z) :
  exists t, process (quoted s ++ [SP]) = Some (inr [t]) /\
  parse_literal_token t = inr (token_node t, Ast.StringValue (string_of_bytes s)).
Proof.
  exists (mkToken LiteralString 0 (size (quoted s)) (quoted s)). split.
  - assert (quoted s ++ [SP] = print_words [(LiteralString, quoted s)]) as -> by (unfold print_words; cbn; by rewrite app_nil_r).
    unfold process. rewrite process_loop_words; [done| |done]. constructor; [by exists s|constructor].
  - unfold parse_literal_token. cbn [kind text start]. by rewrite parse_quoted.
Qed.

End Literals.
