(* ===== verification/ScriptParser.v ===== *)
(** * The parser of scripts ([src/script/parse/Parser.cpp])

    One [Definition] per function, with its name.  A function takes the state of the
    parser and gives a result and the state it leaves, also when it fails:
    [parse_start_node] tries its alternatives one after the other and goes on from
    where the failed one stopped.  [rest] is what [tokens_] holds from [pos_] on; a
    saved position is a saved list.

    The functions call each other in a circle that goes through
    [parse_expression_internal] and, for statements, through [parse_statement]: they
    take the function that closes it as an argument, and [expression] and
    [statement] tie the knot with the number of tokens as fuel, as the loops do. *)
From S2P Require Import Prelude ScriptAst ScriptTokens ScriptLiteral.

(** What the parser asks of [Library] and [DirectiveDef]; a pointer is a number. *)
Class Library := {
  find_func : string -> option nat;
  find_async_func : string -> option nat;
  find_constant : string -> string -> option nat;
  find_async_constant : string -> string -> option nat;
  find_directive_def : string -> string -> list Ast.Literal -> option nat;
  directive_find_func : nat -> string -> string -> option nat;
  directive_find_async_func : nat -> string -> string -> option nat;
}.

Module Parser.
Import Tokens Literals.

(** [directive_map_] has the definitions of the directives; [root_props] are the
    calls of [mark_root_prop], the last one first. *)
Record State := mkState { rest : list Token; directive_map : gmap string nat; root_props : list string }.

Inductive Result (A : Type) := Ok (a : A) (s : State) | Err (e : ParseError) (s : State) | OutOfFuel.
Arguments Ok {A}. Arguments Err {A}. Arguments OutOfFuel {A}.

Definition M (A : Type) : Type := State -> Result A.

#[global] Instance M_ret : MRet M := fun A a s => Ok a s.
#[global] Instance M_bind : MBind M := fun A B k m s =>
  match m s with Ok a s' => k a s' | Err e s' => Err e s' | OutOfFuel => OutOfFuel end.

Definition fail {A} (message : string) (token : option Token) : M A := fun s => Err (make_error message token) s.

(** [std::unexpected(ParseError{})]: this is not the construct looked for. *)
Definition no_match {A} : M A := fun s => Err (mkError EmptyString 0) s.

Definition lift {A} (r : ParseError + A) : M A := fun s => match r with inr a => Ok a s | inl e => Err e s end.

Definition with_rest (l : list Token) (s : State) : State := mkState l (directive_map s) (root_props s).

(** The second one if the first fails, from where it stopped. *)
Definition otherwise {A} (m1 m2 : M A) : M A := fun s => match m1 s with Err _ s' => m2 s' | r => r end.

(** A loop that takes a token in every turn. *)
Definition looping {A} (loop : nat -> M A) : M A := fun s => loop (S (length (rest s))) s.

(** ** Tokens *)

(** [peek] without an argument and [next]; [pos_] to return to. *)
Definition peek : M (option Token) := fun s => Ok (head (rest s)) s.
Definition position_of : M (list Token) := fun s => Ok (rest s) s.
Definition directives_of : M (gmap string nat) := fun s => Ok (directive_map s) s.
Definition return_to (saved : list Token) : M unit := fun s => Ok tt (with_rest saved s).
Definition mark_root_prop (key : string) : M unit := fun s => Ok tt (mkState (rest s) (directive_map s) (key :: root_props s)).
Definition next : M unit := fun s => Ok tt (with_rest (tail (rest s)) s).

Definition has_kind (ks : list TokenKind) (t : option Token) : bool :=
  match t with Some t => bool_decide (kind t ∈ ks) | None => false end.

Definition token_name (t : Token) : string := string_of_bytes (text t).

(** [peek_identifier] *)
Definition named (name : string) (t : option Token) : bool :=
  match t with Some t => bool_decide (kind t = Identifier) && bool_decide (token_name t = name) | None => false end.

(** [peek(kind, true)]: the token, if it is taken. *)
Definition accept (k : TokenKind) : M (option Token) :=
  t ← peek; if has_kind [k] t then next;; mret t else mret None.

Definition eat (k : TokenKind) : M Token :=
  t ← peek;
  match t with
  | None => fail "unexpected end of input" None
  | Some token => next;; if bool_decide (kind token = k) then mret token else fail "unexpected token" (Some token)
  end.

Definition eat_keyword (keyword : string) : M Token :=
  token ← eat Identifier;
  if bool_decide (token_name token = keyword) then mret token else fail "keyword not matched" (Some token).

Definition keywords : list string :=
  ["let"; "if"; "else"; "for"; "of"; "continue"; "break"; "return"; "directive"; "try"; "catch"; "throw"]%string.

Definition is_keyword (name : string) : bool := bool_decide (name ∈ keywords).

(** A name with its node. *)
Definition parse_identifier_token : M (Ast.Node * string) :=
  token ← eat Identifier;
  if is_keyword (token_name token) then fail "keyword not expected" (Some token) else mret (token_node token, token_name token).

(** ** Operators *)

Definition operator_from_token (k : TokenKind) : option Ast.Operator :=
  match k with
  | Plus => Some Ast.Add | Minus => Some Ast.Minus | Star => Some Ast.Multiply | Div => Some Ast.Divide
  | Mod => Some Ast.Modulo | Tilde => Some Ast.Match | SymbolicAnd => Some Ast.And | SymbolicOr => Some Ast.Or
  | LT => Some Ast.Lt | LE => Some Ast.Lte | GT => Some Ast.Gt | GE => Some Ast.Gte | Eq => Some Ast.Eq
  | Seq => Some Ast.Seq | Ne => Some Ast.Ne | Sne => Some Ast.Sne | Not => Some Ast.Not
  | _ => None
  end.

Definition operator_payload (op : Ast.Operator) : string :=
  (match op with
  | Ast.Add => "+" | Ast.Minus => "-" | Ast.Multiply => "*" | Ast.Divide => "/" | Ast.Modulo => "%"
  | Ast.Match => "~" | Ast.And => "&&" | Ast.Or => "||" | Ast.Lt => "<" | Ast.Lte => "<=" | Ast.Gt => ">"
  | Ast.Gte => ">=" | Ast.Eq => "==" | Ast.Seq => "===" | Ast.Ne => "!=" | Ast.Sne => "!==" | Ast.Not => "!"
  | Ast.Typeof => "typeof" | Ast.In => "in"
  end)%string.

Definition operator_from_identity (name : string) : option Ast.Operator :=
  if bool_decide (name = "typeof"%string) then Some Ast.Typeof else if bool_decide (name = "in"%string) then Some Ast.In else None.

(** The payload of an operator is what its token is spelled like. *)
Lemma operator_spelled k op : operator_from_token k = Some op -> spelling k = Some (bytes_of_string (operator_payload op)).
Proof. by destruct k; intros [= <-]. Qed.

Lemma operator_identity x op : operator_from_identity x = Some op -> operator_payload op = x.
Proof. unfold operator_from_identity. repeat case_bool_decide; by intros [= <-]. Qed.

Definition is_numeric_relational_operator (k : TokenKind) : bool :=
  bool_decide (k ∈ [GT; GE; LT; LE; Eq; Ne; Seq; Sne]).

(** [dynamic_cast<ast::MaybeLValue *>] *)
Definition is_lvalue (e : Ast.Expression) : bool :=
  match e with Ast.VariableReference _ _ | Ast.Indexer _ _ _ | Ast.PropertyReference _ _ _ => true | _ => false end.

Definition start_of (e : Ast.Expression) : Z := Ast.start_pos (Ast.expression_node e).
Definition end_of (e : Ast.Expression) : Z := Ast.end_pos (Ast.expression_node e).

(** From the start of one to the end of the other. *)
Definition span (a b : Ast.Expression) : Ast.Node := Ast.mkNode (start_of a) (end_of b).

(** The pointers of a call or a constant: the asynchronous one counts
    ([is_async]); none is an error. *)
Definition callee (sync async : option nat) : option Ast.Callee :=
  match async with Some n => Some (Ast.Async n) | None => Ast.Sync <$> sync end.

(** The node an operator makes of its operands. *)
Definition combination : Type := Ast.Node -> Ast.Expression -> Ast.Expression -> Ast.Expression.

Definition logical (op : Ast.Operator) (t : Token) : option combination :=
  Some (fun n l r => Ast.LogicRelationalExpression n l op r).
Definition arithmetic (t : Token) : option combination :=
  match operator_from_token (kind t) with Some op => Some (fun n l r => Ast.BinaryOperator n op l r) | None => None end.

(** The [while] loops of the left-associative operators. *)
Fixpoint operator_loop (ks : list TokenKind) (combine : Token -> option combination) (operand : M Ast.Expression)
    (fuel : nat) (expr : Ast.Expression) : M Ast.Expression :=
  match fuel with
  | O => fun _ => OutOfFuel
  | S fuel' =>
      t ← peek;
      match t with
      | Some op_token =>
          if has_kind ks t then
            next;;
            rhs ← operand;
            match combine op_token with
            | Some make => operator_loop ks combine operand fuel' (make (span expr rhs) expr rhs)
            | None => fail "unsupported operator" (Some op_token)
            end
          else mret expr
      | None => mret expr
      end
  end.

Definition left_associative (ks : list TokenKind) (combine : Token -> option combination) (operand : M Ast.Expression)
    : M Ast.Expression :=
  expr ← operand; looping (fun fuel => operator_loop ks combine operand fuel expr).

Section Parsing.
Context `{Library} (allow_assign : bool).

(** ** Expressions *)

Section Expressions.
(** [parse_expression_internal] *)
Context (expr : M Ast.Expression).

(** An element of a list or an argument of a call. *)
Definition parse_element : M Ast.Expression :=
  t ← peek;
  match t with
  | Some expand_token =>
      if has_kind [Expand] t then
        next;;
        inner ← expr;
        mret (Ast.ExpandArrArg (Ast.mkNode (i32 (start expand_token)) (end_of inner)) inner)
      else expr
  | None => expr
  end.

(** The [while] loops of [parse_inline_list] and [parse_method_args]: elements up to
    the token [close], which is left. *)
Fixpoint elements_loop (close : TokenKind) (fuel : nat) (values : list Ast.Expression) : M (list Ast.Expression) :=
  match fuel with
  | O => fun _ => OutOfFuel
  | S fuel' =>
      t ← peek;
      match t with
      | None => mret values
      | Some _ =>
          if has_kind [close] t then mret values
          else
            value ← parse_element;
            comma ← accept Comma;
            match comma with
            | Some _ => elements_loop close fuel' (values ++ [value])
            | None => mret (values ++ [value])
            end
      end
  end.

Definition parse_optional_literal : M (option Ast.Expression) :=
  t ← peek;
  match t with
  | None => mret None
  | Some token =>
      if has_kind [Identifier] t then
        if named "true" t || named "false" t then
          next;; mret (Some (Ast.LiteralE (token_node token) (Ast.Boolean (named "true" t))))
        else if named "null" t then next;; mret (Some (Ast.LiteralE (token_node token) Ast.NullValue))
        else mret None
      else if has_kind [LiteralInt; LiteralLong; LiteralHexInt; LiteralHexLong; LiteralReal; LiteralRealFloat; LiteralString] t then
        literal ← lift (parse_literal_token token);
        next;; mret (Some (Ast.LiteralE literal.1 literal.2))
      else mret None
  end.

Definition parse_literal : M Ast.Expression :=
  literal ← parse_optional_literal; match literal with Some e => mret e | None => no_match end.

Definition parse_inline_list : M Ast.Expression :=
  t ← peek;
  match t with
  | Some start_token =>
      if has_kind [LSquare] t then
        next;;
        closed ← accept RSquare;
        match closed with
        | Some end_token => mret (Ast.InlineList (Ast.mkNode (i32 (start start_token)) (i32 (end_ end_token))) [])
        | None =>
            values ← looping (fun fuel => elements_loop RSquare fuel []);
            end_token ← eat RSquare;
            mret (Ast.InlineList (Ast.mkNode (i32 (start start_token)) (i32 (end_ end_token))) values)
        end
      else no_match
  | None => no_match
  end.

(** An entry and whether the loop goes on without looking for a comma (the [continue]
    behind a name that is its own value); the keys seen so far. *)
Definition parse_entry (token : Token) (keys : list string) : M (Ast.Entry * list string * bool) :=
  if has_kind [Expand] (Some token) then
    next;;
    inner ← expr;
    mret (Ast.ExpandKey (Ast.ExpandArrArg (Ast.mkNode (i32 (start token)) (end_of inner)) inner), keys, false)
  else if has_kind [LSquare] (Some token) then
    next;;
    key ← expr;
    eat RSquare;;
    eat Colon;;
    value ← expr;
    mret (Ast.ExpressionKey key value, keys, false)
  else if has_kind [LiteralString; Identifier] (Some token) then
    key_name ← (if has_kind [LiteralString] (Some token)
                then value ← lift (parse_string_literal (text token) (start token)); next;; mret (string_of_bytes value)
                else next;; mret (token_name token));
    t ← peek;
    if has_kind [Identifier] (Some token) && has_kind [Comma; RCurly] t then
      if bool_decide (key_name ∈ keys) then fail "duplicate object key" (Some token)
      else
        accept Comma;;
        mret (Ast.StringKey key_name (Ast.VariableReference (token_node token) key_name), key_name :: keys, true)
    else
      eat Colon;;
      value ← expr;
      if bool_decide (key_name ∈ keys) then fail "duplicate object key" (Some token)
      else mret (Ast.StringKey key_name value, key_name :: keys, false)
  else fail "invalid object key" (Some token).

Fixpoint entries_loop (fuel : nat) (keys : list string) (entries : list Ast.Entry) : M (list Ast.Entry) :=
  match fuel with
  | O => fun _ => OutOfFuel
  | S fuel' =>
      t ← peek;
      match t with
      | None => mret entries
      | Some token =>
          if has_kind [RCurly] t then mret entries
          else
            r ← parse_entry token keys;
            let '(entry, keys, again) := (r : Ast.Entry * list string * bool) in
            if again then entries_loop fuel' keys (entries ++ [entry])
            else
              comma ← accept Comma;
              match comma with
              | Some _ => entries_loop fuel' keys (entries ++ [entry])
              | None => mret (entries ++ [entry])
              end
      end
  end.

Definition parse_inline_object : M Ast.Expression :=
  t ← peek;
  match t with
  | Some start_token =>
      if has_kind [LCurly] t then
        next;;
        closed ← accept RCurly;
        match closed with
        | Some end_token => mret (Ast.InlineObject (Ast.mkNode (i32 (start start_token)) (i32 (end_ end_token))) [])
        | None =>
            entries ← looping (fun fuel => entries_loop fuel [] []);
            end_token ← eat RCurly;
            mret (Ast.InlineObject (Ast.mkNode (i32 (start start_token)) (i32 (end_ end_token))) entries)
        end
      else no_match
  | None => no_match
  end.

Definition parse_paren_expression : M Ast.Expression :=
  t ← peek;
  if has_kind [LParen] t then
    next;;
    e ← expr;
    eat RParen;;
    mret e
  else no_match.

Definition parse_method_args : M (list Ast.Expression) :=
  eat LParen;;
  closed ← accept RParen;
  match closed with
  | Some _ => mret []
  | None =>
      args ← looping (fun fuel => elements_loop RParen fuel []);
      eat RParen;;
      mret args
  end.

(** The end of a call is that of its last argument. *)
Definition call_node (start_pos end_pos : Z) (args : list Ast.Expression) : Ast.Node :=
  Ast.mkNode start_pos (match List.rev args with last :: _ => end_of last | [] => end_pos end).

Definition is_dollar (name : string) : bool := match name with String c _ => bool_decide (c = "$"%char) | EmptyString => false end.

Definition parse_function_or_var : M Ast.Expression :=
  identifier ← parse_identifier_token;
  let '(node, name) := (identifier : Ast.Node * string) in
  t ← peek;
  if has_kind [LParen] t then
    args ← parse_method_args;
    match callee (find_func name) (find_async_func name) with
    | None => lift (inl (mkError "function not defined" (u64 (Ast.start_pos node))))
    | Some c => mret (Ast.FunctionCall (call_node (Ast.start_pos node) (Ast.end_pos node) args) c args)
    end
  else if is_dollar name then
    saved ← position_of;
    dot ← accept Dot;
    t ← peek;
    match dot, t with
    | Some _, Some token =>
        if has_kind [Identifier] t then
          let key := token_name token in
          if bool_decide (name = "$"%string) then
            mark_root_prop key;; return_to saved;; mret (Ast.VariableReference node name)
          else
            next;;
            match callee (find_constant name key) (find_async_constant name key) with
            | None => fail "constant not found" (Some token)
            | Some c => mret (Ast.ConstantVal (Ast.mkNode (Ast.start_pos node) (i32 (end_ token))) c)
            end
        else return_to saved;; mret (Ast.VariableReference node name)
    | _, _ => return_to saved;; mret (Ast.VariableReference node name)
    end
  else mret (Ast.VariableReference node name).

Definition parse_start_node : M Ast.Expression :=
  otherwise parse_literal (otherwise parse_inline_list (otherwise parse_inline_object
    (otherwise parse_paren_expression parse_function_or_var))).

Definition parse_indexer (parent : Ast.Expression) : M Ast.Expression :=
  eat LSquare;;
  index ← expr;
  end_token ← eat RSquare;
  mret (Ast.Indexer (Ast.mkNode (start_of parent) (i32 (end_ end_token))) parent index).

Definition parse_property (parent : Ast.Expression) : M Ast.Expression :=
  t ← peek;
  match t with
  | Some token =>
      if has_kind [Identifier] t then
        next;; mret (Ast.PropertyReference (Ast.mkNode (start_of parent) (i32 (end_ token))) (token_name token) parent)
      else fail "expected property name" t
  | None => fail "expected property name" None
  end.

Definition parse_dotted_node (parent : Ast.Expression) : M Ast.Expression := eat Dot;; parse_property parent.

Definition parse_node (parent : Ast.Expression) : M Ast.Expression :=
  t ← peek;
  if has_kind [Dot] t then parse_dotted_node parent
  else if has_kind [LSquare] t then parse_indexer parent
  else no_match.

Definition parse_non_dotted_node (parent : Ast.Expression) : M Ast.Expression :=
  t ← peek; if has_kind [LSquare] t then parse_indexer parent else no_match.

(** The function a call names: one of the library, or of the directive that is the
    prefix of a name with one dot. *)
Definition resolve_call (directives : gmap string nat) (prefix name function : string) (dot_size : nat) : option Ast.Callee :=
  match callee (find_func name) (find_async_func name) with
  | Some c => Some c
  | None =>
      match (if (dot_size =? 1)%nat then directives !! prefix else None) with
      | Some def => callee (directive_find_func def prefix function) (directive_find_async_func def prefix function)
      | None => None
      end
  end.

Fixpoint call_loop (saved : list Token) (node : Ast.Node) (prefix : string) (fuel : nat) (name : string) (dot_size : nat)
    : M Ast.Expression :=
  match fuel with
  | O => fun _ => OutOfFuel
  | S fuel' =>
      dot ← accept Dot;
      match dot with
      | None => return_to saved;; no_match
      | Some _ =>
          t ← peek;
          match t with
          | Some token =>
              if has_kind [Identifier] t then
                next;;
                let name := (name ++ "." ++ token_name token)%string in
                t ← peek;
                if has_kind [LParen] t then
                  args ← parse_method_args;
                  directives ← directives_of;
                  match resolve_call directives prefix name (token_name token) (S dot_size) with
                  | None => fail "function not defined" (Some token)
                  | Some c => mret (Ast.FunctionCall (call_node (Ast.start_pos node) (i32 (end_ token)) args) c args)
                  end
                else call_loop saved node prefix fuel' name (S dot_size)
              else return_to saved;; no_match
          | None => return_to saved;; no_match
          end
      end
  end.

Definition parse_function_call (node : Ast.Node) (prefix : string) : M Ast.Expression := fun s =>
  call_loop (rest s) node prefix (S (length (rest s))) prefix 0 s.

Fixpoint nodes_loop (fuel : nat) (start : Ast.Expression) : M Ast.Expression :=
  match fuel with
  | O => fun _ => OutOfFuel
  | S fuel' =>
      t ← peek;
      if has_kind [Dot; LSquare] t then
        node ← parse_node start;
        nodes_loop fuel' node
      else mret start
  end.

(** The call a name may be the start of; an error without a message is that it is
    none. *)
Definition called (start : Ast.Expression) : M Ast.Expression := fun s =>
  match start with
  | Ast.VariableReference node name =>
      if Ast.is_root name then Ok start s
      else
        match parse_function_call node name s with
        | Err e s' => if bool_decide (message e = EmptyString) then Ok start s' else Err e s'
        | r => r
        end
  | _ => Ok start s
  end.

Definition parse_primary : M Ast.Expression :=
  start ← parse_start_node;
  start ← called start;
  looping (fun fuel => nodes_loop fuel start).

Fixpoint unary_loop (fuel : nat) : M Ast.Expression :=
  match fuel with
  | O => fun _ => OutOfFuel
  | S fuel' =>
      t ← peek;
      match t with
      | None => fail "unexpected end of input" None
      | Some op_token =>
          if has_kind [Plus; Minus; Not] t then
            next;;
            rhs ← unary_loop fuel';
            match operator_from_token (kind op_token) with
            | Some op => mret (Ast.UnaryOperator (Ast.mkNode (i32 (start op_token)) (end_of rhs)) op rhs)
            | None => fail "unsupported unary operator" t
            end
          else if named "typeof" t then
            next;;
            rhs ← unary_loop fuel';
            mret (Ast.UnaryOperator (Ast.mkNode (i32 (start op_token)) (end_of rhs)) Ast.Typeof rhs)
          else parse_primary
      end
  end.

Definition parse_unary : M Ast.Expression := looping unary_loop.
Definition parse_product : M Ast.Expression := left_associative [Star; Div; Mod] arithmetic parse_unary.
Definition parse_sum : M Ast.Expression := left_associative [Plus; Minus] arithmetic parse_product.

(** The operator of a comparison. *)
Definition relational_operator (t : Token) : option Ast.Operator :=
  if bool_decide (kind t = Tilde) then Some Ast.Match
  else if named "in" (Some t) then Some Ast.In
  else operator_from_token (kind t).

Definition is_relational (t : option Token) : bool :=
  match t with Some token => is_numeric_relational_operator (kind token) || has_kind [Tilde] t || named "in" t | None => false end.

Definition parse_relational : M Ast.Expression :=
  e ← parse_sum;
  t ← peek;
  match t with
  | None => mret e
  | Some op_token =>
      if is_relational t then
        next;;
        rhs ← parse_sum;
        match relational_operator op_token with
        | Some op => mret (Ast.BinaryOperator (span e rhs) op e rhs)
        | None => fail "unsupported operator" t
        end
      else mret e
  end.

Definition parse_logical_and : M Ast.Expression := left_associative [SymbolicAnd] (logical Ast.And) parse_relational.
Definition parse_logical_or : M Ast.Expression := left_associative [SymbolicOr] (logical Ast.Or) parse_logical_and.

Definition parse_expression_internal : M Ast.Expression :=
  e ← parse_logical_or;
  t ← peek;
  if allow_assign && has_kind [Assign] t then
    next;;
    rhs ← parse_logical_or;
    if is_lvalue e then mret (Ast.Assign (span e rhs) e rhs)
    else t ← peek; fail "assignment requires lvalue" t
  else if has_kind [QMark] t then
    next;;
    if_true ← expr;
    eat Colon;;
    if_false ← expr;
    mret (Ast.Ternary (span e if_false) e if_true if_false)
  else mret e.
End Expressions.

Fixpoint expression (fuel : nat) : M Ast.Expression :=
  match fuel with O => fun _ => OutOfFuel | S fuel' => parse_expression_internal (expression fuel') end.

Definition parse_expr : M Ast.Expression := looping expression.

(** ** Statements *)

(** A statement of the tree, or a directive, which goes to [directive_map_] and is
    not part of it. *)
Inductive Parsed :=
  | ParsedStatement (s : Ast.Statement)
  | ParsedDirective (n : Ast.Node) (type name : string) (def : nat).

(** The end of a statement: that of the semicolon behind it, if there is one. *)
Definition optional_semicolon (end_pos : Z) : M Z :=
  semicolon ← accept Semicolon; mret (match semicolon with Some t => i32 (end_ t) | None => end_pos end).

Definition parse_break_statement : M Parsed :=
  token ← eat_keyword "break";
  end_pos ← optional_semicolon (i32 (end_ token));
  mret (ParsedStatement (Ast.BreakStatement (Ast.mkNode (i32 (start token)) end_pos))).

Definition parse_continue_statement : M Parsed :=
  token ← eat_keyword "continue";
  end_pos ← optional_semicolon (i32 (end_ token));
  mret (ParsedStatement (Ast.ContinueStatement (Ast.mkNode (i32 (start token)) end_pos))).

Definition parse_return_statement : M Parsed :=
  token ← eat_keyword "return";
  t ← peek;
  value ← (match t with
           | Some _ => if has_kind [Semicolon; RCurly] t then mret None else e ← parse_expr; mret (Some e)
           | None => mret None
           end);
  end_pos ← optional_semicolon (match value with Some e => end_of e | None => i32 (end_ token) end);
  mret (ParsedStatement (Ast.ReturnStatement (Ast.mkNode (i32 (start token)) end_pos) value)).

Definition parse_throw_statement : M Parsed :=
  token ← eat_keyword "throw";
  value ← parse_expr;
  end_pos ← optional_semicolon (end_of value);
  mret (ParsedStatement (Ast.ThrowStatement (Ast.mkNode (i32 (start token)) end_pos) value)).

Definition parse_variable_declare_statement : M Parsed :=
  let_token ← eat_keyword "let";
  identifier ← parse_identifier_token;
  assign ← accept Assign;
  initializer ← (match assign with Some _ => e ← parse_expr; mret (Some e) | None => mret None end);
  semi ← eat Semicolon;
  mret (ParsedStatement
          (Ast.VariableDeclareStatement (Ast.mkNode (i32 (start let_token)) (i32 (end_ semi))) identifier.2 initializer)).

Fixpoint literals_loop (fuel : nat) (literals : list Ast.Literal) : M (list Ast.Literal) :=
  match fuel with
  | O => fun _ => OutOfFuel
  | S fuel' =>
      literal ← parse_optional_literal;
      match literal with
      | Some (Ast.LiteralE _ l) => literals_loop fuel' (literals ++ [l])
      | _ => mret literals
      end
  end.

Definition parse_directive_statement : M Parsed :=
  directive_token ← eat_keyword "directive";
  name ← parse_identifier_token;
  assign ← accept Assign;
  (match assign with
   | Some _ => mret tt
   | None => t ← peek; if named "from" t then next else fail "directive missing '='" t
   end);;
  type ← parse_identifier_token;
  literals ← looping (fun fuel => literals_loop fuel []);
  semi ← eat Semicolon;
  directives ← directives_of;
  match directives !! name.2 with
  | Some _ => fail "directive exists" (Some directive_token)
  | None =>
      match find_directive_def type.2 name.2 literals with
      | None => fail "directive not found" (Some directive_token)
      | Some def =>
          mret (ParsedDirective (Ast.mkNode (i32 (start directive_token)) (i32 (end_ semi))) type.2 name.2 def)
      end
  end.

Section Statements.
(** [parse_statement] *)
Context (stmt : M Parsed).

(** [directive_map_[name] = directive] *)
Definition add_directive (name : string) (def : nat) : M unit := fun s =>
  Ok tt (mkState (rest s) (<[name := def]> (directive_map s)) (root_props s)).

(** The range of a block without braces: from its first to its last statement. *)
Definition extend (range : option Ast.Node) (n : Ast.Node) : Ast.Node :=
  match range with Some r => Ast.mkNode (Ast.start_pos r) (Ast.end_pos n) | None => n end.

Fixpoint block_loop (must_curly : bool) (start_pos : Z) (fuel : nat) (range : option Ast.Node) (statements : list Ast.Statement)
    : M (Ast.Node * list Ast.Statement) :=
  match fuel with
  | O => fun _ => OutOfFuel
  | S fuel' =>
      t ← peek;
      match t with
      | None =>
          if must_curly then fail "expected '}'" None
          else match range with Some r => mret (r, statements) | None => fail "unexpected end of input" None end
      | Some token =>
          if must_curly && has_kind [RCurly] t then
            next;; mret (Ast.mkNode (i32 start_pos) (i32 (end_ token)), statements)
          else
            semicolon ← accept Semicolon;
            match semicolon with
            | Some _ => block_loop must_curly start_pos fuel' range statements
            | None =>
                parsed ← stmt;
                match parsed with
                | ParsedDirective _ _ name def =>
                    add_directive name def;; block_loop must_curly start_pos fuel' range statements
                | ParsedStatement st =>
                    block_loop must_curly start_pos fuel' (Some (extend range (Ast.statement_node st))) (statements ++ [st])
                end
            end
      end
  end.

Definition parse_block (must_curly : bool) : M (Ast.Node * list Ast.Statement) :=
  start_pos ← (if must_curly then token ← eat LCurly; mret (start token)
               else t ← peek; mret (match t with Some token => start token | None => 0 end));
  looping (fun fuel => block_loop must_curly start_pos fuel None []).

Definition parse_try_catch_statement : M Parsed :=
  try_token ← eat_keyword "try";
  try_block ← parse_block true;
  eat_keyword "catch";;
  eat LParen;;
  identifier ← parse_identifier_token;
  eat RParen;;
  catch_block ← parse_block true;
  mret (ParsedStatement
          (Ast.TryCatchStatement (Ast.mkNode (i32 (start try_token)) (Ast.end_pos catch_block.1)) identifier.2
             try_block.2 catch_block.2)).

Definition parse_foreach_statement : M Parsed :=
  for_token ← eat_keyword "for";
  eat LParen;;
  eat_keyword "let";;
  key ← parse_identifier_token;
  eat Comma;;
  value ← parse_identifier_token;
  eat_keyword "of";;
  collection ← parse_expr;
  eat RParen;;
  block ← parse_block true;
  mret (ParsedStatement
          (Ast.ForeachStatement (Ast.mkNode (i32 (start for_token)) (Ast.end_pos block.1)) key.2 value.2 collection block.2)).

(** An [if] with its [else if]s. *)
Fixpoint if_loop (fuel : nat) : M Ast.Statement :=
  match fuel with
  | O => fun _ => OutOfFuel
  | S fuel' =>
      if_token ← eat_keyword "if";
      eat LParen;;
      condition ← parse_expr;
      eat RParen;;
      true_block ← parse_block true;
      t ← peek;
      else_stmt ← (if named "else" t then
                     next;;
                     t ← peek;
                     if named "if" t then else_if ← if_loop fuel'; mret (Some else_if)
                     else else_block ← parse_block true; mret (Some (Ast.BlockS else_block.1 else_block.2))
                   else mret None);
      mret (Ast.IfStatement
              (Ast.mkNode (i32 (start if_token))
                 (match else_stmt with Some st => Ast.end_pos (Ast.statement_node st) | None => Ast.end_pos true_block.1 end))
              condition (Ast.BlockS true_block.1 true_block.2) else_stmt)
  end.

Definition parse_if_statement : M Parsed := st ← looping if_loop; mret (ParsedStatement st).

Definition parse_expression_statement : M Parsed :=
  e ← parse_expr;
  end_pos ← optional_semicolon (end_of e);
  mret (ParsedStatement (Ast.ExpressionStatement (Ast.mkNode (start_of e) end_pos) e)).

Definition parse_statement : M Parsed :=
  t ← peek;
  match t with
  | None => fail "unexpected end of input" None
  | Some _ =>
      if named "if" t then parse_if_statement
      else if named "for" t then parse_foreach_statement
      else if named "break" t then parse_break_statement
      else if named "continue" t then parse_continue_statement
      else if named "return" t then parse_return_statement
      else if named "throw" t then parse_throw_statement
      else if named "try" t then parse_try_catch_statement
      else if named "let" t then parse_variable_declare_statement
      else if named "directive" t then parse_directive_statement
      else if has_kind [LCurly] t then
        block ← parse_block true; mret (ParsedStatement (Ast.BlockS block.1 block.2))
      else parse_expression_statement
  end.
End Statements.

Fixpoint statement (fuel : nat) : M Parsed :=
  match fuel with O => fun _ => OutOfFuel | S fuel' => parse_statement (statement fuel') end.

(** ** Texts *)

Definition initial (tokens : list Token) : State := mkState tokens ∅ [].

(** The tokens of the text and then the parser; [None] is too little fuel.  With the
    result come the properties of the root object that were marked. *)
Definition parse_text {A} (input : list Z) (parser : M A) : option (ParseError + (A * list string)) :=
  match process input with
  | None => None
  | Some (inl e) => Some (inl e)
  | Some (inr tokens) =>
      match parser (initial tokens) with
      | Ok a s => Some (inr (a, root_props s))
      | Err e _ => Some (inl e)
      | OutOfFuel => None
      end
  end.

Definition whole_script : M Ast.Root :=
  t ← peek;
  match t with
  | None => fail "unexpected end of input" None
  | Some _ =>
      block ← looping (fun fuel => parse_block (statement fuel) false);
      t ← peek;
      match t with
      | Some _ => fail "unexpected token after script" t
      | None => mret (Ast.RootBlock block.1 block.2)
      end
  end.

Definition parse_script (script : list Z) : option (ParseError + (Ast.Root * list string)) := parse_text script whole_script.

Fixpoint semicolons_loop (fuel : nat) : M unit :=
  match fuel with
  | O => fun _ => OutOfFuel
  | S fuel' => semicolon ← accept Semicolon; match semicolon with Some _ => semicolons_loop fuel' | None => mret tt end
  end.

Definition whole_expression : M Ast.Expression :=
  t ← peek;
  match t with
  | None => fail "empty expression" None
  | Some _ =>
      e ← parse_expr;
      looping semicolons_loop;;
      t ← peek;
      match t with Some _ => fail "unexpected token after expression" t | None => mret e end
  end.

Definition parse_expression (text : list Z) : option (ParseError + (Ast.Expression * list string)) :=
  parse_text text whole_expression.

End Parsing.
End Parser.
