(* ===== verification/ScriptShape.v ===== *)
(** * What the parser returns: well-formed trees, or an error in the text

    A program logic for the functions of the parser, with one rule per construct:
    [wp] says what a function does from a state, [spec] from all states.  The
    position reached in the text is carried along ([chain]), so that the ranges of
    the nodes and the positions of the errors are known, and so is the number of
    tokens left, so that the fuel is enough. *)
From S2P Require Import Prelude ScriptAst ScriptTokens ScriptLiteral ScriptParser.

Module Shape.
Import Tokens Literals Parser.

Section Bound.
(** The size of the text. *)
Context (bound : Z).

(** ** Well-formed trees *)

Definition between (lo : Z) (n : Ast.Node) (hi : Z) : Prop := lo <= Ast.start_pos n <= Ast.end_pos n /\ Ast.end_pos n <= hi.
Definition ranged (n : Ast.Node) : Prop := between 0 n bound.

Definition binary_operators : list Ast.Operator :=
  [Ast.Add; Ast.Minus; Ast.Multiply; Ast.Divide; Ast.Modulo; Ast.Match; Ast.Lt; Ast.Lte; Ast.Gt; Ast.Gte; Ast.Eq; Ast.Seq;
   Ast.Ne; Ast.Sne; Ast.In].
Definition unary_operators : list Ast.Operator := [Ast.Add; Ast.Minus; Ast.Not; Ast.Typeof].

Definition wf_literal (l : Ast.Literal) : Prop :=
  match l with Ast.Integer i => 0 <= i <= 2 ^ 63 - 1 | Ast.Float (SpecFloat.S754_infinity _) => False | _ => True end.

Definition entry_keys (l : list Ast.Entry) : list string :=
  omap (fun e => match e with Ast.StringKey k _ => Some k | _ => None end) l.

(** An expression the parser builds: operators where they belong, assignments to
    what can be assigned to, spread arguments only in lists, calls and objects, no
    key of an object twice. *)
Inductive wf_expr : Ast.Expression -> Prop :=
  | wf_LiteralE n l : ranged n -> wf_literal l -> wf_expr (Ast.LiteralE n l)
  | wf_VariableReference n x : ranged n -> wf_expr (Ast.VariableReference n x)
  | wf_ConstantVal n c : ranged n -> wf_expr (Ast.ConstantVal n c)
  | wf_FunctionCall n c args : ranged n -> Forall wf_element args -> wf_expr (Ast.FunctionCall n c args)
  | wf_InlineList n values : ranged n -> Forall wf_element values -> wf_expr (Ast.InlineList n values)
  | wf_InlineObject n entries :
      ranged n -> NoDup (entry_keys entries) -> Forall wf_entry entries -> wf_expr (Ast.InlineObject n entries)
  | wf_Indexer n parent index : ranged n -> wf_expr parent -> wf_expr index -> wf_expr (Ast.Indexer n parent index)
  | wf_PropertyReference n x parent : ranged n -> wf_expr parent -> wf_expr (Ast.PropertyReference n x parent)
  | wf_BinaryOperator n op l r :
      ranged n -> op ∈ binary_operators -> wf_expr l -> wf_expr r -> wf_expr (Ast.BinaryOperator n op l r)
  | wf_LogicRelational n op l r :
      ranged n -> op ∈ [Ast.And; Ast.Or] -> wf_expr l -> wf_expr r -> wf_expr (Ast.LogicRelationalExpression n l op r)
  | wf_UnaryOperator n op e : ranged n -> op ∈ unary_operators -> wf_expr e -> wf_expr (Ast.UnaryOperator n op e)
  | wf_Ternary n a b c : ranged n -> wf_expr a -> wf_expr b -> wf_expr c -> wf_expr (Ast.Ternary n a b c)
  | wf_Assign n l r : ranged n -> is_lvalue l = true -> wf_expr l -> wf_expr r -> wf_expr (Ast.Assign n l r)
with wf_element : Ast.Expression -> Prop :=
  | wf_plain e : wf_expr e -> wf_element e
  | wf_spread n e : ranged n -> wf_expr e -> wf_element (Ast.ExpandArrArg n e)
with wf_entry : Ast.Entry -> Prop :=
  | wf_StringKey k v : wf_expr v -> wf_entry (Ast.StringKey k v)
  | wf_ExpressionKey k v : wf_expr k -> wf_expr v -> wf_entry (Ast.ExpressionKey k v)
  | wf_ExpandKey n v : ranged n -> wf_expr v -> wf_entry (Ast.ExpandKey (Ast.ExpandArrArg n v)).

(** A statement the parser builds: names that are not keywords, blocks where there
    are braces, [else] only before a block or an [if]. *)
Inductive wf_stmt : Ast.Statement -> Prop :=
  | wf_BlockS n l : ranged n -> Forall wf_stmt l -> wf_stmt (Ast.BlockS n l)
  | wf_ExpressionStatement n e : ranged n -> wf_expr e -> wf_stmt (Ast.ExpressionStatement n e)
  | wf_VariableDeclare n x e :
      ranged n -> is_keyword x = false -> (forall e', e = Some e' -> wf_expr e') -> wf_stmt (Ast.VariableDeclareStatement n x e)
  | wf_Return n e : ranged n -> (forall e', e = Some e' -> wf_expr e') -> wf_stmt (Ast.ReturnStatement n e)
  | wf_Throw n e : ranged n -> wf_expr e -> wf_stmt (Ast.ThrowStatement n e)
  | wf_If n e nb l els :
      ranged n -> wf_expr e -> ranged nb -> Forall wf_stmt l -> (forall s, els = Some s -> wf_else s) ->
      wf_stmt (Ast.IfStatement n e (Ast.BlockS nb l) els)
  | wf_Foreach n k v e l :
      ranged n -> is_keyword k = false -> is_keyword v = false -> wf_expr e -> Forall wf_stmt l ->
      wf_stmt (Ast.ForeachStatement n k v e l)
  | wf_TryCatch n x l1 l2 :
      ranged n -> is_keyword x = false -> Forall wf_stmt l1 -> Forall wf_stmt l2 -> wf_stmt (Ast.TryCatchStatement n x l1 l2)
  | wf_Break n : ranged n -> wf_stmt (Ast.BreakStatement n)
  | wf_Continue n : ranged n -> wf_stmt (Ast.ContinueStatement n)
with wf_else : Ast.Statement -> Prop :=
  | wf_else_block n l : ranged n -> Forall wf_stmt l -> wf_else (Ast.BlockS n l)
  | wf_else_if n e b els : wf_stmt (Ast.IfStatement n e b els) -> wf_else (Ast.IfStatement n e b els).

Definition wf_root (r : Ast.Root) : Prop :=
  match r with Ast.RootBlock n l => ranged n /\ l <> [] /\ Forall wf_stmt l | _ => False end.

(** ** The rules *)

Context (Hbound : bound < 2 ^ 31).

(** Tokens from the position [c] on, in the order of the text. *)
Fixpoint chain (c : Z) (l : list Token) : Prop :=
  match l with
  | [] => 0 <= c <= bound
  | t :: l' => 0 <= c <= start t /\ start t < end_ t /\ size (text t) <= end_ t - start t /\ chain (end_ t) l'
  end.

Lemma chain_bound c l : chain c l -> 0 <= c <= bound.
Proof. revert c. induction l as [|t l IH]; cbn [chain]; [done|]. intros c (H1 & H2 & _ & H3%IH). lia. Qed.

Definition error_placed (e : ParseError) : Prop := 0 <= position e <= bound.

(** From [s], which is past the position [lo] and has at most [n] tokens: the
    function ends, and gives a result with [Q], or an error in the text. *)
Definition wp {A} (n : nat) (lo : Z) (s : State) (m : M A) (Q : A -> State -> Prop) : Prop :=
  match m s with
  | Ok a s' => Q a s'
  | Err e s' => error_placed e /\ (exists hi, lo <= hi /\ chain hi (rest s')) /\ (length (rest s') <= n)%nat
  | OutOfFuel => False
  end.

(** From every state with at most [n] tokens: at least [k] tokens are taken, and the
    result has [P] between the positions before and behind them. *)
Definition spec {A} (n k : nat) (P : Z -> Z -> A -> Prop) (m : M A) : Prop := forall s lo,
  (length (rest s) <= n)%nat -> chain lo (rest s) ->
  wp (length (rest s)) lo s m (fun a s' =>
    exists hi, lo <= hi /\ chain hi (rest s') /\ (length (rest s') + k <= length (rest s))%nat /\ P lo hi a).

Lemma wp_weaken {A} n lo s (m : M A) (Q Q' : A -> State -> Prop) : (forall a s', Q a s' -> Q' a s') -> wp n lo s m Q -> wp n lo s m Q'.
Proof. unfold wp. destruct (m s); auto. Qed.

Lemma wp_base {A} n n' lo lo' s (m : M A) Q : (n' <= n)%nat -> lo <= lo' -> wp n' lo' s m Q -> wp n lo s m Q.
Proof. unfold wp. intros Hn Hlo. destruct (m s); [done| |done]. intros (He & (hi & ? & ?) & ?). split; [done|]. split; [|lia]. exists hi. split; [lia|done]. Qed.

Section Rules.
Context (n : nat) (lo : Z).

Lemma wp_ret {A} s (a : A) (Q : A -> State -> Prop) : Q a s -> wp n lo s (mret a) Q.
Proof. done. Qed.

Lemma wp_sequence {A B} s (m : M A) (f : A -> M B) Q :
  wp n lo s m (fun a s' => wp n lo s' (f a) Q) -> wp n lo s (m ≫= f) Q.
Proof. unfold wp, mbind, M_bind. destruct (m s); done. Qed.

Lemma wp_err {A} s c e Q : chain c (rest s) -> lo <= c -> (length (rest s) <= n)%nat -> error_placed e ->
  wp n lo s (fun s => Err e s : Result A) Q.
Proof. intros Hc Hlo Hn He. split; [done|]. split; [|done]. by exists c. Qed.

Lemma wp_fail {A} s c msg t Q : chain c (rest s) -> lo <= c -> (length (rest s) <= n)%nat ->
  match t with Some t => 0 <= start t <= bound | None => True end -> wp n lo s (fail msg t : M A) Q.
Proof.
  intros Hc Hlo Hn Ht. apply (wp_err _ c); [done..|]. unfold error_placed, make_error. cbn [position].
  pose proof (chain_bound _ _ Hc). case_bool_decide; cbn [position]; [lia|]. destruct t; lia.
Qed.

Lemma wp_no_match {A} s c Q : chain c (rest s) -> lo <= c -> (length (rest s) <= n)%nat -> wp n lo s (no_match : M A) Q.
Proof. intros Hc Hlo Hn. apply (wp_err _ c); [done..|]. pose proof (chain_bound _ _ Hc). unfold error_placed. cbn [position]. lia. Qed.

Lemma wp_lift {A} s c (r : ParseError + A) Q : chain c (rest s) -> lo <= c -> (length (rest s) <= n)%nat ->
  match r with inr a => Q a s | inl e => error_placed e end -> wp n lo s (lift r) Q.
Proof. intros Hc Hlo Hn Hr. destruct r; [|done]. split; [done|]. split; [|done]. by exists c. Qed.

(** A function with a specification, and what follows. *)
Lemma wp_use {A B} n' k P s c (m : M A) (f : A -> M B) Q :
  spec n' k P m -> chain c (rest s) -> lo <= c -> (length (rest s) <= n)%nat -> (length (rest s) <= n')%nat ->
  (forall a s' hi, c <= hi -> chain hi (rest s') -> (length (rest s') + k <= length (rest s))%nat -> P c hi a ->
    wp n lo s' (f a) Q) ->
  wp n lo s (m ≫= f) Q.
Proof.
  intros Hm Hc Hlo Hn Hn' Hf. apply wp_sequence. eapply wp_base; [exact Hn|exact Hlo|].
  eapply wp_weaken; [|apply Hm; done]. intros a s' (hi & ? & ? & ? & ?). by eapply Hf.
Qed.

Lemma wp_last {A} n' k P s c (m : M A) (Q : A -> State -> Prop) :
  spec n' k P m -> chain c (rest s) -> lo <= c -> (length (rest s) <= n)%nat -> (length (rest s) <= n')%nat ->
  (forall a s' hi, c <= hi -> chain hi (rest s') -> (length (rest s') + k <= length (rest s))%nat -> P c hi a -> Q a s') ->
  wp n lo s m Q.
Proof.
  intros Hm Hc Hlo Hn Hn' Hf. eapply wp_base; [exact Hn|exact Hlo|].
  eapply wp_weaken; [|apply Hm; done]. intros a s' (hi & ? & ? & ? & ?). by eapply Hf.
Qed.

(** The token at the front: after the position [c]. *)
Definition token_at (c : Z) (t : Token) : Prop :=
  0 <= c <= start t /\ start t < end_ t /\ end_ t <= bound /\ size (text t) <= end_ t - start t.

Lemma chain_cons c s t r : chain c (rest s) -> rest s = t :: r ->
  token_at c t /\ chain (end_ t) (rest (with_rest r s)) /\ length (rest s) = S (length (rest (with_rest r s))).
Proof.
  intros Hc E. rewrite E in Hc |- *. destruct Hc as (H1 & H2 & H3 & H4). pose proof (chain_bound _ _ H4). unfold token_at.
  cbn. repeat split; (done || lia).
Qed.

Lemma wp_peek {B} s c (f : option Token -> M B) Q :
  chain c (rest s) -> (rest s = [] -> wp n lo s (f None) Q) ->
  (forall t r, rest s = t :: r -> token_at c t -> wp n lo s (f (Some t)) Q) -> wp n lo s (peek ≫= f) Q.
Proof.
  intros Hc H1 H2. apply wp_sequence. unfold wp, peek. destruct (rest s) as [|t r] eqn:E; cbn [head]; [by apply H1|].
  apply (H2 t r); [done|]. rewrite <-E in Hc. by apply (chain_cons _ _ _ _ Hc E).
Qed.

Lemma wp_next {B} s c t r (f : unit -> M B) Q :
  rest s = t :: r -> chain c (rest s) ->
  (forall s', token_at c t -> chain (end_ t) (rest s') -> length (rest s) = S (length (rest s')) -> wp n lo s' (f tt) Q) ->
  wp n lo s (next ≫= f) Q.
Proof.
  intros E Hc H. destruct (chain_cons _ _ _ _ Hc E) as (H1 & H2 & H3). specialize (H _ H1 H2 H3).
  apply wp_sequence. unfold wp, next. by rewrite E.
Qed.

Lemma wp_accept {B} s c k (f : option Token -> M B) Q :
  chain c (rest s) -> (has_kind [k] (head (rest s)) = false -> wp n lo s (f None) Q) ->
  (forall t s', kind t = k -> token_at c t -> chain (end_ t) (rest s') -> length (rest s) = S (length (rest s')) ->
    wp n lo s' (f (Some t)) Q) ->
  wp n lo s (accept k ≫= f) Q.
Proof.
  intros Hc H1 H2. apply wp_sequence. unfold accept. apply (wp_peek _ _ _ _ Hc); [by intros E; apply H1; rewrite E|].
  intros t r E Ht. destruct (has_kind [k] (Some t)) eqn:Ek; [|by apply H1; rewrite E].
  apply bool_decide_eq_true, list_elem_of_singleton in Ek. apply (wp_next _ _ _ _ _ _ E Hc). intros s' ? ? ?. by apply H2.
Qed.

Lemma wp_eat {B} s c k (f : Token -> M B) Q :
  chain c (rest s) -> lo <= c -> (length (rest s) <= n)%nat ->
  (forall t s', kind t = k -> token_at c t -> chain (end_ t) (rest s') -> length (rest s) = S (length (rest s')) ->
    wp n lo s' (f t) Q) ->
  wp n lo s (eat k ≫= f) Q.
Proof.
  intros Hc Hlo Hn H. apply wp_sequence. unfold eat. apply (wp_peek _ _ _ _ Hc); [intros E; by eapply wp_fail|].
  intros t r E Ht. apply (wp_next _ _ _ _ _ _ E Hc). intros s' Ht' Hc' Hl. case_bool_decide; [by apply wp_ret, (H t s')|].
  destruct Ht as (? & ? & ? & ?). eapply wp_fail; [exact Hc'|lia|lia|lia].
Qed.

Lemma wp_directives {B} s (f : gmap string nat -> M B) Q : wp n lo s (f (directive_map s)) Q -> wp n lo s (directives_of ≫= f) Q.
Proof. done. Qed.

Lemma wp_position {B} s (f : list Token -> M B) Q : wp n lo s (f (rest s)) Q -> wp n lo s (position_of ≫= f) Q.
Proof. done. Qed.

Lemma wp_return_to {B} s l (f : unit -> M B) Q : wp n lo (with_rest l s) (f tt) Q -> wp n lo s (return_to l ≫= f) Q.
Proof. done. Qed.

Lemma wp_mark {B} s key (f : unit -> M B) Q :
  wp n lo (Parser.mkState (rest s) (directive_map s) (key :: root_props s)) (f tt) Q -> wp n lo s (mark_root_prop key ≫= f) Q.
Proof. done. Qed.

End Rules.

(** One construct of the function. *)
Ltac step :=
  lazymatch goal with
  | |- wp _ _ _ (mret _) _ => apply wp_ret
  | |- wp _ _ _ (fail _ _) _ => eapply wp_fail; [eassumption|lia|lia|try exact I; lia]
  | |- wp _ _ _ no_match _ => eapply wp_no_match; [eassumption|lia|lia]
  | |- wp _ _ _ (peek ≫= _) _ => eapply wp_peek; [eassumption|intros ?E|intros ?t ?r ?E (? & ? & ? & ?)]
  | |- wp _ _ _ (next ≫= _) _ => eapply wp_next; [eassumption|eassumption|intros ?s (? & ? & ? & ?) ? ?]
  | |- wp _ _ _ (accept _ ≫= _) _ => eapply wp_accept; [eassumption|intros _|intros ?t ?s ?Hk (? & ? & ? & ?) ? ?]
  | |- wp _ _ _ (eat _ ≫= _) _ => eapply wp_eat; [eassumption|lia|lia|intros ?t ?s ?Hk (? & ? & ? & ?) ? ?]
  | |- wp _ _ _ (directives_of ≫= _) _ => apply wp_directives
  | |- wp _ _ _ (position_of ≫= _) _ => apply wp_position
  | |- wp _ _ _ ((_ ≫= _) ≫= _) _ => apply wp_sequence
  | |- wp _ _ _ (if ?b then _ else _) _ => let E := fresh "E" in destruct b eqn:E
  | |- exists hi, _ => eexists; split; [|split; [eassumption|split; [lia|]]]; [lia|]
  end; cbv beta.

(** Use a specification, in the middle and at the end. *)
Ltac use H := eapply wp_use; [apply H|eassumption|lia|lia|lia|]; cbv beta.
Ltac last H := eapply wp_last; [apply H|eassumption|lia|lia|lia|]; cbv beta.


(** ** Names and operators *)

Lemma i32_small x : 0 <= x <= bound -> i32 x = x.
Proof. intros H. unfold i32, to_signed, wrap. rewrite Z.mod_small by lia. destruct (Z.ltb_spec x (2 ^ (32 - 1))); lia. Qed.

Lemma between_ranged lo n hi : 0 <= lo -> hi <= bound -> between lo n hi -> ranged n.
Proof. unfold ranged, between. lia. Qed.

Definition wfe (lo hi : Z) (e : Ast.Expression) : Prop := wf_expr e /\ between lo (Ast.expression_node e) hi.

Ltac node := unfold ranged, between, span, start_of, end_of, token_node in *; cbn [Ast.expression_node Ast.statement_node Ast.start_pos Ast.end_pos] in *;
  rewrite ?i32_small in * by lia; lia.

Ltac bounds := repeat match goal with H : chain ?c _ |- _ => lazymatch goal with _ : 0 <= c <= bound |- _ => fail | _ => pose proof (chain_bound _ _ H) end end.

Lemma spec_eat n k : spec n 1 (fun lo hi t => kind t = k /\ token_at lo t /\ hi = end_ t) (eat k).
Proof.
  intros s lo Hn Hc. unfold eat. step; [step|]. step. destruct (bool_decide _) eqn:Ek; step.
  apply bool_decide_eq_true in Ek. step. unfold token_at. auto with lia.
Qed.

Lemma spec_eat_keyword n kw : spec n 1 (fun lo hi t => token_at lo t /\ hi = end_ t) (eat_keyword kw).
Proof.
  intros s lo Hn Hc. unfold eat_keyword. step. step; step. step. unfold token_at. auto with lia.
Qed.

Lemma spec_identifier n : spec n 1 (fun lo hi i => between lo i.1 hi /\ is_keyword i.2 = false) parse_identifier_token.
Proof.
  intros s lo Hn Hc. unfold parse_identifier_token. step. step; step. step. split; [|done]. cbn [fst]. node.
Qed.

(** A loop whose fuel is the number of tokens. *)
Lemma spec_looping {A} n k P (loop : nat -> M A) : (forall n, spec n k P (loop (S n))) -> spec n k P (looping loop).
Proof. intros H s lo Hn Hc. unfold looping. by apply H. Qed.

(** ** Literals *)

Lemma output_error b r e : output b r = inl e -> r = inl e.
Proof. by destruct r. Qed.

Lemma unescape_error l pos e : unescape pos l = inl e -> pos <= position e <= pos + size l.
Proof.
  revert pos. induction l as [l IH] using (induction_ltof1 _ (@length Z)). unfold ltof in IH. intros pos.
  assert (forall b l' n, (length l' < length l)%nat -> 0 <= n -> n + size l' <= size l ->
    output b (unescape (pos + n) l') = inl e -> pos <= position e <= pos + size l) as Hrec.
  { intros b l' n Hl Hn Hs H%output_error%IH; [lia|done]. }
  assert (forall l' n, (length l' < length l)%nat -> 0 <= n -> n + size l' <= size l ->
    unescape (pos + n) l' = inl e -> pos <= position e <= pos + size l) as Hrec'.
  { intros l' n Hl Hn Hs H%IH; [lia|done]. }
  assert (forall m p, pos <= p <= pos + size l -> (inl (mkError m p) : ParseError + list Z) = inl e ->
    pos <= position e <= pos + size l) as Hnow by (intros m p Hp [= <-]; done).
  destruct l as [|ch l1]; [done|]. cbn [unescape].
  destruct (negb _); [apply Hrec; unfold size; cbn [length]; lia|].
  destruct l1 as [|esc l2]; [apply Hnow; unfold size; cbn [length]; lia|].
  destruct (simple_escape esc); [apply Hrec; unfold size; cbn [length]; lia|].
  destruct (esc =? chr "x").
  { destruct l2 as [|a [|b l3]]; [apply Hnow; unfold size; cbn [length]; lia..|].
    destruct (hex_run _ _); [apply Hrec|apply Hnow]; unfold size; cbn [length]; lia. }
  destruct (esc =? chr "u").
  { destruct l2 as [|a [|b [|c [|d l3]]]]; [apply Hnow; unfold size; cbn [length]; lia..|].
    destruct (hex_run _ _); [apply Hrec|apply Hnow]; unfold size; cbn [length]; lia. }
  destruct (esc =? CR).
  { destruct l2 as [|c l3]; [apply Hrec'; unfold size; cbn [length]; lia|].
    destruct (c =? LF); apply Hrec'; unfold size; cbn [length]; lia. }
  destruct (esc =? LF); [apply Hrec'; unfold size; cbn [length]; lia|].
  destruct (is_octal esc); [|apply Hnow; unfold size; cbn [length]; lia].
  destruct l2 as [|a l3]; [apply Hrec; unfold size; cbn [length]; lia|].
  destruct (is_octal a); [|apply Hrec; unfold size; cbn [length]; lia].
  destruct l3 as [|b l4]; [apply Hrec; unfold size; cbn [length]; lia|].
  destruct (is_octal b); apply Hrec; unfold size; cbn [length]; lia.
Qed.

Lemma length_removelast {A} (l : list A) : (length (removelast l) <= length l)%nat.
Proof. induction l as [|x [|y l] IH]; cbn in *; lia. Qed.

Lemma string_error c t e : token_at c t -> parse_string_literal (text t) (start t) = inl e -> error_placed e.
Proof.
  intros (H1 & H2 & H3 & H4). unfold parse_string_literal, error_placed.
  destruct (text t) as [|q [|q' l]] eqn:E; [intros [= <-]; cbn; lia..|].
  destruct (negb _); [intros [= <-]; cbn; lia|]. intros He%unescape_error.
  pose proof (length_removelast (q' :: l)). unfold size in *. cbn [tail length] in *. lia.
Qed.

Lemma digits_value_nonneg base l : 0 <= base -> 0 <= digits_value base l.
Proof.
  intros Hb. unfold digits_value. set (f := fun value c => value * base + _).
  assert (forall v, 0 <= v -> 0 <= fold_left f l v) as H; [|apply H; lia].
  induction l as [|c l IH]; cbn [fold_left]; [done|]. intros v Hv. apply IH. unfold f.
  assert (0 <= match digit_in base c with Some digit => digit | None => 0 end); [|nia].
  unfold digit_in, hex_value, is_digit. split_ifs; bool_to_prop; lia.
Qed.

Lemma strtoll_range base l v : 0 <= base -> strtoll base l = Some v -> 0 <= v <= 2 ^ 63 - 1.
Proof.
  unfold strtoll. intros Hb. destruct (_ =? _)%nat; [done|]. destruct (Z.leb_spec (digits_value base (take (count_while (is_digit_in base) l) l)) (2 ^ 63 - 1)); [|done].
  intros [= <-]. split; [by apply digits_value_nonneg|done].
Qed.

Lemma strtod_finite l f : strtod l = Some f -> match f with SpecFloat.S754_infinity _ => False | _ => True end.
Proof.
  unfold strtod. destruct (_ =? _)%nat; [done|]. destruct (drop _ l) as [|c l1]; [|destruct (c =? chr ".")]; cbv zeta.
  all: destruct (out_of_range _ _ _) eqn:E; [done|]; intros [= <-]; by destruct (nearest_double _ _).
Qed.

Lemma literal_token c t : token_at c t ->
  match parse_literal_token t with
  | inr (n, l) => n = token_node t /\ wf_literal l
  | inl e => error_placed e
  end.
Proof.
  intros Ht. pose proof Ht as (H1 & H2 & H3 & H4).
  assert (forall m, error_placed (make_error m (Some t))) as He by (intros m; unfold error_placed, make_error; case_bool_decide; cbn; lia).
  assert (forall base m, 0 <= base ->
    match (match strtoll base (text t) with
           | Some value => inr (token_node t, Ast.Integer value)
           | None => inl (make_error m (Some t))
           end) with
    | inr (n, l) => n = token_node t /\ wf_literal l
    | inl e => error_placed e
    end) as Hint.
  { intros base m Hb. destruct (strtoll base (text t)) eqn:E; [|apply He]. split; [done|]. by apply strtoll_range in E. }
  assert (forall m,
    match (match strtod (text t) with
           | Some value => inr (token_node t, Ast.Float value)
           | None => inl (make_error m (Some t))
           end) with
    | inr (n, l) => n = token_node t /\ wf_literal l
    | inl e => error_placed e
    end) as Hreal.
  { intros m. destruct (strtod (text t)) eqn:E; [|apply He]. split; [done|]. apply strtod_finite in E. cbn [wf_literal]. by destruct s. }
  unfold parse_literal_token. destruct (kind t); try (by apply He); try (by apply Hint); try (by apply Hreal).
  destruct (parse_string_literal _ _) eqn:E; [by eapply string_error|done].
Qed.

(** ** Expressions *)

Lemma spec_le {A} n n' k P (m : M A) : (n' <= n)%nat -> spec n k P m -> spec n' k P m.
Proof. intros Hn H s lo Hs Hc. apply H; [lia|done]. Qed.

Lemma spec_mono {A} n k k' (P P' : Z -> Z -> A -> Prop) (m : M A) :
  (k' <= k)%nat -> (forall lo hi a, P lo hi a -> P' lo hi a) -> spec n k P m -> spec n k' P' m.
Proof.
  intros Hk HP H s lo Hs Hc. eapply wp_weaken; [|by apply H]. intros a s' (hi & ? & ? & ? & ?%HP). exists hi. repeat split; (done || lia).
Qed.

Lemma spec_otherwise {A} n k P (m1 m2 : M A) : spec n k P m1 -> (forall lo lo' hi a, lo <= lo' -> P lo' hi a -> P lo hi a) ->
  spec n k P m2 -> spec n k P (otherwise m1 m2).
Proof.
  intros H1 Hmono H2 s lo Hs Hc. specialize (H1 s lo Hs Hc). unfold wp, otherwise in *. destruct (m1 s) as [a s'|e s'|]; [done| |done].
  destruct H1 as (_ & (c & Hlo & Hc') & Hl). specialize (H2 s' c ltac:(lia) Hc'). unfold wp in H2.
  destruct (m2 s') as [a s2|e2 s2|]; [|destruct H2 as (? & (hi & ? & ?) & ?); split; [done|]; split; [exists hi; split; [lia|done]|lia]|done].
  destruct H2 as (hi & ? & ? & ? & ?). exists hi. split; [lia|]. split; [done|]. split; [lia|]. by eapply Hmono.
Qed.

Lemma between_le lo lo' n hi hi' : lo' <= lo -> hi <= hi' -> between lo n hi -> between lo' n hi'.
Proof. unfold between. lia. Qed.

Lemma wfe_le lo lo' hi hi' e : lo' <= lo -> hi <= hi' -> wfe lo hi e -> wfe lo' hi' e.
Proof. intros ? ? [? ?]. split; [done|]. by eapply between_le. Qed.

Definition elem (lo hi : Z) (e : Ast.Expression) : Prop := wf_element e /\ between lo (Ast.expression_node e) hi.

Lemma elem_le lo lo' hi hi' e : lo' <= lo -> hi <= hi' -> elem lo hi e -> elem lo' hi' e.
Proof. intros ? ? [? ?]. split; [done|]. by eapply between_le. Qed.

Lemma elems_le lo lo' hi hi' l : lo' <= lo -> hi <= hi' -> Forall (elem lo hi) l -> Forall (elem lo' hi') l.
Proof. intros ? ? H. eapply Forall_impl; [done|]. intros e. by apply elem_le. Qed.

Lemma elems_wf lo hi l : Forall (elem lo hi) l -> Forall wf_element l.
Proof. intros H. eapply Forall_impl; [done|]. by intros e []. Qed.

(** A literal is one token. *)
Definition taken (o : option Ast.Expression) : nat := match o with Some _ => 1 | None => 0 end.

Lemma optional_literal_ok s lo : chain lo (rest s) ->
  wp (length (rest s)) lo s parse_optional_literal (fun o s' => exists hi, lo <= hi /\ chain hi (rest s') /\
    (length (rest s') + taken o <= length (rest s))%nat /\
    match o with Some e => wfe lo hi e /\ exists n l, e = Ast.LiteralE n l | None => True end).
Proof.
  intros Hc. unfold parse_optional_literal. step; [step; exists lo; cbn [taken]; repeat split; (done || lia)|].
  assert (forall s' l, token_at lo t -> chain (end_ t) (rest s') -> length (rest s) = S (length (rest s')) -> wf_literal l ->
    exists hi, lo <= hi /\ chain hi (rest s') /\ (length (rest s') + 1 <= length (rest s))%nat /\
    wfe lo hi (Ast.LiteralE (token_node t) l) /\ exists n l', Ast.LiteralE (token_node t) l = Ast.LiteralE n l') as Hlit.
  { intros s' l (? & ? & ? & ?) ? ? Hl. exists (end_ t). repeat split; [lia|done|lia| |node|node|node|by eexists _, _].
    constructor; [node|done]. }
  assert (exists hi, lo <= hi /\ chain hi (rest s) /\ (length (rest s) + 0 <= length (rest s))%nat /\ True) as Hnone
    by (exists lo; repeat split; [lia|done|lia]).
  assert (token_at lo t) as Ht by (unfold token_at; auto).
  step; [step; [step; step; by apply Hlit|step; [step; step; by apply Hlit|by step]]|step; [|by step]].
  apply wp_sequence. pose proof (literal_token _ _ Ht) as Hw. eapply wp_lift; [eassumption|lia|lia|].
  destruct (parse_literal_token t) as [e|[nd l]]; [done|]. destruct Hw as [-> Hw]. step. step. by apply Hlit.
Qed.

Lemma spec_literal n : spec n 1 wfe parse_literal.
Proof.
  intros s lo Hs Hc. unfold parse_literal. apply wp_sequence. eapply wp_weaken; [|by apply optional_literal_ok].
  intros o s' (hi & ? & ? & Hl & Ho). destruct o as [e|]; step. cbn [taken] in Hl. step. by destruct Ho.
Qed.

Section Expressions.
Context `{HL : Library} (n : nat) (expr : M Ast.Expression) (Hexpr : spec n 1 wfe expr).

Lemma spec_element : spec n 1 elem (parse_element expr).
Proof.
  intros s lo Hn Hc. unfold parse_element. step.
  - last Hexpr. intros e s' hi ? ? ? [? ?]. step. split; [by constructor|done].
  - step.
    + step. use Hexpr. intros e s' hi ? Hh ? [He Hb]. bounds. step. step. split; [|node]. constructor; [node|done].
    + last Hexpr. intros e s' hi ? ? ? [? ?]. step. split; [by constructor|done].
Qed.

Lemma elements_ok close fuel values s c lo N :
  (length (rest s) < fuel)%nat -> (length (rest s) <= n)%nat -> (length (rest s) <= N)%nat -> chain c (rest s) -> lo <= c ->
  Forall (elem lo c) values ->
  wp N lo s (elements_loop expr close fuel values)
    (fun l s' => exists hi, c <= hi /\ chain hi (rest s') /\ (length (rest s') <= length (rest s))%nat /\ Forall (elem lo hi) l).
Proof.
  revert values s c. induction fuel as [|fuel IH]; intros values s c Hf Hn HN Hc Hlo Hv; [lia|]. cbn [elements_loop].
  step; [by step; exists c|]. step; [by step; exists c|]. use spec_element. intros e s1 hi ? Hc1 ? He.
  assert (Forall (elem lo hi) (values ++ [e])) as Hv'.
  { apply Forall_app. split; [by eapply elems_le, Hv|]. constructor; [|constructor]. by eapply elem_le, He. }
  step.
  - step. exists hi. repeat split; (done || lia).
  - eapply wp_weaken; [|apply (IH _ _ (end_ t0)); [lia|lia|lia|done|lia|by eapply elems_le, Hv'; lia]]. cbv beta.
    intros l s' (hi' & ? & ? & ? & ?). exists hi'. repeat split; (done || lia).
Qed.

(** Uses of the loop on elements. *)
Lemma elements_bind {B} close s c lo N (f : list Ast.Expression -> M B) Q :
  (length (rest s) <= n)%nat -> (length (rest s) <= N)%nat -> chain c (rest s) -> lo <= c ->
  (forall l s' hi, c <= hi -> chain hi (rest s') -> (length (rest s') <= length (rest s))%nat -> Forall (elem c hi) l ->
    wp N lo s' (f l) Q) ->
  wp N lo s (looping (fun fuel => elements_loop expr close fuel []) ≫= f) Q.
Proof.
  intros Hn HN Hc Hlo Hf. apply wp_sequence. unfold looping. eapply wp_base; [exact HN|exact Hlo|].
  eapply wp_weaken; [|apply (elements_ok close _ [] s c c); [lia|done|lia|done|lia|constructor]]. cbv beta.
  intros l s' (hi & ? & ? & ? & ?). eapply (wp_base N N lo lo); [lia|lia|]. by eapply Hf.
Qed.

Lemma spec_inline_list : spec (S n) 1 wfe (parse_inline_list expr).
Proof.
  intros s lo Hs Hc. unfold parse_inline_list. step; [step|]. step; [|step]. step. step.
  - eapply elements_bind; [lia|lia|eassumption|lia|]. intros l s' hi ? ? ? Hl. bounds. step. step. bounds. step.
    split; [|node]. constructor; [node|]. by eapply elems_wf.
  - step. bounds. step. split; [|node]. constructor; [node|constructor].
Qed.

Definition keyed (keys : list string) (lo hi : Z) (r : Ast.Entry * list string * bool) : Prop :=
  let '(e, keys', _) := r in wf_entry e /\
  match e with Ast.StringKey k _ => k ∉ keys /\ keys' = k :: keys | _ => keys' = keys end.

Lemma spec_entry t r s c lo N keys : rest s = t :: r -> (length (rest s) <= n)%nat -> (length (rest s) <= N)%nat -> chain c (rest s) -> lo <= c ->
  wp N lo s (parse_entry expr t keys)
    (fun a s' => exists hi, c <= hi /\ chain hi (rest s') /\ (length (rest s') < length (rest s))%nat /\ keyed keys lo hi a).
Proof.
  intros Er Hn HN Hc Hlo. destruct (chain_cons _ _ _ _ Hc Er) as (Ht & _ & _). pose proof Ht as (? & ? & ? & ?).
  assert (forall k v b s' hi, k ∉ keys -> wf_expr v -> c <= hi -> chain hi (rest s') -> (length (rest s') < length (rest s))%nat ->
    exists hi, c <= hi /\ chain hi (rest s') /\ (length (rest s') < length (rest s))%nat /\
      keyed keys lo hi (Ast.StringKey k v, k :: keys, b)) as Hkey.
  { intros k v b s' hi Hk Hv ? ? ?. exists hi. repeat split; (done || by constructor). }
  unfold parse_entry. step; [|step; [|step]].
  - step. use Hexpr. intros e s' hi ? ? ? [He Hb]. bounds. step. exists hi. repeat split; [lia|done|lia|]. constructor; [node|done].
  - step. use Hexpr. intros k s1 h1 ? ? ? [Hk _]. step. step. use Hexpr. intros v s8 h2 ? ? ? [Hv _]. step.
    exists h2. repeat split; [lia|done|lia|]. by constructor.
  - apply wp_sequence. assert (forall name s', chain (end_ t) (rest s') -> length (rest s) = S (length (rest s')) ->
      wp N lo s'
        (t1 ← peek;
         if has_kind [Identifier] (Some t) && has_kind [Comma; RCurly] t1 then
           if bool_decide (name ∈ keys) then fail "duplicate object key" (Some t)
           else accept Comma;; mret (Ast.StringKey name (Ast.VariableReference (token_node t) name), name :: keys, true)
         else
           eat Colon;;
           value ← expr;
           if bool_decide (name ∈ keys) then fail "duplicate object key" (Some t)
           else mret (Ast.StringKey name value, name :: keys, false))
        (fun a s' => exists hi, c <= hi /\ chain hi (rest s') /\ (length (rest s') < length (rest s))%nat /\ keyed keys lo hi a)) as Hrest.
    { intros name s1 Hc1 Hl1. eapply (wp_sequence _ _ _ peek). eapply wp_weaken with (Q := fun _ s' => s' = s1); [|done].
      intros t1 ? ->. destruct (_ && _); [|step; use Hexpr; intros v s8 h2 ? ? ? [Hv _]].
      2: { destruct (bool_decide (name ∈ keys)) eqn:Ek; [step|]. step. apply bool_decide_eq_false in Ek.
           apply (Hkey _ _ _ _ h2); [done|done|lia|done|lia]. }
      destruct (bool_decide (name ∈ keys)) eqn:Ek; [step|]. apply bool_decide_eq_false in Ek.
      assert (wf_expr (Ast.VariableReference (token_node t) name)) by (constructor; node).
      step; apply wp_ret; [apply (Hkey _ _ _ _ (end_ t))|apply (Hkey _ _ _ _ (end_ t0))]; (done || lia). }
    step.
    + apply wp_sequence. eapply wp_lift; [eassumption|lia|lia|].
      destruct (parse_string_literal _ _) as [e|v] eqn:Ep; [by eapply string_error|]. step. step. by apply Hrest.
    + step. step. by apply Hrest.
  - step.
Qed.

Lemma entry_keys_snoc l e : entry_keys (l ++ [e]) = entry_keys l ++ option_list (match e with Ast.StringKey k _ => Some k | _ => None end).
Proof. unfold entry_keys. rewrite omap_app. cbn. by destruct e. Qed.

(** The keys seen so far are those of the entries. *)
Definition keys_of (keys : list string) (entries : list Ast.Entry) : Prop :=
  NoDup (entry_keys entries) /\ (forall k, k ∈ keys <-> k ∈ entry_keys entries) /\ Forall wf_entry entries.

Lemma keys_of_snoc keys lo hi e keys' b entries :
  keys_of keys entries -> keyed keys lo hi (e, keys', b) -> keys_of keys' (entries ++ [e]).
Proof.
  intros (Hd & Hk & Hw) [He Hkeys]. unfold keys_of. rewrite entry_keys_snoc, Forall_app. split; [|split; [|by auto]].
  - destruct e; cbn [option_list]; rewrite ?app_nil_r; [|done..]. destruct Hkeys as [Hn _]. apply NoDup_app. split; [done|].
    split; [|apply NoDup_singleton]. intros x Hx%Hk ->%list_elem_of_singleton. done.
  - intros k. rewrite elem_of_app. destruct e as [key v|key v|v]; cbn [option_list].
    + destruct Hkeys as [_ ->]. change (option_list (Some key)) with [key]. rewrite !elem_of_cons, Hk, elem_of_nil. tauto.
    + subst keys'. change (option_list None) with (@nil string). rewrite Hk, elem_of_nil. tauto.
    + subst keys'. change (option_list None) with (@nil string). rewrite Hk, elem_of_nil. tauto.
Qed.

Lemma entries_ok fuel keys entries s c lo N :
  (length (rest s) < fuel)%nat -> (length (rest s) <= n)%nat -> (length (rest s) <= N)%nat -> chain c (rest s) -> lo <= c ->
  keys_of keys entries ->
  wp N lo s (entries_loop expr fuel keys entries)
    (fun l s' => exists hi, c <= hi /\ chain hi (rest s') /\ (length (rest s') <= length (rest s))%nat /\
      NoDup (entry_keys l) /\ Forall wf_entry l).
Proof.
  revert keys entries s c. induction fuel as [|fuel IH]; intros keys entries s c Hf Hn HN Hc Hlo Hk; [lia|]. cbn [entries_loop].
  pose proof Hk as (Hd & _ & Hw). step; [by step; exists c|]. step; [by step; exists c|].
  apply wp_sequence. eapply wp_weaken; [|eapply (spec_entry t r s c lo N keys); (done || lia)]. cbv beta.
  intros [[e keys'] again] s1 (h1 & ? & ? & ? & He). pose proof (keys_of_snoc _ _ _ _ _ _ _ Hk He) as Hk'. cbv beta iota.
  assert (forall s2 c2, h1 <= c2 -> chain c2 (rest s2) -> (length (rest s2) <= length (rest s1))%nat ->
    wp N lo s2 (entries_loop expr fuel keys' (entries ++ [e]))
      (fun l s' => exists hi, c <= hi /\ chain hi (rest s') /\ (length (rest s') <= length (rest s))%nat /\
        NoDup (entry_keys l) /\ Forall wf_entry l)) as Hgo.
  { intros s2 c2 ? ? ?. eapply wp_weaken; [|apply (IH _ _ s2 c2); (done || lia)]. cbv beta.
    intros l s' (hi & ? & ? & ? & ?). exists hi. repeat split; (done || lia || tauto). }
  destruct again; [by apply (Hgo s1 h1); [lia| |lia]|]. step; [step|by apply (Hgo _ (end_ t0)); [lia| |lia]].
  exists h1. destruct Hk' as (? & _ & ?). repeat split; (done || lia).
Qed.

Lemma spec_inline_object : spec (S n) 1 wfe (parse_inline_object expr).
Proof.
  intros s lo Hs Hc. unfold parse_inline_object. step; [step|]. step; [|step]. step. step.
  - apply wp_sequence. unfold looping. eapply wp_weaken; [|apply (entries_ok _ [] [] _ (end_ t)); [lia|lia|lia|done|lia|]].
    + cbv beta. intros l s' (hi & ? & ? & ? & ? & ?). bounds. step. step. bounds. step. split; [|node]. constructor; [node|done..].
    + split; [constructor|]. split; [done|constructor].
  - step. bounds. step. split; [|node]. constructor; [node|constructor|constructor].
Qed.

Lemma spec_paren : spec (S n) 1 wfe (parse_paren_expression expr).
Proof.
  intros s lo Hs Hc. unfold parse_paren_expression. step; [cbn [has_kind]; step|]. step; [|step]. step. use Hexpr. intros e s' hi ? ? ? He.
  step. step. step. eapply wfe_le, He; lia.
Qed.

Lemma spec_method_args : spec (S n) 1 (fun lo hi l => Forall (elem lo hi) l) (parse_method_args expr).
Proof.
  intros s lo Hs Hc. unfold parse_method_args. step. step; [|step; step; constructor].
  eapply elements_bind; [lia|lia|eassumption|lia|]. intros l s' hi ? ? ? Hl. step. step. step. eapply elems_le, Hl; lia.
Qed.

Lemma call_between lo c start_pos end_pos args hi :
  lo <= start_pos -> start_pos <= end_pos -> end_pos <= c -> c <= hi -> Forall (elem c hi) args -> between lo (call_node start_pos end_pos args) hi.
Proof.
  intros H1 H2 H3 H4 Ha. unfold call_node, between. cbn [Ast.start_pos Ast.end_pos]. destruct (List.rev args) as [|a l] eqn:E; [lia|].
  apply Forall_reverse in Ha. unfold reverse in Ha. rewrite rev_append_rev, app_nil_r, E in Ha. apply Forall_inv in Ha as [_ Ha].
  unfold between, end_of in *. lia.
Qed.

Lemma spec_function_or_var : spec (S (S n)) 1 wfe (parse_function_or_var expr).
Proof.
  intros s lo Hs Hc. unfold parse_function_or_var. use (spec_identifier (S (S n))). intros [nd name] s1 h1 ? Hc1 ? [Hb _]. cbn [fst] in Hb.
  cbv beta iota. bounds. assert (ranged nd) as Hr by (unfold ranged, between in *; lia).
  assert (forall hi, h1 <= hi -> wfe lo hi (Ast.VariableReference nd name)) as Hvar.
  { intros hi ?. split; [by constructor|]. eapply between_le, Hb; lia. }
  assert (0 <= Ast.start_pos nd <= bound) as Hpos by (unfold between in *; lia).
  eapply (wp_sequence _ _ _ peek). eapply wp_weaken with (Q := fun _ s' => s' = s1); [|done]. intros t1 ? ->. step; [|step].
  - use spec_method_args. intros args s' hi ? ? ? Ha. bounds. destruct (callee _ _).
    + step. step. assert (between lo (call_node (Ast.start_pos nd) (Ast.end_pos nd) args) hi) as Hcb.
      { apply (call_between lo h1); unfold between in *; (lia || done). }
      split; [|done]. constructor; [unfold ranged, between in *; lia|]. by eapply elems_wf.
    + eapply wp_lift; [eassumption|lia|lia|]. unfold error_placed. cbn [position]. unfold wrap. rewrite Z.mod_small; lia.
  - apply wp_position.
    assert (forall s2, rest s2 = rest s1 -> exists hi, lo <= hi /\ chain hi (rest s2) /\
      (length (rest s2) + 1 <= length (rest s))%nat /\ wfe lo hi (Ast.VariableReference nd name)) as Hback.
    { intros s2 E2. exists h1. rewrite E2. split; [lia|]. split; [done|]. split; [lia|]. by apply Hvar. }
    step.
    + eapply (wp_sequence _ _ _ peek). unfold wp at 1, peek. by apply wp_return_to, wp_ret, Hback.
    + step; [by apply wp_return_to, wp_ret, Hback|]. step; [|by apply wp_return_to, wp_ret, Hback].
      step; [by apply wp_mark, wp_return_to, wp_ret, Hback|].
      step. destruct (callee _ _); [|step]. step. step. split; [|unfold between in *; node]. constructor. unfold between in *; node.
  - step. step. by apply Hvar.
Qed.

Lemma spec_start_node : spec (S n) 1 wfe (parse_start_node expr).
Proof.
  assert (forall lo lo' hi e, lo <= lo' -> wfe lo' hi e -> wfe lo hi e) as Hle by (intros ? ? ? ? ? H; eapply wfe_le, H; lia).
  unfold parse_start_node. repeat (apply spec_otherwise; [|done|]).
  - apply spec_literal.
  - apply spec_inline_list.
  - apply spec_inline_object.
  - apply spec_paren.
  - eapply spec_le, spec_function_or_var. lia.
Qed.

(** A result of a function that is called past the start of its first operand. *)
Definition continues (n k : nat) (e : Ast.Expression) (m : M Ast.Expression) : Prop := forall s lo c N,
  wfe lo c e -> chain c (rest s) -> 0 <= lo <= c -> (length (rest s) <= N)%nat -> (length (rest s) <= n)%nat ->
  wp N lo s m (fun e' s' => exists hi, c <= hi /\ chain hi (rest s') /\ (length (rest s') + k <= length (rest s))%nat /\ wfe lo hi e').

Lemma call_ok saved c0 node prefix fuel name dots s c lo base N :
  chain c0 saved -> base <= c0 -> (length saved <= N)%nat -> ranged node -> between lo node c ->
  (length (rest s) < fuel)%nat -> (length (rest s) <= S n)%nat -> (length (rest s) <= N)%nat -> chain c (rest s) -> base <= c ->
  wp N base s (call_loop expr saved node prefix fuel name dots)
    (fun e s' => exists hi, c <= hi /\ chain hi (rest s') /\ (length (rest s') <= length (rest s))%nat /\ wfe lo hi e).
Proof.
  intros Hsaved Hlo0 Hl0 Hr. revert name dots s c. induction fuel as [|fuel IH]; intros name dots s c Hb Hf Hn HN Hc Hlo; [lia|].
  cbn [call_loop]. assert (forall s' Q, wp N base s' (return_to saved;; no_match : M Ast.Expression) Q) as Hno.
  { intros s' Q. apply wp_return_to. by eapply (wp_no_match _ _ _ c0). }
  step; [apply Hno|]. step; [apply Hno|]. step; [|apply Hno]. step.
  eapply (wp_sequence _ _ _ peek). eapply wp_weaken with (Q := fun _ s' => s' = s1); [|done]. intros t1 ? ->. step.
  - use spec_method_args. intros args s' hi ? ? ? Ha. bounds. step. destruct (resolve_call _ _ _ _ _); [|step].
    step. exists hi. split; [lia|]. split; [done|]. split; [lia|].
    assert (between lo (call_node (Ast.start_pos node) (i32 (end_ t0)) args) hi) as Hcb.
    { rewrite i32_small by lia. apply (call_between lo (end_ t0)); unfold between in *; (lia || done). }
    split; [|done]. apply wf_FunctionCall; [unfold ranged, between, call_node in *; cbn [Ast.start_pos Ast.end_pos] in *; lia|].
    by eapply elems_wf.
  - eapply wp_weaken; [|apply (IH _ _ _ (end_ t0)); [eapply between_le, Hb; lia|lia|lia|lia|done|lia]].
    cbv beta. intros e s' (hi & ? & ? & ? & ?). exists hi. split; [lia|]. split; [done|]. split; [lia|done].
Qed.

Lemma continues_indexer e : continues (S n) 1 e (parse_indexer expr e).
Proof.
  intros s lo c N [He Hb] Hc Hlo HN Hn. unfold parse_indexer. step. use Hexpr. intros i s' hi ? ? ? [Hi _]. step. bounds. step.
  eexists. split; [|split; [eassumption|split; [lia|]]]; [lia|]. split; [|unfold between, start_of in *; node].
  apply wf_Indexer; [unfold between in *; node|done|done].
Qed.

Lemma continues_node e : continues (S n) 1 e (parse_node expr e).
Proof.
  intros s lo c N He Hc Hlo HN Hn. unfold parse_node. eapply (wp_sequence _ _ _ peek).
  eapply wp_weaken with (Q := fun _ s' => s' = s); [|done]. intros t ? ->. step; [|step; [by apply continues_indexer|step]].
  unfold parse_dotted_node, parse_property. step. step; [step|]. step; [|step]. step. step. bounds. destruct He as [He Hb].
  eexists. split; [|split; [eassumption|split; [lia|]]]; [lia|]. split; [|unfold between, start_of in *; node].
  apply wf_PropertyReference; [unfold between in *; node|done].
Qed.

Lemma continues_nodes fuel e : continues (Nat.min fuel (S n)) 0 e (nodes_loop expr (S fuel) e).
Proof.
  revert e. induction fuel as [|fuel IH]; intros e s lo c N He Hc Hlo HN Hn; cbn [nodes_loop].
  all: eapply wp_peek; [eassumption|intros E; cbn [has_kind]; step; exists c; by auto with lia|intros t r E (? & ? & ? & ?)].
  { rewrite E in Hn. cbn in Hn. lia. }
  step; [|step; exists c; by auto with lia].
  apply wp_sequence. eapply wp_weaken; [|apply (continues_node e s lo c N); (done || lia)]. cbv beta.
  intros e' s' (hi & ? & ? & ? & ?). eapply wp_weaken; [|apply (IH e' s' lo hi N); (done || lia)]. cbv beta.
  intros e2 s2 (h2 & ? & ? & ? & ?). exists h2. by auto with lia.
Qed.

Lemma continues_called e : continues (S n) 0 e (called expr e).
Proof.
  intros s lo c N He Hc Hlo HN Hn. unfold called.
  assert (wp N lo s (mret e) (fun e' s' => exists hi, c <= hi /\ chain hi (rest s') /\ (length (rest s') + 0 <= length (rest s))%nat /\ wfe lo hi e')) as Hret
    by (exists c; by auto with lia).
  destruct e as [| |nd name| | | | | | | | | | | |]; try exact Hret. unfold wp. destruct (Ast.is_root name); [exact Hret|].
  unfold parse_function_call. destruct He as [He Hb]. inversion He; subst.
  pose proof (call_ok (rest s) c nd name (S (length (rest s))) name 0 s c lo c (length (rest s))
    Hc ltac:(lia) ltac:(lia) ltac:(done) Hb ltac:(lia) Hn ltac:(lia) Hc ltac:(lia)) as Hcall.
  unfold wp in Hcall. destruct (call_loop _ _ _ _ _ _ _ _) as [e' s'|er s'|]; [|destruct Hcall as (Hp & (hi & ? & ?) & ?)|done].
  - destruct Hcall as (hi & ? & ? & ? & ?). exists hi. by auto with lia.
  - case_bool_decide; [|split; [done|]; split; [exists hi; by auto with lia|lia]].
    exists hi. split; [lia|]. split; [done|]. split; [lia|]. split; [done|]. by eapply between_le, Hb.
Qed.

Lemma spec_primary : spec (S n) 1 wfe (parse_primary expr).
Proof.
  intros s lo Hs Hc. unfold parse_primary. use spec_start_node. intros e s1 h1 ? ? ? He. bounds.
  apply wp_sequence. eapply wp_weaken; [|apply (continues_called e s1 lo h1 _ He); (done || lia)]. cbv beta.
  intros e2 s2 (h2 & ? & ? & ? & ?). unfold looping.
  eapply wp_weaken; [|apply (continues_nodes (length (rest s2)) e2 s2 lo h2); (done || lia)]. cbv beta.
  intros e3 s3 (h3 & ? & ? & ? & ?). exists h3. by auto with lia.
Qed.

Lemma unary_kind k op : operator_from_token k = Some op -> k ∈ [Plus; Minus; Not] -> op ∈ unary_operators.
Proof. intros Ho Hk. rewrite !elem_of_cons, elem_of_nil in Hk. destruct Hk as [->|[->|[->|[]]]]; injection Ho as <-; repeat constructor. Qed.

Lemma arithmetic_kind k op ks : operator_from_token k = Some op -> k ∈ ks ->
  ks = [Star; Div; Mod] \/ ks = [Plus; Minus] \/ ks = [GT; GE; LT; LE; Eq; Ne; Seq; Sne] -> op ∈ binary_operators.
Proof.
  intros Ho Hk [->|[->| ->]]; rewrite !elem_of_cons, elem_of_nil in Hk;
    repeat destruct Hk as [->|Hk]; try done; injection Ho as <-; repeat constructor.
Qed.

Lemma unary_ok fuel : spec (Nat.min fuel (S n)) 1 wfe (unary_loop expr (S fuel)).
Proof.
  induction fuel as [|fuel IH]; intros s lo Hs Hc; cbn [unary_loop].
  { step; [step|]. rewrite E in Hs. cbn in Hs. lia. }
  assert (forall t s' op lo', token_at lo t -> lo' = end_ t -> op ∈ unary_operators -> chain lo' (rest s') ->
    length (rest s) = S (length (rest s')) ->
    wp (length (rest s)) lo s' (rhs ← unary_loop expr (S fuel); mret (Ast.UnaryOperator (Ast.mkNode (i32 (start t)) (end_of rhs)) op rhs))
      (fun a s' => exists hi, lo <= hi /\ chain hi (rest s') /\ (length (rest s') + 1 <= length (rest s))%nat /\ wfe lo hi a)) as Hop.
  { intros t s' op lo' (? & ? & ? & ?) -> Hop Hc' Hl. use IH. intros e s2 hi ? ? ? [He Hb]. bounds. step. step.
    split; [|unfold between, end_of in *; node]. apply wf_UnaryOperator; [unfold between, end_of in *; node|done|done]. }
  step; [step|]. assert (token_at lo t) as Ht by (unfold token_at; auto). step.
  - step. destruct (operator_from_token (kind t)) as [op|] eqn:Eo.
    + apply (Hop t s0 op (end_ t)); [done|done| |done|done]. eapply unary_kind; [done|]. cbn [has_kind] in *. by apply bool_decide_eq_true in E0.
    + use IH. intros e s2 hi ? ? ? He. step.
  - step.
    + step. apply (Hop t s0 Ast.Typeof (end_ t)); [done|done|repeat constructor|done|done].
    + eapply (wp_last _ _ (S n)); [apply spec_primary|eassumption|lia|lia|lia|]. intros a s' hi ? ? ? ?. step. done.
Qed.

Lemma spec_unary : spec (S n) 1 wfe (parse_unary expr).
Proof. intros s lo Hs Hc. unfold parse_unary, looping. by apply unary_ok; [lia|]. Qed.

(** What an operator makes of its operands. *)
Definition combines (ks : list TokenKind) (combine : Token -> option combination) : Prop := forall t make nd l r,
  kind t ∈ ks -> combine t = Some make -> ranged nd -> wf_expr l -> wf_expr r ->
  wf_expr (make nd l r) /\ Ast.expression_node (make nd l r) = nd.

Lemma operators_ok ks combine operand fuel e : combines ks combine -> spec (S n) 1 wfe operand ->
  continues (Nat.min fuel (S n)) 0 e (operator_loop ks combine operand (S fuel) e).
Proof.
  intros Hcomb Hop. revert e. induction fuel as [|fuel IH]; intros e s lo c N He Hc Hlo HN Hn; cbn [operator_loop].
  all: eapply wp_peek; [eassumption|intros E; step; exists c; by auto with lia|intros t r E (? & ? & ? & ?)].
  { rewrite E in Hn. cbn in Hn. lia. }
  destruct (has_kind ks (Some t)) eqn:Ek; [|step; exists c; by auto with lia]. step. use Hop. intros rhs s1 hi ? ? ? Hr. bounds.
  destruct (combine t) as [make|] eqn:Em; [|step]. cbn [has_kind] in Ek. apply bool_decide_eq_true in Ek.
  destruct He as [He Hb], Hr as [Hr Hbr].
  destruct (Hcomb t make (span e rhs) e rhs Ek Em ltac:(unfold between, start_of, end_of in *; node) He Hr) as [Hw Hnd].
  eapply wp_weaken; [|apply (IH (make (span e rhs) e rhs) s1 lo hi N); [|done|lia|lia|lia]].
  - cbv beta. intros e2 s2 (h2 & ? & ? & ? & ?). exists h2. by auto with lia.
  - split; [done|]. rewrite Hnd. unfold between, start_of, end_of in *. node.
Qed.

Lemma spec_left_associative ks combine operand : combines ks combine -> spec (S n) 1 wfe operand ->
  spec (S n) 1 wfe (left_associative ks combine operand).
Proof.
  intros Hcomb Hop s lo Hs Hc. unfold left_associative. use Hop. intros e s1 h1 ? ? ? He. bounds. unfold looping.
  eapply wp_weaken; [|apply (operators_ok ks combine operand (length (rest s1)) e Hcomb Hop s1 lo h1); (done || lia)]. cbv beta.
  intros e3 s3 (h3 & ? & ? & ? & ?). exists h3. by auto with lia.
Qed.

Lemma combines_logical op k : op ∈ [Ast.And; Ast.Or] -> combines [k] (logical op).
Proof. intros Hop t make nd l r _ [= <-] Hn Hl Hr. split; [|done]. by apply wf_LogicRelational. Qed.

Lemma combines_arithmetic ks : ks = [Star; Div; Mod] \/ ks = [Plus; Minus] -> combines ks arithmetic.
Proof.
  intros Hks t make nd l r Hk Hm Hn Hl Hr. unfold arithmetic in Hm. destruct (operator_from_token (kind t)) as [op|] eqn:Eo; [|done].
  injection Hm as <-. split; [|done]. apply wf_BinaryOperator; [done| |done|done]. eapply arithmetic_kind; [done..|tauto].
Qed.

Lemma spec_relational : spec (S n) 1 wfe (parse_relational expr).
Proof.
  assert (spec (S n) 1 wfe (parse_sum expr)) as Hsum.
  { apply spec_left_associative; [apply combines_arithmetic; auto|].
    apply spec_left_associative; [apply combines_arithmetic; auto|]. apply spec_unary. }
  intros s lo Hs Hc. unfold parse_relational. use Hsum. intros e s1 h1 ? ? ? He. step; [step; by step|]. step; [|step; by step].
  step. use Hsum. intros rhs s2 h2 ? ? ? Hr. bounds. destruct (relational_operator t) as [op|] eqn:Eo; [|step]. step. step.
  destruct He as [He Hb], Hr as [Hr Hbr]. split; [|unfold between, start_of, end_of in *; node].
  apply wf_BinaryOperator; [unfold between, start_of, end_of in *; node| |done|done].
  unfold relational_operator in Eo. unfold is_relational, is_numeric_relational_operator in *. cbn [has_kind] in *.
  repeat case_bool_decide; try (injection Eo as <-; by repeat constructor).
  all: destruct (named "in" (Some t)); [injection Eo as <-; by repeat constructor|].
  all: try done.
  all: try (eapply (arithmetic_kind _ _ [GT; GE; LT; LE; Eq; Ne; Seq; Sne]); [exact Eo|done|by auto]).
  match goal with H : kind t <> Tilde, H' : kind t ∈ [Tilde] |- _ => by apply list_elem_of_singleton in H' end.
Qed.

Lemma spec_logical_or : spec (S n) 1 wfe (parse_logical_or expr).
Proof.
  apply spec_left_associative; [apply combines_logical; repeat constructor|].
  apply spec_left_associative; [apply combines_logical; repeat constructor|]. apply spec_relational.
Qed.

Lemma spec_expression_internal allow_assign : spec (S n) 1 wfe (parse_expression_internal allow_assign expr).
Proof.
  intros s lo Hs Hc. unfold parse_expression_internal. use spec_logical_or. intros e s1 h1 ? ? ? He. bounds.
  eapply (wp_sequence _ _ _ peek). eapply wp_weaken with (Q := fun o s' => s' = s1 /\ o = head (rest s1)); [|done]. intros t ? [-> Et].
  destruct (allow_assign && _) eqn:E1; [|destruct (has_kind [QMark] t) eqn:E2; [|step; by step]].
  all: assert (exists t1 r, rest s1 = t1 :: r) as (t1 & r & Er)
    by (destruct (rest s1); [subst t; cbn in *; first [discriminate|by rewrite andb_false_r in E1]|by eauto]); step.
  - use spec_logical_or. intros rhs s3 h3 ? ? ? Hr. bounds. destruct He as [He Hb], Hr as [Hr Hbr]. step.
    + step. step. split; [|unfold between, start_of, end_of in *; node]. apply wf_Assign; [unfold between, start_of, end_of in *; node|done..].
    + step; step.
  - use Hexpr. intros a s3 h3 ? ? ? Ha. step. use Hexpr. intros b s5 h5 ? ? ? Hb. bounds. step. step.
    destruct He as [He Hbe], Ha as [Ha Hba], Hb as [Hb Hbb].
    split; [|unfold between, start_of, end_of in *; node]. apply wf_Ternary; [unfold between, start_of, end_of in *; node|done..].
Qed.

End Expressions.

(** Without tokens there is nothing to parse, and no fuel is needed. *)
Lemma no_tokens `{HL : Library} allow_assign expr s : rest s = [] ->
  parse_expression_internal allow_assign expr s = Err (make_error "unexpected end of input" None) s.
Proof. destruct s as [r d p]. cbn [rest]. intros ->. reflexivity. Qed.

Lemma spec_expression `{HL : Library} allow_assign fuel : spec fuel 1 wfe (expression allow_assign (S fuel)).
Proof.
  induction fuel as [|fuel IH]; [|by apply spec_expression_internal].
  intros s lo Hs Hc. unfold wp. cbn [expression]. rewrite no_tokens by (destruct (rest s); [done|cbn in Hs; lia]).
  pose proof (chain_bound _ _ Hc). split; [|split; [by exists lo; split; [lia|]|done]]. unfold error_placed, make_error. case_bool_decide; cbn; lia.
Qed.

Lemma spec_expr `{HL : Library} allow_assign n : spec n 1 wfe (parse_expr allow_assign).
Proof.
  intros s lo Hs Hc. pose proof (spec_expression allow_assign (length (rest s)) s lo (le_n _) Hc) as H.
  assert (parse_expr allow_assign s = expression allow_assign (S (length (rest s))) s) as E by reflexivity.
  unfold wp in *. rewrite E. exact H.
Qed.

(** ** Statements *)

Definition wfs (lo hi : Z) (st : Ast.Statement) : Prop := wf_stmt st /\ between lo (Ast.statement_node st) hi.

Definition wfp (lo hi : Z) (p : Parsed) : Prop := match p with ParsedStatement st => wfs lo hi st | ParsedDirective _ _ _ _ => True end.

Lemma wfp_intro lo hi st : 0 <= lo -> hi <= bound -> (ranged (Ast.statement_node st) -> wf_stmt st) ->
  between lo (Ast.statement_node st) hi -> wfp lo hi (ParsedStatement st).
Proof. intros H1 H2 Hw Hb. split; [|done]. apply Hw. unfold ranged, between in *. lia. Qed.

Lemma semicolon_ok s c lo N e : chain c (rest s) -> 0 <= e <= c -> lo <= c ->
  wp N lo s (optional_semicolon e)
    (fun e' s' => exists hi, c <= hi /\ e <= e' <= hi /\ chain hi (rest s') /\ (length (rest s') <= length (rest s))%nat).
Proof.
  intros Hc He Hlo. unfold optional_semicolon. bounds. step; step; [exists c; auto with lia|].
  rewrite i32_small by lia. exists (end_ t). auto with lia.
Qed.

(** The node that is known to be in range. *)
Ltac shaped := let Hr := fresh "Hr" in intros Hr; cbn [Ast.statement_node] in Hr; constructor; done.

(** A semicolon at the end of a statement whose node starts at [st]. *)
Ltac semicolon := apply wp_sequence; eapply wp_weaken; [|eapply semicolon_ok; [eassumption|node|lia]]; cbv beta;
  intros ?e ?s (?hi & ? & ?Hse & ? & ?); rewrite ?i32_small in Hse by lia; bounds.

Section Statements.
Context `{HL : Library} (aa : bool).

Lemma spec_break n : spec n 1 wfp parse_break_statement.
Proof.
  intros s lo Hs Hc. unfold parse_break_statement. use (spec_eat_keyword n). intros t s1 h1 ? ? ? [(? & ? & ? & ?) ->]. bounds.
  semicolon. step. step. apply wfp_intro; [lia|lia|shaped|node].
Qed.

Lemma spec_continue n : spec n 1 wfp parse_continue_statement.
Proof.
  intros s lo Hs Hc. unfold parse_continue_statement. use (spec_eat_keyword n). intros t s1 h1 ? ? ? [(? & ? & ? & ?) ->]. bounds.
  semicolon. step. step. apply wfp_intro; [lia|lia|shaped|node].
Qed.

Lemma spec_return n : spec n 1 wfp (parse_return_statement aa).
Proof.
  intros s lo Hs Hc. unfold parse_return_statement. use (spec_eat_keyword n). intros t s1 h1 ? ? ? [(? & ? & ? & ?) ->]. bounds.
  assert (forall s2 value c2, chain c2 (rest s2) -> end_ t <= c2 -> (length (rest s2) <= length (rest s1))%nat ->
    match value with Some e => wf_expr e /\ between (end_ t) (Ast.expression_node e) c2 | None => True end ->
    wp (length (rest s)) lo s2
      (end_pos ← optional_semicolon (match value with Some e => end_of e | None => i32 (end_ t) end);
       mret (ParsedStatement (Ast.ReturnStatement (Ast.mkNode (i32 (start t)) end_pos) value)))
      (fun a s' => exists hi, lo <= hi /\ chain hi (rest s') /\ (length (rest s') + 1 <= length (rest s))%nat /\ wfp lo hi a)) as Hfin.
  { intros s2 value c2 Hc2 ? ? Hv. bounds. apply wp_sequence.
    eapply wp_weaken; [|eapply (semicolon_ok s2 c2); [eassumption| |lia]]; [cbv beta|destruct value; [destruct Hv|]; node].
    intros e s3 (hi & ? & ? & ? & ?). bounds. step. step. destruct value as [v|].
    - destruct Hv as [Hv Hvb]. apply wfp_intro; [lia|lia| |node]. intros Hr. constructor; [exact Hr|]. by intros e' [= <-].
    - apply wfp_intro; [lia|lia|shaped|node]. }
  step; [apply wp_sequence, wp_ret; by apply (Hfin _ None (end_ t)); [|lia|lia|]|]. apply wp_sequence.
  step; [apply wp_ret; by apply (Hfin _ None (end_ t)); [|lia|lia|]|].
  use (spec_expr aa n). intros e s2 h2 ? ? ? He. apply wp_ret. apply (Hfin _ (Some e) h2); [done|lia|lia|exact He].
Qed.

Lemma spec_throw n : spec n 1 wfp (parse_throw_statement aa).
Proof.
  intros s lo Hs Hc. unfold parse_throw_statement. use (spec_eat_keyword n). intros t s1 h1 ? ? ? [(? & ? & ? & ?) ->].
  use (spec_expr aa n). intros e s2 h2 ? ? ? [He Hb]. bounds. semicolon. step. step. apply wfp_intro; [lia|lia|shaped|node].
Qed.

Lemma spec_variable_declare n : spec n 1 wfp (parse_variable_declare_statement aa).
Proof.
  intros s lo Hs Hc. unfold parse_variable_declare_statement. use (spec_eat_keyword n). intros t s1 h1 ? ? ? [(? & ? & ? & ?) ->].
  use (spec_identifier n). intros [nd x] s2 h2 ? ? ? [_ Hx]. cbn [snd] in *.
  assert (forall s3 init c3, chain c3 (rest s3) -> end_ t <= c3 -> (length (rest s3) <= length (rest s1))%nat ->
    (forall e', init = Some e' -> wf_expr e') ->
    wp (length (rest s)) lo s3
      (semi ← eat Semicolon;
       mret (ParsedStatement (Ast.VariableDeclareStatement (Ast.mkNode (i32 (start t)) (i32 (end_ semi))) x init)))
      (fun a s' => exists hi, lo <= hi /\ chain hi (rest s') /\ (length (rest s') + 1 <= length (rest s))%nat /\ wfp lo hi a)) as Hfin.
  { intros s3 init c3 Hc3 ? ? Hi. step. bounds. step. step. apply wfp_intro; [lia|lia|shaped|node]. }
  step; apply wp_sequence; [apply wp_ret; by apply (Hfin _ None h2); [|lia|lia|]|].
  use (spec_expr aa n). intros e s4 h4 ? ? ? [He _]. apply wp_ret. apply (Hfin _ (Some e) h4); [done|lia|lia|by intros e' [= <-]].
Qed.

Lemma literals_ok fuel ls s c lo N : (length (rest s) < fuel)%nat -> chain c (rest s) -> lo <= c -> (length (rest s) <= N)%nat ->
  wp N lo s (literals_loop fuel ls) (fun _ s' => exists hi, c <= hi /\ chain hi (rest s') /\ (length (rest s') <= length (rest s))%nat).
Proof.
  revert ls s c. induction fuel as [|fuel IH]; intros ls s c Hf Hc Hlo HN; [lia|]. cbn [literals_loop]. apply wp_sequence.
  eapply wp_base; [exact HN|exact Hlo|]. eapply wp_weaken; [|by apply optional_literal_ok]. cbv beta.
  intros o s1 (h1 & ? & ? & Hl & Ho). destruct o as [e|]; [|step; exists h1; repeat split; (done || lia)].
  destruct Ho as (_ & nd & l & ->). cbn [taken] in Hl.
  eapply wp_weaken; [|apply (IH _ s1 h1); [lia|done|lia|lia]]. cbv beta. intros _ s2 (h2 & ? & ? & ?). exists h2. repeat split; (done || lia).
Qed.

Lemma spec_directive n : spec n 1 wfp parse_directive_statement.
Proof.
  intros s lo Hs Hc. unfold parse_directive_statement. use (spec_eat_keyword n). intros t s1 h1 ? ? ? [(? & ? & ? & ?) ->].
  use (spec_identifier n). intros i s2 h2 ? ? ? _.
  assert (forall s3 c3, chain c3 (rest s3) -> end_ t <= c3 -> (length (rest s3) <= length (rest s1))%nat ->
    wp (length (rest s)) lo s3
      (type ← parse_identifier_token;
       literals ← looping (fun fuel => literals_loop fuel []);
       semi ← eat Semicolon;
       directives ← directives_of;
       match directives !! i.2 with
       | Some _ => fail "directive exists" (Some t)
       | None =>
           match find_directive_def type.2 i.2 literals with
           | None => fail "directive not found" (Some t)
           | Some def => mret (ParsedDirective (Ast.mkNode (i32 (start t)) (i32 (end_ semi))) type.2 i.2 def)
           end
       end)
      (fun a s' => exists hi, lo <= hi /\ chain hi (rest s') /\ (length (rest s') + 1 <= length (rest s))%nat /\ wfp lo hi a)) as Hfin.
  { intros s3 c3 Hc3 ? ?. use (spec_identifier n). intros ty s4 h4 ? ? ? _. apply wp_sequence. unfold looping.
    eapply wp_weaken; [|apply (literals_ok _ [] s4 h4); [lia|done|lia|lia]]. cbv beta. intros ls s5 (h5 & ? & ? & ?).
    step. step. destruct (_ !! _); [step|]. destruct (find_directive_def _ _ _); [|step]. step. step. done. }
  step; [|apply wp_sequence, wp_ret; by apply (Hfin _ (end_ t0)); [|lia|lia]].
  eapply (wp_sequence _ _ _ _). eapply (wp_peek _ _ s2 h2); [done|intros E; cbn [named]; step|intros t1 r E (? & ? & ? & ?)].
  step; [|step]. unfold wp, next. rewrite E. destruct (chain_cons h2 s2 t1 r ltac:(done) E) as (_ & Hr & Hl).
  apply (Hfin (with_rest r s2) (end_ t1)); [done|lia|lia].
Qed.

Section Blocks.
Context (n : nat) (stmt : M Parsed) (Hstmt : spec n 1 wfp stmt).

Definition wfb (lo hi : Z) (b : Ast.Node * list Ast.Statement) : Prop := between lo b.1 hi /\ Forall wf_stmt b.2.

(** The range of a block without braces lies between the positions. *)
Definition range_ok (lo hi : Z) (range : option Ast.Node) (l : list Ast.Statement) : Prop :=
  match range with Some r => between lo r hi /\ l <> [] | None => True end.

Lemma block_ok must_curly start_pos fuel range l s c lo N :
  (length (rest s) < fuel)%nat -> (length (rest s) <= n)%nat -> (length (rest s) <= N)%nat -> chain c (rest s) -> lo <= c ->
  (must_curly = true -> 0 <= lo <= start_pos /\ start_pos <= c) -> range_ok lo c range l -> Forall wf_stmt l ->
  wp N lo s (block_loop stmt must_curly start_pos fuel range l)
    (fun b s' => exists hi, c <= hi /\ chain hi (rest s') /\ (length (rest s') <= length (rest s))%nat /\ wfb lo hi b /\
      (must_curly = false -> b.2 <> [])).
Proof.
  revert range l s c. induction fuel as [|fuel IH]; intros range l s c Hf Hn HN Hc Hlo Hst Hr Hl; [lia|]. cbn [block_loop].
  step.
  { destruct must_curly; [step|]. destruct range as [nd|]; [|step]. step. exists c. destruct Hr as [Hr Hne].
    split; [lia|]. split; [done|]. split; [lia|]. by split. }
  assert (forall range' l' s' c', chain c' (rest s') -> (length (rest s') < length (rest s))%nat -> c <= c' -> range_ok lo c' range' l' -> Forall wf_stmt l' ->
    wp N lo s' (block_loop stmt must_curly start_pos fuel range' l')
      (fun b s' => exists hi, c <= hi /\ chain hi (rest s') /\ (length (rest s') <= length (rest s))%nat /\ wfb lo hi b /\
        (must_curly = false -> b.2 <> []))) as Hgo.
  { intros range' l' s' c' Hc' Hl' Hcc Hr' Hw'. eapply wp_weaken; [|apply (IH range' l' s' c'); [lia|lia|lia|done|lia| |done|done]].
    - cbv beta. intros b s2 (hi & ? & ? & ? & ?). exists hi. split; [lia|]. split; [done|]. split; [lia|done].
    - intros Hm. specialize (Hst Hm). lia. }
  assert (forall c', c <= c' -> range_ok lo c' range l) as Hrange.
  { intros c' ?. destruct range as [nd|]; [|done]. destruct Hr as [Hr Hne]. split; [by eapply between_le, Hr|done]. }
  destruct (must_curly && _) eqn:E1.
  { apply andb_prop in E1 as [Hm _]. specialize (Hst Hm). step. step. exists (end_ t). split; [lia|]. split; [done|]. split; [lia|].
    split; [|by rewrite Hm]. split; [cbn [fst]; node|done]. }
  step; [|apply (Hgo range l _ (end_ t0)); [done|lia|lia|apply Hrange; lia|done]].
  use Hstmt. intros p s8 h1 ? ? ? Hp. destruct p as [st|nd' ty name def].
  - apply (Hgo _ _ s8 h1); [done|lia|lia| |apply Forall_app; split; [done|by constructor; [apply Hp|]]].
    destruct Hp as [_ Hb]. split; [|by destruct l]. destruct range as [nd|]; cbn [extend]; [|by eapply between_le, Hb].
    destruct Hr as [Hr _]. unfold between in *. cbn. lia.
  - eapply (wp_sequence _ _ _ (add_directive name def)). unfold wp at 1, add_directive.
    apply (Hgo range l _ h1); [done|cbn [rest]; lia|lia|by apply Hrange; lia|done].
Qed.

Lemma spec_block : spec (S n) 1 wfb (parse_block stmt true).
Proof.
  intros s lo Hs Hc. unfold parse_block. apply wp_sequence. step. apply wp_ret. unfold looping.
  eapply wp_weaken; [|apply (block_ok true (start t) _ None [] s0 (end_ t)); [lia|lia|lia|done|lia| |done|constructor]].
  - cbv beta. intros b s' (hi & ? & ? & ? & ? & _). exists hi. split; [lia|]. split; [done|]. split; [lia|done].
  - intros _. lia.
Qed.

Lemma spec_try_catch : spec (S n) 1 wfp (parse_try_catch_statement stmt).
Proof.
  intros s lo Hs Hc. unfold parse_try_catch_statement. use (spec_eat_keyword (S n)). intros t s1 h1 ? ? ? [(? & ? & ? & ?) ->].
  use spec_block. intros b1 s2 h2 ? ? ? [_ Hb1]. use (spec_eat_keyword (S n)). intros t2 s3 h3 ? ? ? _. step.
  use (spec_identifier (S n)). intros [nd x] s5 h5 ? ? ? [_ Hx]. step. use spec_block. intros b2 s7 h7 ? ? ? [Hr Hb2]. bounds.
  step. step. apply wfp_intro; [lia|lia|shaped|node].
Qed.

Lemma spec_foreach : spec (S n) 1 wfp (parse_foreach_statement aa stmt).
Proof.
  intros s lo Hs Hc. unfold parse_foreach_statement. use (spec_eat_keyword (S n)). intros t s1 h1 ? ? ? [(? & ? & ? & ?) ->]. step.
  use (spec_eat_keyword (S n)). intros t2 s3 h3 ? ? ? _. use (spec_identifier (S n)). intros [nd x] s4 h4 ? ? ? [_ Hx]. step.
  use (spec_identifier (S n)). intros [nd' y] s6 h6 ? ? ? [_ Hy]. use (spec_eat_keyword (S n)). intros t4 s7 h7 ? ? ? _.
  use (spec_expr aa (S n)). intros e s8 h8 ? ? ? [He _]. step. use spec_block. intros b s10 h10 ? ? ? [Hr Hb]. bounds.
  step. step. apply wfp_intro; [lia|lia|shaped|node].
Qed.

Lemma if_ok fuel : spec (Nat.min fuel (S n)) 1 (fun lo hi st => wfs lo hi st /\ wf_else st) (if_loop aa stmt (S fuel)).
Proof.
  induction fuel as [|fuel IH]; intros s lo Hs Hc; cbn [if_loop].
  all: use (spec_eat_keyword (S n)); intros t s1 h1 ? ? ? [(? & ? & ? & ?) ->].
  { lia. }
  step.
  use (spec_expr aa (S n)). intros e s3 h3 ? ? ? [He _]. step. use spec_block. intros b s5 h5 ? ? ? [Hr Hb].
  assert (forall els s6 c6, chain c6 (rest s6) -> h5 <= c6 -> (length (rest s6) <= length (rest s5))%nat ->
    match els with Some st => wf_else st /\ between (end_ t) (Ast.statement_node st) c6 | None => True end ->
    wp (length (rest s)) lo s6
      (mret (Ast.IfStatement
         (Ast.mkNode (i32 (start t))
            (match els with Some st => Ast.end_pos (Ast.statement_node st) | None => Ast.end_pos b.1 end))
         e (Ast.BlockS b.1 b.2) els))
      (fun a s' => exists hi, lo <= hi /\ chain hi (rest s') /\ (length (rest s') + 1 <= length (rest s))%nat /\
        (wfs lo hi a /\ wf_else a))) as Hfin.
  { intros els s6 c6 Hc6 ? ? Hels. bounds. step. step.
    match goal with |- wfs lo c6 ?st /\ _ => assert (wfs lo c6 st) as Hw end; [|split; [done|apply wf_else_if, Hw]].
    assert (between lo (Ast.mkNode (i32 (start t)) (match els with Some st => Ast.end_pos (Ast.statement_node st) | None => Ast.end_pos b.1 end)) c6)
      as Hbet by (destruct els; [destruct Hels|]; node).
    split; [|exact Hbet]. constructor; [by eapply between_ranged, Hbet; lia|done|eapply between_ranged, Hr; lia|done|].
    intros st ->. apply Hels. }
  step; [cbn [named]; apply wp_sequence, wp_ret; by apply (Hfin None s5 h5); [|lia|lia|]|]. apply wp_sequence.
  step; [|apply wp_ret; by apply (Hfin None s5 h5); [|lia|lia|]]. step.
  step; [cbn [named]; use spec_block; intros b2 s7 h7 ? ? ? [Hr2 Hb2]; apply wp_ret; apply (Hfin (Some _) s7 h7); [done|lia|lia|]|].
  { split; [|by eapply between_le, Hr2; lia]. bounds. constructor; [|done]. eapply between_ranged, Hr2; lia. }
  step.
  - use IH. intros st s7 h7 ? ? ? [[Hw Hb7] Hels]. apply wp_ret. apply (Hfin (Some st) s7 h7); [done|lia|lia|].
    split; [done|]. by eapply between_le, Hb7; lia.
  - use spec_block; intros b2 s7 h7 ? ? ? [Hr2 Hb2]; apply wp_ret; apply (Hfin (Some _) s7 h7); [done|lia|lia|].
    split; [|by eapply between_le, Hr2; lia]. bounds. constructor; [|done]. eapply between_ranged, Hr2; lia.
Qed.

Lemma spec_if : spec (S n) 1 wfp (parse_if_statement aa stmt).
Proof.
  intros s lo Hs Hc. unfold parse_if_statement. apply wp_sequence. unfold looping.
  eapply wp_weaken; [|apply (if_ok (length (rest s)) s lo); [lia|done]]. cbv beta.
  intros st s' (hi & ? & ? & ? & Hw & _). step. exists hi. by auto.
Qed.

Lemma spec_expression_statement : spec (S n) 1 wfp (parse_expression_statement aa).
Proof.
  intros s lo Hs Hc. unfold parse_expression_statement. use (spec_expr aa (S n)). intros e s2 h2 ? ? ? [He Hb]. bounds.
  apply wp_sequence. eapply wp_weaken; [|eapply semicolon_ok; [eassumption|node|lia]]. cbv beta. intros e' s3 (hi & ? & ? & ? & ?). bounds.
  step. step. apply wfp_intro; [lia|lia|shaped|node].
Qed.

Lemma spec_parse_statement : spec (S n) 1 wfp (parse_statement aa stmt).
Proof.
  intros s lo Hs Hc. unfold parse_statement. step; [step|].
  repeat match goal with |- wp _ _ _ (if named _ _ then _ else _) _ => step end.
  all: try (eapply (wp_last _ _ (S n)); [solve [eauto using spec_if, spec_foreach, spec_break, spec_continue, spec_return, spec_throw,
    spec_try_catch, spec_variable_declare, spec_directive]|eassumption|lia|lia|lia|]; intros a s' hi ? ? ? ?; step; done).
  step.
  - use spec_block. intros b s' hi ? ? ? [Hb Hw]. bounds. step. step. apply wfp_intro; [lia|lia|shaped|exact Hb].
  - last spec_expression_statement. intros a s' hi ? ? ? ?. step. done.
Qed.

End Blocks.

Lemma spec_statement fuel : spec fuel 1 wfp (statement aa (S fuel)).
Proof.
  induction fuel as [|fuel IH]; [|by apply spec_parse_statement].
  intros s lo Hs Hc. cbn [statement]. unfold parse_statement. step; [step|]. rewrite E in Hs. cbn in Hs. lia.
Qed.

Lemma wp_ext {A} n lo s (m m' : M A) Q : m s = m' s -> wp n lo s m' Q -> wp n lo s m Q.
Proof. unfold wp. by intros ->. Qed.

Lemma parse_block_open stmt s t r : rest s = t :: r ->
  parse_block stmt false s = block_loop stmt false (start t) (S (length (rest s))) None [] s.
Proof. intros E. unfold parse_block, looping, mbind, M_bind, peek, mret, M_ret. rewrite E. reflexivity. Qed.

Lemma spec_whole_script n : spec n 1 (fun _ _ r => wf_root r) (whole_script aa).
Proof.
  intros s lo Hs Hc. unfold whole_script. step; [step|]. apply wp_sequence.
  eapply wp_ext; [exact (parse_block_open (statement aa (S (length (rest s)))) s t r E)|].
  eapply wp_weaken; [|apply (block_ok (length (rest s)) _ (spec_statement (length (rest s))) false _ (S (length (rest s))) None [] s lo lo);
    [lia|done|done|done|lia|done|done|constructor]].
  cbv beta. intros b s' (hi & ? & ? & ? & [Hr Hw] & Hne). bounds. step; [|step]. step. exists hi. split; [lia|]. split; [done|].
  rewrite E, E0. split; [cbn; lia|]. split; [eapply between_ranged, Hr; lia|]. by split; [apply Hne|].
Qed.

Lemma semicolons_ok fuel s c lo N : (length (rest s) < fuel)%nat -> chain c (rest s) -> lo <= c -> (length (rest s) <= N)%nat ->
  wp N lo s (semicolons_loop fuel) (fun _ s' => exists hi, c <= hi /\ chain hi (rest s') /\ (length (rest s') <= length (rest s))%nat).
Proof.
  revert s c. induction fuel as [|fuel IH]; intros s c Hf Hc Hlo HN; [lia|]. cbn [semicolons_loop]. step; [step; exists c; repeat split; (done || lia)|].
  eapply wp_weaken; [|apply (IH _ (end_ t)); [lia|done|lia|lia]]. cbv beta. intros _ s2 (h2 & ? & ? & ?). exists h2. repeat split; (done || lia).
Qed.

Lemma spec_whole_expression n : spec n 1 (fun _ _ e => wf_expr e) (whole_expression aa).
Proof.
  intros s lo Hs Hc. unfold whole_expression. step; [step|]. use (spec_expr aa n). intros e s1 h1 ? ? ? [He _].
  apply wp_sequence. unfold looping. eapply wp_weaken; [|apply (semicolons_ok _ s1 h1); [lia|done|lia|lia]]. cbv beta.
  intros _ s2 (h2 & ? & ? & ?). step; [|step]. step. step. done.
Qed.

End Statements.

End Bound.

(** ** Texts *)

Lemma placed_chain input pos ts : 0 <= pos <= size input -> placed input pos ts -> chain (size input) pos ts.
Proof.
  intros Hpos H. induction H as [pos|pos t ts Hs He Ht _ IH]; cbn [chain]; [lia|]. split; [lia|]. split; [lia|]. split; [|apply IH; lia].
  rewrite Ht. unfold size, slice. rewrite length_take. destruct (is_hex (kind t)); lia.
Qed.

(** A parser that fits the logic, on a text. *)
Lemma text_ok {A} (input : list Z) (m : M A) (P : A -> Prop) :
  (forall n, spec (size input) n 1 (fun _ _ a => P a) m) ->
  match parse_text input m with
  | Some (inr (a, _)) => P a
  | Some (inl e) => 0 <= position e <= size input
  | None => False
  end.
Proof.
  intros Hm. unfold parse_text, process.
  pose proof (process_loop_places input (length input) 0 ltac:(lia) ltac:(unfold size; lia)) as Ht. cbn [Z.to_nat drop] in Ht.
  change (drop 0 input) with input in Ht. destruct (process_loop _ _ _) as [[e|ts]|]; [done| |done].
  assert (0 <= 0 <= size input) as H0 by (unfold size; lia).
  specialize (Hm (length ts) (initial ts) 0 ltac:(done) (placed_chain _ _ _ H0 Ht)). unfold wp in Hm.
  destruct (m (initial ts)) as [a s'|e s'|]; [by destruct Hm as (_ & _ & _ & _ & ?)|by destruct Hm|done].
Qed.


(** A library without anything in it. *)
Definition no_library : Library := {|
  find_func _ := None; find_async_func _ := None; find_constant _ _ := None; find_async_constant _ _ := None;
  find_directive_def _ _ _ := None; directive_find_func _ _ _ := None; directive_find_async_func _ _ _ := None |}.

Definition sample_script : list Z :=
  bytes_of_string "let a = {x: 1, 'y': [2, ...$.z]}; for (let k, v of a) { if (v > 1.5) { a.x = -v; } else { break; } } return a;".


(** The same for [parse_expression]. *)
Theorem parse_expression_well_formed `{HL : Library} (allow_assign : bool) (input : list Z) :
  size input < 2 ^ 31 ->
  match parse_expression allow_assign input with
  | Some (inr (e, _)) => wf_expr (size input) e
  | Some (inl e) => 0 <= position e <= size input
  | None => False
  end.
Proof. intros Hs. apply text_ok. intros n. by apply spec_whole_expression. Qed.

Definition sample_expression : list Z := bytes_of_string "a.b[0] ? -1 : 'z' + x".

Lemma parse_expression_well_formed_witness :
  exists e props, parse_expression (H := no_library) true sample_expression = Some (inr (e, props)) /\
    wf_expr (size sample_expression) e.
Proof.
  pose proof (parse_expression_well_formed (HL := no_library) true sample_expression ltac:(vm_compute; reflexivity)) as H.
  destruct (parse_expression (H := no_library) true sample_expression) as [[e|[e props]]|] eqn:E;
    [vm_compute in E; discriminate E| |destruct H].
  exists e, props. exact (conj eq_refl H).
Defined.

End Shape.
