(* ===== verification/ScriptGrammar.v ===== *)
(** * The grammar of expressions, and that the parser reads it

    [phrase] is the grammar of [Parser.cpp] as a relation between tokens and trees,
    one rule per alternative, with the levels of the operators: the reference the
    functions of the parser are compared with.  [reads] says that a function takes
    exactly these tokens; what may not follow a phrase is [stops].

    The other direction does not hold: the alternatives of [parse_start_node] start
    where the failed one stopped, so that the parser also accepts texts that are no
    phrases ([reads_more] at the end). *)
From S2P Require Import Prelude ScriptAst ScriptTokens ScriptLiteral ScriptParser.

Module Grammar.
Import Tokens Literals Parser.

(** ** Levels *)

Inductive Level := LPrimary | LUnary | LProduct | LSum | LRelational | LAnd | LOr | LExpression.

(** The binary operators of a level, from left to right. *)
Definition operators (l : Level) : list TokenKind :=
  match l with
  | LProduct => [Star; Div; Mod] | LSum => [Plus; Minus] | LAnd => [SymbolicAnd] | LOr => [SymbolicOr]
  | _ => []
  end.

Definition combine (l : Level) : Token -> option combination :=
  match l with LAnd => logical Ast.And | LOr => logical Ast.Or | _ => arithmetic end.

(** The level of the operands. *)
Definition below (l : Level) : Level :=
  match l with LProduct => LUnary | LSum => LProduct | LAnd => LRelational | LOr => LAnd | l => l end.

Definition is_chain (l : Level) : bool := match l with LProduct | LSum | LAnd | LOr => true | _ => false end.

(** The tokens a phrase of the level would go on with. *)
Definition goes_on (l : Level) (t : Token) : bool :=
  let primary := has_kind [Dot; LSquare; LParen] (Some t) in
  let product := primary || has_kind [Star; Div; Mod] (Some t) in
  let sum := product || has_kind [Plus; Minus] (Some t) in
  let relational := sum || is_relational (Some t) in
  let logical_and := relational || has_kind [SymbolicAnd] (Some t) in
  let logical_or := logical_and || has_kind [SymbolicOr] (Some t) in
  match l with
  | LPrimary | LUnary => primary
  | LProduct => product
  | LSum => sum
  | LRelational => relational
  | LAnd => logical_and
  | LOr => logical_or
  | LExpression => logical_or || has_kind [Assign; QMark] (Some t)
  end.

Definition stops (l : Level) (r : list Token) : bool := match r with t :: _ => negb (goes_on l t) | [] => true end.

(** ** Phrases *)

(** What [parse_identifier_token] takes, and a name that is not a literal either. *)
Definition identifier (t : Token) (x : string) : Prop := kind t = Identifier /\ token_name t = x /\ is_keyword x = false.

Definition plain_name (t : Token) (x : string) : Prop :=
  kind t = Identifier /\ token_name t = x /\ is_keyword x = false /\ x ∉ ["true"; "false"; "null"]%string.

(** [.name.name...] behind the name a call starts with: the whole name, the last
    token and the number of dots. *)
Inductive qualified : string -> nat -> list Token -> string -> Token -> nat -> Prop :=
  | q_last name dots dot t :
      kind dot = Dot -> kind t = Identifier -> qualified name dots [dot; t] (name ++ "." ++ token_name t)%string t (S dots)
  | q_more name dots dot t ts name' t' dots' :
      kind dot = Dot -> kind t = Identifier -> qualified (name ++ "." ++ token_name t)%string (S dots) ts name' t' dots' ->
      qualified name dots (dot :: t :: ts) name' t' dots'.

Definition variable_of (t : Token) : Ast.Expression := Ast.VariableReference (token_node t) (token_name t).

(** The literals of one token. *)
Definition literal_of (t : Token) (e : Ast.Expression) : Prop :=
  match kind t with
  | Identifier =>
      (token_name t = "true"%string /\ e = Ast.LiteralE (token_node t) (Ast.Boolean true)) \/
      (token_name t = "false"%string /\ e = Ast.LiteralE (token_node t) (Ast.Boolean false)) \/
      (token_name t = "null"%string /\ e = Ast.LiteralE (token_node t) Ast.NullValue)
  | LiteralInt | LiteralLong | LiteralHexInt | LiteralHexLong | LiteralReal | LiteralRealFloat | LiteralString =>
      exists n l, parse_literal_token t = inr (n, l) /\ e = Ast.LiteralE n l
  | _ => False
  end.

(** The key of an entry [key: value]. *)
Definition key_of (t : Token) (k : string) : Prop :=
  (kind t = Identifier /\ k = token_name t) \/
  (kind t = LiteralString /\ exists bytes, parse_string_literal (text t) (start t) = inr bytes /\ k = string_of_bytes bytes).

(** A name behind a dot with [$name] in front is a constant: such a name is a
    variable only if no dot follows. *)
Definition dollar_variable (e : Ast.Expression) : bool :=
  match e with Ast.VariableReference _ x => is_dollar x && negb (bool_decide (x = "$"%string)) | _ => false end.

Definition first_is (k : TokenKind) (ts : list Token) : bool := has_kind [k] (head ts).

(** ** Reading *)

(** With the directives [d], the function takes the tokens [ts], gives [a] and leaves
    [r] and the directives [d']. *)
Definition reads_to {A} (d : gmap string nat) (m : M A) (ts : list Token) (a : A) (r : list Token) (d' : gmap string nat) : Prop :=
  forall rp, exists rp', m (Parser.mkState (ts ++ r) d rp) = Ok a (Parser.mkState r d' rp').

(** The function fails and takes nothing. *)
Definition misses_in {A} (d : gmap string nat) (m : M A) (l : list Token) : Prop := forall rp,
  exists e, m (Parser.mkState l d rp) = Err e (Parser.mkState l d rp).

Lemma has_kind_of t k ks b : kind t = k -> bool_decide (k ∈ ks) = b -> has_kind ks (Some t) = b.
Proof. by intros <-. Qed.

Section Reading.
Context (d : gmap string nat).

Lemma reads_ret {A} (a : A) r : reads_to d (mret a) [] a r d.
Proof. intros rp. by exists rp. Qed.

Lemma reads_bind {A B} (m : M A) (f : A -> M B) ts1 ts2 a b r d1 d2 :
  reads_to d m ts1 a (ts2 ++ r) d1 -> reads_to d1 (f a) ts2 b r d2 -> reads_to d (m ≫= f) (ts1 ++ ts2) b r d2.
Proof.
  intros Hm Hf rp. destruct (Hm rp) as [rp1 E1]. destruct (Hf rp1) as [rp2 E2]. exists rp2.
  unfold mbind, M_bind. by rewrite <-app_assoc, E1.
Qed.

Lemma reads_then {A B} (m : M A) (f : A -> M B) ts a b r d1 d2 :
  reads_to d m ts a r d1 -> reads_to d1 (f a) [] b r d2 -> reads_to d (m ≫= f) ts b r d2.
Proof. intros Hm Hf. rewrite <-(app_nil_r ts). by eapply reads_bind. Qed.

Lemma reads_peek {B} (f : option Token -> M B) ts b r d' : reads_to d (f (head (ts ++ r))) ts b r d' -> reads_to d (peek ≫= f) ts b r d'.
Proof. done. Qed.

Lemma reads_position {B} (f : list Token -> M B) ts b r d' : reads_to d (f (ts ++ r)) ts b r d' -> reads_to d (position_of ≫= f) ts b r d'.
Proof. done. Qed.

Lemma reads_next {B} (f : unit -> M B) t ts b r d' : reads_to d (f tt) ts b r d' -> reads_to d (next ≫= f) (t :: ts) b r d'.
Proof. done. Qed.

Lemma reads_eat {B} (f : Token -> M B) k t ts b r d' : kind t = k -> reads_to d (f t) ts b r d' -> reads_to d (eat k ≫= f) (t :: ts) b r d'.
Proof.
  intros Hk H rp. destruct (H rp) as [rp' E]. exists rp'. rewrite <-E.
  unfold eat, peek, next, mbind, M_bind. cbn [app rest head]. by rewrite bool_decide_true.
Qed.

Lemma reads_accept {B} (f : option Token -> M B) k t ts b r d' :
  kind t = k -> reads_to d (f (Some t)) ts b r d' -> reads_to d (accept k ≫= f) (t :: ts) b r d'.
Proof.
  intros Hk H rp. destruct (H rp) as [rp' E]. exists rp'. rewrite <-E.
  unfold accept, peek, next, mbind, M_bind. cbn [app rest head].
  rewrite (has_kind_of t k [k] true Hk) by (apply bool_decide_eq_true_2, list_elem_of_here). done.
Qed.

Lemma reads_accept_none {B} (f : option Token -> M B) k ts b r d' :
  has_kind [k] (head (ts ++ r)) = false -> reads_to d (f None) ts b r d' -> reads_to d (accept k ≫= f) ts b r d'.
Proof.
  intros Hk H rp. destruct (H rp) as [rp' E]. exists rp'. rewrite <-E.
  unfold accept, peek, mbind, M_bind. cbn [rest]. by rewrite Hk.
Qed.

Lemma reads_looping {A} (loop : nat -> M A) ts a r d' : reads_to d (loop (S (length (ts ++ r)))) ts a r d' -> reads_to d (looping loop) ts a r d'.
Proof. done. Qed.

Lemma reads_otherwise {A} (m1 m2 : M A) ts a r d' : misses_in d m1 (ts ++ r) -> reads_to d m2 ts a r d' -> reads_to d (otherwise m1 m2) ts a r d'.
Proof.
  intros H1 H2 rp. destruct (H1 rp) as [e E1]. destruct (H2 rp) as [rp' E2]. exists rp'. unfold otherwise. by rewrite E1.
Qed.

Lemma reads_first {A} (m1 m2 : M A) ts a r d' : reads_to d m1 ts a r d' -> reads_to d (otherwise m1 m2) ts a r d'.
Proof. intros H1 rp. destruct (H1 rp) as [rp' E1]. exists rp'. unfold otherwise. by rewrite E1. Qed.

Lemma reads_lift {A B} (a : A) (f : A -> M B) ts b r d' : reads_to d (f a) ts b r d' -> reads_to d (lift (inr a) ≫= f) ts b r d'.
Proof. done. Qed.

Lemma reads_identifier {B} (f : Ast.Node * string -> M B) t x ts b r d' : identifier t x ->
  reads_to d (f (token_node t, x)) ts b r d' -> reads_to d (parse_identifier_token ≫= f) (t :: ts) b r d'.
Proof.
  intros (Hk & <- & Hkw) H rp. destruct (H rp) as [rp' E]. exists rp'. rewrite <-E.
  unfold parse_identifier_token, eat, peek, next, mbind, M_bind. cbn [app rest head]. rewrite bool_decide_true by done.
  unfold mret, M_ret. by rewrite Hkw.
Qed.

Lemma reads_name {B} (f : Ast.Node * string -> M B) t x ts b r d' : plain_name t x ->
  reads_to d (f (token_node t, x)) ts b r d' -> reads_to d (parse_identifier_token ≫= f) (t :: ts) b r d'.
Proof. intros (Hk & Hx & Hkw & _). by apply reads_identifier. Qed.

End Reading.

Lemma named_kind t k x : kind t = k -> k <> Identifier -> named x (Some t) = false.
Proof. intros <- Hk. unfold named. by rewrite bool_decide_false. Qed.

Lemma named_identifier t x : kind t = Identifier -> named x (Some t) = bool_decide (token_name t = x).
Proof. intros Hk. unfold named. by rewrite bool_decide_true. Qed.

(** Tests of the kind of a token that is known. *)
Ltac kinds := repeat match goal with
  | H : kind ?t = ?k |- context [has_kind ?ks (Some ?t)] =>
      let b := eval vm_compute in (bool_decide (k ∈ ks)) in rewrite (has_kind_of t k ks b H eq_refl)
  | H : kind ?t = ?k |- context [named ?x (Some ?t)] => rewrite (named_kind t k x H) by done
  end; cbn [orb andb negb].

Section Phrases.
Context `{HL : Library} (allow_assign : bool) (directives : gmap string nat).

Inductive phrase : Level -> list Token -> Ast.Expression -> Prop :=
  (** [parse_primary] *)
  | p_primary ts1 e1 ts2 e :
      start_phrase ts1 e1 -> tails e1 ts2 e -> (dollar_variable e1 = true -> first_is Dot ts2 = false) ->
      phrase LPrimary (ts1 ++ ts2) e
  | p_method t x ts name f dots open ts1 args close c ts2 e :
      plain_name t x -> is_dollar x = false -> qualified x 0 ts name f dots -> kind open = LParen -> elements ts1 args ->
      kind close = RParen -> resolve_call directives x name (token_name f) dots = Some c ->
      tails (Ast.FunctionCall (call_node (i32 (start t)) (i32 (end_ f)) args) c args) ts2 e ->
      phrase LPrimary (t :: ts ++ open :: ts1 ++ close :: ts2) e
  (** [parse_unary] *)
  | p_unary t op ts e :
      kind t ∈ [Plus; Minus; Not] -> operator_from_token (kind t) = Some op -> phrase LUnary ts e ->
      phrase LUnary (t :: ts) (Ast.UnaryOperator (Ast.mkNode (i32 (start t)) (end_of e)) op e)
  | p_typeof t ts e :
      named "typeof" (Some t) = true -> phrase LUnary ts e ->
      phrase LUnary (t :: ts) (Ast.UnaryOperator (Ast.mkNode (i32 (start t)) (end_of e)) Ast.Typeof e)
  | p_operand ts e :
      named "typeof" (head ts) = false -> has_kind [Plus; Minus; Not] (head ts) = false -> phrase LPrimary ts e -> phrase LUnary ts e
  (** [parse_product], [parse_sum], [parse_logical_and], [parse_logical_or] *)
  | p_chain l ts1 e1 ts2 e : is_chain l = true -> phrase (below l) ts1 e1 -> more l e1 ts2 e -> phrase l (ts1 ++ ts2) e
  (** [parse_relational] *)
  | p_sum ts e : phrase LSum ts e -> phrase LRelational ts e
  | p_relation ts1 e1 t op ts2 e2 :
      phrase LSum ts1 e1 -> is_relational (Some t) = true -> relational_operator t = Some op -> phrase LSum ts2 e2 ->
      phrase LRelational (ts1 ++ t :: ts2) (Ast.BinaryOperator (span e1 e2) op e1 e2)
  (** [parse_expression_internal] *)
  | p_or ts e : phrase LOr ts e -> phrase LExpression ts e
  | p_assign ts1 e1 t ts2 e2 :
      allow_assign = true -> phrase LOr ts1 e1 -> is_lvalue e1 = true -> kind t = Assign -> phrase LOr ts2 e2 ->
      phrase LExpression (ts1 ++ t :: ts2) (Ast.Assign (span e1 e2) e1 e2)
  | p_ternary ts1 e1 q ts2 e2 c ts3 e3 :
      phrase LOr ts1 e1 -> kind q = QMark -> phrase LExpression ts2 e2 -> kind c = Colon -> phrase LExpression ts3 e3 ->
      phrase LExpression (ts1 ++ q :: ts2 ++ c :: ts3) (Ast.Ternary (span e1 e3) e1 e2 e3)
(** Operators and operands behind [e]. *)
with more : Level -> Ast.Expression -> list Token -> Ast.Expression -> Prop :=
  | m_end l e : more l e [] e
  | m_operator l e t make ts1 e1 ts2 e2 :
      kind t ∈ operators l -> combine l t = Some make -> phrase (below l) ts1 e1 ->
      more l (make (span e e1) e e1) ts2 e2 -> more l e (t :: ts1 ++ ts2) e2
(** [parse_start_node] *)
with start_phrase : list Token -> Ast.Expression -> Prop :=
  | s_literal t e : literal_of t e -> start_phrase [t] e
  | s_variable t x : plain_name t x -> start_phrase [t] (variable_of t)
  | s_constant t x dot k c :
      plain_name t x -> is_dollar x = true -> x <> "$"%string -> kind dot = Dot -> kind k = Identifier ->
      callee (find_constant x (token_name k)) (find_async_constant x (token_name k)) = Some c ->
      start_phrase [t; dot; k] (Ast.ConstantVal (Ast.mkNode (i32 (start t)) (i32 (end_ k))) c)
  | s_call t x open ts args close c :
      plain_name t x -> kind open = LParen -> elements ts args -> kind close = RParen ->
      callee (find_func x) (find_async_func x) = Some c ->
      start_phrase (t :: open :: ts ++ [close]) (Ast.FunctionCall (call_node (i32 (start t)) (i32 (end_ t)) args) c args)
  | s_paren open ts e close :
      kind open = LParen -> phrase LExpression ts e -> kind close = RParen -> start_phrase (open :: ts ++ [close]) e
  | s_list open ts values close :
      kind open = LSquare -> elements ts values -> kind close = RSquare ->
      start_phrase (open :: ts ++ [close]) (Ast.InlineList (Ast.mkNode (i32 (start open)) (i32 (end_ close))) values)
  | s_object open ts l close :
      kind open = LCurly -> entries [] ts l -> kind close = RCurly ->
      start_phrase (open :: ts ++ [close]) (Ast.InlineObject (Ast.mkNode (i32 (start open)) (i32 (end_ close))) l)
(** Properties and indexes behind [e]. *)
with tails : Ast.Expression -> list Token -> Ast.Expression -> Prop :=
  | t_end e : tails e [] e
  | t_property e dot t ts e' :
      kind dot = Dot -> kind t = Identifier ->
      tails (Ast.PropertyReference (Ast.mkNode (start_of e) (i32 (end_ t))) (token_name t) e) ts e' ->
      tails e (dot :: t :: ts) e'
  | t_index e open ts1 i close ts2 e' :
      kind open = LSquare -> phrase LExpression ts1 i -> kind close = RSquare ->
      tails (Ast.Indexer (Ast.mkNode (start_of e) (i32 (end_ close))) e i) ts2 e' ->
      tails e (open :: ts1 ++ close :: ts2) e'
(** Elements of lists and arguments of calls, with commas between them and at most
    one behind the last. *)
with elements : list Token -> list Ast.Expression -> Prop :=
  | el_end : elements [] []
  | el_last ts e : element ts e -> elements ts [e]
  | el_comma ts e comma ts' es : element ts e -> kind comma = Comma -> elements ts' es -> elements (ts ++ comma :: ts') (e :: es)
with element : list Token -> Ast.Expression -> Prop :=
  | el_plain ts e : phrase LExpression ts e -> element ts e
  | el_spread t ts e :
      kind t = Expand -> phrase LExpression ts e ->
      element (t :: ts) (Ast.ExpandArrArg (Ast.mkNode (i32 (start t)) (end_of e)) e)
(** Entries of an object whose keys so far are the given ones. *)
with entries : list string -> list Token -> list Ast.Entry -> Prop :=
  | en_end keys : entries keys [] []
  | en_last keys ts e keys' : entry keys ts e keys' -> entries keys ts [e]
  | en_comma keys ts e keys' comma ts' es :
      entry keys ts e keys' -> kind comma = Comma -> entries keys' ts' es -> entries keys (ts ++ comma :: ts') (e :: es)
with entry : list string -> list Token -> Ast.Entry -> list string -> Prop :=
  | en_name keys t :
      kind t = Identifier -> token_name t ∉ keys ->
      entry keys [t] (Ast.StringKey (token_name t) (variable_of t)) (token_name t :: keys)
  | en_key keys t k colon ts v :
      key_of t k -> kind colon = Colon -> phrase LExpression ts v -> k ∉ keys ->
      entry keys (t :: colon :: ts) (Ast.StringKey k v) (k :: keys)
  | en_computed keys open ts1 k close colon ts2 v :
      kind open = LSquare -> phrase LExpression ts1 k -> kind close = RSquare -> kind colon = Colon -> phrase LExpression ts2 v ->
      entry keys (open :: ts1 ++ close :: colon :: ts2) (Ast.ExpressionKey k v) keys
  | en_spread keys t ts v :
      kind t = Expand -> phrase LExpression ts v ->
      entry keys (t :: ts) (Ast.ExpandKey (Ast.ExpandArrArg (Ast.mkNode (i32 (start t)) (end_of v)) v)) keys.

Scheme phrase_mut := Minimality for phrase Sort Prop
with more_mut := Minimality for more Sort Prop
with start_mut := Minimality for start_phrase Sort Prop
with tails_mut := Minimality for tails Sort Prop
with elements_mut := Minimality for elements Sort Prop
with element_mut := Minimality for element Sort Prop
with entries_mut := Minimality for entries Sort Prop
with entry_mut := Minimality for entry Sort Prop.
Combined Scheme phrases_mut from phrase_mut, more_mut, start_mut, tails_mut, elements_mut, element_mut, entries_mut, entry_mut.

Local Notation reads m ts a r := (reads_to directives m ts a r directives).
Local Notation misses m l := (misses_in directives m l).

(** ** What may follow *)

Lemma stops_below l r : stops l r = true -> stops (below l) r = true.
Proof.
  destruct r as [|t r]; [done|]. unfold stops, goes_on.
  destruct l; cbn [below]; rewrite ?negb_true_iff, ?orb_false_iff; tauto.
Qed.

Lemma stops_operator l t r : is_chain l = true -> kind t ∈ operators l -> stops (below l) (t :: r) = true.
Proof.
  intros Hl Hk. unfold stops, goes_on, is_relational, is_numeric_relational_operator, named, has_kind.
  destruct l; try discriminate Hl; cbn [operators below] in *; rewrite !elem_of_cons, elem_of_nil in Hk;
    repeat destruct Hk as [Hk|Hk]; try (destruct Hk; fail); rewrite Hk; reflexivity.
Qed.

Lemma stops_operators l r : is_chain l = true -> stops l r = true -> has_kind (operators l) (head r) = false.
Proof.
  intros Hl. destruct r as [|t r]; [done|]. unfold stops, goes_on. cbn [head].
  destruct l; try discriminate Hl; cbn [operators]; rewrite ?negb_true_iff, ?orb_false_iff; tauto.
Qed.

Lemma stops_kind l t k r : kind t = k -> k <> Identifier ->
  bool_decide (k ∈ [Dot; LSquare; LParen; Star; Div; Mod; Plus; Minus; GT; GE; LT; LE; Eq; Ne; Seq; Sne; Tilde; SymbolicAnd; SymbolicOr; Assign; QMark]) = false ->
  stops l (t :: r) = true.
Proof.
  intros Hk Hi Hn. apply bool_decide_eq_false in Hn. rewrite !elem_of_cons, elem_of_nil in Hn.
  unfold stops, goes_on, is_relational, is_numeric_relational_operator. rewrite (named_kind t k "in" Hk Hi). unfold has_kind. rewrite Hk.
  rewrite !bool_decide_false by (rewrite !elem_of_cons, elem_of_nil; naive_solver). by destruct l.
Qed.

Lemma stops_primary l r : stops l r = true -> stops LPrimary r = true.
Proof.
  destruct r as [|t r]; [done|]. unfold stops, goes_on.
  destruct l; rewrite ?negb_true_iff, ?orb_false_iff; tauto.
Qed.

Lemma stops_first k r : stops LPrimary r = true -> k ∈ [Dot; LSquare; LParen] -> first_is k r = false.
Proof.
  destruct r as [|t r]; [done|]. unfold stops, goes_on, first_is, has_kind. cbn [head]. rewrite negb_true_iff, !bool_decide_eq_false.
  intros Hn Hk Ht%list_elem_of_singleton. by rewrite Ht in Hn.
Qed.

(** ** The functions of the levels *)

(** The function for a level; [n] is the fuel of the operators in front. *)
Definition parser (l : Level) (fuel n : nat) : M Ast.Expression :=
  let expr := expression allow_assign fuel in
  match l with
  | LPrimary => parse_primary expr
  | LUnary => unary_loop expr n
  | LProduct => parse_product expr
  | LSum => parse_sum expr
  | LRelational => parse_relational expr
  | LAnd => parse_logical_and expr
  | LOr => parse_logical_or expr
  | LExpression => parse_expression_internal allow_assign expr
  end.

(** The function for the operands of a level. *)
Definition operand (l : Level) (fuel : nat) : M Ast.Expression :=
  let expr := expression allow_assign fuel in
  match l with
  | LProduct => parse_unary expr
  | LSum => parse_product expr
  | LAnd => parse_relational expr
  | _ => parse_logical_and expr
  end.

Definition start_kinds : list TokenKind :=
  [LiteralInt; LiteralLong; LiteralHexInt; LiteralHexLong; LiteralString; LiteralReal; LiteralRealFloat; Identifier; LParen;
   LSquare; LCurly; Plus; Minus; Not].

Definition starts (ts : list Token) : bool := has_kind start_kinds (head ts).

Lemma starts_app ts1 ts2 : starts ts1 = true -> starts (ts1 ++ ts2) = true.
Proof. by destruct ts1. Qed.

Lemma starts_not ts r k : starts ts = true -> bool_decide (k ∈ start_kinds) = false -> has_kind [k] (head (ts ++ r)) = false.
Proof.
  unfold starts, has_kind. destruct ts as [|t ts]; [done|]. cbn [app head]. rewrite bool_decide_eq_true, !bool_decide_eq_false.
  intros H1 H2 H3%list_elem_of_singleton. by rewrite H3 in H1.
Qed.

Lemma starts_length ts : starts ts = true -> (1 <= length ts)%nat.
Proof. destruct ts; [done|cbn; lia]. Qed.

(** What the induction shows of the phrases of each kind. *)
Definition phrase_read (l : Level) (ts : list Token) (e : Ast.Expression) : Prop :=
  starts ts = true /\
  forall fuel n r, (length ts <= S fuel)%nat -> (length ts <= n)%nat -> stops l r = true -> reads (parser l fuel n) ts e r.

Definition first_operator (l : Level) (ts : list Token) : bool :=
  match ts with t :: _ => bool_decide (kind t ∈ operators l) | [] => true end.

Definition more_read (l : Level) (e : Ast.Expression) (ts : list Token) (e' : Ast.Expression) : Prop :=
  is_chain l = true ->
  first_operator l ts = true /\
  forall fuel k r, (length ts <= S fuel)%nat -> (length ts < k)%nat -> stops l r = true ->
    reads (operator_loop (operators l) (combine l) (operand l fuel) k e) ts e' r.

Definition start_read (ts : list Token) (e : Ast.Expression) : Prop :=
  starts ts = true /\
  forall fuel r, (length ts <= S fuel)%nat -> first_is LParen r = false -> (dollar_variable e = true -> first_is Dot r = false) ->
    reads (parse_start_node (expression allow_assign fuel)) ts e r.

(** With the properties behind it, a name is not the start of a call. *)
Definition tails_read (e : Ast.Expression) (ts : list Token) (e' : Ast.Expression) : Prop :=
  match ts with t :: _ => kind t ∈ [Dot; LSquare] | [] => True end /\
  (forall fuel k r, (length ts <= S fuel)%nat -> (length ts < k)%nat -> stops LPrimary r = true ->
    reads (nodes_loop (expression allow_assign fuel) k e) ts e' r) /\
  (forall fuel saved node prefix k name dots r rp, (length ts < k)%nat -> stops LPrimary r = true ->
    call_loop (expression allow_assign fuel) saved node prefix k name dots (Parser.mkState (ts ++ r) directives rp) =
    Err (mkError EmptyString 0) (Parser.mkState saved directives rp)).

Definition elements_read (ts : list Token) (es : list Ast.Expression) : Prop :=
  match ts with t :: _ => kind t ∈ Expand :: start_kinds | [] => es = [] end /\ forall fuel close k values r,
  (length ts <= fuel)%nat -> (length ts < k)%nat -> kind close ∈ [RParen; RSquare] ->
  reads (elements_loop (expression allow_assign fuel) (kind close) k values) ts (values ++ es) (close :: r).

Definition element_read (ts : list Token) (e : Ast.Expression) : Prop :=
  match ts with t :: _ => kind t ∈ Expand :: start_kinds | [] => False end /\
  forall fuel r, (length ts <= fuel)%nat -> stops LExpression r = true -> reads (parse_element (expression allow_assign fuel)) ts e r.

Definition entries_read (keys : list string) (ts : list Token) (l : list Ast.Entry) : Prop :=
  match ts with t :: _ => kind t ∈ [Identifier; LiteralString; LSquare; Expand] | [] => l = [] end /\ forall fuel close k acc r,
  (length ts <= fuel)%nat -> (length ts < k)%nat -> kind close = RCurly ->
  reads (entries_loop (expression allow_assign fuel) k keys acc) ts (acc ++ l) (close :: r).

(** A name that is its own value takes the comma with it. *)
Definition entry_read (keys : list string) (ts : list Token) (e : Ast.Entry) (keys' : list string) : Prop := exists t ts',
  ts = t :: ts' /\ kind t ∈ [Identifier; LiteralString; LSquare; Expand] /\
  (ts' = [] /\ kind t = Identifier /\ token_name t ∉ keys /\ e = Ast.StringKey (token_name t) (variable_of t) /\
     keys' = token_name t :: keys \/
   forall fuel r, (length ts <= S fuel)%nat -> stops LExpression r = true ->
     reads (parse_entry (expression allow_assign fuel) t keys) ts (e, keys', false) r).

(** ** Expressions in brackets *)

Lemma nested ts e fuel r : phrase_read LExpression ts e -> (length ts <= fuel)%nat -> stops LExpression r = true ->
  reads (expression allow_assign fuel) ts e r.
Proof.
  intros [Hs H] Hl Hr. destruct fuel as [|fuel]; [apply starts_length in Hs; lia|]. exact (H fuel (length ts) r Hl (le_n _) Hr).
Qed.

(** ** Elements and entries *)

Lemma stops_close l t r : kind t ∈ [RParen; RSquare; RCurly; Comma; Colon; Semicolon] -> stops l (t :: r) = true.
Proof.
  rewrite !elem_of_cons, elem_of_nil. intros Hk.
  repeat destruct Hk as [Hk|Hk]; try (destruct Hk; fail); by apply (stops_kind l t _ r Hk).
Qed.

Lemma read_plain ts e : phrase_read LExpression ts e -> element_read ts e.
Proof.
  intros H. pose proof H as [Hs _]. split.
  - unfold starts, has_kind in Hs. destruct ts as [|t ts]; [done|]. cbn [head] in *. apply bool_decide_eq_true in Hs.
    by apply list_elem_of_further.
  - intros fuel r Hl Hr. unfold parse_element. apply reads_peek. pose proof (starts_not _ r Expand Hs eq_refl) as He.
    destruct ts as [|t ts]; [done|]. cbn [app head] in *. rewrite He. by apply nested.
Qed.

Lemma read_spread t ts e : kind t = Expand -> phrase_read LExpression ts e ->
  element_read (t :: ts) (Ast.ExpandArrArg (Ast.mkNode (i32 (start t)) (end_of e)) e).
Proof.
  intros Hk H. split; [rewrite Hk; by apply list_elem_of_here|]. intros fuel r Hl Hr. cbn [length] in Hl. unfold parse_element. apply reads_peek.
  cbn [app head]. kinds. apply reads_next. eapply reads_then; [apply nested; [done|lia|done]|]. apply reads_ret.
Qed.

(** The first token of an element is not one that closes. *)
Lemma element_first ts e r k : element_read ts e -> k ∈ [RParen; RSquare] -> exists t ts', ts ++ r = t :: ts' /\ has_kind [k] (Some t) = false.
Proof.
  intros [Hin _] Hk. destruct ts as [|t ts]; [done|]. exists t, (ts ++ r). split; [done|]. unfold has_kind. apply bool_decide_eq_false.
  intros E%list_elem_of_singleton. rewrite E in Hin. rewrite !elem_of_cons, elem_of_nil in Hk.
  destruct Hk as [->|[->|[]]]; apply (bool_decide_eq_true_2 _) in Hin; discriminate Hin.
Qed.

Lemma read_el_end : elements_read [] [].
Proof.
  split; [done|].
  intros fuel close k values r _ Hk Hc. destruct k as [|k]; [cbn in Hk; lia|]. cbn [elements_loop]. rewrite app_nil_r.
  apply reads_peek. cbn [app head]. rewrite (has_kind_of close _ [kind close] true eq_refl) by (by apply bool_decide_eq_true_2, list_elem_of_here).
  apply reads_ret.
Qed.

Lemma close_not_comma close : kind close ∈ [RParen; RSquare] -> has_kind [Comma] (Some close) = false.
Proof.
  rewrite !elem_of_cons, elem_of_nil. intros H. unfold has_kind. apply bool_decide_eq_false. intros E%list_elem_of_singleton.
  rewrite E in H. naive_solver.
Qed.

Lemma read_el_last ts e : element_read ts e -> elements_read ts [e].
Proof.
  intros H. split; [by destruct H as [H _], ts|]. intros fuel close k values r Hl Hk Hc. destruct k as [|k]; [lia|]. cbn [elements_loop]. apply reads_peek.
  destruct (element_first ts e (close :: r) (kind close) H Hc) as (t & ts' & E & Ht). rewrite E. cbn [head]. rewrite Ht.
  destruct H as [_ H]. eapply reads_then.
  - apply H; [done|]. apply stops_close. rewrite !elem_of_cons, elem_of_nil in *. naive_solver.
  - apply reads_accept_none; [by apply close_not_comma|]. apply reads_ret.
Qed.

Lemma read_el_comma ts e comma ts' es : element_read ts e -> kind comma = Comma -> elements_read ts' es ->
  elements_read (ts ++ comma :: ts') (e :: es).
Proof.
  intros H Hcomma [_ Hrest]. split; [by destruct H as [H _], ts|]. intros fuel close k values r Hl Hk Hc. rewrite length_app in Hl, Hk. cbn [length] in Hl, Hk.
  destruct k as [|k]; [lia|]. cbn [elements_loop]. apply reads_peek. rewrite <-app_assoc.
  destruct (element_first ts e ((comma :: ts') ++ close :: r) (kind close) H Hc) as (t & ts2 & E & Ht). rewrite E. cbn [head]. rewrite Ht.
  destruct H as [_ H]. eapply reads_bind.
  - apply H; [lia|]. apply stops_close. rewrite Hcomma. by apply (bool_decide_eq_true_1 _).
  - apply reads_accept; [done|]. replace (values ++ e :: es) with ((values ++ [e]) ++ es) by (by rewrite <-app_assoc).
    apply Hrest; [lia|lia|done].
Qed.

Lemma read_en_name keys t : kind t = Identifier -> token_name t ∉ keys ->
  entry_read keys [t] (Ast.StringKey (token_name t) (variable_of t)) (token_name t :: keys).
Proof.
  intros Hk Hn. exists t, []. split; [done|]. rewrite Hk. split; [by apply (bool_decide_eq_true_1 _)|]. left. auto.
Qed.

Lemma read_en_key keys t k colon ts v : key_of t k -> kind colon = Colon -> phrase_read LExpression ts v -> k ∉ keys ->
  entry_read keys (t :: colon :: ts) (Ast.StringKey k v) (k :: keys).
Proof.
  intros Hkey Hc Hv Hn. exists t, (colon :: ts). split; [done|].
  assert (kind t ∈ [Identifier; LiteralString; LSquare; Expand]) as Hin
    by (destruct Hkey as [[-> _]|[-> _]]; by apply (bool_decide_eq_true_1 _)).
  split; [done|]. right. intros fuel r Hl Hr. cbn [length] in Hl.
  assert (forall (f : string -> M (Ast.Entry * list string * bool)),
    (forall name, name = k -> reads (f name) (colon :: ts) (Ast.StringKey k v, k :: keys, false) r) ->
    reads ((if has_kind [LiteralString] (Some t)
            then value ← lift (parse_string_literal (text t) (start t)); next;; mret (string_of_bytes value)
            else next;; mret (token_name t)) ≫= f) (t :: colon :: ts) (Ast.StringKey k v, k :: keys, false) r) as Hname.
  { intros f Hf. eapply (reads_bind _ _ _ [t] (colon :: ts) k); [|by apply Hf].
    destruct Hkey as [[Hk ->]|(Hk & bytes & Hp & ->)]; kinds; [apply reads_next, reads_ret|]. rewrite Hp. apply reads_lift, reads_next, reads_ret. }
  unfold parse_entry.
  assert (has_kind [Expand] (Some t) = false /\ has_kind [LSquare] (Some t) = false /\ has_kind [LiteralString; Identifier] (Some t) = true)
    as (E1 & E2 & E3) by (destruct Hkey as [[Hk _]|[Hk _]]; kinds; done).
  rewrite E1, E2, E3. apply Hname. intros name ->. apply reads_peek. cbn [app head]. kinds. rewrite andb_false_r.
  apply reads_eat; [done|]. eapply reads_then; [apply nested; [done|lia|done]|]. rewrite bool_decide_false by done. apply reads_ret.
Qed.

Lemma read_en_computed keys open ts1 k close colon ts2 v :
  kind open = LSquare -> phrase_read LExpression ts1 k -> kind close = RSquare -> kind colon = Colon -> phrase_read LExpression ts2 v ->
  entry_read keys (open :: ts1 ++ close :: colon :: ts2) (Ast.ExpressionKey k v) keys.
Proof.
  intros Ho Hk Hcl Hco Hv. exists open, (ts1 ++ close :: colon :: ts2). split; [done|]. rewrite Ho.
  split; [by apply (bool_decide_eq_true_1 _)|]. right. intros fuel r Hl Hr. cbn [length] in Hl. rewrite length_app in Hl. cbn [length] in Hl.
  unfold parse_entry. kinds. apply reads_next. eapply reads_bind.
  - apply nested; [done|lia|]. apply stops_close. rewrite Hcl. by apply (bool_decide_eq_true_1 _).
  - apply reads_eat; [done|]. apply reads_eat; [done|]. eapply reads_then; [apply nested; [done|lia|done]|]. apply reads_ret.
Qed.

Lemma read_en_spread keys t ts v : kind t = Expand -> phrase_read LExpression ts v ->
  entry_read keys (t :: ts) (Ast.ExpandKey (Ast.ExpandArrArg (Ast.mkNode (i32 (start t)) (end_of v)) v)) keys.
Proof.
  intros Hk Hv. exists t, ts. split; [done|]. rewrite Hk. split; [by apply (bool_decide_eq_true_1 _)|]. right. intros fuel r Hl Hr.
  cbn [length] in Hl. unfold parse_entry. kinds. apply reads_next. eapply reads_then; [apply nested; [done|lia|done]|]. apply reads_ret.
Qed.

Lemma read_en_end keys : entries_read keys [] [].
Proof.
  split; [done|].
  intros fuel close k acc r _ Hk Hc. destruct k as [|k]; [cbn in Hk; lia|]. cbn [entries_loop]. rewrite app_nil_r.
  apply reads_peek. cbn [app head]. kinds. apply reads_ret.
Qed.

(** A name that is its own value, before a comma and before the end. *)
Lemma name_entry fuel keys t ts r : kind t = Identifier -> token_name t ∉ keys ->
  (exists comma, ts = [comma] /\ kind comma = Comma) \/ (ts = [] /\ first_is RCurly r = true) ->
  reads (parse_entry (expression allow_assign fuel) t keys) (t :: ts)
    (Ast.StringKey (token_name t) (variable_of t), token_name t :: keys, true) r.
Proof.
  intros Hk Hn Hts. unfold parse_entry. kinds. eapply (reads_bind _ _ _ [t] ts (token_name t)); [apply reads_next, reads_ret|].
  apply reads_peek. rewrite (bool_decide_false (token_name t ∈ keys)) by done. destruct Hts as [(comma & -> & Hc)|[-> Hr]].
  - cbn [app head]. kinds. apply reads_accept; [done|]. apply reads_ret.
  - cbn [app]. unfold first_is in Hr. destruct r as [|close r]; [done|]. cbn [head] in *.
    apply bool_decide_eq_true, list_elem_of_singleton in Hr. kinds. apply reads_accept_none; [cbn [app head]; by kinds|]. apply reads_ret.
Qed.

Lemma entry_not_close t k r : kind t ∈ [Identifier; LiteralString; LSquare; Expand] -> k = RCurly -> has_kind [k] (head (t :: r)) = false.
Proof.
  intros Hk ->. cbn [head]. unfold has_kind. apply bool_decide_eq_false. intros E%list_elem_of_singleton. rewrite E in Hk.
  apply (bool_decide_eq_true_2 _) in Hk. discriminate Hk.
Qed.

Lemma read_en_last keys ts e keys' : entry_read keys ts e keys' -> entries_read keys ts [e].
Proof.
  intros (t & ts' & -> & Hk & H). split; [done|]. intros fuel close k acc r Hl Hlk Hc. cbn [length] in Hlk. destruct k as [|[|k]]; [lia..|].
  cbn [entries_loop]. apply reads_peek. cbn [app]. rewrite (entry_not_close t RCurly _ Hk eq_refl). cbn [head].
  destruct H as [(-> & Hi & Hn & -> & ->)|H].
  - eapply reads_then; [apply name_entry; [done|done|right]|]; [split; [done|]; unfold first_is; cbn [head]; by kinds|].
    cbv beta iota. apply reads_peek. cbn [app head]. kinds. apply reads_ret.
  - eapply reads_then; [apply H; [cbn [length] in *; lia|]|]; [apply stops_close; rewrite Hc; by apply (bool_decide_eq_true_1 _)|].
    cbv beta iota. apply reads_accept_none; [cbn [app head]; by kinds|]. apply reads_ret.
Qed.

Lemma read_en_comma keys ts e keys' comma ts' es : entry_read keys ts e keys' -> kind comma = Comma -> entries_read keys' ts' es ->
  entries_read keys (ts ++ comma :: ts') (e :: es).
Proof.
  intros (t & ts0 & -> & Hk & H) Hcomma [_ Hrest]. split; [done|]. intros fuel close k acc r Hl Hlk Hc. rewrite length_app in Hl, Hlk. cbn [length] in Hl, Hlk.
  destruct k as [|k]; [lia|]. cbn [entries_loop]. apply reads_peek. cbn [app]. rewrite (entry_not_close t RCurly _ Hk eq_refl). cbn [head].
  replace (acc ++ e :: es) with ((acc ++ [e]) ++ es) by (by rewrite <-app_assoc).
  destruct H as [(-> & Hi & Hn & -> & ->)|H].
  - eapply (reads_bind _ _ _ [t; comma] ts' (Ast.StringKey (token_name t) (variable_of t), token_name t :: keys, true)).
    + apply name_entry; [done|done|left; by exists comma].
    + cbv beta iota. apply Hrest; [lia|cbn [length] in *; lia|done].
  - change (t :: ts0 ++ comma :: ts') with ((t :: ts0) ++ comma :: ts'). eapply (reads_bind _ _ _ (t :: ts0) (comma :: ts') (e, keys', false)).
    + apply H; [cbn [length]; lia|]. apply stops_close. rewrite Hcomma. by apply (bool_decide_eq_true_1 _).
    + cbv beta iota. apply reads_accept; [done|]. apply Hrest; [lia|lia|done].
Qed.

(** ** The starts of expressions *)

Lemma misses_literal t l : kind t ∈ [LParen; LSquare; LCurly] \/ (exists x, plain_name t x) -> misses parse_literal (t :: l).
Proof.
  intros Ht rp. eexists. unfold parse_literal, parse_optional_literal, mbind, M_bind, peek. cbn [rest head].
  destruct Ht as [Hk|(x & Hk & <- & _ & Hx)].
  - rewrite !elem_of_cons, elem_of_nil in Hk. destruct Hk as [Hk|[Hk|[Hk|[]]]]; kinds; reflexivity.
  - kinds. rewrite !named_identifier by done. rewrite !elem_of_cons, elem_of_nil in Hx.
    rewrite !bool_decide_false by tauto. reflexivity.
Qed.

Lemma misses_list expr t l : kind t ∈ [LParen; LCurly; Identifier] -> misses (parse_inline_list expr) (t :: l).
Proof.
  intros Hk rp. eexists. unfold parse_inline_list, mbind, M_bind, peek. cbn [rest head].
  rewrite !elem_of_cons, elem_of_nil in Hk. destruct Hk as [Hk|[Hk|[Hk|[]]]]; kinds; reflexivity.
Qed.

Lemma misses_object expr t l : kind t ∈ [LParen; Identifier] -> misses (parse_inline_object expr) (t :: l).
Proof.
  intros Hk rp. eexists. unfold parse_inline_object, mbind, M_bind, peek. cbn [rest head].
  rewrite !elem_of_cons, elem_of_nil in Hk. destruct Hk as [Hk|[Hk|[]]]; kinds; reflexivity.
Qed.

Lemma misses_paren expr t l : kind t = Identifier -> misses (parse_paren_expression expr) (t :: l).
Proof. intros Hk rp. eexists. unfold parse_paren_expression, mbind, M_bind, peek. cbn [rest head]. kinds. reflexivity. Qed.

Lemma start_name expr t x ts e r : plain_name t x -> reads (parse_function_or_var expr) (t :: ts) e r ->
  reads (parse_start_node expr) (t :: ts) e r.
Proof.
  intros Ht H. pose proof Ht as (Hk & _). unfold parse_start_node. cbn [app]. apply reads_otherwise; [apply misses_literal; eauto|].
  apply reads_otherwise; [apply misses_list; rewrite Hk; by apply (bool_decide_eq_true_1 _)|].
  apply reads_otherwise; [apply misses_object; rewrite Hk; by apply (bool_decide_eq_true_1 _)|].
  by apply reads_otherwise; [apply misses_paren|].
Qed.

Lemma read_arguments fuel open ts args close r : kind open = LParen -> elements_read ts args -> kind close = RParen -> (length ts <= fuel)%nat ->
  reads (parse_method_args (expression allow_assign fuel)) (open :: ts ++ [close]) args r.
Proof.
  intros Ho [Hh H] Hc Hl. unfold parse_method_args. apply reads_eat; [done|]. destruct ts as [|t ts].
  - subst args. cbn [app]. apply reads_accept; [done|]. apply reads_ret.
  - apply reads_accept_none.
    + cbn [app head]. unfold has_kind. apply bool_decide_eq_false. intros E%list_elem_of_singleton. rewrite E in Hh.
      apply (bool_decide_eq_true_2 _) in Hh. discriminate Hh.
    + eapply reads_bind; [|apply reads_eat; [done|]; apply reads_ret].
      apply reads_looping. rewrite <-Hc. apply (H fuel close _ [] r); [done|rewrite !length_app; cbn [length]; lia|].
      rewrite Hc. by apply (bool_decide_eq_true_1 _).
Qed.

Lemma read_literal t e r : literal_of t e -> reads parse_optional_literal [t] (Some e) r.
Proof.
  intros H. unfold literal_of in H. apply reads_peek. cbn [app head].
  destruct (kind t) eqn:Hk; try (destruct H; fail); kinds.
  all: try (destruct H as (n & l & Hp & ->); rewrite Hp; apply reads_lift, reads_next, reads_ret).
  rewrite !named_identifier by done.
  destruct H as [[Hn ->]|[[Hn ->]|[Hn ->]]]; rewrite Hn; cbn; apply reads_next, reads_ret.
Qed.

Lemma read_s_literal t e : literal_of t e -> start_read [t] e.
Proof.
  intros H. split; [unfold literal_of in H; unfold starts, has_kind; cbn [head]; by destruct (kind t)|]. intros fuel r _ _ _.
  apply reads_first. unfold parse_literal. eapply reads_then; [by apply read_literal|]. apply reads_ret.
Qed.

Lemma read_s_variable t x : plain_name t x -> start_read [t] (variable_of t).
Proof.
  intros Ht. pose proof Ht as (Hk & Hx & _). split; [cbn; unfold has_kind; rewrite Hk; reflexivity|]. intros fuel r _ Hp Hd.
  apply (start_name _ t x [] _ r Ht). unfold parse_function_or_var. eapply reads_name; [done|]. cbv beta iota.
  apply reads_peek. unfold first_is in *. cbn [app]. rewrite Hp. unfold variable_of in *. rewrite Hx in *. cbn [dollar_variable] in Hd.
  destruct (is_dollar x) eqn:Ex; [|apply reads_ret].
  intros rp. unfold accept, position_of, return_to, mark_root_prop, peek, next, mbind, M_bind, mret, M_ret. cbn [app rest].
  destruct (has_kind [Dot] (head r)) eqn:E; [|eexists; reflexivity].
  destruct (bool_decide (x = "$"%string)) eqn:Edollar; [|exfalso; cbn in Hd; specialize (Hd eq_refl); congruence].
  destruct r as [|dot r]; [done|]. cbn [tail head rest with_rest Parser.directive_map Parser.root_props].
  destruct r as [|k r]; cbn [head]; [eexists; reflexivity|].
  destruct (has_kind [Identifier] (Some k)); eexists; reflexivity.
Qed.

Lemma starts_of t k ts : kind t = k -> bool_decide (k ∈ start_kinds) = true -> starts (t :: ts) = true.
Proof. by intros <-. Qed.

Lemma read_s_constant t x dot k c : plain_name t x -> is_dollar x = true -> x <> "$"%string -> kind dot = Dot -> kind k = Identifier ->
  callee (find_constant x (token_name k)) (find_async_constant x (token_name k)) = Some c ->
  start_read [t; dot; k] (Ast.ConstantVal (Ast.mkNode (i32 (start t)) (i32 (end_ k))) c).
Proof.
  intros Ht Hd Hne Hdot Hk Hc. pose proof Ht as (Hkt & _). split; [by apply (starts_of t Identifier)|]. intros fuel r _ _ _.
  apply (start_name _ t x _ _ r Ht). unfold parse_function_or_var. eapply reads_name; [done|]. cbv beta iota.
  apply reads_peek. cbn [app head]. kinds. rewrite Hd. apply reads_position. apply reads_accept; [done|]. apply reads_peek.
  cbn [app head]. kinds. rewrite bool_decide_false by done. apply reads_next. rewrite Hc. apply reads_ret.
Qed.

Lemma read_s_call t x open ts args close c : plain_name t x -> kind open = LParen -> elements_read ts args -> kind close = RParen ->
  callee (find_func x) (find_async_func x) = Some c ->
  start_read (t :: open :: ts ++ [close]) (Ast.FunctionCall (call_node (i32 (start t)) (i32 (end_ t)) args) c args).
Proof.
  intros Ht Ho Ha Hcl Hc. pose proof Ht as (Hkt & _). split; [by apply (starts_of t Identifier)|]. intros fuel r Hl _ _.
  cbn [length] in Hl. rewrite length_app in Hl. cbn [length] in Hl.
  apply (start_name _ t x _ _ r Ht). unfold parse_function_or_var. eapply reads_name; [done|]. cbv beta iota.
  apply reads_peek. cbn [app head]. kinds. eapply reads_then; [apply read_arguments; [done|done|done|lia]|]. rewrite Hc. apply reads_ret.
Qed.

Lemma stops_kinds l t k r : kind t = k -> k ∈ [RParen; RSquare; RCurly; Comma; Colon; Semicolon] -> stops l (t :: r) = true.
Proof. intros <-. apply stops_close. Qed.

Lemma read_s_paren open ts e close : kind open = LParen -> phrase_read LExpression ts e -> kind close = RParen ->
  start_read (open :: ts ++ [close]) e.
Proof.
  intros Ho H Hc. split; [by apply (starts_of open LParen)|]. intros fuel r Hl _ _. cbn [length] in Hl. rewrite length_app in Hl. cbn [length] in Hl.
  unfold parse_start_node. cbn [app].
  apply reads_otherwise; [apply misses_literal; left; rewrite Ho; by apply (bool_decide_eq_true_1 _)|].
  apply reads_otherwise; [apply misses_list; rewrite Ho; by apply (bool_decide_eq_true_1 _)|].
  apply reads_otherwise; [apply misses_object; rewrite Ho; by apply (bool_decide_eq_true_1 _)|].
  apply reads_first. unfold parse_paren_expression. apply reads_peek. cbn [app head]. kinds. apply reads_next.
  eapply reads_bind; [apply nested; [done|lia|eapply (stops_kinds _ _ RParen); [done|by apply (bool_decide_eq_true_1 _)]]|].
  apply reads_eat; [done|]. apply reads_ret.
Qed.

Lemma read_s_list open ts values close : kind open = LSquare -> elements_read ts values -> kind close = RSquare ->
  start_read (open :: ts ++ [close]) (Ast.InlineList (Ast.mkNode (i32 (start open)) (i32 (end_ close))) values).
Proof.
  intros Ho [Hh H] Hc. split; [by apply (starts_of open LSquare)|]. intros fuel r Hl _ _. cbn [length] in Hl. rewrite length_app in Hl. cbn [length] in Hl.
  unfold parse_start_node. cbn [app].
  apply reads_otherwise; [apply misses_literal; left; rewrite Ho; by apply (bool_decide_eq_true_1 _)|].
  apply reads_first. unfold parse_inline_list. apply reads_peek. cbn [app head]. kinds. apply reads_next. destruct ts as [|t ts].
  - subst values. apply reads_accept; [done|]. apply reads_ret.
  - apply reads_accept_none.
    + cbn [app head]. unfold has_kind. apply bool_decide_eq_false. intros E%list_elem_of_singleton. rewrite E in Hh.
      apply (bool_decide_eq_true_2 _) in Hh. discriminate Hh.
    + eapply reads_bind; [|apply reads_eat; [done|]; apply reads_ret].
      apply reads_looping. rewrite <-Hc. apply (H fuel close _ [] r); [lia|rewrite !length_app; cbn [length]; lia|].
      rewrite Hc. by apply (bool_decide_eq_true_1 _).
Qed.

Lemma read_s_object open ts l close : kind open = LCurly -> entries_read [] ts l -> kind close = RCurly ->
  start_read (open :: ts ++ [close]) (Ast.InlineObject (Ast.mkNode (i32 (start open)) (i32 (end_ close))) l).
Proof.
  intros Ho [Hh H] Hc. split; [by apply (starts_of open LCurly)|]. intros fuel r Hl _ _. cbn [length] in Hl. rewrite length_app in Hl. cbn [length] in Hl.
  unfold parse_start_node. cbn [app].
  apply reads_otherwise; [apply misses_literal; left; rewrite Ho; by apply (bool_decide_eq_true_1 _)|].
  apply reads_otherwise; [apply misses_list; rewrite Ho; by apply (bool_decide_eq_true_1 _)|].
  apply reads_first. unfold parse_inline_object. apply reads_peek. cbn [app head]. kinds. apply reads_next. destruct ts as [|t ts].
  - subst l. apply reads_accept; [done|]. apply reads_ret.
  - apply reads_accept_none; [by apply (entry_not_close t RCurly)|].
    eapply reads_bind; [|apply reads_eat; [done|]; apply reads_ret].
    apply reads_looping, (H fuel close _ [] r); [lia|rewrite !length_app; cbn [length]; lia|done].
Qed.

(** ** Properties, indexes and calls *)

Lemma stops_no_kind k r : stops LPrimary r = true -> bool_decide (k ∈ [Dot; LSquare; LParen]) = true -> has_kind [k] (head r) = false.
Proof. intros Hr Hk. apply (stops_first k r Hr). by apply bool_decide_eq_true in Hk. Qed.

Lemma read_t_end e : tails_read e [] e.
Proof.
  split; [done|]. split.
  - intros fuel k r _ Hk Hr. destruct k as [|k]; [cbn in Hk; lia|]. cbn [nodes_loop]. apply reads_peek. cbn [app].
    assert (has_kind [Dot; LSquare] (head r) = false) as ->; [|apply reads_ret].
    destruct r as [|t r]; [done|]. unfold stops, goes_on in Hr. apply negb_true_iff in Hr. revert Hr. unfold has_kind. cbn [head].
    rewrite !bool_decide_eq_false, !elem_of_cons. tauto.
  - intros fuel saved node prefix k name dots r rp Hk Hr. destruct k as [|k]; [cbn in Hk; lia|]. cbn [call_loop].
    unfold accept, peek, mbind, M_bind. cbn [app rest]. rewrite (stops_no_kind Dot r Hr eq_refl). reflexivity.
Qed.

(** What is behind the properties is not the start of arguments. *)
Lemma tails_no_paren e ts e' r : tails_read e ts e' -> stops LPrimary r = true -> has_kind [LParen] (head (ts ++ r)) = false.
Proof.
  intros [Hh _] Hr. destruct ts as [|t ts]; [by apply stops_no_kind|]. cbn [app head]. unfold has_kind. apply bool_decide_eq_false.
  intros E%list_elem_of_singleton. rewrite E in Hh. apply (bool_decide_eq_true_2 _) in Hh. discriminate Hh.
Qed.

Lemma read_t_property e dot t ts e' : kind dot = Dot -> kind t = Identifier ->
  tails_read (Ast.PropertyReference (Ast.mkNode (start_of e) (i32 (end_ t))) (token_name t) e) ts e' -> tails_read e (dot :: t :: ts) e'.
Proof.
  intros Hd Hk H. pose proof H as (_ & H1 & H2). split; [rewrite Hd; by apply (bool_decide_eq_true_1 _)|]. split.
  - intros fuel k r Hl Hlk Hr. cbn [length] in Hl, Hlk. destruct k as [|k]; [lia|]. cbn [nodes_loop]. apply reads_peek. cbn [app head]. kinds.
    eapply (reads_bind _ _ _ [dot; t] ts (Ast.PropertyReference (Ast.mkNode (start_of e) (i32 (end_ t))) (token_name t) e));
      [|apply H1; [lia|lia|done]].
    unfold parse_node, parse_dotted_node, parse_property. apply reads_peek. cbn [app head]. kinds. apply reads_eat; [done|].
    apply reads_peek. cbn [app head]. kinds. apply reads_next, reads_ret.
  - intros fuel saved node prefix k name dots r rp Hlk Hr. cbn [length] in Hlk. destruct k as [|k]; [lia|]. cbn [call_loop].
    unfold accept, peek, next, mbind, M_bind. cbn [app rest head]. kinds. unfold mret, M_ret.
    cbn [with_rest rest tail head]. kinds. cbn [with_rest rest tail head Parser.directive_map Parser.root_props].
    rewrite (tails_no_paren _ _ _ _ H Hr). apply H2; [lia|done].
Qed.

Lemma read_t_index e open ts1 i close ts2 e' : kind open = LSquare -> phrase_read LExpression ts1 i -> kind close = RSquare ->
  tails_read (Ast.Indexer (Ast.mkNode (start_of e) (i32 (end_ close))) e i) ts2 e' -> tails_read e (open :: ts1 ++ close :: ts2) e'.
Proof.
  intros Ho Hi Hc (_ & H1 & H2). split; [rewrite Ho; by apply (bool_decide_eq_true_1 _)|]. split.
  - intros fuel k r Hl Hlk Hr. cbn [length] in Hl, Hlk. rewrite length_app in Hl, Hlk. cbn [length] in Hl, Hlk.
    destruct k as [|k]; [lia|]. cbn [nodes_loop]. apply reads_peek. cbn [app head]. kinds.
    replace (open :: ts1 ++ close :: ts2) with ((open :: ts1 ++ [close]) ++ ts2) by (cbn; by rewrite <-app_assoc).
    eapply reads_bind; [|apply H1; [lia|lia|done]].
    unfold parse_node. apply reads_peek. cbn [app head]. kinds. unfold parse_indexer. apply reads_eat; [done|].
    eapply reads_bind; [apply nested; [done|lia|eapply (stops_kinds _ _ RSquare); [done|by apply (bool_decide_eq_true_1 _)]]|].
    apply reads_eat; [done|]. apply reads_ret.
  - intros fuel saved node prefix k name dots r rp Hlk Hr. destruct k as [|k]; [lia|]. cbn [call_loop].
    unfold accept, peek, mbind, M_bind. cbn [app rest head]. kinds. reflexivity.
Qed.

(** A name with properties behind it stays a name. *)
Lemma called_nothing e ts e' r fuel : tails_read e ts e' -> stops LPrimary r = true ->
  reads (called (expression allow_assign fuel) e) [] e (ts ++ r).
Proof.
  intros (_ & _ & H) Hr rp. exists rp. cbn [app]. unfold called. destruct e as [| |nd name| | | | | | | | | | | |]; try reflexivity.
  destruct (Ast.is_root name); [reflexivity|]. unfold parse_function_call. cbn [rest].
  rewrite H by (done || rewrite length_app; lia). reflexivity.
Qed.

Lemma read_tails fuel e ts e' r : tails_read e ts e' -> (length ts <= S fuel)%nat -> stops LPrimary r = true ->
  reads (looping (fun k => nodes_loop (expression allow_assign fuel) k e)) ts e' r.
Proof. intros (_ & H & _) Hl Hr. apply reads_looping, H; [done|rewrite length_app; lia|done]. Qed.

Lemma read_p_primary ts1 e1 ts2 e : start_read ts1 e1 -> tails_read e1 ts2 e -> (dollar_variable e1 = true -> first_is Dot ts2 = false) ->
  phrase_read LPrimary (ts1 ++ ts2) e.
Proof.
  intros [Hs H1] H2 Hd. split; [by apply starts_app|]. intros fuel n r Hl _ Hr. rewrite length_app in Hl. cbn [parser]. unfold parse_primary.
  eapply reads_bind.
  - apply H1; [lia|by eapply tails_no_paren|]. intros Hdv. unfold first_is. destruct ts2 as [|t ts2]; [by apply stops_no_kind|].
    apply (Hd Hdv).
  - eapply (reads_bind _ _ _ [] ts2 e1); [by eapply called_nothing|]. apply read_tails; [done|lia|done].
Qed.

Lemma read_qualified name dots ts name' f dots' : qualified name dots ts name' f dots' ->
  forall fuel saved node prefix k open ts1 args close c r,
  (length ts < k)%nat -> kind open = LParen -> elements_read ts1 args -> kind close = RParen -> (length ts1 <= fuel)%nat ->
  resolve_call directives prefix name' (token_name f) dots' = Some c ->
  reads (call_loop (expression allow_assign fuel) saved node prefix k name dots) (ts ++ open :: ts1 ++ [close])
    (Ast.FunctionCall (call_node (Ast.start_pos node) (i32 (end_ f)) args) c args) r.
Proof.
  induction 1 as [name dots dot t Hd Hk|name dots dot t ts name' f dots' Hd Hk Hq IH];
    intros fuel saved node prefix k open ts1 args close c r Hlk Ho Ha Hc Hl Hres; cbn [length] in Hlk;
    (destruct k as [|k]; [lia|]); cbn [call_loop]; cbn [app];
    (apply reads_accept; [done|]); apply reads_peek; cbn [app head]; kinds; apply reads_next; apply reads_peek; cbn [app head].
  - kinds. eapply reads_then; [by apply read_arguments|]. change (directives_of ≫= ?g) with (directives_of ≫= g).
    intros rp. exists rp. unfold directives_of, mbind, M_bind. cbn [app Parser.directive_map]. rewrite Hres. reflexivity.
  - assert (exists d ts2, ts = d :: ts2 /\ kind d = Dot) as (d & ts2 & -> & Hd2) by (inversion Hq; eauto). cbn [app head]. kinds.
    apply IH; [lia|done..].
Qed.

Lemma read_p_method t x ts name f dots open ts1 args close c ts2 e :
  plain_name t x -> is_dollar x = false -> qualified x 0 ts name f dots -> kind open = LParen -> elements_read ts1 args ->
  kind close = RParen -> resolve_call directives x name (token_name f) dots = Some c ->
  tails_read (Ast.FunctionCall (call_node (i32 (start t)) (i32 (end_ f)) args) c args) ts2 e ->
  phrase_read LPrimary (t :: ts ++ open :: ts1 ++ close :: ts2) e.
Proof.
  intros Ht Hd Hq Ho Ha Hc Hres H2. pose proof Ht as (Hkt & Hx & _). split; [by apply (starts_of t Identifier)|]. intros fuel n r Hl _ Hr.
  cbn [length] in Hl. rewrite length_app in Hl. cbn [length] in Hl. rewrite length_app in Hl. cbn [length] in Hl.
  cbn [parser]. unfold parse_primary.
  assert (exists d ts', ts = d :: ts' /\ kind d = Dot) as (d & ts' & Ets & Hkd) by (inversion Hq; eauto).
  eapply (reads_bind _ _ _ [t] (ts ++ open :: ts1 ++ close :: ts2) (variable_of t)).
  - apply (read_s_variable t x Ht); [cbn; lia|rewrite Ets; unfold first_is; cbn [app head]; by kinds|].
    unfold variable_of, dollar_variable. by rewrite Hx, Hd.
  - replace (ts ++ open :: ts1 ++ close :: ts2) with ((ts ++ open :: ts1 ++ [close]) ++ ts2)
      by (rewrite <-app_assoc; cbn; by rewrite <-app_assoc).
    eapply reads_bind; [|apply read_tails; [exact H2|lia|done]].
    unfold called, variable_of. rewrite Hx. assert (Ast.is_root x = false) as ->
      by (apply bool_decide_eq_false; intros ->; discriminate Hd).
    intros rp. unfold parse_function_call. cbn [rest].
    destruct (read_qualified x 0 ts name f dots Hq fuel ((ts ++ open :: ts1 ++ [close]) ++ ts2 ++ r) (token_node t) x
      (S (length ((ts ++ open :: ts1 ++ [close]) ++ ts2 ++ r))) open ts1 args close c (ts2 ++ r)
      ltac:(rewrite !length_app; lia) Ho Ha Hc ltac:(lia) Hres rp) as [rp' E].
    exists rp'. rewrite E. reflexivity.
Qed.

(** ** Operators *)

Lemma read_p_unary t op ts e : kind t ∈ [Plus; Minus; Not] -> operator_from_token (kind t) = Some op -> phrase_read LUnary ts e ->
  phrase_read LUnary (t :: ts) (Ast.UnaryOperator (Ast.mkNode (i32 (start t)) (end_of e)) op e).
Proof.
  intros Hk Hop [_ H]. split.
  - unfold starts, has_kind. cbn [head]. apply bool_decide_eq_true. rewrite !elem_of_cons, elem_of_nil in Hk.
    destruct Hk as [->|[->|[->|[]]]]; by apply (bool_decide_eq_true_1 _).
  - intros fuel n r Hl Hn Hr. cbn [length] in Hl, Hn. destruct n as [|n]; [lia|]. cbn [parser unary_loop]. apply reads_peek. cbn [app head].
    assert (has_kind [Plus; Minus; Not] (Some t) = true) as -> by (by apply bool_decide_eq_true).
    apply reads_next. eapply reads_then; [apply H; [lia|lia|done]|]. rewrite Hop. apply reads_ret.
Qed.

Lemma named_is_identifier x t : named x (Some t) = true -> kind t = Identifier /\ token_name t = x.
Proof. unfold named. intros [H1%bool_decide_eq_true H2%bool_decide_eq_true]%andb_prop. done. Qed.

Lemma read_p_typeof t ts e : named "typeof" (Some t) = true -> phrase_read LUnary ts e ->
  phrase_read LUnary (t :: ts) (Ast.UnaryOperator (Ast.mkNode (i32 (start t)) (end_of e)) Ast.Typeof e).
Proof.
  intros Ht [_ H]. pose proof (named_is_identifier _ _ Ht) as [Hk _]. split; [by apply (starts_of t Identifier)|].
  intros fuel n r Hl Hn Hr. cbn [length] in Hl, Hn. destruct n as [|n]; [lia|]. cbn [parser unary_loop]. apply reads_peek. cbn [app head].
  rewrite Ht. kinds. apply reads_next. eapply reads_then; [apply H; [lia|lia|done]|]. apply reads_ret.
Qed.

Lemma read_p_operand ts e : named "typeof" (head ts) = false -> has_kind [Plus; Minus; Not] (head ts) = false -> phrase_read LPrimary ts e ->
  phrase_read LUnary ts e.
Proof.
  intros Ht Hk [Hs H]. split; [done|]. intros fuel n r Hl Hn Hr. pose proof (starts_length _ Hs). destruct n as [|n]; [lia|].
  cbn [parser unary_loop]. apply reads_peek. destruct ts as [|t ts]; [done|]. cbn [app head] in *. rewrite Hk, Ht.
  exact (H fuel (length (t :: ts)) r Hl (le_n _) Hr).
Qed.

Lemma parser_chain l fuel n : is_chain l = true -> parser l fuel n = left_associative (operators l) (combine l) (operand l fuel).
Proof. by destruct l. Qed.

Lemma read_operand l ts e fuel r : is_chain l = true -> phrase_read (below l) ts e -> (length ts <= S fuel)%nat -> stops (below l) r = true ->
  reads (operand l fuel) ts e r.
Proof.
  intros Hc [_ H] Hl Hr. destruct l; try discriminate Hc; cbn [below operand] in *.
  1: exact (reads_looping _ _ _ _ _ _ (H fuel (S (length (ts ++ r))) r Hl ltac:(rewrite length_app; lia) Hr)).
  all: exact (H fuel (length ts) r Hl (le_n _) Hr).
Qed.

Lemma read_m_end l e : more_read l e [] e.
Proof.
  intros Hc. split; [done|]. intros fuel k r _ Hk Hr. destruct k as [|k]; [cbn in Hk; lia|]. cbn [operator_loop]. apply reads_peek.
  pose proof (stops_operators l r Hc Hr) as H. destruct r as [|t r]; cbn [app head] in *; [apply reads_ret|]. rewrite H. apply reads_ret.
Qed.

Lemma stops_more l ts r : is_chain l = true -> first_operator l ts = true -> stops l r = true -> stops (below l) (ts ++ r) = true.
Proof.
  intros Hc Hf Hr. destruct ts as [|t ts]; [by apply stops_below|]. cbn [app]. apply stops_operator; [done|]. by apply bool_decide_eq_true in Hf.
Qed.

Lemma read_m_operator l e t make ts1 e1 ts2 e2 : kind t ∈ operators l -> combine l t = Some make -> phrase_read (below l) ts1 e1 ->
  more_read l (make (span e e1) e e1) ts2 e2 -> more_read l e (t :: ts1 ++ ts2) e2.
Proof.
  intros Hk Hm H1 H2 Hc. destruct (H2 Hc) as [Hf H2']. split; [by apply bool_decide_eq_true|]. intros fuel k r Hl Hlk Hr.
  cbn [length] in Hl, Hlk. rewrite length_app in Hl, Hlk. destruct k as [|k]; [lia|]. cbn [operator_loop]. apply reads_peek. cbn [app head].
  assert (has_kind (operators l) (Some t) = true) as -> by (by apply bool_decide_eq_true).
  apply reads_next. eapply reads_bind; [apply read_operand; [done|done|lia|by apply stops_more]|].
  rewrite Hm. apply H2'; [lia|lia|done].
Qed.

Lemma read_p_chain l ts1 e1 ts2 e : is_chain l = true -> phrase_read (below l) ts1 e1 -> more_read l e1 ts2 e -> phrase_read l (ts1 ++ ts2) e.
Proof.
  intros Hc H1 H2. destruct (H2 Hc) as [Hf H2']. split; [apply starts_app, H1|]. intros fuel n r Hl _ Hr. rewrite length_app in Hl.
  rewrite parser_chain by done. unfold left_associative. eapply reads_bind; [apply read_operand; [done|done|lia|by apply stops_more]|].
  apply reads_looping, H2'; [lia|rewrite length_app; lia|done].
Qed.

Lemma read_p_sum ts e : phrase_read LSum ts e -> phrase_read LRelational ts e.
Proof.
  intros [Hs H]. split; [done|]. intros fuel n r Hl Hn Hr. cbn [parser]. unfold parse_relational.
  assert (stops LSum r = true /\ is_relational (head r) = false) as [Hr1 Hr2].
  { destruct r as [|t r]; [done|]. unfold stops, goes_on in *. cbn [head]. rewrite !negb_true_iff, !orb_false_iff in *. tauto. }
  eapply reads_then; [exact (H fuel n r Hl Hn Hr1)|]. apply reads_peek. cbn [app].
  destruct r as [|t r]; cbn [head] in *; [apply reads_ret|]. rewrite Hr2. apply reads_ret.
Qed.

Lemma stops_relational t r : is_relational (Some t) = true -> stops LSum (t :: r) = true.
Proof.
  unfold is_relational, is_numeric_relational_operator, named, stops, goes_on, has_kind. intros H.
  destruct (kind t); try discriminate H; reflexivity.
Qed.

Lemma read_p_relation ts1 e1 t op ts2 e2 : phrase_read LSum ts1 e1 -> is_relational (Some t) = true -> relational_operator t = Some op ->
  phrase_read LSum ts2 e2 -> phrase_read LRelational (ts1 ++ t :: ts2) (Ast.BinaryOperator (span e1 e2) op e1 e2).
Proof.
  intros [Hs H1] Ht Hop [_ H2]. split; [by apply starts_app|]. intros fuel n r Hl _ Hr. rewrite length_app in Hl. cbn [length] in Hl.
  cbn [parser]. unfold parse_relational.
  assert (stops LSum r = true) as Hr1.
  { destruct r as [|t' r]; [done|]. unfold stops, goes_on in *. rewrite !negb_true_iff, !orb_false_iff in *. tauto. }
  eapply reads_bind; [exact (H1 fuel (length ts1) _ ltac:(lia) (le_n _) (stops_relational t _ Ht))|].
  apply reads_peek. cbn [app head]. rewrite Ht. apply reads_next.
  eapply reads_then; [exact (H2 fuel (length ts2) r ltac:(lia) (le_n _) Hr1)|]. rewrite Hop. apply reads_ret.
Qed.

Lemma stops_or t r : kind t = Assign \/ kind t = QMark -> stops LOr (t :: r) = true.
Proof. unfold stops, goes_on, is_relational, is_numeric_relational_operator, named, has_kind. by intros [->| ->]. Qed.

Lemma read_p_or ts e : phrase_read LOr ts e -> phrase_read LExpression ts e.
Proof.
  intros [Hs H]. split; [done|]. intros fuel n r Hl Hn Hr. cbn [parser]. unfold parse_expression_internal.
  assert (stops LOr r = true /\ has_kind [Assign] (head r) = false /\ has_kind [QMark] (head r) = false) as (Hr1 & Hr2 & Hr3).
  { destruct r as [|t r]; [done|]. unfold stops, goes_on in *. cbn [head]. rewrite !negb_true_iff, !orb_false_iff in *.
    unfold has_kind in *. rewrite !bool_decide_eq_false, !elem_of_cons, ?elem_of_nil in *. tauto. }
  eapply reads_then; [exact (H fuel n r Hl Hn Hr1)|]. apply reads_peek. cbn [app]. rewrite Hr2, Hr3, andb_false_r. apply reads_ret.
Qed.

Lemma read_p_assign ts1 e1 t ts2 e2 : allow_assign = true -> phrase_read LOr ts1 e1 -> is_lvalue e1 = true -> kind t = Assign ->
  phrase_read LOr ts2 e2 -> phrase_read LExpression (ts1 ++ t :: ts2) (Ast.Assign (span e1 e2) e1 e2).
Proof.
  intros Ha [Hs H1] Hlv Ht [_ H2]. split; [by apply starts_app|]. intros fuel n r Hl _ Hr. rewrite length_app in Hl. cbn [length] in Hl.
  cbn [parser]. unfold parse_expression_internal.
  assert (stops LOr r = true) as Hr1.
  { destruct r as [|t' r]; [done|]. unfold stops, goes_on in *. rewrite !negb_true_iff, !orb_false_iff in *. tauto. }
  eapply reads_bind; [exact (H1 fuel (length ts1) _ ltac:(lia) (le_n _) (stops_or t _ (or_introl Ht)))|].
  apply reads_peek. cbn [app head]. kinds. replace (allow_assign && true) with true by (by rewrite Ha). apply reads_next.
  eapply reads_then; [exact (H2 fuel (length ts2) r ltac:(lia) (le_n _) Hr1)|]. rewrite Hlv. apply reads_ret.
Qed.

Lemma read_p_ternary ts1 e1 q ts2 e2 c ts3 e3 : phrase_read LOr ts1 e1 -> kind q = QMark -> phrase_read LExpression ts2 e2 ->
  kind c = Colon -> phrase_read LExpression ts3 e3 ->
  phrase_read LExpression (ts1 ++ q :: ts2 ++ c :: ts3) (Ast.Ternary (span e1 e3) e1 e2 e3).
Proof.
  intros [Hs H1] Hq H2 Hc H3. split; [by apply starts_app|]. intros fuel n r Hl _ Hr. rewrite length_app in Hl. cbn [length] in Hl.
  rewrite length_app in Hl. cbn [length] in Hl. pose proof (starts_length _ Hs).
  cbn [parser]. unfold parse_expression_internal.
  eapply reads_bind; [exact (H1 fuel (length ts1) _ ltac:(lia) (le_n _) (stops_or q _ (or_intror Hq)))|].
  apply reads_peek. cbn [app head]. kinds. rewrite andb_false_r. apply reads_next.
  eapply reads_bind; [apply nested; [done|lia|eapply (stops_kinds _ _ Colon); [done|by apply (bool_decide_eq_true_1 _)]]|].
  apply reads_eat; [done|]. eapply reads_then; [apply nested; [done|lia|done]|]. apply reads_ret.
Qed.

Lemma phrases_read :
  (forall l ts e, phrase l ts e -> phrase_read l ts e) /\ (forall l e ts e', more l e ts e' -> more_read l e ts e') /\
  (forall ts e, start_phrase ts e -> start_read ts e) /\ (forall e ts e', tails e ts e' -> tails_read e ts e') /\
  (forall ts es, elements ts es -> elements_read ts es) /\ (forall ts e, element ts e -> element_read ts e) /\
  (forall keys ts l, entries keys ts l -> entries_read keys ts l) /\
  (forall keys ts e keys', entry keys ts e keys' -> entry_read keys ts e keys').
Proof.
  apply phrases_mut; intros.
  - by eapply read_p_primary.
  - by eapply read_p_method.
  - by apply read_p_unary.
  - by apply read_p_typeof.
  - by apply read_p_operand.
  - by eapply read_p_chain.
  - by apply read_p_sum.
  - by apply read_p_relation.
  - by apply read_p_or.
  - by apply read_p_assign.
  - by apply read_p_ternary.
  - apply read_m_end.
  - by eapply read_m_operator.
  - by apply read_s_literal.
  - by eapply read_s_variable.
  - by eapply read_s_constant.
  - by eapply read_s_call.
  - by apply read_s_paren.
  - by apply read_s_list.
  - by apply read_s_object.
  - apply read_t_end.
  - by apply read_t_property.
  - by eapply read_t_index.
  - apply read_el_end.
  - by apply read_el_last.
  - by apply read_el_comma.
  - by apply read_plain.
  - by apply read_spread.
  - apply read_en_end.
  - by eapply read_en_last.
  - by eapply read_en_comma.
  - by apply read_en_name.
  - by apply read_en_key.
  - by apply read_en_computed.
  - by apply read_en_spread.
Qed.

(** [parse_expr] with the fuel it takes for itself. *)
Lemma read_expression ts e r : phrase LExpression ts e -> stops LExpression r = true ->
  reads (parse_expr allow_assign) ts e r.
Proof.
  intros H Hr. apply reads_looping. apply nested; [by apply phrases_read|rewrite length_app; lia|done].
Qed.

End Phrases.

(** ** Texts of expressions *)

Lemma read_semicolons directives semis k rp : Forall (fun t => kind t = Semicolon) semis -> (length semis < k)%nat ->
  semicolons_loop k (Parser.mkState semis directives rp) = Ok tt (Parser.mkState [] directives rp).
Proof.
  intros H. revert k. induction H as [|t semis Ht _ IH]; intros k Hk; (destruct k as [|k]; [cbn in Hk; lia|]); [reflexivity|].
  cbn [semicolons_loop]. unfold accept, peek, next, mbind, M_bind. cbn [rest head]. rewrite (has_kind_of t Semicolon [Semicolon] true Ht eq_refl).
  apply IH. cbn [length] in Hk. lia.
Qed.

(** C7. The parser implements the grammar of expressions: a text whose tokens are a
    phrase of it, with any number of semicolons behind, is parsed into the tree of
    the phrase, that is with the precedence and the associativity of the levels and
    with the exact range of every node. *)
Theorem parse_expression_reads_phrase `{HL : Library} (allow_assign : bool) (input : list Z) ts semis e :
  phrase allow_assign ∅ LExpression ts e -> Forall (fun t => kind t = Semicolon) semis ->
  process input = Some (inr (ts ++ semis)) ->
  exists props, parse_expression allow_assign input = Some (inr (e, props)).
Proof.
  intros He Hs Hp. unfold parse_expression, parse_text, initial. rewrite Hp.
  assert (stops LExpression semis = true) as Hstop.
  { destruct Hs as [|t semis Ht _]; [done|]. apply (stops_kinds _ t Semicolon); [done|by apply (bool_decide_eq_true_1 _)]. }
  destruct (read_expression allow_assign ∅ ts e semis He Hstop []) as [props Hr].
  assert (exists t ts', ts = t :: ts') as (t & ts' & ->).
  { destruct (proj1 (phrases_read allow_assign ∅) _ _ _ He) as [Hst _]. destruct ts; [done|by eexists _, _]. }
  exists props. unfold whole_expression, mbind, M_bind, peek. cbn [rest app head] in *. rewrite Hr. unfold looping. cbn [rest].
  rewrite read_semicolons by (done || lia). reflexivity.
Qed.

(** [a - b - c * d], a phrase and its tree. *)
Section Sample.
Context `{HL : Library} (aa : bool) (directives : gmap string nat).

Lemma phrase_name t x : plain_name t x -> x <> "typeof"%string -> is_dollar x = false -> phrase aa directives LUnary [t] (variable_of t).
Proof.
  intros Ht Hx Hd. pose proof Ht as (Hk & Hn & _). apply p_operand.
  - cbn [head]. rewrite (named_identifier t "typeof" Hk), Hn. by apply bool_decide_eq_false.
  - cbn [head]. by rewrite (has_kind_of t Identifier [Plus; Minus; Not] false Hk eq_refl).
  - apply (p_primary aa directives [t] (variable_of t) []); [by eapply s_variable|constructor|]. cbn [dollar_variable variable_of]. by rewrite Hn, Hd.
Qed.

Lemma phrase_chain l ts e : is_chain l = true -> phrase aa directives (below l) ts e -> phrase aa directives l ts e.
Proof. intros Hl H. rewrite <-(app_nil_r ts). eapply p_chain; [done|done|constructor]. Qed.

Lemma phrase_expression ts e : phrase aa directives LSum ts e -> phrase aa directives LExpression ts e.
Proof. intros H. apply p_or, (phrase_chain LOr), (phrase_chain LAnd), p_sum, H; done. Qed.

End Sample.

Definition letter (x : string) (p : Z) : Token := mkToken Identifier p (p + 1) (bytes_of_string x).

Definition difference : Ast.Expression :=
  let binary op l r := Ast.BinaryOperator (span l r) op l r in
  let v x p := variable_of (letter x p) in
  binary Ast.Minus (binary Ast.Minus (v "a"%string 0) (v "b"%string 4)) (binary Ast.Multiply (v "c"%string 8) (v "d"%string 12)).

(** A library without anything in it. *)
Definition empty_library : Library := {|
  find_func _ := None; find_async_func _ := None; find_constant _ _ := None; find_async_constant _ _ := None;
  find_directive_def _ _ _ := None; directive_find_func _ _ _ := None; directive_find_async_func _ _ _ := None |}.

Lemma parse_expression_reads_phrase_witness :
  exists props, parse_expression (H := empty_library) true (bytes_of_string "a - b - c * d;") = Some (inr (difference, props)).
Proof.
  set (minus p := mkToken Minus p (p + 1) [chr "-"]). set (star p := mkToken Star p (p + 1) [chr "*"]).
  assert (forall x p, In x ["a"; "b"; "c"; "d"]%string ->
    phrase (HL := empty_library) true ∅ LUnary [letter x p] (variable_of (letter x p))) as Hname.
  { intros x p Hx. apply (phrase_name _ _ _ x).
    - cbn in Hx. repeat destruct Hx as [<-|Hx]; try (destruct Hx; fail);
        (split; [reflexivity|split; [reflexivity|split; [reflexivity|]]]; by apply (bool_decide_eq_true_1 _)).
    - intros ->. cbn in Hx. by repeat destruct Hx as [Hx|Hx].
    - cbn in Hx. repeat destruct Hx as [<-|Hx]; try (destruct Hx; fail); reflexivity. }
  apply (parse_expression_reads_phrase true (bytes_of_string "a - b - c * d;")
    [letter "a" 0; minus 2; letter "b" 4; minus 6; letter "c" 8; star 10; letter "d" 12] [mkToken Semicolon 13 14 [chr ";"]] difference).
  - apply phrase_expression.
    apply (p_chain true ∅ LSum [letter "a" 0] (variable_of (letter "a" 0))); [reflexivity|apply (phrase_chain _ _ LProduct); [reflexivity|apply Hname; cbn; tauto]|].
    apply (m_operator true ∅ LSum _ (minus 2) (fun n l r => Ast.BinaryOperator n Ast.Minus l r) [letter "b" 4] (variable_of (letter "b" 4)));
      [by apply (bool_decide_eq_true_1 _)|reflexivity|apply (phrase_chain _ _ LProduct); [reflexivity|apply Hname; cbn; tauto]|].
    rewrite <-(app_nil_r [letter "c" 8; _; _]).
    eapply (m_operator true ∅ LSum _ (minus 6) (fun n l r => Ast.BinaryOperator n Ast.Minus l r) [letter "c" 8; star 10; letter "d" 12]);
      [by apply (bool_decide_eq_true_1 _)|reflexivity| |apply m_end].
    apply (p_chain true ∅ LProduct [letter "c" 8] (variable_of (letter "c" 8))); [reflexivity|apply Hname; cbn; tauto|].
    change ([star 10; letter "d" 12]) with (star 10 :: [letter "d" 12] ++ []).
    apply (m_operator true ∅ LProduct _ (star 10) (fun n l r => Ast.BinaryOperator n Ast.Multiply l r) [letter "d" 12] (variable_of (letter "d" 12)));
      [by apply (bool_decide_eq_true_1 _)|reflexivity|apply Hname; cbn; tauto|apply m_end].
  - repeat constructor.
  - vm_compute. reflexivity.
Defined.

(** ** What is read beyond the grammar *)

(** The list has no comma and no end: its alternative fails behind the [2], and the
    last one reads the name there. *)
Lemma reads_more :
  parse_expression (H := empty_library) true (bytes_of_string "[1 2 x") =
    Some (inr (Ast.VariableReference (Ast.mkNode 5 6) "x", [])) /\
  parse_expression (H := empty_library) true (bytes_of_string "(1 2 x") =
    Some (inr (Ast.VariableReference (Ast.mkNode 5 6) "x", [])).
Proof. split; vm_compute; reflexivity. Qed.

(** The error of the alternative is lost: the position is right, the message is that
    of a name that is missing. *)
Lemma literal_error_lost :
  parse_expression (H := empty_library) true (bytes_of_string "99999999999999999999") =
    Some (inl (mkError "unexpected token" 0)).
Proof. vm_compute. reflexivity. Qed.

(** A line separator behind a backslash is an escape for the tokenizer and an error
    for the parser. *)
Lemma separator_escape_refused :
  match process (quote1 :: backslash :: [0xE2; 0x80; 0xA8] ++ [quote1]) with Some (inr [t]) => parse_literal_token t | _ => inl (mkError EmptyString 0) end =
  inl (mkError "invalid escape" 2).
Proof. vm_compute. reflexivity. Qed.

(** A pair of surrogates becomes two sequences of three bytes, which is not UTF-8. *)
Lemma surrogates_not_joined :
  parse_string_literal (bytes_of_string "'\ud83d\ude00'") 0 = inr [0xED; 0xA0; 0xBD; 0xED; 0xB8; 0x80].
Proof. vm_compute. reflexivity. Qed.

(** A conditional to the right of [=] is not read. *)
Lemma assigned_ternary_refused :
  parse_expression (H := empty_library) true (bytes_of_string "a = b ? 1 : 2") =
    Some (inl (mkError "unexpected token after expression" 6)).
Proof. vm_compute. reflexivity. Qed.

(** A comment without an end is one up to the end. *)
Lemma open_comment_accepted : process (bytes_of_string "a /* b") = Some (inr [mkToken Identifier 0 1 (bytes_of_string "a")]).
Proof. vm_compute. reflexivity. Qed.

End Grammar.
