(* ===== verification/ScriptText.v ===== *)
(** * From the text of a script to its result

    The grammar of statements, as that of expressions in [ScriptGrammar] (simple
    statements with the semicolon that the parser also lets be left out), that the
    parser reads it, and [compile_script] of [src/script/ScriptCompiler.cpp] with the
    parser, the compiler and the interpreter together. *)
From S2P Require Import Prelude ScriptAst ScriptTokens ScriptLiteral ScriptParser ScriptGrammar.
From S2P Require Import ScriptCompiler ScriptVm ScriptSemantics ScriptProgram ScriptExamples.

Module Text.
Import Tokens Literals Parser Grammar.

Section Statements.
Context `{HL : Library} (aa : bool).

(** What a statement that is an expression may start with: no brace (that is a
    block), no keyword. *)
Definition expression_start (ts : list Token) : bool :=
  negb (has_kind [LCurly] (head ts)) &&
  negb (match ts with t :: _ => has_kind [Identifier] (Some t) && is_keyword (token_name t) | [] => false end).

(** The literals of a directive, one token each. *)
Inductive literals_of : list Token -> list Ast.Literal -> Prop :=
  | lo_end : literals_of [] []
  | lo_literal t n l ts ls : literal_of t (Ast.LiteralE n l) -> literals_of ts ls -> literals_of (t :: ts) (l :: ls).

(** ** The grammar

    Statements and blocks, with [directive_map_] before and behind. *)
Inductive stmt : gmap string nat -> list Token -> Parsed -> gmap string nat -> Prop :=
  | st_break d t semi :
      named "break" (Some t) = true -> kind semi = Semicolon ->
      stmt d [t; semi] (ParsedStatement (Ast.BreakStatement (Ast.mkNode (i32 (start t)) (i32 (end_ semi))))) d
  | st_continue d t semi :
      named "continue" (Some t) = true -> kind semi = Semicolon ->
      stmt d [t; semi] (ParsedStatement (Ast.ContinueStatement (Ast.mkNode (i32 (start t)) (i32 (end_ semi))))) d
  | st_return d t semi :
      named "return" (Some t) = true -> kind semi = Semicolon ->
      stmt d [t; semi] (ParsedStatement (Ast.ReturnStatement (Ast.mkNode (i32 (start t)) (i32 (end_ semi))) None)) d
  | st_return_value d t ts e semi :
      named "return" (Some t) = true -> phrase aa d LExpression ts e -> kind semi = Semicolon ->
      stmt d (t :: ts ++ [semi]) (ParsedStatement (Ast.ReturnStatement (Ast.mkNode (i32 (start t)) (i32 (end_ semi))) (Some e))) d
  | st_throw d t ts e semi :
      named "throw" (Some t) = true -> phrase aa d LExpression ts e -> kind semi = Semicolon ->
      stmt d (t :: ts ++ [semi]) (ParsedStatement (Ast.ThrowStatement (Ast.mkNode (i32 (start t)) (i32 (end_ semi))) e)) d
  | st_let d t name x semi :
      named "let" (Some t) = true -> identifier name x -> kind semi = Semicolon ->
      stmt d [t; name; semi]
        (ParsedStatement (Ast.VariableDeclareStatement (Ast.mkNode (i32 (start t)) (i32 (end_ semi))) x None)) d
  | st_let_value d t name x assign ts e semi :
      named "let" (Some t) = true -> identifier name x -> kind assign = Assign -> phrase aa d LExpression ts e -> kind semi = Semicolon ->
      stmt d (t :: name :: assign :: ts ++ [semi])
        (ParsedStatement (Ast.VariableDeclareStatement (Ast.mkNode (i32 (start t)) (i32 (end_ semi))) x (Some e))) d
  | st_directive d t name x sign type ty ts ls semi def :
      named "directive" (Some t) = true -> identifier name x -> kind sign = Assign \/ named "from" (Some sign) = true ->
      identifier type ty -> literals_of ts ls -> kind semi = Semicolon -> d !! x = None -> find_directive_def ty x ls = Some def ->
      stmt d (t :: name :: sign :: type :: ts ++ [semi])
        (ParsedDirective (Ast.mkNode (i32 (start t)) (i32 (end_ semi))) ty x def) d
  | st_expression d ts e semi :
      expression_start ts = true -> phrase aa d LExpression ts e -> kind semi = Semicolon ->
      stmt d (ts ++ [semi]) (ParsedStatement (Ast.ExpressionStatement (Ast.mkNode (start_of e) (i32 (end_ semi))) e)) d
  | st_block d ts n l d' : block d ts n l d' -> stmt d ts (ParsedStatement (Ast.BlockS n l)) d'
  | st_if d ts st d' : if_phrase d ts st d' -> stmt d ts (ParsedStatement st) d'
  | st_for d t lp lt k key comma v value o ts1 e rp ts2 n l d' :
      named "for" (Some t) = true -> kind lp = LParen -> named "let" (Some lt) = true -> identifier k key -> kind comma = Comma ->
      identifier v value -> named "of" (Some o) = true -> phrase aa d LExpression ts1 e -> kind rp = RParen -> block d ts2 n l d' ->
      stmt d (t :: lp :: lt :: k :: comma :: v :: o :: ts1 ++ rp :: ts2)
        (ParsedStatement (Ast.ForeachStatement (Ast.mkNode (i32 (start t)) (Ast.end_pos n)) key value e l)) d'
  | st_try d t ts1 n1 l1 d1 c lp x name rp ts2 n2 l2 d2 :
      named "try" (Some t) = true -> block d ts1 n1 l1 d1 -> named "catch" (Some c) = true -> kind lp = LParen -> identifier x name ->
      kind rp = RParen -> block d1 ts2 n2 l2 d2 ->
      stmt d (t :: ts1 ++ c :: lp :: x :: rp :: ts2)
        (ParsedStatement (Ast.TryCatchStatement (Ast.mkNode (i32 (start t)) (Ast.end_pos n2)) name l1 l2)) d2
with if_phrase : gmap string nat -> list Token -> Ast.Statement -> gmap string nat -> Prop :=
  | if_then d t lp ts1 e rp ts2 n l d' :
      named "if" (Some t) = true -> kind lp = LParen -> phrase aa d LExpression ts1 e -> kind rp = RParen -> block d ts2 n l d' ->
      if_phrase d (t :: lp :: ts1 ++ rp :: ts2)
        (Ast.IfStatement (Ast.mkNode (i32 (start t)) (Ast.end_pos n)) e (Ast.BlockS n l) None) d'
  | if_else d t lp ts1 e rp ts2 n l d1 el ts3 n' l' d2 :
      named "if" (Some t) = true -> kind lp = LParen -> phrase aa d LExpression ts1 e -> kind rp = RParen -> block d ts2 n l d1 ->
      named "else" (Some el) = true -> block d1 ts3 n' l' d2 ->
      if_phrase d (t :: lp :: ts1 ++ rp :: ts2 ++ el :: ts3)
        (Ast.IfStatement (Ast.mkNode (i32 (start t)) (Ast.end_pos n')) e (Ast.BlockS n l) (Some (Ast.BlockS n' l'))) d2
  | if_else_if d t lp ts1 e rp ts2 n l d1 el ts3 st d2 :
      named "if" (Some t) = true -> kind lp = LParen -> phrase aa d LExpression ts1 e -> kind rp = RParen -> block d ts2 n l d1 ->
      named "else" (Some el) = true -> if_phrase d1 ts3 st d2 ->
      if_phrase d (t :: lp :: ts1 ++ rp :: ts2 ++ el :: ts3)
        (Ast.IfStatement (Ast.mkNode (i32 (start t)) (Ast.end_pos (Ast.statement_node st))) e (Ast.BlockS n l) (Some st)) d2
with block : gmap string nat -> list Token -> Ast.Node -> list Ast.Statement -> gmap string nat -> Prop :=
  | bl_braces d open ts l d' close :
      kind open = LCurly -> items d ts l d' -> kind close = RCurly ->
      block d (open :: ts ++ [close]) (Ast.mkNode (i32 (start open)) (i32 (end_ close))) l d'
(** The statements of a block; a directive is noted and left out. *)
with items : gmap string nat -> list Token -> list Ast.Statement -> gmap string nat -> Prop :=
  | it_end d : items d [] [] d
  | it_semicolon d semi ts l d' : kind semi = Semicolon -> items d ts l d' -> items d (semi :: ts) l d'
  | it_statement d ts1 st d1 ts2 l d2 :
      stmt d ts1 (ParsedStatement st) d1 -> items d1 ts2 l d2 -> items d (ts1 ++ ts2) (st :: l) d2
  | it_directive d ts1 n ty x def d1 ts2 l d2 :
      stmt d ts1 (ParsedDirective n ty x def) d1 -> items (<[x := def]> d1) ts2 l d2 -> items d (ts1 ++ ts2) l d2.

Scheme stmt_mut := Minimality for stmt Sort Prop
with if_mut := Minimality for if_phrase Sort Prop
with block_mut := Minimality for block Sort Prop
with items_mut := Minimality for items Sort Prop.
Combined Scheme statements_mut from stmt_mut, if_mut, block_mut, items_mut.

(** ** Reading statements *)

Lemma named_other a b t : named a (Some t) = true -> a <> b -> named b (Some t) = false.
Proof. intros [Hk Hn]%named_is_identifier Hab. rewrite (named_identifier t b Hk), Hn. by apply bool_decide_eq_false. Qed.

(** Tests of the names of tokens that are known. *)
Ltac names := repeat match goal with
  | H : named ?a (Some ?t) = true |- context [named ?b (Some ?t)] =>
      first [unify a b; rewrite H | rewrite (named_other a b t H) by discriminate]
  end.

Lemma reads_keyword {B} d (f : Token -> M B) kw t ts b r d' :
  named kw (Some t) = true -> reads_to d (f t) ts b r d' -> reads_to d (eat_keyword kw ≫= f) (t :: ts) b r d'.
Proof.
  intros Hn H rp. destruct (H rp) as [rp' E]. exists rp'. rewrite <-E. apply named_is_identifier in Hn as [Hk Hn].
  unfold eat_keyword, eat, peek, next, mbind, M_bind. cbn [app rest head]. rewrite bool_decide_true by done.
  unfold mret, M_ret. by rewrite bool_decide_true.
Qed.

Lemma reads_semicolon {B} d (f : Z -> M B) e semi ts b r d' :
  kind semi = Semicolon -> reads_to d (f (i32 (end_ semi))) ts b r d' -> reads_to d (optional_semicolon e ≫= f) (semi :: ts) b r d'.
Proof.
  intros Hk H. change (semi :: ts) with ([semi] ++ ts). eapply reads_bind; [|exact H].
  unfold optional_semicolon. apply reads_accept; [done|]. apply reads_ret.
Qed.

Lemma reads_expr {B} d (f : Ast.Expression -> M B) ts1 e t ts2 b r d' :
  phrase aa d LExpression ts1 e -> kind t ∈ [RParen; RSquare; RCurly; Comma; Colon; Semicolon] ->
  reads_to d (f e) (t :: ts2) b r d' -> reads_to d (parse_expr aa ≫= f) (ts1 ++ t :: ts2) b r d'.
Proof. intros He Ht Hf. eapply reads_bind; [|exact Hf]. apply read_expression; [done|]. by apply stops_close. Qed.

Lemma phrase_starts d ts e : phrase aa d LExpression ts e -> starts ts = true.
Proof. intros H. apply (proj1 (phrases_read aa d)) in H. apply H. Qed.

(** [closed Hk] proves that a token of a known kind ends an expression. *)
Ltac closed := match goal with H : kind ?t = _ |- kind ?t ∈ _ => rewrite H; by apply (bool_decide_eq_true_1 _) end.

Lemma starts_not_end ts r : starts ts = true -> exists t ts', ts ++ r = t :: ts' /\ has_kind [Semicolon; RCurly] (Some t) = false.
Proof.
  intros Hs. destruct ts as [|t ts]; [done|]. exists t, (ts ++ r). split; [done|]. unfold starts, has_kind in *. cbn [head] in Hs.
  apply bool_decide_eq_true in Hs. apply bool_decide_eq_false. rewrite !elem_of_cons, elem_of_nil. intros [H|[H|[]]]; rewrite H in Hs;
    apply (bool_decide_eq_true_2 _) in Hs; discriminate Hs.
Qed.

(** A statement is read, and does not begin like the end of the one before. *)
Definition first_ok (ts : list Token) : Prop := match ts with t :: _ => named "else" (Some t) = false /\ has_kind [Semicolon; RCurly] (Some t) = false | [] => False end.

Definition stmt_read (d : gmap string nat) (ts : list Token) (p : Parsed) (d' : gmap string nat) : Prop :=
  first_ok ts /\
  forall fuel r, (length ts <= S fuel)%nat -> named "else" (head r) = false ->
    reads_to d (parse_statement aa (statement aa fuel)) ts p r d'.

Definition if_read (d : gmap string nat) (ts : list Token) (st : Ast.Statement) (d' : gmap string nat) : Prop :=
  match ts with t :: _ => named "if" (Some t) = true | [] => False end /\
  forall fuel k r, (length ts <= S fuel)%nat -> (length ts <= k)%nat -> named "else" (head r) = false ->
    reads_to d (if_loop aa (statement aa fuel) k) ts st r d'.

Definition block_read (d : gmap string nat) (ts : list Token) (n : Ast.Node) (l : list Ast.Statement) (d' : gmap string nat) : Prop :=
  match ts with t :: _ => kind t = LCurly | [] => False end /\
  forall fuel r, (length ts <= S fuel)%nat -> reads_to d (parse_block (statement aa fuel) true) ts (n, l) r d'.

(** The range of a block without braces. *)
Definition range_of (range : option Ast.Node) (l : list Ast.Statement) : option Ast.Node :=
  fold_left (fun range st => Some (extend range (Ast.statement_node st))) l range.

Definition items_read (d : gmap string nat) (ts : list Token) (l : list Ast.Statement) (d' : gmap string nat) : Prop :=
  named "else" (head ts) = false /\
  (forall fuel k range acc start_pos close r, (length ts <= fuel)%nat -> (length ts < k)%nat -> kind close = RCurly ->
    reads_to d (block_loop (statement aa fuel) true start_pos k range acc) (ts ++ [close])
      (Ast.mkNode (i32 start_pos) (i32 (end_ close)), acc ++ l) r d') /\
  (forall fuel k range acc start_pos n, (length ts <= fuel)%nat -> (length ts < k)%nat -> range_of range l = Some n ->
    reads_to d (block_loop (statement aa fuel) false start_pos k range acc) ts (n, acc ++ l) [] d').

Lemma first_named a ts t : named a (Some t) = true -> a <> "else"%string -> first_ok (t :: ts).
Proof.
  intros H Ha. split; [by eapply named_other|]. apply named_is_identifier in H as [Hk _]. by rewrite (has_kind_of t Identifier [Semicolon; RCurly] false Hk eq_refl).
Qed.

(** [parse_statement] finds the function for a keyword. *)
Ltac dispatch := unfold parse_statement; apply reads_peek; cbn [app head]; names.

(** A statement that is a keyword and what its function reads. *)
Lemma read_st_break d t semi : named "break" (Some t) = true -> kind semi = Semicolon ->
  stmt_read d [t; semi] (ParsedStatement (Ast.BreakStatement (Ast.mkNode (i32 (start t)) (i32 (end_ semi))))) d.
Proof.
  intros Ht Hs. split; [by eapply first_named|]. intros fuel r _ _. dispatch. unfold parse_break_statement.
  apply reads_keyword; [done|]. apply reads_semicolon; [done|]. apply reads_ret.
Qed.

Lemma read_st_continue d t semi : named "continue" (Some t) = true -> kind semi = Semicolon ->
  stmt_read d [t; semi] (ParsedStatement (Ast.ContinueStatement (Ast.mkNode (i32 (start t)) (i32 (end_ semi))))) d.
Proof.
  intros Ht Hs. split; [by eapply first_named|]. intros fuel r _ _. dispatch. unfold parse_continue_statement.
  apply reads_keyword; [done|]. apply reads_semicolon; [done|]. apply reads_ret.
Qed.

Lemma read_st_return d t semi : named "return" (Some t) = true -> kind semi = Semicolon ->
  stmt_read d [t; semi] (ParsedStatement (Ast.ReturnStatement (Ast.mkNode (i32 (start t)) (i32 (end_ semi))) None)) d.
Proof.
  intros Ht Hs. split; [by eapply first_named|]. intros fuel r _ _. dispatch. unfold parse_return_statement.
  apply reads_keyword; [done|]. apply reads_peek. cbn [app head]. rewrite (has_kind_of semi Semicolon [Semicolon; RCurly] true Hs eq_refl).
  eapply (reads_bind _ _ _ [] [semi] None); [apply reads_ret|]. apply reads_semicolon; [done|]. apply reads_ret.
Qed.

Lemma read_st_return_value d t ts e semi : named "return" (Some t) = true -> phrase aa d LExpression ts e -> kind semi = Semicolon ->
  stmt_read d (t :: ts ++ [semi]) (ParsedStatement (Ast.ReturnStatement (Ast.mkNode (i32 (start t)) (i32 (end_ semi))) (Some e))) d.
Proof.
  intros Ht He Hs. split; [by eapply first_named|]. intros fuel r _ _. dispatch. unfold parse_return_statement.
  apply reads_keyword; [done|]. apply reads_peek. rewrite <-app_assoc.
  destruct (starts_not_end ts ([semi] ++ r) (phrase_starts _ _ _ He)) as (t1 & ts1 & E & Hk). rewrite E. cbn [head]. rewrite Hk.
  eapply (reads_bind _ _ _ ts [semi] (Some e)); [|apply reads_semicolon; [done|]; apply reads_ret].
  eapply reads_then; [|apply reads_ret]. apply read_expression; [done|]. apply stops_close. closed.
Qed.

Lemma read_st_throw d t ts e semi : named "throw" (Some t) = true -> phrase aa d LExpression ts e -> kind semi = Semicolon ->
  stmt_read d (t :: ts ++ [semi]) (ParsedStatement (Ast.ThrowStatement (Ast.mkNode (i32 (start t)) (i32 (end_ semi))) e)) d.
Proof.
  intros Ht He Hs. split; [by eapply first_named|]. intros fuel r _ _. dispatch. unfold parse_throw_statement.
  apply reads_keyword; [done|]. eapply reads_expr; [exact He|closed|]. apply reads_semicolon; [done|]. apply reads_ret.
Qed.

Lemma read_st_let d t name x semi : named "let" (Some t) = true -> identifier name x -> kind semi = Semicolon ->
  stmt_read d [t; name; semi]
    (ParsedStatement (Ast.VariableDeclareStatement (Ast.mkNode (i32 (start t)) (i32 (end_ semi))) x None)) d.
Proof.
  intros Ht Hx Hs. split; [by eapply first_named|]. intros fuel r _ _. dispatch. unfold parse_variable_declare_statement.
  apply reads_keyword; [done|]. eapply reads_identifier; [done|].
  apply reads_accept_none; [cbn [app head]; by rewrite (has_kind_of semi Semicolon [Assign] false Hs eq_refl)|].
  eapply (reads_bind _ _ _ [] [semi] None); [apply reads_ret|]. apply reads_eat; [done|]. apply reads_ret.
Qed.

Lemma read_st_let_value d t name x assign ts e semi :
  named "let" (Some t) = true -> identifier name x -> kind assign = Assign -> phrase aa d LExpression ts e -> kind semi = Semicolon ->
  stmt_read d (t :: name :: assign :: ts ++ [semi])
    (ParsedStatement (Ast.VariableDeclareStatement (Ast.mkNode (i32 (start t)) (i32 (end_ semi))) x (Some e))) d.
Proof.
  intros Ht Hx Ha He Hs. split; [by eapply first_named|]. intros fuel r _ _. dispatch. unfold parse_variable_declare_statement.
  apply reads_keyword; [done|]. eapply reads_identifier; [done|]. apply reads_accept; [done|].
  eapply (reads_bind _ _ _ ts [semi] (Some e)).
  - eapply reads_then; [|apply reads_ret]. apply read_expression; [done|]. apply stops_close. closed.
  - apply reads_eat; [done|]. apply reads_ret.
Qed.

Lemma read_literals d ts ls : literals_of ts ls -> forall k acc semi r, (length ts < k)%nat -> kind semi = Semicolon ->
  reads_to d (literals_loop k acc) ts (acc ++ ls) (semi :: r) d.
Proof.
  induction 1 as [|t n l ts ls Hl _ IH]; intros k acc semi r Hk Hs; cbn [length] in Hk; (destruct k as [|k]; [lia|]); cbn [literals_loop].
  - rewrite app_nil_r. eapply (reads_bind _ _ _ [] [] None); [|apply reads_ret]. unfold parse_optional_literal. apply reads_peek. cbn [app head].
    kinds. apply reads_ret.
  - eapply (reads_bind _ _ _ [t] ts (Some (Ast.LiteralE n l))); [by apply read_literal|]. cbv beta iota.
    replace (acc ++ l :: ls) with ((acc ++ [l]) ++ ls) by (by rewrite <-app_assoc). apply IH; [lia|done].
Qed.

Lemma read_st_directive d t name x sign type ty ts ls semi def :
  named "directive" (Some t) = true -> identifier name x -> kind sign = Assign \/ named "from" (Some sign) = true ->
  identifier type ty -> literals_of ts ls -> kind semi = Semicolon -> d !! x = None -> find_directive_def ty x ls = Some def ->
  stmt_read d (t :: name :: sign :: type :: ts ++ [semi])
    (ParsedDirective (Ast.mkNode (i32 (start t)) (i32 (end_ semi))) ty x def) d.
Proof.
  intros Ht Hx Hsign Hty Hls Hs Hn Hd. split; [by eapply first_named|]. intros fuel r _ _. dispatch. unfold parse_directive_statement.
  apply reads_keyword; [done|]. eapply reads_identifier; [done|].
  assert (forall (f : unit -> M Parsed) ts1, reads_to d (f tt) ts1 (ParsedDirective (Ast.mkNode (i32 (start t)) (i32 (end_ semi))) ty x def) r d ->
    reads_to d
      (assign ← accept Assign;
       (match assign with
        | Some _ => mret tt
        | None => t0 ← peek; if named "from" t0 then next else fail "directive missing '='" t0
        end) ≫= f) (sign :: ts1) (ParsedDirective (Ast.mkNode (i32 (start t)) (i32 (end_ semi))) ty x def) r d) as Hgo.
  { intros f ts1 Hf. destruct Hsign as [Hk|Hfrom].
    - apply reads_accept; [done|]. by eapply (reads_bind _ _ _ [] ts1 tt); [apply reads_ret|].
    - pose proof (named_is_identifier _ _ Hfrom) as [Hk _].
      apply reads_accept_none; [cbn [app head]; by rewrite (has_kind_of sign Identifier [Assign] false Hk eq_refl)|].
      eapply (reads_bind _ _ _ [sign] ts1 tt); [|exact Hf]. apply reads_peek. cbn [app head]. rewrite Hfrom.
      intros rp. exists rp. reflexivity. }
  apply Hgo. eapply reads_identifier; [done|].
  eapply (reads_bind _ _ _ ts [semi] ls); [apply reads_looping, (read_literals d ts ls Hls _ []); [rewrite length_app; lia|done]|].
  apply reads_eat; [done|]. intros rp. exists rp. unfold directives_of, mbind, M_bind. cbn [app Parser.directive_map snd].
  rewrite Hn, Hd. reflexivity.
Qed.

Lemma expression_start_named kw t ts : expression_start (t :: ts) = true -> kw ∈ keywords -> named kw (Some t) = false.
Proof.
  unfold expression_start. intros [_ H]%andb_prop Hkw. destruct (named kw (Some t)) eqn:E; [|done]. exfalso.
  apply named_is_identifier in E as [Hk Hn]. rewrite (has_kind_of t Identifier [Identifier] true Hk eq_refl), Hn in H.
  unfold is_keyword in H. by rewrite bool_decide_true in H.
Qed.

Lemma read_st_expression d ts e semi : expression_start ts = true -> phrase aa d LExpression ts e -> kind semi = Semicolon ->
  stmt_read d (ts ++ [semi]) (ParsedStatement (Ast.ExpressionStatement (Ast.mkNode (start_of e) (i32 (end_ semi))) e)) d.
Proof.
  intros Hst He Hs. pose proof (phrase_starts _ _ _ He) as Hstart. destruct ts as [|t ts]; [done|].
  assert (forall kw, kw ∈ keywords -> named kw (Some t) = false) as Hnamed by (intros kw; by eapply expression_start_named).
  split.
  - cbn [app]. split; [apply Hnamed; by apply (bool_decide_eq_true_1 _)|].
    destruct (starts_not_end (t :: ts) [] Hstart) as (t1 & ts1 & [= <- _] & Hk). done.
  - intros fuel r _ _. unfold parse_statement. apply reads_peek. cbn [app head].
    rewrite !Hnamed by (by apply (bool_decide_eq_true_1 _)).
    assert (has_kind [LCurly] (Some t) = false) as -> by (apply andb_prop in Hst as [H _]; by apply negb_true_iff in H).
    unfold parse_expression_statement. eapply (reads_expr d _ (t :: ts) e semi []); [exact He|closed|].
    apply reads_semicolon; [done|]. apply reads_ret.
Qed.

(** ** Reading blocks *)

Lemma read_braces d open ts l d' close : kind open = LCurly -> items_read d ts l d' -> kind close = RCurly ->
  block_read d (open :: ts ++ [close]) (Ast.mkNode (i32 (start open)) (i32 (end_ close))) l d'.
Proof.
  intros Ho (_ & H & _) Hc. split; [done|]. intros fuel r Hl. cbn [length] in Hl. rewrite length_app in Hl. cbn [length] in Hl.
  unfold parse_block. eapply (reads_bind _ _ _ [open] (ts ++ [close]) (start open)).
  - cbv iota. apply reads_eat; [done|]. apply reads_ret.
  - apply reads_looping, (H fuel _ None []); [lia|rewrite !length_app; cbn [length]; lia|done].
Qed.

Lemma read_st_block d ts n l d' : block_read d ts n l d' -> stmt_read d ts (ParsedStatement (Ast.BlockS n l)) d'.
Proof.
  intros [Hh H]. destruct ts as [|t ts]; [done|].
  assert (forall kw, named kw (Some t) = false) as Hnamed by (intros kw; by apply (named_kind t LCurly)).
  split; [split; [apply Hnamed|by rewrite (has_kind_of t LCurly [Semicolon; RCurly] false Hh eq_refl)]|].
  intros fuel r Hl _. unfold parse_statement. apply reads_peek. cbn [app head]. rewrite !Hnamed.
  rewrite (has_kind_of t LCurly [LCurly] true Hh eq_refl). eapply reads_then; [by apply H|]. apply reads_ret.
Qed.

Lemma read_st_if d ts st d' : if_read d ts st d' -> stmt_read d ts (ParsedStatement st) d'.
Proof.
  intros [Hh H]. destruct ts as [|t ts]; [done|]. split; [by eapply first_named|]. intros fuel r Hl Hr. dispatch.
  unfold parse_if_statement. eapply reads_then; [|apply reads_ret].
  exact (reads_looping d _ _ _ _ _ (H fuel (S (length ((t :: ts) ++ r))) r Hl ltac:(rewrite length_app; lia) Hr)).
Qed.

(** The part of an [if] up to its first block. *)
Lemma read_if_head {B} d t lp ts1 e rp ts2 n l d1 fuel (f : Token -> Ast.Expression -> Ast.Node * list Ast.Statement -> M B) ts3 b r d2 :
  named "if" (Some t) = true -> kind lp = LParen -> phrase aa d LExpression ts1 e -> kind rp = RParen -> block_read d ts2 n l d1 ->
  (length ts2 <= S fuel)%nat -> reads_to d1 (f t e (n, l)) ts3 b r d2 ->
  reads_to d
    (if_token ← eat_keyword "if"; eat LParen;; condition ← parse_expr aa; eat RParen;;
     true_block ← parse_block (statement aa fuel) true; f if_token condition true_block) (t :: lp :: ts1 ++ rp :: ts2 ++ ts3) b r d2.
Proof.
  intros Ht Hlp He Hrp [_ Hb] Hl Hf. apply reads_keyword; [done|]. apply reads_eat; [done|]. eapply reads_expr; [exact He|closed|].
  apply reads_eat; [done|]. eapply reads_bind; [by apply Hb|exact Hf].
Qed.

Lemma read_if_then d t lp ts1 e rp ts2 n l d' :
  named "if" (Some t) = true -> kind lp = LParen -> phrase aa d LExpression ts1 e -> kind rp = RParen -> block_read d ts2 n l d' ->
  if_read d (t :: lp :: ts1 ++ rp :: ts2)
    (Ast.IfStatement (Ast.mkNode (i32 (start t)) (Ast.end_pos n)) e (Ast.BlockS n l) None) d'.
Proof.
  intros Ht Hlp He Hrp Hb. split; [done|]. intros fuel k r Hl Hk Hr. cbn [length] in Hl, Hk. rewrite length_app in Hl. cbn [length] in Hl.
  destruct k as [|k]; [lia|]. cbn [if_loop]. rewrite <-(app_nil_r ts2). eapply read_if_head; [done..|lia|]. cbv beta.
  apply reads_peek. cbn [app]. rewrite Hr. eapply (reads_bind _ _ _ [] [] None); apply reads_ret.
Qed.

Lemma read_if_else d t lp ts1 e rp ts2 n l d1 el ts3 n' l' d2 :
  named "if" (Some t) = true -> kind lp = LParen -> phrase aa d LExpression ts1 e -> kind rp = RParen -> block_read d ts2 n l d1 ->
  named "else" (Some el) = true -> block_read d1 ts3 n' l' d2 ->
  if_read d (t :: lp :: ts1 ++ rp :: ts2 ++ el :: ts3)
    (Ast.IfStatement (Ast.mkNode (i32 (start t)) (Ast.end_pos n')) e (Ast.BlockS n l) (Some (Ast.BlockS n' l'))) d2.
Proof.
  intros Ht Hlp He Hrp Hb Hel [Hh Hb']. split; [done|]. intros fuel k r Hl Hk Hr. cbn [length] in Hl, Hk.
  rewrite length_app in Hl. cbn [length] in Hl. rewrite length_app in Hl. cbn [length] in Hl.
  destruct k as [|k]; [lia|]. cbn [if_loop]. eapply read_if_head; [done..|lia|]. cbv beta.
  apply reads_peek. cbn [app head]. rewrite Hel. eapply (reads_then _ _ _ _ (Some (Ast.BlockS n' l'))); [|apply reads_ret].
  apply reads_next, reads_peek. destruct ts3 as [|t3 ts3]; [done|]. cbn [app head]. kinds.
  eapply reads_then; [apply (Hb' fuel); lia|]. apply reads_ret.
Qed.

Lemma read_if_else_if d t lp ts1 e rp ts2 n l d1 el ts3 st d2 :
  named "if" (Some t) = true -> kind lp = LParen -> phrase aa d LExpression ts1 e -> kind rp = RParen -> block_read d ts2 n l d1 ->
  named "else" (Some el) = true -> if_read d1 ts3 st d2 ->
  if_read d (t :: lp :: ts1 ++ rp :: ts2 ++ el :: ts3)
    (Ast.IfStatement (Ast.mkNode (i32 (start t)) (Ast.end_pos (Ast.statement_node st))) e (Ast.BlockS n l) (Some st)) d2.
Proof.
  intros Ht Hlp He Hrp Hb Hel [Hh Hst]. split; [done|]. intros fuel k r Hl Hk Hr. cbn [length] in Hl, Hk.
  rewrite length_app in Hl, Hk. cbn [length] in Hl, Hk. rewrite length_app in Hl, Hk. cbn [length] in Hl, Hk.
  destruct k as [|k]; [lia|]. cbn [if_loop]. eapply read_if_head; [done..|lia|]. cbv beta.
  apply reads_peek. cbn [app head]. rewrite Hel. eapply (reads_then _ _ _ _ (Some st)); [|apply reads_ret].
  apply reads_next, reads_peek. destruct ts3 as [|t3 ts3]; [done|]. cbn [app head]. names.
  eapply reads_then; [apply (Hst fuel k); [lia|lia|done]|]. apply reads_ret.
Qed.

Lemma read_st_for d t lp lt k key comma v value o ts1 e rp ts2 n l d' :
  named "for" (Some t) = true -> kind lp = LParen -> named "let" (Some lt) = true -> identifier k key -> kind comma = Comma ->
  identifier v value -> named "of" (Some o) = true -> phrase aa d LExpression ts1 e -> kind rp = RParen -> block_read d ts2 n l d' ->
  stmt_read d (t :: lp :: lt :: k :: comma :: v :: o :: ts1 ++ rp :: ts2)
    (ParsedStatement (Ast.ForeachStatement (Ast.mkNode (i32 (start t)) (Ast.end_pos n)) key value e l)) d'.
Proof.
  intros Ht Hlp Hlt Hk Hc Hv Ho He Hrp [_ Hb]. split; [by eapply first_named|]. intros fuel r Hl _. cbn [length] in Hl.
  rewrite length_app in Hl. cbn [length] in Hl. dispatch. unfold parse_foreach_statement.
  apply reads_keyword; [done|]. apply reads_eat; [done|]. apply reads_keyword; [done|]. eapply reads_identifier; [done|].
  apply reads_eat; [done|]. eapply reads_identifier; [done|]. apply reads_keyword; [done|]. eapply reads_expr; [exact He|closed|].
  apply reads_eat; [done|]. eapply reads_then; [apply Hb; lia|]. apply reads_ret.
Qed.

Lemma read_st_try d t ts1 n1 l1 d1 c lp x name rp ts2 n2 l2 d2 :
  named "try" (Some t) = true -> block_read d ts1 n1 l1 d1 -> named "catch" (Some c) = true -> kind lp = LParen -> identifier x name ->
  kind rp = RParen -> block_read d1 ts2 n2 l2 d2 ->
  stmt_read d (t :: ts1 ++ c :: lp :: x :: rp :: ts2)
    (ParsedStatement (Ast.TryCatchStatement (Ast.mkNode (i32 (start t)) (Ast.end_pos n2)) name l1 l2)) d2.
Proof.
  intros Ht [_ H1] Hc Hlp Hx Hrp [_ H2]. split; [by eapply first_named|]. intros fuel r Hl _. cbn [length] in Hl.
  rewrite length_app in Hl. cbn [length] in Hl. dispatch. unfold parse_try_catch_statement.
  apply reads_keyword; [done|]. eapply reads_bind; [apply H1; lia|]. apply reads_keyword; [done|]. apply reads_eat; [done|].
  eapply reads_identifier; [done|]. apply reads_eat; [done|]. eapply reads_then; [apply H2; lia|]. apply reads_ret.
Qed.

(** ** Reading the statements of a block *)

Lemma read_it_end d : items_read d [] [] d.
Proof.
  split; [done|]. split.
  - intros fuel k range acc start_pos close r _ Hk Hc. destruct k as [|k]; [cbn in Hk; lia|]. cbn [block_loop app]. rewrite app_nil_r.
    apply reads_peek. cbn [app head]. kinds. apply reads_next, reads_ret.
  - intros fuel k range acc start_pos n _ Hk Hn. destruct k as [|k]; [cbn in Hk; lia|]. cbn [block_loop]. rewrite app_nil_r.
    apply reads_peek. cbn [app head]. cbn in Hn. rewrite Hn. apply reads_ret.
Qed.

Lemma read_it_semicolon d semi ts l d' : kind semi = Semicolon -> items_read d ts l d' -> items_read d (semi :: ts) l d'.
Proof.
  intros Hs (_ & H1 & H2). split; [by apply (named_kind semi Semicolon)|]. split.
  - intros fuel k range acc start_pos close r Hl Hk Hc. cbn [length] in Hl, Hk. destruct k as [|k]; [lia|]. cbn [block_loop app].
    apply reads_peek. cbn [app head]. kinds. apply reads_accept; [done|]. apply H1; [lia|lia|done].
  - intros fuel k range acc start_pos n Hl Hk Hn. cbn [length] in Hl, Hk. destruct k as [|k]; [lia|]. cbn [block_loop].
    apply reads_peek. cbn [app head andb]. apply reads_accept; [done|]. apply H2; [lia|lia|done].
Qed.

(** A turn of the loop on a statement. *)
Lemma statement_turn d ts1 p d1 fuel k must_curly start_pos range acc ts2 b r d2 :
  stmt_read d ts1 p d1 -> (length ts1 <= fuel)%nat -> named "else" (head (ts2 ++ r)) = false ->
  reads_to d1
    (match p with
     | ParsedDirective _ _ name def => add_directive name def;; block_loop (statement aa fuel) must_curly start_pos k range acc
     | ParsedStatement st =>
         block_loop (statement aa fuel) must_curly start_pos k (Some (extend range (Ast.statement_node st))) (acc ++ [st])
     end) ts2 b r d2 ->
  reads_to d (block_loop (statement aa fuel) must_curly start_pos (S k) range acc) (ts1 ++ ts2) b r d2.
Proof.
  intros [Hf H] Hl Hr Hgo. destruct ts1 as [|t ts1]; [done|]. destruct Hf as [_ Hk]. cbn [block_loop]. apply reads_peek. cbn [app head].
  assert (has_kind [RCurly] (Some t) = false /\ has_kind [Semicolon] (Some t) = false) as [H1 H2].
  { unfold has_kind in *. rewrite !bool_decide_eq_false, !elem_of_cons, ?elem_of_nil in *. tauto. }
  rewrite H1, andb_false_r. apply reads_accept_none; [exact H2|]. destruct fuel as [|fuel]; [cbn in Hl; lia|].
  eapply (reads_bind _ _ _ (t :: ts1) ts2 p); [|exact Hgo]. by apply H.
Qed.

Lemma first_not_else ts r : first_ok ts -> named "else" (head (ts ++ r)) = false.
Proof. destruct ts; [done|]. by intros []. Qed.

Lemma read_it_statement d ts1 st d1 ts2 l d2 : stmt_read d ts1 (ParsedStatement st) d1 -> items_read d1 ts2 l d2 ->
  items_read d (ts1 ++ ts2) (st :: l) d2.
Proof.
  intros H (Hn & H1 & H2). split; [apply first_not_else, H|]. split.
  - intros fuel k range acc start_pos close r Hl Hk Hc. rewrite length_app in Hl, Hk. destruct k as [|k]; [lia|]. rewrite <-app_assoc.
    assert ((1 <= length ts1)%nat) by (destruct ts1; [by destruct H as [[] _]|cbn; lia]).
    eapply statement_turn; [exact H|lia| |].
    + rewrite <-app_assoc. destruct ts2 as [|t2 ts2]; [cbn [app head]; by apply (named_kind close RCurly)|exact Hn].
    + replace (acc ++ st :: l) with ((acc ++ [st]) ++ l) by (by rewrite <-app_assoc). apply H1; [lia|lia|done].
  - intros fuel k range acc start_pos n Hl Hk Hr. rewrite length_app in Hl, Hk. destruct k as [|k]; [lia|].
    assert ((1 <= length ts1)%nat) by (destruct ts1; [by destruct H as [[] _]|cbn; lia]).
    eapply statement_turn; [exact H|lia|rewrite app_nil_r; exact Hn|].
    replace (acc ++ st :: l) with ((acc ++ [st]) ++ l) by (by rewrite <-app_assoc). apply H2; [lia|lia|exact Hr].
Qed.

Lemma reads_add_directive {B} d x def (f : unit -> M B) ts b r d' :
  reads_to (<[x := def]> d) (f tt) ts b r d' -> reads_to d (add_directive x def ≫= f) ts b r d'.
Proof. intros H rp. exact (H rp). Qed.

Lemma read_it_directive d ts1 n ty x def d1 ts2 l d2 : stmt_read d ts1 (ParsedDirective n ty x def) d1 ->
  items_read (<[x := def]> d1) ts2 l d2 -> items_read d (ts1 ++ ts2) l d2.
Proof.
  intros H (Hn & H1 & H2). split; [apply first_not_else, H|].
  assert ((1 <= length ts1)%nat) by (destruct ts1; [by destruct H as [[] _]|cbn; lia]). split.
  - intros fuel k range acc start_pos close r Hl Hk Hc. rewrite length_app in Hl, Hk. destruct k as [|k]; [lia|]. rewrite <-app_assoc.
    eapply statement_turn; [exact H|lia| |].
    + rewrite <-app_assoc. destruct ts2 as [|t2 ts2]; [cbn [app head]; by apply (named_kind close RCurly)|exact Hn].
    + apply reads_add_directive, H1; [lia|lia|done].
  - intros fuel k range acc start_pos n' Hl Hk Hr. rewrite length_app in Hl, Hk. destruct k as [|k]; [lia|].
    eapply statement_turn; [exact H|lia|rewrite app_nil_r; exact Hn|]. apply reads_add_directive, H2; [lia|lia|exact Hr].
Qed.

Lemma statements_read :
  (forall d ts p d', stmt d ts p d' -> stmt_read d ts p d') /\ (forall d ts st d', if_phrase d ts st d' -> if_read d ts st d') /\
  (forall d ts n l d', block d ts n l d' -> block_read d ts n l d') /\ (forall d ts l d', items d ts l d' -> items_read d ts l d').
Proof.
  apply statements_mut; intros.
  - by apply read_st_break.
  - by apply read_st_continue.
  - by apply read_st_return.
  - by apply read_st_return_value.
  - by apply read_st_throw.
  - by eapply read_st_let.
  - by eapply read_st_let_value.
  - by eapply read_st_directive.
  - by apply read_st_expression.
  - by apply read_st_block.
  - by apply read_st_if.
  - by eapply read_st_for.
  - by eapply read_st_try.
  - by apply read_if_then.
  - by eapply read_if_else.
  - by eapply read_if_else_if.
  - by apply read_braces.
  - apply read_it_end.
  - by apply read_it_semicolon.
  - by eapply read_it_statement.
  - by eapply read_it_directive.
Qed.

(** [parse_script] on tokens that are the statements of a script. *)
Lemma script_read input ts l d' n : items ∅ ts l d' -> range_of None l = Some n -> process input = Some (inr ts) ->
  exists props, parse_script aa input = Some (inr (Ast.RootBlock n l, props)).
Proof.
  intros Hi Hn Hp. destruct (proj2 (proj2 (proj2 statements_read)) _ _ _ _ Hi) as (_ & _ & Hr).
  assert (exists t ts', ts = t :: ts') as (t & ts' & Ets).
  { destruct ts as [|t ts']; [|by eexists _, _]. exfalso. assert (l = []) as ->; [|done].
    remember [] as ts0 eqn:E. clear -E Hi HL. revert E. induction Hi; intros E; try done.
    all: apply app_nil in E as [-> _]; match goal with H : stmt _ [] _ _ |- _ => by destruct (proj1 statements_read _ _ _ _ H) as [[] _] end. }
  specialize (Hr (S (length ts)) (S (length ts)) None [] (start t) n (le_S _ _ (le_n _)) (le_n _) Hn []).
  rewrite app_nil_r in Hr. destruct Hr as [props E]. exists props. unfold parse_script, parse_text, Parser.initial. rewrite Hp.
  unfold whole_script, mbind, M_bind, peek. cbn [rest]. rewrite Ets. cbn [head]. rewrite <-Ets.
  assert (looping (fun fuel => parse_block (statement aa fuel) false) (Parser.mkState ts ∅ []) =
    block_loop (statement aa (S (length ts))) false (start t) (S (length ts)) None [] (Parser.mkState ts ∅ [])) as ->.
  { unfold looping. cbn [rest]. generalize (statement aa (S (length ts))) as st. intros st.
    unfold parse_block, looping, mbind, M_bind, peek, mret, M_ret. cbn [rest]. rewrite Ets. reflexivity. }
  rewrite E. reflexivity.
Qed.

End Statements.

(** C6. The parser implements the grammar of statements: a text whose tokens are the
    statements of a script (blocks, [if] with its [else], [for], [try], [let],
    directives and simple statements) is parsed into the block of their trees, with
    the exact ranges. *)
Theorem parse_script_reads_items `{HL : Library} (allow_assign : bool) (input : list Z) ts l d' n :
  items allow_assign ∅ ts l d' -> range_of None l = Some n -> process input = Some (inr ts) ->
  exists props, parse_script allow_assign input = Some (inr (Ast.RootBlock n l, props)).
Proof. apply script_read. Qed.

(** [let s = 1 + 2; if (s == 3) { return s + 40; }] *)
Module Sample.

#[local] Existing Instance empty_library.

Definition sample : list Z := bytes_of_string "let s = 1 + 2; if (s == 3) { return s + 40; }".

Definition number (p i : Z) (bytes : string) : Ast.Expression :=
  Ast.LiteralE (Ast.mkNode p (p + size (bytes_of_string bytes))) (Ast.Integer i).

Definition add (a b : Ast.Expression) : Ast.Expression := Ast.BinaryOperator (span a b) Ast.Add a b.

Definition s_at (p : Z) : Ast.Expression := Ast.VariableReference (Ast.mkNode p (p + 1)) "s".

Definition statements : list Ast.Statement :=
  [ Ast.VariableDeclareStatement (Ast.mkNode 0 14) "s" (Some (add (number 8 1 "1") (number 12 2 "2")));
    Ast.IfStatement (Ast.mkNode 15 45)
      (Ast.BinaryOperator (Ast.mkNode 19 25) Ast.Eq (s_at 19) (number 24 3 "3"))
      (Ast.BlockS (Ast.mkNode 27 45)
        [Ast.ReturnStatement (Ast.mkNode 29 43) (Some (add (s_at 36) (number 40 40 "40")))]) None ].

Lemma phrase_sum d ts e : phrase true d LUnary ts e -> phrase true d LSum ts e.
Proof. intros H. apply (phrase_chain _ _ LSum), (phrase_chain _ _ LProduct), H; reflexivity. Qed.

Lemma phrase_add d ts1 a t ts2 b : kind t = Plus -> phrase true d LUnary ts1 a -> phrase true d LUnary ts2 b ->
  phrase true d LExpression (ts1 ++ t :: ts2) (add a b).
Proof.
  intros Ht Ha Hb. apply phrase_expression. eapply (p_chain true d LSum); [done|by apply (phrase_chain _ _ LProduct)|].
  rewrite <-(app_nil_r ts2). eapply (m_operator true d LSum a t (fun n l r => Ast.BinaryOperator n Ast.Add l r) ts2 b).
  - rewrite Ht. by apply (bool_decide_eq_true_1 _).
  - cbn [combine]. unfold arithmetic. by rewrite Ht.
  - by apply (phrase_chain _ _ LProduct).
  - apply m_end.
Qed.

Lemma phrase_digits d t e : literal_of t e -> kind t = LiteralInt -> phrase true d LUnary [t] e.
Proof.
  intros H Hk. apply p_operand.
  - cbn [head]. by apply (named_kind t LiteralInt).
  - cbn [head]. by rewrite (has_kind_of t LiteralInt [Plus; Minus; Not] false Hk eq_refl).
  - apply (p_primary true d [t] e []); [by apply s_literal|constructor|done].
Qed.

Definition token (k : TokenKind) (p : Z) (s : string) : Token :=
  mkToken k p (p + size (bytes_of_string s)) (bytes_of_string s).

Definition tokens : list Token :=
  (token Identifier 0 "let" :: token Identifier 4 "s" :: token Assign 6 "=" ::
    ([token LiteralInt 8 "1"] ++ token Plus 10 "+" :: [token LiteralInt 12 "2"]) ++ [token Semicolon 13 ";"]) ++
  (token Identifier 15 "if" :: token LParen 18 "(" ::
    ([token Identifier 19 "s"] ++ token Eq 21 "==" :: [token LiteralInt 24 "3"]) ++ token RParen 25 ")" ::
    (token LCurly 27 "{" ::
      ((token Identifier 29 "return" ::
        ([token Identifier 36 "s"] ++ token Plus 38 "+" :: [token LiteralInt 40 "40"]) ++ [token Semicolon 42 ";"]) ++ []) ++
      [token RCurly 44 "}"])) ++ [].

Lemma phrase_s d p : variable_of (token Identifier p "s") = s_at p -> phrase true d LUnary [token Identifier p "s"] (s_at p).
Proof.
  intros <-. apply (phrase_name true d _ "s"); [|discriminate|reflexivity].
  split; [reflexivity|]. split; [reflexivity|]. split; [reflexivity|]. by apply (bool_decide_eq_true_1 _).
Qed.

Lemma sample_items d : items true d tokens statements d.
Proof.
  assert (forall p i s, parse_literal_token (token LiteralInt p s) = inr (Ast.mkNode p (p + size (bytes_of_string s)), Ast.Integer i) ->
    phrase true d LUnary [token LiteralInt p s] (number p i s)) as Hnumber.
  { intros p i s H. apply phrase_digits; [|reflexivity]. exists (Ast.mkNode p (p + size (bytes_of_string s))), (Ast.Integer i). by split. }
  unfold tokens, statements. eapply it_statement.
  { apply (st_let_value true d (token Identifier 0 "let") (token Identifier 4 "s") "s" (token Assign 6 "=")
      ([token LiteralInt 8 "1"] ++ token Plus 10 "+" :: [token LiteralInt 12 "2"]) (add (number 8 1 "1") (number 12 2 "2"))
      (token Semicolon 13 ";")); try reflexivity; [by split|].
    apply phrase_add; [reflexivity|apply Hnumber; reflexivity|apply Hnumber; reflexivity]. }
  eapply it_statement; [|apply it_end]. apply st_if. apply (if_then true d (token Identifier 15 "if") (token LParen 18 "(")
    ([token Identifier 19 "s"] ++ token Eq 21 "==" :: [token LiteralInt 24 "3"])
    (Ast.BinaryOperator (Ast.mkNode 19 25) Ast.Eq (s_at 19) (number 24 3 "3")) (token RParen 25 ")")
    (token LCurly 27 "{" :: _ ++ [token RCurly 44 "}"]) (Ast.mkNode 27 45)); try reflexivity.
  - apply p_or, (phrase_chain _ _ LOr), (phrase_chain _ _ LAnd); [reflexivity|reflexivity|].
    apply (p_relation true d _ (s_at 19) _ Ast.Eq _ (number 24 3 "3")); try reflexivity;
      apply phrase_sum; [apply phrase_s; reflexivity|apply Hnumber; reflexivity].
  - apply (bl_braces true d (token LCurly 27 "{") _ _ d (token RCurly 44 "}")); [reflexivity| |reflexivity].
    eapply it_statement; [|apply it_end]. apply (st_return_value true d (token Identifier 29 "return")
      ([token Identifier 36 "s"] ++ token Plus 38 "+" :: [token LiteralInt 40 "40"]) (add (s_at 36) (number 40 40 "40"))
      (token Semicolon 42 ";")); try reflexivity.
    apply phrase_add; [reflexivity|apply phrase_s; reflexivity|apply Hnumber; reflexivity].
Qed.

Lemma sample_tokens : process sample = Some (inr tokens).
Proof. vm_compute. reflexivity. Qed.

End Sample.

Lemma parse_script_reads_items_witness :
  exists props, parse_script (H := empty_library) true Sample.sample =
    Some (inr (Ast.RootBlock (Ast.mkNode 0 45) Sample.statements, props)).
Proof.
  apply (parse_script_reads_items (HL := empty_library) true Sample.sample Sample.tokens Sample.statements ∅).
  - apply Sample.sample_items.
  - vm_compute. reflexivity.
  - apply Sample.sample_tokens.
Defined.

End Text.

Module Whole.
Import Tokens Literals Parser Grammar Text.

(** [parse::optimise]; a null pointer is [None]. *)
Definition optimise (node : option Ast.Root) : option Ast.Root := node.

(** [compile_script]. *)
Definition compile_script `{HL : Library} (script : list Z) (allow_assign : bool)
    : option (ParseError + Compiler.Compiled) :=
  match parse_script allow_assign script with
  | None => None
  | Some (inl e) => Some (inl e)
  | Some (inr (parsed, _)) =>
      match optimise (Some parsed) with
      | None => Some (inl (mkError "optimise failed" 0))
      | Some optimised => Some (inr (Compiler.compile optimised))
      end
  end.

Section Run.
Context `{HL : Library} `{HV : ScriptVm.Values} `{HVL : !ScriptSemantics.ValuesLaws HV}.
Context (root : V) (await : H -> (V + V) * H).

(** C2. From the text to the result, for scripts that fit and runs without a
    garbage collection: when the tokens of a text are the statements of a script,
    the script fits ([Program.fits]: fewer than 2^23 instructions, at most 2^15
    operands, 2^11 variables and 255 arguments in a call, and an exception index
    that finds every handler, as it does with at most one [try] statement but not
    with every nested one), the values keep the laws of [ValuesLaws], the host
    never lowers the count of collections, and the evaluator gives a result for the
    tree of these statements without a collection, then [compile_script] compiles
    the text, and the host that runs the compiled script and answers its
    asynchronous calls gets that result and that heap. *)
Theorem script_text_correct (input : list Z) (allow_assign : bool) ts l d' n fuel h r h' :
  process input = Some (inr ts) -> items allow_assign ∅ ts l d' -> range_of None l = Some n ->
  Program.fits (Ast.RootBlock n l) = true -> Program.host_counts await ->
  ScriptSemantics.collections h' = ScriptSemantics.collections h -> Semantics.run root await fuel (Ast.RootBlock n l) h = Some (r, h') ->
  exists unit, compile_script input allow_assign = Some (inr unit) /\
  let '(cfg, v) := Vm.construct unit root h in
  exists rounds steps v', Program.serve cfg await rounds steps v = Vm.Done v' /\ Program.ended r h' v'.
Proof.
  intros Hp Hi Hn Hf Hcount Hoff Hr. destruct (script_read allow_assign input ts l d' n Hi Hn Hp) as [props E].
  exists (Compiler.compile (Ast.RootBlock n l)). split; [unfold compile_script; by rewrite E|].
  by apply (Program.script_served root await _ fuel h r h').
Qed.

End Run.

Lemma script_text_correct_witness :
  exists unit, compile_script (HL := empty_library) Sample.sample true = Some (inr unit) /\
  let '(cfg, v) := @Vm.construct Toy.values unit Toy.VUndefined Toy.start_heap in
  exists rounds steps v' h', @Program.serve Toy.values cfg Toy.await rounds steps v = Vm.Done v' /\
    @Program.ended Toy.values (inr (Toy.VInt 43)) h' v'.
Proof.
  destruct (script_text_correct (HL := empty_library) (HV := Toy.values) (HVL := Toy.values_laws) Toy.VUndefined Toy.await Sample.sample true
    Sample.tokens Sample.statements ∅ (Ast.mkNode 0 45) 100 Toy.start_heap (inr (Toy.VInt 43)) Toy.start_heap) as (unit & E & P).
  - apply Sample.sample_tokens.
  - apply Sample.sample_items.
  - vm_compute. reflexivity.
  - vm_compute. reflexivity.
  - intros h. apply Nat.le_refl.
  - reflexivity.
  - vm_compute. reflexivity.
  - exists unit. split; [exact E|]. destruct (Vm.construct unit _ _) as [cfg v]. destruct P as (k & m & v' & P). exists k, m, v', Toy.start_heap. exact P.
Defined.
End Whole.
