(* ===== verification/JsText.v ===== *)
(** * UTF-8 and strings of UTF-16 units
    ([src/common/json/Utf.cpp], the text functions of [JsGc.cpp], the validator of
    [JsonEncode.cpp])

    A text is a list of bytes; a function that moves a position through it takes the
    rest of the text and gives the number of bytes it took.  [utf8] and [utf16] are
    the encodings of a code point, the specification the loops are compared with. *)
From S2P Require Import Prelude.

#[local] Ltac Zify.zify_post_hook ::= Z.to_euclidean_division_equations.

Module Utf.

(** ** Reading one code point *)

(** What the first byte says: how many bytes follow, their leading bits, and the
    least code point of such a sequence. *)
Definition lead (ch : Z) : option (nat * Z * Z) :=
  if Z.land ch 0xE0 =? 0xC0 then Some (1%nat, Z.land ch 0x1F, 0x80)
  else if Z.land ch 0xF0 =? 0xE0 then Some (2%nat, Z.land ch 0x0F, 0x800)
  else if Z.land ch 0xF8 =? 0xF0 then Some (3%nat, Z.land ch 0x07, 0x10000)
  else None.

Fixpoint continuation (needed : nat) (code : Z) (l : list Z) : option Z :=
  match needed, l with
  | O, _ => Some code
  | S needed', next :: l' =>
      if Z.land next 0xC0 =? 0x80 then continuation needed' (u32 (Z.lor (Z.shiftl code 6) (Z.land next 0x3F))) l' else None
  | S _, [] => None
  end.

Definition surrogate (code : Z) : bool := (0xD800 <=? code) && (code <=? 0xDFFF).

Definition refused (code min_value : Z) : bool := (code <? min_value) || (0x10FFFF <? code) || surrogate code.

(** The code point and the number of its bytes; the callers check that the text is
    not at its end. *)
Definition utf8_next_codepoint (l : list Z) : option (Z * nat) :=
  match l with
  | [] => None
  | ch :: rest =>
      if ch <? 0x80 then Some (ch, 1%nat)
      else
        match lead ch with
        | None => None
        | Some (needed, code, min_value) =>
            if (length l <=? needed)%nat then None
            else
              match continuation needed code rest with
              | None => None
              | Some code => if refused code min_value then None else Some (code, S needed)
              end
        end
  end.

(** ** The loops of [Utf.cpp] *)

Record Utf8ScanResult := mkScan { utf16_len : Z; all_byte : bool }.

Fixpoint scan_loop (fuel : nat) (out : Utf8ScanResult) (l : list Z) : option Utf8ScanResult :=
  match l, fuel with
  | [], _ => Some out
  | _, O => None
  | _, S fuel' =>
      match utf8_next_codepoint l with
      | None => None
      | Some (codepoint, n) =>
          scan_loop fuel'
            (mkScan (u64 (utf16_len out + (if codepoint <=? 0xFFFF then 1 else 2))) (all_byte out && negb (0xFF <? codepoint)))
            (drop n l)
      end
  end.

Definition utf8_scan (data : list Z) : option Utf8ScanResult := scan_loop (length data) (mkScan 0 true) data.

Definition utf8_validate (data : list Z) : bool := match utf8_scan data with Some _ => true | None => false end.

(** The loops that write take the number of units there is room for and give what
    they have written. *)
Fixpoint write_bytes_loop (fuel : nat) (dst_len : nat) (out : list Z) (l : list Z) : option (list Z) :=
  match l, fuel with
  | [], _ => if (length out =? dst_len)%nat then Some out else None
  | _, O => None
  | _, S fuel' =>
      match utf8_next_codepoint l with
      | None => None
      | Some (codepoint, n) =>
          if 0xFF <? codepoint then None
          else if (dst_len <=? length out)%nat then None
          else write_bytes_loop fuel' dst_len (out ++ [u8 codepoint]) (drop n l)
      end
  end.

Definition utf8_write_bytes (data : list Z) (dst_len : nat) : option (list Z) :=
  match data with [] => Some [] | _ => write_bytes_loop (length data) dst_len [] data end.

Definition high_surrogate (codepoint : Z) : Z := u16 (0xD800 + Z.shiftr (u32 (codepoint - 0x10000)) 10).
Definition low_surrogate (codepoint : Z) : Z := u16 (0xDC00 + Z.land (u32 (codepoint - 0x10000)) 0x3FF).

Fixpoint write_utf16_loop (fuel : nat) (dst_len : nat) (out : list Z) (l : list Z) : option (list Z) :=
  match l, fuel with
  | [], _ => if (length out =? dst_len)%nat then Some out else None
  | _, O => None
  | _, S fuel' =>
      match utf8_next_codepoint l with
      | None => None
      | Some (codepoint, n) =>
          if codepoint <=? 0xFFFF then
            if (dst_len <=? length out)%nat then None
            else write_utf16_loop fuel' dst_len (out ++ [u16 codepoint]) (drop n l)
          else if (dst_len <=? length out + 1)%nat then None
          else write_utf16_loop fuel' dst_len (out ++ [high_surrogate codepoint; low_surrogate codepoint]) (drop n l)
      end
  end.

Definition utf8_write_utf16 (data : list Z) (dst_len : nat) : option (list Z) :=
  match data with [] => Some [] | _ => write_utf16_loop (length data) dst_len [] data end.

(** ** The validator of [JsonEncode.cpp] *)

Definition follows (c : Z) : bool := Z.land c 0xC0 =? 0x80.

Fixpoint is_valid_utf8_loop (fuel : nat) (l : list Z) : bool :=
  match l, fuel with
  | [], _ => true
  | _, O => false
  | c :: rest, S fuel' =>
      if c <? 0x80 then is_valid_utf8_loop fuel' rest
      else if Z.land c 0xE0 =? 0xC0 then
        match rest with
        | c1 :: rest =>
            if negb (follows c1) then false
            else
              let code := Z.lor (Z.shiftl (Z.land c 0x1F) 6) (Z.land c1 0x3F) in
              if code <? 0x80 then false else is_valid_utf8_loop fuel' rest
        | _ => false
        end
      else if Z.land c 0xF0 =? 0xE0 then
        match rest with
        | c1 :: c2 :: rest =>
            if negb (follows c1) || negb (follows c2) then false
            else
              let code := Z.lor (Z.lor (Z.shiftl (Z.land c 0x0F) 12) (Z.shiftl (Z.land c1 0x3F) 6)) (Z.land c2 0x3F) in
              if code <? 0x800 then false
              else if (0xD800 <=? code) && (code <=? 0xDFFF) then false
              else is_valid_utf8_loop fuel' rest
        | _ => false
        end
      else if Z.land c 0xF8 =? 0xF0 then
        match rest with
        | c1 :: c2 :: c3 :: rest =>
            if negb (follows c1) || negb (follows c2) || negb (follows c3) then false
            else
              let code := Z.lor (Z.lor (Z.lor (Z.shiftl (Z.land c 0x07) 18) (Z.shiftl (Z.land c1 0x3F) 12))
                                       (Z.shiftl (Z.land c2 0x3F) 6)) (Z.land c3 0x3F) in
              if (code <? 0x10000) || (0x10FFFF <? code) then false else is_valid_utf8_loop fuel' rest
        | _ => false
        end
      else false
  end.

Definition is_valid_utf8 (data : list Z) : bool := is_valid_utf8_loop (length data) data.

(** ** Strings of units *)

(** One of the two vectors is empty. *)
Record DecodedString := mkDecoded { is_byte : bool; bytes : list Z; u16_units : list Z }.

Definition empty_string : DecodedString := mkDecoded true [] [].

Definition append_code_unit (out : DecodedString) (unit : Z) : DecodedString :=
  if is_byte out && (unit <=? 0xFF) then mkDecoded true (bytes out ++ [u8 unit]) (u16_units out)
  else if is_byte out then mkDecoded false [] (u16_units out ++ bytes out ++ [unit])
  else mkDecoded false (bytes out) (u16_units out ++ [unit]).

Definition append_codepoint (out : DecodedString) (codepoint : Z) : DecodedString :=
  if codepoint <=? 0xFFFF then append_code_unit out (u16 codepoint)
  else append_code_unit (append_code_unit out (high_surrogate codepoint)) (low_surrogate codepoint).

(** [decode_utf8] of [JsGc.cpp]; the test of the bytes is that of
    [utf8_next_codepoint]. *)
Fixpoint decode_loop (fuel : nat) (out : DecodedString) (l : list Z) : option DecodedString :=
  match l, fuel with
  | [], _ => Some out
  | _, O => None
  | ch :: _, S fuel' =>
      match utf8_next_codepoint l with
      | None => None
      | Some (code, n) =>
          decode_loop fuel' (if ch <? 0x80 then append_code_unit out (u16 ch) else append_codepoint out code) (drop n l)
      end
  end.

Definition decode_utf8 (data : list Z) : option DecodedString := decode_loop (length data) empty_string data.

Definition string_units (d : DecodedString) : list Z := if is_byte d then bytes d else u16_units d.

(** *** [gc_string_to_utf8]: a string with units of one byte *)

Definition byte_to_utf8 (byte : Z) : list Z :=
  if byte <? 0x80 then [byte] else [u8 (Z.lor 0xC0 (Z.shiftr byte 6)); u8 (Z.lor 0x80 (Z.land byte 0x3F))].

Definition bytes_to_utf8 (units : list Z) : list Z :=
  if existsb (fun byte => 0x80 <=? byte) units then concat (map byte_to_utf8 units) else units.

(** *** and one with units of two bytes: the first loop counts, the second writes *)

Definition is_high (unit : Z) : bool := (0xD800 <=? unit) && (unit <=? 0xDBFF).
Definition is_low (unit : Z) : bool := (0xDC00 <=? unit) && (unit <=? 0xDFFF).

Fixpoint utf8_length (units : list Z) : option Z :=
  match units with
  | [] => Some 0
  | unit :: rest =>
      if is_high unit then
        match rest with
        | low :: rest' => if is_low low then Z.add 4 <$> utf8_length rest' else None
        | [] => None
        end
      else if is_low unit then None
      else Z.add (if unit <? 0x80 then 1 else if unit <? 0x800 then 2 else 3) <$> utf8_length rest
  end.

Definition pair_codepoint (unit low : Z) : Z :=
  u32 (0x10000 + u32 (Z.shiftl (unit - 0xD800) 10) + (low - 0xDC00)).

Definition pair_to_utf8 (codepoint : Z) : list Z :=
  [u8 (Z.lor 0xF0 (Z.shiftr codepoint 18)); u8 (Z.lor 0x80 (Z.land (Z.shiftr codepoint 12) 0x3F));
   u8 (Z.lor 0x80 (Z.land (Z.shiftr codepoint 6) 0x3F)); u8 (Z.lor 0x80 (Z.land codepoint 0x3F))].

Definition unit_to_utf8 (codepoint : Z) : list Z :=
  if codepoint <? 0x80 then [u8 codepoint]
  else if codepoint <? 0x800 then [u8 (Z.lor 0xC0 (Z.shiftr codepoint 6)); u8 (Z.lor 0x80 (Z.land codepoint 0x3F))]
  else
    [u8 (Z.lor 0xE0 (Z.shiftr codepoint 12)); u8 (Z.lor 0x80 (Z.land (Z.shiftr codepoint 6) 0x3F));
     u8 (Z.lor 0x80 (Z.land codepoint 0x3F))].

Fixpoint write_units (units : list Z) : option (list Z) :=
  match units with
  | [] => Some []
  | unit :: rest =>
      if is_high unit then
        match rest with
        | low :: rest' => if is_low low then app (pair_to_utf8 (pair_codepoint unit low)) <$> write_units rest' else None
        | [] => None
        end
      else if is_low unit then None
      else app (unit_to_utf8 unit) <$> write_units rest
  end.

(** [out] has the counted length and is filled by the second loop. *)
Definition units_to_utf8 (units : list Z) : option (list Z) :=
  match utf8_length units with Some _ => write_units units | None => None end.

(** ** The encodings *)

Definition scalar (cp : Z) : Prop := 0 <= cp <= 0x10FFFF /\ surrogate cp = false.

Definition utf8 (cp : Z) : list Z :=
  if cp <? 0x80 then [cp]
  else if cp <? 0x800 then [0xC0 + cp / 64; 0x80 + cp mod 64]
  else if cp <? 0x10000 then [0xE0 + cp / 4096; 0x80 + (cp / 64) mod 64; 0x80 + cp mod 64]
  else [0xF0 + cp / 262144; 0x80 + (cp / 4096) mod 64; 0x80 + (cp / 64) mod 64; 0x80 + cp mod 64].

Definition utf16 (cp : Z) : list Z :=
  if cp <=? 0xFFFF then [cp] else [0xD800 + (cp - 0x10000) / 1024; 0xDC00 + (cp - 0x10000) mod 1024].

Definition octet (b : Z) : Prop := 0 <= b < 256.

(** *** Bytes *)

Lemma lead_byte ch : 0x80 <= ch < 256 ->
  lead ch = if ch <? 0xC0 then None else if ch <? 0xE0 then Some (1%nat, ch - 0xC0, 0x80)
            else if ch <? 0xF0 then Some (2%nat, ch - 0xE0, 0x800)
            else if ch <? 0xF8 then Some (3%nat, ch - 0xF0, 0x10000) else None.
Proof.
  intros H. apply (bool_decide_eq_true_1 _).
  assert (forall b, 0 <= b < 256 -> (b <? 0x80) ||
    bool_decide (lead b = if b <? 0xC0 then None else if b <? 0xE0 then Some (1%nat, b - 0xC0, 0x80)
      else if b <? 0xF0 then Some (2%nat, b - 0xE0, 0x800) else if b <? 0xF8 then Some (3%nat, b - 0xF0, 0x10000) else None) = true) as Hall
    by (apply forall_byte; vm_compute; reflexivity).
  specialize (Hall ch ltac:(lia)). apply orb_true_iff in Hall as [Hall|Hall]; [|done]. apply Z.ltb_lt in Hall. lia.
Qed.

Lemma follows_byte b : octet b -> follows b = (0x80 <=? b) && (b <? 0xC0).
Proof.
  intros H. assert (forall b, 0 <= b < 256 -> Bool.eqb (follows b) ((0x80 <=? b) && (b <? 0xC0)) = true) as Hall
    by (apply forall_byte; vm_compute; reflexivity).
  by apply eqb_prop, Hall.
Qed.

Lemma low_bits b : 0x80 <= b < 0xC0 -> Z.land b 0x3F = b - 0x80.
Proof.
  intros H. apply Z.eqb_eq.
  assert (forall b, 0 <= b < 256 -> (b <? 0x80) || (0xC0 <=? b) || (Z.land b 0x3F =? b - 0x80) = true) as Hall
    by (apply forall_byte; vm_compute; reflexivity).
  specialize (Hall b ltac:(lia)). destruct (b <? 0x80) eqn:E1, (0xC0 <=? b) eqn:E2; bool_to_prop; by try lia.
Qed.

Lemma join_bits code c : 0 <= c < 64 -> Z.lor (Z.shiftl code 6) c = code * 64 + c.
Proof. intros H. rewrite Z.shiftl_mul_pow2 by lia. apply (lor_disjoint _ _ 6); [lia|by exists code|done]. Qed.

Lemma continuation_step needed code b l : 0 <= code < 2 ^ 20 -> 0x80 <= b < 0xC0 ->
  continuation (S needed) code (b :: l) = continuation needed (code * 64 + (b - 0x80)) l.
Proof.
  intros Hc Hb. cbn [continuation]. pose proof (follows_byte b ltac:(unfold octet; lia)) as Hf. unfold follows in Hf. rewrite Hf.
  assert ((0x80 <=? b) && (b <? 0xC0) = true) as -> by lia.
  rewrite low_bits, join_bits, wrap_small by (unfold in_width; lia). done.
Qed.

Lemma continuation_stops needed code b l : octet b -> ~ 0x80 <= b < 0xC0 -> continuation (S needed) code (b :: l) = None.
Proof.
  intros Hb Hn. cbn [continuation]. pose proof (follows_byte b Hb) as Hf. unfold follows in Hf. rewrite Hf.
  by assert ((0x80 <=? b) && (b <? 0xC0) = false) as -> by lia.
Qed.

(** *** One code point *)

Lemma refused_scalar cp m : scalar cp -> m <= cp -> refused cp m = false.
Proof. intros [H1 H2] Hm. unfold refused. rewrite H2. lia. Qed.

Lemma scalar_refused cp m : refused cp m = false -> 0 <= m -> scalar cp /\ m <= cp.
Proof. unfold refused, scalar. intros H Hm. bool_to_prop. split; [split|]; lia || done. Qed.

Lemma next_utf8 cp r : scalar cp -> utf8_next_codepoint (utf8 cp ++ r) = Some (cp, length (utf8 cp)).
Proof.
  intros Hs. pose proof Hs as [Hr _]. unfold utf8. split_ifs; bool_to_prop; cbn [app utf8_next_codepoint].
  - by rewrite (proj2 (Z.ltb_lt cp 0x80)) by lia.
  - rewrite (proj2 (Z.ltb_ge (0xC0 + cp / 64) 0x80)) by lia. rewrite lead_byte by lia.
    replace (0xC0 + cp / 64 <? 0xC0) with false by lia. replace (0xC0 + cp / 64 <? 0xE0) with true by lia.
    cbn [length Nat.leb]. rewrite continuation_step by lia. cbn [continuation].
    replace ((0xC0 + cp / 64 - 0xC0) * 64 + (0x80 + cp mod 64 - 0x80)) with cp by lia.
    by rewrite refused_scalar by (done || lia).
  - rewrite (proj2 (Z.ltb_ge (0xE0 + cp / 4096) 0x80)) by lia. rewrite lead_byte by lia.
    replace (0xE0 + cp / 4096 <? 0xC0) with false by lia. replace (0xE0 + cp / 4096 <? 0xE0) with false by lia.
    replace (0xE0 + cp / 4096 <? 0xF0) with true by lia.
    cbn [length Nat.leb]. rewrite !continuation_step by lia. cbn [continuation].
    replace (((0xE0 + cp / 4096 - 0xE0) * 64 + (0x80 + (cp / 64) mod 64 - 0x80)) * 64 + (0x80 + cp mod 64 - 0x80)) with cp by lia.
    by rewrite refused_scalar by (done || lia).
  - rewrite (proj2 (Z.ltb_ge (0xF0 + cp / 262144) 0x80)) by lia. rewrite lead_byte by lia.
    replace (0xF0 + cp / 262144 <? 0xC0) with false by lia. replace (0xF0 + cp / 262144 <? 0xE0) with false by lia.
    replace (0xF0 + cp / 262144 <? 0xF0) with false by lia. replace (0xF0 + cp / 262144 <? 0xF8) with true by lia.
    cbn [length Nat.leb]. rewrite !continuation_step by lia. cbn [continuation].
    match goal with |- context [refused ?x _] => replace x with cp by lia end.
    by rewrite refused_scalar by (done || lia).
Qed.

(** The tail of a sequence, whatever its length. *)
Lemma continuation_inv needed code l code' : 0 <= code -> code < 2 ^ 20 -> (needed <= 3)%nat -> Forall octet l ->
  continuation needed code l = Some code' -> (needed = 0%nat /\ code' = code) \/
  exists b l', needed = S (pred needed) /\ l = b :: l' /\ 0x80 <= b < 0xC0 /\ continuation (pred needed) (code * 64 + (b - 0x80)) l' = Some code'.
Proof.
  intros Hc Hc' Hn Hl H. destruct needed as [|needed]; [left; cbn in H; by injection H as <-|right].
  destruct l as [|b l']; [discriminate H|]. inversion Hl as [|? ? Hb _]; subst.
  destruct (decide (0x80 <= b < 0xC0)) as [Hr|Hr].
  - rewrite continuation_step in H by lia. by exists b, l'.
  - by rewrite continuation_stops in H.
Qed.

Lemma utf8_next l cp n : Forall octet l -> utf8_next_codepoint l = Some (cp, n) ->
  scalar cp /\ n = length (utf8 cp) /\ l = utf8 cp ++ drop n l.
Proof.
  intros Hl H. destruct l as [|ch rest]; [discriminate H|]. inversion Hl as [|? ? Hch Hrest]; subst. unfold octet in Hch.
  cbn [utf8_next_codepoint] in H. destruct (ch <? 0x80) eqn:E; bool_to_prop.
  { injection H as <- <-. unfold scalar, surrogate, utf8. rewrite (proj2 (Z.ltb_lt ch 0x80)) by lia.
    split; [split; lia|]. by split. }
  rewrite lead_byte in H by lia.
  assert (forall needed code m, 0 <= code < 2 ^ 5 -> (0 < needed <= 3)%nat -> 0 <= m ->
    match (if (length (ch :: rest) <=? needed)%nat then None
           else match continuation needed code rest with
                | None => None
                | Some code => if refused code m then None else Some (code, S needed)
                end) with
    | Some (cp, n) =>
        scalar cp /\ m <= cp /\ n = S needed /\
        (exists b1 l1, rest = b1 :: l1 /\ 0x80 <= b1 < 0xC0 /\
          if (needed =? 1)%nat then cp = code * 64 + (b1 - 0x80)
          else exists b2 l2, l1 = b2 :: l2 /\ 0x80 <= b2 < 0xC0 /\
            if (needed =? 2)%nat then cp = (code * 64 + (b1 - 0x80)) * 64 + (b2 - 0x80)
            else exists b3 l3, l2 = b3 :: l3 /\ 0x80 <= b3 < 0xC0 /\ cp = ((code * 64 + (b1 - 0x80)) * 64 + (b2 - 0x80)) * 64 + (b3 - 0x80))
    | None => True
    end) as Hcase.
  { intros needed code m Hc Hn Hm. destruct (_ <=? _)%nat; [done|]. destruct (continuation _ _ _) as [code'|] eqn:Ec; [|done].
    destruct (refused code' m) eqn:Er; [done|]. apply scalar_refused in Er as [Hs Hr]; [|done].
    split; [done|]. split; [done|]. split; [done|].
    apply continuation_inv in Ec as [[? _]|(b1 & l1 & En & -> & Hb1 & Ec)]; try done; try lia.
    inversion Hrest as [|? ? _ Hl1]; subst. exists b1, l1. split; [done|]. split; [done|].
    destruct (Nat.eqb_spec needed 1) as [->|]; [by injection Ec as <-|].
    apply continuation_inv in Ec as [[? _]|(b2 & l2 & En2 & -> & Hb2 & Ec)]; try done; try lia.
    inversion Hl1 as [|? ? _ Hl2]; subst. exists b2, l2. split; [done|]. split; [done|].
    destruct (Nat.eqb_spec needed 2) as [->|]; [by injection Ec as <-|].
    apply continuation_inv in Ec as [[? _]|(b3 & l3 & En3 & -> & Hb3 & Ec)]; try done; try lia.
    exists b3, l3. split; [done|]. split; [done|]. replace (pred (pred (pred needed))) with 0%nat in Ec by lia. by injection Ec as <-. }
  destruct (ch <? 0xC0) eqn:E1; [discriminate H|]. destruct (ch <? 0xE0) eqn:E2; bool_to_prop.
  { specialize (Hcase 1%nat (ch - 0xC0) 0x80 ltac:(lia) ltac:(lia) ltac:(lia)). rewrite H in Hcase.
    destruct Hcase as (Hs & Hm & -> & b1 & l1 & -> & Hb1 & Hcp). cbn [Nat.eqb] in Hcp. pose proof Hs as [Hr _].
    unfold utf8. replace (cp <? 0x80) with false by lia. replace (cp <? 0x800) with true by lia.
    split; [done|]. split; [done|]. cbn [app drop]. repeat (apply (f_equal2 cons); [lia|]); reflexivity. }
  destruct (ch <? 0xF0) eqn:E3; bool_to_prop.
  { specialize (Hcase 2%nat (ch - 0xE0) 0x800 ltac:(lia) ltac:(lia) ltac:(lia)). rewrite H in Hcase.
    destruct Hcase as (Hs & Hm & -> & b1 & l1 & -> & Hb1 & b2 & l2 & -> & Hb2 & Hcp). cbn [Nat.eqb] in Hcp. pose proof Hs as [Hr _].
    unfold utf8. replace (cp <? 0x80) with false by lia. replace (cp <? 0x800) with false by lia. replace (cp <? 0x10000) with true by lia.
    split; [done|]. split; [done|]. cbn [app drop]. repeat (apply (f_equal2 cons); [lia|]); reflexivity. }
  destruct (ch <? 0xF8) eqn:E4; [|discriminate H]; bool_to_prop.
  specialize (Hcase 3%nat (ch - 0xF0) 0x10000 ltac:(lia) ltac:(lia) ltac:(lia)). rewrite H in Hcase.
  destruct Hcase as (Hs & Hm & -> & b1 & l1 & -> & Hb1 & b2 & l2 & -> & Hb2 & b3 & l3 & -> & Hb3 & Hcp). pose proof Hs as [Hr _].
  unfold utf8. replace (cp <? 0x80) with false by lia. replace (cp <? 0x800) with false by lia. replace (cp <? 0x10000) with false by lia.
  split; [done|]. split; [done|]. cbn [app drop]. repeat (apply (f_equal2 cons); [lia|]); reflexivity.
Qed.

Lemma utf8_length_pos cp : (0 < length (utf8 cp))%nat.
Proof. unfold utf8. split_ifs; cbn [length]; lia. Qed.

(** *** Texts *)

(** The reference loop: all code points of a text. *)
Fixpoint codepoints (fuel : nat) (l : list Z) : option (list Z) :=
  match l, fuel with
  | [], _ => Some []
  | _, O => None
  | _, S fuel' => match utf8_next_codepoint l with Some (cp, n) => cons cp <$> codepoints fuel' (drop n l) | None => None end
  end.

Definition encoded (cps : list Z) : list Z := concat (map utf8 cps).
Definition units_of (cps : list Z) : list Z := concat (map utf16 cps).

Lemma codepoints_encoded cps fuel : Forall scalar cps -> (length (encoded cps) <= fuel)%nat -> codepoints fuel (encoded cps) = Some cps.
Proof.
  intros H. revert fuel. induction H as [|cp cps Hcp _ IH]; intros fuel Hf; [by destruct fuel|].
  unfold encoded in *. cbn [map concat] in *. rewrite length_app in Hf. pose proof (utf8_length_pos cp).
  destruct fuel as [|fuel]; [lia|]. pose proof (next_utf8 cp (concat (map utf8 cps)) Hcp) as Hn.
  destruct (utf8 cp ++ concat (map utf8 cps)) as [|x l] eqn:E; [destruct (utf8 cp); [cbn in *; lia|discriminate E]|].
  cbn [codepoints]. rewrite Hn, <-E, drop_app_length, IH by lia. done.
Qed.

Lemma codepoints_some fuel l cps : Forall octet l -> codepoints fuel l = Some cps -> Forall scalar cps /\ l = encoded cps.
Proof.
  revert l cps. induction fuel as [|fuel IH]; intros [|ch l] cps Hl H; cbn [codepoints] in H; try discriminate H; try (by injection H as <-).
  destruct (utf8_next_codepoint (ch :: l)) as [[cp n]|] eqn:E; [|discriminate H].
  apply utf8_next in E as (Hs & Hn & El); [|done]. destruct (codepoints fuel _) as [cps'|] eqn:Ec; [|discriminate H].
  injection H as <-. apply IH in Ec as [Hc Ed]; [|by apply Forall_drop]. split; [by constructor|].
  rewrite El, Ed. done.
Qed.

Lemma codepoints_spec l : Forall octet l ->
  match codepoints (length l) l with
  | Some cps => Forall scalar cps /\ l = encoded cps
  | None => forall cps, Forall scalar cps -> l <> encoded cps
  end.
Proof.
  intros Hl. destruct (codepoints (length l) l) as [cps|] eqn:E; [by apply (codepoints_some (length l))|].
  intros cps Hc ->. by rewrite codepoints_encoded in E.
Qed.

(** One turn of a loop that goes through the code points. *)
Lemma codepoints_turn {A} (f : nat -> A -> list Z -> option A) (step : A -> Z -> option A) :
  (forall fuel a, f fuel a [] = Some a) -> (forall a ch l, f 0%nat a (ch :: l) = None) ->
  (forall fuel a ch l, f (S fuel) a (ch :: l) =
    match utf8_next_codepoint (ch :: l) with
    | Some (cp, n) => match step a cp with Some a' => f fuel a' (drop n (ch :: l)) | None => None end
    | None => None
    end) ->
  forall fuel a l, (exists a' cps, codepoints fuel l = Some cps /\ f fuel a l = Some a' /\
      foldl (fun r cp => r ≫= fun a => step a cp) (Some a) cps = Some a') \/
    (f fuel a l = None /\ (forall cps, codepoints fuel l = Some cps -> foldl (fun r cp => r ≫= fun a => step a cp) (Some a) cps = None)).
Proof.
  intros H0 H1 H2 fuel. assert (forall cps, foldl (fun r cp => r ≫= fun a : A => step a cp) None cps = None) as Hnone
    by (intros cps; by induction cps).
  induction fuel as [|fuel IH]; intros a [|ch l].
  - left. by exists a, [].
  - right. by rewrite H1.
  - left. exists a, []. by rewrite H0.
  - rewrite H2. cbn [codepoints]. destruct (utf8_next_codepoint (ch :: l)) as [[cp n]|]; [|by right].
    destruct (step a cp) as [a1|] eqn:Es.
    + destruct (IH a1 (drop n (ch :: l))) as [(a' & cps & E1 & E2 & E3)|[E1 E2]].
      * left. exists a', (cp :: cps). rewrite E1, E2. cbn [foldl mbind option_bind]. by rewrite Es.
      * right. split; [done|]. intros cps H. destruct (codepoints fuel _) as [cps'|] eqn:E; [|discriminate H].
        injection H as <-. cbn [foldl mbind option_bind]. rewrite Es. by apply E2.
    + right. split; [done|]. intros cps H. destruct (codepoints fuel _) as [cps'|] eqn:E; [|discriminate H].
      injection H as <-. cbn [foldl mbind option_bind]. by rewrite Es, Hnone.
Qed.

(** *** The loops *)

Lemma foldl_some {A} (g : A -> Z -> A) (cps : list Z) a : foldl (fun r cp => r ≫= fun a => Some (g a cp)) (Some a) cps = Some (foldl g a cps).
Proof. revert a. induction cps as [|cp cps IH]; intros a; [done|]. cbn [foldl mbind option_bind]. apply IH. Qed.

Definition scan_step (out : Utf8ScanResult) (cp : Z) : Utf8ScanResult :=
  mkScan (u64 (utf16_len out + (if cp <=? 0xFFFF then 1 else 2))) (all_byte out && negb (0xFF <? cp)).

Lemma scan_codepoints data : utf8_scan data = foldl scan_step (mkScan 0 true) <$> codepoints (length data) data.
Proof.
  unfold utf8_scan.
  destruct (codepoints_turn scan_loop (fun out cp => Some (scan_step out cp)) ltac:(by intros []) ltac:(done) ltac:(done)
    (length data) (mkScan 0 true) data) as [(a & cps & E1 & E2 & E3)|[E1 E2]].
  - rewrite foldl_some in E3. injection E3 as <-. by rewrite E1, E2.
  - rewrite E1. destruct (codepoints (length data) data) as [cps|]; [|done]. specialize (E2 cps eq_refl). by rewrite foldl_some in E2.
Qed.

Lemma scan_length cps : Forall scalar cps -> forall n b, 0 <= n ->
  foldl scan_step (mkScan (u64 n) b) cps =
  mkScan (u64 (n + Z.of_nat (length (units_of cps)))) (b && forallb (fun cp => cp <=? 0xFF) cps).
Proof.
  induction 1 as [|cp cps Hcp _ IH]; intros n b Hn; cbn [foldl forallb].
  { cbn [units_of map concat length Z.of_nat]. by rewrite Z.add_0_r, andb_true_r. }
  unfold scan_step at 2. cbn [utf16_len all_byte].
  replace (u64 (u64 n + (if cp <=? 0xFFFF then 1 else 2))) with (u64 (n + (if cp <=? 0xFFFF then 1 else 2)))
    by (unfold wrap; by rewrite Zplus_mod_idemp_l).
  rewrite IH by (destruct (cp <=? 0xFFFF); lia). f_equal.
  - f_equal. unfold units_of. cbn [map concat]. rewrite length_app. unfold utf16. destruct (cp <=? 0xFFFF); cbn [length]; lia.
  - rewrite <-andb_assoc. f_equal. f_equal. lia.
Qed.

Lemma surrogates_of cp : 0xFFFF < cp <= 0x10FFFF ->
  high_surrogate cp = 0xD800 + (cp - 0x10000) / 1024 /\ low_surrogate cp = 0xDC00 + (cp - 0x10000) mod 1024.
Proof.
  intros H. unfold high_surrogate, low_surrogate. rewrite Z.shiftr_div_pow2 by lia.
  change 0x3FF with (Z.ones 10). rewrite Z.land_ones by lia. change (2 ^ 10) with 1024.
  rewrite (wrap_small 32) by (unfold in_width; lia). rewrite !wrap_small by (unfold in_width; lia). done.
Qed.

Lemma write_bytes_codepoints fuel n out l : Forall octet l ->
  write_bytes_loop fuel n out l =
  match codepoints fuel l with
  | Some cps => if forallb (fun cp => cp <=? 0xFF) cps && (length out + length cps =? n)%nat then Some (out ++ cps) else None
  | None => None
  end.
Proof.
  revert out l. induction fuel as [|fuel IH]; intros out [|ch l] Hl; cbn [write_bytes_loop codepoints forallb length andb]; try done.
  1,2: rewrite Nat.add_0_r, app_nil_r; done.
  destruct (utf8_next_codepoint (ch :: l)) as [[cp k]|] eqn:E; [|done]. apply utf8_next in E as ([Hs _] & _ & _); [|done].
  rewrite IH by by apply Forall_drop. destruct (codepoints fuel _) as [cps|]; [|by destruct (0xFF <? cp), (n <=? length out)%nat].
  cbn [forallb length fmap option_fmap option_map]. rewrite length_app. cbn [length].
  destruct (0xFF <? cp) eqn:E1; bool_to_prop; [by rewrite (proj2 (Z.leb_gt cp 0xFF)) by lia|].
  rewrite (proj2 (Z.leb_le cp 0xFF)) by lia. rewrite wrap_small by (unfold in_width; lia). cbn [andb].
  destruct (Nat.leb_spec n (length out)).
  - destruct (Nat.eqb_spec (length out + S (length cps)) n); [lia|]. by rewrite andb_false_r.
  - replace (length out + 1 + length cps)%nat with (length out + S (length cps))%nat by lia. by rewrite <-app_assoc.
Qed.

Lemma write_utf16_codepoints fuel n out l : Forall octet l ->
  write_utf16_loop fuel n out l =
  match codepoints fuel l with
  | Some cps => if (length out + length (units_of cps) =? n)%nat then Some (out ++ units_of cps) else None
  | None => None
  end.
Proof.
  revert out l. induction fuel as [|fuel IH]; intros out [|ch l] Hl; cbn [write_utf16_loop codepoints]; try done.
  1,2: cbn [units_of map concat length]; rewrite Nat.add_0_r, app_nil_r; done.
  destruct (utf8_next_codepoint (ch :: l)) as [[cp k]|] eqn:E; [|done]. apply utf8_next in E as ([Hs _] & _ & _); [|done].
  rewrite !IH by by apply Forall_drop. destruct (codepoints fuel _) as [cps|]; [|by split_ifs].
  cbn [fmap option_fmap option_map]. change (units_of (cp :: cps)) with (utf16 cp ++ units_of cps). rewrite !length_app.
  destruct (cp <=? 0xFFFF) eqn:E1; bool_to_prop.
  - assert (utf16 cp = [cp]) as -> by (unfold utf16; by rewrite (proj2 (Z.leb_le _ _))).
    rewrite wrap_small by (unfold in_width; lia). rewrite <-app_assoc. cbn [length app]. rewrite Nat.add_assoc.
    destruct (Nat.leb_spec n (length out)); [|done]. destruct (Nat.eqb_spec (length out + 1 + length (units_of cps)) n); [lia|done].
  - destruct (surrogates_of cp ltac:(lia)) as [-> ->].
    assert (utf16 cp = [0xD800 + (cp - 0x10000) / 1024; 0xDC00 + (cp - 0x10000) mod 1024]) as ->
      by (unfold utf16; by rewrite (proj2 (Z.leb_gt _ _))).
    rewrite <-app_assoc. cbn [length app]. rewrite Nat.add_assoc.
    destruct (Nat.leb_spec n (length out + 1)); [|done]. destruct (Nat.eqb_spec (length out + 2 + length (units_of cps)) n); [lia|done].
Qed.

(** *** Decoded strings *)

Definition code_unit (u : Z) : Prop := 0 <= u < 65536.

(** One vector is empty, and the bytes are used as long as all units are bytes. *)
Definition decoded (d : DecodedString) (us : list Z) : Prop :=
  string_units d = us /\ is_byte d = forallb (fun u => u <=? 0xFF) us /\ (if is_byte d then u16_units d = [] else bytes d = []).

Lemma append_decoded d us u : decoded d us -> code_unit u -> decoded (append_code_unit d u) (us ++ [u]).
Proof.
  unfold decoded, append_code_unit, string_units, code_unit. destruct d as [ib bs us16]. cbn [is_byte bytes u16_units].
  intros (<- & Hb & Hv) Hu. rewrite forallb_app. cbn [forallb]. rewrite andb_true_r.
  destruct ib; cbn [andb]; subst; rewrite <-Hb.
  - destruct (u <=? 0xFF) eqn:E; cbn [is_byte bytes u16_units andb]; [|by repeat split].
    rewrite wrap_small by (unfold in_width; lia). by repeat split.
  - by repeat split.
Qed.

Lemma append_codepoint_decoded d us cp : decoded d us -> scalar cp -> decoded (append_codepoint d cp) (us ++ utf16 cp).
Proof.
  intros Hd [Hr _]. unfold append_codepoint, utf16. destruct (cp <=? 0xFFFF) eqn:E; bool_to_prop.
  - rewrite wrap_small by (unfold in_width; lia). apply append_decoded; [done|]. unfold code_unit. lia.
  - destruct (surrogates_of cp ltac:(lia)) as [-> ->].
    change [?a; ?b] with ([a] ++ [b]). rewrite app_assoc.
    apply append_decoded; [|unfold code_unit; lia]. apply append_decoded; [done|]. unfold code_unit; lia.
Qed.

Lemma decode_codepoints data : Forall octet data ->
  decode_utf8 data = foldl append_codepoint empty_string <$> codepoints (length data) data.
Proof.
  intros Hb. unfold decode_utf8. generalize (length data) as fuel, empty_string as d. intros fuel. revert data Hb.
  induction fuel as [|fuel IH]; intros [|ch l] Hb d; cbn [decode_loop codepoints]; try done.
  destruct (utf8_next_codepoint (ch :: l)) as [[cp n]|] eqn:E; [|done].
  assert ((if ch <? 0x80 then append_code_unit d (u16 ch) else append_codepoint d cp) = append_codepoint d cp) as ->.
  { destruct (ch <? 0x80) eqn:Ec; [|done]. cbn [utf8_next_codepoint] in E. rewrite Ec in E. injection E as <- <-.
    unfold append_codepoint. by rewrite (proj2 (Z.leb_le ch 0xFFFF)) by lia. }
  rewrite IH by by apply Forall_drop. by destruct (codepoints fuel _).
Qed.

Lemma decoded_all cps : Forall scalar cps -> forall d us, decoded d us -> decoded (foldl append_codepoint d cps) (us ++ units_of cps).
Proof.
  induction 1 as [|cp cps Hcp _ IH]; intros d us Hd; cbn [foldl].
  - unfold units_of. cbn [map concat]. by rewrite app_nil_r.
  - change (units_of (cp :: cps)) with (utf16 cp ++ units_of cps). rewrite app_assoc. by apply IH, append_codepoint_decoded.
Qed.

(** A text is decoded exactly if it is the encoding of code points, and then the
    string has their units. *)
Lemma decode_utf8_spec data : Forall octet data ->
  match decode_utf8 data with
  | Some d => exists cps, Forall scalar cps /\ data = encoded cps /\ decoded d (units_of cps)
  | None => forall cps, Forall scalar cps -> data <> encoded cps
  end.
Proof.
  intros Hb. rewrite decode_codepoints by done. pose proof (codepoints_spec data Hb) as H.
  destruct (codepoints (length data) data) as [cps|]; cbn [fmap option_fmap option_map]; [|done].
  destruct H as [Hc ->]. exists cps. split; [done|]. split; [done|]. by apply (decoded_all cps Hc empty_string []).
Qed.

(** *** Strings to texts *)

Lemma low_6 x : 0 <= x -> Z.land x 0x3F = x mod 64.
Proof. intros. change 0x3F with (Z.ones 6). by rewrite Z.land_ones by lia. Qed.

Lemma lor_0x80 x : 0 <= x < 64 -> u8 (Z.lor 0x80 x) = 0x80 + x.
Proof. intros H. rewrite (lor_disjoint _ x 6) by (lia || (by exists 2)). apply wrap_small. unfold in_width. lia. Qed.

Lemma lor_lead b k x : 0 <= k -> (2 ^ k | b) -> 0 <= x < 2 ^ k -> 0 <= b + x < 256 -> u8 (Z.lor b x) = b + x.
Proof. intros Hk Hd H Hb. rewrite (lor_disjoint _ x k) by done. by apply wrap_small. Qed.

Lemma unit_to_utf8_spec u : code_unit u -> unit_to_utf8 u = utf8 u.
Proof.
  unfold code_unit, unit_to_utf8, utf8. intros H. rewrite !Z.shiftr_div_pow2 by lia. rewrite !low_6 by lia.
  change (2 ^ 6) with 64. change (2 ^ 12) with 4096. replace (u <? 0x10000) with true by lia.
  destruct (u <? 0x80) eqn:E1; bool_to_prop; [by rewrite wrap_small by (unfold in_width; lia)|].
  destruct (u <? 0x800) eqn:E2; bool_to_prop; rewrite !lor_0x80 by lia.
  - by rewrite (lor_lead 0xC0 6 (u / 64)) by (lia || (by exists 3)).
  - by rewrite (lor_lead 0xE0 5 (u / 4096)) by (lia || (by exists 7)).
Qed.

Lemma pair_to_utf8_spec cp : 0x10000 <= cp <= 0x10FFFF -> pair_to_utf8 cp = utf8 cp.
Proof.
  unfold pair_to_utf8, utf8. intros H. rewrite !Z.shiftr_div_pow2 by lia. rewrite !low_6 by lia.
  change (2 ^ 6) with 64. change (2 ^ 12) with 4096. change (2 ^ 18) with 262144.
  replace (cp <? 0x80) with false by lia. replace (cp <? 0x800) with false by lia. replace (cp <? 0x10000) with false by lia.
  rewrite !lor_0x80 by lia. by rewrite (lor_lead 0xF0 4 (cp / 262144)) by (lia || (by exists 15)).
Qed.

Lemma pair_codepoint_spec high low : is_high high = true -> is_low low = true ->
  0x10000 <= pair_codepoint high low <= 0x10FFFF /\ utf16 (pair_codepoint high low) = [high; low].
Proof.
  unfold is_high, is_low. intros Hh Hl. bool_to_prop. unfold pair_codepoint. rewrite Z.shiftl_mul_pow2 by lia.
  rewrite (wrap_small 32 ((high - 0xD800) * 2 ^ 10)) by (unfold in_width; lia). rewrite wrap_small by (unfold in_width; lia).
  split; [lia|]. unfold utf16. match goal with |- context [?x <=? 0xFFFF] => replace (x <=? 0xFFFF) with false by lia end.
  repeat (apply (f_equal2 cons); [lia|]). done.
Qed.

Lemma utf16_pair cp : 0xFFFF < cp <= 0x10FFFF ->
  exists high low, utf16 cp = [high; low] /\ is_high high = true /\ is_low low = true /\ pair_codepoint high low = cp.
Proof.
  intros H. unfold utf16. replace (cp <=? 0xFFFF) with false by lia. eexists _, _. split; [done|].
  unfold is_high, is_low. split; [lia|]. split; [lia|]. unfold pair_codepoint. rewrite Z.shiftl_mul_pow2 by lia.
  rewrite (wrap_small 32 ((_ - 0xD800) * 2 ^ 10)) by (unfold in_width; lia). rewrite wrap_small by (unfold in_width; lia). lia.
Qed.

Lemma utf8_length_write us : utf8_length us = (fun out => Z.of_nat (length out)) <$> write_units us.
Proof.
  assert (forall n us, (length us <= n)%nat -> utf8_length us = (fun out => Z.of_nat (length out)) <$> write_units us) as H; [|by apply (H (length us))].
  clear us. induction n as [|n IH]; intros [|u us] Hn; cbn [length] in Hn; try done; [lia|].
  cbn [utf8_length write_units]. destruct (is_high u).
  - destruct us as [|low us]; [done|]. destruct (is_low low); [|done]. cbn [length] in Hn. rewrite IH by lia.
    destruct (write_units us); [|done]. cbn [fmap option_fmap option_map]. f_equal. rewrite length_app. cbn [pair_to_utf8 length]. lia.
  - destruct (is_low u); [done|]. rewrite IH by lia. destruct (write_units us); [|done]. cbn [fmap option_fmap option_map]. f_equal.
    rewrite length_app. unfold unit_to_utf8. split_ifs; cbn [length]; lia.
Qed.

Lemma units_to_utf8_write us : units_to_utf8 us = write_units us.
Proof. unfold units_to_utf8. rewrite utf8_length_write. by destruct (write_units us). Qed.

Lemma write_units_of cps : Forall scalar cps -> write_units (units_of cps) = Some (encoded cps).
Proof.
  induction 1 as [|cp cps [Hr Hs] _ IH]; [done|].
  change (units_of (cp :: cps)) with (utf16 cp ++ units_of cps). change (encoded (cp :: cps)) with (utf8 cp ++ encoded cps).
  destruct (decide (cp <= 0xFFFF)) as [Hle|Hgt].
  - unfold utf16. rewrite (proj2 (Z.leb_le cp 0xFFFF)) by done. cbn [app write_units]. unfold surrogate in Hs.
    replace (is_high cp) with false by (unfold is_high; lia). replace (is_low cp) with false by (unfold is_low; lia).
    rewrite IH, unit_to_utf8_spec by (unfold code_unit; lia). done.
  - destruct (utf16_pair cp ltac:(lia)) as (high & low & -> & Hh & Hl & Hp). cbn [app write_units]. rewrite Hh, Hl, IH, Hp.
    by rewrite pair_to_utf8_spec by lia.
Qed.

Lemma write_units_some us out : Forall code_unit us -> write_units us = Some out -> exists cps, Forall scalar cps /\ us = units_of cps /\ out = encoded cps.
Proof.
  assert (forall n us out, (length us <= n)%nat -> Forall code_unit us -> write_units us = Some out ->
    exists cps, Forall scalar cps /\ us = units_of cps /\ out = encoded cps) as H; [|by apply (H (length us))].
  clear us out. induction n as [|n IH]; intros [|u us] out Hn Hu H; cbn [length] in Hn; try lia; try (injection H as <-; by exists []).
  inversion Hu as [|? ? Hu1 Hu2]; subst. cbn [write_units] in H. destruct (is_high u) eqn:Eh.
  - destruct us as [|low us]; [discriminate H|]. destruct (is_low low) eqn:El; [|discriminate H]. cbn [length] in Hn.
    destruct (write_units us) as [rest|] eqn:E; [|discriminate H].
    assert (out = pair_to_utf8 (pair_codepoint u low) ++ rest) as -> by (symmetry; by apply (inj Some)). inversion Hu2; subst.
    destruct (IH us rest ltac:(lia) ltac:(done) E) as (cps & Hc & -> & ->).
    destruct (pair_codepoint_spec u low Eh El) as [Hr Hp]. exists (pair_codepoint u low :: cps). split; [|split].
    + constructor; [|done]. split; [lia|]. unfold surrogate. lia.
    + change (units_of (?c :: cps)) with (utf16 c ++ units_of cps). by rewrite Hp.
    + change (encoded (?c :: cps)) with (utf8 c ++ encoded cps). by rewrite pair_to_utf8_spec.
  - destruct (is_low u) eqn:El; [discriminate H|]. destruct (write_units us) as [rest|] eqn:E; [|discriminate H].
    assert (out = unit_to_utf8 u ++ rest) as -> by (symmetry; by apply (inj Some)).
    destruct (IH us rest ltac:(lia) Hu2 E) as (cps & Hc & -> & ->). exists (u :: cps). unfold code_unit in Hu1. split; [|split].
    + constructor; [|done]. unfold is_high, is_low in *. split; [lia|]. unfold surrogate. lia.
    + change (units_of (u :: cps)) with (utf16 u ++ units_of cps). unfold utf16. by rewrite (proj2 (Z.leb_le u 0xFFFF)) by lia.
    + change (encoded (u :: cps)) with (utf8 u ++ encoded cps). by rewrite unit_to_utf8_spec.
Qed.

Lemma bytes_to_utf8_spec us : Forall octet us -> bytes_to_utf8 us = encoded us.
Proof.
  intros H. assert (concat (map byte_to_utf8 us) = encoded us) as E.
  { unfold encoded. f_equal. apply map_ext_in. intros b Hb%list_elem_of_In. rewrite Forall_forall in H. specialize (H b Hb). unfold octet in H.
    rewrite <-unit_to_utf8_spec by (unfold code_unit; lia). unfold byte_to_utf8, unit_to_utf8. replace (b <? 0x800) with true by lia.
    destruct (b <? 0x80) eqn:Eb; bool_to_prop; [|done]. by rewrite wrap_small by (unfold in_width; lia). }
  unfold bytes_to_utf8. destruct (existsb _ us) eqn:Ex; [done|]. rewrite <-E. symmetry. clear E.
  induction H as [|b us Hb _ IH]; [done|]. cbn [existsb] in Ex. apply orb_false_iff in Ex as [Eb Ex]. cbn [map concat].
  rewrite IH by done. unfold byte_to_utf8. by replace (b <? 0x80) with true by lia.
Qed.

(** *** The validator of the generator *)

Lemma is_valid_turn fuel ch l : Forall octet (ch :: l) ->
  is_valid_utf8_loop (S fuel) (ch :: l) =
  match utf8_next_codepoint (ch :: l) with Some (_, n) => is_valid_utf8_loop fuel (drop n (ch :: l)) | None => false end.
Proof.
  intros Hl. inversion Hl as [|? ? Hch Hl1]; subst. unfold octet in Hch. cbn [is_valid_utf8_loop utf8_next_codepoint].
  destruct (ch <? 0x80) eqn:E; bool_to_prop; [done|]. pose proof (lead_byte ch ltac:(lia)) as Hlead. unfold lead in *.
  assert (forall b, octet b -> follows b = true -> 0x80 <= b < 0xC0 /\ Z.land b 0x3F = b - 0x80) as Hf.
  { intros b Hb H. rewrite follows_byte in H by done. assert (0x80 <= b < 0xC0) as Hr by lia. split; [done|]. by apply low_bits. }
  assert (forall needed code b l, octet b -> follows b = false -> continuation (S needed) code (b :: l) = None) as Hs.
  { intros needed code b l0 Hb H. apply continuation_stops; [done|]. rewrite follows_byte in H by done. lia. }
  destruct (Z.land ch 0xE0 =? 0xC0).
  { destruct (ch <? 0xC0) eqn:E1; [discriminate Hlead|]. destruct (ch <? 0xE0) eqn:E2; [|destruct (ch <? 0xF0), (ch <? 0xF8); discriminate Hlead].
    injection Hlead as ->. bool_to_prop. destruct l as [|c1 l]; [done|]. inversion Hl1 as [|? ? Hc1 Hl2]; subst. cbn [length Nat.leb].
    destruct (follows c1) eqn:F1; cbn [negb]; [|by rewrite Hs]. destruct (Hf c1 Hc1 F1) as [R1 ->].
    rewrite continuation_step by lia. cbn [continuation]. rewrite join_bits by lia. unfold refused, surrogate.
    destruct (_ <? 0x80) eqn:Ec; [done|]. bool_to_prop.
    match goal with |- context [0x10FFFF <? ?x] => replace (0x10FFFF <? x) with false by lia; replace (0xD800 <=? x) with false by lia end.
    done. }
  destruct (Z.land ch 0xF0 =? 0xE0).
  { destruct (ch <? 0xC0) eqn:E1; [discriminate Hlead|]. destruct (ch <? 0xE0) eqn:E2; [discriminate Hlead|].
    destruct (ch <? 0xF0) eqn:E3; [|destruct (ch <? 0xF8); discriminate Hlead]. injection Hlead as ->. bool_to_prop.
    destruct l as [|c1 [|c2 l]]; [done| |].
    { cbn [length Nat.leb]. done. }
    inversion Hl1 as [|? ? Hc1 Hl2]; subst. inversion Hl2 as [|? ? Hc2 Hl3]; subst. cbn [length Nat.leb].
    destruct (follows c1) eqn:F1; cbn [negb orb]; [|by rewrite Hs]. destruct (Hf c1 Hc1 F1) as [R1 ->].
    rewrite continuation_step by lia.
    destruct (follows c2) eqn:F2; cbn [negb orb]; [|by rewrite Hs]. destruct (Hf c2 Hc2 F2) as [R2 ->].
    rewrite continuation_step by lia. cbn [continuation].
    rewrite !Z.shiftl_mul_pow2 by lia.
    rewrite (lor_disjoint ((ch - 0xE0) * 2 ^ 12) _ 12), (lor_disjoint _ (c2 - 0x80) 6); try lia;
      [|by exists ((ch - 0xE0) * 64 + (c1 - 0x80)); lia|by exists (ch - 0xE0)].
    replace ((ch - 0xE0) * 2 ^ 12 + (c1 - 0x80) * 2 ^ 6 + (c2 - 0x80)) with (((ch - 0xE0) * 64 + (c1 - 0x80)) * 64 + (c2 - 0x80)) by lia.
    unfold refused, surrogate. destruct (_ <? 0x800) eqn:Ec; [done|].
    match goal with |- context [0x10FFFF <? ?x] => replace (0x10FFFF <? x) with false by lia end.
    by destruct (_ && _). }
  destruct (Z.land ch 0xF8 =? 0xF0).
  { destruct (ch <? 0xC0) eqn:E1; [discriminate Hlead|]. destruct (ch <? 0xE0) eqn:E2; [discriminate Hlead|].
    destruct (ch <? 0xF0) eqn:E3; [discriminate Hlead|]. destruct (ch <? 0xF8) eqn:E4; [|discriminate Hlead].
    injection Hlead as ->. bool_to_prop.
    destruct l as [|c1 [|c2 [|c3 l]]]; [done|done|done|].
    inversion Hl1 as [|? ? Hc1 Hl2]; subst. inversion Hl2 as [|? ? Hc2 Hl3]; subst. inversion Hl3 as [|? ? Hc3 Hl4]; subst.
    cbn [length Nat.leb].
    destruct (follows c1) eqn:F1; cbn [negb orb]; [|by rewrite Hs]. destruct (Hf c1 Hc1 F1) as [R1 ->].
    rewrite continuation_step by lia.
    destruct (follows c2) eqn:F2; cbn [negb orb]; [|by rewrite Hs]. destruct (Hf c2 Hc2 F2) as [R2 ->].
    rewrite continuation_step by lia.
    destruct (follows c3) eqn:F3; cbn [negb orb]; [|by rewrite Hs]. destruct (Hf c3 Hc3 F3) as [R3 ->].
    rewrite continuation_step by lia. cbn [continuation].
    rewrite !Z.shiftl_mul_pow2 by lia.
    rewrite (lor_disjoint ((ch - 0xF0) * 2 ^ 18) _ 18), (lor_disjoint _ ((c2 - 0x80) * 2 ^ 6) 12), (lor_disjoint _ (c3 - 0x80) 6); try lia;
      [|by exists ((ch - 0xF0) * 4096 + (c1 - 0x80) * 64 + (c2 - 0x80)); lia|by exists ((ch - 0xF0) * 64 + (c1 - 0x80)); lia|by exists (ch - 0xF0)].
    match goal with |- context [refused ?x _] => set (code := x) end.
    replace ((ch - 0xF0) * 2 ^ 18 + (c1 - 0x80) * 2 ^ 12 + (c2 - 0x80) * 2 ^ 6 + (c3 - 0x80)) with code by lia.
    unfold refused, surrogate. destruct (code <? 0x10000) eqn:Ec; [done|]. bool_to_prop. cbn [orb].
    destruct (0x10FFFF <? code); [done|]. by replace (code <=? 0xDFFF) with false by lia; rewrite andb_false_r. }
  done.
Qed.

Lemma is_valid_codepoints fuel data : Forall octet data ->
  is_valid_utf8_loop fuel data = match codepoints fuel data with Some _ => true | None => false end.
Proof.
  revert data. induction fuel as [|fuel IH]; intros [|ch l] Hl; try done. rewrite is_valid_turn by done. cbn [codepoints].
  destruct (utf8_next_codepoint (ch :: l)) as [[cp n]|]; [|done]. rewrite IH by by apply Forall_drop. by destruct (codepoints fuel _).
Qed.

(** The text of a string, as [gc_string_to_utf8] gives it. *)
Definition string_to_utf8 (is_byte : bool) (us : list Z) : option (list Z) :=
  if is_byte then Some (bytes_to_utf8 us) else units_to_utf8 us.

Lemma units_all cps : Forall scalar cps ->
  forallb (fun u => u <=? 0xFF) (units_of cps) = forallb (fun cp => cp <=? 0xFF) cps /\
  Forall code_unit (units_of cps) /\ (length (units_of cps) <= length (encoded cps))%nat.
Proof.
  induction 1 as [|cp cps [Hr Hs] _ (IH1 & IH2 & IH3)]; [by split|].
  change (units_of (cp :: cps)) with (utf16 cp ++ units_of cps). change (encoded (cp :: cps)) with (utf8 cp ++ encoded cps).
  rewrite forallb_app, IH1, !length_app. cbn [forallb]. unfold utf16, utf8. destruct (cp <=? 0xFFFF) eqn:E; bool_to_prop.
  - cbn [forallb app]. rewrite andb_true_r. split; [done|]. split; [constructor; [unfold code_unit; lia|done]|].
    split_ifs; cbn [length]; lia.
  - cbn [forallb app length]. split; [|split].
    + replace (cp <=? 0xFF) with false by lia. match goal with |- (?x <=? _) && _ && _ = _ => by replace (x <=? 0xFF) with false by lia end.
    + constructor; [unfold code_unit; lia|]. constructor; [unfold code_unit; lia|done].
    + split_ifs; bool_to_prop; cbn [length]; lia.
Qed.

Lemma units_bytes cps : Forall scalar cps -> forallb (fun cp => cp <=? 0xFF) cps = true -> units_of cps = cps /\ Forall octet cps.
Proof.
  induction 1 as [|cp cps [Hr Hs] _ IH]; cbn [forallb]; [by split|]. intros [H1 H2]%andb_true_iff. destruct (IH H2) as [E Hb].
  change (units_of (cp :: cps)) with (utf16 cp ++ units_of cps). rewrite E. unfold utf16, octet.
  rewrite (proj2 (Z.leb_le cp 0xFFFF)) by lia. split; [done|]. constructor; [lia|done].
Qed.

(** What the string of a text is, is written as that text. *)
Lemma decoded_to_utf8 cps d : Forall scalar cps -> decoded d (units_of cps) -> string_to_utf8 (is_byte d) (string_units d) = Some (encoded cps).
Proof.
  intros Hc (-> & Hi & _). destruct (units_all cps Hc) as (Hu & Hun & _). rewrite Hu in Hi. unfold string_to_utf8.
  destruct (is_byte d).
  - destruct (units_bytes cps Hc ltac:(done)) as [-> Hb]. by rewrite bytes_to_utf8_spec.
  - rewrite units_to_utf8_write. by apply write_units_of.
Qed.

(** C31. Every reader of UTF-8 accepts exactly the encodings of sequences of scalar
    values: the validator of the generator, [utf8_validate] and [decode_utf8] agree
    on every text; the length that [utf8_scan] counts is the one that
    [utf8_write_bytes] or [utf8_write_utf16] fills exactly; and the string that was
    decoded is written as the same text again. *)
Theorem utf8_functions_agree (data : list Z) : Forall octet data -> Z.of_nat (length data) < 2 ^ 64 ->
  match decode_utf8 data with
  | Some d =>
      (exists cps, Forall scalar cps /\ data = encoded cps /\ string_units d = units_of cps) /\
      string_to_utf8 (is_byte d) (string_units d) = Some data /\
      is_valid_utf8 data = true /\ utf8_validate data = true /\
      exists r, utf8_scan data = Some r /\ all_byte r = is_byte d /\
        (if all_byte r then utf8_write_bytes data (Z.to_nat (utf16_len r)) else utf8_write_utf16 data (Z.to_nat (utf16_len r))) =
          Some (string_units d)
  | None =>
      (forall cps, Forall scalar cps -> data <> encoded cps) /\ is_valid_utf8 data = false /\ utf8_validate data = false
  end.
Proof.
  intros Hb Hlen. rewrite decode_codepoints by done. pose proof (codepoints_spec data Hb) as H.
  unfold utf8_validate. rewrite scan_codepoints. unfold is_valid_utf8. rewrite is_valid_codepoints by done.
  destruct (codepoints (length data) data) as [cps|] eqn:Ec; cbn [fmap option_fmap option_map]; [|done].
  destruct H as [Hc ->]. pose proof (decoded_all cps Hc empty_string [] ltac:(by repeat split)) as Hd. cbn [app] in Hd.
  destruct (units_all cps Hc) as (Hu & Hun & Hl). pose proof Hd as (Hus & Hi & _).
  split; [by exists cps|]. split; [by apply decoded_to_utf8|]. split; [done|]. split; [done|].
  pose proof (scan_length cps Hc 0 true ltac:(lia)) as Hscan. cbn [andb] in Hscan. change (u64 0) with 0 in Hscan. rewrite Hscan.
  eexists. split; [done|]. cbn [utf16_len all_byte]. rewrite Z.add_0_l, wrap_small by (unfold in_width; lia). rewrite Nat2Z.id.
  rewrite Hi, Hu, Hus. split; [done|].
  destruct (encoded cps) as [|x l] eqn:Ee.
  { destruct (units_of cps); [|cbn [length] in Hl; lia]. by destruct (forallb _ cps). }
  rewrite <-Ee in *. unfold utf8_write_bytes, utf8_write_utf16. destruct (forallb (fun cp => cp <=? 0xFF) cps) eqn:Ef.
  - destruct (units_bytes cps Hc Ef) as [-> _]. rewrite Ee, <-Ee, write_bytes_codepoints, Ec, Ef by done. cbn [andb length Nat.add app].
    by rewrite Nat.eqb_refl.
  - rewrite Ee, <-Ee, write_utf16_codepoints, Ec by done. cbn [length Nat.add app]. by rewrite Nat.eqb_refl.
Qed.

Lemma utf8_functions_agree_witness :
  exists d, decode_utf8 (bytes_of_string "caf" ++ [0xC3; 0xA9; 0xF0; 0x9F; 0x98; 0x80]) = Some d /\
    string_units d = [99; 97; 102; 0xE9; 0xD83D; 0xDE00] /\
    string_to_utf8 (is_byte d) (string_units d) = Some (bytes_of_string "caf" ++ [0xC3; 0xA9; 0xF0; 0x9F; 0x98; 0x80]).
Proof.
  set (data := bytes_of_string "caf" ++ [0xC3; 0xA9; 0xF0; 0x9F; 0x98; 0x80]).
  assert (Forall octet data) as Hb by (change data with [99; 97; 102; 0xC3; 0xA9; 0xF0; 0x9F; 0x98; 0x80]; repeat constructor; unfold octet; lia).
  pose proof (utf8_functions_agree data Hb ltac:(vm_compute; reflexivity)) as H.
  destruct (decode_utf8 data) as [d|] eqn:E; [|vm_compute in E; discriminate E].
  exists d. split; [reflexivity|]. split; [vm_compute in E; injection E as <-; reflexivity|]. exact (proj1 (proj2 H)).
Defined.

End Utf.
