(* ===== verification/JsHeap.v ===== *)
(** * The heap of script values
    ([src/common/json/JsNode.h], [JsGc.h], and the allocating functions of [JsGc.cpp])

    A cell of the heap is a header with its mark and the object behind it; cells
    have addresses, which are never used again, and the linked list from
    [GcHeap::head] is the list of the addresses, the newest first.  The arrays that
    belong to an object are lists inside it.  Every call of the allocator takes its
    answer from a list; without an answer it succeeds.  [None] is an access through a
    dangling pointer.

    A [size_t] that counts values in memory is a [nat].  What the code computes from an
    argument is computed as in the source, modulo 2^64: the size of a buffer
    ([alloc_array]), the doubled capacities ([double_until]) and the position behind an
    index ([size_add]).  An index kept in an [int32_t] goes through [index32].  Versions
    and hashes are 64 bits wide. *)
From Stdlib Require Import Floats.SpecFloat.
From S2P Require Import Prelude JsText.

Module Gc.


(** ** Values and cells *)

Inductive GcMark := GcMark_0 | GcMark_1.

#[export] Instance GcMark_eq_dec : EqDecision GcMark.
Proof. solve_decision. Defined.

Inductive JsValue :=
  | Undefined | Null | Boolean (b : bool) | Integer (i : Z) | Float (f : spec_float)
  | HeapString (gc : nat) | NativeString (ns : list Z)
  | Array (gc : nat) | Object (gc : nat) | Interator (gc : nat) | Exception (gc : nat)
  | NativeBinary (nb : list Z) | HeapBinary (gc : nat).

Inductive GcStringEncoding := Byte | Utf16.

#[export] Instance GcStringEncoding_eq_dec : EqDecision GcStringEncoding.
Proof. solve_decision. Defined.

(** [hash] is there if [hash_valid] is set. *)
Record GcString := mkString { encoding : GcStringEncoding; units : list Z; hash : option Z }.

(** [elems] has [capacity] values. *)
Record GcArray := mkArray { size : nat; version : Z; elems : list JsValue }.

(** An index of the source is an [int32_t]: -1 is [None], and any other value is the
    position it stands for when it becomes an offset into the entries, which for a
    negative one is behind all of them. *)
Definition index32 (i : nat) : option nat :=
  let v := to_signed 32 (Z.of_nat i) in if v =? -1 then None else Some (Z.to_nat (u64 v)).

Record GcObjectEntry := mkEntry {
  key : option nat; value : JsValue; entry_hash : Z; next_bucket : option nat; prev_order : option nat;
  next_order : option nat; next_free : option nat; occupied : bool }.

(** [entries] has [entry_capacity] entries, [buckets] has [bucket_count] heads. *)
Record GcObject := mkObject {
  object_size : nat; object_version : Z; entry_count : nat; head : option nat; tail : option nat; free_head : option nat;
  buckets : list (option nat); entries : list GcObjectEntry }.

Record GcException := mkException { position : Z; name : option nat; message : option nat; meta : JsValue }.

Inductive GcIteratorMode := Keys | Values | Entries.

(** [kind] is [Array] if there is an array, [Object] otherwise. *)
Record GcIterator := mkIterator {
  iterates_array : bool; mode : GcIteratorMode; expected_version : Z; using_snapshot : bool; array : option nat;
  object : option nat; index : nat; cursor : option nat; snapshot_keys : list nat; snapshot_index : nat;
  current_key : JsValue; current_value : JsValue; has_current : bool }.

Inductive Body :=
  | StringCell (s : GcString) | BinaryCell (data : list Z) | ArrayCell (a : GcArray) | ObjectCell (o : GcObject)
  | ExceptionCell (e : GcException) | IteratorCell (i : GcIterator).

(** [size_] follows from the kind: [sizeof] of the structure on a 64-bit machine. *)
Record Cell := mkCell { mark_ : GcMark; body : Body }.

Definition size_of (b : Body) : Z :=
  match b with
  | StringCell _ => 48 | BinaryCell _ => 32 | ArrayCell _ => 48 | ObjectCell _ => 96 | ExceptionCell _ => 64 | IteratorCell _ => 152
  end.

Record GcHeap := mkHeap {
  cells : gmap nat Cell; objects : list nat; bytes : Z; threshold : Z; live_mark : GcMark; next_address : nat;
  answers : list bool }.

Definition initial_heap : GcHeap := mkHeap ∅ [] 0 (Z.shiftl 1 20) GcMark_0 0 [].

Definition flip_mark (mark : GcMark) : GcMark := match mark with GcMark_0 => GcMark_1 | GcMark_1 => GcMark_0 end.

(** ** Functions of the heap *)

Definition M (A : Type) : Type := GcHeap -> option (A * GcHeap).

#[global] Instance M_ret : MRet M := fun A a h => Some (a, h).
#[global] Instance M_bind : MBind M := fun A B k m h => match m h with Some (a, h') => k a h' | None => None end.

Definition fault {A} : M A := fun _ => None.
Definition some_or_fault {A} (x : option A) : M A := fun h => match x with Some a => Some (a, h) | None => None end.

Lemma m_bind_run {A B} (m : M A) (k : A -> M B) h a h' : m h = Some (a, h') -> (m ≫= k) h = k a h'.
Proof. intros E. unfold mbind, M_bind. by rewrite E. Qed.

Lemma m_bind_eq {A B} (m m' : M A) (k k' : A -> M B) h : m h = m' h -> (forall a h', k a h' = k' a h') -> (m ≫= k) h = (m' ≫= k') h.
Proof. intros E K. unfold mbind, M_bind. rewrite E. destruct (m' h) as [[a h']|]; [apply K|done]. Qed.

Lemma m_bind_assoc {A B C} (m : M A) (k : A -> M B) (k' : B -> M C) h : ((m ≫= k) ≫= k') h = (m ≫= fun a => k a ≫= k') h.
Proof. unfold mbind, M_bind. by destruct (m h) as [[a h']|]. Qed.

(** [heap->alloc.alloc] *)
Definition alloc : M bool := fun h =>
  match answers h with
  | [] => Some (true, h)
  | a :: rest => Some (a, mkHeap (cells h) (objects h) (bytes h) (threshold h) (live_mark h) (next_address h) rest)
  end.

(** A buffer of [count] values of the size [width], which a loop fills.  If the product
    wraps, the buffer is too small and the loop writes behind it. *)
Definition alloc_array (width : Z) (count : nat) : M bool :=
  ok ← alloc;
  if ok : bool then if u64 (width * Z.of_nat count) =? width * Z.of_nat count then mret true else fault else mret false.

Definition sizeof_JsValue : Z := 24.
Definition sizeof_GcObjectEntry : Z := 64.
Definition sizeof_int32_t : Z := 4.

(** [a + b] of type [size_t] *)
Definition size_add (a b : nat) : nat := Z.to_nat (u64 (Z.of_nat a + Z.of_nat b)).

(** [while (capacity < expected) capacity *= 2;].  A capacity that wraps becomes 0, in
    at most 64 turns, and the loop has no end. *)
Fixpoint double_until (fuel : nat) (capacity expected : Z) : option Z :=
  match fuel with
  | O => None
  | S fuel' => if capacity <? expected then double_until fuel' (u64 (capacity * 2)) expected else Some capacity
  end.

Definition grown_capacity (capacity : Z) (expected : nat) : M nat :=
  c ← some_or_fault (double_until 65 capacity (Z.of_nat expected)); mret (Z.to_nat c).

Definition load (p : nat) : M Body := fun h => match cells h !! p with Some c => Some (body c, h) | None => None end.

Definition set_cells (v : gmap nat Cell) (h : GcHeap) : GcHeap :=
  mkHeap v (objects h) (bytes h) (threshold h) (live_mark h) (next_address h) (answers h).

Definition store (p : nat) (b : Body) : M unit := fun h =>
  match cells h !! p with Some c => Some (tt, set_cells (<[p := mkCell (mark_ c) b]> (cells h)) h) | None => None end.

(** A pointer of the type of the structure. *)
Definition load_string (p : nat) : M GcString := b ← load p; match b with StringCell s => mret s | _ => fault end.
Definition load_array (p : nat) : M GcArray := b ← load p; match b with ArrayCell a => mret a | _ => fault end.
Definition load_object (p : nat) : M GcObject := b ← load p; match b with ObjectCell o => mret o | _ => fault end.
Definition load_iterator (p : nat) : M GcIterator := b ← load p; match b with IteratorCell i => mret i | _ => fault end.

(** [gc_alloc_raw]: a header with the mark it is given, not yet in the list. *)
Definition gc_alloc_raw : M (option GcMark) := fun h =>
  match alloc h with Some (true, h') => Some (Some (flip_mark (live_mark h')), h') | Some (false, h') => Some (None, h') | None => None end.

Definition gc_link (hdr : GcMark) (b : Body) : M nat := fun h =>
  let p := next_address h in
  Some (p, mkHeap (<[p := mkCell hdr b]> (cells h)) (p :: objects h) (u64 (bytes h + size_of b)) (threshold h) (live_mark h)
                  (S p) (answers h)).

(** A cell for [b], which takes further memory if [more] says so. *)
Definition gc_new (more : bool) (b : Body) : M (option nat) :=
  hdr ← gc_alloc_raw;
  match hdr with
  | None => mret None
  | Some hdr =>
      ok ← (if more then alloc else mret true);
      if ok : bool then p ← gc_link hdr b; mret (Some p) else mret None
  end.

Definition not_empty {A} (l : list A) : bool := negb (length l =? 0)%nat.

(** ** Strings and binaries *)

Definition gc_new_string_bytes (data : list Z) : M (option nat) := gc_new (not_empty data) (StringCell (mkString Byte data None)).
Definition gc_new_string_utf16 (data : list Z) : M (option nat) := gc_new (not_empty data) (StringCell (mkString Utf16 data None)).

Definition make_gc_string (decoded : Utf.DecodedString) : M (option nat) :=
  if Utf.is_byte decoded then gc_new_string_bytes (Utf.bytes decoded) else gc_new_string_utf16 (Utf.u16_units decoded).

Definition gc_new_string (data : list Z) : M (option nat) :=
  match Utf.decode_utf8 data with None => mret None | Some decoded => make_gc_string decoded end.

Definition gc_string_to_utf8 (str : nat) : M (option (list Z)) :=
  s ← load_string str;
  mret (match units s with
        | [] => Some []
        | _ => match encoding s with Byte => Some (Utf.bytes_to_utf8 (units s)) | Utf16 => Utf.units_to_utf8 (units s) end
        end).

Definition gc_new_binary (data : list Z) : M (option nat) := gc_new (not_empty data) (BinaryCell data).

Definition kFnvOffsetBasis : Z := 14695981039346656037.
Definition kFnvPrime : Z := 1099511628211.

Definition hash_code_units (us : list Z) : Z := foldl (fun hash u => u64 (Z.lxor hash u * kFnvPrime)) kFnvOffsetBasis us.

Definition string_hash (str : nat) : M Z :=
  s ← load_string str;
  match hash s with
  | Some h => mret h
  | None =>
      let h := hash_code_units (units s) in
      store str (StringCell (mkString (encoding s) (units s) (Some h)));; mret h
  end.

Fixpoint units_equal (l r : list Z) : bool :=
  match l, r with
  | x :: l', y :: r' => if negb (x =? y) then false else units_equal l' r'
  | _, _ => true
  end.

Definition same_string (l r : GcString) : bool :=
  if negb (length (units l) =? length (units r))%nat then false
  else if (length (units l) =? 0)%nat then true
  else if bool_decide (encoding l = encoding r) then bool_decide (units l = units r)
  else units_equal (units l) (units r).

Definition string_equals (lhs rhs : nat) : M bool :=
  if (lhs =? rhs)%nat then mret true
  else l ← load_string lhs; r ← load_string rhs; mret (same_string l r).

(** ** Arrays *)

Definition gc_new_array (capacity : nat) : M (option nat) :=
  hdr ← gc_alloc_raw;
  match hdr with
  | None => mret None
  | Some hdr =>
      ok ← (if (capacity =? 0)%nat then mret true else alloc_array sizeof_JsValue capacity);
      if ok : bool then p ← gc_link hdr (ArrayCell (mkArray 0 0 (replicate capacity Undefined))); mret (Some p) else mret None
  end.

(** The values move to a buffer with room for [new_capacity]. *)
Definition move_elems (arr new_capacity : nat) : M bool :=
  a ← load_array arr;
  ok ← alloc_array sizeof_JsValue new_capacity;
  if ok : bool then
    store arr (ArrayCell (mkArray (size a) (version a) (take (size a) (elems a) ++ replicate (new_capacity - size a) Undefined)));;
    mret true
  else mret false.

Definition gc_array_reserve (arr expected : nat) : M bool :=
  a ← load_array arr;
  let capacity := length (elems a) in
  if (expected <=? capacity)%nat then mret true
  else
    new_capacity ← grown_capacity (if (capacity =? 0)%nat then 1 else u64 (Z.of_nat capacity * 2)) expected;
    move_elems arr new_capacity.

Definition gc_array_get (arr index : nat) : M (option JsValue) :=
  a ← load_array arr; if (size a <=? index)%nat then mret None else v ← some_or_fault (elems a !! index); mret (Some v).

(** [arr->elems[i] = v] *)
Definition put (i : nat) (v : JsValue) (l : list JsValue) : M (list JsValue) :=
  if (i <? length l)%nat then mret (<[i := v]> l) else fault.

Definition gc_array_push (arr : nat) (v : JsValue) : M bool :=
  a ← load_array arr;
  ok ← gc_array_reserve arr (size a + 1);
  if ok : bool then
    a ← load_array arr;
    l ← put (size a) v (elems a);
    store arr (ArrayCell (mkArray (size a + 1) (u64 (version a + 1)) l));; mret true
  else mret false.

Definition gc_array_set (arr index : nat) (v : JsValue) : M bool :=
  a ← load_array arr;
  if (index <? size a)%nat then
    l ← put index v (elems a);
    store arr (ArrayCell (mkArray (size a) (version a) l));; mret true
  else
    ok ← gc_array_reserve arr (size_add index 1);
    if ok : bool then
      a ← load_array arr;
      (if (index <? length (elems a))%nat then
         store arr (ArrayCell (mkArray (index + 1) (u64 (version a + 1))
           (take (size a) (elems a) ++ replicate (index - size a) Undefined ++ v :: drop (index + 1) (elems a))))
       else fault);;
      mret true
    else mret false.

(** [removed] is what [out] receives. *)
Definition gc_array_pop (arr : nat) : M (option JsValue) :=
  a ← load_array arr;
  match size a with
  | O => mret None
  | S idx =>
      removed ← some_or_fault (elems a !! idx);
      l ← put idx Undefined (elems a);
      store arr (ArrayCell (mkArray idx (u64 (version a + 1)) l));; mret (Some removed)
  end.

Definition gc_array_insert (arr index : nat) (v : JsValue) : M bool :=
  a ← load_array arr;
  let index := Nat.min index (size a) in
  ok ← gc_array_reserve arr (size a + 1);
  if ok : bool then
    a ← load_array arr;
    (if (size a <? length (elems a))%nat then
       store arr (ArrayCell (mkArray (size a + 1) (u64 (version a + 1))
         (take index (elems a) ++ v :: take (size a - index) (drop index (elems a)) ++ drop (size a + 1) (elems a))))
     else fault);;
    mret true
  else mret false.

Definition gc_array_remove (arr index : nat) : M (option JsValue) :=
  a ← load_array arr;
  if (size a <=? index)%nat then mret None
  else
    removed ← some_or_fault (elems a !! index);
    (if (size a <=? length (elems a))%nat then
       store arr (ArrayCell (mkArray (size a - 1) (u64 (version a + 1))
         (take index (elems a) ++ take (size a - 1 - index) (drop (index + 1) (elems a)) ++ Undefined :: drop (size a) (elems a))))
     else fault);;
    mret (Some removed).

(** ** Exceptions *)

Definition gc_new_exception (position : Z) (name message : option nat) (meta : JsValue) : M (option nat) :=
  gc_new false (ExceptionCell (mkException position name message meta)).

(** With texts for the name and the message. *)
Definition gc_new_exception_texts (position : Z) (name message : option (list Z)) (meta : JsValue) : M (option nat) :=
  let text (t : option (list Z)) : M (option (option nat)) :=
    match t with
    | None => mret (Some None)
    | Some t => p ← gc_new_string t; mret (match p with Some p => Some (Some p) | None => None end)
    end in
  name ← text name;
  match name with
  | None => mret None
  | Some name =>
      message ← text message;
      match message with None => mret None | Some message => gc_new_exception position name message meta end
  end.

(** ** Values of [JsNode.cpp] that are in the heap; [Undefined] without memory *)

Definition heap_value (make : nat -> JsValue) (p : option nat) : JsValue := match p with Some p => make p | None => Undefined end.

Definition make_string (data : list Z) : M JsValue := p ← gc_new_string data; mret (heap_value HeapString p).
Definition make_binary (data : list Z) : M JsValue := p ← gc_new_binary data; mret (heap_value HeapBinary p).
Definition make_array (capacity : nat) : M JsValue := p ← gc_new_array capacity; mret (heap_value Array p).

(** ** Widths *)

(** The buffer of the array has a size that does not wrap. *)
Definition small_buffer (a : GcArray) : Prop := Z.of_nat (length (elems a)) < 2 ^ 59.

Lemma index32_small i : Z.of_nat i < 2 ^ 31 -> index32 i = Some i.
Proof.
  intros Hi. unfold index32, to_signed. rewrite (wrap_small 32) by (unfold in_width; lia).
  rewrite (proj2 (Z.ltb_lt _ _)) by lia. cbv zeta. rewrite (proj2 (Z.eqb_neq _ _)) by lia. rewrite wrap_small by (unfold in_width; lia).
  by rewrite Nat2Z.id.
Qed.

Lemma size_add_small a b : Z.of_nat (a + b) < 2 ^ 64 -> size_add a b = (a + b)%nat.
Proof. intros H. unfold size_add. rewrite wrap_small by (unfold in_width; lia). lia. Qed.

Lemma alloc_array_small width count h : 0 <= width * Z.of_nat count < 2 ^ 64 -> alloc_array width count h = alloc h.
Proof.
  intros Hw. unfold alloc_array, mbind, M_bind. destruct (alloc h) as [[[] h']|]; [|done..].
  by rewrite wrap_small, Z.eqb_refl.
Qed.

Lemma double_until_some fuel c n : 0 < c -> n <= c * 2 ^ Z.of_nat fuel -> n <= 2 ^ 62 -> c < 2 ^ 62 ->
  exists c', double_until (S fuel) c n = Some c' /\ c <= c' /\ n <= c' /\ (c' = c \/ c' < 2 * n).
Proof.
  revert c. induction fuel as [|fuel IH]; intros c Hc Hn Hm Hcm; cbn [double_until].
  - change (2 ^ Z.of_nat 0) with 1 in Hn. rewrite (proj2 (Z.ltb_ge _ _)) by lia. exists c. split; [done|lia].
  - destruct (Z.ltb_spec c n) as [Hlt|Hge]; [|exists c; split; [done|lia]]. rewrite wrap_small by (unfold in_width; lia).
    destruct (Z.ltb_spec (c * 2) n) as [Hlt2|Hge2].
    + destruct (IH (c * 2)) as (c' & E & H1 & H2 & H3); [lia| |lia|lia|].
      { rewrite Nat2Z.inj_succ, Z.pow_succ_r in Hn by lia. lia. }
      cbn [double_until] in E. rewrite (proj2 (Z.ltb_lt _ _) Hlt2) in E. exists c'. split; [exact E|]. lia.
    + exists (c * 2). split; [|lia]. done.
Qed.

(** The capacity that doubling comes to is less than twice what is asked for. *)
Lemma grown_capacity_run c n h : 0 < c < 2 ^ 62 -> Z.of_nat n <= 2 ^ 62 ->
  exists c', grown_capacity c n h = Some (c', h) /\ c <= Z.of_nat c' /\ (n <= c')%nat /\ (Z.of_nat c' = c \/ Z.of_nat c' < 2 * Z.of_nat n).
Proof.
  intros Hc Hn. destruct (double_until_some 64 c (Z.of_nat n)) as (c' & E & H1 & H2 & H3); [lia| |lia|lia|].
  { assert (1 * 2 ^ 64 <= c * 2 ^ Z.of_nat 64) by (apply Z.mul_le_mono_nonneg_r; lia). lia. }
  exists (Z.to_nat c'). unfold grown_capacity, some_or_fault, mbind, M_bind, mret, M_ret. rewrite E. split; [done|]. lia.
Qed.

(** A capacity that has wrapped stays 0. *)
Lemma doubling_never_ends fuel n : 0 < n -> double_until fuel 0 n = None.
Proof. intros Hn. induction fuel as [|fuel IH]; [done|]. cbn [double_until]. by rewrite (proj2 (Z.ltb_lt _ _) Hn). Qed.

(** [gc_new_array(2^60)] asks for a buffer of 2^63 bytes and then fills 2^60 values. *)
Lemma new_array_wraps h h' h'' : alloc h = Some (true, h') -> alloc h' = Some (true, h'') -> forall capacity,
  Z.of_nat capacity = 2 ^ 60 -> gc_new_array capacity h = None.
Proof.
  intros E1 E2 capacity Hc. unfold gc_new_array, gc_alloc_raw, mbind, M_bind. rewrite E1.
  destruct (Nat.eqb_spec capacity 0) as [->|_]; [done|]. unfold alloc_array, mbind, M_bind. rewrite E2, Hc. by vm_compute.
Qed.

Lemma gc_new_array_small capacity h : Z.of_nat capacity < 2 ^ 59 ->
  gc_new_array capacity h = gc_new (negb (capacity =? 0)%nat) (ArrayCell (mkArray 0 0 (replicate capacity Undefined))) h.
Proof.
  intros Hc. unfold gc_new_array, gc_new. apply m_bind_eq; [done|]. intros [hdr|] h'; [|done].
  apply m_bind_eq; [|done]. destruct (_ =? _)%nat; [done|]. apply alloc_array_small. unfold sizeof_JsValue. lia.
Qed.

End Gc.
