(* ===== verification/JsObject.v ===== *)
(** * Objects: hash tables that keep the order of insertion
    (the object functions of [src/common/json/JsGc.cpp])

    An object is a vector of entries; occupied entries are linked twice, in the order
    of insertion and in the chain of their bucket, and removed ones in the free list.
    A key is a string of the heap.  The functions that take a [GcObject] in the source
    take the record and give it back.  Buffers have the sizes the code computes, modulo
    2^64, and an index that is stored has gone through [int32_t].

    [JsObjectMap] proves that an object is an ordered map from strings to values. *)
From S2P Require Import Prelude JsText JsHeap.

Module Objects.
Import Gc.

(** ** Capacities *)

Definition kMinBucketCount : Z := 8.
Definition kMaxLoadNumerator : Z := 3.
Definition kMaxLoadDenominator : Z := 4.

(** The loop has an end for values up to 2^63. *)
Fixpoint next_pow2_loop (fuel : nat) (result value : Z) : option Z :=
  match fuel with
  | O => None
  | S fuel' => if result <? value then next_pow2_loop fuel' (u64 (Z.shiftl result 1)) value else Some result
  end.

Definition next_pow2 (value : Z) : option Z := if value <=? 1 then Some 1 else next_pow2_loop 65 1 value.

Definition bucket_count_for_entries (entry_capacity : nat) : option nat :=
  if (entry_capacity =? 0)%nat then Some 0%nat
  else
    let needed := u64 (Z.of_nat entry_capacity * kMaxLoadDenominator + kMaxLoadNumerator - 1) / kMaxLoadNumerator in
    Z.to_nat <$> next_pow2 (if needed <? kMinBucketCount then kMinBucketCount else needed).

(** ** Entries *)

Definition empty_entry : GcObjectEntry := mkEntry None Undefined 0 None None None None false.

Definition with_next_bucket (v : option nat) (e : GcObjectEntry) : GcObjectEntry :=
  mkEntry (key e) (value e) (entry_hash e) v (prev_order e) (next_order e) (next_free e) (occupied e).
Definition with_prev_order (v : option nat) (e : GcObjectEntry) : GcObjectEntry :=
  mkEntry (key e) (value e) (entry_hash e) (next_bucket e) v (next_order e) (next_free e) (occupied e).
Definition with_next_order (v : option nat) (e : GcObjectEntry) : GcObjectEntry :=
  mkEntry (key e) (value e) (entry_hash e) (next_bucket e) (prev_order e) v (next_free e) (occupied e).
Definition with_next_free (v : option nat) (e : GcObjectEntry) : GcObjectEntry :=
  mkEntry (key e) (value e) (entry_hash e) (next_bucket e) (prev_order e) (next_order e) v (occupied e).
Definition with_value (v : JsValue) (e : GcObjectEntry) : GcObjectEntry :=
  mkEntry (key e) v (entry_hash e) (next_bucket e) (prev_order e) (next_order e) (next_free e) (occupied e).

Definition with_entries (v : list GcObjectEntry) (o : GcObject) : GcObject :=
  mkObject (object_size o) (object_version o) (entry_count o) (head o) (tail o) (free_head o) (buckets o) v.
Definition with_buckets (v : list (option nat)) (o : GcObject) : GcObject :=
  mkObject (object_size o) (object_version o) (entry_count o) (head o) (tail o) (free_head o) v (entries o).
Definition with_order (hd tl : option nat) (o : GcObject) : GcObject :=
  mkObject (object_size o) (object_version o) (entry_count o) hd tl (free_head o) (buckets o) (entries o).
Definition with_free_head (v : option nat) (o : GcObject) : GcObject :=
  mkObject (object_size o) (object_version o) (entry_count o) (head o) (tail o) v (buckets o) (entries o).
Definition with_size (v : nat) (o : GcObject) : GcObject :=
  mkObject v (u64 (object_version o + 1)) (entry_count o) (head o) (tail o) (free_head o) (buckets o) (entries o).
Definition with_entry_count (v : nat) (o : GcObject) : GcObject :=
  mkObject (object_size o) (object_version o) v (head o) (tail o) (free_head o) (buckets o) (entries o).

(** [obj->entries[i].field = ...] *)
Definition update (i : nat) (f : GcObjectEntry -> GcObjectEntry) (o : GcObject) : M GcObject :=
  match entries o !! i with Some e => mret (with_entries (<[i := f e]> (entries o)) o) | None => fault end.

Definition update_at (i : option nat) (f : GcObjectEntry -> GcObjectEntry) (o : GcObject) : M GcObject :=
  match i with Some i => update i f o | None => mret o end.

Definition entry_at (i : nat) (o : GcObject) : M GcObjectEntry := some_or_fault (entries o !! i).

Definition bucket_index (hash : Z) (count : nat) : nat := Z.to_nat (Z.land hash (Z.of_nat count - 1)).

Definition put_bucket (b : nat) (i : option nat) (o : GcObject) : M GcObject :=
  if (b <? length (buckets o))%nat then mret (with_buckets (<[b := i]> (buckets o)) o) else fault.

(** ** Looking up *)

(** [entry.occupied && entry.hash == hash && string_equals(entry.key, key)] *)
Definition entry_matches (e : GcObjectEntry) (k : nat) (hash : Z) : M bool :=
  if occupied e && (entry_hash e =? hash) then
    match key e with Some k' => string_equals k' k | None => mret false end
  else mret false.

Fixpoint find_loop (o : GcObject) (k : nat) (hash : Z) (fuel : nat) (idx : option nat) : M (option nat) :=
  match idx, fuel with
  | None, _ => mret None
  | Some _, O => fault
  | Some i, S fuel' =>
      e ← entry_at i o;
      found ← entry_matches e k hash;
      if found : bool then mret (Some i) else find_loop o k hash fuel' (next_bucket e)
  end.

Definition find_entry_index (o : GcObject) (k : nat) (hash : Z) : M (option nat) :=
  if (length (buckets o) =? 0)%nat then mret None
  else
    idx ← some_or_fault (buckets o !! bucket_index hash (length (buckets o)));
    find_loop o k hash (length (entries o)) idx.

Definition gc_object_get (obj k : nat) : M (option JsValue) :=
  hash ← string_hash k;
  o ← load_object obj;
  idx ← find_entry_index o k hash;
  match idx with None => mret None | Some i => e ← entry_at i o; mret (Some (value e)) end.

Fixpoint entry_at_loop (o : GcObject) (fuel current : nat) (cursor : option nat) (index : nat) : M (option GcObjectEntry) :=
  match cursor, fuel with
  | None, _ => mret None
  | Some _, O => fault
  | Some c, S fuel' =>
      e ← entry_at c o;
      if (current =? index)%nat then mret (Some e) else entry_at_loop o fuel' (S current) (next_order e) index
  end.

Definition gc_object_entry_at (obj index : nat) : M (option GcObjectEntry) :=
  o ← load_object obj;
  if (object_size o <=? index)%nat then mret None else entry_at_loop o (length (entries o)) 0 (head o) index.

(** ** Growing *)

Fixpoint rehash_loop (n i : nat) (new_buckets : list (option nat)) (o : GcObject) : M GcObject :=
  match n with
  | O => mret (with_buckets new_buckets o)
  | S n' =>
      e ← entry_at i o;
      if occupied e then
        let b := bucket_index (entry_hash e) (length new_buckets) in
        h ← some_or_fault (new_buckets !! b);
        o ← update i (with_next_bucket h) o;
        rehash_loop n' (S i) (<[b := index32 i]> new_buckets) o
      else
        o ← update i (with_next_bucket None) o;
        rehash_loop n' (S i) new_buckets o
  end.

Definition rehash_buckets (o : GcObject) (new_bucket_count : nat) : M (bool * GcObject) :=
  if (new_bucket_count =? 0)%nat then mret (false, o)
  else
    ok ← alloc_array sizeof_int32_t new_bucket_count;
    if ok : bool then o ← rehash_loop (entry_count o) 0 (replicate new_bucket_count None) o; mret (true, o)
    else mret (false, o).

Definition grow_entries (o : GcObject) (new_capacity : nat) : M (bool * GcObject) :=
  if (new_capacity =? 0)%nat then mret (false, o)
  else
    ok ← alloc_array sizeof_GcObjectEntry new_capacity;
    if ok : bool then
      mret (true, with_entries (take (entry_count o) (entries o) ++ replicate (new_capacity - entry_count o) empty_entry) o)
    else mret (false, o).

Definition gc_object_reserve (o : GcObject) (expected : nat) : M (bool * GcObject) :=
  let capacity := length (entries o) in
  let new_capacity := if (capacity =? 0)%nat then 1%nat else capacity in
  grown ← (if (new_capacity <? expected)%nat then c ← grown_capacity (Z.of_nat new_capacity) expected; grow_entries o c
           else if (capacity =? 0)%nat && (0 <? expected)%nat then grow_entries o expected
           else mret (true, o));
  let '(ok, o) := (grown : bool * GcObject) in
  if ok then
    desired ← some_or_fault (bucket_count_for_entries (Nat.max expected (object_size o)));
    if (length (buckets o) <? desired)%nat then rehash_buckets o desired
    else if (length (buckets o) =? 0)%nat && (0 <? desired)%nat then rehash_buckets o desired
    else mret (true, o)
  else mret (false, o).

Definition allocate_entry (o : GcObject) : M (option nat * GcObject) :=
  match free_head o with
  | Some idx =>
      e ← entry_at idx o;
      o ← update idx (with_next_free None) (with_free_head (next_free e) o);
      mret (Some idx, o)
  | None =>
      if (length (entries o) <=? entry_count o)%nat then mret (None, o)
      else mret (index32 (entry_count o), with_entry_count (S (entry_count o)) o)
  end.

(** ** Changing *)

(** The entry at [idx] becomes that of the key, at the head of its bucket and the end
    of the order. *)
Definition link_entry (idx k : nat) (v : JsValue) (hash : Z) (o : GcObject) : M GcObject :=
  let b := bucket_index hash (length (buckets o)) in
  h ← some_or_fault (buckets o !! b);
  o ← update idx (fun _ => mkEntry (Some k) v hash h (tail o) None None true) o;
  o ← put_bucket b (Some idx) o;
  o ← update_at (tail o) (with_next_order (Some idx)) o;
  mret (with_size (object_size o + 1)
          (with_order (match tail o with Some _ => head o | None => Some idx end) (Some idx) o)).

Definition gc_object_set (obj k : nat) (v : JsValue) : M bool :=
  hash ← string_hash k;
  o ← load_object obj;
  existing ← find_entry_index o k hash;
  match existing with
  | Some i =>
      o ← update i (with_value v) o;
      store obj (ObjectCell o);; mret true
  | None =>
      r ← gc_object_reserve o (object_size o + 1);
      let '(ok, o) := (r : bool * GcObject) in
      if negb ok || (length (buckets o) =? 0)%nat || (length (entries o) =? 0)%nat then store obj (ObjectCell o);; mret false
      else
        r ← allocate_entry o;
        let '(idx, o) := (r : option nat * GcObject) in
        match idx with
        | None => store obj (ObjectCell o);; mret false
        | Some idx =>
            o ← link_entry idx k v hash o;
            store obj (ObjectCell o);; mret true
        end
  end.

(** The entry leaves the order and its bucket and becomes the first free one. *)
Definition unlink_entry (prev : option nat) (i b : nat) (e : GcObjectEntry) (o : GcObject) : M GcObject :=
  o ← (match prev with None => put_bucket b (next_bucket e) o | Some p => update p (with_next_bucket (next_bucket e)) o end);
  o ← update_at (prev_order e) (with_next_order (next_order e)) o;
  let o := with_order (match prev_order e with Some _ => head o | None => next_order e end) (tail o) o in
  o ← update_at (next_order e) (with_prev_order (prev_order e)) o;
  let o := with_order (head o) (match next_order e with Some _ => tail o | None => prev_order e end) o in
  o ← update i (fun _ => mkEntry None Undefined 0 None None None (free_head o) false) o;
  mret (with_size (object_size o - 1) (with_free_head (Some i) o)).

Fixpoint remove_loop (o : GcObject) (k : nat) (hash : Z) (b fuel : nat) (prev idx : option nat) : M (bool * GcObject) :=
  match idx, fuel with
  | None, _ => mret (false, o)
  | Some _, O => fault
  | Some i, S fuel' =>
      e ← entry_at i o;
      found ← entry_matches e k hash;
      if found : bool then o ← unlink_entry prev i b e o; mret (true, o)
      else remove_loop o k hash b fuel' (Some i) (next_bucket e)
  end.

Definition gc_object_remove (obj k : nat) : M bool :=
  o ← load_object obj;
  if (length (buckets o) =? 0)%nat then mret false
  else
    hash ← string_hash k;
    let b := bucket_index hash (length (buckets o)) in
    idx ← some_or_fault (buckets o !! b);
    r ← remove_loop o k hash b (length (entries o)) None idx;
    let '(found, o) := (r : bool * GcObject) in
    store obj (ObjectCell o);; mret found.

(** ** Making *)

Definition gc_new_object (capacity : nat) : M (option nat) :=
  hdr ← gc_alloc_raw;
  match hdr with
  | None => mret None
  | Some hdr =>
      if (capacity =? 0)%nat then p ← gc_link hdr (ObjectCell (mkObject 0 0 0 None None None [] [])); mret (Some p)
      else
        ok ← alloc_array sizeof_GcObjectEntry capacity;
        if negb ok then mret None
        else
          count ← some_or_fault (bucket_count_for_entries capacity);
          if (count =? 0)%nat then mret None
          else
            ok ← alloc_array sizeof_int32_t count;
            if negb ok then mret None
            else
              p ← gc_link hdr (ObjectCell (mkObject 0 0 0 None None None (replicate count None) (replicate capacity empty_entry)));
              mret (Some p)
  end.

(** [gc_new_object(2^58)] asks for a buffer of 0 bytes and then fills 2^58 entries. *)
Lemma new_object_wraps h h' h'' : alloc h = Some (true, h') -> alloc h' = Some (true, h'') -> forall capacity,
  Z.of_nat capacity = 2 ^ 58 -> gc_new_object capacity h = None.
Proof.
  intros E1 E2 capacity Hc. unfold gc_new_object, gc_alloc_raw, mbind, M_bind. rewrite E1.
  destruct (Nat.eqb_spec capacity 0) as [->|_]; [done|]. unfold alloc_array, mbind, M_bind. rewrite E2, Hc. by vm_compute.
Qed.

Definition make_object (capacity : nat) : M JsValue := p ← gc_new_object capacity; mret (heap_value Object p).

End Objects.
