(* ===== verification/JsObjectMap.v ===== *)
(** * Objects are ordered maps

    The invariant of the table of [JsObject] and the refinement: the operations on an
    object do what they do on the list of its keys and values in the order of
    insertion. *)
From S2P Require Import Prelude JsText JsHeap JsObject.

Module ObjectMap.
Import Gc Objects.

(** ** Linked lists of indices *)

(** The list that starts at [start] and goes on with [nx]. *)
Fixpoint chain (nx : nat -> option nat) (start : option nat) (l : list nat) : Prop :=
  match l with [] => start = None | i :: l' => start = Some i /\ chain nx (nx i) l' end.

Lemma chain_ext nx nx' start l : (forall i, i ∈ l -> nx' i = nx i) -> chain nx start l -> chain nx' start l.
Proof.
  revert start. induction l as [|i l IH]; intros start H; [done|]. intros [-> Hc]. split; [done|].
  rewrite H by apply list_elem_of_here. apply IH; [|done]. intros j Hj. apply H. by apply list_elem_of_further.
Qed.

Lemma chain_remove nx nx' start l1 i l2 : NoDup (l1 ++ i :: l2) -> chain nx start (l1 ++ i :: l2) ->
  (forall x, x ∈ l1 ++ l2 -> Some x <> last l1 -> nx' x = nx x) -> (forall p, last l1 = Some p -> nx' p = nx i) ->
  chain nx' (match last l1 with None => nx i | Some _ => start end) (l1 ++ l2).
Proof.
  revert start. induction l1 as [|a l1 IH]; intros start Hd Hc Hn Hp.
  - destruct Hc as [-> Hc]. cbn [app last]. eapply chain_ext; [|done]. intros x Hx. by apply Hn.
  - destruct Hc as [-> Hc]. cbn [app] in *. apply NoDup_cons in Hd as [Ha Hd].
    assert (chain nx' (nx' a) (l1 ++ l2)) as Hc'.
    { destruct l1 as [|b l1].
      - rewrite (Hp a) by done. apply (IH (nx a) Hd Hc); [|done]. intros x Hx _. apply Hn; [by apply list_elem_of_further|].
        cbn [last]. intros [= ->]. apply Ha. cbn [app] in *. by apply list_elem_of_further.
      - rewrite (Hn a) by (apply list_elem_of_here || (intros E; symmetry in E; cbn [last] in E; apply last_Some_elem_of in E;
          apply Ha; apply elem_of_app; by left)).
        assert (last (a :: b :: l1) = last (b :: l1)) as El by done. rewrite El in *.
        specialize (IH (nx a) Hd Hc). destruct (last (b :: l1)) eqn:E; [|by apply last_None in E].
        apply IH; [|done]. intros x Hx. apply Hn. by apply list_elem_of_further. }
    destruct (last (a :: l1)) eqn:E; [|by apply last_None in E]. by split.
Qed.

Lemma chain_append nx nx' start l n : n ∉ l -> NoDup l -> chain nx start l -> nx' n = None ->
  (forall x, x ∈ l -> Some x <> last l -> nx' x = nx x) -> (forall p, last l = Some p -> nx' p = Some n) ->
  chain nx' (match last l with None => Some n | Some _ => start end) (l ++ [n]).
Proof.
  intros Hn Hd Hc H0 Hx Hp. revert start Hd Hc Hn Hx Hp. induction l as [|a l IH]; intros start Hd Hc Hn Hx Hp; [by split|].
  destruct Hc as [-> Hc]. apply NoDup_cons in Hd as [Ha Hd]. apply not_elem_of_cons in Hn as [Hna Hn].
  assert (chain nx' (nx' a) (l ++ [n])) as Hc'.
  { destruct l as [|b l].
    - rewrite (Hp a) by done. by split.
    - rewrite (Hx a) by (apply list_elem_of_here || (intros E; symmetry in E; cbn [last] in E; by apply last_Some_elem_of in E)).
      assert (last (a :: b :: l) = last (b :: l)) as El by done. rewrite El in *.
      specialize (IH (nx a) Hd Hc Hn). destruct (last (b :: l)) eqn:E; [|by apply last_None in E].
      apply IH; [|done]. intros x Hx'. apply Hx. by apply list_elem_of_further. }
  destruct (last (a :: l)) eqn:E; [|by apply last_None in E]. by split.
Qed.

Lemma chain_start nx start l : chain nx start l -> start = list.head l.
Proof. destruct l; [done|]. by intros [-> _]. Qed.

(** ** The invariant *)

Definition link (f : GcObjectEntry -> option nat) (o : GcObject) (i : nat) : option nat := entries o !! i ≫= f.

Definition bucket_of (o : GcObject) (i : nat) : option nat :=
  (fun e => bucket_index (entry_hash e) (length (buckets o))) <$> entries o !! i.

(** The positions of the entries are [int32_t] numbers. *)
Definition narrow (o : GcObject) : Prop := Z.of_nat (length (entries o)) <= 2 ^ 31.

(** [os] are the entries in order, [fs] the free ones. *)
Record table_ok (o : GcObject) (os fs : list nat) : Prop := mkOk {
  ok_count : (entry_count o <= length (entries o))%nat;
  ok_nodup : NoDup (os ++ fs);
  ok_all : forall i, i ∈ os ++ fs <-> (i < entry_count o)%nat;
  ok_next : chain (link next_order o) (head o) os;
  ok_prev : chain (link prev_order o) (tail o) (reverse os);
  ok_free : chain (link next_free o) (free_head o) fs;
  ok_occupied : forall i e, entries o !! i = Some e -> (occupied e = true <-> i ∈ os);
  ok_size : object_size o = length os;
  ok_buckets : forall b start, buckets o !! b = Some start ->
    exists cs, NoDup cs /\ chain (link next_bucket o) start cs /\ forall i, i ∈ cs <-> i ∈ os /\ bucket_of o i = Some b;
  ok_no_buckets : buckets o = [] -> os = [];
  ok_narrow : narrow o;
}.

(** [k] is a string with the units [t]; a hash that was kept is right. *)
Definition text (h : GcHeap) (k : nat) (t : list Z) : Prop :=
  exists c s, cells h !! k = Some c /\ body c = StringCell s /\ units s = t /\ (hash s = None \/ hash s = Some (hash_code_units t)).

Definition entry_is (h : GcHeap) (o : GcObject) (i : nat) (t : list Z) (v : JsValue) : Prop :=
  exists e k, entries o !! i = Some e /\ key e = Some k /\ text h k t /\ entry_hash e = hash_code_units t /\ value e = v.

(** The keys and values, in the order of insertion. *)
Definition lists (h : GcHeap) (o : GcObject) (os : list nat) (m : list (list Z * JsValue)) : Prop :=
  Forall2 (fun i p => entry_is h o i p.1 p.2) os m.

Definition object_is (h : GcHeap) (obj : nat) (m : list (list Z * JsValue)) : Prop :=
  exists c o os fs, cells h !! obj = Some c /\ body c = ObjectCell o /\ table_ok o os fs /\ lists h o os m /\ NoDup (m.*1).

(** ** The specification *)

Fixpoint map_get (t : list Z) (m : list (list Z * JsValue)) : option JsValue :=
  match m with [] => None | (t', v) :: m' => if bool_decide (t' = t) then Some v else map_get t m' end.

(** A new key goes to the end; a known one keeps its place. *)
Fixpoint map_set (t : list Z) (v : JsValue) (m : list (list Z * JsValue)) : list (list Z * JsValue) :=
  match m with
  | [] => [(t, v)]
  | (t', v') :: m' => if bool_decide (t' = t) then (t', v) :: m' else (t', v') :: map_set t v m'
  end.

Fixpoint map_remove (t : list Z) (m : list (list Z * JsValue)) : list (list Z * JsValue) :=
  match m with [] => [] | (t', v) :: m' => if bool_decide (t' = t) then m' else (t', v) :: map_remove t m' end.

(** ** Hashing and comparing *)

(** [h'] is [h] with hashes kept. *)
Record cached (h h' : GcHeap) : Prop := mkCached {
  cached_answers : answers h' = answers h;
  cached_texts : forall k t, text h k t -> text h' k t;
  cached_cells : forall p c, cells h !! p = Some c -> (forall s, body c <> StringCell s) -> cells h' !! p = Some c }.

Lemma cached_refl h : cached h h.
Proof. by constructor. Qed.

Lemma string_hash_run h k t : text h k t -> exists h', string_hash k h = Some (hash_code_units t, h') /\ cached h h'.
Proof.
  intros (c & s & Hc & Hb & Hu & Hh). unfold string_hash, load_string, load, mbind, M_bind. rewrite Hc, Hb.
  unfold mret, M_ret. destruct Hh as [Hh|Hh]; rewrite Hh; [|exists h; split; [done|apply cached_refl]].
  unfold store. rewrite Hc, Hu. eexists. split; [done|]. constructor; cbn; [done| |].
  - intros k' t' (c' & s' & Hc' & Hb' & Hu' & Hh'). destruct (decide (k' = k)) as [->|Hne].
    + assert (c' = c) as -> by congruence. assert (s' = s) as -> by congruence.
      eexists _, _. cbn. rewrite lookup_insert_eq. split; [done|]. split; [done|]. cbn. split; [congruence|]. right. congruence.
    + exists c', s'. cbn. by rewrite lookup_insert_ne.
  - intros p c' Hc' Hn. rewrite lookup_insert_ne; [done|]. intros ->. apply (Hn s). congruence.
Qed.

Lemma units_equal_spec l r : length l = length r -> units_equal l r = bool_decide (l = r).
Proof.
  revert r. induction l as [|x l IH]; intros [|y r] H; try discriminate H; [done|]. injection H as H. cbn [units_equal].
  destruct (Z.eqb_spec x y) as [->|Hne]; cbn [negb].
  - rewrite IH by done. apply bool_decide_ext. split; [by intros ->|by intros [= ->]].
  - symmetry. apply bool_decide_eq_false. by intros [= ? _].
Qed.

Lemma same_string_spec l r : same_string l r = bool_decide (units l = units r).
Proof.
  unfold same_string. destruct (Nat.eqb_spec (length (units l)) (length (units r))) as [E|E]; cbn [negb].
  - destruct (Nat.eqb_spec (length (units l)) 0) as [E0|E0].
    + symmetry. apply bool_decide_eq_true. rewrite E0 in E. symmetry in E. apply nil_length_inv in E0, E. by rewrite E0, E.
    + case_bool_decide; [done|]. by apply units_equal_spec.
  - symmetry. apply bool_decide_eq_false. congruence.
Qed.

Lemma text_fun h k t t' : text h k t -> text h k t' -> t = t'.
Proof. intros (c & s & H1 & H2 & H3 & _) (c' & s' & H1' & H2' & H3' & _). congruence. Qed.

Lemma string_equals_run h k k' t t' : text h k t -> text h k' t' -> string_equals k k' h = Some (bool_decide (t = t'), h).
Proof.
  intros Hk Hk'. unfold string_equals. destruct (Nat.eqb_spec k k') as [->|Hne].
  - pose proof (text_fun _ _ _ _ Hk Hk') as ->. by rewrite bool_decide_true.
  - destruct Hk as (c & s & Hc & Hb & <- & _), Hk' as (c' & s' & Hc' & Hb' & <- & _).
    unfold load_string, load, mbind, M_bind. rewrite Hc, Hb. unfold mret, M_ret. rewrite Hc', Hb'. by rewrite same_string_spec.
Qed.

Lemma entry_matches_run h o i t v e k t' : entry_is h o i t v -> entries o !! i = Some e -> occupied e = true -> text h k t' ->
  entry_matches e k (hash_code_units t') h = Some (bool_decide (t = t'), h).
Proof.
  intros (e' & k' & He' & Hk' & Ht & Hh & _) He Ho Hk. assert (e' = e) as -> by congruence. unfold entry_matches. rewrite Ho, Hh, Hk'.
  cbn [andb]. destruct (Z.eqb_spec (hash_code_units t) (hash_code_units t')) as [E|E].
  - by apply string_equals_run.
  - unfold mret, M_ret. rewrite bool_decide_false by congruence. done.
Qed.

Lemma find_loop_run h o k t cs fuel idx : text h k t ->
  (forall i, i ∈ cs -> exists t' v e, entry_is h o i t' v /\ entries o !! i = Some e /\ occupied e = true) ->
  chain (link next_bucket o) idx cs -> (length cs <= fuel)%nat ->
  exists r, find_loop o k (hash_code_units t) fuel idx h = Some (r, h) /\
    match r with Some i => i ∈ cs /\ exists v, entry_is h o i t v | None => forall i t' v, i ∈ cs -> entry_is h o i t' v -> t' <> t end.
Proof.
  intros Hk. revert fuel idx. induction cs as [|i cs IH]; intros fuel idx Hall Hc Hf.
  - cbn in Hc. subst idx. exists None. split; [by destruct fuel|]. intros i t' v H. by apply elem_of_nil in H.
  - destruct Hc as [-> Hc]. destruct fuel as [|fuel]; [cbn in Hf; lia|]. cbn [find_loop]. cbn [length] in Hf.
    destruct (Hall i ltac:(apply list_elem_of_here)) as (t' & v & e & He & Hl & Ho).
    unfold mbind, M_bind, entry_at, some_or_fault. rewrite Hl, (entry_matches_run h o i t' v e k t) by done.
    assert (link next_bucket o i = next_bucket e) as En by (unfold link; by rewrite Hl). rewrite En in Hc.
    case_bool_decide as Ht.
    + subst t'. exists (Some i). split; [done|]. split; [apply list_elem_of_here|by exists v].
    + destruct (IH fuel (next_bucket e) ltac:(intros j Hj; apply Hall; by apply list_elem_of_further) Hc ltac:(lia)) as (r & E & Hr).
      exists r. split; [exact E|]. destruct r as [j|].
      * destruct Hr as [Hj Hv]. split; [by apply list_elem_of_further|done].
      * intros j t'' v'' [->|Hj]%elem_of_cons Hj'; [|by eapply Hr].
        destruct He as (e1 & k1 & E1 & K1 & T1 & _), Hj' as (e2 & k2 & E2 & K2 & T2 & _).
        assert (e1 = e2) as -> by congruence. assert (k1 = k2) as -> by congruence. pose proof (text_fun _ _ _ _ T1 T2). congruence.
Qed.

(** ** The specification by position *)

Lemma map_get_None t m : map_get t m = None <-> t ∉ m.*1.
Proof.
  induction m as [|[t' v] m IH]; cbn [map_get fmap list_fmap fst]; [by split; [intros _ ?%elem_of_nil|]|].
  rewrite not_elem_of_cons. case_bool_decide as E; [split; [done|by intros [? _]]|]. rewrite IH. naive_solver.
Qed.

Section Position.
Context (t : list Z) (v0 : JsValue) (m : list (list Z * JsValue)) (j : nat).
Context (Hd : NoDup (m.*1)) (Hj : m !! j = Some (t, v0)).

Lemma map_get_at : map_get t m = Some v0.
Proof.
  revert j Hj Hd. induction m as [|[t' v] m' IH]; intros j Hj Hd; [done|]. cbn [map_get]. cbn in Hd. apply NoDup_cons in Hd as [Hn Hd].
  destruct j as [|j]; [injection Hj as -> ->; by rewrite bool_decide_true|]. cbn in Hj. case_bool_decide as E; [|by eapply IH].
  subst t'. exfalso. apply Hn. apply list_elem_of_fmap. exists (t, v0). split; [done|]. by eapply list_elem_of_lookup_2.
Qed.

Lemma map_set_at v : map_set t v m = <[j := (t, v)]> m.
Proof.
  revert j Hj Hd. induction m as [|[t' v1] m' IH]; intros j Hj Hd; [done|]. cbn [map_set]. cbn in Hd. apply NoDup_cons in Hd as [Hn Hd].
  destruct j as [|j]; [injection Hj as -> ->; by rewrite bool_decide_true|]. cbn in Hj. case_bool_decide as E.
  - subst t'. exfalso. apply Hn. apply list_elem_of_fmap. exists (t, v0). split; [done|]. by eapply list_elem_of_lookup_2.
  - cbn. f_equal. by apply IH.
Qed.

Lemma map_remove_at : map_remove t m = take j m ++ drop (S j) m.
Proof.
  revert j Hj Hd. induction m as [|[t' v1] m' IH]; intros j Hj Hd; [done|]. cbn [map_remove]. cbn in Hd. apply NoDup_cons in Hd as [Hn Hd].
  destruct j as [|j]; [injection Hj as -> ->; rewrite bool_decide_true by done; done|]. cbn in Hj. case_bool_decide as E.
  - subst t'. exfalso. apply Hn. apply list_elem_of_fmap. exists (t, v0). split; [done|]. by eapply list_elem_of_lookup_2.
  - cbn. f_equal. by apply IH.
Qed.

End Position.

Lemma map_set_new t v m : t ∉ m.*1 -> map_set t v m = m ++ [(t, v)].
Proof.
  induction m as [|[t' v'] m IH]; [done|]. cbn [map_set fmap list_fmap fst app]. rewrite not_elem_of_cons. intros [Hne Hn].
  rewrite bool_decide_false by congruence. by rewrite IH.
Qed.

Lemma map_remove_none t m : t ∉ m.*1 -> map_remove t m = m.
Proof.
  induction m as [|[t' v'] m IH]; [done|]. cbn [map_remove fmap list_fmap fst]. rewrite not_elem_of_cons. intros [Hne Hn].
  rewrite bool_decide_false by congruence. by rewrite IH.
Qed.

(** ** Looking up *)

Lemma bounded_length (cs : list nat) n : NoDup cs -> (forall i, i ∈ cs -> (i < n)%nat) -> (length cs <= n)%nat.
Proof.
  intros Hd H. rewrite <-(length_seq n 0). apply submseteq_length, NoDup_submseteq; [done|].
  intros i Hi. apply elem_of_seq. specialize (H i Hi). lia.
Qed.

Lemma hash_code_units_range us : 0 <= hash_code_units us.
Proof.
  unfold hash_code_units. assert (0 <= kFnvOffsetBasis) as H by done. revert H. generalize kFnvOffsetBasis.
  induction us as [|u us IH]; intros h Hh; [done|]. cbn [foldl]. apply IH. apply (wrap_range 64). lia.
Qed.

Lemma bucket_index_lt us n : (0 < n)%nat -> (bucket_index (hash_code_units us) n < n)%nat.
Proof.
  intros Hn. unfold bucket_index. pose proof (hash_code_units_range us) as H.
  assert (Z.land (hash_code_units us) (Z.of_nat n - 1) <= Z.of_nat n - 1) as Hl.
  { assert (0 <= Z.ldiff (Z.of_nat n - 1) (Z.land (hash_code_units us) (Z.of_nat n - 1))) as Hp by (apply Z.ldiff_nonneg; lia).
    rewrite <-Z.sub_nocarry_ldiff in Hp; [lia|]. apply Z.bits_inj'. intros k Hk. rewrite Z.ldiff_spec, Z.land_spec, Z.bits_0.
    by destruct (Z.testbit (hash_code_units us) k), (Z.testbit (Z.of_nat n - 1) k). }
  pose proof (proj2 (Z.land_nonneg (hash_code_units us) (Z.of_nat n - 1))). lia.
Qed.

Lemma lists_at h o os m i : lists h o os m -> i ∈ os -> exists j t v, os !! j = Some i /\ m !! j = Some (t, v) /\ entry_is h o i t v.
Proof.
  intros Hl [j Hj]%list_elem_of_lookup_1. destruct (Forall2_lookup_l _ _ _ _ _ Hl Hj) as ([t v] & Hm & He). by exists j, t, v.
Qed.

Lemma lists_text h o os m i t v j v' : lists h o os m -> NoDup (m.*1) -> os !! j = Some i -> m !! j = Some (t, v') -> entry_is h o i t v -> v = v'.
Proof.
  intros Hl _ Hi Hm (e & k & He & _ & _ & _ & <-). destruct (Forall2_lookup_lr _ _ _ _ _ _ Hl Hi Hm) as (e' & k' & He' & _ & _ & _ & Hv).
  cbn [snd] in Hv. congruence.
Qed.

Lemma find_entry_run h o os fs m k t : table_ok o os fs -> lists h o os m -> NoDup (m.*1) -> text h k t ->
  exists r, find_entry_index o k (hash_code_units t) h = Some (r, h) /\
    match r with Some i => exists j v, os !! j = Some i /\ m !! j = Some (t, v) | None => t ∉ m.*1 end.
Proof.
  intros Ho Hl Hd Hk. unfold find_entry_index. destruct (Nat.eqb_spec (length (buckets o)) 0) as [E|E].
  { exists None. split; [done|]. apply nil_length_inv in E. rewrite (ok_no_buckets _ _ _ Ho E) in Hl. apply Forall2_nil_inv_l in Hl as ->.
    apply not_elem_of_nil. }
  destruct (lookup_lt_is_Some_2 (buckets o) (bucket_index (hash_code_units t) (length (buckets o)))) as [start Hs];
    [apply bucket_index_lt; lia|].
  unfold mbind, M_bind, some_or_fault. rewrite Hs.
  destruct (ok_buckets _ _ _ Ho _ _ Hs) as (cs & Hcs & Hch & Hin).
  assert (forall i, i ∈ cs -> i ∈ os) as Hsub by (intros i Hi; by apply Hin in Hi as [? _]).
  destruct (find_loop_run h o k t cs (length (entries o)) start Hk) as (r & Er & Hr); [| done| |].
  - intros i Hi%Hsub. destruct (lists_at _ _ _ _ _ Hl Hi) as (j & t' & v & _ & _ & He). pose proof He as (e & k' & He1 & _).
    exists t', v, e. split; [done|]. split; [done|]. by apply (ok_occupied _ _ _ Ho i e He1).
  - pose proof (ok_count _ _ _ Ho). assert (length cs <= entry_count o)%nat; [|lia]. apply bounded_length; [done|].
    intros i Hi%Hsub. apply (ok_all _ _ _ Ho), elem_of_app. by left.
  - exists r. split; [exact Er|]. destruct r as [i|].
    + destruct Hr as [Hi%Hsub (v & He)]. destruct (lists_at _ _ _ _ _ Hl Hi) as (j & t' & v' & Hj & Hm & He').
      exists j, v'. split; [done|]. destruct He as (e & k1 & E1 & K1 & T1 & _), He' as (e2 & k2 & E2 & K2 & T2 & _).
      assert (e = e2) as -> by congruence. assert (k1 = k2) as -> by congruence. by rewrite (text_fun _ _ _ _ T1 T2).
    + intros Ht. apply list_elem_of_fmap in Ht as ([t' v] & -> & Hm). cbn [fst] in *. apply list_elem_of_lookup_1 in Hm as [j Hm].
      destruct (Forall2_lookup_r _ _ _ _ _ Hl Hm) as (i & Hi & He). cbn [fst snd] in He.
      apply (Hr i t' v); [|done|done]. apply Hin. split; [by eapply list_elem_of_lookup_2|].
      destruct He as (e & k1 & E1 & K1 & T1 & H1 & _). unfold bucket_of. rewrite E1. cbn. by rewrite H1.
Qed.

(** ** Changing entries *)

Lemma link_insert f o i e j : (i < length (entries o))%nat ->
  link f (with_entries (<[i := e]> (entries o)) o) j = if decide (j = i) then f e else link f o j.
Proof.
  intros Hi. unfold link. cbn [entries with_entries]. destruct (decide (j = i)) as [->|Hne].
  - by rewrite list_lookup_insert_eq.
  - by rewrite list_lookup_insert_ne by done.
Qed.

Lemma link_at f o i e : entries o !! i = Some e -> link f o i = f e.
Proof. intros H. unfold link. by rewrite H. Qed.

Lemma entry_lt o (i : nat) (e : GcObjectEntry) : entries o !! i = Some e -> (i < length (entries o))%nat.
Proof. apply lookup_lt_Some. Qed.

(** What a key, a hash and a value say does not depend on the links. *)
Lemma entry_is_ext h h' o o' i t v : (forall k t, text h k t -> text h' k t) ->
  (forall e, entries o !! i = Some e -> exists e', entries o' !! i = Some e' /\ key e' = key e /\ entry_hash e' = entry_hash e /\ value e' = value e) ->
  entry_is h o i t v -> entry_is h' o' i t v.
Proof.
  intros Ht He (e & k & E & K & T & H & V). destruct (He e E) as (e' & E' & K' & H' & V'). exists e', k.
  split; [done|]. split; [congruence|]. split; [by apply Ht|]. split; congruence.
Qed.

Lemma lists_ext h h' o o' os m : (forall k t, text h k t -> text h' k t) ->
  (forall i e, i ∈ os -> entries o !! i = Some e ->
    exists e', entries o' !! i = Some e' /\ key e' = key e /\ entry_hash e' = entry_hash e /\ value e' = value e) ->
  lists h o os m -> lists h' o' os m.
Proof.
  intros Ht He Hl. unfold lists in *. induction Hl as [|i [t v] os m Hi _ IH]; constructor.
  - eapply entry_is_ext; [done| |done]. intros e. apply He, list_elem_of_here.
  - apply IH. intros j e Hj. apply He. by apply list_elem_of_further.
Qed.

Definition buckets_ok (o : GcObject) (os : list nat) : Prop := forall b start, buckets o !! b = Some start ->
  exists cs, NoDup cs /\ chain (link next_bucket o) start cs /\ forall i, i ∈ cs <-> i ∈ os /\ bucket_of o i = Some b.

(** A change that leaves order and free list as they are. *)
Lemma table_ok_frame o o' os fs : table_ok o os fs ->
  entry_count o' = entry_count o -> head o' = head o -> tail o' = tail o -> free_head o' = free_head o -> object_size o' = object_size o ->
  (entry_count o <= length (entries o'))%nat ->
  (forall i, i ∈ os ++ fs -> link next_order o' i = link next_order o i /\ link prev_order o' i = link prev_order o i /\
    link next_free o' i = link next_free o i) ->
  (forall i e, entries o' !! i = Some e -> (occupied e = true <-> i ∈ os)) ->
  buckets_ok o' os -> (buckets o' = [] -> os = []) -> narrow o' -> table_ok o' os fs.
Proof.
  intros Ho Ec Eh Et Ef Es Hc Hl Hocc Hb Hn Hw. destruct Ho. constructor; try done; rewrite ?Ec, ?Eh, ?Et, ?Ef, ?Es; try done.
  - eapply chain_ext; [|done]. intros i Hi. apply Hl, elem_of_app. by left.
  - eapply chain_ext; [|done]. intros i Hi. apply Hl, elem_of_app. left. by apply elem_of_reverse.
  - eapply chain_ext; [|done]. intros i Hi. apply Hl, elem_of_app. by right.
Qed.

Lemma set_value_ok h o os fs m i j t v0 v : table_ok o os fs -> lists h o os m -> NoDup (m.*1) ->
  os !! j = Some i -> m !! j = Some (t, v0) ->
  exists o', update i (with_value v) o h = Some (o', h) /\ table_ok o' os fs /\ lists h o' os (map_set t v m).
Proof.
  intros Ho Hl Hd Hi Hm. destruct (Forall2_lookup_lr _ _ _ _ _ _ Hl Hi Hm) as (e & k & E & K & T & Hh & V). cbn [fst snd] in *.
  unfold update. rewrite E. eexists. split; [done|]. pose proof (entry_lt _ _ _ E) as Hlt.
  assert (forall f x, (forall e, f (with_value v e) = f e) -> link f (with_entries (<[i := with_value v e]> (entries o)) o) x = link f o x) as Hlink.
  { intros f x Hf. rewrite link_insert by done. case_decide; [|done]. subst x. rewrite Hf. by rewrite (link_at f o i e). }
  split.
  - apply (table_ok_frame o); try done.
    + cbn. rewrite length_insert. apply Ho.
    + intros x _. by rewrite !Hlink.
    + intros x e' Hx. cbn in Hx. apply list_lookup_insert_Some in Hx as [(<- & <- & _)|(_ & Hx)]; [|by apply Ho].
      cbn. by apply (ok_occupied _ _ _ Ho i).
    + intros b start Hb. cbn in Hb. destruct (ok_buckets _ _ _ Ho b start Hb) as (cs & H1 & H2 & H3). exists cs.
      split; [done|]. split; [eapply chain_ext; [|done]; intros x _; by apply Hlink|]. intros x. rewrite H3.
      unfold bucket_of. cbn. destruct (decide (x = i)) as [->|Hne]; [|by rewrite list_lookup_insert_ne].
      by rewrite list_lookup_insert_eq, E by done.
    + apply Ho.
    + unfold narrow. cbn. rewrite length_insert. apply Ho.
  - rewrite (map_set_at t v0 m j Hd Hm). unfold lists in *. apply Forall2_same_length_lookup.
    split; [rewrite length_insert; by eapply Forall2_length|]. intros n x y Hx Hy. apply list_lookup_insert_Some in Hy as [(<- & <- & Hj)|(Hne & Hy)].
    + assert (x = i) as -> by congruence. exists (with_value v e), k. cbn. by rewrite list_lookup_insert_eq.
    + assert (x <> i). { intros ->. apply Hne. pose proof (ok_nodup _ _ _ Ho) as Hnd. apply NoDup_app in Hnd as [Hnd _]. by eapply NoDup_lookup. }
      pose proof (Forall2_lookup_lr _ _ _ _ _ _ Hl Hx Hy) as He. eapply entry_is_ext; [done| |exact He]. intros e' He'. exists e'. cbn.
      by rewrite list_lookup_insert_ne.
Qed.

(** ** The allocator *)

Definition with_answers (l : list bool) (h : GcHeap) : GcHeap :=
  mkHeap (cells h) (objects h) (bytes h) (threshold h) (live_mark h) (next_address h) l.

(** The same heap with fewer answers left. *)
Definition later (h h' : GcHeap) : Prop := exists l, h' = with_answers l h /\ (false ∈ l -> false ∈ answers h).

Lemma later_refl h : later h h.
Proof. exists (answers h). by destruct h. Qed.

Lemma later_trans h1 h2 h3 : later h1 h2 -> later h2 h3 -> later h1 h3.
Proof. intros (l & -> & H1) (l' & -> & H2). exists l'. split; [done|]. cbn in H2. tauto. Qed.

Lemma alloc_run h : exists ok h', alloc h = Some (ok, h') /\ later h h' /\ (ok = false -> false ∈ answers h).
Proof.
  unfold alloc. destruct (answers h) as [|a l] eqn:E; [exists true, h|exists a, (with_answers l h)]; (split; [done|]).
  - by split; [apply later_refl|].
  - split; [exists l; split; [done|]; rewrite E; by apply list_elem_of_further|]. intros ->. apply list_elem_of_here.
Qed.

Lemma later_text h h' k t : later h h' -> text h k t -> text h' k t.
Proof. by intros (l & -> & _). Qed.

(** ** Growing *)

(** An entry without its bucket. *)
Definition strip (e : GcObjectEntry) : GcObjectEntry := with_next_bucket None e.

(** The entries of [os] and [fs] are the same but for their buckets, the others are
    not occupied. *)
Record similar (o o' : GcObject) : Prop := mkSimilar {
  sim_count : entry_count o' = entry_count o; sim_head : head o' = head o; sim_tail : tail o' = tail o;
  sim_free : free_head o' = free_head o; sim_size : object_size o' = object_size o;
  sim_length : (length (entries o) <= length (entries o'))%nat; sim_narrow : narrow o';
  sim_entries : forall i, (i < entry_count o)%nat -> strip <$> entries o' !! i = strip <$> entries o !! i;
  sim_others : forall i e, (entry_count o <= i)%nat -> entries o' !! i = Some e -> occupied e = false }.

Lemma similar_link o o' f i : similar o o' -> (forall e, f (strip e) = f e) -> (i < entry_count o)%nat -> link f o' i = link f o i.
Proof.
  intros Hs Hf Hi. pose proof (sim_entries _ _ Hs i Hi) as E. unfold link.
  destruct (entries o' !! i) as [e'|], (entries o !! i) as [e|]; try done. cbn in E.
  change (f e' = f e). rewrite <-(Hf e'), <-(Hf e). congruence.
Qed.

Lemma similar_ok o o' os fs : table_ok o os fs -> similar o o' -> buckets_ok o' os -> (buckets o' = [] -> os = []) -> table_ok o' os fs.
Proof.
  intros Ho Hs Hb Hn. apply (table_ok_frame o); try done; try apply Hs.
  - pose proof (ok_count _ _ _ Ho). pose proof (sim_length _ _ Hs). lia.
  - intros i Hi%(ok_all _ _ _ Ho). by rewrite !(similar_link o o') by done.
  - intros i e' He'. destruct (decide (i < entry_count o)%nat) as [Hi|Hi].
    + pose proof (sim_entries _ _ Hs i Hi) as E. rewrite He' in E. destruct (entries o !! i) as [e|] eqn:He; [|done]. cbn in E.
      rewrite <-(ok_occupied _ _ _ Ho i e He). assert (occupied e' = occupied e) as -> by (injection E; congruence). done.
    + rewrite (sim_others _ _ Hs i e') by (done || lia). split; [done|]. intros Hi'. exfalso. apply Hi, (ok_all _ _ _ Ho), elem_of_app. by left.
Qed.

Lemma similar_lists h o o' os fs m : table_ok o os fs -> similar o o' -> lists h o os m -> lists h o' os m.
Proof.
  intros Ho Hs. apply lists_ext; [done|]. intros i e Hi He.
  assert (i < entry_count o)%nat as Hlt by (apply (ok_all _ _ _ Ho), elem_of_app; by left).
  pose proof (sim_entries _ _ Hs i Hlt) as E. rewrite He in E. destruct (entries o' !! i) as [e'|] eqn:He'; [|done].
  exists e'. split; [done|]. assert (strip e' = strip e) as Es by (by apply (inj Some)). destruct e, e'.
  unfold strip, with_next_bucket in Es. cbn in *. split_and!; congruence.
Qed.

Lemma buckets_similar o o' os fs : table_ok o os fs -> buckets o' = buckets o ->
  (forall i, (i < entry_count o)%nat -> entries o' !! i = entries o !! i) -> buckets_ok o' os.
Proof.
  intros Ho Hb He b start Hs. rewrite Hb in Hs. destruct (ok_buckets _ _ _ Ho b start Hs) as (cs & H1 & H2 & H3).
  assert (forall i, i ∈ os -> (i < entry_count o)%nat) as Hlt by (intros i Hi; apply (ok_all _ _ _ Ho), elem_of_app; by left).
  exists cs. split; [done|]. split.
  - eapply chain_ext; [|done]. intros i [Hi _]%H3. unfold link. by rewrite He by auto.
  - intros i. rewrite H3. unfold bucket_of. rewrite Hb. split; intros [Hi Hbi]; (split; [done|]); [by rewrite He by auto|by rewrite <-He by auto].
Qed.

Lemma grow_run h o os fs m new_capacity : table_ok o os fs -> lists h o os m ->
  (length (entries o) <= new_capacity)%nat -> (0 < new_capacity)%nat -> Z.of_nat new_capacity <= 2 ^ 31 ->
  exists ok o' h', grow_entries o new_capacity h = Some ((ok, o'), h') /\ later h h' /\ (ok = false -> false ∈ answers h) /\
    table_ok o' os fs /\ lists h o' os m /\ (ok = true -> length (entries o') = new_capacity) /\ buckets o' = buckets o.
Proof.
  intros Ho Hl Hc H0 Hn. unfold grow_entries. destruct (Nat.eqb_spec new_capacity 0) as [|_]; [lia|].
  unfold mbind, M_bind. rewrite alloc_array_small by (unfold sizeof_GcObjectEntry; lia).
  destruct (alloc_run h) as (ok & h' & -> & Hlat & Hans). pose proof (ok_count _ _ _ Ho) as Hcnt.
  destruct ok; unfold mret, M_ret; (eexists _, _, _; split; [reflexivity|]; split; [done|]; split; [done|]); [|by split_and!].
  set (o' := with_entries _ o).
  assert (forall i, (i < entry_count o)%nat -> entries o' !! i = entries o !! i) as He.
  { intros i Hi. subst o'. cbn. rewrite lookup_app_l by (rewrite length_take; lia). by apply lookup_take_lt. }
  assert (length (entries o') = new_capacity) as Hlen by (subst o'; cbn; rewrite length_app, length_take, length_replicate; lia).
  assert (similar o o') as Hs.
  { constructor; try done; [lia|unfold narrow; lia|by intros i Hi; rewrite He|]. intros i e Hi Hi'. subst o'. cbn in Hi'.
    rewrite lookup_app_r in Hi' by (rewrite length_take; lia). apply lookup_replicate_1 in Hi' as [-> _]. done. }
  split; [apply (similar_ok o); try done; [by eapply buckets_similar|apply Ho]|].
  split; [by eapply similar_lists|]. by split.
Qed.

(** *** Rehashing *)

(** The buckets for the entries below [i]. *)
Definition rehashed (o : GcObject) (os : list nat) (i : nat) (new_buckets : list (option nat)) : Prop :=
  forall b start, new_buckets !! b = Some start ->
    exists cs, NoDup cs /\ chain (link next_bucket o) start cs /\
      forall j, j ∈ cs <-> j ∈ os /\ (j < i)%nat /\ (fun e => bucket_index (entry_hash e) (length new_buckets)) <$> entries o !! j = Some b.

Lemma similar_update o o' i x : similar o o' -> (i < entry_count o)%nat -> forall e, entries o' !! i = Some e ->
  similar o (with_entries (<[i := with_next_bucket x e]> (entries o')) o').
Proof.
  intros Hs Hi e He. destruct Hs. constructor; cbn; try done.
  - by rewrite length_insert.
  - unfold narrow. cbn. by rewrite length_insert.
  - intros j Hj. destruct (decide (j = i)) as [->|Hne]; [|rewrite list_lookup_insert_ne by done; auto].
    rewrite list_lookup_insert_eq by by eapply entry_lt. rewrite <-sim_entries0, He by done. done.
  - intros j e' Hj Hj'. rewrite list_lookup_insert_ne in Hj' by lia. eauto.
Qed.

(** One turn: the entry [e] at [i] gets the link [x]. *)
Section Turn.
Context (o' : GcObject) (os : list nat) (i : nat) (e : GcObjectEntry) (nbs : list (option nat)).
Context (He : entries o' !! i = Some e) (Hr : rehashed o' os i nbs).

#[local] Abbreviation turned x := (with_entries (<[i := with_next_bucket x e]> (entries o')) o').

Lemma turn_chain x start cs : chain (link next_bucket o') start cs -> i ∉ cs -> chain (link next_bucket (turned x)) start cs.
Proof.
  intros Hc Hni. eapply chain_ext; [|done]. intros j Hj. rewrite link_insert by by eapply entry_lt. case_decide; [by subst|done].
Qed.

(** The bucket of an entry, given the number of buckets. *)
Lemma turn_bucket x n j : (fun e => bucket_index (entry_hash e) n) <$> entries (turned x) !! j =
  (fun e => bucket_index (entry_hash e) n) <$> entries o' !! j.
Proof.
  cbn. destruct (decide (j = i)) as [->|Hne]; [|by rewrite list_lookup_insert_ne by done].
  rewrite list_lookup_insert_eq by (by eapply entry_lt). by rewrite He.
Qed.

Lemma turn_free : i ∉ os -> rehashed (turned None) os (S i) nbs.
Proof.
  intros Hi b' start' Hb'. destruct (Hr b' start' Hb') as (cs & H1 & H2 & H3). exists cs.
  assert (i ∉ cs) as Hni by (intros (? & _ & _)%H3; done).
  split; [done|]. split; [by apply turn_chain|]. intros j. rewrite H3, turn_bucket. split.
  - intros (? & ? & ?). by split_and!; [|lia|].
  - intros (Hj & Hlt & Hbj). split; [done|]. split; [|done]. assert (j <> i) by (by intros ->). lia.
Qed.

Lemma turn_occupied start : i ∈ os -> let b := bucket_index (entry_hash e) (length nbs) in nbs !! b = Some start ->
  rehashed (turned start) os (S i) (<[b := Some i]> nbs).
Proof.
  intros Hi b Hstart b' start' Hb'. rewrite length_insert. apply list_lookup_insert_Some in Hb' as [(<- & <- & _)|(Hne & Hb')].
  - destruct (Hr b start Hstart) as (cs & H1 & H2 & H3). exists (i :: cs). assert (i ∉ cs) as Hni by (intros (_ & ? & _)%H3; lia).
    split; [by constructor|]. split.
    + split; [done|]. rewrite link_insert by (by eapply entry_lt). rewrite decide_True by done. by apply turn_chain.
    + intros j. rewrite elem_of_cons, H3, turn_bucket. split.
      * intros [->|(? & ? & ?)]; [|by split_and!; [|lia|]]. split; [done|]. split; [lia|]. by rewrite He.
      * intros (Hj & Hlt & Hbj). destruct (decide (j = i)) as [->|]; [by left|]. right. split_and!; [done|lia|done].
  - destruct (Hr b' start' Hb') as (cs & H1 & H2 & H3). exists cs. assert (i ∉ cs) as Hni by (intros (_ & ? & _)%H3; lia).
    split; [done|]. split; [by apply turn_chain|]. intros j. rewrite H3, turn_bucket. split.
    + intros (? & ? & ?). by split_and!; [|lia|].
    + intros (Hj & Hlt & Hbj). split; [done|]. destruct (decide (j = i)) as [->|]; [|by split; [lia|]].
      exfalso. rewrite He in Hbj. cbn in Hbj. injection Hbj as Hbj. by subst b b'.
Qed.

End Turn.

Lemma rehash_run h o os fs m n i new_buckets o' : table_ok o os fs -> lists h o os m -> similar o o' ->
  (i + n = entry_count o)%nat -> rehashed o' os i new_buckets -> (0 < length new_buckets)%nat ->
  exists o'', rehash_loop n i new_buckets o' h = Some (o'', h) /\ similar o o'' /\ buckets_ok o'' os /\ length (buckets o'') = length new_buckets.
Proof.
  intros Ho Hl. revert i new_buckets o'. induction n as [|n IH]; intros i nbs o' Hs Hn Hr H0.
  - cbn [rehash_loop]. unfold mret, M_ret. eexists. split; [done|]. split; [by destruct Hs|]. split; [|done].
    intros b start Hb. cbn in Hb. destruct (Hr b start Hb) as (cs & H1 & H2 & H3). exists cs. split; [done|]. split; [done|].
    intros j. rewrite H3. unfold bucket_of. cbn. split; [by intros (? & ? & ?)|]. intros [Hj Hbj]. split; [done|]. split; [|done].
    rewrite Nat.add_0_r in Hn. rewrite Hn. apply (ok_all _ _ _ Ho), elem_of_app. by left.
  - cbn [rehash_loop]. pose proof (sim_length _ _ Hs) as Hlen. pose proof (ok_count _ _ _ Ho) as Hcnt.
    destruct (lookup_lt_is_Some_2 (entries o') i ltac:(lia)) as [e He].
    destruct (lookup_lt_is_Some_2 (entries o) i ltac:(lia)) as [e0 He0].
    assert (strip e = strip e0) as Estrip. { pose proof (sim_entries _ _ Hs i ltac:(lia)) as E. rewrite He, He0 in E. by apply (inj Some). }
    assert (occupied e = occupied e0 /\ entry_hash e = entry_hash e0) as [Eocc Ehash]
      by (destruct e, e0; unfold strip, with_next_bucket in Estrip; cbn in *; split; congruence).
    unfold mbind, M_bind, entry_at, some_or_fault, update. rewrite He. destruct (occupied e) eqn:Eo.
    + rewrite index32_small by (pose proof (ok_narrow _ _ _ Ho); unfold narrow in *; lia).
      assert (i ∈ os) as Hi by (apply (ok_occupied _ _ _ Ho i e0 He0); congruence).
      destruct (lists_at _ _ _ _ _ Hl Hi) as (jx & t & v & _ & _ & (e1 & k & He1 & _ & _ & Hh & _)).
      assert (entry_hash e = hash_code_units t) as Hhe by (rewrite <-Hh; assert (e1 = e0) as -> by congruence; done).
      set (b := bucket_index (entry_hash e) (length nbs)).
      assert (b < length nbs)%nat as Hb by (subst b; rewrite Hhe; by apply bucket_index_lt).
      destruct (lookup_lt_is_Some_2 nbs b Hb) as [start Hstart]. rewrite Hstart. unfold mret, M_ret.
      destruct (IH (S i) (<[b := Some i]> nbs) (with_entries (<[i := with_next_bucket start e]> (entries o')) o')) as (o'' & E & Hs'' & Hb'' & Hl'');
        [apply similar_update; [done|lia|done]|lia|by apply turn_occupied|by rewrite length_insert|].
      exists o''. split; [exact E|]. by rewrite length_insert in Hl''.
    + assert (i ∉ os) as Hi by (intros Hi; apply (ok_occupied _ _ _ Ho i e0 He0) in Hi; congruence).
      unfold mret, M_ret.
      destruct (IH (S i) nbs (with_entries (<[i := with_next_bucket None e]> (entries o')) o')) as (o'' & E & Hs'' & Hb'' & Hl'');
        [apply similar_update; [done|lia|done]|lia|by apply turn_free|done|].
      by exists o''.
Qed.

Lemma rehash_buckets_run h o os fs m count : table_ok o os fs -> lists h o os m -> (0 < count)%nat -> Z.of_nat count <= 2 ^ 33 ->
  exists ok o' h', rehash_buckets o count h = Some ((ok, o'), h') /\ later h h' /\ (ok = false -> false ∈ answers h) /\
    table_ok o' os fs /\ lists h o' os m /\ (length (entries o) <= length (entries o'))%nat /\ (ok = true -> length (buckets o') = count).
Proof.
  intros Ho Hl Hc Hn. unfold rehash_buckets. destruct (Nat.eqb_spec count 0) as [|_]; [lia|]. unfold mbind, M_bind.
  rewrite alloc_array_small by (unfold sizeof_int32_t; lia).
  destruct (alloc_run h) as (ok & h' & -> & Hlat & Hans). destruct ok; [|by eexists _, _, _; split_and!].
  assert (lists h' o os m) as Hl' by (eapply lists_ext; [intros k t; by apply later_text| |exact Hl]; eauto).
  destruct (rehash_run h' o os fs m (entry_count o) 0 (replicate count None) o Ho Hl') as (o' & -> & Hs & Hb & Hlen); try done.
  - constructor; try done; [apply Ho|]. intros i e Hi He. apply not_true_is_false. intros Hocc. apply (ok_occupied _ _ _ Ho i e He) in Hocc.
    assert (i < entry_count o)%nat; [|lia]. apply (ok_all _ _ _ Ho), elem_of_app. by left.
  - intros b start [-> _]%lookup_replicate_1. exists []. split; [constructor|]. split; [done|]. intros j. rewrite elem_of_nil. split; [done|]. lia.
  - by rewrite length_replicate.
  - unfold mret, M_ret. rewrite length_replicate in Hlen. eexists _, _, _. split; [done|]. split; [done|]. split; [done|].
    split; [|split; [by eapply similar_lists|split; [|done]]].
    + apply (similar_ok o); try done. intros E. rewrite E in Hlen. cbn in Hlen. lia.
    + pose proof (sim_length _ _ Hs). lia.
Qed.

(** *** Capacities *)

(** The shifts stop below twice the value. *)
Lemma next_pow2_loop_some fuel k value : 0 <= k -> value <= 2 ^ 62 -> (63 - k < Z.of_nat fuel) -> k <= 63 ->
  exists r, next_pow2_loop fuel (2 ^ k) value = Some r /\ 2 ^ k <= r /\ (r = 2 ^ k \/ r < 2 * value).
Proof.
  revert k. induction fuel as [|fuel IH]; intros k Hk Hv Hf Hk'; [lia|]. cbn [next_pow2_loop]. destruct (2 ^ k <? value) eqn:E; [|eexists; split; [done|lia]].
  bool_to_prop. assert (k <> 63) by (intros ->; lia).
  assert (u64 (Z.shiftl (2 ^ k) 1) = 2 ^ (k + 1)) as ->.
  { rewrite Z.shiftl_mul_pow2, <-Z.pow_add_r by lia. apply wrap_small. split; [lia|]. apply Z.pow_lt_mono_r; lia. }
  destruct (IH (k + 1)) as (r & -> & Hr); try lia. exists r. split; [done|]. rewrite Z.pow_add_r in Hr by lia. lia.
Qed.

Lemma bucket_count_some n : (0 < n)%nat -> Z.of_nat n <= 2 ^ 31 ->
  exists c, bucket_count_for_entries n = Some c /\ (0 < c)%nat /\ Z.of_nat c <= 2 ^ 33.
Proof.
  intros Hn Hb. unfold bucket_count_for_entries. destruct (Nat.eqb_spec n 0); [lia|].
  rewrite wrap_small by (unfold in_width, kMaxLoadDenominator, kMaxLoadNumerator; lia).
  set (needed := _ / _). assert (needed <= 2 ^ 32) as H.
  { subst needed. unfold kMaxLoadDenominator, kMaxLoadNumerator. apply Z.div_le_upper_bound; lia. }
  set (v := if needed <? kMinBucketCount then kMinBucketCount else needed).
  assert (v <= 2 ^ 32) as Hv by (subst v; unfold kMinBucketCount; destruct (_ <? _); lia). clearbody v.
  assert (exists r, next_pow2 v = Some r /\ 1 <= r <= 2 ^ 33) as (r & -> & Hr).
  { unfold next_pow2. destruct (Z.leb_spec v 1); [exists 1; split; [done|lia]|].
    destruct (next_pow2_loop_some 65 0 v) as (r & E & H1 & H2); [lia..|]. exists r. split; [exact E|]. lia. }
  exists (Z.to_nat r). split; [done|]. lia.
Qed.

Lemma reserve_run h o os fs m expected : table_ok o os fs -> lists h o os m -> (0 < expected)%nat -> (length os < expected)%nat ->
  Z.of_nat expected <= 2 ^ 30 ->
  exists ok o' h', gc_object_reserve o expected h = Some ((ok, o'), h') /\ later h h' /\ (ok = false -> false ∈ answers h) /\
    table_ok o' os fs /\ lists h o' os m /\ (ok = true -> (expected <= length (entries o'))%nat /\ (0 < length (buckets o'))%nat).
Proof.
  intros Ho Hl He Hos Hb. unfold gc_object_reserve.
  set (capacity := length (entries o)). set (new_capacity := if (capacity =? 0)%nat then 1%nat else capacity).
  assert (0 < new_capacity /\ capacity <= new_capacity)%nat as [Hn Hcn] by (subst new_capacity; destruct (Nat.eqb_spec capacity 0); lia).
  assert (exists ok o1 h1, (if (new_capacity <? expected)%nat then c ← grown_capacity (Z.of_nat new_capacity) expected; grow_entries o c
           else if (capacity =? 0)%nat && (0 <? expected)%nat then grow_entries o expected else mret (true, o)) h = Some ((ok, o1), h1) /\
    later h h1 /\ (ok = false -> false ∈ answers h) /\ table_ok o1 os fs /\ lists h o1 os m /\
    (ok = true -> (expected <= length (entries o1))%nat)) as (ok & o1 & h1 & Eg & Hlat & Hans & Ho1 & Hl1 & Hlen).
  { destruct (Nat.ltb_spec new_capacity expected) as [Hlt|Hge].
    - destruct (grown_capacity_run (Z.of_nat new_capacity) expected h) as (c & Ec & D1 & D2 & D3); [lia|lia|].
      rewrite (m_bind_run _ _ _ _ _ Ec).
      destruct (grow_run h o os fs m c) as (ok & o1 & h1 & H1 & H2 & H3 & H4 & H5 & H6 & H7);
        [done|done|lia|lia|lia|]. exists ok, o1, h1. split_and!; try done. intros Hok. rewrite H6 by done. lia.
    - destruct (Nat.eqb_spec capacity 0) as [E0|E0]; cbn [andb].
      + rewrite (proj2 (Nat.ltb_lt 0 expected)) by lia.
        destruct (grow_run h o os fs m expected) as (ok & o1 & h1 & H1 & H2 & H3 & H4 & H5 & H6 & H7); [done|done|lia|lia|lia|].
        exists ok, o1, h1. split_and!; try done. intros Hok. rewrite H6 by done. lia.
      + exists true, o, h. split; [done|]. split; [apply later_refl|]. split; [done|]. split; [done|]. split; [done|]. intros _. subst new_capacity. destruct (Nat.eqb_spec capacity 0); lia. }
  rewrite (m_bind_run _ _ _ _ _ Eg). destruct ok; [|unfold mret, M_ret; by eexists _, _, _; split_and!].
  destruct (bucket_count_some (expected `max` object_size o1)) as (c & Ec & Hc & Hc33); [lia|rewrite (ok_size _ _ _ Ho1); lia|].
  unfold mbind, M_bind, some_or_fault. rewrite Ec.
  assert (lists h1 o1 os m) as Hl1' by (eapply lists_ext; [intros k t; by apply later_text| |exact Hl1]; eauto).
  assert (forall h2, later h1 h2 -> forall o2, lists h1 o2 os m -> lists h o2 os m) as Hback.
  { intros h2 _ o2. apply lists_ext; [|eauto]. intros k t. destruct Hlat as (l & -> & _). done. }
  assert (exists ok o2 h2, rehash_buckets o1 c h1 = Some ((ok, o2), h2) /\ later h h2 /\ (ok = false -> false ∈ answers h) /\
    table_ok o2 os fs /\ lists h o2 os m /\ (ok = true -> (expected <= length (entries o2))%nat /\ (0 < length (buckets o2))%nat)) as Hre.
  { destruct (rehash_buckets_run h1 o1 os fs m c Ho1 Hl1' Hc Hc33) as (ok & o2 & h2 & H1 & H2 & H3 & H4 & H5 & H6 & H7).
    exists ok, o2, h2. split; [done|]. split; [by eapply later_trans|]. split.
    { intros Hok. specialize (H3 Hok). destruct Hlat as (l & -> & Hl'). by apply Hl'. }
    split; [done|]. split; [by apply (Hback h2)|]. intros Hok. rewrite H7 by done. specialize (Hlen eq_refl). lia. }
  destruct (Nat.ltb_spec (length (buckets o1)) c) as [Hlt|Hge]; [exact Hre|].
  destruct (Nat.eqb_spec (length (buckets o1)) 0) as [E0|E0]; cbn [andb].
  { rewrite (proj2 (Nat.ltb_lt 0 c)) by done. exact Hre. }
  unfold mret, M_ret. exists true, o1, h1. split; [done|]. split; [done|]. split; [done|]. split; [done|]. split; [done|].
  intros _. split; [auto|lia].
Qed.

(** ** Adding *)

(** [idx] has been taken from the free entries and is not linked yet. *)
Record table_open (o : GcObject) (os fs : list nat) (idx : nat) : Prop := mkOpen {
  open_count : (entry_count o <= length (entries o))%nat;
  open_nodup : NoDup (idx :: os ++ fs);
  open_all : forall i, i ∈ idx :: os ++ fs <-> (i < entry_count o)%nat;
  open_next : chain (link next_order o) (head o) os;
  open_prev : chain (link prev_order o) (tail o) (reverse os);
  open_free : chain (link next_free o) (free_head o) fs;
  open_occupied : forall i e, entries o !! i = Some e -> (occupied e = true <-> i ∈ os);
  open_size : object_size o = length os;
  open_buckets : buckets_ok o os;
  open_narrow : narrow o }.

Lemma allocate_run h o os fs m : table_ok o os fs -> lists h o os m -> (length os < length (entries o))%nat ->
  exists idx o' fs', allocate_entry o h = Some ((Some idx, o'), h) /\ table_open o' os fs' idx /\ lists h o' os m /\ buckets o' = buckets o.
Proof.
  intros Ho Hl Hlen. unfold allocate_entry. destruct (free_head o) as [idx|] eqn:Ef.
  - pose proof (ok_free _ _ _ Ho) as Hf. rewrite Ef in Hf. destruct fs as [|i fs]; [done|]. destruct Hf as [[= <-] Hf].
    assert (idx < entry_count o)%nat as Hi by (apply (ok_all _ _ _ Ho), elem_of_app; right; apply list_elem_of_here).
    pose proof (ok_count _ _ _ Ho) as Hc. destruct (lookup_lt_is_Some_2 (entries o) idx ltac:(lia)) as [e He].
    unfold mbind, M_bind, entry_at, some_or_fault, update. cbn [with_free_head entries]. rewrite He. unfold mret, M_ret.
    assert (NoDup (os ++ idx :: fs)) as Hnd by apply Ho.
    assert (idx ∉ os ++ fs) as Hni.
    { rewrite <-Permutation_middle in Hnd. by apply NoDup_cons in Hnd as [? _]. }
    eexists _, _, fs. split; [done|].
    assert (forall f x, (forall e, f (with_next_free None e) = f e) ->
      link f (with_entries (<[idx := with_next_free None e]> (entries o)) (with_free_head (next_free e) o)) x = link f o x) as Hlink.
    { intros f x Hfx. unfold link. cbn. destruct (decide (x = idx)) as [->|Hne]; [|by rewrite list_lookup_insert_ne].
      rewrite list_lookup_insert_eq by (by eapply entry_lt). rewrite He. apply Hfx. }
    split; [|split; [|done]].
    + constructor.
      * cbn. by rewrite length_insert.
      * by rewrite Permutation_middle.
      * intros x. rewrite Permutation_middle. apply Ho.
      * eapply chain_ext; [|apply Ho]. intros x _. by apply Hlink.
      * eapply chain_ext; [|apply Ho]. intros x _. by apply Hlink.
      * cbn [free_head with_entries with_free_head]. rewrite (link_at _ _ _ _ He) in Hf. eapply chain_ext; [|exact Hf].
        intros x Hx. unfold link. cbn. rewrite list_lookup_insert_ne; [done|]. intros ->. apply Hni, elem_of_app. by right.
      * intros x e' Hx. cbn in Hx. apply list_lookup_insert_Some in Hx as [(<- & <- & _)|(_ & Hx)]; [|by apply Ho].
        cbn. by apply (ok_occupied _ _ _ Ho idx).
      * apply Ho.
      * intros b start Hb. cbn in Hb. destruct (ok_buckets _ _ _ Ho b start Hb) as (cs & H1 & H2 & H3). exists cs.
        split; [done|]. split; [eapply chain_ext; [|done]; intros x _; by apply Hlink|]. intros x. rewrite H3. unfold bucket_of. cbn.
        destruct (decide (x = idx)) as [->|Hne]; [|by rewrite list_lookup_insert_ne].
        rewrite list_lookup_insert_eq by (by eapply entry_lt). by rewrite He.
      * unfold narrow. cbn. rewrite length_insert. apply Ho.
    + eapply lists_ext; [done| |exact Hl]. intros x e' Hx He'. exists e'. cbn. rewrite list_lookup_insert_ne; [done|].
      intros ->. apply Hni, elem_of_app. by left.
  - pose proof (ok_free _ _ _ Ho) as Hf. rewrite Ef in Hf. destruct fs as [|i fs]; [|by destruct Hf]. clear Hf.
    assert (entry_count o = length os) as Hcnt.
    { pose proof (ok_nodup _ _ _ Ho) as Hnd. rewrite app_nil_r in Hnd. rewrite <-(length_seq (entry_count o) 0). symmetry.
      apply Permutation_length, NoDup_Permutation; [done|apply NoDup_seq|]. intros x. pose proof (ok_all _ _ _ Ho x) as Hx.
      rewrite app_nil_r in Hx. rewrite Hx, elem_of_seq. lia. }
    destruct (Nat.leb_spec (length (entries o)) (entry_count o)); [lia|]. unfold mret, M_ret.
    rewrite index32_small by (pose proof (ok_narrow _ _ _ Ho); unfold narrow in *; lia).
    assert (entry_count o ∉ os) as Hni.
    { intros Hi. assert (entry_count o < entry_count o)%nat; [|lia]. apply (ok_all _ _ _ Ho), elem_of_app. by left. }
    eexists _, _, []. split; [done|]. split; [|done]. constructor; cbn [with_entry_count entry_count entries]; try apply Ho.
    + lia.
    + constructor; [by rewrite app_nil_r|apply Ho].
    + intros x. rewrite elem_of_cons, (ok_all _ _ _ Ho x). lia.
    + exact (ok_buckets _ _ _ Ho).
Qed.

(** What [update_at] makes of the entries. *)
Definition touch (i : option nat) (f : GcObjectEntry -> GcObjectEntry) (es : list GcObjectEntry) : list GcObjectEntry :=
  match i with Some p => alter f p es | None => es end.

Lemma touch_lookup i f es x : touch i f es !! x = (if decide (i = Some x) then f else fun e => e) <$> es !! x.
Proof.
  destruct i as [p|]; cbn [touch]; [|rewrite decide_False by done; by destruct (es !! x)].
  destruct (decide (p = x)) as [->|Hne].
  - rewrite decide_True by done. apply list_lookup_alter_eq.
  - rewrite decide_False by congruence. rewrite list_lookup_alter_ne by done. by destruct (es !! x).
Qed.

Lemma touch_length i f es : length (touch i f es) = length es.
Proof. destruct i; [apply length_alter|done]. Qed.

Lemma update_run i f o h : (i < length (entries o))%nat -> update i f o h = Some (with_entries (alter f i (entries o)) o, h).
Proof.
  intros Hi. destruct (lookup_lt_is_Some_2 (entries o) i Hi) as [e He]. unfold update. rewrite He. unfold mret, M_ret.
  do 3 f_equal. apply list_eq. intros x. destruct (decide (x = i)) as [->|Hne].
  - rewrite list_lookup_insert_eq by done. by rewrite list_lookup_alter_eq, He.
  - by rewrite list_lookup_insert_ne, list_lookup_alter_ne by done.
Qed.

Lemma update_at_run i f o h : (forall p, i = Some p -> (p < length (entries o))%nat) ->
  update_at i f o h = Some (with_entries (touch i f (entries o)) o, h).
Proof. intros Hi. destruct i as [p|]; [by apply update_run, Hi|]. unfold update_at, mret, M_ret. by destruct o. Qed.

Lemma put_bucket_run b i o h : (b < length (buckets o))%nat -> put_bucket b i o h = Some (with_buckets (<[b := i]> (buckets o)) o, h).
Proof. intros Hb. unfold put_bucket. by rewrite (proj2 (Nat.ltb_lt _ _) Hb). Qed.

(** The entry that [link_entry] makes, and the object with it. *)
Definition new_entry (k : nat) (v : JsValue) (hash : Z) (o : GcObject) (start : option nat) : GcObjectEntry :=
  mkEntry (Some k) v hash start (tail o) None None true.

Definition linked (idx : nat) (e : GcObjectEntry) (b : nat) (o : GcObject) : GcObject :=
  mkObject (object_size o + 1) (u64 (object_version o + 1)) (entry_count o)
    (match tail o with Some _ => head o | None => Some idx end) (Some idx) (free_head o) (<[b := Some idx]> (buckets o))
    (touch (tail o) (with_next_order (Some idx)) (<[idx := e]> (entries o))).

Lemma link_entry_run idx k v t o start h : (0 < length (buckets o))%nat -> (idx < length (entries o))%nat ->
  (forall p, tail o = Some p -> (p < length (entries o))%nat) ->
  buckets o !! bucket_index (hash_code_units t) (length (buckets o)) = Some start ->
  link_entry idx k v (hash_code_units t) o h =
    Some (linked idx (new_entry k v (hash_code_units t) o start) (bucket_index (hash_code_units t) (length (buckets o))) o, h).
Proof.
  intros Hb Hi Ht Hs. unfold link_entry. rewrite (m_bind_run _ _ h start h) by (unfold some_or_fault; by rewrite Hs).
  rewrite (m_bind_run _ _ _ _ _ (update_run _ _ _ _ Hi)).
  erewrite m_bind_run; [|apply put_bucket_run; by apply bucket_index_lt].
  erewrite m_bind_run; [|apply update_at_run; intros p Hp; cbn; rewrite length_alter; by apply Ht].
  unfold linked. rewrite (list_insert_alter (entries o)). reflexivity.
Qed.

(** A link that the changes do not touch. *)
Lemma linked_link f idx e b o x : x <> idx -> (forall e, f (with_next_order (Some idx) e) = f e) -> link f (linked idx e b o) x = link f o x.
Proof.
  intros Hx Hf. unfold link, linked. cbn [entries]. rewrite touch_lookup, list_lookup_insert_ne by done.
  destruct (entries o !! x); [|done]. cbn. case_decide; [apply Hf|done].
Qed.

Lemma linked_at idx e b o : (idx < length (entries o))%nat -> tail o <> Some idx -> entries (linked idx e b o) !! idx = Some e.
Proof.
  intros Hi Ht. unfold linked. cbn [entries]. rewrite touch_lookup, decide_False by done. by rewrite list_lookup_insert_eq.
Qed.

Lemma linked_buckets o os k v t idx start : buckets_ok o os -> (0 < length (buckets o))%nat -> (idx < length (entries o))%nat ->
  tail o <> Some idx -> idx ∉ os ->
  let hash := hash_code_units t in let b := bucket_index hash (length (buckets o)) in
  buckets o !! b = Some start -> buckets_ok (linked idx (new_entry k v hash o start) b o) (os ++ [idx]).
Proof.
  intros Hok Hb0 Hi Ht Hno hash b Hs b' start' Hb'. set (o' := linked idx _ b o) in *.
  assert (b < length (buckets o))%nat as Hb by by apply bucket_index_lt.
  assert (length (buckets o') = length (buckets o)) as El by (subst o'; cbn; apply length_insert).
  assert (forall x, x <> idx -> bucket_of o' x = bucket_of o x) as Hbo.
  { intros x Hx. unfold bucket_of. rewrite El. subst o'. unfold linked. cbn [entries]. rewrite touch_lookup, list_lookup_insert_ne by done.
    destruct (entries o !! x); [|done]. cbn. by case_decide. }
  assert (bucket_of o' idx = Some b) as Hbi by (unfold bucket_of; rewrite El; subst o'; by rewrite linked_at by done).
  assert (forall cs start, chain (link next_bucket o) start cs -> (forall x, x ∈ cs -> x ∈ os) -> chain (link next_bucket o') start cs) as Hch.
  { intros cs st Hc Hsub. eapply chain_ext; [|done]. intros x Hx%Hsub. apply linked_link; [by intros ->|done]. }
  assert (forall (cs : list nat) b', (forall x, x ∈ cs <-> x ∈ os /\ bucket_of o x = Some b') -> forall x, x ∈ cs <-> x ∈ os /\ bucket_of o' x = Some b') as Hin.
  { intros cs b1 H x. rewrite H. split; intros [Hx Hx']; (split; [done|]); [rewrite Hbo|rewrite <-Hbo]; try done; by intros ->. }
  cbn in Hb'. apply list_lookup_insert_Some in Hb' as [(<- & <- & _)|(Hne & Hb')].
  - destruct (Hok _ _ Hs) as (cs & H1 & H2 & H3). exists (idx :: cs). split; [constructor; [|done]; by intros [? _]%H3|]. split.
    + split; [done|]. subst o'. rewrite (link_at _ _ _ _ (linked_at _ _ _ _ Hi Ht)). apply Hch; [done|]. by intros x [? _]%H3.
    + intros x. rewrite elem_of_cons, (Hin cs b H3), elem_of_app, list_elem_of_singleton. split; [intros [->|[??]]; tauto|].
      intros [[?| ->] ?]; tauto.
  - destruct (Hok _ _ Hb') as (cs & H1 & H2 & H3). exists cs. split; [done|]. split; [apply Hch; [done|]; by intros x [? _]%H3|].
    intros x. rewrite (Hin cs b' H3), elem_of_app, list_elem_of_singleton. split; [tauto|]. intros [[?| ->] Hx]; [done|congruence].
Qed.

Lemma link_run h o os fs m idx k t v : table_open o os fs idx -> lists h o os m -> text h k t -> (0 < length (buckets o))%nat ->
  exists o', link_entry idx k v (hash_code_units t) o h = Some (o', h) /\ table_ok o' (os ++ [idx]) fs /\ lists h o' (os ++ [idx]) (m ++ [(t, v)]).
Proof.
  intros Ho Hl Ht Hb0. pose proof (open_nodup _ _ _ _ Ho) as Hnd. apply NoDup_cons in Hnd as [Hni Hnd].
  assert (idx ∉ os /\ idx ∉ fs) as [Hno Hnf] by (split; intros Hx; apply Hni, elem_of_app; tauto).
  assert (forall x, x ∈ idx :: os -> (x < length (entries o))%nat) as Hlt.
  { intros x Hx. pose proof (open_count _ _ _ _ Ho). assert (x < entry_count o)%nat; [|lia]. apply (open_all _ _ _ _ Ho).
    rewrite elem_of_cons, elem_of_app. apply elem_of_cons in Hx. tauto. }
  assert (tail o = last os) as Htl.
  { rewrite (chain_start _ _ _ (open_prev _ _ _ _ Ho)). rewrite <-(reverse_involutive os) at 2. by rewrite last_reverse. }
  assert (forall p, tail o = Some p -> p ∈ os) as Hp by (intros p E; rewrite Htl in E; by apply last_Some_elem_of).
  assert (idx < length (entries o))%nat as Hi by (apply Hlt, list_elem_of_here).
  assert (tail o <> Some idx) as Hti by (by intros E%Hp).
  set (hash := hash_code_units t). set (b := bucket_index hash (length (buckets o))).
  destruct (lookup_lt_is_Some_2 (buckets o) b (bucket_index_lt _ _ Hb0)) as [start Hs].
  exists (linked idx (new_entry k v hash o start) b o).
  split; [apply link_entry_run; try done; intros p E%Hp; apply Hlt; by right|]. set (o' := linked idx _ b o).
  assert (entries o' !! idx = Some (new_entry k v hash o start)) as Hnew by by apply linked_at.
  assert (length (entries o') = length (entries o)) as Hlen by (subst o'; cbn; by rewrite touch_length, length_insert).
  assert (forall f x (l : list nat), (forall e, f (with_next_order (Some idx) e) = f e) -> idx ∉ l -> x ∈ l -> link f o' x = link f o x) as Hlink.
  { intros f x l Hf Hl' Hx. apply linked_link; [|done]. by intros ->. }
  split.
  - constructor.
    + rewrite Hlen. apply Ho.
    + rewrite <-app_assoc. cbn [app]. rewrite <-Permutation_middle. apply Ho.
    + intros x. change (entry_count o') with (entry_count o). rewrite <-(open_all _ _ _ _ Ho x). rewrite <-app_assoc. cbn [app]. by rewrite <-Permutation_middle.
    + subst o'. cbn [head linked]. rewrite Htl. apply (chain_append (link next_order o)); [done| |apply Ho| | |].
      * by apply NoDup_app in Hnd as [? _].
      * by rewrite (link_at _ _ _ _ Hnew).
      * intros x Hx Hxl. unfold link. cbn [entries linked]. rewrite touch_lookup, list_lookup_insert_ne by (by intros ->).
        rewrite decide_False by (rewrite Htl; congruence). by destruct (entries o !! x).
      * intros p E. assert (p ∈ os) as Hpo by by apply last_Some_elem_of.
        unfold link. cbn [entries linked]. rewrite touch_lookup, list_lookup_insert_ne by (by intros ->).
        rewrite decide_True by congruence. destruct (lookup_lt_is_Some_2 (entries o) p (Hlt p ltac:(by right))) as [ep ->]. done.
    + rewrite reverse_snoc. split; [done|]. rewrite (link_at _ _ _ _ Hnew).
      eapply chain_ext; [|apply Ho]. intros x Hx. rewrite elem_of_reverse in Hx. by apply (Hlink _ _ os).
    + eapply chain_ext; [|apply Ho]. intros x Hx. by apply (Hlink _ _ fs).
    + intros x e Hx. rewrite elem_of_app, list_elem_of_singleton. destruct (decide (x = idx)) as [->|Hne].
      * rewrite Hnew in Hx. injection Hx as <-. cbn. tauto.
      * subst o'. cbn [entries linked] in Hx. rewrite touch_lookup, list_lookup_insert_ne in Hx by done.
        destruct (entries o !! x) as [e0|] eqn:E0; [|done]. injection Hx as <-. rewrite <-(open_occupied _ _ _ _ Ho x e0 E0) in *.
        assert (occupied ((if decide (tail o = Some x) then with_next_order (Some idx) else fun e => e) e0) = occupied e0) as -> by by case_decide.
        rewrite (open_occupied _ _ _ _ Ho x e0 E0). tauto.
    + subst o'. cbn [object_size linked]. rewrite length_app, (open_size _ _ _ _ Ho). done.
    + apply linked_buckets; try done. apply Ho.
    + intros E. apply (f_equal length) in E. subst o'. cbn [buckets linked] in E. rewrite length_insert in E. cbn in E. lia.
    + unfold narrow. rewrite Hlen. apply Ho.
  - apply Forall2_app; [|constructor; [|constructor]].
    + eapply lists_ext; [done| |exact Hl]. intros x e Hx He. subst o'. cbn [entries linked].
      rewrite touch_lookup, list_lookup_insert_ne, He by (by intros ->). eexists. split; [done|]. by case_decide.
    + exists (new_entry k v hash o start), k. by split_and!.
Qed.

(** ** Removing *)

Lemma chain_tail nx start l1 i l2 : chain nx start (l1 ++ i :: l2) -> nx i = list.head l2.
Proof. revert start. induction l1 as [|a l1 IH]; intros start [-> Hc]; [by eapply chain_start|by eapply IH]. Qed.

(** The object without the entry [e] at [i], which follows [prev] in the bucket [b]. *)
Definition unlinked (prev : option nat) (i b : nat) (e : GcObjectEntry) (o : GcObject) : GcObject :=
  mkObject (object_size o - 1) (u64 (object_version o + 1)) (entry_count o)
    (match prev_order e with Some _ => head o | None => next_order e end)
    (match next_order e with Some _ => tail o | None => prev_order e end) (Some i)
    (match prev with Some _ => buckets o | None => <[b := next_bucket e]> (buckets o) end)
    (<[i := mkEntry None Undefined 0 None None None (free_head o) false]>
      (touch (next_order e) (with_prev_order (prev_order e)) (touch (prev_order e) (with_next_order (next_order e))
        (touch prev (with_next_bucket (next_bucket e)) (entries o))))).

Lemma unlink_entry_run prev i b e o h : (i < length (entries o))%nat -> (b < length (buckets o))%nat ->
  (forall p, prev = Some p \/ prev_order e = Some p \/ next_order e = Some p -> (p < length (entries o))%nat) ->
  unlink_entry prev i b e o h = Some (unlinked prev i b e o, h).
Proof.
  intros Hi Hb Hp. unfold unlink_entry.
  assert ((match prev with None => put_bucket b (next_bucket e) o | Some p => update p (with_next_bucket (next_bucket e)) o end) h =
    Some (with_entries (touch prev (with_next_bucket (next_bucket e)) (entries o))
      (with_buckets (match prev with Some _ => buckets o | None => <[b := next_bucket e]> (buckets o) end) o), h)) as E.
  { destruct prev as [p|]; [rewrite update_run by (apply Hp; by left)|rewrite put_bucket_run by done]; by destruct o. }
  rewrite (m_bind_run _ _ _ _ _ E). clear E.
  erewrite m_bind_run; [|apply update_at_run; intros p E; cbn; rewrite touch_length; apply Hp; auto].
  erewrite m_bind_run; [|apply update_at_run; intros p E; cbn; rewrite !touch_length; apply Hp; auto].
  erewrite m_bind_run; [|apply update_run; cbn; by rewrite !touch_length].
  unfold unlinked. rewrite (list_insert_alter (touch _ _ _)). reflexivity.
Qed.

Section Unlink.
Context (h : GcHeap) (o : GcObject) (os1 os2 fs cs1 cs2 : list nat) (i b : nat) (start : option nat) (e : GcObjectEntry).
Context (m1 m2 : list (list Z * JsValue)) (t : list Z) (v : JsValue).
Context (Ho : table_ok o (os1 ++ i :: os2) fs) (Hm : lists h o (os1 ++ i :: os2) (m1 ++ (t, v) :: m2)) (He : entries o !! i = Some e).
Context (Hlen1 : length os1 = length m1) (Hs : buckets o !! b = Some start).
Context (Hcs : NoDup (cs1 ++ i :: cs2)) (Hch : chain (link next_bucket o) start (cs1 ++ i :: cs2)).
Context (Hin : forall x, x ∈ cs1 ++ i :: cs2 <-> x ∈ os1 ++ i :: os2 /\ bucket_of o x = Some b).

#[local] Abbreviation o' := (unlinked (last cs1) i b e o).

Lemma unlink_next : next_order e = list.head os2.
Proof. rewrite <-(link_at next_order o i e He). eapply chain_tail, Ho. Qed.

Lemma unlink_prev : prev_order e = last os1.
Proof.
  rewrite <-(link_at prev_order o i e He). pose proof (ok_prev _ _ _ Ho) as H. rewrite reverse_app, reverse_cons, <-app_assoc in H.
  rewrite (chain_tail _ _ _ _ _ H). rewrite <-(reverse_involutive os1) at 2. by rewrite last_reverse.
Qed.

Lemma unlink_order_nodup : i ∉ os1 ++ os2 /\ i ∉ fs /\ NoDup ((os1 ++ os2) ++ i :: fs).
Proof.
  pose proof (ok_nodup _ _ _ Ho) as Hnd. rewrite <-app_assoc in Hnd. cbn [app] in Hnd. rewrite <-Permutation_middle in Hnd.
  assert (NoDup ((os1 ++ os2) ++ i :: fs)) as Hnd' by (rewrite <-Permutation_middle, <-app_assoc; done).
  apply NoDup_cons in Hnd as [Hni _]. rewrite app_assoc in Hni. split_and!; [| |done]; intros Hx; apply Hni, elem_of_app; tauto.
Qed.

Lemma unlink_entries x : x <> i -> entries o' !! x =
  (fun e0 => (if decide (next_order e = Some x) then with_prev_order (prev_order e) else fun e => e)
    ((if decide (prev_order e = Some x) then with_next_order (next_order e) else fun e => e)
      ((if decide (last cs1 = Some x) then with_next_bucket (next_bucket e) else fun e => e) e0))) <$> entries o !! x.
Proof.
  intros Hx. cbn [entries unlinked]. rewrite list_lookup_insert_ne by done. rewrite !touch_lookup. by destruct (entries o !! x).
Qed.

Lemma unlink_length : length (entries o') = length (entries o).
Proof. cbn. by rewrite length_insert, !touch_length. Qed.

Lemma unlink_lt x : x ∈ os1 ++ os2 -> (x < length (entries o))%nat.
Proof.
  intros Hx. pose proof (ok_count _ _ _ Ho). assert (x < entry_count o)%nat; [|lia]. apply (ok_all _ _ _ Ho).
  rewrite !elem_of_app, elem_of_cons. apply elem_of_app in Hx. tauto.
Qed.

(** A field that [unlink_entry] does not change. *)
Lemma unlink_field {A} (f : GcObjectEntry -> A) x : x <> i -> (forall e p, f (with_prev_order p e) = f e) ->
  (forall e p, f (with_next_order p e) = f e) -> (forall e p, f (with_next_bucket p e) = f e) ->
  f <$> entries o' !! x = f <$> entries o !! x.
Proof.
  intros Hx Hf1 Hf2 Hf3. rewrite unlink_entries by done. destruct (entries o !! x) as [e0|]; [|done]. cbn. f_equal.
  repeat case_decide; rewrite ?Hf1, ?Hf2, ?Hf3; done.
Qed.

Lemma unlink_link (f : GcObjectEntry -> option nat) (at_ : option nat) (new : option nat) x : x <> i -> (x < length (entries o))%nat ->
  (forall e0, f ((if decide (next_order e = Some x) then with_prev_order (prev_order e) else fun e => e)
    ((if decide (prev_order e = Some x) then with_next_order (next_order e) else fun e => e)
      ((if decide (last cs1 = Some x) then with_next_bucket (next_bucket e) else fun e => e) e0))) =
    if decide (at_ = Some x) then new else f e0) ->
  link f o' x = if decide (at_ = Some x) then new else link f o x.
Proof.
  intros Hx Hl Hf. unfold link. rewrite unlink_entries by done. destruct (lookup_lt_is_Some_2 (entries o) x Hl) as [e0 ->]. cbn. apply Hf.
Qed.

Lemma unlink_link_next x : x <> i -> (x < length (entries o))%nat ->
  link next_order o' x = if decide (last os1 = Some x) then link next_order o i else link next_order o x.
Proof.
  intros Hx Hl. rewrite (link_at next_order o i e He), <-unlink_prev. apply unlink_link; [done|done|]. intros e0. by repeat case_decide.
Qed.

Lemma unlink_link_prev x : x <> i -> (x < length (entries o))%nat ->
  link prev_order o' x = if decide (list.head os2 = Some x) then link prev_order o i else link prev_order o x.
Proof.
  intros Hx Hl. rewrite (link_at prev_order o i e He), <-unlink_next. apply unlink_link; [done|done|]. intros e0. by repeat case_decide.
Qed.

Lemma unlink_link_bucket x : x <> i -> (x < length (entries o))%nat ->
  link next_bucket o' x = if decide (last cs1 = Some x) then link next_bucket o i else link next_bucket o x.
Proof.
  intros Hx Hl. rewrite (link_at next_bucket o i e He). apply unlink_link; [done|done|]. intros e0. by repeat case_decide.
Qed.

Lemma unlink_bucket_of x : x <> i -> bucket_of o' x = bucket_of o x.
Proof.
  intros Hx. unfold bucket_of. assert (length (buckets o') = length (buckets o)) as -> by (cbn; destruct (last cs1); [done|apply length_insert]).
  pose proof (unlink_field entry_hash x Hx ltac:(done) ltac:(done) ltac:(done)) as E.
  destruct (entries o' !! x), (entries o !! x); try done. cbn in *. f_equal. f_equal. by apply (inj Some).
Qed.

Lemma unlink_buckets : buckets_ok o' (os1 ++ os2).
Proof.
  destruct unlink_order_nodup as (Hno & Hnf & Hnd).
  assert (b < length (buckets o))%nat as Hb by by eapply lookup_lt_Some.
  assert (i ∉ cs1 ++ cs2) as Hic.
  { pose proof Hcs as H. rewrite <-Permutation_middle in H. by apply NoDup_cons in H as [? _]. }
  assert (forall x, x ∈ os1 ++ i :: os2 <-> x = i \/ x ∈ os1 ++ os2) as Hos by (intros x; rewrite !elem_of_app, elem_of_cons; tauto).
  assert (forall x, x ∈ cs1 ++ i :: cs2 <-> x = i \/ x ∈ cs1 ++ cs2) as Hcs' by (intros x; rewrite !elem_of_app, elem_of_cons; tauto).
  assert (forall x, x ∈ os1 ++ os2 -> x <> i) as Hne by (intros x Hx ->; done).
  assert (forall x, x ∈ cs1 ++ cs2 -> x ∈ os1 ++ os2) as Hsub.
  { intros x Hx. assert (x ∈ os1 ++ i :: os2) as Hx' by (apply Hin, Hcs'; by right). apply Hos in Hx' as [->|]; [by exfalso|done]. }
  intros b' start' Hb'. destruct (decide (b' = b)) as [->|Hbb].
  - exists (cs1 ++ cs2). split; [pose proof Hcs as H; rewrite <-Permutation_middle in H; by apply NoDup_cons in H as [_ ?]|]. split.
    + assert (start' = match last cs1 with None => link next_bucket o i | Some _ => start end) as ->.
      { cbn in Hb'. rewrite (link_at _ _ _ _ He). destruct (last cs1); [congruence|]. rewrite list_lookup_insert_eq in Hb' by done. congruence. }
      apply (chain_remove (link next_bucket o)); [done|done| |].
      * intros x Hx Hxl. rewrite unlink_link_bucket, decide_False by (by auto using unlink_lt). done.
      * intros x Hx. rewrite unlink_link_bucket, decide_True; [done|done| |]; [|apply unlink_lt, Hsub, elem_of_app; left; by apply last_Some_elem_of].
        apply Hne, Hsub, elem_of_app. left. by apply last_Some_elem_of.
    + intros x. split.
      * intros Hx. split; [by apply Hsub|]. rewrite unlink_bucket_of by (by apply Hne, Hsub). apply Hin, Hcs'. by right.
      * intros [Hx Hxb]. rewrite unlink_bucket_of in Hxb by by apply Hne.
        assert (x ∈ cs1 ++ i :: cs2) as [->|?]%Hcs' by (apply Hin; split; [apply Hos; by right|done]); [by exfalso|done].
  - assert (buckets o !! b' = Some start') as Hb0 by (cbn in Hb'; destruct (last cs1); [done|by rewrite list_lookup_insert_ne in Hb' by done]).
    destruct (ok_buckets _ _ _ Ho b' start' Hb0) as (cs & H1 & H2 & H3). exists cs. split; [done|].
    assert (forall x, x ∈ cs -> x ∈ os1 ++ os2 /\ last cs1 <> Some x) as Hx.
    { intros x [Hx Hxb]%H3. assert (x ∉ cs1 ++ i :: cs2) as Hnx by (intros [_ Hb2]%Hin; congruence).
      apply Hos in Hx as [->|Hx]; [by exfalso; apply Hnx, Hcs'; left|]. split; [done|]. intros E%last_Some_elem_of. apply Hnx, elem_of_app. by left. }
    split.
    + eapply chain_ext; [|done]. intros x [Hxo Hxl]%Hx. rewrite unlink_link_bucket, decide_False by (by auto using unlink_lt). done.
    + intros x. split.
      * intros Hxc. destruct (Hx x Hxc) as [Hxo _]. split; [done|]. rewrite unlink_bucket_of by by apply Hne. by apply H3 in Hxc as [_ ?].
      * intros [Hxo Hxb]. rewrite unlink_bucket_of in Hxb by by apply Hne. apply H3. split; [apply Hos; by right|done].
Qed.

Lemma unlink_ok : table_ok o' (os1 ++ os2) (i :: fs).
Proof.
  destruct unlink_order_nodup as (Hno & Hnf & Hnd).
  assert (forall x, x ∈ os1 ++ os2 -> x <> i) as Hne by (intros x Hx ->; done).
  assert (NoDup (os1 ++ i :: os2)) as Hnd0 by (pose proof (ok_nodup _ _ _ Ho) as H; by apply NoDup_app in H as [? _]).
  constructor.
  - rewrite unlink_length. apply Ho.
  - done.
  - intros x. change (entry_count o') with (entry_count o). rewrite <-(ok_all _ _ _ Ho x), !elem_of_app, !elem_of_cons. tauto.
  - cbn [head unlinked]. rewrite unlink_prev. rewrite <-(link_at next_order o i e He).
    apply (chain_remove (link next_order o)); [done|apply Ho| |].
    + intros x Hx Hxl. rewrite unlink_link_next, decide_False by (by auto using unlink_lt). done.
    + intros x Hx. assert (x ∈ os1 ++ os2) by (apply elem_of_app; left; by apply last_Some_elem_of).
      rewrite unlink_link_next, decide_True by (by auto using unlink_lt). done.
  - cbn [tail unlinked]. rewrite unlink_next, <-(link_at prev_order o i e He). rewrite reverse_app.
    pose proof (ok_prev _ _ _ Ho) as H. rewrite reverse_app, reverse_cons, <-app_assoc in H. cbn [app] in H.
    rewrite <-(reverse_involutive os2), <-last_reverse, (reverse_involutive os2).
    apply (chain_remove (link prev_order o)); [|done| |].
    + pose proof Hnd0 as H0. rewrite <-(reverse_Permutation (os1 ++ i :: os2)) in H0. by rewrite reverse_app, reverse_cons, <-app_assoc in H0.
    + intros x Hx Hxl. assert (x ∈ os1 ++ os2) by (rewrite elem_of_app in *; rewrite !elem_of_reverse in Hx; tauto).
      rewrite last_reverse in Hxl. rewrite unlink_link_prev, decide_False by (by auto using unlink_lt). done.
    + intros x Hx. rewrite last_reverse in Hx. assert (x ∈ os1 ++ os2) by (apply elem_of_app; right; by apply head_Some_elem_of).
      rewrite unlink_link_prev, decide_True by (by auto using unlink_lt). done.
  - split; [done|]. assert (link next_free o' i = free_head o) as ->.
    { unfold link. cbn [entries unlinked]. rewrite list_lookup_insert_eq; [done|]. rewrite !touch_length. by eapply entry_lt. }
    eapply chain_ext; [|apply Ho]. intros x Hx. assert (x <> i) by (by intros ->).
    rewrite (unlink_link next_free None None) ; [done|done| |intros e0; by repeat case_decide].
    pose proof (ok_count _ _ _ Ho). assert (x < entry_count o)%nat; [|lia]. apply (ok_all _ _ _ Ho), elem_of_app. by right.
  - intros x e' Hx. destruct (decide (x = i)) as [->|Hxi].
    + cbn [entries unlinked] in Hx. rewrite list_lookup_insert_eq in Hx by (rewrite !touch_length; by eapply entry_lt).
      injection Hx as <-. cbn. split; [done|]. by intros ?.
    + pose proof (unlink_field occupied x Hxi ltac:(done) ltac:(done) ltac:(done)) as E. rewrite Hx in E.
      destruct (entries o !! x) as [e0|] eqn:E0; [|done]. cbn in E. injection E as ->.
      rewrite (ok_occupied _ _ _ Ho x e0 E0), !elem_of_app, elem_of_cons. naive_solver.
  - cbn [object_size unlinked]. rewrite (ok_size _ _ _ Ho), !length_app. cbn [length]. lia.
  - exact unlink_buckets.
  - intros E. exfalso. apply (f_equal length) in E. assert (b < length (buckets o))%nat by by eapply lookup_lt_Some.
    cbn in E. destruct (last cs1); rewrite ?length_insert in E; lia.
  - unfold narrow. rewrite unlink_length. apply Ho.
Qed.

Lemma unlink_lists : lists h o' (os1 ++ os2) (m1 ++ m2).
Proof.
  destruct unlink_order_nodup as (Hno & _). apply Forall2_app_inv in Hm as [H1 H2]; [|done]. apply Forall2_cons in H2 as [_ H2].
  eapply lists_ext; [done| |by apply Forall2_app]. intros x e0 Hx He0. assert (x <> i) by (by intros ->).
  pose proof (unlink_entries x ltac:(done)) as E. rewrite He0 in E. eexists. split; [exact E|]. by repeat case_decide.
Qed.

Lemma unlink_run : unlink_entry (last cs1) i b e o h = Some (o', h).
Proof.
  apply unlink_entry_run; [by eapply entry_lt|by eapply lookup_lt_Some|]. intros p Hp. apply unlink_lt.
  rewrite unlink_prev, unlink_next in Hp. destruct Hp as [Hp|[Hp|Hp]].
  - assert (p ∈ cs1 ++ i :: cs2) as Hpc by (apply elem_of_app; left; by apply last_Some_elem_of).
    assert (p <> i) as Hpi.
    { intros ->. pose proof Hcs as Hc. rewrite <-Permutation_middle in Hc. apply NoDup_cons in Hc as [Hc _]. apply Hc, elem_of_app.
      left. by apply last_Some_elem_of. }
    apply Hin in Hpc as [Hpo _]. rewrite elem_of_app, elem_of_cons in Hpo. apply elem_of_app. naive_solver.
  - apply elem_of_app. left. by apply last_Some_elem_of.
  - apply elem_of_app. right. by apply head_Some_elem_of.
Qed.

End Unlink.

(** Walking the bucket: [cs1] have been passed. *)
Lemma remove_loop_run h o os fs m k t b start cs1 cs2 fuel idx : table_ok o os fs -> lists h o os m -> NoDup (m.*1) -> text h k t ->
  buckets o !! b = Some start -> NoDup (cs1 ++ cs2) -> chain (link next_bucket o) start (cs1 ++ cs2) -> chain (link next_bucket o) idx cs2 ->
  (forall x, x ∈ cs1 ++ cs2 <-> x ∈ os /\ bucket_of o x = Some b) -> (length cs2 <= fuel)%nat ->
  (forall x j v, x ∈ cs1 -> os !! j = Some x -> m !! j <> Some (t, v)) ->
  b = bucket_index (hash_code_units t) (length (buckets o)) ->
  exists r o' os' fs', remove_loop o k (hash_code_units t) b fuel (last cs1) idx h = Some ((r, o'), h) /\
    table_ok o' os' fs' /\ lists h o' os' (map_remove t m) /\ (r = true <-> t ∈ m.*1).
Proof.
  intros Ho Hl Hd Ht Hs. revert cs1 fuel idx. induction cs2 as [|i cs2 IH]; intros cs1 fuel idx Hcs Hch Hc2 Hin Hf Hpast Hb.
  - cbn in Hc2. subst idx. exists false, o, os, fs. assert (t ∉ m.*1) as Hn.
    { intros Hx. apply list_elem_of_fmap in Hx as ([t' v] & -> & Hx). cbn [fst] in *. apply list_elem_of_lookup_1 in Hx as [j Hj].
      destruct (Forall2_lookup_r _ _ _ _ _ Hl Hj) as (x & Hx & (e & k1 & E1 & _ & _ & H1 & _)). cbn [fst] in H1.
      apply (Hpast x j v); [|done|done]. rewrite <-(app_nil_r cs1). apply Hin. split; [by eapply list_elem_of_lookup_2|].
      unfold bucket_of. rewrite E1. cbn. by rewrite H1, Hb. }
    split; [by destruct fuel|]. split; [done|]. rewrite map_remove_none by done. done.
  - destruct Hc2 as [-> Hc2]. destruct fuel as [|fuel]; [cbn in Hf; lia|]. cbn [remove_loop].
    assert (i ∈ os) as Hio by (apply Hin, elem_of_app; right; apply list_elem_of_here).
    destruct (lists_at _ _ _ _ _ Hl Hio) as (j & t' & v & Hj & Hm & He). pose proof He as (e & k1 & E1 & _).
    rewrite (m_bind_run _ _ h e h) by (unfold entry_at, some_or_fault; by rewrite E1).
    rewrite (m_bind_run _ _ _ _ _ (entry_matches_run h o i t' v e k t He E1 (proj2 (ok_occupied _ _ _ Ho i e E1) Hio) Ht)).
    case_bool_decide as Htt.
    + subst t'. pose proof (list_elem_of_split_length _ _ _ Hj) as (os1 & os2 & -> & Ej1).
      pose proof (list_elem_of_split_length _ _ _ Hm) as (m1 & m2 & -> & Ej2).
      assert (map_remove t (m1 ++ (t, v) :: m2) = m1 ++ m2) as ->.
      { rewrite (map_remove_at t v _ j Hd Hm). rewrite Ej2, take_app_length, drop_app_ge by lia.
        by replace (S (length m1) - length m1)%nat with 1%nat by lia. }
      rewrite (m_bind_run _ _ h (unlinked (last cs1) i b e o) h) by (eapply unlink_run; [exact Ho|exact E1|rewrite <-Ej1; exact Ej2|exact Hs|exact Hcs|exact Hin]).
      eexists _, _, (os1 ++ os2), (i :: fs). split; [done|]. assert (length os1 = length m1) as El by (rewrite <-Ej1; exact Ej2).
      split; [by eapply (unlink_ok o os1 os2 fs cs1 cs2 i b start e m1)|]. split; [by eapply unlink_lists|].
      split; [|done]. intros _. rewrite fmap_app. apply elem_of_app. right. apply list_elem_of_here.
    + rewrite (link_at next_bucket o i e E1) in Hc2. replace (Some i) with (last (cs1 ++ [i])) by (by rewrite last_snoc).
      apply IH; rewrite <-?app_assoc; try done; [cbn in Hf; lia|].
      intros x j' v' Hx Hx' Hm'. apply elem_of_app in Hx as [Hx|Hx%list_elem_of_singleton]; [by eapply Hpast|]. subst x.
      assert (j' = j) as ->; [|congruence]. pose proof (ok_nodup _ _ _ Ho) as Hnd. apply NoDup_app in Hnd as [Hnd _]. by eapply NoDup_lookup.
Qed.

(** ** The operations on a heap *)

(** What an operation on [obj] may do to the heap. *)
Record changed (obj : nat) (h h' : GcHeap) : Prop := mkChanged {
  ch_texts : forall k t, text h k t -> text h' k t;
  ch_answers : false ∈ answers h' -> false ∈ answers h;
  ch_cells : forall p c, p <> obj -> cells h !! p = Some c -> (forall s, body c <> StringCell s) -> cells h' !! p = Some c }.

Lemma changed_trans obj h1 h2 h3 : changed obj h1 h2 -> changed obj h2 h3 -> changed obj h1 h3.
Proof. intros [] []. constructor; auto. Qed.

Lemma cached_changed obj h h' : cached h h' -> changed obj h h'.
Proof. intros []. constructor; auto; congruence. Qed.

Lemma later_changed obj h h' : later h h' -> changed obj h h'.
Proof. intros (l & -> & H). by constructor. Qed.

Lemma load_object_run h obj c o : cells h !! obj = Some c -> body c = ObjectCell o -> load_object obj h = Some (o, h).
Proof. intros Hc Hb. unfold load_object, load, mbind, M_bind. by rewrite Hc, Hb. Qed.

(** [o'] has been stored in the place of [o]. *)
Lemma store_run h obj c o o' os fs m : cells h !! obj = Some c -> body c = ObjectCell o ->
  table_ok o' os fs -> lists h o' os m -> NoDup (m.*1) ->
  exists h', store obj (ObjectCell o') h = Some (tt, h') /\ changed obj h h' /\ object_is h' obj m.
Proof.
  intros Hc Hb Ho Hl Hd. unfold store. rewrite Hc. eexists. split; [done|].
  assert (forall k t, text h k t -> text (set_cells (<[obj:=mkCell (mark_ c) (ObjectCell o')]> (cells h)) h) k t) as Ht.
  { intros k t (c' & s & H1 & H2 & H3). exists c', s. split; [|done]. cbn. rewrite lookup_insert_ne; [done|]. intros ->. congruence. }
  split; [constructor; [exact Ht|done|]|].
  - intros p c' Hp Hc' _. cbn. by rewrite lookup_insert_ne.
  - eexists _, o', os, fs. cbn. rewrite lookup_insert_eq. split; [done|]. split; [done|]. split; [done|]. split; [|done].
    eapply lists_ext; [exact Ht| |exact Hl]. eauto.
Qed.

Lemma cached_object h h' obj c o : cached h h' -> cells h !! obj = Some c -> body c = ObjectCell o -> cells h' !! obj = Some c.
Proof. intros [_ _ H] Hc Hb. apply H; [done|]. congruence. Qed.

Lemma later_cells h h' p : later h h' -> cells h' !! p = cells h !! p.
Proof. by intros (l & -> & _). Qed.

Lemma map_set_keys t v m : t ∈ m.*1 -> (map_set t v m).*1 = m.*1.
Proof.
  induction m as [|[t' v'] m IH]; cbn [map_set fmap list_fmap fst]; [by intros ?%elem_of_nil|]. intros H.
  case_bool_decide as E; [done|]. cbn [fmap list_fmap fst]. f_equal. apply IH. apply elem_of_cons in H as [->|]; done.
Qed.

Lemma map_set_nodup t v m : NoDup (m.*1) -> NoDup ((map_set t v m).*1).
Proof.
  intros Hd. destruct (decide (t ∈ m.*1)) as [Hi|Hn]; [by rewrite map_set_keys|]. rewrite map_set_new by done.
  rewrite fmap_app. apply NoDup_app. split; [done|]. split; [|apply NoDup_singleton].
  intros x Hx ->%list_elem_of_singleton. done.
Qed.

Lemma map_remove_sub t m x : x ∈ (map_remove t m).*1 -> x ∈ m.*1.
Proof.
  induction m as [|[t' v'] m IH]; cbn [map_remove fmap list_fmap fst]; [done|]. case_bool_decide; cbn [fmap list_fmap fst].
  - intros ?. by apply list_elem_of_further.
  - rewrite !elem_of_cons. intros [?|?%IH]; auto.
Qed.

Lemma map_remove_nodup t m : NoDup (m.*1) -> NoDup ((map_remove t m).*1).
Proof.
  induction m as [|[t' v'] m IH]; cbn [map_remove fmap list_fmap fst]; [done|]. intros [Hn Hd]%NoDup_cons. case_bool_decide; [done|].
  cbn [fmap list_fmap fst]. constructor; [by intros ?%map_remove_sub|by apply IH].
Qed.

Section Operations.
Context (h : GcHeap) (obj k : nat) (m : list (list Z * JsValue)) (t : list Z).
Context (Hobj : object_is h obj m) (Hk : text h k t).

Lemma get_run : exists h', gc_object_get obj k h = Some (map_get t m, h') /\ changed obj h h' /\ object_is h' obj m.
Proof.
  destruct Hobj as (c & o & os & fs & Hc & Hb & Ho & Hl & Hd). destruct (string_hash_run h k t Hk) as (h1 & E1 & Hcc).
  unfold gc_object_get. rewrite (m_bind_run _ _ _ _ _ E1).
  pose proof (cached_object _ _ _ _ _ Hcc Hc Hb) as Hc1. rewrite (m_bind_run _ _ _ _ _ (load_object_run _ _ _ _ Hc1 Hb)).
  assert (lists h1 o os m) as Hl1 by (eapply lists_ext; [apply Hcc| |exact Hl]; eauto).
  destruct (find_entry_run h1 o os fs m k t Ho Hl1 Hd (cached_texts _ _ Hcc _ _ Hk)) as (r & Er & Hr). rewrite (m_bind_run _ _ _ _ _ Er).
  exists h1. split; [|split; [by apply cached_changed|by exists c, o, os, fs]]. destruct r as [i|].
  - destruct Hr as (j & v & Hi & Hm). destruct (Forall2_lookup_lr _ _ _ _ _ _ Hl1 Hi Hm) as (e & k1 & He & _ & _ & _ & Hv).
    rewrite (m_bind_run _ _ h1 e h1) by (unfold entry_at, some_or_fault; by rewrite He). rewrite (map_get_at t v m j Hd Hm).
    cbn [snd] in Hv. by rewrite Hv.
  - by rewrite (proj2 (map_get_None t m) Hr).
Qed.

Lemma set_run v : Z.of_nat (length m) < 2 ^ 30 ->
  exists ok h', gc_object_set obj k v h = Some (ok, h') /\ changed obj h h' /\ (ok = false -> false ∈ answers h) /\
    object_is h' obj (if ok then map_set t v m else m).
Proof.
  intros Hlen. destruct Hobj as (c & o & os & fs & Hc & Hb & Ho & Hl & Hd). destruct (string_hash_run h k t Hk) as (h1 & E1 & Hcc).
  unfold gc_object_set. rewrite (m_bind_run _ _ _ _ _ E1).
  pose proof (cached_object _ _ _ _ _ Hcc Hc Hb) as Hc1. rewrite (m_bind_run _ _ _ _ _ (load_object_run _ _ _ _ Hc1 Hb)).
  assert (lists h1 o os m) as Hl1 by (eapply lists_ext; [apply Hcc| |exact Hl]; eauto).
  pose proof (cached_texts _ _ Hcc _ _ Hk) as Hk1. pose proof (cached_changed obj _ _ Hcc) as Hch.
  destruct (find_entry_run h1 o os fs m k t Ho Hl1 Hd Hk1) as (r & Er & Hr). rewrite (m_bind_run _ _ _ _ _ Er). destruct r as [i|].
  { destruct Hr as (j & v0 & Hi & Hm). destruct (set_value_ok h1 o os fs m i j t v0 v Ho Hl1 Hd Hi Hm) as (o1 & E2 & Ho1 & Hl2).
    rewrite (m_bind_run _ _ _ _ _ E2).
    destruct (store_run h1 obj c o o1 os fs _ Hc1 Hb Ho1 Hl2 (map_set_nodup t v m Hd)) as (h2 & E3 & Hch2 & Hob).
    rewrite (m_bind_run _ _ _ _ _ E3). exists true, h2. split; [done|]. split; [by eapply changed_trans|]. by split. }
  pose proof (Forall2_length _ _ _ Hl) as Hlo.
  destruct (reserve_run h1 o os fs m (object_size o + 1)) as (ok & o1 & h2 & E2 & Hlat & Hans & Ho1 & Hl2 & Hcap);
    [done|done|lia|rewrite (ok_size _ _ _ Ho); lia|rewrite (ok_size _ _ _ Ho); lia|].
  rewrite (m_bind_run _ _ _ _ _ E2). assert (cells h2 !! obj = Some c) as Hc2 by by rewrite (later_cells _ _ _ Hlat).
  pose proof (changed_trans _ _ _ _ Hch (later_changed obj _ _ Hlat)) as Hch2.
  assert (lists h2 o1 os m) as Hl2' by (eapply lists_ext; [intros ? ?; by apply later_text| |exact Hl2]; eauto).
  destruct ok; cbn [negb orb].
  - destruct (Hcap eq_refl) as [Hce Hcb]. rewrite (proj2 (Nat.eqb_neq _ 0)) by lia. rewrite (proj2 (Nat.eqb_neq _ 0)) by lia. cbn [orb].
    rewrite (ok_size _ _ _ Ho) in Hce.
    destruct (allocate_run h2 o1 os fs m Ho1 Hl2' ltac:(lia)) as (idx & o2 & fs' & E3 & Ho2 & Hl3 & Hb2). rewrite (m_bind_run _ _ _ _ _ E3).
    destruct (link_run h2 o2 os fs' m idx k t v Ho2 Hl3 (later_text _ _ _ _ Hlat Hk1) ltac:(rewrite Hb2; lia)) as (o3 & E4 & Ho3 & Hl4).
    rewrite (m_bind_run _ _ _ _ _ E4). rewrite <-(map_set_new t v m Hr) in Hl4.
    destruct (store_run h2 obj c o o3 _ _ _ Hc2 Hb Ho3 Hl4 (map_set_nodup t v m Hd)) as (h3 & E5 & Hch3 & Hob).
    rewrite (m_bind_run _ _ _ _ _ E5). exists true, h3. split; [done|]. split; [by eapply changed_trans|]. by split.
  - destruct (store_run h2 obj c o o1 _ _ _ Hc2 Hb Ho1 Hl2' Hd) as (h3 & E5 & Hch3 & Hob).
    rewrite (m_bind_run _ _ _ _ _ E5). exists false, h3. split; [done|]. split; [by eapply changed_trans|]. split; [|done].
    intros _. rewrite <-(cached_answers _ _ Hcc). by apply Hans.
Qed.

Lemma remove_run : exists h', gc_object_remove obj k h = Some (bool_decide (t ∈ m.*1), h') /\ changed obj h h' /\
  object_is h' obj (map_remove t m).
Proof.
  destruct Hobj as (c & o & os & fs & Hc & Hb & Ho & Hl & Hd). unfold gc_object_remove.
  rewrite (m_bind_run _ _ _ _ _ (load_object_run _ _ _ _ Hc Hb)). destruct (Nat.eqb_spec (length (buckets o)) 0) as [E0|E0].
  { apply nil_length_inv in E0. rewrite (ok_no_buckets _ _ _ Ho E0) in Hl. apply Forall2_nil_inv_l in Hl as ->. exists h.
    split; [done|]. split; [by apply cached_changed, cached_refl|]. done. }
  destruct (string_hash_run h k t Hk) as (h1 & E1 & Hcc). rewrite (m_bind_run _ _ _ _ _ E1).
  pose proof (cached_object _ _ _ _ _ Hcc Hc Hb) as Hc1.
  assert (lists h1 o os m) as Hl1 by (eapply lists_ext; [apply Hcc| |exact Hl]; eauto).
  set (b := bucket_index _ _). destruct (lookup_lt_is_Some_2 (buckets o) b ltac:(apply bucket_index_lt; lia)) as [start Hs].
  rewrite (m_bind_run _ _ h1 start h1) by (unfold some_or_fault; by rewrite Hs).
  destruct (ok_buckets _ _ _ Ho b start Hs) as (cs & H1 & H2 & H3).
  destruct (remove_loop_run h1 o os fs m k t b start [] cs (length (entries o)) start) as (r & o1 & os1 & fs1 & Er & Ho1 & Hl2 & Hr); try done.
  - apply (cached_texts _ _ Hcc _ _ Hk).
  - pose proof (ok_count _ _ _ Ho). assert (length cs <= entry_count o)%nat; [|lia]. apply bounded_length; [done|].
    intros x [Hx _]%H3. apply (ok_all _ _ _ Ho), elem_of_app. by left.
  - intros x j v Hx. by apply elem_of_nil in Hx.
  - rewrite (m_bind_run _ _ _ _ _ Er).
    destruct (store_run h1 obj c o o1 os1 fs1 _ Hc1 Hb Ho1 Hl2 (map_remove_nodup t m Hd)) as (h2 & E3 & Hch2 & Hob).
    rewrite (m_bind_run _ _ _ _ _ E3). exists h2. split; [unfold mret, M_ret; do 3 f_equal|].
    + destruct r; symmetry; [by apply bool_decide_eq_true, Hr|]. apply bool_decide_eq_false. intros Hx. by apply Hr in Hx.
    + split; [|done]. eapply changed_trans; [by apply cached_changed|done].
Qed.

End Operations.

Lemma entry_at_loop_run h o os m fuel current cursor i : lists h o os m ->
  chain (link next_order o) cursor (drop current os) -> (current <= i)%nat -> (length os - current <= fuel)%nat ->
  exists r, entry_at_loop o fuel current cursor i h = Some (r, h) /\
    match r with
    | Some e => exists k t v, m !! i = Some (t, v) /\ key e = Some k /\ text h k t /\ value e = v
    | None => m !! i = None
    end.
Proof.
  intros Hl. revert current cursor. induction fuel as [|fuel IH]; intros current cursor Hc Hi Hf.
  - rewrite drop_ge in Hc by lia. cbn in Hc. subst cursor. exists None. split; [done|]. apply lookup_ge_None.
    rewrite <-(Forall2_length _ _ _ Hl). lia.
  - destruct (drop current os) as [|x l] eqn:E.
    + cbn in Hc. subst cursor. exists None. split; [done|]. apply lookup_ge_None. rewrite <-(Forall2_length _ _ _ Hl).
      apply (f_equal length) in E. rewrite length_drop in E. cbn in E. lia.
    + destruct Hc as [-> Hc]. cbn [entry_at_loop]. assert (os !! current = Some x) as Hx.
      { rewrite <-(Nat.add_0_r current), <-lookup_drop, E. done. }
      destruct (Forall2_lookup_l _ _ _ _ _ Hl Hx) as ([t v] & Hm & (e & k & He & Hk & Ht & _ & Hv)). cbn [fst snd] in *.
      rewrite (m_bind_run _ _ h e h) by (unfold entry_at, some_or_fault; by rewrite He).
      destruct (Nat.eqb_spec current i) as [->|Hne]; [exists (Some e); split; [done|]; by exists k, t, v|].
      apply IH; [|lia|lia]. rewrite (link_at _ _ _ _ He) in Hc. assert (drop (S current) os = l) as ->; [|done].
      rewrite <-Nat.add_1_r, <-drop_drop, E. done.
Qed.

Lemma gc_entry_at_run h obj m i : object_is h obj m -> exists r, gc_object_entry_at obj i h = Some (r, h) /\
  match r with
  | Some e => exists k t v, m !! i = Some (t, v) /\ key e = Some k /\ text h k t /\ value e = v
  | None => m !! i = None
  end.
Proof.
  intros (c & o & os & fs & Hc & Hb & Ho & Hl & Hd). unfold gc_object_entry_at.
  rewrite (m_bind_run _ _ _ _ _ (load_object_run _ _ _ _ Hc Hb)). rewrite (ok_size _ _ _ Ho).
  pose proof (Forall2_length _ _ _ Hl) as Hlen. destruct (Nat.leb_spec (length os) i).
  - exists None. split; [done|]. apply lookup_ge_None. lia.
  - apply (entry_at_loop_run h o os m); [done|apply Ho|lia|]. rewrite Nat.sub_0_r. pose proof (ok_count _ _ _ Ho).
    assert (length os <= entry_count o)%nat; [|lia]. pose proof (ok_nodup _ _ _ Ho) as Hnd. apply NoDup_app in Hnd as [Hnd _].
    apply bounded_length; [done|]. intros x Hx. apply (ok_all _ _ _ Ho), elem_of_app. by left.
Qed.

Lemma new_table n count : Z.of_nat n <= 2 ^ 31 -> table_ok (mkObject 0 0 0 None None None (replicate count None) (replicate n empty_entry)) [] [].
Proof.
  intros Hn. constructor; cbn; try done; [..|unfold narrow; cbn; by rewrite length_replicate].
  - lia.
  - constructor.
  - intros i. split; [by intros ?%elem_of_nil|lia].
  - intros i e [-> _]%lookup_replicate_1. split; [done|by intros ?%elem_of_nil].
  - intros b start [-> _]%lookup_replicate_1. exists []. split; [constructor|]. split; [done|]. intros i. split; [by intros ?%elem_of_nil|].
    by intros [?%elem_of_nil _].
Qed.

(** No address from [next_address] on is in use. *)
Definition fresh (h : GcHeap) : Prop := forall p, (next_address h <= p)%nat -> cells h !! p = None.

Lemma alloc_later h : exists ok h', alloc h = Some (ok, h') /\ later h h' /\ (ok = false -> false ∈ answers h).
Proof. apply alloc_run. Qed.

Lemma link_new_object h hdr o : fresh h -> table_ok o [] [] ->
  exists h', gc_link hdr (ObjectCell o) h = Some (next_address h, h') /\ object_is h' (next_address h) [] /\ answers h' = answers h /\
    (forall k t, text h k t -> text h' k t).
Proof.
  intros Hf Ho. eexists. split; [done|]. split; [|split; [done|]].
  - eexists _, o, [], []. cbn. rewrite lookup_insert_eq. split; [done|]. split; [done|]. split; [done|]. split; [constructor|constructor].
  - intros k t (c & s & Hc & Hr). exists c, s. split; [|done]. cbn. rewrite lookup_insert_ne; [done|].
    intros <-. rewrite Hf in Hc by lia. done.
Qed.

Lemma later_fresh h h' : later h h' -> fresh h -> fresh h'.
Proof. by intros (l & -> & _). Qed.

Lemma new_object_run h capacity : fresh h -> Z.of_nat capacity <= 2 ^ 31 ->
  exists r h', gc_new_object capacity h = Some (r, h') /\
    match r with
    | None => false ∈ answers h
    | Some p => object_is h' p [] /\ (false ∈ answers h' -> false ∈ answers h) /\ (forall k t, text h k t -> text h' k t)
    end.
Proof.
  intros Hf Hcap. unfold gc_new_object, gc_alloc_raw.
  destruct (alloc_run h) as (ok & h1 & E1 & Hl1 & Ha1). unfold mbind, M_bind at 1. rewrite E1.
  destruct ok; [|exists None, h1; split; [done|by apply Ha1]]. pose proof (later_fresh _ _ Hl1 Hf) as Hf1.
  assert (forall h2 o, later h h2 -> table_ok o [] [] -> exists r h', (p ← gc_link (flip_mark (live_mark h1)) (ObjectCell o); mret (Some p)) h2 = Some (r, h') /\
    match r with None => false ∈ answers h | Some p => object_is h' p [] /\ (false ∈ answers h' -> false ∈ answers h) /\ (forall k t, text h k t -> text h' k t) end) as Hend.
  { intros h2 o Hl Ho. destruct (link_new_object h2 (flip_mark (live_mark h1)) o (later_fresh _ _ Hl Hf) Ho) as (h' & E & Hob & Han & Ht).
    rewrite (m_bind_run _ _ _ _ _ E). eexists _, h'. split; [done|]. split; [done|]. split.
    - rewrite Han. by destruct Hl as (l & -> & Hl).
    - intros k t Hk. apply Ht. by eapply later_text. }
  destruct (Nat.eqb_spec capacity 0) as [_|Hne]; [apply Hend; [done|by apply (new_table 0 0)]|].
  destruct (alloc_run h1) as (ok & h2 & E2 & Hl2 & Ha2). pose proof (later_trans _ _ _ Hl1 Hl2) as Hl12.
  assert (forall h0, later h h0 -> false ∈ answers h0 -> false ∈ answers h) as Hback by (intros h0 (l & -> & Hl) H; by apply Hl).
  unfold mbind, M_bind at 1. rewrite alloc_array_small by (unfold sizeof_GcObjectEntry; lia).
  rewrite E2. destruct ok; cbn [negb]; [|exists None, h2; split; [done|]; by apply (Hback h1), Ha2].
  destruct (bucket_count_some capacity ltac:(lia) Hcap) as (count & Ec & Hc & Hcn). unfold mbind, M_bind at 1, some_or_fault. rewrite Ec.
  rewrite (proj2 (Nat.eqb_neq count 0)) by lia.
  destruct (alloc_run h2) as (ok & h3 & E3 & Hl3 & Ha3). unfold mbind, M_bind at 1.
  rewrite alloc_array_small by (unfold sizeof_int32_t; lia). rewrite E3.
  destruct ok; cbn [negb]; [|exists None, h3; split; [done|]; by apply (Hback h2), Ha3].
  apply Hend; [by eapply later_trans|by apply new_table].
Qed.

(** ** An object is an ordered map *)

Inductive Op := Get (k : nat) | Set_ (k : nat) (v : JsValue) | Remove (k : nat) | At (i : nat).

Inductive Result := Value (v : option JsValue) | Done (ok : bool) | Entry (e : option (list Z * JsValue)).

Definition entry_text (e : GcObjectEntry) : M (list Z * JsValue) :=
  k ← some_or_fault (key e); s ← load_string k; mret (units s, value e).

Definition run (obj : nat) (op : Op) : M Result :=
  match op with
  | Get k => v ← gc_object_get obj k; mret (Value v)
  | Set_ k v => ok ← gc_object_set obj k v; mret (Done ok)
  | Remove k => ok ← gc_object_remove obj k; mret (Done ok)
  | At i =>
      e ← gc_object_entry_at obj i;
      match e with None => mret (Entry None) | Some e => p ← entry_text e; mret (Entry (Some p)) end
  end.

Fixpoint run_all (obj : nat) (ops : list Op) : M (list Result) :=
  match ops with [] => mret [] | op :: ops' => r ← run obj op; rs ← run_all obj ops'; mret (r :: rs) end.

Definition op_key (op : Op) : option nat := match op with Get k | Set_ k _ | Remove k => Some k | At _ => None end.

Section Map.
Context (content : nat -> list Z) (refused : Prop).

(** What an operation answers and leaves; [content] gives the texts of the keys, and
    an insertion may fail only if the allocator has refused. *)
Definition map_step (m : list (list Z * JsValue)) (op : Op) (r : Result) (m' : list (list Z * JsValue)) : Prop :=
  match op, r with
  | Get k, Value v => v = map_get (content k) m /\ m' = m
  | Set_ k v, Done true => m' = map_set (content k) v m
  | Set_ k v, Done false => refused /\ m' = m
  | Remove k, Done ok => ok = bool_decide (content k ∈ m.*1) /\ m' = map_remove (content k) m
  | At i, Entry e => e = m !! i /\ m' = m
  | _, _ => False
  end.

Fixpoint map_steps (m : list (list Z * JsValue)) (ops : list Op) (rs : list Result) (m' : list (list Z * JsValue)) : Prop :=
  match ops, rs with
  | [], [] => m' = m
  | op :: ops', r :: rs' => exists m1, map_step m op r m1 /\ map_steps m1 ops' rs' m'
  | _, _ => False
  end.

Lemma map_step_length m op r m' : map_step m op r m' -> (length m' <= S (length m))%nat.
Proof.
  assert (forall t v m, (length (map_set t v m) <= S (length m))%nat) as Hs.
  { intros t v m0. induction m0 as [|[t' v'] m0 IH]; cbn [map_set length]; [lia|]. case_bool_decide; cbn [length]; lia. }
  assert (forall t m, (length (map_remove t m) <= length m)%nat) as Hr.
  { intros t m0. induction m0 as [|[t' v'] m0 IH]; cbn [map_remove length]; [lia|]. case_bool_decide; cbn [length]; lia. }
  destruct op, r as [|[]|]; cbn [map_step]; try done; try intros [_ ->]; try intros ->; try lia; try apply Hs; specialize (Hr (content k) m); lia.
Qed.

Lemma run_step h obj m op : object_is h obj m -> (forall k, op_key op = Some k -> text h k (content k)) ->
  Z.of_nat (length m) < 2 ^ 30 -> (false ∈ answers h -> refused) ->
  exists r h' m', run obj op h = Some (r, h') /\ map_step m op r m' /\ changed obj h h' /\ object_is h' obj m'.
Proof.
  intros Ho Hk Hl Hr. destruct op as [k|k v|k|i]; cbn [run].
  - destruct (get_run h obj k m (content k) Ho (Hk k eq_refl)) as (h' & E & Hc & Ho'). rewrite (m_bind_run _ _ _ _ _ E).
    by eexists _, h', m.
  - destruct (set_run h obj k m (content k) Ho (Hk k eq_refl) v Hl) as (ok & h' & E & Hc & Ha & Ho'). rewrite (m_bind_run _ _ _ _ _ E).
    eexists _, h', _. split; [done|]. split; [|by split]. destruct ok; [done|]. split; [by apply Hr, Ha|done].
  - destruct (remove_run h obj k m (content k) Ho (Hk k eq_refl)) as (h' & E & Hc & Ho'). rewrite (m_bind_run _ _ _ _ _ E).
    by eexists _, h', _.
  - destruct (gc_entry_at_run h obj m i Ho) as (e & E & He). rewrite (m_bind_run _ _ _ _ _ E). destruct e as [e|].
    + destruct He as (k & t & v & Hm & Hke & (c & s & Hc & Hb & Hu & _) & Hv).
      rewrite (m_bind_run _ _ h (t, v) h).
      * eexists _, h, m. split; [done|]. split; [by rewrite <-Hm|]. split; [apply cached_changed, cached_refl|done].
      * unfold entry_text, some_or_fault, load_string, load, mbind, M_bind. rewrite Hke, Hc, Hb. unfold mret, M_ret. by rewrite Hu, Hv.
    + eexists _, h, m. split; [done|]. split; [by rewrite <-He|]. split; [apply cached_changed, cached_refl|done].
Qed.

Lemma run_steps h obj m ops : object_is h obj m -> (forall op k, op ∈ ops -> op_key op = Some k -> text h k (content k)) ->
  Z.of_nat (length m + length ops) <= 2 ^ 30 -> (false ∈ answers h -> refused) ->
  exists rs h' m', run_all obj ops h = Some (rs, h') /\ map_steps m ops rs m' /\ object_is h' obj m'.
Proof.
  revert h m. induction ops as [|op ops IH]; intros h m Ho Hk Hl Hr; [by exists [], h, m|]. cbn [length] in Hl. cbn [run_all].
  destruct (run_step h obj m op Ho ltac:(intros k; apply Hk, list_elem_of_here) ltac:(lia) Hr) as (r & h1 & m1 & E & Hs & Hc & Ho1).
  rewrite (m_bind_run _ _ _ _ _ E). pose proof (map_step_length _ _ _ _ Hs) as Hlen.
  destruct (IH h1 m1 Ho1) as (rs & h2 & m2 & E2 & Hs2 & Ho2).
  - intros op' k Hop' Hk'. apply Hc, (Hk op'); [by apply list_elem_of_further|done].
  - lia.
  - intros Ha. by apply Hr, Hc.
  - rewrite (m_bind_run _ _ _ _ _ E2). eexists _, h2, m2. split; [done|]. split; [by exists m1|done].
Qed.

End Map.

(** C9. A script object is a map that keeps the order of insertion: any sequence of
    [gc_object_get], [gc_object_set], [gc_object_remove] and [gc_object_entry_at] on an
    object that [gc_new_object] made, with keys that are strings of the heap, answers
    what the same operations on a list of pairs answer, and leaves the object with that
    list, through all growth, rehashing, reuse of freed entries and collisions of
    hashes.  A creation or an insertion can fail, without effect, if the allocator has
    refused, and only then.  The capacity asked for and the number of operations are
    together at most 2^30: then the positions fit [int32_t] and the sizes of the buffers
    do not wrap.  The heap gives out new addresses. *)
Theorem object_is_ordered_map h capacity content ops : fresh h ->
  (forall op k, op ∈ ops -> op_key op = Some k -> text h k (content k)) ->
  Z.of_nat (capacity + length ops) <= 2 ^ 30 ->
  exists r h1, gc_new_object capacity h = Some (r, h1) /\
    match r with
    | None => false ∈ answers h
    | Some obj => exists rs h2 m, run_all obj ops h1 = Some (rs, h2) /\ map_steps content (false ∈ answers h) [] ops rs m /\ object_is h2 obj m
    end.
Proof.
  intros Hf Hk Hl. destruct (new_object_run h capacity Hf ltac:(lia)) as (r & h1 & E & Hr). exists r, h1. split; [exact E|].
  destruct r as [obj|]; [|exact Hr]. destruct Hr as (Ho & Ha & Ht).
  apply (run_steps content (false ∈ answers h) h1 obj [] ops Ho); [|cbn [length]; lia|exact Ha].
  intros op k Hop Hk'. by apply Ht, (Hk op).
Qed.

(** A heap with the keys [a] and [b], and an allocator that refuses its fourth call. *)
Definition sample_heap : GcHeap :=
  let heap := default initial_heap (snd <$> (gc_new_string [97];; gc_new_string [98]) initial_heap) in
  with_answers [true; true; true; false] heap.

Definition sample_content (k : nat) : list Z := [97 + Z.of_nat k].

Definition sample_ops : list Op := [Set_ 0 Null; Set_ 1 (Boolean true); Set_ 1 Null; Remove 0; Get 0; At 0].

Lemma object_is_ordered_map_witness : exists rs h2 m,
  run_all 2 sample_ops (default initial_heap (snd <$> gc_new_object 0 sample_heap)) = Some (rs, h2) /\
  map_steps sample_content (false ∈ answers sample_heap) [] sample_ops rs m /\ object_is h2 2 m.
Proof.
  destruct (object_is_ordered_map sample_heap 0 sample_content sample_ops) as (r & h1 & E & Hr).
  - intros p Hp. change (next_address sample_heap) with 2%nat in Hp. 
    assert (cells sample_heap = <[1%nat := mkCell GcMark_1 (StringCell (mkString Byte [98] None))]>
      (<[0%nat := mkCell GcMark_1 (StringCell (mkString Byte [97] None))]> ∅)) as -> by (vm_compute; reflexivity).
    rewrite !lookup_insert_ne by lia. apply lookup_empty.
  - intros op k Hop Hk. assert (k = 0%nat \/ k = 1%nat) as [-> | ->].
    { unfold sample_ops in Hop. repeat (apply elem_of_cons in Hop as [-> |Hop]; [cbn in Hk; (discriminate Hk || injection Hk as <-; tauto)|]).
      by apply elem_of_nil in Hop. }
    + exists (mkCell GcMark_1 (StringCell (mkString Byte [97] None))), (mkString Byte [97] None). split; [vm_compute; reflexivity|].
      split; [done|]. split; [vm_compute; reflexivity|by left].
    + exists (mkCell GcMark_1 (StringCell (mkString Byte [98] None))), (mkString Byte [98] None). split; [vm_compute; reflexivity|].
      split; [done|]. split; [vm_compute; reflexivity|by left].
  - done.
  - assert (gc_new_object 0 sample_heap = Some (Some 2%nat, default initial_heap (snd <$> gc_new_object 0 sample_heap))) as E' by reflexivity.
    rewrite E' in E. injection E as <- <-. exact Hr.
Defined.

(** The second insertion grows the table, which fails once. *)
Example sample_results :
  fst <$> run_all 2 sample_ops (default initial_heap (snd <$> gc_new_object 0 sample_heap)) =
    Some [Done true; Done false; Done true; Done true; Value None; Entry (Some ([98], Null))].
Proof. vm_compute. reflexivity. Qed.

End ObjectMap.
