(* ===== verification/JsCollect.v ===== *)
(** * The collector
    ([gc_mark_value], [gc_mark_obj], [gc_free_obj], [gc_collect] and the root sets of
    [src/common/json/JsGc.cpp]; [ScriptRuntime] of [src/script/Runtime.cpp])

    A collection flips the live mark of the heap, marks from the roots and sweeps the
    list of objects.  The recursion of the marking is bounded by the number of cells.
    A pointer to a value that is a root is an index into the values of the program. *)
From S2P Require Import Prelude JsText JsHeap.

Module Collect.
Import Gc.

(** ** Marking *)

Definition load_cell (p : nat) : M Cell := fun h => match cells h !! p with Some c => Some (c, h) | None => None end.
Definition get_live_mark : M GcMark := fun h => Some (live_mark h, h).
Definition set_mark (p : nat) (mark : GcMark) : M unit := fun h =>
  match cells h !! p with Some c => Some (tt, set_cells (<[p := mkCell mark (body c)]> (cells h)) h) | None => None end.

Section Mark.
Context (mark_obj : nat -> M unit).

Definition gc_mark_value (value : JsValue) : M unit :=
  match value with
  | HeapString gc | HeapBinary gc | Array gc | Object gc | Exception gc | Interator gc => mark_obj gc
  | _ => mret tt
  end.

(** [if (ptr) gc_mark_obj(heap, &ptr->hdr)] *)
Definition mark_pointer (ptr : option nat) : M unit := match ptr with Some p => mark_obj p | None => mret tt end.

Fixpoint mark_elems (n i : nat) (elems : list JsValue) : M unit :=
  match n with O => mret tt | S n' => v ← some_or_fault (elems !! i); gc_mark_value v;; mark_elems n' (S i) elems end.

Fixpoint mark_entries (entries : list GcObjectEntry) (fuel : nat) (cursor : option nat) : M unit :=
  match cursor, fuel with
  | None, _ => mret tt
  | Some _, O => fault
  | Some c, S fuel' =>
      entry ← some_or_fault (entries !! c);
      mark_pointer (key entry);;
      gc_mark_value (value entry);;
      mark_entries entries fuel' (next_order entry)
  end.

Fixpoint mark_list (l : list nat) : M unit := match l with [] => mret tt | p :: l' => mark_obj p;; mark_list l' end.

Definition mark_body (b : Body) : M unit :=
  match b with
  | StringCell _ | BinaryCell _ => mret tt
  | ArrayCell arr => mark_elems (size arr) 0 (elems arr)
  | ObjectCell objv => mark_entries (entries objv) (length (entries objv)) (head objv)
  | ExceptionCell exc => mark_pointer (name exc);; mark_pointer (message exc);; gc_mark_value (meta exc)
  | IteratorCell iter =>
      mark_pointer (array iter);;
      mark_pointer (object iter);;
      (if has_current iter then gc_mark_value (current_key iter);; gc_mark_value (current_value iter) else mret tt);;
      mark_list (snapshot_keys iter)
  end.

End Mark.

Fixpoint gc_mark_obj (fuel : nat) (obj : nat) : M unit :=
  match fuel with
  | O => fault
  | S fuel' =>
      c ← load_cell obj;
      live ← get_live_mark;
      if decide (mark_ c = live) then mret tt else set_mark obj live;; mark_body (gc_mark_obj fuel') (body c)
  end.

(** ** Sweeping *)

(** The cell goes and its address is not used again. *)
Definition gc_free_obj (obj : nat) : M unit := fun h =>
  match cells h !! obj with
  | Some c => Some (tt, mkHeap (delete obj (cells h)) (objects h) (u64 (bytes h - size_of (body c))) (threshold h) (live_mark h)
                               (next_address h) (answers h))
  | None => None
  end.

(** The objects that stay in the list. *)
Fixpoint sweep (l : list nat) : M (list nat) :=
  match l with
  | [] => mret []
  | obj :: l' =>
      c ← load_cell obj;
      live ← get_live_mark;
      if decide (mark_ c = live) then rest ← sweep l'; mret (obj :: rest) else gc_free_obj obj;; sweep l'
  end.

Definition set_live_mark (mark : GcMark) (h : GcHeap) : GcHeap :=
  mkHeap (cells h) (objects h) (bytes h) (threshold h) mark (next_address h) (answers h).
Definition set_objects (l : list nat) (h : GcHeap) : GcHeap :=
  mkHeap (cells h) l (bytes h) (threshold h) (live_mark h) (next_address h) (answers h).

Definition flip_live_mark : M unit := fun h => Some (tt, set_live_mark (flip_mark (live_mark h)) h).
Definition get_objects : M (list nat) := fun h => Some (objects h, h).
Definition put_objects (l : list nat) : M unit := fun h => Some (tt, set_objects l h).

Fixpoint mark_roots (fuel : nat) (roots : list JsValue) : M unit :=
  match roots with [] => mret tt | v :: roots' => gc_mark_value (gc_mark_obj fuel) v;; mark_roots fuel roots' end.

(** [gc_collect(heap, roots, root_count)] with the values of the roots. *)
Definition gc_collect (roots : list JsValue) : M unit :=
  flip_live_mark;;
  l ← get_objects;
  mark_roots (S (length l)) roots;;
  l ← sweep l;
  put_objects l.

(** ** What is kept *)

Definition referenced (v : JsValue) : list nat :=
  match v with
  | HeapString gc | HeapBinary gc | Array gc | Object gc | Exception gc | Interator gc => [gc]
  | _ => []
  end.

Fixpoint entries_children (es : list GcObjectEntry) (fuel : nat) (cursor : option nat) : option (list nat) :=
  match cursor, fuel with
  | None, _ => Some []
  | Some _, O => None
  | Some c, S fuel' =>
      e ← es !! c; rest ← entries_children es fuel' (next_order e); Some (option_list (key e) ++ referenced (value e) ++ rest)
  end.

(** The cells that a cell points to; [None] for an array or an object with a link out
    of its memory. *)
Definition children (b : Body) : option (list nat) :=
  match b with
  | StringCell _ | BinaryCell _ => Some []
  | ArrayCell arr => if (size arr <=? length (elems arr))%nat then Some (take (size arr) (elems arr) ≫= referenced) else None
  | ObjectCell objv => entries_children (entries objv) (length (entries objv)) (head objv)
  | ExceptionCell exc => Some (option_list (name exc) ++ option_list (message exc) ++ referenced (meta exc))
  | IteratorCell iter =>
      Some (option_list (array iter) ++ option_list (object iter) ++
            (if has_current iter then referenced (current_key iter) ++ referenced (current_value iter) else []) ++ snapshot_keys iter)
  end.

Definition child (h : GcHeap) (p q : nat) : Prop := exists c l, cells h !! p = Some c /\ children (body c) = Some l /\ q ∈ l.

Definition has_mark (m : GcMark) (h : GcHeap) (p : nat) : Prop := exists c, cells h !! p = Some c /\ mark_ c = m.

(** A cell with the mark [m] can be reached through such cells only. *)
Inductive reach (h : GcHeap) (m : GcMark) (roots : list nat) : nat -> Prop :=
  | reach_root p : p ∈ roots -> has_mark m h p -> reach h m roots p
  | reach_child p q : reach h m roots p -> child h p q -> has_mark m h q -> reach h m roots q.


(** ** Marking a list of cells *)

Section MarkBody.
Context (mark_obj : nat -> M unit).

Lemma mark_list_app l1 l2 h : mark_list mark_obj (l1 ++ l2) h = (mark_list mark_obj l1;; mark_list mark_obj l2) h.
Proof.
  revert h. induction l1 as [|p l1 IH]; intros h; [done|]. cbn [app mark_list]. rewrite m_bind_assoc.
  apply m_bind_eq; [done|]. intros _ h'. apply IH.
Qed.

Lemma mark_value_list v h : gc_mark_value mark_obj v h = mark_list mark_obj (referenced v) h.
Proof. destruct v; cbn [gc_mark_value referenced mark_list]; try done; unfold mbind, M_bind; by destruct (mark_obj _ h) as [[[] ?]|]. Qed.

Lemma mark_pointer_list p h : mark_pointer mark_obj p h = mark_list mark_obj (option_list p) h.
Proof. destruct p; cbn; [|done]. unfold mbind, M_bind. by destruct (mark_obj _ h) as [[[] ?]|]. Qed.

Lemma mark_elems_list n i elems h : (i + n <= length elems)%nat ->
  mark_elems mark_obj n i elems h = mark_list mark_obj (take n (drop i elems) ≫= referenced) h.
Proof.
  revert i h. induction n as [|n IH]; intros i h Hn; [done|]. cbn [mark_elems].
  destruct (lookup_lt_is_Some_2 elems i ltac:(lia)) as [v Hv]. rewrite (drop_S elems v i Hv). cbn [take mbind list_bind].
  unfold some_or_fault, mbind at 1, M_bind at 1. rewrite Hv. rewrite mark_list_app. apply m_bind_eq; [apply mark_value_list|].
  intros _ h'. apply IH. lia.
Qed.

Lemma mark_entries_list es fuel cursor l h : entries_children es fuel cursor = Some l ->
  mark_entries mark_obj es fuel cursor h = mark_list mark_obj l h.
Proof.
  revert cursor l h. induction fuel as [|fuel IH]; intros [c|] l h E; cbn [entries_children mark_entries] in *; try done; try by injection E as <-.
  destruct (es !! c) as [e|]; [|done]. cbn in E. destruct (entries_children es fuel (next_order e)) as [rest|] eqn:Er; [|done].
  injection E as <-. unfold some_or_fault, mbind at 1, M_bind at 1. rewrite mark_list_app. apply m_bind_eq; [apply mark_pointer_list|].
  intros _ h1. rewrite mark_list_app. apply m_bind_eq; [apply mark_value_list|]. intros _ h2. by apply IH.
Qed.

Lemma mark_body_list b l h : children b = Some l -> mark_body mark_obj b h = mark_list mark_obj l h.
Proof.
  destruct b as [s|data|a|o|e|i]; cbn [children mark_body]; intros E; try (injection E as <-); try done.
  - destruct (Nat.leb_spec (size a) (length (elems a))); [|done]. injection E as <-. by rewrite mark_elems_list.
  - by apply mark_entries_list.
  - rewrite mark_list_app. apply m_bind_eq; [apply mark_pointer_list|]. intros _ h1. rewrite mark_list_app.
    apply m_bind_eq; [apply mark_pointer_list|]. intros _ h2. apply mark_value_list.
  - rewrite mark_list_app. apply m_bind_eq; [apply mark_pointer_list|]. intros _ h1. rewrite mark_list_app.
    apply m_bind_eq; [apply mark_pointer_list|]. intros _ h2. rewrite mark_list_app. apply m_bind_eq; [|done]. destruct (has_current i); [|done].
    rewrite mark_list_app. apply m_bind_eq; [apply mark_value_list|]. intros _ h3. apply mark_value_list.
Qed.


End MarkBody.

(** ** What marking does *)

Lemma flip_mark_other m m' : m <> m' <-> m = flip_mark m'.
Proof. by destruct m, m'. Qed.

Lemma flip_mark_ne m : flip_mark m <> m.
Proof. by destruct m. Qed.

Lemma has_mark_fun m m' h p : has_mark m h p -> has_mark m' h p -> m = m'.
Proof. intros (c & Hc & <-) (c' & Hc' & <-). congruence. Qed.

Lemma has_mark_or h p m : is_Some (cells h !! p) -> has_mark m h p \/ has_mark (flip_mark m) h p.
Proof.
  intros [c Hc]. destruct (decide (mark_ c = m)) as [E|E]; [by left; exists c|]. right. exists c. split; [done|]. by apply flip_mark_other.
Qed.

(** [h'] is [h] after the marking of the cells of [l]. *)
Record marked (l : list nat) (h h' : GcHeap) : Prop := mkMarked {
  mk_frame : h' = set_cells (cells h') h;
  mk_cells : forall p, cells h' !! p = cells h !! p \/ exists c, cells h !! p = Some c /\ mark_ c = flip_mark (live_mark h) /\
    reach h (flip_mark (live_mark h)) l p /\ cells h' !! p = Some (mkCell (live_mark h) (body c));
  mk_roots : forall p, p ∈ l -> has_mark (live_mark h) h' p;
  mk_closed : forall p q, has_mark (flip_mark (live_mark h)) h p -> has_mark (live_mark h) h' p -> child h p q -> has_mark (live_mark h) h' q }.

Section Marked.
Context (l : list nat) (h h' : GcHeap) (Hm : marked l h h').

Lemma marked_live : live_mark h' = live_mark h.
Proof. by rewrite (mk_frame _ _ _ Hm). Qed.

Lemma marked_body p : body <$> cells h' !! p = body <$> cells h !! p.
Proof. destruct (mk_cells _ _ _ Hm p) as [-> |(c & -> & _ & _ & ->)]; done. Qed.

Lemma marked_child p q : child h' p q <-> child h p q.
Proof.
  pose proof (marked_body p) as E. unfold child. split; intros (c & x & Hc & Hx & Hq); rewrite Hc in E.
  - destruct (cells h !! p) as [c'|]; [|done]. injection E as E. exists c', x. by rewrite <-E.
  - destruct (cells h' !! p) as [c'|]; [|done]. injection E as E. exists c', x. by rewrite E.
Qed.

Lemma marked_white p : has_mark (flip_mark (live_mark h)) h' p -> has_mark (flip_mark (live_mark h)) h p.
Proof.
  intros (c & Hc & Hw). destruct (mk_cells _ _ _ Hm p) as [E|(c' & Hc' & _ & _ & E)]; [exists c; by rewrite <-E|].
  rewrite Hc in E. injection E as ->. cbn in Hw. symmetry in Hw. by apply flip_mark_ne in Hw.
Qed.

Lemma marked_black p : has_mark (live_mark h) h p -> has_mark (live_mark h) h' p.
Proof.
  intros (c & Hc & Hb). destruct (mk_cells _ _ _ Hm p) as [E|(c' & Hc' & Hw & _ & E)]; [exists c; by rewrite E|].
  assert (c' = c) as -> by congruence. exfalso. rewrite Hb in Hw. symmetry in Hw. by apply flip_mark_ne in Hw.
Qed.

Lemma marked_dom p : is_Some (cells h' !! p) <-> is_Some (cells h !! p).
Proof. rewrite <-!(fmap_is_Some body). by rewrite marked_body. Qed.

Lemma marked_reach m r p : reach h' (flip_mark (live_mark h)) m p -> (forall q, q ∈ m -> has_mark (flip_mark (live_mark h)) h q -> reach h (flip_mark (live_mark h)) r q) ->
  reach h (flip_mark (live_mark h)) r p.
Proof.
  intros Hr Hm'. induction Hr as [p Hp Hw|p q _ IH Hc Hw]; [apply Hm'; [done|by apply marked_white]|].
  eapply reach_child; [exact IH|by apply marked_child|by apply marked_white].
Qed.

(** The cells with the mark are those that had it and those that white paths reach. *)
Lemma marked_exactly p : has_mark (live_mark h) h' p <-> has_mark (live_mark h) h p \/ reach h (flip_mark (live_mark h)) l p.
Proof.
  split.
  - intros (c & Hc & Hb). destruct (mk_cells _ _ _ Hm p) as [E|(c' & Hc' & Hw & Hr & E)]; [|by right]. left. exists c. by rewrite <-E.
  - intros [Hb|Hr]; [by apply marked_black|]. induction Hr as [p Hp Hw|p q Hr IH Hc Hw]; [by apply (mk_roots _ _ _ Hm)|].
    eapply (mk_closed _ _ _ Hm); [|exact IH|exact Hc]. by destruct Hr.
Qed.

End Marked.

Lemma marked_nil h : marked [] h h.
Proof.
  constructor; [by destruct h|by left|by intros p ?%elem_of_nil|]. intros p q Hw Hb.
  pose proof (has_mark_fun _ _ _ _ Hw Hb) as E. by apply flip_mark_ne in E.
Qed.

Lemma reach_weaken h m l l' p : reach h m l p -> (forall q, q ∈ l -> q ∈ l') -> reach h m l' p.
Proof. intros Hr Hl. induction Hr; [apply reach_root; auto|eapply reach_child; eauto]. Qed.

Lemma marked_app l1 l2 h h1 h2 : marked l1 h h1 -> marked l2 h1 h2 -> marked (l1 ++ l2) h h2.
Proof.
  intros H1 H2. pose proof (marked_live _ _ _ H1) as El. constructor.
  - rewrite (mk_frame _ _ _ H2), (mk_frame _ _ _ H1). done.
  - intros p. destruct (mk_cells _ _ _ H2 p) as [E2|(c & Hc & Hw & Hr & E2)].
    + rewrite E2. destruct (mk_cells _ _ _ H1 p) as [?|(c & ? & ? & Hr & ?)]; [by left|]. right. exists c. split_and!; try done.
      eapply reach_weaken; [exact Hr|]. intros q Hq. apply elem_of_app. by left.
    + rewrite El in *. right. destruct (marked_white _ _ _ H1 p ltac:(by exists c)) as (c' & Hc' & Hw').
      assert (body c' = body c) as Eb. { pose proof (marked_body _ _ _ H1 p) as E. rewrite Hc, Hc' in E. by injection E. }
      exists c'. split; [done|]. split; [done|]. rewrite Eb. split; [|done].
      eapply (marked_reach _ _ _ H1); [exact Hr|]. intros q Hq Hq'. apply reach_root; [|done]. apply elem_of_app. by right.
  - intros p [Hp|Hp]%elem_of_app; [|rewrite <-El; by apply (mk_roots _ _ _ H2)]. rewrite <-El. apply (marked_black _ _ _ H2). rewrite El.
    by apply (mk_roots _ _ _ H1).
  - intros p q Hw Hb Hc. destruct (has_mark_or h1 p (live_mark h)) as [Hb1|Hw1].
    { apply (marked_dom _ _ _ H1). by destruct Hw as (c & -> & _). }
    + rewrite <-El. apply (marked_black _ _ _ H2). rewrite El. by eapply (mk_closed _ _ _ H1).
    + rewrite <-El in *. eapply (mk_closed _ _ _ H2); [done|done|]. by apply (marked_child _ _ _ H1).
Qed.

(** ** The number of cells to mark *)

Definition whites (h : GcHeap) : gset nat := dom (filter (fun x : nat * Cell => mark_ x.2 = flip_mark (live_mark h)) (cells h)).

Lemma elem_of_whites h p : p ∈ whites h <-> has_mark (flip_mark (live_mark h)) h p.
Proof.
  unfold whites, has_mark. rewrite elem_of_dom. split.
  - intros [c Hc]. apply map_lookup_filter_Some in Hc as [Hc Hm]. by exists c.
  - intros (c & Hc & Hm). exists c. by apply map_lookup_filter_Some.
Qed.

Lemma marked_whites l h h' : marked l h h' -> (base.size (whites h') <= base.size (whites h))%nat.
Proof.
  intros Hm. apply subseteq_size. intros p. rewrite !elem_of_whites, (marked_live _ _ _ Hm). by apply marked_white with l.
Qed.

Definition shapes (h : GcHeap) : Prop :=
  forall p c, cells h !! p = Some c -> exists l, children (body c) = Some l /\ forall q, q ∈ l -> is_Some (cells h !! q).

Lemma shapes_body h h' : (forall p, body <$> cells h' !! p = body <$> cells h !! p) -> shapes h -> shapes h'.
Proof.
  intros E Hs p c Hc. pose proof (E p) as Ep. rewrite Hc in Ep. destruct (cells h !! p) as [c0|] eqn:E0; [|done].
  destruct (Hs p c0 E0) as (l & Hl & Hd). exists l. injection Ep as ->. split; [done|]. intros q Hq.
  apply (fmap_is_Some body). rewrite E. by apply fmap_is_Some, Hd.
Qed.

Section SetMark.
Context (h : GcHeap) (p : nat) (c : Cell) (l : list nat).
Context (Hc : cells h !! p = Some c) (Hw : mark_ c = flip_mark (live_mark h)) (Hl : children (body c) = Some l).

#[local] Abbreviation h1 := (set_cells (<[p := mkCell (live_mark h) (body c)]> (cells h)) h).

Lemma set_mark_body x : body <$> cells h1 !! x = body <$> cells h !! x.
Proof. cbn. destruct (decide (x = p)) as [->|Hne]; [by rewrite lookup_insert_eq, Hc|by rewrite lookup_insert_ne]. Qed.

Lemma set_mark_child x y : child h1 x y -> child h x y.
Proof.
  intros (c' & l' & Hc' & Hl' & Hy). pose proof (set_mark_body x) as E. rewrite Hc' in E. destruct (cells h !! x) as [c0|] eqn:E0; [|done].
  injection E as E. exists c0, l'. by rewrite <-E.
Qed.

Lemma set_mark_white x : has_mark (flip_mark (live_mark h)) h1 x <-> x <> p /\ has_mark (flip_mark (live_mark h)) h x.
Proof.
  unfold has_mark. cbn. destruct (decide (x = p)) as [->|Hne].
  - rewrite lookup_insert_eq. split; [|by intros []]. intros (c' & [= <-] & E). cbn in E. symmetry in E. by apply flip_mark_ne in E.
  - rewrite lookup_insert_ne by done. naive_solver.
Qed.

Lemma set_mark_whites : (base.size (whites h1) < base.size (whites h))%nat.
Proof.
  apply subset_size. split.
  - intros x. rewrite !elem_of_whites. intros [_ ?]%set_mark_white. done.
  - intros H. specialize (H p). rewrite !elem_of_whites in H. destruct (proj1 (set_mark_white p)) as [? _]; [|done]. apply H. by exists c.
Qed.

Lemma set_mark_reach x : reach h1 (flip_mark (live_mark h)) l x -> reach h (flip_mark (live_mark h)) [p] x.
Proof.
  induction 1 as [x Hx Hxw|x y _ IH Hxy Hyw].
  - eapply reach_child; [apply reach_root; [apply list_elem_of_here|by exists c]| |by apply set_mark_white]. by exists c, l.
  - eapply reach_child; [exact IH|by apply set_mark_child|by apply set_mark_white].
Qed.

Lemma set_mark_marked h' : marked l h1 h' -> marked [p] h h'.
Proof.
  intros Hm. change (live_mark h) with (live_mark h1) in *. constructor.
  - by rewrite (mk_frame _ _ _ Hm).
  - intros x. destruct (mk_cells _ _ _ Hm x) as [E|(c' & Hc' & Hw' & Hr & E)].
    + rewrite E. cbn. destruct (decide (x = p)) as [->|Hne]; [|left; by rewrite lookup_insert_ne].
      right. exists c. split; [done|]. split; [done|]. split; [apply reach_root; [apply list_elem_of_here|by exists c]|]. by rewrite lookup_insert_eq.
    + right. destruct (proj1 (set_mark_white x)) as [Hne _]; [by exists c'|]. cbn in Hc'. rewrite lookup_insert_ne in Hc' by done.
      exists c'. split; [done|]. split; [done|]. split; [by apply set_mark_reach|done].
  - intros x ->%list_elem_of_singleton. apply (marked_black _ _ _ Hm). eexists. cbn. by rewrite lookup_insert_eq.
  - intros x y Hx Hb Hxy. destruct (decide (x = p)) as [->|Hne].
    + apply (mk_roots _ _ _ Hm). destruct Hxy as (c' & l' & Hc' & Hl' & Hy). assert (c' = c) as -> by congruence. congruence.
    + eapply (mk_closed _ _ _ Hm); [by apply set_mark_white|done|]. destruct Hxy as (c' & l' & Hc' & Hl' & Hy). exists c', l'.
      cbn. by rewrite lookup_insert_ne.
Qed.

End SetMark.

Lemma mark_list_run (f : nat -> M unit) n :
  (forall h p, shapes h -> is_Some (cells h !! p) -> (base.size (whites h) < n)%nat -> exists h', f p h = Some (tt, h') /\ marked [p] h h') ->
  forall l h, shapes h -> (forall p, p ∈ l -> is_Some (cells h !! p)) -> (base.size (whites h) < n)%nat ->
  exists h', mark_list f l h = Some (tt, h') /\ marked l h h'.
Proof.
  intros Hf l. induction l as [|p l IH]; intros h Hs Hl Hn; [exists h; split; [done|apply marked_nil]|]. cbn [mark_list].
  destruct (Hf h p Hs ltac:(apply Hl, list_elem_of_here) Hn) as (h1 & E1 & H1).
  destruct (IH h1) as (h2 & E2 & H2).
  - eapply shapes_body; [|exact Hs]. apply (marked_body _ _ _ H1).
  - intros q Hq. apply (marked_dom _ _ _ H1), Hl. by apply list_elem_of_further.
  - pose proof (marked_whites _ _ _ H1). lia.
  - exists h2. split; [unfold mbind, M_bind; by rewrite E1|]. change (p :: l) with ([p] ++ l). by eapply marked_app.
Qed.

Lemma mark_obj_run fuel : forall h p, shapes h -> is_Some (cells h !! p) -> (base.size (whites h) < fuel)%nat ->
  exists h', gc_mark_obj fuel p h = Some (tt, h') /\ marked [p] h h'.
Proof.
  induction fuel as [|fuel IH]; intros h p Hs [c Hc] Hn; [lia|]. cbn [gc_mark_obj].
  unfold load_cell, get_live_mark, mbind at 1 2, M_bind at 1 2. rewrite Hc. destruct (decide (mark_ c = live_mark h)) as [Hb|Hw].
  - exists h. split; [done|]. constructor; [by destruct h|by left| |].
    + intros q ->%list_elem_of_singleton. by exists c.
    + intros q r Hq Hq'. pose proof (has_mark_fun _ _ _ _ Hq Hq') as E. by apply flip_mark_ne in E.
  - apply flip_mark_other in Hw. destruct (Hs p c Hc) as (l & Hl & Hd). unfold set_mark, mbind, M_bind. rewrite Hc.
    rewrite (mark_body_list _ _ l) by done. pose proof (set_mark_whites h p c Hc Hw).
    destruct (mark_list_run (gc_mark_obj fuel) fuel IH l (set_cells (<[p:=mkCell (live_mark h) (body c)]> (cells h)) h)) as (h' & E & Hm).
    + eapply shapes_body; [|exact Hs]. by apply set_mark_body.
    + intros q Hq. apply (fmap_is_Some body). rewrite set_mark_body by done. by apply fmap_is_Some, Hd.
    + lia.
    + exists h'. split; [exact E|]. by apply (set_mark_marked h p c l).
Qed.

(** ** Sweeping a list of cells *)

Definition is_black (h : GcHeap) (p : nat) : bool :=
  match cells h !! p with Some c => bool_decide (mark_ c = live_mark h) | None => false end.

Lemma is_black_spec h p : is_black h p = true <-> has_mark (live_mark h) h p.
Proof.
  unfold is_black, has_mark. destruct (cells h !! p) as [c|]; [|naive_solver]. rewrite bool_decide_eq_true. naive_solver.
Qed.

(** The bytes of the cells of a list. *)
Definition cell_bytes (h : GcHeap) (p : nat) : Z := match cells h !! p with Some c => size_of (body c) | None => 0 end.
Definition total (h : GcHeap) (l : list nat) : Z := foldr (fun p sum => cell_bytes h p + sum) 0 l.

Lemma total_ext h h' l : (forall p, p ∈ l -> body <$> cells h' !! p = body <$> cells h !! p) -> total h' l = total h l.
Proof.
  induction l as [|p l IH]; intros H; [done|]. unfold total in *. cbn [foldr]. rewrite IH by (intros q Hq; apply H; by apply list_elem_of_further).
  f_equal. unfold cell_bytes. pose proof (H p ltac:(apply list_elem_of_here)) as E.
  destruct (cells h' !! p), (cells h !! p); try done. injection E as ->. done.
Qed.

(** [l'] are the cells of [l] that stay. *)
Record swept (l l' : list nat) (h h' : GcHeap) : Prop := mkSwept {
  sw_list : forall p, p ∈ l' <-> p ∈ l /\ is_black h p = true;
  sw_nodup : NoDup l';
  sw_cells : forall p, cells h' !! p = if decide (p ∈ l /\ is_black h p = false) then None else cells h !! p;
  sw_bytes : u64 (bytes h') = u64 (bytes h - (total h l - total h l'));
  sw_width : in_width 64 (bytes h) -> in_width 64 (bytes h');
  sw_live : live_mark h' = live_mark h }.

Lemma sweep_keep p l l' h h' : p ∉ l -> is_black h p = true -> swept l l' h h' -> swept (p :: l) (p :: l') h h'.
Proof.
  intros Hn Hb [H1 H2 H3 H4 H5 H6]. constructor; try done.
  - intros q. rewrite !elem_of_cons, H1. naive_solver.
  - constructor; [|done]. by intros [? _]%H1.
  - intros q. rewrite H3. destruct (decide (q = p)) as [->|Hne].
    + rewrite !decide_False by naive_solver congruence. done.
    + destruct (decide (q ∈ l /\ is_black h q = false)), (decide (q ∈ p :: l /\ is_black h q = false)); try done;
        rewrite elem_of_cons in *; naive_solver.
  - rewrite H4. unfold total. cbn [foldr]. do 2 f_equal. lia.
Qed.

Lemma sweep_free p c l l' h h' : p ∉ l -> cells h !! p = Some c -> is_black h p = false ->
  swept l l' (mkHeap (delete p (cells h)) (objects h) (u64 (bytes h - size_of (body c))) (threshold h) (live_mark h) (next_address h) (answers h)) h' ->
  swept (p :: l) l' h h'.
Proof.
  intros Hn Hc Hb [H1 H2 H3 H4 H5 H6]. set (h1 := mkHeap _ _ _ _ _ _ _) in *.
  assert (forall q, q <> p -> cells h1 !! q = cells h !! q) as Hq by (intros q Hq; cbn; by rewrite lookup_delete_ne).
  assert (forall q, q <> p -> is_black h1 q = is_black h q) as Hbq by (intros q Hq'; unfold is_black; by rewrite Hq).
  assert (forall q, q ∈ l -> q <> p) as Hne by (intros q Hq' ->; done).
  assert (forall q, q ∈ l' -> q <> p) as Hne' by (intros q [Hq' _]%H1 ->; done).
  constructor; try done.
  - intros q. rewrite H1, elem_of_cons. split.
    + intros [Hl Hbl]. rewrite <-Hbq by auto. tauto.
    + intros [[->|Hl] Hbl]; [congruence|]. rewrite Hbq by auto. tauto.
  - intros q. rewrite H3. destruct (decide (q = p)) as [->|Hqp].
    + rewrite decide_False by tauto. cbn. rewrite lookup_delete_eq. rewrite decide_True; [done|]. split; [apply list_elem_of_here|done].
    + rewrite Hbq, Hq by done. destruct (decide (q ∈ l /\ is_black h q = false)), (decide (q ∈ p :: l /\ is_black h q = false)); try done;
        rewrite elem_of_cons in *; naive_solver.
  - rewrite H4. unfold total at 3. cbn [foldr]. fold (total h l). unfold cell_bytes. rewrite Hc.
    rewrite (total_ext h h1 l) by (intros q Hq'; by rewrite Hq by auto). rewrite (total_ext h h1 l') by (intros q Hq'; by rewrite Hq by auto).
    cbn [bytes h1]. unfold wrap. rewrite Zminus_mod_idemp_l. f_equal. lia.
  - intros _. apply H5. cbn. by apply wrap_range.
Qed.

Lemma sweep_run l : forall h, NoDup l -> (forall p, p ∈ l -> is_Some (cells h !! p)) -> exists l' h', sweep l h = Some (l', h') /\ swept l l' h h'.
Proof.
  induction l as [|p l IH]; intros h Hd Hl.
  - exists [], h. split; [done|]. constructor; try done.
    + intros p. split; [by intros ?%elem_of_nil|by intros [?%elem_of_nil _]].
    + f_equal. lia.
  - apply NoDup_cons in Hd as [Hn Hd]. destruct (Hl p ltac:(apply list_elem_of_here)) as [c Hc]. cbn [sweep].
    unfold load_cell, get_live_mark, mbind at 1 2, M_bind at 1 2. rewrite Hc.
    assert (is_black h p = bool_decide (mark_ c = live_mark h)) as Hb by (unfold is_black; by rewrite Hc).
    destruct (decide (mark_ c = live_mark h)) as [E|E].
    + destruct (IH h Hd ltac:(intros q Hq; apply Hl; by apply list_elem_of_further)) as (l' & h' & Es & Hs).
      exists (p :: l'), h'. split; [unfold mbind, M_bind; by rewrite Es|]. apply sweep_keep; [done| |done]. by rewrite Hb, bool_decide_true.
    + unfold gc_free_obj, mbind, M_bind. rewrite Hc.
      match goal with |- context [sweep l ?h1] => destruct (IH h1 Hd) as (l' & h' & Es & Hs) end.
      { intros q Hq. cbn. rewrite lookup_delete_ne by (by intros ->). apply Hl. by apply list_elem_of_further. }
      exists l', h'. split; [exact Es|]. eapply sweep_free; [done|exact Hc| |exact Hs]. by rewrite Hb, bool_decide_false.
Qed.

(** ** Collecting *)

(** The list has the cells, every pointer leads to a cell, and the bytes are theirs. *)
Record heap_ok (h : GcHeap) : Prop := mkHeapOk {
  ok_list : NoDup (objects h);
  ok_cells : forall p, p ∈ objects h <-> is_Some (cells h !! p);
  ok_shapes : shapes h;
  ok_bytes : bytes h = u64 (total h (objects h)) }.

(** What a collection keeps: the cells that already bear the next live mark, and those
    that pointers reach from the roots through cells that do not. *)
Definition kept (h : GcHeap) (roots : list JsValue) (p : nat) : Prop :=
  has_mark (flip_mark (live_mark h)) h p \/ reach h (live_mark h) (roots ≫= referenced) p.

Definition roots_ok (h : GcHeap) (roots : list JsValue) : Prop := forall v p, v ∈ roots -> p ∈ referenced v -> is_Some (cells h !! p).

(** The heap with the kept cells only, whose marks are [live]. *)
Definition collected (h : GcHeap) (roots : list JsValue) (h' : GcHeap) : Prop :=
  live_mark h' = flip_mark (live_mark h) /\
  forall p c, cells h' !! p = Some c <->
    exists c0, cells h !! p = Some c0 /\ kept h roots p /\ c = mkCell (flip_mark (live_mark h)) (body c0).

Lemma mark_roots_list fuel roots h : mark_roots fuel roots h = mark_list (gc_mark_obj fuel) (roots ≫= referenced) h.
Proof.
  revert h. induction roots as [|v roots IH]; intros h; [done|]. cbn [mark_roots mbind list_bind]. rewrite mark_list_app.
  apply m_bind_eq; [apply mark_value_list|]. intros _ h'. apply IH.
Qed.

Lemma flip_flip m : flip_mark (flip_mark m) = m.
Proof. by destruct m. Qed.

Lemma reach_set_live m0 h m l p : reach (set_live_mark m0 h) m l p <-> reach h m l p.
Proof.
  split; (induction 1 as [x Hx Hw|x y _ IH Hc Hw]; [by apply reach_root|by eapply reach_child; [exact IH|exact Hc|]]).
Qed.

Lemma whites_bound h : NoDup (objects h) -> (forall p, p ∈ objects h <-> is_Some (cells h !! p)) -> (base.size (whites h) <= length (objects h))%nat.
Proof.
  intros Hd Hc. rewrite <-(size_list_to_set (C := gset nat) _ Hd). apply subseteq_size. intros p (c & Hp & _)%elem_of_whites.
  apply elem_of_list_to_set, Hc. by exists c.
Qed.

Lemma collect_run h roots : heap_ok h -> roots_ok h roots ->
  exists h', gc_collect roots h = Some (tt, h') /\ collected h roots h' /\
    NoDup (objects h') /\ (forall p, p ∈ objects h' <-> is_Some (cells h' !! p)) /\ bytes h' = u64 (total h' (objects h')).
Proof.
  intros [Hd Hc Hs Hb] Hr. unfold gc_collect. set (h1 := set_live_mark (flip_mark (live_mark h)) h).
  unfold flip_live_mark, get_objects. unfold mbind at 1 2, M_bind at 1 2. fold h1.
  set (l := roots ≫= referenced).
  assert (forall p, p ∈ l -> is_Some (cells h1 !! p)) as Hl by (intros p (v & Hp & Hv)%list_elem_of_bind; by apply (Hr v)).
  destruct (mark_list_run _ _ (mark_obj_run (S (length (objects h1)))) l h1) as (h2 & E2 & H2); [exact Hs|exact Hl| |].
  { pose proof (whites_bound h1 Hd Hc). lia. }
  unfold mbind at 1, M_bind at 1. rewrite mark_roots_list; fold l; rewrite E2. unfold mbind, M_bind.
  assert (objects h2 = objects h) as Eo by (rewrite (mk_frame _ _ _ H2); done).
  assert (live_mark h2 = flip_mark (live_mark h)) as El by (rewrite (marked_live _ _ _ H2); done).
  assert (bytes h2 = bytes h) as Ebytes by (rewrite (mk_frame _ _ _ H2); done).
  destruct (sweep_run (objects h1) h2 Hd) as (l' & h3 & E3 & H3).
  { intros p Hp. apply (marked_dom _ _ _ H2), Hc, Hp. }
  rewrite E3. exists (set_objects l' h3). split; [done|].
  assert (forall p, is_black h2 p = true <-> kept h roots p) as Hk.
  { intros p. rewrite is_black_spec, (marked_live _ _ _ H2), (marked_exactly _ _ _ H2 p). unfold kept. change (live_mark h1) with (flip_mark (live_mark h)).
    rewrite flip_flip. pose proof (reach_set_live (flip_mark (live_mark h)) h (live_mark h) l p) as Hrs. fold h1 in Hrs. rewrite Hrs. done. }
  assert (forall p, cells h3 !! p = if is_black h2 p then cells h2 !! p else None) as H3c.
  { intros p. rewrite (sw_cells _ _ _ _ H3). destruct (is_black h2 p) eqn:Ebp.
    - rewrite decide_False by naive_solver. done.
    - destruct (decide (p ∈ objects h1)) as [Hp|Hp]; [by rewrite decide_True|]. rewrite decide_False by tauto.
      destruct (cells h2 !! p) eqn:Ep; [|done]. exfalso. apply Hp, Hc, (marked_dom _ _ _ H2). by rewrite Ep. }
  split; [split|split; [|split]].
  - cbn. by rewrite (sw_live _ _ _ _ H3).
  - intros p c. cbn [set_objects cells]. rewrite H3c. split.
    + destruct (is_black h2 p) eqn:Ebp; [|done]. intros Hp. pose proof (marked_body _ _ _ H2 p) as Ep. rewrite Hp in Ep.
      destruct (cells h1 !! p) as [c0|] eqn:E0; [|done]. injection Ep as Ep. exists c0. split; [exact E0|]. split; [by apply Hk|].
      unfold is_black in Ebp. rewrite Hp, bool_decide_eq_true in Ebp. destruct c. cbn in *. congruence.
    + intros (c0 & Hp & Hkp%Hk & ->). rewrite Hkp. pose proof (marked_body _ _ _ H2 p) as Ep. change (cells h1) with (cells h) in Ep. rewrite Hp in Ep.
      unfold is_black in Hkp. destruct (cells h2 !! p) as [c|]; [|done]. injection Ep as Ep. apply bool_decide_eq_true in Hkp. destruct c. cbn in *. congruence.
  - apply (sw_nodup _ _ _ _ H3).
  - intros p. cbn. rewrite (sw_list _ _ _ _ H3), H3c. split.
    + intros [Hp ->]. by apply (marked_dom _ _ _ H2), Hc.
    + destruct (is_black h2 p); [|by intros [? ?]]. intros Hp. split; [|done]. by apply Hc, (marked_dom _ _ _ H2).
  - cbn [set_objects bytes objects]. rewrite <-(wrap_small 64 (bytes h3)).
    + rewrite (sw_bytes _ _ _ _ H3), Ebytes, Hb. unfold wrap. rewrite Zminus_mod_idemp_l.
      assert (total h2 (objects h1) = total h (objects h)) as Et by (apply total_ext; intros p _; apply (marked_body _ _ _ H2)). rewrite Et. f_equal.
      assert (total (set_objects l' h3) l' = total h2 l') as ->; [|lia]. apply total_ext. intros p Hp. cbn [set_objects cells]. rewrite H3c.
      apply (sw_list _ _ _ _ H3) in Hp as [_ ->]. done.
    + apply (sw_width _ _ _ _ H3). rewrite Ebytes, Hb. by apply wrap_range.
Qed.

(** No cell has been allocated since the last collection. *)
Definition settled (h : GcHeap) : Prop := forall p c, cells h !! p = Some c -> mark_ c = live_mark h.

(** Pointers lead from the roots to the cell. *)
Inductive reachable (h : GcHeap) (roots : list nat) : nat -> Prop :=
  | reachable_root p : p ∈ roots -> is_Some (cells h !! p) -> reachable h roots p
  | reachable_child p q : reachable h roots p -> child h p q -> is_Some (cells h !! q) -> reachable h roots q.

Lemma settled_kept h roots p : settled h -> kept h roots p <-> reachable h (roots ≫= referenced) p.
Proof.
  intros Hs. assert (forall q, is_Some (cells h !! q) <-> has_mark (live_mark h) h q) as Hm.
  { intros q. split; [intros [c Hc]; exists c; split; [done|by apply (Hs q)]|by intros (c & -> & _)]. }
  split.
  - intros [(c & Hc & Hb)|Hr]; [exfalso; apply (flip_mark_ne (live_mark h)); rewrite <-Hb; by apply (Hs p)|].
    induction Hr as [p Hp Hw|p q _ IH Hc Hw]; [apply reachable_root; [done|by apply Hm]|eapply reachable_child; [exact IH|done|by apply Hm]].
  - intros Hr. right. induction Hr as [p Hp Hw|p q _ IH Hc Hw]; [apply reach_root; [done|by apply Hm]|eapply reach_child; [exact IH|done|by apply Hm]].
Qed.

Lemma kept_child h roots p q : shapes h -> reach h (live_mark h) (roots ≫= referenced) p -> child h p q -> kept h roots q.
Proof.
  intros Hs Hr Hc. assert (is_Some (cells h !! q)) as Hq.
  { destruct Hc as (c & l & Hp & Hl & Hq). destruct (Hs p c Hp) as (l' & Hl' & Hd). apply Hd. congruence. }
  destruct (has_mark_or h q (live_mark h) Hq) as [Hm|Hm]; [right; by eapply reach_child|by left].
Qed.

Lemma collected_settled h roots h' : collected h roots h' -> settled h'.
Proof. intros [El Hc] p c (c0 & _ & _ & ->)%Hc. by rewrite El. Qed.

Lemma collected_ok h roots h' : heap_ok h -> collected h roots h' ->
  NoDup (objects h') -> (forall p, p ∈ objects h' <-> is_Some (cells h' !! p)) -> bytes h' = u64 (total h' (objects h')) ->
  (forall p q, has_mark (flip_mark (live_mark h)) h p -> child h p q -> kept h roots q) -> heap_ok h'.
Proof.
  intros Hok [El Hc] Hd Ho Hb Hnew. constructor; try done. intros p c (c0 & Hp & Hk & ->)%Hc.
  destruct (ok_shapes _ Hok p c0 Hp) as (l & Hl & Hin). exists l. split; [done|]. intros q Hq.
  assert (child h p q) as Hpq by by exists c0, l. destruct (Hin q Hq) as [cq Hcq]. eexists. apply Hc. exists cq. split; [done|]. split; [|done].
  destruct Hk as [Hm|Hr]; [by apply (Hnew p)|]. eapply kept_child; [apply Hok|exact Hr|done].
Qed.

(** C12. [gc_collect] ends, frees exactly the cells that are neither allocated since the
    last collection nor reachable from a root through older cells, and leaves the bodies
    of the others as they were; the list and the byte count are those of the cells that
    are left.  The heap is sound again if everything that the new cells point to is
    kept. *)
Theorem gc_collect_keeps h roots : heap_ok h -> roots_ok h roots ->
  exists h', gc_collect roots h = Some (tt, h') /\ collected h roots h' /\ settled h' /\
    NoDup (objects h') /\ (forall p, p ∈ objects h' <-> is_Some (cells h' !! p)) /\ bytes h' = u64 (total h' (objects h')) /\
    ((forall p q, has_mark (flip_mark (live_mark h)) h p -> child h p q -> kept h roots q) -> heap_ok h').
Proof.
  intros Hok Hr. destruct (collect_run h roots Hok Hr) as (h' & E & Hc & Hd & Ho & Hb). exists h'. split; [done|]. split; [done|].
  split; [by eapply collected_settled|]. split; [done|]. split; [done|]. split; [done|]. by eapply collected_ok.
Qed.

(** C11. In a heap without cells newer than the last collection a collection frees
    exactly the garbage: a cell is left, with its contents, if and only if pointers lead
    to it from a root, and no pointer of the heap dangles. *)
Theorem gc_collect_frees_garbage h roots : heap_ok h -> roots_ok h roots -> settled h ->
  exists h', gc_collect roots h = Some (tt, h') /\ heap_ok h' /\
    forall p b, body <$> cells h' !! p = Some b <-> body <$> cells h !! p = Some b /\ reachable h (roots ≫= referenced) p.
Proof.
  intros Hok Hr Hs. destruct (collect_run h roots Hok Hr) as (h' & E & Hc & Hd & Ho & Hb). exists h'. split; [done|]. split.
  - eapply collected_ok; try done. intros p q (c & Hp & Hm). exfalso. apply (flip_mark_ne (live_mark h)). rewrite <-Hm. by apply (Hs p).
  - destruct Hc as [El Hc]. intros p b. rewrite !fmap_Some. split.
    + intros (c & (c0 & Hp & Hk & ->)%Hc & ->). cbn [body]. split; [by exists c0|]. by apply settled_kept.
    + intros [(c0 & Hp & ->) Hk%settled_kept]; [|done]. eexists. split; [apply Hc; by exists c0|done].
Qed.

(** ** Concrete heaps *)

Definition heap_check (h : GcHeap) : bool :=
  bool_decide (NoDup (objects h)) && bool_decide (list_to_set (objects h) = dom (cells h)) &&
  forallb (fun x : nat * Cell => match children (body x.2) with
    | Some l => forallb (fun q => bool_decide (is_Some (cells h !! q))) l | None => false end) (map_to_list (cells h)) &&
  (bytes h =? u64 (total h (objects h))).

Lemma heap_check_ok h : heap_check h = true -> heap_ok h.
Proof.
  unfold heap_check. rewrite !andb_true_iff, !bool_decide_eq_true, Z.eqb_eq, forallb_forall. intros [[[Hd Hl] Hs] Hb]. constructor; try done.
  - intros p. rewrite <-elem_of_dom, <-Hl. by rewrite elem_of_list_to_set.
  - intros p c Hc. specialize (Hs (p, c)). rewrite <-list_elem_of_In, elem_of_map_to_list in Hs. specialize (Hs Hc). cbn [snd] in Hs.
    destruct (children (body c)) as [l|]; [|done]. exists l. split; [done|]. intros q Hq. rewrite forallb_forall in Hs.
    specialize (Hs q). rewrite <-list_elem_of_In, bool_decide_eq_true in Hs. by apply Hs.
Qed.

Definition heap_of {A} (m : M A) : GcHeap := default initial_heap (snd <$> m initial_heap).

(** A list in a list, both kept by a collection, and a string that is garbage then. *)
Definition settled_program : M unit :=
  _ ← gc_new_array 1; _ ← gc_new_array 1; gc_array_push 0 (Array 1);; gc_new_string [97];; gc_collect [Array 0; HeapString 2].

Definition settled_heap : GcHeap := heap_of settled_program.

Lemma settled_heap_ok : heap_ok settled_heap.
Proof. apply heap_check_ok. vm_compute. reflexivity. Qed.

Lemma settled_heap_settled : settled settled_heap.
Proof.
  intros p c Hc. assert (map_Forall (fun _ c => mark_ c = live_mark settled_heap) (cells settled_heap)) as H; [|by apply (H p)].
  apply (bool_decide_unpack _). vm_compute. exact I.
Qed.

Lemma settled_roots_ok : roots_ok settled_heap [Array 0].
Proof.
  intros v p ->%list_elem_of_singleton ->%list_elem_of_singleton. apply (bool_decide_unpack _). vm_compute. exact I.
Qed.

(** The string has no root any more. *)
Lemma gc_collect_frees_garbage_witness : settled settled_heap /\
  exists h', gc_collect [Array 0] settled_heap = Some (tt, h') /\ heap_ok h' /\
    forall p b, body <$> cells h' !! p = Some b <-> body <$> cells settled_heap !! p = Some b /\ reachable settled_heap [0%nat] p.
Proof.
  split; [exact settled_heap_settled|].
  exact (gc_collect_frees_garbage settled_heap [Array 0] settled_heap_ok settled_roots_ok settled_heap_settled).
Defined.

(** An array that has survived a collection, in a new array. *)
Definition mixed_program : M unit :=
  _ ← gc_new_array 1; gc_collect [Array 0];; _ ← gc_new_array 1; ok ← gc_array_push 1 (Array 0); mret tt.

Definition mixed_heap : GcHeap := heap_of mixed_program.

Lemma mixed_heap_ok : heap_ok mixed_heap.
Proof. apply heap_check_ok. vm_compute. reflexivity. Qed.

Lemma mixed_roots_ok : roots_ok mixed_heap [Array 1].
Proof.
  intros v p ->%list_elem_of_singleton ->%list_elem_of_singleton. apply (bool_decide_unpack _). vm_compute. exact I.
Qed.

Lemma gc_collect_keeps_witness : heap_ok mixed_heap /\
  exists h', gc_collect [Array 1] mixed_heap = Some (tt, h') /\ collected mixed_heap [Array 1] h' /\ settled h' /\
    NoDup (objects h') /\ (forall p, p ∈ objects h' <-> is_Some (cells h' !! p)) /\ bytes h' = u64 (total h' (objects h')) /\
    ((forall p q, has_mark (flip_mark (live_mark mixed_heap)) mixed_heap p -> child mixed_heap p q -> kept mixed_heap [Array 1] q) -> heap_ok h').
Proof. split; [exact mixed_heap_ok|]. exact (gc_collect_keeps mixed_heap [Array 1] mixed_heap_ok mixed_roots_ok). Defined.

(** The new array is the root and is kept, but as it bears the next live mark already
    the marking does not go through it: the old one is freed, and the pointer to it
    dangles. *)
Theorem collection_frees_reachable_cell : heap_ok mixed_heap /\ reachable mixed_heap [1%nat] 0 /\
  exists h', gc_collect [Array 1] mixed_heap = Some (tt, h') /\ child h' 1 0 /\ cells h' !! 0%nat = None /\ ~ heap_ok h'.
Proof.
  split; [exact mixed_heap_ok|]. split.
  - apply (reachable_child _ _ 1).
    + apply reachable_root; [apply list_elem_of_here|]. apply (bool_decide_unpack _). vm_compute. exact I.
    + eexists (mkCell GcMark_0 (ArrayCell (mkArray 1 1 [Array 0]))), [0%nat]. split; [vm_compute; reflexivity|]. split; [done|apply list_elem_of_here].
    + apply (bool_decide_unpack _). vm_compute. exact I.
  - set (h' := default initial_heap (snd <$> gc_collect [Array 1] mixed_heap)). exists h'.
    assert (child h' 1 0) as Hc.
    { eexists (mkCell GcMark_0 (ArrayCell (mkArray 1 1 [Array 0]))), [0%nat]. split; [vm_compute; reflexivity|]. split; [done|apply list_elem_of_here]. }
    assert (cells h' !! 0%nat = None) as Hn by (vm_compute; reflexivity).
    split; [vm_compute; reflexivity|]. split; [done|]. split; [done|]. intros Hok. destruct Hc as (c & l & Hp & Hl & Hq).
    destruct (ok_shapes _ Hok _ _ Hp) as (l' & Hl' & Hd). destruct (Hd 0%nat) as [c0 Hc0]; congruence.
Qed.

(** ** Root sets

    A [JsValue *] is an address; [deref] has the values of the program.  A provider
    visits pointers, null among them. *)

Record GcRootSet := mkRoots { globals_ : list nat; stack_ : list nat; frames_ : list nat; temps_ : list nat; providers_ : list nat }.

(** The place of a value, if it is there. *)
Fixpoint position_of (v : nat) (l : list nat) : option nat :=
  match l with [] => None | x :: l' => if (x =? v)%nat then Some 0%nat else S <$> position_of v l' end.

(** [l[i] = l.back(); l.pop_back()] for the first [i] with the value. *)
Definition remove_value (v : nat) (l : list nat) : list nat :=
  match position_of v l with Some i => removelast (<[i := default v (last l)]> l) | None => l end.

Definition push_pointer (v : option nat) (l : list nat) : list nat := match v with Some p => l ++ [p] | None => l end.

Definition add_global (v : option nat) (r : GcRootSet) : GcRootSet :=
  mkRoots (push_pointer v (globals_ r)) (stack_ r) (frames_ r) (temps_ r) (providers_ r).
Definition remove_global (v : nat) (r : GcRootSet) : GcRootSet :=
  mkRoots (remove_value v (globals_ r)) (stack_ r) (frames_ r) (temps_ r) (providers_ r).
Definition push_frame (r : GcRootSet) : GcRootSet :=
  mkRoots (globals_ r) (stack_ r) (frames_ r ++ [length (stack_ r)]) (temps_ r) (providers_ r).
Definition pop_frame (r : GcRootSet) : GcRootSet :=
  match last (frames_ r) with
  | None => r
  | Some size =>
      mkRoots (globals_ r) (if (size <? length (stack_ r))%nat then take size (stack_ r) else stack_ r) (removelast (frames_ r)) (temps_ r) (providers_ r)
  end.
Definition add_stack_root (v : option nat) (r : GcRootSet) : GcRootSet :=
  mkRoots (globals_ r) (push_pointer v (stack_ r)) (frames_ r) (temps_ r) (providers_ r).
Definition add_temp_root (v : option nat) (r : GcRootSet) : GcRootSet :=
  mkRoots (globals_ r) (stack_ r) (frames_ r) (push_pointer v (temps_ r)) (providers_ r).
Definition remove_temp_root (v : nat) (r : GcRootSet) : GcRootSet :=
  mkRoots (globals_ r) (stack_ r) (frames_ r) (remove_value v (temps_ r)) (providers_ r).
Definition add_provider (v : option nat) (r : GcRootSet) : GcRootSet :=
  mkRoots (globals_ r) (stack_ r) (frames_ r) (temps_ r) (push_pointer v (providers_ r)).
Definition remove_provider (v : nat) (r : GcRootSet) : GcRootSet :=
  mkRoots (globals_ r) (stack_ r) (frames_ r) (temps_ r) (remove_value v (providers_ r)).

(** [RootVisitor::visit] and [visit_range]. *)
Definition visit (value : option nat) (roots : list nat) : list nat := push_pointer value roots.
Definition visit_range (base : option nat) (count : nat) (roots : list nat) : list nat :=
  match base with Some b => if (count =? 0)%nat then roots else roots ++ seq b count | None => roots end.

Section Visit.
(** [provider->visit_roots(visitor)] *)
Context (visit_roots : nat -> list nat -> list nat).

Definition visit_all (r : GcRootSet) (roots : list nat) : list nat :=
  let roots := foldl (fun roots value => visit (Some value) roots) roots (globals_ r) in
  let roots := foldl (fun roots value => visit (Some value) roots) roots (stack_ r) in
  let roots := foldl (fun roots value => visit (Some value) roots) roots (temps_ r) in
  foldl (fun roots provider => visit_roots provider roots) roots (providers_ r).

(** [gc_collect(heap, roots)] *)
Definition gc_collect_roots (deref : nat -> JsValue) (r : GcRootSet) : M unit := gc_collect (deref <$> visit_all r []).

(** ** [ScriptRuntime] *)

Definition should_collect (next_bytes : Z) (h : GcHeap) : bool :=
  let used := bytes h in
  let threshold := threshold h in
  if threshold =? 0 then false else threshold <=? u64 (used + next_bytes).

Definition maybe_collect (deref : nat -> JsValue) (next_bytes : Z) (r : GcRootSet) : M unit := fun h =>
  if negb (should_collect next_bytes h) then Some (tt, h) else gc_collect_roots deref r h.

End Visit.

(** ** Handles

    [GcRootHandle]: a handle has the set it is bound to (there is one) and its value. *)

Record GcRootHandle := mkHandle { roots_ : bool; value_ : option nat }.

Definition null_handle : GcRootHandle := mkHandle false None.

Definition make_handle (value : option nat) (r : GcRootSet) : GcRootHandle * GcRootSet :=
  (mkHandle true value, match value with Some v => add_temp_root (Some v) r | None => r end).

Definition reset (x : GcRootHandle) (r : GcRootSet) : GcRootHandle * GcRootSet :=
  (null_handle, match roots_ x, value_ x with true, Some v => remove_temp_root v r | _, _ => r end).

(** The new handle and what is left of the other one. *)
Definition move_construct (other : GcRootHandle) : GcRootHandle * GcRootHandle := (other, null_handle).

(** For two handles that are not the same one. *)
Definition move_assign (x other : GcRootHandle) (r : GcRootSet) : GcRootHandle * GcRootHandle * GcRootSet :=
  let '(_, r) := reset x r in (other, null_handle, r).

(** *** What the sets hold *)

Lemma position_of_spec v l : v ∈ l -> exists l1 l2, l = l1 ++ v :: l2 /\ position_of v l = Some (length l1).
Proof.
  induction l as [|x l IH]; [by intros ?%elem_of_nil|]. intros H. cbn [position_of]. destruct (Nat.eqb_spec x v) as [->|Hne]; [by exists [], l|].
  apply elem_of_cons in H as [->|H]; [done|]. destruct (IH H) as (l1 & l2 & -> & ->). by exists (x :: l1), l2.
Qed.

Lemma remove_value_perm v l : v ∈ l -> l ≡ₚ v :: remove_value v l.
Proof.
  intros H. destruct (position_of_spec v l H) as (l1 & l2 & -> & E). unfold remove_value. rewrite E.
  rewrite insert_app_r_alt by lia. rewrite Nat.sub_diag. cbn [insert list_insert].
  destruct l2 as [|y l2 _] using rev_ind.
  - rewrite last_snoc. cbn [default]. rewrite removelast_last. by rewrite Permutation_app_comm.
  - rewrite app_comm_cons, app_assoc, last_snoc. cbn [default]. rewrite app_comm_cons, app_assoc, removelast_last.
    solve_Permutation.
Qed.

Lemma visit_all_spec visit_roots r : providers_ r = [] -> visit_all visit_roots r [] = globals_ r ++ stack_ r ++ temps_ r.
Proof.
  intros E. unfold visit_all. rewrite E. cbn [foldl].
  assert (forall l roots, foldl (fun roots value => visit (Some value) roots) roots l = roots ++ l) as H.
  { induction l as [|x l IH]; intros roots; cbn [foldl]; [by rewrite app_nil_r|]. rewrite IH. cbn. by rewrite <-app_assoc. }
  by rewrite !H, <-app_assoc.
Qed.

(** Leaving a frame takes back the stack roots that were added in it. *)
Lemma pop_push_frame vs r : pop_frame (foldr add_stack_root (push_frame r) vs) = r.
Proof.
  assert (forall r0, globals_ (foldr add_stack_root r0 vs) = globals_ r0 /\ frames_ (foldr add_stack_root r0 vs) = frames_ r0 /\
    temps_ (foldr add_stack_root r0 vs) = temps_ r0 /\ providers_ (foldr add_stack_root r0 vs) = providers_ r0 /\
    exists l, stack_ (foldr add_stack_root r0 vs) = stack_ r0 ++ l) as H.
  { intros r0. induction vs as [|v vs (H1 & H2 & H3 & H4 & l & H5)]; cbn [foldr]; [split_and!; try done; exists []; by rewrite app_nil_r|].
    cbn [add_stack_root globals_ frames_ temps_ providers_ stack_]. split_and!; [done|done|done|done|]. rewrite H5. destruct v as [v|]; cbn [push_pointer]; [exists (l ++ [v]); by rewrite app_assoc|by exists l]. }
  destruct (H (push_frame r)) as (H1 & H2 & H3 & H4 & l & H5). unfold pop_frame. rewrite H1, H2, H3, H4, H5. cbn [push_frame globals_ frames_ temps_ providers_ stack_].
  rewrite last_snoc, removelast_last. destruct r as [g s f t p].
  cbn [globals_ stack_ frames_ temps_ providers_]. f_equal. rewrite take_app_length, length_app.
  destruct (Nat.ltb_spec (length s) (length s + length l)); [done|]. destruct l; [by rewrite app_nil_r|cbn [length] in *; lia].
Qed.

(** The value a handle keeps alive. *)
Definition held (x : GcRootHandle) : option nat := if roots_ x then value_ x else None.

(** Handles in slots: made, moved into a new slot or another one, reset. *)
Inductive HandleOp := Make (value : option nat) | Move (from : nat) | Assign (to from : nat) | Reset_ (slot : nat).

Definition handle_step (s : list GcRootHandle * GcRootSet) (op : HandleOp) : list GcRootHandle * GcRootSet :=
  let '(hs, r) := s in
  match op with
  | Make value => let '(x, r) := make_handle value r in (hs ++ [x], r)
  | Move from => match hs !! from with Some x => let '(y, x) := move_construct x in (<[from := x]> hs ++ [y], r) | None => s end
  | Assign to from =>
      if (to =? from)%nat then s
      else match hs !! to, hs !! from with
           | Some x, Some y => let '(x, y, r) := move_assign x y r in (<[from := y]> (<[to := x]> hs), r)
           | _, _ => s
           end
  | Reset_ slot => match hs !! slot with Some x => let '(x, r) := reset x r in (<[slot := x]> hs, r) | None => s end
  end.

Definition handles_ok (s : list GcRootHandle * GcRootSet) : Prop := temps_ s.2 ≡ₚ omap held s.1.

Lemma omap_insert (hs : list GcRootHandle) i x y : hs !! i = Some x ->
  option_list (held y) ++ omap held hs ≡ₚ option_list (held x) ++ omap held (<[i := y]> hs).
Proof.
  intros Hi. apply list_elem_of_split_length in Hi as (l1 & l2 & -> & ->). rewrite insert_app_r_alt by lia. rewrite Nat.sub_diag.
  cbn [insert list_insert]. rewrite !omap_app. cbn [omap list_omap]. destruct (held x), (held y); cbn [option_list app]; solve_Permutation.
Qed.

Lemma reset_ok hs r i x : handles_ok (hs, r) -> hs !! i = Some x -> handles_ok (<[i := null_handle]> hs, (reset x r).2).
Proof.
  unfold handles_ok. cbn [fst snd]. intros H Hi. pose proof (omap_insert hs i x null_handle Hi) as E. cbn [held roots_ null_handle option_list app] in E.
  rewrite <-H in E. unfold reset, held in *. destruct x as [[] [v|]]; cbn [roots_ value_ snd option_list app] in *; try done.
  cbn [temps_ remove_temp_root]. rewrite (remove_value_perm v (temps_ r)) in E.
  - by apply Permutation_cons_inv in E.
  - rewrite E. apply list_elem_of_here.
Qed.

(** The temporary roots of the set are, at any time, the values of its handles: every
    value with a handle is a root, and no value stays a root after its handle. *)
Theorem handles_are_the_temps ops : handles_ok (foldl handle_step ([], mkRoots [] [] [] [] []) ops).
Proof.
  assert (handles_ok ([], mkRoots [] [] [] [] [])) as H by (unfold handles_ok; reflexivity). revert H. generalize ([] : list GcRootHandle, mkRoots [] [] [] [] []) as s.
  induction ops as [|op ops IH]; intros s H; [done|]. cbn [foldl]. apply IH. clear IH. destruct s as [hs r]. destruct op as [v|i|i j|i]; cbn [handle_step].
  - unfold handles_ok in *. cbn [fst snd make_handle] in *. rewrite omap_app. destruct v as [v|]; cbn; [by rewrite H|by rewrite app_nil_r].
  - destruct (hs !! i) as [x|] eqn:Hi; [|done]. unfold handles_ok in *. cbn [move_construct fst snd] in *. rewrite omap_app, H.
    pose proof (omap_insert hs i x null_handle Hi) as E. cbn [held roots_ null_handle option_list app] in E. rewrite E.
    rewrite Permutation_app_comm. f_equiv. unfold omap. cbn. by destruct (held x).
  - destruct (Nat.eqb_spec i j) as [|Hne]; [done|]. destruct (hs !! i) as [x|] eqn:Hi; [|done]. destruct (hs !! j) as [y|] eqn:Hj; [|done].
    unfold move_assign. destruct (reset x r) as [x' r'] eqn:Er. pose proof (reset_ok hs r i x H Hi) as H1. rewrite Er in H1.
    unfold handles_ok in *. cbn [fst snd] in *. rewrite H1.
    pose proof (omap_insert (<[i := null_handle]> hs) i null_handle y ltac:(rewrite list_lookup_insert_eq; [done|by eapply lookup_lt_Some])) as E1.
    rewrite list_insert_insert_eq in E1. cbn [held roots_ null_handle option_list app] in E1.
    pose proof (omap_insert (<[i := y]> hs) j y null_handle ltac:(by rewrite list_lookup_insert_ne)) as E2.
    cbn [held roots_ null_handle option_list app] in E2. rewrite <-E1 in E2. by apply Permutation_app_inv_l in E2.
  - destruct (hs !! i) as [x|] eqn:Hi; [|done]. pose proof (reset_ok hs r i x H Hi) as H1. unfold reset in *. done.
Qed.

End Collect.
