(* ===== verification/JsIterator.v ===== *)
(** * Arrays and iterators
    (the array refinement; the iterator functions of [src/common/json/JsGc.cpp])

    An array is a list: the operations of [JsHeap] on the cell refine those on the list
    of its values.  An iterator over an array or an object that is not changed delivers
    every entry once, in order. *)
From S2P Require Import Prelude JsText JsHeap JsObject JsObjectMap.

Module Iterators.
Import Gc Objects ObjectMap.

(** ** Iterators *)

Definition new_iterator (iterates_array : bool) (m : GcIteratorMode) (v : Z) (a o : option nat) (c : option nat) : GcIterator :=
  mkIterator iterates_array m v false a o 0 c [] 0 Undefined Undefined false.

Definition gc_new_array_iterator (arr : option nat) (m : GcIteratorMode) : M (option nat) :=
  hdr ← gc_alloc_raw;
  match hdr with
  | None => mret None
  | Some hdr =>
      v ← (match arr with Some p => a ← load_array p; mret (version a) | None => mret 0 end);
      p ← gc_link hdr (IteratorCell (new_iterator true m v arr None None)); mret (Some p)
  end.

Definition gc_new_object_iterator (obj : option nat) (m : GcIteratorMode) : M (option nat) :=
  hdr ← gc_alloc_raw;
  match hdr with
  | None => mret None
  | Some hdr =>
      vc ← (match obj with Some p => o ← load_object p; mret (object_version o, head o) | None => mret (0, None) end);
      p ← gc_link hdr (IteratorCell (new_iterator false m (vc : Z * option nat).1 None obj (vc : Z * option nat).2)); mret (Some p)
  end.

(** A new array of the two; [None] if there is no memory. *)
Definition build_entry_array (k v : JsValue) : M (option JsValue) :=
  result ← make_array 2;
  match result with
  | Array gc =>
      a ← load_array gc;
      l ← put 0 k (elems a);
      l ← put 1 v l;
      store gc (ArrayCell (mkArray 2 (u64 (version a + 1)) l));; mret (Some result)
  | _ => mret None
  end.

Fixpoint snapshot_loop (es : list GcObjectEntry) (fuel : nat) (cursor : option nat) : M (list nat) :=
  match cursor, fuel with
  | None, _ => mret []
  | Some _, O => fault
  | Some c, S fuel' =>
      e ← some_or_fault (es !! c);
      rest ← snapshot_loop es fuel' (next_order e);
      mret (match key e with Some k => if occupied e then k :: rest else rest | None => rest end)
  end.

Definition with_snapshot (keys : list nat) (i : GcIterator) : GcIterator :=
  mkIterator (iterates_array i) (mode i) (expected_version i) true (array i) (object i) (index i) (cursor i) keys 0
    (current_key i) (current_value i) (has_current i).

Definition build_object_snapshot (i : GcIterator) (o : GcObject) : M (bool * GcIterator) :=
  keys ← snapshot_loop (entries o) (length (entries o)) (cursor i);
  match keys with
  | [] => mret (true, with_snapshot [] i)
  | _ => ok ← alloc; if ok : bool then mret (true, with_snapshot keys i) else mret (false, with_snapshot [] i)
  end.

Definition with_current (k v : JsValue) (i : GcIterator) : GcIterator :=
  mkIterator (iterates_array i) (mode i) (expected_version i) (using_snapshot i) (array i) (object i) (index i) (cursor i)
    (snapshot_keys i) (snapshot_index i) k v true.
Definition without_current (i : GcIterator) : GcIterator :=
  mkIterator (iterates_array i) (mode i) (expected_version i) (using_snapshot i) (array i) (object i) (index i) (cursor i)
    (snapshot_keys i) (snapshot_index i) Undefined Undefined false.
Definition with_index (n : nat) (v : Z) (i : GcIterator) : GcIterator :=
  mkIterator (iterates_array i) (mode i) v (using_snapshot i) (array i) (object i) n (cursor i)
    (snapshot_keys i) (snapshot_index i) (current_key i) (current_value i) (has_current i).
Definition with_cursor (c : option nat) (i : GcIterator) : GcIterator :=
  mkIterator (iterates_array i) (mode i) (expected_version i) (using_snapshot i) (array i) (object i) (index i) c
    (snapshot_keys i) (snapshot_index i) (current_key i) (current_value i) (has_current i).
Definition with_snapshot_index (n : nat) (i : GcIterator) : GcIterator :=
  mkIterator (iterates_array i) (mode i) (expected_version i) (using_snapshot i) (array i) (object i) (index i) (cursor i)
    (snapshot_keys i) n (current_key i) (current_value i) (has_current i).

(** The result of [gc_iterator_next], [out] and [done]. *)
Record Next := mkNext { success : bool; out : JsValue; done_ : bool }.

(** The entry is delivered in the mode of the iterator. *)
Definition yield (k v : JsValue) (i : GcIterator) : M (Next * GcIterator) :=
  match mode i with
  | Keys => mret (mkNext true k false, with_current k Undefined i)
  | Values => mret (mkNext true v false, with_current k v i)
  | Entries =>
      both ← build_entry_array k v;
      match both with
      | None => mret (mkNext false Undefined false, i)
      | Some both => mret (mkNext true both false, with_current k v i)
      end
  end.

Definition at_end (i : GcIterator) : Next * GcIterator := (mkNext true Undefined true, i).

Definition next_of_array (i : GcIterator) : M (Next * GcIterator) :=
  match array i with
  | None => mret (at_end i)
  | Some arr =>
      a ← load_array arr;
      let i := with_index (index i) (version a) i in
      if (size a <=? index i)%nat then mret (at_end i)
      else
        let idx := index i in
        let i := with_index (S idx) (expected_version i) i in
        v ← some_or_fault (elems a !! idx);
        yield (Integer (Z.of_nat idx)) v i
  end.

Definition next_of_snapshot (obj : nat) (i : GcIterator) : M (Next * GcIterator) :=
  match snapshot_keys i !! snapshot_index i with
  | None => mret (at_end i)
  | Some k =>
      found ← gc_object_get obj k;
      yield (HeapString k) (default Undefined found) (with_snapshot_index (S (snapshot_index i)) i)
  end.

Fixpoint cursor_loop (o : GcObject) (fuel : nat) (i : GcIterator) : M (Next * GcIterator) :=
  match cursor i, fuel with
  | None, _ => mret (at_end i)
  | Some _, O => fault
  | Some c, S fuel' =>
      e ← entry_at c o;
      let i := with_cursor (next_order e) i in
      match key e with
      | Some k => if occupied e then yield (HeapString k) (value e) i else cursor_loop o fuel' i
      | None => cursor_loop o fuel' i
      end
  end.

Definition next_of_object (i : GcIterator) : M (Next * GcIterator) :=
  match object i with
  | None => mret (at_end i)
  | Some obj =>
      o ← load_object obj;
      r ← (if negb (using_snapshot i) && negb (expected_version i =? object_version o) then build_object_snapshot i o else mret (true, i));
      let '(ok, i) := (r : bool * GcIterator) in
      if negb ok then mret (mkNext false Undefined true, i)
      else if using_snapshot i then next_of_snapshot obj i
      else cursor_loop o (length (entries o)) i
  end.

Definition gc_iterator_next (iter : nat) : M Next :=
  i ← load_iterator iter;
  let i := without_current i in
  r ← (if iterates_array i then next_of_array i else next_of_object i);
  let '(n, i) := (r : Next * GcIterator) in
  store iter (IteratorCell i);; mret n.

(** ** Arrays as lists *)

(** [a] has the values [l], with room behind them. *)
Definition content (a : GcArray) (l : list JsValue) : Prop := size a = length l /\ small_buffer a /\ exists rest, elems a = l ++ rest.

Definition array_is (h : GcHeap) (p : nat) (l : list JsValue) : Prop :=
  exists c a, cells h !! p = Some c /\ body c = ArrayCell a /\ content a l.

Lemma load_array_run h p c a : cells h !! p = Some c -> body c = ArrayCell a -> load_array p h = Some (a, h).
Proof. intros Hc Hb. unfold load_array, load, mbind, M_bind. by rewrite Hc, Hb. Qed.

Lemma store_array_run h p c a l : cells h !! p = Some c -> content a l ->
  exists h', store p (ArrayCell a) h = Some (tt, h') /\ array_is h' p l /\ answers h' = answers h.
Proof.
  intros Hc Ha. unfold store. rewrite Hc. eexists. split; [done|]. split; [|done]. eexists _, a. cbn. by rewrite lookup_insert_eq.
Qed.

Lemma put_run i v (l : list JsValue) h : (i < length l)%nat -> put i v l h = Some (<[i := v]> l, h).
Proof. intros Hi. unfold put. by rewrite (proj2 (Nat.ltb_lt _ _) Hi). Qed.

(** The end of growing, also that of the JSON parser. *)
Lemma move_elems_run h p l c a n expected : cells h !! p = Some c -> body c = ArrayCell a -> content a l ->
  (expected <= n)%nat -> Z.of_nat n < 2 ^ 59 ->
  exists ok h', move_elems p n h = Some (ok, h') /\ array_is h' p l /\ (false ∈ answers h' -> false ∈ answers h) /\
    (ok = false -> false ∈ answers h) /\
    (ok = true -> exists c a, cells h' !! p = Some c /\ body c = ArrayCell a /\ content a l /\ (expected <= length (elems a))%nat).
Proof.
  intros Hc Hb (Hs & Hw & rest & He) Hn Hn59. unfold move_elems. rewrite (m_bind_run _ _ _ _ _ (load_array_run _ _ _ _ Hc Hb)).
  destruct (alloc_run h) as (ok & h1 & E1 & Hl & Ha). rewrite <-(alloc_array_small sizeof_JsValue n) in E1 by (unfold sizeof_JsValue; lia).
  rewrite (m_bind_run _ _ _ _ _ E1).
  assert (false ∈ answers h1 -> false ∈ answers h) as Hback by by destruct Hl as (x & -> & Hx).
  assert (cells h1 !! p = Some c) as Hc1 by by rewrite (later_cells _ _ _ Hl). destruct ok.
  - set (a' := mkArray (size a) (version a) (take (size a) (elems a) ++ replicate (n - size a) Undefined)).
    assert (length (elems a') = Nat.max n (length l)) as Hlen.
    { cbn. rewrite length_app, length_take, length_replicate, He, length_app, Hs. lia. }
    assert (content a' l) as Hca.
    { split; [done|]. split; [unfold small_buffer in *; rewrite Hlen, He, length_app in *; lia|].
      exists (replicate (n - size a) Undefined). cbn. rewrite He, Hs. by rewrite take_app_length. }
    destruct (store_array_run h1 p c a' l Hc1 Hca) as (h2 & E2 & Hp & Han). rewrite (m_bind_run _ _ _ _ _ E2).
    exists true, h2. split; [done|]. split; [done|]. split; [by rewrite Han|]. split; [done|]. intros _.
    unfold store in E2. rewrite Hc1 in E2. injection E2 as <-. eexists _, a'. cbn [set_cells cells]. rewrite lookup_insert_eq. split; [done|].
    split; [done|]. split; [done|]. lia.
  - exists false, h1. split; [done|]. split; [|by split_and!]. exists c, a. split; [done|]. split; [done|]. exact (conj Hs (conj Hw (ex_intro _ rest He))).
Qed.

Section Reserve.
Context (h : GcHeap) (p expected : nat) (l : list JsValue).

Lemma array_reserve_run : array_is h p l -> (length l <= expected)%nat -> Z.of_nat expected <= 2 ^ 58 ->
  exists ok h', gc_array_reserve p expected h = Some (ok, h') /\ array_is h' p l /\ (false ∈ answers h' -> false ∈ answers h) /\
    (ok = false -> false ∈ answers h) /\
    (ok = true -> exists c a, cells h' !! p = Some c /\ body c = ArrayCell a /\ content a l /\ (expected <= length (elems a))%nat).
Proof.
  intros (c & a & Hc & Hb & Hs & Hw & rest & He) Hle Hb58. unfold gc_array_reserve.
  rewrite (m_bind_run _ _ _ _ _ (load_array_run _ _ _ _ Hc Hb)).
  destruct (Nat.leb_spec expected (length (elems a))) as [Hcap|Hcap].
  { assert (content a l) as Hca by exact (conj Hs (conj Hw (ex_intro _ rest He))).
    exists true, h. split; [done|]. split; [by exists c, a|]. split; [done|]. split; [done|]. intros _. by exists c, a. }
  unfold small_buffer in Hw.
  destruct (grown_capacity_run (if (length (elems a) =? 0)%nat then 1 else u64 (Z.of_nat (length (elems a)) * 2)) expected h)
    as (n & En & Hn1 & Hn2 & Hn3); [|lia|].
  { destruct (Nat.eqb_spec (length (elems a)) 0); [lia|]. rewrite wrap_small by (unfold in_width; lia). lia. }
  rewrite (m_bind_run _ _ _ _ _ En). apply (move_elems_run h p l c a n expected Hc Hb); [exact (conj Hs (conj Hw (ex_intro _ rest He)))|done|].
  destruct (Nat.eqb_spec (length (elems a)) 0); [lia|]. rewrite wrap_small in Hn3 by (unfold in_width; lia). lia.
Qed.

End Reserve.

Inductive ArrayOp :=
  | ArrayGet (i : nat) | ArraySet (i : nat) (v : JsValue) | ArrayPush (v : JsValue) | ArrayPop | ArrayInsert (i : nat) (v : JsValue)
  | ArrayRemove (i : nat).

Definition run_array (p : nat) (op : ArrayOp) : M Result :=
  match op with
  | ArrayGet i => v ← gc_array_get p i; mret (Value v)
  | ArraySet i v => ok ← gc_array_set p i v; mret (Done ok)
  | ArrayPush v => ok ← gc_array_push p v; mret (Done ok)
  | ArrayPop => v ← gc_array_pop p; mret (Value v)
  | ArrayInsert i v => ok ← gc_array_insert p i v; mret (Done ok)
  | ArrayRemove i => v ← gc_array_remove p i; mret (Value v)
  end.

Fixpoint run_array_all (p : nat) (ops : list ArrayOp) : M (list Result) :=
  match ops with [] => mret [] | op :: ops' => r ← run_array p op; rs ← run_array_all p ops'; mret (r :: rs) end.

(** What an operation answers and leaves. *)
Definition list_step (refused : Prop) (l : list JsValue) (op : ArrayOp) (r : Result) (l' : list JsValue) : Prop :=
  match op, r with
  | ArrayGet i, Value v => v = l !! i /\ l' = l
  | ArraySet i v, Done true => l' = if (i <? length l)%nat then <[i := v]> l else l ++ replicate (i - length l) Undefined ++ [v]
  | ArraySet i _, Done false => refused /\ (length l <= i)%nat /\ l' = l
  | ArrayPush v, Done true => l' = l ++ [v]
  | ArrayInsert i v, Done true => l' = take i l ++ v :: drop i l
  | ArrayPush _, Done false | ArrayInsert _ _, Done false => refused /\ l' = l
  | ArrayPop, Value v => v = last l /\ l' = removelast l
  | ArrayRemove i, Value v => v = l !! i /\ l' = take i l ++ drop (S i) l
  | _, _ => False
  end.

Fixpoint list_steps (refused : Prop) (l : list JsValue) (ops : list ArrayOp) (rs : list Result) (l' : list JsValue) : Prop :=
  match ops, rs with
  | [], [] => l' = l
  | op :: ops', r :: rs' => exists l1, list_step refused l op r l1 /\ list_steps refused l1 ops' rs' l'
  | _, _ => False
  end.

(** A list inside a longer one. *)
Lemma insert_in i v (l rest : list JsValue) : (i < length l)%nat -> <[i := v]> (l ++ rest) = <[i := v]> l ++ rest.
Proof. intros Hi. by rewrite insert_app_l. Qed.

Lemma lookup_in i (l rest : list JsValue) : (i < length l)%nat -> (l ++ rest) !! i = l !! i.
Proof. intros Hi. by rewrite lookup_app_l. Qed.

(** How long the list is afterwards, at most. *)
Definition reach (l : list JsValue) (op : ArrayOp) : Z :=
  match op with ArraySet i _ => Z.max (Z.of_nat i) (Z.of_nat (length l)) + 1 | _ => Z.of_nat (length l) + 1 end.

Section ArraySteps.
Context (h : GcHeap) (p : nat) (l : list JsValue) (Hp : array_is h p l).

(** What each operation comes to. *)
Definition does (m : M Result) (op : ArrayOp) : Prop :=
  exists r h' l', m h = Some (r, h') /\ list_step (false ∈ answers h) l op r l' /\ array_is h' p l' /\ (false ∈ answers h' -> false ∈ answers h).

Lemma get_does i : does (run_array p (ArrayGet i)) (ArrayGet i).
Proof.
  destruct Hp as (c & a & Hc & Hb & Hs & Hw & rest & He). unfold does. cbn [run_array]. unfold gc_array_get. rewrite m_bind_assoc.
  rewrite (m_bind_run _ _ _ _ _ (load_array_run _ _ _ _ Hc Hb)). rewrite Hs. destruct (Nat.leb_spec (length l) i) as [Hi|Hi].
  - eexists _, h, l. split; [done|]. split; [cbn; by rewrite lookup_ge_None_2 by lia|]. done.
  - rewrite m_bind_assoc. destruct (lookup_lt_is_Some_2 l i Hi) as [v Hv].
    rewrite (m_bind_run _ _ h v h) by (unfold some_or_fault; by rewrite He, lookup_in, Hv).
    eexists _, h, l. split; [done|]. split; [cbn; by rewrite Hv|]. done.
Qed.

(** An answer after the array has been stored. *)
Lemma store_does h1 c a r op l' (k : unit -> M Result) : cells h1 !! p = Some c -> content a l' -> (false ∈ answers h1 -> false ∈ answers h) ->
  (forall h', k tt h' = Some (r, h')) -> list_step (false ∈ answers h) l op r l' ->
  exists r' h' l'', (store p (ArrayCell a) ≫= k) h1 = Some (r', h') /\ list_step (false ∈ answers h) l op r' l'' /\ array_is h' p l'' /\
    (false ∈ answers h' -> false ∈ answers h).
Proof.
  intros Hc Ha Han Hk Hr. destruct (store_array_run h1 p c a l' Hc Ha) as (h' & E & Hp' & E2). rewrite (m_bind_run _ _ _ _ _ E).
  exists r, h', l'. split; [apply Hk|]. split; [done|]. split; [done|]. by rewrite E2.
Qed.

Lemma pop_does : does (run_array p ArrayPop) ArrayPop.
Proof.
  destruct Hp as (c & a & Hc & Hb & Hs & Hw & rest & He). unfold does. cbn [run_array]. unfold gc_array_pop. rewrite m_bind_assoc.
  rewrite (m_bind_run _ _ _ _ _ (load_array_run _ _ _ _ Hc Hb)). destruct (size a) as [|idx] eqn:Ea.
  - symmetry in Hs. apply nil_length_inv in Hs as ->. by eexists _, h, [].
  - assert (exists l' v, l = l' ++ [v]) as (l' & v & El) by (destruct (exists_last (l := l)) as (l' & v & ->); [by intros ->|by exists l', v]).
    rewrite El in Hs, He. rewrite length_app in Hs. cbn in Hs. assert (idx = length l') as -> by lia. clear Hs.
    rewrite m_bind_assoc, (m_bind_run _ _ h v h) by (unfold some_or_fault; rewrite He, <-app_assoc; cbn [app]; by rewrite list_lookup_middle).
    rewrite m_bind_assoc. rewrite (m_bind_run _ _ _ _ _ (put_run (length l') Undefined (elems a) h ltac:(rewrite He, !length_app; cbn; lia))).
    rewrite m_bind_assoc. eapply (store_does h); [exact Hc| |done|reflexivity|].
    + split; [done|]. split; [by unfold small_buffer; cbn; rewrite length_insert|].
      exists (Undefined :: rest). cbn. rewrite He, <-app_assoc. rewrite insert_app_r_alt by lia. by rewrite Nat.sub_diag.
    + cbn. rewrite El, last_snoc, removelast_last. done.
Qed.

Lemma remove_does i : does (run_array p (ArrayRemove i)) (ArrayRemove i).
Proof.
  destruct Hp as (c & a & Hc & Hb & Hs & Hw & rest & He). unfold does. cbn [run_array]. unfold gc_array_remove. rewrite m_bind_assoc.
  rewrite (m_bind_run _ _ _ _ _ (load_array_run _ _ _ _ Hc Hb)). rewrite Hs. destruct (Nat.leb_spec (length l) i) as [Hi|Hi].
  - eexists _, h, l. split; [done|]. split; [|done]. cbn [list_step]. rewrite lookup_ge_None_2, take_ge, drop_ge by lia. by rewrite app_nil_r.
  - destruct (lookup_lt_is_Some_2 l i Hi) as [v Hv]. rewrite m_bind_assoc.
    rewrite (m_bind_run _ _ h v h) by (unfold some_or_fault; by rewrite He, lookup_in, Hv).
    rewrite (proj2 (Nat.leb_le _ _)) by (rewrite He, length_app; lia). rewrite m_bind_assoc.
    eapply (store_does h); [exact Hc| |done|reflexivity|cbn; split; [by rewrite Hv|reflexivity]].
    split; [cbn; rewrite length_app, length_take, length_drop; lia|].
    split; [unfold small_buffer in *; cbn; rewrite !length_app; cbn; rewrite !length_take, !length_drop; rewrite He, length_app in *; lia|].
    exists (Undefined :: rest). cbn [elems]. rewrite He.
    rewrite (take_app_le l rest i) by lia. rewrite (drop_app_le l rest (i + 1)) by lia. rewrite (drop_app_length l rest).
    rewrite (take_app_le (drop (i + 1) l) rest) by (rewrite length_drop; lia). rewrite (take_ge (drop (i + 1) l)) by (rewrite length_drop; lia).
    rewrite <-app_assoc. by replace (i + 1)%nat with (S i) by lia.
Qed.

Lemma push_does v : reach l (ArrayPush v) <= 2 ^ 58 -> does (run_array p (ArrayPush v)) (ArrayPush v).
Proof.
  intros Hr. unfold reach in Hr. pose proof Hp as (c & a & Hc & Hb & Hs & Hw & rest & He). unfold does. cbn [run_array]. unfold gc_array_push. rewrite m_bind_assoc.
  rewrite (m_bind_run _ _ _ _ _ (load_array_run _ _ _ _ Hc Hb)). rewrite m_bind_assoc.
  destruct (array_reserve_run h p (size a + 1) l Hp ltac:(lia) ltac:(lia)) as (ok & h1 & E & Hp1 & Han & Hf & Hok). rewrite (m_bind_run _ _ _ _ _ E). destruct ok.
  - destruct (Hok eq_refl) as (c1 & a1 & Hc1 & Hb1 & (Hs1 & Hw1 & rest1 & He1) & Hcap). rewrite m_bind_assoc.
    rewrite (m_bind_run _ _ _ _ _ (load_array_run _ _ _ _ Hc1 Hb1)). rewrite m_bind_assoc.
    rewrite (m_bind_run _ _ _ _ _ (put_run (size a1) v (elems a1) h1 ltac:(lia))). rewrite m_bind_assoc.
    eapply (store_does h1); [exact Hc1| |exact Han|reflexivity|reflexivity]. split; [cbn; rewrite length_app; cbn; lia|]. split; [by unfold small_buffer; cbn; rewrite length_insert|].
    destruct rest1 as [|x rest1]; [exfalso; rewrite He1, length_app in Hcap; cbn in Hcap; lia|]. exists rest1. cbn [elems].
    rewrite He1, Hs1, insert_app_r_alt by lia. rewrite Nat.sub_diag, <-app_assoc. done.
  - eexists _, h1, l. split; [done|]. by split; [split; [apply Hf|]|].
Qed.

Lemma insert_does i v : reach l (ArrayInsert i v) <= 2 ^ 58 -> does (run_array p (ArrayInsert i v)) (ArrayInsert i v).
Proof.
  intros Hr. unfold reach in Hr. pose proof Hp as (c & a & Hc & Hb & Hs & Hw & rest & He). unfold does. cbn [run_array]. unfold gc_array_insert. rewrite m_bind_assoc.
  rewrite (m_bind_run _ _ _ _ _ (load_array_run _ _ _ _ Hc Hb)). cbn zeta. rewrite m_bind_assoc.
  destruct (array_reserve_run h p (size a + 1) l Hp ltac:(lia) ltac:(lia)) as (ok & h1 & E & Hp1 & Han & Hf & Hok). rewrite (m_bind_run _ _ _ _ _ E). destruct ok.
  - destruct (Hok eq_refl) as (c1 & a1 & Hc1 & Hb1 & (Hs1 & Hw1 & rest1 & He1) & Hcap). rewrite m_bind_assoc.
    rewrite (m_bind_run _ _ _ _ _ (load_array_run _ _ _ _ Hc1 Hb1)). rewrite (proj2 (Nat.ltb_lt _ _)) by lia. rewrite m_bind_assoc.
    eapply (store_does h1); [exact Hc1| |exact Han|reflexivity|reflexivity]. rewrite Hs, Hs1. set (j := Nat.min i (length l)).
    assert (take i l = take j l /\ drop i l = drop j l) as [-> ->].
    { subst j. destruct (Nat.le_gt_cases i (length l)); [by rewrite Nat.min_l by done|]. rewrite Nat.min_r by lia. by rewrite !take_ge, !drop_ge by lia. }
    assert (j <= length l)%nat as Hj by lia. clearbody j. split; [|split].
    + cbn. rewrite length_app. cbn. rewrite length_take, length_drop. lia.
    + unfold small_buffer in *. cbn. rewrite length_app. cbn. rewrite length_app, !length_take, !length_drop. lia.
    + destruct rest1 as [|x rest1]; [exfalso; rewrite He1, length_app in Hcap; cbn in Hcap; lia|]. exists rest1. cbn [elems]. rewrite He1.
      rewrite (take_app_le l _ j) by lia. rewrite (drop_app_le l _ j) by lia. rewrite (take_app_le (drop j l)) by (rewrite length_drop; lia).
      rewrite (take_ge (drop j l)) by (rewrite length_drop; lia). rewrite (drop_app_ge l _ (length l + 1)) by lia.
      replace (length l + 1 - length l)%nat with 1%nat by lia. cbn [drop]. rewrite <-app_assoc. cbn [app]. rewrite ?drop_0. by rewrite <-?app_assoc.
  - eexists _, h1, l. split; [done|]. by split; [split; [apply Hf|]|].
Qed.

Lemma set_does i v : reach l (ArraySet i v) <= 2 ^ 58 -> does (run_array p (ArraySet i v)) (ArraySet i v).
Proof.
  intros Hr. unfold reach in Hr. pose proof Hp as (c & a & Hc & Hb & Hs & Hw & rest & He). unfold does. cbn [run_array]. unfold gc_array_set. rewrite m_bind_assoc.
  rewrite (m_bind_run _ _ _ _ _ (load_array_run _ _ _ _ Hc Hb)). rewrite Hs. destruct (Nat.ltb_spec i (length l)) as [Hi|Hi].
  - rewrite m_bind_assoc. rewrite (m_bind_run _ _ _ _ _ (put_run i v (elems a) h ltac:(rewrite He, length_app; lia))). rewrite m_bind_assoc.
    eapply (store_does h); [exact Hc| |done|reflexivity|cbn [list_step]; rewrite (proj2 (Nat.ltb_lt _ _) Hi); reflexivity].
    split; [by rewrite length_insert|]. split; [by unfold small_buffer; cbn; rewrite length_insert|]. exists rest. cbn. by rewrite He, insert_in.
  - rewrite m_bind_assoc, (size_add_small i 1) by lia.
    destruct (array_reserve_run h p (i + 1) l Hp ltac:(lia) ltac:(lia)) as (ok & h1 & E & Hp1 & Han & Hf & Hok). rewrite (m_bind_run _ _ _ _ _ E). destruct ok.
    + destruct (Hok eq_refl) as (c1 & a1 & Hc1 & Hb1 & (Hs1 & Hw1 & rest1 & He1) & Hcap). rewrite m_bind_assoc.
      rewrite (m_bind_run _ _ _ _ _ (load_array_run _ _ _ _ Hc1 Hb1)). rewrite (proj2 (Nat.ltb_lt _ _)) by lia. rewrite m_bind_assoc.
      eapply (store_does h1); [exact Hc1| |exact Han|reflexivity|cbn [list_step]; rewrite (proj2 (Nat.ltb_ge _ _) Hi); reflexivity].
      split; [cbn; rewrite !length_app, length_replicate; cbn; lia|].
      split; [unfold small_buffer in *; cbn; rewrite !length_app, length_replicate; cbn; rewrite length_take, length_drop; lia|]. exists (drop (i + 1) (elems a1)). cbn [elems].
      rewrite Hs1, He1, take_app_length, <-!app_assoc. done.
    + eexists _, h1, l. split; [done|]. by split; [split; [apply Hf|]|].
Qed.

Lemma array_step op : reach l op <= 2 ^ 58 -> does (run_array p op) op.
Proof.
  intros Hr. destruct op; [apply get_does|by apply set_does|by apply push_does|apply pop_does|by apply insert_does|apply remove_does].
Qed.

End ArraySteps.

Lemma list_step_length refused l op r l' : list_step refused l op r l' -> Z.of_nat (length l') <= reach l op.
Proof.
  destruct op as [i|i v|v| |i v|i], r as [|[]|]; cbn [list_step reach]; try done; intros; destruct_and?; subst; try lia.
  - destruct (i <? length l)%nat eqn:E; [rewrite length_insert; lia|]. apply Nat.ltb_ge in E. rewrite !length_app, length_replicate. cbn. lia.
  - rewrite length_app. cbn. lia.
  - rewrite removelast_firstn_len, length_take. lia.
  - rewrite length_app. cbn. rewrite length_take, length_drop. lia.
  - rewrite length_app, length_take, length_drop. lia.
Qed.

(** The positions that are set, with the number of operations, are below 2^58. *)
Definition within (n : Z) (op : ArrayOp) : Prop := match op with ArraySet i _ => Z.of_nat i <= n | _ => True end.

Lemma array_steps n ops : forall h p l, array_is h p l -> Forall (within n) ops -> Z.of_nat (length l) <= n ->
  n + Z.of_nat (length ops) <= 2 ^ 58 ->
  exists rs h' l', run_array_all p ops h = Some (rs, h') /\ list_steps (false ∈ answers h) l ops rs l' /\ array_is h' p l'.
Proof.
  revert n. induction ops as [|op ops IH]; intros n h p l Hp Hw Hl Hn; [by exists [], h, l|].
  apply Forall_cons in Hw as [Hop Hw]. cbn [length] in Hn.
  assert (reach l op <= n + 1) as Hreach by (destruct op; cbn [reach within] in *; lia).
  destruct (array_step h p l Hp op ltac:(lia)) as (r & h1 & l1 & E & Hr & Hp1 & Han). cbn [run_array_all]. rewrite (m_bind_run _ _ _ _ _ E).
  pose proof (list_step_length _ _ _ _ _ Hr) as Hlen.
  destruct (IH (n + 1) h1 p l1 Hp1) as (rs & h2 & l2 & E2 & Hrs & Hp2); [|lia|lia|].
  { eapply Forall_impl; [exact Hw|]. intros []; cbn [within]; lia. }
  rewrite (m_bind_run _ _ _ _ _ E2). eexists _, h2, l2. split; [done|].
  split; [|done]. exists l1. split; [done|]. revert Hrs. clear -Han. revert l1 rs. induction ops as [|op ops IH]; intros l1 [|r rs]; try done.
  cbn [list_steps]. intros (l3 & H1 & H2). exists l3. split; [|by apply IH]. revert H1. destruct op, r as [|[]|]; cbn [list_step]; naive_solver.
Qed.

(** C30. A script array is a list: any sequence of [gc_array_get], [gc_array_set],
    [gc_array_push], [gc_array_pop], [gc_array_insert] and [gc_array_remove] on an array
    that [gc_new_array] made answers what the same operations on a list answer, a
    position behind the end being filled up with undefined values, and leaves the array
    with that list, through all growth.  A creation, or an operation that needs more
    room, can fail, without effect, if the allocator has refused, and only then.  The
    capacity asked for is below 2^59, and each position that is set, together with the
    number of operations, is at most 2^58: then no size of a buffer wraps. *)
Theorem array_is_list h capacity n ops : Z.of_nat capacity < 2 ^ 59 ->
  Forall (within n) ops -> 0 <= n -> n + Z.of_nat (length ops) <= 2 ^ 58 ->
  exists r h1, gc_new_array capacity h = Some (r, h1) /\
  match r with
  | None => false ∈ answers h
  | Some p => exists rs h2 l, run_array_all p ops h1 = Some (rs, h2) /\ list_steps (false ∈ answers h1) [] ops rs l /\ array_is h2 p l
  end.
Proof.
  intros Hcap Hw H0 Hn. rewrite gc_new_array_small by done.
  unfold gc_new, gc_alloc_raw. destruct (alloc_run h) as (ok & h1 & E1 & Hl1 & Ha1). unfold mbind, M_bind at 1. rewrite E1.
  destruct ok; [|exists None, h1; split; [done|by apply Ha1]].
  set (b := ArrayCell _). assert (forall h2, later h h2 -> exists r h3, (p ← gc_link (flip_mark (live_mark h1)) b; mret (Some p)) h2 = Some (r, h3) /\
    match r with None => false ∈ answers h | Some p => exists rs h4 l, run_array_all p ops h3 = Some (rs, h4) /\
      list_steps (false ∈ answers h3) [] ops rs l /\ array_is h4 p l end) as Hend.
  { intros h2 _. eexists _, _. split; [done|]. apply (array_steps n); [|done|done|done]. eexists _, (mkArray 0 0 (replicate capacity Undefined)). cbn.
    rewrite lookup_insert_eq. split; [done|]. split; [done|]. split; [done|]. split; [|by eexists].
    unfold small_buffer. cbn. by rewrite length_replicate. }
  destruct (negb (capacity =? 0)%nat); [|by apply Hend].
  destruct (alloc_run h1) as (ok & h2 & E2 & Hl2 & Ha2). unfold mbind, M_bind at 1. rewrite E2. pose proof (later_trans _ _ _ Hl1 Hl2) as Hl.
  destruct ok; [by apply Hend|]. exists None, h2. split; [done|]. destruct Hl1 as (x & -> & Hx). by apply Hx, Ha2.
Qed.

(** A position behind the end, and a refusal of the allocator for the second growth. *)
Definition array_ops : list ArrayOp :=
  [ArraySet 2 Null; ArrayInsert 0 (Integer 7); ArrayPush (Integer 8); ArrayPop; ArrayRemove 1; ArrayGet 0].

Definition array_answers : list bool := [true; true; false].

Lemma array_is_list_witness : exists h2 l,
  run_array_all 0 array_ops (default initial_heap (snd <$> gc_new_array 0 (with_answers array_answers initial_heap))) =
    Some ([Done true; Done true; Done false; Value (Some Null); Value (Some Undefined); Value (Some (Integer 7))], h2) /\
  list_steps (false ∈ [true; false]) [] array_ops [Done true; Done true; Done false; Value (Some Null); Value (Some Undefined); Value (Some (Integer 7))] l /\
  array_is h2 0 l.
Proof.
  destruct (array_is_list (with_answers array_answers initial_heap) 0 2 array_ops) as (r & h1 & E & Hr).
  - done.
  - repeat constructor; cbn; lia.
  - done.
  - done.
  - assert (gc_new_array 0 (with_answers array_answers initial_heap) = Some (Some 0%nat,
      default initial_heap (snd <$> gc_new_array 0 (with_answers array_answers initial_heap)))) as E' by reflexivity.
    rewrite E' in E. injection E as <- <-. destruct Hr as (rs & h2 & l & E & Hs & Hp). exists h2, l.
    assert (fst <$> run_array_all 0 array_ops (default initial_heap (snd <$> gc_new_array 0 (with_answers array_answers initial_heap))) =
      Some [Done true; Done true; Done false; Value (Some Null); Value (Some Undefined); Value (Some (Integer 7))]) as E2 by (vm_compute; reflexivity).
    assert (fst <$> Some (rs, h2) = Some [Done true; Done true; Done false; Value (Some Null); Value (Some Undefined); Value (Some (Integer 7))]) as E3
      by (rewrite <-E2, <-E; reflexivity).
    injection E3 as ->. split; [exact E|]. by split.
Defined.

(** ** Iterating *)

(** The values that are delivered before the end. *)
Fixpoint drain (fuel : nat) (iter : nat) : M (list JsValue) :=
  match fuel with
  | O => fault
  | S fuel' => n ← gc_iterator_next iter; if done_ n then mret [] else rest ← drain fuel' iter; mret (out n :: rest)
  end.

Section ObjectIteration.
Context (obj it : nat) (o : GcObject) (os fs : list nat) (m : list (list Z * JsValue)) (md : GcIteratorMode).
Context (Ho : table_ok o os fs) (Hne : it <> obj) (Hmd : md <> Entries).

(** The iterator stands before the [j]-th entry of the object. *)
Record before (h : GcHeap) (j : nat) : Prop := mkBefore {
  bf_object : exists c, cells h !! obj = Some c /\ body c = ObjectCell o;
  bf_lists : lists h o os m;
  bf_iterator : exists c i, cells h !! it = Some c /\ body c = IteratorCell i /\ iterates_array i = false /\ object i = Some obj /\
    using_snapshot i = false /\ expected_version i = object_version o /\ mode i = md /\ chain (link next_order o) (cursor i) (drop j os) }.

Definition delivers (h : GcHeap) (v : JsValue) (p : list Z * JsValue) : Prop :=
  match md with Keys => exists k, v = HeapString k /\ text h k p.1 | Values => v = p.2 | Entries => True end.

(** Storing the iterator changes nothing else. *)
Lemma store_iterator h j c i0 i : before h j -> cells h !! it = Some c -> body c = IteratorCell i0 ->
  exists h', store it (IteratorCell i) h = Some (tt, h') /\ (exists c, cells h' !! obj = Some c /\ body c = ObjectCell o) /\ lists h' o os m /\
    (exists c, cells h' !! it = Some c /\ body c = IteratorCell i) /\ (forall k t, text h k t -> text h' k t).
Proof.
  intros [(co & Hco & Hbo) Hl _] Hc Hb. unfold store. rewrite Hc. eexists. split; [done|].
  assert (forall k t, text h k t -> text (set_cells (<[it:=mkCell (mark_ c) (IteratorCell i)]> (cells h)) h) k t) as Ht.
  { intros k t (c' & s & Hc' & Hb' & Hr). exists c', s. split; [|done]. cbn. rewrite lookup_insert_ne; [done|]. intros ->. congruence. }
  split; [exists co; split; [cbn; by rewrite lookup_insert_ne|done]|]. split; [eapply lists_ext; [exact Ht| |exact Hl]; eauto|].
  split; [|exact Ht]. eexists. cbn. by rewrite lookup_insert_eq.
Qed.

Lemma cursor_loop_at i c e k h : cursor i = Some c -> entries o !! c = Some e -> key e = Some k -> occupied e = true ->
  cursor_loop o (length (entries o)) i h = yield (HeapString k) (value e) (with_cursor (next_order e) i) h.
Proof.
  intros Hc He Hk Hocc. pose proof (entry_lt _ _ _ He) as Hlt. destruct (length (entries o)) as [|n]; [lia|]. cbn [cursor_loop]. rewrite Hc.
  rewrite (m_bind_run _ _ h e h) by (unfold entry_at, some_or_fault; by rewrite He). by rewrite Hk, Hocc.
Qed.

Lemma yield_run k v i h : mode i = md -> exists n i', yield k v i h = Some ((n, i'), h) /\ success n = true /\ done_ n = false /\
  out n = match md with Keys => k | _ => v end /\ iterates_array i' = iterates_array i /\ object i' = object i /\ array i' = array i /\
  using_snapshot i' = using_snapshot i /\ expected_version i' = expected_version i /\ mode i' = md /\ cursor i' = cursor i /\ index i' = index i.
Proof. intros Hm. unfold yield. rewrite Hm. destruct md; [| |done]; (eexists _, _; split; [reflexivity|]); by split_and!. Qed.

Lemma object_next_run h j : before h j -> exists n h', gc_iterator_next it h = Some (n, h') /\ success n = true /\
  match m !! j with
  | None => done_ n = true /\ (exists c, cells h' !! obj = Some c /\ body c = ObjectCell o) /\ lists h' o os m
  | Some p => done_ n = false /\ delivers h (out n) p /\ before h' (S j)
  end /\ (forall k t, text h k t -> text h' k t).
Proof.
  intros Hb. pose proof Hb as [(co & Hco & Hbo) Hl (c & i & Hc & Hbi & H1 & H2 & H3 & H4 & H5 & H6)]. unfold gc_iterator_next.
  rewrite (m_bind_run _ _ h i h) by (unfold load_iterator, load, mbind, M_bind; by rewrite Hc, Hbi).
  cbn zeta. cbn [without_current iterates_array]. rewrite H1. unfold next_of_object at 1. cbn [without_current object]. rewrite H2. rewrite m_bind_assoc.
  rewrite (m_bind_run _ _ _ _ _ (load_object_run _ _ _ _ Hco Hbo)). cbn [without_current using_snapshot expected_version]. rewrite H3, H4, Z.eqb_refl.
  cbn [negb andb]. rewrite m_bind_assoc. rewrite (m_bind_run _ _ h (true, without_current i) h) by done. cbn [negb using_snapshot without_current].
  rewrite H3. destruct (m !! j) as [[t v]|] eqn:Em.
  - destruct (Forall2_lookup_r _ _ _ _ _ Hl Em) as (x & Hx & (e & k & He & Hk & Ht & _ & Hv)). cbn [fst snd] in *.
    rewrite (drop_S _ _ _ Hx) in H6. destruct H6 as [Hcur H6]. rewrite (link_at _ _ _ _ He) in H6.
    assert (occupied e = true) as Hocc by (apply (ok_occupied _ _ _ Ho x e He); by eapply list_elem_of_lookup_2).
    destruct (yield_run (HeapString k) (value e) (with_cursor (next_order e) (without_current i)) h H5)
      as (n & i' & Ey & Hs & Hd & Hout & Y1 & Y2 & _ & Y3 & Y4 & Y5 & Y6 & _).
    rewrite (m_bind_run _ _ h (n, i') h) by (by rewrite (cursor_loop_at _ x e k)).
    destruct (store_iterator h j c i i' Hb Hc Hbi) as (h' & Es & Hobj & Hl' & (c' & Hc' & Hb') & Htx). rewrite (m_bind_run _ _ _ _ _ Es).
    exists n, h'. split; [done|]. split; [done|]. split; [|done]. split; [done|]. split.
    + unfold delivers. rewrite Hout. destruct md; [by exists k|done|done].
    + constructor; [done|done|]. exists c', i'. by rewrite Y1, Y2, Y3, Y4, Y5, Y6.
  - apply lookup_ge_None in Em. rewrite drop_ge in H6 by (rewrite (Forall2_length _ _ _ Hl); done). cbn in H6.
    rewrite (m_bind_run _ _ h (at_end (without_current i)) h).
    2:{ destruct (length (entries o)); cbn [cursor_loop without_current cursor]; by rewrite H6. }
    unfold at_end. destruct (store_iterator h j c i (without_current i) Hb Hc Hbi) as (h' & Es & Hobj & Hl' & _ & Htx). rewrite (m_bind_run _ _ _ _ _ Es).
    eexists _, h'. split; [done|]. by split.
Qed.

Lemma object_drain_run n : forall h j, before h j -> (length m - j = n)%nat ->
  exists outs h', drain (S n) it h = Some (outs, h') /\ Forall2 (delivers h') outs (drop j m) /\
    (exists c, cells h' !! obj = Some c /\ body c = ObjectCell o) /\ lists h' o os m /\ (forall k t, text h k t -> text h' k t).
Proof.
  induction n as [|n IH]; intros h j Hb Hn; (destruct (object_next_run h j Hb) as (x & h1 & E & Hs & Hm & Ht)); cbn [drain]; rewrite (m_bind_run _ _ _ _ _ E).
  - rewrite lookup_ge_None_2 in Hm by lia. destruct Hm as (-> & Hobj & Hl). exists [], h1. split; [done|]. rewrite drop_ge by lia. by split.
  - destruct (lookup_lt_is_Some_2 m j ltac:(lia)) as [p Hp]. rewrite Hp in Hm. destruct Hm as (-> & Hd & Hb1).
    destruct (IH h1 (S j) Hb1 ltac:(lia)) as (outs & h2 & E2 & Hall & Hobj & Hl & Ht2). cbn [drain] in E2. rewrite (m_bind_run _ _ _ _ _ E2).
    exists (out x :: outs), h2. split; [done|]. rewrite (drop_S _ _ _ Hp). split; [|split; [done|split; [done|auto]]]. constructor; [|done].
    unfold delivers in *. destruct md; [|done|done]. destruct Hd as (k & -> & Hk). exists k. split; [done|]. by apply Ht2, Ht.
Qed.

End ObjectIteration.

(** C32. Iterating over the keys or the values of an object that is not changed delivers
    every entry once, in the order of insertion, then reports the end, and leaves the
    object as it is; the iterator cannot be made only if the allocator refuses. *)
Theorem object_iteration_in_order h obj m md : object_is h obj m -> fresh h -> md <> Entries ->
  exists r h1, gc_new_object_iterator (Some obj) md h = Some (r, h1) /\
    match r with
    | None => false ∈ answers h
    | Some it => exists outs h2, drain (S (length m)) it h1 = Some (outs, h2) /\ object_is h2 obj m /\
        Forall2 (fun v p => match md with Keys => exists k, v = HeapString k /\ text h2 k p.1 | _ => v = p.2 end) outs m
    end.
Proof.
  intros (co & o & os & fs & Hco & Hbo & Ho & Hl & Hd) Hf Hmd. unfold gc_new_object_iterator, gc_alloc_raw.
  destruct (alloc_run h) as (ok & h1 & E1 & Hl1 & Ha1). unfold mbind, M_bind at 1. rewrite E1. destruct ok; [|exists None, h1; split; [done|by apply Ha1]].
  assert (cells h1 !! obj = Some co) as Hco1 by by rewrite (later_cells _ _ _ Hl1). unfold load_object, load, mbind, M_bind. rewrite Hco1, Hbo.
  unfold mret, M_ret, gc_link. eexists _, _. split; [reflexivity|]. cbn [fst snd].
  set (it := next_address h1). set (i := new_iterator _ _ _ _ _ _). set (h2 := mkHeap _ _ _ _ _ _ _).
  assert (it <> obj) as Hne. { intros E. pose proof (later_fresh _ _ Hl1 Hf it ltac:(done)) as Hn. congruence. }
  assert (forall k t, text h k t -> text h2 k t) as Ht.
  { intros k t (c' & s & Hc' & Hr). exists c', s. split; [|done]. cbn. rewrite lookup_insert_ne; [by rewrite (later_cells _ _ _ Hl1)|].
    intros <-. pose proof (later_fresh _ _ Hl1 Hf it ltac:(done)) as Hn. rewrite (later_cells _ _ _ Hl1) in Hn. congruence. }
  assert (before obj it o os m md h2 0) as Hb.
  { constructor.
    - exists co. cbn. by rewrite lookup_insert_ne.
    - eapply lists_ext; [exact Ht| |exact Hl]; eauto.
    - eexists _, i. cbn. rewrite lookup_insert_eq. split; [done|]. split; [done|]. split_and!; try done. apply Ho. }
  destruct (object_drain_run obj it o os fs m md Ho Hne Hmd (length m) h2 0 Hb ltac:(lia)) as (outs & h3 & E & Hall & (c3 & Hc3 & Hb3) & Hl3 & _).
  exists outs, h3. split; [exact E|]. split; [by exists c3, o, os, fs|]. rewrite drop_0 in Hall. eapply Forall2_impl; [exact Hall|].
  intros v p. unfold delivers. by destruct md.
Qed.

(** The object with the keys [a] and [b]. *)
Definition pair_ops : list Op := [Set_ 0 Null; Set_ 1 (Boolean true)].

Definition object_heap : GcHeap := default initial_heap (snd <$> gc_new_object 0 (with_answers [] sample_heap)).

Definition pair_heap : GcHeap := default initial_heap (snd <$> run_all 2 pair_ops object_heap).

Lemma sample_texts h : cells h !! 0%nat = Some (mkCell GcMark_1 (StringCell (mkString Byte [97] None))) ->
  cells h !! 1%nat = Some (mkCell GcMark_1 (StringCell (mkString Byte [98] None))) ->
  forall op k, op ∈ pair_ops -> op_key op = Some k -> text h k (sample_content k).
Proof.
  intros H0 H1 op k Hop Hk. unfold pair_ops in Hop. apply elem_of_cons in Hop as [->|Hop]; [|apply elem_of_cons in Hop as [->|Hop]; [|by apply elem_of_nil in Hop]].
  - injection Hk as <-. eexists _, _. split; [exact H0|]. split; [done|]. split; [done|by left].
  - injection Hk as <-. eexists _, _. split; [exact H1|]. split; [done|]. split; [done|by left].
Qed.

Lemma pair_object : object_is pair_heap 2 [([97], Null); ([98], Boolean true)].
Proof.
  destruct (run_steps sample_content False object_heap 2 [] pair_ops) as (rs & h' & m' & E & Hs & Ho).
  - eexists _, (mkObject 0 0 0 None None None [] []), [], []. split; [vm_compute; reflexivity|]. split; [done|]. split; [by apply (new_table 0 0)|].
    split; [constructor|constructor].
  - apply sample_texts; vm_compute; reflexivity.
  - done.
  - by intros ?%elem_of_nil.
  - assert (run_all 2 pair_ops object_heap = Some ([Done true; Done true], pair_heap)) as E' by (vm_compute; reflexivity).
    rewrite E' in E. injection E as <- <-. destruct Hs as (m1 & -> & m2 & -> & ->). exact Ho.
Qed.

Lemma pair_fresh : fresh pair_heap.
Proof.
  intros p Hp. change (next_address pair_heap) with 3%nat in Hp. destruct (cells pair_heap !! p) as [c|] eqn:E; [|done]. exfalso.
  assert (map_Forall (fun p (_ : Cell) => p < 3)%nat (cells pair_heap)) as H by (apply (bool_decide_unpack _); vm_compute; exact I).
  specialize (H p c E). cbn beta in H. lia.
Qed.

Lemma object_iteration_in_order_witness : exists it h1, gc_new_object_iterator (Some 2%nat) Values pair_heap = Some (Some it, h1) /\
  exists outs h2, drain 3 it h1 = Some (outs, h2) /\ object_is h2 2 [([97], Null); ([98], Boolean true)] /\
    Forall2 (fun v p => v = p.2) outs [([97], Null); ([98], Boolean true)].
Proof.
  destruct (object_iteration_in_order pair_heap 2 _ Values pair_object pair_fresh ltac:(done)) as (r & h1 & E & Hr).
  exists 3%nat, h1. assert (exists x, gc_new_object_iterator (Some 2%nat) Values pair_heap = Some (Some 3%nat, x)) as (x & E') by (eexists; vm_compute; reflexivity).
  assert (r = Some 3%nat) as -> by congruence. split; [exact E|exact Hr].
Defined.

(** An iterator that stands before an entry that is removed ends there: of the keys [a],
    [b] and [c] only the first is delivered, although [c] is still in the object. *)
Definition removal_program : M (list JsValue * option JsValue) :=
  a ← gc_new_string [97]; b ← gc_new_string [98]; c ← gc_new_string [99]; o ← gc_new_object 4;
  gc_object_set 3 0 Null;; gc_object_set 3 1 Null;; gc_object_set 3 2 Null;;
  _ ← gc_new_object_iterator (Some 3%nat) Keys;
  first ← gc_iterator_next 4;
  gc_object_remove 3 1;;
  rest ← drain 4 4;
  found ← gc_object_get 3 2;
  mret (out first :: rest, found).

Example removal_ends_iteration : fst <$> removal_program initial_heap = Some ([HeapString 0], Some Null).
Proof. vm_compute. reflexivity. Qed.

End Iterators.
