(* ===== verification/JsonLex.v ===== *)
(** * The tokens of a JSON text
    (the lexer of [src/common/json/JsonDecode.cpp])

    A lexer takes the buffer from the position where it starts, the absolute offset of
    that position, and whether the input ends with the buffer.  It gives a token with
    the number of bytes it took, asks for more input, or reports an error at an absolute
    offset.  [strtod] of the C library is a parameter: the value, whether [errno] says
    [ERANGE], and the number of characters that were read.

    Appending to a buffer that is not final never changes a token or an error that the
    lexer has found. *)
From Stdlib Require Import Floats.SpecFloat.
From S2P Require Import Prelude JsText JsHeap.

Module Lex.
Import Utf.

(** ** Results *)

Inductive LexResult (A : Type) := LexOk (a : A) (taken : nat) | LexNeedMore | LexError (message : string) (offset : Z).
Arguments LexOk {A} _ _.
Arguments LexNeedMore {A}.
Arguments LexError {A} _ _.

Inductive Token :=
  | End_ | String_ (text : DecodedString) | Number (value : Gc.JsValue) | True_ | False_ | Null_
  | LeftBrace | RightBrace | LeftBracket | RightBracket | Colon | Comma.

(** A short buffer: an error if there is no more input. *)
Definition short {A} (final : bool) (message : string) (offset : Z) : LexResult A :=
  if final then LexError message offset else LexNeedMore.

Definition hex_value (ch : Z) : option Z :=
  if (48 <=? ch) && (ch <=? 57) then Some (ch - 48)
  else if (97 <=? ch) && (ch <=? 102) then Some (10 + (ch - 97))
  else if (65 <=? ch) && (ch <=? 70) then Some (10 + (ch - 65))
  else None.

Definition is_ws (ch : Z) : bool := (ch =? chr " ") || (ch =? 9) || (ch =? 10) || (ch =? 13).

Definition is_delimiter (ch : Z) : bool := is_ws ch || (ch =? chr ",") || (ch =? chr "]") || (ch =? chr "}") || (ch =? chr ":").

Definition is_digit (ch : Z) : bool := (48 <=? ch) && (ch <=? 57).

(** ** Strings *)

Definition decode_utf8_codepoint (l : list Z) (final : bool) (offset : Z) : LexResult Z :=
  let invalid n := LexError "invalid utf-8 sequence" (offset + Z.of_nat n) in
  match l with
  | [] => short final "invalid utf-8 sequence" offset
  | ch :: rest =>
      if ch <? 0x80 then LexOk ch 1
      else
        match lead ch with
        | None => invalid 0%nat
        | Some (needed, code, min_value) =>
            if (length l <=? needed)%nat then short final "invalid utf-8 sequence" offset
            else
              (* the first byte that does not continue the sequence *)
              match list_find (fun next => Z.land next 0xC0 <> 0x80) (take needed rest) with
              | Some (k, _) => invalid (S k)
              | None =>
                  match continuation needed code rest with
                  | None => invalid 0%nat
                  | Some code => if refused code min_value then invalid 0%nat else LexOk code (S needed)
                  end
              end
        end
  end.

(** The next four hexadecimal digits; [inr] is the number of the first character that
    is none. *)
Fixpoint hex_run (n i : nat) (code : Z) (l : list Z) : Z + nat :=
  match n, l with
  | O, _ => inl code
  | S n', ch :: l' =>
      match hex_value ch with Some digit => hex_run n' (S i) (u32 (Z.lor (Z.shiftl code 4) digit)) l' | None => inr i end
  | S _, [] => inr i
  end.

Definition simple_escape (esc : Z) : option Z :=
  if esc =? 34 then Some 34
  else if esc =? chr "\" then Some (chr "\")
  else if esc =? chr "/" then Some (chr "/")
  else if esc =? chr "b" then Some 8
  else if esc =? chr "f" then Some 12
  else if esc =? chr "n" then Some 10
  else if esc =? chr "r" then Some 13
  else if esc =? chr "t" then Some 9
  else None.

(** After [\u]: [l] are the digits; the code point and the number of characters. *)
Definition lex_unicode (l : list Z) (final : bool) (offset : Z) : LexResult Z :=
  if (length l <? 4)%nat then short final "invalid unicode escape" offset
  else
    match hex_run 4 0 0 l with
    | inr k => LexError "invalid unicode escape" (offset + Z.of_nat k)
    | inl code =>
        let offset4 := offset + 4 in
        if is_high code then
          if (length l <=? 9)%nat then short final "invalid unicode surrogate pair" offset4
          else
            match drop 4 l with
            | c0 :: c1 :: digits =>
                if negb (c0 =? chr "\") || negb (c1 =? chr "u") then LexError "invalid unicode surrogate pair" offset4
                else
                  match hex_run 4 0 0 digits with
                  | inr k => LexError "invalid unicode escape" (offset4 + 2 + Z.of_nat k)
                  | inl low =>
                      if negb (is_low low) then LexError "invalid unicode surrogate pair" (offset4 + 6)
                      else
                        let code := u32 (0x10000 + Z.shiftl (code - 0xD800) 10 + (low - 0xDC00)) in
                        if 0x10FFFF <? code then LexError "invalid unicode codepoint" (offset4 + 6) else LexOk code 10
                  end
            | _ => LexNeedMore
            end
        else if is_low code then LexError "invalid unicode surrogate pair" offset4
        else if 0x10FFFF <? code then LexError "invalid unicode codepoint" offset4
        else LexOk code 4
    end.

(** [n] characters of the string, with its quote, have been read. *)
Fixpoint lex_string_loop (fuel : nat) (decoded : DecodedString) (l : list Z) (final : bool) (offset : Z) (n : nat) : LexResult Token :=
  let at_ := offset + Z.of_nat n in
  match fuel, l with
  | _, [] => short final "unterminated string" at_
  | O, _ => LexNeedMore
  | S fuel', ch :: rest =>
      if ch =? 34 then LexOk (String_ decoded) (S n)
      else if ch =? chr "\" then
        match rest with
        | [] => short final "unterminated escape sequence" at_
        | esc :: rest' =>
            if esc =? chr "u" then
              match lex_unicode rest' final (at_ + 2) with
              | LexOk code k => lex_string_loop fuel' (append_codepoint decoded code) (drop k rest') final offset (n + 2 + k)
              | LexNeedMore => LexNeedMore
              | LexError m o => LexError m o
              end
            else
              match simple_escape esc with
              | Some unit => lex_string_loop fuel' (append_code_unit decoded unit) rest' final offset (n + 2)
              | None => LexError "invalid escape sequence" at_
              end
        end
      else if ch <? 0x20 then LexError "invalid control character in string" at_
      else
        match decode_utf8_codepoint l final at_ with
        | LexOk codepoint k =>
            if codepoint <? 0x20 then LexError "invalid control character in string" at_
            else lex_string_loop fuel' (append_codepoint decoded codepoint) (drop k l) final offset (n + k)
        | LexNeedMore => LexNeedMore
        | LexError m o => LexError m o
        end
  end.

(** [l] begins with the quote. *)
Definition lex_string (l : list Z) (final : bool) (offset : Z) : LexResult Token :=
  lex_string_loop (length l) empty_string (drop 1 l) final offset 1.

(** ** Literals *)

Fixpoint literal_loop (i : nat) (literal l : list Z) (type : Token) (len : nat) (offset : Z) : LexResult Token :=
  match literal, l with
  | [], _ => LexOk type len
  | c :: literal', ch :: l' =>
      if negb (ch =? c) then LexError "invalid literal" (offset + Z.of_nat i) else literal_loop (S i) literal' l' type len offset
  | _ :: _, [] => LexError "invalid literal" (offset + Z.of_nat i)
  end.

Definition lex_literal (l : list Z) (final : bool) (literal : list Z) (type : Token) (offset : Z) : LexResult Token :=
  if (length l <? length literal)%nat then short final "invalid literal" offset
  else literal_loop 0 literal l type (length literal) offset.

(** ** Numbers *)

(** [std::from_chars] for 64-bit integers. *)
Inductive FromChars := Parsed (value : Z) | OutOfRange | Invalid.

Fixpoint digits_value (value : Z) (l : list Z) : Z :=
  match l with c :: l' => if is_digit c then digits_value (value * 10 + (c - 48)) l' else value | [] => value end.

Definition from_chars (l : list Z) : FromChars :=
  let '(negative, digits) := match l with 45 :: l' => (true, l') | _ => (false, l) end in
  match digits with
  | c :: _ =>
      if is_digit c then
        let value := if negative : bool then - digits_value 0 digits else digits_value 0 digits in
        if (- 2 ^ 63 <=? value) && (value <? 2 ^ 63) then Parsed value else OutOfRange
      else Invalid
  | [] => Invalid
  end.

Fixpoint skip_digits (l : list Z) (n : nat) : list Z * nat :=
  match l with c :: l' => if is_digit c then skip_digits l' (S n) else (l, n) | [] => (l, n) end.

Section Number.
Context (strtod : list Z -> spec_float * bool * nat).
(** The buffer from the start of the number. *)
Context (start : list Z) (final : bool) (offset : Z).

Definition invalid_number : LexResult Token := LexError "invalid number" offset.
Definition short_number : LexResult Token := short final "invalid number" offset.

(** The first [n] characters are the number. *)
Definition convert (is_float : bool) (n : nat) : LexResult Token :=
  let number := take n start in
  if is_float then
    let '(value, erange, end_) := strtod number in
    if erange : bool then LexError "floating point overflow" offset
    else if negb (end_ =? length number)%nat then invalid_number
    else LexOk (Number (Gc.Float value)) n
  else
    match from_chars number with
    | OutOfRange => LexError "integer overflow" offset
    | Invalid => invalid_number
    | Parsed value => LexOk (Number (Gc.Integer value)) n
    end.

Definition number_end (is_float : bool) (l : list Z) (n : nat) : LexResult Token :=
  match l with
  | [] => if final then convert is_float n else LexNeedMore
  | c :: _ => if is_delimiter c then convert is_float n else invalid_number
  end.

Definition exponent_digits (l : list Z) (n : nat) : LexResult Token :=
  match l with
  | c :: _ => if is_digit c then let '(r, k) := skip_digits l n in number_end true r k else invalid_number
  | [] => short_number
  end.

Definition exponent (is_float : bool) (l : list Z) (n : nat) : LexResult Token :=
  match l with
  | c :: l' =>
      if (c =? chr "e") || (c =? chr "E") then
        match l' with
        | s :: l'' => if (s =? chr "+") || (s =? chr "-") then exponent_digits l'' (n + 2) else exponent_digits l' (n + 1)
        | [] => short_number
        end
      else number_end is_float l n
  | [] => number_end is_float l n
  end.

Definition fraction (l : list Z) (n : nat) : LexResult Token :=
  match l with
  | c :: l' =>
      if c =? chr "." then
        match l' with
        | d :: _ => if is_digit d then let '(r, k) := skip_digits l' (S n) in exponent true r k else invalid_number
        | [] => short_number
        end
      else exponent false l n
  | [] => exponent false l n
  end.

Definition integer_part (l : list Z) (n : nat) : LexResult Token :=
  match l with
  | c :: l' =>
      if c =? chr "0" then
        match l' with
        | d :: _ => if is_digit d then LexError "leading zero in number" offset else fraction l' (S n)
        | [] => fraction l' (S n)
        end
      else if (49 <=? c) && (c <=? 57) then let '(r, k) := skip_digits l n in fraction r k
      else invalid_number
  | [] => short_number
  end.

Definition lex_number : LexResult Token :=
  match start with c :: l => if c =? chr "-" then integer_part l 1 else integer_part start 0 | [] => invalid_number end.

End Number.

(** ** Tokens *)

Fixpoint skip_ws (l : list Z) (n : nat) : list Z * nat :=
  match l with ch :: l' => if is_ws ch then skip_ws l' (S n) else (l, n) | [] => (l, n) end.

Section Tokens.
Context (strtod : list Z -> spec_float * bool * nat).

(** At a character that is not white space. *)
Definition lex_here (l : list Z) (final : bool) (offset : Z) : LexResult Token :=
  match l with
  | [] => if final then LexOk End_ 0 else LexNeedMore
  | ch :: _ =>
      if ch =? chr "{" then LexOk LeftBrace 1
      else if ch =? chr "}" then LexOk RightBrace 1
      else if ch =? chr "[" then LexOk LeftBracket 1
      else if ch =? chr "]" then LexOk RightBracket 1
      else if ch =? chr ":" then LexOk Colon 1
      else if ch =? chr "," then LexOk Comma 1
      else if ch =? 34 then lex_string l final offset
      else if ch =? chr "t" then lex_literal l final (bytes_of_string "true") True_ offset
      else if ch =? chr "f" then lex_literal l final (bytes_of_string "false") False_ offset
      else if ch =? chr "n" then lex_literal l final (bytes_of_string "null") Null_ offset
      else if (ch =? chr "-") || is_digit ch then lex_number strtod l final offset
      else LexError "invalid token" offset
  end.

(** The white space that was passed over and what follows it. *)
Definition lex_token (l : list Z) (final : bool) (offset : Z) : nat * LexResult Token :=
  let '(rest, n) := skip_ws l 0 in (n, lex_here rest final (offset + Z.of_nat n)).

End Tokens.

(** ** More input does not change what was found

    [r'] is the result with more input behind the buffer. *)
Definition stable {A} (r r' : LexResult A) : Prop := match r with LexNeedMore => True | _ => r' = r end.

Lemma stable_refl {A} (r : LexResult A) : stable r r.
Proof. by destruct r. Qed.

Lemma continuation_app needed code l more : (needed <= length l)%nat -> continuation needed code (l ++ more) = continuation needed code l.
Proof.
  revert code l. induction needed as [|n IH]; intros code [|c l] H; cbn in H |- *; try done; [lia|]. case_match; [|done]. apply IH. lia.
Qed.

Lemma hex_run_app n i code l more : (n <= length l)%nat -> hex_run n i code (l ++ more) = hex_run n i code l.
Proof. revert i code l. induction n as [|n IH]; intros i code [|c l] H; cbn in H |- *; try done; [lia|]. case_match; [|done]. apply IH. lia. Qed.

Section Stable.
Context (more : list Z) (final' : bool).

Lemma decode_stable l offset : stable (decode_utf8_codepoint l false offset) (decode_utf8_codepoint (l ++ more) final' offset).
Proof.
  unfold decode_utf8_codepoint. destruct l as [|ch rest]; [done|]. cbn [app]. destruct (ch <? 0x80); [done|].
  destruct (lead ch) as [[[needed code] m]|]; [|done]. destruct (Nat.leb_spec (length (ch :: rest)) needed) as [|Hn]; [done|].
  cbn [length] in Hn. rewrite (proj2 (Nat.leb_gt (length (ch :: rest ++ more)) needed)) by (cbn [length]; rewrite length_app; lia).
  rewrite take_app_le by lia. rewrite continuation_app by lia. destruct (list_find _ _) as [[k ?]|]; [done|].
  destruct (continuation _ _ _); [|done]. by destruct (refused _ _).
Qed.

Lemma decode_taken l final offset cp k : decode_utf8_codepoint l final offset = LexOk cp k -> (0 < k <= length l)%nat.
Proof.
  unfold decode_utf8_codepoint. destruct l as [|ch rest]; [by destruct final|]. cbn [length]. destruct (ch <? 0x80); [intros [= _ <-]; lia|].
  destruct (lead ch) as [[[needed code] m]|]; [|done]. destruct (Nat.leb_spec (S (length rest)) needed); [by destruct final|].
  destruct (list_find _ _) as [[? ?]|]; [done|]. destruct (continuation _ _ _); [|done]. destruct (refused _ _); [done|]. intros [= _ <-]. lia.
Qed.

Lemma unicode_stable l offset : stable (lex_unicode l false offset) (lex_unicode (l ++ more) final' offset).
Proof.
  unfold lex_unicode. destruct (Nat.ltb_spec (length l) 4) as [|H4]; [done|].
  rewrite (proj2 (Nat.ltb_ge (length (l ++ more)) 4)) by (rewrite length_app; lia). rewrite hex_run_app by lia.
  destruct (hex_run 4 0 0 l) as [code|k]; [|done]. cbn zeta. destruct (is_high code); [|by repeat case_match].
  destruct (Nat.leb_spec (length l) 9) as [|H9]; [done|]. rewrite (proj2 (Nat.leb_gt (length (l ++ more)) 9)) by (rewrite length_app; lia).
  rewrite drop_app_le by lia. pose proof (length_drop l 4) as Hd. destruct (drop 4 l) as [|c0 [|c1 digits]]; cbn [length] in Hd; [lia|lia|]. cbn [app].
  destruct (negb _ || negb _); [done|]. rewrite hex_run_app by lia. destruct (hex_run 4 0 0 digits); [|done].
  cbn zeta. destruct (negb _); [done|]. by destruct (_ <? _).
Qed.

Lemma unicode_taken l final offset cp k : lex_unicode l final offset = LexOk cp k -> (k <= length l)%nat.
Proof.
  unfold lex_unicode. destruct (Nat.ltb_spec (length l) 4); [by destruct final|]. destruct (hex_run 4 0 0 l) as [code|]; [|done]. cbn zeta.
  destruct (is_high code).
  - destruct (Nat.leb_spec (length l) 9); [by destruct final|]. destruct (drop 4 l) as [|? [|? ?]]; try done.
    destruct (negb _ || negb _); [done|]. destruct (hex_run 4 0 0 _); [|done]. destruct (negb _); [done|]. cbn zeta.
    destruct (_ <? _); [done|]. intros [= _ <-]. lia.
  - destruct (is_low code); [done|]. destruct (_ <? _); [done|]. intros [= _ <-]. lia.
Qed.

Lemma string_loop_stable fuel : forall fuel' decoded l offset n, (length l <= fuel)%nat -> (length (l ++ more) <= fuel')%nat ->
  stable (lex_string_loop fuel decoded l false offset n) (lex_string_loop fuel' decoded (l ++ more) final' offset n).
Proof.
  induction fuel as [|fuel IH]; intros fuel' decoded l offset n Hf Hf'; [destruct l; [done|cbn in Hf; lia]|].
  destruct l as [|ch rest]; [done|]. destruct fuel' as [|fuel']; [cbn in Hf'; lia|]. cbn [length app] in Hf, Hf'.
  cbn [lex_string_loop app]. destruct (ch =? 34); [done|]. destruct (ch =? chr "\").
  - destruct rest as [|esc rest']; [done|]. cbn [app length] in Hf, Hf' |- *. destruct (esc =? chr "u").
    + pose proof (unicode_stable rest' (offset + Z.of_nat n + 2)) as Hs.
      destruct (lex_unicode rest' false _) as [cp k| |] eqn:E; [|done|by rewrite Hs]. apply unicode_taken in E. rewrite Hs.
      rewrite drop_app_le by done. rewrite length_app in Hf'. apply IH; rewrite ?length_app, ?length_drop; lia.
    + destruct (simple_escape esc); [|done]. apply IH; lia.
  - destruct (ch <? 0x20); [done|]. pose proof (decode_stable (ch :: rest) (offset + Z.of_nat n)) as Hs. cbn [app] in Hs.
    destruct (decode_utf8_codepoint (ch :: rest) false _) as [cp k| |] eqn:E; [|done|by rewrite Hs]. apply decode_taken in E. rewrite Hs.
    destruct (cp <? 0x20); [done|]. rewrite app_comm_cons, drop_app_le by lia. cbn [length] in E.
    rewrite length_app in Hf'. apply IH; rewrite ?length_app, ?length_drop; cbn [length]; lia.
Qed.

Lemma string_stable l offset : l <> [] -> stable (lex_string l false offset) (lex_string (l ++ more) final' offset).
Proof.
  intros Hl. unfold lex_string. destruct l as [|c l]; [done|]. cbn [app drop]. rewrite ?drop_0. apply string_loop_stable; cbn [length]; [lia|]. rewrite !length_app. lia.
Qed.

Lemma literal_loop_stable i literal l type len offset : (length literal <= length l)%nat ->
  literal_loop i literal (l ++ more) type len offset = literal_loop i literal l type len offset.
Proof.
  revert i l. induction literal as [|c literal IH]; intros i [|ch l] H; cbn in H |- *; try done; try lia.
  destruct (negb _); [done|]. apply IH. lia.
Qed.

Lemma literal_stable l literal type offset : stable (lex_literal l false literal type offset) (lex_literal (l ++ more) final' literal type offset).
Proof.
  unfold lex_literal. destruct (Nat.ltb_spec (length l) (length literal)); [done|].
  rewrite (proj2 (Nat.ltb_ge _ _)) by (rewrite length_app; lia). rewrite literal_loop_stable by done. apply stable_refl.
Qed.

(** *** Numbers *)

Lemma skip_digits_app l n r k : skip_digits l n = (r, k) -> (k + length r = n + length l)%nat /\ (n <= k)%nat /\
  (r <> [] -> skip_digits (l ++ more) n = (r ++ more, k)).
Proof.
  revert n. induction l as [|c l IH]; intros n; cbn [skip_digits length app].
  - intros [= <- <-]. split; [done|]. by split; [lia|].
  - destruct (is_digit c) eqn:E; [|intros [= <- <-]; split; [done|]; split; [lia|]; cbn [app skip_digits]; by rewrite ?E].
    intros Hs. destruct (IH _ Hs) as (H1 & H2 & H3). split; [lia|]. split; [lia|done].
Qed.

Section NumberStable.
Context (strtod : list Z -> spec_float * bool * nat) (start : list Z) (offset : Z).

Lemma convert_stable is_float n : (n <= length start)%nat -> convert strtod (start ++ more) offset is_float n = convert strtod start offset is_float n.
Proof. intros Hn. unfold convert. by rewrite take_app_le by done. Qed.

Lemma number_end_stable is_float l n : (n <= length start)%nat ->
  stable (number_end strtod start false offset is_float l n) (number_end strtod (start ++ more) final' offset is_float (l ++ more) n).
Proof.
  intros Hn. unfold number_end. destruct l as [|c l]; [done|]. cbn [app]. rewrite convert_stable by done. destruct (is_delimiter c); apply stable_refl.
Qed.

(** The rest of a buffer whose first [n] characters have been passed. *)
Lemma digits_stable (f : list Z -> nat -> LexResult Token) (f' : list Z -> nat -> LexResult Token) l n :
  (n + length l = length start)%nat -> (forall k, f [] k = LexNeedMore) ->
  (forall r k, (k + length r = length start)%nat -> stable (f r k) (f' (r ++ more) k)) ->
  stable (let '(r, k) := skip_digits l n in f r k) (let '(r, k) := skip_digits (l ++ more) n in f' r k).
Proof.
  intros Hn H0 Hf. destruct (skip_digits l n) as [r k] eqn:E. destruct (skip_digits_app _ _ _ _ E) as (H1 & _ & H2).
  destruct r as [|c r]; [by rewrite H0|]. rewrite H2 by done. apply Hf. lia.
Qed.

Lemma exponent_digits_stable l n : (n + length l = length start)%nat ->
  stable (exponent_digits strtod start false offset l n) (exponent_digits strtod (start ++ more) final' offset (l ++ more) n).
Proof.
  intros Hn. unfold exponent_digits. destruct l as [|c l]; [done|]. cbn [app]. destruct (is_digit c); [|done]. rewrite app_comm_cons.
  apply digits_stable; [done|done|]. intros r k Hk. apply number_end_stable. lia.
Qed.

Lemma exponent_stable is_float l n : (n + length l = length start)%nat ->
  stable (exponent strtod start false offset is_float l n) (exponent strtod (start ++ more) final' offset is_float (l ++ more) n).
Proof.
  intros Hn. unfold exponent. destruct l as [|c l]; [done|]. cbn [app length] in *. destruct (_ || _).
  - destruct l as [|s l]; [done|]. cbn [app length] in *. destruct (_ || _); [apply exponent_digits_stable; lia|].
    rewrite app_comm_cons. apply exponent_digits_stable. cbn [length]. lia.
  - rewrite app_comm_cons. apply number_end_stable. lia.
Qed.

Lemma fraction_stable l n : (n + length l = length start)%nat ->
  stable (fraction strtod start false offset l n) (fraction strtod (start ++ more) final' offset (l ++ more) n).
Proof.
  intros Hn. unfold fraction. destruct l as [|c l]; [done|]. cbn [app length] in *. destruct (c =? _).
  - destruct l as [|d l]; [done|]. cbn [app length] in *. destruct (is_digit d); [|done]. rewrite app_comm_cons.
    apply digits_stable; [cbn [length]; lia|done|]. intros r k Hk. by apply exponent_stable.
  - rewrite app_comm_cons. apply exponent_stable. cbn [length]. lia.
Qed.

Lemma integer_part_stable l n : (n + length l = length start)%nat ->
  stable (integer_part strtod start false offset l n) (integer_part strtod (start ++ more) final' offset (l ++ more) n).
Proof.
  intros Hn. unfold integer_part. destruct l as [|c l]; [done|]. cbn [app length] in *. destruct (c =? _).
  - destruct l as [|d l]; [done|]. cbn [app]. destruct (is_digit d); [done|]. rewrite app_comm_cons. apply fraction_stable. cbn [length] in *. lia.
  - destruct (_ && _); [|done]. rewrite app_comm_cons. apply digits_stable; [cbn [length]; lia|done|]. intros r k Hk. by apply fraction_stable.
Qed.

End NumberStable.

Lemma number_stable strtod c l offset :
  stable (lex_number strtod (c :: l) false offset) (lex_number strtod ((c :: l) ++ more) final' offset).
Proof.
  unfold lex_number. cbn [app]. destruct (c =? _).
  - by apply (integer_part_stable strtod (c :: l) offset l 1).
  - by apply (integer_part_stable strtod (c :: l) offset (c :: l) 0).
Qed.

Lemma lex_here_stable strtod l offset : stable (lex_here strtod l false offset) (lex_here strtod (l ++ more) final' offset).
Proof.
  destruct l as [|ch l]; [done|]. unfold lex_here. cbn [app]. repeat (case_match; [try done; try apply (string_stable (ch :: l)); try apply (literal_stable (ch :: l)); try done|]); [|done].
  apply number_stable.
Qed.

End Stable.

Lemma skip_ws_app more l n r k : skip_ws l n = (r, k) -> r <> [] -> skip_ws (l ++ more) n = (r ++ more, k).
Proof.
  revert n. induction l as [|c l IH]; intros n; cbn [skip_ws app]; [by intros [= <- <-]|].
  destruct (is_ws c) eqn:E; [by apply IH|]. intros [= <- <-] _. cbn [app skip_ws]. by rewrite ?E.
Qed.

(** ** How much is taken *)

Definition within {A} (lo hi : nat) (r : LexResult A) : Prop := match r with LexOk _ k => (lo <= k <= hi)%nat | _ => True end.

Lemma short_within {A} lo hi final m o : within (A := A) lo hi (short final m o).
Proof. by destruct final. Qed.

Lemma within_weaken {A} lo hi lo' hi' (r : LexResult A) : within lo hi r -> (lo' <= lo)%nat -> (hi <= hi')%nat -> within lo' hi' r.
Proof. destruct r; [|done|done]. cbn. lia. Qed.

Lemma string_loop_within fuel : forall decoded l final offset n, within (S n) (n + length l) (lex_string_loop fuel decoded l final offset n).
Proof.
  induction fuel as [|fuel IH]; intros decoded l final offset n; [destruct l; [apply short_within|done]|].
  destruct l as [|ch rest]; [apply short_within|]. cbn [lex_string_loop length].
  assert (forall r : LexResult Token, (exists m k, (n < m)%nat /\ (m + k <= n + S (length rest))%nat /\ within (S m) (m + k) r) -> within (S n) (n + S (length rest)) r) as Hw.
  { intros r (m & k & H1 & H2 & H3). destruct r; [|done|done]. cbn in *. lia. }
  destruct (ch =? 34); [cbn; lia|]. destruct (ch =? chr "\").
  - destruct rest as [|esc rest']; [apply short_within|]. cbn [length] in *. destruct (esc =? chr "u").
    + destruct (lex_unicode rest' final _) as [cp k| |] eqn:E; [|done|done]. apply unicode_taken in E.
      apply Hw. eexists _, _. split; [|split; [|apply IH]]; rewrite ?length_drop; lia.
    + destruct (simple_escape esc); [|done]. apply Hw. eexists _, _. split; [|split; [|apply IH]]; lia.
  - destruct (ch <? 0x20); [done|]. destruct (decode_utf8_codepoint (ch :: rest) final _) as [cp k| |] eqn:E; [|done|done].
    apply decode_taken in E. cbn [length] in E. destruct (cp <? 0x20); [done|]. apply Hw. eexists _, _. split; [|split; [|apply IH]]; rewrite ?length_drop; cbn [length]; lia.
Qed.

Lemma literal_within l final literal type offset : literal <> [] -> within 1 (length l) (lex_literal l final literal type offset).
Proof.
  intros Hl. unfold lex_literal. destruct (Nat.ltb_spec (length l) (length literal)) as [|H]; [apply short_within|].
  assert (forall i lit l' n, (1 <= n <= length l)%nat -> within 1 (length l) (literal_loop i lit l' type n offset)) as Hw.
  { intros i lit. revert i. induction lit as [|c lit IH]; intros i l' n Hn; [done|]. destruct l' as [|ch l']; [done|]. cbn [literal_loop]. destruct (negb _); [done|auto]. }
  apply Hw. destruct literal; [done|]. cbn in *. lia.
Qed.

Section NumberWithin.
Context (strtod : list Z -> spec_float * bool * nat) (start : list Z) (final : bool) (offset : Z).

#[local] Abbreviation inside := (within 1 (length start)).

Lemma convert_within is_float n : (1 <= n <= length start)%nat -> inside (convert strtod start offset is_float n).
Proof. intros Hn. unfold convert, invalid_number. by repeat case_match. Qed.

Lemma number_end_within is_float l n : (1 <= n)%nat -> (n + length l = length start)%nat -> inside (number_end strtod start final offset is_float l n).
Proof.
  intros H1 Hn. unfold number_end. destruct l; [destruct final; [apply convert_within; lia|done]|]. destruct (is_delimiter _); [apply convert_within; lia|done].
Qed.

Lemma digits_within (f : list Z -> nat -> LexResult Token) l n : (1 <= n)%nat \/ (match l with c :: _ => is_digit c = true | [] => False end) ->
  (n + length l = length start)%nat ->
  (forall r k, (1 <= k)%nat -> (k + length r = length start)%nat -> inside (f r k)) -> inside (let '(r, k) := skip_digits l n in f r k).
Proof.
  intros H1 Hn Hf. destruct (skip_digits l n) as [r k] eqn:E. destruct (skip_digits_app [] _ _ _ _ E) as (H2 & H3 & _). apply Hf; [|lia].
  destruct H1 as [|H1]; [lia|]. destruct l as [|c l]; [done|]. cbn [skip_digits] in E. rewrite H1 in E.
  destruct (skip_digits_app [] _ _ _ _ E) as (_ & H4 & _). lia.
Qed.

Lemma exponent_within is_float l n : (1 <= n)%nat -> (n + length l = length start)%nat -> inside (exponent strtod start final offset is_float l n).
Proof.
  assert (forall l n, (1 <= n)%nat -> (n + length l = length start)%nat -> inside (exponent_digits strtod start final offset l n)) as He.
  { intros l' n' H1 Hn. unfold exponent_digits. destruct l'; [apply short_within|]. destruct (is_digit _); [|done].
    apply digits_within; [by left|done|]. intros r k Hk. by apply number_end_within. }
  intros H1 Hn. unfold exponent. destruct l as [|c l]; [by apply number_end_within|]. cbn [length] in Hn. destruct (_ || _); [|by apply number_end_within].
  destruct l as [|s l]; [apply short_within|]. cbn [length] in Hn. destruct (_ || _); apply He; cbn [length]; lia.
Qed.

Lemma fraction_within l n : (1 <= n)%nat -> (n + length l = length start)%nat -> inside (fraction strtod start final offset l n).
Proof.
  intros H1 Hn. unfold fraction. destruct l as [|c l]; [by apply exponent_within|]. cbn [length] in Hn. destruct (_ =? _); [|by apply exponent_within].
  destruct l as [|d l]; [apply short_within|]. destruct (is_digit d); [|done]. apply digits_within; [left; lia|cbn [length] in *; lia|].
  intros r k Hk. by apply exponent_within.
Qed.

Lemma integer_part_within l n : (n + length l = length start)%nat -> inside (integer_part strtod start final offset l n).
Proof.
  intros Hn. unfold integer_part. destruct l as [|c l]; [apply short_within|]. cbn [length] in Hn. destruct (_ =? _).
  - destruct l as [|d l]; [apply fraction_within; cbn [length] in *; lia|]. destruct (is_digit d); [done|]. apply fraction_within; cbn [length] in *; lia.
  - destruct (_ && _) eqn:E; [|done]. apply andb_true_iff in E as [E1 E2]. bool_to_prop.
    apply digits_within; [right; unfold is_digit; apply andb_true_iff; split; apply Z.leb_le; lia|done|]. intros r k Hk. by apply fraction_within.
Qed.

Lemma number_within : inside (lex_number strtod start final offset).
Proof. unfold lex_number. destruct start as [|c l] eqn:E; [done|]. destruct (_ =? _); rewrite <-E; apply integer_part_within; by rewrite E. Qed.

End NumberWithin.

Lemma lex_here_within strtod ch l final offset : within 1 (length (ch :: l)) (lex_here strtod (ch :: l) final offset).
Proof.
  unfold lex_here. repeat (case_match; [first [cbn [within length]; lia|by apply literal_within|idtac]|]); [|by apply number_within|done].
  unfold lex_string. cbn [length drop]. rewrite ?drop_0. eapply within_weaken; [apply string_loop_within|lia|lia].
Qed.

(** Only the end of the input gives the token [End_]. *)
Definition not_end (r : LexResult Token) : Prop := match r with LexOk End_ _ => False | _ => True end.

Lemma lex_here_not_end strtod ch l final offset : not_end (lex_here strtod (ch :: l) final offset).
Proof.
  assert (forall m o, not_end (short final m o)) as Hshort by by destruct final.
  assert (forall fuel d l' n, not_end (lex_string_loop fuel d l' final offset n)) as Hs.
  { induction fuel as [|fuel IH]; intros d l' n; [destruct l'; [apply Hshort|done]|]. destruct l' as [|c l']; [apply Hshort|]. cbn [lex_string_loop].
    repeat (case_match; try done; try apply Hshort; try apply IH). }
  assert (forall lit ty, ty <> End_ -> not_end (lex_literal (ch :: l) final lit ty offset)) as Hl.
  { intros lit ty Ht. assert (forall n i l', not_end (literal_loop i lit l' ty n offset)) as Hll.
    { intros n. induction lit as [|c lit IH]; intros i l'; [by destruct ty|]. destruct l'; [done|]. cbn [literal_loop]. case_match; [done|apply IH]. }
    unfold lex_literal. case_match; [apply Hshort|apply Hll]. }
  unfold lex_here. repeat (case_match; [first [done|apply Hs|by apply Hl|idtac]|]); [|done].
  unfold lex_number, integer_part, fraction, exponent, exponent_digits, number_end, convert, short_number. repeat (case_match; try done; try apply Hshort).
Qed.

Lemma skip_ws_spec l n r k : skip_ws l n = (r, k) -> (n <= k)%nat /\ r = drop (k - n) l /\ (k - n + length r = length l)%nat /\
  match r with c :: _ => is_ws c = false | [] => True end.
Proof.
  revert n. induction l as [|c l IH]; intros n; cbn [skip_ws].
  - intros [= <- <-]. rewrite Nat.sub_diag. by split.
  - destruct (is_ws c) eqn:E; [|intros [= <- <-]; rewrite Nat.sub_diag; by split].
    intros H. destruct (IH _ H) as (H1 & H2 & H3 & H4). split; [lia|]. replace (k - n)%nat with (S (k - S n)) by lia. cbn [drop length]. split; [done|].
    split; [lia|done].
Qed.

Lemma skip_ws_shift l n : skip_ws l n = (fun x => (x.1, (n + x.2)%nat)) (skip_ws l 0).
Proof.
  revert n. induction l as [|c l IH]; intros n; cbn [skip_ws fst snd]; [by rewrite Nat.add_0_r|].
  destruct (is_ws c); [|cbn [fst snd]; by rewrite Nat.add_0_r]. rewrite (IH (S n)), (IH 1%nat). cbn [fst snd]. f_equal. lia.
Qed.

(** White space first in a part, then in the whole. *)
Lemma skip_ws_twice more l n r k : skip_ws l n = (r, k) -> skip_ws (l ++ more) n = (fun x => (x.1, (k + x.2)%nat)) (skip_ws (r ++ more) 0).
Proof.
  revert n. induction l as [|c l IH]; intros n; cbn [skip_ws app].
  - intros [= <- <-]. apply skip_ws_shift.
  - destruct (is_ws c) eqn:E; [by apply IH|]. intros [= <- <-]. cbn [app skip_ws]. rewrite E. cbn [fst snd]. by rewrite Nat.add_0_r.
Qed.

End Lex.
