(* ===== verification/JsonStream.v ===== *)
(** * The incremental JSON parser
    ([StreamParser] of [src/common/json/JsonDecode.cpp] and [JsonDecode.h])

    The parser keeps the text it has not consumed in a buffer, and its place in the
    document in two stacks, whose tops are the heads of the lists.  The fields that do
    not concern the buffer are the record [Core].  The loop of [parse_internal] takes a
    token in every turn, so that it has as many turns as there are characters.

    The result of a document does not depend on how it is cut into pieces. *)
From Stdlib Require Import Floats.SpecFloat.
From S2P Require Import Prelude JsText JsHeap JsObject JsonLex.

Module Stream.
Import Gc Objects Lex.

(** ** State *)

Inductive Status := Ok_ | NeedMore | Complete | Error.

Inductive ParseState :=
  | Start | ParseComplete | ParseError_ | MapStart | MapNeedKey | MapSep | MapNeedVal | MapGotVal
  | ArrayStart | ArrayNeedVal | ArrayGotVal.

#[export] Instance ParseState_eq_dec : EqDecision ParseState.
Proof. solve_decision. Defined.

(** [type] and the pointer of that type. *)
Inductive Container := InArray (array : nat) | InObject (object : nat).

Record ContainerFrame := mkFrame { container : Container; frame_key : Utf.DecodedString; has_key : bool }.

Record Core := mkCore {
  error_ : option (string * Z); root_ : JsValue; has_result_ : bool; state_stack_ : list ParseState;
  containers_ : list ContainerFrame }.

Record StreamParser := mkParser {
  core : Core; complete_ : bool; buffer_ : list Z; pos_ : nat; total_offset_ : Z }.

Definition reset : StreamParser := mkParser (mkCore None Undefined false [Start] []) false [] 0 0.

(** ** Functions of the core and the heap *)

Definition C (A : Type) : Type := Core -> M (A * Core).

#[global] Instance C_ret : MRet C := fun A a c => mret (a, c).
#[global] Instance C_bind : MBind C := fun A B k m c => m c ≫= fun x : A * Core => k x.1 x.2.

Definition lift {A} (m : M A) : C A := fun c => a ← m; mret (a, c).
Definition get : C Core := fun c => mret (c, c).
Definition put_core (c : Core) : C unit := fun _ => mret (tt, c).
Definition stop {A} : C A := fun _ => fault.

Definition set_parse_error (message : string) (offset : Z) (c : Core) : Core :=
  match error_ c with
  | Some _ => c
  | None => mkCore (Some (message, offset)) (root_ c) (has_result_ c) (state_stack_ c) (containers_ c)
  end.

Definition set_error (message : string) (offset : Z) : C bool := c ← get; put_core (set_parse_error message offset c);; mret false.

Definition current_state : C ParseState := c ← get; match state_stack_ c with s :: _ => mret s | [] => stop end.

Definition with_stacks (states : list ParseState) (containers : list ContainerFrame) (c : Core) : Core :=
  mkCore (error_ c) (root_ c) (has_result_ c) states containers.

Definition set_state (s : ParseState) : C unit :=
  c ← get; match state_stack_ c with _ :: rest => put_core (with_stacks (s :: rest) (containers_ c) c) | [] => stop end.

Definition set_containers (l : list ContainerFrame) : C unit := c ← get; put_core (with_stacks (state_stack_ c) l c).

Definition push_state (s : ParseState) : C unit := c ← get; put_core (with_stacks (s :: state_stack_ c) (containers_ c) c).
Definition push_container (f : Container) : C unit := c ← get; set_containers (mkFrame f Utf.empty_string false :: containers_ c).

(** ** Values *)

Definition kInitialContainerCapacity : nat := 4.

Definition ensure_array_capacity (arr needed : nat) : M bool :=
  a ← load_array arr;
  let capacity := length (elems a) in
  if (needed <=? capacity)%nat then mret true
  else
    new_capacity ← grown_capacity (if (capacity =? 0)%nat then Z.of_nat kInitialContainerCapacity else u64 (Z.of_nat capacity * 2)) needed;
    move_elems arr new_capacity.

(** The value goes behind the last one; [false] without memory. *)
Definition append_value (arr : nat) (v : JsValue) : M bool :=
  a ← load_array arr;
  ok ← ensure_array_capacity arr (size a + 1);
  if ok : bool then
    a ← load_array arr;
    l ← Gc.put (size a) v (elems a);
    store arr (ArrayCell (mkArray (size a + 1) (u64 (version a + 1)) l));; mret true
  else mret false.

(** The key is made and the member is set; [false] without memory. *)
Definition set_member (obj : nat) (key : Utf.DecodedString) (v : JsValue) : M bool :=
  k ← make_gc_string key;
  match k with None => mret false | Some k => gc_object_set obj k v end.

Definition can_accept_value : C bool :=
  s ← current_state; mret (match s with Start | MapNeedVal | ArrayNeedVal | ArrayStart => true | _ => false end).

Definition value_complete (offset : Z) : C bool :=
  s ← current_state;
  match s with
  | Start => set_state ParseComplete;; mret true
  | MapNeedVal => set_state MapGotVal;; mret true
  | ArrayNeedVal | ArrayStart => set_state ArrayGotVal;; mret true
  | _ => set_error "unexpected value" offset
  end.

Definition add_value (v : JsValue) (offset : Z) : C bool :=
  c ← get;
  match containers_ c with
  | [] =>
      if has_result_ c then set_error "multiple top-level values" offset
      else put_core (mkCore (error_ c) v true (state_stack_ c) []);; mret true
  | f :: rest =>
      match container f with
      | InArray arr =>
          ok ← lift (append_value arr v);
          if ok : bool then mret true else set_error "out of memory" offset
      | InObject obj =>
          if negb (has_key f) then set_error "object value missing key" offset
          else
            ok ← lift (set_member obj (frame_key f) v);
            if ok : bool then set_containers (mkFrame (container f) Utf.empty_string false :: rest);; mret true
            else set_error "out of memory" offset
      end
  end.

Definition begin_object (offset : Z) : C bool :=
  ok ← can_accept_value;
  if negb ok then set_error "unexpected '{'" offset
  else
    obj ← lift (gc_new_object kInitialContainerCapacity);
    match obj with
    | None => set_error "out of memory" offset
    | Some obj =>
        ok ← add_value (Object obj) offset;
        if negb ok then mret false else push_container (InObject obj);; push_state MapStart;; mret true
    end.

Definition begin_array (offset : Z) : C bool :=
  ok ← can_accept_value;
  if negb ok then set_error "unexpected '['" offset
  else
    arr ← lift (gc_new_array kInitialContainerCapacity);
    match arr with
    | None => set_error "out of memory" offset
    | Some arr =>
        ok ← add_value (Array arr) offset;
        if negb ok then mret false else push_container (InArray arr);; push_state ArrayStart;; mret true
    end.

Definition is_object (f : ContainerFrame) : bool := match container f with InObject _ => true | InArray _ => false end.

Definition close_container (object : bool) (offset : Z) : C bool :=
  c ← get;
  match containers_ c with
  | f :: rest =>
      if eqb (is_object f) object then
        set_containers rest;;
        match state_stack_ c with
        | _ :: ((_ :: _) as states) => put_core (with_stacks states rest c);; value_complete offset
        | _ => set_error "invalid parser state" offset
        end
      else set_error "mismatched container close" offset
  | [] => set_error "mismatched container close" offset
  end.

Definition value_from_token (tok : Token) (offset : Z) : C (option JsValue) :=
  match tok with
  | String_ text =>
      str ← lift (make_gc_string text);
      match str with None => set_error "out of memory" offset;; mret None | Some gc => mret (Some (HeapString gc)) end
  | Number v => mret (Some v)
  | True_ => mret (Some (Boolean true))
  | False_ => mret (Some (Boolean false))
  | Null_ => mret (Some Null)
  | _ => set_error "invalid value token" offset;; mret None
  end.

(** ** One token

    [true]: the loop goes on; [false]: the parser is in its error state. *)

Definition give_up_state : C bool := set_state ParseError_;; mret false.
Definition refuse (message : string) (offset : Z) : C bool := set_error message offset;; give_up_state.
Definition unless_failed (m : C bool) : C bool := ok ← m; if ok : bool then mret true else give_up_state.

Definition on_key (s : ParseState) (tok : Token) (offset : Z) : C bool :=
  match tok with
  | RightBrace => if bool_decide (s = MapStart) then unless_failed (close_container true offset) else refuse "object key must be a string" offset
  | String_ text =>
      c ← get;
      match containers_ c with
      | f :: rest =>
          if is_object f then set_containers (mkFrame (container f) text true :: rest);; set_state MapSep;; mret true
          else refuse "invalid object state" offset
      | [] => refuse "invalid object state" offset
      end
  | _ => refuse "object key must be a string" offset
  end.

Definition on_value (tok : Token) (offset : Z) : C bool :=
  ok ← can_accept_value;
  if negb ok then refuse "unexpected token" offset
  else
    match tok with
    | LeftBrace => unless_failed (begin_object offset)
    | LeftBracket => unless_failed (begin_array offset)
    | _ =>
        v ← value_from_token tok offset;
        match v with
        | None => give_up_state
        | Some v =>
            ok ← add_value v offset;
            if negb ok then give_up_state else unless_failed (value_complete offset)
        end
    end.

Definition on_token (tok : Token) (offset : Z) : C bool :=
  s ← current_state;
  match s with
  | MapStart | MapNeedKey => on_key s tok offset
  | MapSep =>
      match tok with Colon => set_state MapNeedVal;; mret true | _ => refuse "object key and value must be separated by ':'" offset end
  | MapGotVal =>
      match tok with
      | RightBrace => unless_failed (close_container true offset)
      | Comma => set_state MapNeedKey;; mret true
      | _ => refuse "after object value, expected ',' or '}'" offset
      end
  | ArrayStart => match tok with RightBracket => unless_failed (close_container false offset) | _ => on_value tok offset end
  | ArrayNeedVal | MapNeedVal | Start => on_value tok offset
  | ArrayGotVal =>
      match tok with
      | RightBracket => unless_failed (close_container false offset)
      | Comma => set_state ArrayNeedVal;; mret true
      | _ => refuse "after array value, expected ',' or ']'" offset
      end
  | ParseComplete | ParseError_ => refuse "invalid parser state" offset
  end.

(** ** The loop *)

Definition with_core (c : Core) (p : StreamParser) : StreamParser :=
  mkParser c (complete_ p) (buffer_ p) (pos_ p) (total_offset_ p).
Definition advance (n : nat) (p : StreamParser) : StreamParser :=
  mkParser (core p) (complete_ p) (buffer_ p) (pos_ p + n) (total_offset_ p).

Definition compact_buffer (p : StreamParser) : StreamParser :=
  if (pos_ p =? 0)%nat then p
  else mkParser (core p) (complete_ p) (drop (pos_ p) (buffer_ p)) 0 (total_offset_ p + Z.of_nat (pos_ p)).

Definition set_complete (p : StreamParser) : StreamParser := mkParser (core p) true (buffer_ p) (pos_ p) (total_offset_ p).

(** The characters from [pos_] on, and the absolute offset of [pos_]. *)
Definition rest (p : StreamParser) : list Z := drop (pos_ p) (buffer_ p).
Definition offset_ (p : StreamParser) : Z := total_offset_ p + Z.of_nat (pos_ p).

Section Loop.
Context (strtod : list Z -> spec_float * bool * nat).

(** [lex_token] on the buffer: the result, the offset of the token, and the parser with
    its new position and error. *)
Definition lex (final : bool) (p : StreamParser) : LexResult Token * Z * StreamParser :=
  let '(n, r) := lex_token strtod (rest p) final (offset_ p) in
  let p := advance n p in
  (r, offset_ p,
   match r with
   | LexOk _ k => advance k p
   | LexNeedMore => p
   | LexError m o => with_core (set_parse_error m o (core p)) p
   end).

(** A function of the core, for the parser. *)
Definition on_core {A} (m : C A) (p : StreamParser) : M (A * StreamParser) := x ← m (core p); mret (x.1, with_core x.2 p).

Definition fail_now (p : StreamParser) : M (Status * StreamParser) := x ← on_core (set_state ParseError_) p; mret (Error, x.2).

Fixpoint loop (fuel : nat) (final : bool) (p : StreamParser) : M (Status * StreamParser) :=
  match fuel with
  | O => fault
  | S fuel' =>
      x ← on_core current_state p;
      if bool_decide (x.1 = ParseComplete) then
        let p := advance (skip_ws (rest p) 0).2 p in
        if (pos_ p =? length (buffer_ p))%nat then mret (Complete, set_complete (compact_buffer p))
        else
          let '(r, offset, p) := lex final p in
          match r with
          | LexNeedMore => mret (Complete, set_complete (compact_buffer p))
          | LexError _ _ => fail_now p
          | LexOk _ _ => fail_now (with_core (set_parse_error "trailing garbage after JSON value" offset (core p)) p)
          end
      else
        let '(r, offset, p) := lex final p in
        match r with
        | LexNeedMore => mret (NeedMore, compact_buffer p)
        | LexError _ _ => fail_now p
        | LexOk End_ _ =>
            if final then fail_now (with_core (set_parse_error "premature EOF" (offset_ p) (core p)) p)
            else mret (NeedMore, compact_buffer p)
        | LexOk tok _ =>
            y ← on_core (on_token tok offset) p;
            if y.1 : bool then loop fuel' final y.2 else mret (Error, y.2)
        end
  end.

Definition parse_internal (final : bool) (p : StreamParser) : M (Status * StreamParser) := loop (S (length (rest p))) final p.

Definition parse (data : list Z) (p : StreamParser) : M (Status * StreamParser) :=
  parse_internal false (mkParser (core p) (complete_ p) (buffer_ p ++ data) (pos_ p) (total_offset_ p)).

Definition finish (p : StreamParser) : M (Status * StreamParser) := parse_internal true p.

(** The pieces of a document, up to the first error, and the end. *)
Fixpoint run (pieces : list (list Z)) (p : StreamParser) : M (Status * StreamParser) :=
  match pieces with
  | [] => finish p
  | data :: pieces' => x ← parse data p; match x.1 with Error => mret x | _ => run pieces' x.2 end
  end.

End Loop.

(** ** The loop without the buffer

    What matters of the buffer is the text from [pos_] on and its offset. *)
Lemma c_bind {A B} (m : C A) (k : A -> C B) c h : (m ≫= k) c h = match m c h with Some (x, h') => k x.1 x.2 h' | None => None end.
Proof. done. Qed.

Lemma current_state_run c h x h' : current_state c h = Some (x, h') -> x.2 = c /\ h' = h.
Proof. unfold current_state. rewrite c_bind. cbn. destruct (state_stack_ c); [done|]. by intros [= <- <-]. Qed.

Section Pieces.
Context (strtod : list Z -> spec_float * bool * nat).

(** An error keeps no text. *)
Definition stopped (c : Core) : M (Status * Core * list Z * Z) := x ← set_state ParseError_ c; mret (Error, x.2, [], 0).

Definition unless_error (m : M (bool * Core)) (k : Core -> M (Status * Core * list Z * Z)) : M (Status * Core * list Z * Z) :=
  y ← m; if y.1 : bool then k y.2 else mret (Error, y.2, [], 0).

Fixpoint text_loop (fuel : nat) (final : bool) (c : Core) (l : list Z) (offset : Z) : M (Status * Core * list Z * Z) :=
  match fuel with
  | O => fault
  | S fuel' =>
      x ← current_state c;
      let '(r, n) := skip_ws l 0 in
      let offset := offset + Z.of_nat n in
      if bool_decide (x.1 = ParseComplete) then
        match r with
        | [] => mret (Complete, x.2, [], offset)
        | _ =>
            match lex_here strtod r final offset with
            | LexNeedMore => mret (Complete, x.2, r, offset)
            | LexError m o => stopped (set_parse_error m o x.2)
            | LexOk _ _ => stopped (set_parse_error "trailing garbage after JSON value" offset x.2)
            end
        end
      else
        match lex_here strtod r final offset with
        | LexNeedMore => mret (NeedMore, x.2, r, offset)
        | LexError m o => stopped (set_parse_error m o x.2)
        | LexOk End_ _ => if final then stopped (set_parse_error "premature EOF" offset x.2) else mret (NeedMore, x.2, r, offset)
        | LexOk tok k =>
            unless_error (on_token tok offset x.2) (fun c => text_loop fuel' final c (drop k r) (offset + Z.of_nat k))
        end
  end.

(** More fuel than characters is all the same. *)
Lemma text_loop_fuel f1 : forall f2 final c l o h, (length l < f1)%nat -> (length l < f2)%nat ->
  text_loop f1 final c l o h = text_loop f2 final c l o h.
Proof.
  induction f1 as [|f1 IH]; intros f2 final c l o h H1 H2; [lia|]. destruct f2 as [|f2]; [lia|]. cbn [text_loop].
  apply m_bind_eq; [done|]. intros x h1. destruct (skip_ws l 0) as [r n] eqn:E. destruct (skip_ws_spec _ _ _ _ E) as (_ & _ & Hlen & _).
  cbn zeta. destruct (bool_decide _); [done|]. destruct r as [|ch r]; [by destruct final|].
  pose proof (lex_here_within strtod ch r final (o + Z.of_nat n)) as Hw. destruct (lex_here _ _ _ _) as [tok k| |]; [|done|done]. cbn [within length] in Hw.
  cbn [length] in Hlen.
  destruct tok; try (destruct final; done); (apply m_bind_eq; [done|]; intros [[] c'] h2; cbn [fst snd]; [|done]; apply IH; rewrite length_drop; cbn [length]; lia).
Qed.

(** White space may be passed before more text comes. *)
Lemma text_loop_ws fuel final c l more o h r n : skip_ws l 0 = (r, n) ->
  text_loop (S fuel) final c (l ++ more) o h = text_loop (S fuel) final c (r ++ more) (o + Z.of_nat n) h.
Proof.
  intros E. cbn [text_loop]. rewrite (skip_ws_twice more l 0 r n E). destruct (skip_ws (r ++ more) 0) as [r2 k2]. cbn [fst snd].
  by replace (o + Z.of_nat (n + k2)) with (o + Z.of_nat n + Z.of_nat k2) by lia.
Qed.

(** The text in two parts: the loop on the first part, then on what it has left. *)
Lemma text_loop_app fuel : forall fuel' final c l more o h, (length l < fuel)%nat -> (length (l ++ more) < fuel')%nat ->
  match text_loop fuel false c l o h with
  | Some ((Error, c', _, _), h') => text_loop fuel' final c (l ++ more) o h = Some ((Error, c', [], 0), h')
  | Some ((_, c', l', o'), h') => (length l' <= length l)%nat /\
      forall f, (length (l' ++ more) < f)%nat -> text_loop fuel' final c (l ++ more) o h = text_loop f final c' (l' ++ more) o' h'
  | None => text_loop fuel' final c (l ++ more) o h = None
  end.
Proof.
  induction fuel as [|fuel IH]; intros fuel' final c l more o h Hf Hf'; [lia|]. destruct fuel' as [|fuel']; [lia|].
  assert (forall r n, skip_ws l 0 = (r, n) -> (length r <= length l)%nat /\ forall f, (length (r ++ more) < f)%nat ->
    text_loop (S fuel') final c (l ++ more) o h = text_loop f final c (r ++ more) (o + Z.of_nat n) h) as Hws.
  { intros r n E. destruct (skip_ws_spec _ _ _ _ E) as (_ & _ & Hlen & _). split; [lia|]. intros f Hr. rewrite (text_loop_ws _ _ _ _ _ _ _ _ _ E).
    apply text_loop_fuel; [|done]. rewrite length_app in *. lia. }
  destruct (skip_ws l 0) as [r n] eqn:E. destruct (skip_ws_spec _ _ _ _ E) as (_ & _ & Hlen & _).
  assert (r <> [] -> skip_ws (l ++ more) 0 = (r ++ more, n)) as Hskip by by apply skip_ws_app.
  specialize (Hws r n eq_refl).
  (* the loop on all of the text, unfolded once *)
  assert (exists R, R = text_loop (S fuel') final c (l ++ more) o h) as [R HR] by eauto.
  rewrite <-HR in Hws |- *. cbn [text_loop] in HR. cbn [text_loop]. rewrite E.
  destruct (current_state c h) as [[x h0]|] eqn:Ex.
  2:{ rewrite HR. unfold mbind, M_bind. by rewrite Ex. }
  destruct (current_state_run _ _ _ _ Ex) as [Ec ->]. unfold mbind at 1, M_bind at 1. rewrite Ex. rewrite Ec.
  rewrite (m_bind_run _ _ _ _ _ Ex) in HR. rewrite Ec in HR. destruct r as [|ch r].
  { destruct (bool_decide (x.1 = ParseComplete)); exact Hws. }
  rewrite Hskip in HR by done. cbn [app] in HR.
  pose proof (lex_here_stable more final strtod (ch :: r) (o + Z.of_nat n)) as Hst. cbn [app] in Hst.
  pose proof (lex_here_within strtod ch r false (o + Z.of_nat n)) as Hw. pose proof (lex_here_not_end strtod ch r false (o + Z.of_nat n)) as Hne.
  assert (forall c0, match stopped c0 h with Some ((Error, c', _, _), h') => stopped c0 h = Some ((Error, c', [], 0), h') | Some _ => False | None => stopped c0 h = None end) as Hstop.
  { intros c0. unfold stopped, mbind, M_bind. destruct (set_state ParseError_ c0 h) as [[y h1]|]; done. }
  destruct (bool_decide (x.1 = ParseComplete)).
  - destruct (lex_here strtod (ch :: r) false _) as [tok k| |m' o']; cbn [stable] in Hst; [|exact Hws|]; rewrite Hst in HR; rewrite HR; clear -Hstop;
      match goal with |- context [stopped ?c0 h] => specialize (Hstop c0); destruct (stopped c0 h) as [[[[[[] ?] ?] ?] ?]|]; done end.
  - destruct (lex_here strtod (ch :: r) false _) as [tok k| |m' o']; cbn [stable] in Hst; cbn [within not_end] in Hw, Hne; [|exact Hws|].
    + rewrite Hst in HR. assert (R = unless_error (on_token tok (o + Z.of_nat n) c)
        (fun c => text_loop fuel' final c (drop k (ch :: r ++ more)) (o + Z.of_nat n + Z.of_nat k)) h) as HR' by (rewrite HR; by destruct tok).
      assert (match unless_error (on_token tok (o + Z.of_nat n) c) (fun c => text_loop fuel false c (drop k (ch :: r)) (o + Z.of_nat n + Z.of_nat k)) h with
        | Some ((Error, c', _, _), h') => R = Some ((Error, c', [], 0), h')
        | Some ((_, c', l', o'), h') => (length l' <= length l)%nat /\ forall f, (length (l' ++ more) < f)%nat -> R = text_loop f final c' (l' ++ more) o' h'
        | None => R = None
        end) as Htok; [|by destruct tok]. rewrite HR'. unfold unless_error, mbind, M_bind. destruct (on_token tok _ c h) as [[[b c1] h1]|]; [|done]. cbn [fst snd].
      destruct b; [|done]. rewrite app_comm_cons, drop_app_le by lia. cbn [length] in Hw, Hlen.
      specialize (IH fuel' final c1 (drop k (ch :: r)) more (o + Z.of_nat n + Z.of_nat k) h1).
      rewrite !length_app, !length_drop in *. cbn [length] in *. specialize (IH ltac:(lia) ltac:(lia)).
      destruct (text_loop fuel false c1 _ _ h1) as [[[[[s c'] l'] o'] h']|]; [|done]. destruct s; try done; destruct IH as [IH1 IH2]; (split; [lia|done]).
    + rewrite Hst in HR; rewrite HR. clear -Hstop.
      match goal with |- context [stopped ?c0 h] => specialize (Hstop c0); destruct (stopped c0 h) as [[[[[[] ?] ?] ?] ?]|]; done end.
Qed.

(** ** The loop on the buffer *)

Definition fits (p : StreamParser) : Prop := (pos_ p <= length (buffer_ p))%nat.

(** What is left of a result when the buffer is forgotten. *)
Definition view (x : Status * StreamParser) : Status * Core * list Z * Z :=
  match x.1 with Error => (Error, core x.2, [], 0) | s => (s, core x.2, rest x.2, offset_ x.2) end.

Lemma rest_advance n p : rest (advance n p) = drop n (rest p).
Proof. unfold rest. cbn. by rewrite drop_drop. Qed.

Lemma offset_advance n p : offset_ (advance n p) = offset_ p + Z.of_nat n.
Proof. unfold offset_. cbn. lia. Qed.

Lemma rest_compact p : rest (compact_buffer p) = rest p.
Proof. unfold compact_buffer, rest. destruct (Nat.eqb_spec (pos_ p) 0) as [->|]; [done|]. cbn. by rewrite drop_0. Qed.

Lemma offset_compact p : offset_ (compact_buffer p) = offset_ p.
Proof. unfold compact_buffer, offset_. destruct (Nat.eqb_spec (pos_ p) 0); [done|]. cbn. lia. Qed.

Lemma core_compact p : core (compact_buffer p) = core p.
Proof. unfold compact_buffer. by destruct (_ =? _)%nat. Qed.

Lemma fits_compact p : fits p -> fits (compact_buffer p).
Proof. unfold compact_buffer, fits. destruct (_ =? _)%nat; [done|]. cbn. lia. Qed.

Lemma fits_advance n p : fits p -> (n <= length (rest p))%nat -> fits (advance n p).
Proof. unfold fits, rest. rewrite length_drop. cbn. lia. Qed.

Lemma fail_now_text p h : fits p -> match fail_now p h with
  | Some (x, h') => stopped (core p) h = Some (view x, h') /\ fits x.2
  | None => stopped (core p) h = None
  end.
Proof. intros Hp. unfold fail_now, stopped, on_core, mbind, M_bind. destruct (set_state ParseError_ (core p) h) as [[y h1]|]; done. Qed.

Lemma bind_none {A B} (m : M A) (k : A -> M B) h : m h = None -> (m ≫= k) h = None.
Proof. intros E. unfold mbind, M_bind. by rewrite E. Qed.

Lemma lex_run final p n r : skip_ws (rest p) 0 = (r, n) -> lex strtod final p =
  (lex_here strtod r final (offset_ p + Z.of_nat n), offset_ (advance n p),
   match lex_here strtod r final (offset_ p + Z.of_nat n) with
   | LexOk _ k => advance k (advance n p)
   | LexNeedMore => advance n p
   | LexError m o => with_core (set_parse_error m o (core p)) (advance n p)
   end).
Proof. intros E. unfold lex, lex_token. by rewrite E. Qed.

Lemma loop_text fuel : forall final p h, fits p -> match loop strtod fuel final p h with
  | Some (x, h') => text_loop fuel final (core p) (rest p) (offset_ p) h = Some (view x, h') /\ fits x.2
  | None => text_loop fuel final (core p) (rest p) (offset_ p) h = None
  end.
Proof.
  induction fuel as [|fuel IH]; intros final p h Hp; [done|]. cbn [loop text_loop].
  destruct (skip_ws (rest p) 0) as [r n] eqn:E. destruct (skip_ws_spec _ _ _ _ E) as (_ & Er & Hlen & Hr). rewrite Nat.sub_0_r in Er, Hlen.
  assert (rest (advance n p) = r) as Era by (by rewrite rest_advance). assert (fits (advance n p)) as Hfa by (apply fits_advance; [done|lia]).
  destruct (current_state (core p) h) as [[x h0]|] eqn:Ex.
  2:{ rewrite !bind_none; [done|done|]. unfold on_core. by apply bind_none. }
  destruct (current_state_run _ _ _ _ Ex) as [Ec ->]. rewrite (m_bind_run _ _ _ _ _ Ex), Ec.
  assert (on_core current_state p h = Some ((x.1, p), h)) as Eo.
  { unfold on_core. rewrite (m_bind_run _ _ _ _ _ Ex), Ec. by destruct p. }
  rewrite (m_bind_run _ _ _ _ _ Eo). clear Eo. cbn [fst snd].
  pose proof (offset_advance n p) as Eoff.
  assert (forall k, (k <= length r)%nat -> fits (advance k (advance n p))) as Hfk by (intros k Hk; apply fits_advance; [done|by rewrite Era]).
  destruct (bool_decide (x.1 = ParseComplete)).
  - cbn [snd]. rewrite (lex_run final (advance n p) 0 r).
    2:{ rewrite Era. destruct r as [|c r]; [done|]. cbn [skip_ws]. by rewrite Hr. }
    rewrite Eoff, Z.add_0_r.
    assert ((pos_ (advance n p) =? length (buffer_ (advance n p)))%nat = match r with [] => true | _ => false end) as ->.
    { apply (f_equal length) in Era. unfold rest in Era. rewrite length_drop in Era. unfold fits in Hfa.
      destruct r; cbn [length] in Era; [apply Nat.eqb_eq|apply Nat.eqb_neq]; lia. }
    assert (advance 0 (advance n p) = advance n p) as Ez by (unfold advance; cbn; by rewrite Nat.add_0_r).
    destruct r as [|c r].
    + split; [|by apply fits_compact]. unfold view. cbn [fst snd set_complete core]. rewrite core_compact.
      change (rest (set_complete (compact_buffer (advance n p)))) with (rest (compact_buffer (advance n p))).
      change (offset_ (set_complete (compact_buffer (advance n p)))) with (offset_ (compact_buffer (advance n p))).
      by rewrite rest_compact, offset_compact, Era, Eoff.
    + destruct (lex_here strtod (c :: r) final (offset_ p + Z.of_nat n)) as [tok k| |m o] eqn:El.
      * rewrite Ez. pose proof (lex_here_within strtod c r final (offset_ p + Z.of_nat n)) as Hw. rewrite El in Hw. cbn in Hw.
        rewrite Eoff. apply (fail_now_text (with_core _ _)). exact (Hfk k (proj2 Hw)).
      * rewrite Ez. split; [|by apply fits_compact]. unfold view. cbn [fst snd set_complete core]. rewrite core_compact.
        change (rest (set_complete (compact_buffer (advance n p)))) with (rest (compact_buffer (advance n p))).
        change (offset_ (set_complete (compact_buffer (advance n p)))) with (offset_ (compact_buffer (advance n p))).
        by rewrite rest_compact, offset_compact, Era, Eoff.
      * rewrite Ez. apply (fail_now_text (with_core _ _)); exact Hfa.
  - rewrite (lex_run final p n r E). destruct (lex_here strtod r final (offset_ p + Z.of_nat n)) as [tok k| |m o] eqn:El.
    + assert ((k <= length r)%nat) as Hk.
      { destruct r as [|c r]; [destruct final; [cbn in El; by injection El as _ <-|done]|].
        pose proof (lex_here_within strtod c r final (offset_ p + Z.of_nat n)) as Hw. rewrite El in Hw. cbn in *. lia. }
      assert (match (y ← on_core (on_token tok (offset_ (advance n p))) (advance k (advance n p)); if y.1 : bool then loop strtod fuel final y.2 else mret (Error, y.2)) h with
        | Some (x, h') => unless_error (on_token tok (offset_ p + Z.of_nat n) (core p)) (fun c => text_loop fuel final c (drop k r) (offset_ p + Z.of_nat n + Z.of_nat k)) h = Some (view x, h') /\ fits x.2
        | None => unless_error (on_token tok (offset_ p + Z.of_nat n) (core p)) (fun c => text_loop fuel final c (drop k r) (offset_ p + Z.of_nat n + Z.of_nat k)) h = None
        end) as Htok.
      { rewrite Eoff. unfold unless_error, on_core. rewrite m_bind_assoc. unfold mbind, M_bind. cbn [core advance].
        destruct (on_token tok _ (core p) h) as [[[b c1] h1]|]; [|done]. unfold mret, M_ret. cbn [fst snd]. destruct b; [|split; [done|exact (Hfk k Hk)]].
        specialize (IH final (with_core c1 (advance k (advance n p))) h1 (Hfk k Hk)).
        change (rest (with_core c1 (advance k (advance n p)))) with (rest (advance k (advance n p))) in IH.
        change (offset_ (with_core c1 (advance k (advance n p)))) with (offset_ (advance k (advance n p))) in IH.
        rewrite rest_advance, offset_advance, Era, Eoff in IH. cbn [core with_core] in IH. exact IH. }
      destruct tok; try exact Htok. assert (k = 0%nat) as ->.
      { destruct r as [|c r]; [destruct final; [cbn in El; by injection El as <-|done]|].
        pose proof (lex_here_not_end strtod c r final (offset_ p + Z.of_nat n)) as Hne. by rewrite El in Hne. }
      assert (advance 0 (advance n p) = advance n p) as -> by (unfold advance; cbn; by rewrite Nat.add_0_r). destruct final.
      * rewrite Eoff. apply (fail_now_text (with_core _ _)). exact Hfa.
      * split; [|by apply fits_compact]. unfold view. cbn [fst snd]. by rewrite core_compact, rest_compact, offset_compact, Era, Eoff.
    + split; [|by apply fits_compact]. unfold view. cbn [fst snd]. by rewrite core_compact, rest_compact, offset_compact, Era, Eoff.
    + apply (fail_now_text (with_core _ _)); exact Hfa.
Qed.

(** The status, what is known of the document, and the heap. *)
Definition outcome (r : option ((Status * StreamParser) * GcHeap)) : option (Status * Core * GcHeap) :=
  (fun x : (Status * StreamParser) * GcHeap => (x.1.1, core x.1.2, x.2)) <$> r.

Definition text_outcome (r : option ((Status * Core * list Z * Z) * GcHeap)) : option (Status * Core * GcHeap) :=
  (fun x : (Status * Core * list Z * Z) * GcHeap => (x.1.1.1.1, x.1.1.1.2, x.2)) <$> r.

Lemma view_outcome x : (view x).1.1.1 = x.1 /\ (view x).1.1.2 = core x.2.
Proof. unfold view. by destruct x as [[] p]. Qed.

Lemma run_text pieces : forall p h f, fits p -> (length (rest p ++ concat pieces) < f)%nat ->
  outcome (run strtod pieces p h) = text_outcome (text_loop f true (core p) (rest p ++ concat pieces) (offset_ p) h).
Proof.
  induction pieces as [|data pieces IH]; intros p h f Hp Hf; cbn [run concat] in *.
  - rewrite app_nil_r in *. unfold finish, parse_internal. rewrite (text_loop_fuel f (S (length (rest p)))) by lia.
    pose proof (loop_text (S (length (rest p))) true p h Hp) as H. destruct (loop strtod _ true p h) as [[x h']|]; [|by rewrite H].
    destruct H as [-> _]. unfold outcome, text_outcome. cbn. by destruct (view_outcome x) as [-> ->].
  - unfold parse, parse_internal. set (p1 := mkParser _ _ _ _ _).
    assert (rest p1 = rest p ++ data) as Er by (unfold rest; cbn; by rewrite drop_app_le by done).
    assert (fits p1) as Hp1 by (unfold fits in *; cbn; rewrite length_app; lia).
    pose proof (loop_text (S (length (rest p1))) false p1 h Hp1) as H.
    pose proof (text_loop_app (S (length (rest p1))) f true (core p1) (rest p1) (concat pieces) (offset_ p1) h ltac:(lia)) as Ha.
    rewrite Er, <-app_assoc in Ha. specialize (Ha Hf). rewrite Er in H.
    change (core p1) with (core p) in *. change (offset_ p1) with (offset_ p) in *. rewrite Er.
    unfold mbind, M_bind. destruct (loop strtod _ false p1 h) as [[x h']|]; [|rewrite H in Ha; by rewrite Ha].
    destruct H as [Ht Hfit]. rewrite Ht in Ha. destruct (view_outcome x) as [Ev1 Ev2]. destruct x as [s p2]. cbn [fst snd] in *.
    destruct s; cbn [view fst snd] in Ha.
    + destruct Ha as [_ Ha]. rewrite (Ha (S (length (rest p2 ++ concat pieces)))) by lia. apply IH; [done|lia].
    + destruct Ha as [_ Ha]. rewrite (Ha (S (length (rest p2 ++ concat pieces)))) by lia. apply IH; [done|lia].
    + destruct Ha as [_ Ha]. rewrite (Ha (S (length (rest p2 ++ concat pieces)))) by lia. apply IH; [done|lia].
    + by rewrite Ha.
Qed.

(** C27. The incremental parser does not care how a document is cut: giving it the
    pieces one after the other, up to the first error, and then the end, has the same
    status, error message and offset, value and heap as giving it the whole document at
    once, whether the document is well-formed or not. *)
Theorem pieces_do_not_matter h pieces :
  outcome (run strtod pieces reset h) = outcome (run strtod [concat pieces] reset h).
Proof.
  rewrite (run_text pieces reset h (S (length (concat pieces)))); [|by unfold fits|cbn; lia].
  rewrite (run_text [concat pieces] reset h (S (length (concat pieces)))); [|by unfold fits|cbn; rewrite app_nil_r; lia].
  cbn [concat]. by rewrite app_nil_r.
Qed.

End Pieces.

(** A document in pieces that cut a number, an escape and a literal. *)
Definition sample_pieces : list (list Z) :=
  [bytes_of_string "[1"; bytes_of_string "2, {"; [34]; bytes_of_string "\u00"; bytes_of_string "e9"; [34]; bytes_of_string " : tr";
   bytes_of_string "ue}] "].

Example sample_document : forall strtod, exists c h, outcome (run strtod sample_pieces reset initial_heap) = Some (Complete, c, h) /\
  root_ c = Array 0 /\ body <$> cells h !! 0%nat = Some (ArrayCell (mkArray 2 2 [Integer 12; Object 1; Undefined; Undefined])).
Proof. intros strtod. eexists _, _. split; [vm_compute; reflexivity|]. by split. Qed.

(** After an error the parser asks for more input. *)
Example error_then_more strtod :
  fst <$> (x ← parse strtod (bytes_of_string "]") reset; y ← parse strtod [] x.2; mret (x.1, y.1)) initial_heap = Some (Error, NeedMore).
Proof. vm_compute. reflexivity. Qed.

End Stream.
