(* ===== verification/JsonParse.v ===== *)
(** * The JSON parser
    ([ParserImpl] and [Parser] of [src/common/json/JsonDecode.cpp])

    A function of the parser takes the rest of the text and its position, and gives its
    result with the rest and the position behind it, or the error: an error is set once,
    as every caller gives up.

    The recursion has two bounds.  [stack] is that of the thread: the number of calls of
    [parse_value] inside each other for which there is room.  The source does not look at
    it, and the call that finds no room is the end of the process, [None]
    ([deep_text_overflows]).  [turns] is only for the loops, which take a character in
    every turn: there are as many turns as characters. *)
From Stdlib Require Import Floats.SpecFloat.
From S2P Require Import Prelude JsText JsHeap JsObject JsonLex JsonStream.

Module Parser.
Import Gc Objects Lex.

(** ** The monad *)

Inductive Result (A : Type) := Done (a : A) (rest : list Z) (pos : nat) | Failed (message : string) (offset : nat).
Arguments Done {A} _ _ _.
Arguments Failed {A} _ _.

(** A reader changes no heap. *)
Definition Reader (A : Type) : Type := list Z -> nat -> Result A.
Definition P (A : Type) : Type := list Z -> nat -> M (Result A).

Definition read {A} (r : Reader A) : P A := fun l pos => mret (r l pos).
Definition fail {A} (message : string) : P A := fun _ pos => mret (Failed message pos).

#[global] Instance P_ret : MRet P := fun A a l pos => mret (Done a l pos).
#[global] Instance P_bind : MBind P := fun A B k m l pos =>
  m l pos ≫= fun r => match r with Done a l pos => k a l pos | Failed message offset => mret (Failed message offset) end.

(** An operation on the heap, which fails without memory. *)
Definition allocated {A} (m : M (option A)) : P A := fun l pos =>
  m ≫= fun r => match r with Some a => mret (Done a l pos) | None => mret (Failed "out of memory" pos) end.
Definition succeeds (m : M bool) : P unit := fun l pos =>
  m ≫= fun ok : bool => if ok then mret (Done tt l pos) else mret (Failed "out of memory" pos).

Definition skip_white : P unit := fun l pos => let '(l, pos) := skip_ws l pos in mret (Done tt l pos).

(** ** Strings *)

Definition parse_hex : Reader Z := fun l pos =>
  if (length l <? 4)%nat then Failed "invalid unicode escape" pos
  else
    match hex_run 4 0 0 l with
    | inr k => Failed "invalid unicode escape" (pos + k)%nat
    | inl value => Done value (drop 4 l) (pos + 4)%nat
    end.

(** After [\u]. *)
Definition parse_unicode : Reader Z := fun l pos =>
  match parse_hex l pos with
  | Failed m o => Failed m o
  | Done code l pos =>
      if Utf.is_high code then
        match l with
        | c0 :: c1 :: digits =>
            if (c0 =? chr "\") && (c1 =? chr "u") then
              match parse_hex digits (pos + 2)%nat with
              | Failed m o => Failed m o
              | Done low l pos =>
                  if negb (Utf.is_low low) then Failed "invalid unicode surrogate pair" pos
                  else
                    let code := u32 (0x10000 + Z.shiftl (code - 0xD800) 10 + (low - 0xDC00)) in
                    if 0x10FFFF <? code then Failed "invalid unicode codepoint" pos else Done code l pos
              end
            else Failed "invalid unicode surrogate pair" pos
        | _ => Failed "invalid unicode surrogate pair" pos
        end
      else if Utf.is_low code then Failed "invalid unicode surrogate pair" pos
      else if 0x10FFFF <? code then Failed "invalid unicode codepoint" pos
      else Done code l pos
  end.

Fixpoint parse_string_loop (fuel : nat) (out : Utf.DecodedString) (l : list Z) (pos : nat) : Result Utf.DecodedString :=
  match l, fuel with
  | [], _ => Failed "unterminated string" pos
  | _, O => Failed "unterminated string" pos
  | ch :: rest, S fuel' =>
      if ch =? 34 then Done out rest (pos + 1)%nat
      else if ch =? chr "\" then
        match rest with
        | [] => Failed "unterminated escape sequence" (pos + 1)%nat
        | esc :: rest' =>
            if esc =? chr "u" then
              match parse_unicode rest' (pos + 2)%nat with
              | Failed m o => Failed m o
              | Done code l pos => parse_string_loop fuel' (Utf.append_codepoint out code) l pos
              end
            else
              match simple_escape esc with
              | Some unit => parse_string_loop fuel' (Utf.append_code_unit out unit) rest' (pos + 2)%nat
              | None => Failed "invalid escape sequence" (pos + 1)%nat
              end
        end
      else if ch <? 0x20 then Failed "invalid control character in string" pos
      else
        match decode_utf8_codepoint l true (Z.of_nat pos) with
        | LexOk codepoint k =>
            if codepoint <? 0x20 then Failed "invalid control character in string" pos
            else parse_string_loop fuel' (Utf.append_codepoint out codepoint) (drop k l) (pos + k)%nat
        | LexError m o => Failed m (Z.to_nat o)
        | LexNeedMore => Failed "" pos
        end
  end.

Definition parse_string : Reader Utf.DecodedString := fun l pos =>
  match l with
  | ch :: rest => if ch =? 34 then parse_string_loop (length rest) Utf.empty_string rest (pos + 1)%nat else Failed "expected string" pos
  | [] => Failed "expected string" pos
  end.

(** ** Numbers and literals *)

Section Number.
Context (strtod : list Z -> spec_float * bool * nat).
(** The text and the position at the start of the number. *)
Context (text : list Z) (start : nat).

Definition invalid_number : Result JsValue := Failed "invalid number" start.

(** The rest of the text is [l], at [pos]. *)
Definition number_value (is_float : bool) (l : list Z) (pos : nat) : Result JsValue :=
  let number := take (pos - start) text in
  if is_float then
    let '(value, erange, end_) := strtod number in
    if erange : bool then Failed "floating point overflow" start
    else if negb (end_ =? length number)%nat then invalid_number
    else Done (Float value) l pos
  else
    match from_chars number with
    | OutOfRange => Failed "integer overflow" start
    | Invalid => invalid_number
    | Parsed value => Done (Integer value) l pos
    end.

Definition number_exponent (is_float : bool) (l : list Z) (pos : nat) : Result JsValue :=
  match l with
  | c :: l' =>
      if (c =? chr "e") || (c =? chr "E") then
        let '(l', pos) := match l' with
                          | s :: l'' => if (s =? chr "+") || (s =? chr "-") then (l'', (pos + 2)%nat) else (l', (pos + 1)%nat)
                          | [] => (l', (pos + 1)%nat)
                          end in
        match l' with
        | d :: _ => if is_digit d then let '(r, k) := skip_digits l' pos in number_value true r k else invalid_number
        | [] => invalid_number
        end
      else number_value is_float l pos
  | [] => number_value is_float l pos
  end.

Definition number_fraction (l : list Z) (pos : nat) : Result JsValue :=
  match l with
  | c :: l' =>
      if c =? chr "." then
        match l' with
        | d :: _ => if is_digit d then let '(r, k) := skip_digits l' (pos + 1)%nat in number_exponent true r k else invalid_number
        | [] => invalid_number
        end
      else number_exponent false l pos
  | [] => number_exponent false l pos
  end.

Definition number_integer (l : list Z) (pos : nat) : Result JsValue :=
  match l with
  | c :: l' =>
      if c =? chr "0" then
        match l' with
        | d :: _ => if is_digit d then Failed "leading zero in number" start else number_fraction l' (pos + 1)%nat
        | [] => number_fraction l' (pos + 1)%nat
        end
      else if (49 <=? c) && (c <=? 57) then let '(r, k) := skip_digits l pos in number_fraction r k
      else invalid_number
  | [] => invalid_number
  end.

Definition parse_number_at : Result JsValue :=
  match text with c :: l => if c =? chr "-" then number_integer l (start + 1)%nat else number_integer text start | [] => invalid_number end.

End Number.

Definition parse_number (strtod : list Z -> spec_float * bool * nat) : Reader JsValue := fun l pos => parse_number_at strtod l pos.

Definition parse_literal (literal : list Z) (value : JsValue) : Reader JsValue := fun l pos =>
  if bool_decide (take (length literal) l = literal) then Done value (drop (length literal) l) (pos + length literal)%nat
  else Failed "invalid literal" pos.

(** ** Values *)

Section Values.
Context (strtod : list Z -> spec_float * bool * nat).

Section Containers.
Context (parse_value : P JsValue).

(** The first character, without taking it. *)
Definition peek : P (option Z) := fun l pos => mret (Done (list.head l) l pos).
Definition take_char : P unit := fun l pos => mret (Done tt (drop 1 l) (pos + 1)%nat).

Fixpoint members (fuel : nat) (obj : nat) : P JsValue :=
  match fuel with
  | O => fun _ _ => fault
  | S fuel' =>
      skip_white;;
      ch ← peek;
      match ch with
      | None => fail "unexpected end of input"
      | Some ch =>
          if negb (ch =? 34) then fail "object key must be a string"
          else
            key ← read parse_string;
            skip_white;;
            ch ← peek;
            if negb (bool_decide (ch = Some (chr ":"))) then fail "expected ':' after object key"
            else
              take_char;;
              value ← parse_value;
              succeeds (Stream.set_member obj key value);;
              skip_white;;
              ch ← peek;
              match ch with
              | None => fail "unexpected end of input"
              | Some ch =>
                  if ch =? chr "," then take_char;; members fuel' obj
                  else if ch =? chr "}" then take_char;; mret (Object obj)
                  else fail "expected ',' or '}' after object value"
              end
      end
  end.

Definition parse_object (fuel : nat) : P JsValue :=
  take_char;;
  skip_white;;
  obj ← allocated (gc_new_object Stream.kInitialContainerCapacity);
  ch ← peek;
  if bool_decide (ch = Some (chr "}")) then take_char;; mret (Object obj) else members fuel obj.

Fixpoint elements (fuel : nat) (arr : nat) : P JsValue :=
  match fuel with
  | O => fun _ _ => fault
  | S fuel' =>
      value ← parse_value;
      succeeds (Stream.append_value arr value);;
      skip_white;;
      ch ← peek;
      match ch with
      | None => fail "unexpected end of input"
      | Some ch =>
          if ch =? chr "," then take_char;; elements fuel' arr
          else if ch =? chr "]" then take_char;; mret (Array arr)
          else fail "expected ',' or ']' after array value"
      end
  end.

Definition parse_array (fuel : nat) : P JsValue :=
  take_char;;
  skip_white;;
  arr ← allocated (gc_new_array Stream.kInitialContainerCapacity);
  ch ← peek;
  if bool_decide (ch = Some (chr "]")) then take_char;; mret (Array arr) else elements fuel arr.

End Containers.

Fixpoint parse_value (turns stack : nat) : P JsValue :=
  match stack with
  | O => fun _ _ => fault
  | S stack' =>
      skip_white;;
      ch ← peek;
      match ch with
      | None => fail "unexpected end of input"
      | Some ch =>
          if ch =? 34 then
            value ← read parse_string;
            str ← allocated (make_gc_string value);
            mret (HeapString str)
          else if ch =? chr "{" then parse_object (parse_value turns stack') turns
          else if ch =? chr "[" then parse_array (parse_value turns stack') turns
          else if ch =? chr "t" then read (parse_literal (bytes_of_string "true") (Boolean true))
          else if ch =? chr "f" then read (parse_literal (bytes_of_string "false") (Boolean false))
          else if ch =? chr "n" then read (parse_literal (bytes_of_string "null") Null)
          else if (ch =? chr "-") || is_digit ch then read (parse_number strtod)
          else fail "invalid token"
      end
  end.

Definition parse_document (turns stack : nat) : P JsValue :=
  skip_white;;
  value ← parse_value turns stack;
  skip_white;;
  ch ← peek;
  match ch with None => mret value | Some _ => fail "trailing characters after JSON value" end.

(** [Parser::parse] *)
Definition parse (stack : nat) (data : list Z) : M (Result JsValue) := parse_document (S (length data)) stack data 0%nat.

End Values.

End Parser.
