(* ===== verification/JsonEncode.v ===== *)
(** * The JSON generator
    ([src/common/json/JsonEncode.cpp], [JsonEncode.h] and [JsValueEncode.cpp])

    The generator keeps the stack of states, its top first; [depth_] is its length.  The
    sink takes the text or refuses it: its answers are a list, and without an answer it
    takes everything.  A value is written by recursion over the heap, which may be
    cyclic: the stack of states bounds the depth of the recursion. *)
From Stdlib Require Import Floats.SpecFloat.
From S2P Require Import Prelude JsText JsHeap.

Module Encode.
Import Gc.

(** ** The generator *)

Inductive State := Start | MapStart | MapKey | MapValue | ArrayStart | InArray | Complete | Error.

#[export] Instance State_eq_dec : EqDecision State.
Proof. solve_decision. Defined.

Inductive Result := OK | KeysMustBeString | MaxDepthExceeded | ErrorState | GenerateComplete | InvalidValue | InvalidString.

#[export] Instance Result_eq_dec : EqDecision Result.
Proof. solve_decision. Defined.

(** The bits of [options_] and the indent string. *)
Record Options := mkOptions { beauty : bool; indent_option : bool; validate_utf8 : bool; escape_solidus : bool; indent_string_ : list Z }.

Inductive Option_ := Beauty | IndentString | ValidateUtf8 | EscapeSolidus.

(** [written] is what the sink has taken, [accepts] its next answers. *)
Record Generator := mkGenerator { written : list Z; accepts : list bool; state_stack_ : list State; options : Options }.

Definition kMaxStack : nat := 128.

Definition new_generator (accepts : list bool) : Generator :=
  mkGenerator [] accepts [Start] (mkOptions false false false false (replicate 4 (chr " "))).

(** The sink of a script forgets nothing on [reset]. *)
Definition clear (g : Generator) : Generator := mkGenerator (written g) (accepts g) [Start] (options g).

Definition set_option (opt : Option_) (enabled : bool) (g : Generator) : Generator :=
  let o := options g in
  mkGenerator (written g) (accepts g) (state_stack_ g)
    match opt with
    | Beauty => mkOptions enabled (indent_option o) (validate_utf8 o) (escape_solidus o) (indent_string_ o)
    | IndentString => mkOptions (beauty o) enabled (validate_utf8 o) (escape_solidus o) (indent_string_ o)
    | ValidateUtf8 => mkOptions (beauty o) (indent_option o) enabled (escape_solidus o) (indent_string_ o)
    | EscapeSolidus => mkOptions (beauty o) (indent_option o) (validate_utf8 o) enabled (indent_string_ o)
    end.

Definition set_indent_string (indent : list Z) (g : Generator) : Generator :=
  let o := options g in
  set_option IndentString true
    (mkGenerator (written g) (accepts g) (state_stack_ g)
       (mkOptions (beauty o) (indent_option o) (validate_utf8 o) (escape_solidus o) indent)).

(** ** Functions of the generator *)

Definition G : Type := Generator -> Result * Generator.

Definition done : G := fun g => (OK, g).

(** The next call, unless this one has failed. *)
Definition andthen (m k : G) : G := fun g => let '(r, g) := m g in match r with OK => k g | _ => (r, g) end.
#[local] Infix ">>>" := andthen (at level 60, right associativity).

Definition with_stack (states : list State) (g : Generator) : Generator := mkGenerator (written g) (accepts g) states (options g).

(** [state_stack_[depth_ - 1]]; the stack is never empty. *)
Definition current_state (g : Generator) : State := match state_stack_ g with s :: _ => s | [] => Start end.
Definition get_state : Generator -> State := current_state.
Definition set_state (s : State) (g : Generator) : Generator := with_stack (s :: drop 1 (state_stack_ g)) g.

Definition depth_ (g : Generator) : nat := length (state_stack_ g).

Definition set_error (r : Result) : G := fun g => (r, set_state Error g).

(** [sink_.write] *)
Definition write (data : list Z) (g : Generator) : bool * Generator :=
  let '(ok, rest) := match accepts g with [] => (true, []) | a :: rest => (a, rest) end in
  (ok, mkGenerator (if ok : bool then written g ++ data else written g) rest (state_stack_ g) (options g)).

Definition append (data : list Z) : G := fun g =>
  match data with [] => (OK, g) | _ => let '(ok, g) := write data g in if ok : bool then (OK, g) else set_error ErrorState g end.

Fixpoint append_levels (level : nat) : G := fun g =>
  match level with O => (OK, g) | S level' => (append (indent_string_ (options g)) >>> append_levels level') g end.

Definition append_indent (level : nat) : G := fun g =>
  match indent_string_ (options g) with [] => (OK, g) | _ => append_levels level g end.

(** A new line, if the text is to be beautiful; it is indented by [depth_ - k]. *)
Definition beautiful_line (k : nat) : G := fun g =>
  if beauty (options g) then (append [10] >>> fun g => append_indent (depth_ g - k) g) g else (OK, g).

Definition prefix_for_value : G := fun g =>
  match current_state g with
  | Error => (ErrorState, g)
  | Complete => (GenerateComplete, g)
  | MapStart | MapKey => set_error KeysMustBeString g
  | ArrayStart => beautiful_line 1 g
  | InArray => (append [chr ","] >>> beautiful_line 1) g
  | Start | MapValue => (OK, g)
  end.

Definition prefix_for_key : G := fun g =>
  match current_state g with
  | Error => (ErrorState, g)
  | Complete => (GenerateComplete, g)
  | MapStart => beautiful_line 1 g
  | MapKey => (append [chr ","] >>> beautiful_line 1) g
  | _ => set_error ErrorState g
  end.

Definition hex_digit (d : Z) : Z := if d <? 10 then chr "0" + d else chr "A" + (d - 10).

Definition escape (solidus : bool) (ch : Z) : list Z :=
  if ch =? 34 then [chr "\"; 34]
  else if ch =? chr "\" then [chr "\"; chr "\"]
  else if ch =? 8 then [chr "\"; chr "b"]
  else if ch =? 12 then [chr "\"; chr "f"]
  else if ch =? 10 then [chr "\"; chr "n"]
  else if ch =? 13 then [chr "\"; chr "r"]
  else if ch =? 9 then [chr "\"; chr "t"]
  else if ch =? chr "/" then if solidus then [chr "\"; chr "/"] else [chr "/"]
  else if ch <? 0x20 then
    [chr "\"; chr "u"; chr "0"; chr "0"; hex_digit (Z.land (Z.shiftr ch 4) 0x0F); hex_digit (Z.land ch 0x0F)]
  else [ch].

Fixpoint write_escaped (str : list Z) : G := fun g =>
  match str with [] => (OK, g) | ch :: str' => (append (escape (escape_solidus (options g)) ch) >>> write_escaped str') g end.

Definition write_string (str : list Z) : G := fun g =>
  if validate_utf8 (options g) && negb (Utf.is_valid_utf8 str) then set_error InvalidString g
  else (append [34] >>> write_escaped str >>> append [34]) g.

Definition finish_value : G := fun g =>
  match current_state g with
  | Start => (OK, set_state Complete g)
  | MapValue => (OK, set_state MapKey g)
  | ArrayStart | InArray => (OK, set_state InArray g)
  | Complete => (GenerateComplete, g)
  | Error => (ErrorState, g)
  | MapStart | MapKey => set_error KeysMustBeString g
  end.

Definition push (s : State) : G := fun g =>
  if (kMaxStack <=? depth_ g)%nat then set_error MaxDepthExceeded g else (OK, with_stack (s :: state_stack_ g) g).

Definition pop : G := fun g =>
  if (depth_ g <=? 1)%nat then set_error ErrorState g else (OK, with_stack (drop 1 (state_stack_ g)) g).

(** ** The calls *)

Definition map_open : G := prefix_for_value >>> append [chr "{"] >>> push MapStart.
Definition array_open : G := prefix_for_value >>> append [chr "["] >>> push ArrayStart.

Definition map_close : G := fun g =>
  match current_state g with
  | (MapStart | MapKey) as s =>
      ((if bool_decide (s = MapKey) && (2 <=? depth_ g)%nat then beautiful_line 2 else done) >>>
       append [chr "}"] >>> pop >>> finish_value) g
  | _ => set_error ErrorState g
  end.

Definition array_close : G := fun g =>
  match current_state g with
  | (ArrayStart | InArray) as s =>
      ((if bool_decide (s = InArray) && (2 <=? depth_ g)%nat then beautiful_line 2 else done) >>>
       append [chr "]"] >>> pop >>> finish_value) g
  | _ => set_error ErrorState g
  end.

Definition string_ (str : list Z) : G := fun g =>
  match current_state g with
  | MapStart | MapKey =>
      (prefix_for_key >>> write_string str >>> (fun g => append (if beauty (options g) then [chr ":"; chr " "] else [chr ":"]) g) >>>
       fun g => (OK, set_state MapValue g)) g
  | _ => (prefix_for_value >>> write_string str >>> finish_value) g
  end.

(** What stands for a value is written between its prefix and the end of the value. *)
Definition scalar_ (text : list Z) : G := prefix_for_value >>> append text >>> finish_value.

Fixpoint to_chars_loop (fuel : nat) (v : Z) (acc : list Z) : list Z :=
  match fuel with
  | O => acc
  | S fuel' => let acc := chr "0" + v mod 10 :: acc in if v / 10 =? 0 then acc else to_chars_loop fuel' (v / 10) acc
  end.

(** [std::to_chars] of a signed number of 64 bits; it has at most 19 digits. *)
Definition decimal (v : Z) : list Z := to_chars_loop 20 v [].
Definition to_chars (v : Z) : list Z := if v <? 0 then chr "-" :: decimal (- v) else decimal v.

Definition integer (value : Z) : G := scalar_ (to_chars value).
Definition bool_value (value : bool) : G := scalar_ (bytes_of_string (if value then "true" else "false")).
Definition null_value : G := scalar_ (bytes_of_string "null").

(** ** Real numbers: seventeen significant digits, as [printf] writes them with [%.17g] *)

(** The quotient, to the nearest number and to the even one between two. *)
Definition round_div (n d : Z) : Z :=
  let q := n / d in
  let r := n mod d in
  if 2 * r <? d then q else if d <? 2 * r then q + 1 else if Z.even q then q else q + 1.

(** [m * 2 ^ e * 10 ^ k] as a fraction. *)
Definition scaled (m e k : Z) : Z * Z :=
  (m * 2 ^ Z.max e 0 * 10 ^ Z.max k 0, 2 ^ Z.max (- e) 0 * 10 ^ Z.max (- k) 0).

Definition below_power (m e x : Z) : bool := let '(n, d) := scaled m e (- x) in n <? d.

(** The [x] with [10 ^ x <= m * 2 ^ e < 10 ^ (x + 1)]; the estimate is off by one at most. *)
Definition decimal_exponent (m e : Z) : Z :=
  let x := (Z.log2 m + e) * 30103 / 100000 in
  if below_power m e x then x - 1 else if below_power m e (x + 1) then x else x + 1.

Definition significant (m e : Z) : Z * Z :=
  let x := decimal_exponent m e in
  let '(n, d) := scaled m e (16 - x) in
  let q := round_div n d in
  if q =? 10 ^ 17 then (10 ^ 16, x + 1) else (q, x).

Fixpoint drop_zeros (l : list Z) : list Z :=
  match l with c :: l' => if c =? chr "0" then drop_zeros l' else l | [] => [] end.
Definition strip_zeros (l : list Z) : list Z := reverse (drop_zeros (reverse l)).

Definition with_fraction (whole fraction : list Z) : list Z :=
  match strip_zeros fraction with [] => whole | f => whole ++ chr "." :: f end.

Definition two_digits (v : Z) : list Z := if v <? 10 then chr "0" :: decimal v else decimal v.

Definition finite_to_chars (m e : Z) : list Z :=
  let '(q, x) := significant m e in
  let digits := decimal q in
  if (-4 <=? x) && (x <? 17) then
    if 0 <=? x then with_fraction (take (Z.to_nat (x + 1)) digits) (drop (Z.to_nat (x + 1)) digits)
    else with_fraction [chr "0"] (replicate (Z.to_nat (- x - 1)) (chr "0") ++ digits)
  else
    with_fraction (take 1 digits) (drop 1 digits) ++ chr "e" :: (if x <? 0 then chr "-" else chr "+") :: two_digits (Z.abs x).

(** [None] for what is not finite. *)
Definition double_to_chars (f : spec_float) : option (list Z) :=
  let sign (s : bool) (l : list Z) := if s then chr "-" :: l else l in
  match f with
  | S754_zero s => Some (sign s [chr "0"])
  | S754_finite s m e => Some (sign s (finite_to_chars (Zpos m) e))
  | S754_infinity _ | S754_nan => None
  end.

Definition double_value (value : spec_float) : G := fun g =>
  match double_to_chars value with None => set_error InvalidValue g | Some text => scalar_ text g end.

(** ** Binaries *)

Definition kTable : list Z := bytes_of_string "ABCDEFGHIJKLMNOPQRSTUVWXYZabcdefghijklmnopqrstuvwxyz0123456789+/".

Definition sextet (triple shift : Z) : Z := nth (Z.to_nat (Z.land (Z.shiftr triple shift) 0x3F)) kTable 0.

Fixpoint base64_encode (data : list Z) : list Z :=
  match data with
  | a :: b :: c :: rest =>
      let triple := Z.lor (Z.lor (Z.shiftl a 16) (Z.shiftl b 8)) c in
      sextet triple 18 :: sextet triple 12 :: sextet triple 6 :: sextet triple 0 :: base64_encode rest
  | [a; b] =>
      let triple := Z.lor (Z.shiftl a 16) (Z.shiftl b 8) in
      [sextet triple 18; sextet triple 12; sextet triple 6; chr "="]
  | [a] =>
      let triple := Z.shiftl a 16 in
      [sextet triple 18; sextet triple 12; chr "="; chr "="]
  | [] => []
  end.

Definition binary (data : list Z) : G := prefix_for_value >>> write_string (base64_encode data) >>> finish_value.

(** ** Values

    [None] is an access through a dangling pointer, or a chain of members that does not
    end. *)

Definition E : Type := Generator -> option (Result * Generator).

Definition call (m : G) : E := fun g => Some (m g).
Definition invalid (r : Result) : E := fun g => Some (r, g).
Definition next (m k : E) : E := fun g => m g ≫= fun x => match x.1 with OK => k x.2 | _ => Some x end.
#[local] Infix ">>=>" := next (at level 60, right associativity).

Section Heap.
Context (h : GcHeap).

Definition gc_string (str : nat) : E := fun g =>
  x ← gc_string_to_utf8 str h; Some (match x.1 with Some utf8 => string_ utf8 g | None => set_error InvalidString g end).

Definition body_at (p : nat) : option Body := body <$> cells h !! p.

Section Containers.
Context (encode : JsValue -> E).

Fixpoint encode_elements (l : list JsValue) : E :=
  match l with [] => call done | v :: l' => encode v >>=> encode_elements l' end.

Definition encode_array (arr : nat) : E :=
  call array_open >>=> (fun g =>
    match body_at arr with
    | Some (ArrayCell a) => if (size a <=? length (elems a))%nat then encode_elements (take (size a) (elems a)) g else None
    | _ => None
    end) >>=> call array_close.

Fixpoint encode_members (fuel : nat) (o : GcObject) (cursor : option nat) : E :=
  match cursor, fuel with
  | None, _ => call done
  | Some _, O => fun _ => None
  | Some i, S fuel' => fun g =>
      entry ← entries o !! i;
      match occupied entry, key entry with
      | true, Some k => (gc_string k >>=> encode (value entry) >>=> encode_members fuel' o (next_order entry)) g
      | _, _ => invalid InvalidValue g
      end
  end.

Definition encode_object (obj : nat) : E :=
  call map_open >>=> (fun g =>
    match body_at obj with Some (ObjectCell o) => encode_members (length (entries o)) o (head o) g | _ => None end) >>=>
  call map_close.

Definition optional_string (str : option nat) : E := match str with Some p => gc_string p | None => call null_value end.

Definition encode_exception (exc : nat) : E := fun g =>
  match body_at exc with
  | Some (ExceptionCell e) =>
      (call map_open >>=>
       call (string_ (bytes_of_string "position")) >>=> call (integer (position e)) >>=>
       call (string_ (bytes_of_string "name")) >>=> optional_string (name e) >>=>
       call (string_ (bytes_of_string "message")) >>=> optional_string (message e) >>=>
       call (string_ (bytes_of_string "meta")) >>=>
       (match meta e with Undefined => call null_value | _ => encode (meta e) end) >>=>
       call map_close) g
  | _ => None
  end.

End Containers.

Fixpoint encode_js_value (fuel : nat) (v : JsValue) : E :=
  match fuel with
  | O => fun _ => None
  | S fuel' =>
      match v with
      | Null => call null_value
      | Boolean b => call (bool_value b)
      | Integer i => call (integer i)
      | Float f => call (double_value f)
      | HeapString str => gc_string str
      | NativeString ns => call (string_ ns)
      | Array arr => encode_array (encode_js_value fuel') arr
      | Object obj => encode_object (encode_js_value fuel') obj
      | Exception exc => encode_exception (encode_js_value fuel') exc
      | NativeBinary nb => call (binary nb)
      | HeapBinary bin => fun g => match body_at bin with Some (BinaryCell data) => Some (binary data g) | _ => None end
      | Undefined | Interator _ => invalid InvalidValue
      end
  end.

End Heap.

(** As deep as the stack allows. *)
Definition encode_fuel : nat := S kMaxStack.

End Encode.
