(* ===== verification/JsonTree.v ===== *)
(** * JSON values as trees, and what the generator writes for them

    [shows] relates a value in a heap to the tree it stands for; values may share cells.
    [print] is the text of a tree, with the lines and indentation of the options.
    [encode_js_value] writes exactly that text, for every tree that the stack of the
    generator has room for, and on any heap, cyclic ones included, it comes to an end. *)
From Stdlib Require Import Floats.SpecFloat.
From S2P Require Import Prelude JsText JsHeap JsObject JsObjectMap JsonEncode.

Module Tree.
Import Gc ObjectMap Encode.
Import Utf (scalar, encoded, units_of, octet, code_unit).

#[local] Infix ">>>" := andthen (at level 60, right associativity).
#[local] Infix ">>=>" := next (at level 60, right associativity).

(** ** Trees *)

(** A string is its code points. *)
Inductive Json :=
  | JNull | JBoolean (b : bool) | JInteger (i : Z) | JString (cps : list Z) | JArray (l : list Json)
  | JObject (m : list (list Z * Json)).

Section Induction.
Context (P : Json -> Prop).
Context (Hnull : P JNull) (Hboolean : forall b, P (JBoolean b)) (Hinteger : forall i, P (JInteger i)) (Hstring : forall cps, P (JString cps)).
Context (Harray : forall l, Forall P l -> P (JArray l)) (Hobject : forall m, Forall (fun p => P p.2) m -> P (JObject m)).

Fixpoint tree_ind (t : Json) : P t :=
  match t with
  | JNull => Hnull
  | JBoolean b => Hboolean b
  | JInteger i => Hinteger i
  | JString cps => Hstring cps
  | JArray l => Harray l ((fix go l := match l return Forall P l with [] => Forall_nil_2 _ | t :: l' => Forall_cons_2 _ _ _ (tree_ind t) (go l') end) l)
  | JObject m =>
      Hobject m ((fix go m := match m return Forall (fun p => P p.2) m with [] => Forall_nil_2 _ | p :: m' => Forall_cons_2 _ _ _ (tree_ind p.2) (go m') end) m)
  end.

End Induction.

Definition all {A} (P : A -> Prop) (l : list A) : Prop := foldr (fun a Q => P a /\ Q) True l.

Lemma all_Forall {A} (P : A -> Prop) l : all P l <-> Forall P l.
Proof. induction l as [|a l IH]; cbn; [by split|]. rewrite Forall_cons. by rewrite <-IH. Qed.

(** Code points are scalar values, numbers have 64 bits, keys are different. *)
Fixpoint valid (t : Json) : Prop :=
  match t with
  | JNull | JBoolean _ => True
  | JInteger i => - 2 ^ 63 <= i < 2 ^ 63
  | JString cps => Forall scalar cps
  | JArray l => all valid l
  | JObject m => NoDup (m.*1) /\ all (fun p => Forall scalar p.1 /\ valid p.2) m
  end.

(** How deep arrays and objects are nested. *)
Fixpoint height (t : Json) : nat :=
  match t with
  | JArray l => S (foldr (fun t n => Nat.max (height t) n) 0 l)%nat
  | JObject m => S (foldr (fun p n => Nat.max (height p.2) n) 0 m)%nat
  | _ => 0
  end.

(** ** Text *)

Section Print.
Context (o : Options).

Definition line (level : nat) : list Z := if beauty o then 10 :: concat (replicate level (indent_string_ o)) else [].

Definition quoted (cps : list Z) : list Z := 34 :: concat (map (escape (escape_solidus o)) (encoded cps)) ++ [34].

Definition colon : list Z := if beauty o then [chr ":"; chr " "] else [chr ":"].

Definition commas (l : list (list Z)) : list Z := match l with [] => [] | x :: l' => x ++ concat (map (cons (chr ",")) l') end.

Definition close {A} (l : list A) (level : nat) : list Z := match l with [] => [] | _ => line level end.

(** The value is at depth [k] of the stack; what is inside has [k] indents before it. *)
Fixpoint print (k : nat) (t : Json) : list Z :=
  match t with
  | JNull => bytes_of_string "null"
  | JBoolean b => bytes_of_string (if b then "true" else "false")
  | JInteger i => to_chars i
  | JString cps => quoted cps
  | JArray l => chr "[" :: commas (map (fun t => line k ++ print (S k) t) l) ++ close l (k - 1) ++ [chr "]"]
  | JObject m =>
      chr "{" :: commas (map (fun p => line k ++ quoted p.1 ++ colon ++ print (S k) p.2) m) ++ close m (k - 1) ++ [chr "}"]
  end.

End Print.

(** ** Values that show trees

    No array or object of the value is below [lo]. *)

Inductive shows (h : GcHeap) (lo : nat) : JsValue -> Json -> Prop :=
  | shows_null : shows h lo Null JNull
  | shows_boolean b : shows h lo (Boolean b) (JBoolean b)
  | shows_integer i : shows h lo (Integer i) (JInteger i)
  | shows_string p cps : text h p (units_of cps) -> shows h lo (HeapString p) (JString cps)
  | shows_array p c a l : (lo <= p)%nat -> cells h !! p = Some c -> body c = ArrayCell a -> (size a <= length (elems a))%nat ->
      Forall2 (shows h lo) (take (size a) (elems a)) l -> shows h lo (Array p) (JArray l)
  | shows_object p m l : (lo <= p)%nat -> object_is h p m ->
      Forall2 (fun kv kt => kv.1 = units_of kt.1 /\ shows h lo kv.2 kt.2) m l -> shows h lo (Object p) (JObject l).

(** The elements of the vector that holds a string have its width. *)
Definition units_ok (s : GcString) : Prop :=
  match encoding s with Byte => Forall octet (units s) | Utf16 => Forall code_unit (units s) end.

Definition strings_ok (h : GcHeap) : Prop := forall p c s, cells h !! p = Some c -> body c = StringCell s -> units_ok s.

(** ** What calls write

    From the stack of states [s], the calls [m] write [txt] and leave [s'], unless the
    sink refuses a part of it. *)

Section Writing.
Context (o : Options).

Definition writes (s : list State) (m : E) (txt : list Z) (s' : list State) : Prop := forall g, options g = o -> state_stack_ g = s ->
  exists r g', m g = Some (r, g') /\ options g' = o /\ (false ∈ accepts g' -> false ∈ accepts g) /\
    match r with OK => written g' = written g ++ txt /\ state_stack_ g' = s' | _ => r = ErrorState /\ false ∈ accepts g end.

Lemma writes_done s : writes s (call done) [] s.
Proof. intros g Ho Hs. exists OK, g. by rewrite app_nil_r. Qed.

Lemma writes_as s m m' txt s' : (forall g, options g = o -> state_stack_ g = s -> m g = m' g) -> writes s m' txt s' -> writes s m txt s'.
Proof. intros E H g Ho Hs. rewrite E by done. by apply H. Qed.

Lemma writes_text s m txt txt' s' : writes s m txt s' -> txt' = txt -> writes s m txt' s'.
Proof. by intros H ->. Qed.

Lemma writes_next s m k txt1 txt2 s1 s2 : writes s m txt1 s1 -> writes s1 k txt2 s2 -> writes s (m >>=> k) (txt1 ++ txt2) s2.
Proof.
  intros Hm Hk g Ho Hs. destruct (Hm g Ho Hs) as (r & g1 & E & Ho1 & Ha1 & Hr). unfold next. rewrite E. cbn [mbind option_bind fst snd].
  destruct r; try by exists ErrorState, g1. 2-6: by destruct Hr. destruct Hr as [Hw Hs1].
  destruct (Hk g1 Ho1 Hs1) as (r & g2 & E2 & Ho2 & Ha2 & Hr2). exists r, g2. split; [done|]. split; [done|]. split; [by auto|].
  destruct r; try (destruct Hr2; by auto). destruct Hr2 as [-> ->]. by rewrite Hw, app_assoc.
Qed.

Lemma writes_then s m k txt1 txt2 s1 s2 : writes s (call m) txt1 s1 -> writes s1 (call k) txt2 s2 -> writes s (call (m >>> k)) (txt1 ++ txt2) s2.
Proof.
  intros Hm Hk. apply (writes_as s _ (call m >>=> call k)); [|by eapply writes_next].
  intros g _ _. unfold call, andthen, next. cbn. destruct (m g) as [r g']. by destruct r.
Qed.

Lemma writes_append s txt : writes s (call (append txt)) txt s.
Proof.
  intros g Ho Hs. unfold call, append. destruct txt as [|c txt]; [exists OK, g; by rewrite app_nil_r|]. unfold write.
  destruct (accepts g) as [|[] rest] eqn:E; cbn.
  - exists OK. eexists. split; [done|]. split; [done|]. split; [by intros ?%elem_of_nil|]. by split.
  - exists OK. eexists. split; [done|]. split; [done|]. split; [intros H; by apply list_elem_of_further|]. by split.
  - exists ErrorState. eexists. split; [done|]. split; [done|]. split; [intros H; by apply list_elem_of_further|].
    split; [done|apply list_elem_of_here].
Qed.

Lemma writes_levels s n : writes s (call (append_levels n)) (concat (replicate n (indent_string_ o))) s.
Proof.
  induction n as [|n IH]; [apply writes_done|]. cbn [append_levels replicate concat].
  apply (writes_as s _ (call (append (indent_string_ o) >>> append_levels n))); [by intros g <- _|]. apply writes_then with s; [apply writes_append|done].
Qed.

Lemma writes_indent s n : writes s (call (append_indent n)) (concat (replicate n (indent_string_ o))) s.
Proof.
  apply (writes_as s _ (call (append_levels n))); [|apply writes_levels]. intros g <- _. unfold call, append_indent.
  destruct (indent_string_ (options g)) eqn:E; [|done]. f_equal. induction n as [|n IH]; [done|]. cbn [append_levels].
  unfold andthen. rewrite E. cbn [append]. done.
Qed.

Lemma writes_line s k : writes s (call (beautiful_line k)) (line o (length s - k)) s.
Proof.
  unfold line. destruct (beauty o) eqn:Eb.
  - apply (writes_as s _ (call (append [10] >>> fun g => append_indent (depth_ g - k) g))).
    { intros g <- _. unfold call, beautiful_line. by rewrite Eb. }
    apply (writes_then s _ _ [10] _ s); [apply writes_append|].
    apply (writes_as s _ (call (append_indent (length s - k)))); [|apply writes_indent]. intros g _ <-. done.
  - apply (writes_as s _ (call done)); [|apply writes_done]. intros g <- _. unfold call, beautiful_line. by rewrite Eb.
Qed.

(** *** Values *)

Definition takes_value (s : State) : bool := match s with Start | MapValue | ArrayStart | InArray => true | _ => false end.

(** What stands before a value, and the state behind it. *)
Definition before (s : State) (ss : list State) : list Z :=
  match s with ArrayStart => line o (length ss) | InArray => chr "," :: line o (length ss) | _ => [] end.
Definition after (s : State) : State := match s with Start => Complete | MapValue => MapKey | ArrayStart | InArray => InArray | _ => s end.

Lemma writes_prefix s ss : takes_value s = true -> writes (s :: ss) (call prefix_for_value) (before s ss) (s :: ss).
Proof.
  assert (forall m, (forall g, state_stack_ g = s :: ss -> prefix_for_value g = m g) -> writes (s :: ss) (call m) (before s ss) (s :: ss) ->
    writes (s :: ss) (call prefix_for_value) (before s ss) (s :: ss)) as H.
  { intros m Hm Hw. apply (writes_as _ _ (call m)); [|done]. intros g _ Hs. unfold call. by rewrite Hm. }
  assert (line o (length ss) = line o (length (s :: ss) - 1)) as E by (cbn [length]; by rewrite Nat.sub_succ, Nat.sub_0_r).
  unfold before in *. rewrite E in *. destruct s; try done; intros _.
  - apply (H done); [|apply writes_done]. intros g Hs. unfold prefix_for_value, current_state. by rewrite Hs.
  - apply (H done); [|apply writes_done]. intros g Hs. unfold prefix_for_value, current_state. by rewrite Hs.
  - apply (H (beautiful_line 1)); [|apply writes_line]. intros g Hs. unfold prefix_for_value, current_state. by rewrite Hs.
  - apply (H (append [chr ","] >>> beautiful_line 1)).
    + intros g Hs. unfold prefix_for_value, current_state. by rewrite Hs.
    + apply (writes_then _ _ _ [chr ","] _ (InArray :: ss)); [apply writes_append|apply writes_line].
Qed.

Lemma writes_finish s ss : takes_value s = true -> writes (s :: ss) (call finish_value) [] (after s :: ss).
Proof.
  intros H g Ho Hs. unfold call, finish_value, current_state. rewrite Hs.
  destruct s; try done; (exists OK; eexists; split; [done|]; split; [done|]; split; [done|]; cbn; by rewrite Hs, app_nil_r).
Qed.

Lemma writes_scalar s ss txt : takes_value s = true -> writes (s :: ss) (call (scalar_ txt)) (before s ss ++ txt) (after s :: ss).
Proof.
  intros H. unfold scalar_. eapply writes_then; [by apply writes_prefix|]. eapply writes_text; [|symmetry; apply app_nil_r].
  eapply writes_then; [apply writes_append|by apply writes_finish].
Qed.

(** *** Strings *)

Lemma writes_escaped s str : writes s (call (write_escaped str)) (concat (map (escape (escape_solidus o)) str)) s.
Proof.
  induction str as [|ch str IH]; [apply writes_done|]. cbn [write_escaped map concat].
  apply (writes_as s _ (call (append (escape (escape_solidus o) ch) >>> write_escaped str))); [by intros g <- _|].
  eapply writes_then; [apply writes_append|done].
Qed.

Lemma encoded_octets cps : Forall scalar cps -> Forall octet (encoded cps).
Proof.
  induction 1 as [|cp cps [Hr _] _ IH]; [done|]. change (encoded (cp :: cps)) with (Utf.utf8 cp ++ encoded cps). apply Forall_app. split; [|done].
  unfold Utf.utf8. split_ifs; bool_to_prop; repeat constructor; Z.to_euclidean_division_equations; lia.
Qed.

Lemma encoded_valid cps : Forall scalar cps -> Utf.is_valid_utf8 (encoded cps) = true.
Proof.
  intros H. unfold Utf.is_valid_utf8. rewrite Utf.is_valid_codepoints by by apply encoded_octets. by rewrite Utf.codepoints_encoded.
Qed.

Lemma writes_string s cps : Forall scalar cps -> writes s (call (write_string (encoded cps))) (quoted o cps) s.
Proof.
  intros Hc. apply (writes_as s _ (call (append [34] >>> write_escaped (encoded cps) >>> append [34]))).
  { intros g _ _. unfold call, write_string. by rewrite encoded_valid, andb_false_r. }
  apply (writes_then s _ _ [34] _ s); [apply writes_append|]. eapply writes_then; [apply writes_escaped|apply writes_append].
Qed.

Lemma writes_string_value s ss cps : Forall scalar cps -> takes_value s = true ->
  writes (s :: ss) (call (string_ (encoded cps))) (before s ss ++ quoted o cps) (after s :: ss).
Proof.
  intros Hc Hs. apply (writes_as _ _ (call (prefix_for_value >>> write_string (encoded cps) >>> finish_value))).
  { intros g _ Hg. unfold call, string_, current_state. rewrite Hg. by destruct s. }
  eapply writes_then; [by apply writes_prefix|]. eapply writes_text; [|symmetry; apply app_nil_r].
  eapply writes_then; [by apply writes_string|by apply writes_finish].
Qed.

Definition takes_key (s : State) : bool := match s with MapStart | MapKey => true | _ => false end.
Definition before_key (s : State) (ss : list State) : list Z :=
  match s with MapStart => line o (length ss) | MapKey => chr "," :: line o (length ss) | _ => [] end.

Lemma writes_prefix_for_key s ss : takes_key s = true -> writes (s :: ss) (call prefix_for_key) (before_key s ss) (s :: ss).
Proof.
  assert (line o (length ss) = line o (length (s :: ss) - 1)) as E by (cbn [length]; by rewrite Nat.sub_succ, Nat.sub_0_r).
  unfold before_key. rewrite E. destruct s; try done; intros _.
  - apply (writes_as _ _ (call (beautiful_line 1))); [|apply writes_line]. intros g _ Hs. unfold call, prefix_for_key, current_state. by rewrite Hs.
  - apply (writes_as _ _ (call (append [chr ","] >>> beautiful_line 1))).
    + intros g _ Hs. unfold call, prefix_for_key, current_state. by rewrite Hs.
    + apply (writes_then _ _ _ [chr ","] _ (MapKey :: ss)); [apply writes_append|apply writes_line].
Qed.

Lemma writes_key s ss cps : Forall scalar cps -> takes_key s = true ->
  writes (s :: ss) (call (string_ (encoded cps))) (before_key s ss ++ quoted o cps ++ colon o) (MapValue :: ss).
Proof.
  intros Hc Hs. apply (writes_as _ _ (call (prefix_for_key >>> write_string (encoded cps) >>>
    (fun g => append (if beauty (options g) then [chr ":"; chr " "] else [chr ":"]) g) >>> fun g => (OK, set_state MapValue g)))).
  { intros g _ Hg. unfold call, string_, current_state. rewrite Hg. by destruct s. }
  eapply writes_then; [by apply writes_prefix_for_key|]. eapply writes_then; [by apply writes_string|].
  eapply writes_text; [|symmetry; apply app_nil_r]. eapply writes_then.
  - apply (writes_as _ _ (call (append (colon o)))); [by intros g <- _|apply writes_append].
  - intros g Ho Hg. exists OK. eexists. split; [done|]. split; [done|]. split; [done|]. cbn. by rewrite Hg, app_nil_r.
Qed.

(** *** Arrays and objects *)

Lemma writes_push s ss st : (length (s :: ss) < kMaxStack)%nat -> writes (s :: ss) (call (push st)) [] (st :: s :: ss).
Proof.
  intros Hl g Ho Hg. unfold call, push, depth_. rewrite Hg. rewrite (proj2 (Nat.leb_gt _ _)) by done.
  exists OK. eexists. split; [done|]. split; [done|]. split; [done|]. cbn. by rewrite app_nil_r.
Qed.

Lemma writes_pop s st ss : writes (st :: s :: ss) (call pop) [] (s :: ss).
Proof.
  intros g Ho Hg. unfold call, pop, depth_. rewrite Hg. cbn [length Nat.leb].
  exists OK. eexists. split; [done|]. split; [done|]. split; [done|]. cbn. by rewrite app_nil_r.
Qed.

Lemma writes_open s ss c st : takes_value s = true -> (length (s :: ss) < kMaxStack)%nat ->
  writes (s :: ss) (call (prefix_for_value >>> append [c] >>> push st)) (before s ss ++ [c]) (st :: s :: ss).
Proof.
  intros Hs Hl. eapply writes_then; [by apply writes_prefix|]. eapply writes_text; [|symmetry; apply app_nil_r].
  eapply writes_then; [apply writes_append|by apply writes_push].
Qed.

Lemma writes_close s st ss c (inside : bool) : takes_value s = true ->
  writes (st :: s :: ss) (call ((if inside then beautiful_line 2 else done) >>> append [c] >>> pop >>> finish_value))
    ((if inside then line o (length ss) else []) ++ [c]) (after s :: ss).
Proof.
  intros Hs. eapply writes_then.
  - destruct inside; [|apply writes_done]. eapply writes_text; [apply writes_line|]. cbn [length]. by replace (S (S (length ss)) - 2)%nat with (length ss) by lia.
  - eapply writes_text; [|symmetry; apply app_nil_r]. eapply writes_then; [apply writes_append|].
    eapply (writes_text _ _ ([] ++ [])); [|done]. eapply writes_then; [apply writes_pop|by apply writes_finish].
Qed.

Lemma writes_array_close s st ss : takes_value s = true -> st = ArrayStart \/ st = InArray ->
  writes (st :: s :: ss) (call array_close) ((if bool_decide (st = InArray) then line o (length ss) else []) ++ [chr "]"]) (after s :: ss).
Proof.
  intros Hs Hst. eapply writes_as; [|by apply writes_close]. intros g _ Hg. unfold call, array_close, current_state, depth_. rewrite Hg.
  cbn [length Nat.leb]. rewrite andb_true_r. by destruct Hst as [-> | ->].
Qed.

Lemma writes_map_close s st ss : takes_value s = true -> takes_key st = true ->
  writes (st :: s :: ss) (call map_close) ((if bool_decide (st = MapKey) then line o (length ss) else []) ++ [chr "}"]) (after s :: ss).
Proof.
  intros Hs Hst. eapply writes_as; [|by apply writes_close]. intros g _ Hg. unfold call, map_close, current_state, depth_. rewrite Hg.
  cbn [length Nat.leb]. rewrite andb_true_r. by destruct st.
Qed.

(** The text of the elements that follow in the state [st]. *)
Definition items (st : State) (l : list (list Z)) : list Z :=
  match st with InArray | MapKey => concat (map (cons (chr ",")) l) | _ => commas l end.

Lemma gc_string_run h str cps g : strings_ok h -> text h str (units_of cps) -> Forall scalar cps ->
  gc_string h str g = Some (string_ (encoded cps) g).
Proof.
  intros Hh (c & x & Hc & Hb & Hu & _) Hcps. unfold gc_string, gc_string_to_utf8, load_string, load, mbind, M_bind. rewrite Hc, Hb.
  cbn [mret M_ret option_bind]. unfold mret, M_ret, mbind, option_bind. cbn [fst]. specialize (Hh _ _ _ Hc Hb). unfold units_ok in Hh. rewrite Hu in *.
  destruct (encoding x).
  - assert (Utf.bytes_to_utf8 (units_of cps) = encoded cps) as E.
    { rewrite Utf.bytes_to_utf8_spec by done. destruct (Utf.units_all cps Hcps) as (H1 & _ & _).
      assert (forallb (fun u => u <=? 0xFF) (units_of cps) = true) as H2.
      { apply forallb_forall. intros u Hx%list_elem_of_In. rewrite Forall_forall in Hh. specialize (Hh _ Hx). unfold octet in Hh. lia. }
      rewrite H1 in H2. by destruct (Utf.units_bytes cps Hcps H2) as [-> _]. }
    destruct (units_of cps) eqn:Eu; [|by rewrite E]. rewrite <-E. done.
  - assert (Utf.units_to_utf8 (units_of cps) = Some (encoded cps)) as E by (rewrite Utf.units_to_utf8_write; by apply Utf.write_units_of).
    destruct (units_of cps) eqn:Eu; [|by rewrite E]. injection E as <-. done.
Qed.

Section Elements.
Context (encode : JsValue -> E) (s : State) (ss : list State).

(** What is at the end of the stack while the elements are written. *)
#[local] Abbreviation k := (S (length ss)).

Definition element_ok (v : JsValue) (t : Json) : Prop :=
  forall st, st = ArrayStart \/ st = InArray \/ st = MapValue ->
    writes (st :: s :: ss) (encode v) (before st (s :: ss) ++ print o (S k) t) (after st :: s :: ss).

Definition is_nil {A} (l : list A) : bool := match l with [] => true | _ => false end.

Lemma writes_elements vs l st : Forall2 element_ok vs l -> st = ArrayStart \/ st = InArray ->
  writes (st :: s :: ss) (encode_elements encode vs) (items st (map (fun t => line o k ++ print o (S k) t) l))
    ((if is_nil l then st else InArray) :: s :: ss).
Proof.
  intros H. revert st. induction H as [|v t vs l Hv _ IH]; intros st Hst; [destruct Hst as [-> | ->]; apply writes_done|].
  pose proof (IH InArray (or_intror eq_refl)) as Hr. replace (if is_nil l then InArray else InArray) with InArray in Hr by by destruct l.
  cbn [encode_elements map is_nil]. eapply writes_text.
  - eapply writes_next; [apply Hv; tauto|]. replace (after st) with InArray by by destruct Hst as [-> | ->]. exact Hr.
  - destruct Hst as [-> | ->]; cbn [before items commas map concat app length]; by rewrite <-?app_assoc.
Qed.

Definition member_text (p : list Z * Json) : list Z := line o k ++ quoted o p.1 ++ colon o ++ print o (S k) p.2.

Lemma writes_members h ob os m l fuel cursor st : strings_ok h -> chain (link next_order ob) cursor os ->
  (forall i e, i ∈ os -> entries ob !! i = Some e -> occupied e = true) -> lists h ob os m ->
  Forall2 (fun kv kt => kv.1 = units_of kt.1 /\ Forall scalar kt.1 /\ element_ok kv.2 kt.2) m l -> (length os <= fuel)%nat ->
  takes_key st = true ->
  writes (st :: s :: ss) (encode_members h encode fuel ob cursor) (items st (map member_text l)) ((if is_nil l then st else MapKey) :: s :: ss).
Proof.
  intros Hh Hc Hocc Hl. revert l fuel cursor st Hc Hocc. induction Hl as [|i [u v] os m (e & kp & He & Hk & Ht & _ & Hv) Hl IH];
    intros l fuel cursor st Hc Hocc Hm Hf Hst; inversion Hm as [|? [cps t] ? l' Hx Hm']; subst.
  - cbn [chain] in Hc. subst cursor. destruct st; try done; destruct fuel; apply writes_done.
  - destruct Hx as (Hu & Hcps & Hel). cbn [fst snd] in *. subst u v. destruct Hc as [-> Hc]. destruct fuel as [|fuel]; [cbn [length] in Hf; lia|].
    pose proof (IH l' fuel (next_order e) MapKey) as Hr. replace (if is_nil l' then MapKey else MapKey) with MapKey in Hr by by destruct l'.
    cbn [encode_members map is_nil]. apply (writes_as _ _ (call (string_ (encoded cps)) >>=> encode (value e) >>=> encode_members h encode fuel ob (next_order e))).
    { intros g _ _. rewrite He. cbn [mbind option_bind]. rewrite (Hocc i e ltac:(apply list_elem_of_here) He), Hk.
      unfold next at 1. rewrite (gc_string_run h kp cps) by done. done. }
    eapply writes_text.
    + eapply writes_next; [by apply writes_key|]. eapply writes_next; [apply Hel; tauto|]. apply Hr; try done.
      * by rewrite (link_at _ _ _ e) in Hc.
      * intros j e' Hj. apply Hocc. by apply list_elem_of_further.
      * cbn [length] in Hf. lia.
    + cbn [before]. unfold member_text at 1. cbn [fst snd].
      destruct st; try done; cbn [before_key items commas map concat app length]; by rewrite <-?app_assoc.
Qed.

End Elements.

Lemma foldr_max {A} (f : A -> nat) l n : (foldr (fun a n => Nat.max (f a) n) 0 l <= n)%nat -> Forall (fun a => f a <= n)%nat l.
Proof. induction l as [|a l IH]; cbn [foldr]; intros H; constructor; [lia|]. apply IH. lia. Qed.

Lemma encode_writes h lo t : strings_ok h -> forall v fuel s ss, shows h lo v t -> valid t ->
  (height t + length (s :: ss) <= kMaxStack)%nat -> (height t < fuel)%nat -> takes_value s = true ->
  writes (s :: ss) (encode_js_value h fuel v) (before s ss ++ print o (length (s :: ss)) t) (after s :: ss).
Proof.
  intros Hh. induction t as [|b|i|cps|l IH|m IH] using tree_ind; intros v fuel s ss Hv Ht Hk Hf Hs;
    (destruct fuel as [|fuel]; [cbn [height] in Hf; lia|]).
  - inversion Hv; subst. by apply writes_scalar.
  - inversion Hv; subst. by apply writes_scalar.
  - inversion Hv; subst. by apply writes_scalar.
  - inversion Hv; subst. apply (writes_as _ _ (call (string_ (encoded cps)))); [|by apply writes_string_value]. intros g _ _. by apply gc_string_run.
  - inversion Hv as [| | | |p c a ? Hlo Hc Hb Hsz Hall|]; subst. cbn [encode_js_value]. cbn [valid height] in Ht, Hk, Hf. rewrite all_Forall in Ht.
    set (d := foldr _ _ _) in *. pose proof (foldr_max height l d ltac:(done)) as Hd. unfold encode_array.
    assert (Forall2 (element_ok (encode_js_value h fuel) s ss) (take (size a) (elems a)) l) as He.
    { apply Forall2_same_length_lookup. split; [by apply Forall2_length in Hall|]. intros j v t Hj Hl st Hst.
      rewrite Forall_forall in IH, Ht, Hd. apply list_elem_of_lookup_2 in Hl as Hi.
      change (S (S (length ss))) with (length (st :: s :: ss)). apply (IH t Hi); [by eapply Forall2_lookup_lr|by apply Ht| | |].
      - specialize (Hd t Hi). cbn [length] in *. lia.
      - specialize (Hd t Hi). lia.
      - by destruct Hst as [->|[-> | ->]]. }
    eapply writes_text.
    + eapply writes_next; [apply (writes_open s ss (chr "[") ArrayStart); [done|cbn [length] in *; lia]|].
      eapply writes_next.
      * eapply writes_as; [|apply (writes_elements _ _ _ _ _ ArrayStart He); by left].
        intros g _ _. unfold body_at. rewrite Hc. cbn [fmap option_fmap option_map]. rewrite Hb. by rewrite (proj2 (Nat.leb_le _ _)).
      * apply writes_array_close; [done|]. destruct (is_nil l); tauto.
    + cbn [print items length]. rewrite Nat.sub_succ, Nat.sub_0_r. destruct l; cbn [is_nil close]; by rewrite <-?app_assoc.
  - inversion Hv as [| | | | |p m' ? Hlo Hob Hall]; subst. destruct Hob as (c & ob & os & fs & Hc & Hb & Hok & Hl & _).
    cbn [encode_js_value]. cbn [valid height] in Ht, Hk, Hf. rewrite all_Forall in Ht. destruct Ht as [_ Ht].
    set (d := foldr _ _ _) in *. pose proof (foldr_max (fun p => height p.2) m d ltac:(done)) as Hd. unfold encode_object.
    assert (Forall2 (fun kv kt => kv.1 = units_of kt.1 /\ Forall scalar kt.1 /\ element_ok (encode_js_value h fuel) s ss kv.2 kt.2) m' m) as He.
    { apply Forall2_same_length_lookup. split; [by apply Forall2_length in Hall|]. intros j kv kt Hj Hm.
      rewrite Forall_forall in IH, Ht, Hd. apply list_elem_of_lookup_2 in Hm as Hi. destruct (Forall2_lookup_lr _ _ _ _ _ _ Hall Hj Hm) as [Hu Hs'].
      split; [done|]. split; [by apply Ht|]. intros st Hst. change (S (S (length ss))) with (length (st :: s :: ss)).
      apply (IH kt Hi); [done|by apply Ht| | |].
      - specialize (Hd kt Hi). cbn [length] in *. lia.
      - specialize (Hd kt Hi). lia.
      - by destruct Hst as [->|[-> | ->]]. }
    assert (length os <= length (entries ob))%nat as Hn.
    { pose proof (ok_count _ _ _ Hok). assert (length os <= entry_count ob)%nat; [|lia]. pose proof (ok_nodup _ _ _ Hok) as Hnd.
      apply bounded_length; [by apply NoDup_app in Hnd as [? _]|]. intros x Hx. apply (ok_all _ _ _ Hok), elem_of_app. by left. }
    eapply writes_text.
    + eapply writes_next; [apply (writes_open s ss (chr "{") MapStart); [done|cbn [length] in *; lia]|].
      eapply writes_next.
      * eapply writes_as; [|apply (writes_members (encode_js_value h fuel) s ss h ob os m' m (length (entries ob)) (head ob) MapStart); try done; [apply Hok|]].
        -- intros g _ _. unfold body_at. rewrite Hc. cbn [fmap option_fmap option_map]. by rewrite Hb.
        -- intros i e Hi He'. by apply (ok_occupied _ _ _ Hok i e He').
      * apply writes_map_close; [done|]. by destruct (is_nil m).
    + cbn [print items length]. rewrite Nat.sub_succ, Nat.sub_0_r. unfold member_text. destruct m; cbn [is_nil close]; by rewrite <-?app_assoc.
Qed.

End Writing.

(** ** Encoding ends *)

(** Pointers lead to cells of their kind. *)
Definition string_at (h : GcHeap) (p : nat) : Prop := exists s, body_at h p = Some (StringCell s).

Definition value_ok (h : GcHeap) (v : JsValue) : Prop :=
  match v with
  | HeapString p => string_at h p
  | Array p => exists a, body_at h p = Some (ArrayCell a)
  | Object p => exists ob, body_at h p = Some (ObjectCell ob)
  | Exception p => exists e, body_at h p = Some (ExceptionCell e)
  | HeapBinary p => exists data, body_at h p = Some (BinaryCell data)
  | _ => True
  end.

Record heap_sound (h : GcHeap) : Prop := mkSound {
  sound_array : forall p a, body_at h p = Some (ArrayCell a) -> (size a <= length (elems a))%nat /\ Forall (value_ok h) (elems a);
  sound_object : forall p ob, body_at h p = Some (ObjectCell ob) -> exists os fs m, table_ok ob os fs /\ lists h ob os m /\ Forall (fun kv => value_ok h kv.2) m;
  sound_exception : forall p e, body_at h p = Some (ExceptionCell e) ->
    (forall q, name e = Some q \/ message e = Some q -> string_at h q) /\ value_ok h (meta e) }.

Definition keeps_depth (m : G) : Prop := forall g, (0 < depth_ g)%nat -> depth_ (m g).2 = depth_ g.

Lemma keeps_error r : keeps_depth (set_error r).
Proof. intros g Hg. unfold set_error, set_state, with_stack, depth_ in *. cbn. rewrite length_drop. lia. Qed.

Lemma keeps_then m k : keeps_depth m -> keeps_depth k -> keeps_depth (m >>> k).
Proof.
  intros Hm Hk g Hg. unfold andthen. specialize (Hm g Hg). destruct (m g) as [[] g']; cbn [snd] in *; try done. rewrite Hk by lia. done.
Qed.

Lemma keeps_append txt : keeps_depth (append txt).
Proof.
  intros g Hg. unfold append. destruct txt; [done|]. unfold write. destruct (accepts g) as [|[] rest]; [done|done|].
  by apply (keeps_error ErrorState (mkGenerator (written g) rest (state_stack_ g) (options g))).
Qed.

Lemma keeps_line k : keeps_depth (beautiful_line k).
Proof.
  intros g Hg. unfold beautiful_line. destruct (beauty (options g)); [|done]. apply (keeps_then (append [10]) (fun g => append_indent (depth_ g - k) g)); [apply keeps_append| |done].
  intros g1 Hg1. generalize (depth_ g1 - k)%nat as n. intros n. unfold append_indent. destruct (indent_string_ _) eqn:E; [done|]. clear E.
  revert g1 Hg1. induction n as [|n IH]; intros g1 Hg1; [done|]. cbn [append_levels].
  apply (keeps_then (append (indent_string_ (options g1))) (append_levels n)); [apply keeps_append| |done]. intros g2 Hg2. by apply IH.
Qed.

Lemma keeps_prefix : keeps_depth prefix_for_value.
Proof.
  intros g Hg. unfold prefix_for_value. destruct (current_state g); try done; try by apply keeps_error.
  - by apply keeps_line.
  - by apply keeps_then; [apply keeps_append|apply keeps_line|].
Qed.

Lemma keeps_prefix_for_key : keeps_depth prefix_for_key.
Proof.
  intros g Hg. unfold prefix_for_key. destruct (current_state g); try done; try by apply keeps_error.
  - by apply keeps_line.
  - by apply keeps_then; [apply keeps_append|apply keeps_line|].
Qed.

Lemma keeps_set_state s : keeps_depth (fun g => (OK, set_state s g)).
Proof. intros g Hg. unfold set_state, with_stack, depth_ in *. cbn. rewrite length_drop. lia. Qed.

Lemma keeps_finish : keeps_depth finish_value.
Proof. intros g Hg. unfold finish_value. destruct (current_state g); try done; try by apply keeps_error. all: by apply (keeps_set_state _ g). Qed.

Lemma keeps_scalar txt : keeps_depth (scalar_ txt).
Proof. unfold scalar_. apply keeps_then; [apply keeps_prefix|]. apply keeps_then; [apply keeps_append|apply keeps_finish]. Qed.

Lemma keeps_write_string str : keeps_depth (write_string str).
Proof.
  intros g Hg. unfold write_string. destruct (_ && _); [by apply keeps_error|]. apply keeps_then; [apply keeps_append| |done].
  apply keeps_then; [|apply keeps_append]. clear. induction str as [|ch str IH]; [by intros g|]. intros g Hg. cbn [write_escaped].
  by apply keeps_then; [apply keeps_append|apply IH|].
Qed.

Lemma keeps_string str : keeps_depth (string_ str).
Proof.
  assert (keeps_depth (prefix_for_value >>> write_string str >>> finish_value)) as Hv.
  { apply keeps_then; [apply keeps_prefix|]. apply keeps_then; [apply keeps_write_string|apply keeps_finish]. }
  assert (keeps_depth (prefix_for_key >>> write_string str >>> (fun g => append (if beauty (options g) then [chr ":"; chr " "] else [chr ":"]) g) >>>
    fun g => (OK, set_state MapValue g))) as Hk.
  { apply keeps_then; [apply keeps_prefix_for_key|]. apply keeps_then; [apply keeps_write_string|].
    apply keeps_then; [|apply keeps_set_state]. intros g Hg. by apply keeps_append. }
  intros g Hg. unfold string_. destruct (current_state g); by (apply Hv || apply Hk).
Qed.

(** At depth [d] the calls end; if they succeed, it is [d'] then. *)
Definition ends (d : nat) (m : E) (d' : nat) : Prop := forall g, depth_ g = d ->
  exists r g', m g = Some (r, g') /\ (r = OK -> depth_ g' = d').

Lemma ends_call d m : (0 < d)%nat -> keeps_depth m -> ends d (call m) d.
Proof. intros Hd Hm g <-. specialize (Hm g Hd). unfold call. destruct (m g) as [r g']. by exists r, g'. Qed.

Lemma ends_invalid d r : ends d (invalid r) d.
Proof. intros g Hg. by exists r, g. Qed.

Lemma ends_next d m d1 k d2 : ends d m d1 -> ends d1 k d2 -> ends d (m >>=> k) d2.
Proof.
  intros Hm Hk g Hg. destruct (Hm g Hg) as (r & g1 & E & H). unfold next. rewrite E. cbn [mbind option_bind fst snd].
  destruct r; try by eexists _, g1. by apply Hk, H.
Qed.

(** Nothing is opened on a full stack. *)
Lemma open_run c st g x : (0 < depth_ g)%nat -> (prefix_for_value >>> append [c] >>> push st) g = x -> x.1 = OK ->
  depth_ x.2 = S (depth_ g) /\ (depth_ g < kMaxStack)%nat.
Proof.
  intros Hg <-. unfold andthen. pose proof (keeps_prefix g Hg) as H1. destruct (prefix_for_value g) as [[] g1]; cbn [fst snd] in *; try done.
  pose proof (keeps_append [c] g1 ltac:(lia)) as H2. destruct (append [c] g1) as [[] g2]; cbn [fst snd] in *; try done.
  unfold push. destruct (Nat.leb_spec kMaxStack (depth_ g2)); [done|]. intros _. cbn. unfold depth_ in *. cbn [length]. lia.
Qed.

Lemma ends_open d c st k d' : (0 < d)%nat -> ((d < kMaxStack)%nat -> ends (S d) k d') ->
  ends d (call (prefix_for_value >>> append [c] >>> push st) >>=> k) d'.
Proof.
  intros Hd Hk g Hg. unfold next, call. cbn [mbind option_bind].
  destruct ((prefix_for_value >>> append [c] >>> push st) g) as [r g1] eqn:E. pose proof (open_run c st g _ ltac:(lia) E) as H. cbn [fst snd] in *.
  destruct r; try by eexists _, g1. destruct (H eq_refl) as [E1 E2]. rewrite Hg in *. by apply Hk.
Qed.

Lemma ends_pop d (m : G) c : (0 < d)%nat -> keeps_depth m -> ends (S d) (call (m >>> append [c] >>> pop >>> finish_value)) d.
Proof.
  intros Hd Hm g Hg. unfold call, andthen. pose proof (Hm g ltac:(lia)) as H1. destruct (m g) as [[] g1]; cbn [fst snd] in *; try by eexists _, g1.
  pose proof (keeps_append [c] g1 ltac:(lia)) as H2. destruct (append [c] g1) as [[] g2]; cbn [fst snd] in *; try by eexists _, g2.
  unfold pop. rewrite (proj2 (Nat.leb_gt (depth_ g2) 1)) by lia. set (g3 := with_stack _ _).
  assert (depth_ g3 = d) as H3 by (unfold g3, depth_ in *; cbn; rewrite length_drop; lia).
  pose proof (keeps_finish g3 ltac:(lia)) as H4. destruct (finish_value g3) as [r g4]. eexists r, g4. split; [done|]. cbn [snd] in H4. lia.
Qed.

Lemma ends_close d : (0 < d)%nat -> ends (S d) (call array_close) d /\ ends (S d) (call map_close) d.
Proof.
  intros Hd. assert (forall c (b : bool), ends (S d) (call ((if b then beautiful_line 2 else done) >>> append [c] >>> pop >>> finish_value)) d) as H.
  { intros c b. apply ends_pop; [done|]. destruct b; [apply keeps_line|by intros g _]. }
  split; intros g Hg; unfold call, array_close, map_close; destruct (current_state g); try by eexists _, _.
  all: by apply H.
Qed.

Section Ends.
Context (h : GcHeap).

Lemma ends_gc_string d p : (0 < d)%nat -> string_at h p -> ends d (gc_string h p) d.
Proof.
  intros Hd (s & Hs) g Hg. unfold body_at in Hs. destruct (cells h !! p) as [c|] eqn:Ec; [|discriminate Hs]. injection Hs as Hs.
  unfold gc_string, gc_string_to_utf8, load_string, load, mbind, M_bind. rewrite Ec, Hs. unfold mret, M_ret, option_bind. cbn [fst].
  destruct (match units s with [] => _ | _ => _ end) as [utf8|].
  - pose proof (keeps_string utf8 g ltac:(lia)) as H. destruct (string_ utf8 g) as [r g']. eexists r, g'. cbn [snd] in H. split; [done|lia].
  - eexists _, _. split; [done|]. done.
Qed.

Context (encode : JsValue -> E) (d : nat) (Hd : (0 < d)%nat).
Context (He : forall v, value_ok h v -> ends d (encode v) d).

Lemma ends_elements l : Forall (value_ok h) l -> ends d (encode_elements encode l) d.
Proof.
  induction 1 as [|v l Hv _ IH]; [apply ends_call; [done|by intros g]|]. cbn [encode_elements]. eapply ends_next; [by apply He|done].
Qed.

Lemma ends_members ob os m fuel cursor : chain (link next_order ob) cursor os -> lists h ob os m -> Forall (fun kv => value_ok h kv.2) m ->
  (length os <= fuel)%nat -> ends d (encode_members h encode fuel ob cursor) d.
Proof.
  intros Hc Hl. revert fuel cursor Hc. induction Hl as [|i [u v] os m (e & kp & Hi & Hk & (c & s & Hcell & Hb & _) & _ & Hv) Hl IH]; intros fuel cursor Hc Hm Hf.
  - cbn [chain] in Hc. subst cursor. destruct fuel; (apply ends_call; [done|by intros g]).
  - destruct Hc as [-> Hc]. destruct fuel as [|fuel]; [cbn [length] in Hf; lia|]. apply Forall_cons in Hm as [Hv1 Hm]. cbn [snd] in *. subst v.
    assert (ends d (gc_string h kp >>=> encode (value e) >>=> encode_members h encode fuel ob (next_order e)) d) as H.
    { eapply ends_next; [apply ends_gc_string; [done|]; exists s; unfold body_at; rewrite Hcell; cbn; by rewrite Hb|].
      eapply ends_next; [by apply He|]. apply IH; [by rewrite (link_at _ _ _ e) in Hc|done|cbn [length] in Hf; lia]. }
    intros g Hg. cbn [encode_members]. rewrite Hi. cbn [mbind option_bind]. rewrite Hk. destruct (occupied e); [by apply H|by apply ends_invalid].
Qed.

End Ends.

Lemma ends_as d m m' d' : (forall g, m g = m' g) -> ends d m' d' -> ends d m d'.
Proof. intros E H g Hg. rewrite E. by apply H. Qed.

Lemma ends_body d h p m d' b : body_at h p = Some b -> ends d (m b) d' -> ends d (fun g => match body_at h p with Some b => m b g | None => None end) d'.
Proof. intros Hb H. eapply ends_as; [|exact H]. intros g. by rewrite Hb. Qed.

Section Containers.
Context (h : GcHeap) (Hh : heap_sound h) (encode : JsValue -> E) (d : nat) (Hd : (0 < d)%nat).
Context (He : forall v, (d < kMaxStack)%nat -> value_ok h v -> ends (S d) (encode v) (S d)).

Lemma ends_array p : value_ok h (Array p) -> ends d (encode_array h encode p) d.
Proof.
  intros (a & Ha). destruct (sound_array _ Hh _ _ Ha) as [Hsz Hvs]. apply ends_open; [done|]. intros Hlt.
  eapply ends_next; [|by apply ends_close]. eapply ends_as; [intros g; by rewrite Ha, (proj2 (Nat.leb_le _ _))|].
  apply (ends_elements h); [lia|by auto|by apply Forall_take].
Qed.

Lemma ends_object p : value_ok h (Object p) -> ends d (encode_object h encode p) d.
Proof.
  intros (ob & Hb). destruct (sound_object _ Hh _ _ Hb) as (os & fs & m & Hok & Hl & Hm). apply ends_open; [done|]. intros Hlt.
  eapply ends_next; [|by apply ends_close]. eapply ends_as; [intros g; by rewrite Hb|].
  apply (ends_members h encode (S d) ltac:(lia) ltac:(auto) ob os m); [apply Hok|done|done|].
  pose proof (ok_count _ _ _ Hok). assert (length os <= entry_count ob)%nat; [|lia]. pose proof (ok_nodup _ _ _ Hok) as Hnd.
  apply bounded_length; [by apply NoDup_app in Hnd as [? _]|]. intros x Hx. apply (ok_all _ _ _ Hok), elem_of_app. by left.
Qed.

Lemma ends_exception p : value_ok h (Exception p) -> ends d (encode_exception h encode p) d.
Proof.
  intros (e & Hb). destruct (sound_exception _ Hh _ _ Hb) as [Hs Hm]. eapply ends_as; [intros g; unfold encode_exception; by rewrite Hb|].
  assert (0 < S d)%nat as HSd by lia. apply ends_open; [done|]. intros Hlt.
  assert (forall str, ends (S d) (call (string_ str)) (S d)) as Hk by (intros; apply ends_call; [done|apply keeps_string]).
  assert (forall txt, ends (S d) (call (scalar_ txt)) (S d)) as Hsc by (intros; apply ends_call; [done|apply keeps_scalar]).
  assert (forall q, (forall p', q = Some p' -> string_at h p') -> ends (S d) (optional_string h q) (S d)) as Hopt.
  { intros [q|] Hq; cbn [optional_string]; [by apply ends_gc_string; [|apply Hq]|apply Hsc]. }
  do 4 (eapply ends_next; [first [apply Hk|apply Hsc|apply Hopt; intros; apply Hs; tauto]|]).
  do 3 (eapply ends_next; [first [apply Hk|apply Hsc|apply Hopt; intros; apply Hs; tauto]|]).
  eapply ends_next; [|by apply ends_close]. destruct (meta e); (apply Hsc || by apply He).
Qed.

End Containers.

Lemma keeps_double f : keeps_depth (double_value f).
Proof. intros g Hg. unfold double_value. destruct (double_to_chars f); [by apply keeps_scalar|by apply keeps_error]. Qed.

Lemma keeps_binary data : keeps_depth (binary data).
Proof. unfold binary. apply keeps_then; [apply keeps_prefix|]. apply keeps_then; [apply keeps_write_string|apply keeps_finish]. Qed.

Lemma encode_ends h fuel : heap_sound h -> forall d v, value_ok h v -> (0 < d <= kMaxStack)%nat -> (kMaxStack < d + fuel)%nat ->
  ends d (encode_js_value h fuel v) d.
Proof.
  intros Hh. induction fuel as [|fuel IH]; intros d v Hv Hd Hf; [lia|].
  assert (forall v, (d < kMaxStack)%nat -> value_ok h v -> ends (S d) (encode_js_value h fuel v) (S d)) as He by (intros; apply IH; done || lia).
  destruct v; cbn [encode_js_value]; try apply ends_invalid.
  all: try (apply ends_call; [lia|]); try apply keeps_scalar; try apply keeps_double; try apply keeps_string; try apply keeps_binary.
  - by apply ends_gc_string; [lia|].
  - by apply ends_array; [|lia| |].
  - by apply ends_object; [|lia| |].
  - by apply ends_exception; [|lia| |].
  - destruct Hv as (data & Hb). eapply ends_as; [intros g; by rewrite Hb|]. apply (ends_call d (binary data)); [lia|apply keeps_binary].
Qed.

(** C29. Encoding a value ends on every heap whose pointers are sound, whatever the
    generator has written before and whether the heap is cyclic or not: the bound of the
    stack is the bound of the recursion. *)
Theorem encoding_ends h v g : heap_sound h -> value_ok h v -> (0 < depth_ g <= kMaxStack)%nat ->
  exists r g', encode_js_value h encode_fuel v g = Some (r, g') /\ (r = OK -> depth_ g' = depth_ g).
Proof. intros Hh Hv Hg. apply (encode_ends h encode_fuel Hh (depth_ g) v Hv Hg); [unfold encode_fuel; lia|done]. Qed.

(** An array that is its own element. *)
Definition cyclic_heap : GcHeap :=
  default initial_heap (snd <$> (gc_new_array 1;; gc_array_push 0 (Array 0)) initial_heap).

Lemma encoding_ends_witness : exists g', encode_js_value cyclic_heap encode_fuel (Array 0) (new_generator []) = Some (MaxDepthExceeded, g') /\
  length (written g') = 128%nat.
Proof.
  assert (forall p b, body_at cyclic_heap p = Some b -> p = 0%nat /\ b = ArrayCell (mkArray 1 1 [Array 0])) as Hcells.
  { intros p b. assert (cells cyclic_heap = <[0%nat := mkCell GcMark_1 (ArrayCell (mkArray 1 1 [Array 0]))]> ∅) as E by (vm_compute; reflexivity).
    unfold body_at. rewrite E. destruct (decide (p = 0%nat)) as [->|Hn]; [rewrite lookup_insert_eq; by intros [= <-]|].
    by rewrite lookup_insert_ne. }
  destruct (encoding_ends cyclic_heap (Array 0) (new_generator [])) as (r & g' & E & _).
  - constructor; intros p b Hb; destruct (Hcells p _ Hb) as [-> Eb]; try discriminate Eb. injection Eb as ->. split; [cbn; lia|].
    repeat constructor. eexists. vm_compute. reflexivity.
  - eexists. vm_compute. reflexivity.
  - vm_compute. lia.
  - exists g'. assert (fst <$> encode_js_value cyclic_heap encode_fuel (Array 0) (new_generator []) = Some MaxDepthExceeded) as E1 by (vm_compute; reflexivity).
    assert ((fun x => length (written x.2)) <$> encode_js_value cyclic_heap encode_fuel (Array 0) (new_generator []) = Some 128%nat) as E2 by (vm_compute; reflexivity).
    rewrite E in E1, E2 |- *. injection E1 as ->. split; [done|]. by injection E2.
Defined.

(** On a generator at its start, a value that shows a tree of at most 127 levels is
    written as the text of the tree, with the lines, spaces and escapes of the options;
    only a sink that refuses a part of the text stops it. *)
Lemma encode_prints h v t g : strings_ok h -> shows h 0 v t -> valid t -> (height t < kMaxStack)%nat -> state_stack_ g = [Start] ->
  exists r g', encode_js_value h encode_fuel v g = Some (r, g') /\
    match r with
    | OK => written g' = written g ++ print (options g) 1 t /\ get_state g' = Complete
    | _ => r = ErrorState /\ false ∈ accepts g
    end.
Proof.
  intros Hh Hv Ht Hk Hg.
  destruct (encode_writes (options g) h 0 t Hh v encode_fuel Start [] Hv Ht ltac:(cbn [length]; lia) ltac:(unfold encode_fuel; lia) eq_refl g eq_refl Hg)
    as (r & g' & E & _ & _ & H). exists r, g'. split; [exact E|]. destruct r; try exact H. destruct H as [-> Hs]. split; [done|].
  unfold get_state, current_state. by rewrite Hs.
Qed.

End Tree.
