(* ===== verification/JsonPrinted.v ===== *)
(** * Reading what has been printed

    The readers of [ParserImpl] on the texts of strings, numbers and literals that the
    generator writes, whatever follows. *)
From Stdlib Require Import Floats.SpecFloat.
From S2P Require Import Prelude JsText JsHeap JsonLex JsonParse JsonEncode JsonTree.

#[local] Ltac Zify.zify_post_hook ::= Z.to_euclidean_division_equations.

Module Printed.
Import Gc Lex Tree Parser.
Import Encode (escape, to_chars, decimal, to_chars_loop, hex_digit, Options, escape_solidus).
Import Utf (scalar, encoded, units_of, append_codepoint, append_code_unit).

(** ** Numbers *)

(** [d] is a number of [v]. *)
Record number_of (v : Z) (d : list Z) : Prop := mkNumber {
  nm_digits : Forall (fun c => is_digit c = true) d;
  nm_some : d <> [];
  nm_value : forall x r, digits_value x (d ++ r) = digits_value (x * 10 ^ Z.of_nat (length d) + v) r;
  nm_zero : forall r, d = chr "0" :: r -> v = 0 /\ r = [] }.

Lemma to_chars_loop_number fuel v acc : 0 <= v < 10 ^ Z.of_nat fuel -> (0 < fuel)%nat ->
  exists d, to_chars_loop fuel v acc = d ++ acc /\ number_of v d.
Proof.
  revert v acc. induction fuel as [|fuel IH]; intros v acc Hv Hf; [lia|]. cbn [to_chars_loop].
  assert (is_digit (chr "0" + v mod 10) = true) as Hd by (unfold is_digit; lia). destruct (Z.eqb_spec (v / 10) 0) as [E|E].
  - exists [chr "0" + v mod 10]. split; [done|]. constructor; [by repeat constructor|done| |].
    + intros x r. cbn [app digits_value length]. rewrite Hd. f_equal. lia.
    + intros r [= H <-]. split; [lia|done].
  - assert (fuel <> 0%nat) as Hf0 by (intros ->; cbn in Hv; lia). rewrite Nat2Z.inj_succ, Z.pow_succ_r in Hv by lia.
    destruct (IH (v / 10) (chr "0" + v mod 10 :: acc)) as (d & -> & [H1 H2 H3 H4]); [lia|lia|]. exists (d ++ [chr "0" + v mod 10]).
    split; [by rewrite <-app_assoc|]. constructor.
    + apply Forall_app. split; [done|by repeat constructor].
    + by destruct d.
    + intros x r. rewrite <-app_assoc, H3. cbn [app digits_value]. rewrite Hd. f_equal. rewrite length_app. cbn [length].
      rewrite Nat2Z.inj_add, Z.pow_add_r by lia. change (10 ^ Z.of_nat 1) with 10. lia.
    + intros r Hr. destruct d as [|c d]; [done|]. injection Hr as -> _. destruct (H4 d eq_refl). lia.
Qed.

Lemma decimal_number v : 0 <= v < 10 ^ 20 -> number_of v (decimal v).
Proof.
  intros Hv. destruct (to_chars_loop_number 20 v []) as (d & E & H); [done|lia|]. unfold decimal. by rewrite E, app_nil_r.
Qed.

(** What may follow a number. *)
Definition ends_number (l : list Z) : Prop :=
  match l with [] => True | c :: _ => is_digit c = false /\ c <> chr "." /\ c <> chr "e" /\ c <> chr "E" end.

Lemma skip_digits_number d rest n : Forall (fun c => is_digit c = true) d -> ends_number rest -> skip_digits (d ++ rest) n = (rest, (n + length d)%nat).
Proof.
  intros Hd Hr. revert n. induction Hd as [|c d Hc _ IH]; intros n; cbn [app skip_digits length].
  - rewrite Nat.add_0_r. destruct rest as [|c rest]; [done|]. cbn [skip_digits]. by rewrite (proj1 Hr).
  - rewrite Hc, IH. f_equal. lia.
Qed.

Lemma digit_cases c : is_digit c = true -> c = 48 \/ c = 49 \/ c = 50 \/ c = 51 \/ c = 52 \/ c = 53 \/ c = 54 \/ c = 55 \/ c = 56 \/ c = 57.
Proof. unfold is_digit. lia. Qed.

Lemma digits_value_number v d : number_of v d -> digits_value 0 d = v.
Proof. intros H. rewrite <-(app_nil_r d), (nm_value _ _ H). cbn [digits_value]. lia. Qed.

Lemma from_chars_digits v d : number_of v d -> 0 <= v < 2 ^ 63 -> from_chars d = Parsed v.
Proof.
  intros H Hv. pose proof (digits_value_number v d H) as E. destruct d as [|c d]; [by destruct (nm_some _ _ H)|].
  pose proof (nm_digits _ _ H) as [Hc _]%Forall_cons. unfold from_chars.
  assert (match c :: d with 45 :: l' => (true, l') | _ => (false, c :: d) end = (false, c :: d)) as ->.
  { destruct (digit_cases c Hc) as [->|[->|[->|[->|[->|[->|[->|[->|[->| ->]]]]]]]]]; done. }
  rewrite Hc, E. replace ((- 2 ^ 63 <=? v) && (v <? 2 ^ 63)) with true by lia. done.
Qed.

Lemma from_chars_negative v d : number_of v d -> 0 <= v <= 2 ^ 63 -> from_chars (chr "-" :: d) = Parsed (- v).
Proof.
  intros H Hv. pose proof (digits_value_number v d H) as E. destruct d as [|c d]; [by destruct (nm_some _ _ H)|].
  pose proof (nm_digits _ _ H) as [Hc _]%Forall_cons. unfold from_chars. change (chr "-") with 45. cbv beta iota zeta.
  rewrite Hc, E. replace ((- 2 ^ 63 <=? - v) && (- v <? 2 ^ 63)) with true by lia. done.
Qed.

Lemma to_chars_from_chars i : - 2 ^ 63 <= i < 2 ^ 63 -> from_chars (to_chars i) = Parsed i.
Proof.
  intros Hi. unfold to_chars. destruct (Z.ltb_spec i 0).
  - rewrite (from_chars_negative (- i)) by first [apply decimal_number; lia|lia]. by rewrite Z.opp_involutive.
  - apply from_chars_digits; [apply decimal_number; lia|lia].
Qed.

Section Number.
Context (strtod : list Z -> spec_float * bool * nat).

(** The digits of a number, up to what ends it. *)
Lemma number_integer_run text start v d rest pos : number_of v d -> ends_number rest ->
  number_integer strtod text start (d ++ rest) pos = number_value strtod text start false rest (pos + length d)%nat.
Proof.
  intros H Hr. destruct d as [|c d]; [by destruct (nm_some _ _ H)|]. pose proof (nm_digits _ _ H) as Hd.
  pose proof Hd as [Hc Hd']%Forall_cons.
  assert (forall k, number_fraction strtod text start rest k = number_value strtod text start false rest k) as Hend.
  { intros k. unfold number_fraction, number_exponent. destruct rest as [|r rest]; [done|]. destruct Hr as (_ & H1 & H2 & H3).
    rewrite (proj2 (Z.eqb_neq r (chr "."))) by done. rewrite (proj2 (Z.eqb_neq r (chr "e"))) by done.
    by rewrite (proj2 (Z.eqb_neq r (chr "E"))) by done. }
  unfold number_integer. cbn [app]. destruct (Z.eqb_spec c (chr "0")) as [->|Hc0].
  - destruct (nm_zero _ _ H d eq_refl) as [_ ->]. cbn [app length]. rewrite <-Hend. destruct rest as [|r rest]; [done|]. by rewrite (proj1 Hr).
  - replace ((49 <=? c) && (c <=? 57)) with true by (unfold is_digit in Hc; change (chr "0") with 48 in Hc0; lia).
    change (c :: d ++ rest) with ((c :: d) ++ rest). rewrite skip_digits_number by done. apply Hend.
Qed.

Lemma parse_number_run i rest pos : - 2 ^ 63 <= i < 2 ^ 63 -> ends_number rest ->
  parse_number strtod (to_chars i ++ rest) pos = Done (Integer i) rest (pos + length (to_chars i))%nat.
Proof.
  intros Hi Hr. unfold parse_number, parse_number_at. set (text := to_chars i ++ rest).
  assert (number_value strtod text pos false rest (pos + length (to_chars i))%nat = Done (Integer i) rest (pos + length (to_chars i))%nat) as Hv.
  { unfold number_value. replace (pos + length (to_chars i) - pos)%nat with (length (to_chars i)) by lia. unfold text. rewrite take_app_length.
    by rewrite to_chars_from_chars. }
  unfold text in *. clear text. unfold to_chars in *. destruct (Z.ltb_spec i 0) as [Hn|Hn].
  - cbn [app length] in *. rewrite Z.eqb_refl. erewrite number_integer_run; [|apply (decimal_number (- i)); lia|done].
    replace (pos + 1 + length (decimal (- i)))%nat with (pos + S (length (decimal (- i))))%nat by lia. exact Hv.
  - pose proof (decimal_number i ltac:(lia)) as H. destruct (decimal i) as [|c d] eqn:E; [by destruct (nm_some _ _ H)|]. cbn [app].
    pose proof (nm_digits _ _ H) as [Hc _]%Forall_cons. assert (c <> chr "-") as Hc' by (intros ->; done).
    rewrite (proj2 (Z.eqb_neq _ _) Hc'). change (c :: d ++ rest) with ((c :: d) ++ rest) in *. by erewrite number_integer_run.
Qed.

End Number.

(** ** Strings *)

Lemma decode_next l cp n offset : Utf.utf8_next_codepoint l = Some (cp, n) -> decode_utf8_codepoint l true offset = LexOk cp n.
Proof.
  unfold Utf.utf8_next_codepoint, decode_utf8_codepoint. destruct l as [|ch rest]; [done|]. destruct (ch <? 0x80); [by intros [= <- <-]|].
  destruct (Utf.lead ch) as [[[needed code] m]|]; [|done]. destruct (_ <=? _)%nat; [done|].
  destruct (Utf.continuation needed code rest) as [code'|] eqn:E; [|done].
  assert (list_find (fun next => Z.land next 0xC0 <> 0x80) (take needed rest) = None) as ->.
  { apply list_find_None. clear -E. revert code rest E. induction needed as [|n IH]; intros code [|c l] E; cbn in E |- *; try constructor; try done.
    - destruct (Z.eqb_spec (Z.land c 0xC0) 0x80); [tauto|done].
    - destruct (Z.land c 0xC0 =? 0x80); [by eapply IH|done]. }
  destruct (Utf.refused code' m); [done|]. by intros [= <- <-].
Qed.

Lemma append_small out cp : 0 <= cp < 0x80 -> append_codepoint out cp = append_code_unit out cp.
Proof.
  intros H. unfold Utf.append_codepoint. rewrite (proj2 (Z.leb_le cp 0xFFFF)) by lia. by rewrite wrap_small by (unfold in_width; lia).
Qed.

(** A control character is written with four hexadecimal digits. *)
Lemma hex_run_control ch l : 0 <= ch < 0x20 ->
  hex_run 4 0 0 (chr "0" :: chr "0" :: hex_digit (Z.land (Z.shiftr ch 4) 0x0F) :: hex_digit (Z.land ch 0x0F) :: l) = inl ch.
Proof.
  intros H. set (d := [chr "0"; chr "0"; hex_digit (Z.land (Z.shiftr ch 4) 0x0F); hex_digit (Z.land ch 0x0F)]).
  change (hex_run 4 0 0 (d ++ l) = inl ch). rewrite hex_run_app by done. apply (bool_decide_eq_true_1 _).
  assert (forall b, 0 <= b < 256 -> (0x20 <=? b) || bool_decide (hex_run 4 0 0
    [chr "0"; chr "0"; hex_digit (Z.land (Z.shiftr b 4) 0x0F); hex_digit (Z.land b 0x0F)] = inl b) = true) as Hall
    by (apply forall_byte; vm_compute; reflexivity).
  specialize (Hall ch ltac:(lia)). apply orb_true_iff in Hall as [Hall|Hall]; [|exact Hall]. bool_to_prop. lia.
Qed.

Section Strings.
Context (solidus : bool).

Lemma string_step_small ch out l fuel pos : 0 <= ch < 0x80 ->
  exists pos', parse_string_loop (S fuel) out (escape solidus ch ++ l) pos = parse_string_loop fuel (append_code_unit out ch) l pos'.
Proof.
  intros Hr. unfold escape. destruct (Z.eqb_spec ch 34) as [->|H1]; [by eexists|]. destruct (Z.eqb_spec ch (chr "\")) as [->|H2]; [by eexists|].
  destruct (Z.eqb_spec ch 8) as [->|H3]; [by eexists|]. destruct (Z.eqb_spec ch 12) as [->|H4]; [by eexists|].
  destruct (Z.eqb_spec ch 10) as [->|H5]; [by eexists|]. destruct (Z.eqb_spec ch 13) as [->|H6]; [by eexists|].
  destruct (Z.eqb_spec ch 9) as [->|H7]; [by eexists|]. destruct (Z.eqb_spec ch (chr "/")) as [->|H8]; [destruct solidus; by eexists|].
  destruct (Z.ltb_spec ch 0x20) as [H9|H9].
  - eexists. cbn [app parse_string_loop]. change (chr "\" =? 34) with false. rewrite Z.eqb_refl. cbv iota. change (chr "u" =? chr "u") with true. cbv iota.
    unfold parse_unicode, parse_hex. rewrite hex_run_control by lia. cbn [length Nat.ltb Nat.leb drop].
    replace (Utf.is_high ch) with false by (unfold Utf.is_high; lia). replace (Utf.is_low ch) with false by (unfold Utf.is_low; lia).
    replace (0x10FFFF <? ch) with false by lia. by rewrite append_small by lia.
  - eexists. cbn [app parse_string_loop]. rewrite (proj2 (Z.eqb_neq _ _) H1), (proj2 (Z.eqb_neq _ _) H2), (proj2 (Z.ltb_ge _ _) H9).
    unfold decode_utf8_codepoint. rewrite (proj2 (Z.ltb_lt ch 0x80)) by lia. rewrite (proj2 (Z.ltb_ge _ _) H9). cbn [drop].
    by rewrite append_small by lia.
Qed.

Lemma utf8_high cp : scalar cp -> 0x80 <= cp -> Forall (fun b => 0x80 <= b) (Utf.utf8 cp).
Proof. intros [Hr _] H. unfold Utf.utf8. split_ifs; bool_to_prop; repeat constructor; lia. Qed.

Lemma escape_high l : Forall (fun b => 0x80 <= b) l -> concat (map (escape solidus) l) = l.
Proof.
  induction 1 as [|b l Hb _ IH]; [done|]. cbn [map concat]. rewrite IH. unfold escape. split_ifs; bool_to_prop; try done; cbn in *; lia.
Qed.

Lemma string_step cp out l fuel pos : scalar cp ->
  exists pos', parse_string_loop (S fuel) out (concat (map (escape solidus) (Utf.utf8 cp)) ++ l) pos = parse_string_loop fuel (append_codepoint out cp) l pos'.
Proof.
  intros Hs. pose proof Hs as [Hr _]. destruct (Z.ltb_spec cp 0x80) as [Hlt|Hge].
  - unfold Utf.utf8. rewrite (proj2 (Z.ltb_lt _ _) Hlt). cbn [map concat]. rewrite app_nil_r, append_small by lia. apply string_step_small. lia.
  - pose proof (utf8_high cp Hs Hge) as Hh. rewrite escape_high by done. pose proof (Utf.next_utf8 cp l Hs) as Hn.
    apply (decode_next _ _ _ (Z.of_nat pos)) in Hn. pose proof (Utf.utf8_length_pos cp) as Hlen.
    destruct (Utf.utf8 cp) as [|ch r] eqn:E; [cbn in Hlen; lia|]. apply Forall_cons in Hh as [Hch _]. eexists. cbn [app parse_string_loop].
    rewrite (proj2 (Z.eqb_neq ch 34)) by lia. rewrite (proj2 (Z.eqb_neq ch (chr "\"))) by (change (chr "\") with 92; lia).
    rewrite (proj2 (Z.ltb_ge ch 0x20)) by lia. cbn [app] in Hn. rewrite Hn. rewrite (proj2 (Z.ltb_ge cp 0x20)) by lia.
    change (ch :: r ++ l) with ((ch :: r) ++ l). by rewrite drop_app_length.
Qed.

Lemma string_loop_run cps : Forall scalar cps -> forall out rest fuel pos, (length cps < fuel)%nat ->
  exists pos', parse_string_loop fuel out (concat (map (escape solidus) (encoded cps)) ++ 34 :: rest) pos =
    Done (foldl append_codepoint out cps) rest pos'.
Proof.
  induction 1 as [|cp cps Hcp _ IH]; intros out rest fuel pos Hf; (destruct fuel as [|fuel]; [cbn [length] in Hf; lia|]); [by eexists|].
  change (encoded (cp :: cps)) with (Utf.utf8 cp ++ encoded cps). rewrite map_app, concat_app, <-app_assoc.
  destruct (string_step cp out (concat (map (escape solidus) (encoded cps)) ++ 34 :: rest) fuel pos Hcp) as (pos' & ->).
  cbn [foldl]. apply IH. cbn [length] in Hf. lia.
Qed.

End Strings.

(** The string that is read has the units of the text. *)
Lemma parse_string_run o cps rest pos : Forall scalar cps ->
  exists d pos', parse_string (quoted o cps ++ rest) pos = Done d rest pos' /\ Utf.decoded d (units_of cps).
Proof.
  intros Hc. unfold quoted, parse_string. cbn [app]. rewrite Z.eqb_refl.
  assert (forall l : list Z, (length l <= length (concat (map (escape (escape_solidus o)) l)))%nat) as Hesc.
  { intros l. induction l as [|b l IH]; [done|]. cbn [map concat length]. rewrite length_app.
    assert (0 < length (escape (escape_solidus o) b))%nat; [|lia]. unfold escape. repeat (case_match; cbn [length]; try lia). }
  
  destruct (string_loop_run (escape_solidus o) cps Hc Utf.empty_string rest
    (length ((concat (map (escape (escape_solidus o)) (encoded cps)) ++ [34]) ++ rest)) (pos + 1)) as (pos' & E).
  { rewrite !length_app. cbn [length]. specialize (Hesc (encoded cps)).
    assert (length cps <= length (encoded cps))%nat; [|lia]. clear. induction cps as [|cp cps IH]; [done|].
    change (encoded (cp :: cps)) with (Utf.utf8 cp ++ encoded cps). rewrite length_app. pose proof (Utf.utf8_length_pos cp). cbn [length]. lia. }
  eexists _, pos'. split; [rewrite <-app_assoc in *; exact E|]. apply (Utf.decoded_all cps Hc Utf.empty_string []). by repeat split.
Qed.

End Printed.
