(* ===== verification/JsonRoundTrip.v ===== *)
(** * What the generator writes, the parser reads

    The parser reads a printed tree into a value that shows the tree again, in any heap,
    unless it runs out of memory.  [keeps X h h'] is what its operations on the heap
    leave alone: every string, and every other cell outside [X]. *)
From Stdlib Require Import Floats.SpecFloat.
From S2P Require Import Prelude JsText JsHeap JsObject JsObjectMap JsonLex JsonStream JsonParse JsonEncode JsonTree JsonPrinted.

Module RoundTrip.
Import Gc Objects ObjectMap Lex Tree.
Import Utf (scalar, encoded, units_of).
Import Parser Printed.
Import Encode (body_at, Options, indent_string_).

(** ** Addresses that stay free *)

Record steady (h h' : GcHeap) : Prop := mkSteady {
  st_next : next_address h' = next_address h;
  st_free : forall p, cells h !! p = None -> cells h' !! p = None }.

Definition steadily {A} (m : M A) : Prop := forall h a h', m h = Some (a, h') -> steady h h'.

Lemma steady_refl h : steady h h.
Proof. by constructor. Qed.

Lemma steadily_ret {A} (a : A) : steadily (mret a).
Proof. intros h b h' [= _ <-]. apply steady_refl. Qed.

Lemma steadily_fault {A} : steadily (A := A) fault.
Proof. by intros h b h'. Qed.

Lemma steadily_some {A} (x : option A) : steadily (some_or_fault x).
Proof. intros h b h' H. unfold some_or_fault in H. destruct x; [|done]. injection H as _ <-. apply steady_refl. Qed.

Lemma steadily_bind {A B} (m : M A) (k : A -> M B) : steadily m -> (forall a, steadily (k a)) -> steadily (m ≫= k).
Proof.
  intros Hm Hk h b h' H. unfold mbind, M_bind in H. destruct (m h) as [[a h1]|] eqn:E; [|done].
  destruct (Hm _ _ _ E) as [N1 F1], (Hk _ _ _ _ H) as [N2 F2]. constructor; [by rewrite N2|auto].
Qed.

Lemma steadily_alloc : steadily alloc.
Proof. intros h a h' H. unfold alloc in H. destruct (answers h); injection H as _ <-; by constructor. Qed.

Lemma steadily_load p : steadily (load p).
Proof. intros h a h' H. unfold load in H. destruct (cells h !! p); [|done]. injection H as _ <-. apply steady_refl. Qed.

Lemma steadily_store p b : steadily (store p b).
Proof.
  intros h a h' H. unfold store in H. destruct (cells h !! p) eqn:E; [|done]. injection H as _ <-. constructor; [done|].
  intros q Hq. cbn. rewrite lookup_insert_ne; [done|]. intros ->. congruence.
Qed.

Create HintDb steady.
#[local] Hint Resolve steadily_ret steadily_fault steadily_some steadily_alloc steadily_load steadily_store : steady.

(** Through binds, choices and matches. *)
Ltac steps := repeat first
  [ assumption | solve [auto with steady] | apply steadily_bind; [|intros] | match goal with |- steadily (match ?x with _ => _ end) => destruct x end ].

Lemma steadily_hash k : steadily (string_hash k).
Proof. unfold string_hash, load_string. steps. Qed.

Lemma steadily_find o k hash : steadily (find_entry_index o k hash).
Proof.
  unfold find_entry_index. destruct (_ =? _)%nat; [steps|]. apply steadily_bind; [steps|]. intros idx.
  generalize (length (entries o)) as n. intros n. revert idx. induction n as [|n IH]; intros [i|]; cbn [find_loop]; [steps|steps| |steps].
  apply steadily_bind; [unfold entry_at; steps|]. intros e. apply steadily_bind; [unfold entry_matches, string_equals, load_string; steps|].
  intros []; [steps|apply IH].
Qed.

Lemma steadily_update i f o : steadily (update i f o).
Proof. unfold update. steps. Qed.
#[local] Hint Resolve steadily_hash steadily_find steadily_update : steady.

Lemma steadily_rehash o n : steadily (rehash_buckets o n).
Proof.
  unfold rehash_buckets. destruct (n =? 0)%nat; [steps|]. apply steadily_bind; [steps|]. intros []; [|steps].
  apply steadily_bind; [|steps]. generalize 0%nat as i, (replicate n (@None nat)) as bs. generalize (entry_count o) as c. intros c. revert o.
  induction c as [|c IH]; intros o i bs; cbn [rehash_loop]; [steps|]. unfold entry_at. apply steadily_bind; [steps|]. intros e.
  destruct (occupied e); [apply steadily_bind; [steps|]; intros ?|]; (apply steadily_bind; [steps|]; intros ?; apply IH).
Qed.
#[local] Hint Resolve steadily_rehash : steady.

Lemma steadily_set obj k v : steadily (gc_object_set obj k v).
Proof.
  unfold gc_object_set, load_object. apply steadily_bind; [steps|]. intros hash. apply steadily_bind; [steps|]. intros o.
  apply steadily_bind; [steps|]. intros [i|]; [steps|]. apply steadily_bind.
  - unfold gc_object_reserve, grow_entries. steps.
  - intros [ok o1]. destruct (_ || _); [steps|]. apply steadily_bind; [unfold allocate_entry, entry_at; steps|].
    intros [[idx|] o2]; [|steps]. unfold link_entry, put_bucket, update_at. steps.
Qed.

(** ** What is left alone *)

Record keeps (X : nat -> Prop) (h h' : GcHeap) : Prop := mkKeeps {
  kp_texts : forall k t, text h k t -> text h' k t;
  kp_answers : false ∈ answers h' -> false ∈ answers h;
  kp_cells : forall p c, ~ X p -> cells h !! p = Some c -> (forall s, body c <> StringCell s) -> cells h' !! p = Some c;
  kp_next : (next_address h <= next_address h')%nat;
  kp_fresh : fresh h -> fresh h' }.

Lemma keeps_refl X h : keeps X h h.
Proof. by constructor. Qed.

Lemma keeps_trans X h1 h2 h3 : keeps X h1 h2 -> keeps X h2 h3 -> keeps X h1 h3.
Proof. intros [] []. constructor; auto; [lia]. Qed.

Lemma keeps_weaken (X Y : nat -> Prop) h h' : keeps X h h' -> (forall p, X p -> Y p) -> keeps Y h h'.
Proof. intros [] H. constructor; auto. Qed.

Lemma changed_keeps obj h h' : changed obj h h' -> steady h h' -> keeps (eq obj) h h'.
Proof.
  intros [Ht Ha Hc] [Hn Hf]. constructor; [done|done| |by rewrite Hn|].
  - intros p c Hp. apply Hc. intros ->. by apply Hp.
  - intros H p Hp. apply Hf, H. by rewrite <-Hn.
Qed.

(** A cell stays if it is not a string and not in [X]. *)
Lemma kept_body X h h' p b : keeps X h h' -> ~ X p -> (forall s, b <> StringCell s) -> body_at h p = Some b -> body_at h' p = Some b.
Proof.
  intros H Hp Hb. unfold body_at. destruct (cells h !! p) as [c|] eqn:E; [|done]. intros [= <-]. by rewrite (kp_cells _ _ _ H p c Hp E Hb).
Qed.

Lemma object_kept X h h' p m : keeps X h h' -> ~ X p -> object_is h p m -> object_is h' p m.
Proof.
  intros H Hp (c & o & os & fs & Hc & Hb & Ho & Hl & Hd). exists c, o, os, fs. split; [apply (kp_cells _ _ _ H); [done|done|congruence]|].
  split; [done|]. split; [done|]. split; [|done]. eapply lists_ext; [apply H| |exact Hl]. eauto.
Qed.

(** What a value shows does not change with cells that it does not reach. *)
Lemma shows_kept X h h' lo t : keeps X h h' -> (forall p c, (lo <= p)%nat -> X p -> cells h !! p = Some c -> False) -> forall v, shows h lo v t -> shows h' lo v t.
Proof.
  intros H HX. induction t as [|b|i|cps|l IH|m IH] using tree_ind; intros v Hv; inversion Hv as [| | |p ? Ht|p c a ? Hlo Hc Hb Hsz Hall|p m' ? Hlo Hob Hall]; subst; try by constructor.
  - constructor. by apply (kp_texts _ _ _ H).
  - apply (shows_array _ _ p c a); [done| |done|done|].
    + apply (kp_cells _ _ _ H); [by intros HXp; eapply HX|done|congruence].
    + apply Forall2_same_length_lookup. split; [by apply Forall2_length in Hall|]. intros j v t Hj Hl. rewrite Forall_forall in IH.
      apply IH; [by eapply list_elem_of_lookup_2|by eapply Forall2_lookup_lr].
  - apply (shows_object _ _ p m'); [done| |].
    + apply (object_kept X h); [done| |done]. destruct Hob as (c & o & _ & _ & Hc & _). intros HXp. by eapply HX.
    + apply Forall2_same_length_lookup. split; [by apply Forall2_length in Hall|]. intros j v t Hj Hl. rewrite Forall_forall in IH.
      destruct (Forall2_lookup_lr _ _ _ _ _ _ Hall Hj Hl) as [Hu Hs]. split; [done|]. apply IH; [by eapply list_elem_of_lookup_2|done].
Qed.

Lemma shows_weaken h lo lo' t : (lo' <= lo)%nat -> forall v, shows h lo v t -> shows h lo' v t.
Proof.
  intros Hle. induction t as [|b|i|cps|l IH|m IH] using tree_ind; intros v Hv; inversion Hv as [| | |p ? Ht|p c a ? Hlo Hc Hb Hsz Hall|p m' ? Hlo Hob Hall]; subst; try by constructor.
  - apply (shows_array _ _ p c a); [lia|done|done|done|].
    apply Forall2_same_length_lookup. split; [by apply Forall2_length in Hall|]. intros j v t Hj Hl. rewrite Forall_forall in IH.
    apply IH; [by eapply list_elem_of_lookup_2|by eapply Forall2_lookup_lr].
  - apply (shows_object _ _ p m'); [lia|done|].
    apply Forall2_same_length_lookup. split; [by apply Forall2_length in Hall|]. intros j v t Hj Hl. rewrite Forall_forall in IH.
    destruct (Forall2_lookup_lr _ _ _ _ _ _ Hall Hj Hl) as [Hu Hs]. split; [done|]. apply IH; [by eapply list_elem_of_lookup_2|done].
Qed.

(** ** New cells *)

(** [p] is new, and nothing else has changed. *)
Record made (h : GcHeap) (p : nat) (h' : GcHeap) : Prop := mkMade {
  md_address : p = next_address h;
  md_keeps : keeps (fun _ => False) h h';
  md_next : (p < next_address h')%nat }.

Definition allocates (m : M (option nat)) : Prop := forall h r h', fresh h -> m h = Some (r, h') ->
  match r with Some p => made h p h' | None => True end.

Definition draws {A} (m : M A) : Prop := forall h a h', m h = Some (a, h') -> later h h'.

Lemma later_keeps h h' : later h h' -> keeps (fun _ => False) h h'.
Proof. intros (l & -> & H). by constructor. Qed.

Lemma allocates_link hdr b : allocates (p ← gc_link hdr b; mret (Some p)).
Proof.
  intros h r h' Hf E. injection E as <- <-. constructor; [done| |cbn; lia].
  assert (forall p c, cells h !! p = Some c -> cells h !! next_address h = None /\ next_address h <> p) as Hne.
  { intros p c Hc. assert (cells h !! next_address h = None) as Hn by by apply Hf. split; [done|]. intros <-. congruence. }
  constructor; cbn; [|done| |lia|].
  - intros k t (c & s & Hc & Hr). exists c, s. split; [|done]. cbn. destruct (Hne _ _ Hc). by rewrite lookup_insert_ne.
  - intros p c _ Hc _. destruct (Hne _ _ Hc). by rewrite lookup_insert_ne.
  - intros _ p Hp. cbn in *. rewrite lookup_insert_ne by lia. apply Hf. lia.
Qed.

Lemma allocates_none : allocates (mret None).
Proof. by intros h r h' _ [= <- <-]. Qed.

Lemma allocates_draw {A} (m : M A) k : draws m -> (forall a, allocates (k a)) -> allocates (m ≫= k).
Proof.
  intros Hm Hk h r h' Hf E. unfold mbind, M_bind in E. destruct (m h) as [[a h1]|] eqn:E1; [|done]. apply Hm in E1 as Hl.
  specialize (Hk a h1 r h' (later_fresh _ _ Hl Hf) E). destruct r as [p|]; [|done]. destruct Hk as [-> Hkeep Hn]. destruct Hl as (l & -> & Hl).
  constructor; [done| |done]. apply (keeps_trans _ _ (with_answers l h)); [|done]. apply later_keeps. by exists l.
Qed.

Lemma draws_ret {A} (a : A) : draws (mret a).
Proof. intros h b h' [= _ <-]. apply later_refl. Qed.

Lemma draws_alloc : draws alloc.
Proof. intros h a h' E. destruct (alloc_run h) as (ok & h1 & E1 & Hl & _). congruence. Qed.

Lemma draws_array width n : draws (alloc_array width n).
Proof.
  intros h a h' E. unfold alloc_array, mbind, M_bind in E. destruct (alloc_run h) as (ok & h1 & E1 & Hl & _). rewrite E1 in E.
  destruct ok; [destruct (_ =? _)|]; [by injection E as _ <-|done|by injection E as _ <-].
Qed.

Lemma draws_some {A} (x : option A) : draws (some_or_fault x).
Proof. intros h b h' H. unfold some_or_fault in H. destruct x; [|done]. injection H as _ <-. apply later_refl. Qed.

Lemma draws_raw : draws gc_alloc_raw.
Proof.
  intros h a h' E. unfold gc_alloc_raw in E. destruct (alloc_run h) as (ok & h1 & E1 & Hl & _). rewrite E1 in E.
  destruct ok; by injection E as _ <-.
Qed.

Lemma allocates_new more b : allocates (gc_new more b).
Proof.
  unfold gc_new. apply allocates_draw; [apply draws_raw|]. intros [hdr|]; [|apply allocates_none].
  apply allocates_draw; [destruct more; [apply draws_alloc|apply draws_ret]|]. intros []; [apply allocates_link|apply allocates_none].
Qed.

Lemma allocates_object n : allocates (gc_new_object n).
Proof.
  unfold gc_new_object. apply allocates_draw; [apply draws_raw|]. intros [hdr|]; [|apply allocates_none].
  destruct (n =? 0)%nat; [apply allocates_link|]. apply allocates_draw; [apply draws_array|]. intros []; [|apply allocates_none]. cbn [negb].
  apply allocates_draw; [apply draws_some|]. intros count. destruct (count =? 0)%nat; [apply allocates_none|].
  apply allocates_draw; [apply draws_array|]. intros []; [apply allocates_link|apply allocates_none].
Qed.

Lemma new_run more b h : exists r h', gc_new more b h = Some (r, h') /\
  match r with Some p => body_at h' p = Some b | None => false ∈ answers h end.
Proof.
  unfold gc_new, gc_alloc_raw. destruct (alloc_run h) as (ok & h1 & E1 & (l & Hl & Hin) & Ha). unfold mbind, M_bind at 1. rewrite E1. destruct ok.
  2: { exists None, h1. split; [done|by apply Ha]. }
  assert (forall h2, exists r h', (p ← gc_link (flip_mark (live_mark h1)) b; mret (Some p)) h2 = Some (r, h') /\
    match r with Some p => body_at h' p = Some b | None => false ∈ answers h end) as Hlink.
  { intros h2. eexists _, _. split; [done|]. unfold body_at. cbn. by rewrite lookup_insert_eq. }
  destruct more; [|apply Hlink]. destruct (alloc_run h1) as (ok & h2 & E2 & _ & Ha2). unfold mbind, M_bind at 1. rewrite E2. destruct ok; [apply Hlink|].
  exists None, h2. split; [done|]. apply Hin. specialize (Ha2 eq_refl). by rewrite Hl in Ha2.
Qed.

(** A cell [b] is made, or memory is short. *)
Lemma make_run more b h : fresh h -> exists r h', gc_new more b h = Some (r, h') /\
  match r with Some p => made h p h' /\ body_at h' p = Some b | None => false ∈ answers h end.
Proof.
  intros Hf. destruct (new_run more b h) as (r & h' & E & H). exists r, h'. split; [done|]. pose proof (allocates_new more b h r h' Hf E) as Hm.
  by destruct r.
Qed.

Lemma make_string_run d us h : Utf.string_units d = us -> fresh h -> exists r h', make_gc_string d h = Some (r, h') /\
  match r with Some p => made h p h' /\ text h' p us | None => false ∈ answers h end.
Proof.
  intros Hu Hf. assert (forall enc, exists r h', gc_new (not_empty us) (StringCell (mkString enc us None)) h = Some (r, h') /\
    match r with Some p => made h p h' /\ text h' p us | None => false ∈ answers h end) as H.
  { intros enc. destruct (make_run (not_empty us) (StringCell (mkString enc us None)) h Hf) as (r & h' & E & Hr). exists r, h'. split; [done|].
    destruct r as [p|]; [|done]. destruct Hr as [Hm Hb]. split; [done|]. unfold body_at in Hb. destruct (cells h' !! p) as [c|] eqn:Ec; [|done].
    injection Hb as Hb. exists c, (mkString enc us None). split; [done|]. split; [done|]. split; [done|]. by left. }
  unfold Utf.string_units in Hu. unfold make_gc_string, gc_new_string_bytes, gc_new_string_utf16.
  destruct (Utf.is_byte d); rewrite Hu; apply H.
Qed.

Lemma make_object_run h : fresh h -> exists r h', gc_new_object Stream.kInitialContainerCapacity h = Some (r, h') /\
  match r with Some p => made h p h' /\ object_is h' p [] | None => false ∈ answers h end.
Proof.
  intros Hf. destruct (new_object_run h Stream.kInitialContainerCapacity Hf ltac:(done)) as (r & h' & E & H). exists r, h'. split; [done|].
  pose proof (allocates_object _ h r h' Hf E) as Hm. destruct r; [|done]. by destruct H.
Qed.

(** ** Filling containers *)

Definition array_has (h : GcHeap) (p : nat) (vs : list JsValue) : Prop :=
  exists a, body_at h p = Some (ArrayCell a) /\ (size a <= length (elems a))%nat /\ take (size a) (elems a) = vs /\ small_buffer a.

Lemma body_load h p b : body_at h p = Some b -> load p h = Some (b, h).
Proof. unfold body_at, load. destruct (cells h !! p) as [c|]; [|done]. by intros [= <-]. Qed.

Lemma body_load_array h p a : body_at h p = Some (ArrayCell a) -> load_array p h = Some (a, h).
Proof. intros H. unfold load_array. by rewrite (m_bind_run _ _ _ _ _ (body_load _ _ _ H)). Qed.

Lemma put_array_run h p a a' : body_at h p = Some (ArrayCell a) ->
  exists h', store p (ArrayCell a') h = Some (tt, h') /\ keeps (eq p) h h' /\ body_at h' p = Some (ArrayCell a').
Proof.
  unfold body_at. destruct (cells h !! p) as [c|] eqn:Ec; [|done]. intros [= Hb]. unfold store. rewrite Ec. eexists. split; [done|]. split.
  - constructor; cbn; [|done| |lia|].
    + intros k t (c' & s & Hc & Hr). exists c', s. split; [|done]. cbn. rewrite lookup_insert_ne; [done|]. intros <-.
      assert (c' = c) as -> by congruence. destruct Hr as [Hr _]. congruence.
    + intros q c' Hq Hc _. by rewrite lookup_insert_ne.
    + intros Hf q Hq. cbn in *. rewrite lookup_insert_ne; [by apply Hf|]. intros <-. by rewrite Hf in Ec.
  - cbn. by rewrite lookup_insert_eq.
Qed.

Lemma ensure_run h p a needed : body_at h p = Some (ArrayCell a) -> (size a <= length (elems a))%nat -> small_buffer a -> (size a < needed)%nat ->
  Z.of_nat needed <= 2 ^ 58 -> exists ok h', Stream.ensure_array_capacity p needed h = Some (ok, h') /\ (ok = false -> false ∈ answers h) /\ keeps (eq p) h h' /\
    (ok = true -> exists a', body_at h' p = Some (ArrayCell a') /\ size a' = size a /\ (needed <= length (elems a'))%nat /\
       take (size a) (elems a') = take (size a) (elems a) /\ small_buffer a').
Proof.
  intros Hb Hsz Hw Hn H58. unfold Stream.ensure_array_capacity. rewrite (m_bind_run _ _ _ _ _ (body_load_array _ _ _ Hb)).
  destruct (Nat.leb_spec needed (length (elems a))) as [Hle|Hgt].
  { exists true, h. split; [done|]. split; [done|]. split; [apply keeps_refl|]. intros _. by exists a. }
  unfold small_buffer in Hw. unfold Stream.kInitialContainerCapacity.
  destruct (grown_capacity_run (if (length (elems a) =? 0)%nat then Z.of_nat 4 else u64 (Z.of_nat (length (elems a)) * 2)) needed h)
    as (cap & Ec & _ & Hcap & Hcap'); [|lia|].
  { destruct (Nat.eqb_spec (length (elems a)) 0); [lia|]. rewrite wrap_small by (unfold in_width; lia). lia. }
  assert (Z.of_nat cap < 2 ^ 59) as Hc59.
  { destruct (Nat.eqb_spec (length (elems a)) 0); [lia|]. rewrite wrap_small in Hcap' by (unfold in_width; lia). lia. }
  rewrite (m_bind_run _ _ _ _ _ Ec). unfold move_elems. rewrite (m_bind_run _ _ _ _ _ (body_load_array _ _ _ Hb)).
  destruct (alloc_run h) as (ok & h1 & E1 & Hl & Ha). rewrite <-(alloc_array_small sizeof_JsValue cap) in E1 by (unfold sizeof_JsValue; lia).
  rewrite (m_bind_run _ _ _ _ _ E1). pose proof (later_keeps _ _ Hl) as Hk.
  destruct ok; [|exists false, h1; split; [done|]; split; [done|]; split; [by eapply keeps_weaken|done]].
  assert (body_at h1 p = Some (ArrayCell a)) as Hb1 by (eapply kept_body; [exact Hk|tauto|done|done]).
  destruct (put_array_run h1 p a (mkArray (size a) (version a) (take (size a) (elems a) ++ replicate (cap - size a) Undefined)) Hb1)
    as (h2 & E2 & Hk2 & Hb2). rewrite (m_bind_run _ _ _ _ _ E2). exists true, h2. split; [done|]. split; [done|].
  split; [eapply keeps_trans; [by eapply keeps_weaken|done]|]. intros _. eexists. split; [done|]. cbn [size elems]. split; [done|].
  unfold small_buffer. cbn [elems]. rewrite length_app, length_take, length_replicate. split; [lia|]. split; [|lia].
  rewrite take_app_le by (rewrite length_take; lia). by rewrite take_take, Nat.min_id.
Qed.

Lemma append_run h p vs v : array_has h p vs -> Z.of_nat (length vs) < 2 ^ 30 -> exists ok h', Stream.append_value p v h = Some (ok, h') /\
  if ok then keeps (eq p) h h' /\ array_has h' p (vs ++ [v]) else false ∈ answers h.
Proof.
  intros (a & Hb & Hsz & <- & Hw) Hlen. rewrite length_take in Hlen. unfold Stream.append_value. rewrite (m_bind_run _ _ _ _ _ (body_load_array _ _ _ Hb)).
  destruct (ensure_run h p a (size a + 1) Hb Hsz Hw ltac:(lia) ltac:(lia)) as (ok & h1 & E1 & Ha & Hk & H). rewrite (m_bind_run _ _ _ _ _ E1).
  destruct ok; [|exists false, h1; by auto]. destruct (H eq_refl) as (a1 & Hb1 & Hs1 & Hcap & Ht & Hw1). rewrite (m_bind_run _ _ _ _ _ (body_load_array _ _ _ Hb1)).
  rewrite (m_bind_run _ _ h1 (<[size a1 := v]> (elems a1)) h1) by (unfold put; by rewrite (proj2 (Nat.ltb_lt _ _)) by lia).
  destruct (put_array_run h1 p a1 (mkArray (size a1 + 1) (u64 (version a1 + 1)) (<[size a1:=v]> (elems a1))) Hb1) as (h2 & E2 & Hk2 & Hb2).
  rewrite (m_bind_run _ _ _ _ _ E2). exists true, h2. split; [done|]. split; [by eapply keeps_trans|].
  eexists. split; [done|]. cbn [size elems]. rewrite length_insert. split; [lia|]. rewrite Hs1, Nat.add_1_r.
  split; [|by unfold small_buffer; cbn; rewrite length_insert].
  rewrite (take_S_r _ _ v) by (apply list_lookup_insert_eq; lia). by rewrite take_insert_ge, Ht by lia.
Qed.

Lemma set_member_run h p m key us v : object_is h p m -> fresh h -> Utf.string_units key = us -> Z.of_nat (length m) < 2 ^ 30 ->
  exists ok h', Stream.set_member p key v h = Some (ok, h') /\
    if ok then keeps (eq p) h h' /\ object_is h' p (map_set us v m) else false ∈ answers h.
Proof.
  intros Ho Hf Hd Hlen. unfold Stream.set_member. destruct (make_string_run key us h Hd Hf) as (r & h1 & E1 & Hr). rewrite (m_bind_run _ _ _ _ _ E1).
  destruct r as [k|]; [|by exists false, h1]. destruct Hr as [Hm Ht]. pose proof (md_keeps _ _ _ Hm) as Hk.
  pose proof (object_kept _ _ _ p m Hk ltac:(tauto) Ho) as Ho1.
  destruct (set_run h1 p k m us Ho1 Ht v Hlen) as (ok & h2 & E2 & Hc & Ha & Ho2). exists ok, h2. split; [done|].
  destruct ok; [|by apply (kp_answers _ _ _ Hk), Ha]. split; [|done].
  eapply keeps_trans; [by eapply keeps_weaken|]. apply changed_keeps; [done|]. by eapply steadily_set.
Qed.

(** ** Running the parser

    [run_to failure m l h Q]: on the text [l] in the heap [h], [m] comes to an end; the
    message of an error satisfies [failure], and otherwise [Q] holds of the result, the
    rest of the text and the heap. *)

Section Running.
Context (failure : string -> Prop).

Definition run_to {A} (m : P A) (l : list Z) (h : GcHeap) (Q : A -> list Z -> GcHeap -> Prop) : Prop := forall pos,
  match m l pos h with
  | Some (Done a l' _, h') => Q a l' h'
  | Some (Failed message _, _) => failure message
  | None => False
  end.

Lemma run_ret {A} (a : A) l h (Q : A -> list Z -> GcHeap -> Prop) : Q a l h -> run_to (mret a) l h Q.
Proof. by intros H pos. Qed.

Lemma run_bind {A B} (m : P A) (k : A -> P B) l h (Q : B -> list Z -> GcHeap -> Prop) :
  run_to m l h (fun a l' h' => run_to (k a) l' h' Q) -> run_to (m ≫= k) l h Q.
Proof.
  intros H pos. specialize (H pos). unfold mbind, P_bind, mbind, M_bind. destruct (m l pos h) as [[[a l' pos'|msg off] h']|]; [|done|done].
  apply H.
Qed.

Lemma run_mono {A} (m : P A) l h (Q Q' : A -> list Z -> GcHeap -> Prop) : run_to m l h Q -> (forall a l' h', Q a l' h' -> Q' a l' h') -> run_to m l h Q'.
Proof. intros H HQ pos. specialize (H pos). destruct (m l pos h) as [[[a l' pos'|msg off] h']|]; [by apply HQ|done|done]. Qed.

Lemma run_read {A} (r : Reader A) l h (Q : A -> list Z -> GcHeap -> Prop) a l' :
  (forall pos, exists pos', r l pos = Done a l' pos') -> Q a l' h -> run_to (read r) l h Q.
Proof. intros H HQ pos. destruct (H pos) as (pos' & E). unfold read, mret, M_ret. by rewrite E. Qed.

Lemma run_read_some {A} (r : Reader A) (R : A -> Prop) l h (Q : A -> list Z -> GcHeap -> Prop) l' :
  (forall pos, exists a pos', r l pos = Done a l' pos' /\ R a) -> (forall a, R a -> Q a l' h) -> run_to (read r) l h Q.
Proof. intros H HQ pos. destruct (H pos) as (a & pos' & E & HR). unfold read, mret, M_ret. rewrite E. by apply HQ. Qed.

Lemma run_allocated {A} (m : M (option A)) l h (Q : A -> list Z -> GcHeap -> Prop) r h' : m h = Some (r, h') ->
  match r with Some a => Q a l h' | None => failure "out of memory" end -> run_to (allocated m) l h Q.
Proof. intros E H pos. unfold allocated. rewrite (m_bind_run _ _ _ _ _ E). by destruct r. Qed.

Lemma run_succeeds (m : M bool) l h (Q : unit -> list Z -> GcHeap -> Prop) ok h' : m h = Some (ok, h') ->
  (if ok then Q tt l h' else failure "out of memory") -> run_to (succeeds m) l h Q.
Proof. intros E H pos. unfold succeeds. rewrite (m_bind_run _ _ _ _ _ E). by destruct ok. Qed.

Lemma run_peek l h (Q : option Z -> list Z -> GcHeap -> Prop) : Q (list.head l) l h -> run_to peek l h Q.
Proof. by intros H pos. Qed.

Lemma run_take c l h (Q : unit -> list Z -> GcHeap -> Prop) : Q tt l h -> run_to take_char (c :: l) h Q.
Proof. intros H pos. unfold take_char, mret, M_ret. cbn [drop]. by rewrite drop_0. Qed.

(** *** White space *)

Definition white (l : list Z) : Prop := Forall (fun c => is_ws c = true) l.
Definition solid (l : list Z) : Prop := match l with c :: _ => is_ws c = false | [] => True end.

Lemma skip_white_run w l pos : white w -> solid l -> skip_ws (w ++ l) pos = (l, (pos + length w)%nat).
Proof.
  intros Hw Hl. revert pos. induction Hw as [|c w Hc _ IH]; intros pos; cbn [app skip_ws length].
  - rewrite Nat.add_0_r. destruct l as [|c l]; [done|]. cbn [skip_ws solid] in *. by rewrite Hl.
  - rewrite Hc, IH. f_equal. lia.
Qed.

Lemma run_skip w l h (Q : unit -> list Z -> GcHeap -> Prop) : white w -> solid l -> Q tt l h -> run_to skip_white (w ++ l) h Q.
Proof. intros Hw Hl H pos. unfold skip_white. by rewrite skip_white_run. Qed.

Lemma run_skip_none l h (Q : unit -> list Z -> GcHeap -> Prop) : solid l -> Q tt l h -> run_to skip_white l h Q.
Proof. apply (run_skip []). constructor. Qed.

End Running.

Section Reading.
Context (refused : Prop).

(** The only error, and its cause. *)
Definition short_of_memory (message : string) : Prop := message = "out of memory"%string /\ refused.

#[local] Abbreviation wp := (run_to short_of_memory).

Lemma read_allocated {A} (m : M (option A)) l h (Q : A -> list Z -> GcHeap -> Prop) r h' : m h = Some (r, h') ->
  match r with Some a => Q a l h' | None => refused end -> wp (allocated m) l h Q.
Proof. intros E H. eapply run_allocated; [exact E|]. by destruct r. Qed.

Lemma read_succeeds (m : M bool) l h (Q : unit -> list Z -> GcHeap -> Prop) ok h' : m h = Some (ok, h') ->
  (if ok then Q tt l h' else refused) -> wp (succeeds m) l h Q.
Proof. intros E H. eapply run_succeeds; [exact E|]. by destruct ok. Qed.

Lemma units_inj a b : Forall scalar a -> Forall scalar b -> units_of a = units_of b -> a = b.
Proof.
  intros Ha Hb E. pose proof (Utf.write_units_of a Ha) as Ea. rewrite E, (Utf.write_units_of b Hb) in Ea. injection Ea as Ea.
  pose proof (Utf.codepoints_encoded a (length (encoded a)) Ha ltac:(done)) as Ca.
  rewrite <-Ea, (Utf.codepoints_encoded b _ Hb ltac:(done)) in Ca. by injection Ca.
Qed.

(** *** Printed values *)

Context (strtod : list Z -> spec_float * bool * nat) (o : Options) (Hindent : white (indent_string_ o)).

Lemma white_line k : white (line o k).
Proof. unfold line. destruct (Encode.beauty o); [|constructor]. constructor; [done|]. induction k as [|k IH]; [constructor|]. cbn [replicate concat]. by apply Forall_app. Qed.

Lemma print_head k t : valid t -> exists c r, print o k t = c :: r /\ is_ws c = false /\ c <> chr "]" /\ c <> chr "}".
Proof.
  intros Ht. destruct t as [|b|i|cps|l|m]; cbn [print]; try (eexists _, _; by split).
  - destruct b; eexists _, _; by split.
  - cbn [valid] in Ht. unfold Encode.to_chars. destruct (Z.ltb_spec i 0); [eexists _, _; by split|].
    pose proof (decimal_number i ltac:(lia)) as Hd. destruct (Encode.decimal i) as [|c r] eqn:E; [by destruct (nm_some _ _ Hd)|].
    exists c, r. split; [done|]. pose proof (nm_digits _ _ Hd) as [Hc _]%Forall_cons.
    destruct (digit_cases c Hc) as [->|[->|[->|[->|[->|[->|[->|[->|[->| ->]]]]]]]]]; done.
Qed.

Lemma print_solid k t l : valid t -> solid (print o k t ++ l).
Proof. intros Ht. destruct (print_head k t Ht) as (c & r & -> & Hc & _). done. Qed.

(** What [parse_value] has done with a value that was printed. *)
Definition value_read (t : Json) (h : GcHeap) (rest : list Z) (v : JsValue) (l' : list Z) (h' : GcHeap) : Prop :=
  l' = rest /\ keeps (fun p => next_address h <= p)%nat h h' /\ shows h' (next_address h) v t.

Definition reads (pv : P JsValue) (bound : nat) (k : nat) (t : Json) : Prop := forall w rest h,
  white w -> ends_number rest -> fresh h -> (false ∈ answers h -> refused) -> (length (w ++ print o k t ++ rest) < bound)%nat ->
  wp pv (w ++ print o k t ++ rest) h (value_read t h rest).

(** What follows an element: more of them, with commas, and the end. *)
Definition tail_text {A} (f : A -> list Z) (ts : list A) (closing : list Z) : list Z := concat (map (cons (chr ",")) (map f ts)) ++ closing.

Section Elements.
Context (pv : P JsValue) (bound : nat) (k : nat) (p : nat).

Definition element_text (t : Json) : list Z := line o k ++ print o (S k) t.

Lemma tail_ends {A} (f : A -> list Z) ts w c rest : white w -> c = chr "]" \/ c = chr "}" -> ends_number (tail_text f ts (w ++ c :: rest)).
Proof.
  intros Hw Hc. destruct ts as [|t ts]; [|done]. destruct Hw as [|x w Hx _]; cbn; [by destruct Hc as [-> | ->]|].
  unfold is_ws in Hx. assert (x = 32 \/ x = 9 \/ x = 10 \/ x = 13) as [->|[->|[->| ->]]] by (change (chr " ") with 32 in Hx; lia); done.
Qed.

(** The elements so far stay what they are while later ones are read. *)
Lemma all_kept X h h' lo vs ts : keeps X h h' -> (forall q c, (lo <= q)%nat -> X q -> cells h !! q = Some c -> False) ->
  Forall2 (shows h lo) vs ts -> Forall2 (shows h' lo) vs ts.
Proof. intros Hk HX H. eapply Forall2_impl; [exact H|]. intros v t. by apply (shows_kept X h h' lo t). Qed.

Lemma elements_run ts : forall t fuel w h vs dn rest wc, Forall (reads pv bound (S k)) (t :: ts) -> Forall valid (t :: ts) -> white w -> white wc ->
  fresh h -> (false ∈ answers h -> refused) -> (length ts < fuel)%nat -> Z.of_nat (length dn + length ts) < 2 ^ 30 ->
  (length (w ++ print o (S k) t ++ tail_text element_text ts (wc ++ chr "]" :: rest)) < bound)%nat ->
  array_has h p vs -> (p < next_address h)%nat -> Forall2 (shows h (S p)) vs dn ->
  wp (elements pv fuel p) (w ++ print o (S k) t ++ tail_text element_text ts (wc ++ chr "]" :: rest)) h
    (fun v l' h' => v = Array p /\ l' = rest /\ keeps (fun q => p <= q)%nat h h' /\
       exists vs', array_has h' p vs' /\ Forall2 (shows h' (S p)) vs' (dn ++ t :: ts)).
Proof.
  induction ts as [|t' ts IH]; intros t fuel w h vs dn rest wc Hr Hv Hw Hwc Hf Ha Hfuel Hsize Hlen Hp Hn Hvs;
    (destruct fuel as [|fuel]; [cbn [length] in Hfuel; lia|]); apply Forall_cons in Hr as [Ht Hr]; apply Forall_cons in Hv as [Hvt Hv]; cbn [elements];
    apply run_bind; (eapply run_mono; [apply Ht; try done; by apply tail_ends; [|left]|]); intros v ? h1 (-> & Hk1 & Hs1).
  all: pose proof (kp_next _ _ _ Hk1) as Hn1; pose proof (kp_fresh _ _ _ Hk1 Hf) as Hf1.
  all: assert (array_has h1 p vs) as Hp1 by (destruct Hp as (a & Hb & Hrest); exists a; split; [eapply kept_body; [exact Hk1|cbn; lia|done|done]|done]).
  all: assert (Forall2 (shows h1 (S p)) (vs ++ [v]) (dn ++ [t])) as Hvs1 by
    (apply Forall2_app; [eapply all_kept; [exact Hk1| |exact Hvs]; intros q c _ Hq Hc; by rewrite (Hf q Hq) in Hc|
     constructor; [by eapply shows_weaken|constructor]]).
  all: destruct (append_run h1 p vs v Hp1 ltac:(pose proof (Forall2_length _ _ _ Hvs); lia)) as (ok & h2 & E & Hok); apply run_bind; eapply read_succeeds; [exact E|].
  all: destruct ok; [|by apply Ha, (kp_answers _ _ _ Hk1)]; destruct Hok as [Hk2 Hp2].
  all: assert (keeps (fun q => p <= q)%nat h h2) as Hk12 by (eapply keeps_trans; [eapply keeps_weaken; [exact Hk1|cbn; intros; lia]|eapply keeps_weaken; [exact Hk2|cbn; intros; lia]]).
  all: assert (Forall2 (shows h2 (S p)) (vs ++ [v]) (dn ++ [t])) as Hvs2 by (eapply all_kept; [exact Hk2| |exact Hvs1]; intros q c ? ? _; lia).
  - cbn [tail_text map concat app]. apply run_bind. apply run_skip; [done|done|]. apply run_bind, run_peek. cbn [list.head].
    change (chr "]" =? chr ",") with false. cbv iota. change (chr "]" =? chr "]") with true. cbv iota. apply run_bind, run_take, run_ret.
    split; [done|]. split; [done|]. split; [done|]. by exists (vs ++ [v]).
  - unfold tail_text. cbn [map concat app]. apply run_bind. apply run_skip_none; [done|]. apply run_bind, run_peek. cbn [list.head].
    change (chr "," =? chr ",") with true. cbv iota. apply run_bind, run_take.
    assert (forall l, (element_text t' ++ concat (map (cons (chr ",")) (map element_text ts))) ++ l = line o k ++ print o (S k) t' ++ tail_text element_text ts l) as El
      by (intros l; unfold element_text, tail_text; by rewrite <-!app_assoc).
    rewrite El. eapply run_mono.
    + apply (IH t' fuel (line o k) h2 (vs ++ [v]) (dn ++ [t]) rest wc); try done; [apply white_line|by apply (kp_fresh _ _ _ Hk2)| | | | |].
      * intros H. by apply Ha, (kp_answers _ _ _ Hk12).
      * cbn [length] in Hfuel. lia.
      * rewrite length_app. cbn [length] in *. lia.
      * rewrite <-El. unfold tail_text in Hlen. cbn [map concat app] in Hlen. rewrite ?length_app in Hlen. cbn [length] in Hlen. rewrite ?length_app in Hlen; rewrite ?length_app. cbn [length] in Hlen |- *. lia.
      * pose proof (kp_next _ _ _ Hk2). lia.
    + intros v' l' h' (-> & -> & Hk & vs' & Ha' & Hs'). split; [done|]. split; [done|]. split; [by eapply keeps_trans|].
      exists vs'. split; [done|]. by rewrite <-app_assoc in Hs'.
Qed.

Definition member_text (kt : list Z * Json) : list Z := line o k ++ quoted o kt.1 ++ colon o ++ print o (S k) kt.2.

Definition member_shows (h : GcHeap) (kv : list Z * JsValue) (kt : list Z * Json) : Prop := kv.1 = units_of kt.1 /\ shows h (S p) kv.2 kt.2.

Lemma members_kept X h h' m dn : keeps X h h' -> (forall q c, (S p <= q)%nat -> X q -> cells h !! q = Some c -> False) ->
  Forall2 (member_shows h) m dn -> Forall2 (member_shows h') m dn.
Proof. intros Hk HX H. eapply Forall2_impl; [exact H|]. intros kv kt [Hu Hs]. split; [done|]. by apply (shows_kept X h h' (S p)). Qed.

Lemma colon_text : exists w, white w /\ colon o = chr ":" :: w.
Proof. unfold colon. destruct (Encode.beauty o); [exists [chr " "]|exists []]; (split; [by repeat constructor|done]). Qed.

Lemma keys_new m dn h cps : Forall2 (member_shows h) m dn -> Forall scalar cps -> Forall (fun kt => Forall scalar kt.1) dn ->
  cps ∉ dn.*1 -> units_of cps ∉ m.*1.
Proof.
  intros Hm Hc Hd Hn Hin. apply Hn. clear Hn. induction Hm as [|[us v] [cps' t] m dn [Hu _] _ IH]; [by apply elem_of_nil in Hin|].
  apply Forall_cons in Hd as [Hc' Hd]. cbn [fmap list_fmap fst] in *. apply elem_of_cons in Hin as [Heq|Hin].
  - rewrite Hu in Heq. apply elem_of_cons. left. by apply units_inj.
  - apply elem_of_cons. right. by apply IH.
Qed.

Lemma members_run ms : forall kt fuel w h m dn rest wc, Forall (fun kt => reads pv bound (S k) kt.2) (kt :: ms) ->
  Forall (fun kt => Forall scalar kt.1 /\ valid kt.2) (dn ++ kt :: ms) -> NoDup ((dn ++ kt :: ms).*1) -> white w -> white wc ->
  fresh h -> (false ∈ answers h -> refused) -> (length ms < fuel)%nat -> Z.of_nat (length dn + length ms) < 2 ^ 30 ->
  (length (w ++ quoted o kt.1 ++ colon o ++ print o (S k) kt.2 ++ tail_text member_text ms (wc ++ chr "}" :: rest)) < bound)%nat ->
  object_is h p m -> (p < next_address h)%nat -> Forall2 (member_shows h) m dn ->
  wp (members pv fuel p) (w ++ quoted o kt.1 ++ colon o ++ print o (S k) kt.2 ++ tail_text member_text ms (wc ++ chr "}" :: rest)) h
    (fun v l' h' => v = Object p /\ l' = rest /\ keeps (fun q => p <= q)%nat h h' /\
       exists m', object_is h' p m' /\ Forall2 (member_shows h') m' (dn ++ kt :: ms)).
Proof.
  induction ms as [|kt' ms IH]; intros [cps t] fuel w h m dn rest wc Hr Hv Hnd Hw Hwc Hf Ha Hfuel Hsize Hlen Hp Hn Hm;
    (destruct fuel as [|fuel]; [cbn [length] in Hfuel; lia|]); apply Forall_cons in Hr as [Ht Hr]; cbn [fst snd] in *.
  all: pose proof Hv as [Hvd [[Hcps Hvt] Hvs]%Forall_cons]%Forall_app; cbn [fst snd] in *; destruct colon_text as (wk & Hwk & Ek); rewrite Ek in *; cbn [members].
  all: apply run_bind, run_skip; [done|done|]; apply run_bind, run_peek; cbn [quoted app list.head]; change (34 =? 34) with true; cbn [negb].
  all: apply run_bind; eapply run_read_some; [intros pos; by apply (parse_string_run o cps)|]; intros key Hkey.
  all: cbn [app]; apply run_bind, run_skip_none; [done|]; apply run_bind, run_peek; cbn [list.head]; rewrite bool_decide_eq_true_2 by done; cbn [negb].
  all: apply run_bind, run_take; apply run_bind; eapply run_mono; [apply Ht; try done; try (by apply tail_ends; [|right]);
    (rewrite ?length_app in Hlen; cbn [length] in Hlen; rewrite ?length_app in Hlen; rewrite ?length_app; lia)|]; intros v ? h1 (-> & Hk1 & Hs1).
  all: pose proof (kp_next _ _ _ Hk1) as Hn1; pose proof (kp_fresh _ _ _ Hk1 Hf) as Hf1.
  all: assert (object_is h1 p m) as Hp1 by (eapply object_kept; [exact Hk1|cbn; lia|done]).
  all: assert (Forall2 (member_shows h1) (m ++ [(units_of cps, v)]) (dn ++ [(cps, t)])) as Hm1 by
    (apply Forall2_app; [eapply members_kept; [exact Hk1| |exact Hm]; intros q c _ Hq Hc; by rewrite (Hf q Hq) in Hc|
     constructor; [split; [done|by eapply shows_weaken]|constructor]]).
  all: assert (units_of cps ∉ m.*1) as Hnew by
    (eapply keys_new; [exact Hm|done|by eapply Forall_impl; [exact Hvd|intros ? []]|]; rewrite fmap_app in Hnd; apply NoDup_app in Hnd as (_ & Hnd & _);
       intros Hin; apply (Hnd cps Hin); apply list_elem_of_here).
  all: destruct (set_member_run h1 p m key (units_of cps) v Hp1 Hf1 (proj1 Hkey)) as (ok & h2 & E & Hok);
    [pose proof (Forall2_length _ _ _ Hm); lia|]; rewrite map_set_new in Hok by done.
  all: apply run_bind; eapply read_succeeds; [exact E|]; destruct ok; [|by apply Ha, (kp_answers _ _ _ Hk1)]; destruct Hok as [Hk2 Hp2].
  all: assert (keeps (fun q => p <= q)%nat h h2) as Hk12 by
    (eapply keeps_trans; [eapply keeps_weaken; [exact Hk1|cbn; intros; lia]|eapply keeps_weaken; [exact Hk2|cbn; intros; lia]]).
  all: assert (Forall2 (member_shows h2) (m ++ [(units_of cps, v)]) (dn ++ [(cps, t)])) as Hm2 by
    (eapply members_kept; [exact Hk2| |exact Hm1]; intros q c ? ? _; lia).
  - cbn [tail_text map concat app]. apply run_bind. apply run_skip; [done|done|]. apply run_bind, run_peek. cbn [list.head].
    change (chr "}" =? chr ",") with false. cbv iota. change (chr "}" =? chr "}") with true. cbv iota. apply run_bind, run_take, run_ret.
    split; [done|]. split; [done|]. split; [done|]. by eexists.
  - unfold tail_text. cbn [map concat app]. apply run_bind. apply run_skip_none; [done|]. apply run_bind, run_peek. cbn [list.head].
    change (chr "," =? chr ",") with true. cbv iota. apply run_bind, run_take.
    assert (forall l, (member_text kt' ++ concat (map (cons (chr ",")) (map member_text ms))) ++ l =
      line o k ++ quoted o kt'.1 ++ (chr ":" :: wk) ++ print o (S k) kt'.2 ++ tail_text member_text ms l) as El
      by (intros l; unfold member_text, tail_text; rewrite Ek; by rewrite <-!app_assoc).
    rewrite El. eapply run_mono.
    + apply (IH kt' fuel (line o k) h2 (m ++ [(units_of cps, v)]) (dn ++ [(cps, t)]) rest wc); try done;
        [by rewrite <-app_assoc|by rewrite <-app_assoc|apply white_line|by apply (kp_fresh _ _ _ Hk2)| | | | |].
      * intros H. by apply Ha, (kp_answers _ _ _ Hk12).
      * cbn [length] in Hfuel. lia.
      * rewrite length_app. cbn [length] in *. lia.
      * rewrite <-El. unfold tail_text in Hlen. cbn [map concat app] in Hlen. rewrite ?length_app in Hlen. cbn [length] in Hlen.
        rewrite ?length_app in Hlen; rewrite ?length_app. cbn [length] in Hlen |- *. rewrite ?length_app in Hlen. cbn [length] in Hlen |- *. lia.
      * pose proof (kp_next _ _ _ Hk2). lia.
    + intros v' l' h' (-> & -> & Hk & m' & Ha' & Hs'). split; [done|]. split; [done|]. split; [by eapply keeps_trans|].
      exists m'. split; [done|]. by rewrite <-app_assoc in Hs'.
Qed.

End Elements.

Lemma tail_length {A} (f : A -> list Z) ts c : (length ts <= length (tail_text f ts c))%nat.
Proof.
  unfold tail_text. rewrite length_app. induction ts as [|t ts IH]; cbn [map concat length app]; [lia|]. rewrite length_app. lia.
Qed.

Lemma array_shows h lo p vs l : array_has h p vs -> (lo <= p)%nat -> Forall2 (shows h (S p)) vs l -> shows h lo (Array p) (JArray l).
Proof.
  intros (a & Hb & Hsz & <- & _) Hle H. unfold body_at in Hb. destruct (cells h !! p) as [c|] eqn:Ec; [|done]. injection Hb as Hb.
  apply (shows_array h lo p c a); try done. eapply Forall2_impl; [exact H|]. intros v t. apply shows_weaken. lia.
Qed.

Lemma object_shows h lo p m l : object_is h p m -> (lo <= p)%nat -> Forall2 (member_shows p h) m l -> shows h lo (Object p) (JObject l).
Proof.
  intros Ho Hle H. apply (shows_object h lo p m); try done. eapply Forall2_impl; [exact H|]. intros kv kt [Hu Hs]. split; [done|].
  eapply shows_weaken; [|exact Hs]. lia.
Qed.

Lemma literal_run (literal rest : list Z) value pos : parse_literal literal value (literal ++ rest) pos = Done value rest (pos + length literal)%nat.
Proof. unfold parse_literal. rewrite take_app_length, bool_decide_eq_true_2 by done. by rewrite drop_app_length. Qed.

Lemma array_text k t ts rest : print o k (JArray (t :: ts)) ++ rest =
  chr "[" :: line o k ++ print o (S k) t ++ tail_text (element_text k) ts (line o (k - 1) ++ chr "]" :: rest).
Proof. unfold tail_text, element_text. cbn [print map commas close app]. by rewrite <-!app_assoc. Qed.

Lemma object_text k kt ms rest : print o k (JObject (kt :: ms)) ++ rest =
  chr "{" :: line o k ++ quoted o kt.1 ++ colon o ++ print o (S k) kt.2 ++ tail_text (member_text k) ms (line o (k - 1) ++ chr "}" :: rest).
Proof. unfold tail_text, member_text. cbn [print map commas close app]. by rewrite <-!app_assoc. Qed.

(** A container is made: its address is the next one, and the rest of the heap stays. *)
Lemma made_later h p h1 h' : made h p h1 -> keeps (fun q => p <= q)%nat h1 h' -> keeps (fun q => next_address h <= q)%nat h h'.
Proof. intros [-> Hk _] H. eapply keeps_trans; [by eapply keeps_weaken|done]. Qed.

Lemma made_le h p h1 : made h p h1 -> (next_address h <= p)%nat.
Proof. intros [-> _ _]. lia. Qed.

Section Containers.
Context (pv : P JsValue) (bound fuel k : nat) (Hfuel : (bound <= fuel)%nat).

Lemma parse_array_run l rest h : Forall (reads pv bound (S k)) l -> Forall valid l -> fresh h -> (false ∈ answers h -> refused) ->
  (length (print o k (JArray l) ++ rest) <= bound)%nat -> Z.of_nat bound < 2 ^ 30 ->
  wp (parse_array pv fuel) (print o k (JArray l) ++ rest) h (value_read (JArray l) h rest).
Proof.
  intros Hl Hv Hf Ha Hlen Hb30. unfold parse_array.
  destruct (make_run true (ArrayCell (mkArray 0 0 (replicate Stream.kInitialContainerCapacity Undefined))) h Hf) as (r & h1 & E & Hr).
  rewrite <-(gc_new_array_small Stream.kInitialContainerCapacity) in E by done.
  destruct l as [|t ts].
  - cbn [print map commas close app]. apply run_bind, run_take, run_bind, run_skip_none; [done|]. apply run_bind. eapply read_allocated; [exact E|].
    destruct r as [p|]; [|by apply Ha]. destruct Hr as [Hm Hb]. apply run_bind, run_peek. cbn [list.head]. rewrite bool_decide_eq_true_2 by done.
    apply run_bind, run_take, run_ret. split; [done|]. split; [by eapply keeps_weaken; [apply (md_keeps _ _ _ Hm)|]|].
    apply (array_shows h1 _ p []); [eexists; split; [exact Hb|split; [cbn; lia|done]]|by eapply made_le|constructor].
  - apply Forall_cons in Hv as Hv'. destruct Hv' as [Hvt _]. rewrite array_text in *. cbn [length] in Hlen.
    apply run_bind, run_take, run_bind, run_skip; [apply white_line|by apply print_solid|]. apply run_bind. eapply read_allocated; [exact E|].
    destruct r as [p|]; [|by apply Ha]. destruct Hr as [Hm Hb]. apply run_bind, run_peek.
    destruct (print_head (S k) t Hvt) as (c & cs & Ec & _ & Hc & _). rewrite bool_decide_eq_false_2 by (rewrite Ec; cbn; congruence).
    pose proof (md_keeps _ _ _ Hm) as Hk. rewrite ?length_app in Hlen. pose proof (tail_length (element_text k) ts (line o (k - 1) ++ chr "]" :: rest)).
    eapply run_mono; [apply (elements_run pv bound k p ts t fuel [] h1 [] [] rest (line o (k - 1)))|]; try done.
    + constructor.
    + apply white_line.
    + by apply (kp_fresh _ _ _ Hk).
    + intros H1. by apply Ha, (kp_answers _ _ _ Hk).
    + lia.
    + cbn [length]. lia.
    + cbn [app]. rewrite ?length_app. lia.
    + eexists. split; [exact Hb|]. split; [cbn; lia|done].
    + apply (md_next _ _ _ Hm).
    + intros v l' h' (-> & -> & Hk' & vs & Hvs & Hs). split; [done|]. split; [by eapply made_later|].
      apply (array_shows h' _ p vs); [done|by eapply made_le|done].
Qed.

Lemma parse_object_run m rest h : Forall (fun kt => reads pv bound (S k) kt.2) m -> valid (JObject m) -> fresh h -> (false ∈ answers h -> refused) ->
  (length (print o k (JObject m) ++ rest) <= bound)%nat -> Z.of_nat bound < 2 ^ 30 ->
  wp (parse_object pv fuel) (print o k (JObject m) ++ rest) h (value_read (JObject m) h rest).
Proof.
  intros Hl [Hnd Hv] Hf Ha Hlen Hb30. rewrite all_Forall in Hv. unfold parse_object. destruct (make_object_run h Hf) as (r & h1 & E & Hr).
  destruct m as [|kt ms].
  - cbn [print map commas close app]. apply run_bind, run_take, run_bind, run_skip_none; [done|]. apply run_bind. eapply read_allocated; [exact E|].
    destruct r as [p|]; [|by apply Ha]. destruct Hr as [Hm Ho]. apply run_bind, run_peek. cbn [list.head]. rewrite bool_decide_eq_true_2 by done.
    apply run_bind, run_take, run_ret. split; [done|]. split; [by eapply keeps_weaken; [apply (md_keeps _ _ _ Hm)|]|].
    apply (object_shows h1 _ p []); [done|by eapply made_le|constructor].
  - rewrite object_text in *. cbn [length] in Hlen.
    apply run_bind, run_take, run_bind, run_skip; [apply white_line|done|]. apply run_bind. eapply read_allocated; [exact E|].
    destruct r as [p|]; [|by apply Ha]. destruct Hr as [Hm Ho]. apply run_bind, run_peek. rewrite bool_decide_eq_false_2 by done.
    pose proof (md_keeps _ _ _ Hm) as Hk. rewrite ?length_app in Hlen. pose proof (tail_length (member_text k) ms (line o (k - 1) ++ chr "}" :: rest)).
    eapply run_mono; [apply (members_run pv bound k p ms kt fuel [] h1 [] [] rest (line o (k - 1)))|]; try done.
    + constructor.
    + apply white_line.
    + by apply (kp_fresh _ _ _ Hk).
    + intros H1. by apply Ha, (kp_answers _ _ _ Hk).
    + lia.
    + cbn [length]. lia.
    + cbn [app]. rewrite ?length_app. lia.
    + apply (md_next _ _ _ Hm).
    + intros v l' h' (-> & -> & Hk' & vs & Hvs & Hs). split; [done|]. split; [by eapply made_later|].
      apply (object_shows h' _ p vs); [done|by eapply made_le|done].
Qed.

End Containers.

Lemma read_fixed literal value t rest h : shows h (next_address h) value t ->
  wp (read (parse_literal literal value)) (literal ++ rest) h (value_read t h rest).
Proof. intros H. eapply run_read; [intros pos; eexists; apply literal_run|]. split; [done|]. split; [apply keeps_refl|done]. Qed.

Lemma reads_value bound turns t : valid t -> Z.of_nat bound < 2 ^ 30 -> (bound <= turns)%nat -> forall stack k, (height t < stack)%nat ->
  reads (parse_value strtod turns stack) bound k t.
Proof.
  intros Hv Hb Hturns. revert Hv. induction t as [|b|i|cps|l IH|m IH] using tree_ind; intros Hv stack k Hk w rest h Hw Hr Hf Ha Hlen;
    (destruct stack as [|stack]; [lia|]); cbn [parse_value]; apply run_bind, run_skip; try done; try (by apply print_solid); apply run_bind, run_peek.
  - apply (read_fixed (bytes_of_string "null")). constructor.
  - destruct b; [apply (read_fixed (bytes_of_string "true"))|apply (read_fixed (bytes_of_string "false"))]; constructor.
  - pose proof Hv as Hi. cbn [valid] in Hi. cbn [print].
    assert (wp (read (parse_number strtod)) (Encode.to_chars i ++ rest) h (value_read (JInteger i) h rest)) as H.
    { eapply run_read; [intros pos; eexists; by apply parse_number_run|]. split; [done|]. split; [apply keeps_refl|constructor]. }
    assert (exists c r, Encode.to_chars i = c :: r /\ (c = chr "-" \/ is_digit c = true)) as (c & r & Ec & Hc).
    { unfold Encode.to_chars. destruct (Z.ltb_spec i 0); [eexists _, _; by split; [|left]|]. pose proof (decimal_number i ltac:(lia)) as Hd.
      destruct (Encode.decimal i) as [|c r]; [by destruct (nm_some _ _ Hd)|]. exists c, r. split; [done|]. right.
      by pose proof (nm_digits _ _ Hd) as [Hc _]%Forall_cons. }
    rewrite Ec in *. cbn [app list.head]. destruct Hc as [-> |Hc]; [exact H|].
    destruct (digit_cases c Hc) as [->|[->|[->|[->|[->|[->|[->|[->|[->| ->]]]]]]]]]; exact H.
  - cbn [print quoted app list.head]. change (34 =? 34) with true. cbv iota. apply run_bind. eapply run_read_some.
    { intros pos. by apply (parse_string_run o cps rest pos). }
    intros d Hd. apply run_bind. destruct (make_string_run d (units_of cps) h (proj1 Hd) Hf) as (r & h' & E & Hr'). eapply read_allocated; [exact E|].
    destruct r as [p|]; [|by apply Ha]. destruct Hr' as [Hm Ht]. apply run_ret. split; [done|].
    split; [by eapply keeps_weaken; [apply (md_keeps _ _ _ Hm)|]|by constructor].
  - cbn [list.head print app]. change (chr "[" =? 34) with false. cbv iota. change (chr "[" =? chr "{") with false. cbv iota. rewrite Z.eqb_refl.
    cbn [valid height] in Hv, Hk. rewrite all_Forall in Hv. rewrite length_app in Hlen.
    apply (parse_array_run _ bound); [lia| |done|done|done|lia|lia]. set (d := foldr _ _ _) in *.
    pose proof (foldr_max height l d ltac:(done)) as Hd. rewrite Forall_forall in IH, Hv, Hd |- *. intros t Ht.
    apply IH; [done|by apply Hv|]. specialize (Hd t Ht). cbn beta in Hd. lia.
  - cbn [list.head print app]. change (chr "{" =? 34) with false. cbv iota. rewrite Z.eqb_refl.
    rewrite length_app in Hlen. cbn [height] in Hk.
    apply (parse_object_run _ bound); [lia| |done|done|done|lia|lia].
    set (d := foldr _ _ _) in *. pose proof (foldr_max (fun p => height p.2) m d ltac:(done)) as Hd.
    destruct Hv as [_ Hv]. rewrite all_Forall in Hv. rewrite Forall_forall in IH, Hv, Hd |- *. intros t Ht.
    apply IH; [done|by apply Hv|]. specialize (Hd t Ht). cbn beta in Hd. lia.
Qed.

Lemma parse_document_run stack t h : valid t -> fresh h -> (false ∈ answers h -> refused) -> Z.of_nat (length (print o 1 t)) + 1 < 2 ^ 30 ->
  (height t < stack)%nat -> wp (parse_document strtod (S (length (print o 1 t))) stack) (print o 1 t) h (value_read t h []).
Proof.
  intros Hv Hf Ha Hlen Hst. unfold parse_document. apply run_bind. pose proof (print_solid 1 t [] Hv) as Hs. rewrite app_nil_r in Hs.
  apply run_skip_none; [done|]. apply run_bind. eapply run_mono.
  - pose proof (reads_value (S (length (print o 1 t))) (S (length (print o 1 t))) t Hv ltac:(lia) ltac:(lia) stack 1%nat Hst [] [] h) as H.
    cbn [app] in H. rewrite app_nil_r in H. apply H; try done; [constructor|lia].
  - intros v l' h' (-> & Hk & Hs'). apply run_bind, run_skip_none; [done|]. apply run_bind, run_peek, run_ret. by split.
Qed.

End Reading.

(** ** The round trip *)

(** What the parser has made of a text: a value that shows the tree, or an error for
    want of memory. *)
Definition read_back (strtod : list Z -> spec_float * bool * nat) (stack : nat) (txt : list Z) (h : GcHeap) (t : Json) : Prop :=
  exists r h', Parser.parse strtod stack txt h = Some (r, h') /\
    match r with
    | Done v rest _ => rest = [] /\ shows h' (next_address h) v t /\ (forall v' t', shows h 0 v' t' -> shows h' 0 v' t')
    | Failed message _ => message = "out of memory"%string /\ false ∈ answers h
    end.

Lemma parse_print strtod stack o t h : white (indent_string_ o) -> valid t -> fresh h -> Z.of_nat (length (print o 1 t)) + 1 < 2 ^ 30 ->
  (height t < stack)%nat -> read_back strtod stack (print o 1 t) h t.
Proof.
  intros Ho Hv Hf Hlen Hst. pose proof (parse_document_run (false ∈ answers h) strtod o Ho stack t h Hv Hf ltac:(done) Hlen Hst 0%nat) as H.
  unfold read_back, Parser.parse. destruct (parse_document _ _ _ _ _) as [[[v rest pos|message pos] h']|]; [|by eexists _, _|done].
  eexists _, _. split; [done|]. destruct H as (-> & Hk & Hs). split; [done|]. split; [done|].
  intros v' t' Hs'. eapply shows_kept; [exact Hk| |exact Hs']. intros p c _ Hp Hc. by rewrite (Hf p Hp) in Hc.
Qed.

(** C10. What the generator writes for a value without real numbers, the parser reads
    back.  The value shows a tree of null, booleans, integers of 64 bits, strings of
    Unicode scalar values (no lone surrogates), arrays, and objects with distinct keys,
    of at most 127 levels; the generator is in its initial state, and its options have
    an indent of white space.  Then encoding succeeds unless the sink refuses a part of
    the text, and parsing a text of less than 2^30 characters, in any heap that gives out
    new addresses and with room on the stack for the levels, gives a value that shows the
    same tree there, and leaves every other value as it was, unless memory is short.  (A
    real number may come back as an integer, [real_returns_as_integer].) *)
Theorem json_roundtrip strtod h v t g h2 stack : strings_ok h -> shows h 0 v t -> valid t -> (height t < Encode.kMaxStack)%nat ->
  Encode.state_stack_ g = [Encode.Start] -> white (indent_string_ (Encode.options g)) ->
  fresh h2 -> Z.of_nat (length (print (Encode.options g) 1 t)) + 1 < 2 ^ 30 -> (height t < stack)%nat ->
  exists r g', Encode.encode_js_value h Encode.encode_fuel v g = Some (r, g') /\
    match r with
    | Encode.OK => exists txt, Encode.written g' = Encode.written g ++ txt /\ Encode.get_state g' = Encode.Complete /\ read_back strtod stack txt h2 t
    | _ => r = Encode.ErrorState /\ false ∈ Encode.accepts g
    end.
Proof.
  intros Hh Hv Ht Hk Hg Hw Hf Hlen Hst. destruct (encode_prints h v t g Hh Hv Ht Hk Hg) as (r & g' & E & H). exists r, g'. split; [exact E|].
  destruct r; try exact H. destruct H as [Hwr Hs]. exists (print (Encode.options g) 1 t). split; [exact Hwr|]. split; [exact Hs|].
  by apply parse_print.
Qed.

(** The heap of the array [[1, "a/\u00e9"]], with a line for every element. *)
Definition sample_heap : GcHeap :=
  default initial_heap (snd <$> (gc_new_array 4;; gc_new_string_bytes [97; 47; 233];; gc_array_push 0 (Integer 1);; gc_array_push 0 (HeapString 1)) initial_heap).

Definition sample_tree : Json := JArray [JInteger 1; JString [97; 47; 233]].

Definition sample_generator : Encode.Generator :=
  Encode.set_indent_string [32] (Encode.set_option Encode.EscapeSolidus true (Encode.set_option Encode.Beauty true (Encode.new_generator []))).

Definition no_reals : list Z -> spec_float * bool * nat := fun _ => (S754_nan, false, 0%nat).

Definition sample_text : list Z := [91; 10; 32; 49; 44; 10; 32; 34; 97; 92; 47; 195; 169; 34; 10; 93].

Lemma json_roundtrip_witness : exists g', Encode.encode_js_value sample_heap Encode.encode_fuel (Array 0) sample_generator = Some (Encode.OK, g') /\
  Encode.written g' = sample_text /\ read_back no_reals 2 sample_text initial_heap sample_tree.
Proof.
  destruct (json_roundtrip no_reals sample_heap (Array 0) sample_tree sample_generator initial_heap 2) as (r & g' & E & H).
  - intros p c s Hc Hb. assert (cells sample_heap = <[0%nat := mkCell GcMark_1 (ArrayCell (mkArray 2 2 [Integer 1; HeapString 1; Undefined; Undefined]))]>
      (<[1%nat := mkCell GcMark_1 (StringCell (mkString Byte [97; 47; 233] None))]> ∅)) as Hcells by (vm_compute; reflexivity).
    rewrite Hcells in Hc. apply lookup_insert_Some in Hc as [[_ <-]|[_ Hc]]; [discriminate Hb|].
    apply lookup_insert_Some in Hc as [[_ <-]|[_ Hc]]; [|by rewrite lookup_empty in Hc]. injection Hb as <-.
    repeat constructor; unfold Utf.octet; lia.
  - apply (shows_array _ _ 0 (mkCell GcMark_1 (ArrayCell (mkArray 2 2 [Integer 1; HeapString 1; Undefined; Undefined])))
      (mkArray 2 2 [Integer 1; HeapString 1; Undefined; Undefined])); [done|vm_compute; reflexivity|done|cbn; lia|].
    repeat constructor. exists (mkCell GcMark_1 (StringCell (mkString Byte [97; 47; 233] None))), (mkString Byte [97; 47; 233] None).
    split; [vm_compute; reflexivity|]. split; [done|]. split; [done|by left].
  - split; [done|]. split; [|done]. change (Forall scalar [97; 47; 233]). rewrite !Forall_cons. unfold scalar. repeat split; done || lia.
  - cbn. unfold Encode.kMaxStack. lia.
  - done.
  - repeat constructor.
  - intros p _. apply lookup_empty.
  - vm_compute. reflexivity.
  - cbn. lia.
  - assert (Encode.encode_js_value sample_heap Encode.encode_fuel (Array 0) sample_generator =
      Some (Encode.OK, Encode.mkGenerator sample_text [] [Encode.Complete] (Encode.mkOptions true true false true [32]))) as E' by (vm_compute; reflexivity).
    rewrite E' in E. injection E as <- <-. destruct H as (txt & Hw & _ & Hr). eexists. split; [exact E'|]. split; [done|].
    assert (txt = sample_text) as <- by (symmetry; exact Hw). exact Hr.
Defined.

(** A real number without a fraction comes back as an integer. *)
Example real_returns_as_integer :
  (x ← Encode.encode_js_value initial_heap Encode.encode_fuel (Float (S754_finite false 4503599627370496 (-52))) (Encode.new_generator []);
   y ← Parser.parse no_reals 1 (Encode.written x.2) initial_heap; Some (Encode.written x.2, y.1)) =
  Some (bytes_of_string "1", Done (Integer 1) [] 1).
Proof. vm_compute. reflexivity. Qed.

End RoundTrip.
