(* ===== verification/JsonTotal.v ===== *)
(** * Parsing ends on every text

    The parser comes to an end with a value or an error: it takes a character before every
    call of itself, and what it asks of the heap is there.  What it needs of the stack is
    a frame for every opening bracket of the text, at most; without room for them a text
    ends the process. *)
From Stdlib Require Import Floats.SpecFloat.
From S2P Require Import Prelude JsText JsHeap JsObject JsObjectMap JsonLex JsonStream JsonParse JsonTree JsonRoundTrip.

Module Total.
Import Gc Objects ObjectMap Lex Parser RoundTrip.

(** ** Readers take characters *)

(** [l'] is what is left of [l] when [n] characters or more have been taken. *)
Definition behind (n : nat) (l' l : list Z) : Prop := suffix l' l /\ (length l' + n <= length l)%nat.

Lemma behind_refl l : behind 0 l l.
Proof. split; [done|lia]. Qed.

Lemma behind_drop k l : (k <= length l)%nat -> behind k (drop k l) l.
Proof. intros Hk. split; [exists (take k l); by rewrite take_drop|rewrite length_drop; lia]. Qed.

Lemma behind_cons n c l' l : behind n l' l -> behind (S n) l' (c :: l).
Proof. intros [Hs Hn]. split; [by apply suffix_cons_r|cbn [length]; lia]. Qed.

Lemma behind_trans n m l3 l2 l1 : behind m l3 l2 -> behind n l2 l1 -> behind (n + m) l3 l1.
Proof. intros [H1 Hn] [H2 Hm]. split; [by etrans|lia]. Qed.

Lemma behind_less n m l' l : behind n l' l -> (m <= n)%nat -> behind m l' l.
Proof. intros [Hs Hn] Hm. split; [done|lia]. Qed.

Definition takes {A} (r : Reader A) : Prop := forall l pos a l' pos', r l pos = Done a l' pos' -> behind 1 l' l.

Lemma hex_takes l pos a l' pos' : parse_hex l pos = Done a l' pos' -> behind 4 l' l.
Proof.
  unfold parse_hex. destruct (Nat.ltb_spec (length l) 4); [done|]. destruct (hex_run 4 0 0 l); [|done]. intros [= _ <- _]. apply behind_drop. lia.
Qed.

Lemma unicode_takes l pos a l' pos' : parse_unicode l pos = Done a l' pos' -> behind 0 l' l.
Proof.
  unfold parse_unicode. destruct (parse_hex l pos) as [code l1 pos1|] eqn:E1; [|done]. apply hex_takes in E1. destruct (Utf.is_high code).
  - destruct l1 as [|c0 [|c1 digits]]; [done|done|]. destruct (_ && _); [|done].
    destruct (parse_hex digits _) as [low l2 pos2|] eqn:E2; [|done]. apply hex_takes in E2. destruct (negb _); [done|].
    destruct (_ <? _); [done|]. intros [= _ <- _]. eapply behind_less; [eapply behind_trans; [do 2 apply behind_cons; exact E2|exact E1]|lia].
  - destruct (Utf.is_low code); [done|]. destruct (_ <? _); [done|]. intros [= _ <- _]. eapply behind_less; [eassumption|lia].
Qed.

Lemma string_loop_takes fuel : forall out l pos a l' pos', parse_string_loop fuel out l pos = Done a l' pos' -> behind 1 l' l.
Proof.
  induction fuel as [|fuel IH]; intros out l pos a l' pos' E; destruct l as [|ch rest]; try done. cbn [parse_string_loop] in E.
  destruct (ch =? 34); [injection E as _ <- _; apply behind_cons, behind_refl|]. destruct (ch =? chr "\").
  - destruct rest as [|esc rest']; [done|]. destruct (esc =? chr "u").
    + destruct (parse_unicode rest' _) as [code l1 pos1|] eqn:E1; [|done]. apply unicode_takes in E1. apply IH in E.
      eapply behind_less; [do 2 apply behind_cons; by eapply behind_trans|lia].
    + destruct (simple_escape esc); [|done]. apply IH in E. eapply behind_less; [do 2 apply behind_cons; exact E|lia].
  - destruct (ch <? 0x20); [done|]. destruct (decode_utf8_codepoint (ch :: rest) true _) as [cp k| |] eqn:E1; [|done|done].
    apply decode_taken in E1. destruct (cp <? 0x20); [done|]. apply IH in E. eapply behind_less; [eapply behind_trans; [exact E|apply behind_drop, E1]|lia].
Qed.

Lemma string_takes : takes parse_string.
Proof.
  intros l pos a l' pos'. unfold parse_string. destruct l as [|ch rest]; [done|]. destruct (ch =? 34); [|done].
  intros E%string_loop_takes. eapply behind_less; [apply behind_cons; exact E|lia].
Qed.

Lemma literal_takes literal value : literal <> [] -> takes (parse_literal literal value).
Proof.
  intros Hl l pos a l' pos'. unfold parse_literal. case_bool_decide as Hb; [|done]. intros [= _ <- _].
  apply (f_equal length) in Hb. rewrite length_take in Hb. destruct literal; [done|]. cbn [length] in Hb.
  eapply behind_less; [apply behind_drop|]; cbn [length]; lia.
Qed.

Section Number.
Context (strtod : list Z -> spec_float * bool * nat) (text : list Z) (start : nat).

Lemma value_takes is_float l pos a l' pos' : number_value strtod text start is_float l pos = Done a l' pos' -> behind 0 l' l.
Proof. unfold number_value, invalid_number. intros E. repeat case_match; try done; injection E as _ <- _; apply behind_refl. Qed.

Lemma digits_takes l : forall n r k, skip_digits l n = (r, k) -> behind 0 r l.
Proof.
  induction l as [|c l IH]; intros n r k; cbn [skip_digits]; [intros [= <- _]; apply behind_refl|].
  destruct (is_digit c); [|intros [= <- _]; apply behind_refl]. intros E%IH. eapply behind_less; [apply behind_cons; exact E|lia].
Qed.

Lemma exponent_takes is_float l pos a l' pos' : number_exponent strtod text start is_float l pos = Done a l' pos' -> behind 0 l' l.
Proof.
  unfold number_exponent, invalid_number. destruct l as [|c l]; [by intros ?%value_takes|]. destruct (_ || _); [|by intros ?%value_takes].
  destruct l as [|s l]; [done|]. destruct (_ || _).
  - destruct l as [|d l]; [done|]. destruct (is_digit _); [|done]. destruct (skip_digits _ _) as [r k] eqn:Es. apply digits_takes in Es.
    intros E%value_takes. eapply behind_less; [do 2 apply behind_cons; eapply behind_trans; [exact E|exact Es]|lia].
  - destruct (is_digit _); [|done]. destruct (skip_digits _ _) as [r k] eqn:Es. apply digits_takes in Es.
    intros E%value_takes. eapply behind_less; [apply behind_cons; eapply behind_trans; [exact E|exact Es]|lia].
Qed.

Lemma fraction_takes l pos a l' pos' : number_fraction strtod text start l pos = Done a l' pos' -> behind 0 l' l.
Proof.
  unfold number_fraction, invalid_number. destruct l as [|c l]; [by intros ?%exponent_takes|]. destruct (_ =? _); [|by intros ?%exponent_takes].
  destruct l as [|d l]; [done|]. destruct (is_digit d); [|done]. destruct (skip_digits _ _) as [r k] eqn:Es. apply digits_takes in Es.
  intros E%exponent_takes. eapply behind_less; [apply behind_cons; eapply behind_trans; [exact E|exact Es]|lia].
Qed.

Lemma integer_takes l pos a l' pos' : number_integer strtod text start l pos = Done a l' pos' -> behind 1 l' l.
Proof.
  unfold number_integer, invalid_number. destruct l as [|c l]; [done|]. destruct (_ =? _).
  - destruct l as [|d l]; [intros E%fraction_takes; by apply behind_cons|]. destruct (is_digit d); [done|]. intros E%fraction_takes. by apply behind_cons.
  - destruct (_ && _) eqn:Ec; [|done]. assert (is_digit c = true) as Hc by (unfold is_digit; lia). cbn [skip_digits]. rewrite Hc.
    destruct (skip_digits l _) as [r k] eqn:Es. apply digits_takes in Es. intros E%fraction_takes. apply behind_cons. exact (behind_trans _ _ _ _ _ E Es).
Qed.

End Number.

Lemma number_takes strtod : takes (parse_number strtod).
Proof.
  intros l pos a l' pos'. unfold parse_number, parse_number_at, invalid_number. destruct l as [|c l]; [done|]. destruct (_ =? _).
  - intros E%integer_takes. eapply behind_less; [apply behind_cons; exact E|lia].
  - by intros E%integer_takes.
Qed.

(** ** Running on any text *)

Definition ends {A} : P A -> list Z -> GcHeap -> (A -> list Z -> GcHeap -> Prop) -> Prop := run_to (fun _ => True).

Lemma ends_fail {A} message l h (Q : A -> list Z -> GcHeap -> Prop) : ends (fail message) l h Q.
Proof. by intros pos. Qed.

Lemma ends_read {A} (r : Reader A) l h (Q : A -> list Z -> GcHeap -> Prop) : takes r ->
  (forall a l', behind 1 l' l -> Q a l' h) -> ends (read r) l h Q.
Proof. intros Hr HQ pos. unfold read, mret, M_ret. destruct (r l pos) as [a l' pos'|] eqn:E; [|done]. by eapply HQ, Hr. Qed.

Lemma ends_skip l h (Q : unit -> list Z -> GcHeap -> Prop) : (forall l', behind 0 l' l -> Q tt l' h) -> ends skip_white l h Q.
Proof.
  intros HQ pos. unfold skip_white. destruct (skip_ws l pos) as [r k] eqn:E. apply skip_ws_spec in E as (_ & -> & E & _).
  apply HQ. split; [exists (take (k - pos) l); by rewrite take_drop|lia].
Qed.

Lemma ends_peek l h (Q : option Z -> list Z -> GcHeap -> Prop) : (l = [] -> Q None [] h) -> (forall c l', l = c :: l' -> Q (Some c) l h) -> ends peek l h Q.
Proof. intros H1 H2. apply run_peek. destruct l; [by apply H1|by eapply H2]. Qed.

(** A value has been read: characters have been taken, and only new cells are changed. *)
Definition value_taken (n : nat) (l : list Z) (h : GcHeap) (v : JsValue) (l' : list Z) (h' : GcHeap) : Prop :=
  behind 1 l' l /\ keeps (fun p => n <= p)%nat h h'.

(** How many brackets a text opens. *)
Fixpoint openings (l : list Z) : nat :=
  match l with [] => 0%nat | c :: l' => if (c =? chr "[") || (c =? chr "{") then S (openings l') else openings l' end.

Lemma openings_app l1 l2 : openings (l1 ++ l2) = (openings l1 + openings l2)%nat.
Proof. induction l1 as [|c l1 IH]; [done|]. cbn [app openings]. destruct (_ || _); lia. Qed.

Lemma openings_behind n l' l : behind n l' l -> (openings l' <= openings l)%nat.
Proof. intros [(l1 & ->) _]. rewrite openings_app. lia. Qed.

(** On every text of less than [turns] characters that opens less than [stack] brackets. *)
Definition always (pv : P JsValue) (turns stack : nat) : Prop := forall l h, fresh h -> (length l < turns)%nat -> (openings l < stack)%nat ->
  ends pv l h (value_taken (next_address h) l h).

Lemma map_set_length t v m : (length (map_set t v m) <= S (length m))%nat.
Proof. induction m as [|[t' v'] m IH]; cbn [map_set length]; [lia|]. case_bool_decide; cbn [length]; lia. Qed.

Section Loops.
Context (pv : P JsValue) (turns stack : nat) (Hpv : always pv turns stack) (p : nat).

Lemma elements_end fuel : forall l h vs, fresh h -> (length l < turns)%nat -> (openings l < stack)%nat -> (length l < fuel)%nat -> array_has h p vs ->
  (p < next_address h)%nat -> Z.of_nat (length vs + length l) < 2 ^ 30 -> ends (elements pv fuel p) l h (value_taken p l h).
Proof.
  induction fuel as [|fuel IH]; intros l h vs Hf Hl Ho Hfuel Hp Hn Hsize; [lia|]. cbn [elements]. apply run_bind. eapply run_mono; [by apply Hpv|].
  intros v l1 h1 [Hl1 Hk1]. pose proof (kp_next _ _ _ Hk1) as Hn1.
  assert (array_has h1 p vs) as Hp1 by (destruct Hp as (a & Hb & Hrest); exists a; split; [eapply kept_body; [exact Hk1|cbn; lia|done|done]|done]).
  destruct (append_run h1 p vs v Hp1 ltac:(lia)) as (ok & h2 & E & Hok). apply run_bind. eapply run_succeeds; [exact E|]. destruct ok; [|done].
  destruct Hok as [Hk2 Hp2]. assert (keeps (fun q => p <= q)%nat h h2) as Hk12 by
    (eapply keeps_trans; [eapply keeps_weaken; [exact Hk1|cbn; intros; lia]|eapply keeps_weaken; [exact Hk2|cbn; intros; lia]]).
  apply run_bind, ends_skip. intros l2 Hl2. apply run_bind, ends_peek; [intros _; apply ends_fail|]. intros c l3 ->.
  assert (behind 2 l3 l) as Hl3 by (eapply behind_less; [exact (behind_trans _ _ _ _ _ (behind_cons _ c _ _ (behind_refl l3)) (behind_trans _ _ _ _ _ Hl2 Hl1))|lia]).
  destruct (c =? chr ",").
  - apply run_bind, run_take. pose proof (openings_behind _ _ _ Hl3) as Ho3. pose proof Hl3 as [_ Hlen3]. eapply run_mono.
    + apply (IH l3 h2 (vs ++ [v])); try done; try lia; [by apply (kp_fresh _ _ _ Hk12)|pose proof (kp_next _ _ _ Hk2); lia|rewrite length_app; cbn [length]; lia].
    + intros v' l' h' [Hl' Hk']. split; [eapply behind_less; [by eapply behind_trans|lia]|by eapply keeps_trans].
  - destruct (c =? chr "]"); [|apply ends_fail]. apply run_bind, run_take, run_ret. split; [eapply behind_less; [eassumption|lia]|done].
Qed.

Lemma members_end fuel : forall l h m, fresh h -> (length l < turns)%nat -> (openings l < stack)%nat -> (length l < fuel)%nat -> object_is h p m ->
  (p < next_address h)%nat -> Z.of_nat (length m + length l) < 2 ^ 30 -> ends (members pv fuel p) l h (value_taken p l h).
Proof.
  induction fuel as [|fuel IH]; intros l h m Hf Hl Ho Hfuel Hp Hn Hsize; [lia|]. cbn [members]. apply run_bind, ends_skip. intros l1 Hl1.
  apply run_bind, ends_peek; [intros _; apply ends_fail|]. intros c l1' _. destruct (negb _); [apply ends_fail|].
  apply run_bind, ends_read; [apply string_takes|]. intros key l2 Hl2. apply run_bind, ends_skip. intros l3 Hl3. apply run_bind, run_peek.
  destruct (bool_decide _) eqn:Ec; cbn [negb]; [|apply ends_fail]. apply bool_decide_eq_true in Ec. destruct l3 as [|c3 l3]; [done|].
  assert (behind 2 l3 l) as Hl3'.
  { eapply behind_less; [exact (behind_trans _ _ _ _ _ (behind_cons _ c3 _ _ (behind_refl l3)) (behind_trans _ _ _ _ _ Hl3 (behind_trans _ _ _ _ _ Hl2 Hl1)))|lia]. }
  clear Hl1 Hl2 Hl3. pose proof (openings_behind _ _ _ Hl3') as Ho3. pose proof Hl3' as [_ Hlen3].
  apply run_bind, run_take, run_bind. eapply run_mono; [apply Hpv; [done|lia|lia]|]. intros v l4 h1 [Hl4 Hk1]. pose proof (kp_next _ _ _ Hk1) as Hn1.
  assert (object_is h1 p m) as Hp1 by (eapply object_kept; [exact Hk1|cbn; lia|done]).
  destruct (set_member_run h1 p m key _ v Hp1 (kp_fresh _ _ _ Hk1 Hf) eq_refl) as (ok & h2 & E & Hok); [lia|].
  apply run_bind. eapply run_succeeds; [exact E|]. destruct ok; [|done]. destruct Hok as [Hk2 Hp2].
  assert (keeps (fun q => p <= q)%nat h h2) as Hk12 by
    (eapply keeps_trans; [eapply keeps_weaken; [exact Hk1|cbn; intros; lia]|eapply keeps_weaken; [exact Hk2|cbn; intros; lia]]).
  apply run_bind, ends_skip. intros l5 Hl5. apply run_bind, ends_peek; [intros _; apply ends_fail|]. intros c5 l6 ->.
  assert (behind 2 l6 l) as Hl6.
  { eapply behind_less; [exact (behind_trans _ _ _ _ _ (behind_cons _ c5 _ _ (behind_refl l6)) (behind_trans _ _ _ _ _ Hl5 (behind_trans _ _ _ _ _ Hl4 Hl3')))|lia]. }
  destruct (c5 =? chr ",").
  - pose proof (openings_behind _ _ _ Hl6) as Ho6. pose proof Hl6 as [_ Hlen6]. apply run_bind, run_take. eapply run_mono.
    + apply (IH l6 h2 (map_set (Utf.string_units key) v m) (kp_fresh _ _ _ Hk12 Hf)); [lia|lia|lia|exact Hp2|pose proof (kp_next _ _ _ Hk2); lia|].
      pose proof (map_set_length (Utf.string_units key) v m). lia.
    + intros v' l' h' [Hl' Hk']. split; [eapply behind_less; [by eapply behind_trans|lia]|by eapply keeps_trans].
  - destruct (c5 =? chr "}"); [|apply ends_fail]. apply run_bind, run_take, run_ret. split; [eapply behind_less; [eassumption|lia]|done].
Qed.

End Loops.

Section Values.
Context (strtod : list Z -> spec_float * bool * nat) (turns : nat) (Hturns : Z.of_nat turns <= 2 ^ 30).

Lemma ends_reader (r : Reader JsValue) l h : takes r -> ends (read r) l h (value_taken (next_address h) l h).
Proof. intros Hr. apply ends_read; [done|]. intros a l' Hl. split; [done|apply keeps_refl]. Qed.

Section Inside.
Context (stack : nat) (Hpv : always (parse_value strtod turns stack) turns stack).

Lemma array_end c l h : fresh h -> (length l < turns)%nat -> (openings l < stack)%nat ->
  ends (parse_array (parse_value strtod turns stack) turns) (c :: l) h (value_taken (next_address h) (c :: l) h).
Proof.
  intros Hf Hl Ho. unfold parse_array. apply run_bind, run_take, run_bind, ends_skip. intros l1 Hl1. apply run_bind.
  destruct (make_run true (ArrayCell (mkArray 0 0 (replicate Stream.kInitialContainerCapacity Undefined))) h Hf) as (r & h1 & E & Hr).
  rewrite <-(gc_new_array_small Stream.kInitialContainerCapacity) in E by done.
  eapply run_allocated; [exact E|]. destruct r as [p|]; [|done]. destruct Hr as [Hm Hb]. pose proof (md_keeps _ _ _ Hm) as Hk.
  pose proof (openings_behind _ _ _ Hl1) as Ho1. pose proof Hl1 as [_ Hlen1].
  assert (ends (elements (parse_value strtod turns stack) turns p) l1 h1 (value_taken (next_address h) (c :: l) h)) as Helem.
  { eapply run_mono; [apply (elements_end _ _ _ Hpv p _ _ _ []); [by apply (kp_fresh _ _ _ Hk)|lia|lia|lia|
      eexists; split; [exact Hb|split; [cbn; lia|by split]]|apply (md_next _ _ _ Hm)|cbn [length]; lia]|].
    intros v l' h' [Hl' Hk']. split; [|by eapply made_later]. eapply behind_less; [apply behind_cons; by eapply behind_trans|lia]. }
  apply run_bind, ends_peek; [intros ->; by rewrite bool_decide_eq_false_2|intros c1 l2 ->]. destruct (bool_decide _); [|exact Helem].
  apply run_bind, run_take, run_ret. split; [|by eapply keeps_weaken].
  eapply behind_less; [exact (behind_trans _ _ _ _ _ (behind_cons _ c1 _ _ (behind_refl l2)) (behind_cons _ c _ _ Hl1))|lia].
Qed.

Lemma object_end c l h : fresh h -> (length l < turns)%nat -> (openings l < stack)%nat ->
  ends (parse_object (parse_value strtod turns stack) turns) (c :: l) h (value_taken (next_address h) (c :: l) h).
Proof.
  intros Hf Hl Ho. unfold parse_object. apply run_bind, run_take, run_bind, ends_skip. intros l1 Hl1. apply run_bind.
  destruct (make_object_run h Hf) as (r & h1 & E & Hr).
  eapply run_allocated; [exact E|]. destruct r as [p|]; [|done]. destruct Hr as [Hm Hob]. pose proof (md_keeps _ _ _ Hm) as Hk.
  pose proof (openings_behind _ _ _ Hl1) as Ho1. pose proof Hl1 as [_ Hlen1].
  assert (ends (members (parse_value strtod turns stack) turns p) l1 h1 (value_taken (next_address h) (c :: l) h)) as Hmem.
  { eapply run_mono; [apply (members_end _ _ _ Hpv p _ _ _ [] (kp_fresh _ _ _ Hk Hf)); [lia|lia|lia|done|apply (md_next _ _ _ Hm)|cbn [length]; lia]|].
    intros v l' h' [Hl' Hk']. split; [|by eapply made_later]. eapply behind_less; [apply behind_cons; by eapply behind_trans|lia]. }
  apply run_bind, ends_peek; [intros ->; by rewrite bool_decide_eq_false_2|intros c1 l2 ->]. destruct (bool_decide _); [|exact Hmem].
  apply run_bind, run_take, run_ret. split; [|by eapply keeps_weaken].
  eapply behind_less; [exact (behind_trans _ _ _ _ _ (behind_cons _ c1 _ _ (behind_refl l2)) (behind_cons _ c _ _ Hl1))|lia].
Qed.

End Inside.

Lemma value_end stack : always (parse_value strtod turns stack) turns stack.
Proof.
  induction stack as [|stack IH]; intros l h Hf Hl Ho; [lia|]. cbn [parse_value]. apply run_bind, ends_skip. intros l1 Hl1.
  apply run_bind, ends_peek; [intros _; apply ends_fail|]. intros c l2 ->.
  assert (forall m, ends m (c :: l2) h (value_taken (next_address h) (c :: l2) h) -> ends m (c :: l2) h (value_taken (next_address h) l h)) as Hup.
  { intros m H. eapply run_mono; [exact H|]. intros v l' h' [H1 H2]. split; [exact (behind_trans _ _ _ _ _ H1 Hl1)|done]. }
  apply Hup. clear Hup. pose proof (openings_behind _ _ _ Hl1) as Ho1. destruct Hl1 as [_ Hlen1]. cbn [length] in Hlen1. destruct (c =? 34).
  { apply run_bind, ends_read; [apply string_takes|]. intros d l' Hl'. apply run_bind.
    destruct (make_string_run d _ h eq_refl Hf) as (r & h' & E & Hr). eapply run_allocated; [exact E|]. destruct r as [p|]; [|done].
    destruct Hr as [Hm _]. apply run_ret. split; [done|]. by eapply keeps_weaken; [apply (md_keeps _ _ _ Hm)|]. }
  cbn [openings] in Ho1. rewrite orb_comm in Ho1. destruct (c =? chr "{"); [apply object_end; try done; cbn [orb] in Ho1; lia|].
  cbn [orb] in Ho1. destruct (c =? chr "["); [apply array_end; try done; lia|].
  destruct (c =? chr "t"); [by apply ends_reader, literal_takes|]. destruct (c =? chr "f"); [by apply ends_reader, literal_takes|].
  destruct (c =? chr "n"); [by apply ends_reader, literal_takes|]. destruct (_ || _); [apply ends_reader, number_takes|apply ends_fail].
Qed.

End Values.

(** The text has been read to its end, and the values that were in the heap show what
    they showed before. *)
Definition value_or_error (r : Result JsValue) (h h' : GcHeap) : Prop :=
  match r with
  | Done v rest _ => rest = [] /\ fresh h' /\ forall v' t', Tree.shows h 0 v' t' -> Tree.shows h' 0 v' t'
  | Failed message _ => True
  end.

(** C28. The parser ends on every text for which the thread has the stack: if there is room
    for more calls of [parse_value] inside each other than the text has opening brackets,
    then the parser ends with a value or with an error, without an access to the heap
    that fails: it never asks for a cell that is not there.  The text has less than 2^30
    characters, and the heap gives out new addresses.  (Without the room the text ends the
    process, [deep_text_overflows].) *)
Theorem parse_ends strtod stack data h : fresh h -> Z.of_nat (length data) < 2 ^ 30 -> (openings data < stack)%nat ->
  exists r h', Parser.parse strtod stack data h = Some (r, h') /\ value_or_error r h h'.
Proof.
  intros Hf Hlen Ho.
  assert (ends (parse_document strtod (S (length data)) stack) data h (fun _ l' h' => l' = [] /\ keeps (fun p => next_address h <= p)%nat h h')) as H.
  { unfold parse_document. apply run_bind, ends_skip. intros l1 Hl1. pose proof (openings_behind _ _ _ Hl1). destruct Hl1 as [_ Hl1]. apply run_bind.
    eapply run_mono; [apply (value_end strtod (S (length data)) ltac:(lia) stack); [done|lia|lia]|]. intros v l2 h1 [Hl2 Hk].
    apply run_bind, ends_skip. intros l3 _. apply run_bind, ends_peek; [intros _; by apply run_ret|]. intros; apply ends_fail. }
  specialize (H 0%nat). unfold Parser.parse. destruct (parse_document _ _ _ _ _ _) as [[[v rest pos|message pos] h']|]; [|by eexists _, _|done].
  eexists _, _. split; [done|]. destruct H as [-> Hk]. split; [done|]. split; [by apply (kp_fresh _ _ _ Hk)|].
  intros v' t' Hs. eapply shows_kept; [exact Hk| |exact Hs]. intros p c _ Hp Hc. by rewrite (Hf p Hp) in Hc.
Qed.

Lemma parse_ends_witness : exists h', Parser.parse no_reals 3 (bytes_of_string "[1, [true], 02]") initial_heap = Some (Failed "leading zero in number" 12, h') /\
  value_or_error (Failed "leading zero in number" 12) initial_heap h'.
Proof.
  destruct (parse_ends no_reals 3 (bytes_of_string "[1, [true], 02]") initial_heap) as (r & h' & E & H).
  - intros p _. apply lookup_empty.
  - vm_compute. reflexivity.
  - vm_compute. lia.
  - exists h'. assert (fst <$> Parser.parse no_reals 3 (bytes_of_string "[1, [true], 02]") initial_heap = Some (Failed "leading zero in number" 12)) as E1
      by (vm_compute; reflexivity).
    rewrite E in E1 |- *. injection E1 as ->. by split.
Defined.

(** ** Deep texts *)

Lemma opening_overflows strtod turns stack : forall l pos h, answers h = [] ->
  parse_value strtod turns stack (replicate (S stack) (chr "[") ++ l) pos h = None.
Proof.
  induction stack as [|stack IH]; intros l pos h Ha; [done|]. change (replicate (S (S stack)) (chr "[") ++ l) with (chr "[" :: chr "[" :: replicate stack (chr "[") ++ l).
  set (r := replicate stack (chr "[") ++ l) in *. destruct h as [cs os bs th lm na ans]. cbn in Ha. subst ans.
  assert (exists p h', answers h' = [] /\ parse_value strtod turns (S stack) (chr "[" :: chr "[" :: r) pos (mkHeap cs os bs th lm na []) =
    elements (parse_value strtod turns stack) turns p (chr "[" :: r) (pos + 1)%nat h') as (p & h' & Ha & ->) by (eexists _, _; split; [|reflexivity]; reflexivity).
  destruct turns as [|turns]; [done|]. cbn [elements]. unfold mbind, P_bind, mbind, M_bind. by rewrite (IH l _ h' Ha).
Qed.

(** A text with as many brackets in a row as there is room for calls overflows the stack,
    whatever follows. *)
Lemma deep_text_overflows strtod stack l h : answers h = [] -> Parser.parse strtod stack (replicate (S stack) (chr "[") ++ l) h = None.
Proof.
  intros Ha. unfold Parser.parse. set (turns := S _). clearbody turns.
  assert (parse_document strtod turns stack (replicate (S stack) (chr "[") ++ l) 0%nat h =
    (parse_value strtod turns stack ≫= fun value => skip_white;; ch ← peek;
      match ch with None => mret value | Some _ => Parser.fail "trailing characters after JSON value" end)
      (replicate (S stack) (chr "[") ++ l) 0%nat h) as -> by reflexivity.
  unfold mbind, P_bind, mbind, M_bind. by rewrite opening_overflows.
Qed.

End Total.
